(* ===== verification/_CoqProject ===== *)
-Q . S2P
Prelude.v
PyFloat.v
Json.v
SchemaTypes.v
Schema.v
Pointer.v
Base64.v
Recording.v
RecordingDiff.v
Compare.v
RecordingQuery.v
ReplayWindow.v
Manifest.v
ManifestValidate.v
ManifestAgree.v
ManifestSound.v
SourceScope.v
Participant.v
Interchange.v
VizSource.v
Navigation.v
NavigationProofs.v
Playback.v
PlaybackReads.v
PlaybackProofs.v
PlaybackRequests.v
PlaybackDelivery.v
PlaybackLiveness.v
Coupling.v
CouplingOrder.v
CouplingTimeline.v
CouplingManifest.v
CouplingPlan.v
CouplingCanonical.v
CsvText.v
Csv.v
CsvProofs.v
FmuRuntime.v
FmuGroup.v
FmuGroupProofs.v
FmuGroupRun.v
FmuSingle.v
FmuDescription.v
FmuMapping.v
FmuMappingProofs.v
FmuRuntime2.v
FmuRuntime2Proofs.v
FmuCompose.v
FmuComposeProofs.v
SchemaImport.v
SchemaImportProofs.v
