(* ===== verification/Prelude.v ===== *)
(** * SiL: verification of the Python authoring and evidence tools

    SiL runs a deterministic software-in-the-loop simulation. A user writes a
    Manifest with the Python builder, the C++ kernel executes it and writes a
    Recording (an MCAP file of timestamped Messages), and Python tools read
    the Recording back: they diff it against another run, compare it with a
    reference under a contract, answer bounded queries, cut a window out of it
    for replay, and join it with source-scope captures. This development models
    those Python tools under [src/python/src/sil/], the runtime of a process
    participant that the kernel steps, and the visualization back end that
    plays a Recording, and proves what each promises. Python code that raises is
    a function to [result], with a constructor of an error type for each refusal,
    carrying the values its message interpolates; Python integers are [Z], floats are their 64-bit
    patterns, a dict is an association list in insertion order, and JSON values
    and untyped arguments are [json].

    ** Files, and the code they model

    - Prelude.v: the result monad, raising loops ([foldE], [mapE]), bytes and
      little-endian integers, dicts ([dget], [dset], [dict_of]), reachability of a step
      relation, sorted lists, tactics ([inv_ok], [mcbn]) and the hint database.
    - PyFloat.v: binary64 and binary32 at the bit level, rounding, and Python's
      exact comparison of ints and floats. Json.v: JSON values, [==] on them,
      the size of their compact text.
    - SchemaTypes.v ([_schema_types.py]): primitive types, bounds, name rules.
    - Schema.v ([schema.py]): the Message codec. [Module Struct] is the
      [struct] module's packing; [mt_pack] and [mt_unpack] are
      [MessageType.pack], whose values are keyword arguments, and [unpack].
    - Recording.v ([recording.py]): the physical MCAP scan ([scan]), random
      access by location, the chunk-indexed reader and the channel list.
      [Module Mcap] writes the files the theorems read back. The record
      [recording] and the class [FilteredReads] are the interface the clients
      below are proved against; [mcap_filtered_reads] discharges it for MCAP
      files and [list_filtered_reads] for a list of Messages.
    - RecordingDiff.v ([recording_diff.py]): the first difference of two runs.
    - Compare.v ([compare.py]): contract, coverage, judging, tally and verdict.
    - RecordingQuery.v ([recording_query.py]): selectors, predicates, budgets,
      the scan loop, and the report.
    - ReplayWindow.v ([replay_window.py]): selection, initial holds, gap limit,
      rebase to Virtual time zero, writer calls and receipt.
    - Manifest.v ([manifest.py]): the builder. [manifest] is the object's state,
      [exec] one authoring call, [to_doc] the document.
    - ManifestValidate.v ([manifest_validate.py]): the check that collects every
      problem, as a writer monad ([check]) with two proof rules: [checks] (all
      problems satisfy a predicate) and [clean] (no problem).
      ManifestAgree.v proves that what the builder emits passes the check, and
      ManifestSound.v what an accepted document guarantees.
    - SourceScope.v ([source_scope_decode.py]): the raw capture file, the
      observation stream, pairing, and the join with Activations.
    - Participant.v ([participant.py]): the wire protocol of a process
      participant, its shared-memory arena, and the step loop [run].
    - Pointer.v, Base64.v and Interchange.v ([visualization/interchange.py]):
      JSON Pointers, base64, and the JSON form of schemas and payloads.
    - VizSource.v ([visualization/source.py]): the catalog of a finalized
      Recording and its stored Messages.
    - Navigation.v ([visualization/navigation.py]): the index of a Recording and
      the Navigator over it; NavigationProofs.v its theorems.
    - Playback.v ([visualization/playback.py]): the playback controller.
      PlaybackReads.v states what a Navigator promises to it
      ([navigator_laws]) and discharges that for Navigation.v
      ([navigation_laws]). PlaybackProofs.v is the controller as a machine of
      events and its invariant, PlaybackRequests.v its request cache,
      PlaybackDelivery.v what it delivers, PlaybackLiveness.v that it ends.
    - Coupling.v ([fmi/coupling.py], [fmi/documents.py]): the document that
      couples FMUs, the Manifest it authors over the builder of Manifest.v, the
      sources of every input, the order of a Slot and the plan of each route.
      CouplingOrder.v proves the order and its cycle search, CouplingTimeline.v
      that the simulated queue of a route follows the delivery rule,
      CouplingManifest.v and CouplingCanonical.v what Manifest is authored, and
      CouplingPlan.v what an accepted coupling guarantees.
    - CsvText.v and Csv.v ([csv_recording.py]): the strict [csv] reader, the
      conversion of cells, the mapping document, and the rows, writer calls and
      counts of a conversion over the packing of Schema.v; CsvProofs.v its theorems.
    - FmuRuntime.v ([fmi/runtime.py], [fmi/stepping.py], [fmi/binding.py]): an
      FMI 3.0 instance driven through its entry points, in a state and error monad
      with its program logic ([triple]). FmuGroup.v ([fmi/terminals.py],
      [fmi/group.py]): FMUs connected through network terminals and scheduled
      between Slots. FmuGroupProofs.v has the contract of FMI and of the FMU's
      requests as a machine over the calls it receives ([monitor]) and the
      invariant of a group, FmuGroupRun.v its theorems for whole Runs. FmuSingle.v
      ([fmi/single.py]): one FMU on the kernel's Slots, under the same contract.
    - FmuDescription.v ([fmi/description.py]): what the elements of a
      [modelDescription.xml] mean, for FMI 3.0, FMI 2.0 and the OSMP layer over it.
      FmuMapping.v ([fmi/mapping.py] and the binding of Channels in
      [fmi/single.py]): which variables a Channel's fields are, and the start
      values of an FMU; FmuMappingProofs.v its theorems, which compose it with the
      packing of Schema.v. FmuCompose.v ([fmi/composition.py], and the part of
      [fmi/group.py] that reads the arguments of a group): FMUs, terminals and
      transceivers built from declarations and descriptions; FmuComposeProofs.v
      that every accepted composition is wired as FmuGroup.v needs it.
    - FmuRuntime2.v ([fmi/runtime2.py]): FMI 2.0 instances, with the memory an OSMP
      variable is passed through by address, under the participant of
      [fmi/single.py]; FmuRuntime2Proofs.v its theorems.
    - SchemaImport.v ([schema_import.py]): Schemas from the DWARF description of C
      types; SchemaImportProofs.v what their packed layout is, over the codec of
      Schema.v.

    ** What the theorems show

    - Round trips and layouts: [unpack_pack], [pack_unpack] and [pack_shapes]
      (the codec), [stored_messages_encoded] (scanning an encoded file gives its
      Messages), [locations_readable] (every location the scan reports reads
      back its Message), [pointer_round_trip] (JSON Pointers).
    - Termination and fuel: [scan_terminates]. The scan's fuel is the file's
      length, as every record consumes at least its nine-byte head; the bisection's
      fuel is the number of intervals. [OutOfFuel] is an error that the theorem
      excludes, not a result.
    - Refinement of a filtering specification: [indexed_records_filter],
      [locate_messages_batches].
    - Functional correctness of the evidence tools: [first_difference_sound] and
      [first_difference_complete]; [compare_verdict], [first_divergence_least],
      [compare_self] and [read_contract_sound]; [query_rows],
      [selector_agrees], [summary_extremes] and [query_report_size];
      [parse_window_sound], [select_structure], [select_coverage] and
      [rebased_shift]; [pair_conserves], [pair_nests], [decode_totals],
      [decode_attributes_inside], [nest_enclosing] and [find_interval_iff].
    - The Manifest: [authored_invariant] (any sequence of calls, by rule
      induction over [reachable]), [to_doc_accepts], [to_doc_names_publishers],
      [built_document_checks], [validate_sound], [problems_located], and
      [null_count_refused], where the builder and the check disagree.
    - Conversations with the kernel: [run_conversation] (what a participant sends
      is the conversation [conversation] admits, with the reply that belongs to what
      [on_init] and [on_step] returned), [outputs_delivered] and [arena_history].
    - The visualization back end: [payload_lossless] and [payload_valid];
      [rows_after_plans] (two query plans agree), [pages_complete] (paging gives
      every Message once) and [prepare_reuses]; for the controller
      [queue_bounded] (safety under all interleavings), [delivery_exact] (every
      crossed Message once and in order, but for two command sequences),
      [playback_finishes] (the end is reached whatever came before), [configure_once]
      (requests are idempotent), and the example [rewinds], where those two
      sequences deliver Messages again. The fuel of
      [predecessor] is one more than the number of Messages, as every page of
      its walk gives one at least.

    - FMU coupling: [execution_order_correct]; [timeline_refines] (a queue
      simulation against a reference that has no queue) and from it
      [checked_route_bounds]; [checked_sources]; [coupled_manifest_topology],
      [coupled_manifest_canonical], and [coupled_document_checks], which
      composes the coupling with the builder and the check of a Run. The search
      for a loop has the number of FMUs as fuel: a path repeats no node.
    - CSV conversion: [table_converted] (of the files that hold a table, however
      they are quoted, exactly the well-formed convert, to the Messages their rows
      carry), [timestamps_exact],
      [broken_column_reads], and [long_cell_misplaced], where the reported column
      is not the one the reader was in. The loop over rows has the number of
      lines as fuel, as every record takes one ([rows_loop_fuel]).
    - FMU importers, for FMUs that answer anything: [group_conforms] and
      [single_conforms] (every call is allowed, no requested event is passed or
      missed, also on the way out of a failure; [driven] states the one exception,
      an FMU that is terminated before its initialization is over), [group_together] (one grid of
      communication points for all FMUs), [group_times] (published activations
      are dated and ordered), [large_groups_fail] and
      [discarded_start_terminates], where the code does not do what it says. The
      loop over a Step has its nanoseconds as fuel, as every boundary is later
      than the last ([advance_from_fuel]).
    - FMI documents: [out_message_packs] (which Messages of an accepted output
      Channel the codec packs), [in_message_written] (every Message of an accepted
      input Channel can be written), [address_halves_refused] (no half of an OSMP
      address is ever mapped as a number); [compose_wired] (the invariant of an
      accepted composition) and [composed_conforms], which composes it with the
      Run of a group, so that the contract of FMI holds from the documents on.
    - FMI 2.0: [fmi2_conforms] (the state machine of FMI 2.0, for FMUs that export
      its functions; [abandoned] is the one exception, an FMU that answers that its
      step is pending) and [osmp_delivered] (a Step finds the
      newest Message at the address the FMU was given).
    - Schema import: [imported_layout] (every field is at the offset of the C
      member or array elements it is named after), [imported_values] (an imported
      Schema reads the memory of a C object as the object), and [import_ends]. C types are
      the entries that [sized] describes; the fuel of the walk counts the entries
      on a path, and some fuel is enough for every C type.

    ** Parameters

    Code outside the repository is an argument of the definitions that use it:
    [json.loads], SHA-256, the zstd and lz4 decompressors, pyelftools, the mcap
    package's summary reader, chunk iterator and writer, the file system and PATH, the
    text of a continuation token, the length of a float's [repr], path resolution
    the report of an FMU's inspection, the limit of the [csv] module on a cell,
    and the FMU binaries ([behaviour], what one answers after the calls before).
    Theorems that rely on a parameter name what
    they need of it as a hypothesis, and their witness instantiates it.

    ** Not modelled

    Message texts and hints, argument parsing and printing ([main] functions);
    the JSON text of a Manifest and its hash; a caller that changes a schema
    dict after adding it; strings are UTF-8 bytes, so lone surrogates cannot be
    written and only ASCII white space and digits are recognised where the code
    asks for them. The C++ kernel and the shims appear only as the data they
    write. SQLite is its tables and queries, without storage failures; the
    playback controller's waits on its condition variable are the order of its
    events. Of FMI the archives and their extraction, the XML text (a description
    is its tree of elements), and the inspection, substitution and authoring
    commands are left out: they are file system work around the documents modelled
    here. The playback servers and exports, the run matrix, bundles, the profiling and
    diagnostics reports, the command line and the repository's tools are not
    modelled: they are mostly processes, sockets, reports and text. *)

From Stdlib Require Import ZArith Lia.
From Stdlib Require Export Strings.Byte.
From stdpp Require Export base tactics list strings sorting gmap.
From stdpp Require Import options.

#[export] Set Default Proof Using "Type".
Open Scope Z_scope.

(** ** Results: Python code that returns or raises *)

Inductive result (E A : Type) : Type :=
| Ok (a : A)
| Err (e : E).
Arguments Ok {_ _} _.
Arguments Err {_ _} _.

Declare Scope sil_scope.
Delimit Scope sil_scope with sil.
Open Scope sil_scope.

#[export] Instance result_ret {E} : MRet (result E) := λ A a, Ok a.

#[export] Instance result_bind {E} : MBind (result E) := λ A B f m,
  match m with Ok a => f a | Err e => Err e end.

#[export] Instance result_fmap {E} : FMap (result E) := λ A B f m,
  match m with Ok a => Ok (f a) | Err e => Err e end.

(** [raise_if b e]: [if b: raise e]. *)
Definition raise_if {E} (b : bool) (e : E) : result E () :=
  if b then Err e else Ok ().

Notation "'raise:' e 'if:' b ;; k" := (raise_if b e ≫= λ _, k)
  (at level 100, e at next level, b at next level, k at level 200,
   right associativity, only parsing) : sil_scope.

(** A [for] loop whose body may raise: the accumulator is threaded left to
    right and the first error stops the loop. *)
Fixpoint foldE {E A B} (f : A → B → result E A) (a : A) (l : list B)
    : result E A :=
  match l with
  | [] => Ok a
  | x :: l => f a x ≫= λ a', foldE f a' l
  end.

(** A list comprehension whose element expression may raise. *)
Fixpoint mapE {E A B} (f : A → result E B) (l : list A) : result E (list B) :=
  match l with
  | [] => Ok []
  | x :: l => f x ≫= λ y, mapE f l ≫= λ ys, Ok (y :: ys)
  end.

(** [enumerate]. *)
Fixpoint enumerate_from {A} (i : nat) (l : list A) : list (nat * A) :=
  match l with
  | [] => []
  | x :: l => (i, x) :: enumerate_from (S i) l
  end.
Definition enumerate {A} : list A → list (nat * A) := enumerate_from 0.

Section results.
Context {E : Type}.

Lemma bind_Ok {A B} (m : result E A) (f : A → result E B) b :
  m ≫= f = Ok b ↔ ∃ a, m = Ok a ∧ f a = Ok b.
Proof. destruct m; cbn; naive_solver. Qed.

Lemma raise_if_Ok (b : bool) (e : E) u : raise_if b e = Ok u ↔ b = false.
Proof. destruct b, u; cbn; naive_solver. Qed.

Lemma foldE_app {A B} (f : A → B → result E A) a l1 l2 :
  foldE f a (l1 ++ l2) = (foldE f a l1 ≫= λ a', foldE f a' l2).
Proof.
  revert a. induction l1 as [|x l1 IH]; intros a; cbn; [done|].
  destruct (f a x); cbn; auto.
Qed.

(** Invariant rule for a raising loop. *)
Lemma foldE_inv {A B} (P : A → Prop) (f : A → B → result E A) a l a' :
  (∀ a x a1, x ∈ l → P a → f a x = Ok a1 → P a1) →
  P a → foldE f a l = Ok a' → P a'.
Proof.
  revert a. induction l as [|x l IH]; intros a Hf Ha; cbn.
  - by intros [= <-].
  - intros (a1 & H1 & H2)%bind_Ok. eapply IH; [|eapply Hf|done]; eauto.
    + intros. eapply Hf; eauto. by right.
    + left.
Qed.

(** The iteration that stopped a raising loop. *)
Lemma foldE_Err {A B} (f : A → B → result E A) a l e :
  foldE f a l = Err e →
  ∃ l1 x l2 a1, l = l1 ++ x :: l2 ∧ foldE f a l1 = Ok a1 ∧ f a1 x = Err e.
Proof.
  revert a. induction l as [|x l IH]; intros a; cbn [foldE]; [discriminate|].
  destruct (f a x) as [a1|e1] eqn:Hx; cbn [mbind result_bind].
  - intros (l1 & y & l2 & a2 & -> & H1 & H2)%IH. exists (x :: l1), y, l2, a2.
    cbn [foldE]. by rewrite Hx.
  - intros [= ->]. by exists [], x, l, a.
Qed.

Lemma mapE_Ok {A B} (f : A → result E B) l ys :
  mapE f l = Ok ys ↔ Forall2 (λ x y, f x = Ok y) l ys.
Proof.
  revert ys. induction l as [|x l IH]; intros ys; cbn.
  - split; [intros [= <-]; constructor | by inversion 1].
  - rewrite bind_Ok. split.
    + intros (y & Hy & (ys' & Hys & [= <-])%bind_Ok).
      constructor; [done|]. by apply IH.
    + inversion 1; subst. eexists; split; [done|]. apply bind_Ok.
      eexists; split; [by apply IH | done].
Qed.

Lemma mapE_length {A B} (f : A → result E B) l ys :
  mapE f l = Ok ys → length ys = length l.
Proof. intros H%mapE_Ok. symmetry. by eapply Forall2_length. Qed.

Lemma mapE_app {A B} (f : A → result E B) l1 l2 :
  mapE f (l1 ++ l2)
  = (mapE f l1 ≫= λ a, mapE f l2 ≫= λ b, Ok (a ++ b)).
Proof.
  induction l1 as [|x l1 IH]; cbn.
  - by destruct (mapE f l2).
  - destruct (f x); cbn; [|done]. rewrite IH.
    destruct (mapE f l1); cbn; [|done]. by destruct (mapE f l2).
Qed.
End results.

Lemma enumerate_from_length {A} i (l : list A) :
  length (enumerate_from i l) = length l.
Proof. revert i. induction l; intros i; cbn; auto. Qed.

Lemma enumerate_from_lookup {A} i (l : list A) k :
  enumerate_from i l !! k = (λ x, ((i + k)%nat, x)) <$> l !! k.
Proof.
  revert i k. induction l as [|x l IH]; intros i [|k]; cbn; try done.
  - by rewrite Nat.add_0_r.
  - rewrite IH. destruct (l !! k); cbn; repeat f_equal; lia.
Qed.

Lemma enumerate_from_snd {A} i (l : list A) : (enumerate_from i l).*2 = l.
Proof. revert i. induction l as [|x l IH]; intros i; cbn; f_equal; auto. Qed.

Lemma elem_enumerate {A} i (l : list A) k x :
  (k, x) ∈ enumerate_from i l → ∃ j, (k = i + j)%nat ∧ l !! j = Some x.
Proof.
  intros [j Hj]%list_elem_of_lookup. rewrite enumerate_from_lookup in Hj.
  destruct (l !! j) eqn:Hl; [|done]. injection Hj as <- <-. eauto.
Qed.

Lemma enumerate_elem {A} (l : list A) i x : (i, x) ∈ enumerate l → l !! i = Some x.
Proof. by intros (j & -> & Hj)%elem_enumerate. Qed.

(** A loop of checks that return nothing. *)
Lemma foldE_unit {E B} (f : B → result E ()) l :
  foldE (λ _ x, f x) () l = Ok () ↔ Forall (λ x, f x = Ok ()) l.
Proof.
  induction l as [|x l IH]; cbn [foldE]; [split; [constructor | done]|].
  rewrite Forall_cons, <- IH, bind_Ok. split.
  - intros ([] & ? & ?). done.
  - intros [? ?]. by exists ().
Qed.

Lemma foldE_each {E A} (f : A → result E ()) l u :
  foldE (λ _ x, f x) u l = Ok () → ∀ x, x ∈ l → f x = Ok ().
Proof. destruct u. rewrite foldE_unit. apply Forall_forall. Qed.

(** ** Sorted lists and filters *)

Lemma sorted_snoc {A} (R : A → A → Prop) l x :
  StronglySorted R l → Forall (λ a, R a x) l → StronglySorted R (l ++ [x]).
Proof.
  induction 1 as [|a l Hl IH Ha]; intros Hx; cbn; [repeat constructor|].
  apply Forall_cons in Hx as [Hax Hx]. constructor; [auto|]. apply Forall_app. split; [done|].
  by apply Forall_singleton.
Qed.

Lemma sorted_lookup {A} (R : A → A → Prop) l i j x y :
  StronglySorted R l → l !! i = Some x → l !! j = Some y → (i < j)%nat → R x y.
Proof.
  intros H. revert i j. induction H as [|a l Hl IH Ha]; intros i j Hi Hj Hij; [done|].
  destruct j as [|j]; [lia|]. destruct i as [|i]; cbn in *.
  - injection Hi as <-. apply (proj1 (Forall_forall _ _) Ha). by eapply list_elem_of_lookup_2.
  - eapply IH; eauto. lia.
Qed.

Lemma sorted_filter {A} (R : A → A → Prop) (P : A → Prop) `{!∀ x, Decision (P x)} (l : list A) :
  StronglySorted R l → StronglySorted R (filter P l).
Proof.
  induction 1 as [|x l Hl IH Hx]; [constructor|]. rewrite filter_cons.
  destruct (decide (P x)); [|done]. constructor; [done|].
  apply Forall_forall. intros y [_ Hy]%list_elem_of_filter. by apply (proj1 (Forall_forall _ _) Hx).
Qed.

Lemma filter_all {A} (P : A → Prop) `{!∀ x, Decision (P x)} (l : list A) :
  Forall P l → filter P l = l.
Proof. induction 1 as [|x l Hx Hl IH]; [done|]. rewrite filter_cons, decide_True by done. by f_equal. Qed.

Lemma filter_none {A} (P : A → Prop) `{!∀ x, Decision (P x)} (l : list A) :
  Forall (λ x, ¬ P x) l → filter P l = [].
Proof. induction 1 as [|x l Hx _ IH]; [done|]. by rewrite filter_cons, decide_False. Qed.

Lemma filter_ext_in {A} (P Q : A → Prop) `{!∀ x, Decision (P x), !∀ x, Decision (Q x)} (l : list A) :
  (∀ x, x ∈ l → P x ↔ Q x) → filter P l = filter Q l.
Proof.
  induction l as [|x l IH]; intros HPQ; [done|].
  rewrite !filter_cons, IH by (intros; apply HPQ; by right).
  pose proof (HPQ x (list_elem_of_here _ _)).
  destruct (decide (P x)), (decide (Q x)); (done || tauto).
Qed.

Lemma elem_of_concat {A} (x : A) (ls : list (list A)) : x ∈ concat ls ↔ ∃ l, x ∈ l ∧ l ∈ ls.
Proof. rewrite list_elem_of_In, in_concat. setoid_rewrite list_elem_of_In. naive_solver. Qed.

Lemma filter_twice {A} (P Q : A → Prop) `{!∀ x, Decision (P x), !∀ x, Decision (Q x)} (l : list A) :
  (∀ x, P x → Q x) → filter P (filter Q l) = filter P l.
Proof.
  intros HPQ. induction l as [|x l IH]; [done|]. rewrite !filter_cons.
  destruct (decide (Q x)); [rewrite filter_cons; destruct (decide (P x)); by rewrite IH|].
  rewrite (decide_False (P := P x)) by auto. done.
Qed.

(** Case analysis on every monadic step of a successful computation. *)
Ltac inv_ok :=
  repeat match goal with
  | H : Ok _ = Ok _ |- _ => injection H as H; try subst
  | H : Err _ = Ok _ |- _ => discriminate H
  | H : Ok _ = Err _ |- _ => discriminate H
  | H : (_ ≫= _) = Ok _ |- _ =>
      let a := fresh "a" in let Ha := fresh "Hok" in
      apply bind_Ok in H as (a & Ha & H)
  | H : raise_if _ _ = Ok _ |- _ => apply raise_if_Ok in H
  | H : mret _ = Ok _ |- _ => unfold mret, result_ret in H
  end.

(** Reduce the monad and boolean connectives, and nothing of the model. *)
Ltac mcbn := cbn [mbind result_bind raise_if orb andb negb].

(** ** Bytes, little-endian integers *)

Abbreviation bytes := (list byte).

#[export] Instance byte_eq_decision : EqDecision byte := Byte.byte_eq_dec.

Definition Z_of_byte (b : byte) : Z := Z.of_N (Byte.to_N b).
Definition byte_of_Z (z : Z) : byte :=
  default x00 (Byte.of_N (Z.to_N (z mod 256))).

Lemma Z_of_byte_bound b : 0 ≤ Z_of_byte b < 256.
Proof. unfold Z_of_byte. pose proof (Byte.to_N_bounded b). lia. Qed.

Lemma Z_of_byte_of_Z z : Z_of_byte (byte_of_Z z) = z mod 256.
Proof.
  unfold Z_of_byte, byte_of_Z.
  pose proof (Z.mod_pos_bound z 256 ltac:(lia)) as Hz.
  destruct (Byte.of_N _) as [b|] eqn:Hb; cbn.
  - apply Byte.to_of_N in Hb. rewrite Hb. lia.
  - apply Byte.of_N_None_iff in Hb. lia.
Qed.

Lemma byte_of_Z_of_byte b : byte_of_Z (Z_of_byte b) = b.
Proof.
  unfold byte_of_Z. rewrite Z.mod_small by apply Z_of_byte_bound.
  unfold Z_of_byte. by rewrite N2Z.id, Byte.of_to_N.
Qed.

Lemma Z_of_byte_inj a b : Z_of_byte a = Z_of_byte b → a = b.
Proof. intros H. by rewrite <- (byte_of_Z_of_byte a), H, byte_of_Z_of_byte. Qed.

(** [le_bytes n z]: the [n] low-order bytes of [z], least significant first;
    [le_value] reads them back as an unsigned integer. *)
Fixpoint le_bytes (n : nat) (z : Z) : bytes :=
  match n with
  | O => []
  | S n => byte_of_Z z :: le_bytes n (z / 256)
  end.

Fixpoint le_value (bs : bytes) : Z :=
  match bs with
  | [] => 0
  | b :: bs => Z_of_byte b + 256 * le_value bs
  end.

Lemma length_le_bytes n z : length (le_bytes n z) = n.
Proof. revert z. induction n; intros; cbn; auto. Qed.

Lemma pow256_succ n : 256 ^ Z.of_nat (S n) = 256 * 256 ^ Z.of_nat n.
Proof. rewrite Nat2Z.inj_succ, Z.pow_succ_r; lia. Qed.

Lemma le_value_bound bs : 0 ≤ le_value bs < 256 ^ Z.of_nat (length bs).
Proof.
  induction bs as [|b bs IH]; cbn [le_value length].
  - cbn. lia.
  - rewrite pow256_succ. pose proof (Z_of_byte_bound b). nia.
Qed.

Lemma le_value_le_bytes n z : le_value (le_bytes n z) = z mod 256 ^ Z.of_nat n.
Proof.
  revert z. induction n as [|n IH]; intros z; cbn [le_value le_bytes].
  - by rewrite Z.mod_1_r.
  - rewrite Z_of_byte_of_Z, IH, pow256_succ.
    assert (0 < 256 ^ Z.of_nat n) by (apply Z.pow_pos_nonneg; lia).
    rewrite Z.rem_mul_r by lia. lia.
Qed.

Lemma le_value_le_bytes_small n z :
  0 ≤ z < 256 ^ Z.of_nat n → le_value (le_bytes n z) = z.
Proof. intros. rewrite le_value_le_bytes. by apply Z.mod_small. Qed.

Lemma le_bytes_le_value bs : le_bytes (length bs) (le_value bs) = bs.
Proof.
  induction bs as [|b bs IH]; cbn [le_value le_bytes length]; [done|].
  pose proof (Z_of_byte_bound b).
  assert ((Z_of_byte b + 256 * le_value bs) / 256 = le_value bs) as ->.
  { rewrite Z.mul_comm, Z.div_add by lia. rewrite Z.div_small; lia. }
  rewrite IH. f_equal. apply Z_of_byte_inj. rewrite Z_of_byte_of_Z.
  rewrite Z.mul_comm, Z.mod_add by lia. by apply Z.mod_small.
Qed.

Lemma le_bytes_le_value_n n bs :
  length bs = n → le_bytes n (le_value bs) = bs.
Proof. intros <-. apply le_bytes_le_value. Qed.

Create HintDb sil.
Create Rewrite HintDb sil.
#[export] Hint Rewrite @length_le_bytes @enumerate_from_length : sil.
#[export] Hint Rewrite Z_of_byte_of_Z byte_of_Z_of_byte : sil.

(** Python slices [b[i:j]] of a byte string, for [0 <= i]. *)
Definition slice {A} (l : list A) (i n : nat) : list A := take n (drop i l).

Lemma slice_app {A} (p d s : list A) :
  slice (p ++ d ++ s) (length p) (length d) = d.
Proof. unfold slice. rewrite drop_app_length. by rewrite take_app_length. Qed.

Lemma length_slice {A} (l : list A) i n :
  (i + n ≤ length l)%nat → length (slice l i n) = n.
Proof. intros. unfold slice. rewrite length_take, length_drop. lia. Qed.

(** ** Python dictionaries: association lists in insertion order *)

Section dict.
Context {K V : Type} `{!EqDecision K}.
Implicit Types (d : list (K * V)) (k : K) (v : V).

Fixpoint dget d k : option V :=
  match d with
  | [] => None
  | (k', v) :: d => if decide (k = k') then Some v else dget d k
  end.

Definition dmem d k : bool := bool_decide (k ∈ d.*1).

(** [d[k] = v]: a known key keeps its place, a new one is appended. *)
Fixpoint dset d k v : list (K * V) :=
  match d with
  | [] => [(k, v)]
  | (k', v') :: d => if decide (k = k') then (k', v) :: d
                     else (k', v') :: dset d k v
  end.

Lemma dget_Some d k v : dget d k = Some v → (k, v) ∈ d.
Proof.
  induction d as [|[k' v'] d IH]; cbn; [done|].
  case_decide; [intros [= <-]; subst; left | right; auto].
Qed.

Lemma dget_None d k : dget d k = None ↔ k ∉ d.*1.
Proof.
  induction d as [|[k' v'] d IH]; cbn; [set_solver|].
  case_decide; [set_solver|]. rewrite IH. set_solver.
Qed.

Lemma dget_is_Some d k : is_Some (dget d k) ↔ k ∈ d.*1.
Proof.
  rewrite <- not_eq_None_Some, dget_None.
  destruct (decide (k ∈ d.*1)); tauto.
Qed.

Lemma dmem_true d k : dmem d k = true ↔ k ∈ d.*1.
Proof. unfold dmem. by rewrite bool_decide_eq_true. Qed.

Lemma dmem_false d k : dmem d k = false ↔ k ∉ d.*1.
Proof. unfold dmem. by rewrite bool_decide_eq_false. Qed.

Lemma dget_elem d k v : NoDup d.*1 → (k, v) ∈ d → dget d k = Some v.
Proof.
  induction d as [|[k' v'] d IH]; cbn; [set_solver|].
  rewrite NoDup_cons, elem_of_cons. intros [Hn Hd] [[= -> ->]|Hin].
  - by rewrite decide_True.
  - rewrite decide_False; [by apply IH|]. intros ->.
    apply Hn, list_elem_of_fmap. by exists (k', v).
Qed.

Lemma dget_dset_eq d k v : dget (dset d k v) k = Some v.
Proof.
  induction d as [|[k' v'] d IH]; cbn; [by rewrite decide_True|].
  case_decide; cbn; [by rewrite decide_True | by rewrite decide_False].
Qed.

Lemma dget_dset_ne d k k' v : k ≠ k' → dget (dset d k v) k' = dget d k'.
Proof.
  intros Hne. induction d as [|[k1 v1] d IH]; cbn.
  - by rewrite decide_False by congruence.
  - case_decide; cbn; subst; [by rewrite !decide_False by congruence|].
    by case_decide.
Qed.

Lemma dset_keys_new d k v : k ∉ d.*1 → dset d k v = d ++ [(k, v)].
Proof.
  induction d as [|[k' v'] d IH]; cbn; [done|].
  intros Hn. rewrite decide_False by set_solver. f_equal. set_solver.
Qed.

Lemma dset_keys d k v :
  (dset d k v).*1 = if decide (k ∈ d.*1) then d.*1 else d.*1 ++ [k].
Proof.
  induction d as [|[k' v'] d IH]; [by rewrite decide_False by set_solver|].
  cbn [dset]. rewrite fmap_cons. cbn [fst]. destruct (decide (k = k')) as [->|].
  - by rewrite decide_True by set_solver.
  - rewrite fmap_cons, IH. cbn [fst].
    destruct (decide (k ∈ d.*1)), (decide (k ∈ k' :: d.*1)); set_solver.
Qed.

Lemma dset_NoDup d k v : NoDup d.*1 → NoDup (dset d k v).*1.
Proof.
  intros Hd. rewrite dset_keys. case_decide; [done|].
  apply NoDup_app. split_and!; [done| set_solver | apply NoDup_singleton].
Qed.

(** A dict comprehension: a repeated key keeps its first place and its last
    value. *)
Definition dict_of (l : list (K * V)) : list (K * V) := foldl (λ d kv, dset d kv.1 kv.2) [] l.

Lemma dict_of_snoc l k v : dict_of (l ++ [(k, v)]) = dset (dict_of l) k v.
Proof. unfold dict_of. by rewrite foldl_app. Qed.

(** The last binding of a key is the one that stays. *)
Lemma dict_of_last l l' k v : k ∉ l'.*1 → dget (dict_of (l ++ (k, v) :: l')) k = Some v.
Proof.
  induction l' as [|[k' v'] l' IH] using rev_ind; intros Hk.
  - rewrite dict_of_snoc. apply dget_dset_eq.
  - rewrite fmap_app, not_elem_of_app in Hk. rewrite app_comm_cons, app_assoc, dict_of_snoc.
    destruct Hk as [Hk1 Hk2]. rewrite dget_dset_ne; [by apply IH|]. cbn in Hk2. intros ->. apply Hk2. by left.
Qed.

Lemma dict_of_NoDup l : NoDup (dict_of l).*1.
Proof.
  induction l as [|[k v] l IH] using rev_ind; [constructor|].
  rewrite dict_of_snoc. by apply dset_NoDup.
Qed.
End dict.

(** ** Reachability of a step relation *)

Section reachable.
Context {S L : Type} (step : S → L → S → Prop).

Inductive reachable (s0 : S) : list L → S → Prop :=
| reach_init : reachable s0 [] s0
| reach_step tr s l s' :
    reachable s0 tr s → step s l s' → reachable s0 (tr ++ [l]) s'.

(** An inductive invariant holds in every reachable state. *)
Lemma reachable_inv (I : S → Prop) s0 tr s :
  I s0 → (∀ s l s', I s → step s l s' → I s') → reachable s0 tr s → I s.
Proof. intros H0 Hstep. induction 1; eauto. Qed.
End reachable.

(** ** Machine-width integers *)

Definition u64_max : Z := 2 ^ 64 - 1.
Definition in_range (lo hi z : Z) : bool := (lo <=? z) && (z <=? hi).

Lemma in_range_true lo hi z : in_range lo hi z = true ↔ lo ≤ z ≤ hi.
Proof. unfold in_range. rewrite andb_true_iff, !Z.leb_le. done. Qed.

(** [len], as an integer. *)
Definition zlen {A} (l : list A) : Z := Z.of_nat (length l).

Lemma zlen_nonneg {A} (l : list A) : 0 ≤ zlen l.
Proof. unfold zlen. lia. Qed.
Lemma zlen_app {A} (l k : list A) : zlen (l ++ k) = zlen l + zlen k.
Proof. unfold zlen. rewrite length_app. lia. Qed.
Lemma zlen_cons {A} (x : A) l : zlen (x :: l) = 1 + zlen l.
Proof. unfold zlen. cbn. lia. Qed.
