(* ===== verification/PyFloat.v ===== *)
(** * Python numbers: binary64 and binary32 at the bit level

    A Python [float] is kept as its 64-bit pattern, so that [struct] packing
    is byte-exact (NaN payloads included). [round_ieee] rounds a dyadic
    number to a format (nearest, ties to even), [widen] and [narrow] are the
    conversions that [struct]'s ["f"] format makes, [to_sf] gives the value
    as a [SpecFloat] for arithmetic, and [num_x] places every Python number
    on one integer scale (multiples of 2^-1074), on which Python's exact
    comparison of ints and floats is integer comparison. *)

From Stdlib Require Import ZArith Lia Floats.SpecFloat.
From S2P Require Import Prelude.

(** ** Fields of an IEEE pattern: [mw] mantissa bits, [ew] exponent bits *)

Section format.
Context (mw ew : Z).

Definition bias : Z := 2 ^ (ew - 1) - 1.
Definition f_sign (b : Z) : bool := 2 ^ (mw + ew) <=? b.
Definition f_exp (b : Z) : Z := (b / 2 ^ mw) mod 2 ^ ew.
Definition f_man (b : Z) : Z := b mod 2 ^ mw.
Definition f_join (s : bool) (e m : Z) : Z :=
  (if s then 2 ^ (mw + ew) else 0) + e * 2 ^ mw + m.

Definition is_special (b : Z) : bool := f_exp b =? 2 ^ ew - 1.
Definition is_nan (b : Z) : bool := is_special b && negb (f_man b =? 0).

(** A finite pattern is the number [f_sig b * 2 ^ f_ulp b]. *)
Definition f_sig (b : Z) : Z :=
  if f_exp b =? 0 then f_man b else f_man b + 2 ^ mw.
Definition f_ulp (b : Z) : Z :=
  (if f_exp b =? 0 then 1 else f_exp b) - bias - mw.

Definition round_half_even (m d : Z) : Z :=
  let q := m / 2 ^ d in
  let r := m mod 2 ^ d in
  match Z.compare (2 * r) (2 ^ d) with
  | Lt => q
  | Gt => q + 1
  | Eq => if Z.even q then q else q + 1
  end.

(** The pattern nearest to [(-1)^s * m * 2^e], or [None] on overflow. *)
Definition round_ieee (s : bool) (m e : Z) : option Z :=
  if m =? 0 then Some (f_join s 0 0) else
  let ulp := Z.max (e + Z.log2 m - mw) (1 - bias - mw) in
  let d := ulp - e in
  let q := if d <=? 0 then m * 2 ^ (- d) else round_half_even m d in
  let '(q, ulp) := if q =? 2 ^ (mw + 1) then (2 ^ mw, ulp + 1) else (q, ulp) in
  if q <? 2 ^ mw then Some (f_join s 0 q)
  else let ex := ulp + mw + bias in
       if 2 ^ ew - 1 <=? ex then None else Some (f_join s ex (q - 2 ^ mw)).

(** ** Facts *)

Context (Hmw : 1 ≤ mw) (Hew : 2 ≤ ew).

Lemma pow_pos x : 0 ≤ x → 0 < 2 ^ x.
Proof using Type. intros. apply Z.pow_pos_nonneg; lia. Qed.

Lemma f_join_fields s e m :
  0 ≤ e < 2 ^ ew → 0 ≤ m < 2 ^ mw →
  f_sign (f_join s e m) = s ∧ f_exp (f_join s e m) = e
  ∧ f_man (f_join s e m) = m.
Proof using Hmw Hew.
  intros He Hm. unfold f_join, f_sign, f_exp, f_man.
  rewrite Z.pow_add_r by lia.
  assert (0 < 2 ^ mw) by (apply pow_pos; lia).
  assert (0 < 2 ^ ew) by (apply pow_pos; lia).
  split_and!.
  - destruct s; [apply Z.leb_le | apply Z.leb_gt]; nia.
  - assert ((if s then 2 ^ mw * 2 ^ ew else 0) + e * 2 ^ mw + m
            = m + (e + (if s then 2 ^ ew else 0)) * 2 ^ mw) as ->
      by (destruct s; lia).
    rewrite Z.div_add, (Z.div_small m) by lia.
    destruct s.
    + replace (0 + (e + 2 ^ ew)) with (e + 1 * 2 ^ ew) by lia.
      rewrite Z.mod_add by lia. by apply Z.mod_small.
    + rewrite Z.add_0_r. apply Z.mod_small. lia.
  - assert ((if s then 2 ^ mw * 2 ^ ew else 0) + e * 2 ^ mw + m
            = m + (e + (if s then 2 ^ ew else 0)) * 2 ^ mw) as ->
      by (destruct s; lia).
    rewrite Z.mod_add by lia. by apply Z.mod_small.
Qed.

Lemma f_join_split b :
  0 ≤ b < 2 ^ (mw + ew + 1) → f_join (f_sign b) (f_exp b) (f_man b) = b.
Proof using Hmw Hew.
  intros Hb. unfold f_join, f_sign, f_exp, f_man.
  rewrite !Z.pow_add_r in * by lia.
  assert (0 < 2 ^ mw) by (apply pow_pos; lia).
  assert (0 < 2 ^ ew) by (apply pow_pos; lia).
  pose proof (Z.div_mod b (2 ^ mw) ltac:(lia)) as Hdm.
  pose proof (Z.mod_pos_bound b (2 ^ mw) ltac:(lia)) as Hm.
  set (q := b / 2 ^ mw) in *. set (r := b mod 2 ^ mw) in *.
  assert (0 ≤ q < 2 * 2 ^ ew) by nia.
  destruct (Z.leb_spec (2 ^ mw * 2 ^ ew) b) as [Hs|Hs].
  - assert (2 ^ ew ≤ q) by nia.
    assert (q mod 2 ^ ew = q - 2 ^ ew) as ->; [|lia].
    symmetry. apply Z.mod_unique with 1; lia.
  - rewrite (Z.mod_small q) by nia. lia.
Qed.

Lemma f_exp_bound b : 0 ≤ f_exp b < 2 ^ ew.
Proof using Hew. apply Z.mod_pos_bound, pow_pos. lia. Qed.

Lemma f_man_bound b : 0 ≤ f_man b < 2 ^ mw.
Proof using Hmw. apply Z.mod_pos_bound, pow_pos. lia. Qed.

Lemma f_join_bound s e m :
  0 ≤ e < 2 ^ ew → 0 ≤ m < 2 ^ mw → 0 ≤ f_join s e m < 2 ^ (mw + ew + 1).
Proof using Hmw Hew.
  intros. unfold f_join. rewrite !Z.pow_add_r by lia.
  assert (0 < 2 ^ mw) by (apply pow_pos; lia).
  assert (0 < 2 ^ ew) by (apply pow_pos; lia).
  destruct s; nia.
Qed.

Lemma round_half_even_exact m j : 0 ≤ j → round_half_even (m * 2 ^ j) j = m.
Proof using Type.
  intros. unfold round_half_even.
  assert (0 < 2 ^ j) by (by apply pow_pos).
  rewrite Z.div_mul, Z.mod_mul by lia. by destruct (2 ^ j).
Qed.

Lemma log2_sig m : 2 ^ mw ≤ m < 2 ^ (mw + 1) → Z.log2 m = mw.
Proof using Hmw. intros. apply Z.log2_unique; lia. Qed.

(** Rounding a finite pattern's own value, written with [j] more bits of
    significand, gives the pattern back. *)
Lemma round_ieee_exact b j :
  0 ≤ b < 2 ^ (mw + ew + 1) → is_special b = false → 0 ≤ j →
  round_ieee (f_sign b) (f_sig b * 2 ^ j) (f_ulp b - j) = Some b.
Proof using Hmw Hew.
  intros Hb Hs Hj. pose proof (f_exp_bound b) as He.
  pose proof (f_man_bound b) as Hm. unfold is_special in Hs.
  apply Z.eqb_neq in Hs. rewrite <- (f_join_split b Hb) at 4.
  assert (0 < 2 ^ j) by (by apply pow_pos).
  assert (Hpm : 2 ^ (mw + 1) = 2 * 2 ^ mw)
    by (rewrite Z.pow_add_r by lia; lia).
  assert (0 < 2 ^ mw) by (apply pow_pos; lia).
  unfold round_ieee, f_sig, f_ulp.
  destruct (Z.eqb_spec (f_exp b) 0) as [E0|E0].
  - rewrite E0. destruct (Z.eqb_spec (f_man b) 0) as [M0|M0].
    + by rewrite M0.
    + rewrite (proj2 (Z.eqb_neq _ _)) by nia.
      rewrite Z.log2_mul_pow2 by lia.
      assert (Z.log2 (f_man b) < mw) by (apply Z.log2_lt_pow2; lia).
      rewrite Z.max_r by lia.
      replace (1 - bias - mw - (1 - bias - mw - j)) with j by lia.
      assert ((if j <=? 0 then f_man b * 2 ^ j * 2 ^ (- j)
               else round_half_even (f_man b * 2 ^ j) j) = f_man b) as ->.
      { destruct (Z.leb_spec j 0); [|by apply round_half_even_exact].
        replace j with 0 by lia. cbn. lia. }
      rewrite (proj2 (Z.eqb_neq _ _)) by lia.
      by rewrite (proj2 (Z.ltb_lt _ _)) by lia.
  - rewrite (proj2 (Z.eqb_neq _ _)) by nia.
    rewrite Z.log2_mul_pow2 by lia.
    rewrite log2_sig by lia.
    rewrite Z.max_l by lia.
    match goal with |- context [?d <=? 0] => replace d with j by lia end.
    assert ((if j <=? 0 then (f_man b + 2 ^ mw) * 2 ^ j * 2 ^ (- j)
             else round_half_even ((f_man b + 2 ^ mw) * 2 ^ j) j)
            = f_man b + 2 ^ mw) as ->.
    { destruct (Z.leb_spec j 0); [|by apply round_half_even_exact].
      replace j with 0 by lia. cbn. lia. }
    rewrite (proj2 (Z.eqb_neq _ _)) by lia.
    rewrite (proj2 (Z.ltb_ge _ _)) by lia.
    rewrite (proj2 (Z.leb_gt _ _)) by lia.
    do 2 f_equal; lia.
Qed.

Lemma round_half_even_bound m d : 0 ≤ m → 0 ≤ d → 0 ≤ round_half_even m d ≤ m / 2 ^ d + 1.
Proof using Type.
  intros. assert (0 < 2 ^ d) by (by apply pow_pos).
  assert (0 ≤ m / 2 ^ d) by (apply Z.div_pos; lia).
  unfold round_half_even. repeat case_match; lia.
Qed.

(** The significand before normalisation. *)
Lemma round_sig_bound m e :
  0 < m →
  let d := Z.max (e + Z.log2 m - mw) (1 - bias - mw) - e in
  0 ≤ (if d <=? 0 then m * 2 ^ (- d) else round_half_even m d) ≤ 2 ^ (mw + 1).
Proof using Hmw.
  intros Hm d. pose proof (Z.log2_spec m Hm) as [_ Hl].
  pose proof (Z.log2_nonneg m).
  assert (Z.log2 m - mw ≤ d) by lia.
  destruct (Z.leb_spec d 0).
  - split; [apply Z.mul_nonneg_nonneg; [lia|apply Z.pow_nonneg; lia]|].
    assert (m * 2 ^ (- d) ≤ 2 ^ Z.succ (Z.log2 m) * 2 ^ (- d))
      by (apply Z.mul_le_mono_nonneg_r; [apply Z.pow_nonneg|]; lia).
    rewrite <- Z.pow_add_r in * by lia.
    assert (2 ^ (Z.succ (Z.log2 m) + - d) ≤ 2 ^ (mw + 1))
      by (apply Z.pow_le_mono_r; lia). lia.
  - pose proof (round_half_even_bound m d ltac:(lia) ltac:(lia)).
    assert (m / 2 ^ d < 2 ^ (mw + 1)); [|lia].
    apply Z.div_lt_upper_bound; [by apply pow_pos; lia|].
    rewrite <- Z.pow_add_r by lia.
    assert (2 ^ Z.succ (Z.log2 m) ≤ 2 ^ (d + (mw + 1))) by (apply Z.pow_le_mono_r; lia). lia.
Qed.

(** Rounding gives a finite pattern of the sign it was asked for. *)
Lemma round_ieee_form s m e b :
  0 ≤ m → round_ieee s m e = Some b → ∃ ex q, b = f_join s ex q ∧ 0 ≤ ex < 2 ^ ew - 1 ∧ 0 ≤ q < 2 ^ mw.
Proof using Hmw Hew.
  intros Hm. unfold round_ieee.
  assert (He : 2 ^ 1 < 2 ^ ew) by (apply Z.pow_lt_mono_r; lia).
  assert (0 < 2 ^ mw) by (apply pow_pos; lia).
  destruct (Z.eqb_spec m 0) as [->|Hm0]; [intros [= <-]; exists 0, 0; lia|].
  pose proof (round_sig_bound m e ltac:(lia)) as Hq. cbn zeta in Hq.
  rewrite Z.pow_add_r in * by lia. change (2 ^ 1) with 2 in *.
  set (ulp := Z.max _ _) in *. assert (1 - bias - mw ≤ ulp) by lia.
  set (q0 := if ulp - e <=? 0 then _ else _) in *.
  destruct (Z.eqb_spec q0 (2 ^ mw * 2)).
  - rewrite Z.ltb_irrefl. destruct (Z.leb_spec (2 ^ ew - 1) (ulp + 1 + mw + bias)); [done|].
    intros [= <-]. eexists _, _. split; [done|]. lia.
  - destruct (Z.ltb_spec q0 (2 ^ mw)); [intros [= <-]; eexists _, _; split; [done|]; lia|].
    destruct (Z.leb_spec (2 ^ ew - 1) (ulp + mw + bias)); [done|].
    intros [= <-]. eexists _, _. split; [done|]. lia.
Qed.

Lemma round_ieee_finite s m e b :
  0 ≤ m → round_ieee s m e = Some b → is_special b = false ∧ f_sign b = s.
Proof using Hmw Hew.
  intros Hm (ex & q & -> & Hx & Hq)%round_ieee_form; [|done].
  destruct (f_join_fields s ex q) as (? & Hex & _); [lia..|].
  unfold is_special. rewrite Hex. split; [apply Z.eqb_neq; lia|done].
Qed.

Lemma round_ieee_bound s m e b : 0 ≤ m → round_ieee s m e = Some b → 0 ≤ b < 2 ^ (mw + ew + 1).
Proof using Hmw Hew.
  intros Hm (ex & q & -> & Hx & Hq)%round_ieee_form; [|done]. apply f_join_bound; lia.
Qed.
End format.

(** ** binary64 and binary32 *)

Definition is_nan64 : Z → bool := is_nan 52 11.
Definition is_finite64 (b : Z) : bool := negb (is_special 52 11 b).
Definition is_nan32 : Z → bool := is_nan 23 8.

(** [struct]'s "f" reads a binary32 and gives the Python float: the
    conversion is exact, and a NaN keeps its payload and is quiet. *)
Definition widen (b : Z) : Z :=
  if is_special 23 8 b then
    f_join 52 11 (f_sign 23 8 b) 2047
      (if f_man 23 b =? 0 then 0 else Z.lor (f_man 23 b * 2 ^ 29) (2 ^ 51))
  else default 0 (round_ieee 52 11 (f_sign 23 8 b) (f_sig 23 8 b) (f_ulp 23 8 b)).

(** [struct]'s "f" writes a Python float: [None] is its OverflowError. *)
Definition narrow (b : Z) : option Z :=
  if is_special 52 11 b then
    Some (f_join 23 8 (f_sign 52 11 b) 255
      (if f_man 52 b =? 0 then 0 else Z.lor (f_man 52 b / 2 ^ 29) (2 ^ 22)))
  else round_ieee 23 8 (f_sign 52 11 b) (f_sig 52 11 b) (f_ulp 52 11 b).

(** Python's [float(z)] of an int: [None] is its OverflowError. *)
Definition float_of_int (z : Z) : option Z :=
  round_ieee 52 11 (z <? 0) (Z.abs z) 0.

(** The value for [SpecFloat] arithmetic. *)
Definition to_sf (b : Z) : spec_float :=
  let s := f_sign 52 11 b in
  if is_special 52 11 b then
    if f_man 52 b =? 0 then S754_infinity s else S754_nan
  else match f_sig 52 11 b with
       | Zpos m => S754_finite s m (f_ulp 52 11 b)
       | _ => S754_zero s
       end.

Definition infinity_of (s : bool) : Z := f_join 52 11 s 2047 0.

(** The pattern of a result of binary64 arithmetic. *)
Definition of_sf (x : spec_float) : Z :=
  match x with
  | S754_zero s => f_join 52 11 s 0 0
  | S754_infinity s => infinity_of s
  | S754_nan => f_join 52 11 false 2047 (2 ^ 51)
  | S754_finite s m e => default (infinity_of s) (round_ieee 52 11 s (Zpos m) e)
  end.
Definition fmul (a b : Z) : Z := of_sf (SFmul 53 1024 (to_sf a) (to_sf b)).
Definition fadd (a b : Z) : Z := of_sf (SFadd 53 1024 (to_sf a) (to_sf b)).

(** [round(x)]: the nearest integer, ties to even; [None] for an infinity or NaN. *)
Definition round_float (b : Z) : option Z :=
  if is_special 52 11 b then None
  else let u := f_ulp 52 11 b in
       let v := if 0 <=? u then f_sig 52 11 b * 2 ^ u else round_half_even (f_sig 52 11 b) (- u) in
       Some (if f_sign 52 11 b then - v else v).

(** ** Numbers and exact comparison *)

Inductive pynum :=
| PInt (z : Z)
| PFloat (b : Z).

#[export] Instance pynum_eq_dec : EqDecision pynum.
Proof. solve_decision. Defined.

Inductive xnum := XNaN | XNegInf | XFin (scaled : Z) | XPosInf.

Definition float_x (b : Z) : xnum :=
  let s := f_sign 52 11 b in
  if is_special 52 11 b then
    if f_man 52 b =? 0 then (if s then XNegInf else XPosInf) else XNaN
  else let v := f_sig 52 11 b * 2 ^ (f_ulp 52 11 b + 1074) in
       XFin (if s then - v else v).

Definition num_x (n : pynum) : xnum :=
  match n with
  | PInt z => XFin (z * 2 ^ 1074)
  | PFloat b => float_x b
  end.

Definition x_lt (a b : xnum) : bool :=
  match a, b with
  | XNaN, _ | _, XNaN => false
  | XNegInf, XNegInf | _, XNegInf => false
  | XNegInf, _ => true
  | XPosInf, _ => false
  | _, XPosInf => true
  | XFin x, XFin y => x <? y
  end.

Definition x_eq (a b : xnum) : bool :=
  match a, b with
  | XNegInf, XNegInf | XPosInf, XPosInf => true
  | XFin x, XFin y => x =? y
  | _, _ => false
  end.

Definition x_le (a b : xnum) : bool := x_lt a b || x_eq a b.

Definition num_lt (a b : pynum) : bool := x_lt (num_x a) (num_x b).
Definition num_eq (a b : pynum) : bool := x_eq (num_x a) (num_x b).
Definition num_le (a b : pynum) : bool := x_le (num_x a) (num_x b).

(** [math.isfinite]. *)
Definition num_finite (n : pynum) : bool :=
  match n with PInt _ => true | PFloat b => is_finite64 b end.

Lemma num_finite_x n : num_finite n = true ↔ ∃ z, num_x n = XFin z.
Proof.
  destruct n as [z|b]; cbn; [naive_solver|].
  unfold is_finite64, float_x. destruct (is_special 52 11 b); cbn; [|naive_solver].
  repeat case_match; naive_solver.
Qed.

(** ** binary32 round trip *)

Lemma f_sig_pos32 b : 0 ≤ f_sig 23 8 b < 2 ^ 24.
Proof.
  unfold f_sig. pose proof (f_man_bound 23 ltac:(lia) b).
  destruct (_ =? _); lia.
Qed.

Lemma widen_fields b :
  0 ≤ b < 2 ^ 32 → is_special 23 8 b = false → f_sig 23 8 b ≠ 0 →
  let j := 52 - Z.log2 (f_sig 23 8 b) in
  0 ≤ j ∧ 0 ≤ widen b < 2 ^ 64 ∧ is_special 52 11 (widen b) = false
  ∧ f_sign 52 11 (widen b) = f_sign 23 8 b
  ∧ f_sig 52 11 (widen b) = f_sig 23 8 b * 2 ^ j
  ∧ f_ulp 52 11 (widen b) = f_ulp 23 8 b - j.
Proof.
  intros Hb Hs Hz j. pose proof (f_sig_pos32 b) as Hsig.
  assert (Hl : 0 ≤ Z.log2 (f_sig 23 8 b) ≤ 23).
  { split; [apply Z.log2_nonneg|].
    apply Z.lt_succ_r. change (Z.succ 23) with 24. apply Z.log2_lt_pow2; lia. }
  assert (Hu : -149 ≤ f_ulp 23 8 b ≤ 104).
  { pose proof (f_exp_bound 23 8 ltac:(lia) b) as He.
    unfold is_special in Hs. apply Z.eqb_neq in Hs.
    unfold f_ulp, bias. cbn in *. destruct (Z.eqb_spec (f_exp 23 8 b) 0); lia. }
  assert (Hj : 0 ≤ j) by lia.
  assert (Hp : 2 ^ 52 ≤ f_sig 23 8 b * 2 ^ j < 2 ^ 53).
  { pose proof (Z.log2_spec (f_sig 23 8 b) ltac:(lia)) as [H1 H2].
    replace 52 with (Z.log2 (f_sig 23 8 b) + j) at 1 by lia.
    replace 53 with (Z.succ (Z.log2 (f_sig 23 8 b)) + j) by lia.
    rewrite !Z.pow_add_r by lia. pose proof (pow_pos j Hj). nia. }
  assert (Hw : widen b = f_join 52 11 (f_sign 23 8 b)
                 (f_ulp 23 8 b - j + 1075) (f_sig 23 8 b * 2 ^ j - 2 ^ 52)).
  { unfold widen. rewrite Hs. unfold round_ieee, bias.
    rewrite (proj2 (Z.eqb_neq _ _)) by lia.
    rewrite Z.max_l by (cbn; lia).
    replace (f_ulp 23 8 b + Z.log2 (f_sig 23 8 b) - 52 - f_ulp 23 8 b)
      with (- j) by lia.
    rewrite (proj2 (Z.leb_le _ _)), Z.opp_involutive by lia.
    rewrite (proj2 (Z.eqb_neq _ _)) by (cbn in *; lia).
    rewrite (proj2 (Z.ltb_ge _ _)) by lia.
    rewrite (proj2 (Z.leb_gt _ _)) by (cbn; lia). cbn [default].
    unfold id. f_equal. cbn. lia. }
  destruct (f_join_fields 52 11 ltac:(lia) ltac:(lia) (f_sign 23 8 b)
    (f_ulp 23 8 b - j + 1075) (f_sig 23 8 b * 2 ^ j - 2 ^ 52)) as (F1 & F2 & F3);
    [cbn; lia | lia |].
  rewrite Hw. split; [done|]. split.
  { apply (f_join_bound 52 11); cbn in *; lia. }
  clear Hw. generalize dependent (f_sig 23 8 b). intros sig Hz Hsig j.
  generalize dependent (f_ulp 23 8 b). intros ulp **.
  unfold is_special, f_sig, f_ulp, bias. rewrite F1, F2, F3. split_and!; [|done| |].
  - apply Z.eqb_neq. cbn. lia.
  - rewrite (proj2 (Z.eqb_neq _ _)) by lia. lia.
  - rewrite (proj2 (Z.eqb_neq _ _)) by lia. cbn. lia.
Qed.

Lemma narrow_widen b :
  0 ≤ b < 2 ^ 32 → is_nan32 b = false → narrow (widen b) = Some b.
Proof.
  intros Hb Hn. destruct (is_special 23 8 b) eqn:Hs.
  - unfold is_nan32, is_nan in Hn. rewrite Hs in Hn. cbn in Hn.
    apply negb_false_iff, Z.eqb_eq in Hn. unfold is_special in Hs.
    apply Z.eqb_eq in Hs. unfold widen, is_special.
    rewrite (proj2 (Z.eqb_eq _ _) Hs), Hn. cbn [Z.eqb].
    destruct (f_join_fields 52 11 ltac:(lia) ltac:(lia) (f_sign 23 8 b) 2047 0)
      as (F1 & F2 & F3); [lia..|].
    unfold narrow, is_special. rewrite F1, F2, F3.
    change (2 ^ 11 - 1) with 2047. cbn [Z.eqb]. rewrite Pos.eqb_refl.
    transitivity (Some (f_join 23 8 (f_sign 23 8 b) (f_exp 23 8 b) (f_man 23 b)));
      [by rewrite Hs, Hn | f_equal; apply f_join_split; cbn; lia].
  - destruct (Z.eq_dec (f_sig 23 8 b) 0) as [Hz|Hz].
    + assert (f_exp 23 8 b = 0 ∧ f_man 23 b = 0) as [He Hm].
      { unfold f_sig in Hz. pose proof (f_man_bound 23 ltac:(lia) b).
        destruct (Z.eqb_spec (f_exp 23 8 b) 0); lia. }
      unfold widen. rewrite Hs, Hz. cbn [round_ieee Z.eqb default].
      unfold round_ieee. cbn [Z.eqb default]. unfold id.
      destruct (f_join_fields 52 11 ltac:(lia) ltac:(lia) (f_sign 23 8 b) 0 0)
        as (F1 & F2 & F3); [lia..|].
      unfold narrow, is_special, f_sig. rewrite F1, F2, F3. cbn [Z.eqb].
      unfold round_ieee. cbn [Z.eqb].
      transitivity (Some (f_join 23 8 (f_sign 23 8 b) (f_exp 23 8 b) (f_man 23 b)));
        [by rewrite He, Hm | f_equal; apply f_join_split; cbn; lia].
    + destruct (widen_fields b Hb Hs Hz) as (Hj & W0 & W1 & W2 & W3 & W4).
      unfold narrow. rewrite W1, W2, W3, W4.
      by apply round_ieee_exact; [lia..| |].
Qed.

Lemma widen_bound b : 0 ≤ b < 2 ^ 32 → 0 ≤ widen b < 2 ^ 64.
Proof.
  intros Hb. destruct (is_special 23 8 b) eqn:Hs.
  - unfold widen. rewrite Hs.
    pose proof (f_man_bound 23 ltac:(lia) b) as Hm.
    apply (f_join_bound 52 11); [lia..|].
    destruct (Z.eqb_spec (f_man 23 b) 0); [lia|].
    split; [apply Z.lor_nonneg; lia|].
    apply Z.log2_lt_cancel. rewrite Z.log2_lor by lia.
    rewrite (Z.log2_pow2 51), (Z.log2_pow2 52) by lia.
    apply Z.max_lub_lt; [|lia]. apply Z.log2_lt_pow2; [lia|]. cbn in *. lia.
  - destruct (Z.eq_dec (f_sig 23 8 b) 0) as [Hz|Hz].
    + unfold widen. rewrite Hs, Hz. unfold round_ieee. cbn [Z.eqb default].
      apply (f_join_bound 52 11); lia.
    + apply (widen_fields b Hb Hs Hz).
Qed.

(** ** Signs *)

Lemma f_sig_nonneg64 b : 0 ≤ f_sig 52 11 b.
Proof. unfold f_sig. pose proof (f_man_bound 52 ltac:(lia) b). destruct (_ =? _); lia. Qed.

Lemma float_of_int_nonneg z b :
  0 ≤ z → float_of_int z = Some b → is_finite64 b = true ∧ num_lt (PFloat b) (PInt 0) = false.
Proof.
  intros Hz H. unfold float_of_int in H. rewrite (proj2 (Z.ltb_ge _ _)) in H by done.
  apply round_ieee_finite in H as [Hf Hs]; [|lia..]. unfold is_finite64. rewrite Hf.
  split; [done|]. unfold num_lt, num_x, float_x. rewrite Hf, Hs. cbn [x_lt].
  apply Z.ltb_ge. rewrite Z.mul_0_l. apply Z.mul_nonneg_nonneg; [apply f_sig_nonneg64|].
  apply Z.pow_nonneg. lia.
Qed.

(** ** Arithmetic facts for [SpecFloat] at binary64 *)

(** A number that is not below zero: a zero of either sign, or positive. *)
Definition sf_nonneg (x : spec_float) : bool :=
  match x with
  | S754_zero _ => true
  | S754_finite s _ _ | S754_infinity s => negb s
  | S754_nan => false
  end.

Definition sf_finite (x : spec_float) : bool :=
  match x with S754_zero _ | S754_finite _ _ _ => true | _ => false end.

Lemma shr_1_nonneg mrs : 0 ≤ shr_m mrs → 0 ≤ shr_m (shr_1 mrs).
Proof. destruct mrs as [[|[p|p|]|p] r s]; cbn; lia. Qed.

Lemma iter_pos_inv {A} (P : A → Prop) (f : A → A) n x :
  (∀ x, P x → P (f x)) → P x → P (SpecFloat.iter_pos f n x).
Proof. intros Hf. revert x. induction n as [n IH|n IH|]; intros x Hx; cbn; auto. Qed.

Lemma shr_fexp_nonneg m e l : 0 ≤ m → 0 ≤ shr_m (shr_fexp 53 1024 m e l).1.
Proof.
  intros Hm. unfold shr_fexp, shr.
  assert (0 ≤ shr_m (shr_record_of_loc m l)) by (destruct l as [|[]]; done).
  destruct (_ - _); cbn; [done| |done].
  apply (iter_pos_inv (λ r, 0 ≤ shr_m r)); [apply shr_1_nonneg|done].
Qed.

Lemma binary_round_aux_nonneg m e :
  sf_nonneg (binary_round_aux 53 1024 false (Zpos m) e loc_Exact) = true.
Proof.
  unfold binary_round_aux.
  pose proof (shr_fexp_nonneg (Zpos m) e loc_Exact ltac:(lia)) as H1.
  destruct (shr_fexp 53 1024 (Zpos m) e loc_Exact) as [mrs e']. cbn [fst] in H1.
  set (r := round_nearest_even _ _).
  assert (0 ≤ r) as Hr.
  { unfold r, round_nearest_even. repeat case_match; lia. }
  pose proof (shr_fexp_nonneg r e' loc_Exact Hr) as H2.
  destruct (shr_fexp 53 1024 r e' loc_Exact) as [mrs' e'']. cbn [fst] in H2.
  destruct (shr_m mrs'); [done| |lia]. by destruct (_ <=? _).
Qed.

Lemma SFmul_nonneg x y :
  sf_finite x = true → sf_nonneg x = true → sf_finite y = true → sf_nonneg y = true →
  sf_nonneg (SFmul 53 1024 x y) = true.
Proof.
  destruct x as [| | |[]], y as [| | |[]]; try done. intros _ _ _ _.
  apply binary_round_aux_nonneg.
Qed.

Lemma SFadd_nonneg x y :
  sf_finite x = true → sf_nonneg x = true → sf_nonneg y = true →
  sf_nonneg (SFadd 53 1024 x y) = true.
Proof.
  destruct x as [sx| | |[]], y as [sy|[]| |[]]; try done; cbn [sf_nonneg negb]; intros _ _ _;
    [by destruct sx, sy|].
  cbn [SFadd cond_Zopp]. unfold binary_normalize.
  destruct (shl_align m _ _) as [p1 ?], (shl_align m0 _ _) as [p2 ?]. cbn [fst].
  destruct (Z.pos p1 + Z.pos p2) eqn:Hp; [done| |lia].
  unfold binary_round. case_match. apply binary_round_aux_nonneg.
Qed.

Lemma SFsub_self x : sf_finite x = true → SFabs (SFsub 53 1024 x x) = S754_zero false.
Proof.
  destruct x as [s| | |s m e]; try done; intros _; [by destruct s|].
  cbn [SFsub]. by rewrite Z.sub_diag.
Qed.

Lemma SFleb_zero y : sf_nonneg y = true → SFleb (S754_zero false) y = true.
Proof. by destruct y as [|[]| |[]]. Qed.

Lemma to_sf_finite b : is_finite64 b = true → sf_finite (to_sf b) = true.
Proof.
  unfold is_finite64, to_sf. intros ->%negb_true_iff. by destruct (f_sig 52 11 b).
Qed.

Lemma to_sf_nonneg b :
  is_finite64 b = true → num_lt (PFloat b) (PInt 0) = false → sf_nonneg (to_sf b) = true.
Proof.
  unfold is_finite64, to_sf, num_lt, num_x, float_x. intros Hf%negb_true_iff.
  rewrite Hf. cbn [x_lt]. intros Hl%Z.ltb_ge. rewrite Z.mul_0_l in Hl.
  destruct (f_sig 52 11 b) as [|m|m] eqn:Hs; [done| |done].
  destruct (f_sign 52 11 b); [|done]. exfalso.
  assert (0 < 2 ^ (f_ulp 52 11 b + 1074)); [|lia].
  apply Z.pow_pos_nonneg; [lia|]. unfold f_ulp, bias.
  pose proof (f_exp_bound 52 11 ltac:(lia) b). cbn. case_match; lia.
Qed.
