(* ===== verification/Json.v ===== *)
(** * JSON documents as Python sees them

    The values [json.loads] gives and callers hand to the authoring API:
    objects are association lists in insertion order with one entry per key.
    [py_eq] is Python's [==] on them: [1 == 1.0 == True], and object equality
    ignores key order. *)

From Stdlib Require Import ZArith Lia Ascii.
From S2P Require Import Prelude PyFloat.

Inductive json :=
| JNull
| JBool (b : bool)
| JInt (z : Z)
| JFloat (b : Z)
| JStr (s : string)
| JArr (l : list json)
| JObj (d : list (string * json)).

Section json_ind'.
Context (P : json → Prop).
Context (Hnull : P JNull) (Hbool : ∀ b, P (JBool b)) (Hint : ∀ z, P (JInt z))
  (Hfloat : ∀ b, P (JFloat b)) (Hstr : ∀ s, P (JStr s))
  (Harr : ∀ l, Forall P l → P (JArr l))
  (Hobj : ∀ d, Forall (λ kv, P kv.2) d → P (JObj d)).

(** Induction that goes through arrays and objects. *)
Fixpoint json_ind' (j : json) : P j :=
  match j with
  | JNull => Hnull
  | JBool b => Hbool b
  | JInt z => Hint z
  | JFloat b => Hfloat b
  | JStr s => Hstr s
  | JArr l => Harr l ((fix go l : Forall P l :=
      match l with [] => Forall_nil_2 _ | j :: l => Forall_cons_2 _ _ _ (json_ind' j) (go l) end) l)
  | JObj d => Hobj d ((fix go d : Forall (λ kv, P kv.2) d :=
      match d with [] => Forall_nil_2 _
      | kv :: d => Forall_cons_2 _ _ _ (json_ind' kv.2) (go d) end) d)
  end.
End json_ind'.

#[export] Instance json_eq_dec : EqDecision json.
Proof.
  refine (fix go (a b : json) : Decision (a = b) :=
    match a, b with
    | JNull, JNull => left eq_refl
    | JBool x, JBool y => cast_if (decide (x = y))
    | JInt x, JInt y => cast_if (decide (x = y))
    | JFloat x, JFloat y => cast_if (decide (x = y))
    | JStr x, JStr y => cast_if (decide (x = y))
    | JArr x, JArr y => cast_if (@list_eq_dec _ go x y)
    | JObj x, JObj y =>
        cast_if (@list_eq_dec _ (@prod_eq_dec _ _ _ go) x y)
    | _, _ => right _
    end); clear go; abstract congruence.
Defined.

(** Documents as trees, which makes them countable. *)
Fixpoint json_tree (j : json) : gen_tree (bool + (Z + (Z + string))) :=
  match j with
  | JNull => GenNode 0 []
  | JBool b => GenLeaf (inl b)
  | JInt z => GenLeaf (inr (inl z))
  | JFloat b => GenLeaf (inr (inr (inl b)))
  | JStr s => GenLeaf (inr (inr (inr s)))
  | JArr l => GenNode 1 (json_tree <$> l)
  | JObj d => GenNode 2 ((λ kv, GenNode 3 [GenLeaf (inr (inr (inr kv.1))); json_tree kv.2]) <$> d)
  end.

Fixpoint tree_json (t : gen_tree (bool + (Z + (Z + string)))) : json :=
  match t with
  | GenLeaf (inl b) => JBool b
  | GenLeaf (inr (inl z)) => JInt z
  | GenLeaf (inr (inr (inl b))) => JFloat b
  | GenLeaf (inr (inr (inr s))) => JStr s
  | GenNode 1 l => JArr (tree_json <$> l)
  | GenNode 2 l =>
      JObj ((λ t, match t with
                  | GenNode 3 [GenLeaf (inr (inr (inr k))); v] => (k, tree_json v)
                  | _ => (""%string, JNull)
                  end) <$> l)
  | GenNode _ _ => JNull
  end.

Lemma tree_json_tree j : tree_json (json_tree j) = j.
Proof.
  induction j as [| | | | |l IH|d IH] using json_ind'; try done; cbn [json_tree tree_json]; f_equal.
  - induction IH as [|j l Hj _ IHl]; [done|]. cbn. by rewrite Hj, IHl.
  - induction IH as [|[k v] d Hv _ IHd]; [done|]. cbn in *. by rewrite Hv, IHd.
Qed.

#[export] Instance json_countable : Countable json := inj_countable' json_tree tree_json tree_json_tree.

(** ** Python type tests *)

Definition is_object (v : json) : bool := match v with JObj _ => true | _ => false end.
Definition is_array (v : json) : bool := match v with JArr _ => true | _ => false end.
Definition is_string (v : json) : bool := match v with JStr _ => true | _ => false end.
Definition is_boolean (v : json) : bool := match v with JBool _ => true | _ => false end.

(** [isinstance(v, int) and not isinstance(v, bool)]; also [type(v) is int]. *)
Definition is_integer (v : json) : bool := match v with JInt _ => true | _ => false end.

Definition as_num (v : json) : option pynum :=
  match v with
  | JBool b => Some (PInt (Z.b2z b))
  | JInt z => Some (PInt z)
  | JFloat f => Some (PFloat f)
  | _ => None
  end.

(** Python truth of a value. *)
Definition truthy (v : json) : bool :=
  match v with
  | JNull => false
  | JBool b => b
  | JInt z => negb (z =? 0)
  | JFloat f => negb (num_eq (PFloat f) (PInt 0))
  | JStr s => negb (String.eqb s "")
  | JArr l => negb (bool_decide (length l = 0%nat))
  | JObj d => negb (bool_decide (length d = 0%nat))
  end.

(** Python's [==]. *)
Fixpoint py_eq (a b : json) {struct a} : bool :=
  match a, b with
  | JNull, JNull => true
  | JStr s, JStr t => String.eqb s t
  | JArr l, JArr m =>
      (fix go (l m : list json) : bool :=
        match l, m with
        | [], [] => true
        | x :: l, y :: m => py_eq x y && go l m
        | _, _ => false
        end) l m
  | JObj d, JObj e =>
      bool_decide (length d = length e)
      && (fix go (d : list (string * json)) : bool :=
            match d with
            | [] => true
            | (k, v) :: d =>
                match dget e k with
                | Some w => py_eq v w
                | None => false
                end && go d
            end) d
  | JNull, _ | JStr _, _ | JArr _, _ | JObj _, _ => false
  | _, _ => match as_num a, as_num b with
            | Some x, Some y => num_eq x y
            | _, _ => false
            end
  end.

(** [v == n] for an int constant [n]. *)
Definition py_eq_int (v : json) (n : Z) : bool := py_eq v (JInt n).

(** [obj.get(key)] of an object that may lack the key. *)
Definition jget (v : json) (k : string) : option json :=
  match v with JObj d => dget d k | _ => None end.

(** Keys of every object, at any depth, are pairwise different: what a
    Python dict guarantees. *)
Fixpoint json_wf (j : json) : bool :=
  match j with
  | JArr l => forallb json_wf l
  | JObj d => bool_decide (NoDup d.*1) && forallb (λ kv, json_wf kv.2) d
  | _ => true
  end.

Lemma py_eq_refl_str s : py_eq (JStr s) (JStr s) = true.
Proof. cbn. apply String.eqb_refl. Qed.

(** ** The size of the canonical text

    [len(json.dumps(v, ensure_ascii=True, allow_nan=False, separators=(",", ":")))].
    [None] is the ValueError of a non-finite float or of an int of more than
    4300 digits. Strings are ASCII text; the length of a float's [repr] is a
    parameter, because its shortest-digits algorithm is not modelled. *)

Definition char_size (c : Ascii.ascii) : Z :=
  let n := Z.of_nat (Ascii.nat_of_ascii c) in
  if bool_decide (n ∈ [34; 92; 8; 9; 10; 12; 13]) then 2
  else if in_range 32 126 n then 1 else 6.

Fixpoint chars_size (s : string) : Z :=
  match s with EmptyString => 0 | String c s => char_size c + chars_size s end.
Definition str_size (s : string) : Z := 2 + chars_size s.

(** Decimal digits of a non-negative number; the fuel is its binary length. *)
Fixpoint digits (fuel : nat) (z : Z) : Z :=
  match fuel with
  | O => 1
  | S fuel => if z <? 10 then 1 else 1 + digits fuel (z / 10)
  end.
Definition int_size (z : Z) : option Z :=
  let d := digits (S (Z.to_nat (Z.log2 (Z.abs z)))) (Z.abs z) in
  if 4300 <? d then None else Some (d + if z <? 0 then 1 else 0).

Section size.
Context (repr_size : Z → Z).

(** Sizes of the elements, with a comma between two. *)
Fixpoint json_size (v : json) : option Z :=
  match v with
  | JNull => Some 4
  | JBool b => Some (if b then 4 else 5)
  | JInt z => int_size z
  | JFloat b => if is_finite64 b then Some (repr_size b) else None
  | JStr s => Some (str_size s)
  | JArr l =>
      (fix go (l : list json) (sep acc : Z) : option Z :=
         match l with
         | [] => Some (acc + 1)
         | x :: l => s ← json_size x; go l 1 (acc + sep + s)
         end) l 0 1
  | JObj d =>
      (fix go (d : list (string * json)) (sep acc : Z) : option Z :=
         match d with
         | [] => Some (acc + 1)
         | (k, x) :: d => s ← json_size x; go d 1 (acc + sep + str_size k + 1 + s)
         end) d 0 1
  end.
End size.

Example json_size_ex :
  json_size (λ _, 3) (JObj [("a"%string, JArr [JInt (-12); JFloat 0; JNull])])
  = Some 20.
Proof. vm_compute. reflexivity. Qed.

(** ** [json.loads] with an [object_pairs_hook]

    The tokenizer's tree still has its repeated keys; the hook sees every object
    as it closes, so inner objects come first. *)
Section hook.
Context {E : Type} (on_pairs : list (string * json) → result E json).

Fixpoint pairs_hook (raw : json) : result E json :=
  match raw with
  | JArr l => vs ← mapE pairs_hook l; Ok (JArr vs)
  | JObj d => vs ← mapE (λ '(k, v), w ← pairs_hook v; Ok (k, w)) d; on_pairs vs
  | _ => Ok raw
  end.

Context (Hpairs : ∀ d j, on_pairs d = Ok j → j = JObj d ∧ NoDup d.*1).

(** A hook that only refuses repeated keys changes nothing else. *)
Lemma pairs_hook_wf raw j : pairs_hook raw = Ok j → j = raw ∧ json_wf raw = true.
Proof using Hpairs.
  revert j. induction raw as [| | | | |l IH|d IH] using json_ind'; intros j; cbn [pairs_hook];
    try (by intros [= <-]).
  - intros (vs & Hv%mapE_Ok & [= <-])%bind_Ok. cbn [json_wf].
    assert (vs = l ∧ forallb json_wf l = true) as [-> ->]; [|done].
    induction Hv as [|x y l vs Hxy _ IHl]; [done|]. inversion IH; subst.
    destruct IHl as [-> Hl]; [done|]. destruct (H1 _ Hxy) as [-> Hx]. cbn. by rewrite Hx.
  - intros (vs & Hv%mapE_Ok & Hu)%bind_Ok. cbn [json_wf].
    assert (vs = d ∧ forallb (λ kv, json_wf kv.2) d = true) as [-> Hd].
    { clear Hu. induction Hv as [|[k x] y d vs Hxy _ IHl]; [done|]. inversion IH; subst.
      destruct IHl as [-> Hl]; [done|]. apply bind_Ok in Hxy as (w & Hw & [= <-]).
      destruct (H1 _ Hw) as [-> Hx]. cbn in *. by rewrite Hx. }
    apply Hpairs in Hu as [-> Hn]. split; [done|]. rewrite Hd, andb_true_r.
    by apply bool_decide_eq_true.
Qed.
End hook.
