(* ===== verification/SchemaTypes.v ===== *)
(** * Primitive wire facts and the silschema name rule

    Models [python/src/sil/_schema_types.py]: the ten primitive types with
    their widths and integer bounds ([prim], [size_of], [int_range]), and the
    rule for names that are valid in a C11 and C++17 header
    ([ident_problem], [schema_name_problem]). *)

From Stdlib Require Import ZArith Lia Ascii.
From S2P Require Import Prelude PyFloat Json.

(** [FORMATS]: the keys of the dict, which are the ten type names. *)
Inductive prim := U8 | U16 | U32 | U64 | I8 | I16 | I32 | I64 | F32 | F64.

#[export] Instance prim_eq_dec : EqDecision prim.
Proof. solve_decision. Defined.

Definition prim_name (p : prim) : string :=
  match p with
  | U8 => "u8" | U16 => "u16" | U32 => "u32" | U64 => "u64"
  | I8 => "i8" | I16 => "i16" | I32 => "i32" | I64 => "i64"
  | F32 => "f32" | F64 => "f64"
  end.

Definition FORMATS : list (string * prim) :=
  map (λ p, (prim_name p, p)) [U8; U16; U32; U64; I8; I16; I32; I64; F32; F64].

(** [SIZES]: bytes of one element, from the little-endian struct formats. *)
Definition size_of (p : prim) : Z :=
  match p with
  | U8 | I8 => 1
  | U16 | I16 => 2
  | U32 | I32 | F32 => 4
  | U64 | I64 | F64 => 8
  end.

(** [INT_RANGES]: [None] for a float type. *)
Definition int_range (p : prim) : option (Z * Z) :=
  match p with
  | U8 | U16 | U32 | U64 => Some (0, Z.shiftl 1 (size_of p * 8) - 1)
  | I8 | I16 | I32 | I64 =>
      Some (- Z.shiftl 1 (size_of p * 8 - 1), Z.shiftl 1 (size_of p * 8 - 1) - 1)
  | F32 | F64 => None
  end.

Definition is_int_type (p : prim) : bool :=
  match int_range p with Some _ => true | None => false end.

Definition prim_of_name (s : string) : option prim := dget FORMATS s.

Lemma prim_of_name_name p : prim_of_name (prim_name p) = Some p.
Proof. by destruct p. Qed.

Lemma prim_of_name_Some s p : prim_of_name s = Some p → s = prim_name p.
Proof.
  intros H%dget_Some. unfold FORMATS in H. cbn in H.
  repeat (apply elem_of_cons in H as [[= -> ->]|H]; [done|]). set_solver.
Qed.

Lemma size_of_pos p : 0 < size_of p.
Proof. destruct p; cbn; lia. Qed.

(** The range holds exactly the integers that fit the width. *)
Lemma int_range_width p lo hi :
  int_range p = Some (lo, hi) → hi - lo + 1 = 256 ^ size_of p.
Proof.
  destruct p; intros H; vm_compute in H; inversion H; subst; reflexivity.
Qed.

(** ** Names *)

Definition char_between (lo hi c : ascii) : bool :=
  ((nat_of_ascii lo <=? nat_of_ascii c) && (nat_of_ascii c <=? nat_of_ascii hi))%nat.
Definition is_upper (c : ascii) : bool := char_between "A" "Z" c.
Definition is_digit (c : ascii) : bool := char_between "0" "9" c.
Definition ident_start (c : ascii) : bool :=
  is_upper c || char_between "a" "z" c || Ascii.eqb c "_".
Definition ident_char (c : ascii) : bool := ident_start c || is_digit c.

(** [IDENT.fullmatch]: [[A-Za-z_][A-Za-z0-9_]*]. *)
Definition ident_match (s : string) : bool :=
  match String.list_ascii_of_string s with
  | [] => false
  | c :: cs => ident_start c && forallb ident_char cs
  end.

Definition KEYWORDS : list string :=
  ["auto"; "break"; "case"; "char"; "const"; "continue"; "default"; "do";
   "double"; "else"; "enum"; "extern"; "float"; "for"; "goto"; "if"; "inline";
   "int"; "long"; "register"; "restrict"; "return"; "short"; "signed";
   "sizeof"; "static"; "struct"; "switch"; "typedef"; "union"; "unsigned";
   "void"; "volatile"; "while"; "_Alignas"; "_Alignof"; "_Atomic"; "_Bool";
   "_Complex"; "_Generic"; "_Imaginary"; "_Noreturn"; "_Static_assert";
   "_Thread_local"; "alignas"; "alignof"; "and"; "and_eq"; "asm"; "bitand";
   "bitor"; "bool"; "catch"; "char16_t"; "char32_t"; "class"; "compl";
   "constexpr"; "const_cast"; "decltype"; "delete"; "dynamic_cast";
   "explicit"; "export"; "false"; "friend"; "mutable"; "namespace"; "new";
   "noexcept"; "not"; "not_eq"; "nullptr"; "operator"; "or"; "or_eq";
   "private"; "protected"; "public"; "reinterpret_cast"; "static_assert";
   "static_cast"; "template"; "this"; "thread_local"; "throw"; "true"; "try";
   "typeid"; "typename"; "using"; "virtual"; "wchar_t"; "xor"; "xor_eq"]%string.

(** [sub in s] and [s.endswith(suffix)]. *)
Fixpoint contains (sub s : string) : bool :=
  String.prefix sub s ||
  match s with EmptyString => false | String _ s' => contains sub s' end.

Fixpoint ends_with (suffix s : string) : bool :=
  String.eqb s suffix ||
  match s with EmptyString => false | String _ s' => ends_with suffix s' end.

(** What is left of [s] before its suffix of the given length. *)
Definition strip_suffix (suffix s : string) : string :=
  String.substring 0 (String.length s - String.length suffix) s.

(** [STDINT_MACRO.fullmatch] of a name that [IDENT] already matched, so that
    [\w*] takes any characters of it. *)
Definition stdint_head (p : string) : bool :=
  String.prefix "INT" p || String.prefix "UINT" p
  || bool_decide (p ∈ ["SIZE"; "PTRDIFF"; "SIG_ATOMIC"; "WCHAR"; "WINT"]%string).
Definition stdint_macro (s : string) : bool :=
  existsb (λ suf, ends_with suf s && stdint_head (strip_suffix suf s))
    ["_MAX"; "_MIN"; "_WIDTH"; "_C"]%string.

(** [c_ident]: [schema_name.replace(".", "_")]. *)
Fixpoint c_ident (s : string) : string :=
  match s with
  | EmptyString => EmptyString
  | String c s => String (if Ascii.eqb c "." then "_" else c)%char (c_ident s)
  end.

(** Why a name cannot be a C and C++ identifier; the constructors are the
    returned texts in their order. *)
Inductive ident_defect :=
| NoMatch | IsKeyword | DoubleUnderscore | ReservedUpper | EndsInT | StdintMacro.

Definition ident_problem (name : string) : option ident_defect :=
  if negb (ident_match name) then Some NoMatch
  else if bool_decide (name ∈ KEYWORDS) then Some IsKeyword
  else if contains "__" name then Some DoubleUnderscore
  else if match name with
          | String "_" (String c _) => is_upper c
          | _ => false
          end then Some ReservedUpper
  else if ends_with "_t" name then Some EndsInT
  else if stdint_macro name then Some StdintMacro
  else None.

(** [name.split(".")]: the segments between the dots. *)
Fixpoint split_dots (s : string) : list string :=
  match s with
  | EmptyString => [EmptyString]
  | String c s' =>
      if Ascii.eqb c "." then EmptyString :: split_dots s'
      else match split_dots s' with
           | seg :: segs => String c seg :: segs
           | [] => [String c EmptyString]
           end
  end.

Inductive name_defect :=
| BadSegment (segment : string) (d : ident_defect)
| BadCIdent (ident : string) (d : ident_defect)
| LeadingUnderscore.

Fixpoint first_bad_segment (segs : list string) : option name_defect :=
  match segs with
  | [] => None
  | s :: segs => match ident_problem s with
                 | Some d => Some (BadSegment s d)
                 | None => first_bad_segment segs
                 end
  end.

Definition schema_name_problem (name : string) : option name_defect :=
  match first_bad_segment (split_dots name) with
  | Some d => Some d
  | None =>
      match ident_problem (c_ident name) with
      | Some d => Some (BadCIdent (c_ident name) d)
      | None => if String.prefix "_" name then Some LeadingUnderscore else None
      end
  end.

Example name_ok : schema_name_problem "acc.Plant_1" = None.
Proof. reflexivity. Qed.
Example name_macro : ident_problem "UINT8_MAX" = Some StdintMacro.
Proof. reflexivity. Qed.
Example name_empty_segment :
  schema_name_problem "a..b" = Some (BadSegment "" NoMatch).
Proof. reflexivity. Qed.
