(* ===== verification/Schema.v ===== *)
(** * The message codec

    Models [python/src/sil/schema.py]: [MessageType] with its three field
    plans, and the [struct] module's little-endian packing that it calls.
    [pack] and [unpack] are mutually inverse on the documented domain
    ([unpack_pack], [pack_unpack]), and an array of the wrong length is
    refused instead of padded or truncated ([pack_shapes]). *)

From Stdlib Require Import ZArith Lia.
From S2P Require Import Prelude PyFloat Json SchemaTypes.

(** One field of a schema: ["name"], ["type"] and the optional ["count"]. *)
Record field := mk_field {
  fd_name : string;
  fd_type : prim;
  fd_count : option nat;
}.

#[export] Instance field_eq_dec : EqDecision field.
Proof. solve_decision. Defined.

(** Field values as [pack] takes and [unpack] gives them. *)
Inductive value :=
| VNum (n : pynum)
| VBytes (bs : bytes)
| VList (l : list pynum).

#[export] Instance value_eq_dec : EqDecision value.
Proof. solve_decision. Defined.

Inductive pack_error := KeyError (name : string) | StructError | OverflowError | TypeError.

Abbreviation values := (list (string * value)).

(** ** The [struct] module *)

Module Struct.
(** One value of a format: an element code, or [Ns]. *)
Inductive item := IPrim (p : prim) | IStr (n : nat).

Definition item_size (it : item) : nat :=
  match it with
  | IPrim p => Z.to_nat (size_of p)
  | IStr n => n
  end.

Definition size (its : list item) : nat := sum_list_with item_size its.

Definition pack_float (p : prim) (b : Z) : result pack_error bytes :=
  match p with
  | F32 => match narrow b with
           | Some c => Ok (le_bytes 4 c)
           | None => Err OverflowError
           end
  | _ => Ok (le_bytes 8 b)
  end.

Definition pack_prim (p : prim) (n : pynum) : result pack_error bytes :=
  match int_range p, n with
  | Some (lo, hi), PInt z =>
      if in_range lo hi z then Ok (le_bytes (Z.to_nat (size_of p)) z)
      else Err StructError
  | Some _, PFloat _ => Err StructError
  | None, PFloat b => pack_float p b
  | None, PInt z => match float_of_int z with
                    | Some b => pack_float p b
                    | None => Err StructError
                    end
  end.

Definition unpack_prim (p : prim) (bs : bytes) : pynum :=
  let v := le_value bs in
  match p with
  | U8 | U16 | U32 | U64 => PInt v
  | I8 | I16 | I32 | I64 =>
      PInt (if v <? Z.shiftl 1 (size_of p * 8 - 1) then v
            else v - Z.shiftl 1 (size_of p * 8))
  | F32 => PFloat (widen v)
  | F64 => PFloat v
  end.

(** ["Ns"] pads a short value with NULs and truncates a long one. *)
Definition pack_item (it : item) (v : value) : result pack_error bytes :=
  match it, v with
  | IPrim p, VNum n => pack_prim p n
  | IStr n, VBytes bs => Ok (take n bs ++ replicate (n - length bs) x00)
  | _, _ => Err StructError
  end.

Definition unpack_item (it : item) (bs : bytes) : value :=
  match it with
  | IPrim p => VNum (unpack_prim p bs)
  | IStr _ => VBytes bs
  end.

Fixpoint pack_items (its : list item) (vs : list value) : result pack_error bytes :=
  match its, vs with
  | it :: its, v :: vs =>
      a ← pack_item it v; b ← pack_items its vs; Ok (a ++ b)
  | _, _ => Ok []
  end.

Definition pack (its : list item) (vs : list value) : result pack_error bytes :=
  if decide (length vs = length its) then pack_items its vs else Err StructError.

Fixpoint unpack_items (its : list item) (bs : bytes) : list value :=
  match its with
  | [] => []
  | it :: its => unpack_item it (take (item_size it) bs)
                 :: unpack_items its (drop (item_size it) bs)
  end.

Definition unpack (its : list item) (bs : bytes) : result pack_error (list value) :=
  if decide (length bs = size its) then Ok (unpack_items its bs)
  else Err StructError.
End Struct.
Import Struct.

(** ** Field plans *)

Inductive plan := PScalar (p : prim) | PByteArray (n : nat) | PList (p : prim) (n : nat).

Definition field_plan (f : field) : plan :=
  match fd_count f with
  | None => PScalar (fd_type f)
  | Some n => if decide (fd_type f = U8) then PByteArray n else PList (fd_type f) n
  end.

(** [plan.fmt], as the struct values it stands for. *)
Definition plan_fmt (pl : plan) : list item :=
  match pl with
  | PScalar p => [IPrim p]
  | PByteArray n => [IStr n]
  | PList p n => replicate n (IPrim p)
  end.

Definition py_len (v : value) : option nat :=
  match v with
  | VNum _ => None
  | VBytes bs => Some (length bs)
  | VList l => Some (length l)
  end.

(** The elements [flat.extend(value)] adds. *)
Definition py_iter (v : value) : list value :=
  match v with
  | VNum _ => []
  | VBytes bs => (λ b, VNum (PInt (Z_of_byte b))) <$> bs
  | VList l => VNum <$> l
  end.

Definition spread (pl : plan) (v : value) (flat : list value)
    : result pack_error (list value) :=
  match pl with
  | PScalar _ => Ok (flat ++ [v])
  | PByteArray n =>
      match py_len v with
      | None => Err TypeError
      | Some len => if decide (len = n) then Ok (flat ++ [v]) else Err StructError
      end
  | PList _ n =>
      match py_len v with
      | None => Err TypeError
      | Some len => if decide (len = n) then Ok (flat ++ py_iter v) else Err StructError
      end
  end.

Definition as_pynum (v : value) : pynum :=
  match v with VNum n => n | _ => PInt 0 end.

(** [gather(flat, i)]: the value and the next index. [flat] is the tuple
    [struct] returned, so [flat[i]] exists. *)
Definition gather (pl : plan) (flat : list value) (i : nat) : value * nat :=
  match pl with
  | PScalar _ | PByteArray _ => (default (VNum (PInt 0)) (flat !! i), S i)
  | PList _ n => (VList (as_pynum <$> slice flat i n), (i + n)%nat)
  end.

(** ** MessageType *)

Definition mt_items (fs : list field) : list item :=
  concat ((λ f, plan_fmt (field_plan f)) <$> fs).

(** [MessageType.size]. *)
Definition mt_size (fs : list field) : nat := size (mt_items fs).

(** The [for name, plan in zip(...)] loop of [pack]. *)
Fixpoint spread_all (fs : list field) (vals : values) (flat : list value)
    : result pack_error (list value) :=
  match fs with
  | [] => Ok flat
  | f :: fs =>
      match dget vals (fd_name f) with
      | None => Err (KeyError (fd_name f))
      | Some v => flat' ← spread (field_plan f) v flat; spread_all fs vals flat'
      end
  end.

(** The body of [pack], with its keyword arguments in [vals]. *)
Definition pack_fields (fs : list field) (vals : values) : result pack_error bytes :=
  flat ← spread_all fs vals []; Struct.pack (mt_items fs) flat.

(** The call [pack( **vals)]: a keyword "self" is a second value for the
    method's own parameter, so it is refused before the body runs. *)
Definition mt_pack (fs : list field) (vals : values) : result pack_error bytes :=
  if bool_decide ("self"%string ∈ vals.*1) then Err TypeError else pack_fields fs vals.

(** The loop of [unpack]: [out[name], i = plan.gather(flat, i)]. *)
Fixpoint gather_all (fs : list field) (flat : list value) (i : nat) (out : values)
    : values :=
  match fs with
  | [] => out
  | f :: fs =>
      let '(v, i') := gather (field_plan f) flat i in
      gather_all fs flat i' (dset out (fd_name f) v)
  end.

Definition mt_unpack (fs : list field) (data : bytes) : result pack_error values :=
  flat ← Struct.unpack (mt_items fs) data; Ok (gather_all fs flat 0 []).

(** [MessageType.__init__] reads the fields of a schema document: [None] is
    the KeyError or TypeError of a document that is not a schema. *)
Definition field_of_json (v : json) : option field :=
  match jget v "name", jget v "type" with
  | Some (JStr name), Some (JStr ty) =>
      p ← prim_of_name ty;
      match jget v "count" with
      | None | Some JNull => Some (mk_field name p None)
      | Some (JInt n) => if n <? 0 then None else Some (mk_field name p (Some (Z.to_nat n)))
      | _ => None
      end
  | _, _ => None
  end.

Definition fields_of_json (v : json) : option (list field) :=
  match jget v "fields" with
  | Some (JArr l) => mapM field_of_json l
  | _ => None
  end.

(** The numbers a field value holds, in order. *)
Definition elements (v : value) : list pynum :=
  match v with
  | VNum n => [n]
  | VBytes bs => (λ b, PInt (Z_of_byte b)) <$> bs
  | VList l => l
  end.

(** ** Typing of values *)

(** Numbers a field of type [p] holds without rounding: integers in range,
    any binary64, and the non-NaN binary32 numbers. *)
Definition num_ok (p : prim) (n : pynum) : Prop :=
  match int_range p, n with
  | Some (lo, hi), PInt z => lo ≤ z ≤ hi
  | None, PFloat b =>
      match p with
      | F32 => ∃ c, 0 ≤ c < 2 ^ 32 ∧ is_nan32 c = false ∧ b = widen c
      | _ => 0 ≤ b < 2 ^ 64
      end
  | _, _ => False
  end.

Definition has_type (f : field) (v : value) : Prop :=
  match field_plan f, v with
  | PScalar p, VNum n => num_ok p n
  | PByteArray n, VBytes bs => length bs = n
  | PList p n, VList l => length l = n ∧ Forall (num_ok p) l
  | _, _ => False
  end.

(** Bytes of an "f" element that are not a NaN. *)
Definition f32_clean (it : item) (bs : bytes) : bool :=
  match it with
  | IPrim F32 => negb (is_nan32 (le_value bs))
  | _ => true
  end.

Fixpoint nan32_free (its : list item) (bs : bytes) : bool :=
  match its with
  | [] => true
  | it :: its => f32_clean it (take (item_size it) bs)
                 && nan32_free its (drop (item_size it) bs)
  end.

(** ** Element round trips *)

Lemma pow256_bits p : 256 ^ Z.of_nat (Z.to_nat (size_of p)) = 2 ^ (size_of p * 8).
Proof. by destruct p. Qed.

Lemma signed_wrap p z v :
  - Z.shiftl 1 (size_of p * 8 - 1) ≤ z ≤ Z.shiftl 1 (size_of p * 8 - 1) - 1 →
  v = z mod 256 ^ Z.of_nat (Z.to_nat (size_of p)) →
  (if v <? Z.shiftl 1 (size_of p * 8 - 1) then v
   else v - Z.shiftl 1 (size_of p * 8)) = z.
Proof.
  intros Hz ->. rewrite pow256_bits in *.
  pose proof (size_of_pos p). rewrite !Z.shiftl_1_l in *.
  assert (2 ^ (size_of p * 8) = 2 * 2 ^ (size_of p * 8 - 1)) as ->.
  { rewrite <- Z.pow_succ_r by lia. f_equal. lia. }
  set (h := 2 ^ (size_of p * 8 - 1)) in *.
  destruct (Z_lt_le_dec z 0).
  - assert (z mod (2 * h) = z + 2 * h) as ->.
    { symmetry. apply Z.mod_unique with (-1); lia. }
    rewrite (proj2 (Z.ltb_ge _ _)) by lia. lia.
  - rewrite Z.mod_small by lia. by rewrite (proj2 (Z.ltb_lt _ _)) by lia.
Qed.

Lemma signed_unwrap p v z :
  0 ≤ v < 2 ^ (size_of p * 8) →
  z = (if v <? Z.shiftl 1 (size_of p * 8 - 1) then v
       else v - Z.shiftl 1 (size_of p * 8)) →
  - Z.shiftl 1 (size_of p * 8 - 1) ≤ z ≤ Z.shiftl 1 (size_of p * 8 - 1) - 1
  ∧ z mod 2 ^ (size_of p * 8) = v.
Proof.
  intros Hv ->. pose proof (size_of_pos p). rewrite !Z.shiftl_1_l in *.
  assert (E : 2 ^ (size_of p * 8) = 2 * 2 ^ (size_of p * 8 - 1)).
  { rewrite <- Z.pow_succ_r by lia. f_equal. lia. }
  rewrite E in *. set (h := 2 ^ (size_of p * 8 - 1)) in *. clearbody h.
  destruct (Z.ltb_spec v h); (split; [lia|]).
  - apply Z.mod_small. lia.
  - symmetry. apply Z.mod_unique with (-1); lia.
Qed.

Lemma pack_prim_ok p n :
  num_ok p n →
  ∃ bs, pack_prim p n = Ok bs ∧ length bs = Z.to_nat (size_of p)
        ∧ unpack_prim p bs = n.
Proof.
  unfold num_ok, pack_prim. destruct (int_range p) as [[lo hi]|] eqn:Hr;
    destruct n as [z|b]; try done.
  - intros Hz. rewrite (proj2 (in_range_true _ _ _) Hz). eexists; split_and!;
      [done | apply length_le_bytes |].
    pose proof (signed_wrap p z) as Hs.
    unfold unpack_prim. destruct p; try discriminate Hr;
      injection Hr as <- <-; f_equal;
      first [ by apply le_value_le_bytes_small; rewrite pow256_bits;
                rewrite Z.shiftl_1_l in Hz; cbn [size_of] in *; lia
            | by apply Hs; [exact Hz | apply le_value_le_bytes] ].
  - destruct p; try done; cbn [pack_float].
    + intros (c & Hc & Hn & ->). rewrite narrow_widen by done.
      eexists; split_and!; [done | apply length_le_bytes |].
      unfold unpack_prim. rewrite le_value_le_bytes_small; [done|].
      by change (256 ^ Z.of_nat 4) with (2 ^ 32).
    + intros Hb. eexists; split_and!; [done | apply length_le_bytes |].
      unfold unpack_prim. rewrite le_value_le_bytes_small; [done|].
      by change (256 ^ Z.of_nat 8) with (2 ^ 64).
Qed.

Lemma unpack_prim_ok p bs :
  length bs = Z.to_nat (size_of p) → f32_clean (IPrim p) bs = true →
  num_ok p (unpack_prim p bs) ∧ pack_prim p (unpack_prim p bs) = Ok bs.
Proof.
  intros Hl Hc. pose proof (le_value_bound bs) as Hv.
  rewrite Hl, pow256_bits in Hv.
  assert (Hback : ∀ z, z mod 2 ^ (size_of p * 8) = le_value bs →
    le_bytes (Z.to_nat (size_of p)) z = bs).
  { intros z Hz. rewrite <- (le_bytes_le_value_n _ bs Hl). rewrite <- Hz.
    rewrite <- pow256_bits, <- le_value_le_bytes.
    by rewrite le_bytes_le_value_n by apply length_le_bytes. }
  assert (Hsm : le_value bs mod 2 ^ (size_of p * 8) = le_value bs)
    by (apply Z.mod_small; lia).
  destruct (is_int_type p) eqn:Hi.
  - assert (∃ z lo hi, unpack_prim p bs = PInt z ∧ int_range p = Some (lo, hi)
      ∧ lo ≤ z ≤ hi ∧ z mod 2 ^ (size_of p * 8) = le_value bs)
      as (z & lo & hi & -> & Hr & Hz & Hm).
    { clear Hback Hc. destruct p; try done; do 3 eexists; (split; [done|]);
        (split; [done|]);
        first [ by apply signed_unwrap; [exact Hv | reflexivity]
              | split; [rewrite Z.shiftl_1_l; cbn [size_of] in *; lia | done] ]. }
    unfold num_ok, pack_prim. rewrite Hr, (proj2 (in_range_true _ _ _) Hz).
    split; [done|]. f_equal. by apply Hback.
  - destruct p; try done; cbn in Hc, Hv |- *.
    + apply negb_true_iff in Hc. split; [eexists; split_and!; eauto; lia|].
      rewrite narrow_widen by (done || lia). f_equal. by apply Hback.
    + split; [lia|]. f_equal. by apply Hback.
Qed.

(** ** Whole formats *)

(** The shape a value of each format item has after [unpack]. *)
Definition item_shape (it : item) (v : value) : Prop :=
  match it, v with
  | IPrim _, VNum _ => True
  | IStr n, VBytes bs => length bs = n
  | _, _ => False
  end.

Definition item_ok (it : item) (v : value) : Prop :=
  match it, v with
  | IPrim p, VNum n => num_ok p n
  | IStr n, VBytes bs => length bs = n
  | _, _ => False
  end.

Lemma item_ok_shape it v : item_ok it v → item_shape it v.
Proof. by destruct it, v. Qed.

Lemma pack_item_ok it v :
  item_ok it v →
  ∃ bs, pack_item it v = Ok bs ∧ length bs = item_size it ∧ unpack_item it bs = v.
Proof.
  destruct it as [p|n], v as [x|bs|l]; try done; cbn.
  - intros (bs & H1 & H2 & <-)%pack_prim_ok. eauto.
  - intros <-. exists bs. rewrite take_ge, Nat.sub_diag, app_nil_r by lia. done.
Qed.

Lemma unpack_item_ok it bs :
  length bs = item_size it → f32_clean it bs = true →
  item_ok it (unpack_item it bs) ∧ pack_item it (unpack_item it bs) = Ok bs.
Proof.
  destruct it as [p|n]; cbn; intros Hl Hc.
  - by apply unpack_prim_ok.
  - by rewrite take_ge, Hl, Nat.sub_diag, app_nil_r by lia.
Qed.

Lemma unpack_item_shape it bs :
  length bs = item_size it → item_shape it (unpack_item it bs).
Proof. by destruct it. Qed.

Lemma pack_items_ok its vs :
  Forall2 item_ok its vs →
  ∃ bs, pack_items its vs = Ok bs ∧ length bs = size its
        ∧ unpack_items its bs = vs.
Proof.
  induction 1 as [|it v its vs Hv _ (bs & IH1 & IH2 & IH3)]; [by exists []|].
  destruct (pack_item_ok it v Hv) as (b & H1 & H2 & H3).
  exists (b ++ bs). cbn. rewrite H1, IH1. cbn.
  rewrite length_app, <- H2, take_app_length, drop_app_length, H3, IH3.
  split_and!; [done | unfold size in *; cbn; lia | done].
Qed.

Lemma unpack_items_ok its bs :
  length bs = size its → nan32_free its bs = true →
  Forall2 item_ok its (unpack_items its bs)
  ∧ pack_items its (unpack_items its bs) = Ok bs.
Proof.
  revert bs. induction its as [|it its IH]; intros bs Hl Hn; cbn in *.
  - split; [constructor|]. by destruct bs.
  - apply andb_true_iff in Hn as [Hc Hn]. unfold size in Hl. cbn in Hl.
    destruct (unpack_item_ok it (take (item_size it) bs)) as [H1 H2];
      [rewrite length_take; lia | done |].
    destruct (IH (drop (item_size it) bs)) as [H3 H4];
      [rewrite length_drop; unfold size; lia | done |].
    split; [by constructor|]. rewrite H2, H4. cbn. by rewrite take_drop.
Qed.

Lemma unpack_items_shape its bs :
  length bs = size its → Forall2 item_shape its (unpack_items its bs).
Proof.
  revert bs. induction its as [|it its IH]; intros bs Hl; cbn; constructor.
  - apply unpack_item_shape. unfold size in Hl. cbn in Hl. rewrite length_take. lia.
  - apply IH. unfold size in *. cbn in Hl. rewrite length_drop. lia.
Qed.

(** ** Plans: a field value and the segment of struct values it occupies *)

Definition plan_val (pl : plan) (v : value) (seg : list value) : Prop :=
  match pl with
  | PScalar _ => seg = [v]
  | PByteArray n => seg = [v] ∧ ∃ bs, v = VBytes bs ∧ length bs = n
  | PList _ n => ∃ l, v = VList l ∧ seg = VNum <$> l ∧ length l = n
  end.

Lemma spread_plan_val pl v seg flat :
  plan_val pl v seg → spread pl v flat = Ok (flat ++ seg).
Proof.
  destruct pl as [p|n|p n]; cbn.
  - by intros ->.
  - intros (-> & bs & -> & <-). cbn. by rewrite decide_True.
  - intros (l & -> & -> & <-). cbn. by rewrite decide_True.
Qed.

Lemma as_pynum_VNum (l : list pynum) : as_pynum <$> (VNum <$> l) = l.
Proof. induction l; cbn; f_equal; auto. Qed.

Lemma gather_plan_val pl v seg pre rest :
  plan_val pl v seg →
  gather pl (pre ++ seg ++ rest) (length pre) = (v, (length pre + length seg)%nat).
Proof.
  destruct pl as [p|n|p n]; cbn.
  - intros ->. cbn. rewrite list_lookup_middle by done. f_equal. lia.
  - intros (-> & _). cbn. rewrite list_lookup_middle by done. f_equal. lia.
  - intros (l & -> & -> & <-). rewrite <- (length_fmap VNum l).
    by rewrite slice_app, as_pynum_VNum.
Qed.

Lemma plan_val_of_shape pl seg :
  Forall2 item_shape (plan_fmt pl) seg → ∃ v, plan_val pl v seg.
Proof.
  destruct pl as [p|n|p n]; cbn.
  - inversion 1 as [|? v ? ? H1 H2]; subst. inversion H2; subst. by exists v.
  - inversion 1 as [|? v ? ? H1 H2]; subst. inversion H2; subst.
    destruct v; try done. eauto.
  - intros H. assert (∃ l, seg = VNum <$> l ∧ length l = n) as (l & -> & <-).
    { revert seg H. induction n as [|n IH]; cbn; intros seg H.
      - inversion H; subst. by exists [].
      - inversion H as [|? v ? seg' H1 H2]; subst. destruct v; try done.
        apply IH in H2 as (l & -> & <-). by exists (n0 :: l). }
    exists (VList l). eauto.
Qed.

Lemma has_type_plan_val f v :
  has_type f v →
  ∃ seg, plan_val (field_plan f) v seg
         ∧ Forall2 item_ok (plan_fmt (field_plan f)) seg.
Proof.
  unfold has_type. destruct (field_plan f) as [p|n|p n], v; try done; cbn.
  - intros H. eexists; split; [done|]. by repeat constructor.
  - intros H. eexists; split; [eauto|]. by repeat constructor.
  - intros [Hl Hf]. eexists; split; [eauto|]. subst n.
    induction Hf; cbn; by constructor.
Qed.

Lemma plan_val_has_type f v seg :
  plan_val (field_plan f) v seg →
  Forall2 item_ok (plan_fmt (field_plan f)) seg → has_type f v.
Proof.
  unfold has_type. destruct (field_plan f) as [p|n|p n]; cbn.
  - intros -> H. inversion H; subst. by destruct v.
  - intros (-> & bs & -> & Hl) _. done.
  - intros (l & -> & -> & <-) H. split; [done|]. clear f.
    induction l as [|x l IH]; [constructor|]. cbn in H.
    inversion H; subst. constructor; auto.
Qed.

(** ** Whole messages *)

Lemma spread_all_segs fs vs segs vals flat :
  Forall3 (λ f v seg, plan_val (field_plan f) v seg) fs vs segs →
  (∀ f v, (f, v) ∈ zip fs vs → dget vals (fd_name f) = Some v) →
  spread_all fs vals flat = Ok (flat ++ concat segs).
Proof.
  intros H. revert flat.
  induction H as [|f v seg fs vs segs Hp _ IH]; intros flat Hd; cbn.
  - by rewrite app_nil_r.
  - rewrite (Hd f v) by (cbn; left). rewrite (spread_plan_val _ _ _ _ Hp). cbn.
    rewrite IH by (intros; apply Hd; cbn; by right). by rewrite app_assoc.
Qed.

Lemma gather_all_segs fs vs segs pre rest out :
  Forall3 (λ f v seg, plan_val (field_plan f) v seg) fs vs segs →
  NoDup (out.*1 ++ (fd_name <$> fs)) →
  gather_all fs (pre ++ concat segs ++ rest) (length pre) out
  = out ++ zip (fd_name <$> fs) vs.
Proof.
  intros H. revert pre out.
  induction H as [|f v seg fs vs segs Hp _ IH]; intros pre out Hn; cbn.
  - by rewrite app_nil_r.
  - rewrite <- app_assoc, (gather_plan_val _ _ _ _ _ Hp).
    rewrite app_assoc, <- length_app.
    rewrite dset_keys_new.
    2:{ apply NoDup_app in Hn as (_ & Hn & _). intros Hin.
        apply (Hn _ Hin). cbn. left. }
    rewrite IH; [by rewrite <- app_assoc|].
    rewrite fmap_app. cbn. by rewrite <- app_assoc.
Qed.

Lemma Forall2_concat {A B} (P : A → B → Prop) ls ks :
  Forall2 (Forall2 P) ls ks → Forall2 P (concat ls) (concat ks).
Proof. induction 1; cbn; [constructor|]. by apply Forall2_app. Qed.

Lemma Forall2_concat_inv {A B} (P : A → B → Prop) ls k :
  Forall2 P (concat ls) k → ∃ ks, k = concat ks ∧ Forall2 (Forall2 P) ls ks.
Proof.
  revert k. induction ls as [|l ls IH]; cbn; intros k H.
  - inversion H; subst. by exists [].
  - apply Forall2_app_inv_l in H as (k1 & k2 & H1 & H2 & ->).
    apply IH in H2 as (ks & -> & H2). exists (k1 :: ks). split; [done|]. by constructor.
Qed.

Lemma zip_dget fs (vs : list value) f v :
  NoDup (fd_name <$> fs) → length vs = length fs → (f, v) ∈ zip fs vs →
  dget (zip (fd_name <$> fs) vs) (fd_name f) = Some v.
Proof.
  intros Hn Hl Hin. apply dget_elem.
  - rewrite fst_zip by (rewrite length_fmap; lia). done.
  - clear Hn. revert vs Hl Hin. induction fs as [|g fs IH]; intros [|w vs] Hl Hin;
      cbn in *; set_solver.
Qed.

Lemma has_type_segs fs vs :
  Forall2 has_type fs vs →
  ∃ segs, Forall3 (λ f v seg, plan_val (field_plan f) v seg) fs vs segs
          ∧ Forall2 item_ok (mt_items fs) (concat segs).
Proof.
  induction 1 as [|f v fs vs Hf _ (segs & H1 & H2)].
  - exists []. split; constructor.
  - apply has_type_plan_val in Hf as (seg & Hp & Hi).
    exists (seg :: segs). split; [by constructor|]. cbn. by apply Forall2_app.
Qed.

(** The keyword arguments that give every field a value. *)
Lemma keywords_names (fs : list field) (vs : list value) :
  length vs = length fs → (zip (fd_name <$> fs) vs).*1 = fd_name <$> fs.
Proof. intros H. apply fst_zip. rewrite length_fmap. lia. Qed.

Lemma mt_pack_fields fs vals data :
  mt_pack fs vals = Ok data → pack_fields fs vals = Ok data.
Proof. unfold mt_pack. by case_bool_decide. Qed.

Lemma mt_pack_keywords fs vs :
  length vs = length fs →
  mt_pack fs (zip (fd_name <$> fs) vs)
  = if bool_decide ("self"%string ∈ fd_name <$> fs) then Err TypeError
    else pack_fields fs (zip (fd_name <$> fs) vs).
Proof. intros H. unfold mt_pack. by rewrite keywords_names. Qed.

(** Unpacking what [pack] wrote gives the values back. *)
Lemma mt_unpack_pack fs vs :
  NoDup (fd_name <$> fs) → Forall2 has_type fs vs →
  ∃ data, pack_fields fs (zip (fd_name <$> fs) vs) = Ok data
          ∧ length data = mt_size fs
          ∧ mt_unpack fs data = Ok (zip (fd_name <$> fs) vs).
Proof.
  intros Hn Ht. pose proof (Forall2_length _ _ _ Ht) as Hl.
  destruct (has_type_segs _ _ Ht) as (segs & Hs & Hi).
  destruct (pack_items_ok _ _ Hi) as (data & Hp & Hd & Hu).
  exists data. unfold pack_fields.
  rewrite (spread_all_segs _ _ _ _ [] Hs)
    by (intros; apply zip_dget; [done|lia|done]).
  cbn. unfold Struct.pack. rewrite decide_True by (symmetry; by eapply Forall2_length).
  split_and!; [done|done|]. unfold mt_unpack, Struct.unpack.
  rewrite decide_True by done. cbn. rewrite Hu.
  pose proof (gather_all_segs _ _ _ [] [] [] Hs) as Hg. cbn in Hg.
  rewrite app_nil_r in Hg. rewrite Hg by done. done.
Qed.

Lemma segs_of_data fs data :
  length data = mt_size fs →
  ∃ vs segs, unpack_items (mt_items fs) data = concat segs
    ∧ Forall3 (λ f v seg, plan_val (field_plan f) v seg) fs vs segs
    ∧ Forall2 (λ f seg, Forall2 item_shape (plan_fmt (field_plan f)) seg) fs segs.
Proof.
  intros Hl. pose proof (unpack_items_shape (mt_items fs) data Hl) as Hsh.
  apply Forall2_concat_inv in Hsh as (segs & -> & Hsh).
  rewrite Forall2_fmap_l in Hsh. cut (∃ vs, Forall3 (λ f v seg,
    plan_val (field_plan f) v seg) fs vs segs); [intros [vs H]; exists vs, segs; split_and!; [done|exact H|exact Hsh]|].
  clear Hl. induction Hsh as [|f seg fs segs Hf Hsh (vs & IH)].
  - exists []. constructor.
  - destruct (plan_val_of_shape _ _ Hf) as (v & Hv). exists (v :: vs). by constructor.
Qed.

Lemma plan_val_length pl v seg :
  plan_val pl v seg → length (plan_fmt pl) = length seg.
Proof.
  destruct pl; cbn; [by intros -> | by intros (-> & _) |].
  intros (l & -> & -> & <-). by rewrite length_replicate, length_fmap.
Qed.

Lemma item_ok_has_type fs vs segs :
  Forall3 (λ f v seg, plan_val (field_plan f) v seg) fs vs segs →
  Forall2 item_ok (mt_items fs) (concat segs) → Forall2 has_type fs vs.
Proof.
  induction 1 as [|f v seg fs vs segs Hp H3 IH]; intros Hi; constructor;
    apply Forall2_app_inv in Hi as [H1 H2]; eauto using plan_val_has_type;
    by eapply plan_val_length.
Qed.

Lemma Forall3_length_lm {A B C} (P : A → B → C → Prop) l k m :
  Forall3 P l k m → length k = length l.
Proof. induction 1; cbn; auto. Qed.

(** Every payload of the schema's size unpacks to one value per field, in
    field order, and packing those values gives the payload back. *)
Lemma mt_pack_unpack fs data :
  NoDup (fd_name <$> fs) → length data = mt_size fs →
  ∃ vs, length vs = length fs
    ∧ mt_unpack fs data = Ok (zip (fd_name <$> fs) vs)
    ∧ (nan32_free (mt_items fs) data = true →
       Forall2 has_type fs vs
       ∧ pack_fields fs (zip (fd_name <$> fs) vs) = Ok data).
Proof.
  intros Hn Hl. destruct (segs_of_data fs data Hl) as (vs & segs & Hu & H3 & _).
  pose proof (Forall3_length_lm _ _ _ _ H3) as Hvs.
  exists vs. split; [done|]. split.
  - unfold mt_unpack, Struct.unpack. rewrite decide_True by done. cbn. rewrite Hu.
    pose proof (gather_all_segs _ _ _ [] [] [] H3) as Hg. cbn in Hg.
    rewrite app_nil_r in Hg. rewrite Hg by done. done.
  - intros Hf. destruct (unpack_items_ok _ _ Hl Hf) as [Hok Hp].
    rewrite Hu in Hok, Hp. split; [by eapply item_ok_has_type|].
    unfold pack_fields. rewrite (spread_all_segs _ _ _ _ [] H3)
      by (intros; apply zip_dget; [done|lia|done]).
    cbn. unfold Struct.pack.
    rewrite decide_True by (symmetry; by eapply Forall2_length). done.
Qed.

(** ** Where each value lies in the payload *)

(** The value of a field whose bytes start the given ones. *)
Definition field_value (f : field) (d : bytes) : value :=
  match field_plan f with
  | PScalar p => VNum (unpack_prim p (take (Z.to_nat (size_of p)) d))
  | PByteArray n => VBytes (take n d)
  | PList p n => VList ((λ i, unpack_prim p (take (Z.to_nat (size_of p))
                                (drop (i * Z.to_nat (size_of p)) d))) <$> seq 0 n)
  end.

Definition field_size (f : field) : nat := size (plan_fmt (field_plan f)).

Fixpoint field_values (fs : list field) (d : bytes) : list value :=
  match fs with
  | [] => []
  | f :: fs => field_value f d :: field_values fs (drop (field_size f) d)
  end.

Lemma unpack_items_app its1 its2 d :
  unpack_items (its1 ++ its2) d = unpack_items its1 d ++ unpack_items its2 (drop (size its1) d).
Proof.
  revert d. induction its1 as [|it its IH]; intros d; [done|]. cbn. f_equal.
  rewrite IH, drop_drop. done.
Qed.

Lemma unpack_replicate p n d :
  unpack_items (replicate n (IPrim p)) d
  = VNum <$> ((λ i, unpack_prim p (take (Z.to_nat (size_of p))
                (drop (i * Z.to_nat (size_of p)) d))) <$> seq 0 n).
Proof.
  revert d. induction n as [|n IH]; intros d; [done|].
  cbn [replicate unpack_items seq]. rewrite !fmap_cons. cbn [Nat.mul]. rewrite drop_0.
  f_equal. rewrite IH, <- seq_shift, <- !list_fmap_compose.
  apply list_fmap_ext. intros _ i _. cbn -[Nat.mul]. do 3 f_equal. by rewrite drop_drop.
Qed.

Lemma field_value_plan f d :
  (field_size f ≤ length d)%nat →
  plan_val (field_plan f) (field_value f d) (unpack_items (plan_fmt (field_plan f)) d).
Proof.
  unfold field_size, field_value. destruct (field_plan f) as [p|n|p n]; cbn [plan_fmt].
  - done.
  - cbn. intros H. split; [done|]. eexists; split; [done|]. rewrite length_take. lia.
  - intros _. rewrite unpack_replicate. eexists; split_and!; [done|done|].
    by rewrite length_fmap, length_seq.
Qed.

(** [unpack] reads each field at the running total of the sizes before it. *)
Lemma mt_unpack_values fs data :
  NoDup (fd_name <$> fs) → length data = mt_size fs →
  mt_unpack fs data = Ok (zip (fd_name <$> fs) (field_values fs data)).
Proof.
  intros Hn Hl. unfold mt_unpack, Struct.unpack. rewrite decide_True by done. mcbn.
  assert (∃ segs, unpack_items (mt_items fs) data = concat segs
    ∧ Forall3 (λ f v seg, plan_val (field_plan f) v seg) fs (field_values fs data) segs)
    as (segs & Hu & H3).
  { clear Hn. revert data Hl. induction fs as [|f fs IH]; intros data Hl.
    - exists []. split; [done|constructor].
    - unfold mt_size, mt_items in *. rewrite fmap_cons in *. cbn [concat] in *.
      unfold size in Hl. rewrite sum_list_with_app in Hl.
      destruct (IH (drop (field_size f) data)) as (segs & Hu & H3).
      { rewrite length_drop. unfold field_size, size. lia. }
      exists (unpack_items (plan_fmt (field_plan f)) data :: segs). split.
      + rewrite unpack_items_app. cbn [concat]. by rewrite <- Hu.
      + cbn [field_values]. constructor; [|done]. apply field_value_plan.
        unfold field_size, size. lia. }
  rewrite Hu. pose proof (gather_all_segs _ _ _ [] [] [] H3) as Hg. cbn in Hg.
  rewrite app_nil_r in Hg. by rewrite Hg.
Qed.

(** ** Refusals *)

(** A value fits the array length its plan declares. *)
Definition fits (pl : plan) (v : value) : Prop :=
  match pl with
  | PScalar _ => True
  | PByteArray n | PList _ n => py_len v = Some n
  end.

Lemma spread_fits pl v flat flat' : spread pl v flat = Ok flat' → fits pl v.
Proof.
  destruct pl; cbn; [done|..]; destruct (py_len v); try done;
    case_decide; naive_solver.
Qed.

Lemma spread_all_fits fs vals flat flat' :
  spread_all fs vals flat = Ok flat' →
  Forall (λ f, ∃ v, dget vals (fd_name f) = Some v ∧ fits (field_plan f) v) fs.
Proof.
  revert flat. induction fs as [|f fs IH]; intros flat; cbn; [constructor|].
  destruct (dget vals (fd_name f)) as [v|] eqn:Hv; [|done].
  intros (flat1 & H1 & H2)%bind_Ok. constructor; [|by eapply IH].
  exists v. split; [done|]. by eapply spread_fits.
Qed.

Lemma pack_float_length p b bs :
  int_range p = None → pack_float p b = Ok bs → length bs = Z.to_nat (size_of p).
Proof.
  destruct p; try done; cbn [pack_float]; intros _.
  - destruct (narrow b); [|done]. by intros [= <-].
  - by intros [= <-].
Qed.

Lemma pack_item_length it v bs : pack_item it v = Ok bs → length bs = item_size it.
Proof.
  destruct it as [p|n], v as [x|b|l]; try done.
  - cbn [pack_item item_size]. unfold pack_prim.
    destruct (int_range p) as [[lo hi]|] eqn:Hr, x as [z|b]; try done.
    + destruct (in_range lo hi z); [|done]. intros [= <-]. apply length_le_bytes.
    + destruct (float_of_int z); [|done]. by apply pack_float_length.
    + by apply pack_float_length.
  - cbn. intros [= <-]. rewrite length_app, length_take, length_replicate. lia.
Qed.

Lemma pack_items_length its vs bs :
  length vs = length its → pack_items its vs = Ok bs → length bs = size its.
Proof.
  revert vs bs. induction its as [|it its IH]; intros [|v vs] bs Hl; try done; cbn.
  - by intros [= <-].
  - intros (a & Ha & (b & Hb & [= <-])%bind_Ok)%bind_Ok.
    rewrite length_app. unfold size in *. cbn.
    rewrite (pack_item_length _ _ _ Ha), (IH vs b) by (auto || (cbn in Hl; lia)). done.
Qed.

(** A successful [pack] gives exactly [size] bytes, and every array field was
    given exactly [count] elements: nothing is padded, truncated or missing. *)
Lemma mt_pack_Ok fs vals data :
  mt_pack fs vals = Ok data →
  length data = mt_size fs
  ∧ Forall (λ f, ∃ v, dget vals (fd_name f) = Some v ∧ fits (field_plan f) v) fs.
Proof.
  intros (flat & Hs & Hp)%mt_pack_fields%bind_Ok. split.
  - unfold Struct.pack in Hp. case_decide; [|done]. by eapply pack_items_length.
  - by eapply spread_all_fits.
Qed.

(** Only a payload of the schema's size unpacks. *)
Lemma mt_unpack_size fs data :
  (∃ vals, mt_unpack fs data = Ok vals) ↔ length data = mt_size fs.
Proof.
  unfold mt_unpack, Struct.unpack, mt_size. case_decide as H; cbn; [naive_solver|].
  split; [by intros [? ?]|done].
Qed.

(** ** Properties *)

(** C1. Round trip: for a schema with distinct field names, packing
    well-typed values succeeds, gives exactly [size] bytes, and unpacking
    those bytes gives every value back under its field name, in field order.
    Only the call with the values as keywords differs: it refuses a schema
    with a field "self", which the method's own parameter already names. *)
Theorem unpack_pack fs vs :
  NoDup (fd_name <$> fs) → Forall2 has_type fs vs →
  ∃ data, pack_fields fs (zip (fd_name <$> fs) vs) = Ok data
          ∧ mt_pack fs (zip (fd_name <$> fs) vs)
            = (if bool_decide ("self"%string ∈ fd_name <$> fs) then Err TypeError else Ok data)
          ∧ length data = mt_size fs
          ∧ mt_unpack fs data = Ok (zip (fd_name <$> fs) vs).
Proof.
  intros Hn Ht. destruct (mt_unpack_pack fs vs Hn Ht) as (data & Hp & Hl & Hu).
  exists data. split_and!; [done| |done|done].
  rewrite mt_pack_keywords by (symmetry; by eapply Forall2_length). by rewrite Hp.
Qed.

Definition demo_fields : list field :=
  [mk_field "speed" F64 None; mk_field "id" I16 None;
   mk_field "raw" U8 (Some 3%nat); mk_field "gap" F32 (Some 2%nat)].
Definition demo_values : list value :=
  [VNum (PFloat 4611686018427387904); VNum (PInt (-2));
   VBytes [x01; xff; x00]; VList [PFloat (widen 1069547520); PFloat (widen 1)]].

Lemma demo_typed : Forall2 has_type demo_fields demo_values.
Proof.
  constructor; [|constructor; [|constructor; [|constructor; [|constructor]]]].
  - split; vm_compute; done.
  - split; vm_compute; done.
  - reflexivity.
  - split; [reflexivity|]. constructor; [|constructor; [|constructor]].
    + exists 1069547520. split_and!; vm_compute; done.
    + exists 1. split_and!; vm_compute; done.
Qed.

Lemma unpack_pack_witness :
  ∃ data, pack_fields demo_fields (zip (fd_name <$> demo_fields) demo_values) = Ok data
    ∧ mt_pack demo_fields (zip (fd_name <$> demo_fields) demo_values)
      = (if bool_decide ("self"%string ∈ fd_name <$> demo_fields) then Err TypeError else Ok data)
    ∧ length data = mt_size demo_fields
    ∧ mt_unpack demo_fields data = Ok (zip (fd_name <$> demo_fields) demo_values).
Proof.
  apply (unpack_pack demo_fields demo_values).
  - apply (bool_decide_unpack _). vm_compute. exact I.
  - exact demo_typed.
Defined.

(** Round trip from bytes: every payload of the schema's size unpacks,
    and when no "f32" element holds a NaN the values are well typed and
    packing them gives the same bytes. *)
Theorem pack_unpack fs data :
  NoDup (fd_name <$> fs) → length data = mt_size fs →
  ∃ vs, length vs = length fs
    ∧ mt_unpack fs data = Ok (zip (fd_name <$> fs) vs)
    ∧ (nan32_free (mt_items fs) data = true →
       Forall2 has_type fs vs
       ∧ pack_fields fs (zip (fd_name <$> fs) vs) = Ok data).
Proof. apply mt_pack_unpack. Qed.

Lemma pack_unpack_witness :
  ∃ vs, length vs = length demo_fields
    ∧ mt_unpack demo_fields (replicate 21 x01) = Ok (zip (fd_name <$> demo_fields) vs)
    ∧ (nan32_free (mt_items demo_fields) (replicate 21 x01) = true →
       Forall2 has_type demo_fields vs
       ∧ pack_fields demo_fields (zip (fd_name <$> demo_fields) vs)
         = Ok (replicate 21 x01)).
Proof.
  apply (pack_unpack demo_fields (replicate 21 x01)).
  - apply (bool_decide_unpack _). vm_compute. exact I.
  - reflexivity.
Defined.

(** Refusal instead of corruption: when [pack] succeeds, the result has
    exactly [size] bytes, every field was given, and every array field was
    given exactly [count] elements; any other call raises. *)
Theorem pack_shapes fs vals data :
  mt_pack fs vals = Ok data →
  length data = mt_size fs
  ∧ Forall (λ f, ∃ v, dget vals (fd_name f) = Some v ∧ fits (field_plan f) v) fs.
Proof. apply mt_pack_Ok. Qed.

Lemma pack_shapes_witness :
  length (replicate 2 xff) = mt_size [mk_field "a" U8 (Some 2%nat)]
  ∧ Forall (λ f, ∃ v, dget [("a"%string, VBytes (replicate 2 xff))] (fd_name f) = Some v
                      ∧ fits (field_plan f) v) [mk_field "a" U8 (Some 2%nat)].
Proof.
  apply (pack_shapes _ [("a"%string, VBytes (replicate 2 xff))]). reflexivity.
Defined.
