(* ===== verification/Pointer.v ===== *)
(** * JSON Pointers and decimal text

    [str] of an integer, and the escaping of RFC 6901 reference tokens that
    [manifest_validate.py] ([_pointer]) and [visualization/interchange.py]
    ([_pointer], [_element]) use. Pointers are read back to their tokens
    ([pointer_round_trip]), so two paths never render alike. *)

From Stdlib Require Import ZArith Lia Ascii.
From stdpp Require Import pretty.
From S2P Require Import Prelude.

(** A token of a context or of a JSON Pointer. *)
Inductive token := TKey (s : string) | TIdx (n : nat).
#[export] Instance token_eq_dec : EqDecision token.
Proof. solve_decision. Defined.

(** [str(n)] of an int. *)
Definition decimal (n : nat) : string := pretty n.
Definition decimal_Z (z : Z) : string := pretty z.

#[export] Instance decimal_inj : Inj (=) (=) decimal.
Proof. unfold decimal. apply _. Qed.
#[export] Instance decimal_Z_inj : Inj (=) (=) decimal_Z.
Proof. unfold decimal_Z. apply _. Qed.

(** [value.isdigit()] and [int(value)], of ASCII text. *)
Definition is_ascii_digit (c : ascii) : bool := (48 <=? N_of_ascii c)%N && (N_of_ascii c <=? 57)%N.
Fixpoint digits_value (acc : Z) (s : string) : option Z :=
  match s with
  | EmptyString => Some acc
  | String c s => if is_ascii_digit c then digits_value (acc * 10 + (Z.of_N (N_of_ascii c) - 48)) s
                  else None
  end.

Lemma pretty_char_value x :
  (x < 10)%N → is_ascii_digit (pretty_N_char x) = true
  ∧ Z.of_N (N_of_ascii (pretty_N_char x)) - 48 = Z.of_N x.
Proof.
  intros Hx. assert (x ∈ [0; 1; 2; 3; 4; 5; 6; 7; 8; 9]%N) as H by (rewrite !elem_of_cons; lia).
  repeat (apply elem_of_cons in H as [->|H]; [done|]). by apply not_elem_of_nil in H.
Qed.

Lemma digits_value_go x :
  ∃ k, 0 ≤ k ∧ ∀ acc s, digits_value acc (pretty_N_go x s) = digits_value (acc * k + Z.of_N x) s.
Proof.
  induction x as [x IH] using (well_founded_ind N.lt_wf_0).
  destruct (decide (x = 0)%N) as [->|Hx].
  { exists 1. split; [lia|]. intros acc s. rewrite pretty_N_go_0. f_equal. lia. }
  destruct (IH (x `div` 10)%N) as (k & Hk & E); [apply N.div_lt; lia|].
  exists (k * 10). split; [lia|]. intros acc s. rewrite pretty_N_go_step by lia. rewrite E.
  cbn [digits_value]. destruct (pretty_char_value (x `mod` 10)) as [-> ->]; [apply N.mod_lt; lia|].
  f_equal. pose proof (N.div_mod x 10 ltac:(lia)). lia.
Qed.

(** [int(str(z)) == z]. *)
Lemma digits_value_decimal z : 0 ≤ z → digits_value 0 (decimal_Z z) = Some z.
Proof.
  unfold decimal_Z. intros Hz. destruct z as [|p|p]; [done| |lia].
  change (pretty (Z.pos p)) with (pretty_N_go (N.pos p) "").
  destruct (digits_value_go (N.pos p)) as (k & _ & E). by rewrite E.
Qed.

Lemma decimal_Z_nonempty z : String.eqb (decimal_Z z) "" = false.
Proof.
  apply String.eqb_neq. intros H. destruct (decide (0 ≤ z)) as [Hz|Hz].
  - pose proof (digits_value_decimal z Hz) as E. rewrite H in E. injection E as <-. done.
  - destruct z; [lia|lia|]. done.
Qed.

Lemma pretty_go_length k x s :
  (x < 10 ^ N.of_nat k)%N → (String.length (pretty_N_go x s) ≤ k + String.length s)%nat.
Proof.
  revert x s. induction k as [|k IH]; intros x s Hx.
  { cbn in Hx. assert (x = 0%N) as -> by lia. by rewrite pretty_N_go_0. }
  destruct (decide (x = 0)%N) as [->|Hx0]; [rewrite pretty_N_go_0; lia|].
  rewrite pretty_N_go_step by lia. etrans; [apply IH|cbn; lia].
  apply N.Div0.div_lt_upper_bound. rewrite Nat2N.inj_succ, N.pow_succ_r' in Hx. lia.
Qed.

(** A 64-bit integer has at most twenty digits. *)
Lemma decimal_Z_length z : 0 ≤ z < 2 ^ 64 → (String.length (decimal_Z z) ≤ 20)%nat.
Proof.
  unfold decimal_Z. intros Hz. destruct z as [|p|p]; [cbn; lia| |lia].
  change (pretty (Z.pos p)) with (pretty_N_go (N.pos p) "").
  apply (pretty_go_length 20). change (10 ^ N.of_nat 20)%N with 100000000000000000000%N. lia.
Qed.

(** [str(token)]. *)
Definition token_str (t : token) : string :=
  match t with TKey s => s | TIdx n => decimal n end.

(** [text.replace(c, by)] of one character. *)
Fixpoint replace_char (c : ascii) (by_ s : string) : string :=
  match s with
  | EmptyString => ""
  | String a s => if Ascii.eqb a c then (by_ ++ replace_char c by_ s)%string
                  else String a (replace_char c by_ s)
  end.

Definition escape (s : string) : string :=
  replace_char "/" "~1" (replace_char "~" "~0" s).

(** [_pointer]. *)
Fixpoint pointer (tokens : list token) : string :=
  match tokens with
  | [] => ""
  | t :: tokens => (String "/" (escape (token_str t)) ++ pointer tokens)%string
  end.

(** RFC 6901: a pointer is a sequence of escaped reference tokens, each after
    a slash. *)
Fixpoint unescape (s : string) : string :=
  match s with
  | String "~" (String "0" s) => String "~" (unescape s)
  | String "~" (String "1" s) => String "/" (unescape s)
  | String a s => String a (unescape s)
  | EmptyString => ""
  end.

Fixpoint split_slash (s : string) : list string :=
  match s with
  | EmptyString => [""%string]
  | String a s =>
      if Ascii.eqb a "/" then ""%string :: split_slash s
      else match split_slash s with
           | [] => [String a ""]
           | x :: xs => String a x :: xs
           end
  end.

Definition parse_pointer (s : string) : option (list string) :=
  match s with
  | EmptyString => Some []
  | String "/" s => Some (unescape <$> split_slash s)
  | _ => None
  end.

Lemma append_cons a s t : (String a s ++ t)%string = String a (s ++ t).
Proof. done. Qed.
Lemma append_nil_l t : ("" ++ t)%string = t.
Proof. done. Qed.
Lemma append_nil_r s : (s ++ "")%string = s.
Proof. induction s as [|a s IH]; [done|]. by rewrite append_cons, IH. Qed.

(** [escape], character by character. *)
Lemma escape_cons a s :
  escape (String a s) =
  if Ascii.eqb a "~" then String "~" (String "0" (escape s))
  else if Ascii.eqb a "/" then String "~" (String "1" (escape s))
  else String a (escape s).
Proof.
  unfold escape. cbn [replace_char]. destruct (Ascii.eqb_spec a "~") as [->|Ht]; [done|].
  cbn [replace_char]. by destruct (Ascii.eqb a "/").
Qed.

Lemma unescape_escape s : unescape (escape s) = s.
Proof.
  induction s as [|a s IH]; [done|]. rewrite escape_cons.
  destruct (Ascii.eqb_spec a "~") as [->|Ht]; [cbn; by f_equal|].
  destruct (Ascii.eqb_spec a "/") as [->|Hs]; [cbn; by f_equal|].
  assert (∀ s, unescape (String a s) = String a (unescape s)) as ->; [|by f_equal].
  clear -Ht. intros s. destruct a as [[] [] [] [] [] [] [] []]; first [done | by destruct Ht].
Qed.

Lemma split_escape s :
  split_slash (escape s) = [escape s]
  ∧ ∀ t, split_slash (escape s ++ String "/" t) = escape s :: split_slash t.
Proof.
  induction s as [|a s [IH1 IH2]]; [done|]. rewrite escape_cons.
  destruct (Ascii.eqb_spec a "~") as [->|Ht]; [|destruct (Ascii.eqb_spec a "/") as [->|Hs]].
  1,2: split; [cbn; by rewrite IH1 | intros t; rewrite !append_cons; cbn; by rewrite IH2].
  split; [|intros t; rewrite append_cons]; cbn [split_slash];
    rewrite (proj2 (Ascii.eqb_neq _ _) Hs), ?IH1, ?IH2; done.
Qed.

Lemma split_pointer t ts :
  split_slash (escape (token_str t) ++ pointer ts) = escape ∘ token_str <$> t :: ts.
Proof.
  revert t. induction ts as [|t' ts IH]; intros t; cbn [pointer].
  - rewrite append_nil_r. apply split_escape.
  - rewrite append_cons, (proj2 (split_escape _)), IH. done.
Qed.

(** A problem's path is an RFC 6901 JSON Pointer of its tokens: unescaping
    the parts between the slashes gives them back, whatever characters a name
    has. *)
Theorem pointer_round_trip ts : parse_pointer (pointer ts) = Some (token_str <$> ts).
Proof.
  destruct ts as [|t ts]; [done|]. cbn [pointer]. rewrite append_cons. cbn [parse_pointer].
  rewrite split_pointer, <- list_fmap_compose. f_equal. apply list_fmap_ext.
  intros ? ? _. cbn. apply unescape_escape.
Qed.
