(* ===== verification/Base64.v ===== *)
(** * Base64 as Python's [base64] module does it

    The inline payload representation of the step protocol
    ([python/src/sil/participant.py], [_InlineAdapter]): [b64encode] with
    padding, and [b64decode] without validation, which skips characters
    outside the alphabet and stops at a complete padding. Decoding what
    [b64encode] wrote gives the bytes back ([b64decode_encode]). *)

From Stdlib Require Import ZArith Lia Ascii.
From S2P Require Import Prelude.

Definition ALPHABET : list ascii :=
  String.list_ascii_of_string
    "ABCDEFGHIJKLMNOPQRSTUVWXYZabcdefghijklmnopqrstuvwxyz0123456789+/".

Definition b64_char (n : Z) : ascii := default "A"%char (ALPHABET !! Z.to_nat n).

(** The place of a character in the alphabet. *)
Definition b64_index (c : ascii) : option Z :=
  (λ '(i, _), Z.of_nat i) <$> list_find (c =.) ALPHABET.

Fixpoint b64encode (bs : bytes) : string :=
  match bs with
  | [] => ""
  | [a] =>
      let a := Z_of_byte a in
      String (b64_char (Z.shiftr a 2))
        (String (b64_char (Z.shiftl (Z.land a 3) 4)) "==")
  | [a; b] =>
      let a := Z_of_byte a in let b := Z_of_byte b in
      String (b64_char (Z.shiftr a 2))
        (String (b64_char (Z.lor (Z.shiftl (Z.land a 3) 4) (Z.shiftr b 4)))
          (String (b64_char (Z.shiftl (Z.land b 15) 2)) "="))
  | a :: b :: c :: bs =>
      let a := Z_of_byte a in let b := Z_of_byte b in let c := Z_of_byte c in
      String (b64_char (Z.shiftr a 2))
        (String (b64_char (Z.lor (Z.shiftl (Z.land a 3) 4) (Z.shiftr b 4)))
          (String (b64_char (Z.lor (Z.shiftl (Z.land b 15) 2) (Z.shiftr c 6)))
            (String (b64_char (Z.land c 63)) (b64encode bs))))
  end.

(** The refusals, all of them ValueErrors. *)
Inductive b64_error := B64NonAscii | B64OneMore | B64Padding.

(** [binascii.a2b_base64(s)]: [quad] is the position in the group of four,
    [left] the bits not yet written, [pads] the padding seen in a row. *)
Fixpoint a2b (s : string) (quad : Z) (left_ : Z) (pads : Z) (out : bytes)
    : result b64_error bytes :=
  match s with
  | EmptyString =>
      if quad =? 0 then Ok out
      else if quad =? 1 then Err B64OneMore else Err B64Padding
  | String c s =>
      if Ascii.eqb c "=" then
        if (2 <=? quad) && (4 <=? quad + (pads + 1)) then Ok out
        else a2b s quad left_ (if 2 <=? quad then pads + 1 else pads) out
      else
        match b64_index c with
        | None => a2b s quad left_ pads out
        | Some n =>
            if quad =? 0 then a2b s 1 n 0 out
            else if quad =? 1 then
              a2b s 2 (Z.land n 15) 0
                (out ++ [byte_of_Z (Z.lor (Z.shiftl left_ 2) (Z.shiftr n 4))])
            else if quad =? 2 then
              a2b s 3 (Z.land n 3) 0
                (out ++ [byte_of_Z (Z.lor (Z.shiftl left_ 4) (Z.shiftr n 2))])
            else
              a2b s 0 0 0 (out ++ [byte_of_Z (Z.lor (Z.shiftl left_ 6) n)])
        end
  end.

Definition ascii_only (s : string) : bool :=
  forallb (λ c, nat_of_ascii c <? 128)%nat (String.list_ascii_of_string s).

Definition b64decode (s : string) : result b64_error bytes :=
  if ascii_only s then a2b s 0 0 0 [] else Err B64NonAscii.

(** ** Round trip *)

Definition sextets : list Z := Z.of_nat <$> seq 0 64.

Lemma sextet_elem n : 0 ≤ n < 64 → n ∈ sextets.
Proof.
  intros Hn. apply list_elem_of_fmap. exists (Z.to_nat n).
  split; [lia|]. apply elem_of_seq. lia.
Qed.

(** A predicate on a sextet that evaluation settles for all sixty-four. *)
Lemma sextet_all (P : Z → bool) : forallb P sextets = true → ∀ n, 0 ≤ n < 64 → P n = true.
Proof.
  rewrite forallb_forall. intros H n Hn. apply H, list_elem_of_In. by apply sextet_elem.
Qed.

Lemma b64_index_char n : 0 ≤ n < 64 → b64_index (b64_char n) = Some n.
Proof.
  intros Hn. apply (bool_decide_eq_true_1 _).
  revert n Hn. apply sextet_all. vm_compute. reflexivity.
Qed.

Lemma b64_char_data n :
  0 ≤ n < 64 →
  Ascii.eqb (b64_char n) "=" = false ∧ (nat_of_ascii (b64_char n) <? 128)%nat = true.
Proof.
  intros Hn. rewrite <- negb_true_iff. apply andb_true_iff.
  revert n Hn. apply (sextet_all (λ n, negb (Ascii.eqb (b64_char n) "=")
    && (nat_of_ascii (b64_char n) <? 128)%nat)). vm_compute. reflexivity.
Qed.

(** One alphabet character moves the group on by six bits. *)
Lemma a2b_char n s quad left_ pads out :
  0 ≤ n < 64 →
  a2b (String (b64_char n) s) quad left_ pads out
  = if quad =? 0 then a2b s 1 n 0 out
    else if quad =? 1 then
      a2b s 2 (Z.land n 15) 0
        (out ++ [byte_of_Z (Z.lor (Z.shiftl left_ 2) (Z.shiftr n 4))])
    else if quad =? 2 then
      a2b s 3 (Z.land n 3) 0
        (out ++ [byte_of_Z (Z.lor (Z.shiftl left_ 4) (Z.shiftr n 2))])
    else a2b s 0 0 0 (out ++ [byte_of_Z (Z.lor (Z.shiftl left_ 6) n)]).
Proof.
  intros Hn. cbn [a2b]. destruct (b64_char_data n Hn) as [-> _].
  by rewrite (b64_index_char n Hn).
Qed.

Definition octets : list Z := Z.of_nat <$> seq 0 256.

Lemma octets_all (P : Z → Z → bool) :
  forallb (λ a, forallb (P a) octets) octets = true →
  ∀ a b : byte, P (Z_of_byte a) (Z_of_byte b) = true.
Proof.
  assert (∀ a : byte, In (Z_of_byte a) octets) as Ho.
  { intros a. apply list_elem_of_In, list_elem_of_fmap.
    exists (Z.to_nat (Z_of_byte a)). pose proof (Z_of_byte_bound a).
    split; [lia|]. apply elem_of_seq. lia. }
  intros H a b. rewrite forallb_forall in H. specialize (H _ (Ho a)).
  rewrite forallb_forall in H. apply H, Ho.
Qed.

(** The two middle sextets of a group keep the bits of both neighbours, and
    a byte is its high and low bits joined. *)
Definition sextets_ok (a b : Z) : bool :=
  let n1 := Z.lor (Z.shiftl (Z.land a 3) 4) (Z.shiftr b 4) in
  let n2 := Z.lor (Z.shiftl (Z.land a 15) 2) (Z.shiftr b 6) in
  in_range 0 63 n1 && (Z.shiftr n1 4 =? Z.land a 3) && (Z.land n1 15 =? Z.shiftr b 4)
  && in_range 0 63 n2 && (Z.shiftr n2 2 =? Z.land a 15) && (Z.land n2 3 =? Z.shiftr b 6).

Definition halves_ok (a : Z) : bool :=
  in_range 0 63 (Z.shiftr a 2) && in_range 0 63 (Z.land a 63)
  && (Z.lor (Z.shiftl (Z.shiftr a 2) 2) (Z.land a 3) =? a)
  && (Z.lor (Z.shiftl (Z.shiftr a 4) 4) (Z.land a 15) =? a)
  && (Z.lor (Z.shiftl (Z.shiftr a 6) 6) (Z.land a 63) =? a).

Lemma sextets_ok_all (a b : byte) :
  let n1 := Z.lor (Z.shiftl (Z.land (Z_of_byte a) 3) 4) (Z.shiftr (Z_of_byte b) 4) in
  let n2 := Z.lor (Z.shiftl (Z.land (Z_of_byte a) 15) 2) (Z.shiftr (Z_of_byte b) 6) in
  (0 ≤ n1 < 64 ∧ Z.shiftr n1 4 = Z.land (Z_of_byte a) 3
   ∧ Z.land n1 15 = Z.shiftr (Z_of_byte b) 4)
  ∧ 0 ≤ n2 < 64 ∧ Z.shiftr n2 2 = Z.land (Z_of_byte a) 15
  ∧ Z.land n2 3 = Z.shiftr (Z_of_byte b) 6.
Proof.
  assert (sextets_ok (Z_of_byte a) (Z_of_byte b) = true) as H.
  { apply octets_all. vm_compute. reflexivity. }
  unfold sextets_ok in H. rewrite !andb_true_iff, !in_range_true, !Z.eqb_eq in H.
  intros n1 n2. fold n1 n2 in H. destruct_and? H. split_and!; (lia || done).
Qed.

Lemma halves_ok_all (a : byte) :
  let z := Z_of_byte a in
  (0 ≤ Z.shiftr z 2 < 64 ∧ 0 ≤ Z.land z 63 < 64)
  ∧ Z.lor (Z.shiftl (Z.shiftr z 2) 2) (Z.land z 3) = z
  ∧ Z.lor (Z.shiftl (Z.shiftr z 4) 4) (Z.land z 15) = z
  ∧ Z.lor (Z.shiftl (Z.shiftr z 6) 6) (Z.land z 63) = z.
Proof.
  assert (halves_ok (Z_of_byte a) = true) as H.
  { apply (octets_all (λ x _, halves_ok x)) with (b := a). vm_compute. reflexivity. }
  unfold halves_ok in H. rewrite !andb_true_iff, !in_range_true, !Z.eqb_eq in H.
  intros z. fold z in H. destruct_and? H. split_and!; (lia || done).
Qed.

(** The sextets at the end of the bytes, where the missing byte counts as 0. *)
Lemma last_sextets (a : byte) :
  Z.shiftl (Z.land (Z_of_byte a) 3) 4
  = Z.lor (Z.shiftl (Z.land (Z_of_byte a) 3) 4) (Z.shiftr (Z_of_byte x00) 4)
  ∧ Z.shiftl (Z.land (Z_of_byte a) 15) 2
    = Z.lor (Z.shiftl (Z.land (Z_of_byte a) 15) 2) (Z.shiftr (Z_of_byte x00) 6).
Proof. cbn [Z_of_byte Byte.to_N]. by rewrite !Z.lor_0_r. Qed.

Ltac b64_bytes :=
  repeat match goal with
  | a : byte |- _ =>
      lazymatch goal with
      | _ : 0 ≤ Z.shiftr (Z_of_byte a) 2 < 64 |- _ => fail
      | _ => destruct (halves_ok_all a) as ([? ?] & ? & ? & ?)
      end
  end.

Ltac b64_step := repeat (rewrite a2b_char by assumption; cbn [Z.eqb Pos.eqb]).

Lemma a2b_group (a b c : byte) bs pads out :
  a2b (b64encode (a :: b :: c :: bs)) 0 0 pads out
  = a2b (b64encode bs) 0 0 0 (out ++ [a; b; c]).
Proof.
  destruct (sextets_ok_all a b) as ((? & E1 & E2) & _).
  destruct (sextets_ok_all b c) as (_ & ? & E3 & E4). b64_bytes.
  cbn [b64encode]. b64_step.
  rewrite E1, E2, E3, E4, <- !app_assoc. cbn [app]. repeat f_equal;
    rewrite <- byte_of_Z_of_byte; by f_equal.
Qed.

Lemma bytes_ind3 (P : bytes → Prop) :
  P [] → (∀ a, P [a]) → (∀ a b, P [a; b]) →
  (∀ a b c bs, P bs → P (a :: b :: c :: bs)) → ∀ bs, P bs.
Proof.
  intros H0 H1 H2 H3. fix IH 1. intros [|a [|b [|c bs]]]; [exact H0 | apply H1 | apply H2 | apply H3, IH].
Qed.

Lemma a2b_encode bs pads out : a2b (b64encode bs) 0 0 pads out = Ok (out ++ bs).
Proof.
  revert pads out. induction bs as [|a|a b|a b c bs IH] using bytes_ind3; intros pads out.
  - cbn. by rewrite app_nil_r.
  - destruct (sextets_ok_all a x00) as ((? & E1 & E2) & _). b64_bytes.
    cbn [b64encode]. rewrite (proj1 (last_sextets a)). b64_step.
    rewrite E1. cbn. repeat f_equal. rewrite <- byte_of_Z_of_byte. by f_equal.
  - destruct (sextets_ok_all a b) as ((? & E1 & E2) & _).
    destruct (sextets_ok_all b x00) as (_ & ? & E3 & E4). b64_bytes.
    cbn [b64encode]. rewrite (proj2 (last_sextets b)). b64_step.
    rewrite E1, E2, E3. cbn. rewrite <- app_assoc. cbn. repeat f_equal;
      rewrite <- byte_of_Z_of_byte; by f_equal.
  - rewrite a2b_group, IH, <- app_assoc. done.
Qed.

Lemma ascii_only_cons n s :
  0 ≤ n < 64 → ascii_only (String (b64_char n) s) = ascii_only s.
Proof. intros Hn. unfold ascii_only. cbn [String.list_ascii_of_string forallb]. by destruct (b64_char_data n Hn) as [_ ->]. Qed.

Lemma ascii_only_encode bs : ascii_only (b64encode bs) = true.
Proof.
  induction bs as [|a|a b|a b c bs IH] using bytes_ind3.
  - done.
  - destruct (sextets_ok_all a x00) as ((? & _) & _). b64_bytes.
    cbn [b64encode]. rewrite (proj1 (last_sextets a)). by rewrite !ascii_only_cons.
  - destruct (sextets_ok_all a b) as ((? & _) & _).
    destruct (sextets_ok_all b x00) as (_ & ? & _). b64_bytes.
    cbn [b64encode]. rewrite (proj2 (last_sextets b)). by rewrite !ascii_only_cons.
  - destruct (sextets_ok_all a b) as ((? & _) & _).
    destruct (sextets_ok_all b c) as (_ & ? & _). b64_bytes.
    cbn [b64encode]. by rewrite !ascii_only_cons.
Qed.

(** Decoding an encoded payload gives it back. *)
Lemma b64decode_encode bs : b64decode (b64encode bs) = Ok bs.
Proof. unfold b64decode. by rewrite ascii_only_encode, a2b_encode. Qed.

Example b64decode_lenient : b64decode "aG k=ignored" = Ok [x68; x69].
Proof. vm_compute. reflexivity. Qed.

Example b64decode_short : b64decode "aGk" = Err B64Padding.
Proof. vm_compute. reflexivity. Qed.
