(* ===== verification/Recording.v ===== *)
(** * The Recording read seam

    Models [python/src/sil/recording.py]: the physical scan of an MCAP file
    ([scan], [locate_messages], [stored_messages]), random access by location
    ([read_chunk], [message_in_chunk], [read_message]), the record filter and
    the chunk-indexed reader ([indexed_records]). The [zstd] and [lz4]
    decompressors and the mcap package's summary and chunk iterator are
    third-party code: they are parameters. *)

From Stdlib Require Import ZArith Lia.
From S2P Require Import Prelude PyFloat Json.

(** ** Byte streams *)

(** [stream.read(n)] at position [pos], and the slice [l[pos:pos+n]]: what is
    there, at most [n] bytes. *)
Definition read_at {A} (l : list A) (pos n : Z) : list A :=
  if zlen l <=? pos then []
  else take (Z.to_nat (Z.min n (zlen l - pos))) (drop (Z.to_nat pos) l).

(** An unsigned little-endian field of [n] bytes at [off]. *)
Definition uint_at (bs : bytes) (off n : Z) : Z := le_value (read_at bs off n).

Inductive read_error :=
| UnknownRecordingFormat
| NotMcap
| EOFError
| OversizeMessage (at_offset size limit : Z)
| LongCompressionName (chunk_offset : Z)
| UnsupportedCompression (name : bytes)
| DecompressFailed
| WrongChunkSize (chunk_offset got declared : Z)
| EndsInsideRecord (chunk_offset : Z)
| ShortMessage (offset : Z)
| NoMessageRecord (offset : Z)
| NoChunkRecord (offset : Z)
| NoSummary
| IndexNotAChunk
| MissingChannel
| MissingSchema
| SchemaNotJson
| OutOfFuel.

(** A generator: what it yields before it ends or raises. *)
Abbreviation gen A := (list A * option read_error)%type.

Record location := mk_location {
  loc_record_index : Z;
  loc_channel_id : Z;
  loc_log_time : Z;
  loc_chunk_offset : Z;
  loc_offset : Z;
  loc_size : Z;
}.

#[export] Instance location_eq_dec : EqDecision location.
Proof. solve_decision. Defined.

Definition MCAP_MAGIC : bytes := [x89; x4d; x43; x41; x50; x30; x0d; x0a].
Definition OP_MESSAGE : Z := 5.
Definition OP_CHUNK : Z := 6.
Definition OP_DATA_END : Z := 15.
(** [_RECORD_HEAD.size], [_MESSAGE_HEAD.size] and [_CHUNK_HEAD.size]. *)
Definition RECORD_HEAD : Z := 9.
Definition MESSAGE_HEAD : Z := 22.
Definition CHUNK_HEAD : Z := 32.
Definition MAX_COMPRESSION_NAME : Z := 64.

Definition read_exact (f : bytes) (pos size : Z) : result read_error bytes :=
  let data := read_at f pos size in
  if zlen data =? size then Ok data else Err EOFError.

Definition read_head (f : bytes) (pos : Z) : result read_error (Z * Z) :=
  h ← read_exact f pos RECORD_HEAD; Ok (uint_at h 0 1, uint_at h 1 8).

(** Channel id and log time of a Message head ["<HIQQ"] at [off]. *)
Definition message_head (bs : bytes) (off : Z) : Z * Z :=
  (uint_at bs off 2, uint_at bs (off + 6) 8).

Section reader.
(** The decompressors: [size + 1] is the byte limit they are given. *)
Context (zstd lz4 : bytes → Z → option bytes).

Definition decompress (data compression : bytes) (size : Z)
    : result read_error bytes :=
  if decide (compression = []) then Ok data
  else if decide (compression = [x7a; x73; x74; x64]) then
    match zstd data (size + 1) with Some r => Ok r | None => Err DecompressFailed end
  else if decide (compression = [x6c; x7a; x34]) then
    match lz4 data (size + 1) with Some r => Ok r | None => Err DecompressFailed end
  else Err (UnsupportedCompression compression).

(** [_read_chunk_records]: [pos] is just after the Chunk record's head. *)
Definition read_chunk_records (f : bytes) (pos chunk_offset max_chunk_bytes : Z)
    : result read_error bytes :=
  h ← read_exact f pos CHUNK_HEAD;
  let size := uint_at h 16 8 in
  let name_length := uint_at h 28 4 in
  _ ← raise_if (max_chunk_bytes <? size)
        (OversizeMessage chunk_offset size max_chunk_bytes);
  _ ← raise_if (MAX_COMPRESSION_NAME <? name_length)
        (LongCompressionName chunk_offset);
  compression ← read_exact f (pos + CHUNK_HEAD) name_length;
  s ← read_exact f (pos + CHUNK_HEAD + name_length) 8;
  let stored := uint_at s 0 8 in
  _ ← raise_if (max_chunk_bytes <? stored)
        (OversizeMessage chunk_offset stored max_chunk_bytes);
  d ← read_exact f (pos + CHUNK_HEAD + name_length + 8) stored;
  records ← decompress d compression size;
  _ ← raise_if (negb (zlen records =? size))
        (WrongChunkSize chunk_offset (zlen records) size);
  Ok records.

(** [_messages_in_chunk]: one record of a chunk per unit of fuel. *)
Fixpoint messages_in_chunk (fuel : nat) (records : bytes)
    (chunk_offset record_index : Z) (payloads : bool) (position : Z)
    : gen (location * option bytes) :=
  match fuel with
  | O => ([], Some OutOfFuel)
  | S fuel =>
      let e := zlen records in
      if position <? e then
        if e <? position + RECORD_HEAD then ([], Some (EndsInsideRecord chunk_offset))
        else
          let opcode := uint_at records position 1 in
          let length := uint_at records (position + 1) 8 in
          let following := position + RECORD_HEAD + length in
          if opcode =? OP_MESSAGE then
            if (length <? MESSAGE_HEAD) || (e <? following) then
              ([], Some (ShortMessage chunk_offset))
            else
              let '(channel_id, log_time) :=
                message_head records (position + RECORD_HEAD) in
              let found :=
                (mk_location record_index channel_id log_time chunk_offset
                   position (length - MESSAGE_HEAD),
                 if payloads then
                   Some (read_at records (following - length + MESSAGE_HEAD)
                           (length - MESSAGE_HEAD))
                 else None) in
              let '(rest, err) :=
                messages_in_chunk fuel records chunk_offset (record_index + 1)
                  payloads following in
              (found :: rest, err)
          else messages_in_chunk fuel records chunk_offset record_index
                 payloads following
      else ([], if position =? e then None else Some (EndsInsideRecord chunk_offset))
  end.

(** [_top_level_message]: [start] is the record's offset. *)
Definition top_level_message (f : bytes) (start length record_index : Z)
    (payloads : bool) : result read_error (location * option bytes) :=
  _ ← raise_if (length <? MESSAGE_HEAD) (ShortMessage start);
  h ← read_exact f (start + RECORD_HEAD) MESSAGE_HEAD;
  let '(channel_id, log_time) := message_head h 0 in
  let size := length - MESSAGE_HEAD in
  payload ← (if payloads then
               d ← read_exact f (start + RECORD_HEAD + MESSAGE_HEAD) size;
               Ok (Some d)
             else Ok None);
  Ok (mk_location record_index channel_id log_time (-1) start size, payload).

Definition gen_of_result {A} (r : result read_error A) : gen A :=
  match r with Ok a => ([a], None) | Err e => ([], Some e) end.

(** [_scan] from [start]: one record of the file per unit of fuel. *)
Fixpoint scan_from (fuel : nat) (f : bytes) (max_chunk_bytes : Z)
    (payloads : bool) (start record_index : Z)
    : gen (Z * location * option bytes) :=
  match fuel with
  | O => ([], Some OutOfFuel)
  | S fuel =>
      match read_head f start with
      | Err e => ([], Some e)
      | Ok (opcode, length) =>
          let e := start + RECORD_HEAD + length in
          if opcode =? OP_DATA_END then ([], None)
          else if negb ((opcode =? OP_CHUNK) || (opcode =? OP_MESSAGE)) then
            scan_from fuel f max_chunk_bytes payloads e record_index
          else
            let '(found, err) :=
              if opcode =? OP_CHUNK then
                match read_chunk_records f (start + RECORD_HEAD) start
                        max_chunk_bytes with
                | Err e => ([], Some e)
                | Ok records =>
                    messages_in_chunk (S (List.length records)) records start
                      record_index payloads 0
                end
              else gen_of_result
                     (top_level_message f start length record_index payloads) in
            let out := (λ '(l, p), (e, l, p)) <$> found in
            match err with
            | Some _ => (out, err)
            | None =>
                let '(rest, err') :=
                  scan_from fuel f max_chunk_bytes payloads e
                    (record_index + zlen found) in
                (out ++ rest, err')
            end
      end
  end.

(** [_scan] of a whole file. Every record takes at least nine bytes, so
    the file length is fuel enough (the theorem below). *)
Definition scan (f : bytes) (max_chunk_bytes : Z) (payloads : bool)
    : gen (Z * location * option bytes) :=
  if decide (read_at f 0 8 = MCAP_MAGIC) then
    scan_from (S (length f)) f max_chunk_bytes payloads 8 0
  else ([], Some NotMcap).

(** [stored_messages]. *)
Definition stored_messages (f : bytes) (max_chunk_bytes : Z)
    : gen (location * option bytes) :=
  let '(out, err) := scan f max_chunk_bytes true in
  ((λ '(_, l, p), (l, p)) <$> out, err).

(** [read_chunk]: the decompressed records of the Chunk at [chunk_offset]. *)
Definition read_chunk (f : bytes) (chunk_offset max_chunk_bytes : Z)
    : result read_error bytes :=
  '(opcode, _) ← read_head f chunk_offset;
  _ ← raise_if (negb (opcode =? OP_CHUNK)) (NoChunkRecord chunk_offset);
  read_chunk_records f (chunk_offset + RECORD_HEAD) chunk_offset max_chunk_bytes.

(** [message_in_chunk]. *)
Definition message_in_chunk (records : bytes) (offset : Z)
    : result read_error (Z * Z * bytes) :=
  _ ← raise_if ((offset <? 0) || (zlen records <? offset + RECORD_HEAD))
        (NoMessageRecord offset);
  let opcode := uint_at records offset 1 in
  let length := uint_at records (offset + 1) 8 in
  let e := offset + RECORD_HEAD + length in
  _ ← raise_if (negb (opcode =? OP_MESSAGE) || (length <? MESSAGE_HEAD)
                || (zlen records <? e)) (NoMessageRecord offset);
  let '(channel_id, log_time) := message_head records (offset + RECORD_HEAD) in
  Ok (channel_id, log_time,
      read_at records (e - length + MESSAGE_HEAD) (length - MESSAGE_HEAD)).

(** [read_message]. *)
Definition read_message (f : bytes) (offset max_message_bytes : Z)
    : result read_error (Z * Z * bytes) :=
  '(opcode, length) ← read_head f offset;
  _ ← raise_if (negb (opcode =? OP_MESSAGE) || (length <? MESSAGE_HEAD))
        (NoMessageRecord offset);
  let size := length - MESSAGE_HEAD in
  _ ← raise_if (max_message_bytes <? size)
        (OversizeMessage offset size max_message_bytes);
  h ← read_exact f (offset + RECORD_HEAD) MESSAGE_HEAD;
  let '(channel_id, log_time) := message_head h 0 in
  d ← read_exact f (offset + RECORD_HEAD + MESSAGE_HEAD) size;
  Ok (channel_id, log_time, d).
End reader.

(** [itertools.groupby] on consecutive equal keys. *)
Fixpoint groupby {A} (key : A → Z) (l : list A) : list (Z * list A) :=
  match l with
  | [] => []
  | x :: l =>
      match groupby key l with
      | (k, g) :: gs => if key x =? k then (k, x :: g) :: gs
                        else (key x, [x]) :: (k, g) :: gs
      | [] => [(key x, [x])]
      end
  end.

(** [while batch := list(islice(it, n)): yield batch]. *)
Fixpoint batched {A} (fuel n : nat) (l : list A) : list (list A) :=
  match fuel, l with
  | S fuel, _ :: _ => take n l :: batched fuel n (drop n l)
  | _, _ => []
  end.

(** [locate_messages], the batches of a completed scan. *)
Definition locate_batches (batch_size : nat) (found : list (Z * location * option bytes))
    : list (Z * list location) :=
  concat ((λ '(scanned, group),
             (λ b, (scanned, b)) <$>
               batched (length group) batch_size ((λ x, x.1.2) <$> group))
          <$> groupby (λ x, x.1.1) found).

(** ** Lemmas on reads *)

Lemma zlen_le_bytes n z : zlen (le_bytes n z) = Z.of_nat n.
Proof. unfold zlen. by rewrite length_le_bytes. Qed.
#[export] Hint Rewrite @zlen_app @zlen_cons zlen_le_bytes : sil.

Lemma zlen_read_at {A} (l : list A) pos n :
  0 ≤ pos → 0 ≤ n → pos + n ≤ zlen l → zlen (read_at l pos n) = n.
Proof.
  intros. unfold read_at. pose proof (zlen_nonneg l). unfold zlen in *.
  destruct (Z.leb_spec (Z.of_nat (length l)) pos).
  - cbn. lia.
  - rewrite length_take, length_drop. lia.
Qed.

Lemma zlen_read_at_inv {A} (l : list A) pos n :
  0 ≤ pos → 0 < n → zlen (read_at l pos n) = n → pos + n ≤ zlen l.
Proof.
  intros Hp Hn. unfold read_at, zlen.
  destruct (Z.leb_spec (Z.of_nat (length l)) pos).
  - cbn. lia.
  - rewrite length_take, length_drop. lia.
Qed.

Lemma read_at_app {A} (p d s : list A) : read_at (p ++ d ++ s) (zlen p) (zlen d) = d.
Proof.
  unfold read_at, zlen. rewrite !length_app.
  destruct (Z.leb_spec (Z.of_nat (length p + (length d + length s)))
                       (Z.of_nat (length p))).
  - destruct d; [done|]. cbn in *. lia.
  - rewrite Nat2Z.id, drop_app_length.
    replace (Z.to_nat _) with (length d) by lia. apply take_app_length.
Qed.

Lemma read_at_read_at {A} (l : list A) p m o n :
  0 ≤ p → 0 ≤ o → 0 ≤ n → o + n ≤ m → p + m ≤ zlen l →
  read_at (read_at l p m) o n = read_at l (p + o) n.
Proof.
  intros Hp Ho Hn Hm Hl.
  pose proof (zlen_read_at l p m Hp ltac:(lia) Hl) as Hz.
  unfold read_at at 1 3. rewrite Hz.
  destruct (Z.leb_spec m o), (Z.leb_spec (zlen l) (p + o)).
  - done.
  - replace n with 0 by lia. rewrite Z.min_l by lia. done.
  - lia.
  - unfold read_at. destruct (Z.leb_spec (zlen l) p); [lia|].
    rewrite skipn_firstn_comm, take_take, drop_drop. f_equal; [lia|f_equal; lia].
Qed.

Lemma uint_at_nonneg bs o n : 0 ≤ uint_at bs o n.
Proof. apply le_value_bound. Qed.

Lemma uint_at_read_at bs p m o n :
  0 ≤ p → 0 ≤ o → 0 ≤ n → o + n ≤ m → p + m ≤ zlen bs →
  uint_at (read_at bs p m) o n = uint_at bs (p + o) n.
Proof. intros. unfold uint_at. by rewrite read_at_read_at. Qed.

Lemma read_exact_Ok f pos n d :
  read_exact f pos n = Ok d ↔ d = read_at f pos n ∧ zlen d = n.
Proof.
  unfold read_exact. destruct (Z.eqb_spec (zlen (read_at f pos n)) n); naive_solver.
Qed.

Lemma read_exact_in f pos n :
  0 ≤ pos → 0 ≤ n → pos + n ≤ zlen f → read_exact f pos n = Ok (read_at f pos n).
Proof. intros. apply read_exact_Ok. split; [done|]. by apply zlen_read_at. Qed.

Lemma read_head_Ok f pos op len :
  0 ≤ pos → read_head f pos = Ok (op, len) →
  pos + RECORD_HEAD ≤ zlen f ∧ op = uint_at f pos 1 ∧ len = uint_at f (pos + 1) 8.
Proof.
  intros Hp (h & [-> Hh]%read_exact_Ok & [= <- <-])%bind_Ok.
  assert (pos + RECORD_HEAD ≤ zlen f)
    by (apply zlen_read_at_inv; unfold RECORD_HEAD in *; lia).
  unfold RECORD_HEAD in *.
  rewrite !uint_at_read_at by lia. rewrite Z.add_0_r. done.
Qed.

Lemma read_head_in f pos :
  0 ≤ pos → pos + RECORD_HEAD ≤ zlen f →
  read_head f pos = Ok (uint_at f pos 1, uint_at f (pos + 1) 8).
Proof.
  intros. unfold read_head, RECORD_HEAD in *. rewrite read_exact_in by lia. cbn.
  rewrite !uint_at_read_at by lia. by rewrite Z.add_0_r.
Qed.

(** A message head read as 22 bytes and read in place agree. *)
Lemma message_head_read f pos :
  0 ≤ pos → pos + MESSAGE_HEAD ≤ zlen f →
  message_head (read_at f pos MESSAGE_HEAD) 0 = message_head f pos.
Proof.
  intros. unfold message_head, MESSAGE_HEAD in *.
  rewrite !uint_at_read_at by lia. by rewrite Z.add_0_r.
Qed.

(** ** Termination: the fuel is enough *)

Lemma messages_in_chunk_fuel fuel records co ri pl pos :
  0 ≤ pos → zlen records - pos < Z.of_nat fuel → (1 ≤ fuel)%nat →
  (messages_in_chunk fuel records co ri pl pos).2 ≠ Some OutOfFuel.
Proof.
  revert ri pos. induction fuel as [|fuel IH]; intros ri pos Hp Hf H1; [lia|].
  cbn [messages_in_chunk]. unfold RECORD_HEAD.
  destruct (Z.ltb_spec pos (zlen records)); [|by destruct (_ =? _)].
  destruct (Z.ltb_spec (zlen records) (pos + 9)); [done|].
  pose proof (uint_at_nonneg records (pos + 1) 8) as Hu.
  assert (∀ ri', (messages_in_chunk fuel records co ri' pl
    (pos + 9 + uint_at records (pos + 1) 8)).2 ≠ Some OutOfFuel) as Hrec
    by (intros ri'; apply IH; lia).
  destruct (_ =? OP_MESSAGE); [|apply Hrec].
  destruct (_ || _); [done|]. specialize (Hrec (ri + 1)).
  by destruct (messages_in_chunk _ _ _ (ri + 1) _ _).
Qed.

Section scans.
Context (zstd lz4 : bytes → Z → option bytes).

Lemma read_chunk_records_no_fuel f pos co mx :
  read_chunk_records zstd lz4 f pos co mx ≠ Err OutOfFuel.
Proof.
  unfold read_chunk_records, read_exact, raise_if, decompress.
  repeat (case_match; cbn; try done).
Qed.

Lemma read_head_no_fuel f pos : read_head f pos ≠ Err OutOfFuel.
Proof. unfold read_head, read_exact. by destruct (_ =? _). Qed.

Lemma top_level_no_fuel f st len ri pl :
  top_level_message f st len ri pl ≠ Err OutOfFuel.
Proof.
  unfold top_level_message, read_exact, raise_if.
  repeat (case_match; cbn; try done).
Qed.

Lemma scan_from_fuel fuel f mx pl st ri :
  0 ≤ st → zlen f - st < Z.of_nat fuel → (1 ≤ fuel)%nat →
  (scan_from zstd lz4 fuel f mx pl st ri).2 ≠ Some OutOfFuel.
Proof.
  revert st ri. induction fuel as [|fuel IH]; intros st ri Hs Hf H1; [lia|].
  cbn [scan_from]. destruct (read_head f st) as [[op len]|e] eqn:Hh.
  2:{ intros [= ->]. by apply read_head_no_fuel in Hh. }
  apply read_head_Ok in Hh as (Hin & _ & ->); [|done]. unfold RECORD_HEAD in *.
  pose proof (uint_at_nonneg f (st + 1) 8) as Hu.
  assert (∀ ri', (scan_from zstd lz4 fuel f mx pl
    (st + 9 + uint_at f (st + 1) 8) ri').2 ≠ Some OutOfFuel) as Hrec
    by (intros ri'; apply IH; lia).
  destruct (op =? OP_DATA_END); [done|].
  destruct (negb _); [apply Hrec|].
  match goal with |- context [let '(_, _) := ?m in _] =>
    assert (m.2 ≠ Some OutOfFuel) as Hm end.
  { destruct (op =? OP_CHUNK).
    - destruct (read_chunk_records _ _ _ _ _ _) as [recs|e] eqn:Hc.
      + apply messages_in_chunk_fuel; unfold zlen; lia.
      + intros [= ->]. by apply read_chunk_records_no_fuel in Hc.
    - destruct (top_level_message _ _ _ _ _) as [?|e] eqn:Hc; [done|].
      cbn. intros [= ->]. by apply top_level_no_fuel in Hc. }
  match goal with |- context [let '(_, _) := ?m in _] =>
    destruct m as [found [e|]] end; [done|].
  specialize (Hrec (ri + zlen found)). by destruct (scan_from _ _ _ _ _ _ _ _).
Qed.

(** C40. The scan of any byte string ends, with or without payloads and
    whatever the decompressors return: one step per byte of the file is
    enough, so the loop of [_scan] (which has no bound of its own) always
    reaches the Data End record or raises. *)
Theorem scan_terminates f mx pl : (scan zstd lz4 f mx pl).2 ≠ Some OutOfFuel.
Proof.
  unfold scan. case_decide; [|done].
  apply scan_from_fuel; unfold zlen; lia.
Qed.
End scans.

(** ** What a yielded location says *)

Lemma messages_in_chunk_index fuel records co ri pl pos i l p :
  (messages_in_chunk fuel records co ri pl pos).1 !! i = Some (l, p) →
  loc_record_index l = ri + Z.of_nat i.
Proof.
  revert ri pos i. induction fuel as [|fuel IH]; intros ri pos i; [done|].
  cbn [messages_in_chunk]. case_match; [|done]. case_match; [done|].
  case_match; [|apply IH]. case_match; [done|].
  destruct (message_head _ _) as [ch lt].
  match goal with |- context [messages_in_chunk fuel ?a ?b ?c ?d ?e] =>
    specialize (IH c e); destruct (messages_in_chunk fuel a b c d e) as [rest err] end.
  destruct i as [|i]; cbn.
  - intros [= <- <-]. cbn. lia.
  - intros Hx%IH. lia.
Qed.

(** A Message found in a chunk can be read again at its offset. *)
Definition in_chunk (records : bytes) (co : Z) (lp : location * option bytes) : Prop :=
  loc_chunk_offset lp.1 = co ∧ 0 ≤ loc_offset lp.1
  ∧ ∃ d, lp.2 = Some d ∧ zlen d = loc_size lp.1
    ∧ message_in_chunk records (loc_offset lp.1)
      = Ok (loc_channel_id lp.1, loc_log_time lp.1, d).

Lemma messages_in_chunk_good fuel records co ri pos :
  0 ≤ pos →
  Forall (in_chunk records co) (messages_in_chunk fuel records co ri true pos).1.
Proof.
  revert ri pos. induction fuel as [|fuel IH]; intros ri pos Hp; [constructor|].
  cbn [messages_in_chunk]. destruct (Z.ltb_spec pos (zlen records)) as [H1|]; [|constructor].
  destruct (Z.ltb_spec (zlen records) (pos + RECORD_HEAD)) as [|H2]; [constructor|].
  pose proof (uint_at_nonneg records (pos + 1) 8) as Hu.
  destruct (Z.eqb_spec (uint_at records pos 1) OP_MESSAGE) as [Hop|];
    [|apply IH; unfold RECORD_HEAD; lia].
  destruct (_ || _) eqn:Hb; [constructor|].
  apply orb_false_iff in Hb as [Hb1%Z.ltb_ge Hb2%Z.ltb_ge].
  destruct (message_head records (pos + RECORD_HEAD)) as [ch lt] eqn:Hm.
  specialize (IH (ri + 1) (pos + RECORD_HEAD + uint_at records (pos + 1) 8)
    ltac:(unfold RECORD_HEAD; lia)).
  destruct (messages_in_chunk _ _ _ (ri + 1) _ _) as [rest err].
  constructor; [|done]. split_and!; [done|done|]. cbn. eexists; split_and!; [done| |].
  - unfold RECORD_HEAD, MESSAGE_HEAD in *. apply zlen_read_at; lia.
  - unfold message_in_chunk. rewrite (proj2 (Z.ltb_ge _ _) Hp), (proj2 (Z.ltb_ge _ _) H2).
    cbn [orb raise_if mbind result_bind]. rewrite Hop. unfold OP_MESSAGE at 1.
    rewrite Z.eqb_refl, (proj2 (Z.ltb_ge _ _) Hb1), (proj2 (Z.ltb_ge _ _) Hb2).
    cbn [orb negb raise_if mbind result_bind]. by rewrite Hm.
Qed.

Section located.
Context (zstd lz4 : bytes → Z → option bytes).

(** A yielded location can be read again: through its chunk, or at its
    file offset under any limit that admits its size. *)
Definition readable (f : bytes) (mx : Z) (x : Z * location * option bytes) : Prop :=
  let '(_, l, p) := x in
  if decide (loc_chunk_offset l = -1) then
    ∃ d, p = Some d ∧ zlen d = loc_size l
      ∧ ∀ limit, loc_size l ≤ limit →
        read_message f (loc_offset l) limit = Ok (loc_channel_id l, loc_log_time l, d)
  else
    0 ≤ loc_chunk_offset l ∧ ∃ records d, p = Some d ∧ zlen d = loc_size l
      ∧ read_chunk zstd lz4 f (loc_chunk_offset l) mx = Ok records
      ∧ message_in_chunk records (loc_offset l)
        = Ok (loc_channel_id l, loc_log_time l, d).

Lemma top_level_readable f mx st ri lp e :
  0 ≤ st → read_head f st = Ok (OP_MESSAGE, uint_at f (st + 1) 8) →
  top_level_message f st (uint_at f (st + 1) 8) ri true = Ok lp →
  readable f mx (e, lp.1, lp.2).
Proof.
  intros Hs Hh Ht. unfold top_level_message in Ht.
  destruct (Z.ltb_spec (uint_at f (st + 1) 8) MESSAGE_HEAD) as [|Hlen]; [done|].
  cbn [raise_if mbind result_bind] in Ht.
  apply bind_Ok in Ht as (h & Hr & Ht).
  destruct (message_head h 0) as [ch lt] eqn:Hm. cbn in Ht.
  apply bind_Ok in Ht as (p & Hp & [= <-]).
  apply bind_Ok in Hp as (d & Hd & [= <-]). cbn.
  exists d. split_and!; [done | by apply read_exact_Ok in Hd as [_ Hd] |].
  intros limit Hlim. unfold read_message. rewrite Hh. mcbn.
  rewrite Z.eqb_refl, (proj2 (Z.ltb_ge _ _) Hlen). mcbn.
  rewrite (proj2 (Z.ltb_ge _ _) Hlim). mcbn. rewrite Hr. mcbn. rewrite Hm, Hd.
  done.
Qed.

Lemma top_level_index f st len ri pl lp :
  top_level_message f st len ri pl = Ok lp → loc_record_index lp.1 = ri.
Proof.
  unfold top_level_message. intros (? & _ & (h & _ & H)%bind_Ok)%bind_Ok.
  destruct (message_head h 0). by apply bind_Ok in H as (? & _ & [= <-]).
Qed.

Lemma scan_from_readable fuel f mx st ri :
  0 ≤ st → Forall (readable f mx) (scan_from zstd lz4 fuel f mx true st ri).1.
Proof.
  revert st ri. induction fuel as [|fuel IH]; intros st ri Hs; [constructor|].
  cbn [scan_from]. destruct (read_head f st) as [[op len]|e] eqn:Hh; [|constructor].
  pose proof Hh as (Hin & Hop & Hlen)%read_head_Ok; [|done].
  pose proof (uint_at_nonneg f (st + 1) 8) as Hu.
  assert (0 ≤ st + RECORD_HEAD + len) as Hnext by (unfold RECORD_HEAD; lia).
  destruct (op =? OP_DATA_END); [constructor|].
  destruct (negb _) eqn:Hk; [by apply IH|].
  apply negb_false_iff, orb_true_iff in Hk.
  match goal with |- context [let '(_, _) := ?m in _] =>
    assert (Forall (λ lp, ∀ e, readable f mx (e, lp.1, lp.2)) m.1) as Hm end.
  { destruct (Z.eqb_spec op OP_CHUNK) as [->|Hne].
    - destruct (read_chunk_records _ _ _ _ _ _) as [recs|e'] eqn:Hc; [|constructor].
      eapply Forall_impl; [apply messages_in_chunk_good; lia|].
      intros [l p] (Hco & Ho & d & Hd & Hz & Hmsg) e'. cbn in *. subst p.
      rewrite decide_False by lia. split; [lia|]. exists recs, d. split_and!; [done|done| |done].
      unfold read_chunk. rewrite Hco, Hh. cbn. done.
    - destruct Hk as [Hk|Hk%Z.eqb_eq]; [done|]. subst op len.
      rewrite Hk in Hh.
      destruct (top_level_message _ _ _ _ _) as [lp|e'] eqn:Ht; [|constructor].
      apply Forall_singleton. intros e'.
      exact (top_level_readable f mx st ri lp e' Hs Hh Ht). }
  match goal with |- context [let '(_, _) := ?m in _] =>
    destruct m as [found [e|]] end; cbn [fst snd] in Hm |- *.
  - apply Forall_fmap. eapply Forall_impl; [exact Hm|]. intros [l p] Hx. exact (Hx _).
  - specialize (IH (st + RECORD_HEAD + len) (ri + zlen found) Hnext).
    destruct (scan_from _ _ _ _ _ _ _ _) as [rest err']. apply Forall_app. split; [|done].
    apply Forall_fmap. eapply Forall_impl; [exact Hm|]. intros [l p] Hx. exact (Hx _).
Qed.

Lemma scan_from_index fuel f mx pl st ri i e l p :
  (scan_from zstd lz4 fuel f mx pl st ri).1 !! i = Some (e, l, p) →
  loc_record_index l = ri + Z.of_nat i.
Proof.
  revert st ri i. induction fuel as [|fuel IH]; intros st ri i; [done|].
  cbn [scan_from]. destruct (read_head f st) as [[op len]|]; [|done].
  case_match; [done|]. case_match; [apply IH|].
  match goal with |- context [let '(_, _) := ?m in _] =>
    assert (∀ i l p, m.1 !! i = Some (l, p) → loc_record_index l = ri + Z.of_nat i)
      as Hm end.
  { destruct (op =? OP_CHUNK).
    - destruct (read_chunk_records _ _ _ _ _ _); [|done].
      intros. by eapply messages_in_chunk_index.
    - destruct (top_level_message _ _ _ _ _) as [lp|] eqn:Ht; [|done].
      intros [|j] l' p'; [|done]. intros [= ->].
      apply top_level_index in Ht. cbn in Ht. lia. }
  match goal with |- context [let '(_, _) := ?m in _] =>
    destruct m as [found [e'|]] end; cbn in Hm |- *.
  - rewrite list_lookup_fmap. destruct (found !! i) as [[l' p']|] eqn:Hi; [|done].
    intros [= <- <- <-]. by eapply Hm.
  - specialize (IH (st + RECORD_HEAD + len) (ri + zlen found)).
    destruct (scan_from _ _ _ _ _ _ _ _) as [rest err']. cbn in *.
    destruct (decide (i < length found)%nat) as [Hlt|Hge].
    + rewrite lookup_app_l by (by rewrite length_fmap).
      rewrite list_lookup_fmap. destruct (found !! i) as [[l' p']|] eqn:Hi; [|done].
      intros [= <- <- <-]. by eapply Hm.
    + rewrite lookup_app_r by (rewrite length_fmap; lia). rewrite length_fmap.
      intros Hx%IH. unfold zlen in Hx. lia.
Qed.
(** The Messages of a scan are numbered, and their locations lead back to them. *)
Lemma scan_located f mx :
  let out := (scan zstd lz4 f mx true).1 in
  (λ x, loc_record_index x.1.2) <$> out = seqZ 0 (zlen out)
  ∧ Forall (readable f mx) out.
Proof.
  cbn zeta. unfold scan. case_decide; [|split; [done|constructor]].
  split; [|by apply scan_from_readable].
  set (out := (scan_from _ _ _ _ _ _ _ _).1). apply list_eq. intros i.
  rewrite list_lookup_fmap. destruct (out !! i) as [[[e l] p]|] eqn:Hi; cbn.
  - pose proof (scan_from_index _ _ _ _ _ _ _ _ _ _ Hi) as ->.
    symmetry. apply lookup_seqZ. apply lookup_lt_Some in Hi. unfold zlen. lia.
  - symmetry. apply lookup_seqZ_ge. apply lookup_ge_None in Hi. unfold zlen. lia.
Qed.
End located.

(** ** The container format: what a file of given records is

    The MCAP records a Run's writer produces: a head of opcode and length,
    Message and other records, and uncompressed Chunks of them. The scan is
    proved against these bytes. *)
Module Mcap.
Inductive mrec :=
| MsgRec (channel sequence log_time publish_time : Z) (data : bytes)
| OtherRec (opcode : Z) (body : bytes).

Inductive frec :=
| Plain (r : mrec)
| Chunk (start_time end_time crc : Z) (rs : list mrec).

Definition record_bytes (opcode : Z) (body : bytes) : bytes :=
  le_bytes 1 opcode ++ le_bytes 8 (zlen body) ++ body.

Definition message_body (ch sq lt pt : Z) (data : bytes) : bytes :=
  le_bytes 2 ch ++ le_bytes 4 sq ++ le_bytes 8 lt ++ le_bytes 8 pt ++ data.

Definition mrec_bytes (r : mrec) : bytes :=
  match r with
  | MsgRec ch sq lt pt data => record_bytes OP_MESSAGE (message_body ch sq lt pt data)
  | OtherRec op body => record_bytes op body
  end.

Definition chunk_body (st en crc : Z) (records : bytes) : bytes :=
  le_bytes 8 st ++ le_bytes 8 en ++ le_bytes 8 (zlen records) ++ le_bytes 4 crc
  ++ le_bytes 4 0 ++ le_bytes 8 (zlen records) ++ records.

Definition chunk_records (rs : list mrec) : bytes := concat (mrec_bytes <$> rs).

Definition frec_bytes (r : frec) : bytes :=
  match r with
  | Plain r => mrec_bytes r
  | Chunk st en crc rs => record_bytes OP_CHUNK (chunk_body st en crc (chunk_records rs))
  end.

(** The file: magic, data section, Data End record, and whatever follows. *)
Definition file_bytes (rs : list frec) (data_end rest : bytes) : bytes :=
  MCAP_MAGIC ++ concat (frec_bytes <$> rs) ++ record_bytes OP_DATA_END data_end ++ rest.

Definition mrec_msgs (r : mrec) : list (Z * Z * bytes) :=
  match r with MsgRec ch _ lt _ data => [(ch, lt, data)] | OtherRec _ _ => [] end.

Definition frec_msgs (r : frec) : list (Z * Z * bytes) :=
  match r with Plain r => mrec_msgs r | Chunk _ _ _ rs => concat (mrec_msgs <$> rs) end.

(** Fields that fit their widths; a record that is not a Message has none
    of the opcodes the scan treats specially. *)
Definition mrec_ok (r : mrec) : bool :=
  match r with
  | MsgRec ch _ lt _ data =>
      in_range 0 (2 ^ 16 - 1) ch && in_range 0 u64_max lt
      && (zlen data + MESSAGE_HEAD <=? u64_max)
  | OtherRec op body =>
      in_range 0 255 op && negb (op =? OP_MESSAGE) && negb (op =? OP_CHUNK)
      && negb (op =? OP_DATA_END) && (zlen body <=? u64_max)
  end.

Definition frec_ok (max_chunk_bytes : Z) (r : frec) : bool :=
  match r with
  | Plain r => mrec_ok r
  | Chunk _ _ _ rs =>
      forallb mrec_ok rs && (zlen (chunk_records rs) <=? max_chunk_bytes)
      && (zlen (chunk_records rs) + CHUNK_HEAD + 8 <=? u64_max)
  end.

(** Channel, time and payload of what the scan yields. *)
Definition seen (lp : location * option bytes) : Z * Z * option bytes :=
  (loc_channel_id lp.1, loc_log_time lp.1, lp.2).
Definition with_payload (m : Z * Z * bytes) : Z * Z * option bytes :=
  (m.1.1, m.1.2, Some m.2).

(** *** Reading the encoded fields *)

Lemma uint_at_field l p n z s off w :
  l = p ++ le_bytes n z ++ s → off = zlen p → w = Z.of_nat n →
  0 ≤ z < 256 ^ w → uint_at l off w = z.
Proof.
  intros -> -> -> Hz. unfold uint_at.
  rewrite <- (zlen_le_bytes n z) at 1. rewrite read_at_app.
  by apply le_value_le_bytes_small.
Qed.

Lemma read_at_field {A} (l p d s : list A) off w :
  l = p ++ d ++ s → off = zlen p → w = zlen d → read_at l off w = d.
Proof. intros -> -> ->. apply read_at_app. Qed.

Lemma record_length op body : zlen (record_bytes op body) = RECORD_HEAD + zlen body.
Proof. unfold record_bytes. autorewrite with sil. unfold RECORD_HEAD. lia. Qed.

Lemma record_head_at l p op body s pos :
  l = p ++ record_bytes op body ++ s → pos = zlen p →
  0 ≤ op < 256 → zlen body ≤ u64_max →
  uint_at l pos 1 = op ∧ uint_at l (pos + 1) 8 = zlen body.
Proof.
  intros -> -> Ho Hb. unfold record_bytes, u64_max in *.
  pose proof (zlen_nonneg body). split.
  - by eapply (uint_at_field _ p 1 op (le_bytes 8 (zlen body) ++ body ++ s)).
  - eapply (uint_at_field _ (p ++ le_bytes 1 op) 8 (zlen body) (body ++ s));
      [by rewrite <- !app_assoc | by autorewrite with sil | done | lia].
Qed.

Lemma message_head_at l p ch sq lt pt data s off :
  l = p ++ message_body ch sq lt pt data ++ s → off = zlen p →
  0 ≤ ch ≤ 2 ^ 16 - 1 → 0 ≤ lt ≤ u64_max → message_head l off = (ch, lt).
Proof.
  intros -> -> Hc Ht. unfold message_head, message_body, u64_max in *. f_equal.
  - eapply (uint_at_field _ p 2 ch); [by rewrite <- !app_assoc | done | done | lia].
  - eapply (uint_at_field _ (p ++ le_bytes 2 ch ++ le_bytes 4 sq) 8 lt);
      [by rewrite <- !app_assoc | autorewrite with sil; lia | done | lia].
Qed.

Lemma message_payload_at {A} (l p b data s : list A) off w :
  l = p ++ b ++ data ++ s → off = zlen p + zlen b → w = zlen data →
  read_at l off w = data.
Proof.
  intros -> -> ->. apply (read_at_field _ (p ++ b) _ s); [by rewrite <- app_assoc| |done].
  by rewrite zlen_app.
Qed.

Lemma message_body_length ch sq lt pt data :
  zlen (message_body ch sq lt pt data) = MESSAGE_HEAD + zlen data.
Proof. unfold message_body, MESSAGE_HEAD. autorewrite with sil. lia. Qed.

Lemma message_body_app ch sq lt pt data :
  message_body ch sq lt pt data
  = (le_bytes 2 ch ++ le_bytes 4 sq ++ le_bytes 8 lt ++ le_bytes 8 pt) ++ data.
Proof. unfold message_body. by rewrite <- !app_assoc. Qed.
End Mcap.
Import Mcap.

(** One step of the chunk walk over an encoded record. *)
Lemma chunk_step_message fuel pre ch sq lt pt data post co ri :
  mrec_ok (MsgRec ch sq lt pt data) = true →
  let L := pre ++ mrec_bytes (MsgRec ch sq lt pt data) ++ post in
  messages_in_chunk (S fuel) L co ri true (zlen pre)
  = let '(rest, err) := messages_in_chunk fuel L co (ri + 1) true
        (zlen (pre ++ mrec_bytes (MsgRec ch sq lt pt data))) in
    ((mk_location ri ch lt co (zlen pre) (zlen data), Some data) :: rest, err).
Proof.
  intros Hok L. cbn [mrec_ok] in Hok.
  rewrite !andb_true_iff, !in_range_true, Z.leb_le in Hok.
  destruct Hok as ((Hc & Ht) & Hd). pose proof (zlen_nonneg pre). pose proof (zlen_nonneg post).
  pose proof (zlen_nonneg data). set (B := message_body ch sq lt pt data) in *.
  assert (HB : zlen B = 22 + zlen data) by apply message_body_length.
  assert (HL : zlen L = zlen pre + 9 + zlen B + zlen post).
  { unfold L. cbn [mrec_bytes]. fold B. rewrite !zlen_app, record_length. unfold RECORD_HEAD. lia. }
  set (P := pre ++ le_bytes 1 OP_MESSAGE ++ le_bytes 8 (zlen B)).
  assert (HP : zlen P = zlen pre + 9) by (unfold P; autorewrite with sil; lia).
  assert (HLP : L = P ++ B ++ post).
  { unfold L, P. cbn [mrec_bytes]. fold B. unfold record_bytes. by rewrite <- !app_assoc. }
  cbn [messages_in_chunk].
  destruct (record_head_at L pre OP_MESSAGE B post (zlen pre)) as [-> ->];
    [done | done | done | unfold MESSAGE_HEAD in Hd; lia |].
  unfold RECORD_HEAD, MESSAGE_HEAD in *. rewrite HB, Z.eqb_refl.
  rewrite (proj2 (Z.ltb_lt (zlen pre) _)), (proj2 (Z.ltb_ge (zlen L) (_ + 9))) by lia.
  rewrite (proj2 (Z.ltb_ge (22 + _) 22)), (proj2 (Z.ltb_ge (zlen L) _)) by lia.
  cbn [orb]. rewrite (message_head_at L P ch sq lt pt data post) by (done || lia).
  rewrite (message_payload_at L P
    (le_bytes 2 ch ++ le_bytes 4 sq ++ le_bytes 8 lt ++ le_bytes 8 pt) data post);
    [| by rewrite HLP; unfold B; rewrite message_body_app, <- !app_assoc
     | autorewrite with sil; lia | lia].
  replace (zlen (pre ++ mrec_bytes (MsgRec ch sq lt pt data)))
    with (zlen pre + 9 + (22 + zlen data)).
  2:{ cbn [mrec_bytes]. rewrite zlen_app, record_length. fold B. unfold RECORD_HEAD. lia. }
  replace (22 + zlen data - 22) with (zlen data) by lia. done.
Qed.

Lemma chunk_step_other fuel pre op body post co ri :
  mrec_ok (OtherRec op body) = true →
  let L := pre ++ mrec_bytes (OtherRec op body) ++ post in
  messages_in_chunk (S fuel) L co ri true (zlen pre)
  = messages_in_chunk fuel L co ri true (zlen (pre ++ mrec_bytes (OtherRec op body))).
Proof.
  intros Hok L. cbn [mrec_ok] in Hok.
  rewrite !andb_true_iff, !negb_true_iff, in_range_true, Z.leb_le in Hok.
  destruct Hok as ((((Ho & Hm) & _) & _) & Hb). pose proof (zlen_nonneg pre).
  pose proof (zlen_nonneg body). pose proof (zlen_nonneg post).
  assert (HL : zlen L = zlen pre + 9 + zlen body + zlen post).
  { unfold L. cbn [mrec_bytes]. rewrite !zlen_app, record_length. unfold RECORD_HEAD. lia. }
  cbn [messages_in_chunk].
  destruct (record_head_at L pre op body post (zlen pre)) as [-> ->]; [done|done|lia|lia|].
  unfold RECORD_HEAD. rewrite Hm.
  rewrite (proj2 (Z.ltb_lt (zlen pre) _)), (proj2 (Z.ltb_ge (zlen L) (_ + 9))) by lia.
  f_equal. cbn [mrec_bytes]. rewrite zlen_app, record_length. unfold RECORD_HEAD. lia.
Qed.

Lemma messages_in_chunk_encoded fuel pre rs co ri :
  forallb mrec_ok rs = true → (length rs < fuel)%nat →
  ∃ out, messages_in_chunk fuel (pre ++ chunk_records rs) co ri true (zlen pre)
         = (out, None)
    ∧ seen <$> out = with_payload <$> concat (mrec_msgs <$> rs).
Proof.
  revert pre ri fuel. induction rs as [|r rs IH]; intros pre ri fuel Hok Hf;
    (destruct fuel as [|fuel]; [cbn in Hf; lia|]).
  - exists []. unfold chunk_records. cbn. rewrite app_nil_r, Z.ltb_irrefl, Z.eqb_refl.
    done.
  - cbn in Hok. apply andb_true_iff in Hok as [Hr Hok]. cbn in Hf.
    assert (chunk_records (r :: rs) = mrec_bytes r ++ chunk_records rs) as -> by done.
    destruct r as [ch sq lt pt data|op body].
    + destruct (IH (pre ++ mrec_bytes (MsgRec ch sq lt pt data)) (ri + 1) fuel Hok
        ltac:(lia)) as (out & Ho1 & Ho2). rewrite <- app_assoc in Ho1.
      rewrite chunk_step_message, Ho1 by done. eexists; split; [done|]. cbn.
      by rewrite Ho2.
    + destruct (IH (pre ++ mrec_bytes (OtherRec op body)) ri fuel Hok
        ltac:(lia)) as (out & Ho1 & Ho2). rewrite <- app_assoc in Ho1.
      rewrite chunk_step_other, Ho1 by done. eexists; split; [done|]. by rewrite Ho2.
Qed.

Lemma read_head_encoded f pre op body post :
  f = pre ++ record_bytes op body ++ post → 0 ≤ op < 256 → zlen body ≤ u64_max →
  read_head f (zlen pre) = Ok (op, zlen body).
Proof.
  intros Hf Ho Hb. pose proof (zlen_nonneg pre). pose proof (zlen_nonneg post).
  pose proof (zlen_nonneg body).
  destruct (record_head_at f pre op body post (zlen pre) Hf eq_refl Ho Hb) as [E1 E2].
  rewrite read_head_in; [by rewrite E1, E2 | done |].
  rewrite Hf, !zlen_app, record_length. lia.
Qed.

Lemma top_level_encoded f pre ch sq lt pt data post ri :
  f = pre ++ mrec_bytes (MsgRec ch sq lt pt data) ++ post →
  mrec_ok (MsgRec ch sq lt pt data) = true →
  top_level_message f (zlen pre) (zlen (message_body ch sq lt pt data)) ri true
  = Ok (mk_location ri ch lt (-1) (zlen pre) (zlen data), Some data).
Proof.
  intros Hf Hok. cbn [mrec_ok] in Hok.
  rewrite !andb_true_iff, !in_range_true, Z.leb_le in Hok.
  destruct Hok as ((Hc & Ht) & Hd).
  pose proof (zlen_nonneg pre). pose proof (zlen_nonneg post). pose proof (zlen_nonneg data).
  rewrite message_body_length. unfold MESSAGE_HEAD, u64_max in *.
  set (B := message_body ch sq lt pt data).
  assert (HB : zlen B = 22 + zlen data) by apply message_body_length.
  set (P := pre ++ le_bytes 1 OP_MESSAGE ++ le_bytes 8 (zlen B)).
  assert (HP : zlen P = zlen pre + 9) by (unfold P; autorewrite with sil; lia).
  assert (HLP : f = P ++ B ++ post).
  { rewrite Hf. unfold P. cbn [mrec_bytes]. fold B. unfold record_bytes.
    by rewrite <- !app_assoc. }
  assert (HL : zlen f = zlen pre + 9 + (22 + zlen data) + zlen post)
    by (rewrite HLP, !zlen_app; lia).
  unfold top_level_message, RECORD_HEAD, MESSAGE_HEAD.
  rewrite (proj2 (Z.ltb_ge _ _)) by lia. mcbn.
  rewrite (read_exact_in f (zlen pre + 9) 22) by lia. mcbn.
  pose proof (message_head_read f (zlen pre + 9)) as Hmh. unfold MESSAGE_HEAD in Hmh.
  rewrite Hmh by lia. rewrite (message_head_at f P ch sq lt pt data post) by (done || unfold u64_max; lia).
  rewrite read_exact_in by lia. mcbn.
  rewrite (message_payload_at f P
    (le_bytes 2 ch ++ le_bytes 4 sq ++ le_bytes 8 lt ++ le_bytes 8 pt) data post);
    [| by rewrite HLP; unfold B; rewrite message_body_app, <- !app_assoc
     | autorewrite with sil; lia | lia].
  do 3 f_equal. lia.
Qed.

(** The fields of an uncompressed Chunk record at [pre]. *)
Lemma chunk_fields f pre st en crc R post :
  f = pre ++ record_bytes OP_CHUNK (chunk_body st en crc R) ++ post →
  zlen R + CHUNK_HEAD + 8 ≤ u64_max →
  uint_at f (zlen pre + 9 + 16) 8 = zlen R
  ∧ uint_at f (zlen pre + 9 + 28) 4 = 0
  ∧ uint_at f (zlen pre + 9 + 32) 8 = zlen R
  ∧ read_at f (zlen pre + 9 + 32) 0 = []
  ∧ read_at f (zlen pre + 9 + 32 + 8) (zlen R) = R
  ∧ zlen f = zlen pre + 49 + zlen R + zlen post.
Proof.
  intros Hf Hu. unfold CHUNK_HEAD, u64_max in Hu. pose proof (zlen_nonneg R).
  set (P := pre ++ le_bytes 1 OP_CHUNK ++ le_bytes 8 (zlen (chunk_body st en crc R))).
  assert (HP : zlen P = zlen pre + 9) by (unfold P; autorewrite with sil; lia).
  assert (HLP : f = P ++ chunk_body st en crc R ++ post).
  { rewrite Hf. unfold P, record_bytes. by rewrite <- !app_assoc. }
  unfold chunk_body in HLP. split_and!.
  - apply (uint_at_field f (P ++ le_bytes 8 st ++ le_bytes 8 en) 8 (zlen R)
      (le_bytes 4 crc ++ le_bytes 4 0 ++ le_bytes 8 (zlen R) ++ R ++ post));
      [by rewrite HLP, <- !app_assoc | autorewrite with sil; lia | done | lia].
  - apply (uint_at_field f (P ++ le_bytes 8 st ++ le_bytes 8 en
      ++ le_bytes 8 (zlen R) ++ le_bytes 4 crc) 4 0 (le_bytes 8 (zlen R) ++ R ++ post));
      [by rewrite HLP, <- !app_assoc | autorewrite with sil; lia | done | lia].
  - apply (uint_at_field f (P ++ le_bytes 8 st ++ le_bytes 8 en
      ++ le_bytes 8 (zlen R) ++ le_bytes 4 crc ++ le_bytes 4 0) 8 (zlen R) (R ++ post));
      [by rewrite HLP, <- !app_assoc | autorewrite with sil; lia | done | lia].
  - apply (read_at_field _ (P ++ le_bytes 8 st ++ le_bytes 8 en
      ++ le_bytes 8 (zlen R) ++ le_bytes 4 crc ++ le_bytes 4 0) []
      (le_bytes 8 (zlen R) ++ R ++ post));
      [by rewrite HLP, <- !app_assoc | autorewrite with sil; lia | done].
  - apply (read_at_field _ (P ++ le_bytes 8 st ++ le_bytes 8 en ++ le_bytes 8 (zlen R)
      ++ le_bytes 4 crc ++ le_bytes 4 0 ++ le_bytes 8 (zlen R)) R post);
      [by rewrite HLP, <- !app_assoc | autorewrite with sil; lia | done].
  - rewrite HLP. autorewrite with sil. lia.
Qed.

Lemma frec_head f pre r post mx :
  f = pre ++ frec_bytes r ++ post → frec_ok mx r = true →
  ∃ op body, frec_bytes r = record_bytes op body ∧ read_head f (zlen pre) = Ok (op, zlen body)
    ∧ match r with
      | Chunk st en crc rs => op = OP_CHUNK
      | Plain (MsgRec ch sq lt pt data) =>
          op = OP_MESSAGE ∧ body = message_body ch sq lt pt data
      | Plain (OtherRec _ _) => op ≠ OP_CHUNK ∧ op ≠ OP_MESSAGE ∧ op ≠ OP_DATA_END
      end.
Proof.
  intros Hf Hok. destruct r as [[ch sq lt pt data|op body]|st en crc rs];
    cbn [frec_ok mrec_ok] in Hok; rewrite !andb_true_iff, ?negb_true_iff, ?Z.leb_le,
      ?in_range_true, ?Z.eqb_neq in Hok; do 2 eexists; (split; [done|]).
  - split; [|done]. eapply read_head_encoded; [done | done |].
    rewrite message_body_length. lia.
  - split; [|naive_solver]. eapply read_head_encoded; [done | lia | lia].
  - split; [|done]. eapply read_head_encoded; [done | done |].
    unfold chunk_body. autorewrite with sil. unfold CHUNK_HEAD in Hok. lia.
Qed.

Lemma chunk_records_length rs : (length rs ≤ length (chunk_records rs))%nat.
Proof.
  induction rs as [|r rs IH]; [done|]. unfold chunk_records in *. cbn.
  rewrite length_app. assert (1 ≤ length (mrec_bytes r))%nat; [|lia].
  destruct r; cbn; lia.
Qed.

Lemma record_bytes_length op body : (9 ≤ length (Mcap.record_bytes op body))%nat.
Proof. pose proof (Mcap.record_length op body) as H. unfold zlen, RECORD_HEAD in H. lia. Qed.

Lemma frecs_length rs : (length rs ≤ length (concat (Mcap.frec_bytes <$> rs)))%nat.
Proof.
  induction rs as [|r rs IH]; cbn; [lia|]. rewrite length_app.
  assert (9 ≤ length (Mcap.frec_bytes r))%nat
    by (destruct r as [[]|]; apply record_bytes_length). lia.
Qed.

Section encoded.
Context (zstd lz4 : bytes → Z → option bytes).

Lemma read_chunk_encoded f pre st en crc rs post mx :
  f = pre ++ frec_bytes (Chunk st en crc rs) ++ post →
  frec_ok mx (Chunk st en crc rs) = true →
  read_chunk_records zstd lz4 f (zlen pre + RECORD_HEAD) (zlen pre) mx
  = Ok (chunk_records rs).
Proof.
  intros Hf Hok. cbn [frec_ok] in Hok. rewrite !andb_true_iff, !Z.leb_le in Hok.
  destruct Hok as ((_ & Hmx) & Hu). set (R := chunk_records rs) in *.
  pose proof (zlen_nonneg pre). pose proof (zlen_nonneg post). pose proof (zlen_nonneg R).
  destruct (chunk_fields f pre st en crc R post Hf Hu)
    as (Hsize & Hname & Hstored & Hcomp & Hdata & HL).
  unfold read_chunk_records, CHUNK_HEAD, RECORD_HEAD, MAX_COMPRESSION_NAME.
  rewrite (read_exact_in f (zlen pre + 9) 32) by lia. mcbn.
  rewrite !(uint_at_read_at f (zlen pre + 9) 32) by lia. rewrite Hsize, Hname.
  rewrite (proj2 (Z.ltb_ge mx _)) by lia. mcbn.
  rewrite (proj2 (Z.ltb_ge 64 0)) by lia. mcbn.
  rewrite (read_exact_in f (zlen pre + 9 + 32) 0), Z.add_0_r by lia. mcbn.
  rewrite (read_exact_in f (zlen pre + 9 + 32) 8) by lia. mcbn.
  rewrite uint_at_read_at, Z.add_0_r, Hstored by lia.
  rewrite (proj2 (Z.ltb_ge mx _)) by lia. mcbn.
  rewrite (read_exact_in f (zlen pre + 9 + 32 + 8) (zlen R)) by lia. mcbn.
  rewrite Hcomp, Hdata. unfold decompress. rewrite decide_True by done. mcbn.
  by rewrite Z.eqb_refl.
Qed.

Lemma scan_step_encoded fuel pre r post mx ri :
  frec_ok mx r = true →
  let F := pre ++ frec_bytes r ++ post in
  ∃ e found, scan_from zstd lz4 (S fuel) F mx true (zlen pre) ri
    = (let '(rest, err) := scan_from zstd lz4 fuel F mx true
          (zlen (pre ++ frec_bytes r)) (ri + zlen found) in
       (((λ '(l, p), (e, l, p)) <$> found) ++ rest, err))
    ∧ seen <$> found = with_payload <$> frec_msgs r.
Proof.
  intros Hok F. destruct (frec_head F pre r post mx eq_refl Hok)
    as (op & body & Hb & Hh & Hcase).
  assert (zlen (pre ++ frec_bytes r) = zlen pre + RECORD_HEAD + zlen body) as Hz
    by (rewrite Hb, zlen_app, record_length; lia).
  rewrite Hz. exists (zlen pre + RECORD_HEAD + zlen body).
  cbn [scan_from]. rewrite Hh.
  destruct r as [[ch sq lt pt data|op' body']|st en crc rs].
  - destruct Hcase as [-> ->]. cbn [Z.eqb orb negb OP_MESSAGE OP_DATA_END OP_CHUNK].
    rewrite (top_level_encoded F pre ch sq lt pt data post ri eq_refl Hok).
    cbn [gen_of_result]. eexists [_]. split; [reflexivity|]. done.
  - destruct Hcase as (N1 & N2 & N3).
    rewrite (proj2 (Z.eqb_neq _ _) N1), (proj2 (Z.eqb_neq _ _) N2),
      (proj2 (Z.eqb_neq _ _) N3). cbn [orb negb]. exists []. split; [|done].
    cbn. rewrite Z.add_0_r. by destruct (scan_from _ _ _ _ _ _ _ _).
  - subst op. cbn [Z.eqb Pos.eqb orb negb OP_MESSAGE OP_DATA_END OP_CHUNK].
    rewrite (read_chunk_encoded F pre st en crc rs post mx eq_refl Hok).
    cbn [frec_ok] in Hok. rewrite !andb_true_iff in Hok.
    destruct (messages_in_chunk_encoded (S (length (chunk_records rs))) [] rs
      (zlen pre) ri) as (out & Ho1 & Ho2); [naive_solver | |].
    { pose proof (chunk_records_length rs). lia. }
    cbn [app] in Ho1. change (zlen []) with 0 in Ho1. rewrite Ho1.
    exists out. split; [reflexivity|]. exact Ho2.
Qed.

(** The scan of an encoded data section yields its Messages in stored
    order and ends at the Data End record. *)
Lemma scan_from_encoded fuel rs pre data_end rest mx ri :
  forallb (frec_ok mx) rs = true → zlen data_end ≤ u64_max → (length rs < fuel)%nat →
  ∃ out, scan_from zstd lz4 fuel
      (pre ++ concat (frec_bytes <$> rs) ++ record_bytes OP_DATA_END data_end ++ rest)
      mx true (zlen pre) ri = (out, None)
    ∧ (λ x, seen (x.1.2, x.2)) <$> out = with_payload <$> concat (frec_msgs <$> rs).
Proof.
  intros Hok Hend. revert pre ri fuel.
  induction rs as [|r rs IH]; intros pre ri fuel Hf;
    (destruct fuel as [|fuel]; [cbn in Hf; lia|]).
  - exists []. cbn [fmap list_fmap concat app scan_from].
    by rewrite (read_head_encoded _ pre OP_DATA_END data_end rest) by (done || lia).
  - cbn in Hok. apply andb_true_iff in Hok as [Hr Hok]. cbn in Hf.
    set (tail := concat (frec_bytes <$> rs) ++ record_bytes OP_DATA_END data_end ++ rest).
    assert (concat (frec_bytes <$> r :: rs) ++ record_bytes OP_DATA_END data_end ++ rest
            = frec_bytes r ++ tail) as -> by (cbn; by rewrite <- app_assoc).
    destruct (scan_step_encoded fuel pre r tail mx ri Hr) as (e & found & Hs & Hm).
    destruct (IH Hok (pre ++ frec_bytes r) (ri + zlen found) fuel
      ltac:(lia)) as (out & Ho1 & Ho2).
    fold tail in Ho1. rewrite <- app_assoc in Ho1. rewrite Hs, Ho1.
    eexists; split; [done|]. rewrite (fmap_cons frec_msgs). cbn [concat].
    rewrite !fmap_app, Ho2, <- Hm. f_equal.
    rewrite <- list_fmap_compose. apply list_fmap_ext. by intros ? [l p].
Qed.
End encoded.

(** ** Locations without payloads, and batches *)

Definition strip {A} (x : A * option bytes) : A * option bytes := (x.1, None).

Lemma messages_in_chunk_strip fuel records co ri pos :
  messages_in_chunk fuel records co ri false pos
  = (strip <$> (messages_in_chunk fuel records co ri true pos).1,
     (messages_in_chunk fuel records co ri true pos).2).
Proof.
  revert ri pos. induction fuel as [|fuel IH]; intros ri pos; [done|].
  cbn [messages_in_chunk]. case_match; [|done]. case_match; [done|].
  case_match; [|apply IH]. case_match; [done|].
  destruct (message_head _ _) as [ch lt]. rewrite IH.
  by destruct (messages_in_chunk _ _ _ _ true _).
Qed.

(** When the scan with payloads completes, the scan without them gives the
    same locations. *)
Lemma scan_from_strip zstd lz4 fuel f mx st ri out :
  scan_from zstd lz4 fuel f mx true st ri = (out, None) →
  scan_from zstd lz4 fuel f mx false st ri = (strip <$> out, None).
Proof.
  revert st ri out. induction fuel as [|fuel IH]; intros st ri out; [done|].
  cbn [scan_from]. destruct (read_head f st) as [[op len]|]; [|done].
  case_match; [by intros [= <-]|]. case_match; [by apply IH|].
  match goal with |- (let '(_, _) := ?a in _) = _ → (let '(_, _) := ?b in _) = _ =>
    assert (a.2 = None → b = (strip <$> a.1, None)) as Hab end.
  { destruct (op =? OP_CHUNK).
    - destruct (read_chunk_records _ _ _ _ _ _); [|done].
      intros Hn. by rewrite messages_in_chunk_strip, Hn.
    - unfold top_level_message. destruct (raise_if _ _); cbn; [|done].
      destruct (read_exact f (st + RECORD_HEAD) MESSAGE_HEAD); cbn; [|done].
      by destruct (read_exact _ _ (len - MESSAGE_HEAD)). }
  match goal with |- (let '(_, _) := ?a in _) = _ → _ =>
    destruct a as [found [err|]] end; [done|]. rewrite (Hab eq_refl). cbn [fst].
  assert (zlen (strip <$> found) = zlen found) as ->
    by (unfold zlen; by rewrite length_fmap).
  destruct (scan_from _ _ _ _ _ true _ _) as [rest err'] eqn:Hrest.
  intros [= <- ->]. rewrite (IH _ _ _ Hrest). f_equal. rewrite fmap_app. f_equal.
  rewrite <- !list_fmap_compose. apply list_fmap_ext. by intros ? [l p].
Qed.

Lemma groupby_concat {A} (key : A → Z) l : concat ((groupby key l).*2) = l.
Proof.
  induction l as [|x l IH]; [done|]. cbn.
  destruct (groupby key l) as [|[k g] gs]; cbn in *; [by rewrite <- IH|].
  destruct (_ =? _); cbn; by rewrite <- IH.
Qed.

Lemma groupby_keys {A} (key : A → Z) l :
  Forall (λ kg, Forall (λ x, key x = kg.1) kg.2) (groupby key l).
Proof.
  induction l as [|x l IH]; [constructor|]. cbn.
  destruct (groupby key l) as [|[k g] gs]; [by repeat constructor|].
  inversion IH as [|? ? Hk Hgs]; subst.
  destruct (Z.eqb_spec (key x) k); repeat constructor; auto.
Qed.

Lemma batched_concat {A} fuel n (l : list A) :
  (0 < n)%nat → (length l ≤ fuel)%nat → concat (batched fuel n l) = l.
Proof.
  revert l. induction fuel as [|fuel IH]; intros [|x l] Hn Hf; cbn in *; try done; [lia|].
  rewrite IH; [by rewrite take_drop | done |]. rewrite length_drop. cbn. lia.
Qed.

Lemma batched_sizes {A} fuel n (l : list A) :
  (0 < n)%nat → Forall (λ b, 0 < length b ≤ n)%nat (batched fuel n l).
Proof.
  revert l. induction fuel as [|fuel IH]; intros [|x l] Hn; cbn; try constructor; auto.
  rewrite length_take. cbn. lia.
Qed.

Lemma fmap_concat {A B} (f : A → B) (ls : list (list A)) :
  f <$> concat ls = concat ((λ l : list A, f <$> l) <$> ls).
Proof. induction ls as [|l ls IH]; cbn; [done|]. by rewrite fmap_app, IH. Qed.

Lemma concat_concat {A} (lls : list (list (list A))) :
  concat (concat lls) = concat ((λ ls : list (list A), concat ls) <$> lls).
Proof. induction lls as [|l lls IH]; cbn; [done|]. by rewrite concat_app, IH. Qed.

Lemma groupby_snd {A} (key : A → Z) l k g :
  (k, g) ∈ groupby key l → Forall (λ x, key x = k) g.
Proof. intros H. exact (proj1 (Forall_forall _ _) (groupby_keys key l) _ H). Qed.

Lemma locate_batches_concat n found :
  (0 < n)%nat → concat ((locate_batches n found).*2) = (λ x, x.1.2) <$> found.
Proof.
  intros Hn. unfold locate_batches.
  rewrite fmap_concat, concat_concat, <- list_fmap_compose.
  rewrite <- (groupby_concat (λ x, x.1.1) found) at 2. rewrite fmap_concat, <- !list_fmap_compose.
  f_equal. apply list_fmap_ext. intros _ [scanned group] _. cbn.
  rewrite <- list_fmap_compose. cbn.
  transitivity (concat (batched (length group) n ((λ x, x.1.2) <$> group))).
  - f_equal. by rewrite list_fmap_id.
  - apply batched_concat; [done|]. by rewrite length_fmap.
Qed.

Lemma locate_batches_spec n found scanned b :
  (0 < n)%nat → (scanned, b) ∈ locate_batches n found →
  (0 < length b ≤ n)%nat
  ∧ ∀ l, l ∈ b → ∃ x, x ∈ found ∧ x.1.2 = l ∧ x.1.1 = scanned.
Proof.
  intros Hn Hin. unfold locate_batches in Hin.
  apply list_elem_of_In, in_concat in Hin as (bs & Hbs & Hb).
  apply list_elem_of_In, list_elem_of_fmap in Hbs as ([k g] & -> & Hg).
  apply list_elem_of_In, list_elem_of_fmap in Hb as (b' & [= <- <-] & Hb).
  split.
  - pose proof (batched_sizes (length g) n ((λ x, x.1.2) <$> g) Hn) as Hs.
    exact (proj1 (Forall_forall _ _) Hs _ Hb).
  - intros l Hl.
    assert (l ∈ concat (batched (length g) n ((λ x, x.1.2) <$> g))) as Hc.
    { apply list_elem_of_In, in_concat. exists b. split; by apply list_elem_of_In. }
    rewrite batched_concat in Hc by (done || by rewrite length_fmap).
    apply list_elem_of_fmap in Hc as (x & -> & Hx). exists x.
    pose proof (proj1 (Forall_forall _ _) (groupby_snd _ _ _ _ Hg) _ Hx) as Hk.
    split_and!; [|done|done].
    rewrite <- (groupby_concat (λ x, x.1.1) found).
    apply list_elem_of_In, in_concat. exists g. split; [|by apply list_elem_of_In].
    apply list_elem_of_In, list_elem_of_fmap. by exists (scanned, g).
Qed.

(** ** The filtered readers *)

(** Objects of the mcap package that the seam reads. *)
Record mcap_channel := mk_channel { ch_topic : string; ch_schema_id : Z }.
Record mcap_schema := mk_schema { sch_name : string; sch_data : bytes }.
Record chunk_index := mk_chunk_index {
  ci_start_offset : Z;
  ci_start_time : Z;
  ci_end_time : Z;
  ci_channel_ids : list Z;  (** keys of [message_index_offsets] *)
}.
Record summary := mk_summary {
  sm_channels : list (Z * mcap_channel);
  sm_schemas : list (Z * mcap_schema);
  sm_chunk_indexes : list chunk_index;
}.
Inductive mcap_record :=
| McMessage (channel_id log_time : Z) (data : bytes)
| McOther.

Abbreviation message := (string * Z * bytes)%type.

(** [_RecordFilter]. *)
Record record_filter := mk_filter {
  rf_channels : option (list string);
  rf_start_ns : option Z;
  rf_end_ns : option Z;
}.

Definition topic_selected (flt : record_filter) (topic : string) : bool :=
  match rf_channels flt with None => true | Some cs => bool_decide (topic ∈ cs) end.

(** [any(channels[id_].topic in self.channels for id_ in ids)]. *)
Fixpoint any_selected (flt : record_filter) (channels : list (Z * mcap_channel))
    (ids : list Z) : result read_error bool :=
  match ids with
  | [] => Ok false
  | id :: ids =>
      match dget channels id with
      | None => Err MissingChannel
      | Some c => if topic_selected flt (ch_topic c) then Ok true
                  else any_selected flt channels ids
      end
  end.

Definition matches_chunk (flt : record_filter) (index : chunk_index)
    (channels : list (Z * mcap_channel)) : result read_error bool :=
  if match rf_start_ns flt with Some s => ci_end_time index <? s | None => false end
  then Ok false
  else if match rf_end_ns flt with Some e => e <=? ci_start_time index | None => false end
  then Ok false
  else match rf_channels flt with
       | None => Ok true
       | Some _ => if decide (ci_channel_ids index = []) then Ok true
                   else any_selected flt channels (ci_channel_ids index)
       end.

Definition matches_message (flt : record_filter) (m : message) : bool :=
  topic_selected flt m.1.1
  && match rf_start_ns flt with Some s => s <=? m.1.2 | None => true end
  && match rf_end_ns flt with Some e => m.1.2 <? e | None => true end.

Section indexed.
(** [StreamReader] and [breakup_chunk] at a file offset: the records of the
    Chunk there, or [None] when the record is not a Chunk. *)
Context (chunk_at : Z → option (list mcap_record)).

Fixpoint chunk_messages (channels : list (Z * mcap_channel)) (flt : record_filter)
    (recs : list mcap_record) : gen message :=
  match recs with
  | [] => ([], None)
  | McOther :: recs => chunk_messages channels flt recs
  | McMessage id t data :: recs =>
      match dget channels id with
      | None => ([], Some MissingChannel)
      | Some c =>
          let '(rest, err) := chunk_messages channels flt recs in
          let m := (ch_topic c, t, data) in
          (if matches_message flt m then m :: rest else rest, err)
      end
  end.

Fixpoint indexed_loop (channels : list (Z * mcap_channel)) (flt : record_filter)
    (indexes : list chunk_index) : gen message :=
  match indexes with
  | [] => ([], None)
  | index :: indexes =>
      match matches_chunk flt index channels with
      | Err e => ([], Some e)
      | Ok false => indexed_loop channels flt indexes
      | Ok true =>
          match chunk_at (ci_start_offset index) with
          | None => ([], Some IndexNotAChunk)
          | Some recs =>
              let '(out, err) := chunk_messages channels flt recs in
              match err with
              | Some _ => (out, err)
              | None => let '(rest, err') := indexed_loop channels flt indexes in
                        (out ++ rest, err')
              end
          end
      end
  end.

Definition by_offset (a b : chunk_index) : Prop :=
  ci_start_offset a ≤ ci_start_offset b.

#[global] Instance by_offset_dec : RelDecision by_offset.
Proof. unfold by_offset. intros a b. apply _. Defined.

(** [_indexed_records]: the selected chunks in file order. *)
Definition indexed_records (sm : summary) (flt : record_filter) : gen message :=
  indexed_loop (sm_channels sm) flt (merge_sort by_offset (sm_chunk_indexes sm)).

(** [_read_mcap]: without a usable chunk index, the mcap package's own
    sequential reader applies the filters. *)
Definition read_mcap (sm : option summary) (unindexed : record_filter → gen message)
    (flt : record_filter) : gen message :=
  match sm with
  | None => unindexed flt
  | Some s => if decide (sm_chunk_indexes s = []) then unindexed flt
              else indexed_records s flt
  end.

(** [read_records]: dispatch on the path's suffix. *)
Definition read_records (suffix : string) (sm : option summary)
    (unindexed : record_filter → gen message) (flt : record_filter)
    : result read_error (gen message) :=
  if decide (suffix = ".mcap"%string) then Ok (read_mcap sm unindexed flt)
  else Err UnknownRecordingFormat.
End indexed.

(** [RecordedChannel]. *)
Record recorded_channel := mk_recorded {
  rc_name : string;
  rc_schema_name : string;
  rc_schema : json;
}.

(** [read_channels]: [loads] is [json.loads] of the schema text. *)
Definition read_channels (loads : bytes → option json) (suffix : string)
    (sm : option summary) : result read_error (list recorded_channel) :=
  _ ← raise_if (negb (bool_decide (suffix = ".mcap"%string))) UnknownRecordingFormat;
  match sm with
  | None => Err NoSummary
  | Some s =>
      mapE (λ '(_, c),
        match dget (sm_schemas s) (ch_schema_id c) with
        | None => Err MissingSchema
        | Some sch => match loads (sch_data sch) with
                      | None => Err SchemaNotJson
                      | Some doc => Ok (mk_recorded (ch_topic c) (sch_name sch) doc)
                      end
        end) (sm_channels s)
  end.

(** [read_manifest_hash] over the metadata records. *)
Fixpoint read_manifest_hash (metadata : list (string * list (string * string)))
    : option string :=
  match metadata with
  | [] => None
  | (name, md) :: rest =>
      match (if String.eqb name "sil" then dget md "manifest_hash"%string else None) with
      | Some h => Some h
      | None => read_manifest_hash rest
      end
  end.

(** *** The index only skips chunks without a selected Message *)

Section index_sound.
Context (chunk_at : Z → option (list mcap_record)) (channels : list (Z * mcap_channel)).

(** The Messages of one chunk, by topic. *)
Definition topics_of (recs : list mcap_record) : list message :=
  concat ((λ r, match r with
                | McOther => []
                | McMessage id t data =>
                    match dget channels id with
                    | Some c => [(ch_topic c, t, data)]
                    | None => []
                    end
                end) <$> recs).

(** What the MCAP format says of a chunk index: it points to a chunk, its
    times bound the chunk's Messages, and a non-empty channel list names
    every channel of the chunk. *)
Definition index_ok (index : chunk_index) : Prop :=
  ∃ recs, chunk_at (ci_start_offset index) = Some recs
    ∧ Forall (λ id, is_Some (dget channels id)) (ci_channel_ids index)
    ∧ ∀ id t data, McMessage id t data ∈ recs →
        is_Some (dget channels id)
        ∧ ci_start_time index ≤ t ≤ ci_end_time index
        ∧ (ci_channel_ids index = [] ∨ id ∈ ci_channel_ids index).

Lemma chunk_messages_filter flt recs :
  (∀ id t data, McMessage id t data ∈ recs → is_Some (dget channels id)) →
  chunk_messages channels flt recs
  = (filter (λ m, matches_message flt m = true) (topics_of recs), None).
Proof.
  unfold topics_of. induction recs as [|[id t data|] recs IH]; intros H; [done|..];
    cbn [chunk_messages].
  - destruct (H id t data) as [c Hc]; [left|]. rewrite Hc.
    rewrite IH by (intros; eapply H; by right).
    rewrite fmap_cons, Hc. cbn [concat app]. rewrite filter_cons.
    case_decide as Hd; [by rewrite Hd | by destruct (matches_message _ _)].
  - apply IH. intros; eapply H; by right.
Qed.

Lemma any_selected_false flt ids :
  Forall (λ id, is_Some (dget channels id)) ids →
  ∃ b, any_selected flt channels ids = Ok b
    ∧ (b = false → ∀ id c, id ∈ ids → dget channels id = Some c →
         topic_selected flt (ch_topic c) = false).
Proof.
  induction 1 as [|id ids [c Hc] _ (b & Hb & IH)]; cbn.
  - exists false. split; [done|]. set_solver.
  - rewrite Hc. destruct (topic_selected flt (ch_topic c)) eqn:Ht; [by exists true|].
    exists b. split; [done|]. intros -> id' c' [->|Hin]%elem_of_cons Hc'; [congruence|].
    by eapply IH.
Qed.

(** A chunk the filter skips holds no Message that it selects. *)
Lemma matches_chunk_sound flt index recs :
  index_ok index → chunk_at (ci_start_offset index) = Some recs →
  ∃ b, matches_chunk flt index channels = Ok b
    ∧ (b = false → filter (λ m, matches_message flt m = true) (topics_of recs) = []).
Proof.
  intros (recs' & Hr' & Hids & Hm) Hr. rewrite Hr in Hr'. injection Hr' as <-.
  assert (Hskip : (∀ id t data c, McMessage id t data ∈ recs →
    dget channels id = Some c → matches_message flt (ch_topic c, t, data) = false) →
    filter (λ m, matches_message flt m = true) (topics_of recs) = []).
  { intros Hf. unfold topics_of. clear Hr Hm.
    induction recs as [|[id t data|] recs IH]; [done|..]; rewrite fmap_cons.
    - destruct (dget channels id) as [c|] eqn:Hc; cbn [concat app].
      + rewrite filter_cons. rewrite decide_False.
        2:{ rewrite (Hf id t data c) by (done || left). done. }
        apply IH. intros; eapply Hf; eauto; by right.
      + apply IH. intros; eapply Hf; eauto; by right.
    - apply IH. intros; eapply Hf; eauto; by right. }
  unfold matches_chunk. destruct (rf_start_ns flt) as [s|] eqn:Hs;
    [destruct (Z.ltb_spec (ci_end_time index) s)|].
  1:{ exists false. split; [done|]. intros _. apply Hskip. intros id t data c Hin _.
      destruct (Hm id t data Hin) as (_ & Ht & _). unfold matches_message. cbn.
      rewrite Hs, (proj2 (Z.leb_gt _ _)) by lia. by rewrite andb_false_r. }
  all: destruct (rf_end_ns flt) as [e|] eqn:He;
    [destruct (Z.leb_spec e (ci_start_time index))|].
  1,4: exists false; split; [done|]; intros _; apply Hskip; intros id t data c Hin _;
    destruct (Hm id t data Hin) as (_ & Ht & _); unfold matches_message; cbn;
    rewrite He, (proj2 (Z.ltb_ge _ _)) by lia; by rewrite andb_false_r.
  all: destruct (rf_channels flt) eqn:Hc; [|by exists true].
  all: destruct (decide (ci_channel_ids index = [])) as [|Hne]; [by exists true|].
  all: destruct (any_selected_false flt _ Hids) as (b & Hb & Hf); exists b; split; [done|].
  all: intros ->; apply Hskip; intros id t data c Hin Hcc.
  all: destruct (Hm id t data Hin) as (_ & _ & [|Hid]); [done|].
  all: unfold matches_message; cbn; by rewrite (Hf eq_refl id c Hid Hcc).
Qed.

Lemma indexed_loop_filter flt indexes :
  Forall index_ok indexes →
  indexed_loop chunk_at channels flt indexes
  = (filter (λ m, matches_message flt m = true)
       (concat ((λ i, topics_of (default [] (chunk_at (ci_start_offset i)))) <$> indexes)),
     None).
Proof.
  induction 1 as [|index indexes Hi _ IH]; [done|]. cbn [indexed_loop].
  destruct Hi as (recs & Hr & Hi). rewrite fmap_cons. cbn [concat].
  rewrite filter_app, Hr. cbn [default]. unfold id at 1.
  destruct (matches_chunk_sound flt index recs) as (b & -> & Hb);
    [by exists recs | done |]. destruct b.
  - rewrite chunk_messages_filter by (intros; by eapply Hi). by rewrite IH.
  - by rewrite IH, (Hb eq_refl).
Qed.
End index_sound.

(** ** Properties *)

(** C2. A file that encodes records (Messages, Chunks of records, and any
    other record, in any order) is scanned to its end, and [stored_messages]
    yields exactly its Messages, with channel, log time and payload, in stored
    order. *)
Theorem stored_messages_encoded zstd lz4 rs data_end rest mx :
  forallb (Mcap.frec_ok mx) rs = true → zlen data_end ≤ u64_max →
  let '(out, err) := stored_messages zstd lz4 (Mcap.file_bytes rs data_end rest) mx in
  err = None
  ∧ Mcap.seen <$> out = Mcap.with_payload <$> concat (Mcap.frec_msgs <$> rs).
Proof.
  intros Hok Hend. unfold stored_messages, scan, Mcap.file_bytes.
  rewrite decide_True by apply (read_at_app [] MCAP_MAGIC).
  set (f := MCAP_MAGIC ++ _).
  destruct (scan_from_encoded zstd lz4 (S (length f)) rs MCAP_MAGIC data_end rest mx 0)
    as (out & Ho & Hs); [done|done| |].
  { pose proof (frecs_length rs). subst f. rewrite !length_app. lia. }
  fold f in Ho. change (zlen MCAP_MAGIC) with 8 in Ho. rewrite Ho. split; [done|].
  rewrite <- Hs, <- list_fmap_compose. apply list_fmap_ext. by intros ? [[e l] p].
Qed.

Definition demo_file : list Mcap.frec :=
  [Mcap.Plain (Mcap.OtherRec 1 []);
   Mcap.Chunk 5 9 0 [Mcap.OtherRec 4 [x01]; Mcap.MsgRec 1 0 5 5 [x10; x11];
                     Mcap.MsgRec 2 1 9 9 []];
   Mcap.Plain (Mcap.MsgRec 1 2 12 12 [x20])].

Lemma stored_messages_encoded_witness :
  let '(out, err) := stored_messages (λ _ _, None) (λ _ _, None)
                       (Mcap.file_bytes demo_file [] []) 200 in
  err = None
  ∧ Mcap.seen <$> out
    = Mcap.with_payload <$> [(1, 5, [x10; x11]); (2, 9, []); (1, 12, [x20])].
Proof.
  apply (stored_messages_encoded (λ _ _, None) (λ _ _, None) demo_file [] [] 200);
    [vm_compute; reflexivity | vm_compute; discriminate].
Defined.

(** Whatever the file, the Messages a scan yields are numbered from 0 in
    stored order, and each one's location leads back to it: reading its chunk
    (or, outside any chunk, the file) at its offset gives its channel, log time
    and payload, whose length is the location's size. *)
Theorem locations_readable zstd lz4 f mx :
  let out := (scan zstd lz4 f mx true).1 in
  (λ x, loc_record_index x.1.2) <$> out = seqZ 0 (zlen out)
  ∧ Forall (readable zstd lz4 f mx) out.
Proof. apply scan_located. Qed.

(** When the scan with payloads completes, [locate_messages] gives the
    same locations in the same order, in non-empty batches of at most
    [batch_size], each from a single record of the file. *)
Theorem locate_messages_batches zstd lz4 f mx out batch_size :
  (0 < batch_size)%nat → scan zstd lz4 f mx true = (out, None) →
  let batches := locate_batches batch_size (scan zstd lz4 f mx false).1 in
  concat (batches.*2) = (λ x, x.1.2) <$> out
  ∧ Forall (λ b, (0 < length b.2 ≤ batch_size)%nat
       ∧ ∀ l, l ∈ b.2 → ∃ p, (b.1, l, p) ∈ out) batches.
Proof.
  intros Hn Hs. cbn zeta.
  assert (scan zstd lz4 f mx false = (strip <$> out, None)) as ->.
  { unfold scan in *. case_decide; [|done]. by apply scan_from_strip. }
  split.
  - rewrite locate_batches_concat by done. cbn [fst].
    by rewrite <- list_fmap_compose.
  - apply Forall_forall. intros [scanned b] Hb.
    destruct (locate_batches_spec _ _ _ _ Hn Hb) as [Hl Hin]. split; [done|].
    intros l Hlb. destruct (Hin l Hlb) as (x & Hx & <- & Hsc).
    apply list_elem_of_fmap in Hx as ([[e l'] p] & -> & Hx). exists p. cbn in *. by subst.
Qed.

Lemma locate_messages_batches_witness :
  ∃ out, scan (λ _ _, None) (λ _ _, None) (Mcap.file_bytes demo_file [] []) 200 true
    = (out, None) ∧
  let batches := locate_batches 1
    (scan (λ _ _, None) (λ _ _, None) (Mcap.file_bytes demo_file [] []) 200 false).1 in
  concat (batches.*2) = (λ x, x.1.2) <$> out
  ∧ Forall (λ b, (0 < length b.2 ≤ 1)%nat
       ∧ ∀ l, l ∈ b.2 → ∃ p, (b.1, l, p) ∈ out) batches.
Proof.
  assert (∀ r : gen (Z * location * option bytes), r.2 = None → r = (r.1, None)) as Hr
    by (intros [a b]; cbn; congruence).
  eexists. split; [apply Hr; vm_compute; reflexivity|].
  apply (locate_messages_batches (λ _ _, None) (λ _ _, None)
           (Mcap.file_bytes demo_file [] []) 200 _ 1).
  - lia.
  - apply Hr. vm_compute. reflexivity.
Defined.

(** The chunk index is only an optimisation: when every chunk index is
    what the MCAP format says it is, the indexed reader yields exactly the
    Messages of the file, in file order, that pass the channel and time filter,
    and it does not raise. *)
Theorem indexed_records_filter chunk_at sm flt :
  Forall (index_ok chunk_at (sm_channels sm)) (sm_chunk_indexes sm) →
  indexed_records chunk_at sm flt
  = (filter (λ m, matches_message flt m = true)
       (concat ((λ i, topics_of (sm_channels sm)
                        (default [] (chunk_at (ci_start_offset i))))
                <$> merge_sort by_offset (sm_chunk_indexes sm))), None).
Proof.
  intros H. apply indexed_loop_filter.
  rewrite Forall_forall in H |- *. intros x Hx. apply H.
  by rewrite <- (merge_sort_Permutation by_offset (sm_chunk_indexes sm)).
Qed.

Definition demo_chunk_at (off : Z) : option (list mcap_record) :=
  if off =? 8 then Some [McOther; McMessage 1 5 [x10]; McMessage 2 9 []]
  else if off =? 90 then Some [McMessage 2 20 [x21]] else None.
Definition demo_summary : summary :=
  mk_summary [(1, mk_channel "a" 1); (2, mk_channel "b" 1)] []
    [mk_chunk_index 90 20 20 [2]; mk_chunk_index 8 5 9 [1; 2]].

Lemma indexed_records_filter_witness :
  indexed_records demo_chunk_at demo_summary
    (mk_filter (Some ["b"%string]) (Some 6) None)
  = ([("b"%string, 9, []); ("b"%string, 20, [x21])], None).
Proof.
  rewrite (indexed_records_filter demo_chunk_at demo_summary).
  - vm_compute. reflexivity.
  - constructor; [|constructor; [|constructor]].
    + exists [McMessage 2 20 [x21]]. split; [reflexivity|]. split.
      * constructor; [by eexists | constructor].
      * intros id t data [[= -> -> ->]|Hin]%elem_of_cons; [|by apply elem_of_nil in Hin].
        cbn. split; [by eexists|]. split; [lia|]. right. left.
    + exists [McOther; McMessage 1 5 [x10]; McMessage 2 9 []]. split; [reflexivity|]. split.
      * constructor; [by eexists | constructor; [by eexists|constructor]].
      * intros id t data [Hx|[Hx|[Hx|Hin]%elem_of_cons]%elem_of_cons]%elem_of_cons;
          [done|injection Hx as -> -> ->|injection Hx as -> -> ->|by apply elem_of_nil in Hin];
          cbn; (split; [by eexists|]); (split; [lia|]); right;
          [left | right; left].
Defined.

(** ** The interface clients read through *)

(** A Recording as the seam presents it: its bytes, its declared Channels and
    metadata, and the Messages a filter selects, in stored order. *)
Record recording := mk_recording {
  rv_bytes : bytes;
  rv_channels : result read_error (list recorded_channel);
  rv_metadata : result read_error (list (string * list (string * string)));
  rv_read : record_filter → gen message;
}.

Definition no_filter : record_filter := mk_filter None None None.

(** What the seam promises: reading with a filter is reading everything and
    then filtering. *)
Class FilteredReads (r : recording) : Prop :=
  filtered_reads : ∀ flt, rv_read r flt
    = (filter (λ m, matches_message flt m = true) (rv_read r no_filter).1, None).

(** The chunk-indexed [.mcap] reader as such a Recording. *)
Definition mcap_recording (data : bytes) (loads : bytes → option json)
    (metadata : result read_error (list (string * list (string * string))))
    (chunk_at : Z → option (list mcap_record)) (sm : summary)
    (unindexed : record_filter → gen message) : recording :=
  mk_recording data (read_channels loads ".mcap" (Some sm)) metadata
    (λ flt, read_mcap chunk_at (Some sm) unindexed flt).

Lemma filter_true {A} (P : A → Prop) `{!∀ x, Decision (P x)} (l : list A) :
  (∀ x, P x) → filter P l = l.
Proof.
  intros HP. induction l as [|x l IH]; [done|]. by rewrite filter_cons_True, IH.
Qed.

Lemma matches_no_filter m : matches_message no_filter m = true.
Proof. done. Qed.

(** The indexed reader keeps the promise. *)
Lemma mcap_filtered_reads data loads md chunk_at sm unindexed :
  sm_chunk_indexes sm ≠ [] →
  Forall (index_ok chunk_at (sm_channels sm)) (sm_chunk_indexes sm) →
  FilteredReads (mcap_recording data loads md chunk_at sm unindexed).
Proof.
  intros Hne Hok flt. cbn. unfold read_mcap. rewrite !decide_False by done.
  assert (∀ flt, indexed_records chunk_at sm flt = (filter (λ m, matches_message flt m = true)
    (concat ((λ i, topics_of (sm_channels sm) (default [] (chunk_at (ci_start_offset i))))
       <$> merge_sort by_offset (sm_chunk_indexes sm))), None)) as Hi.
  { intros flt'. apply indexed_loop_filter. rewrite Forall_forall in Hok |- *. intros x Hx.
    apply Hok. by rewrite <- (merge_sort_Permutation by_offset (sm_chunk_indexes sm)). }
  rewrite !Hi. cbn [fst]. rewrite (filter_true (λ m, matches_message no_filter m = true))
    by apply matches_no_filter. done.
Qed.

(** A Recording held as a list of Messages; it keeps the promise too. *)
Definition list_recording (data : bytes) (channels : list recorded_channel)
    (ms : list message) : recording :=
  mk_recording data (Ok channels) (Ok [])
    (λ flt, (filter (λ m, matches_message flt m = true) ms, None)).

#[export] Instance list_filtered_reads data channels ms :
  FilteredReads (list_recording data channels ms).
Proof.
  intros flt. cbn. by rewrite (filter_true (λ m, matches_message no_filter m = true))
    by apply matches_no_filter.
Qed.
