(* ===== verification/RecordingDiff.v ===== *)
(** * Where two Recordings first differ

    Models [python/src/sil/recording_diff.py], the byte-level diff behind the
    determinism check: [first_difference] with its four stages. The SHA-256
    of a reported payload is a parameter. *)

From Stdlib Require Import ZArith Lia.
From S2P Require Import Prelude PyFloat Json Recording.

(** [_Message] as reported: Channel, virtual time, payload hash. *)
Record reported := mk_reported { rp_channel : string; rp_t_ns : Z; rp_sha256 : string }.

(** [_difference]: the kinds, with the fields each one sets. *)
Inductive difference :=
| DMetadata (run1 run2 : list (string * list (string * string)))
| DChannels (run1 run2 : list string)
| DSchema (channel : string) (run1 run2 : string * json)
| DMessage (channel : string) (t_ns : Z) (index : nat) (run1 run2 : option reported)
    (payload_only : bool)
| DBytes
| DUnreadable (error : read_error).

(** [==] of two string dicts. *)
Definition str_dict_eq (a b : list (string * string)) : bool :=
  bool_decide (length a = length b)
  && forallb (λ '(k, v), bool_decide (dget b k = Some v)) a.

Fixpoint list_eqb {A} (eqb : A → A → bool) (a b : list A) : bool :=
  match a, b with
  | [], [] => true
  | x :: a, y :: b => eqb x y && list_eqb eqb a b
  | _, _ => false
  end.

Definition metadata_eq (a b : list (string * list (string * string))) : bool :=
  list_eqb (λ x y, String.eqb x.1 y.1 && str_dict_eq x.2 y.2) a b.

(** [RecordedChannel.__eq__]. *)
Definition channel_eq (x y : recorded_channel) : bool :=
  String.eqb (rc_name x) (rc_name y) && String.eqb (rc_schema_name x) (rc_schema_name y)
  && py_eq (rc_schema x) (rc_schema y).

Definition metadata_difference (run1 run2 : recording)
    : result read_error (option difference) :=
  a ← rv_metadata run1; b ← rv_metadata run2;
  Ok (if metadata_eq a b then None else Some (DMetadata a b)).

Definition schema_of (c : recorded_channel) : string * json :=
  (rc_schema_name c, rc_schema c).

(** The [for x, y in zip(a, b)] loop. *)
Fixpoint schema_difference (a b : list recorded_channel) : option difference :=
  match a, b with
  | x :: a, y :: b =>
      if channel_eq x y then schema_difference a b
      else Some (DSchema (rc_name x) (schema_of x) (schema_of y))
  | _, _ => None
  end.

Definition channel_difference (run1 run2 : recording)
    : result read_error (option difference) :=
  a ← rv_channels run1; b ← rv_channels run2;
  let names_a := rc_name <$> a in
  let names_b := rc_name <$> b in
  Ok (if decide (names_a = names_b) then schema_difference a b
      else Some (DChannels names_a names_b)).

Section diff.
Context (sha256 : bytes → string).

Definition report (m : message) : reported := mk_reported m.1.1 m.1.2 (sha256 m.2).

(** [_message_detail]: same Channel and time, so only the payload differs. *)
Definition payload_only (a b : option message) : bool :=
  match a, b with
  | Some a, Some b => bool_decide (a.1 = b.1)
  | _, _ => false
  end.

Definition message_difference (index : nat) (a b : option message) : option difference :=
  match a, b with
  | None, None => None
  | Some first, _ | None, Some first =>
      Some (DMessage first.1.1 first.1.2 index (report <$> a) (report <$> b)
              (payload_only a b))
  end.

(** [zip_longest] of the two generators: run 1 is advanced before run 2, and
    a generator that raises stops the loop. *)
Fixpoint first_message (index : nat) (l1 : list message) (e1 : option read_error)
    (l2 : list message) (e2 : option read_error)
    : result read_error (option difference) :=
  match l1, l2 with
  | a :: l1, b :: l2 =>
      if decide (a = b) then first_message (S index) l1 e1 l2 e2
      else Ok (message_difference index (Some a) (Some b))
  | [], _ =>
      match e1 with
      | Some e => Err e
      | None =>
          match l2, e2 with
          | b :: _, _ => Ok (message_difference index None (Some b))
          | [], Some e => Err e
          | [], None => Ok None
          end
      end
  | a :: _, [] =>
      match e2 with
      | Some e => Err e
      | None => Ok (message_difference index (Some a) None)
      end
  end.

Definition first_message_difference (run1 run2 : recording)
    : result read_error (option difference) :=
  let '(l1, e1) := rv_read run1 no_filter in
  let '(l2, e2) := rv_read run2 no_filter in
  first_message 0 l1 e1 l2 e2.

(** [a or b] of two stages. *)
Definition or_else (a b : result read_error (option difference))
    : result read_error (option difference) :=
  d ← a; match d with Some _ => Ok d | None => b end.

Definition first_difference (run1 run2 : recording) : option difference :=
  if decide (rv_bytes run1 = rv_bytes run2) then None
  else match or_else (metadata_difference run1 run2)
               (or_else (channel_difference run1 run2)
                  (or_else (first_message_difference run1 run2) (Ok (Some DBytes)))) with
       | Ok d => d
       | Err e => Some (DUnreadable e)
       end.

(** ** What a stage says *)

(** The Messages of both Recordings before [i] are the same and those at [i]
    are not; a Recording without a Message at [i] has been read to its end. *)
Definition differ_first_at (i : nat) (g1 g2 : gen message) : Prop :=
  take i g1.1 = take i g2.1 ∧ g1.1 !! i ≠ g2.1 !! i
  ∧ (g1.1 !! i = None → g1.2 = None) ∧ (g2.1 !! i = None → g2.2 = None).

Lemma first_message_Some k l1 e1 l2 e2 d :
  first_message k l1 e1 l2 e2 = Ok (Some d) →
  ∃ i ch t, differ_first_at i (l1, e1) (l2, e2)
    ∧ d = DMessage ch t (k + i) (report <$> l1 !! i) (report <$> l2 !! i)
            (payload_only (l1 !! i) (l2 !! i))
    ∧ fst <$> (l1 !! i ∪ l2 !! i) = Some (ch, t).
Proof.
  revert k l2. unfold differ_first_at.
  induction l1 as [|a l1 IH]; intros k [|b l2]; cbn [first_message].
  - by destruct e1, e2.
  - destruct e1; [done|]. intros [= <-]. exists 0%nat, b.1.1, b.1.2. cbn.
    rewrite Nat.add_0_r. by destruct b as [[]].
  - destruct e2; [done|]. intros [= <-]. exists 0%nat, a.1.1, a.1.2. cbn.
    rewrite Nat.add_0_r. by destruct a as [[]].
  - case_decide as Hab; [subst b|].
    + intros (i & ch & t & (H1 & H2) & -> & H3)%IH. exists (S i), ch, t. cbn in *.
      split_and!; [by f_equal| naive_solver.. | | done]. by rewrite Nat.add_succ_r.
    + intros [= <-]. exists 0%nat, a.1.1, a.1.2. cbn. rewrite Nat.add_0_r.
      split_and!; [done|congruence|done|done|done|by destruct a as [[]]].
Qed.

Lemma first_message_None k l1 e1 l2 e2 :
  first_message k l1 e1 l2 e2 = Ok None ↔ l1 = l2 ∧ e1 = None ∧ e2 = None.
Proof.
  revert k l2. induction l1 as [|a l1 IH]; intros k [|b l2]; cbn [first_message].
  - destruct e1, e2; naive_solver.
  - destruct e1; naive_solver.
  - destruct e2; naive_solver.
  - case_decide as Hab; [rewrite IH; naive_solver|]. split; [done|]. naive_solver.
Qed.

Lemma first_message_index k l1 l2 i :
  differ_first_at i (l1, None) (l2, None) →
  ∃ d, first_message k l1 None l2 None = Ok (Some d).
Proof.
  intros (_ & Hne & _). destruct (first_message k l1 None l2 None) as [[d|]|e] eqn:H;
    [by eexists| apply first_message_None in H; naive_solver|].
  exfalso. clear Hne. revert k l2 H. induction l1 as [|a l1 IH]; intros k [|b l2];
    cbn [first_message]; try done. case_decide; [eauto|done].
Qed.
End diff.

Lemma differ_first_unique i j g1 g2 :
  differ_first_at i g1 g2 → differ_first_at j g1 g2 → i = j.
Proof.
  assert (∀ i j, differ_first_at i g1 g2 → differ_first_at j g1 g2 → (i ≤ j)%nat) as H.
  { intros i' j' Hi Hj. destruct (decide (i' ≤ j')%nat); [done|].
    destruct Hi as [Ht _], Hj as [_ [Hne _]]. exfalso. apply Hne.
    rewrite <- (lookup_take_lt g1.1 i' j'), <- (lookup_take_lt g2.1 i' j') by lia.
    by rewrite Ht. }
  intros Hi Hj. pose proof (H i j Hi Hj). pose proof (H j i Hj Hi). lia.
Qed.

Lemma schema_difference_kind a b ch t i x y p :
  schema_difference a b ≠ Some (DMessage ch t i x y p).
Proof.
  revert b. induction a as [|c a IH]; intros [|d b]; cbn; try done.
  by destruct (channel_eq c d).
Qed.

Lemma channel_eq_names a b :
  list_eqb channel_eq a b = true → rc_name <$> a = rc_name <$> b.
Proof.
  revert b. induction a as [|x a IH]; intros [|y b]; cbn; try done.
  intros [Hxy Hab]%andb_true_iff. unfold channel_eq in Hxy.
  apply andb_true_iff in Hxy as [[Hn _]%andb_true_iff _]. apply String.eqb_eq in Hn.
  rewrite Hn. f_equal. by apply IH.
Qed.

Lemma schema_difference_None a b :
  list_eqb channel_eq a b = true → schema_difference a b = None.
Proof.
  revert b. induction a as [|x a IH]; intros [|y b]; cbn; try done.
  intros [-> Hab]%andb_true_iff. by apply IH.
Qed.

(** ** Properties *)

(** The verdict of the diff: it reports nothing exactly for bit-identical
    Recordings, and a reported first Message is the first one: the Messages
    before it are the same in both runs, those at its index are not, and the
    report names the Channel and time stored there. *)
Theorem first_difference_sound sha256 run1 run2 :
  (first_difference sha256 run1 run2 = None ↔ rv_bytes run1 = rv_bytes run2)
  ∧ ∀ ch t i a b p, first_difference sha256 run1 run2 = Some (DMessage ch t i a b p) →
      differ_first_at i (rv_read run1 no_filter) (rv_read run2 no_filter)
      ∧ a = report sha256 <$> (rv_read run1 no_filter).1 !! i
      ∧ b = report sha256 <$> (rv_read run2 no_filter).1 !! i
      ∧ fst <$> ((rv_read run1 no_filter).1 !! i ∪ (rv_read run2 no_filter).1 !! i)
        = Some (ch, t).
Proof.
  unfold first_difference. case_decide as Hb; [naive_solver|]. split.
  - split; [|done]. unfold or_else.
    destruct (metadata_difference _ _) as [[]|]; cbn; try done.
    destruct (channel_difference _ _) as [[]|]; cbn; try done.
    by destruct (first_message_difference _ _ _) as [[]|]; cbn.
  - intros ch t i a b p. unfold or_else.
    destruct (metadata_difference run1 run2) as [[d|]|] eqn:Hm; cbn; try done.
    { intros [= ->]. unfold metadata_difference in Hm. inv_ok. by case_match. }
    destruct (channel_difference run1 run2) as [[d|]|] eqn:Hc; cbn; try done.
    { intros [= ->]. unfold channel_difference in Hc. inv_ok. case_decide; [|done].
      by apply schema_difference_kind in Hc. }
    unfold first_message_difference.
    destruct (rv_read run1 no_filter) as [l1 e1], (rv_read run2 no_filter) as [l2 e2].
    destruct (first_message sha256 0 l1 e1 l2 e2) as [[d|]|] eqn:Hf; cbn; try done.
    intros [= ->]. apply first_message_Some in Hf as (j & ch' & t' & Hd & Heq & Hu).
    injection Heq as -> -> -> -> -> ->. done.
Qed.

(** C20. The diff finds the first difference: two readable Recordings with the
    same metadata and Channels whose Messages first differ at index [i] are
    reported as differing at Message [i], and only Recordings whose Messages are
    all the same are reported as differing in other bytes. *)
Theorem first_difference_complete sha256 run1 run2 md1 md2 ch1 ch2 l1 l2 :
  rv_bytes run1 ≠ rv_bytes run2 →
  rv_metadata run1 = Ok md1 → rv_metadata run2 = Ok md2 → metadata_eq md1 md2 = true →
  rv_channels run1 = Ok ch1 → rv_channels run2 = Ok ch2 →
  list_eqb channel_eq ch1 ch2 = true →
  rv_read run1 no_filter = (l1, None) → rv_read run2 no_filter = (l2, None) →
  (∀ i, differ_first_at i (l1, None) (l2, None) →
     ∃ ch t a b p, first_difference sha256 run1 run2 = Some (DMessage ch t i a b p))
  ∧ (first_difference sha256 run1 run2 = Some DBytes ↔ l1 = l2).
Proof.
  intros Hb Hm1 Hm2 Hm Hc1 Hc2 Hc H1 H2.
  assert (first_difference sha256 run1 run2
    = match or_else (first_message sha256 0 l1 None l2 None) (Ok (Some DBytes)) with
      | Ok d => d | Err e => Some (DUnreadable e) end) as ->.
  { unfold first_difference, metadata_difference, channel_difference.
    rewrite decide_False, Hm1, Hm2, Hc1, Hc2 by done. unfold first_message_difference.
    rewrite H1, H2. cbn [mbind result_bind or_else]. rewrite Hm. cbn [or_else mbind result_bind].
    rewrite (decide_True (P := rc_name <$> ch1 = rc_name <$> ch2))
      by (by apply channel_eq_names). by rewrite schema_difference_None. }
  split.
  - intros i Hd. destruct (first_message_index sha256 0 _ _ _ Hd) as [d Hf].
    rewrite Hf. cbn. apply first_message_Some in Hf as (j & ch & t & Hj & -> & _).
    rewrite (differ_first_unique i j (l1, None) (l2, None) Hd Hj). eauto 10.
  - destruct (first_message sha256 0 l1 None l2 None) as [[d|]|] eqn:Hf; cbn.
    + pose proof Hf as (j & ch & t & Hj & -> & _)%first_message_Some.
      split; [done|]. intros ->. by destruct Hj as (_ & [] & _).
    + apply first_message_None in Hf. naive_solver.
    + split; [done|]. intros ->. exfalso.
      assert (first_message sha256 0 l2 None l2 None = Ok None)
        by (by apply first_message_None). congruence.
Qed.

Definition demo_run (data : bytes) (ms : list message) : recording :=
  mk_recording data (Ok [mk_recorded "a" "A" (JObj [])]) (Ok [])
    (λ flt, (filter (λ m, matches_message flt m = true) ms, None)).

Lemma first_difference_complete_witness :
  let r1 := demo_run [x01] [("a"%string, 0, [x07]); ("a"%string, 5, [x08])] in
  let r2 := demo_run [x02] [("a"%string, 0, [x07]); ("a"%string, 5, [x09])] in
  ∃ ch t a b p, first_difference (λ _, "h"%string) r1 r2 = Some (DMessage ch t 1 a b p).
Proof.
  intros r1 r2.
  refine (proj1 (first_difference_complete (λ _, "h"%string) r1 r2 [] []
    [mk_recorded "a" "A" (JObj [])] [mk_recorded "a" "A" (JObj [])]
    [("a"%string, 0, [x07]); ("a"%string, 5, [x08])]
    [("a"%string, 0, [x07]); ("a"%string, 5, [x09])] _ _ _ _ _ _ _ _ _) 1%nat _);
    try reflexivity; try discriminate.
  split; [reflexivity|]. split; [discriminate|]. split; discriminate.
Defined.
