(* ===== verification/Compare.v ===== *)
(** * Reference comparison under a contract

    Models [python/src/sil/compare.py]: reading and checking a comparison
    contract ([read_contract]), the coverage check, collecting the observed
    Messages of both sides ([messages]), judging every compared field with
    binary64 arithmetic, the tally and the report ([compare]). The JSON
    tokenizer ([json.loads]) and SHA-256 are parameters; a message text is a
    constructor that carries the values it interpolates; [render] and the
    argument parser are not modelled. *)

From Stdlib Require Import ZArith Lia Floats.SpecFloat.
From S2P Require Import Prelude PyFloat Json SchemaTypes Schema Recording.

(** ** The contract *)

(** Binary64 patterns. *)
Record tolerance := mk_tolerance { tol_atol : Z; tol_rtol : Z }.

Inductive rule := RExact | RIgnore | RTol (t : tolerance).

#[export] Instance tolerance_eq_dec : EqDecision tolerance.
Proof. solve_decision. Defined.
#[export] Instance rule_eq_dec : EqDecision rule.
Proof. solve_decision. Defined.

(** [ChannelContract]. *)
Record channel_contract := mk_cc {
  cc_name : string;
  cc_reference_channel : string;
  cc_actual_offset_ns : Z;
  cc_reference_offset_ns : Z;
  cc_times_ns : list Z;
  cc_rules : list (string * rule);
}.

Definition compared (c : channel_contract) : list (string * rule) :=
  filter (λ fr, fr.2 ≠ RIgnore) (cc_rules c).

Record contract := mk_contract {
  ct_sha256 : string;
  ct_from_ns : Z;
  ct_to_ns : Z;
  ct_channels : list channel_contract;
}.

(** Where in the document a problem is. *)
Inductive ctx := Top | Evaluation | InChannel (name : string) | InField (name field : string).

Inductive contract_problem :=
| NotJson
| RepeatedKey (key : string)
| NotAnObject (at_ : ctx)
| UnknownKey (at_ : ctx) (key : string)
| MissingKey (at_ : ctx) (key : string)
| WrongVersion (v : json)
| NotInteger (at_ : ctx) (key : string) (v : json)
| WindowReversed
| NoChannel
| ReferenceNotString (name : string)
| ObservesNothing (name : string)
| FieldsNotObject (name : string)
| TimesNotList (name : string)
| TimesNotAscending (name : string)
| StepNotPositive (name : string)
| StopBeforeStart (name : string)
| BadObservations (name : string)
| BadRule (at_ : ctx) (v : json)
| BadBound (at_ : ctx) (key : string) (v : json)
| BoundOverflow (at_ : ctx) (key : string) (v : json).

Abbreviation parsed := (result contract_problem).

(** [_unique_keys]: the first key that occurs more than once. *)
Fixpoint first_repeated (keys all : list string) : option string :=
  match keys with
  | [] => None
  | k :: keys => if bool_decide (1 < length (filter (λ x, x = k) all))%nat then Some k
                 else first_repeated keys all
  end.

Definition unique_keys (pairs : list (string * json)) : parsed json :=
  match first_repeated pairs.*1 pairs.*1 with
  | Some k => Err (RepeatedKey k)
  | None => Ok (JObj pairs)
  end.

(** [object_pairs_hook=_unique_keys]. *)
Definition hook : json → parsed json := pairs_hook unique_keys.

Definition sorted_strings : list string → list string := merge_sort String.le.

(** [_object]. *)
Definition object (value : json) (at_ : ctx) (required optional : list string)
    : parsed (list (string * json)) :=
  match value with
  | JObj d =>
      _ ← match list_find (λ kv, ¬ (kv.1 ∈ required ++ optional)) d with
          | Some (_, kv) => Err (UnknownKey at_ kv.1)
          | None => Ok ()
          end;
      match sorted_strings (filter (λ k, ¬ (k ∈ d.*1)) required) with
      | k :: _ => Err (MissingKey at_ k)
      | [] => Ok d
      end
  | _ => Err (NotAnObject at_)
  end.

Definition item (d : list (string * json)) (k : string) : json := default JNull (dget d k).

(** [_integer]: [type(value) is int]. *)
Definition integer (value : json) (at_ : ctx) (key : string) : parsed Z :=
  match value with JInt z => Ok z | _ => Err (NotInteger at_ key value) end.

(** [_bound]: an int beyond the binary64 range makes [math.isfinite] raise
    OverflowError, which no caller handles. *)
Definition bound (value : json) (at_ : ctx) (key : string) : parsed Z :=
  match value with
  | JInt z => match float_of_int z with
              | None => Err (BoundOverflow at_ key value)
              | Some b => if z <? 0 then Err (BadBound at_ key value) else Ok b
              end
  | JFloat b => if negb (is_finite64 b) || num_lt (PFloat b) (PInt 0)
                then Err (BadBound at_ key value) else Ok b
  | _ => Err (BadBound at_ key value)
  end.

Definition parse_rule (v : json) (at_ : ctx) : parsed rule :=
  if decide (v = JStr "exact") then Ok RExact
  else if decide (v = JStr "ignore") then Ok RIgnore
  else match v with
       | JObj _ =>
           d ← object v at_ ["atol"; "rtol"]%string [];
           a ← bound (item d "atol") at_ "atol";
           r ← bound (item d "rtol") at_ "rtol";
           Ok (RTol (mk_tolerance a r))
       | _ => Err (BadRule at_ v)
       end.

(** [any(a >= b for a, b in zip(times, times[1:]))] is false. *)
Fixpoint ascending (l : list Z) : bool :=
  match l with
  | a :: (b :: _) as l' => (a <? b) && ascending l'
  | _ => true
  end.

(** [range(start, stop, step)] for a positive step. *)
Definition py_range (start stop step : Z) : list Z :=
  (λ k, start + k * step) <$> seqZ 0 ((stop - start + step - 1) / step).

Definition same_keys (d : list (string * json)) (ks : list string) : bool :=
  forallb (λ k, bool_decide (k ∈ ks)) d.*1 && forallb (λ k, bool_decide (k ∈ d.*1)) ks.

Definition times (spec : json) (name : string) : parsed (list Z) :=
  match spec with
  | JObj d =>
      if same_keys d ["times_ns"%string] then
        match item d "times_ns" with
        | JArr (v :: vs) =>
            ts ← mapE (λ t, integer t (InChannel name) "times_ns") (v :: vs);
            _ ← raise_if (negb (ascending ts)) (TimesNotAscending name);
            Ok ts
        | _ => Err (TimesNotList name)
        end
      else if same_keys d ["start_ns"; "stop_ns"; "step_ns"]%string then
        start ← integer (item d "start_ns") (InChannel name) "start_ns";
        stop ← integer (item d "stop_ns") (InChannel name) "stop_ns";
        step ← integer (item d "step_ns") (InChannel name) "step_ns";
        _ ← raise_if (step <=? 0) (StepNotPositive name);
        _ ← raise_if (stop <? start) (StopBeforeStart name);
        Ok (py_range start (stop + 1) step)
      else Err (BadObservations name)
  | _ => Err (BadObservations name)
  end.

Definition CHANNEL_REQUIRED : list string :=
  ["actual_offset_ns"; "reference_offset_ns"; "observations"; "fields"]%string.

(** [_channel]. *)
Definition parse_channel (name : string) (spec : json) (from_ns to_ns : Z)
    : parsed channel_contract :=
  d ← object spec (InChannel name) CHANNEL_REQUIRED ["reference_channel"%string];
  reference ← match default (JStr name) (dget d "reference_channel"%string) with
              | JStr s => Ok s
              | _ => Err (ReferenceNotString name)
              end;
  all ← times (item d "observations") name;
  let ts := filter (λ t, from_ns ≤ t ≤ to_ns) all in
  _ ← raise_if (bool_decide (ts = [])) (ObservesNothing name);
  fields ← match item d "fields" with JObj f => Ok f | _ => Err (FieldsNotObject name) end;
  ao ← integer (item d "actual_offset_ns") (InChannel name) "actual_offset_ns";
  ro ← integer (item d "reference_offset_ns") (InChannel name) "reference_offset_ns";
  rules ← mapE (λ '(f, r), r' ← parse_rule r (InField name f); Ok (f, r')) fields;
  Ok (mk_cc name reference ao ro ts rules).

(** [read_contract] after [read_bytes]: [loads] tokenizes and [None] is a
    JSONDecodeError or UnicodeDecodeError. *)
Definition read_contract (loads : bytes → option json) (sha256 : bytes → string)
    (data : bytes) : parsed contract :=
  raw ← match loads data with Some raw => Ok raw | None => Err NotJson end;
  document ← hook raw;
  d ← object document Top ["sil_comparison"; "evaluation"; "channels"]%string [];
  _ ← raise_if (negb (py_eq_int (item d "sil_comparison") 1))
        (WrongVersion (item d "sil_comparison"));
  window ← object (item d "evaluation") Evaluation ["from_ns"; "to_ns"]%string [];
  from_ns ← integer (item window "from_ns") Evaluation "from_ns";
  to_ns ← integer (item window "to_ns") Evaluation "to_ns";
  _ ← raise_if (to_ns <? from_ns) WindowReversed;
  chans ← match item d "channels" with
          | JObj (c :: cs) => Ok (c :: cs)
          | _ => Err NoChannel
          end;
  cs ← mapE (λ '(name, spec), parse_channel name spec from_ns to_ns) chans;
  Ok (mk_contract (sha256 data) from_ns to_ns cs).

(** ** Judging values *)

Abbreviation f64add := (SFadd 53 1024).
Abbreviation f64sub := (SFsub 53 1024).
Abbreviation f64mul := (SFmul 53 1024).

(** [Tolerance.allowed]: [atol + rtol * abs(reference)]. *)
Definition allowed (t : tolerance) (reference : Z) : spec_float :=
  f64add (to_sf (tol_atol t)) (f64mul (to_sf (tol_rtol t)) (SFabs (to_sf reference))).

Inductive kind := KValue | KNonfinite | KMissing (side : string) | KAmbiguous (side : string).
#[export] Instance kind_eq_dec : EqDecision kind.
Proof. solve_decision. Defined.

(** ["tolerance"], ["abs_error"] and ["element"] of a divergence. *)
Inductive tol_detail := TExact | TBound (atol rtol : Z) (allowed : spec_float).
Record details := mk_details {
  det_tolerance : option tol_detail;
  det_abs_error : option spec_float;
  det_element : option nat;
}.
Definition no_details : details := mk_details None None None.

Definition float_bits (n : pynum) : Z :=
  match n with PFloat b => b | PInt z => default 0 (float_of_int z) end.

(** [_judge]. A tolerance is only ever applied to float fields
    ([rule_problems]), so both numbers are then floats. *)
Definition judge (actual expected : pynum) (r : rule) : option (kind * details) :=
  match r with
  | RTol t =>
      let a := float_bits actual in
      let e := float_bits expected in
      let limit := if num_finite expected then allowed t e else S754_infinity false in
      let tol := Some (TBound (tol_atol t) (tol_rtol t) limit) in
      if negb (num_finite actual && num_finite expected) then
        Some (KNonfinite, mk_details tol None None)
      else
        let error := SFabs (f64sub (to_sf a) (to_sf e)) in
        if SFleb error limit then None
        else Some (KValue, mk_details tol (Some error) None)
  | _ => if num_eq actual expected then None
         else Some (KValue, mk_details (Some TExact) None None)
  end.

(** The [for element, pair in enumerate(zip(actual, expected))] loop. *)
Fixpoint judge_elements (i : nat) (a e : list pynum) (r : rule) : option (kind * details) :=
  match a, e with
  | x :: a, y :: e =>
      match judge x y r with
      | Some (k, d) => Some (k, mk_details (det_tolerance d) (det_abs_error d) (Some i))
      | None => judge_elements (S i) a e r
      end
  | _, _ => None
  end.

(** [_judge_field]. *)
Definition judge_field (actual expected : value) (r : rule) : option (kind * details) :=
  match actual, expected with
  | VNum a, VNum e => judge a e r
  | _, _ => judge_elements 0 (elements actual) (elements expected) r
  end.

(** [_json_value]. *)
Definition json_num (n : pynum) : json :=
  match n with
  | PInt z => JInt z
  | PFloat b => if is_finite64 b then JFloat b
                else if is_nan64 b then JStr "nan"
                else JStr (if f_sign 52 11 b then "-inf" else "inf")
  end.
Definition json_value (v : value) : json :=
  match v with
  | VNum n => json_num n
  | _ => JArr (json_num <$> elements v)
  end.

(** ** Coverage *)

Inductive coverage_problem :=
| NoActualChannel (name : string)
| NoReferenceChannel (reference name : string)
| FieldNotNamed (name field : string)
| FieldNotDeclared (name field : string)
| ExactOnFloat (name field : string)
| ToleranceOnInt (name field : string)
| NoReferenceField (reference field : string)
| ReferenceShape (reference field : string)
| ComparesNoField (name : string).

(** [{f["name"]: f for f in fields}]: the last field of a repeated name. *)
Definition declared (fs : list field) : list (string * field) :=
  dict_of ((λ f, (fd_name f, f)) <$> fs).
Definition find_field (fs : list field) (name : string) : option field :=
  dget (declared fs) name.

(** [_rule_problems]. *)
Definition rule_problems (c : channel_contract) (f : field) (reference : option field)
    (r : rule) : list coverage_problem :=
  let int := is_int_type (fd_type f) in
  if bool_decide (r = RExact) && negb int then [ExactOnFloat (cc_name c) (fd_name f)]
  else if match r with RTol _ => int | _ => false end
  then [ToleranceOnInt (cc_name c) (fd_name f)]
  else match reference with
       | None => [NoReferenceField (cc_reference_channel c) (fd_name f)]
       | Some g =>
           if negb (bool_decide (fd_count g = fd_count f))
              || negb (Bool.eqb (is_int_type (fd_type g)) int)
           then [ReferenceShape (cc_reference_channel c) (fd_name f)] else []
       end.

(** [_coverage], given the field lists of the two schemas. *)
Definition coverage (c : channel_contract) (actual reference : option (list field))
    : list coverage_problem :=
  match actual, reference with
  | Some afs, Some rfs =>
      let unnamed := omap (λ name, if decide (name ∈ (cc_rules c).*1) then None
                                   else Some (FieldNotNamed (cc_name c) name)) (declared afs).*1 in
      let ruled := concat ((λ '(name, r),
        match find_field afs name with
        | None => [FieldNotDeclared (cc_name c) name]
        | Some f => if decide (r = RIgnore) then []
                    else rule_problems c f (find_field rfs name) r
        end) <$> cc_rules c) in
      let problems := unnamed ++ ruled in
      if decide (problems = [] ∧ compared c = []) then [ComparesNoField (cc_name c)]
      else problems
  | _, _ =>
      (if actual then [] else [NoActualChannel (cc_name c)])
      ++ (if reference then [] else [NoReferenceChannel (cc_reference_channel c) (cc_name c)])
  end.

(** ** The observed Messages *)

Inductive compare_error :=
| CannotRead (e : read_error)
| CannotUnpack (e : pack_error)
| NotASchema (channel : string).

(** One side of the comparison: its schemas by Channel name, and its Messages. *)
Abbreviation schemas := (list (string * list field)).

Abbreviation sample := (Z * values)%type.

(** One entry of a [by_topic] list: compared Channel, offset, observed times. *)
Abbreviation watch := (string * Z * list Z)%type.

(** [by_topic.setdefault(topic, []).append(...)] over the plans. *)
Definition by_topic (plans : list (channel_contract * string * Z))
    : list (string * list watch) :=
  fold_left (λ d '(c, topic, off),
    dset d topic (default [] (dget d topic) ++ [(cc_name c, off, cc_times_ns c)]))
    plans [].

Abbreviation observed := (list (string * list (Z * list sample))).

(** [messages[compared].setdefault(observation, []).append(...)]. *)
Definition observe (ms : observed) (name : string) (obs : Z) (s : sample) : observed :=
  let of_channel := default [] (dget ms name) in
  dset ms name (dset of_channel obs (default [] (dget of_channel obs) ++ [s])).

Definition see_watch (fs : list field) (t : Z) (payload : bytes)
    (ms : observed) (w : watch) : result compare_error observed :=
  let '(name, off, ts) := w in
  if decide (t + off ∈ ts) then
    match mt_unpack fs payload with
    | Ok v => Ok (observe ms name (t + off) (t, v))
    | Err e => Err (CannotUnpack e)
    end
  else Ok ms.

Definition see_record (schemas : schemas) (topics : list (string * list watch))
    (ms : observed) (m : message) : result compare_error observed :=
  let '(topic, t, payload) := m in
  foldE (see_watch (default [] (dget schemas topic)) t payload) ms
    (default [] (dget topics topic)).

(** [_messages]. *)
Definition messages (schemas : schemas) (records : gen message)
    (plans : list (channel_contract * string * Z)) : result compare_error observed :=
  ms ← foldE (see_record schemas (by_topic plans))
         ((λ '(c, _, _), (cc_name c, [])) <$> plans) records.1;
  match records.2 with Some e => Err (CannotRead e) | None => Ok ms end.

(** ** The comparison *)

(** The counters of one Channel ([_counts]). *)
Record counts := mk_counts {
  n_observations : Z;
  n_checked : Z;
  n_failed : Z;
  n_nonfinite : Z;
  n_missing_actual : Z;
  n_missing_reference : Z;
  n_ambiguous_actual : Z;
  n_ambiguous_reference : Z;
}.

Definition init_counts (c : channel_contract) : counts :=
  mk_counts (zlen (cc_times_ns c)) 0 0 0 0 0 0 0.

Record divergence := mk_divergence {
  dv_kind : kind;
  dv_channel : string;
  dv_reference_channel : string;
  dv_field : option string;
  dv_observation_ns : Z;
  dv_actual_times : list Z;
  dv_reference_times : list Z;
  dv_actual : list (list (string * json));
  dv_expected : list (list (string * json));
  dv_details : details;
}.

(** [(observation_ns, channel index, field index)]. *)
Abbreviation key := (Z * Z * Z)%type.

Definition key_lt (a b : key) : bool :=
  let '(a1, a2, a3) := a in
  let '(b1, b2, b3) := b in
  (a1 <? b1) || ((a1 =? b1) && ((a2 <? b2) || ((a2 =? b2) && (a3 <? b3)))).

(** [_Tally]. *)
Record tally := mk_tally {
  ty_count : Z;
  ty_first : option divergence;
  ty_key : option key;
}.
Definition new_tally : tally := mk_tally 0 None None.

Definition add (ty : tally) (k : key) (d : divergence) : tally :=
  if match ty_key ty with None => true | Some k' => key_lt k k' end
  then mk_tally (ty_count ty + 1) (Some d) (Some k)
  else mk_tally (ty_count ty + 1) (ty_first ty) (ty_key ty).

(** [_values_of]: the compared fields of each Message. *)
Definition values_of (ms : list sample) (rules : list (string * rule))
    : list (list (string * json)) :=
  (λ s : sample, omap (λ fr : string * rule,
     (λ v, (fr.1, json_value v)) <$> dget s.2 fr.1) rules) <$> ms.

(** [_Observation]: one observation time of one Channel. *)
Record observation := mk_observation {
  ob_channel : channel_contract;
  ob_index : Z;
  ob_ns : Z;
  ob_actual : list sample;
  ob_reference : list sample;
}.
Definition ob_rules (o : observation) : list (string * rule) := compared (ob_channel o).

(** [_diverge]: [field] is the field's index and name, or [None] for a gap.
    A field divergence shows the one value of each side. *)
Definition diverge (o : observation) (ty : tally) (k : kind)
    (fld : option (Z * string * (json * json))) (det : details) : tally :=
  let d := mk_divergence k (cc_name (ob_channel o)) (cc_reference_channel (ob_channel o))
    ((λ x, x.1.2) <$> fld) (ob_ns o) (ob_actual o).*1 (ob_reference o).*1
    (match fld with Some (_, f, (a, _)) => [[(f, a)]] | None => values_of (ob_actual o) (ob_rules o) end)
    (match fld with Some (_, f, (_, e)) => [[(f, e)]] | None => values_of (ob_reference o) (ob_rules o) end)
    det in
  add ty (ob_ns o, ob_index o, match fld with Some (i, _, _) => i | None => -1 end) d.

(** One side of [present]. *)
Definition present_actual (o : observation) (st : counts * tally) : counts * tally :=
  let '(c, ty) := st in
  match ob_actual o with
  | [] => (mk_counts (n_observations c) (n_checked c) (n_failed c) (n_nonfinite c)
             (n_missing_actual c + 1) (n_missing_reference c)
             (n_ambiguous_actual c) (n_ambiguous_reference c),
           diverge o ty (KMissing "actual") None no_details)
  | [_] => st
  | _ => (mk_counts (n_observations c) (n_checked c) (n_failed c) (n_nonfinite c)
            (n_missing_actual c) (n_missing_reference c)
            (n_ambiguous_actual c + 1) (n_ambiguous_reference c),
          diverge o ty (KAmbiguous "actual") None no_details)
  end.

Definition present_reference (o : observation) (st : counts * tally) : counts * tally :=
  let '(c, ty) := st in
  match ob_reference o with
  | [] => (mk_counts (n_observations c) (n_checked c) (n_failed c) (n_nonfinite c)
             (n_missing_actual c) (n_missing_reference c + 1)
             (n_ambiguous_actual c) (n_ambiguous_reference c),
           diverge o ty (KMissing "reference") None no_details)
  | [_] => st
  | _ => (mk_counts (n_observations c) (n_checked c) (n_failed c) (n_nonfinite c)
            (n_missing_actual c) (n_missing_reference c)
            (n_ambiguous_actual c) (n_ambiguous_reference c + 1),
          diverge o ty (KAmbiguous "reference") None no_details)
  end.

Definition present (o : observation) (st : counts * tally) : bool * (counts * tally) :=
  (bool_decide (length (ob_actual o) = 1%nat ∧ length (ob_reference o) = 1%nat),
   present_reference o (present_actual o st)).

(** A value a Message holds: every compared field is in both schemas
    ([coverage]), so it is there. *)
Definition value_at (v : values) (f : string) : value :=
  default (VNum (PInt 0)) (dget v f).

(** The loop of [compare_fields] from field index [i]. *)
Fixpoint compare_fields (o : observation) (actual expected : values) (i : Z)
    (rules : list (string * rule)) (st : counts * tally) : bool * (counts * tally) :=
  match rules with
  | [] => (false, st)
  | (f, r) :: rules =>
      let a := value_at actual f in
      let e := value_at expected f in
      match judge_field a e r with
      | None => compare_fields o actual expected (i + 1) rules st
      | Some (k, det) =>
          let '(c, ty) := st in
          let c' := mk_counts (n_observations c) (n_checked c) (n_failed c)
                      (n_nonfinite c + Z.b2z (bool_decide (k = KNonfinite)))
                      (n_missing_actual c) (n_missing_reference c)
                      (n_ambiguous_actual c) (n_ambiguous_reference c) in
          let ty' := diverge o ty k (Some (i, f, (json_value a, json_value e))) det in
          (true, (compare_fields o actual expected (i + 1) rules (c', ty')).2)
      end
  end.

Definition bump_checked (failed : bool) (c : counts) : counts :=
  mk_counts (n_observations c) (n_checked c + 1) (n_failed c + Z.b2z failed)
    (n_nonfinite c) (n_missing_actual c) (n_missing_reference c)
    (n_ambiguous_actual c) (n_ambiguous_reference c).

(** The body of [_compare_channel]'s loop. *)
Definition compare_observation (st : counts * tally) (o : observation) : counts * tally :=
  let '(ok, st) := present o st in
  match ok, ob_actual o, ob_reference o with
  | true, (_, a) :: _, (_, e) :: _ =>
      let '(failed, (c, ty)) := compare_fields o a e 0 (ob_rules o) st in
      (bump_checked failed c, ty)
  | _, _, _ => st
  end.

(** [side.get(observation, [])]. *)
Definition samples_at (ms : observed) (name : string) (t : Z) : list sample :=
  default [] (dget (default [] (dget ms name)) t).

Definition observation_at (c : channel_contract) (index : nat) (actual reference : observed)
    (t : Z) : observation :=
  mk_observation c (Z.of_nat index) t (samples_at actual (cc_name c) t)
    (samples_at reference (cc_name c) t).

Definition compare_channel (c : channel_contract) (index : nat)
    (actual reference : observed) (st : counts * tally) : counts * tally :=
  fold_left (λ st t, compare_observation st (observation_at c index actual reference t))
    (cc_times_ns c) st.

Inductive verdict := PASS | FAIL.
#[export] Instance verdict_eq_dec : EqDecision verdict.
Proof. solve_decision. Defined.

Record report := mk_report {
  rp_verdict : verdict;
  rp_coverage : list coverage_problem;
  rp_channels : list (string * counts);
  rp_divergences : Z;
  rp_first : option divergence;
}.

(** [read_schemas], with the field list of each Channel's schema: when two
    Channels have one name, the last one's schema. *)
Definition read_schemas (channels : result read_error (list recorded_channel))
    : result compare_error schemas :=
  match channels with
  | Err e => Err (CannotRead e)
  | Ok cs => mapE (λ '(name, schema), match fields_of_json schema with
                                      | Some fs => Ok (name, fs)
                                      | None => Err (NotASchema name)
                                      end) (dict_of ((λ c, (rc_name c, rc_schema c)) <$> cs))
  end.

Definition channel_coverage (as_ rs : schemas) (c : channel_contract)
    : list coverage_problem :=
  coverage c (dget as_ (cc_name c)) (dget rs (cc_reference_channel c)).

(** One iteration of the loop over [enumerate(contract.channels)]. *)
Definition compare_one (as_ rs : schemas) (am rm : observed)
    (acc : list (string * counts) * tally) (ic : nat * channel_contract)
    : list (string * counts) * tally :=
  let '(chans, ty) := acc in
  let '(index, c) := ic in
  let '(cnt, ty') :=
    if bool_decide (channel_coverage as_ rs c = [])
    then compare_channel c index am rm (init_counts c, ty)
    else (init_counts c, ty) in
  (dset chans (cc_name c) cnt, ty').

Definition compare (ct : contract) (actual reference : recording)
    : result compare_error report :=
  as_ ← read_schemas (rv_channels actual);
  rs ← read_schemas (rv_channels reference);
  let problems := concat (channel_coverage as_ rs <$> ct_channels ct) in
  let usable := filter (λ c, channel_coverage as_ rs c = []) (ct_channels ct) in
  am ← messages as_ (rv_read actual no_filter)
         ((λ c, (c, cc_name c, cc_actual_offset_ns c)) <$> usable);
  rm ← messages rs (rv_read reference no_filter)
         ((λ c, (c, cc_reference_channel c, cc_reference_offset_ns c)) <$> usable);
  let '(chans, ty) :=
    fold_left (compare_one as_ rs am rm) (enumerate (ct_channels ct)) ([], new_tally) in
  Ok (mk_report (if bool_decide (problems = []) && (ty_count ty =? 0) then PASS else FAIL)
        problems chans (ty_count ty) (ty_first ty)).

(** [main]'s exit status. *)
Definition exit_status (c : parsed contract) (actual reference : recording) : Z :=
  match c with
  | Err _ => 2
  | Ok ct => match compare ct actual reference with
             | Err _ => 2
             | Ok r => match rp_verdict r with FAIL => 1 | PASS => 0 end
             end
  end.

(** The last declaration of a field name counts. *)
Lemma find_field_last fs f fs' :
  fd_name f ∉ fd_name <$> fs' → find_field (fs ++ f :: fs') (fd_name f) = Some f.
Proof.
  intros Hn. unfold find_field, declared. rewrite fmap_app. apply dict_of_last.
  rewrite <- (list_fmap_compose (λ f, (fd_name f, f)) fst). exact Hn.
Qed.

(** ** Which Messages are observed *)

(** The Messages of [topic] whose observation time is [t], in stored order. *)
Definition held (fs : list field) (topic : string) (off : Z) (records : list message)
    (t : Z) : list sample :=
  omap (λ m : message,
    if decide (m.1.1 = topic ∧ m.1.2 + off = t) then
      match mt_unpack fs m.2 with Ok v => Some (m.1.2, v) | Err _ => None end
    else None) records.

Lemma samples_at_observe ms n o s n' o' :
  samples_at (observe ms n o s) n' o'
  = samples_at ms n' o' ++ (if decide (n = n' ∧ o = o') then [s] else []).
Proof.
  unfold samples_at, observe. destruct (decide (n = n')) as [<-|Hn].
  - rewrite dget_dset_eq. cbn. unfold id. destruct (decide (o = o')) as [<-|Ho].
    + rewrite dget_dset_eq, decide_True by done. done.
    + rewrite dget_dset_ne by done. rewrite decide_False by naive_solver.
      by rewrite app_nil_r.
  - rewrite dget_dset_ne by done. rewrite decide_False by naive_solver.
    by rewrite app_nil_r.
Qed.

(** What one Message adds under [(n, o)] through one watch. *)
Definition contrib (fs : list field) (t : Z) (payload : bytes) (n : string) (o : Z)
    (w : watch) : list sample :=
  let '(name, off, ts) := w in
  if decide (name = n ∧ t + off = o ∧ o ∈ ts) then
    match mt_unpack fs payload with Ok v => [(t, v)] | Err _ => [] end
  else [].

Lemma see_watch_samples fs t payload ms w ms' n o :
  see_watch fs t payload ms w = Ok ms' →
  samples_at ms' n o = samples_at ms n o ++ contrib fs t payload n o w.
Proof.
  destruct w as [[name off] ts]. unfold see_watch, contrib.
  destruct (decide (t + off ∈ ts)) as [Hin|Hin].
  - destruct (mt_unpack fs payload) as [v|]; [|done]. intros [= <-].
    rewrite samples_at_observe. f_equal.
    repeat case_decide; naive_solver.
  - intros [= <-]. rewrite decide_False by (intros (_ & <- & ?); done).
    by rewrite app_nil_r.
Qed.

(** A loop whose steps only append to what [g] reads off the state. *)
Lemma foldE_appends {E S A X} (f : S → A → result E S) (g : S → list X) (h : A → list X)
    s l s' :
  (∀ s a s', f s a = Ok s' → g s' = g s ++ h a) →
  foldE f s l = Ok s' → g s' = g s ++ concat (h <$> l).
Proof.
  intros Hf. revert s. induction l as [|a l IH]; intros s; cbn.
  - intros [= <-]. by rewrite app_nil_r.
  - intros (s1 & H1 & H2)%bind_Ok. rewrite (IH _ H2), (Hf _ _ _ H1). by rewrite app_assoc.
Qed.

Lemma see_record_samples schemas topics ms m ms' n o :
  see_record schemas topics ms m = Ok ms' →
  samples_at ms' n o = samples_at ms n o
    ++ concat (contrib (default [] (dget schemas m.1.1)) m.1.2 m.2 n o
               <$> default [] (dget topics m.1.1)).
Proof.
  destruct m as [[topic t] payload]. cbn [see_record fst snd].
  apply (foldE_appends _ (λ ms, samples_at ms n o)). intros *. apply see_watch_samples.
Qed.

Abbreviation plan_entry := (channel_contract * string * Z)%type.
Definition watch_of (p : plan_entry) : watch :=
  (cc_name p.1.1, p.2, cc_times_ns p.1.1).

Lemma by_topic_lookup plans topic :
  default [] (dget (by_topic plans) topic)
  = watch_of <$> filter (λ p, p.1.2 = topic) plans.
Proof.
  unfold by_topic.
  enough (∀ d, default [] (dget (fold_left (λ d '(c, topic, off),
      dset d topic (default [] (dget d topic) ++ [(cc_name c, off, cc_times_ns c)]))
      plans d) topic)
    = default [] (dget d topic) ++ (watch_of <$> filter (λ p, p.1.2 = topic) plans)) as H
    by apply H.
  induction plans as [|[[c tp] off] plans IH]; intros d; cbn [fold_left].
  - by rewrite app_nil_r.
  - rewrite IH, filter_cons. cbn [fst snd]. case_decide as Ht; [subst tp|].
    + rewrite dget_dset_eq. cbn. by rewrite <- app_assoc.
    + by rewrite dget_dset_ne.
Qed.

Lemma contrib_plans fs t payload plans c topic off o tp :
  NoDup ((λ p : plan_entry, cc_name p.1.1) <$> plans) → (c, topic, off) ∈ plans →
  o ∈ cc_times_ns c →
  concat (contrib fs t payload (cc_name c) o <$>
          (watch_of <$> filter (λ p, p.1.2 = tp) plans))
  = if decide (tp = topic ∧ t + off = o)
    then match mt_unpack fs payload with Ok v => [(t, v)] | Err _ => [] end else [].
Proof.
  intros Hnd Hin Ho. induction plans as [|[[c' tp'] off'] plans IH]; [set_solver|].
  rewrite fmap_cons, NoDup_cons in Hnd. destruct Hnd as [Hni Hnd]. cbn [fst] in Hni.
  assert (Hother : ∀ q, q ∈ plans → cc_name q.1.1 ≠ cc_name c').
  { intros q Hq Heq. apply Hni. rewrite <- Heq. apply list_elem_of_fmap. by exists q. }
  rewrite filter_cons. cbn [fst snd]. apply elem_of_cons in Hin as [[= <- <- <-]|Hin].
  - assert (concat (contrib fs t payload (cc_name c) o <$>
      (watch_of <$> filter (λ p, p.1.2 = tp) plans)) = []) as Hnil.
    { clear -Hother. induction plans as [|q plans IH]; [done|].
      rewrite filter_cons. assert (Hq := Hother q ltac:(left)).
      specialize (IH (λ x Hx, Hother x ltac:(by right))).
      case_decide; [|done]. cbn. rewrite IH, decide_False by naive_solver. done. }
    destruct (decide (topic = tp)) as [->|Hne].
    + rewrite !fmap_cons. cbn [concat]. rewrite Hnil, app_nil_r. cbn.
      repeat case_decide; naive_solver.
    + rewrite Hnil, decide_False by naive_solver. done.
  - specialize (IH Hnd Hin). assert (Hc := Hother _ Hin). cbn in Hc.
    destruct (decide (tp' = tp)); [|done]. rewrite !fmap_cons. cbn [concat]. rewrite IH.
    unfold contrib, watch_of. cbn [fst snd].
    by rewrite (decide_False (P := cc_name c' = cc_name c ∧ _)) by naive_solver.
Qed.

Lemma concat_omap {A B} (f : A → option B) (g : A → list B) l :
  (∀ x, g x = match f x with Some y => [y] | None => [] end) →
  concat (g <$> l) = omap f l.
Proof.
  intros H. induction l as [|x l IH]; [done|]. cbn. rewrite H, IH. by destruct (f x).
Qed.

(** [_messages] keeps, for each compared Channel and observation time, exactly
    the Messages of its recorded Channel that land there. *)
Lemma messages_samples schemas records plans ms c topic off t :
  messages schemas records plans = Ok ms →
  NoDup ((λ p : plan_entry, cc_name p.1.1) <$> plans) → (c, topic, off) ∈ plans →
  t ∈ cc_times_ns c →
  samples_at ms (cc_name c) t
  = held (default [] (dget schemas topic)) topic off records.1 t.
Proof.
  unfold messages. intros (ms' & Hf & He)%bind_Ok Hnd Hin Ht.
  destruct (records.2); [done|]. injection He as <-.
  rewrite (foldE_appends _ (λ ms, samples_at ms (cc_name c) t) _ _ _ _
             (λ s a s', see_record_samples _ _ s a s' _ _) Hf).
  assert (samples_at ((λ '(c, _, _), (cc_name c, [])) <$> plans) (cc_name c) t = []) as ->.
  { clear. unfold samples_at. induction plans as [|[[c' ?] ?] plans IH]; [done|]. cbn.
    case_decide; [done|]. apply IH. }
  cbn [app]. apply concat_omap. intros [[tp u] pl]. cbn [fst snd].
  rewrite by_topic_lookup, (contrib_plans _ _ _ _ c topic off) by done.
  case_decide as Hd; [|done]. destruct Hd as [-> _]. by destruct (mt_unpack _ pl).
Qed.

(** ** The tally *)

(** A divergence as [_diverge] builds it, with its key. *)
Definition entry (o : observation) (k : kind) (fld : option (Z * string * (json * json)))
    (det : details) : key * divergence :=
  ((ob_ns o, ob_index o, match fld with Some (i, _, _) => i | None => -1 end),
   mk_divergence k (cc_name (ob_channel o)) (cc_reference_channel (ob_channel o))
    ((λ x, x.1.2) <$> fld) (ob_ns o) (ob_actual o).*1 (ob_reference o).*1
    (match fld with Some (_, f, (a, _)) => [[(f, a)]] | None => values_of (ob_actual o) (ob_rules o) end)
    (match fld with Some (_, f, (_, e)) => [[(f, e)]] | None => values_of (ob_reference o) (ob_rules o) end)
    det).

Definition add_all (ty : tally) (log : list (key * divergence)) : tally :=
  fold_left (λ ty e, add ty e.1 e.2) log ty.

Lemma add_all_app ty l1 l2 : add_all ty (l1 ++ l2) = add_all (add_all ty l1) l2.
Proof. apply fold_left_app. Qed.

(** The divergences of one side, of the fields, and of one observation, in the
    order the code adds them. *)
Definition side_log (o : observation) (side : string) (ms : list sample)
    : list (key * divergence) :=
  match ms with
  | [] => [entry o (KMissing side) None no_details]
  | [_] => []
  | _ => [entry o (KAmbiguous side) None no_details]
  end.

Fixpoint field_log (o : observation) (a e : values) (i : Z) (rules : list (string * rule))
    : list (key * divergence) :=
  match rules with
  | [] => []
  | (f, r) :: rules =>
      match judge_field (value_at a f) (value_at e f) r with
      | None => []
      | Some (k, det) =>
          [entry o k (Some (i, f, (json_value (value_at a f), json_value (value_at e f)))) det]
      end ++ field_log o a e (i + 1) rules
  end.

Definition observation_log (o : observation) : list (key * divergence) :=
  side_log o "actual" (ob_actual o) ++ side_log o "reference" (ob_reference o)
  ++ match ob_actual o, ob_reference o with
     | [(_, a)], [(_, e)] => field_log o a e 0 (ob_rules o)
     | _, _ => []
     end.

Lemma compare_fields_tally o a e i rules c ty :
  (compare_fields o a e i rules (c, ty)).2.2 = add_all ty (field_log o a e i rules)
  ∧ ((compare_fields o a e i rules (c, ty)).1 = false ↔ field_log o a e i rules = []).
Proof.
  revert i c ty. induction rules as [|[f r] rules IH]; intros i c ty; [done|].
  cbn [compare_fields field_log].
  destruct (judge_field _ _ _) as [[k det]|]; [|apply IH].
  cbn [fst snd app]. split; [|done].
  etransitivity; [apply IH|]. done.
Qed.

Lemma present_tally o c ty :
  (present_reference o (present_actual o (c, ty))).2
  = add_all ty (side_log o "actual" (ob_actual o)
                ++ side_log o "reference" (ob_reference o)).
Proof.
  unfold present_reference, present_actual, side_log.
  destruct (ob_actual o) as [|? [|]], (ob_reference o) as [|? [|]]; done.
Qed.

Lemma compare_observation_tally c ty o :
  (compare_observation (c, ty) o).2 = add_all ty (observation_log o).
Proof.
  unfold compare_observation, present, observation_log.
  pose proof (present_tally o c ty) as Hp. rewrite app_assoc, add_all_app, <- Hp.
  destruct (present_reference o (present_actual o (c, ty))) as [c' ty'] eqn:Hpr.
  cbn [snd] in *.
  destruct (ob_actual o) as [|[ta a] [|]], (ob_reference o) as [|[tr e] [|]];
    try (case_bool_decide as Hb; [cbn in Hb; lia|]); try done.
  cbn [length]. rewrite bool_decide_eq_true_2 by done.
  pose proof (compare_fields_tally o a e 0 (ob_rules o) c' ty') as [Ht _].
  destruct (compare_fields o a e 0 (ob_rules o) (c', ty')) as [fl [c1 ty1]]. exact Ht.
Qed.

Lemma compare_channel_tally c index am rm cnt ty :
  (compare_channel c index am rm (cnt, ty)).2
  = add_all ty (concat ((λ t, observation_log (observation_at c index am rm t))
                        <$> cc_times_ns c)).
Proof.
  unfold compare_channel. revert cnt ty.
  induction (cc_times_ns c) as [|t ts IH]; intros cnt ty; [done|].
  cbn [fold_left]. rewrite fmap_cons. cbn [concat]. rewrite add_all_app.
  rewrite <- (compare_observation_tally cnt ty).
  destruct (compare_observation _ _) as [cnt' ty']. apply IH.
Qed.

(** The divergences of the whole comparison. *)
Definition channel_log (as_ rs : schemas) (am rm : observed) (ic : nat * channel_contract)
    : list (key * divergence) :=
  if bool_decide (channel_coverage as_ rs ic.2 = [])
  then concat ((λ t, observation_log (observation_at ic.2 ic.1 am rm t)) <$> cc_times_ns ic.2)
  else [].

Lemma compare_all_tally as_ rs am rm chans ty l :
  (fold_left (compare_one as_ rs am rm) l (chans, ty)).2
  = add_all ty (concat (channel_log as_ rs am rm <$> l)).
Proof.
  revert chans ty. induction l as [|[i c] l IH]; intros chans ty; [done|].
  cbn [fold_left compare_one]. rewrite fmap_cons. cbn [concat]. rewrite add_all_app.
  unfold channel_log at 1. cbn [fst snd]. case_bool_decide.
  - rewrite <- (compare_channel_tally c i am rm (init_counts c) ty).
    destruct (compare_channel _ _ _ _ _) as [cnt ty']. apply IH.
  - apply IH.
Qed.

Definition key_le (a b : key) : Prop := key_lt b a = false.

Lemma key_lt_iff a b :
  key_lt a b = true ↔ a.1.1 < b.1.1 ∨ a.1.1 = b.1.1 ∧ (a.1.2 < b.1.2 ∨ a.1.2 = b.1.2 ∧ a.2 < b.2).
Proof.
  destruct a as [[a1 a2] a3], b as [[b1 b2] b3]. unfold key_lt. cbn.
  rewrite !orb_true_iff, !andb_true_iff, !orb_true_iff, !andb_true_iff.
  rewrite !Z.ltb_lt, !Z.eqb_eq. done.
Qed.

Lemma key_le_iff a b :
  key_le a b ↔ a.1.1 < b.1.1 ∨ a.1.1 = b.1.1 ∧ (a.1.2 < b.1.2 ∨ a.1.2 = b.1.2 ∧ a.2 ≤ b.2).
Proof.
  unfold key_le. pose proof (key_lt_iff b a). destruct (key_lt b a); intuition lia.
Qed.

(** The tally counts every divergence and keeps one of least key. *)
Lemma add_all_spec log :
  let ty := add_all new_tally log in
  ty_count ty = zlen log
  ∧ match ty_first ty, ty_key ty with
    | Some d, Some k => (k, d) ∈ log ∧ ∀ e, e ∈ log → key_le k e.1
    | None, None => log = []
    | _, _ => False
    end.
Proof.
  cbn zeta. induction log as [|[k d] log IH] using rev_ind; [done|].
  rewrite add_all_app. cbn [add_all fold_left]. unfold add at 1 2 3.
  destruct IH as [Hc IH]. rewrite zlen_app. cbn [fst snd].
  destruct (add_all new_tally log) as [n [d'|] [k'|]]; cbn in *; try done.
  - destruct IH as [Hin Hle]. destruct (key_lt k k') eqn:Hlt; cbn; (split; [unfold zlen in *; cbn; lia|]).
    + split; [set_solver|]. intros e [He| ->%list_elem_of_singleton]%elem_of_app.
      * apply key_lt_iff in Hlt. specialize (Hle e He). rewrite key_le_iff in Hle |- *. lia.
      * apply key_le_iff. cbn. lia.
    + split; [set_solver|]. intros e [He| ->%list_elem_of_singleton]%elem_of_app; [by apply Hle|].
      done.
  - subst log. split; [unfold zlen in *; cbn in *; lia|]. split; [set_solver|].
    intros e ->%list_elem_of_singleton. apply key_le_iff. cbn. lia.
Qed.

(** ** What a passing comparison means *)

(** One pair of numbers under a rule. *)
Definition num_agrees (x y : pynum) (r : rule) : Prop :=
  match r with
  | RTol t => num_finite x = true ∧ num_finite y = true
      ∧ SFleb (SFabs (f64sub (to_sf (float_bits x)) (to_sf (float_bits y))))
          (allowed t (float_bits y)) = true
  | _ => num_eq x y = true
  end.

(** Every element of a field agrees with the reference element. *)
Definition field_agrees (a e : value) (r : rule) : Prop :=
  ∀ i x y, elements a !! i = Some x → elements e !! i = Some y → num_agrees x y r.

Lemma judge_None x y r : judge x y r = None ↔ num_agrees x y r.
Proof.
  unfold judge, num_agrees.
  destruct r as [| |t]; [by destruct (num_eq x y)..|].
  destruct (num_finite x), (num_finite y); cbn [andb negb];
    try (split; [done|]; by intros (? & ? & ?)).
  destruct (SFleb _ _); split; try done. by intros (? & ? & ?).
Qed.

Lemma judge_elements_None k a e r :
  judge_elements k a e r = None
  ↔ ∀ i x y, a !! i = Some x → e !! i = Some y → num_agrees x y r.
Proof.
  revert k e. induction a as [|x a IH]; intros k e; cbn [judge_elements].
  - split; [|done]. intros _ i x y Hx. by rewrite lookup_nil in Hx.
  - destruct e as [|y e]; [split; [|done]; intros _ i ? ? _ Hy; by rewrite lookup_nil in Hy|].
    destruct (judge x y r) as [[kd det]|] eqn:Hj.
    + split; [done|]. intros H. specialize (H 0%nat x y eq_refl eq_refl).
      apply judge_None in H. congruence.
    + rewrite IH. apply judge_None in Hj. split.
      * intros H [|i] x' y'; cbn; [naive_solver|]. apply H.
      * intros H i. apply (H (S i)).
Qed.

Lemma judge_field_None a e r : judge_field a e r = None ↔ field_agrees a e r.
Proof.
  unfold judge_field, field_agrees. destruct a as [x|bs|l]; [|apply judge_elements_None..].
  destruct e as [y|bs|l]; [|apply judge_elements_None..].
  rewrite judge_None. split.
  - intros H [|i] x' y'; cbn; [naive_solver|]. by destruct i.
  - intros H. by apply (H 0%nat).
Qed.

(** Both sides hold exactly one Message and every compared field agrees. *)
Definition observation_agrees (rules : list (string * rule)) (actual reference : list sample)
    : Prop :=
  ∃ ta a tr e, actual = [(ta, a)] ∧ reference = [(tr, e)]
    ∧ ∀ f r, (f, r) ∈ rules → field_agrees (value_at a f) (value_at e f) r.

Lemma field_log_nil o a e i rules :
  field_log o a e i rules = []
  ↔ ∀ f r, (f, r) ∈ rules → field_agrees (value_at a f) (value_at e f) r.
Proof.
  revert i. induction rules as [|[f r] rules IH]; intros i; cbn; [set_solver|].
  destruct (judge_field _ _ _) as [[k det]|] eqn:Hj.
  - split; [done|]. intros H. specialize (H f r ltac:(left)).
    apply judge_field_None in H. congruence.
  - cbn. rewrite IH. apply judge_field_None in Hj. split.
    + intros H f' r' [[= -> ->]|Hin]%elem_of_cons; [done|]. by apply H.
    + intros H f' r' Hin. apply H. by right.
Qed.

Lemma observation_log_nil o :
  observation_log o = []
  ↔ observation_agrees (ob_rules o) (ob_actual o) (ob_reference o).
Proof.
  unfold observation_log, observation_agrees, side_log.
  destruct (ob_actual o) as [|[ta a] [|]], (ob_reference o) as [|[tr e] [|]];
    cbn; try (split; [done|]; naive_solver).
  rewrite field_log_nil. split; [by eauto 10|].
  intros (? & ? & ? & ? & [= <- <-] & [= <- <-] & H). done.
Qed.

Lemma observation_log_key o e :
  e ∈ observation_log o → e.1.1 = (ob_ns o, ob_index o) ∧ dv_observation_ns e.2 = ob_ns o
  ∧ dv_channel e.2 = cc_name (ob_channel o).
Proof.
  assert (∀ a v i rules, e ∈ field_log o a v i rules →
    e.1.1 = (ob_ns o, ob_index o) ∧ dv_observation_ns e.2 = ob_ns o
    ∧ dv_channel e.2 = cc_name (ob_channel o)) as Hf.
  { intros a v i rules. revert i. induction rules as [|[f r] rules IH]; intros i; cbn; [set_solver|].
    rewrite elem_of_app. intros [He|He]; [|by eapply IH].
    destruct (judge_field _ _ _) as [[k det]|]; [|set_solver].
    apply list_elem_of_singleton in He as ->. done. }
  assert (∀ side ms, e ∈ side_log o side ms →
    e.1.1 = (ob_ns o, ob_index o) ∧ dv_observation_ns e.2 = ob_ns o
    ∧ dv_channel e.2 = cc_name (ob_channel o)) as Hs.
  { intros side ms He. unfold side_log in He. repeat case_match; try set_solver;
      apply list_elem_of_singleton in He as ->; done. }
  unfold observation_log. rewrite !elem_of_app. intros [He|[He|He]]; eauto.
  repeat case_match; try set_solver.
Qed.

Lemma concat_nil {A} (ls : list (list A)) : concat ls = [] ↔ ∀ l, l ∈ ls → l = [].
Proof. induction ls as [|l ls IH]; cbn; [set_solver|]. rewrite app_nil, IH. set_solver. Qed.

Section verdicts.
Context (ct : contract) (actual reference : recording) (as_ rs : schemas).
Context (Hnames : NoDup (cc_name <$> ct_channels ct)).
Context (Has : read_schemas (rv_channels actual) = Ok as_).
Context (Hrs : read_schemas (rv_channels reference) = Ok rs).

(** Channel [c] agrees with its reference at observation time [t]. *)
Definition agrees (c : channel_contract) (t : Z) : Prop :=
  observation_agrees (compared c)
    (held (default [] (dget as_ (cc_name c))) (cc_name c) (cc_actual_offset_ns c)
       (rv_read actual no_filter).1 t)
    (held (default [] (dget rs (cc_reference_channel c))) (cc_reference_channel c)
       (cc_reference_offset_ns c) (rv_read reference no_filter).1 t).

Definition usable (c : channel_contract) : Prop := channel_coverage as_ rs c = [].

Lemma plans_names (P : channel_contract → Prop) `{!∀ c, Decision (P c)} (f : channel_contract → string * Z) :
  NoDup ((λ p : plan_entry, cc_name p.1.1) <$>
         ((λ c, (c, (f c).1, (f c).2)) <$> filter P (ct_channels ct))).
Proof using Hnames.
  rewrite <- list_fmap_compose. unfold compose. cbn [fst].
  revert Hnames. generalize (ct_channels ct). induction l as [|c l IH]; [constructor|].
  rewrite fmap_cons, NoDup_cons. intros [Hni Hnd]. rewrite filter_cons.
  case_decide; [|by apply IH]. rewrite fmap_cons. constructor; [|by apply IH].
  intros (c' & Hc' & Hin)%list_elem_of_fmap. apply Hni.
  apply list_elem_of_filter in Hin as [_ Hin]. rewrite Hc'. by apply list_elem_of_fmap_2.
Qed.

(** A report is the tally of the divergences of every usable Channel. *)
Lemma compare_facts r :
  compare ct actual reference = Ok r →
  ∃ am rm, let log := concat (channel_log as_ rs am rm <$> enumerate (ct_channels ct)) in
    rp_coverage r = concat (channel_coverage as_ rs <$> ct_channels ct)
    ∧ rp_divergences r = ty_count (add_all new_tally log)
    ∧ rp_first r = ty_first (add_all new_tally log)
    ∧ rp_verdict r = (if bool_decide (rp_coverage r = []) && (rp_divergences r =? 0)
                      then PASS else FAIL)
    ∧ ∀ i c t, c ∈ ct_channels ct → usable c → t ∈ cc_times_ns c →
        (observation_log (observation_at c i am rm t) = [] ↔ agrees c t).
Proof using Hnames Has Hrs.
  unfold compare. rewrite Has, Hrs. cbn [mbind result_bind].
  intros (am & Ham & (rm & Hrm & H)%bind_Ok)%bind_Ok. exists am, rm.
  pose proof (compare_all_tally as_ rs am rm [] new_tally (enumerate (ct_channels ct))) as Ht.
  destruct (fold_left (compare_one as_ rs am rm) (enumerate (ct_channels ct)) ([], new_tally))
    as [chans ty]. injection H as <-. cbn [snd] in Ht. cbn zeta. rewrite <- Ht.
  split_and!; try done. intros i c t Hc Hu Hin. rewrite observation_log_nil.
  unfold agrees, observation_at. cbn [ob_rules ob_channel ob_actual ob_reference].
  assert (c ∈ filter (λ c, channel_coverage as_ rs c = []) (ct_channels ct)) as Hf
    by (by apply list_elem_of_filter).
  rewrite (messages_samples as_ _ _ am c (cc_name c) (cc_actual_offset_ns c) t Ham
    (plans_names _ (λ c, (cc_name c, cc_actual_offset_ns c)))
    ltac:(by apply list_elem_of_fmap; exists c) Hin).
  rewrite (messages_samples rs _ _ rm c (cc_reference_channel c)
    (cc_reference_offset_ns c) t Hrm
    (plans_names _ (λ c, (cc_reference_channel c, cc_reference_offset_ns c)))
    ltac:(by apply list_elem_of_fmap; exists c) Hin). done.
Qed.

Lemma elem_of_log am rm e :
  e ∈ concat (channel_log as_ rs am rm <$> enumerate (ct_channels ct)) ↔
  ∃ i c t, ct_channels ct !! i = Some c ∧ usable c ∧ t ∈ cc_times_ns c
    ∧ e ∈ observation_log (observation_at c i am rm t).
Proof using Type.
  rewrite list_elem_of_In, in_concat. split.
  - intros (l & (x & -> & Hx)%list_elem_of_In%list_elem_of_fmap & He%list_elem_of_In).
    apply list_elem_of_lookup in Hx as [k Hk]. unfold enumerate in Hk.
    rewrite enumerate_from_lookup in Hk.
    destruct (ct_channels ct !! k) as [c|] eqn:Hc; [|done]. injection Hk as <-.
    unfold channel_log in He. cbn [fst snd] in He. case_bool_decide; [|by apply elem_of_nil in He].
    apply list_elem_of_In, in_concat in He as (l & Hl%list_elem_of_In & He%list_elem_of_In).
    apply list_elem_of_fmap in Hl as (t & -> & Ht). by exists k, c, t.
  - intros (i & c & t & Hi & Hu & Ht & He). exists (channel_log as_ rs am rm (i, c)). split.
    + apply list_elem_of_In, list_elem_of_fmap. exists (i, c). split; [done|].
      apply list_elem_of_lookup. exists i. unfold enumerate.
      by rewrite enumerate_from_lookup, Hi.
    + apply list_elem_of_In. unfold channel_log. cbn [fst snd].
      rewrite bool_decide_eq_true_2 by done.
      apply list_elem_of_In, in_concat. eexists. split; [|by apply list_elem_of_In].
      apply list_elem_of_In, list_elem_of_fmap. by exists t.
Qed.

Lemma verdict_facts r :
  compare ct actual reference = Ok r →
  (rp_verdict r = PASS ↔
     ∀ c, c ∈ ct_channels ct → usable c ∧ ∀ t, t ∈ cc_times_ns c → agrees c t).
Proof using Hnames Has Hrs.
  intros (am & rm & Hcov & Hdiv & Hfst & Hv & Hag)%compare_facts. rewrite Hv.
  destruct (add_all_spec (concat (channel_log as_ rs am rm <$> enumerate (ct_channels ct))))
    as [Hn _]. rewrite Hdiv, Hn. unfold usable in *.
  assert ((rp_coverage r = []) ↔ ∀ c, c ∈ ct_channels ct → channel_coverage as_ rs c = []) as Hc.
  { rewrite Hcov, concat_nil. setoid_rewrite list_elem_of_fmap. naive_solver. }
  split.
  - destruct (bool_decide (rp_coverage r = [])) eqn:Hb; [|done].
    apply bool_decide_eq_true in Hb. destruct (Z.eqb_spec (zlen (concat
      (channel_log as_ rs am rm <$> enumerate (ct_channels ct)))) 0) as [Hz|]; [|done].
    intros _ c Hin. split; [by apply Hc|]. intros t Ht.
    apply list_elem_of_lookup in Hin as [i Hi].
    assert (Hci : c ∈ ct_channels ct) by (by eapply list_elem_of_lookup_2).
    apply (Hag i); [done|by apply Hc|done|].
    destruct (observation_log _) as [|e l] eqn:Ho; [done|exfalso].
    assert (e ∈ concat (channel_log as_ rs am rm <$> enumerate (ct_channels ct))) as He.
    { apply elem_of_log. exists i, c, t. rewrite Ho. split_and!; [done|by apply Hc|done|left]. }
    revert He Hz. generalize (concat (channel_log as_ rs am rm <$> enumerate (ct_channels ct))).
    intros [|x l'] He Hz; [by apply elem_of_nil in He|]. unfold zlen in Hz. cbn in Hz. lia.
  - intros H. rewrite bool_decide_eq_true_2 by (apply Hc; naive_solver). cbn [andb].
    destruct (concat (channel_log as_ rs am rm <$> enumerate (ct_channels ct))) as [|e l] eqn:He;
      [done|exfalso].
    assert (e ∈ concat (channel_log as_ rs am rm <$> enumerate (ct_channels ct))) as Hin
      by (rewrite He; left).
    apply elem_of_log in Hin as (i & c & t & Hi & Hu & Ht & Hin).
    assert (Hci : c ∈ ct_channels ct) by (by eapply list_elem_of_lookup_2).
    destruct (H c Hci) as [_ Hall]. apply Hall in Ht as Ha.
    apply (Hag i c t Hci Hu Ht) in Ha. rewrite Ha in Hin. by apply elem_of_nil in Hin.
Qed.
End verdicts.

(** ** The comparison of readable Recordings completes *)

(** Every Message of a Channel with a schema has the schema's size. *)
Definition sized (ss : schemas) (records : list message) : Prop :=
  Forall (λ m : message, ∀ fs, dget ss m.1.1 = Some fs → length m.2 = mt_size fs) records.

Lemma foldE_total {E S A} (f : S → A → result E S) s l :
  (∀ s a, a ∈ l → ∃ s', f s a = Ok s') → ∃ s', foldE f s l = Ok s'.
Proof.
  revert s. induction l as [|a l IH]; intros s Hf; cbn; [by eexists|].
  destruct (Hf s a) as [s1 ->]; [left|]. cbn. apply IH. intros. apply Hf. by right.
Qed.

Lemma messages_total ss records plans :
  records.2 = None → sized ss records.1 →
  (∀ p : plan_entry, p ∈ plans → is_Some (dget ss p.1.2)) →
  ∃ ms, messages ss records plans = Ok ms.
Proof.
  intros Hr Hs Hp. unfold messages. rewrite Hr.
  edestruct (foldE_total (see_record ss (by_topic plans))) as [ms Hms];
    [|rewrite Hms; cbn; by eexists].
  intros ms [[topic t] payload] Hm. apply foldE_total. intros ms1 [[n off] ts] Hw.
  rewrite by_topic_lookup in Hw. apply list_elem_of_fmap in Hw as (p & _ & Hpf).
  apply list_elem_of_filter in Hpf as [Hpt Hpi]. destruct (Hp p Hpi) as [fs Hfs].
  rewrite Hpt in Hfs. pose proof (proj1 (Forall_forall _ _) Hs _ Hm fs Hfs) as Hl. cbn in Hl.
  unfold see_watch. rewrite Hfs. cbn. unfold id. case_decide; [|by eexists].
  destruct (proj2 (mt_unpack_size fs payload) Hl) as [v ->]. by eexists.
Qed.

Lemma coverage_schemas as_ rs c :
  channel_coverage as_ rs c = [] →
  is_Some (dget as_ (cc_name c)) ∧ is_Some (dget rs (cc_reference_channel c)).
Proof.
  unfold channel_coverage, coverage.
  destruct (dget as_ (cc_name c)), (dget rs (cc_reference_channel c)); naive_solver.
Qed.

Lemma compare_total ct actual reference as_ rs :
  read_schemas (rv_channels actual) = Ok as_ →
  read_schemas (rv_channels reference) = Ok rs →
  (rv_read actual no_filter).2 = None → (rv_read reference no_filter).2 = None →
  sized as_ (rv_read actual no_filter).1 → sized rs (rv_read reference no_filter).1 →
  ∃ r, compare ct actual reference = Ok r.
Proof.
  intros Has Hrs Ha Hr Hsa Hsr. unfold compare. rewrite Has, Hrs. cbn [mbind result_bind].
  destruct (messages_total as_ (rv_read actual no_filter) ((λ c, (c, cc_name c, cc_actual_offset_ns c))
    <$> filter (λ c, channel_coverage as_ rs c = []) (ct_channels ct))) as [am ->]; [done|done| |].
  { intros p (c & -> & [Hc _]%list_elem_of_filter)%list_elem_of_fmap. cbn.
    by apply coverage_schemas in Hc as [? _]. }
  destruct (messages_total rs (rv_read reference no_filter)
    ((λ c, (c, cc_reference_channel c, cc_reference_offset_ns c))
    <$> filter (λ c, channel_coverage as_ rs c = []) (ct_channels ct))) as [rm Hrm]; [done|done| |].
  { intros p (c & -> & [Hc _]%list_elem_of_filter)%list_elem_of_fmap. cbn.
    by apply coverage_schemas in Hc as [_ ?]. }
  cbn [mbind result_bind]. rewrite Hrm. cbn [mbind result_bind].
  destruct (fold_left _ _ _). by eexists.
Qed.

(** ** What [read_contract] accepts *)

Lemma ascending_sorted l : ascending l = true → StronglySorted Z.lt l.
Proof.
  intros H. apply Sorted_StronglySorted; [intros ???; lia|].
  induction l as [|a [|b l] IH]; [constructor|by repeat constructor|].
  cbn in H. apply andb_true_iff in H as [Hab Hl]. constructor; [by apply IH|].
  constructor. by apply Z.ltb_lt.
Qed.

Lemma py_range_sorted start stop step : 0 < step → StronglySorted Z.lt (py_range start stop step).
Proof.
  intros Hs. unfold py_range. generalize ((stop - start + step - 1) / step). intros n.
  assert (∀ k m, StronglySorted Z.lt ((λ i, start + i * step) <$> seqZ k (Z.of_nat m))) as H.
  { intros k m. revert k. induction m as [|m IH]; intros k; [constructor|].
    rewrite seqZ_cons by lia. rewrite fmap_cons. replace (Z.pred (Z.of_nat (S m))) with (Z.of_nat m) by lia.
    constructor; [apply IH|]. apply Forall_fmap, Forall_forall.
    intros i (Hi & _)%elem_of_seqZ. cbn. nia. }
  destruct (Z_le_gt_dec 0 n).
  - rewrite <- (Z2Nat.id n) by done. apply H.
  - rewrite seqZ_nil by lia. constructor.
Qed.

Lemma times_sorted spec name ts : times spec name = Ok ts → StronglySorted Z.lt ts.
Proof.
  unfold times. destruct spec; try done. case_match.
  - destruct (item d "times_ns") as [| | | | |[|v vs]|]; try done. intros. inv_ok.
    apply ascending_sorted. by apply negb_false_iff.
  - case_match; [|done]. intros. inv_ok. apply py_range_sorted. lia.
Qed.

Lemma filter_sorted (P : Z → Prop) `{!∀ x, Decision (P x)} l :
  StronglySorted Z.lt l → StronglySorted Z.lt (filter P l).
Proof.
  induction 1 as [|x l Hl IH Hx]; [constructor|]. rewrite filter_cons. case_decide; [|done].
  constructor; [done|]. apply Forall_forall. intros y [_ Hy]%list_elem_of_filter.
  by apply (proj1 (Forall_forall _ _) Hx).
Qed.

(** A tolerance bound that [_bound] accepts: finite, and not below zero. *)
Definition bound_ok (b : Z) : Prop :=
  is_finite64 b = true ∧ num_lt (PFloat b) (PInt 0) = false.

Definition rule_ok (r : rule) : Prop :=
  match r with RTol t => bound_ok (tol_atol t) ∧ bound_ok (tol_rtol t) | _ => True end.

(** What a contract states, once read. *)
Definition channel_ok (from_ns to_ns : Z) (c : channel_contract) : Prop :=
  cc_times_ns c ≠ [] ∧ StronglySorted Z.lt (cc_times_ns c)
  ∧ Forall (λ t, from_ns ≤ t ≤ to_ns) (cc_times_ns c)
  ∧ NoDup (cc_rules c).*1 ∧ Forall (λ fr, rule_ok fr.2) (cc_rules c).

Definition contract_ok (ct : contract) : Prop :=
  ct_from_ns ct ≤ ct_to_ns ct ∧ ct_channels ct ≠ []
  ∧ NoDup (cc_name <$> ct_channels ct)
  ∧ Forall (channel_ok (ct_from_ns ct) (ct_to_ns ct)) (ct_channels ct).

Lemma bound_spec v at_ key b : bound v at_ key = Ok b → bound_ok b.
Proof.
  unfold bound, bound_ok. destruct v; try done.
  - destruct (float_of_int z) as [b'|] eqn:Hf; [|done]. destruct (Z.ltb_spec z 0); [done|].
    intros [= <-]. by eapply float_of_int_nonneg.
  - destruct (is_finite64 b0) eqn:Hf, (num_lt (PFloat b0) (PInt 0)) eqn:Hl; mcbn; try done.
    by intros [= <-].
Qed.

Lemma parse_rule_ok v at_ r : parse_rule v at_ = Ok r → rule_ok r.
Proof.
  unfold parse_rule. case_decide; [by intros [= <-]|]. case_decide; [by intros [= <-]|].
  destruct v; try done. intros (d' & _ & (a & Ha & (b & Hb & [= <-])%bind_Ok)%bind_Ok)%bind_Ok.
  split; by eapply bound_spec.
Qed.

(** *** Keys are unique *)

Lemma filter_count_NoDup (l : list string) :
  (∀ k, k ∈ l → (length (filter (λ x, x = k) l) ≤ 1)%nat) → NoDup l.
Proof.
  induction l as [|x l IH]; intros H; [constructor|]. constructor.
  - intros Hx. specialize (H x ltac:(left)). rewrite filter_cons_True in H by done. cbn in H.
    assert (x ∈ filter (λ y, y = x) l) as Hin by (by apply list_elem_of_filter).
    destruct (filter _ l); [set_solver|cbn in H; lia].
  - apply IH. intros k Hk. specialize (H k ltac:(by right)). rewrite filter_cons in H.
    case_decide; cbn in H; lia.
Qed.

Lemma first_repeated_None keys all :
  first_repeated keys all = None → ∀ k, k ∈ keys → (length (filter (λ x, x = k) all) ≤ 1)%nat.
Proof.
  induction keys as [|k keys IH]; cbn; [set_solver|]. case_bool_decide; [done|].
  intros Hn k' [->|Hk]%elem_of_cons; [lia|by apply IH].
Qed.

Lemma unique_keys_Ok d j : unique_keys d = Ok j → j = JObj d ∧ NoDup d.*1.
Proof.
  unfold unique_keys. destruct (first_repeated _ _) eqn:Hf; [done|]. intros [= <-].
  split; [done|]. apply filter_count_NoDup. intros k Hk. by eapply first_repeated_None.
Qed.

Lemma object_Ok v at_ req opt d : object v at_ req opt = Ok d → v = JObj d.
Proof.
  destruct v; try done. cbn. intros (u & _ & H)%bind_Ok. destruct (sorted_strings _); [|done].
  by injection H as <-.
Qed.

Lemma item_wf d k : json_wf (JObj d) = true → json_wf (item d k) = true.
Proof.
  cbn [json_wf]. intros [_ Hd]%andb_true_iff. unfold item.
  destruct (dget d k) as [v|] eqn:Hv; [|done]. cbn. apply dget_Some in Hv.
  rewrite forallb_forall in Hd. apply (Hd (k, v)). by apply list_elem_of_In.
Qed.

Lemma obj_keys d : json_wf (JObj d) = true → NoDup d.*1.
Proof. cbn. intros [H _]%andb_true_iff. by apply bool_decide_eq_true in H. Qed.

Lemma parse_channel_ok name spec f t c :
  json_wf spec = true → parse_channel name spec f t = Ok c → cc_name c = name ∧ channel_ok f t c.
Proof.
  intros Hwf H. unfold parse_channel in H. inv_ok. rename Hok into Ho. apply object_Ok in Ho as ->.
  apply bool_decide_eq_false in Hok2.
  destruct (item a "fields") eqn:Hfi; try done. injection Hok3 as <-.
  pose proof (item_wf a "fields" Hwf) as Hfw. rewrite Hfi in Hfw.
  apply mapE_Ok in Hok6. split; [done|]. split_and!; cbn [cc_times_ns cc_rules].
  - done.
  - apply filter_sorted. by eapply times_sorted.
  - apply Forall_forall. by intros x [? _]%list_elem_of_filter.
  - assert (a6.*1 = d.*1) as ->; [|by apply obj_keys].
    clear -Hok6. induction Hok6 as [|[k v] y l l' H _ IH]; [done|].
    apply bind_Ok in H as (r & _ & [= <-]). cbn. by f_equal.
  - clear -Hok6. induction Hok6 as [|[k v] y l l' H _ IH]; constructor; [|done].
    apply bind_Ok in H as (r & Hr & [= <-]). by eapply parse_rule_ok.
Qed.

Lemma read_contract_ok loads sha data ct :
  read_contract loads sha data = Ok ct → contract_ok ct.
Proof.
  intros H. unfold read_contract in H. inv_ok.
  destruct (loads data) as [raw|]; [|done]. injection Hok as ->.
  apply (pairs_hook_wf _ unique_keys_Ok) in Hok0 as [-> Hwf]. apply object_Ok in Hok1 as ->.
  destruct (item a1 "channels") as [| | | | | |[|c cs]] eqn:Hch; try done. injection Hok7 as <-.
  pose proof (item_wf a1 "channels" Hwf) as Hcw. rewrite Hch in Hcw.
  pose proof (obj_keys _ Hcw) as Hnd. cbn [json_wf] in Hcw.
  apply andb_true_iff in Hcw as [_ Hcw]. apply mapE_Ok in Hok8.
  assert (cc_name <$> a8 = (c :: cs).*1 ∧ Forall (channel_ok a4 a5) a8) as [Hn Hf].
  { clear Hnd Hch. revert Hcw Hok8. generalize (c :: cs). intros l Hcw H8.
    induction H8 as [|[k v] y l l' H _ IH]; [done|]. cbn in Hcw.
    apply andb_true_iff in Hcw as [Hv Hl]. apply parse_channel_ok in H as [Hk Hy]; [|done].
    destruct (IH Hl) as [IH1 IH2]. split; [cbn; by rewrite Hk, IH1|by constructor]. }
  split_and!; cbn [ct_from_ns ct_to_ns ct_channels]; [lia| |by rewrite Hn|done].
  intros ->. by inversion Hok8.
Qed.

(** ** Equal values pass *)

Lemma float_bits_finite x : num_finite x = true → is_finite64 (float_bits x) = true.
Proof.
  destruct x as [z|b]; [|done]. intros _. cbn. unfold float_of_int.
  destruct (round_ieee 52 11 _ _ 0) as [b|] eqn:Hb; [|done].
  apply round_ieee_finite in Hb as [Hb _]; [|lia..]. cbn. unfold is_finite64. by rewrite Hb.
Qed.

Lemma allowed_nonneg t b :
  rule_ok (RTol t) → is_finite64 b = true → sf_nonneg (allowed t b) = true.
Proof.
  intros [[Ha1 Ha2] [Hr1 Hr2]] Hb. unfold allowed.
  apply SFadd_nonneg; [by apply to_sf_finite|by apply to_sf_nonneg|].
  apply to_sf_finite in Hb.
  apply SFmul_nonneg; [by apply to_sf_finite|by apply to_sf_nonneg|..];
    by destruct (to_sf b).
Qed.

Lemma num_agrees_refl x r : rule_ok r → num_finite x = true → num_agrees x x r.
Proof.
  intros Hr Hx. unfold num_agrees.
  assert (num_eq x x = true) as He.
  { apply num_finite_x in Hx as [z Hz]. unfold num_eq. rewrite Hz. apply Z.eqb_refl. }
  destruct r as [| |t]; [done|done|]. split_and!; [done..|].
  apply float_bits_finite in Hx. rewrite SFsub_self by (by apply to_sf_finite).
  apply SFleb_zero. by apply allowed_nonneg.
Qed.

(** ** Properties *)

(** What a contract states once it is read: a window that does not end
    before it starts, at least one Channel, each named once; per Channel a
    non-empty, strictly ascending list of observation times inside the window,
    one rule per field name, and tolerances that are finite and not negative.
    Whatever the document, nothing else is accepted. *)
Theorem read_contract_sound loads sha data :
  match read_contract loads sha data with Ok ct => contract_ok ct | Err _ => True end.
Proof. destruct (read_contract loads sha data) eqn:H; [|done]. by eapply read_contract_ok. Qed.

(** C17. The verdict: for readable Recordings the comparison completes, and it
    passes exactly when the contract covers every compared Channel and, at every
    observation time, both sides hold exactly one Message and every compared
    field agrees under its rule. *)
Theorem compare_verdict ct actual reference as_ rs :
  NoDup (cc_name <$> ct_channels ct) →
  read_schemas (rv_channels actual) = Ok as_ →
  read_schemas (rv_channels reference) = Ok rs →
  (rv_read actual no_filter).2 = None → (rv_read reference no_filter).2 = None →
  sized as_ (rv_read actual no_filter).1 → sized rs (rv_read reference no_filter).1 →
  ∃ r, compare ct actual reference = Ok r
    ∧ (rp_verdict r = PASS ↔
       ∀ c, c ∈ ct_channels ct → usable as_ rs c
         ∧ ∀ t, t ∈ cc_times_ns c → agrees actual reference as_ rs c t).
Proof.
  intros Hn Has Hrs Ha Hr Hsa Hsr.
  destruct (compare_total ct actual reference as_ rs) as [r Hc]; [done..|].
  exists r. split; [done|]. by apply verdict_facts.
Qed.

(** The first divergence is the first: it is one of the comparison's
    disagreements, and no covered Channel disagrees at an earlier observation
    time, nor, at the same time, a Channel listed earlier in the contract. *)
Theorem first_divergence_least ct actual reference as_ rs r d :
  NoDup (cc_name <$> ct_channels ct) →
  read_schemas (rv_channels actual) = Ok as_ →
  read_schemas (rv_channels reference) = Ok rs →
  compare ct actual reference = Ok r → rp_first r = Some d →
  ∃ i c, ct_channels ct !! i = Some c ∧ dv_channel d = cc_name c
    ∧ dv_observation_ns d ∈ cc_times_ns c
    ∧ ¬ agrees actual reference as_ rs c (dv_observation_ns d)
    ∧ ∀ j c' t, ct_channels ct !! j = Some c' → usable as_ rs c' → t ∈ cc_times_ns c' →
        ¬ agrees actual reference as_ rs c' t →
        dv_observation_ns d < t ∨ (dv_observation_ns d = t ∧ (i ≤ j)%nat).
Proof.
  intros Hn Has Hrs Hc Hd.
  destruct (compare_facts ct actual reference as_ rs Hn Has Hrs r Hc)
    as (am & rm & _ & _ & Hfst & _ & Hag).
  set (log := concat _) in *. destruct (add_all_spec log) as [_ Hs].
  rewrite <- Hfst, Hd in Hs. destruct (ty_key (add_all new_tally log)) as [k|]; [|done].
  destruct Hs as [Hin Hle].
  apply elem_of_log in Hin as (i & c & t & Hi & Hu & Ht & He).
  pose proof (observation_log_key _ _ He) as (Hk & Hobs & Hch). cbn in Hk, Hobs, Hch.
  assert (Hci := list_elem_of_lookup_2 _ _ _ Hi).
  exists i, c. rewrite Hobs. split_and!; try done.
  - rewrite <- (Hag i) by done. intros Hnil. rewrite Hnil in He. by apply elem_of_nil in He.
  - intros j c' t' Hj Hu' Ht' Hna. assert (Hcj := list_elem_of_lookup_2 _ _ _ Hj).
    rewrite <- (Hag j) in Hna by done.
    destruct (observation_log (observation_at c' j am rm t')) as [|e l] eqn:Ho; [done|].
    assert (e ∈ observation_log (observation_at c' j am rm t')) as He' by (rewrite Ho; left).
    assert (e ∈ log) as Hel by (apply elem_of_log; eauto 10).
    apply Hle, key_le_iff in Hel. apply observation_log_key in He' as (Hk' & _).
    rewrite Hk, Hk' in Hel. cbn in Hel. lia.
Qed.

(** A Recording agrees with itself: under a contract that covers it,
    compares each Channel with itself at one offset, and observes exactly one
    Message with finite numbers at each time, the comparison passes whatever the
    tolerances, zero included. *)
Theorem compare_self ct r ss :
  contract_ok ct → read_schemas (rv_channels r) = Ok ss →
  (rv_read r no_filter).2 = None → sized ss (rv_read r no_filter).1 →
  (∀ c, c ∈ ct_channels ct →
     cc_reference_channel c = cc_name c ∧ cc_reference_offset_ns c = cc_actual_offset_ns c
     ∧ usable ss ss c
     ∧ ∀ t, t ∈ cc_times_ns c → ∃ u v,
         held (default [] (dget ss (cc_name c))) (cc_name c) (cc_actual_offset_ns c)
           (rv_read r no_filter).1 t = [(u, v)]
         ∧ ∀ f rl, (f, rl) ∈ compared c →
             Forall (λ x, num_finite x = true) (elements (value_at v f))) →
  ∃ rep, compare ct r r = Ok rep ∧ rp_verdict rep = PASS.
Proof.
  intros (_ & _ & Hn & Hok) Hs Hr Hsz Hall.
  destruct (compare_total ct r r ss ss) as [rep Hc]; [done..|].
  exists rep. split; [done|]. apply (verdict_facts ct r r ss ss Hn Hs Hs rep Hc).
  intros c Hcin. destruct (Hall c Hcin) as (Hrc & Hro & Hu & Hobs). split; [done|].
  intros t Ht. destruct (Hobs t Ht) as (u & v & Hh & Hfin).
  unfold agrees, observation_agrees. rewrite Hrc, Hro, Hh.
  exists u, v, u, v. split_and!; [done..|]. intros f rl Hfr.
  pose proof (proj1 (Forall_forall _ _) Hok c Hcin) as (_ & _ & _ & _ & Hrules).
  pose proof (proj1 (list_elem_of_filter _ _ _) Hfr) as [_ Hfin'].
  pose proof (proj1 (Forall_forall _ _) Hrules _ Hfin') as Hrl. cbn in Hrl.
  intros i x y Hx Hy. rewrite Hx in Hy. injection Hy as <-.
  apply num_agrees_refl; [done|]. specialize (Hfin f rl Hfr).
  apply (proj1 (Forall_forall _ _) Hfin). by eapply list_elem_of_lookup_2.
Qed.

(** *** Concrete inputs *)

Definition demo_schema : json :=
  JObj [("fields"%string, JArr [JObj [("name"%string, JStr "x"); ("type"%string, JStr "f64")];
                                JObj [("name"%string, JStr "n"); ("type"%string, JStr "u8")]])].

(** 1.5 and 2.0 as binary64. *)
Definition f_1_5 : Z := 4609434218613702656.
Definition f_2_0 : Z := 4611686018427387904.
Definition demo_payload (x : Z) : bytes := le_bytes 8 x ++ [x07].

Definition demo_recording (x : Z) : recording :=
  mk_recording [] (Ok [mk_recorded "plant" "Plant" demo_schema]) (Ok [])
    (λ flt, (filter (λ m, matches_message flt m = true)
       [("plant"%string, 0, demo_payload f_1_5); ("plant"%string, 10, demo_payload x)], None)).

Definition demo_document : json :=
  JObj [("sil_comparison"%string, JInt 1);
        ("evaluation"%string, JObj [("from_ns"%string, JInt 0); ("to_ns"%string, JInt 100)]);
        ("channels"%string, JObj [("plant"%string, JObj
          [("actual_offset_ns"%string, JInt 5); ("reference_offset_ns"%string, JInt 5);
           ("observations"%string, JObj [("start_ns"%string, JInt (-5));
              ("stop_ns"%string, JInt 15); ("step_ns"%string, JInt 10)]);
           ("fields"%string, JObj [("x"%string,
              JObj [("atol"%string, JInt 0); ("rtol"%string, JInt 0)]);
              ("n"%string, JStr "exact")])])])].

Definition demo_channel : channel_contract :=
  mk_cc "plant" "plant" 5 5 [5; 15]
    [("x"%string, RTol (mk_tolerance 0 0)); ("n"%string, RExact)].
Definition demo_contract : contract := mk_contract "sha" 0 100 [demo_channel].

Example demo_reads :
  read_contract (λ _, Some demo_document) (λ _, "sha"%string) [] = Ok demo_contract.
Proof. vm_compute. reflexivity. Qed.

Definition demo_schemas : schemas :=
  [("plant"%string, [mk_field "x" F64 None; mk_field "n" U8 None])].

Lemma demo_sized x : sized demo_schemas (rv_read (demo_recording x) no_filter).1.
Proof.
  constructor; [|constructor; [|constructor]]; intros fs Hfs; injection Hfs as <-; reflexivity.
Qed.

(** Of two Channels named "plant", and of two fields named "x", the last counts. *)
Example demo_last_wins :
  (read_schemas (Ok [mk_recorded "plant" "Other" (JObj []); mk_recorded "plant" "Plant" demo_schema])
   = Ok demo_schemas)
  ∧ find_field [mk_field "x" U8 None; mk_field "n" U8 None; mk_field "x" F64 None] "x"
    = Some (mk_field "x" F64 None).
Proof. split; vm_compute; reflexivity. Qed.

Lemma compare_verdict_witness :
  ∃ r, compare demo_contract (demo_recording f_2_0) (demo_recording f_1_5) = Ok r
    ∧ (rp_verdict r = PASS ↔
       ∀ c, c ∈ ct_channels demo_contract → usable demo_schemas demo_schemas c
         ∧ ∀ t, t ∈ cc_times_ns c →
           agrees (demo_recording f_2_0) (demo_recording f_1_5) demo_schemas demo_schemas c t).
Proof.
  apply (compare_verdict demo_contract (demo_recording f_2_0) (demo_recording f_1_5)
           demo_schemas demo_schemas).
  - apply (bool_decide_unpack _). vm_compute. exact I.
  - reflexivity.
  - reflexivity.
  - reflexivity.
  - reflexivity.
  - apply demo_sized.
  - apply demo_sized.
Defined.

Definition result_of {E A} (d : A) (r : result E A) : A := match r with Ok a => a | Err _ => d end.
Definition demo_report : report :=
  Eval vm_compute in result_of (mk_report PASS [] [] 0 None)
    (compare demo_contract (demo_recording f_2_0) (demo_recording f_1_5)).
Definition demo_divergence : option divergence := Eval vm_compute in rp_first demo_report.

Lemma first_divergence_least_witness :
  ∃ d, demo_divergence = Some d ∧
  ∃ i c, ct_channels demo_contract !! i = Some c ∧ dv_channel d = cc_name c
    ∧ dv_observation_ns d ∈ cc_times_ns c
    ∧ ¬ agrees (demo_recording f_2_0) (demo_recording f_1_5) demo_schemas demo_schemas c
          (dv_observation_ns d)
    ∧ ∀ j c' t, ct_channels demo_contract !! j = Some c' →
        usable demo_schemas demo_schemas c' → t ∈ cc_times_ns c' →
        ¬ agrees (demo_recording f_2_0) (demo_recording f_1_5) demo_schemas demo_schemas c' t →
        dv_observation_ns d < t ∨ (dv_observation_ns d = t ∧ (i ≤ j)%nat).
Proof.
  eexists. split; [reflexivity|].
  apply (first_divergence_least demo_contract (demo_recording f_2_0) (demo_recording f_1_5)
           demo_schemas demo_schemas demo_report).
  - apply (bool_decide_unpack _). vm_compute. exact I.
  - reflexivity.
  - reflexivity.
  - vm_compute. reflexivity.
  - reflexivity.
Defined.

Lemma compare_self_witness :
  ∃ rep, compare demo_contract (demo_recording f_2_0) (demo_recording f_2_0) = Ok rep
         ∧ rp_verdict rep = PASS.
Proof.
  apply (compare_self demo_contract (demo_recording f_2_0) demo_schemas).
  - exact (read_contract_ok _ _ _ _ demo_reads).
  - reflexivity.
  - reflexivity.
  - apply demo_sized.
  - intros c [->|Hc]%elem_of_cons; [|by apply elem_of_nil in Hc].
    split; [reflexivity|]. split; [reflexivity|]. split; [vm_compute; reflexivity|].
    intros t [->|[->|Ht]%elem_of_cons]%elem_of_cons; [| |by apply elem_of_nil in Ht];
      eexists _, _; (split; [vm_compute; reflexivity|]);
      intros f rl [[= -> ->]|[[= -> ->]|Hf]%elem_of_cons]%elem_of_cons;
      try (by apply elem_of_nil in Hf); (constructor; [vm_compute; reflexivity|constructor]).
Defined.
