(* ===== verification/RecordingQuery.v ===== *)
(** * Bounded queries over a Recording

    Models [python/src/sil/recording_query.py]: field selectors and their
    offsets ([fields]), predicates and crossings ([pred_match]), summaries
    ([summary_add]), the row and byte budgets ([accepting], [res_add], [omit]),
    the scan with its bookkeeping ([run]), and [RecordingQuery.query] with the
    self-describing report size ([size_report]). The Recording is read through
    the [FilteredReads] interface. SHA-256 and the length of a float's [repr]
    are parameters; a file's identity is the stat tuple the code compares. *)

From Stdlib Require Import ZArith Lia Ascii.
From S2P Require Import Prelude PyFloat Json SchemaTypes Schema Recording.

Inductive query_error :=
| NoChannelName | BadFields | BadTimeBound | EndBeforeStart | BadMode
| BadMaxResults | BadMaxBytes | BadMaxMessages
| SourceChanged
| CannotReadChannels (e : read_error) | CannotReadMessages (e : read_error)
| UnknownChannel (name : string)
| InvalidSchema | InvalidSchemaField
| UnknownField (selector : string) | IndexOutOfBounds (selector : string)
| SummaryOfArray
| PredicateOnArray | UnknownOperator (op : string) | LiteralNotFinite
| LiteralNotInteger (p : prim) | LiteralNotJson
| CrossingUnordered
| MetadataTooLarge | CannotSize
| WrongSize (index : Z).

Abbreviation queried := (result query_error).

(** ** Fields and selectors *)

(** [_Field]: a [None] count is a scalar. *)
Record qfield := mk_qfield {
  qf_name : string;
  qf_type : prim;
  qf_offset : Z;
  qf_count : option Z;
}.

(** [struct.unpack_from("<" + FORMATS[type], data, offset)[0]]. *)
Definition element_at (p : prim) (data : bytes) (offset : Z) : pynum :=
  Struct.unpack_prim p (read_at data offset (size_of p)).

Definition scalar (f : qfield) (data : bytes) : pynum :=
  element_at (qf_type f) data (qf_offset f).

(** [_json_value]. *)
Definition qjson_num (n : pynum) : json :=
  match n with
  | PInt z => JInt z
  | PFloat b => if is_finite64 b then JFloat b
                else JStr (if is_nan64 b then "NaN"
                           else if f_sign 52 11 b then "-Infinity" else "Infinity")
  end.

Definition hex_digit (z : Z) : ascii :=
  ascii_of_nat (Z.to_nat (if z <? 10 then 48 + z else 87 + z)).
Fixpoint hex (bs : bytes) : string :=
  match bs with
  | [] => EmptyString
  | b :: bs => String (hex_digit (Z_of_byte b / 16))
                 (String (hex_digit (Z_of_byte b mod 16)) (hex bs))
  end.

(** [_json_value(f.decode(data))]. *)
Definition decode (f : qfield) (data : bytes) : json :=
  match qf_count f with
  | None => qjson_num (scalar f data)
  | Some n =>
      if decide (qf_type f = U8) then JStr (hex (read_at data (qf_offset f) n))
      else JArr ((λ i, qjson_num (element_at (qf_type f) data
                                   (qf_offset f + i * size_of (qf_type f)))) <$> seqZ 0 n)
  end.

Definition field_count (v : option json) : option (option Z) :=
  match v with
  | None | Some JNull => Some None
  | Some (JInt n) => if n <? 1 then None else Some (Some n)
  | Some _ => None
  end.

(** One iteration of the layout loop of [_fields]. *)
Definition layout_step (st : list (string * qfield) * Z) (v : json)
    : queried (list (string * qfield) * Z) :=
  let '(layout, offset) := st in
  match jget v "name", jget v "type", field_count (jget v "count") with
  | Some (JStr name), Some (JStr ty), Some count =>
      match prim_of_name ty with
      | Some p =>
          if String.eqb name "" || dmem layout name then Err InvalidSchemaField
          else Ok (dset layout name (mk_qfield name p offset count),
                   offset + size_of p * default 1 count)
      | None => Err InvalidSchemaField
      end
  | _, _, _ => Err InvalidSchemaField
  end.

Definition layout_of (spec : json) : queried (list (string * qfield) * Z) :=
  match jget spec "fields" with
  | Some (JArr l) => foldE layout_step ([], 0) l
  | _ => Err InvalidSchema
  end.

(** [re.fullmatch(r"(.+)\[(0|[1-9][0-9]*)\]", selector)]: the reversed text is
    read up to the last "[". The result is the name and the index digits. *)
Fixpoint split_index (rev_s digits : list ascii) : option (list ascii * list ascii) :=
  match rev_s with
  | [] => None
  | c :: cs => if Ascii.eqb c "[" then Some (cs, digits)
               else if is_digit c then split_index cs (c :: digits) else None
  end.

Definition index_digits_ok (ds : list ascii) : bool :=
  match ds with
  | [] => false
  | [_] => true
  | c :: _ => negb (Ascii.eqb c "0")
  end.

Definition digits_value (ds : list ascii) : Z :=
  fold_left (λ z c, 10 * z + (Z.of_nat (nat_of_ascii c) - 48)) ds 0.

Definition parse_selector (s : string) : option (string * list ascii) :=
  match reverse (String.list_ascii_of_string s) with
  | c :: cs =>
      if Ascii.eqb c "]" then
        '(name_rev, ds) ← split_index cs [];
        if negb (bool_decide (length name_rev = 0%nat)) && index_digits_ok ds
        then Some (String.string_of_list_ascii (reverse name_rev), ds) else None
      else None
  | [] => None
  end.

(** [int(text)] refuses more than 4300 digits. *)
Definition select (layout : list (string * qfield)) (selector : string) : queried qfield :=
  match dget layout selector with
  | Some f => Ok f
  | None =>
      match parse_selector selector with
      | None => Err (UnknownField selector)
      | Some (name, ds) =>
          match dget layout name with
          | None => Err (UnknownField selector)
          | Some f =>
              _ ← raise_if (4300 <? zlen ds) (IndexOutOfBounds selector);
              match qf_count f with
              | None => Err (IndexOutOfBounds selector)
              | Some n =>
                  let index := digits_value ds in
                  _ ← raise_if (n <=? index) (IndexOutOfBounds selector);
                  Ok (mk_qfield selector (qf_type f)
                        (qf_offset f + index * size_of (qf_type f)) None)
              end
          end
      end
  end.

(** [_fields]: the selected fields and the Message size. *)
Definition fields (spec : json) (selected : list string) : queried (list qfield * Z) :=
  '(layout, offset) ← layout_of spec;
  fs ← mapE (select layout) selected;
  Ok (fs, offset).

(** ** Locators, predicates, summaries *)

Definition position (channel : string) (t index : Z) : list (string * json) :=
  [("channel"%string, JStr channel); ("t_ns"%string, JInt t);
   ("message_index"%string, JInt index)].

(** A located number; [_locator] is its document. *)
Record located := mk_located { lc_t : Z; lc_index : Z; lc_value : pynum }.

Definition locator (channel field : string) (l : located) : list (string * json) :=
  position channel (lc_t l) (lc_index l)
  ++ [("field"%string, JStr field); ("value"%string, qjson_num (lc_value l))].

Inductive operator := Eq_ | Ne_ | Lt_ | Le_ | Gt_ | Ge_ | CrossUp | CrossDown.
#[export] Instance operator_eq_dec : EqDecision operator.
Proof. solve_decision. Defined.

Definition operator_of (s : string) : option operator :=
  dget [("eq"%string, Eq_); ("ne"%string, Ne_); ("lt"%string, Lt_); ("le"%string, Le_);
        ("gt"%string, Gt_); ("ge"%string, Ge_); ("cross-up"%string, CrossUp);
        ("cross-down"%string, CrossDown)] s.

Definition is_crossing (op : operator) : bool :=
  match op with CrossUp | CrossDown => true | _ => false end.

(** [_COMPARISONS[op](value, literal)]; the crossings are not among them. *)
Definition comparison (op : operator) (v lit : pynum) : bool :=
  match op with
  | Eq_ => num_eq v lit
  | Ne_ => negb (num_eq v lit)
  | Lt_ => num_lt v lit
  | Le_ => num_le v lit
  | Gt_ => num_lt lit v
  | Ge_ => num_le lit v
  | _ => false
  end.

Record predicate := mk_predicate { pr_field : string; pr_operator : string; pr_value : json }.

(** [_PredicateScan]: the checked predicate and its running state. *)
Record pred_scan := mk_pred_scan {
  ps_op : operator;
  ps_literal : pynum;
  ps_field : qfield;
}.
Record pred_state := mk_pred_state {
  pd_previous : option located;
  pd_nonfinite : Z;
  pd_last_t : option Z;
}.
Definition pred_init : pred_state := mk_pred_state None 0 None.

(** [_Match]. *)
Record matched := mk_matched { mt_current : located; mt_previous : option located }.

Definition pred_match (ps : pred_scan) (st : pred_state) (data : bytes) (t index : Z)
    : queried (option matched * pred_state) :=
  let crossing := is_crossing (ps_op ps) in
  _ ← raise_if (crossing && match pd_last_t st with Some l => t <? l | None => false end)
        CrossingUnordered;
  let value := scalar (ps_field ps) data in
  if negb (num_finite value) then
    Ok (None, mk_pred_state None (pd_nonfinite st + 1) (Some t))
  else
    let here := mk_located t index value in
    if negb crossing then
      Ok (if comparison (ps_op ps) value (ps_literal ps)
          then Some (mk_matched here None) else None,
          mk_pred_state (pd_previous st) (pd_nonfinite st) (Some t))
    else
      let st' := mk_pred_state (Some here) (pd_nonfinite st) (Some t) in
      match pd_previous st with
      | None => Ok (None, st')
      | Some prev =>
          let hit := if decide (ps_op ps = CrossUp)
                     then num_le (lc_value prev) (ps_literal ps) && num_lt (ps_literal ps) value
                     else num_le (ps_literal ps) (lc_value prev) && num_lt value (ps_literal ps) in
          Ok (if hit then Some (mk_matched here (Some prev)) else None, st')
      end.

(** [_Summary]. *)
Record summary_row := mk_summary_row {
  sr_field : string;
  sr_count : Z;
  sr_finite : Z;
  sr_nonfinite : Z;
  sr_min : option located;
  sr_max : option located;
}.
Definition new_summary (field : string) : summary_row := mk_summary_row field 0 0 0 None None.

Definition pos_lt (a b : Z * Z) : bool := (a.1 <? b.1) || ((a.1 =? b.1) && (a.2 <? b.2)).

(** The [for key in ("min", "max")] body: [better] is the strict order. *)
Definition extreme (better : pynum → pynum → bool) (old : option located) (new : located)
    : option located :=
  match old with
  | None => Some new
  | Some o =>
      if better (lc_value new) (lc_value o)
         || (num_eq (lc_value new) (lc_value o)
             && pos_lt (lc_t new, lc_index new) (lc_t o, lc_index o))
      then Some new else old
  end.

Definition summary_add (s : summary_row) (value : pynum) (t index : Z) : summary_row :=
  if negb (num_finite value) then
    mk_summary_row (sr_field s) (sr_count s + 1) (sr_finite s) (sr_nonfinite s + 1)
      (sr_min s) (sr_max s)
  else
    let here := mk_located t index value in
    mk_summary_row (sr_field s) (sr_count s + 1) (sr_finite s + 1) (sr_nonfinite s)
      (extreme num_lt (sr_min s) here) (extreme (λ a b, num_lt b a) (sr_max s) here).

(** ** Requests and limits *)

(** [_Request]; the Python type tests hold by typing. *)
Record request := mk_request {
  rq_channel : string;
  rq_fields : list string;
  rq_start_ns : option Z;
  rq_end_ns : option Z;
  rq_mode : string;
  rq_where : option predicate;
}.

Definition negative (b : option Z) : bool :=
  match b with Some z => z <? 0 | None => false end.

Definition request_validate (r : request) : queried () :=
  _ ← raise_if (String.eqb (rq_channel r) "") NoChannelName;
  _ ← raise_if (bool_decide (rq_fields r = []) || negb (bool_decide (NoDup (rq_fields r))))
        BadFields;
  _ ← raise_if (negative (rq_start_ns r) || negative (rq_end_ns r)) BadTimeBound;
  _ ← raise_if match rq_start_ns r, rq_end_ns r with
               | Some s, Some e => e <? s
               | _, _ => false
               end EndBeforeStart;
  raise_if (negb (bool_decide (rq_mode r ∈ ["rows"; "summary"]%string))) BadMode.

Record limits := mk_limits {
  lm_max_results : Z;
  lm_max_bytes : Z;
  lm_max_messages : option Z;
}.

Definition limits_validate (l : limits) : queried () :=
  _ ← raise_if (lm_max_results l <? 1) BadMaxResults;
  _ ← raise_if (lm_max_bytes l <? 1024) BadMaxBytes;
  raise_if match lm_max_messages l with Some n => n <? 1 | None => false end BadMaxMessages.

Definition opt_int (z : option Z) : json := match z with Some z => JInt z | None => JNull end.
Definition opt_obj (d : option (list (string * json))) : json :=
  match d with Some d => JObj d | None => JNull end.

(** [_Request.document]. *)
Definition document (r : request) : json :=
  JObj [("channel"%string, JStr (rq_channel r));
        ("fields"%string, JArr (JStr <$> rq_fields r));
        ("start_ns"%string, opt_int (rq_start_ns r)); ("end_ns"%string, opt_int (rq_end_ns r));
        ("mode"%string, JStr (rq_mode r));
        ("where"%string, opt_obj ((λ p, [("field"%string, JStr (pr_field p));
           ("operator"%string, JStr (pr_operator p)); ("value"%string, pr_value p)])
           <$> rq_where r))].

(** ** The report *)

(** [report["scan"]]; positions are (time, index) on the queried Channel. *)
Record scan_part := mk_scan_part {
  sc_complete : bool;
  sc_messages : Z;
  sc_matches : Z;
  sc_nonfinite : Z;
  sc_first_t : option Z;
  sc_last_t : option Z;
  sc_last_index : option Z;
  sc_range_end : Z;
  sc_first : option (Z * Z);
  sc_last : option (Z * Z);
  sc_next : option (Z * Z);
  sc_lookahead : Z;
}.
Definition new_scan : scan_part :=
  mk_scan_part true 0 0 0 None None None 0 None None None 0.

Inductive omit_reason := RMaxResults | RMaxBytes | ROversized.
Definition reason_name (r : omit_reason) : string :=
  match r with
  | RMaxResults => "max_results" | RMaxBytes => "max_bytes" | ROversized => "oversized_result"
  end.

(** [report["output"]]. *)
Record output_part := mk_output_part {
  op_complete : bool;
  op_returned : Z;
  op_omitted : Z;
  op_first_omitted : option (list (string * json) * omit_reason);
  op_serialized_bytes : Z;
}.
Definition new_output : output_part := mk_output_part true 0 0 None 0.

Inductive status := StComplete | StLimited | StIncomplete.
Definition status_name (s : status) : string :=
  match s with StComplete => "complete" | StLimited => "limited" | StIncomplete => "incomplete" end.

(** What a report holds; the constant parts are the request, limits, source. *)
Record qreport := mk_qreport {
  qr_status : status;
  qr_results : list json;
  qr_scan : scan_part;
  qr_output : output_part;
}.

Section reports.
Context (repr_size : Z → Z) (sha256 : json → string).
Context (source_sha : string) (source_size : Z) (req : request) (lim : limits)
  (crossing : bool).

Definition pos_json (p : option (Z * Z)) : json :=
  opt_obj ((λ p : Z * Z, position (rq_channel req) p.1 p.2) <$> p).

Definition scan_json (s : scan_part) : json :=
  JObj [("complete"%string, JBool (sc_complete s)); ("messages"%string, JInt (sc_messages s));
        ("matches"%string, JInt (sc_matches s));
        ("predicate_nonfinite"%string, JInt (sc_nonfinite s));
        ("first_t_ns"%string, opt_int (sc_first_t s)); ("last_t_ns"%string, opt_int (sc_last_t s));
        ("last_message_index"%string, opt_int (sc_last_index s));
        ("inspected_message_range"%string, JArr [JInt 0; JInt (sc_range_end s)]);
        ("first_message"%string, pos_json (sc_first s));
        ("last_message"%string, pos_json (sc_last s));
        ("next_message"%string, pos_json (sc_next s));
        ("lookahead_messages"%string, JInt (sc_lookahead s))].

Definition output_json (o : output_part) : json :=
  JObj [("complete"%string, JBool (op_complete o)); ("returned"%string, JInt (op_returned o));
        ("omitted"%string, JInt (op_omitted o));
        ("first_omitted"%string, opt_obj ((λ lr : list (string * json) * omit_reason,
           lr.1 ++ [("reason"%string, JStr (reason_name lr.2))]) <$> op_first_omitted o));
        ("serialized_bytes"%string, JInt (op_serialized_bytes o))].

Definition report_json (r : qreport) : json :=
  JObj [("sil_recording_query"%string, JInt 1);
        ("source"%string, JObj [("sha256"%string, JStr source_sha);
                                ("size_bytes"%string, JInt source_size)]);
        ("query"%string, document req);
        ("status"%string, JStr (status_name (qr_status r)));
        ("results"%string, JArr (qr_results r));
        ("scan"%string, scan_json (qr_scan r));
        ("query_sha256"%string, JStr (sha256 (document req)));
        ("limits"%string, JObj [("max_results"%string, JInt (lm_max_results lim));
           ("max_bytes"%string, JInt (lm_max_bytes lim));
           ("max_messages"%string, opt_int (lm_max_messages lim))]);
        ("output"%string, output_json (qr_output r));
        ("continuation"%string, JNull);
        ("crossing_context"%string, if crossing then
           JObj [("outside_window"%string, JBool false);
                 ("first_message"%string, JStr "no_crossing");
                 ("nonfinite"%string, JStr "breaks_adjacency")] else JNull)].

(** [_new_report]. *)
Definition new_report : qreport := mk_qreport StComplete [] new_scan new_output.

(** [_serialized_size]: the text and its newline. *)
Definition serialized_size (v : json) : queried Z :=
  match json_size repr_size v with Some n => Ok (n + 1) | None => Err LiteralNotJson end.

(** [max(query["fields"], key=_serialized_size)]: the first longest. *)
Definition longest (fs : list string) : string :=
  match fs with
  | [] => EmptyString
  | f :: fs => fold_left (λ best f, if str_size best <? str_size f then f else best) fs f
  end.

(** [_metadata_size_bound]. *)
Definition metadata_size_bound : queried Z :=
  let count := Z.max source_size (zlen (rq_fields req)) in
  let pos := Some (u64_max, count) in
  serialized_size (report_json (mk_qreport StIncomplete []
    (mk_scan_part false count count count (Some u64_max) (Some u64_max) (Some count) count
       pos pos pos 1)
    (mk_output_part false count count
       (Some (position (rq_channel req) u64_max count
              ++ [("field"%string, JStr (longest (rq_fields req)))], ROversized))
       (lm_max_bytes lim)))).

(** ** Results within the budgets *)

(** [_Results]: the rows kept, the output counters, the bytes left. *)
Record results := mk_results {
  rs_rows : list json;
  rs_output : output_part;
  rs_remaining : Z;
}.

Definition omit (r : results) (loc : list (string * json)) (why : omit_reason) : results :=
  let o := rs_output r in
  mk_results (rs_rows r)
    (mk_output_part false (op_returned o) (op_omitted o + 1)
       match op_first_omitted o with None => Some (loc, why) | Some f => Some f end
       (op_serialized_bytes o))
    (rs_remaining r).

Definition accepting (r : results) (loc : list (string * json)) : bool * results :=
  if negb (op_complete (rs_output r)) then
    (false, omit r loc match op_first_omitted (rs_output r) with
                       | Some (_, why) => why
                       | None => RMaxResults
                       end)
  else if lm_max_results lim <=? zlen (rs_rows r) then (false, omit r loc RMaxResults)
  else (true, r).

Definition res_add (r : results) (row : json) (loc : list (string * json)) : queried results :=
  size ← serialized_size row;
  Ok (if rs_remaining r <? size then omit r loc RMaxBytes
      else mk_results (rs_rows r ++ [row]) (rs_output r) (rs_remaining r - size)).

(** ** The scan *)

Record selection := mk_selection {
  sl_fields : list qfield;
  sl_size : Z;
  sl_predicate : option pred_scan;
}.

(** Everything [_QueryScan] changes while it runs. *)
Record qstate := mk_qstate {
  qs_scan : scan_part;
  qs_pred : pred_state;
  qs_summaries : list summary_row;
  qs_results : results;
}.

Definition record_position (s : scan_part) (t index : Z) : scan_part :=
  let n := sc_messages s + 1 in
  mk_scan_part (sc_complete s) n (sc_matches s) (sc_nonfinite s)
    (Some match sc_first_t s with None => t | Some f => Z.min t f end)
    (Some match sc_last_t s with None => t | Some l => Z.max t l end)
    (Some index) n
    match sc_first s with None => Some (t, index) | Some p => Some p end
    (Some (t, index)) (sc_next s) (sc_lookahead s).

Definition count_match (s : scan_part) : scan_part :=
  mk_scan_part (sc_complete s) (sc_messages s) (sc_matches s + 1) (sc_nonfinite s)
    (sc_first_t s) (sc_last_t s) (sc_last_index s) (sc_range_end s) (sc_first s) (sc_last s)
    (sc_next s) (sc_lookahead s).

Definition array_bytes (fs : list qfield) : Z :=
  foldr (λ f acc, match qf_count f with Some n => n * 2 + acc | None => acc end) 0 fs.

Definition row_json (sel : selection) (data : bytes) (t index : Z) (m : option matched) : json :=
  JObj (position (rq_channel req) t index
    ++ [("fields"%string, JObj ((λ f, (qf_name f, decode f data)) <$> sl_fields sel))]
    ++ match m, sl_predicate sel with
       | Some m, Some ps =>
           ("match"%string, JObj (locator (rq_channel req) (qf_name (ps_field ps)) (mt_current m)))
           :: match mt_previous m with
              | Some p => [("previous"%string,
                            JObj (locator (rq_channel req) (qf_name (ps_field ps)) p))]
              | None => []
              end
       | _, _ => []
       end).

(** [_append_row]. *)
Definition append_row (sel : selection) (r : results) (data : bytes) (t index : Z)
    (m : option matched) : queried results :=
  let loc := position (rq_channel req) t index in
  let '(ok, r') := accepting r loc in
  if negb ok then Ok r'
  else if rs_remaining r' <? array_bytes (sl_fields sel) then Ok (omit r' loc ROversized)
  else res_add r' (row_json sel data t index m) loc.

(** [zip(self.summaries, self.selection.fields)]. *)
Fixpoint add_summaries (ss : list summary_row) (fs : list qfield) (data : bytes) (t index : Z)
    : list summary_row :=
  match ss, fs with
  | s :: ss, f :: fs => summary_add s (scalar f data) t index :: add_summaries ss fs data t index
  | _, _ => ss
  end.

(** [_inspect_message]. *)
Definition inspect_message (sel : selection) (st : qstate) (data : bytes) (t index : Z)
    : queried qstate :=
  _ ← raise_if (negb (zlen data =? sl_size sel)) (WrongSize index);
  let sc := record_position (qs_scan st) t index in
  '(skip, m, pd) ← match sl_predicate sel with
                   | None => Ok (false, None, qs_pred st)
                   | Some ps =>
                       '(m, pd) ← pred_match ps (qs_pred st) data t index;
                       Ok (match m with None => true | Some _ => false end, m, pd)
                   end;
  if (skip : bool) then Ok (mk_qstate sc pd (qs_summaries st) (qs_results st))
  else
    let sc := count_match sc in
    match qs_summaries st with
    | [] => r ← append_row sel (qs_results st) data t index m;
            Ok (mk_qstate sc pd [] r)
    | ss => Ok (mk_qstate sc pd (add_summaries ss (sl_fields sel) data t index) (qs_results st))
    end.

(** The loop of [run] over [enumerate(records)] from index [i]. *)
Fixpoint run_loop (sel : selection) (records : list message) (err : option read_error)
    (i : Z) (st : qstate) : queried qstate :=
  match records with
  | [] => match err with Some e => Err (CannotReadMessages e) | None => Ok st end
  | (_, t, data) :: records =>
      if match lm_max_messages lim with Some l => l <=? i | None => false end then
        let s := qs_scan st in
        Ok (mk_qstate (mk_scan_part false (sc_messages s) (sc_matches s) (sc_nonfinite s)
              (sc_first_t s) (sc_last_t s) (sc_last_index s) (sc_range_end s) (sc_first s)
              (sc_last s) (Some (t, i)) 1) (qs_pred st) (qs_summaries st) (qs_results st))
      else st' ← inspect_message sel st data t i; run_loop sel records err (i + 1) st'
  end.

Definition summary_json (s : summary_row) : json :=
  JObj [("channel"%string, JStr (rq_channel req)); ("field"%string, JStr (sr_field s));
        ("count"%string, JInt (sr_count s)); ("finite_count"%string, JInt (sr_finite s));
        ("nonfinite_count"%string, JInt (sr_nonfinite s));
        ("min"%string, opt_obj (locator (rq_channel req) (sr_field s) <$> sr_min s));
        ("max"%string, opt_obj (locator (rq_channel req) (sr_field s) <$> sr_max s))].

Definition emit_summary (r : results) (s : summary_row) : queried results :=
  let loc := [("channel"%string, JStr (rq_channel req)); ("field"%string, JStr (sr_field s))] in
  let '(ok, r') := accepting r loc in
  if ok then res_add r' (summary_json s) loc else Ok r'.

(** [run]. *)
Definition run (sel : selection) (records : gen message) (st : qstate) : queried qstate :=
  st' ← run_loop sel records.1 records.2 0 st;
  let s := qs_scan st' in
  let s' := match sl_predicate sel with
            | None => s
            | Some _ => mk_scan_part (sc_complete s) (sc_messages s) (sc_matches s)
                          (pd_nonfinite (qs_pred st')) (sc_first_t s) (sc_last_t s)
                          (sc_last_index s) (sc_range_end s) (sc_first s) (sc_last s)
                          (sc_next s) (sc_lookahead s)
            end in
  r ← foldE emit_summary (qs_results st') (qs_summaries st');
  Ok (mk_qstate s' (qs_pred st') (qs_summaries st') r).

(** [_size_report]: [tries] is the [range(8)]. *)
Fixpoint size_report (tries : nat) (r : qreport) (max_bytes : Z) : queried qreport :=
  match tries with
  | O => Err CannotSize
  | S tries =>
      size ← serialized_size (report_json r);
      _ ← raise_if (max_bytes <? size) MetadataTooLarge;
      let o := qr_output r in
      if op_serialized_bytes o =? size then Ok r
      else size_report tries
             (mk_qreport (qr_status r) (qr_results r) (qr_scan r)
                (mk_output_part (op_complete o) (op_returned o) (op_omitted o)
                   (op_first_omitted o) size)) max_bytes
  end.

(** [_Results.finish]. *)
Definition finish (s : scan_part) (r : results) : queried qreport :=
  let o := rs_output r in
  size_report 8
    (mk_qreport (if negb (sc_complete s) then StIncomplete
                 else if op_complete o then StComplete else StLimited)
       (rs_rows r) s
       (mk_output_part (op_complete o) (zlen (rs_rows r)) (op_omitted o) (op_first_omitted o)
          (op_serialized_bytes o))) (lm_max_bytes lim).
End reports.

(** ** The query *)

(** [_PredicateScan.__init__]. *)
Definition new_pred_scan (repr_size : Z → Z) (p : predicate) (f : qfield) : queried pred_scan :=
  _ ← raise_if (bool_decide (is_Some (qf_count f))) PredicateOnArray;
  match operator_of (pr_operator p) with
  | None => Err (UnknownOperator (pr_operator p))
  | Some op =>
      lit ← match pr_value p with
            | JInt z => Ok (PInt z)
            | JFloat b => if is_finite64 b then Ok (PFloat b) else Err LiteralNotFinite
            | _ => Err LiteralNotFinite
            end;
      _ ← match int_range (qf_type f) with
          | None => Ok ()
          | Some (low, high) =>
              match lit with
              | PInt z => raise_if (negb (in_range low high z)) (LiteralNotInteger (qf_type f))
              | PFloat _ => Err (LiteralNotInteger (qf_type f))
              end
          end;
      _ ← serialized_size repr_size (pr_value p);
      Ok (mk_pred_scan op lit f)
  end.

(** [_prepare_selection]. *)
Definition prepare_selection (repr_size : Z → Z) (r : recording) (req : request)
    : queried selection :=
  channels ← match rv_channels r with Ok cs => Ok cs | Err e => Err (CannotReadChannels e) end;
  match dget ((λ c, (rc_name c, c)) <$> reverse channels) (rq_channel req) with
  | None => Err (UnknownChannel (rq_channel req))
  | Some c =>
      '(fs, size) ← fields (rc_schema c) (rq_fields req);
      _ ← raise_if (String.eqb (rq_mode req) "summary"
                    && existsb (λ f, bool_decide (is_Some (qf_count f))) fs) SummaryOfArray;
      ps ← match rq_where req with
           | None => Ok None
           | Some w =>
               '(pfs, _) ← fields (rc_schema c) [pr_field w];
               match pfs with
               | pf :: _ => ps ← new_pred_scan repr_size w pf; Ok (Some ps)
               | [] => Err InvalidSchema
               end
           end;
      Ok (mk_selection fs size ps)
  end.

(** [_query_records]'s filter. *)
Definition query_filter (req : request) : record_filter :=
  mk_filter (Some [rq_channel req]) (rq_start_ns req) (rq_end_ns req).

Definition sel_crossing (sel : selection) : bool :=
  match sl_predicate sel with Some ps => is_crossing (ps_op ps) | None => false end.

(** [RecordingQuery.query]: [stamp] is the stat tuple taken at construction,
    [before] and [after] those of the two [_check_source] calls. *)
Definition query (repr_size : Z → Z) (sha256 : json → string) (source_sha : string)
    (stamp before after : list Z) (r : recording) (req : request) (lim : limits)
    : queried qreport :=
  let source_size := zlen (rv_bytes r) in
  _ ← request_validate req;
  _ ← limits_validate lim;
  _ ← raise_if (negb (bool_decide (before = stamp))) SourceChanged;
  sel ← prepare_selection repr_size r req;
  bound ← metadata_size_bound repr_size sha256 source_sha source_size req lim (sel_crossing sel);
  _ ← raise_if (lm_max_bytes lim - bound <? 0) MetadataTooLarge;
  st ← run repr_size req lim sel (rv_read r (query_filter req))
         (mk_qstate new_scan pred_init
            (if String.eqb (rq_mode req) "summary" then (λ f, new_summary (qf_name f)) <$> sl_fields sel
             else [])
            (mk_results [] new_output (lm_max_bytes lim - bound)));
  _ ← raise_if (negb (bool_decide (after = stamp))) SourceChanged;
  finish repr_size sha256 source_sha source_size req lim (sel_crossing sel)
    (qs_scan st) (qs_results st).

(** [main]'s exit status. *)
Definition query_exit (r : queried qreport) : Z :=
  match r with
  | Err _ => 2
  | Ok r => match qr_status r with StComplete => 0 | StIncomplete => 3 | StLimited => 4 end
  end.

(** ** Field offsets agree with the codec *)

Definition field_bytes (f : field) : Z := size_of (fd_type f) * Z.of_nat (default 1%nat (fd_count f)).

Lemma field_bytes_size f : Z.of_nat (field_size f) = field_bytes f.
Proof.
  unfold field_size, field_bytes, field_plan, Struct.size. pose proof (size_of_pos (fd_type f)).
  destruct (fd_count f) as [n|]; cbn [default]; unfold id.
  - case_decide as Hu; cbn [plan_fmt].
    + rewrite Hu. cbn. lia.
    + induction n as [|n IH]; cbn [replicate sum_list_with]; [lia|].
      cbn [Struct.item_size] in *. lia.
  - cbn. lia.
Qed.

Fixpoint qfields_of (fs : list field) (off : Z) : list (string * qfield) :=
  match fs with
  | [] => []
  | f :: fs => (fd_name f, mk_qfield (fd_name f) (fd_type f) off (Z.of_nat <$> fd_count f))
               :: qfields_of fs (off + field_bytes f)
  end.

Definition total_bytes (fs : list field) : Z := foldr (λ f z, field_bytes f + z) 0 fs.

Lemma total_bytes_size fs : total_bytes fs = Z.of_nat (mt_size fs).
Proof.
  unfold mt_size, mt_items, Struct.size. induction fs as [|f fs IH]; [done|].
  rewrite fmap_cons. cbn [concat total_bytes foldr]. fold (total_bytes fs).
  rewrite sum_list_with_app, IH, <- field_bytes_size. unfold field_size, Struct.size. lia.
Qed.

Lemma qfields_of_app fs gs off :
  qfields_of (fs ++ gs) off = qfields_of fs off ++ qfields_of gs (off + total_bytes fs).
Proof.
  revert off. induction fs as [|f fs IH]; intros off; cbn; [by rewrite Z.add_0_r|].
  rewrite IH. do 3 f_equal. fold (total_bytes fs). lia.
Qed.

Lemma total_bytes_app fs gs : total_bytes (fs ++ gs) = total_bytes fs + total_bytes gs.
Proof. unfold total_bytes. induction fs as [|f fs IH]; cbn; [done|]. rewrite IH. lia. Qed.

Lemma qfields_of_keys fs off : (qfields_of fs off).*1 = fd_name <$> fs.
Proof. revert off. induction fs as [|f fs IH]; intros off; cbn; [done|]. by rewrite IH. Qed.

Lemma field_count_spec v c :
  field_count v = Some c →
  match v with
  | None | Some JNull => c = None
  | Some (JInt n) => 1 ≤ n ∧ c = Some n
  | _ => False
  end.
Proof.
  unfold field_count. destruct v as [[]|]; try naive_solver.
  destruct (Z.ltb_spec z 1); [done|]. intros [= <-]. split; [lia|done].
Qed.

(** One field of the schema extends the layout as the codec lays it out. *)
Lemma layout_step_Ok fs v lay sz :
  NoDup (fd_name <$> fs) →
  layout_step (qfields_of fs 0, total_bytes fs) v = Ok (lay, sz) →
  ∃ f, field_of_json v = Some f ∧ NoDup (fd_name <$> fs ++ [f])
    ∧ lay = qfields_of (fs ++ [f]) 0 ∧ sz = total_bytes (fs ++ [f]).
Proof.
  intros Hnd. unfold layout_step, field_of_json.
  destruct (jget v "name") as [[]|]; try done. destruct (jget v "type") as [[]|]; try done.
  destruct (field_count (jget v "count")) as [c|] eqn:Hc; [|done].
  destruct (prim_of_name s0) as [p|]; [|done].
  destruct (String.eqb s "" || dmem (qfields_of fs 0) s) eqn:Hd; [done|].
  apply orb_false_iff in Hd as [_ Hd]. apply dmem_false in Hd. rewrite qfields_of_keys in Hd.
  intros [= <- <-]. apply field_count_spec in Hc.
  assert (∃ f, mbind (M := option) (λ p0, match jget v "count" with
      | None | Some JNull => Some (mk_field s p0 None)
      | Some (JInt n) => if n <? 0 then None else Some (mk_field s p0 (Some (Z.to_nat n)))
      | _ => None end) (Some p) = Some f
    ∧ fd_name f = s ∧ fd_type f = p ∧ Z.of_nat <$> fd_count f = c) as (f & Hf & <- & <- & <-).
  { cbn. destruct (jget v "count") as [[| |n| | | |]|]; try done; try (subst c; by eexists).
    destruct Hc as [Hn ->]. rewrite (proj2 (Z.ltb_ge _ _)) by lia. eexists. split; [done|].
    cbn. split_and!; try done. f_equal. lia. }
  exists f. split; [exact Hf|]. split.
  { rewrite fmap_app. apply NoDup_app. split_and!; [done| |apply NoDup_singleton].
    intros x Hx Hx'. cbn in Hx'. apply list_elem_of_singleton in Hx' as ->. done. }
  rewrite dset_keys_new by (by rewrite qfields_of_keys).
  rewrite qfields_of_app, total_bytes_app. cbn. rewrite Z.add_0_r. split; [done|].
  f_equal. unfold field_bytes. destruct (fd_count f); done.
Qed.

Lemma layout_of_Ok spec lay sz :
  layout_of spec = Ok (lay, sz) →
  ∃ fs, fields_of_json spec = Some fs ∧ NoDup (fd_name <$> fs)
    ∧ lay = qfields_of fs 0 ∧ sz = Z.of_nat (mt_size fs).
Proof.
  unfold layout_of, fields_of_json. destruct (jget spec "fields") as [[]|]; try done.
  enough (∀ fs0, NoDup (fd_name <$> fs0) →
    foldE layout_step (qfields_of fs0 0, total_bytes fs0) l = Ok (lay, sz) →
    ∃ fs, mapM field_of_json l = Some fs ∧ NoDup (fd_name <$> fs0 ++ fs)
      ∧ lay = qfields_of (fs0 ++ fs) 0 ∧ sz = total_bytes (fs0 ++ fs)) as H.
  { intros Hf. destruct (H [] (NoDup_nil_2) Hf) as (fs & Hm & Hn & -> & ->).
    exists fs. by rewrite <- total_bytes_size. }
  induction l as [|v l IH]; intros fs0 Hn Hf; cbn in Hf.
  - injection Hf as <- <-. exists []. by rewrite app_nil_r.
  - apply bind_Ok in Hf as ([lay1 sz1] & H1 & H2).
    apply layout_step_Ok in H1 as (f & Hj & Hn1 & -> & ->); [|done].
    apply IH in H2 as (fs & Hm & Hn2 & -> & ->); [|done].
    exists (f :: fs). rewrite <- app_assoc in *. cbn [mapM]. rewrite Hj. cbn. by rewrite Hm.
Qed.

(** A laid-out field lies inside the payload, and holds the codec's value. *)
Lemma qfields_of_value fs data : ∀ off name qf,
  0 ≤ off → zlen data = off + total_bytes fs →
  dget (qfields_of fs off) name = Some qf →
  ∃ f o, qf = mk_qfield name (fd_type f) o (Z.of_nat <$> fd_count f)
    ∧ 0 ≤ o ∧ o + field_bytes f ≤ zlen data
    ∧ dget (zip (fd_name <$> fs) (field_values fs (drop (Z.to_nat off) data))) name
      = Some (field_value f (drop (Z.to_nat o) data)).
Proof.
  induction fs as [|f fs IH]; intros off name qf Ho Hl; [done|].
  cbn [qfields_of dget field_values total_bytes foldr] in *. fold (total_bytes fs) in *.
  rewrite fmap_cons. cbn [zip zip_with dget].
  assert (Hfb : 0 ≤ field_bytes f) by (rewrite <- field_bytes_size; lia).
  assert (Htb : 0 ≤ total_bytes fs) by (rewrite total_bytes_size; lia).
  destruct (decide (name = fd_name f)) as [->|Hne].
  - intros [= <-]. exists f, off. split_and!; try done. lia.
  - intros Hq. destruct (IH (off + field_bytes f) name qf) as (g & o & -> & Ho1 & Ho2 & Hd);
      [lia|lia|done|].
    exists g, o. split_and!; try done. rewrite drop_drop.
    replace (Z.to_nat off + field_size f)%nat with (Z.to_nat (off + field_bytes f)); [done|].
    rewrite <- field_bytes_size. lia.
Qed.

Lemma read_at_take {A} (l : list A) o n :
  0 ≤ o → 0 ≤ n → o + n ≤ zlen l → read_at l o n = take (Z.to_nat n) (drop (Z.to_nat o) l).
Proof.
  intros. unfold read_at, zlen in *. destruct (Z.leb_spec (Z.of_nat (length l)) o).
  - replace n with 0 by lia. by rewrite take_0.
  - f_equal. lia.
Qed.

(** The document of a codec value: hex for bytes. *)
Definition value_json (v : value) : json :=
  match v with
  | VNum n => qjson_num n
  | VBytes bs => JStr (hex bs)
  | VList l => JArr (qjson_num <$> l)
  end.

Lemma seqZ_seq n : seqZ 0 (Z.of_nat n) = Z.of_nat <$> seq 0 n.
Proof.
  unfold seqZ. rewrite Nat2Z.id. apply list_fmap_ext. intros; lia.
Qed.

Lemma element_at_drop p data o i :
  0 ≤ o → 0 ≤ i → o + (i + 1) * size_of p ≤ zlen data →
  element_at p data (o + i * size_of p)
  = Struct.unpack_prim p (take (Z.to_nat (size_of p))
      (drop (Z.to_nat i * Z.to_nat (size_of p)) (drop (Z.to_nat o) data))).
Proof.
  intros. pose proof (size_of_pos p). unfold element_at.
  rewrite read_at_take by nia. rewrite drop_drop. do 3 f_equal. nia.
Qed.

Lemma decode_value name f o data :
  0 ≤ o → o + field_bytes f ≤ zlen data →
  decode (mk_qfield name (fd_type f) o (Z.of_nat <$> fd_count f)) data
  = value_json (field_value f (drop (Z.to_nat o) data)).
Proof.
  intros Ho Hl. pose proof (size_of_pos (fd_type f)) as Hp.
  unfold field_bytes in Hl. unfold decode, field_value, field_plan. cbn [qf_count].
  destruct (fd_count f) as [n|]; cbn [fmap option_fmap option_map default] in *; unfold id in *.
  - cbn [qf_type qf_offset]. case_decide as Hu; cbn [value_json].
    + rewrite Hu in *. cbn in Hl. rewrite read_at_take by lia. by rewrite Nat2Z.id.
    + f_equal. rewrite seqZ_seq, <- !list_fmap_compose. apply list_fmap_ext.
      intros k i Hi. apply lookup_seq in Hi as [-> Hi]. cbn -[Nat.mul].
      rewrite element_at_drop by nia. by rewrite Nat2Z.id.
  - cbn [value_json]. unfold scalar. cbn [qf_type qf_offset].
    pose proof (element_at_drop (fd_type f) data o 0) as He.
    rewrite Z.mul_0_l, Z.add_0_r in He. cbn [Nat.mul Z.to_nat] in He. rewrite drop_0 in He.
    rewrite He by lia. done.
Qed.

Lemma scalar_element name f o i data n :
  0 ≤ o → o + field_bytes f ≤ zlen data → fd_count f = Some n → 0 ≤ i < Z.of_nat n →
  elements (field_value f (drop (Z.to_nat o) data)) !! Z.to_nat i
  = Some (scalar (mk_qfield name (fd_type f) (o + i * size_of (fd_type f)) None) data).
Proof.
  intros Ho Hl Hn Hi. pose proof (size_of_pos (fd_type f)) as Hp.
  unfold field_bytes in Hl. rewrite Hn in Hl. cbn in Hl. unfold id in Hl.
  unfold field_value, field_plan, scalar. rewrite Hn. cbn [qf_type qf_offset].
  rewrite element_at_drop by nia. case_decide as Hu; cbn [elements].
  - rewrite Hu in *. cbn in Hl. rewrite list_lookup_fmap, lookup_take_lt, lookup_drop by lia.
    destruct (lookup_lt_is_Some_2 data (Z.to_nat o + Z.to_nat i)) as [b Hb].
    { unfold zlen in Hl. lia. }
    rewrite Hb. cbn -[Nat.mul]. change (Z.to_nat 1) with 1%nat. rewrite Nat.mul_1_r, drop_drop.
    rewrite (drop_S _ _ _ Hb). cbn. rewrite take_0. do 2 f_equal. cbn. lia.
  - rewrite list_lookup_fmap, lookup_seq_lt by lia. done.
Qed.

(** ** Summaries *)

(** What a summary holds of the located values it was given. *)
Definition is_extreme (better : pynum → pynum → bool) (vs : list located)
    (m : option located) : Prop :=
  match m with
  | None => vs = []
  | Some b => b ∈ vs ∧ ∀ v, v ∈ vs →
      better (lc_value v) (lc_value b) = false
      ∧ (num_eq (lc_value v) (lc_value b) = true →
         pos_lt (lc_t v, lc_index v) (lc_t b, lc_index b) = false)
  end.

(** [better] is the order of the values on their common scale, or its converse. *)
Definition scaled (sign : Z) (better : pynum → pynum → bool) : Prop :=
  ∀ a b za zb, num_x a = XFin za → num_x b = XFin zb →
    better a b = (sign * za <? sign * zb).

Lemma num_eq_fin a b za zb :
  num_x a = XFin za → num_x b = XFin zb → num_eq a b = (za =? zb).
Proof. unfold num_eq. by intros -> ->. Qed.

Lemma num_lt_scaled : scaled 1 num_lt.
Proof. intros a b za zb Ha Hb. unfold num_lt. rewrite Ha, Hb, !Z.mul_1_l. done. Qed.

Lemma num_gt_scaled : scaled (-1) (λ a b, num_lt b a).
Proof.
  intros a b za zb Ha Hb. unfold num_lt. rewrite Ha, Hb. cbn [x_lt].
  destruct (Z.ltb_spec zb za), (Z.ltb_spec (-1 * za) (-1 * zb)); lia.
Qed.

Lemma pos_lt_iff a b : pos_lt a b = true ↔ a.1 < b.1 ∨ a.1 = b.1 ∧ a.2 < b.2.
Proof. unfold pos_lt. rewrite orb_true_iff, andb_true_iff, !Z.ltb_lt, Z.eqb_eq. done. Qed.

Lemma extreme_step sign better vs m v :
  sign = 1 ∨ sign = -1 → scaled sign better →
  Forall (λ v, num_finite (lc_value v) = true) (vs ++ [v]) →
  is_extreme better vs m → is_extreme better (vs ++ [v]) (extreme better m v).
Proof.
  intros Hs Hb Hf Hm.
  assert (Hx : ∀ w, w ∈ vs ++ [v] → ∃ z, num_x (lc_value w) = XFin z).
  { intros w Hw. apply num_finite_x. exact (proj1 (Forall_forall _ _) Hf w Hw). }
  destruct (Hx v ltac:(set_solver)) as [zv Hv].
  unfold extreme. destruct m as [o|]; cbn [is_extreme] in Hm.
  - destruct Hm as [Ho Hle]. destruct (Hx o ltac:(set_solver)) as [zo Hzo].
    rewrite (Hb _ _ _ _ Hv Hzo), (num_eq_fin _ _ _ _ Hv Hzo).
    assert (Hold : ∀ w, w ∈ vs → ∃ z, num_x (lc_value w) = XFin z ∧ sign * zo ≤ sign * z
      ∧ (z = zo → pos_lt (lc_t w, lc_index w) (lc_t o, lc_index o) = false)).
    { intros w Hw. destruct (Hx w ltac:(set_solver)) as [z Hz].
      destruct (Hle w Hw) as [H1 H2]. rewrite (Hb _ _ _ _ Hz Hzo) in H1.
      rewrite (num_eq_fin _ _ _ _ Hz Hzo) in H2. apply Z.ltb_ge in H1.
      exists z. split_and!; [done|done|]. intros ->. apply H2, Z.eqb_refl. }
    destruct (Z.ltb_spec (sign * zv) (sign * zo)) as [Hlt|Hge]; cbn [orb].
    + split; [set_solver|]. intros w [Hw| ->%list_elem_of_singleton]%elem_of_app.
      * destruct (Hold w Hw) as (z & Hz & Hzz & _).
        rewrite (Hb _ _ _ _ Hz Hv), (num_eq_fin _ _ _ _ Hz Hv). split; [apply Z.ltb_ge; lia|].
        intros ->%Z.eqb_eq. lia.
      * rewrite (Hb _ _ _ _ Hv Hv). split; [apply Z.ltb_irrefl|]. intros _.
        apply not_true_is_false. rewrite pos_lt_iff. cbn. lia.
    + destruct (Z.eqb_spec zv zo) as [->|Hne]; cbn [andb];
        [destruct (pos_lt (lc_t v, _) (lc_t o, _)) eqn:Hp|].
      * apply pos_lt_iff in Hp. cbn in Hp.
        split; [set_solver|]. intros w [Hw| ->%list_elem_of_singleton]%elem_of_app.
        -- destruct (Hold w Hw) as (z & Hz & Hzz & Hpos).
           rewrite (Hb _ _ _ _ Hz Hv), (num_eq_fin _ _ _ _ Hz Hv). split; [apply Z.ltb_ge; lia|].
           intros ->%Z.eqb_eq. specialize (Hpos eq_refl).
           apply not_true_is_false. intros H. apply not_true_iff_false in Hpos. apply Hpos.
           apply pos_lt_iff in H. apply pos_lt_iff. cbn in *. lia.
        -- rewrite (Hb _ _ _ _ Hv Hv). split; [apply Z.ltb_irrefl|]. intros _.
           apply not_true_is_false. rewrite pos_lt_iff. cbn. lia.
      * split; [set_solver|]. intros w [Hw| ->%list_elem_of_singleton]%elem_of_app; [by apply Hle|].
        rewrite (Hb _ _ _ _ Hv Hzo). split; [apply Z.ltb_ge; lia|done].
      * split; [set_solver|]. intros w [Hw| ->%list_elem_of_singleton]%elem_of_app; [by apply Hle|].
        rewrite (Hb _ _ _ _ Hv Hzo), (num_eq_fin _ _ _ _ Hv Hzo). split; [apply Z.ltb_ge; lia|].
        intros ->%Z.eqb_eq. done.
  - subst vs. split; [set_solver|]. intros w ->%list_elem_of_singleton.
    rewrite (Hb _ _ _ _ Hv Hv). split; [apply Z.ltb_irrefl|]. intros _.
    apply not_true_is_false. rewrite pos_lt_iff. cbn. lia.
Qed.

Definition add_located (s : summary_row) (v : located) : summary_row :=
  summary_add s (lc_value v) (lc_t v) (lc_index v).

Definition finite_of (vs : list located) : list located :=
  filter (λ v, num_finite (lc_value v) = true) vs.

Lemma summary_spec field vs :
  let s := fold_left add_located vs (new_summary field) in
  sr_count s = zlen vs ∧ sr_finite s = zlen (finite_of vs)
  ∧ sr_count s = sr_finite s + sr_nonfinite s
  ∧ is_extreme num_lt (finite_of vs) (sr_min s)
  ∧ is_extreme (λ a b, num_lt b a) (finite_of vs) (sr_max s).
Proof.
  cbn zeta. induction vs as [|v vs IH] using rev_ind; [done|].
  rewrite fold_left_app. cbn [fold_left]. unfold finite_of in *.
  rewrite filter_app, !zlen_app. destruct IH as (Hc & Hf & Hn & Hmin & Hmax).
  set (s := fold_left add_located vs (new_summary field)) in *.
  unfold add_located, summary_add. destruct (num_finite (lc_value v)) eqn:Hv; cbn [negb].
  - assert (filter (λ v, num_finite (lc_value v) = true) [v] = [v]) as ->
      by (by rewrite filter_cons_True).
    assert (mk_located (lc_t v) (lc_index v) (lc_value v) = v) as -> by (by destruct v).
    assert (Forall (λ v, num_finite (lc_value v) = true)
      (filter (λ v, num_finite (lc_value v) = true) vs ++ [v])) as Hall.
    { apply Forall_app. split; [|by constructor]. apply Forall_forall.
      by intros x [? _]%list_elem_of_filter. }
    unfold zlen in *. cbn [sr_count sr_finite sr_nonfinite sr_min sr_max length].
    split_and!; try lia.
    + apply (extreme_step 1); auto using num_lt_scaled.
    + apply (extreme_step (-1)); auto using num_gt_scaled.
  - assert (filter (λ v, num_finite (lc_value v) = true) [v] = []) as ->
      by (by rewrite filter_cons_False by congruence).
    rewrite app_nil_r. unfold zlen in *. cbn [sr_count sr_finite sr_nonfinite sr_min sr_max length].
    split_and!; try done; lia.
Qed.

(** ** Which Messages a query selects *)

Section scan_spec.
Context (repr_size : Z → Z) (req : request) (lim : limits) (sel : selection).

(** The match of Message [m] at index [k], after [prev]: [None] when the
    predicate does not select it. Only the Message directly before counts. *)
Definition hit_of (prev : option message) (m : message) (k : Z) : option (option matched) :=
  match sl_predicate sel with
  | None => Some None
  | Some ps =>
      let v := scalar (ps_field ps) m.2 in
      let here := mk_located m.1.2 k v in
      if negb (num_finite v) then None
      else if negb (is_crossing (ps_op ps)) then
        if comparison (ps_op ps) v (ps_literal ps) then Some (Some (mk_matched here None)) else None
      else match prev with
           | None => None
           | Some p =>
               let u := scalar (ps_field ps) p.2 in
               if num_finite u
                  && (if decide (ps_op ps = CrossUp)
                      then num_le u (ps_literal ps) && num_lt (ps_literal ps) v
                      else num_le (ps_literal ps) u && num_lt v (ps_literal ps))
               then Some (Some (mk_matched here (Some (mk_located p.1.2 (k - 1) u)))) else None
           end
  end.

Fixpoint hits (prev : option message) (k : Z) (ms : list message)
    : list (Z * message * option matched) :=
  match ms with
  | [] => []
  | m :: ms => match hit_of prev m k with Some x => [(k, m, x)] | None => [] end
               ++ hits (Some m) (k + 1) ms
  end.

Definition row_of (h : Z * message * option matched) : json :=
  let '(k, m, x) := h in row_json req sel m.2 m.1.2 k x.

(** What the predicate remembers after [prev] at index [k - 1]. *)
Definition remembers (pd : pred_state) (prev : option message) (k : Z) : Prop :=
  match sl_predicate sel with
  | None => True
  | Some ps =>
      is_crossing (ps_op ps) = true →
      pd_previous pd = match prev with
                       | None => None
                       | Some p => let u := scalar (ps_field ps) p.2 in
                                   if num_finite u then Some (mk_located p.1.2 (k - 1) u) else None
                       end
  end.

(** The predicate step of [_inspect_message]. *)
Lemma pred_match_hit ps pd prev m k x pd' :
  sl_predicate sel = Some ps → remembers pd prev k →
  pred_match ps pd m.2 m.1.2 k = Ok (x, pd') →
  hit_of prev m k = (match x with Some y => Some (Some y) | None => None end)
  ∧ remembers pd' (Some m) (k + 1).
Proof using Type.
  intros Hps Hr H. unfold remembers, hit_of in *. rewrite Hps in *. unfold pred_match in H.
  apply bind_Ok in H as (u & _ & H).
  replace (k + 1 - 1) with k by lia.
  destruct (num_finite (scalar (ps_field ps) m.2)) eqn:Hf; cbn [negb] in H |- *.
  - destruct (is_crossing (ps_op ps)) eqn:Hc; cbn [negb] in H |- *.
    + rewrite (Hr eq_refl) in H. destruct prev as [p|]; [|by injection H as <- <-].
      destruct (num_finite (scalar (ps_field ps) p.2)) eqn:Hp; [|by injection H as <- <-].
      cbn [andb]. injection H as <- <-. split; [|done]. cbn [lc_value].
      by destruct (if decide _ then _ else _).
    + injection H as <- <-. split; [|done]. by destruct (comparison _ _ _).
  - injection H as <- <-. done.
Qed.

(** *** The budgets keep a prefix *)

(** [r'] follows [r] after [rows] were offered: a prefix of them was kept. *)
Definition kept (r r' : results) (rows : list json) : Prop :=
  ∃ n, rs_rows r' = rs_rows r ++ take n rows ∧ (n ≤ length rows)%nat
    ∧ op_omitted (rs_output r') = op_omitted (rs_output r) + (zlen rows - Z.of_nat n)
    ∧ (op_complete (rs_output r) = false → n = 0%nat ∧ op_complete (rs_output r') = op_complete (rs_output r))
    ∧ (op_complete (rs_output r) = true → op_complete (rs_output r') = bool_decide (n = length rows))
    ∧ (zlen (rs_rows r) ≤ lm_max_results lim → zlen (rs_rows r') ≤ lm_max_results lim).

Lemma kept_refl r : kept r r [].
Proof using Type.
  exists 0%nat. split_and!; try done; unfold zlen; cbn; [by rewrite app_nil_r|lia].
Qed.

Lemma kept_trans r1 r2 r3 a b : kept r1 r2 a → kept r2 r3 b → kept r1 r3 (a ++ b).
Proof using Type.
  intros (n & Hr & Hn & Ho & Hf & Ht & Hm) (k & Hr' & Hk & Ho' & Hf' & Ht' & Hm').
  assert (Hl : zlen (a ++ b) = zlen a + zlen b) by apply zlen_app.
  unfold kept. rewrite length_app, Hl. unfold zlen in Ho, Ho' |- *.
  destruct (op_complete (rs_output r1)) eqn:Hc1.
  - specialize (Ht eq_refl). destruct (decide (n = length a)) as [->|Hne].
    + rewrite bool_decide_eq_true_2 in Ht by done. specialize (Ht' Ht).
      exists (length a + k)%nat. split; [by rewrite Hr', Hr, firstn_all, take_app_add, <- app_assoc|].
      split_and!; [lia|lia|congruence| |auto].
      intros _. rewrite Ht'. apply bool_decide_ext. lia.
    + rewrite bool_decide_eq_false_2 in Ht by done. destruct (Hf' Ht) as [-> Hc3].
      exists n. split; [by rewrite Hr', Hr, take_0, app_nil_r, take_app_le by lia|].
      split_and!; [lia|lia|congruence| |auto].
      intros _. rewrite Hc3, Ht. symmetry. apply bool_decide_eq_false. lia.
  - destruct (Hf eq_refl) as [-> Hc2]. destruct (Hf' Hc2) as [-> Hc3].
    exists 0%nat. split; [by rewrite Hr', Hr, !take_0, !app_nil_r|].
    split_and!; [lia|lia|by rewrite Hc3, Hc2|done|auto].
Qed.

Lemma kept_omit r loc why row : kept r (omit r loc why) [row].
Proof using Type.
  exists 0%nat. unfold omit, zlen. cbn. split_and!; try done; try lia.
  by rewrite app_nil_r.
Qed.

Lemma accepting_spec r loc ok r' :
  accepting lim r loc = (ok, r') →
  if ok then r' = r ∧ op_complete (rs_output r) = true ∧ zlen (rs_rows r) < lm_max_results lim
  else ∃ why, r' = omit r loc why.
Proof using Type.
  unfold accepting. destruct (op_complete (rs_output r)) eqn:Hc; cbn [negb].
  - destruct (Z.leb_spec (lm_max_results lim) (zlen (rs_rows r))); intros [= <- <-]; eauto.
  - intros [= <- <-]. eauto.
Qed.

(** An offered row is kept or omitted. *)
Lemma append_row_kept r data t k x r' :
  append_row repr_size req lim sel r data t k x = Ok r' →
  kept r r' [row_json req sel data t k x].
Proof using Type.
  unfold append_row. destruct (accepting lim r _) as [ok r1] eqn:Ha.
  apply accepting_spec in Ha. destruct ok; cbn [negb].
  - destruct Ha as (-> & Hc & Hm). destruct (_ <? _).
    + intros [= <-]. apply kept_omit.
    + unfold res_add. intros (size & _ & [= <-])%bind_Ok. destruct (_ <? _).
      * apply kept_omit.
      * exists 1%nat. rewrite Hc. unfold zlen in *. cbn [rs_rows rs_output].
        split_and!; try done; try lia; [cbn; lia|].
        intros _. rewrite length_app. cbn. lia.
  - destruct Ha as [why ->]. intros [= <-]. apply kept_omit.
Qed.

(** *** One Message, and the whole loop *)

Lemma inspect_rows st m k prev st' :
  qs_summaries st = [] → remembers (qs_pred st) prev k →
  inspect_message repr_size req lim sel st m.2 m.1.2 k = Ok st' →
  qs_summaries st' = [] ∧ remembers (qs_pred st') (Some m) (k + 1)
  ∧ sc_messages (qs_scan st') = sc_messages (qs_scan st) + 1
  ∧ sc_complete (qs_scan st') = sc_complete (qs_scan st)
  ∧ sc_matches (qs_scan st') = sc_matches (qs_scan st) + zlen (hits prev k [m])
  ∧ kept (qs_results st) (qs_results st') (row_of <$> hits prev k [m]).
Proof using Type.
  intros Hs Hr H. unfold inspect_message in H. apply bind_Ok in H as (u & _ & H).
  assert (∃ skip x pd, (match sl_predicate sel with
      | None => Ok (false, None, qs_pred st)
      | Some ps => '(m0, pd) ← pred_match ps (qs_pred st) m.2 m.1.2 k;
                   Ok (match m0 with None => true | Some _ => false end, m0, pd)
      end : queried (bool * option matched * pred_state)) = Ok (skip, x, pd)
    ∧ hit_of prev m k = (if skip then None else Some x)
    ∧ remembers pd (Some m) (k + 1)) as (skip & x & pd & Hp & Hh & Hr').
  { apply bind_Ok in H as ([[skip x] pd] & Hp & _). exists skip, x, pd.
    destruct (sl_predicate sel) as [ps|] eqn:Hps.
    - pose proof Hp as ([y pd1] & Hm & Heq)%bind_Ok. injection Heq as <- <- <-.
      split; [done|]. destruct (pred_match_hit ps _ prev m k y pd1 Hps Hr Hm) as [Hh Hr'].
      split; [|done]. rewrite Hh. by destruct y.
    - injection Hp as <- <- <-. split; [done|].
      unfold hit_of, remembers. by rewrite Hps. }
  rewrite Hp in H. cbn [mbind result_bind] in H.
  cbn [hits]. rewrite app_nil_r, Hh. destruct skip.
  - injection H as <-. unfold zlen. cbn. split_and!; try done; [lia|apply kept_refl].
  - rewrite Hs in H. apply bind_Ok in H as (r & Ha & [= <-]). cbn.
    split_and!; try done. by apply append_row_kept.
Qed.

Definition limit_of (n : nat) : nat :=
  match lm_max_messages lim with Some l => Nat.min n (Z.to_nat l) | None => n end.

Lemma hits_app prev k a m b :
  hits prev k (a ++ m :: b) = hits prev k (a ++ [m]) ++ hits (Some m) (k + zlen a + 1) b.
Proof using Type.
  revert prev k. induction a as [|x a IH]; intros prev k; cbn [hits app].
  - rewrite app_nil_r. f_equal. f_equal. unfold zlen. cbn. lia.
  - rewrite IH, app_assoc. do 2 f_equal. unfold zlen. cbn. lia.
Qed.

(** The rows loop, from index [k]. *)
Lemma run_loop_rows ms k prev st st' :
  0 ≤ k → match lm_max_messages lim with Some l => k ≤ l | None => True end →
  qs_summaries st = [] → remembers (qs_pred st) prev k →
  run_loop repr_size req lim sel ms None k st = Ok st' →
  let n := match lm_max_messages lim with
           | Some l => Nat.min (length ms) (Z.to_nat (l - k)) | None => length ms end in
  let seen := take n ms in
  sc_messages (qs_scan st') = sc_messages (qs_scan st) + zlen seen
  ∧ sc_complete (qs_scan st') = (sc_complete (qs_scan st) && bool_decide (length ms = n))
  ∧ sc_matches (qs_scan st') = sc_matches (qs_scan st) + zlen (hits prev k seen)
  ∧ kept (qs_results st) (qs_results st') (row_of <$> hits prev k seen)
  ∧ qs_summaries st' = [].
Proof using Type.
  revert k prev st. induction ms as [|[[tp t] data] ms IH]; intros k prev st Hk Hl Hs Hr; cbn zeta.
  - cbn [run_loop]. intros [= <-].
    replace (match lm_max_messages lim with Some l => _ | None => _ end) with 0%nat
      by (destruct (lm_max_messages lim); cbn; lia).
    cbn. rewrite andb_true_r. unfold zlen. cbn. split_and!; try done; try lia. apply kept_refl.
  - cbn [run_loop]. destruct (lm_max_messages lim) as [l|] eqn:Hlim; [destruct (Z.leb_spec l k)|].
    + intros [= <-]. replace (Nat.min _ _) with 0%nat by (replace (l - k) with 0 by lia; done).
      cbn. rewrite andb_false_r. unfold zlen. cbn. split_and!; try done; try lia. apply kept_refl.
    + intros (st1 & H1 & H2)%bind_Ok.
      destruct (inspect_rows st (tp, t, data) k prev st1 Hs Hr H1)
        as (Hs1 & Hr1 & Hm1 & Hc1 & Hh1 & Hk1).
      destruct (IH (k + 1) (Some (tp, t, data)) st1 ltac:(lia) ltac:(lia) Hs1 Hr1 H2)
        as (Hm & Hc & Hh & Hkp & Hsum).
      replace (Nat.min (length ((tp, t, data) :: ms)) (Z.to_nat (l - k)))
        with (S (Nat.min (length ms) (Z.to_nat (l - (k + 1))))) by (cbn [length]; lia).
      cbn [take]. set (n := Nat.min (length ms) (Z.to_nat (l - (k + 1)))) in *.
      cbn [hits] in Hh1, Hk1 |- *. rewrite app_nil_r in Hh1, Hk1.
      rewrite fmap_app. rewrite Hm, Hc, Hh, Hm1, Hc1, Hh1, zlen_cons, zlen_app.
      split_and!; try lia; [|by eapply kept_trans|done].
      f_equal. apply bool_decide_ext. cbn [length]. lia.
    + intros (st1 & H1 & H2)%bind_Ok.
      destruct (inspect_rows st (tp, t, data) k prev st1 Hs Hr H1)
        as (Hs1 & Hr1 & Hm1 & Hc1 & Hh1 & Hk1).
      destruct (IH (k + 1) (Some (tp, t, data)) st1 ltac:(lia) I Hs1 Hr1 H2)
        as (Hm & Hc & Hh & Hkp & Hsum).
      cbn [take length]. rewrite firstn_all in *.
      cbn [hits] in Hh1, Hk1 |- *. rewrite app_nil_r in Hh1, Hk1.
      rewrite fmap_app. rewrite Hm, Hc, Hh, Hm1, Hc1, Hh1, zlen_cons, zlen_app.
      split_and!; try lia; [|by eapply kept_trans|done].
      f_equal. apply bool_decide_ext. lia.
Qed.
End scan_spec.

Lemma size_report_Ok repr sha ssha ssize req lim cr tries r mx r' :
  size_report repr sha ssha ssize req lim cr tries r mx = Ok r' →
  serialized_size repr (report_json sha ssha ssize req lim cr r')
    = Ok (op_serialized_bytes (qr_output r'))
  ∧ op_serialized_bytes (qr_output r') ≤ mx
  ∧ qr_status r' = qr_status r ∧ qr_results r' = qr_results r ∧ qr_scan r' = qr_scan r
  ∧ op_returned (qr_output r') = op_returned (qr_output r)
  ∧ op_omitted (qr_output r') = op_omitted (qr_output r).
Proof.
  revert r. induction tries as [|tries IH]; intros r; [done|]. cbn [size_report].
  intros (size & Hs & (u & Hm & H)%bind_Ok)%bind_Ok. apply raise_if_Ok, Z.ltb_ge in Hm.
  destruct (Z.eqb_spec (op_serialized_bytes (qr_output r)) size) as [<-|].
  - injection H as <-. done.
  - apply IH in H as (H1 & H2 & H3 & H4 & H5 & H6 & H7). done.
Qed.

(** An accepted index is made of digits. *)
Lemma split_index_digits cs ds name ds' :
  Forall (λ c, is_digit c = true) ds → split_index cs ds = Some (name, ds') →
  Forall (λ c, is_digit c = true) ds'.
Proof.
  revert ds. induction cs as [|c cs IH]; intros ds Hd; cbn; [done|].
  destruct (Ascii.eqb c "["); [by intros [= <- <-]|].
  destruct (is_digit c) eqn:Hc; [|done]. apply IH. by constructor.
Qed.

Lemma parse_selector_digits s name ds :
  parse_selector s = Some (name, ds) → Forall (λ c, is_digit c = true) ds.
Proof.
  unfold parse_selector. destruct (reverse _) as [|c cs]; [done|].
  destruct (Ascii.eqb c "]"); [|done].
  destruct (split_index cs []) as [[nr ds']|] eqn:Hs; cbn; [|done].
  destruct (_ && _); [|done]. intros [= _ <-]. by eapply split_index_digits, Hs.
Qed.

Lemma digits_value_nonneg ds : Forall (λ c, is_digit c = true) ds → 0 ≤ digits_value ds.
Proof.
  unfold digits_value. assert (∀ z, 0 ≤ z → Forall (λ c, is_digit c = true) ds →
    0 ≤ fold_left (λ z c, 10 * z + (Z.of_nat (nat_of_ascii c) - 48)) ds z) as H; [|by apply H].
  induction ds as [|c ds IH]; intros z Hz Hf; cbn [fold_left]; [done|].
  inversion Hf as [|? ? Hc Hds]; subst. apply IH; [|done].
  unfold is_digit, char_between in Hc. apply andb_true_iff in Hc as [Hc _].
  apply Nat.leb_le in Hc. change (nat_of_ascii "0") with 48%nat in Hc. lia.
Qed.

(** ** Properties *)

(** Offsets agree with the codec: a selector that is accepted for a
    schema, applied to a payload of the schema's size, gives the document of the
    value the codec unpacks for that field, or, for ["name[i]"], of element [i]
    of the array [name]. *)
Theorem selector_agrees spec selector f size data :
  fields spec [selector] = Ok ([f], size) → zlen data = size →
  ∃ fs vals, fields_of_json spec = Some fs ∧ size = Z.of_nat (mt_size fs)
    ∧ mt_unpack fs data = Ok vals
    ∧ ((∃ v, dget vals selector = Some v ∧ decode f data = value_json v)
       ∨ (∃ name ds v x, parse_selector selector = Some (name, ds)
            ∧ dget vals name = Some v ∧ elements v !! Z.to_nat (digits_value ds) = Some x
            ∧ decode f data = qjson_num x)).
Proof.
  unfold fields. intros ([lay sz] & Hlay & (l & Hl & [= -> ->])%bind_Ok)%bind_Ok Hsz.
  apply layout_of_Ok in Hlay as (fs & Hfs & Hnd & -> & ->).
  assert (Hlen : length data = mt_size fs) by (unfold zlen in Hsz; lia).
  exists fs, (zip (fd_name <$> fs) (field_values fs data)).
  split_and!; [done|done|by apply mt_unpack_values|].
  cbn [mapE] in Hl. apply bind_Ok in Hl as (g & Hg & Hl).
  injection Hl as <-. unfold select in Hg.
  assert (Hval : ∀ name qf, dget (qfields_of fs 0) name = Some qf →
    ∃ g o, qf = mk_qfield name (fd_type g) o (Z.of_nat <$> fd_count g)
      ∧ 0 ≤ o ∧ o + field_bytes g ≤ zlen data
      ∧ dget (zip (fd_name <$> fs) (field_values fs data)) name
        = Some (field_value g (drop (Z.to_nat o) data))).
  { intros name qf Hq.
    destruct (qfields_of_value fs data 0 name qf) as (g' & o & H1 & H2 & H3 & H4);
      [lia|by rewrite total_bytes_size|done|]. rewrite drop_0 in H4. eauto 10. }
  destruct (dget (qfields_of fs 0) selector) as [qf|] eqn:Hq.
  - injection Hg as <-. left. apply Hval in Hq as (h & o & -> & Ho1 & Ho2 & Hd).
    eexists. split; [exact Hd|]. by apply decode_value.
  - right. destruct (parse_selector selector) as [[name ds]|] eqn:Hps; [|done].
    destruct (dget (qfields_of fs 0) name) as [qf|] eqn:Hq'; [|done].
    apply Hval in Hq' as (h & o & -> & Ho1 & Ho2 & Hd). cbn [qf_count] in Hg.
    apply bind_Ok in Hg as (u & _ & Hg). destruct (fd_count h) as [n|] eqn:Hn; [|done].
    cbn [fmap option_fmap option_map] in Hg. apply bind_Ok in Hg as (u' & Hi & [= <-]).
    apply raise_if_Ok, Z.leb_gt in Hi. cbn [qf_type qf_offset].
    exists name, ds, (field_value h (drop (Z.to_nat o) data)). eexists.
    split_and!; [done|exact Hd| |done].
    apply scalar_element with n; [done..|]. split; [|done]. apply digits_value_nonneg.
    by eapply parse_selector_digits.
Qed.

Definition demo_spec : json :=
  JObj [("fields"%string, JArr
    [JObj [("name"%string, JStr "v"); ("type"%string, JStr "i16")];
     JObj [("name"%string, JStr "a"); ("type"%string, JStr "u16"); ("count"%string, JInt 2)]])].

Lemma selector_agrees_witness :
  ∃ fs vals, fields_of_json demo_spec = Some fs ∧ 6 = Z.of_nat (mt_size fs)
    ∧ mt_unpack fs [x01; x00; x02; x00; x03; x01] = Ok vals
    ∧ ((∃ v, dget vals "a[1]"%string = Some v
         ∧ decode (mk_qfield "a[1]" U16 4 None) [x01; x00; x02; x00; x03; x01] = value_json v)
       ∨ (∃ name ds v x, parse_selector "a[1]" = Some (name, ds)
            ∧ dget vals name = Some v ∧ elements v !! Z.to_nat (digits_value ds) = Some x
            ∧ decode (mk_qfield "a[1]" U16 4 None) [x01; x00; x02; x00; x03; x01] = qjson_num x)).
Proof.
  apply (selector_agrees demo_spec "a[1]" (mk_qfield "a[1]" U16 4 None) 6
           [x01; x00; x02; x00; x03; x01]); vm_compute; reflexivity.
Defined.

(** A summary of any values: it counts them all, its finite and non-finite
    counts add up, and its minimum (maximum) is one of the finite values that no
    other undercuts (exceeds), the earliest in (time, index) among equal ones. *)
Theorem summary_extremes field vs :
  let s := fold_left add_located vs (new_summary field) in
  sr_count s = zlen vs ∧ sr_finite s = zlen (finite_of vs)
  ∧ sr_count s = sr_finite s + sr_nonfinite s
  ∧ is_extreme num_lt (finite_of vs) (sr_min s)
  ∧ is_extreme (λ a b, num_lt b a) (finite_of vs) (sr_max s).
Proof. apply summary_spec. Qed.

Lemma query_Ok repr sha ssha stamp before after r req lim rep :
  query repr sha ssha stamp before after r req lim = Ok rep →
  ∃ sel rem st, prepare_selection repr r req = Ok sel
    ∧ match lm_max_messages lim with Some l => 0 ≤ l | None => True end
    ∧ 1 ≤ lm_max_results lim
    ∧ run repr req lim sel (rv_read r (query_filter req))
        (mk_qstate new_scan pred_init
           (if String.eqb (rq_mode req) "summary" then (λ f, new_summary (qf_name f)) <$> sl_fields sel
            else []) (mk_results [] new_output rem)) = Ok st
    ∧ finish repr sha ssha (zlen (rv_bytes r)) req lim (sel_crossing sel)
        (qs_scan st) (qs_results st) = Ok rep.
Proof.
  unfold query. intros H.
  apply bind_Ok in H as (u1 & _ & H). apply bind_Ok in H as (u2 & Hlim & H).
  apply bind_Ok in H as (u3 & _ & H). apply bind_Ok in H as (sel & Hsel & H).
  apply bind_Ok in H as (bound & _ & H). apply bind_Ok in H as (u4 & _ & H).
  apply bind_Ok in H as (st & Hrun & H). apply bind_Ok in H as (u5 & _ & H).
  exists sel, (lm_max_bytes lim - bound), st. split; [exact Hsel|].
  unfold limits_validate in Hlim. apply bind_Ok in Hlim as (? & H1%raise_if_Ok & Hlim).
  apply bind_Ok in Hlim as (? & _ & H3%raise_if_Ok).
  split; [destruct (lm_max_messages lim); [lia|exact I]|]. split; [lia|].
  split; [exact Hrun|exact H].
Qed.

(** The scan part of a row query, and what [finish] makes of it. *)
Lemma run_rows repr req lim sel msgs rem st :
  match lm_max_messages lim with Some l => 0 ≤ l | None => True end →
  run repr req lim sel (msgs, None)
    (mk_qstate new_scan pred_init [] (mk_results [] new_output rem)) = Ok st →
  let seen := take (limit_of lim (length msgs)) msgs in
  let hs := hits sel None 0 seen in
  sc_messages (qs_scan st) = zlen seen
  ∧ sc_complete (qs_scan st) = bool_decide (length msgs = length seen)
  ∧ sc_matches (qs_scan st) = zlen hs
  ∧ kept lim (mk_results [] new_output rem) (qs_results st) (row_of req sel <$> hs).
Proof.
  intros Hpos Hrun. cbn zeta. unfold run in Hrun. cbn [fst snd] in Hrun.
  apply bind_Ok in Hrun as (st1 & Hloop & Hrun).
  pose proof (λ a b c d, run_loop_rows repr req lim sel msgs 0 None _ st1 a b c d Hloop) as Hrl.
  destruct (Hrl ltac:(lia) Hpos eq_refl ltac:(unfold remembers; by destruct (sl_predicate sel)))
    as (Hm & Hc & Hh & Hk & Hs). clear Hrl Hloop.
  assert (Hn : (match lm_max_messages lim with
    | Some l => Nat.min (length msgs) (Z.to_nat (l - 0)) | None => length msgs end)
    = limit_of lim (length msgs)).
  { unfold limit_of. destruct (lm_max_messages lim); [|done]. by rewrite Z.sub_0_r. }
  rewrite Hn in *. clear Hn.
  assert (Hlen : length (take (limit_of lim (length msgs)) msgs) = limit_of lim (length msgs)).
  { rewrite length_take. unfold limit_of. destruct (lm_max_messages lim); lia. }
  rewrite Hlen. rewrite Hs in Hrun. cbn [foldE mbind result_bind] in Hrun.
  injection Hrun as <-. cbn [qs_scan qs_results] in *.
  split_and!; [| | |exact Hk].
  - etransitivity; [|exact Hm]. by destruct (sl_predicate sel).
  - etransitivity; [|exact Hc]. by destruct (sl_predicate sel).
  - etransitivity; [|exact Hh]. by destruct (sl_predicate sel).
Qed.

Lemma finish_eq repr sha ssha size req lim cr sc res :
  finish repr sha ssha size req lim cr sc res
  = size_report repr sha ssha size req lim cr 8
      (mk_qreport (if negb (sc_complete sc) then StIncomplete
                   else if op_complete (rs_output res) then StComplete else StLimited)
         (rs_rows res) sc
         (mk_output_part (op_complete (rs_output res)) (zlen (rs_rows res))
            (op_omitted (rs_output res)) (op_first_omitted (rs_output res))
            (op_serialized_bytes (rs_output res)))) (lm_max_bytes lim).
Proof. reflexivity. Qed.

(** What [finish] reports of a scan that kept a prefix of [rows]. *)
Lemma finish_kept repr sha ssha size req lim cr sc res rem rows rep :
  1 ≤ lm_max_results lim →
  kept lim (mk_results [] new_output rem) res rows →
  finish repr sha ssha size req lim cr sc res = Ok rep →
  qr_scan rep = sc
  ∧ ∃ n, qr_results rep = take n rows ∧ (n ≤ length rows)%nat
      ∧ Z.of_nat n ≤ lm_max_results lim
      ∧ op_returned (qr_output rep) = Z.of_nat n
      ∧ op_omitted (qr_output rep) = zlen rows - Z.of_nat n
      ∧ qr_status rep = (if sc_complete sc then
                           if bool_decide (n = length rows) then StComplete else StLimited
                         else StIncomplete).
Proof.
  intros Hres (n & Hrows & Hnl & Homit & _ & Hcomp & Hmax) Hfin.
  rewrite finish_eq in Hfin. revert Hfin. generalize 8%nat. intros tries Hfin.
  apply size_report_Ok in Hfin as (_ & _ & Hst & Hr & Hsc & Hret & Hom).
  split; [exact Hsc|]. specialize (Hcomp eq_refl).
  cbn [rs_rows rs_output app op_omitted new_output] in Hrows, Homit, Hmax.
  exists n. rewrite Hr, Hret, Hom, Hst.
  cbn [qr_results qr_output op_returned op_omitted qr_status].
  assert (Hl : zlen (rs_rows res) = Z.of_nat n) by (unfold zlen; rewrite Hrows, length_take; lia).
  rewrite Hl in *. split_and!; [exact Hrows|exact Hnl| |reflexivity|lia|].
  - apply Hmax. unfold zlen. cbn. lia.
  - rewrite Hcomp. by destruct (sc_complete sc).
Qed.

(** C22. A row query over a Recording that keeps the read promise: the scan
    inspects the selected Messages in stored order up to [max_messages] and says
    whether that was all of them; the results are a prefix of the rows of the
    Messages the predicate selects (for a crossing, by the Message directly
    before), at most [max_results], with every other match counted as omitted;
    and the status says which of the limits was met. *)
Theorem query_rows repr sha ssha stamp before after r req lim rep :
  FilteredReads r → rq_mode req = "rows"%string →
  query repr sha ssha stamp before after r req lim = Ok rep →
  ∃ sel, prepare_selection repr r req = Ok sel ∧
    let msgs := filter (λ m, matches_message (query_filter req) m = true)
                  (rv_read r no_filter).1 in
    let seen := take (limit_of lim (length msgs)) msgs in
    let hs := hits sel None 0 seen in
    sc_messages (qr_scan rep) = zlen seen
    ∧ sc_complete (qr_scan rep) = bool_decide (length msgs = length seen)
    ∧ sc_matches (qr_scan rep) = zlen hs
    ∧ ∃ n, qr_results rep = take n (row_of req sel <$> hs) ∧ (n ≤ length hs)%nat
        ∧ Z.of_nat n ≤ lm_max_results lim
        ∧ op_returned (qr_output rep) = Z.of_nat n
        ∧ op_omitted (qr_output rep) = zlen hs - Z.of_nat n
        ∧ qr_status rep = (if bool_decide (length msgs = length seen) then
                             if bool_decide (n = length hs) then StComplete else StLimited
                           else StIncomplete).
Proof.
  intros HF Hmode (sel & rem & st & Hsel & Hpos & Hres & Hrun & Hfin)%query_Ok.
  exists sel. split; [exact Hsel|]. cbn zeta. rewrite (filtered_reads (query_filter req)) in Hrun.
  assert (String.eqb (rq_mode req) "summary" = false) as Hsum by (by rewrite Hmode).
  rewrite Hsum in Hrun. clear Hsum.
  set (msgs := filter _ _) in *. apply run_rows in Hrun as (Hm & Hc & Hh & Hk); [|exact Hpos].
  set (seen := take _ msgs) in *. set (hs := hits sel None 0 seen) in *.
  apply (finish_kept _ _ _ _ _ _ _ _ _ rem (row_of req sel <$> hs)) in Hfin as [Hsc Hfin];
    [|exact Hres|exact Hk].
  rewrite Hsc. split; [exact Hm|]. split; [exact Hc|]. split; [exact Hh|].
  destruct Hfin as (n & H1 & H2 & H3 & H4 & H5 & H6). exists n.
  rewrite length_fmap in H2, H6. unfold zlen in H5. rewrite length_fmap in H5. rewrite Hc in H6.
  split; [exact H1|]. split; [exact H2|]. split; [exact H3|]. split; [exact H4|].
  split; [exact H5|exact H6].
Qed.

Definition demo_messages : list message :=
  [("plant"%string, 0, [x01; x00; x00; x00; x00; x00]);
   ("other"%string, 3, []);
   ("plant"%string, 5, [x09; x00; x00; x00; x00; x00]);
   ("plant"%string, 7, [x0a; x00; x00; x00; x00; x00]);
   ("plant"%string, 9, [x02; x00; x00; x00; x00; x00])].
Definition demo_rec : recording :=
  list_recording [x00] [mk_recorded "plant" "Plant" demo_spec] demo_messages.
Definition demo_request : request :=
  mk_request "plant" ["v"; "a[1]"]%string (Some 0) (Some 9) "rows"
    (Some (mk_predicate "v" "cross-up" (JInt 4))).
Definition demo_limits : limits := mk_limits 10 65536 None.
Definition demo_query : queried qreport :=
  query (λ _, 18) (λ _, "h"%string) "s" [1] [1] [1] demo_rec demo_request demo_limits.
Definition demo_result : qreport := match demo_query with Ok r => r | Err _ => new_report end.

Lemma query_rows_witness :
  ∃ sel, prepare_selection (λ _, 18) demo_rec demo_request = Ok sel ∧
    let msgs := filter (λ m, matches_message (query_filter demo_request) m = true)
                  (rv_read demo_rec no_filter).1 in
    let seen := take (limit_of demo_limits (length msgs)) msgs in
    let hs := hits sel None 0 seen in
    sc_messages (qr_scan demo_result) = zlen seen
    ∧ sc_complete (qr_scan demo_result) = bool_decide (length msgs = length seen)
    ∧ sc_matches (qr_scan demo_result) = zlen hs
    ∧ ∃ n, qr_results demo_result = take n (row_of demo_request sel <$> hs) ∧ (n ≤ length hs)%nat
        ∧ Z.of_nat n ≤ lm_max_results demo_limits
        ∧ op_returned (qr_output demo_result) = Z.of_nat n
        ∧ op_omitted (qr_output demo_result) = zlen hs - Z.of_nat n
        ∧ qr_status demo_result = (if bool_decide (length msgs = length seen) then
                             if bool_decide (n = length hs) then StComplete else StLimited
                           else StIncomplete).
Proof.
  apply (query_rows (λ _, 18) (λ _, "h"%string) "s" [1] [1] [1] demo_rec demo_request demo_limits).
  - apply list_filtered_reads.
  - reflexivity.
  - vm_compute. reflexivity.
Defined.

(** Only the crossing from 1 to 9 is found. *)
Example demo_query_found :
  length (qr_results demo_result) = 1%nat ∧ sc_messages (qr_scan demo_result) = 3.
Proof. vm_compute. split; reflexivity. Qed.

(** A report describes itself: the serialized size it states is the size
    of its own canonical text, which is within [max_bytes]. *)
Theorem query_report_size repr sha ssha stamp before after r req lim rep :
  query repr sha ssha stamp before after r req lim = Ok rep →
  ∃ crossing,
    serialized_size repr (report_json sha ssha (zlen (rv_bytes r)) req lim crossing rep)
      = Ok (op_serialized_bytes (qr_output rep))
    ∧ op_serialized_bytes (qr_output rep) ≤ lm_max_bytes lim.
Proof.
  intros (sel & rem & st & _ & _ & _ & _ & Hfin)%query_Ok. exists (sel_crossing sel).
  rewrite finish_eq in Hfin. revert Hfin. generalize 8%nat. intros tries Hfin.
  apply size_report_Ok in Hfin as (Hs & Hb & _). split; [exact Hs|exact Hb].
Qed.

Lemma query_report_size_witness :
  ∃ crossing,
    serialized_size (λ _, 18) (report_json (λ _, "h"%string) "s" (zlen (rv_bytes demo_rec))
      demo_request demo_limits crossing demo_result)
      = Ok (op_serialized_bytes (qr_output demo_result))
    ∧ op_serialized_bytes (qr_output demo_result) ≤ lm_max_bytes demo_limits.
Proof.
  apply (query_report_size (λ _, 18) (λ _, "h"%string) "s" [1] [1] [1]).
  vm_compute. reflexivity.
Defined.
