(* ===== verification/ReplayWindow.v ===== *)
(** * Replay windows

    Models [python/src/sil/replay_window.py]: the window document
    ([parse_window]), the selection with its coverage checks, initial holds and
    gap limit ([select]), the rebase to Virtual time zero with the named
    source-time fields ([rebased]), the written Recording as a sequence of
    writer calls ([write_recording]) and the receipt ([receipt]). The mcap
    reader and writer, SHA-256 and the JSON tokenizer are parameters; the ids
    the writer hands out are parameters of [write_recording]. *)

From Stdlib Require Import ZArith Lia.
From S2P Require Import Prelude PyFloat Json SchemaTypes Schema Recording.

Inductive window_error :=
| WNotJson
| DuplicateKey (key : string)
| NotAnObjectDoc
| UnknownKeys (keys : list string)
| MissingKeys (keys : list string)
| BadVersion (v : json)
| BadInstant (key : string) (v : json)
| ReplayBeforeOrigin (replay origin : Z)
| EvaluationBeforeReplay (evaluation replay : Z)
| EmptyEvaluation (end_ evaluation : Z)
| NotNonEmptyArray (context : string)
| NotName (context : string) (v : json)
| SelectedTwice (context name : string)
| FieldsNotObjectW
| FieldTwice (channel field : string)
| NotSelected (key name : string)
| BadMaxGap (v : json)
| NotMcapOutput
| SourceUnreadable (e : read_error)
| NoSuchChannel (name : string)
| NotSilSchema (schema : string)
| NoSuchField (channel field : string)
| NotTimeField (channel field : string)
| NoMessages (channel : string)
| MissingHistory (channel : string) (first : Z)
| EndsEarly (channel : string) (last : Z)
| EndsMaxGapEarly (channel : string) (last : Z)
| EmptySelection (channel : string)
| GapTooLong (channel : string) (start stop : Z)
| BeforeOrigin (channel field : string) (value : Z)
| DoesNotFit (channel field : string) (value rebased : Z)
| NullCount (channel : string)  (** [TypeError] of a field's null "count", which no caller handles *)
| ShortPayload (channel : string).  (** [struct.error], which no caller handles *)

Abbreviation windowed := (result window_error).

(** [_Window]. *)
Record window := mk_window {
  w_origin : Z;
  w_replay_start : Z;
  w_evaluation_start : Z;
  w_end : Z;
  w_channels : list string;
  w_hold_initial : list string;
  w_source_time_fields : list (string * list string);
  w_max_gap : option Z;
}.

Definition virtual (w : window) (source_ns : Z) : Z := source_ns - w_origin w.

(** ** The document *)

(** [_unique_keys]: the first key that is already there. *)
Fixpoint keys_unique (seen : list string) (pairs : list (string * json)) : windowed () :=
  match pairs with
  | [] => Ok ()
  | (k, _) :: pairs => if decide (k ∈ seen) then Err (DuplicateKey k)
                       else keys_unique (seen ++ [k]) pairs
  end.

Definition window_pairs (pairs : list (string * json)) : windowed json :=
  _ ← keys_unique [] pairs; Ok (JObj pairs).

Definition INSTANTS : list string :=
  ["source_origin_ns"; "replay_start_ns"; "evaluation_start_ns"; "end_ns"]%string.
Definition REQUIRED : list string := "sil_replay_window"%string :: INSTANTS ++ ["channels"%string].
Definition OPTIONAL : list string := ["hold_initial"; "source_time_fields"; "max_gap_ns"]%string.

Definition instant (v : json) (key : string) : windowed Z :=
  match v with
  | JInt z => if in_range 0 u64_max z then Ok z else Err (BadInstant key v)
  | _ => Err (BadInstant key v)
  end.

(** The loop of [_names]. *)
Definition add_name (context : string) (names : list string) (item : json)
    : windowed (list string) :=
  match item with
  | JStr s => if String.eqb s "" then Err (NotName context item)
              else if decide (s ∈ names) then Err (SelectedTwice context s)
              else Ok (names ++ [s])
  | _ => Err (NotName context item)
  end.

Definition names (v : json) (context : string) : windowed (list string) :=
  match v with
  | JArr (x :: l) => foldE (add_name context) [] (x :: l)
  | _ => Err (NotNonEmptyArray context)
  end.

Definition field_name (context : string) (v : json) : windowed string :=
  match v with
  | JStr s => if String.eqb s "" then Err (NotName context v) else Ok s
  | _ => Err (NotName context v)
  end.

(** [sorted({n for n in names if names.count(n) > 1})]: the least repeated name. *)
Definition repeated (l : list string) : list string :=
  merge_sort String.le (filter (λ n, 1 < length (filter (λ m, m = n) l))%nat l).

Definition channel_fields (channel : string) (v : json) : windowed (string * list string) :=
  match v with
  | JArr (x :: l) =>
      ns ← mapE (field_name channel) (x :: l);
      match repeated ns with
      | n :: _ => Err (FieldTwice channel n)
      | [] => Ok (channel, ns)
      end
  | _ => Err (NotNonEmptyArray channel)
  end.

Definition source_time_fields (v : json) : windowed (list (string * list string)) :=
  match v with
  | JObj d => mapE (λ '(c, ns), channel_fields c ns) d
  | _ => Err FieldsNotObjectW
  end.

Definition all_selected (key : string) (selected : list string) (ns : list string) : windowed () :=
  match list_find (λ n, ¬ (n ∈ selected)) ns with
  | Some (_, n) => Err (NotSelected key n)
  | None => Ok ()
  end.

Definition ditem (d : list (string * json)) (k : string) : json := default JNull (dget d k).

(** [_window]. *)
Definition window_of (doc : json) : windowed window :=
  match doc with
  | JObj d =>
      let unknown := merge_sort String.le (filter (λ k, ¬ (k ∈ REQUIRED ++ OPTIONAL)) d.*1) in
      _ ← raise_if (negb (bool_decide (unknown = []))) (UnknownKeys unknown);
      let missing := merge_sort String.le (filter (λ k, ¬ (k ∈ d.*1)) REQUIRED) in
      _ ← raise_if (negb (bool_decide (missing = []))) (MissingKeys missing);
      let version := ditem d "sil_replay_window" in
      _ ← raise_if (is_boolean version || negb (py_eq_int version 1)) (BadVersion version);
      origin ← instant (ditem d "source_origin_ns") "source_origin_ns";
      replay ← instant (ditem d "replay_start_ns") "replay_start_ns";
      evaluation ← instant (ditem d "evaluation_start_ns") "evaluation_start_ns";
      end_ ← instant (ditem d "end_ns") "end_ns";
      _ ← raise_if (replay <? origin) (ReplayBeforeOrigin replay origin);
      _ ← raise_if (evaluation <? replay) (EvaluationBeforeReplay evaluation replay);
      _ ← raise_if (end_ <=? evaluation) (EmptyEvaluation end_ evaluation);
      channels ← names (ditem d "channels") "'channels'";
      hold ← (if dmem d "hold_initial"%string
              then names (ditem d "hold_initial") "'hold_initial'" else Ok []);
      stf ← source_time_fields (default (JObj []) (dget d "source_time_fields"%string));
      _ ← all_selected "hold_initial" channels hold;
      _ ← all_selected "source_time_fields" channels stf.*1;
      gap ← match dget d "max_gap_ns"%string with
            | None => Ok None
            | Some (JInt g) => if in_range 1 u64_max g then Ok (Some g)
                               else Err (BadMaxGap (JInt g))
            | Some v => Err (BadMaxGap v)
            end;
      Ok (mk_window origin replay evaluation end_ channels hold stf gap)
  | _ => Err NotAnObjectDoc
  end.

(** [_parse_window]: [loads] decodes and tokenizes. *)
Definition parse_window (loads : bytes → option json) (data : bytes) : windowed window :=
  raw ← match loads data with Some raw => Ok raw | None => Err WNotJson end;
  doc ← pairs_hook window_pairs raw; window_of doc.

(** ** The source *)

(** [_SourceChannel], with the JSON of its schema text. *)
Record source_channel := mk_source {
  so_schema_name : string;
  so_schema_encoding : string;
  so_schema_data : bytes;
  so_message_encoding : string;
  so_schema : option json;
}.

(** [_read_source]: [topics] are the summary's Channels in order, [all] every
    Message in stored order. *)
Definition read_source (w : window) (topics : result read_error (list (string * source_channel)))
    (all : gen message) : windowed (list (string * source_channel) * list message) :=
  ts ← match topics with Ok ts => Ok ts | Err e => Err (SourceUnreadable e) end;
  let channels := fold_left (λ d '(n, c), dset d n c) ts [] in
  _ ← match list_find (λ n, ¬ (n ∈ channels.*1)) (w_channels w) with
      | Some (_, n) => Err (NoSuchChannel n)
      | None => Ok ()
      end;
  ms ← match all.2 with
       | Some e => Err (SourceUnreadable e)
       | None => Ok (filter (λ m : message, m.1.1 ∈ w_channels w) all.1)
       end;
  Ok (omap (λ n, (λ c, (n, c)) <$> dget channels n) (w_channels w), ms).

(** [_fields]: each field with its declaration. *)
Definition declared_fields (c : source_channel) : windowed (list (field * json)) :=
  match so_schema c ≫= λ v, match jget v "fields" with
                            | Some (JArr l) => mapM (λ d, (λ f, (f, d)) <$> field_of_json d) l
                            | _ => None
                            end with
  | Some ds => Ok ds
  | None => Err (NotSilSchema (so_schema_name c))
  end.

Definition schema_fields (c : source_channel) : windowed (list field) :=
  ds ← declared_fields c; Ok ds.*1.

(** ["count" in field], also of a null one. *)
Definition states_count (declaration : json) : bool :=
  match jget declaration "count" with Some _ => true | None => false end.

(** [_TIME_FIELD_TYPES]. *)
Definition time_range (p : prim) : option (Z * Z) :=
  match p with U64 | I64 => int_range p | _ => None end.

Definition find_last (ds : list (field * json)) (name : string) : option (field * json) :=
  dget (dict_of ((λ d : field * json, (fd_name d.1, d)) <$> ds)) name.

Definition check_time_field (channel : string) (ds : list (field * json)) (name : string)
    : windowed () :=
  match find_last ds name with
  | None => Err (NoSuchField channel name)
  | Some (f, declaration) =>
      raise_if (match time_range (fd_type f) with
                | Some _ => states_count declaration
                | None => true
                end) (NotTimeField channel name)
  end.

(** [_check_source_time_fields]. *)
Definition check_source_time_fields (w : window) (channels : list (string * source_channel))
    : windowed () :=
  foldE (λ _ '(channel, ns),
    match dget channels channel with
    | None => Err (NoSuchChannel channel)
    | Some c => ds ← declared_fields c; foldE (λ _ n, check_time_field channel ds n) () ns
    end) () (w_source_time_fields w).

(** ** Selection *)

(** [_times]. *)
Definition times_of (ms : list message) (channel : string) : list Z :=
  (λ m : message, m.1.2) <$> filter (λ m : message, m.1.1 = channel) ms.

(** [min] and [max] of a non-empty list. *)
Definition min_of (t : Z) (ts : list Z) : Z := foldr Z.min t ts.
Definition max_of (t : Z) (ts : list Z) : Z := foldr Z.max t ts.

(** [_check_span]. *)
Definition check_span (w : window) (channel : string) (ts : list Z) : windowed () :=
  match ts with
  | [] => Err (NoMessages channel)
  | t :: ts =>
      let first := min_of t ts in
      let last := max_of t ts in
      _ ← raise_if (w_replay_start w <? first) (MissingHistory channel first);
      match w_max_gap w with
      | None => raise_if (last <? w_end w - 1) (EndsEarly channel last)
      | Some g => raise_if (g <? w_end w - last) (EndsMaxGapEarly channel last)
      end
  end.

Definition inside (w : window) (ms : list message) : list message :=
  filter (λ m : message, w_replay_start w ≤ m.1.2 < w_end w) ms.

(** [max(reversed(before), key=lambda m: m.ns)]: of the latest time, the last. *)
Fixpoint latest (before : list message) : option message :=
  match before with
  | [] => None
  | m :: before => match latest before with
                   | None => Some m
                   | Some l => if l.1.2 <? m.1.2 then Some m else Some l
                   end
  end.

Definition set_ns (m : message) (ns : Z) : message := (m.1.1, ns, m.2).

(** One Channel of [_held]'s loop. *)
Definition hold_one (w : window) (ms ins : list message)
    (st : list message * list (string * Z)) (channel : string)
    : windowed (list message * list (string * Z)) :=
  let '(held_messages, held) := st in
  if existsb (λ m : message, String.eqb m.1.1 channel && (m.1.2 =? w_replay_start w)) ins
  then Ok st
  else match latest (filter (λ m : message, m.1.1 = channel ∧ m.1.2 < w_replay_start w) ms) with
       | None => Err (NoMessages channel)
       | Some l => Ok (held_messages ++ [set_ns l (w_replay_start w)], dset held channel l.1.2)
       end.

Definition hold_all (w : window) (ms ins : list message)
    : windowed (list message * list (string * Z)) :=
  foldE (hold_one w ms ins) ([], []) (w_hold_initial w).

(** [_largest_gap]: the earliest longest of the consecutive intervals. *)
Fixpoint gaps (l : list Z) : list (Z * Z) :=
  match l with
  | a :: (b :: _) as l' => (a, b) :: gaps l'
  | _ => []
  end.

Definition longest_gap (gs : list (Z * Z)) : Z * Z :=
  match gs with
  | [] => (0, 0)
  | g :: gs => fold_left (λ best g, if best.2 - best.1 <? g.2 - g.1 then g else best) gs g
  end.

Definition instants (w : window) (ts : list Z) : list Z :=
  w_replay_start w :: merge_sort Z.le ts ++ [w_end w].

Definition largest_gap (w : window) (ts : list Z) : Z * Z := longest_gap (gaps (instants w ts)).

Definition check_gap (w : window) (selected : list message) (channel : string) : windowed () :=
  let '(start, stop) := largest_gap w (times_of selected channel) in
  match w_max_gap w with
  | Some g => raise_if (g <? stop - start) (GapTooLong channel start stop)
  | None => Ok ()
  end.

(** [_select]. *)
Definition select (w : window) (ms : list message)
    : windowed (list message * list (string * Z)) :=
  _ ← foldE (λ _ c, check_span w c (times_of ms c)) () (w_channels w);
  let ins := inside w ms in
  _ ← foldE (λ _ c, raise_if (bool_decide (times_of ins c = [])) (EmptySelection c)) ()
        (w_channels w);
  '(held_messages, held) ← hold_all w ms ins;
  let selected := held_messages ++ ins in
  _ ← foldE (λ _ c, check_gap w selected c) () (w_channels w);
  Ok (selected, held).

(** ** Rebasing *)

(** One entry of [_time_field_patches]: name, offset, type, range. *)
Record patch := mk_patch { pa_name : string; pa_offset : nat; pa_type : prim; pa_range : Z * Z }.

(** [field.get("count", 1)] of a null "count" is None, which has no product
    with a size. *)
Definition null_count (d : field * json) : bool :=
  match fd_count d.1 with Some _ => false | None => states_count d.2 end.

Fixpoint time_field_patches (fs : list field) (ns : list string) (offset : nat) : list patch :=
  match fs with
  | [] => []
  | f :: fs =>
      let rest := time_field_patches fs ns
                    (offset + Z.to_nat (size_of (fd_type f)) * default 1 (fd_count f))%nat in
      if decide (fd_name f ∈ ns)
      then mk_patch (fd_name f) offset (fd_type f) (default (0, 0) (time_range (fd_type f))) :: rest
      else rest
  end.

Definition int_of (n : pynum) : Z := match n with PInt z => z | PFloat _ => 0 end.

(** The body of the patch loop. *)
Definition apply_patch (w : window) (channel : string) (data : bytes) (p : patch)
    : windowed bytes :=
  let size := Z.to_nat (size_of (pa_type p)) in
  let o := pa_offset p in
  _ ← raise_if (bool_decide (length data < o + size)%nat) (ShortPayload channel);
  let value := int_of (Struct.unpack_prim (pa_type p) (slice data o size)) in
  let rebased := virtual w value in
  _ ← raise_if (rebased <? (pa_range p).1) (BeforeOrigin channel (pa_name p) value);
  _ ← raise_if ((pa_range p).2 <? rebased) (DoesNotFit channel (pa_name p) value rebased);
  Ok (take o data ++ le_bytes size rebased ++ drop (o + size) data).

Definition rebase_message (w : window) (patches : list (string * list patch)) (m : message)
    : windowed message :=
  data ← foldE (apply_patch w m.1.1) m.2 (default [] (dget patches m.1.1));
  Ok (m.1.1, virtual w m.1.2, data).

(** [_rebased]. *)
Definition rebased (w : window) (channels : list (string * source_channel))
    (selected : list message) : windowed (list message) :=
  patches ← mapE (λ '(channel, ns),
    match dget channels channel with
    | None => Err (NoSuchChannel channel)
    | Some c =>
        ds ← declared_fields c;
        _ ← raise_if (existsb null_count ds) (NullCount channel);
        Ok (channel, time_field_patches ds.*1 ns 0)
    end) (w_source_time_fields w);
  mapE (rebase_message w patches) selected.

(** ** Output *)

(** The calls [_recording] makes on the mcap writer. *)
Inductive writer_call :=
| WStart (profile library : string)
| WMetadata (name : string) (entries : list (string * string))
| WSchema (name encoding : string) (data : bytes)
| WChannel (topic encoding : string) (schema_id : Z)
| WMessage (channel_id log_time : Z) (data : bytes)
| WFinish.

Section writing.
(** The ids the writer returns for its n-th schema and channel. *)
Context (schema_id channel_id : nat → Z).

(** One Channel of the registration loop. *)
Definition register_one (st : list (string * bytes * Z) * list (string * Z) * list writer_call)
    (nc : string * source_channel)
    : list (string * bytes * Z) * list (string * Z) * list writer_call :=
  let '(schemas, chans, calls) := st in
  let '(name, c) := nc in
  let key := (so_schema_name c, so_schema_data c) in
  let '(sid, schemas', calls') :=
    match dget schemas key with
    | Some i => (i, schemas, calls)
    | None => let i := schema_id (length schemas) in
              (i, schemas ++ [(key, i)],
               calls ++ [WSchema (so_schema_name c) (so_schema_encoding c) (so_schema_data c)])
    end in
  (schemas', dset chans name (channel_id (length chans)),
   calls' ++ [WChannel name (so_message_encoding c) sid]).

Definition write_recording (version : string) (channels : list (string * source_channel))
    (ms : list message) (digests : list (string * string)) : list writer_call :=
  let '(_, chans, calls) := fold_left register_one channels ([], [], []) in
  WStart "sil" ("sil-window/" ++ version) :: WMetadata "sil_window" digests
  :: calls
  ++ omap (λ m : message, (λ i, WMessage i m.1.2 m.2) <$> dget chans m.1.1) ms
  ++ [WFinish].
End writing.

(** ** The receipt *)

Record coverage := mk_coverage { cv_messages : Z; cv_first : option Z; cv_last : option Z }.

Definition coverage_of (w : window) (ts : list Z) : coverage :=
  match ts with
  | [] => mk_coverage 0 None None
  | t :: r => mk_coverage (zlen ts) (Some (virtual w (min_of t r))) (Some (virtual w (max_of t r)))
  end.

Record channel_receipt := mk_channel_receipt {
  cr_schema : string;
  cr_span : option (Z * Z);
  cr_held : option Z;
  cr_largest_gap : Z;
  cr_warm_up : coverage;
  cr_evaluation : coverage;
}.

Definition span_of (ts : list Z) : option (Z * Z) :=
  match ts with [] => None | t :: r => Some (min_of t r, max_of t r) end.

Definition channel_receipt_of (w : window) (source selected : list message)
    (held : list (string * Z)) (nc : string * source_channel) : string * channel_receipt :=
  let '(name, c) := nc in
  let ts := times_of selected name in
  let '(start, stop) := largest_gap w ts in
  (name, mk_channel_receipt (so_schema_name c) (span_of (times_of source name))
     (dget held name) (stop - start)
     (coverage_of w (filter (λ t, t < w_evaluation_start w) ts))
     (coverage_of w (filter (λ t, w_evaluation_start w ≤ t) ts))).

Record receipt := mk_receipt {
  re_duration : Z;
  re_evaluation_from : Z;
  re_evaluation_to : Z;
  re_warm_up : (Z * Z) * (Z * Z);  (** source and virtual interval *)
  re_evaluation : (Z * Z) * (Z * Z);
  re_channels : list (string * channel_receipt);
}.

Definition interval (w : window) (a b : Z) : (Z * Z) * (Z * Z) :=
  ((a, b), (virtual w a, virtual w b)).

Definition receipt_of (w : window) (channels : list (string * source_channel))
    (source selected : list message) (held : list (string * Z)) : receipt :=
  mk_receipt (virtual w (w_end w)) (virtual w (w_evaluation_start w)) (virtual w (w_end w) - 1)
    (interval w (w_replay_start w) (w_evaluation_start w))
    (interval w (w_evaluation_start w) (w_end w))
    (channel_receipt_of w source selected held <$> channels).

(** [prepare]: what is written to the output, and the receipt. *)
Definition prepare (loads : bytes → option json) (sha256 : bytes → string)
    (schema_id channel_id : nat → Z) (version : string) (out_suffix : string)
    (window_bytes source_bytes : bytes)
    (topics : result read_error (list (string * source_channel))) (all : gen message)
    : windowed (list writer_call * receipt) :=
  _ ← raise_if (negb (String.eqb out_suffix ".mcap")) NotMcapOutput;
  w ← parse_window loads window_bytes;
  '(channels, ms) ← read_source w topics all;
  _ ← check_source_time_fields w channels;
  '(selected, held) ← select w ms;
  out ← rebased w channels selected;
  Ok (write_recording schema_id channel_id version channels out
        [("source_sha256"%string, sha256 source_bytes); ("window_sha256"%string, sha256 window_bytes)],
      receipt_of w channels ms selected held).

(** ** What a window document states *)

Definition window_ok (w : window) : Prop :=
  0 ≤ w_origin w ≤ w_replay_start w
  ∧ w_replay_start w ≤ w_evaluation_start w < w_end w ∧ w_end w ≤ u64_max
  ∧ w_channels w ≠ [] ∧ NoDup (w_channels w)
  ∧ NoDup (w_hold_initial w) ∧ Forall (λ c, c ∈ w_channels w) (w_hold_initial w)
  ∧ NoDup (w_source_time_fields w).*1
  ∧ Forall (λ cf, cf.1 ∈ w_channels w ∧ cf.2 ≠ [] ∧ NoDup cf.2) (w_source_time_fields w)
  ∧ match w_max_gap w with Some g => 1 ≤ g ≤ u64_max | None => True end.

Lemma instant_Ok v key z : instant v key = Ok z → 0 ≤ z ≤ u64_max.
Proof.
  destruct v; try done. cbn. destruct (in_range 0 u64_max z0) eqn:H; [|done].
  intros [= <-]. by apply in_range_true.
Qed.

Lemma names_Ok v ctx l : names v ctx = Ok l → l ≠ [] ∧ NoDup l.
Proof.
  destruct v as [| | | | |[|x vs]|]; try done. cbn [names foldE].
  intros (l1 & H1 & H2)%bind_Ok.
  assert (Hadd : ∀ a x b, NoDup a → add_name ctx a x = Ok b → b ≠ [] ∧ NoDup b).
  { intros a y b Ha. destruct y; try done. cbn. destruct (String.eqb s ""); [done|].
    case_decide; [done|]. intros [= <-]. split; [by destruct a|].
    apply NoDup_app. split_and!; [done|set_solver|apply NoDup_singleton]. }
  eapply (foldE_inv (λ l, l ≠ [] ∧ NoDup l)); [|eapply Hadd, H1; constructor|exact H2].
  intros a y b _ [_ Ha] Hb. by eapply Hadd.
Qed.

Lemma repeated_NoDup l : repeated l = [] → NoDup l.
Proof.
  intros H. assert (filter (λ n, 1 < length (filter (λ m, m = n) l))%nat l = []) as Hf.
  { apply Permutation_nil. rewrite <- H. apply merge_sort_Permutation. }
  assert (Hc : ∀ n, n ∈ l → (length (filter (λ m, m = n) l) ≤ 1)%nat).
  { intros n Hn. destruct (decide (1 < length (filter (λ m, m = n) l))%nat) as [Hg|]; [|lia].
    assert (n ∈ filter (λ n, 1 < length (filter (λ m, m = n) l))%nat l) as Hin
      by (by apply list_elem_of_filter). rewrite Hf in Hin. by apply elem_of_nil in Hin. }
  clear H Hf. induction l as [|x l IH]; constructor.
  - intros Hx. specialize (Hc x ltac:(left)). rewrite filter_cons_True in Hc by done. cbn in Hc.
    assert (x ∈ filter (λ m, m = x) l) as Hin by (by apply list_elem_of_filter).
    destruct (filter _ l); [by apply elem_of_nil in Hin|cbn in Hc; lia].
  - apply IH. intros n Hn. specialize (Hc n ltac:(by right)). rewrite filter_cons in Hc.
    case_decide; cbn in Hc; lia.
Qed.

Lemma channel_fields_Ok c v cf : channel_fields c v = Ok cf → cf.1 = c ∧ cf.2 ≠ [] ∧ NoDup cf.2.
Proof.
  destruct v as [| | | | |[|x vs]|]; try done. cbn [channel_fields].
  intros (ns & Hn & H)%bind_Ok. destruct (repeated ns) eqn:Hr; [|done]. injection H as <-.
  split_and!; [done| |by apply repeated_NoDup].
  apply mapE_length in Hn. cbn in *. by destruct ns.
Qed.

Lemma all_selected_Ok key sel ns u : all_selected key sel ns = Ok u → Forall (λ n, n ∈ sel) ns.
Proof.
  unfold all_selected. destruct (list_find _ ns) as [[]|] eqn:H; [done|]. intros _.
  apply list_find_None in H. eapply Forall_impl; [exact H|]. cbn. intros x Hx.
  destruct (decide (x ∈ sel)); tauto.
Qed.

(** A document whose objects have no repeated key gives a well-formed window. *)
Lemma window_of_Ok doc w : json_wf doc = true → window_of doc = Ok w → window_ok w.
Proof.
  intros Hwf H. destruct doc as [| | | | | |d]; try done. unfold window_of in H. inv_ok.
  apply instant_Ok in Hok2, Hok3, Hok4, Hok5. apply names_Ok in Hok9 as [Hc1 Hc2].
  apply all_selected_Ok in Hok12, Hok13.
  unfold window_ok. cbn [w_origin w_replay_start w_evaluation_start w_end w_channels
    w_hold_initial w_source_time_fields w_max_gap].
  assert (Hh : NoDup a10).
  { destruct (dmem d "hold_initial"%string); [by eapply names_Ok|].
    injection Hok10 as <-. constructor. }
  assert (Hstf : NoDup a11.*1 ∧ Forall (λ cf, cf.2 ≠ [] ∧ NoDup cf.2) a11).
  { assert (∃ e : list (string * json), a11.*1 = e.*1 ∧ NoDup e.*1 ∧ Forall (λ cf, cf.2 ≠ [] ∧ NoDup cf.2) a11)
      as (e & -> & He & ?); [|done].
    destruct (default (JObj []) (dget d "source_time_fields"%string)) as [| | | | | |e] eqn:He;
      try done. exists e. cbn [source_time_fields] in Hok11. apply mapE_Ok in Hok11. split; [|split].
    - clear -Hok11. induction Hok11 as [|[k v] y l l' Hy _ IH]; [done|].
      apply channel_fields_Ok in Hy as [Hk _]. rewrite !fmap_cons. cbn [fst]. by rewrite Hk, IH.
    - destruct (dget d "source_time_fields"%string) as [v|] eqn:Hd; cbn in He; subst;
        [|injection He as <-; constructor].
      apply dget_Some in Hd. cbn [json_wf] in Hwf. apply andb_true_iff in Hwf as [_ Hwf].
      rewrite forallb_forall in Hwf. specialize (Hwf _ (proj1 (list_elem_of_In _ _) Hd)).
      cbn in Hwf. apply andb_true_iff in Hwf as [Hwf _]. by apply bool_decide_eq_true in Hwf.
    - clear -Hok11. induction Hok11 as [|[k v] y l l' Hy _ IH]; constructor; [|done].
      by apply channel_fields_Ok in Hy as [_ ?]. }
  destruct Hstf as [Hs1 Hs2].
  split_and!; try done; try lia.
  - apply Forall_forall. intros cf Hcf.
    split; [|exact (proj1 (Forall_forall _ _) Hs2 cf Hcf)].
    apply (proj1 (Forall_forall _ _) Hok13). by apply list_elem_of_fmap_2.
  - destruct (dget d "max_gap_ns"%string) as [[]|]; try done; [|by injection Hok14 as <-].
    destruct (in_range 1 u64_max z) eqn:Hg; [|done]. injection Hok14 as <-.
    by apply in_range_true.
Qed.

Lemma keys_unique_NoDup seen pairs u :
  NoDup seen → keys_unique seen pairs = Ok u → NoDup (seen ++ pairs.*1).
Proof.
  revert seen. induction pairs as [|[k v] pairs IH]; intros seen Hn; cbn.
  - by rewrite app_nil_r.
  - case_decide as Hk; [done|]. intros H. apply IH in H.
    + by rewrite <- app_assoc in H.
    + apply NoDup_app. split_and!; [done|set_solver|apply NoDup_singleton].
Qed.

Lemma window_pairs_Ok d j : window_pairs d = Ok j → j = JObj d ∧ NoDup d.*1.
Proof.
  unfold window_pairs. intros (u & Hu & [= <-])%bind_Ok. split; [done|].
  by apply (keys_unique_NoDup [] d u) in Hu; [|constructor].
Qed.

Lemma parse_window_Ok loads data w : parse_window loads data = Ok w → window_ok w.
Proof.
  unfold parse_window. intros (raw & _ & (doc & Hd & Hw)%bind_Ok)%bind_Ok.
  apply (pairs_hook_wf _ window_pairs_Ok) in Hd as [-> Hwf]. by eapply window_of_Ok.
Qed.

(** ** Selection *)

Lemma times_of_elem ms c t :
  t ∈ times_of ms c ↔ ∃ m : message, m ∈ ms ∧ m.1.1 = c ∧ m.1.2 = t.
Proof.
  unfold times_of. rewrite list_elem_of_fmap. setoid_rewrite list_elem_of_filter. naive_solver.
Qed.

(** The latest Message of a list, and the last of those. *)
Lemma latest_spec l m :
  latest l = Some m →
  ∃ a b, l = a ++ m :: b ∧ Forall (λ x : message, x.1.2 ≤ m.1.2) a
         ∧ Forall (λ x : message, x.1.2 < m.1.2) b.
Proof.
  revert m. induction l as [|x l IH]; intros m; cbn [latest]; [done|].
  destruct (latest l) as [y|] eqn:Hl.
  - destruct (IH y eq_refl) as (a & b & -> & Ha & Hb).
    destruct (Z.ltb_spec y.1.2 x.1.2); intros [= <-].
    + exists [], (a ++ y :: b). split_and!; [done|constructor|].
      apply Forall_app. split; [|constructor; [done|]].
      * eapply Forall_impl; [exact Ha|]. cbn. lia.
      * eapply Forall_impl; [exact Hb|]. cbn. lia.
    + exists (x :: a), b. split_and!; [done|by constructor|done].
  - intros [= <-]. destruct l as [|y l]; [|cbn in Hl; destruct (latest l); [by destruct (_ <? _)|done]].
    by exists [], [].
Qed.

(** What [_held] adds for the Channels in [hold]. *)
Definition hold_spec (w : window) (ms ins : list message) (hold : list string)
    (hm : list message) : Prop :=
  ∀ c, c ∈ hold →
    if existsb (λ m : message, String.eqb m.1.1 c && (m.1.2 =? w_replay_start w)) ins
    then filter (λ m : message, m.1.1 = c) hm = []
    else ∃ l, latest (filter (λ m : message, m.1.1 = c ∧ m.1.2 < w_replay_start w) ms) = Some l
         ∧ filter (λ m : message, m.1.1 = c) hm = [set_ns l (w_replay_start w)].

Lemma hold_fold w ms ins hold hm hd hm' hd' :
  NoDup hold → (∀ c, c ∈ hold → filter (λ m : message, m.1.1 = c) hm = []) →
  foldE (hold_one w ms ins) (hm, hd) hold = Ok (hm', hd') →
  (∀ c, c ∉ hold → filter (λ m : message, m.1.1 = c) hm' = filter (λ m : message, m.1.1 = c) hm)
  ∧ hold_spec w ms ins hold hm'
  ∧ (Forall (λ m : message, m.1.2 = w_replay_start w) hm →
     Forall (λ m : message, m.1.2 = w_replay_start w) hm').
Proof.
  revert hm hd. induction hold as [|c hold IH]; intros hm hd Hn Hc; cbn [foldE].
  - intros [= <- <-]. split_and!; try done. intros c Hc'. by apply elem_of_nil in Hc'.
  - apply NoDup_cons in Hn as [Hni Hn].
    intros ([hm1 hd1] & H1 & H2)%bind_Ok. unfold hold_one in H1.
    destruct (existsb _ ins) eqn:He.
    + injection H1 as <- <-. apply IH in H2 as (Hout & Hin & Hall); [|done|set_solver].
      split_and!; [set_solver| |done]. intros c' [->|Hc']%elem_of_cons; [|by apply Hin].
      rewrite He. rewrite Hout by done. apply Hc. left.
    + destruct (latest _) as [l|] eqn:Hl; [|done]. injection H1 as <- <-.
      assert (Hlc : l.1.1 = c).
      { apply latest_spec in Hl as (a & b & Hf & _).
        assert (l ∈ filter (λ m : message, m.1.1 = c ∧ m.1.2 < w_replay_start w) ms) as Hin
          by (rewrite Hf; set_solver). by apply list_elem_of_filter in Hin as [[? _] _]. }
      assert (Hf : ∀ c', filter (λ m : message, m.1.1 = c') (hm ++ [set_ns l (w_replay_start w)])
        = filter (λ m : message, m.1.1 = c') hm
          ++ if decide (c = c') then [set_ns l (w_replay_start w)] else []).
      { intros c'. rewrite filter_app. f_equal. rewrite filter_cons. cbn [set_ns fst].
        rewrite Hlc. by case_decide. }
      apply IH in H2 as (Hout & Hin & Hall); [|done|].
      * split_and!.
        -- intros c' Hc'. rewrite Hout by set_solver. rewrite Hf.
           rewrite decide_False by set_solver. by rewrite app_nil_r.
        -- intros c' [->|Hc']%elem_of_cons; [|by apply Hin]. rewrite He. exists l. split; [done|].
           rewrite Hout by done. rewrite Hf, decide_True by done. by rewrite Hc by left.
        -- intros Ha. apply Hall. apply Forall_app. split; [done|]. by constructor.
      * intros c' Hc'. rewrite Hf. rewrite decide_False by set_solver. rewrite app_nil_r.
        apply Hc. by right.
Qed.

Lemma min_of_elem t ts : min_of t ts ∈ t :: ts.
Proof.
  induction ts as [|x ts IH]; cbn; [left|]. fold (min_of t ts). destruct (Z.min_spec x (min_of t ts)) as [[_ ->]|[_ ->]]; set_solver.
Qed.
Lemma max_of_elem t ts : max_of t ts ∈ t :: ts.
Proof.
  induction ts as [|x ts IH]; cbn; [left|]. fold (max_of t ts). destruct (Z.max_spec x (max_of t ts)) as [[_ ->]|[_ ->]]; set_solver.
Qed.

Lemma check_span_Ok w c ts :
  check_span w c ts = Ok () →
  (∃ t, t ∈ ts ∧ t ≤ w_replay_start w)
  ∧ ∃ t, t ∈ ts ∧ match w_max_gap w with Some g => w_end w - g ≤ t | None => w_end w - 1 ≤ t end.
Proof.
  destruct ts as [|t ts]; [done|]. cbn [check_span]. intros (u & H1%raise_if_Ok & H2)%bind_Ok.
  split; [exists (min_of t ts); split; [apply min_of_elem|lia]|].
  exists (max_of t ts). split; [apply max_of_elem|].
  destruct (w_max_gap w); apply raise_if_Ok in H2; lia.
Qed.

(** The chosen interval is one of them, and none is longer. *)
Lemma longest_gap_max gs g :
  g ∈ gs → g.2 - g.1 ≤ (longest_gap gs).2 - (longest_gap gs).1.
Proof.
  destruct gs as [|g0 gs]; [set_solver|]. unfold longest_gap.
  set (pick := λ best g : Z * Z, if best.2 - best.1 <? g.2 - g.1 then g else best).
  assert (∀ b x, x ∈ b :: gs → x.2 - x.1 ≤ (fold_left pick gs b).2 - (fold_left pick gs b).1)
    as H; [|by apply H].
  clear g. induction gs as [|y gs IH]; intros b x; cbn [fold_left].
  - intros ->%list_elem_of_singleton. lia.
  - intros Hx. assert (b.2 - b.1 ≤ (pick b y).2 - (pick b y).1
      ∧ y.2 - y.1 ≤ (pick b y).2 - (pick b y).1) as [Hb Hy].
    { unfold pick. destruct (Z.ltb_spec (b.2 - b.1) (y.2 - y.1)); lia. }
    pose proof (IH (pick b y) (pick b y) ltac:(left)).
    apply elem_of_cons in Hx as [->|[->|Hx]%elem_of_cons]; [lia|lia|].
    apply IH. by right.
Qed.

(** Short gaps leave no long interval empty. *)
Lemma gap_cover l h a g e :
  h ≤ a → a < e → (∀ x y, (x, y) ∈ gaps (h :: l ++ [e]) → y - x ≤ g) →
  ∃ t, t ∈ l ++ [e] ∧ a < t ≤ a + g.
Proof.
  revert h. induction l as [|x l IH]; intros h Hh He Hg.
  - exists e. split; [set_solver|]. specialize (Hg h e ltac:(cbn; left)). lia.
  - destruct (Z_le_gt_dec x a) as [Hx|Hx].
    + destruct (IH x Hx He) as (t & Ht & Hb); [|exists t; split; [set_solver|done]].
      intros y z Hyz. apply Hg. cbn in *. by right.
    + exists x. split; [left|]. specialize (Hg h x ltac:(cbn; left)). lia.
Qed.

Lemma check_gap_Ok w sel c g :
  w_max_gap w = Some g → check_gap w sel c = Ok () →
  ∀ a, w_replay_start w ≤ a → a + g < w_end w → 0 ≤ g →
  ∃ t, t ∈ times_of sel c ∧ a < t ≤ a + g.
Proof.
  intros Hg H a Ha He Hg0. unfold check_gap, largest_gap in H.
  pose proof (longest_gap_max (gaps (instants w (times_of sel c)))) as Hmax.
  destruct (longest_gap _) as [s t]. rewrite Hg in H. apply raise_if_Ok in H. cbn in Hmax.
  destruct (gap_cover (merge_sort Z.le (times_of sel c)) (w_replay_start w) a g (w_end w))
    as (x & Hx & Hb); [done|lia| |].
  - intros x y Hxy. specialize (Hmax (x, y) Hxy). cbn in Hmax. lia.
  - exists x. split; [|done]. apply elem_of_app in Hx as [Hx|Hx].
    + by rewrite merge_sort_Permutation in Hx.
    + apply list_elem_of_singleton in Hx. lia.
Qed.

(** ** Rebasing *)

(** The value of a rebased field. *)
Definition shift_value (w : window) (v : value) : value :=
  match v with VNum (PInt z) => VNum (PInt (virtual w z)) | _ => v end.

Definition shift_field (w : window) (ns : list string) (f : field) (v : value) : value :=
  if decide (fd_name f ∈ ns) then shift_value w v else v.

(** A named field is a scalar of a time type. *)
Definition time_fields_ok (fs : list field) (ns : list string) : Prop :=
  ∀ f, f ∈ fs → fd_name f ∈ ns → fd_count f = None ∧ is_Some (time_range (fd_type f)).

Lemma time_range_int p : is_Some (time_range p) →
  size_of p = 8 ∧ time_range p = int_range p ∧ ∃ lo hi, int_range p = Some (lo, hi).
Proof. destruct p; cbn; intros [? [=]]; split_and!; try done; eauto. Qed.

Lemma time_pack_unpack p z :
  is_Some (time_range p) → (default (0, 0) (time_range p)).1 ≤ z ≤ (default (0, 0) (time_range p)).2 →
  Struct.unpack_prim p (le_bytes (Z.to_nat (size_of p)) z) = PInt z.
Proof.
  intros Ht Hz. destruct (time_range_int p Ht) as (_ & Hr & lo & hi & Hi).
  rewrite Hr, Hi in Hz. cbn in Hz.
  destruct (pack_prim_ok p (PInt z)) as (bs & Hp & _ & Hu).
  { unfold num_ok. by rewrite Hi. }
  unfold Struct.pack_prim in Hp. rewrite Hi in Hp.
  destruct (in_range lo hi z); [|done]. by injection Hp as <-.
Qed.

Lemma time_unpack_int p bs : is_Some (time_range p) → ∃ z, Struct.unpack_prim p bs = PInt z.
Proof. destruct p; cbn; intros [? [=]]; eauto. Qed.

Lemma field_size_scalar f : fd_count f = None → field_size f = Z.to_nat (size_of (fd_type f)).
Proof. intros H. unfold field_size, field_plan, Struct.size. rewrite H. cbn. lia. Qed.

Lemma field_size_patch f :
  field_size f = (Z.to_nat (size_of (fd_type f)) * default 1 (fd_count f))%nat.
Proof.
  unfold field_size, field_plan, Struct.size. destruct (fd_count f) as [n|]; cbn [default]; unfold id.
  - case_decide as Hu; cbn [plan_fmt].
    + rewrite Hu. cbn. lia.
    + induction n as [|n IH]; cbn [replicate sum_list_with Struct.item_size] in *; lia.
  - cbn. lia.
Qed.

(** A field's value depends on its own bytes only. *)
Lemma field_value_app f df x :
  length df = field_size f → field_value f (df ++ x) = field_value f df.
Proof.
  rewrite field_size_patch. unfold field_value, field_plan.
  destruct (fd_count f) as [n|]; cbn [default]; unfold id; intros Hl.
  - case_decide as Hu.
    + rewrite Hu in Hl. cbn in Hl. by rewrite !take_app_le, take_ge by lia.
    + f_equal. apply list_fmap_ext. intros k i Hi. apply lookup_seq in Hi as [-> Hi].
      rewrite drop_app_le by nia. rewrite take_app_le; [done|]. rewrite length_drop. nia.
  - rewrite take_app_le by lia. done.
Qed.

Lemma apply_patch_Ok w c d1 df d3 f d' :
  fd_count f = None → is_Some (time_range (fd_type f)) →
  length df = Z.to_nat (size_of (fd_type f)) →
  apply_patch w c (d1 ++ df ++ d3)
    (mk_patch (fd_name f) (length d1) (fd_type f) (default (0, 0) (time_range (fd_type f)))) = Ok d' →
  ∃ df', d' = d1 ++ df' ++ d3 ∧ length df' = length df
    ∧ field_value f df' = shift_value w (field_value f df).
Proof.
  intros Hc Ht Hl H. unfold apply_patch in H. cbn [pa_type pa_offset pa_range pa_name] in H.
  rewrite <- Hl in H. rewrite slice_app in H.
  apply bind_Ok in H as (u1 & _ & H). apply bind_Ok in H as (u2 & H1%raise_if_Ok & H).
  apply bind_Ok in H as (u3 & H2%raise_if_Ok & H).
  rewrite take_app_length in H.
  replace (drop (length d1 + length df) (d1 ++ df ++ d3)) with d3 in H
    by (by rewrite app_assoc, <- length_app, drop_app_length).
  injection H as <-. eexists. split; [done|]. split; [apply length_le_bytes|].
  unfold field_value, field_plan. rewrite Hc. rewrite <- Hl.
  rewrite take_ge by (rewrite length_le_bytes; lia). rewrite take_ge by lia.
  destruct (time_unpack_int (fd_type f) df Ht) as [z Hz]. rewrite Hz in *. cbn [int_of] in *.
  cbn [shift_value]. rewrite Hl. rewrite time_pack_unpack by (done || lia). done.
Qed.

(** Patching the named fields of [fs], which start at [length d1], shifts their
    values and nothing else. *)
Lemma patches_Ok w c ns fs d1 d2 d' :
  time_fields_ok fs ns → length d2 = sum_list_with field_size fs →
  foldE (apply_patch w c) (d1 ++ d2) (time_field_patches fs ns (length d1)) = Ok d' →
  ∃ d2', d' = d1 ++ d2' ∧ length d2' = length d2
    ∧ field_values fs d2' = zip_with (shift_field w ns) fs (field_values fs d2).
Proof.
  revert d1 d2. induction fs as [|f fs IH]; intros d1 d2 Hok Hl H.
  - cbn in Hl. destruct d2; [|done]. injection H as <-. by exists [].
  - cbn [sum_list_with] in Hl. cbn [time_field_patches] in H.
    rewrite <- field_size_patch in H.
    rewrite <- (take_drop (field_size f) d2) in H |- *.
    set (df := take (field_size f) d2) in *. set (d3 := drop (field_size f) d2) in *.
    assert (Hdf : length df = field_size f) by (unfold df; rewrite length_take; lia).
    assert (Hd3 : length d3 = sum_list_with field_size fs) by (unfold d3; rewrite length_drop; lia).
    assert (Hok' : time_fields_ok fs ns) by (intros g Hg; apply Hok; by right).
    assert (Hvals : ∀ dg x, length dg = field_size f →
      field_values (f :: fs) (dg ++ x) = field_value f dg :: field_values fs x).
    { intros dg x Hg. cbn [field_values]. rewrite field_value_app by done.
      by rewrite <- Hg, drop_app_length. }
    rewrite Hvals by done. cbn [zip_with].
    assert (∃ dg, length dg = field_size f ∧ field_value f dg = shift_field w ns f (field_value f df)
      ∧ foldE (apply_patch w c) ((d1 ++ dg) ++ d3)
          (time_field_patches fs ns (length (d1 ++ dg))) = Ok d') as (dg & Hg & Hv & Hf).
    { unfold shift_field. destruct (decide (fd_name f ∈ ns)) as [Hin|Hni].
      - destruct (Hok f ltac:(left) Hin) as [Hc Ht]. cbn [foldE] in H.
        apply bind_Ok in H as (d4 & H1 & H2).
        apply apply_patch_Ok in H1 as (dg & -> & Hg & Hv);
          [|done|done|by rewrite <- field_size_scalar].
        exists dg. rewrite (length_app d1 dg), Hg, Hdf, <- app_assoc. done.
      - exists df. rewrite (length_app d1 df), Hdf, <- app_assoc. done. }
    destruct (IH (d1 ++ dg) d3 Hok' Hd3 Hf) as (d3' & -> & Hl3 & Hv3).
    exists (dg ++ d3'). rewrite app_assoc. split; [done|].
    rewrite !length_app, Hvals by done. split; [lia|]. by rewrite Hv, Hv3.
Qed.

Lemma find_last_NoDup ds d :
  NoDup (fd_name <$> ds.*1) → d ∈ ds → find_last ds (fd_name d.1) = Some d.
Proof.
  intros Hn (ds1 & ds2 & ->)%list_elem_of_split. unfold find_last.
  rewrite fmap_app, fmap_cons. apply dict_of_last.
  rewrite fmap_app, fmap_cons, fmap_app, fmap_cons in Hn.
  apply NoDup_app in Hn as (_ & _ & [Hn _]%NoDup_cons).
  by rewrite <- !list_fmap_compose in *.
Qed.

(** The "count" a declared field has is the one its declaration states. *)
Lemma declared_fields_count c ds d :
  declared_fields c = Ok ds → d ∈ ds → states_count d.2 = false → fd_count d.1 = None.
Proof.
  unfold declared_fields. destruct (so_schema c) as [v|]; [|done]. cbn [mbind option_bind].
  destruct (jget v "fields") as [[| | | | |l|]|]; try done.
  destruct (mapM _ l) as [ds'|] eqn:Hl; [|done]. intros [= ->] Hd Hc. apply mapM_Some in Hl.
  apply list_elem_of_lookup in Hd as [i Hi]. destruct (Forall2_lookup_r _ _ _ _ _ Hl Hi) as (x & _ & Hx).
  apply fmap_Some in Hx as (f & Hf & ->). cbn [fst snd] in *. unfold states_count in Hc.
  unfold field_of_json in Hf. destruct (jget x "count"); [done|].
  destruct (jget x "name") as [[]|]; try done. destruct (jget x "type") as [[]|]; try done.
  by apply bind_Some in Hf as (p & _ & [= <-]).
Qed.

Lemma check_time_fields_Ok w channels c ns sc fs :
  check_source_time_fields w channels = Ok () → (c, ns) ∈ w_source_time_fields w →
  dget channels c = Some sc → schema_fields sc = Ok fs → NoDup (fd_name <$> fs) →
  time_fields_ok fs ns.
Proof.
  intros H Hin Hd Hs Hn f Hf Hfn. unfold check_source_time_fields in H.
  unfold schema_fields in Hs. apply bind_Ok in Hs as (ds & Hs & [= <-]).
  apply list_elem_of_fmap in Hf as ([f' d] & -> & Hf). cbn [fst] in *. rename f' into f.
  pose proof (foldE_each (λ '(channel, ns),
    match dget channels channel with
    | None => Err (NoSuchChannel channel)
    | Some c => ds ← declared_fields c; foldE (λ _ n, check_time_field channel ds n) () ns
    end) (w_source_time_fields w) () H _ Hin) as Hc. cbn in Hc. rewrite Hd, Hs in Hc.
  cbn [mbind result_bind] in Hc.
  apply (foldE_each (check_time_field c ds) ns ()) with (fd_name f) in Hc; [|done].
  unfold check_time_field in Hc. pose proof (find_last_NoDup ds (f, d) Hn Hf) as E; cbn [fst] in E; rewrite E in Hc; clear E.
  apply raise_if_Ok in Hc. destruct (time_range (fd_type f)); [|done].
  split; [|done]. by apply (declared_fields_count sc ds (f, d)).
Qed.

Lemma dget_mapE {E A B} (f : string * A → result E (string * B)) l l' k :
  (∀ x y, f x = Ok y → y.1 = x.1) → mapE f l = Ok l' →
  match dget l k with
  | None => dget l' k = None
  | Some a => ∃ b, f (k, a) = Ok (k, b) ∧ dget l' k = Some b
  end.
Proof.
  intros Hk H%mapE_Ok. induction H as [|[k1 a] [k2 b] l l' Hx _ IH]; [done|].
  pose proof (Hk _ _ Hx) as Hkk. cbn in Hkk. subst k2. cbn [dget].
  case_decide; [subst|done]. eauto.
Qed.

Lemma mt_size_sum fs : mt_size fs = sum_list_with field_size fs.
Proof.
  unfold mt_size, mt_items, Struct.size. induction fs as [|f fs IH]; [done|].
  rewrite fmap_cons. cbn [concat sum_list_with]. rewrite sum_list_with_app, IH. done.
Qed.

(** ** Properties *)

(** The window document: whatever the bytes, an accepted window has its
    four instants in order and inside 64 bits with a non-empty evaluation
    interval, selects at least one Channel and none twice, holds and rebases only
    selected Channels, and has a gap limit of at least 1 ns if any. *)
Theorem parse_window_sound loads data :
  match parse_window loads data with Ok w => window_ok w | Err _ => True end.
Proof. destruct (parse_window loads data) eqn:H; [by eapply parse_window_Ok|done]. Qed.

(** The selection keeps stored order: it is the source's Messages inside
    the window, as they are stored, after the held ones. Every selected Message
    lies in [[replay_start, end)]; a held Message is published at the replay
    start, exactly one for each Channel of [hold_initial] that has no Message
    there, and it carries the Channel's latest earlier payload (the last
    published among equal times). *)
Theorem select_structure w ms sel held :
  window_ok w → select w ms = Ok (sel, held) →
  ∃ hm, sel = hm ++ inside w ms
    ∧ Forall (λ m : message, m.1.2 = w_replay_start w) hm
    ∧ Forall (λ m : message, w_replay_start w ≤ m.1.2 < w_end w) sel
    ∧ hold_spec w ms (inside w ms) (w_hold_initial w) hm
    ∧ (∀ c, c ∉ w_hold_initial w → filter (λ m : message, m.1.1 = c) hm = []).
Proof.
  intros (_ & Hord & _ & _ & _ & Hnd & _) H. unfold select in H.
  apply bind_Ok in H as (u1 & _ & H). apply bind_Ok in H as (u2 & _ & H).
  apply bind_Ok in H as ([hm hd] & Hh & H). apply bind_Ok in H as (u3 & _ & [= <- <-]).
  unfold hold_all in Hh. apply hold_fold in Hh as (Hout & Hin & Hall); [|done|done].
  exists hm. specialize (Hall ltac:(constructor)).
  split_and!; [done|done| |done|exact Hout].
  apply Forall_app. split.
  - eapply Forall_impl; [exact Hall|]. cbn. lia.
  - apply Forall_forall. by intros m [? _]%list_elem_of_filter.
Qed.

(** Coverage: every selected Channel has a Message at or before the
    replay start, one close enough to the end, and one inside the window; and
    with a gap limit [g], every instant of the window is followed within [g] ns
    by a selected Message of the Channel, up to [g] before the end. *)
Theorem select_coverage w ms sel held c :
  window_ok w → select w ms = Ok (sel, held) → c ∈ w_channels w →
  (∃ t, t ∈ times_of ms c ∧ t ≤ w_replay_start w)
  ∧ (∃ t, t ∈ times_of ms c ∧ match w_max_gap w with
                              | Some g => w_end w - g ≤ t
                              | None => w_end w - 1 ≤ t
                              end)
  ∧ times_of (inside w ms) c ≠ []
  ∧ ∀ g, w_max_gap w = Some g → ∀ a, w_replay_start w ≤ a → a + g < w_end w →
      ∃ t, t ∈ times_of sel c ∧ a < t ≤ a + g.
Proof.
  intros Hw H Hc. unfold select in H.
  apply bind_Ok in H as ([] & H1 & H). apply bind_Ok in H as ([] & H2 & H).
  apply bind_Ok in H as ([hm hd] & _ & H). apply bind_Ok in H as ([] & H3 & [= <- <-]).
  pose proof (foldE_each (λ c, check_span w c (times_of ms c)) _ _ H1 c Hc) as Hspan.
  pose proof (foldE_each (λ c, raise_if (bool_decide (times_of (inside w ms) c = []))
    (EmptySelection c)) _ _ H2 c Hc) as Hin.
  pose proof (foldE_each (λ c, check_gap w (hm ++ inside w ms) c) _ _ H3 c Hc) as Hgap.
  apply check_span_Ok in Hspan as [Hs1 Hs2]. apply raise_if_Ok, bool_decide_eq_false in Hin.
  split_and!; try done. intros g Hg a Ha He. eapply check_gap_Ok; [done..|].
  destruct Hw as (_ & _ & _ & _ & _ & _ & _ & _ & _ & Hw). rewrite Hg in Hw. lia.
Qed.

(** What rebasing does to one Message. *)
Definition rebases (w : window) (channels : list (string * source_channel)) (m m' : message) : Prop :=
  m'.1.1 = m.1.1 ∧ m'.1.2 = m.1.2 - w_origin w
  ∧ match dget (w_source_time_fields w) m.1.1 with
    | None => m'.2 = m.2
    | Some ns => ∃ sc fs, dget channels m.1.1 = Some sc ∧ schema_fields sc = Ok fs
        ∧ (NoDup (fd_name <$> fs) → length m.2 = mt_size fs → ∃ vals,
             mt_unpack fs m.2 = Ok (zip (fd_name <$> fs) vals)
             ∧ mt_unpack fs m'.2 = Ok (zip (fd_name <$> fs) (zip_with (shift_field w ns) fs vals)))
    end.

(** C21. The rebase is a shift of time and of nothing else: Messages keep
    their order and Channel, log times and the named source-time fields move by
    the origin, every other field of the payload decodes to the same value, and
    the payload of a Channel without named fields is copied unchanged. *)
Theorem rebased_shift w channels sel out :
  check_source_time_fields w channels = Ok () → rebased w channels sel = Ok out →
  Forall2 (rebases w channels) sel out.
Proof.
  intros Hchk H. unfold rebased in H. apply bind_Ok in H as (patches & Hp & Hm%mapE_Ok).
  eapply Forall2_impl; [exact Hm|]. cbn. intros m m' Hr. unfold rebase_message in Hr.
  apply bind_Ok in Hr as (data & Hd & [= <-]). unfold rebases. cbn [fst snd].
  split; [done|]. split; [done|].
  pose proof (λ Hk, dget_mapE _ _ _ m.1.1 Hk Hp) as Hl. specialize (Hl ltac:(
    intros [k x] y Hy; destruct (dget channels k); [|discriminate Hy];
    apply bind_Ok in Hy as (? & _ & Hy); apply bind_Ok in Hy as (? & _ & Hy);
    injection Hy as <-; reflexivity)).
  destruct (dget (w_source_time_fields w) m.1.1) as [ns|] eqn:Hns.
  - destruct Hl as (ps & Hf & Hps). destruct (dget channels m.1.1) as [sc|] eqn:Hsc; [|done].
    apply bind_Ok in Hf as (ds & Hfs & Hf). apply bind_Ok in Hf as (u & _ & [= <-]).
    assert (schema_fields sc = Ok ds.*1) as Hfs' by (unfold schema_fields; by rewrite Hfs).
    clear Hfs. rename Hfs' into Hfs. set (fs := ds.*1) in *.
    exists sc, fs. split; [done|]. split; [done|].
    intros Hn Hsz. exists (field_values fs m.2). split; [by apply mt_unpack_values|].
    rewrite Hps in Hd. cbn [default] in Hd. unfold id in Hd.
    pose proof (check_time_fields_Ok w channels m.1.1 ns sc fs Hchk
      (dget_Some _ _ _ Hns) Hsc Hfs Hn) as Hok.
    destruct (patches_Ok w m.1.1 ns fs [] m.2 data Hok) as (d' & -> & Hl' & Hv);
      [by rewrite Hsz, mt_size_sum|done|]. cbn [app].
    rewrite mt_unpack_values by (done || by rewrite Hl'). by rewrite Hv.
  - rewrite Hl in Hd. cbn in Hd. by injection Hd as <-.
Qed.

(** *** Concrete inputs *)

Definition demo_window : window :=
  mk_window 90 100 120 150 ["s"%string] ["s"%string] [("s"%string, ["t"%string])] (Some 30).
Definition demo_doc : json :=
  JObj [("sil_replay_window"%string, JInt 1); ("source_origin_ns"%string, JInt 90);
        ("replay_start_ns"%string, JInt 100); ("evaluation_start_ns"%string, JInt 120);
        ("end_ns"%string, JInt 150); ("channels"%string, JArr [JStr "s"]);
        ("hold_initial"%string, JArr [JStr "s"]);
        ("source_time_fields"%string, JObj [("s"%string, JArr [JStr "t"])]);
        ("max_gap_ns"%string, JInt 30)].
Example demo_window_reads : parse_window (λ _, Some demo_doc) [] = Ok demo_window.
Proof. vm_compute. reflexivity. Qed.

Lemma demo_window_ok : window_ok demo_window.
Proof. exact (parse_window_Ok _ _ _ demo_window_reads). Qed.

Definition demo_source (ns v : Z) : message := ("s"%string, ns, le_bytes 8 ns ++ [byte_of_Z v]).
Definition demo_stored : list message :=
  [demo_source 92 1; demo_source 95 2; demo_source 95 3; demo_source 110 4; demo_source 130 5].
Definition demo_selected : list message :=
  [("s"%string, 100, le_bytes 8 95 ++ [x03]); demo_source 110 4; demo_source 130 5].
Definition demo_channels : list (string * source_channel) :=
  [("s"%string, mk_source "S" "silschema" [] "sil" (Some (JObj [("fields"%string, JArr
    [JObj [("name"%string, JStr "t"); ("type"%string, JStr "u64")];
     JObj [("name"%string, JStr "v"); ("type"%string, JStr "u8")]])])))].

Lemma select_structure_witness :
  ∃ hm, demo_selected = hm ++ inside demo_window demo_stored
    ∧ Forall (λ m : message, m.1.2 = w_replay_start demo_window) hm
    ∧ Forall (λ m : message, w_replay_start demo_window ≤ m.1.2 < w_end demo_window) demo_selected
    ∧ hold_spec demo_window demo_stored (inside demo_window demo_stored)
        (w_hold_initial demo_window) hm
    ∧ (∀ c, c ∉ w_hold_initial demo_window → filter (λ m : message, m.1.1 = c) hm = []).
Proof.
  apply (select_structure demo_window demo_stored demo_selected [("s"%string, 95)]
           demo_window_ok). vm_compute. reflexivity.
Defined.

Lemma select_coverage_witness :
  ∃ t, t ∈ times_of demo_selected "s" ∧ 112 < t ≤ 112 + 30.
Proof.
  refine (proj2 (proj2 (proj2 (select_coverage demo_window demo_stored demo_selected
    [("s"%string, 95)] "s" demo_window_ok _ _))) 30 eq_refl 112 _ _).
  - vm_compute. reflexivity.
  - left.
  - cbn. lia.
  - cbn. lia.
Defined.

Lemma rebased_shift_witness :
  Forall2 (rebases demo_window demo_channels) demo_selected
    [("s"%string, 10, le_bytes 8 5 ++ [x03]); ("s"%string, 20, le_bytes 8 20 ++ [x04]);
     ("s"%string, 40, le_bytes 8 40 ++ [x05])].
Proof. apply (rebased_shift demo_window demo_channels); vm_compute; reflexivity. Defined.
