(* ===== verification/Manifest.v ===== *)
(** * The Manifest builder

    Models [python/src/sil/manifest.py]: the [Manifest] object and its authoring
    operations ([add_schemas], [add_channel], [add_interceptor], [add_native],
    [add_process], [add_replay]), [_validate] and [to_doc]. Arguments are the
    Python values a caller may pass ([json], with [JNull] for None), so that
    every type check of the code is a branch of the model. Reading a Recording's
    hash and normalizing a path are parameters. A channel or participant entry
    is a record whose optional parts are the keys the code adds. Not modelled:
    the text of [to_json] and what [hash] and [write] do with it, and the
    aliasing of a schema dict that the caller changes after adding it. *)

From Stdlib Require Import ZArith Lia.
From S2P Require Import Prelude PyFloat Json SchemaTypes Schema Pointer.

(** The context of an error. *)
Abbreviation where_ := (list token).

(** [ManifestError], with the place and the value its text names. *)
Inductive manifest_error :=
| MNotObject (w : where_) (v : json)
| MNotArray (w : where_) (v : json)
| MNotString (w : where_) (v : json)
| MNotInteger (w : where_) (v : json)
| MTooSmall (w : where_) (minimum : Z) (v : json)
| MTooLarge (w : where_) (maximum : Z) (v : json)
| MUnknownKey (w : where_) (key : string)
| MAlreadyDeclared (w : where_)
| MMissingFields (w : where_)
| MNoFields (w : where_)
| MBadFieldName (w : where_) (v : option json)
| MUnknownType (w : where_) (v : option json)
| MBadCount (w : where_) (v : json)
| MCountOverflow (w : where_) (v : json)
| MDuplicateField (w : where_) (name : string)
| MSizeOverflow (w : where_) (name : string)
| MUnknownSchema (w : where_) (name : string)
| MUnknownTransport (w : where_) (name : string)
| MSlotsInline (w : where_)
| MUnknownChannel (w : where_) (v : json)
| MUnknownKind (w : where_) (kind : string)
| MEmptyWindow (w : where_)
| MRequires (w : where_) (key : string)
| MNoSuchField (w : where_) (field : string)
| MOverrideArray (w : where_) (field : string)
| MUnrepresentable (w : where_) (field : string) (v : json)
| MNotRoute (w : where_) (v : json)
| MBlocking (w : where_)
| MUnknownPolicy (w : where_) (v : json)
| MEmptyCommand (w : where_)
| MNotBoolean (w : where_)
| MRequiresShim (w : where_)
| MEmptyReplay (w : where_)
| MNotPath (w : where_) (v : json)
| MCannotReadRecording (w : where_)
| MListedTwice (w : where_) (channel : string)
| MTwoPublishers (channel first second : string)
| UncaughtTypeError.

Abbreviation made := (result manifest_error).

Definition SIZE_MAX : Z := u64_max.
(** 3.4028234663852886e38 as binary64. *)
Definition FLOAT32_MAX : Z := 5183643170566569984.

Definition INTERCEPTOR_KINDS : list string := ["drop"; "drop_nth"; "delay"; "override"]%string.
Definition TRANSPORTS : list string := ["inline"; "shm"]%string.
Definition OVERFLOW_POLICIES : list string := ["fail"; "drop_newest"]%string.
Definition SLEEP_POLICIES : list string := ["reject"; "immediate"]%string.
Definition THREAD_POLICIES : list string := ["allow"; "report"; "reject"]%string.

(** ** Type checks *)

Definition mobject (v : json) (w : where_) : made (list (string * json)) :=
  match v with JObj d => Ok d | _ => Err (MNotObject w v) end.
Definition marray (v : json) (w : where_) : made (list json) :=
  match v with JArr l => Ok l | _ => Err (MNotArray w v) end.
Definition mstring (v : json) (w : where_) : made string :=
  match v with JStr s => Ok s | _ => Err (MNotString w v) end.
Definition minteger (v : json) (w : where_) (lo hi : Z) : made Z :=
  match v with
  | JInt z => if z <? lo then Err (MTooSmall w lo v)
              else if hi <? z then Err (MTooLarge w hi v) else Ok z
  | _ => Err (MNotInteger w v)
  end.

(** [_reject_unknown]. *)
Definition reject_unknown (d : list (string * json)) (allowed : list string) (w : where_)
    : made () :=
  match list_find (λ kv, ¬ (kv.1 ∈ allowed)) d with
  | Some (_, kv) => Err (MUnknownKey w kv.1)
  | None => Ok ()
  end.

(** An element check of [enumerate(array)]. *)
Definition each {A} (f : json → where_ → made A) (l : list json) (w : where_) : made (list A) :=
  mapE (λ ix, f ix.2 (w ++ [TIdx ix.1])) (enumerate l).

(** [_channel_list]. *)
Definition channel_list (v : json) (participant key : string) : made (list string) :=
  match v with
  | JNull => Ok []
  | _ => l ← marray v [TKey participant; TKey key];
         each mstring l [TKey participant; TKey key]
  end.

(** [SubscriberRoute], with whatever values its fields were given. *)
Inductive route_arg :=
| RouteArg (channel capacity overflow : json)
| NotARoute (v : json).

Inductive routes_arg := NoRoutes | RoutesList (l : list route_arg) | RoutesOther (v : json).

Record route := mk_route { rt_channel : string; rt_capacity : Z; rt_overflow : string }.

Definition subscriber_route (r : route_arg) (w : where_) : made route :=
  match r with
  | NotARoute v => Err (MNotRoute w v)
  | RouteArg ch cap ov =>
      channel ← mstring ch (w ++ [TKey "channel"]);
      capacity ← minteger cap (w ++ [TKey "capacity"]) 1 SIZE_MAX;
      overflow ← mstring ov (w ++ [TKey "overflow"]);
      _ ← raise_if (String.eqb overflow "blocking") (MBlocking w);
      _ ← raise_if (negb (bool_decide (overflow ∈ OVERFLOW_POLICIES))) (MUnknownPolicy w ov);
      Ok (mk_route channel capacity overflow)
  end.

(** [_subscriber_routes]. *)
Definition subscriber_routes (v : routes_arg) (participant : string) : made (list route) :=
  let w := [TKey participant; TKey "subscribes"] in
  match v with
  | NoRoutes => Ok []
  | RoutesOther v => Err (MNotArray w v)
  | RoutesList l => mapE (λ ix, subscriber_route ix.2 (w ++ [TIdx ix.1])) (enumerate l)
  end.

(** ** State *)

Inductive fault :=
| FDrop
| FDropNth (n : Z)
| FDelay (delay_ns : Z)
| FOverride (field : string) (value : json).

Record interceptor := mk_interceptor {
  ic_start : option Z;
  ic_end : option Z;
  ic_fault : fault;
}.

Record channel := mk_channel {
  ch_schema : string;
  ch_latency : option Z;
  ch_slots : option Z;  (** [Some] for the shm transport *)
  ch_interceptors : list interceptor;
}.

Inductive participant :=
| Native (library : string) (config : list (string * json)) (subscribes : list route)
    (publishes : list string)
| Process (command : list string) (step_period_ns : Z) (subscribes : list route)
    (publishes : list string) (priority : Z) (shim : bool) (sleep : string)
    (threads : option string)
| Replay (recording recording_hash : string) (channels : list string) (priority : option Z).

Record manifest := mk_manifest {
  m_duration_ns : Z;
  m_epoch_ns : Z;
  m_schemas : list (string * json);
  m_channels : list (string * channel);
  m_participants : list (string * participant);
}.

Definition set_schemas (m : manifest) (s : list (string * json)) : manifest :=
  mk_manifest (m_duration_ns m) (m_epoch_ns m) s (m_channels m) (m_participants m).
Definition set_channels (m : manifest) (c : list (string * channel)) : manifest :=
  mk_manifest (m_duration_ns m) (m_epoch_ns m) (m_schemas m) c (m_participants m).
Definition set_participants (m : manifest) (p : list (string * participant)) : manifest :=
  mk_manifest (m_duration_ns m) (m_epoch_ns m) (m_schemas m) (m_channels m) p.

(** [Manifest.__init__]. *)
Definition new_manifest (duration_ns epoch_ns : json) : made manifest :=
  d ← minteger duration_ns [TKey "duration_ns"] 1 SIZE_MAX;
  e ← minteger epoch_ns [TKey "epoch_ns"] 0 SIZE_MAX;
  Ok (mk_manifest d e [] [] []).

(** ** Schemas *)

(** The element count of an accepted ["count"]. *)
Definition elements_of (count : option json) : Z :=
  match count with Some (JInt n) => n | _ => 1 end.

(** One iteration of the field loop: the names seen and the byte size so far. *)
Definition check_field (w : where_) (st : list string * Z) (ix : nat * json)
    : made (list string * Z) :=
  let '(seen, byte_size) := st in
  let wi := w ++ [TIdx ix.1] in
  f ← mobject ix.2 wi;
  _ ← reject_unknown f ["name"; "type"; "count"]%string wi;
  name ← match dget f "name"%string with
         | Some (JStr s) => if String.eqb s "" then Err (MBadFieldName w (Some (JStr s))) else Ok s
         | v => Err (MBadFieldName w v)
         end;
  p ← match dget f "type"%string with
      | Some (JStr t) => match prim_of_name t with
                         | Some p => Ok p
                         | None => Err (MUnknownType w (Some (JStr t)))
                         end
      | v => Err (MUnknownType w v)
      end;
  _ ← match dget f "count"%string with
      | None | Some JNull => Ok ()
      | Some (JInt n) => if n <? 1 then Err (MBadCount w (JInt n))
                         else raise_if (SIZE_MAX <? n) (MCountOverflow wi (JInt n))
      | Some v => Err (MBadCount w v)
      end;
  _ ← raise_if (bool_decide (name ∈ seen)) (MDuplicateField w name);
  let field_size := size_of p * elements_of (dget f "count"%string) in
  _ ← raise_if ((SIZE_MAX <? field_size) || (SIZE_MAX - field_size <? byte_size))
        (MSizeOverflow w name);
  Ok (name :: seen, byte_size + field_size).

(** The body of [add_schemas]'s loop, before the schema is stored. *)
Definition check_schema (name : string) (schema : json) : made () :=
  let w := [TKey name] in
  s ← mobject schema w;
  _ ← reject_unknown s ["fields"%string] w;
  fields ← match dget s "fields"%string with
           | None => Err (MMissingFields w)
           | Some v => marray v (w ++ [TKey "fields"])
           end;
  _ ← raise_if (bool_decide (fields = [])) (MNoFields w);
  _ ← foldE (check_field w) ([], 0) (enumerate fields);
  Ok ().

Fixpoint add_schema_items (m : manifest) (items : list (string * json))
    : manifest * option manifest_error :=
  match items with
  | [] => (m, None)
  | (name, schema) :: items =>
      match mobject schema [TKey name] ≫= λ _,
            raise_if (dmem (m_schemas m) name) (MAlreadyDeclared [TKey name]) ≫= λ _,
            check_schema name schema with
      | Err e => (m, Some e)
      | Ok _ => add_schema_items (set_schemas m (dset (m_schemas m) name schema)) items
      end
  end.

(** [add_schemas]: the schemas before a refused one stay added. *)
Definition add_schemas (m : manifest) (schemas : json) : manifest * option manifest_error :=
  match schemas with
  | JObj items => add_schema_items m items
  | _ => (m, Some (MNotObject [TKey "schemas"] schemas))
  end.

(** ** Channels and interceptors *)

(** An optional integer argument. *)
Definition opt_integer (v : json) (w : where_) (lo : Z) : made (option Z) :=
  match v with
  | JNull => Ok None
  | _ => z ← minteger v w lo SIZE_MAX; Ok (Some z)
  end.

Definition add_channel (m : manifest) (name schema latency_ns transport slots : json)
    : made manifest :=
  n ← mstring name [TKey "channel name"];
  s ← mstring schema [TKey n; TKey "schema"];
  _ ← raise_if (dmem (m_channels m) n) (MAlreadyDeclared [TKey n]);
  _ ← raise_if (negb (dmem (m_schemas m) s)) (MUnknownSchema [TKey n] s);
  latency ← opt_integer latency_ns [TKey n; TKey "latency_ns"] 0;
  t ← mstring transport [TKey n; TKey "transport"];
  _ ← raise_if (negb (bool_decide (t ∈ TRANSPORTS))) (MUnknownTransport [TKey n] t);
  sl ← (if String.eqb t "shm" then
          match slots with
          | JNull => Ok (Some 2)
          | _ => z ← minteger slots [TKey n; TKey "slots"] 1 SIZE_MAX; Ok (Some z)
          end
        else match slots with
             | JNull => Ok None
             | _ => Err (MSlotsInline [TKey n])
             end);
  Ok (set_channels m (dset (m_channels m) n (mk_channel s latency sl []))).

(** [abs] of a binary64. *)
Definition fabs (b : Z) : Z := b mod 2 ^ 63.

(** The first field spec of that name, in a schema the builder accepted. *)
Definition find_spec (schema : json) (name : string) : option json :=
  match jget schema "fields" with
  | Some (JArr l) =>
      snd <$> list_find (λ f, jget f "name" = Some (JStr name)) l
  | _ => None
  end.

Definition spec_count (spec : json) : option json :=
  match jget spec "count" with Some JNull => None | c => c end.

Definition spec_type (spec : json) : option prim :=
  match jget spec "type" with Some (JStr t) => prim_of_name t | _ => None end.

(** [float(value)] stays in the range of the field's type. *)
Definition float_fits (p : prim) (value : json) : bool :=
  match value with
  | JInt z => match float_of_int z with
              | None => false
              | Some b => negb (bool_decide (p = F32)
                                && num_lt (PFloat FLOAT32_MAX) (PFloat (fabs b)))
              end
  | JFloat b => is_finite64 b
                && negb (bool_decide (p = F32)
                         && num_lt (PFloat FLOAT32_MAX) (PFloat (fabs b)))
  | _ => false
  end.

(** [_check_override_value]. *)
Definition check_override_value (m : manifest) (ch : channel) (field : string) (value : json)
    (w : where_) : made () :=
  match find_spec (default JNull (dget (m_schemas m) (ch_schema ch))) field with
  | None => Err (MNoSuchField w field)
  | Some spec =>
      _ ← raise_if (bool_decide (is_Some (spec_count spec))) (MOverrideArray w field);
      match spec_type spec with
      | None => Err (MUnknownType w None)
      | Some p =>
          match int_range p with
          | Some (lo, hi) =>
              match value with
              | JInt z => raise_if (negb (in_range lo hi z)) (MUnrepresentable w field value)
              | _ => Err (MUnrepresentable w field value)
              end
          | None => raise_if (negb (float_fits p value)) (MUnrepresentable w field value)
          end
      end
  end.

Definition add_interceptor (m : manifest)
    (channel_ kind start_ns end_ns delay_ns n field value : json) : made manifest :=
  c ← mstring channel_ [TKey "interceptor channel"];
  match dget (m_channels m) c with
  | None => Err (MUnknownChannel [TKey "interceptor"] channel_)
  | Some ch =>
      k ← mstring kind [TKey c; TKey "kind"];
      _ ← raise_if (negb (bool_decide (k ∈ INTERCEPTOR_KINDS))) (MUnknownKind [TKey c] k);
      start ← opt_integer start_ns [TKey c; TKey "start_ns"] 0;
      end_ ← opt_integer end_ns [TKey c; TKey "end_ns"] 0;
      _ ← raise_if match end_ with Some e => e <=? default 0 start | None => false end
            (MEmptyWindow [TKey c]);
      f ← (if String.eqb k "delay" then
             match delay_ns with
             | JNull => Err (MRequires [TKey c] "delay_ns")
             | _ => d ← minteger delay_ns [TKey c; TKey "delay_ns"] 0 SIZE_MAX; Ok (FDelay d)
             end
           else if String.eqb k "drop_nth" then
             match n with
             | JNull => Err (MRequires [TKey c] "n")
             | _ => z ← minteger n [TKey c; TKey "n"] 1 SIZE_MAX; Ok (FDropNth z)
             end
           else if String.eqb k "override" then
             match field, value with
             | JNull, _ | _, JNull => Err (MRequires [TKey c] "field and value")
             | _, _ => fd ← mstring field [TKey c; TKey "field"];
                       _ ← check_override_value m ch fd value [TKey c];
                       Ok (FOverride fd value)
             end
           else Ok FDrop);
      Ok (set_channels m (dset (m_channels m) c
            (mk_channel (ch_schema ch) (ch_latency ch) (ch_slots ch)
               (ch_interceptors ch ++ [mk_interceptor start end_ f]))))
  end.

(** ** Participants *)

(** [_add_participant]. *)
Definition add_participant (m : manifest) (name : string) (p : participant) : made manifest :=
  _ ← raise_if (dmem (m_participants m) name) (MAlreadyDeclared [TKey name]);
  Ok (set_participants m (dset (m_participants m) name p)).

Definition add_native (m : manifest) (name library config : json) (subscribes : routes_arg)
    (publishes : json) : made manifest :=
  n ← mstring name [TKey "participant name"];
  lib ← mstring library [TKey n; TKey "library"];
  cfg ← match config with JNull => Ok [] | _ => mobject config [TKey n; TKey "config"] end;
  subs ← subscriber_routes subscribes n;
  pubs ← channel_list publishes n "publishes";
  add_participant m n (Native lib cfg subs pubs).

Definition I32_MIN : Z := - 2 ^ 31.
Definition I32_MAX : Z := 2 ^ 31 - 1.

Definition add_process (m : manifest) (name command step_period_ns : json)
    (subscribes : routes_arg) (publishes priority shim sleep threads : json) : made manifest :=
  n ← mstring name [TKey "participant name"];
  cmd ← marray command [TKey n; TKey "command"];
  _ ← raise_if (bool_decide (cmd = [])) (MEmptyCommand [TKey n]);
  cmd ← each mstring cmd [TKey n; TKey "command"];
  period ← minteger step_period_ns [TKey n; TKey "step_period_ns"] 1 SIZE_MAX;
  subs ← subscriber_routes subscribes n;
  pubs ← channel_list publishes n "publishes";
  prio ← minteger priority [TKey n; TKey "priority"] I32_MIN I32_MAX;
  sh ← match shim with JBool b => Ok b | _ => Err (MNotBoolean [TKey n; TKey "shim"]) end;
  sl ← match sleep with
       | JStr s => if bool_decide (s ∈ SLEEP_POLICIES) then Ok s
                   else Err (MUnknownPolicy [TKey n; TKey "sleep"] sleep)
       | _ => Err (MUnknownPolicy [TKey n; TKey "sleep"] sleep)
       end;
  _ ← raise_if (negb sh && negb (String.eqb sl "reject")) (MRequiresShim [TKey n; TKey "sleep"]);
  th ← match threads with
       | JNull => Ok None
       | JStr s => if bool_decide (s ∈ THREAD_POLICIES) then
                     _ ← raise_if (negb sh) (MRequiresShim [TKey n; TKey "threads"]); Ok (Some s)
                   else Err (MUnknownPolicy [TKey n; TKey "threads"] threads)
       | _ => Err (MUnknownPolicy [TKey n; TKey "threads"] threads)
       end;
  add_participant m n (Process cmd period subs pubs prio sh sl
    (match th with Some s => if String.eqb s "allow" then None else Some s | None => None end)).

Section replay.
(** [str(Path(p))], and the SHA-256 of a file, or [None] when it cannot be read. *)
Context (path_str : string → string) (file_digest : string → option string).

(** [for ch in channels: if ch not in self._channels]. *)
Definition iterate (v : json) : made (list json) :=
  match v with
  | JArr l => Ok l
  | JStr s => Ok ((λ c, JStr (String c EmptyString)) <$> String.list_ascii_of_string s)
  | JObj d => Ok (JStr <$> d.*1)
  | _ => Err UncaughtTypeError
  end.

Definition known_channel (m : manifest) (n : string) (v : json) : made () :=
  match v with
  | JStr s => raise_if (negb (dmem (m_channels m) s)) (MUnknownChannel [TKey n] v)
  | JArr _ | JObj _ => Err UncaughtTypeError
  | _ => Err (MUnknownChannel [TKey n] v)
  end.

Definition add_replay (m : manifest) (name recording channels priority : json) : made manifest :=
  n ← mstring name [TKey "participant name"];
  _ ← raise_if (negb (truthy channels)) (MEmptyReplay [TKey n]);
  items ← iterate channels;
  _ ← foldE (λ _ v, known_channel m n v) () items;
  chans ← marray channels [TKey n; TKey "replay channels"];
  chans ← each mstring chans [TKey n; TKey "replay channels"];
  rec ← match recording with JStr s => Ok s | _ => Err (MNotPath [TKey n] recording) end;
  digest ← match file_digest rec with
           | Some d => Ok d
           | None => Err (MCannotReadRecording [TKey n])
           end;
  prio ← match priority with
         | JNull => Ok None
         | _ => z ← minteger priority [TKey n; TKey "priority"] I32_MIN I32_MAX; Ok (Some z)
         end;
  add_participant m n (Replay (path_str rec) digest chans prio).
End replay.

(** ** Validation and the document *)

Definition subscribed (p : participant) : list string :=
  match p with
  | Native _ _ subs _ | Process _ _ subs _ _ _ _ _ => rt_channel <$> subs
  | Replay _ _ _ _ => []
  end.

(** The Channels a participant publishes, replayed ones included. *)
Definition published (p : participant) : list string :=
  match p with
  | Native _ _ _ pubs | Process _ _ _ pubs _ _ _ _ => pubs
  | Replay _ _ chans _ => chans
  end.

Definition published_key (p : participant) : string :=
  match p with Replay _ _ _ _ => "channels" | _ => "publishes" end.

(** One declaration of [for declaration in p.get(key, [])]. *)
Definition check_declared (m : manifest) (w : where_) (seen : list string) (ch : string)
    : made (list string) :=
  _ ← raise_if (negb (dmem (m_channels m) ch)) (MUnknownChannel w (JStr ch));
  _ ← raise_if (bool_decide (ch ∈ seen)) (MListedTwice w ch);
  Ok (ch :: seen).

Definition check_participant_refs (m : manifest) (np : string * participant) : made () :=
  _ ← foldE (check_declared m [TKey np.1; TKey "subscribes"]) [] (subscribed np.2);
  _ ← foldE (check_declared m [TKey np.1; TKey (published_key np.2)]) [] (published np.2);
  Ok ().

(** [publisher_of], for one participant. *)
Definition check_publisher (name : string) (pubs_of : list (string * string)) (ch : string)
    : made (list (string * string)) :=
  match dget pubs_of ch with
  | Some first => Err (MTwoPublishers ch first name)
  | None => Ok (dset pubs_of ch name)
  end.

Definition name_le (a b : string * participant) : Prop := String.le a.1 b.1.
#[export] Instance name_le_dec : RelDecision name_le.
Proof. unfold name_le. intros a b. apply _. Defined.

(** [_validate]. *)
Definition validate_builder (m : manifest) : made () :=
  _ ← foldE (λ _ np, check_participant_refs m np) () (m_participants m);
  _ ← foldE (λ pubs_of np, foldE (check_publisher np.1) pubs_of (published np.2)) []
        (merge_sort name_le (m_participants m));
  Ok ().

(** *** Documents *)

Definition opt_entry (k : string) (v : option Z) : list (string * json) :=
  match v with Some z => [(k, JInt z)] | None => [] end.

Definition fault_entries (f : fault) : string * list (string * json) :=
  match f with
  | FDrop => ("drop"%string, [])
  | FDropNth n => ("drop_nth"%string, [("n"%string, JInt n)])
  | FDelay d => ("delay"%string, [("delay_ns"%string, JInt d)])
  | FOverride f v => ("override"%string, [("field"%string, JStr f); ("value"%string, v)])
  end.

Definition interceptor_doc (i : interceptor) : json :=
  JObj (("kind"%string, JStr (fault_entries (ic_fault i)).1)
        :: opt_entry "start_ns" (ic_start i) ++ opt_entry "end_ns" (ic_end i)
        ++ (fault_entries (ic_fault i)).2).

Definition channel_doc (c : channel) : json :=
  JObj (("schema"%string, JStr (ch_schema c)) :: opt_entry "latency_ns" (ch_latency c)
        ++ match ch_slots c with
           | Some n => [("transport"%string, JStr "shm"); ("slots"%string, JInt n)]
           | None => []
           end
        ++ match ch_interceptors c with
           | [] => []
           | l => [("interceptors"%string, JArr (interceptor_doc <$> l))]
           end).

Definition route_doc (r : route) : json :=
  JObj [("channel"%string, JStr (rt_channel r)); ("capacity"%string, JInt (rt_capacity r));
        ("overflow"%string, JStr (rt_overflow r))].

Definition strs (l : list string) : json := JArr (JStr <$> l).

Definition participant_doc (p : participant) : json :=
  match p with
  | Native lib cfg subs pubs =>
      JObj [("type"%string, JStr "native"); ("library"%string, JStr lib);
            ("config"%string, JObj cfg); ("subscribes"%string, JArr (route_doc <$> subs));
            ("publishes"%string, strs pubs)]
  | Process cmd period subs pubs prio shim sleep threads =>
      JObj ([("type"%string, JStr "process"); ("command"%string, strs cmd);
             ("step_period_ns"%string, JInt period);
             ("subscribes"%string, JArr (route_doc <$> subs)); ("publishes"%string, strs pubs);
             ("priority"%string, JInt prio)]
            ++ (if shim then [("shim"%string, JBool true); ("sleep"%string, JStr sleep)]
                  ++ match threads with Some t => [("threads"%string, JStr t)] | None => [] end
                else []))
  | Replay rec hash chans prio =>
      JObj ([("type"%string, JStr "replay"); ("recording"%string, JStr rec);
             ("recording_hash"%string, JStr hash); ("channels"%string, strs chans)]
            ++ opt_entry "priority" prio)
  end.

(** The entries of [to_doc]. *)
Definition manifest_doc (m : manifest) : json :=
  JObj ([("sil_manifest"%string, JInt 1); ("duration_ns"%string, JInt (m_duration_ns m));
         ("schemas"%string, JObj (m_schemas m));
         ("channels"%string, JObj ((λ '(n, c), (n, channel_doc c)) <$> m_channels m));
         ("participants"%string, JObj ((λ '(n, p), (n, participant_doc p)) <$> m_participants m))]
        ++ if m_epoch_ns m =? 0 then [] else [("epoch_ns"%string, JInt (m_epoch_ns m))]).

Definition to_doc (m : manifest) : made json :=
  _ ← validate_builder m; Ok (manifest_doc m).

(** ** What a builder holds *)

(** A field the codec of Schema.v reads. *)
Definition field_ok (f : field) : Prop := fd_name f ≠ ""%string ∧ fd_count f ≠ Some 0%nat.

(** An object with no key but those. *)
Definition only_keys (allowed : list string) (v : json) : Prop :=
  ∃ d, v = JObj d ∧ ∀ k, k ∈ d.*1 → k ∈ allowed.

Definition FIELD_KEYS : list string := ["name"; "type"; "count"]%string.

(** A schema the codec reads: named typed fields, no name twice, a byte size
    within [size_t], and no unknown key. *)
Definition schema_ok (s : json) (fs : list field) : Prop :=
  only_keys ["fields"%string] s
  ∧ (∃ l, jget s "fields" = Some (JArr l) ∧ Forall (only_keys FIELD_KEYS) l)
  ∧ fields_of_json s = Some fs ∧ fs ≠ [] ∧ NoDup (fd_name <$> fs) ∧ Forall field_ok fs
  ∧ Z.of_nat (mt_size fs) ≤ SIZE_MAX.

(** A number a scalar field of that type holds, before the rounding to its
    width. *)
Definition override_ok (p : prim) (v : json) : Prop :=
  match int_range p, v with
  | Some (lo, hi), JInt z => lo ≤ z ≤ hi
  | None, JInt _ | None, JFloat _ => float_fits p v = true
  | _, _ => False
  end.

Definition u64_ok (z : Z) : Prop := 0 ≤ z ≤ SIZE_MAX.
Definition pos_ok (z : Z) : Prop := 1 ≤ z ≤ SIZE_MAX.
Definition i32_ok (z : Z) : Prop := I32_MIN ≤ z ≤ I32_MAX.
Definition opt_ok (P : Z → Prop) (o : option Z) : Prop := ∀ z, o = Some z → P z.

Definition fault_ok (fs : list field) (f : fault) : Prop :=
  match f with
  | FDrop => True
  | FDropNth n => pos_ok n
  | FDelay d => u64_ok d
  | FOverride name v => ∃ p, mk_field name p None ∈ fs ∧ override_ok p v
  end.

Definition interceptor_ok (fs : list field) (i : interceptor) : Prop :=
  opt_ok u64_ok (ic_start i) ∧ opt_ok u64_ok (ic_end i)
  ∧ opt_ok (λ e, default 0 (ic_start i) < e) (ic_end i) ∧ fault_ok fs (ic_fault i).

Definition channel_ok (schemas : list (string * json)) (c : channel) : Prop :=
  opt_ok u64_ok (ch_latency c) ∧ opt_ok pos_ok (ch_slots c)
  ∧ ∃ s fs, dget schemas (ch_schema c) = Some s ∧ schema_ok s fs
            ∧ Forall (interceptor_ok fs) (ch_interceptors c).

Definition route_ok (r : route) : Prop :=
  pos_ok (rt_capacity r) ∧ rt_overflow r ∈ OVERFLOW_POLICIES.

Definition participant_ok (p : participant) : Prop :=
  match p with
  | Native _ _ subs _ => Forall route_ok subs
  | Process cmd period subs _ prio shim sleep threads =>
      cmd ≠ [] ∧ pos_ok period ∧ Forall route_ok subs ∧ i32_ok prio
      ∧ sleep ∈ SLEEP_POLICIES ∧ (∀ t, threads = Some t → t ∈ THREAD_POLICIES)
      ∧ (shim = false → sleep = "reject"%string ∧ threads = None)
  | Replay _ _ chans prio => chans ≠ [] ∧ opt_ok i32_ok prio
  end.

Record manifest_ok (m : manifest) : Prop := {
  ok_duration : pos_ok (m_duration_ns m);
  ok_epoch : u64_ok (m_epoch_ns m);
  ok_schema_names : NoDup (m_schemas m).*1;
  ok_schemas : ∀ n s, (n, s) ∈ m_schemas m → ∃ fs, schema_ok s fs;
  ok_channel_names : NoDup (m_channels m).*1;
  ok_channels : ∀ n c, (n, c) ∈ m_channels m → channel_ok (m_schemas m) c;
  ok_participant_names : NoDup (m_participants m).*1;
  ok_participants : ∀ n p, (n, p) ∈ m_participants m → participant_ok p;
}.

(** ** Lemmas *)

Lemma minteger_Ok v w lo hi z : minteger v w lo hi = Ok z → v = JInt z ∧ lo ≤ z ≤ hi.
Proof.
  destruct v as [| |z'| | | |]; cbn; try discriminate.
  destruct (z' <? lo) eqn:?; [discriminate|]. destruct (hi <? z') eqn:?; [discriminate|].
  intros [= <-]. split; [done|lia].
Qed.

Lemma mstring_Ok v w s : mstring v w = Ok s → v = JStr s.
Proof. destruct v; cbn; congruence. Qed.

Lemma opt_integer_Ok v w lo o :
  opt_integer v w lo = Ok o → opt_ok (λ z, lo ≤ z ≤ SIZE_MAX) o.
Proof.
  unfold opt_ok. intros H z ->.
  assert (∃ z', minteger v w lo SIZE_MAX = Ok z' ∧ Some z' = Some z) as (z' & [_ Hz]%minteger_Ok & [= ->]);
    [|done].
  destruct v; cbn [opt_integer] in H; inv_ok; try discriminate; by eexists.
Qed.

Lemma mt_size_cons f fs : mt_size (f :: fs) = (field_size f + mt_size fs)%nat.
Proof. unfold mt_size, mt_items, field_size, size. cbn. by rewrite sum_list_with_app. Qed.

Lemma field_size_Z f :
  Z.of_nat (field_size f) = size_of (fd_type f) * Z.of_nat (default 1%nat (fd_count f)).
Proof.
  destruct f as [n p [c|]]; unfold field_size, field_plan, size; cbn [fd_count fd_type default].
  - case_decide as E; cbn.
    + subst p. cbn. lia.
    + pose proof (size_of_pos p). induction c as [|c IH]; cbn; [lia|]. lia.
  - cbn. pose proof (size_of_pos p). lia.
Qed.

Lemma mobject_Ok v w d : mobject v w = Ok d → v = JObj d.
Proof. destruct v; cbn; congruence. Qed.
Lemma marray_Ok v w l : marray v w = Ok l → v = JArr l.
Proof. destruct v; cbn; congruence. Qed.

Lemma reject_unknown_Ok d allowed w : reject_unknown d allowed w = Ok () → only_keys allowed (JObj d).
Proof.
  unfold reject_unknown. destruct (list_find _ d) as [[i kv]|] eqn:Hf; [discriminate|]. intros _.
  exists d. split; [done|]. intros k (kv & -> & Hin)%list_elem_of_fmap.
  apply list_find_None in Hf. rewrite Forall_forall in Hf. specialize (Hf _ Hin).
  by destruct (decide (kv.1 ∈ allowed)).
Qed.

Lemma check_field_Ok w seen sz i x seen' sz' :
  check_field w (seen, sz) (i, x) = Ok (seen', sz') →
  ∃ f, only_keys FIELD_KEYS x ∧ field_of_json x = Some f ∧ field_ok f ∧ fd_name f ∉ seen ∧ seen' = fd_name f :: seen
       ∧ sz' = sz + Z.of_nat (field_size f) ∧ sz' ≤ SIZE_MAX.
Proof.
  unfold check_field. intros H. inv_ok. apply mobject_Ok in Hok. cbn [snd] in Hok. subst x.
  destruct a0. apply reject_unknown_Ok in Hok0. unfold field_of_json. cbn [jget].
  destruct (dget a "name"%string) as [[| | | |name| |]|] eqn:Hname; try discriminate.
  destruct (String.eqb_spec name ""); [discriminate|]. injection Hok1 as <-.
  destruct (dget a "type"%string) as [[| | | |ty| |]|] eqn:Hty; try discriminate.
  destruct (prim_of_name ty) as [p|] eqn:Hp; [|discriminate]. injection Hok2 as <-.
  apply bool_decide_eq_false in Hok4. apply orb_false_iff in Hok5 as [Hs1 Hs2].
  assert (∃ c, (match dget a "count"%string with
                | None | Some JNull => Some (mk_field name p None)
                | Some (JInt n) =>
                    if n <? 0 then None else Some (mk_field name p (Some (Z.to_nat n)))
                | _ => None
                end) = Some (mk_field name p c) ∧ c ≠ Some 0%nat
               ∧ Z.of_nat (default 1%nat c) = elements_of (dget a "count"%string))
    as (c & Hc & Hc0 & Hce).
  { destruct (dget a "count"%string) as [[| |k| | | |]|]; try discriminate;
      try (by exists None).
    destruct (k <? 1) eqn:Hn; [discriminate|]. exists (Some (Z.to_nat k)).
    destruct (k <? 0) eqn:?; [lia|]. split_and!; [done| |cbn; lia].
    intros [= ?]. lia. }
  exists (mk_field name p c). cbn [mbind option_bind]. rewrite Hc.
  rewrite field_size_Z. cbn [fd_name fd_type fd_count]. rewrite Hce.
  split_and!; try done; lia.
Qed.

Lemma check_fields_Ok w i l seen sz seen' sz' :
  foldE (check_field w) (seen, sz) (enumerate_from i l) = Ok (seen', sz') →
  ∃ fs, Forall (only_keys FIELD_KEYS) l ∧ mapM field_of_json l = Some fs ∧ Forall field_ok fs
        ∧ seen' = reverse (fd_name <$> fs) ++ seen ∧ (NoDup seen → NoDup seen')
        ∧ sz' = sz + Z.of_nat (mt_size fs) ∧ (sz ≤ SIZE_MAX → sz' ≤ SIZE_MAX).
Proof.
  revert i seen sz. induction l as [|x l IH]; intros i seen sz H; cbn [foldE enumerate_from] in H.
  - injection H as <- <-. exists []. cbn. rewrite Z.add_0_r. split_and!; auto.
  - inv_ok. destruct a as [seen1 sz1].
    apply check_field_Ok in Hok as (f & Hk & Hf & Hfok & Hn & -> & -> & Hle).
    apply IH in H as (fs & Hks & Hfs & Hall & -> & Hnd & -> & Hle').
    exists (f :: fs). cbn [mapM mbind option_bind mret option_ret].
    rewrite Hf. cbn [mbind option_bind]. rewrite Hfs. cbn [mbind option_bind].
    rewrite mt_size_cons, fmap_cons, reverse_cons, <- (assoc_L (++)). split_and!; auto.
    + intros. apply Hnd. by apply NoDup_cons.
    + lia.
Qed.

Lemma check_schema_Ok name s : check_schema name s = Ok () → ∃ fs, schema_ok s fs.
Proof.
  unfold check_schema. intros H. inv_ok. apply mobject_Ok in Hok as ->.
  destruct (dget a "fields"%string) as [v|] eqn:Hv; [|discriminate].
  apply marray_Ok in Hok1 as ->. apply bool_decide_eq_false in Hok2. destruct a3 as [seen sz].
  apply check_fields_Ok in Hok3 as (fs & Hks & Hfs & Hall & -> & Hnd & -> & Hle).
  exists fs. unfold schema_ok, fields_of_json. cbn [jget]. rewrite Hv.
  destruct a0. apply reject_unknown_Ok in Hok0.
  rewrite app_nil_r in Hnd. split_and!; eauto.
  - intros ->. apply mapM_Some in Hfs. by inversion Hfs; subst.
  - specialize (Hnd (NoDup_nil_2)). by rewrite reverse_Permutation in Hnd.
  - apply Hle. unfold SIZE_MAX, u64_max. lia.
Qed.

(** *** Dictionaries with a property of every entry *)

Lemma dset_elem {V} (d : list (string * V)) k v k' v' :
  (k', v') ∈ dset d k v → (k', v') = (k, v) ∨ (k', v') ∈ d.
Proof.
  induction d as [|[k1 v1] d IH]; cbn.
  - rewrite list_elem_of_singleton. auto.
  - case_decide; rewrite !elem_of_cons; [subst|]; naive_solver.
Qed.

Lemma dset_entries {V} (P : V → Prop) (d : list (string * V)) k v :
  (∀ n x, (n, x) ∈ d → P x) → P v → ∀ n x, (n, x) ∈ dset d k v → P x.
Proof. intros Hd Hv n x [[= -> ->]|H]%dset_elem; eauto. Qed.

(** A Channel keeps its schema when another one is declared. *)
Lemma channel_ok_dset schemas n s c :
  n ∉ schemas.*1 → channel_ok schemas c → channel_ok (dset schemas n s) c.
Proof.
  intros Hn (? & ? & s' & fs & Hs & ?). split_and!; try done. exists s', fs. split; [|done].
  rewrite dget_dset_ne; [done|]. intros ->. apply dget_None in Hn. congruence.
Qed.

Lemma find_spec_field s fs name spec :
  schema_ok s fs → find_spec s name = Some spec →
  ∃ f, f ∈ fs ∧ fd_name f = name ∧ field_of_json spec = Some f.
Proof.
  unfold schema_ok, fields_of_json, find_spec. intros (_ & _ & Hf & _) Hs.
  destruct (jget s "fields") as [[| | | | |l|]|]; try discriminate.
  destruct (list_find _ l) as [[i x]|] eqn:Hl; [|discriminate]. injection Hs as ->.
  apply list_find_Some in Hl as (Hi & Hname & _). apply mapM_Some in Hf.
  destruct (Forall2_lookup_l _ _ _ _ _ Hf Hi) as (f & Hfi & Hx).
  exists f. split_and!; [by eapply list_elem_of_lookup_2| |done].
  unfold field_of_json in Hx. rewrite Hname in Hx.
  destruct (jget spec "type") as [[| | | | ty| |]|]; try discriminate.
  destruct (prim_of_name ty); [|discriminate]. cbn in Hx.
  destruct (jget spec "count") as [[| |z| | | |]|]; simplify_eq; try done.
  destruct (z <? 0); by simplify_eq.
Qed.

Lemma check_override_Ok m ch s fs name v w :
  dget (m_schemas m) (ch_schema ch) = Some s → schema_ok s fs →
  check_override_value m ch name v w = Ok () → fault_ok fs (FOverride name v).
Proof.
  intros Hs Hok. unfold check_override_value. rewrite Hs. cbn [default from_option id].
  destruct (find_spec s name) as [spec|] eqn:Hspec; [|discriminate].
  destruct (find_spec_field _ _ _ _ Hok Hspec) as ([fn p c] & Hin & Hn & Hf).
  cbn [fd_name] in Hn. subst fn. intros H. inv_ok. apply bool_decide_eq_false in Hok0.
  assert (spec_type spec = Some p ∧ c = None) as [Ht ->].
  { unfold field_of_json, spec_type, spec_count in *.
    destruct (jget spec "name") as [[| | | |nm| |]|]; try discriminate.
    destruct (jget spec "type") as [[| | | |ty| |]|]; try discriminate.
    destruct (prim_of_name ty); [|discriminate]. cbn in Hf.
    destruct (jget spec "count") as [[]|]; simplify_eq; try done;
      exfalso; apply Hok0; by eexists. }
  rewrite Ht in H. exists p. split; [done|]. unfold override_ok.
  destruct (int_range p) as [[lo hi]|].
  - destruct v; try discriminate. inv_ok. apply negb_false_iff in H. by apply in_range_true in H.
  - inv_ok. apply negb_false_iff in H. by destruct v.
Qed.

(** *** Every operation keeps the invariant *)

(** A goal that is the range of a checked integer. *)
Ltac ranged :=
  match goal with H : minteger _ _ _ _ = Ok _ |- _ => by apply minteger_Ok in H as [_ ?] end.

Lemma new_manifest_ok d e m : new_manifest d e = Ok m → manifest_ok m.
Proof.
  unfold new_manifest. intros H. inv_ok.
  apply minteger_Ok in Hok as [_ Hd]. apply minteger_Ok in Hok0 as [_ He].
  split; cbn; try apply NoDup_nil_2; try done; by intros ?? ?%elem_of_nil.
Qed.

Lemma add_schema_items_ok items m : manifest_ok m → manifest_ok (add_schema_items m items).1.
Proof.
  revert m. induction items as [|[name s] items IH]; intros m Hm; [done|]. cbn [add_schema_items].
  destruct (mobject s [TKey name] ≫= _) as [[]|e] eqn:H; [|done]. inv_ok. apply IH.
  apply dmem_false in Hok0. apply check_schema_Ok in H. destruct Hm. split; cbn; auto.
  - by apply dset_NoDup.
  - by apply dset_entries.
  - intros n c Hc. by eapply channel_ok_dset, ok_channels0.
Qed.

Lemma add_schemas_ok m v : manifest_ok m → manifest_ok (add_schemas m v).1.
Proof. destruct v; cbn; auto using add_schema_items_ok. Qed.

Lemma set_channels_ok m n c :
  manifest_ok m → channel_ok (m_schemas m) c →
  manifest_ok (set_channels m (dset (m_channels m) n c)).
Proof.
  intros [] Hc. split; cbn; auto; [by apply dset_NoDup|].
  by apply (dset_entries (channel_ok (m_schemas m))).
Qed.

Lemma opt_ok_None P : opt_ok P None.
Proof. done. Qed.
Lemma opt_ok_Some (P : Z → Prop) z : P z → opt_ok P (Some z).
Proof. by intros ? ? [= <-]. Qed.
#[local] Hint Resolve opt_ok_None opt_ok_Some : sil.

Lemma add_channel_ok m name schema latency transport slots m' :
  manifest_ok m → add_channel m name schema latency transport slots = Ok m' → manifest_ok m'.
Proof.
  intros Hm H. unfold add_channel in H. inv_ok. apply set_channels_ok; [done|].
  apply negb_false_iff, dmem_true, dget_is_Some in Hok2 as [s Hs].
  destruct (ok_schemas _ Hm _ _ (dget_Some _ _ _ Hs)) as [fs Hfs].
  apply opt_integer_Ok in Hok3. split_and!; [done| |by exists s, fs].
  cbn [ch_slots]. destruct (String.eqb a4 "shm"); destruct slots; inv_ok; auto with sil;
    try discriminate; apply opt_ok_Some; first [ranged | done].
Qed.

Lemma add_interceptor_ok m c k st en d n f v m' :
  manifest_ok m → add_interceptor m c k st en d n f v = Ok m' → manifest_ok m'.
Proof.
  intros Hm H. unfold add_interceptor in H. inv_ok.
  destruct (dget (m_channels m) a) as [ch|] eqn:Hch; [|discriminate]. inv_ok.
  apply set_channels_ok; [done|].
  destruct (ok_channels _ Hm _ _ (dget_Some _ _ _ Hch)) as (Hlat & Hsl & s & fs & Hs & Hfs & Hi).
  apply opt_integer_Ok in Hok2, Hok3. split_and!; [done..|]. exists s, fs. split_and!; [done..|].
  apply Forall_app. split; [done|]. apply Forall_singleton. split_and!; [done..| |].
  - intros e Ee. cbn [ic_end ic_start] in *. subst a3. cbn in Hok4. lia.
  - cbn [ic_fault]. clear Hok4.
    destruct (String.eqb a0 "delay"); [|destruct (String.eqb a0 "drop_nth");
      [|destruct (String.eqb a0 "override")]].
    + destruct d; inv_ok; try discriminate; ranged.
    + destruct n; inv_ok; try discriminate; ranged.
    + assert (∃ fd, check_override_value m ch fd v [TKey a] = Ok () ∧ a5 = FOverride fd v)
        as (fd & Hfd & ->).
      { destruct f, v; inv_ok; try discriminate; (eexists; split; [|reflexivity]);
          match goal with H : check_override_value _ _ _ _ _ = Ok ?u |- _ => by destruct u end. }
      by eapply check_override_Ok.
    + by inv_ok.
Qed.

Lemma subscriber_routes_Ok v n subs : subscriber_routes v n = Ok subs → Forall route_ok subs.
Proof.
  destruct v as [|l|]; cbn; [by intros [= <-]| |discriminate]. intros H%mapE_Ok.
  eapply Forall2_Forall_r; [done|]. apply Forall_forall. intros [i r] _ y Hy. cbn in Hy.
  destruct r; [|discriminate]. unfold subscriber_route in Hy. inv_ok.
  split; cbn; [by apply minteger_Ok in Hok0 as [_ ?]|].
  by apply negb_false_iff, bool_decide_eq_true in Hok3.
Qed.

Lemma add_participant_ok m n p m' :
  manifest_ok m → participant_ok p → add_participant m n p = Ok m' → manifest_ok m'.
Proof.
  unfold add_participant. intros Hm Hp H. inv_ok. destruct Hm. split; cbn; auto.
  - by apply dset_NoDup.
  - by apply dset_entries.
Qed.

Lemma add_native_ok m n lib cfg subs pubs m' :
  manifest_ok m → add_native m n lib cfg subs pubs = Ok m' → manifest_ok m'.
Proof.
  unfold add_native. intros Hm H. inv_ok. eapply add_participant_ok; [done| |done].
  by eapply subscriber_routes_Ok.
Qed.

Lemma each_nil {A} (f : json → where_ → made A) l w :
  l ≠ [] → each f l w = Ok [] → False.
Proof. intros Hl H%mapE_length. unfold enumerate in H. rewrite enumerate_from_length in H. by destruct l. Qed.

Lemma add_process_ok m n cmd period subs pubs prio shim sleep threads m' :
  manifest_ok m → add_process m n cmd period subs pubs prio shim sleep threads = Ok m' →
  manifest_ok m'.
Proof.
  unfold add_process. intros Hm H. inv_ok. eapply add_participant_ok; [done| |done].
  apply bool_decide_eq_false in Hok1. apply minteger_Ok in Hok3 as [_ ?], Hok6 as [_ ?].
  destruct shim as [|sh| | | | |]; try discriminate. injection Hok7 as ->.
  destruct sleep as [| | | |sl| |]; try discriminate.
  case_bool_decide as Hsl; [|discriminate]. injection Hok8 as ->.
  assert (∀ t, a10 = Some t → t ∈ THREAD_POLICIES ∧ a7 = true) as Ht.
  { destruct threads as [| | | |th| |]; inv_ok; try discriminate.
    case_bool_decide; inv_ok. intros t [= <-]. split; [done|]. match goal with H : negb _ = false |- _ => by apply negb_false_iff in H end. }
  split_and!; try done.
  - intros ->. by eapply each_nil.
  - by eapply subscriber_routes_Ok.
  - intros t. destruct a10 as [t'|]; [|done]. destruct (String.eqb t' "allow"); [done|].
    intros [= <-]. by apply Ht.
  - intros ->. cbn in Hok9. apply negb_false_iff, String.eqb_eq in Hok9. split; [done|].
    destruct a10 as [t|]; [|done]. by destruct (Ht t eq_refl).
Qed.

Lemma add_replay_ok ps fd m n recd chans prio m' :
  manifest_ok m → add_replay ps fd m n recd chans prio = Ok m' → manifest_ok m'.
Proof.
  unfold add_replay. intros Hm H. inv_ok. eapply add_participant_ok; [done| |done].
  apply negb_false_iff in Hok0. apply marray_Ok in Hok3 as ->. split.
  - intros ->. eapply each_nil; [|done]. by intros ->.
  - destruct prio; inv_ok; auto with sil; try discriminate. apply opt_ok_Some. ranged.
Qed.

(** ** Authoring sequences *)

Inductive op :=
| AddSchemas (schemas : json)
| AddChannel (name schema latency_ns transport slots : json)
| AddInterceptor (channel_ kind start_ns end_ns delay_ns n field value : json)
| AddNative (name library config : json) (subscribes : routes_arg) (publishes : json)
| AddProcess (name command step_period_ns : json) (subscribes : routes_arg)
    (publishes priority shim sleep threads : json)
| AddReplay (name recording channels priority : json).

Section authoring.
Context (path_str : string → string) (file_digest : string → option string).

(** The builder after a call that raised. *)
Definition or_unchanged (m : manifest) (r : made manifest) : manifest :=
  match r with Ok m' => m' | Err _ => m end.

(** One authoring call; a caller may catch its error and go on. *)
Definition exec (m : manifest) (o : op) : manifest :=
  match o with
  | AddSchemas s => (add_schemas m s).1
  | AddChannel n s l t sl => or_unchanged m (add_channel m n s l t sl)
  | AddInterceptor c k s e d n f v => or_unchanged m (add_interceptor m c k s e d n f v)
  | AddNative n l c s p => or_unchanged m (add_native m n l c s p)
  | AddProcess n c sp s p pr sh sl th => or_unchanged m (add_process m n c sp s p pr sh sl th)
  | AddReplay n r c p => or_unchanged m (add_replay path_str file_digest m n r c p)
  end.

Definition authoring_step (m : manifest) (o : op) (m' : manifest) : Prop := m' = exec m o.

Lemma exec_ok m o : manifest_ok m → manifest_ok (exec m o).
Proof.
  intros Hm. destruct o; cbn [exec]; [by apply add_schemas_ok|..];
    match goal with |- manifest_ok (or_unchanged _ ?r) =>
      destruct r as [m'|] eqn:H; [cbn [or_unchanged]|done] end.
  - by eapply add_channel_ok.
  - by eapply add_interceptor_ok.
  - by eapply add_native_ok.
  - by eapply add_process_ok.
  - by eapply add_replay_ok.
Qed.

Lemma authored_ok d e m0 tr m :
  new_manifest d e = Ok m0 → reachable authoring_step m0 tr m → manifest_ok m.
Proof.
  intros Hn. apply reachable_inv; [by eapply new_manifest_ok|].
  intros s o s' Hs ->. by apply exec_ok.
Qed.

Lemma run_reachable m0 ops : reachable authoring_step m0 ops (foldl exec m0 ops).
Proof.
  induction ops as [|o ops IH] using rev_ind; [constructor|].
  rewrite foldl_app. cbn. by eapply reach_step.
Qed.
End authoring.

(** ** Validation *)

(** Every Channel a Participant lists is declared, and listed once. *)
Definition refs_ok (m : manifest) : Prop :=
  ∀ n p, (n, p) ∈ m_participants m →
    (∀ ch, ch ∈ subscribed p ++ published p → ch ∈ (m_channels m).*1)
    ∧ NoDup (subscribed p) ∧ NoDup (published p).

Definition single_publisher (m : manifest) : Prop :=
  ∀ n1 p1 n2 p2 ch, (n1, p1) ∈ m_participants m → (n2, p2) ∈ m_participants m →
    ch ∈ published p1 → ch ∈ published p2 → n1 = n2.

Lemma check_declared_Ok m w l seen seen' :
  foldE (check_declared m w) seen l = Ok seen' ↔
  (∀ ch, ch ∈ l → ch ∈ (m_channels m).*1) ∧ NoDup l ∧ (∀ ch, ch ∈ l → ch ∉ seen)
  ∧ seen' = reverse l ++ seen.
Proof.
  revert seen. induction l as [|ch l IH]; intros seen; cbn [foldE].
  - rewrite reverse_nil. split; [intros [= <-] | intros (_ & _ & _ & ->); done].
    split_and!; try constructor; by intros ? ?%elem_of_nil.
  - rewrite bind_Ok, reverse_cons, <- (assoc_L (++)), NoDup_cons. unfold check_declared at 1. split.
    + intros (s1 & H1 & H2). inv_ok. apply IH in H2 as (Hd & Hn & Hs & ->).
      apply negb_false_iff, dmem_true in Hok. apply bool_decide_eq_false in Hok0.
      split_and!; try done; try (intros ? [->|]%elem_of_cons); auto.
      * intros Hin. apply (Hs _ Hin). by left.
      * intros Hin. by apply (Hs ch0); [|right].
    + intros (Hd & [Hn Hl] & Hs & ->). exists (ch :: seen). split.
      * rewrite (proj2 (dmem_true _ _)) by (apply Hd; left). mcbn.
        rewrite bool_decide_eq_false_2 by (apply Hs; left). done.
      * apply IH. split_and!; try done; intros c Hc; [apply Hd; by right|].
        intros [->|Hin]%elem_of_cons; [done|]. by eapply Hs; [right|].
Qed.

Lemma check_refs_Ok m n p :
  check_participant_refs m (n, p) = Ok () ↔
  (∀ ch, ch ∈ subscribed p ++ published p → ch ∈ (m_channels m).*1)
  ∧ NoDup (subscribed p) ∧ NoDup (published p).
Proof.
  unfold check_participant_refs. rewrite bind_Ok. setoid_rewrite bind_Ok.
  setoid_rewrite check_declared_Ok. setoid_rewrite elem_of_app. cbn [snd]. split.
  - intros (? & (? & ? & ? & _) & ? & (? & ? & ? & _) & _). naive_solver.
  - intros (Hd & H1 & H2). eexists. split.
    + split_and!; [auto|done|by intros ? ? ?%elem_of_nil|done].
    + eexists. split; [|done]. split_and!; [auto|done|by intros ? ? ?%elem_of_nil|done].
Qed.

Lemma check_publisher_one n d ch d' :
  check_publisher n d ch = Ok d' ↔ ch ∉ d.*1 ∧ d' = d ++ [(ch, n)].
Proof.
  unfold check_publisher. rewrite <- dget_None. destruct (dget d ch) eqn:Hg; [naive_solver|].
  rewrite dset_keys_new by by apply dget_None. naive_solver.
Qed.

Lemma check_publisher_Ok n d l d' :
  foldE (check_publisher n) d l = Ok d' ↔
  NoDup l ∧ (∀ ch, ch ∈ l → ch ∉ d.*1) ∧ d' = d ++ ((., n) <$> l).
Proof.
  revert d. induction l as [|ch l IH]; intros d; cbn [foldE].
  - rewrite app_nil_r. split; [|naive_solver].
    intros [= <-]. split_and!; [constructor| by intros ? ?%elem_of_nil | done].
  - rewrite bind_Ok, NoDup_cons. setoid_rewrite check_publisher_one. setoid_rewrite IH. split.
    + intros (d1 & (Hn & ->) & Hl & Hd & ->). setoid_rewrite fmap_app in Hd.
      setoid_rewrite elem_of_app in Hd. rewrite <- (assoc_L (++)). split_and!; [|done| |done].
      * intros Hin. apply (Hd _ Hin). right. by left.
      * intros c [->|Hc]%elem_of_cons; naive_solver.
    + intros ([Hn Hl] & Hd & ->). eexists. rewrite <- (assoc_L (++)). split; [split|]; [|done|].
      * apply Hd. left.
      * split_and!; [done| |done]. intros c Hc. rewrite fmap_app.
        intros [Hin|Hin%list_elem_of_singleton]%elem_of_app; [by eapply Hd; [right|]|].
        cbn in Hin. congruence.
Qed.

Lemma fmap_pair_fst {A B} (b : B) (l : list A) : ((., b) <$> l).*1 = l.
Proof. induction l; cbn; f_equal; auto. Qed.

(** The publisher loop over all Participants accepts iff no Channel occurs
    twice in what they publish. *)
Lemma publishers_Ok d (l : list (string * participant)) :
  (∃ d', foldE (λ d np, foldE (check_publisher np.1) d (published np.2)) d l = Ok d') ↔
  NoDup (mjoin ((λ np, published np.2) <$> l))
  ∧ (∀ ch, ch ∈ mjoin ((λ np, published np.2) <$> l) → ch ∉ d.*1).
Proof.
  revert d. induction l as [|[n p] l IH]; intros d; cbn [foldE fmap list_fmap mjoin list_join fst snd].
  - split; [|by eexists]. intros _. split; [constructor|by intros ? ?%elem_of_nil].
  - setoid_rewrite bind_Ok. setoid_rewrite check_publisher_Ok. rewrite NoDup_app.
    setoid_rewrite elem_of_app. split.
    + intros (d' & d1 & (Hn & Hd & ->) & H).
      destruct (proj1 (IH _) (ex_intro _ _ H)) as [Hn' Hd'].
      setoid_rewrite fmap_app in Hd'. setoid_rewrite elem_of_app in Hd'.
      rewrite fmap_pair_fst in Hd'. naive_solver.
    + intros ((Hn & Hx & Hn') & Hd).
      destruct (proj2 (IH (d ++ ((., n) <$> published p)))) as [d' Hd'].
      * split; [done|]. intros ch Hch. rewrite fmap_app, fmap_pair_fst, elem_of_app.
        naive_solver.
      * exists d', (d ++ ((., n) <$> published p)). naive_solver.
Qed.

Lemma elem_of_published ch (l : list (string * participant)) :
  ch ∈ mjoin ((λ np, published np.2) <$> l) ↔ ∃ n p, (n, p) ∈ l ∧ ch ∈ published p.
Proof.
  rewrite list_elem_of_join. setoid_rewrite list_elem_of_fmap. split.
  - intros (? & ? & [n p] & -> & ?). eauto.
  - intros (n & p & ? & ?). exists (published p). split; [done|]. by exists (n, p).
Qed.

Lemma NoDup_published (l : list (string * participant)) :
  NoDup l.*1 → (∀ n p, (n, p) ∈ l → NoDup (published p)) →
  NoDup (mjoin ((λ np, published np.2) <$> l)) ↔
  (∀ n1 p1 n2 p2 ch, (n1, p1) ∈ l → (n2, p2) ∈ l → ch ∈ published p1 → ch ∈ published p2 → n1 = n2).
Proof.
  intros Hn Hp. induction l as [|[n p] l IH]; cbn [fmap list_fmap mjoin list_join snd].
  { split; [by intros _ ????? ?%elem_of_nil | constructor]. }
  apply NoDup_cons in Hn as [Hfresh Hn]. cbn [fst] in Hfresh.
  assert (∀ p', (n, p') ∉ l) as Hnl.
  { intros p' Hin. apply Hfresh, list_elem_of_fmap. by exists (n, p'). }
  rewrite NoDup_app, IH by (try done; intros; eapply Hp; by right).
  setoid_rewrite elem_of_published. setoid_rewrite elem_of_cons. split.
  - intros (_ & Hx & Hs) n1 p1 n2 p2 ch [[= -> ->]|H1] [[= -> ->]|H2] Hc1 Hc2; try done.
    + destruct (Hx _ Hc1). eauto.
    + destruct (Hx _ Hc2). eauto.
    + eauto.
  - intros Hs. split_and!; [eapply Hp; by left| |].
    + intros ch Hch (n' & p' & Hin & Hch').
      assert (n = n') as <- by (eapply Hs; eauto). by eapply Hnl.
    + intros. eapply Hs; eauto.
Qed.

#[local] Instance name_le_trans : Transitive name_le.
Proof. intros a b c. unfold name_le. apply (transitivity (R := String.le)). Qed.
#[local] Instance name_le_total : Total name_le.
Proof. intros a b. unfold name_le. apply (total String.le). Qed.

Lemma validate_builder_Ok m :
  NoDup (m_participants m).*1 →
  validate_builder m = Ok () ↔ refs_ok m ∧ single_publisher m.
Proof.
  intros Hn. unfold validate_builder.
  assert (foldE (λ _ np, check_participant_refs m np) () (m_participants m) = Ok () ↔ refs_ok m)
    as Hrefs.
  { rewrite foldE_unit, Forall_forall. split.
    - intros H n p Hin. apply check_refs_Ok with n. by apply H.
    - intros H [n p] Hin. by apply check_refs_Ok, (H n). }
  assert (mjoin ((λ np, published np.2) <$> merge_sort name_le (m_participants m))
          ≡ₚ mjoin ((λ np, published np.2) <$> m_participants m)) as Hperm
    by by rewrite merge_sort_Permutation.
  pose proof (publishers_Ok [] (merge_sort name_le (m_participants m))) as Hpub.
  rewrite Hperm in Hpub. rewrite bind_Ok. setoid_rewrite bind_Ok. split.
  - intros ([] & H1%Hrefs & d & H2 & _). split; [done|].
    unfold single_publisher. apply NoDup_published; [done|by intros ? ? (_ & _ & ?)%H1|].
    apply Hpub. by exists d.
  - intros [H1 H2]. exists (). split; [by apply Hrefs|].
    destruct (proj2 Hpub) as [d Hd]; [|by exists d].
    split; [|by intros ? _ ?%elem_of_nil]. apply NoDup_published; [done|by intros ? ? (_ & _ & ?)%H1|done].
Qed.

(** The dictionary the publisher loop has built. *)
Lemma publishers_dict d l d' :
  foldE (λ d np, foldE (check_publisher np.1) d (published np.2)) d l = Ok d' →
  ∀ ch n, (ch, n) ∈ d' → (ch, n) ∈ d ∨ ∃ p, (n, p) ∈ l ∧ ch ∈ published p.
Proof.
  revert d. induction l as [|[n p] l IH]; intros d; cbn [foldE fst snd]; [naive_solver|].
  intros (d1 & (_ & _ & ->)%check_publisher_Ok & H)%bind_Ok ch n' Hin.
  destruct (IH _ H ch n' Hin) as [Hd|(p' & Hp' & ?)].
  - apply elem_of_app in Hd as [|Hd]; [by left|right]. apply list_elem_of_fmap in Hd as (c & [= -> ->] & ?).
    exists p. split; [left|done].
  - right. exists p'. split; [by right|done].
Qed.

Lemma check_participant_refs_kind m np ch a b :
  check_participant_refs m np ≠ Err (MTwoPublishers ch a b).
Proof.
  assert (∀ w seen l, foldE (check_declared m w) seen l ≠ Err (MTwoPublishers ch a b)) as Hd.
  { intros w seen l (l1 & x & l2 & s & _ & _ & H)%foldE_Err. unfold check_declared in H.
    destruct (negb _); [discriminate|]. by destruct (bool_decide _). }
  unfold check_participant_refs. intros H. destruct (foldE _ _ (subscribed _)) eqn:H1; cbn in H.
  - destruct (foldE _ _ (published _)) eqn:H2; cbn in H; [discriminate|]. simplify_eq. by eapply Hd.
  - simplify_eq. by eapply Hd.
Qed.

Lemma two_publishers m ch a b :
  NoDup (m_participants m).*1 → validate_builder m = Err (MTwoPublishers ch a b) →
  ∃ pa pb, (a, pa) ∈ m_participants m ∧ (b, pb) ∈ m_participants m
           ∧ ch ∈ published pa ∧ ch ∈ published pb ∧ a ≠ b ∧ String.le a b.
Proof.
  intros Hn. unfold validate_builder. destruct (foldE _ () _) as [[]|e] eqn:Href; cbn.
  2: { intros [= ->]. apply foldE_Err in Href as (? & np & ? & ? & _ & _ & H).
       by apply check_participant_refs_kind in H. }
  destruct (foldE _ [] _) as [d|e] eqn:Hpub; cbn; [discriminate|]. intros [= ->].
  apply foldE_Err in Hpub as (l1 & [b' pb] & l2 & d & Hl & Hd & H). cbn [fst snd] in H.
  apply foldE_Err in H as (c1 & ch' & c2 & d2 & Hc & Hd2 & H). unfold check_publisher in H.
  destruct (dget d2 ch') as [first|] eqn:Hg; [|discriminate]. injection H as -> -> ->.
  apply dget_Some in Hg. apply check_publisher_Ok in Hd2 as (_ & _ & ->).
  assert (∀ x, x ∈ l1 ++ (b, pb) :: l2 → x ∈ m_participants m) as Hin.
  { intros x. rewrite <- Hl. by rewrite merge_sort_Permutation. }
  pose proof (Hin (b, pb) ltac:(apply elem_of_app; right; left)) as Hb.
  apply elem_of_app in Hg as [Hg|Hg].
  - destruct (publishers_dict _ _ _ Hd _ _ Hg) as [?%elem_of_nil|(pa & Ha & Hca)]; [done|].
    exists pa, pb. split_and!; [by apply Hin, elem_of_app; left|done|done| | |].
    + rewrite Hc. apply elem_of_app. right. left.
    + intros ->. rewrite <- (merge_sort_Permutation name_le), Hl, fmap_app in Hn.
      apply NoDup_app in Hn as (_ & Hn & _). apply (Hn b); [|left].
      apply list_elem_of_fmap. by exists (b, pa).
    + pose proof (StronglySorted_merge_sort name_le (m_participants m)) as Hs. rewrite Hl in Hs.
      apply StronglySorted_app_1_elem_of with (x1 := (a, pa)) (x2 := (b, pb)) in Hs; [done|done|left].
  - exfalso. apply list_elem_of_fmap in Hg as (c & [= <- ->] & Hc1).
    apply foldE_unit in Href. rewrite Forall_forall in Href.
    apply Href, check_refs_Ok in Hb as (_ & _ & Hnd). rewrite Hc, NoDup_app in Hnd.
    destruct Hnd as (_ & Hnd & _). apply (Hnd _ Hc1). left.
Qed.

(** ** A small Manifest *)

Section demo.
Local Open Scope string_scope.

Definition demo_schema : json :=
  JObj [("fields", JArr [JObj [("name", JStr "speed"); ("type", JStr "f64")];
                         JObj [("name", JStr "raw"); ("type", JStr "u8"); ("count", JInt 4)]])].

Definition demo_ops : list op :=
  [AddSchemas (JObj [("Vehicle", demo_schema)]);
   AddChannel (JStr "wheel") (JStr "Vehicle") (JInt 500) (JStr "inline") JNull;
   AddChannel (JStr "image") (JStr "Vehicle") JNull (JStr "shm") JNull;
   AddChannel (JStr "image") (JStr "Vehicle") JNull (JStr "shm") JNull;
   AddInterceptor (JStr "wheel") (JStr "override") JNull (JInt 10) JNull JNull (JStr "speed")
     (JInt 3);
   AddNative (JStr "plant") (JStr "libplant.so") JNull NoRoutes (JArr [JStr "wheel"]);
   AddProcess (JStr "ecu") (JArr [JStr "python3"; JStr "ecu.py"]) (JInt 1000)
     (RoutesList [RouteArg (JStr "wheel") (JInt 8) (JStr "fail")]) (JArr [JStr "image"])
     (JInt 0) (JBool true) (JStr "immediate") JNull].

Definition demo_clash : list op :=
  demo_ops ++ [AddReplay (JStr "old") (JStr "run.mcap") (JArr [JStr "image"]) JNull].

Definition demo_digest (path : string) : option string := Some "00ff".
Definition demo_start : manifest := mk_manifest 1000000 0 [] [] [].
End demo.

Section claims.
Context (path_str : string → string) (file_digest : string → option string).

(** C19. Whatever sequence of authoring calls is made, refused calls included,
    the builder holds a well-formed Manifest: names are unique, every schema is
    one the codec reads with a byte size in [size_t], every Channel refers to a
    declared schema, every interceptor has a non-empty window and a fault that
    fits the Channel's schema, and every Participant entry is in range. *)
Theorem authored_invariant d e m0 tr m :
  new_manifest d e = Ok m0 → reachable (authoring_step path_str file_digest) m0 tr m →
  manifest_ok m.
Proof. apply authored_ok. Qed.

(** [to_doc] of an authored Manifest succeeds exactly when every Channel a
    Participant lists is declared and listed once, and no Channel has two
    publishers, replayed Channels included; the document is then the builder's
    entries. *)
Theorem to_doc_accepts d e m0 tr m doc :
  new_manifest d e = Ok m0 → reachable (authoring_step path_str file_digest) m0 tr m →
  to_doc m = Ok doc ↔ doc = manifest_doc m ∧ refs_ok m ∧ single_publisher m.
Proof.
  intros Hn Hr. pose proof (authored_ok _ _ _ _ _ _ _ Hn Hr) as Hm.
  unfold to_doc. rewrite bind_Ok, <- validate_builder_Ok by apply Hm. split.
  - intros ([] & ? & [= <-]). done.
  - intros [-> ?]. by exists ().
Qed.

(** When [to_doc] refuses a Channel with two publishers, it names two
    different Participants that publish that Channel, in name order. *)
Theorem to_doc_names_publishers d e m0 tr m ch a b :
  new_manifest d e = Ok m0 → reachable (authoring_step path_str file_digest) m0 tr m →
  to_doc m = Err (MTwoPublishers ch a b) →
  ∃ pa pb, (a, pa) ∈ m_participants m ∧ (b, pb) ∈ m_participants m
           ∧ ch ∈ published pa ∧ ch ∈ published pb ∧ a ≠ b ∧ String.le a b.
Proof.
  intros Hn Hr H. pose proof (authored_ok _ _ _ _ _ _ _ Hn Hr) as Hm. unfold to_doc in H.
  destruct (validate_builder m) as [[]|err] eqn:Hv; cbn in H; [discriminate|].
  apply two_publishers; [apply Hm|congruence].
Qed.
End claims.

Lemma authored_invariant_witness :
  length (m_participants (foldl (exec id demo_digest) demo_start demo_ops)) = 2%nat
  ∧ manifest_ok (foldl (exec id demo_digest) demo_start demo_ops).
Proof.
  split; [vm_compute; reflexivity|].
  refine (authored_invariant id demo_digest (JInt 1000000) (JInt 0) demo_start demo_ops _ _ _).
  - vm_compute. reflexivity.
  - apply run_reachable.
Defined.

Lemma to_doc_accepts_witness :
  refs_ok (foldl (exec id demo_digest) demo_start demo_ops)
  ∧ single_publisher (foldl (exec id demo_digest) demo_start demo_ops).
Proof.
  refine (proj2 (proj1 (to_doc_accepts id demo_digest (JInt 1000000) (JInt 0) demo_start demo_ops
    (foldl (exec id demo_digest) demo_start demo_ops)
    (manifest_doc (foldl (exec id demo_digest) demo_start demo_ops)) _ _) _)).
  - vm_compute. reflexivity.
  - apply run_reachable.
  - vm_compute. reflexivity.
Defined.

Lemma to_doc_names_publishers_witness :
  to_doc (foldl (exec id demo_digest) demo_start demo_clash)
  = Err (MTwoPublishers "image" "ecu" "old")
  ∧ String.le "ecu" "old".
Proof.
  split; [vm_compute; reflexivity|].
  destruct (to_doc_names_publishers id demo_digest (JInt 1000000) (JInt 0) demo_start demo_clash
    (foldl (exec id demo_digest) demo_start demo_clash) "image" "ecu" "old")
    as (pa & pb & _ & _ & _ & _ & _ & H).
  - vm_compute. reflexivity.
  - apply run_reachable.
  - vm_compute. reflexivity.
  - exact H.
Defined.
