(* ===== verification/ManifestValidate.v ===== *)
(** * The Manifest check

    Models [python/src/sil/manifest_validate.py]: [_check_document] and the
    checks below it, which collect every problem of a Manifest document, the
    artifact preflight, and [validate]. A problem is its path, as tokens, and a
    constructor for its message; [pointer] renders the path. The file system,
    the PATH, SHA-256 and the mcap reader are parameters; reading a Recording's
    Channels is the model of Recording.v. Hints and message texts, and the
    argument parsing and printing of [main], are not modelled. *)

From Stdlib Require Import ZArith Lia Ascii.
From S2P Require Import Prelude PyFloat Json SchemaTypes Schema Pointer Recording Manifest.

(** ** Problems *)

Inductive complaint :=
| CExpected (what : string) (got : json)
| CMissingKey (key : string)
| CNull (key : string)
| CUnknownKey (key : string)
| CUnknownChoice (what value : string)
| CVersion (version : Z)
| CEmpty (what : string)
| CDuplicateField (name : string)
| CSizeOverflow
| CUnknownSchema (name : string)
| CSlotsInline
| CArenaOverflow
| CEmptyWindow
| CNoSuchField (name : string)
| COverrideArray (name : string)
| CNotF32
| CProcessOnly (key : string)
| CUnknownType (ty : string)
| CRequiresShim (key : string)
| CBothWays (channel : string)
| CCapacityOverflow
| CBlocking
| CUnknownChannel (name : string)
| CListedTwice (name : string)
| CTwoPublishers (channel first second : string)
| CNotAFile (what name : string)
| CCannotRead (what name : string)
| CNotOnPath (command : string)
| CHashMismatch (actual expected : string)
| CCannotReadRecording
| CNotRecorded (channel : string)
| CSchemaDiffers (channel : string)
| CCannotOpen
| CInvalidJson.

Record problem := mk_problem { pr_path : list token; pr_what : complaint }.

(** ** The collecting checker: [_Checker] *)

(** A check appends to [self.problems] and returns a value. *)
Record check (A : Type) := Check { problems : list problem; value : A }.
Arguments Check {_} _ _.
Arguments problems {_} _.
Arguments value {_} _.

#[export] Instance check_ret : MRet check := λ A a, Check [] a.
#[export] Instance check_bind : MBind check := λ A B f m,
  let r := f (value m) in Check (problems m ++ problems r) (value r).

Definition complain (path : list token) (what : complaint) : check () :=
  Check [mk_problem path what] ().
Definition complain_if (b : bool) (path : list token) (what : complaint) : check () :=
  if b then complain path what else mret ().

(** A loop that threads a value. *)
Fixpoint foldC {A B} (f : A → B → check A) (a : A) (l : list B) : check A :=
  match l with
  | [] => mret a
  | x :: l => a' ← f a x; foldC f a' l
  end.

(** A loop that gives a value for each item. *)
Fixpoint mapC {A B} (f : A → check B) (l : list A) : check (list B) :=
  match l with
  | [] => mret []
  | x :: l => y ← f x; ys ← mapC f l; mret (y :: ys)
  end.

Definition typed {A} (v : json) (path : list token) (test : json → option A) (expected : string)
    : check (option A) :=
  match test v with
  | Some a => mret (Some a)
  | None => _ ← complain path (CExpected expected v); mret None
  end.

Definition as_object (v : json) : option (list (string * json)) :=
  match v with JObj d => Some d | _ => None end.
Definition as_array (v : json) : option (list json) :=
  match v with JArr l => Some l | _ => None end.
Definition as_string (v : json) : option string :=
  match v with JStr s => Some s | _ => None end.
Definition as_boolean (v : json) : option bool :=
  match v with JBool b => Some b | _ => None end.
Definition as_integer (lo hi : Z) (v : json) : option Z :=
  match v with JInt z => if in_range lo hi z then Some z else None | _ => None end.
Definition as_number (v : json) : option json :=
  match v with JInt _ | JFloat _ => Some v | _ => None end.

Definition vobject v path := typed v path as_object "an object".
Definition varray v path := typed v path as_array "an array".
Definition vstring v path := typed v path as_string "a string".
Definition vboolean v path := typed v path as_boolean "a boolean".
Definition vinteger v path (bounds : Z * Z) := typed v path (as_integer bounds.1 bounds.2) "an integer".
(** With [minimum=lo]. *)
Definition vinteger_min v path (bounds : Z * Z) (lo : Z) :=
  typed v path (as_integer lo bounds.2) "an integer".

(** [required]: the value, or None for a missing key and for null. *)
Definition required (obj : list (string * json)) (key : string) (path : list token)
    : check (option json) :=
  match dget obj key with
  | None => _ ← complain (path ++ [TKey key]) (CMissingKey key); mret None
  | Some JNull => _ ← complain (path ++ [TKey key]) (CNull key); mret None
  | Some v => mret (Some v)
  end.

Definition known_keys (obj : list (string * json)) (path : list token) (allowed : list string)
    : check () :=
  foldC (λ _ key, complain_if (negb (bool_decide (key ∈ allowed))) (path ++ [TKey key])
                    (CUnknownKey key)) () obj.*1.

Definition choice (v : json) (path : list token) (choices : list string) (what : string)
    : check (option string) :=
  s ← vstring v path;
  match s with
  | Some s => if bool_decide (s ∈ choices) then mret (Some s)
              else _ ← complain path (CUnknownChoice what s); mret None
  | None => mret None
  end.

(** Checks of a value that may be absent. *)
Definition when_some {A B} (o : option A) (f : A → check (option B)) : check (option B) :=
  match o with Some a => f a | None => mret None end.

Definition U64_BOUNDS : Z * Z := (0, u64_max).
Definition I32_BOUNDS : Z * Z := (I32_MIN, I32_MAX).

Definition TOP_KEYS : list string :=
  ["sil_manifest"; "duration_ns"; "epoch_ns"; "schemas"; "channels"; "participants"]%string.
Definition CHANNEL_KEYS : list string :=
  ["schema"; "latency_ns"; "transport"; "slots"; "interceptors"]%string.
Definition INTERCEPTOR_KEYS : list string :=
  ["kind"; "start_ns"; "end_ns"; "delay_ns"; "n"; "field"; "value"]%string.
Definition SHIM_KEYS : list string := ["shim"; "sleep"; "threads"]%string.

(** ** Schemas *)

Definition names_of_types : list string := FORMATS.*1.

(** The values of one field's keys: name, type and element count. *)
Definition check_field_keys (f : list (string * json)) (path : list token)
    : check (option string * option string * option Z) :=
  _ ← known_keys f path ["name"; "type"; "count"]%string;
  name ← required f "name" path;
  name ← when_some name (λ v, vstring v (path ++ [TKey "name"]));
  ty ← required f "type" path;
  ty ← when_some ty (λ v, choice v (path ++ [TKey "type"]) names_of_types "type");
  count ← match dget f "count"%string with
          | Some v => vinteger_min v (path ++ [TKey "count"]) U64_BOUNDS 1
          | None => mret (Some 1)
          end;
  mret (name, ty, count).

(** [SIZES[ty]]. *)
Definition type_size (ty : string) : Z :=
  match prim_of_name ty with Some p => size_of p | None => 0 end.

(** The field loop: whether every field so far is valid, the names of the valid
    ones, and their byte size. [None] is the early return. *)
Fixpoint check_schema_fields (path : list token) (valid : bool) (names : list string)
    (byte_size : Z) (fields : list (nat * json)) : check (option bool) :=
  match fields with
  | [] => mret (Some valid)
  | (index, field) :: fields =>
      let field_path := path ++ [TKey "fields"; TIdx index] in
      f ← vobject field field_path;
      match f with
      | None => check_schema_fields path false names byte_size fields
      | Some f =>
          keys ← check_field_keys f field_path;
          let '(name, ty, count) := keys in
          let duplicate := match name with
                           | Some n => bool_decide (n ∈ names)
                           | None => false
                           end in
          _ ← complain_if duplicate (field_path ++ [TKey "name"])
                (CDuplicateField (default ""%string name));
          match name, ty, count with
          | Some name, Some ty, Some count =>
              let byte_size := byte_size + type_size ty * count in
              if u64_max <? byte_size
              then _ ← complain field_path CSizeOverflow; mret None
              else check_schema_fields path (valid && negb duplicate) (name :: names) byte_size
                     fields
          | _, _, _ => check_schema_fields path false names byte_size fields
          end
      end
  end.

(** [_check_schema]: the schema's fields, if it is valid. *)
Definition vcheck_schema (schema : json) (path : list token) : check (option (list json)) :=
  s ← vobject schema path;
  when_some s (λ s,
    _ ← known_keys s path ["fields"%string];
    v ← required s "fields" path;
    fields ← when_some v (λ v, varray v (path ++ [TKey "fields"]));
    when_some fields (λ fields,
      if bool_decide (fields = []) then
        _ ← complain (path ++ [TKey "fields"]) (CEmpty "fields"); mret None
      else
        ok ← check_schema_fields path true [] 0 (enumerate fields);
        mret (match ok with Some true => Some fields | _ => None end))).

(** ** Channels *)

(** [_Channel]. *)
Record vchannel := mk_vchannel {
  vc_schema : option json;
  vc_schema_doc : option json;
  vc_fields : option (list json);
  vc_transport : option string;
}.

(** [_byte_size]. *)
Definition fields_size (fields : list json) : Z :=
  foldr (λ f acc, type_size (match jget f "type" with Some (JStr t) => t | _ => "" end)
                  * elements_of (jget f "count") + acc) 0 fields.

(** [abs(float(value)) > _FLOAT32_MAX]; [_parse_int] keeps integers where
    [float] does not overflow. *)
Definition beyond_f32 (v : json) : bool :=
  match v with
  | JInt z => match float_of_int z with
              | Some b => num_lt (PFloat FLOAT32_MAX) (PFloat (fabs b))
              | None => true
              end
  | JFloat b => num_lt (PFloat FLOAT32_MAX) (PFloat (fabs b))
  | _ => false
  end.

(** [_check_override]. *)
Definition check_override (i : list (string * json)) (path : list token)
    (fields : option (list json)) : check () :=
  name ← required i "field" path;
  v ← required i "value" path;
  name ← when_some name (λ n, vstring n (path ++ [TKey "field"]));
  match name, fields with
  | Some name, Some fields =>
      match snd <$> list_find (λ f, jget f "name" = Some (JStr name)) fields with
      | None => complain (path ++ [TKey "field"]) (CNoSuchField name)
      | Some field =>
          if bool_decide (is_Some (jget field "count"))
          then complain (path ++ [TKey "field"]) (COverrideArray name)
          else
            match v with
            | None => mret ()
            | Some v =>
                match spec_type field ≫= int_range with
                | Some bounds => _ ← vinteger v (path ++ [TKey "value"]) bounds; mret ()
                | None =>
                    n ← typed v (path ++ [TKey "value"]) as_number "a number";
                    complain_if (bool_decide (is_Some n) && bool_decide (spec_type field = Some F32)
                                 && beyond_f32 v)
                      (path ++ [TKey "value"]) CNotF32
                end
            end
      end
  | _, _ => mret ()
  end.

(** [_check_interceptor]. *)
Definition check_interceptor (interceptor : json) (path : list token)
    (fields : option (list json)) : check () :=
  i ← vobject interceptor path;
  match i with
  | None => mret ()
  | Some i =>
      _ ← known_keys i path INTERCEPTOR_KEYS;
      kind ← required i "kind" path;
      kind ← when_some kind (λ v, choice v (path ++ [TKey "kind"]) INTERCEPTOR_KINDS "kind");
      start ← match dget i "start_ns"%string with
              | Some v => vinteger v (path ++ [TKey "start_ns"]) U64_BOUNDS
              | None => mret (Some 0)
              end;
      _ ← match dget i "end_ns"%string with
          | Some v =>
              e ← vinteger v (path ++ [TKey "end_ns"]) U64_BOUNDS;
              complain_if (match e, start with Some e, Some s => e <=? s | _, _ => false end)
                (path ++ [TKey "end_ns"]) CEmptyWindow
          | None => mret ()
          end;
      match kind with
      | Some k =>
          if String.eqb k "delay" then
            v ← required i "delay_ns" path;
            _ ← when_some v (λ v, vinteger v (path ++ [TKey "delay_ns"]) U64_BOUNDS);
            mret ()
          else if String.eqb k "drop_nth" then
            v ← required i "n" path;
            _ ← when_some v (λ v, vinteger_min v (path ++ [TKey "n"]) U64_BOUNDS 1);
            mret ()
          else if String.eqb k "override" then check_override i path fields
          else mret ()
      | None => mret ()
      end
  end.

(** The schema reference of [_check_channel]: the name, and its fields. *)
Definition check_schema_ref (c : list (string * json)) (path : list token)
    (schemas : list (string * option (list json))) : check (option json * option (list json)) :=
  v ← required c "schema" path;
  s ← when_some v (λ v, vstring v (path ++ [TKey "schema"]));
  match s with
  | None => mret (v, None)
  | Some s =>
      match dget schemas s with
      | None => _ ← complain (path ++ [TKey "schema"]) (CUnknownSchema s); mret (None, None)
      | Some fields => mret (v, fields)
      end
  end.

(** [_check_channel]. *)
Definition vcheck_channel (channel : json) (path : list token)
    (schema_docs : list (string * json)) (schemas : list (string * option (list json)))
    : check vchannel :=
  c ← vobject channel path;
  match c with
  | None => mret (mk_vchannel None None None None)
  | Some c =>
      _ ← known_keys c path CHANNEL_KEYS;
      sf ← check_schema_ref c path schemas;
      let '(schema, fields) := sf in
      _ ← match dget c "latency_ns"%string with
          | Some v => vinteger v (path ++ [TKey "latency_ns"]) U64_BOUNDS
          | None => mret None
          end;
      transport ← match dget c "transport"%string with
                  | Some v => choice v (path ++ [TKey "transport"]) TRANSPORTS "transport"
                  | None => mret (Some "inline"%string)
                  end;
      _ ← match dget c "slots"%string with
          | None => mret ()
          | Some v =>
              _ ← complain_if (bool_decide (transport = Some "inline"%string))
                    (path ++ [TKey "slots"]) CSlotsInline;
              slots ← vinteger_min v (path ++ [TKey "slots"]) U64_BOUNDS 1;
              complain_if (match slots, fields with
                           | Some n, Some fs => u64_max / n <? fields_size fs
                           | _, _ => false
                           end) (path ++ [TKey "slots"]) CArenaOverflow
          end;
      _ ← match dget c "interceptors"%string with
          | None => mret ()
          | Some v =>
              l ← varray v (path ++ [TKey "interceptors"]);
              foldC (λ _ ix, check_interceptor ix.2
                              (path ++ [TKey "interceptors"; TIdx ix.1]) fields)
                () (enumerate (default [] l))
          end;
      let schema_doc := match fields, schema with
                        | Some (_ :: _), Some (JStr s) => dget schema_docs s
                        | _, _ => None
                        end in
      mret (mk_vchannel schema schema_doc fields transport)
  end.

(** ** Participants *)

(** [_check_reference]. *)
Definition check_reference (name : string) (path : list token)
    (channels : list (string * vchannel)) (seen : list string) : check bool :=
  if negb (dmem channels name) then _ ← complain path (CUnknownChannel name); mret false
  else if bool_decide (name ∈ seen) then _ ← complain path (CListedTwice name); mret false
  else mret true.

(** The end of a list item's check: the name is kept if its reference is
    valid. *)
Definition keep_reference (name : option string) (path : list token)
    (channels : list (string * vchannel)) (seen : list string) : check (list string) :=
  match name with
  | None => mret seen
  | Some name => ok ← check_reference name path channels seen;
                 mret (if ok : bool then seen ++ [name] else seen)
  end.

(** [_check_channel_list]. *)
Definition check_channel_list (v : json) (path : list token) (channels : list (string * vchannel))
    : check (list string) :=
  l ← varray v path;
  foldC (λ names ix,
    name ← vstring ix.2 (path ++ [TIdx ix.1]);
    keep_reference name (path ++ [TIdx ix.1]) channels names)
    [] (enumerate (default [] l)).

(** [_check_route_policy]. *)
Definition check_route_policy (route : list (string * json)) (path : list token) : check () :=
  match dget route "capacity"%string, dget route "overflow"%string with
  | None, None => mret ()
  | Some cap, Some ov =>
      _ ← vinteger_min cap (path ++ [TKey "capacity"]) U64_BOUNDS 1;
      if bool_decide (ov = JStr "blocking")
      then complain (path ++ [TKey "overflow"]) CBlocking
      else _ ← choice ov (path ++ [TKey "overflow"]) OVERFLOW_POLICIES "overflow policy"; mret ()
  | _, _ => complain path CCapacityOverflow
  end.

(** One route of [_check_routes]. *)
Definition check_route (channels : list (string * vchannel)) (seen : list string) (route : json)
    (path : list token) : check (list string) :=
  match route with
  | JStr name => keep_reference (Some name) path channels seen
  | _ =>
      r ← vobject route path;
      match r with
      | None => mret seen
      | Some r =>
          _ ← known_keys r path ["channel"; "capacity"; "overflow"]%string;
          name ← required r "channel" path;
          name ← when_some name (λ v, vstring v (path ++ [TKey "channel"]));
          _ ← check_route_policy r path;
          keep_reference name path channels seen
      end
  end.

(** [_check_routes]. *)
Definition check_routes (v : json) (path : list token) (channels : list (string * vchannel))
    : check (list string) :=
  l ← varray v path;
  foldC (λ seen ix, check_route channels seen ix.2 (path ++ [TIdx ix.1]))
    [] (enumerate (default [] l)).

(** [list.index] of a name that is in the list. *)
Definition index_of (name : string) (l : list json) : nat :=
  default 0%nat (fst <$> list_find (λ v, v = JStr name) l).

(** [text.split(":")]. *)
Fixpoint split_colon (s : string) : list string :=
  match s with
  | EmptyString => [""%string]
  | String a s =>
      match split_colon s with
      | [] => [String a ""]
      | x :: xs => if Ascii.eqb a ":" then ""%string :: x :: xs else String a x :: xs
      end
  end.

Definition DEFAULT_PATH : string := "/usr/local/bin:/usr/bin:/bin".

Section artifacts.
(** The Manifest's directory, [Path / name], and what the file system answers
    for a path; the PATH variable. *)
Context (base_dir : string) (join : string → string → string)
  (is_file can_read can_execute : string → bool) (env_path : option string).
(** SHA-256 of a file, the file suffix, the mcap summary and [json.loads]. *)
Context (digest_of : string → string) (suffix_of : string → string)
  (summary_of : string → option summary) (loads : bytes → option json).

(** [_check_readable]. *)
Definition check_readable (file : string) (path : list token) (what : string) : check bool :=
  if can_read file then mret true else _ ← complain path (CCannotRead what file); mret false.

(** [_check_file]. *)
Definition check_file (name : string) (path : list token) (what : string)
    : check (option string) :=
  let candidate := join base_dir name in
  if negb (String.eqb name "") && is_file candidate then
    ok ← check_readable candidate path what;
    mret (if ok : bool then Some candidate else None)
  else _ ← complain path (CNotAFile what name); mret None.

(** [_check_command_files]. *)
Definition check_command_files (arguments : list (option string)) (path : list token) : check () :=
  foldC (λ _ ix,
    match ix.2 with
    | Some a =>
        if negb (String.eqb a "") && is_file (join base_dir a)
        then _ ← check_readable (join base_dir a) (path ++ [TIdx ix.1]) "command file"; mret ()
        else mret ()
    | None => mret ()
    end) () (enumerate_from 1 arguments).

Fixpoint find_executable (command : string) (entries : list string) (path : list token)
    : check () :=
  match entries with
  | [] => complain path (CNotOnPath command)
  | entry :: entries =>
      let candidate := join (join base_dir entry) command in
      if is_file candidate && can_execute candidate
      then _ ← check_readable candidate path "executable"; mret ()
      else find_executable command entries path
  end.

(** [_check_executable]. *)
Definition check_executable (command : string) (path : list token) : check () :=
  if String.eqb command "" || contains "/" command
  then _ ← check_file command path "executable"; mret ()
  else find_executable command
         (split_colon match env_path with
                      | Some s => if String.eqb s "" then DEFAULT_PATH else s
                      | None => DEFAULT_PATH
                      end) path.

(** The comparison of one replayed Channel with the Recording. *)
Definition check_recorded (recorded : list (string * recorded_channel)) (path : list token)
    (replayed : list json) (nc : string * vchannel) : check () :=
  let where_ := path ++ [TKey "channels"; TIdx (index_of nc.1 replayed)] in
  match dget recorded nc.1 with
  | None => complain where_ (CNotRecorded nc.1)
  | Some r =>
      match vc_schema_doc nc.2 with
      | None => mret ()
      | Some doc =>
          complain_if (negb (bool_decide (vc_schema nc.2 = Some (JStr (rc_schema_name r))))
                       || negb (py_eq (rc_schema r) doc)) where_ (CSchemaDiffers nc.1)
      end
  end.

(** [_check_recording]. *)
Definition check_recording (recording digest : string) (path : list token)
    (replayed : list (string * vchannel)) (names : list json) : check () :=
  file ← check_file recording (path ++ [TKey "recording"]) "Recording";
  match file with
  | None => mret ()
  | Some file =>
      let actual := digest_of file in
      if negb (String.eqb actual digest)
      then complain (path ++ [TKey "recording_hash"]) (CHashMismatch actual digest)
      else
        match read_channels loads (suffix_of file) (summary_of file) with
        | Err _ => complain (path ++ [TKey "recording"]) CCannotReadRecording
        | Ok l =>
            let recorded := foldl (λ d c, dset d (rc_name c) c) [] l in
            foldC (λ _ nc, check_recorded recorded path names nc) () replayed
        end
  end.

(** [_check_native]. *)
Definition check_native (p : list (string * json)) (path : list token)
    (channels : list (string * vchannel)) : check (list string) :=
  library ← required p "library" path;
  library ← when_some library (λ v, vstring v (path ++ [TKey "library"]));
  _ ← when_some library (λ l, check_file l (path ++ [TKey "library"]) "Native library");
  _ ← foldC (λ _ key, complain_if (negb (dmem p key)) (path ++ [TKey key]) (CMissingKey key)) ()
        ["subscribes"; "publishes"]%string;
  _ ← match dget p "config"%string with
      | Some v => vobject v (path ++ [TKey "config"])
      | None => mret None
      end;
  _ ← match dget p "subscribes"%string with
      | Some v => check_routes v (path ++ [TKey "subscribes"]) channels
      | None => mret []
      end;
  match dget p "publishes"%string with
  | None => mret []
  | Some v => check_channel_list v (path ++ [TKey "publishes"]) channels
  end.

(** The command of [_check_process]. *)
Definition check_command (p : list (string * json)) (path : list token) : check () :=
  v ← required p "command" path;
  command ← when_some v (λ v, varray v (path ++ [TKey "command"]));
  match command with
  | None => mret ()
  | Some command =>
      _ ← complain_if (bool_decide (command = [])) (path ++ [TKey "command"]) (CEmpty "command");
      items ← mapC (λ ix, vstring ix.2 (path ++ [TKey "command"; TIdx ix.1])) (enumerate command);
      _ ← match items with
          | Some c :: _ => check_executable c (path ++ [TKey "command"; TIdx 0])
          | _ => mret ()
          end;
      check_command_files (drop 1 items) (path ++ [TKey "command"])
  end.

(** One shim policy key; [shim] is [Some false] for [shim is False]. *)
Definition check_policy (p : list (string * json)) (path : list token) (shim : option bool)
    (key : string) (policies : list string) : check () :=
  match dget p key with
  | None => mret ()
  | Some v =>
      _ ← complain_if (bool_decide (shim = Some false)) (path ++ [TKey key]) (CRequiresShim key);
      _ ← choice v (path ++ [TKey key]) policies "policy";
      mret ()
  end.

(** One published Channel of a Process participant: one Arena has one writer
    direction. *)
Definition check_both_ways (path : list token) (v : json) (channels : list (string * vchannel))
    (subscribed : list string) (name : string) : check () :=
  complain_if (bool_decide (dget channels name ≫= vc_transport = Some "shm"%string)
               && bool_decide (name ∈ subscribed))
    (path ++ [TKey "publishes"; TIdx (index_of name (default [] (as_array v)))])
    (CBothWays name).

(** [_check_process]. *)
Definition check_process (p : list (string * json)) (path : list token)
    (channels : list (string * vchannel)) : check (list string) :=
  _ ← check_command p path;
  period ← required p "step_period_ns" path;
  _ ← when_some period (λ v, vinteger_min v (path ++ [TKey "step_period_ns"]) U64_BOUNDS 1);
  subscribed ← match dget p "subscribes"%string with
               | Some v => check_routes v (path ++ [TKey "subscribes"]) channels
               | None => mret []
               end;
  _ ← match dget p "priority"%string with
      | Some v => vinteger v (path ++ [TKey "priority"]) I32_BOUNDS
      | None => mret None
      end;
  shim ← match dget p "shim"%string with
         | Some v => vboolean v (path ++ [TKey "shim"])
         | None => mret (Some false)
         end;
  _ ← check_policy p path shim "sleep" SLEEP_POLICIES;
  _ ← check_policy p path shim "threads" THREAD_POLICIES;
  match dget p "publishes"%string with
  | None => mret []
  | Some v =>
      published ← check_channel_list v (path ++ [TKey "publishes"]) channels;
      _ ← foldC (λ _ name, check_both_ways path v channels subscribed name) () published;
      mret published
  end.

(** [_check_replay]. *)
Definition check_replay (p : list (string * json)) (path : list token)
    (channels : list (string * vchannel)) : check (list string) :=
  recording ← required p "recording" path;
  recording ← when_some recording (λ v, vstring v (path ++ [TKey "recording"]));
  digest ← required p "recording_hash" path;
  digest ← when_some digest (λ v, vstring v (path ++ [TKey "recording_hash"]));
  _ ← match dget p "priority"%string with
      | Some v => vinteger v (path ++ [TKey "priority"]) I32_BOUNDS
      | None => mret None
      end;
  v ← required p "channels" path;
  replayed ← when_some v (λ v, varray v (path ++ [TKey "channels"]));
  match replayed with
  | None => mret []
  | Some replayed =>
      _ ← complain_if (bool_decide (replayed = [])) (path ++ [TKey "channels"])
            (CEmpty "channels");
      names ← check_channel_list (JArr replayed) (path ++ [TKey "channels"]) channels;
      _ ← match recording, digest with
          | Some recording, Some digest =>
              check_recording recording digest path
                (omap (λ n, (n,.) <$> dget channels n) names) replayed
          | _, _ => mret ()
          end;
      mret names
  end.

Inductive participant_type := PNative | PProcess | PReplay.

(** [_PARTICIPANT_TYPES]. *)
Definition PARTICIPANT_TYPES : list (string * (list string * participant_type)) :=
  [("native", (["type"; "library"; "config"; "subscribes"; "publishes"; "shim"], PNative));
   ("process", (["type"; "command"; "step_period_ns"; "subscribes"; "publishes"; "priority";
                 "shim"; "sleep"; "threads"], PProcess));
   ("replay", (["type"; "recording"; "recording_hash"; "channels"; "priority"; "shim"],
               PReplay))]%string.

(** [_check_participant]. *)
Definition check_participant (participant : json) (path : list token)
    (channels : list (string * vchannel)) : check (list string) :=
  p ← vobject participant path;
  match p with
  | None => mret []
  | Some p =>
      ty ← required p "type" path;
      ty ← when_some ty (λ v, vstring v (path ++ [TKey "type"]));
      match ty with
      | None => mret []
      | Some ty =>
          _ ← foldC (λ _ key, complain_if (negb (String.eqb ty "process") && dmem p key)
                                (path ++ [TKey key]) (CProcessOnly key)) () SHIM_KEYS;
          match dget PARTICIPANT_TYPES ty with
          | None => _ ← complain (path ++ [TKey "type"]) (CUnknownType ty); mret []
          | Some (keys, t) =>
              _ ← known_keys p path keys;
              match t with
              | PNative => check_native p path channels
              | PProcess => check_process p path channels
              | PReplay => check_replay p path channels
              end
          end
      end
  end.

(** ** The document: [_check_document] *)

(** [sorted(names)]. *)
Definition sorted_names (d : list (string * json)) : list string := merge_sort String.le d.*1.

(** [value[name]] of a name of the object. *)
Definition entry (d : list (string * json)) (name : string) : json := default JNull (dget d name).

(** A section of the document that must be an object. *)
Definition section (doc : list (string * json)) (key : string)
    : check (option (list (string * json))) :=
  v ← required doc key [];
  when_some v (λ v, vobject v [TKey key]).

(** One published Channel of a Participant. *)
Definition check_one_publisher (path : list token) (name : string)
    (publishers : list (string * string)) (channel : string) : check (list (string * string)) :=
  match dget publishers channel with
  | Some first => _ ← complain path (CTwoPublishers channel first name); mret publishers
  | None => mret (dset publishers channel name)
  end.

Definition check_header (doc : list (string * json)) : check () :=
  _ ← known_keys doc [] TOP_KEYS;
  v ← required doc "sil_manifest" [];
  version ← when_some v (λ v, vinteger v [TKey "sil_manifest"] I32_BOUNDS);
  _ ← match version with
      | Some z => complain_if (negb (z =? 1)) [TKey "sil_manifest"] (CVersion z)
      | None => mret ()
      end;
  duration ← required doc "duration_ns" [];
  _ ← when_some duration (λ v, vinteger_min v [TKey "duration_ns"] U64_BOUNDS 1);
  match dget doc "epoch_ns"%string with
  | Some v => _ ← vinteger v [TKey "epoch_ns"] U64_BOUNDS; mret ()
  | None => mret ()
  end.

Definition check_schemas (docs : list (string * json))
    : check (list (string * option (list json))) :=
  mapC (λ n, fs ← vcheck_schema (entry docs n) [TKey "schemas"; TKey n]; mret (n, fs))
    (sorted_names docs).

Definition check_channels (docs schema_docs : list (string * json))
    (schemas : list (string * option (list json))) : check (list (string * vchannel)) :=
  mapC (λ n, c ← vcheck_channel (entry docs n) [TKey "channels"; TKey n] schema_docs schemas;
             mret (n, c)) (sorted_names docs).

Definition check_participants (docs : list (string * json)) (channels : list (string * vchannel))
    : check (list (string * string)) :=
  foldC (λ publishers n,
    let path := [TKey "participants"; TKey n] in
    published ← check_participant (entry docs n) path channels;
    foldC (check_one_publisher path n) publishers published) [] (sorted_names docs).

Definition check_document (doc : json) : list problem :=
  problems (
    d ← vobject doc [];
    match d with
    | None => mret ()
    | Some d =>
        _ ← check_header d;
        schema_docs ← section d "schemas";
        schemas ← check_schemas (default [] schema_docs);
        channel_docs ← section d "channels";
        channels ← check_channels (default [] channel_docs) (default [] schema_docs) schemas;
        participants ← section d "participants";
        _ ← check_participants (default [] participants) channels;
        mret ()
    end).

(** ** Reading the file: [validate] *)

(** [_parse_int] and [_parse_float] applied to a number of the text; [None] is
    their ValueError. *)
Definition parse_int (z : Z) : option json :=
  if in_range (- 2 ^ 63) u64_max z then Some (JInt z)
  else match float_of_int z with
       | Some b => if is_finite64 b then Some (JFloat b) else None
       | None => None
       end.
Definition parse_float (b : Z) : option json := if is_finite64 b then Some (JFloat b) else None.

Fixpoint parse_numbers (raw : json) : option json :=
  match raw with
  | JInt z => parse_int z
  | JFloat b => parse_float b
  | JArr l => JArr <$> (fix go l := match l with
                                    | [] => Some []
                                    | v :: l => v ← parse_numbers v; l ← go l; Some (v :: l)
                                    end) l
  | JObj d => JObj <$> (fix go d := match d with
                                    | [] => Some []
                                    | (k, v) :: d => v ← parse_numbers v; d ← go d; Some ((k, v) :: d)
                                    end) d
  | _ => Some raw
  end.

(** What reading the file gives: an OS error, bytes that are not UTF-8, text
    that is not JSON, or the JSON value with its numbers as written. *)
Inductive file_content := CannotOpen | NotUtf8 | NotJson | Parsed (raw : json).

(** [encodable]: no string of the document has a lone surrogate. *)
Definition validate (encodable : json → bool) (content : file_content) : list problem :=
  match content with
  | CannotOpen => [mk_problem [] CCannotOpen]
  | NotUtf8 | NotJson => [mk_problem [] CInvalidJson]
  | Parsed raw =>
      match parse_numbers raw with
      | None => [mk_problem [] CInvalidJson]
      | Some doc => if encodable doc then check_document doc else [mk_problem [] CInvalidJson]
      end
  end.

(** [main]'s exit code. *)
Definition exit_code (ps : list problem) : Z := match ps with [] => 0 | _ => 2 end.
End artifacts.

(** ** Reasoning about checks *)

(** Every problem satisfies [P], and the value satisfies [Q]. *)
Definition checks {A} (P : problem → Prop) (m : check A) (Q : A → Prop) : Prop :=
  Forall P (problems m) ∧ Q (value m).

(** If there is no problem, the value satisfies [Q]. *)
Definition clean {A} (m : check A) (Q : A → Prop) : Prop := problems m = [] → Q (value m).

Section check_rules.
Context (P : problem → Prop).

Lemma checks_ret {A} (a : A) (Q : A → Prop) : Q a → checks P (mret a) Q.
Proof. by split. Qed.
Lemma checks_bind {A B} (m : check A) (f : A → check B) Q R :
  checks P m Q → (∀ a, Q a → checks P (f a) R) → checks P (m ≫= f) R.
Proof.
  intros [Hm Hq] Hf. destruct (Hf _ Hq). split; [|done]. by apply Forall_app.
Qed.
Lemma checks_mono {A} (m : check A) (Q R : A → Prop) :
  checks P m Q → (∀ a, Q a → R a) → checks P m R.
Proof. intros [? ?] ?. split; auto. Qed.
Lemma checks_complain path what (Q : () → Prop) :
  P (mk_problem path what) → Q () → checks P (complain path what) Q.
Proof. intros. split; [by apply Forall_singleton|done]. Qed.
Lemma checks_complain_if b path what (Q : () → Prop) :
  (b = true → P (mk_problem path what)) → Q () → checks P (complain_if b path what) Q.
Proof. destruct b; [|by intros; apply checks_ret]. intros. apply checks_complain; auto. Qed.
Lemma checks_fold {A B} (I : A → Prop) (f : A → B → check A) a l :
  I a → (∀ a x, x ∈ l → I a → checks P (f a x) I) → checks P (foldC f a l) I.
Proof.
  revert a. induction l as [|x l IH]; intros a Ha Hf; cbn [foldC]; [by apply checks_ret|].
  apply checks_bind with I; [apply Hf; [left|done]|]. intros a' Ha'. apply IH; [done|].
  intros. apply Hf; [by right|done].
Qed.
Lemma checks_map {A B} (I : A → B → Prop) (f : A → check B) l :
  (∀ x, x ∈ l → checks P (f x) (I x)) → checks P (mapC f l) (λ ys, Forall2 I l ys).
Proof.
  induction l as [|x l IH]; intros Hf; cbn [mapC]; [apply checks_ret; constructor|].
  eapply checks_bind; [apply Hf; left|]. intros y Hy. eapply checks_bind.
  { apply IH. intros. apply Hf. by right. }
  intros ys Hys. apply checks_ret. by constructor.
Qed.
Lemma checks_when {A B} (o : option A) (f : A → check (option B)) (Q : option B → Prop) :
  Q None → (∀ a, o = Some a → checks P (f a) Q) → checks P (when_some o f) Q.
Proof. destruct o; cbn; intros; [auto|by apply checks_ret]. Qed.
End check_rules.

(** ** Where problems point *)

(** The value a path reaches in a document. *)
Fixpoint resolve (doc : json) (path : list token) : option json :=
  match path with
  | [] => Some doc
  | TKey k :: path => jget doc k ≫= λ v, resolve v path
  | TIdx i :: path => l ← as_array doc; v ← l !! i; resolve v path
  end.

(** A path to a value of the document, or to a key its object does not have. *)
Definition points_at (doc : json) (path : list token) : Prop :=
  is_Some (resolve doc path) ∨
  ∃ pre k d, path = pre ++ [TKey k] ∧ resolve doc pre = Some (JObj d) ∧ dget d k = None.

Definition located (doc : json) (pr : problem) : Prop := points_at doc (pr_path pr).

Lemma resolve_app doc p q : resolve doc (p ++ q) = (resolve doc p ≫= λ v, resolve v q).
Proof.
  revert doc. induction p as [|[k|i] p IH]; intros doc; cbn; [done| |].
  - destruct (jget doc k); cbn; [apply IH|done].
  - destruct (as_array doc) as [l|]; cbn; [|done]. destruct (l !! i); cbn; [apply IH|done].
Qed.

Section located.
Context (doc : json).
Notation "path ↦ v" := (resolve doc path = Some v) (at level 70).
Notation locates m := (checks (located doc) m (λ _, True)).

Lemma at_key path d k v : path ↦ JObj d → dget d k = Some v → path ++ [TKey k] ↦ v.
Proof. intros H Hk. rewrite resolve_app, H. cbn. by rewrite Hk. Qed.
Lemma at_idx path l i v : path ↦ JArr l → l !! i = Some v → path ++ [TIdx i] ↦ v.
Proof. intros H Hk. rewrite resolve_app, H. cbn. by rewrite Hk. Qed.
Lemma at_key_idx path d k l i v :
  path ↦ JObj d → dget d k = Some (JArr l) → l !! i = Some v → path ++ [TKey k; TIdx i] ↦ v.
Proof.
  intros H Hk Hi. change [TKey k; TIdx i] with ([TKey k] ++ [TIdx i]). rewrite (assoc_L (++)).
  eapply at_idx; [by eapply at_key|done].
Qed.
Lemma point_at path v what : path ↦ v → located doc (mk_problem path what).
Proof. intros H. left. cbn. rewrite H. by eexists. Qed.
Lemma point_key path d k what : path ↦ JObj d → located doc (mk_problem (path ++ [TKey k]) what).
Proof.
  intros H. destruct (dget d k) as [v|] eqn:Hk.
  - eapply point_at. by eapply at_key.
  - right. by exists path, k, d.
Qed.

(** A complaint, and no value. *)
Lemma complain_None_located {A} path what :
  located doc (mk_problem path what) →
  checks (located doc) (_ ← complain path what; mret (@None A)) (λ o, ∀ a, o ≠ Some a).
Proof.
  intros. eapply checks_bind; [by apply checks_complain with (Q := λ _, True)|].
  intros. by apply checks_ret.
Qed.

Lemma typed_located {A} v path (test : json → option A) e :
  path ↦ v → checks (located doc) (typed v path test e) (λ o, ∀ a, o = Some a → test v = Some a).
Proof.
  intros H. unfold typed. destruct (test v) as [a|] eqn:Ht.
  - apply checks_ret. congruence.
  - eapply checks_mono; [apply complain_None_located; by eapply point_at|]. naive_solver.
Qed.

Lemma required_located d k path :
  path ↦ JObj d →
  checks (located doc) (required d k path) (λ o, ∀ v, o = Some v → path ++ [TKey k] ↦ v ∧ dget d k = Some v).
Proof.
  intros H. unfold required.
  assert (∀ what, checks (located doc) (_ ← complain (path ++ [TKey k]) what; mret (@None json))
            (λ o, ∀ v, o = Some v → path ++ [TKey k] ↦ v ∧ dget d k = Some v)) as Hn.
  { intros. eapply checks_mono; [apply complain_None_located; by eapply point_key|]. naive_solver. }
  destruct (dget d k) as [[]|] eqn:Hk; try apply Hn; apply checks_ret; intros ? [= <-];
    split; try done; by eapply at_key.
Qed.

Lemma complain_if_located b path d k what :
  path ↦ JObj d → locates (complain_if b (path ++ [TKey k]) what).
Proof. intros. apply checks_complain_if; [|done]. intros. by eapply point_key. Qed.

Lemma known_keys_located d path allowed : path ↦ JObj d → locates (known_keys d path allowed).
Proof.
  intros H. apply checks_fold; [done|]. intros [] k _ _. by eapply complain_if_located.
Qed.

Lemma choice_located v path cs what : path ↦ v → locates (choice v path cs what).
Proof.
  intros H. unfold choice. eapply checks_bind; [by apply typed_located|]. intros [s|] _; [|by apply checks_ret].
  destruct (bool_decide _); [by apply checks_ret|].
  eapply checks_mono; [apply complain_None_located; by eapply point_at|done].
Qed.

Lemma when_typed_located {A} o path (test : json → option A) e :
  (∀ v, o = Some v → path ↦ v) →
  checks (located doc) (when_some o (λ v, typed v path test e))
    (λ r, ∀ a, r = Some a → ∃ v, path ↦ v ∧ test v = Some a).
Proof.
  intros H. apply checks_when; [done|]. intros v Hv.
  eapply checks_mono; [by apply typed_located, H|]. naive_solver.
Qed.

Lemma when_choice_located o path cs what :
  (∀ v, o = Some v → path ↦ v) → locates (when_some o (λ v, choice v path cs what)).
Proof. intros H. apply checks_when; [done|]. intros. by apply choice_located, H. Qed.

Lemma optional_located {A} d path k (f : json → check A) (x : A) (Q : A → Prop) :
  path ↦ JObj d → Q x → (∀ v, path ++ [TKey k] ↦ v → checks (located doc) (f v) Q) →
  checks (located doc) (match dget d k with Some v => f v | None => mret x end) Q.
Proof.
  intros Hd Hx Hf. destruct (dget d k) as [v|] eqn:Hk; [|by apply checks_ret].
  apply Hf. by eapply at_key.
Qed.

(** A loop over the items of an array of the document. *)
Lemma items_located {A} (I : A → Prop) (f : A → nat * json → check A) a path l :
  path ↦ JArr l → I a →
  (∀ a i x, path ++ [TIdx i] ↦ x → l !! i = Some x → I a → checks (located doc) (f a (i, x)) I) →
  checks (located doc) (foldC f a (enumerate l)) I.
Proof.
  intros Hl Ha Hf. apply checks_fold; [done|]. intros a' [i x] (j & -> & Hj)%elem_enumerate Ha'.
  apply Hf; [by eapply at_idx|done..].
Qed.

(** [locate] runs a check's code forward: each step is a primitive check of a
    value the path reaches. *)
Ltac reached :=
  match goal with
  | |- _ ↦ _ => eassumption
  | H : ∀ v, ?o = Some v → _, E : ?o = Some ?w |- _ => destruct (H w E); eassumption
  | H : ∀ v, ?o = Some v → _ |- ∀ v, ?o = Some v → _ => intros ? E; apply (H _ E)
  end.
Ltac primitive :=
  first [ by apply checks_ret
        | eapply typed_located; reached
        | eapply required_located; reached
        | eapply known_keys_located; reached
        | eapply choice_located; reached
        | eapply complain_if_located; reached
        | eapply when_typed_located; reached
        | eapply when_choice_located; reached ].
Ltac locate :=
  unfold vobject, varray, vstring, vboolean, vinteger, vinteger_min;
  repeat first
    [ progress (intros; cbv beta in * )
    | primitive
    | eapply checks_mono; [primitive | done]
    | eapply checks_bind; [primitive|] ].

Lemma as_object_Some v d : as_object v = Some d → v = JObj d.
Proof. destruct v; cbn; congruence. Qed.
Lemma as_array_Some v l : as_array v = Some l → v = JArr l.
Proof. destruct v; cbn; congruence. Qed.

(** What a value that passed its check is. *)
Ltac typed_inv :=
  repeat match goal with
  | H : ∀ a, Some ?x = Some a → _ |- _ => specialize (H x eq_refl)
  | H : ∃ v, _ ∧ _ |- _ => destruct H as (? & ? & ?)
  | H : _ ∧ _ |- _ => destruct H
  | H : as_object _ = Some _ |- _ => apply as_object_Some in H; subst
  | H : as_array _ = Some _ |- _ => apply as_array_Some in H; subst
  end.

Lemma check_field_keys_located f path :
  path ↦ JObj f → locates (check_field_keys f path).
Proof.
  intros H. unfold check_field_keys. locate.
  eapply checks_bind with (Q := λ _, True).
  { eapply optional_located; [done..|]. locate. }
  locate.
Qed.

Lemma check_schema_fields_located path d l fields valid names sz :
  path ↦ JObj d → dget d "fields"%string = Some (JArr l) →
  (∀ i x, (i, x) ∈ fields → l !! i = Some x) →
  locates (check_schema_fields path valid names sz fields).
Proof.
  intros Hp Hd. revert valid names sz.
  induction fields as [|[i x] fields IH]; intros valid names sz Hl; cbn [check_schema_fields].
  { locate. }
  assert (path ++ [TKey "fields"; TIdx i] ↦ x) as Hx by (eapply at_key_idx; eauto; apply Hl; left).
  assert (∀ i x, (i, x) ∈ fields → l !! i = Some x) as Hl' by (intros; apply Hl; by right).
  locate. destruct a as [f|]; [|by apply IH].
  typed_inv. eapply checks_bind; [by apply check_field_keys_located|]. intros [[name ty] count] _. locate.
  destruct name as [n|], ty as [t|], count as [c|]; try by apply IH.
  destruct (u64_max <? sz + type_size t * c); [|by apply IH].
  eapply checks_mono; [apply complain_None_located; by eapply point_at|done].
Qed.

Lemma vcheck_schema_located v path : path ↦ v → locates (vcheck_schema v path).
Proof.
  intros H. unfold vcheck_schema. locate. apply checks_when; [done|]. intros s ->.
  typed_inv.
  locate. apply checks_when; [done|]. intros l ->. typed_inv. rename select (path ++ [TKey "fields"] ↦ _) into Hv.
  destruct (bool_decide _).
  { eapply checks_mono; [apply complain_None_located; by eapply point_at|done]. }
  eapply checks_bind; [|intros; by apply checks_ret].
  assert (dget s "fields"%string = Some (JArr l)) as Hd.
  { rewrite resolve_app, H in Hv. cbn in Hv. destruct (dget s "fields"%string); [|done].
    by injection Hv as ->. }
  eapply check_schema_fields_located; [done..|].
  intros i x (j & -> & Hj)%elem_enumerate. done.
Qed.

Lemma check_override_located i path fields :
  path ↦ JObj i → locates (check_override i path fields).
Proof.
  intros H. unfold check_override. locate. destruct a1 as [name|]; [|locate].
  destruct fields as [fields|]; [|locate]. destruct (snd <$> _) as [field|].
  2: { apply checks_complain; [by eapply point_key|done]. }
  destruct (bool_decide _); [apply checks_complain; [by eapply point_key|done]|].
  destruct a0 as [v|]; [|locate]. typed_inv.
  destruct (spec_type field ≫= int_range); locate.
Qed.

Lemma check_interceptor_located v path fields : path ↦ v → locates (check_interceptor v path fields).
Proof.
  intros H. unfold check_interceptor. locate. destruct a as [i|]; [|locate].
  typed_inv.
  locate. eapply checks_bind with (Q := λ _, True).
  { eapply optional_located; [done..|]. locate. }
  locate. eapply checks_bind with (Q := λ _, True).
  { eapply optional_located; [done..|]. locate. }
  locate. destruct a1 as [k|]; [|locate].
  destruct (String.eqb k "delay"); [locate|]. destruct (String.eqb k "drop_nth"); [locate|].
  destruct (String.eqb k "override"); [by apply check_override_located|locate].
Qed.

Lemma vcheck_channel_located v path docs schemas :
  path ↦ v → locates (vcheck_channel v path docs schemas).
Proof.
  intros H. unfold vcheck_channel. locate. destruct a as [c|]; [|locate].
  typed_inv.
  locate. eapply checks_bind with (Q := λ _, True).
  { unfold check_schema_ref. locate. destruct a1 as [s|]; [|locate].
    destruct (dget schemas s); [locate|].
    eapply checks_bind with (Q := λ _, True); [|locate].
    apply checks_complain; [by eapply point_key|done]. }
  intros [schema fields] _. eapply checks_bind with (Q := λ _, True).
  { eapply optional_located; [done..|]. locate. }
  intros _ _. eapply checks_bind with (Q := λ _, True).
  { eapply optional_located; [done..|]. locate. }
  intros transport _. eapply checks_bind with (Q := λ _, True).
  { eapply optional_located; [done..|]. locate. }
  intros _ _. eapply checks_bind with (Q := λ _, True); [|locate].
  eapply optional_located; [done..|]. intros v Hv.
  eapply checks_bind; [by apply typed_located|]. intros [l|] ?; [|locate]. typed_inv. eapply items_located; [done..|].
  intros _ i x Hx Hi _. apply check_interceptor_located.
  eapply at_idx in Hi; [|done]. rewrite <- (assoc_L (++)) in Hi. done.
Qed.

Lemma keep_reference_located name path v channels seen :
  path ↦ v → checks (located doc) (keep_reference name path channels seen)
    (λ l, l = seen ∨ ∃ n, name = Some n ∧ l = seen ++ [n]).
Proof.
  intros H. destruct name as [n|]; cbn [keep_reference]; [|apply checks_ret; by left].
  eapply checks_bind with (Q := λ _, True); [|intros [] _; apply checks_ret; eauto].
  unfold check_reference.
  destruct (negb _); [|destruct (bool_decide _); [|by apply checks_ret]];
    (eapply checks_bind with (Q := λ _, True); [|intros; by apply checks_ret]);
    (apply checks_complain; [by eapply point_at|done]).
Qed.

Lemma check_channel_list_located v path channels :
  path ↦ v →
  checks (located doc) (check_channel_list v path channels)
    (λ names, ∀ n, n ∈ names → ∃ l, v = JArr l ∧ JStr n ∈ l).
Proof.
  intros H. unfold check_channel_list. eapply checks_bind; [by apply typed_located|].
  intros [l|] ?; [|apply checks_ret; by intros n ?%elem_of_nil]. typed_inv. cbn [default].
  eapply items_located; [done|by intros n ?%elem_of_nil|].
  intros names i x Hx Hi Hn. eapply checks_bind; [by apply typed_located|]. intros name Hname.
  eapply checks_mono; [by eapply keep_reference_located|]. cbv beta.
  intros names' [->|(n & -> & ->)]; [done|].
  intros m [Hm|Hm%list_elem_of_singleton]%elem_of_app; [auto|]. subst m. typed_inv.
  exists l. split; [done|]. destruct x; try discriminate. cbn in Hname. injection Hname as ->.
  by eapply list_elem_of_lookup_2.
Qed.

Lemma check_route_located channels seen v path :
  path ↦ v → locates (check_route channels seen v path).
Proof.
  intros H. assert (∀ name, locates (keep_reference name path channels seen)) as Hk.
  { intros. eapply checks_mono; [by eapply keep_reference_located|done]. }
  unfold check_route. destruct v as [| | | |s| |d]; try apply Hk;
    (eapply checks_bind; [by apply typed_located|]; intros [r|] ?; [|locate]);
    typed_inv; try discriminate.
  match goal with H : JObj _ = JObj _ |- _ => injection H as -> end. locate.
  eapply checks_bind with (Q := λ _, True); [|intros; apply Hk].
  unfold check_route_policy.
  destruct (dget r "capacity"%string) as [cap|] eqn:Hc, (dget r "overflow"%string) as [ov|] eqn:Ho;
    try (apply checks_complain; [by eapply point_at|done]); [|locate].
  pose proof (at_key _ _ _ _ H Hc). pose proof (at_key _ _ _ _ H Ho). locate.
  destruct (bool_decide _); [|locate]. apply checks_complain; [by eapply point_at|done].
Qed.

Lemma check_routes_located v path channels : path ↦ v → locates (check_routes v path channels).
Proof.
  intros H. unfold check_routes. eapply checks_bind; [by apply typed_located|].
  intros [l|] ?; [|locate]. typed_inv. eapply items_located; [done..|].
  intros seen i x Hx _ _. by apply check_route_located.
Qed.

(** A name that is in a list is found at its index. *)
Lemma index_of_lookup n l : JStr n ∈ l → l !! index_of n l = Some (JStr n).
Proof.
  intros H. unfold index_of. destruct (list_find (λ v, v = JStr n) l) as [[i x]|] eqn:Hf; cbn.
  - by apply list_find_Some in Hf as (Hi & -> & _).
  - apply list_find_None in Hf. rewrite Forall_forall in Hf. by destruct (Hf _ H).
Qed.

Context (base_dir : string) (join : string → string → string)
  (is_file can_read can_execute : string → bool) (env_path : option string)
  (digest_of : string → string) (suffix_of : string → string)
  (summary_of : string → option summary) (loads : bytes → option json).

Lemma check_readable_located file path v what :
  path ↦ v → locates (check_readable can_read file path what).
Proof.
  intros H. unfold check_readable. destruct (can_read file); [by apply checks_ret|].
  eapply checks_bind with (Q := λ _, True); [|intros; by apply checks_ret].
  apply checks_complain; [by eapply point_at|done].
Qed.

Lemma check_file_located name path v what :
  path ↦ v → locates (check_file base_dir join is_file can_read name path what).
Proof.
  intros H. unfold check_file. destruct (negb _ && _).
  - eapply checks_bind; [by eapply check_readable_located|]. intros; by apply checks_ret.
  - eapply checks_mono; [apply complain_None_located; by eapply point_at|done].
Qed.

Lemma check_executable_located command path v :
  path ↦ v →
  locates (check_executable base_dir join is_file can_read can_execute env_path command path).
Proof.
  intros H. unfold check_executable. destruct (_ || _).
  - eapply checks_bind; [by eapply check_file_located|]. intros; by apply checks_ret.
  - induction (split_colon _) as [|e es IH]; cbn [find_executable].
    + apply checks_complain; [by eapply point_at|done].
    + destruct (_ && _); [|done]. eapply checks_bind; [by eapply check_readable_located|].
      intros; by apply checks_ret.
Qed.

Notation check_command' := (check_command base_dir join is_file can_read can_execute env_path).

Lemma check_command_located p path : path ↦ JObj p → locates (check_command' p path).
Proof.
  intros H. unfold check_command. locate. destruct a0 as [command|]; [|locate]. typed_inv.
  rename select (path ++ [TKey "command"] ↦ _) into Hc.
  assert (∀ i x, command !! i = Some x → path ++ [TKey "command"; TIdx i] ↦ x) as Hat.
  { intros i x Hi. eapply at_idx in Hi; [|done]. by rewrite <- (assoc_L (++)) in Hi. }
  locate. eapply checks_bind.
  { apply checks_map with (I := λ _ _, True). intros [i x] (j & -> & Hj)%elem_enumerate.
    eapply checks_mono; [by apply typed_located, Hat|done]. }
  intros items Hitems%Forall2_length. unfold enumerate in Hitems.
  rewrite enumerate_from_length in Hitems. eapply checks_bind with (Q := λ _, True).
  { destruct items as [|[c|] items], command as [|x command]; try discriminate; locate.
    by eapply check_executable_located, Hat. }
  intros _ _. unfold check_command_files. apply checks_fold; [done|].
  intros [] [i a'] (j & -> & Hj)%elem_enumerate _. cbn [fst snd].
  destruct a' as [a'|]; [|locate]. destruct (negb _ && _); [|locate].
  eapply checks_bind; [|intros; by apply checks_ret].
  rewrite lookup_drop in Hj.
  destruct (lookup_lt_is_Some_2 command (1 + j)) as [x Hx].
  { apply lookup_lt_Some in Hj. lia. }
  rewrite <- (assoc_L (++)). by eapply check_readable_located, Hat.
Qed.

Lemma optional_list_located {A} p path k (f : json → check (list A)) :
  path ↦ JObj p → (∀ v, path ++ [TKey k] ↦ v → locates (f v)) →
  locates (match dget p k with Some v => f v | None => mret [] end).
Proof. intros. eapply optional_located; eauto. Qed.

Lemma check_native_located p path channels :
  path ↦ JObj p →
  locates (check_native base_dir join is_file can_read p path channels).
Proof.
  intros H. unfold check_native. locate.
  eapply checks_bind with (Q := λ _, True).
  { apply checks_when; [done|]. intros l ->. typed_inv. by eapply check_file_located. }
  intros _ _. eapply checks_bind with (Q := λ _, True).
  { apply checks_fold; [done|]. locate. }
  intros _ _. eapply checks_bind with (Q := λ _, True).
  { eapply optional_located; [done..|]. locate. }
  intros _ _. eapply checks_bind with (Q := λ _, True).
  { eapply optional_list_located; [done|]. intros. by apply check_routes_located. }
  intros _ _.
  assert (∀ v, path ++ [TKey "publishes"] ↦ v →
    locates (check_channel_list v (path ++ [TKey "publishes"]) channels)) as Hl.
  { intros. eapply checks_mono; [by apply check_channel_list_located|done]. }
  pose proof (optional_list_located _ _ _ _ H Hl) as Ho.
  by destruct (dget p "publishes"%string).
Qed.

Lemma check_policy_located p path shim key policies :
  path ↦ JObj p → locates (check_policy p path shim key policies).
Proof. intros H. unfold check_policy. eapply optional_located; [done..|]. locate. Qed.

Lemma both_ways_located p path channels subscribed v :
  path ↦ JObj p → path ++ [TKey "publishes"] ↦ v →
  locates (published ← check_channel_list v (path ++ [TKey "publishes"]) channels;
           _ ← foldC (λ _ name, check_both_ways path v channels subscribed name) () published;
           mret published).
Proof.
  intros H Hv. eapply checks_bind; [by apply check_channel_list_located|]. intros names Hn.
  eapply checks_bind with (Q := λ _, True); [|intros; by apply checks_ret].
  apply checks_fold; [done|]. intros [] n Hin _. apply checks_complain_if; [|done]. intros _.
  destruct (Hn _ Hin) as (l & -> & Hl%index_of_lookup). cbn [as_array default].
  eapply at_idx in Hl; [|exact Hv]. rewrite <- (assoc_L (++)) in Hl. by eapply point_at.
Qed.

Lemma check_process_located p path channels :
  path ↦ JObj p →
  locates (check_process base_dir join is_file can_read can_execute env_path p path channels).
Proof.
  intros H. unfold check_process. eapply checks_bind; [by apply check_command_located|].
  locate. eapply checks_bind with (Q := λ _, True).
  { eapply optional_list_located; [done|]. intros. by apply check_routes_located. }
  intros subscribed _. eapply checks_bind with (Q := λ _, True).
  { eapply optional_located; [done..|]. locate. }
  intros _ _. eapply checks_bind with (Q := λ _, True).
  { eapply optional_located; [done..|]. locate. }
  intros shim _. eapply checks_bind; [by apply check_policy_located|].
  intros _ _. eapply checks_bind; [by apply check_policy_located|]. intros _ _.
  destruct (dget p "publishes"%string) as [v|] eqn:Hp; [|locate].
  eapply both_ways_located; [done|]. by eapply at_key.
Qed.

Lemma check_recorded_located recorded p path l n c :
  path ↦ JObj p → path ++ [TKey "channels"] ↦ JArr l → JStr n ∈ l →
  locates (check_recorded recorded path l (n, c)).
Proof.
  intros H Hl Hin%index_of_lookup. eapply at_idx in Hin; [|done].
  rewrite <- (assoc_L (++)) in Hin. unfold check_recorded. cbn [fst snd].
  destruct (dget recorded n); [|apply checks_complain; [by eapply point_at|done]].
  destruct (vc_schema_doc c); [|by apply checks_ret].
  apply checks_complain_if; [|done]. intros _. by eapply point_at.
Qed.

Lemma check_recording_located recording digest p path replayed l :
  path ↦ JObj p → path ++ [TKey "channels"] ↦ JArr l →
  is_Some (dget p "recording"%string) → (∀ n c, (n, c) ∈ replayed → JStr n ∈ l) →
  locates (check_recording base_dir join is_file can_read digest_of suffix_of summary_of loads
             recording digest path replayed l).
Proof.
  intros H Hl [v Hr] Hin. unfold check_recording.
  eapply checks_bind; [eapply check_file_located; by eapply at_key|].
  intros [file|] _; [|by apply checks_ret].
  destruct (negb _); [apply checks_complain; [by eapply point_key|done]|].
  destruct (read_channels _ _ _) as [cs|]; [|apply checks_complain; [by eapply point_key|done]].
  apply checks_fold; [done|]. intros [] [n c] Hnc _. by eapply check_recorded_located, Hin.
Qed.

Lemma check_replay_located p path channels :
  path ↦ JObj p →
  locates (check_replay base_dir join is_file can_read digest_of suffix_of summary_of loads
             p path channels).
Proof.
  intros H. unfold check_replay.
  eapply checks_bind; [by apply required_located|]. intros r Hr.
  eapply checks_bind.
  { apply (when_typed_located r). intros v E. apply (Hr v E). }
  intros recording Hrec. locate.
  eapply checks_bind with (Q := λ _, True); [eapply optional_located; [done..|]; locate|].
  locate. destruct a3 as [l|]; [|locate].
  assert (path ++ [TKey "channels"] ↦ JArr l) as Hl by (typed_inv; done).
  locate. eapply checks_bind; [by apply check_channel_list_located|]. intros names Hn.
  eapply checks_bind with (Q := λ _, True); [|intros; by apply checks_ret].
  destruct recording as [rc|], a0 as [dg|]; try locate.
  eapply check_recording_located; [done..| |].
  - destruct (Hrec _ eq_refl) as (v & Hv & _). rewrite resolve_app, H in Hv. cbn in Hv.
    destruct (dget p "recording"%string); [by eexists|done].
  - intros n c (n' & Hin & Hc)%list_elem_of_omap. destruct (dget channels n'); [|done].
    injection Hc as <- <-. destruct (Hn _ Hin) as (l' & [= <-] & ?). done.
Qed.

Notation check_participant' := (check_participant base_dir join is_file can_read can_execute
  env_path digest_of suffix_of summary_of loads).

Lemma check_participant_located v path channels :
  path ↦ v → locates (check_participant' v path channels).
Proof.
  intros H. unfold check_participant. eapply checks_bind; [by apply typed_located|].
  intros [p|] Hp; [|by apply checks_ret]. typed_inv. locate.
  destruct a0 as [ty|]; [|locate]. eapply checks_bind with (Q := λ _, True).
  { apply checks_fold; [done|]. locate. }
  intros _ _. destruct (dget PARTICIPANT_TYPES ty) as [[keys []]|].
  - eapply checks_bind; [by apply known_keys_located|]. intros _ _. by apply check_native_located.
  - eapply checks_bind; [by apply known_keys_located|]. intros _ _. by apply check_process_located.
  - eapply checks_bind; [by apply known_keys_located|]. intros _ _. by apply check_replay_located.
  - eapply checks_bind with (Q := λ _, True); [|intros; by apply checks_ret].
    apply checks_complain; [by eapply point_key|done].
Qed.
End located.

(** The entries of a section of the document, under sorted names. *)
Lemma sorted_names_elem n d : n ∈ sorted_names d ↔ n ∈ d.*1.
Proof. unfold sorted_names. by rewrite merge_sort_Permutation. Qed.

Lemma entry_at doc key d n :
  resolve doc [TKey key] = Some (JObj d) → n ∈ sorted_names d →
  resolve doc [TKey key; TKey n] = Some (entry d n).
Proof.
  intros H [v Hv]%sorted_names_elem%dget_is_Some.
  change [TKey key; TKey n] with ([TKey key] ++ [TKey n]).
  unfold entry. rewrite Hv. by eapply at_key.
Qed.

Section document_located.
Context (base_dir : string) (join : string → string → string)
  (is_file can_read can_execute : string → bool) (env_path : option string)
  (digest_of : string → string) (suffix_of : string → string)
  (summary_of : string → option summary) (loads : bytes → option json).

Lemma section_located d key :
  checks (located (JObj d)) (section d key)
    (λ o, ∀ s, o = Some s → resolve (JObj d) [TKey key] = Some (JObj s)).
Proof.
  unfold section. eapply checks_bind; [by apply (required_located (JObj d) d key [])|].
  intros o Ho. eapply checks_mono.
  { apply when_typed_located. intros v E. apply (Ho v E). }
  intros r Hr s Es. destruct (Hr _ Es) as (v & Hv & ->%as_object_Some). done.
Qed.

Lemma check_header_located d :
  checks (located (JObj d)) (check_header d) (λ _, True).
Proof.
  assert (resolve (JObj d) [] = Some (JObj d)) as H by done. unfold check_header.
  eapply checks_bind; [by eapply known_keys_located|]. intros _ _.
  eapply checks_bind; [by eapply required_located|]. intros v Hv.
  eapply checks_bind; [apply when_typed_located; intros ? E; apply (Hv _ E)|]. intros ver Hver.
  eapply checks_bind with (Q := λ _, True).
  { destruct ver as [z|]; [|by apply checks_ret]. by apply (complain_if_located _ _ []  d). }
  intros _ _. eapply checks_bind; [by eapply required_located|]. intros du Hdu.
  eapply checks_bind; [apply when_typed_located; intros ? E; apply (Hdu _ E)|]. intros _ _.
  eapply (optional_located _ d []); [done..|]. intros e He.
  eapply checks_bind; [by apply typed_located|]. intros. by apply checks_ret.
Qed.

Notation check_document' := (check_document base_dir join is_file can_read can_execute
  env_path digest_of suffix_of summary_of loads).

Lemma check_document_located doc : Forall (located doc) (check_document' doc).
Proof.
  unfold check_document. set (m := vobject doc [] ≫= _).
  enough (checks (located doc) m (λ _, True)) as H by apply H. subst m.
  eapply checks_bind; [by apply typed_located|].
  intros [d|] Hd; [|by apply checks_ret]. specialize (Hd _ eq_refl).
  apply as_object_Some in Hd as ->. eapply checks_bind; [apply check_header_located|]. intros _ _.
  eapply checks_bind; [apply section_located|]. intros ss Hss.
  eapply checks_bind with (Q := λ _, True).
  { eapply checks_mono; [apply checks_map with (I := λ _ _, True)|done]. intros n Hn.
    destruct ss as [s|]; [|by apply elem_of_nil in Hn].
    eapply checks_bind; [|intros; by apply checks_ret].
    apply vcheck_schema_located, entry_at; [by apply Hss|done]. }
  intros schemas _. eapply checks_bind; [apply section_located|]. intros cs Hcs.
  eapply checks_bind with (Q := λ _, True).
  { eapply checks_mono; [apply checks_map with (I := λ _ _, True)|done]. intros n Hn.
    destruct cs as [c|]; [|by apply elem_of_nil in Hn].
    eapply checks_bind; [|intros; by apply checks_ret].
    apply vcheck_channel_located, entry_at; [by apply Hcs|done]. }
  intros channels _. eapply checks_bind; [apply section_located|]. intros ps Hps.
  eapply checks_bind with (Q := λ _, True); [|intros; by apply checks_ret].
  apply checks_fold; [done|]. intros pubs n Hn _.
  destruct ps as [p|]; [|by apply elem_of_nil in Hn].
  pose proof (entry_at _ _ _ _ (Hps _ eq_refl) Hn) as He.
  eapply checks_bind; [by apply check_participant_located|]. intros published _.
  apply checks_fold; [done|]. intros pubs' ch _ _. unfold check_one_publisher.
  destruct (dget pubs' ch); [|by apply checks_ret].
  eapply checks_bind with (Q := λ _, True); [|intros; by apply checks_ret].
  apply checks_complain; [by eapply point_at|done].
Qed.

(** Every problem the check reports points into the document: its path
    reaches a value of the document, or names a key that the object at the
    path before it does not have. *)
Theorem problems_located doc :
  Forall (λ pr, points_at doc (pr_path pr)) (check_document' doc).
Proof. apply check_document_located. Qed.
End document_located.
