(* ===== verification/ManifestAgree.v ===== *)
(** * The builder and the check agree

    The document [Manifest.to_doc] gives passes [_check_document], for any file
    system: what the check may still report is an artifact it cannot find or
    that differs, an Arena too large for [size_t], or a Process participant
    that both subscribes and publishes a shm Channel. The exception is a field
    with a null count, which the builder accepts and the check refuses. *)

From Stdlib Require Import ZArith Lia.
From S2P Require Import Prelude PyFloat Json SchemaTypes Schema Pointer Recording Manifest ManifestValidate.

(** Problems that need more than the builder's rules. *)
Definition environmental (what : complaint) : bool :=
  match what with
  | CNotAFile _ _ | CCannotRead _ _ | CNotOnPath _ | CHashMismatch _ _ | CCannotReadRecording
  | CNotRecorded _ | CSchemaDiffers _ | CArenaOverflow | CBothWays _ => true
  | _ => false
  end.

Definition tolerated (pr : problem) : Prop := environmental (pr_what pr) = true.
Notation quiet := (checks tolerated).

(** No field spec has a null count. *)
Definition no_null_count (s : json) : Prop :=
  ∀ l f, jget s "fields" = Some (JArr l) → f ∈ l → jget f "count" ≠ Some JNull.

(** ** Primitive checks of good values *)

Lemma quiet_typed {A} v path (test : json → option A) e a (Q : option A → Prop) :
  test v = Some a → Q (Some a) → quiet (typed v path test e) Q.
Proof. intros H HQ. unfold typed. rewrite H. by apply checks_ret. Qed.

Lemma quiet_required d k path v (Q : option json → Prop) :
  dget d k = Some v → v ≠ JNull → Q (Some v) → quiet (required d k path) Q.
Proof. intros H Hn HQ. unfold required. rewrite H. destruct v; try done; by apply checks_ret. Qed.

Lemma quiet_known_keys d path allowed (Q : () → Prop) :
  (∀ k, k ∈ d.*1 → k ∈ allowed) → Q () → quiet (known_keys d path allowed) Q.
Proof.
  intros H HQ. eapply checks_mono; [apply checks_fold with (I := λ _, True)|]; [done| |by intros []].
  intros [] k Hk _. apply checks_complain_if; [|done].
  rewrite bool_decide_eq_true_2 by auto. discriminate.
Qed.

Lemma quiet_choice s path cs what (Q : option string → Prop) :
  s ∈ cs → Q (Some s) → quiet (choice (JStr s) path cs what) Q.
Proof.
  intros H HQ. eapply checks_bind; [by eapply (quiet_typed _ _ _ _ s (λ o, o = Some s))|].
  intros ? ->. rewrite bool_decide_eq_true_2 by done. by apply checks_ret.
Qed.

Lemma as_integer_ok lo hi z : lo ≤ z ≤ hi → as_integer lo hi (JInt z) = Some z.
Proof. intros. cbn. by rewrite (proj2 (in_range_true _ _ _)). Qed.

(** One step of a check whose value is known. *)
Ltac q_typed a :=
  eapply checks_bind; [by eapply (quiet_typed _ _ _ _ a (λ o, o = Some a))|];
  intros ? ->; cbn [when_some].
Ltac q_required :=
  eapply checks_bind; [by eapply (quiet_required _ _ _ _ (λ o, o = Some _))|];
  intros ? ->; cbn [when_some].
Ltac q_keys :=
  eapply checks_bind; [by apply quiet_known_keys with (Q := λ _, True)|]; intros _ _.

(** ** Schemas *)

Lemma field_of_json_inv x f :
  only_keys FIELD_KEYS x → field_of_json x = Some f → field_ok f → jget x "count" ≠ Some JNull →
  ∃ d, x = JObj d ∧ (∀ k, k ∈ d.*1 → k ∈ FIELD_KEYS) ∧ dget d "name"%string = Some (JStr (fd_name f))
  ∧ dget d "type"%string = Some (JStr (prim_name (fd_type f)))
  ∧ match fd_count f with
    | None => dget d "count"%string = None
    | Some n => dget d "count"%string = Some (JInt (Z.of_nat n)) ∧ 1 ≤ Z.of_nat n
    end.
Proof.
  intros (d & -> & Hk) Hf [_ Hc] Hnull. exists d. split; [done|]. split; [done|].
  unfold field_of_json in Hf. cbn [jget] in *.
  destruct (dget d "name"%string) as [[| | | |n| |]|]; try discriminate.
  destruct (dget d "type"%string) as [[| | | |t| |]|]; try discriminate.
  destruct (prim_of_name t) as [p|] eqn:Ht; [|discriminate]. apply prim_of_name_Some in Ht as ->.
  cbn in Hf. destruct (dget d "count"%string) as [[| |z| | | |]|]; simplify_eq; try done.
  destruct (z <? 0) eqn:Hz; [discriminate|]. injection Hf as <-. cbn in *.
  split_and!; try done; [repeat f_equal; lia|]. destruct (Z.to_nat z) eqn:?; [done|lia].
Qed.

(** The number of elements of a field. *)
Definition field_elements (f : field) : Z := Z.of_nat (default 1%nat (fd_count f)).

Lemma prim_name_listed p : prim_name p ∈ names_of_types.
Proof. destruct p; vm_compute; repeat constructor. Qed.

Lemma type_size_name p : type_size (prim_name p) = size_of p.
Proof. unfold type_size. by rewrite prim_of_name_name. Qed.

Lemma check_field_keys_quiet x f d path :
  only_keys FIELD_KEYS x → field_of_json x = Some f → field_ok f → jget x "count" ≠ Some JNull →
  field_elements f ≤ u64_max → x = JObj d →
  quiet (check_field_keys d path)
    (λ r, r = (Some (fd_name f), Some (prim_name (fd_type f)), Some (field_elements f))).
Proof.
  intros H1 H2 H3 H4 Hle ->.
  destruct (field_of_json_inv _ _ H1 H2 H3 H4) as (d' & [= <-] & Hk & Hn & Ht & Hc).
  unfold check_field_keys. q_keys. q_required. q_typed (fd_name f). q_required.
  eapply checks_bind.
  { apply (quiet_choice _ _ _ _ (λ o, o = Some (prim_name (fd_type f)))); [|done].
    apply prim_name_listed. }
  intros ? ->. eapply checks_bind with (Q := λ o, o = Some (field_elements f)).
  { unfold field_elements in *. destruct (fd_count f) as [n|].
    - destruct Hc as [-> Hc]. eapply quiet_typed; [|done]. by apply as_integer_ok.
    - rewrite Hc. by apply checks_ret. }
  intros ? ->. by apply checks_ret.
Qed.

Lemma check_schema_fields_quiet path l fs i names sz :
  Forall2 (λ x f, field_of_json x = Some f) l fs → Forall (only_keys FIELD_KEYS) l →
  Forall field_ok fs → (∀ x, x ∈ l → jget x "count" ≠ Some JNull) →
  NoDup (fd_name <$> fs) → (∀ f, f ∈ fs → fd_name f ∉ names) →
  0 ≤ sz → sz + Z.of_nat (mt_size fs) ≤ u64_max →
  quiet (check_schema_fields path true names sz (enumerate_from i l)) (λ o, o = Some true).
Proof.
  intros Hl. revert i names sz.
  induction Hl as [|x f l fs Hx Hl IH]; intros i names sz Hk Hok Hnull Hnd Hnew Hsz Hle;
    cbn [check_schema_fields enumerate_from]; [by apply checks_ret|].
  apply Forall_cons in Hk as [Hkx Hk], Hok as [Hfok Hok]. rewrite fmap_cons in Hnd.
  apply NoDup_cons in Hnd as [Hn Hnd]. rewrite mt_size_cons, Nat2Z.inj_add, field_size_Z in Hle.
  fold (field_elements f) in Hle. pose proof (size_of_pos (fd_type f)) as Hpos.
  assert (0 ≤ field_elements f) by (unfold field_elements; lia).
  assert (field_elements f ≤ u64_max) as Hel by nia.
  pose proof Hkx as (d & -> & _).
  q_typed d. eapply checks_bind.
  { eapply check_field_keys_quiet; try done. apply Hnull. left. }
  intros ? ->. cbv beta iota. rewrite bool_decide_eq_false_2 by (apply Hnew; left).
  eapply checks_bind; [by apply checks_complain_if with (Q := λ _, True)|]. intros _ _.
  rewrite type_size_name. destruct (u64_max <? _) eqn:Hov; [lia|].
  apply IH; try done; try lia.
  - intros. apply Hnull. by right.
  - intros g Hg [Heq|Hin]%elem_of_cons.
    + apply Hn. rewrite <- Heq. by apply list_elem_of_fmap_2.
    + eapply Hnew; [by right|done].
Qed.

Lemma vcheck_schema_quiet s fs path :
  schema_ok s fs → no_null_count s →
  quiet (vcheck_schema s path) (λ o, ∃ l, o = Some l ∧ jget s "fields" = Some (JArr l)).
Proof.
  intros ((d & -> & Hk) & (l & Hl & Hkl) & Hfs & Hne & Hnd & Hok & Hle) Hnull.
  unfold fields_of_json in Hfs. rewrite Hl in Hfs. apply mapM_Some in Hfs.
  unfold vcheck_schema.
  q_typed d. q_keys. q_required. q_typed l. rewrite bool_decide_eq_false_2 by (intros ->; inversion Hfs; by subst).
  eapply checks_bind.
  { eapply check_schema_fields_quiet; try done.
    - intros x Hx. by eapply Hnull.
    - by intros ? _ ?%elem_of_nil. }
  intros ? ->. apply checks_ret. eauto.
Qed.

Lemma dget_app_None (d1 d2 : list (string * json)) k :
  dget d1 k = None → dget (d1 ++ d2) k = dget d2 k.
Proof. induction d1 as [|[k' v'] d1 IH]; cbn; [done|]. by destruct (decide (k = k')). Qed.

(** ** Interceptors *)

(** Keys of a document with a known spine are checked by computation. *)
Lemma keys_by_computation (d : list (string * json)) (allowed : list string) :
  bool_decide (Forall (λ k, k ∈ allowed) d.*1) = true → ∀ k, k ∈ d.*1 → k ∈ allowed.
Proof. intros H%bool_decide_eq_true. by apply Forall_forall. Qed.

Definition interceptor_entries (i : interceptor) : list (string * json) :=
  ("kind"%string, JStr (fault_entries (ic_fault i)).1)
  :: opt_entry "start_ns" (ic_start i) ++ opt_entry "end_ns" (ic_end i)
  ++ (fault_entries (ic_fault i)).2.

Lemma interceptor_keys i k : k ∈ (interceptor_entries i).*1 → k ∈ INTERCEPTOR_KEYS.
Proof.
  destruct i as [[st|] [en|] []]; revert k; apply keys_by_computation; vm_compute; reflexivity.
Qed.

Lemma interceptor_kind i :
  dget (interceptor_entries i) "kind"%string = Some (JStr (fault_entries (ic_fault i)).1).
Proof. done. Qed.
Lemma interceptor_start i : dget (interceptor_entries i) "start_ns"%string = JInt <$> ic_start i.
Proof. by destruct i as [[st|] [en|] []]. Qed.
Lemma interceptor_end i : dget (interceptor_entries i) "end_ns"%string = JInt <$> ic_end i.
Proof. by destruct i as [[st|] [en|] []]. Qed.
Lemma interceptor_fault i k v :
  (k, v) ∈ (fault_entries (ic_fault i)).2 → dget (interceptor_entries i) k = Some v.
Proof.
  destruct i as [[st|] [en|] []]; cbn [fault_entries ic_fault snd];
    rewrite ?elem_of_cons; intros; destruct_or?; simplify_eq; try done; by apply elem_of_nil in H.
Qed.

(** The first spec with a name, in a schema with distinct names. *)
Lemma find_field l fs name p :
  Forall2 (λ x f, field_of_json x = Some f) l fs → NoDup (fd_name <$> fs) →
  mk_field name p None ∈ fs →
  ∃ i x, list_find (λ f, jget f "name" = Some (JStr name)) l = Some (i, x)
         ∧ field_of_json x = Some (mk_field name p None) ∧ x ∈ l.
Proof.
  intros Hl Hnd Hin.
  assert (∀ x f, field_of_json x = Some f → jget x "name" = Some (JStr (fd_name f))) as Hname.
  { intros x f Hf. unfold field_of_json in Hf.
    destruct (jget x "name") as [[| | | |n| |]|]; try discriminate.
    destruct (jget x "type") as [[| | | |t| |]|]; try discriminate.
    destruct (prim_of_name t); [|discriminate]. cbn in Hf.
    destruct (jget x "count") as [[| |z| | | |]|]; simplify_eq; try done.
    destruct (z <? 0); by simplify_eq. }
  apply list_elem_of_lookup in Hin as [i Hi].
  destruct (Forall2_lookup_r _ _ _ _ _ Hl Hi) as (x & Hx & Hf).
  destruct (list_find _ l) as [[j y]|] eqn:Hfind.
  - apply list_find_Some in Hfind as (Hj & Hy & _).
    destruct (Forall2_lookup_l _ _ _ _ _ Hl Hj) as (g & Hg & Hyg).
    pose proof (Hname _ _ Hyg) as Hn. rewrite Hy in Hn. injection Hn as Hn.
    assert (i = j) as <-.
    { eapply NoDup_lookup; [exact Hnd| |]; rewrite list_lookup_fmap, ?Hi, ?Hg; cbn; by rewrite ?Hn. }
    exists i, y. simplify_eq. split_and!; [done..|]. by eapply list_elem_of_lookup_2.
  - apply list_find_None in Hfind. rewrite Forall_forall in Hfind.
    destruct (Hfind x); [by eapply list_elem_of_lookup_2|]. by apply Hname in Hf.
Qed.

Lemma beyond_f32_fits v :
  float_fits F32 v = true → beyond_f32 v = false.
Proof.
  unfold float_fits, beyond_f32. destruct v; try discriminate.
  - destruct (float_of_int z); [|discriminate].
    rewrite bool_decide_eq_true_2 by done. cbn [andb]. by intros ?%negb_true_iff.
  - rewrite andb_true_iff, bool_decide_eq_true_2 by done. cbn [andb]. by intros [_ ?%negb_true_iff].
Qed.

(** A complaint that is not made. *)
Lemma quiet_no_complaint b path what (Q : () → Prop) :
  b = false → Q () → quiet (complain_if b path what) Q.
Proof. intros -> HQ. by apply checks_ret. Qed.

Section interceptors.
Context (s : json) (fs : list field) (l : list json).
Context (Hs : schema_ok s fs) (Hnull : no_null_count s) (Hl : jget s "fields" = Some (JArr l)).

Lemma check_override_quiet i path name v :
  ic_fault i = FOverride name v → fault_ok fs (ic_fault i) →
  quiet (check_override (interceptor_entries i) path (Some l)) (λ _, True).
Proof using Hs Hnull Hl.
  intros Hi. rewrite Hi. intros (p & Hp & Hv).
  assert (v ≠ JNull) as Hvn.
  { intros ->. unfold override_ok in Hv. destruct (int_range p) as [[]|]; done. }
  destruct Hs as (_ & (l' & Hl' & Hkl) & Hfs & _ & Hnd & Hok & _).
  unfold fields_of_json in Hfs. rewrite Hl in Hfs. apply mapM_Some in Hfs.
  destruct (find_field _ _ _ _ Hfs Hnd Hp) as (j & x & Hfind & Hx & Hxl).
  assert (l' = l) as -> by congruence. rewrite Forall_forall in Hkl. rewrite Forall_forall in Hok.
  destruct (field_of_json_inv _ _ (Hkl _ Hxl) Hx (Hok _ Hp) (Hnull _ _ Hl Hxl))
    as (d & -> & _ & Hn & Ht & Hc). cbn [fd_count fd_type fd_name] in *.
  assert (dget (interceptor_entries i) "field"%string = Some (JStr name)) as Hif.
  { apply interceptor_fault. rewrite Hi. left. }
  assert (dget (interceptor_entries i) "value"%string = Some v) as Hiv.
  { apply interceptor_fault. rewrite Hi. right. left. }
  unfold check_override. q_required. q_required. q_typed name. rewrite Hfind. cbn [snd fmap option_fmap option_map].
  cbn [jget]. rewrite Hc, bool_decide_eq_false_2 by (by intros [? ?]).
  unfold spec_type. cbn [jget]. rewrite Ht, prim_of_name_name. cbn [mbind option_bind].
  unfold override_ok in Hv. destruct (int_range p) as [[lo hi]|] eqn:Hr.
  - destruct v; try done. eapply checks_bind; [|intros; by apply checks_ret].
    eapply (quiet_typed _ _ _ _ z (λ _, True)); [by apply as_integer_ok|done].
  - assert (as_number v = Some v) as Hnum by (by destruct v).
    q_typed v. apply quiet_no_complaint; [|done].
    destruct (decide (p = F32)) as [->|Hp32].
    + rewrite beyond_f32_fits; [by rewrite andb_false_r|]. by destruct v.
    + rewrite (bool_decide_eq_false_2 (Some p = Some F32)) by congruence. by rewrite andb_false_r.
Qed.

Lemma check_interceptor_quiet i path :
  interceptor_ok fs i → quiet (check_interceptor (interceptor_doc i) path (Some l)) (λ _, True).
Proof using Hs Hnull Hl.
  intros (Hst & Hen & Hwin & Hf). unfold check_interceptor.
  q_typed (interceptor_entries i).
  eapply checks_bind; [apply quiet_known_keys with (Q := λ _, True); [apply interceptor_keys|done]|]. intros _ _.
  q_required.
  eapply checks_bind.
  { apply (quiet_choice _ _ _ _ (λ o, o = Some (fault_entries (ic_fault i)).1)); [|done].
    unfold INTERCEPTOR_KINDS. destruct (ic_fault i); cbn; set_solver. }
  intros ? ->. rewrite interceptor_start, interceptor_end.
  eapply checks_bind with (Q := λ o, o = Some (default 0 (ic_start i))).
  { destruct (ic_start i) as [z|]; cbn; [|by apply checks_ret].
    eapply quiet_typed; [apply as_integer_ok, Hst|]; done. }
  intros ? ->. eapply checks_bind with (Q := λ _, True).
  { destruct (ic_end i) as [z|]; cbn [fmap option_fmap option_map]; [|by apply checks_ret].
    eapply checks_bind.
    { eapply (quiet_typed _ _ _ _ z (λ o, o = Some z)); [|done]. by apply as_integer_ok, Hen. }
    intros ? ->. apply quiet_no_complaint; [|done]. specialize (Hwin z eq_refl). cbn in Hwin. lia. }
  intros _ _. destruct (ic_fault i) as [|n|d|name v] eqn:Hi; cbn [fault_entries fst].
  - by apply checks_ret.
  - cbn. assert (dget (interceptor_entries i) "n"%string = Some (JInt n)) as Hn.
    { apply interceptor_fault. rewrite Hi. left. }
    q_required. eapply checks_bind; [|intros; by apply checks_ret].
    eapply (quiet_typed _ _ _ _ n (λ _, True)); [by apply as_integer_ok|done].
  - cbn. assert (dget (interceptor_entries i) "delay_ns"%string = Some (JInt d)) as Hn.
    { apply interceptor_fault. rewrite Hi. left. }
    q_required. eapply checks_bind; [|intros; by apply checks_ret].
    eapply (quiet_typed _ _ _ _ d (λ _, True)); [by apply as_integer_ok|done].
  - cbn. eapply check_override_quiet; [done|]. by rewrite Hi.
Qed.
End interceptors.

(** ** Channels *)

Definition channel_entries (c : channel) : list (string * json) :=
  ("schema"%string, JStr (ch_schema c)) :: opt_entry "latency_ns" (ch_latency c)
  ++ match ch_slots c with
     | Some n => [("transport"%string, JStr "shm"); ("slots"%string, JInt n)]
     | None => []
     end
  ++ match ch_interceptors c with
     | [] => []
     | l => [("interceptors"%string, JArr (interceptor_doc <$> l))]
     end.

Lemma channel_keys c k : k ∈ (channel_entries c).*1 → k ∈ CHANNEL_KEYS.
Proof.
  destruct c as [s [la|] [sl|] [|i il]]; revert k; apply keys_by_computation; vm_compute; reflexivity.
Qed.
Lemma channel_latency c : dget (channel_entries c) "latency_ns"%string = JInt <$> ch_latency c.
Proof. by destruct c as [s [la|] [sl|] [|i il]]. Qed.
Lemma channel_transport c :
  dget (channel_entries c) "transport"%string = (λ _, JStr "shm") <$> ch_slots c.
Proof. by destruct c as [s [la|] [sl|] [|i il]]. Qed.
Lemma channel_slots c : dget (channel_entries c) "slots"%string = JInt <$> ch_slots c.
Proof. by destruct c as [s [la|] [sl|] [|i il]]. Qed.
Lemma channel_interceptors c :
  dget (channel_entries c) "interceptors"%string =
  match ch_interceptors c with [] => None | l => Some (JArr (interceptor_doc <$> l)) end.
Proof. by destruct c as [s [la|] [sl|] [|i il]]. Qed.

Lemma quiet_items {A} (f : nat * json → check ()) (g : A → json) (l : list A) :
  (∀ i x, x ∈ l → quiet (f (i, g x)) (λ _, True)) →
  quiet (foldC (λ _ ix, f ix) () (enumerate (g <$> l))) (λ _, True).
Proof.
  intros H. apply checks_fold; [done|]. intros [] [i y] (j & -> & Hj)%elem_enumerate _.
  rewrite list_lookup_fmap in Hj. destruct (l !! j) as [x|] eqn:Hx; [|done]. injection Hj as <-.
  apply H. by eapply list_elem_of_lookup_2.
Qed.

Lemma vcheck_channel_quiet c path sdocs docs schemas :
  channel_ok sdocs c → (∀ s, dget sdocs (ch_schema c) = Some s → no_null_count s) →
  (∀ n s, dget sdocs n = Some s →
     ∃ l, dget schemas n = Some (Some l) ∧ jget s "fields" = Some (JArr l)) →
  quiet (vcheck_channel (channel_doc c) path docs schemas) (λ _, True).
Proof.
  intros (Hlat & Hsl & s & fs & Hs & Hfs & Hi) Hnull Hsch.
  destruct (Hsch _ _ Hs) as (l & Hsl' & Hl). specialize (Hnull _ Hs).
  unfold vcheck_channel. q_typed (channel_entries c).
  eapply checks_bind; [apply quiet_known_keys with (Q := λ _, True); [apply channel_keys|done]|].
  intros _ _. eapply checks_bind with (Q := λ sf, sf = (Some (JStr (ch_schema c)), Some l)).
  { unfold check_schema_ref. q_required. q_typed (ch_schema c). rewrite Hsl'. by apply checks_ret. }
  intros ? ->. rewrite channel_latency, channel_transport, channel_slots, channel_interceptors.
  eapply checks_bind with (Q := λ _, True).
  { destruct (ch_latency c) as [z|]; cbn; [|by apply checks_ret].
    eapply quiet_typed; [by apply as_integer_ok, Hlat|done]. }
  intros _ _.
  eapply checks_bind with
    (Q := λ o, o = Some (if ch_slots c then "shm"%string else "inline"%string)).
  { destruct (ch_slots c); cbn [fmap option_fmap option_map]; [|by apply checks_ret].
    apply quiet_choice; [|done]. unfold TRANSPORTS. set_solver. }
  intros ? ->. eapply checks_bind with (Q := λ _, True).
  { destruct (ch_slots c) as [z|]; cbn [fmap option_fmap option_map]; [|by apply checks_ret].
    eapply checks_bind; [by apply quiet_no_complaint with (Q := λ _, True)|]. intros _ _.
    eapply checks_bind; [eapply (quiet_typed _ _ _ _ z (λ _, True));
      [by apply as_integer_ok, Hsl|done]|]. intros ? _.
    by apply checks_complain_if. }
  intros _ _. eapply checks_bind with (Q := λ _, True); [|intros; by apply checks_ret].
  destruct (ch_interceptors c) as [|i il] eqn:Hil; [by apply checks_ret|]. rewrite <- Hil in *.
  q_typed (interceptor_doc <$> ch_interceptors c).
  apply (quiet_items (λ ix, check_interceptor ix.2 _ _)). intros j x Hx. cbn [fst snd].
  eapply check_interceptor_quiet; [done..|]. by apply (proj1 (Forall_forall _ _) Hi).
Qed.

(** ** Participants *)

Lemma keep_reference_quiet name path channels seen :
  name ∈ channels.*1 → name ∉ seen →
  quiet (keep_reference (Some name) path channels seen) (λ l, l = seen ++ [name]).
Proof.
  intros H1 H2. unfold keep_reference. eapply checks_bind with (Q := λ b, b = true).
  - unfold check_reference. rewrite (proj2 (dmem_true _ _)) by done. cbn [negb].
    rewrite bool_decide_eq_false_2 by done. by apply checks_ret.
  - intros ? ->. by apply checks_ret.
Qed.

(** A loop over distinct declared names keeps them all. *)
Lemma quiet_names {A} (f : list string → nat * json → check (list string)) (g : A → json)
    (name : A → string) (l : list A) seen i :
  (∀ seen i x, x ∈ l → name x ∉ seen → quiet (f seen (i, g x)) (λ l, l = seen ++ [name x])) →
  NoDup (name <$> l) → (∀ x, x ∈ l → name x ∉ seen) →
  quiet (foldC f seen (enumerate_from i (g <$> l))) (λ r, r = seen ++ (name <$> l)).
Proof.
  revert seen i. induction l as [|x l IH]; intros seen i Hf Hnd Hs;
    cbn [foldC enumerate_from fmap list_fmap].
  { apply checks_ret. by rewrite app_nil_r. }
  rewrite fmap_cons in Hnd. apply NoDup_cons in Hnd as [Hn Hnd].
  eapply checks_bind; [apply Hf; [left|apply Hs; left]|]. intros ? ->.
  eapply checks_mono; [apply IH|].
  - intros. apply Hf; [by right|done].
  - done.
  - intros y Hy [Hin|Hin%list_elem_of_singleton]%elem_of_app.
    + eapply Hs; [by right|done].
    + apply Hn. rewrite <- Hin. by apply list_elem_of_fmap_2.
  - intros ? ->. by rewrite <- (assoc_L (++)).
Qed.

Lemma check_channel_list_quiet names path channels :
  (∀ n, n ∈ names → n ∈ channels.*1) → NoDup names →
  quiet (check_channel_list (strs names) path channels) (λ r, r = names).
Proof.
  intros Hd Hnd. unfold check_channel_list. q_typed (JStr <$> names).
  eapply checks_mono; [apply (quiet_names _ JStr id)|].
  - intros seen i n Hn Hs. cbn [fst snd]. q_typed n. apply keep_reference_quiet; [auto|done].
  - by rewrite list_fmap_id.
  - by intros ? _ ?%elem_of_nil.
  - intros ? ->. by rewrite list_fmap_id.
Qed.

Lemma check_routes_quiet subs path channels :
  Forall route_ok subs → (∀ n, n ∈ rt_channel <$> subs → n ∈ channels.*1) →
  NoDup (rt_channel <$> subs) →
  quiet (check_routes (JArr (route_doc <$> subs)) path channels) (λ r, r = rt_channel <$> subs).
Proof.
  intros Hok Hd Hnd. unfold check_routes. q_typed (route_doc <$> subs).
  apply (quiet_names _ route_doc rt_channel); [|done|by intros ? _ ?%elem_of_nil].
  intros seen i [ch cap ov] Hr Hs. destruct (proj1 (Forall_forall _ _) Hok _ Hr) as [Hcap Hov].
  cbn [rt_channel rt_capacity rt_overflow] in *. cbn [fst snd]. unfold check_route, route_doc.
  cbn [rt_channel rt_capacity rt_overflow].
  set (d := [("channel"%string, JStr ch); ("capacity"%string, JInt cap); ("overflow"%string, JStr ov)]).
  q_typed d. eapply checks_bind.
  { apply quiet_known_keys with (Q := λ _, True); [|done]. apply keys_by_computation. reflexivity. }
  intros _ _. q_required. q_typed ch. eapply checks_bind with (Q := λ _, True).
  { unfold check_route_policy, d. cbn [dget decide].
    assert (ov ≠ "blocking"%string) as Hb.
    { intros ->. unfold OVERFLOW_POLICIES in Hov. set_solver. }
    change (dget _ "capacity"%string) with (Some (JInt cap)).
    change (dget _ "overflow"%string) with (Some (JStr ov)).
    eapply checks_bind; [eapply (quiet_typed _ _ _ _ cap (λ _, True));
      [by apply as_integer_ok|done]|].
    intros ? _. rewrite bool_decide_eq_false_2 by congruence.
    eapply checks_bind; [by apply quiet_choice with (Q := λ _, True)|]. intros; by apply checks_ret. }
  intros _ _. apply keep_reference_quiet; [|done]. apply Hd. by apply (list_elem_of_fmap_2 rt_channel) in Hr.
Qed.

Section participants.
Context (base_dir : string) (join : string → string → string)
  (is_file can_read can_execute : string → bool) (env_path : option string)
  (digest_of : string → string) (suffix_of : string → string)
  (summary_of : string → option summary) (loads : bytes → option json).

(** The artifact preflight only reports what the environment lacks. *)
Lemma check_readable_quiet file path what :
  quiet (check_readable can_read file path what) (λ _, True).
Proof.
  unfold check_readable. destruct (can_read file); [by apply checks_ret|].
  eapply checks_bind; [by apply checks_complain with (Q := λ _, True)|]. intros; by apply checks_ret.
Qed.

Lemma check_file_quiet name path what :
  quiet (check_file base_dir join is_file can_read name path what) (λ _, True).
Proof.
  unfold check_file. destruct (_ && _).
  - eapply checks_bind; [apply check_readable_quiet|]. intros; by apply checks_ret.
  - eapply checks_bind; [by apply checks_complain with (Q := λ _, True)|]. intros; by apply checks_ret.
Qed.

Lemma check_executable_quiet command path :
  quiet (check_executable base_dir join is_file can_read can_execute env_path command path)
    (λ _, True).
Proof.
  unfold check_executable. destruct (_ || _).
  - eapply checks_bind; [apply check_file_quiet|]. intros; by apply checks_ret.
  - induction (split_colon _) as [|e es IH]; cbn [find_executable]; [by apply checks_complain|].
    destruct (_ && _); [|done]. eapply checks_bind; [apply check_readable_quiet|].
    intros; by apply checks_ret.
Qed.

Lemma check_recording_quiet recording digest path replayed l :
  quiet (check_recording base_dir join is_file can_read digest_of suffix_of summary_of loads
           recording digest path replayed l) (λ _, True).
Proof.
  unfold check_recording. eapply checks_bind; [apply check_file_quiet|].
  intros [file|] _; [|by apply checks_ret].
  destruct (negb _); [by apply checks_complain|].
  destruct (read_channels _ _ _) as [cs|]; [|by apply checks_complain].
  apply checks_fold; [done|]. intros [] [n c] _ _. unfold check_recorded.
  destruct (dget _ _); [|by apply checks_complain].
  destruct (vc_schema_doc _); [|by apply checks_ret]. by apply checks_complain_if.
Qed.

Lemma quiet_map_typed {A} (g : A → json) (test : json → option A) path e l i :
  (∀ x, test (g x) = Some x) →
  quiet (mapC (λ ix, typed ix.2 (path ix.1) test e) (enumerate_from i (g <$> l)))
    (λ r, r = Some <$> l).
Proof.
  intros Ht. revert i. induction l as [|x l IH]; intros i;
    cbn [mapC enumerate_from fmap list_fmap]; [by apply checks_ret|]. cbn [fst snd].
  q_typed x. eapply checks_bind; [apply IH|]. intros ? ->. by apply checks_ret.
Qed.

Lemma check_command_quiet p path cmd :
  dget p "command"%string = Some (strs cmd) → cmd ≠ [] →
  quiet (check_command base_dir join is_file can_read can_execute env_path p path) (λ _, True).
Proof.
  intros Hp Hne. unfold check_command. q_required. q_typed (JStr <$> cmd).
  eapply checks_bind.
  { apply quiet_no_complaint with (Q := λ _, True); [|done].
    rewrite bool_decide_eq_false_2; [done|]. by destruct cmd. }
  intros _ _. eapply checks_bind.
  { by apply (quiet_map_typed JStr as_string (λ i, path ++ [TKey "command"; TIdx i])). }
  intros ? ->. eapply checks_bind with (Q := λ _, True).
  { destruct cmd; [by apply checks_ret|]. apply check_executable_quiet. }
  intros _ _. apply checks_fold; [done|]. intros [] [i a] _ _. cbn [snd fst].
  destruct a; [|by apply checks_ret]. destruct (_ && _); [|by apply checks_ret].
  eapply checks_bind; [apply check_readable_quiet|]. intros; by apply checks_ret.
Qed.

(** *** Each kind of Participant *)

(** The keys of a participant entry, one by one. *)
Ltac get k v := change (dget _ k%string) with (Some v).
Ltac no k := change (dget _ k%string) with (@None json).

Lemma check_native_quiet lib cfg subs pubs path channels :
  let p := [("type"%string, JStr "native"); ("library"%string, JStr lib);
            ("config"%string, JObj cfg); ("subscribes"%string, JArr (route_doc <$> subs));
            ("publishes"%string, strs pubs)] in
  Forall route_ok subs → (∀ n, n ∈ (rt_channel <$> subs) ++ pubs → n ∈ channels.*1) →
  NoDup (rt_channel <$> subs) → NoDup pubs →
  quiet (check_native base_dir join is_file can_read p path channels) (λ r, r = pubs).
Proof.
  intros p Hok Hd Hs Hp. setoid_rewrite elem_of_app in Hd. unfold check_native.
  q_required. q_typed lib. eapply checks_bind; [apply check_file_quiet|]. intros _ _.
  eapply checks_bind.
  { apply checks_fold with (I := λ _, True); [done|]. intros [] k Hk _.
    apply quiet_no_complaint; [|done]. apply negb_false_iff, dmem_true, dget_is_Some.
    repeat (apply elem_of_cons in Hk as [->|Hk]; [by eexists|]). by apply elem_of_nil in Hk. }
  intros _ _. get "config" (JObj cfg). eapply checks_bind.
  { by eapply (quiet_typed _ _ _ _ cfg (λ _, True)). }
  intros _ _. get "subscribes" (JArr (route_doc <$> subs)). eapply checks_bind.
  { apply check_routes_quiet; auto. }
  intros _ _. get "publishes" (strs pubs). apply check_channel_list_quiet; auto.
Qed.

(** The optional keys of a shimmed process. *)
Definition shim_entries (shim : bool) (sleep : string) (threads : option string)
    : list (string * json) :=
  if shim then [("shim"%string, JBool true); ("sleep"%string, JStr sleep)]
               ++ match threads with Some t => [("threads"%string, JStr t)] | None => [] end
  else [].

Section shimmed.
Context (base : list (string * json)) (path : list token).
Context (shim : bool) (sleep : string) (threads : option string).
Context (Hsh : dget base "shim"%string = None) (Hsl : dget base "sleep"%string = None)
  (Hth : dget base "threads"%string = None).
Notation p := (base ++ shim_entries shim sleep threads).

Lemma check_shim_quiet :
  quiet (match dget p "shim"%string with
         | Some v => vboolean v (path ++ [TKey "shim"])
         | None => mret (Some false)
         end) (λ o, o = Some shim).
Proof using Hsh.
  rewrite dget_app_None by done. destruct shim; cbn [shim_entries]; [|by apply checks_ret].
  get "shim" (JBool true). by eapply quiet_typed.
Qed.

Lemma check_sleep_quiet :
  sleep ∈ SLEEP_POLICIES →
  quiet (check_policy p path (Some shim) "sleep" SLEEP_POLICIES) (λ _, True).
Proof using Hsl.
  intros H. unfold check_policy. rewrite dget_app_None by done.
  destruct shim; cbn [shim_entries]; [|by apply checks_ret]. get "sleep" (JStr sleep).
  eapply checks_bind; [by apply quiet_no_complaint with (Q := λ _, True)|]. intros _ _.
  eapply checks_bind; [by apply quiet_choice with (Q := λ _, True)|]. intros; by apply checks_ret.
Qed.

Lemma check_threads_quiet :
  (∀ t, threads = Some t → t ∈ THREAD_POLICIES) →
  quiet (check_policy p path (Some shim) "threads" THREAD_POLICIES) (λ _, True).
Proof using Hth.
  intros H. unfold check_policy. rewrite dget_app_None by done.
  destruct shim; cbn [shim_entries]; [|by apply checks_ret].
  destruct threads as [t|]; [|by apply checks_ret]. get "threads" (JStr t).
  eapply checks_bind; [by apply quiet_no_complaint with (Q := λ _, True)|]. intros _ _.
  eapply checks_bind; [apply quiet_choice with (Q := λ _, True); auto|]. intros; by apply checks_ret.
Qed.
End shimmed.

Definition process_base (cmd : list string) (period : Z) (subs : list route) (pubs : list string)
    (prio : Z) : list (string * json) :=
  [("type"%string, JStr "process"); ("command"%string, strs cmd);
   ("step_period_ns"%string, JInt period); ("subscribes"%string, JArr (route_doc <$> subs));
   ("publishes"%string, strs pubs); ("priority"%string, JInt prio)].

Lemma check_process_quiet cmd period subs pubs prio shim sleep threads path channels :
  let p := process_base cmd period subs pubs prio ++ shim_entries shim sleep threads in
  participant_ok (Process cmd period subs pubs prio shim sleep threads) →
  (∀ n, n ∈ (rt_channel <$> subs) ++ pubs → n ∈ channels.*1) →
  NoDup (rt_channel <$> subs) → NoDup pubs →
  quiet (check_process base_dir join is_file can_read can_execute env_path p path channels)
    (λ r, r = pubs).
Proof.
  intros p (Hcmd & Hper & Hok & Hprio & Hsl & Hth & _) Hd Hs Hp.
  setoid_rewrite elem_of_app in Hd. unfold check_process.
  eapply checks_bind; [by apply check_command_quiet with cmd|]. intros _ _.
  q_required. eapply checks_bind.
  { eapply (quiet_typed _ _ _ _ period (λ _, True)); [by apply as_integer_ok|done]. }
  intros _ _. get "subscribes" (JArr (route_doc <$> subs)). eapply checks_bind.
  { apply check_routes_quiet; auto. }
  intros subs' _. get "priority" (JInt prio). eapply checks_bind.
  { eapply (quiet_typed _ _ _ _ prio (λ _, True)); [by apply as_integer_ok|done]. }
  intros _ _.
  eapply checks_bind; [by apply check_shim_quiet|]. intros ? ->.
  eapply checks_bind; [by apply check_sleep_quiet|]. intros _ _.
  eapply checks_bind; [by apply check_threads_quiet|].
  intros _ _. get "publishes" (strs pubs).
  eapply checks_bind; [apply check_channel_list_quiet; auto|]. intros ? ->.
  eapply checks_bind; [|intros; by apply checks_ret].
  apply checks_fold with (I := λ _, True); [done|]. intros [] n _ _. by apply checks_complain_if.
Qed.

Lemma check_replay_quiet recording hash chans prio path channels :
  let p := [("type"%string, JStr "replay"); ("recording"%string, JStr recording);
            ("recording_hash"%string, JStr hash); ("channels"%string, strs chans)]
           ++ opt_entry "priority" prio in
  chans ≠ [] → opt_ok i32_ok prio → (∀ n, n ∈ chans → n ∈ channels.*1) → NoDup chans →
  quiet (check_replay base_dir join is_file can_read digest_of suffix_of summary_of loads
           p path channels) (λ r, r = chans).
Proof.
  intros p Hne Hprio Hd Hnd. unfold check_replay.
  q_required. q_typed recording. q_required. q_typed hash.
  eapply checks_bind with (Q := λ _, True).
  { destruct prio as [z|]; [|by apply checks_ret]. get "priority" (JInt z).
    eapply quiet_typed; [by apply as_integer_ok, Hprio|done]. }
  intros _ _. q_required. q_typed (JStr <$> chans). eapply checks_bind.
  { apply quiet_no_complaint with (Q := λ _, True); [|done].
    rewrite bool_decide_eq_false_2; [done|]. by destruct chans. }
  intros _ _. eapply checks_bind; [by apply check_channel_list_quiet|]. intros ? ->.
  eapply checks_bind; [apply check_recording_quiet|]. intros. by apply checks_ret.
Qed.

Notation check_participant' := (check_participant base_dir join is_file can_read can_execute
  env_path digest_of suffix_of summary_of loads).

(** The start of [_check_participant], for a known type. *)
Lemma check_participant_known p ty keys t path channels R :
  dget p "type"%string = Some (JStr ty) → dget PARTICIPANT_TYPES ty = Some (keys, t) →
  (ty = "process"%string ∨ ∀ k, k ∈ SHIM_KEYS → k ∉ p.*1) → (∀ k, k ∈ p.*1 → k ∈ keys) →
  quiet (match t with
         | PNative => check_native base_dir join is_file can_read p path channels
         | PProcess => check_process base_dir join is_file can_read can_execute env_path p path
                         channels
         | PReplay => check_replay base_dir join is_file can_read digest_of suffix_of summary_of
                        loads p path channels
         end) R →
  quiet (check_participant' (JObj p) path channels) R.
Proof.
  intros Hty Ht Hshim Hk HR. unfold check_participant. q_typed p. q_required. q_typed ty.
  eapply checks_bind.
  { apply checks_fold with (I := λ _, True); [done|]. intros [] k Hin _.
    apply quiet_no_complaint; [|done]. destruct Hshim as [->|Hshim]; [done|].
    rewrite (proj2 (dmem_false _ _)) by auto. by rewrite andb_false_r. }
  intros _ _. rewrite Ht. eapply checks_bind; [by apply quiet_known_keys with (Q := λ _, True)|].
  intros _ _. destruct t; exact HR.
Qed.

Lemma check_participant_quiet p path channels :
  participant_ok p → (∀ n, n ∈ subscribed p ++ published p → n ∈ channels.*1) →
  NoDup (subscribed p) → NoDup (published p) →
  quiet (check_participant' (participant_doc p) path channels) (λ r, r = published p).
Proof.
  intros Hok Hd Hs Hp.
  destruct p as [lib cfg subs pubs|cmd per subs pubs prio sh sl th|recd hash chans prio].
  - eapply check_participant_known; [reflexivity|reflexivity|right|apply keys_by_computation; reflexivity|].
    + intros k Hk. apply dmem_false.
      repeat (apply elem_of_cons in Hk as [->|Hk]; [reflexivity|]). by apply elem_of_nil in Hk.
    + by apply check_native_quiet.
  - eapply check_participant_known; [reflexivity|reflexivity|by left| |].
    + destruct sh; [destruct th|]; apply keys_by_computation; reflexivity.
    + by apply (check_process_quiet cmd per subs pubs prio sh sl th).
  - eapply check_participant_known; [reflexivity|reflexivity|right| |].
    + intros k Hk. apply dmem_false. destruct prio;
        repeat (apply elem_of_cons in Hk as [->|Hk]; [reflexivity|]); by apply elem_of_nil in Hk.
    + destruct prio; apply keys_by_computation; reflexivity.
    + destruct Hok. by apply check_replay_quiet.
Qed.
End participants.

(** ** The document *)

Lemma Forall2_dget {V} (Q : string → V → Prop) ns (ys : list (string * V)) n :
  Forall2 (λ n y, y.1 = n ∧ Q n y.2) ns ys → n ∈ ns → ∃ v, dget ys n = Some v ∧ Q n v.
Proof.
  induction 1 as [|n' [k v] ns ys [Hk HQ] Hf IH]; [by intros ?%elem_of_nil|].
  cbn in Hk, HQ. subst k. cbn. intros [->|Hin]%elem_of_cons.
  - rewrite decide_True by done. eauto.
  - destruct (decide (n = n')) as [->|]; eauto.
Qed.

Lemma Forall2_keys {V} (Q : string → V → Prop) ns (ys : list (string * V)) :
  Forall2 (λ n y, y.1 = n ∧ Q n y.2) ns ys → ys.*1 = ns.
Proof. induction 1 as [|n [k v] ns ys [Hk HQ] Hf IH]; [done|]. cbn in *. by rewrite Hk, IH. Qed.

Lemma check_one_publisher_quiet path n d chans :
  NoDup chans → (∀ ch, ch ∈ chans → ch ∉ d.*1) →
  quiet (foldC (check_one_publisher path n) d chans) (λ d', d' = d ++ ((., n) <$> chans)).
Proof.
  revert d. induction chans as [|ch chans IH]; intros d Hnd Hd; cbn [foldC].
  { apply checks_ret. by rewrite app_nil_r. }
  apply NoDup_cons in Hnd as [Hn Hnd].
  eapply checks_bind with (Q := λ d', d' = d ++ [(ch, n)]).
  { unfold check_one_publisher. rewrite (proj2 (dget_None _ _)) by (apply Hd; left).
    apply checks_ret. apply dset_keys_new, Hd. left. }
  intros ? ->. eapply checks_mono; [apply IH|]; [done| |].
  - intros c Hc. rewrite fmap_app.
    intros [Hin|Hin%list_elem_of_singleton]%elem_of_app; [by eapply Hd; [right|]|].
    cbn in Hin. congruence.
  - intros ? ->. by rewrite <- (assoc_L (++)).
Qed.

Section document.
Context (base_dir : string) (join : string → string → string)
  (is_file can_read can_execute : string → bool) (env_path : option string)
  (digest_of : string → string) (suffix_of : string → string)
  (summary_of : string → option summary) (loads : bytes → option json).

Notation check_participant' := (check_participant base_dir join is_file can_read can_execute
  env_path digest_of suffix_of summary_of loads).
Notation check_document' := (check_document base_dir join is_file can_read can_execute
  env_path digest_of suffix_of summary_of loads).

Lemma check_publishers_quiet docs channels (pub : string → list string) ns d :
  (∀ n, n ∈ ns → quiet (check_participant' (entry docs n) [TKey "participants"; TKey n] channels)
                   (λ r, r = pub n)) →
  NoDup (mjoin (pub <$> ns)) → (∀ ch, ch ∈ mjoin (pub <$> ns) → ch ∉ d.*1) →
  quiet (foldC (λ publishers n,
    published ← check_participant' (entry docs n) [TKey "participants"; TKey n] channels;
    foldC (check_one_publisher [TKey "participants"; TKey n] n) publishers published) d ns)
    (λ _, True).
Proof.
  revert d. induction ns as [|n ns IH]; intros d Hq Hnd Hd; cbn [foldC]; [by apply checks_ret|].
  cbn [fmap list_fmap mjoin list_join] in Hnd, Hd. setoid_rewrite elem_of_app in Hd.
  apply NoDup_app in Hnd as (H1 & Hx & H2).
  eapply checks_bind.
  { eapply checks_bind; [apply Hq; left|]. intros ? ->. apply check_one_publisher_quiet; auto. }
  intros ? ->. apply IH; [intros; apply Hq; by right|done|].
  intros ch Hch. rewrite fmap_app, fmap_pair_fst, elem_of_app. naive_solver.
Qed.

(** What the builder holds for a Participant's name. *)
Definition published_by (m : manifest) (n : string) : list string :=
  match dget (m_participants m) n with Some p => published p | None => [] end.

Lemma published_by_names m :
  NoDup (m_participants m).*1 →
  published_by m <$> (m_participants m).*1 = (λ np, published np.2) <$> m_participants m.
Proof.
  intros Hn. rewrite <- list_fmap_compose. apply list_fmap_ext. intros i [n p] Hi. cbn.
  unfold published_by. rewrite (dget_elem _ n p); [done..|]. by eapply list_elem_of_lookup_2.
Qed.

Lemma dget_fmap {V} (f : V → json) (d : list (string * V)) n :
  dget ((λ '(n, v), (n, f v)) <$> d) n = f <$> dget d n.
Proof. induction d as [|[k v] d IH]; cbn; [done|]. by destruct (decide (n = k)). Qed.

Lemma fmap_names {V} (f : V → json) (d : list (string * V)) :
  ((λ '(n, v), (n, f v)) <$> d).*1 = d.*1.
Proof. induction d as [|[k v] d IH]; cbn; [done|]. by rewrite IH. Qed.

(** *** The parts of a built document *)

Section built.
Context (m : manifest) (Hm : manifest_ok m).
Context (Hnull : ∀ n s, (n, s) ∈ m_schemas m → no_null_count s).
Context (Hrefs : refs_ok m) (Hsingle : single_publisher m).

Definition manifest_entries : list (string * json) :=
  [("sil_manifest"%string, JInt 1); ("duration_ns"%string, JInt (m_duration_ns m));
   ("schemas"%string, JObj (m_schemas m));
   ("channels"%string, JObj ((λ '(n, c), (n, channel_doc c)) <$> m_channels m));
   ("participants"%string, JObj ((λ '(n, p), (n, participant_doc p)) <$> m_participants m))]
  ++ if m_epoch_ns m =? 0 then [] else [("epoch_ns"%string, JInt (m_epoch_ns m))].

Lemma check_header_quiet : quiet (check_header manifest_entries) (λ _, True).
Proof using Hm.
  unfold check_header. eapply checks_bind.
  { apply quiet_known_keys with (Q := λ _, True); [|done]. unfold manifest_entries.
    destruct (m_epoch_ns m =? 0); apply keys_by_computation; reflexivity. }
  intros _ _. q_required. q_typed 1. eapply checks_bind; [by apply quiet_no_complaint with (Q := λ _, True)|].
  intros _ _. q_required. eapply checks_bind.
  { eapply (quiet_typed _ _ _ _ (m_duration_ns m) (λ _, True)); [|done].
    apply as_integer_ok, (ok_duration _ Hm). }
  intros _ _. pose proof (ok_epoch _ Hm). unfold manifest_entries.
  destruct (m_epoch_ns m =? 0); [by apply checks_ret|].
  change (dget _ "epoch_ns"%string) with (Some (JInt (m_epoch_ns m))).
  eapply checks_bind; [|intros; by apply checks_ret].
  eapply (quiet_typed _ _ _ _ (m_epoch_ns m) (λ _, True)); [by apply as_integer_ok|done].
Qed.

Lemma section_quiet key d :
  dget manifest_entries key = Some (JObj d) → quiet (section manifest_entries key) (λ o, o = Some d).
Proof. intros H. unfold section. q_required. by eapply quiet_typed. Qed.

Lemma check_schemas_quiet :
  quiet (check_schemas (m_schemas m))
    (λ ys, ∀ n s, dget (m_schemas m) n = Some s →
             ∃ l, dget ys n = Some (Some l) ∧ jget s "fields" = Some (JArr l)).
Proof using Hm Hnull.
  unfold check_schemas. eapply checks_mono.
  { apply checks_map with (I := λ n y, y.1 = n ∧ ∃ l, y.2 = Some l
      ∧ jget (entry (m_schemas m) n) "fields" = Some (JArr l)).
    intros n [s Hs]%sorted_names_elem%dget_is_Some. unfold entry. rewrite Hs. cbn [default from_option id].
    pose proof (dget_Some _ _ _ Hs) as Hin. destruct (ok_schemas _ Hm _ _ Hin) as [fs Hfs].
    eapply checks_bind; [by eapply vcheck_schema_quiet, Hnull|].
    intros o (l & -> & Hl). apply checks_ret. split; [done|]. by exists l. }
  intros ys Hys n s Hs.
  assert (n ∈ sorted_names (m_schemas m)) as Hn by (apply sorted_names_elem, dget_is_Some; eauto).
  apply (Forall2_dget (λ n v, ∃ l, v = Some l ∧ jget (entry (m_schemas m) n) "fields" = Some (JArr l))
    _ _ _ Hys) in Hn as (v & Hv & l & -> & Hl).
  unfold entry in Hl. rewrite Hs in Hl. by exists l.
Qed.

Lemma check_channels_quiet docs schemas :
  (∀ n s, dget (m_schemas m) n = Some s →
     ∃ l, dget schemas n = Some (Some l) ∧ jget s "fields" = Some (JArr l)) →
  quiet (check_channels ((λ '(n, c), (n, channel_doc c)) <$> m_channels m) docs schemas)
    (λ ys, ∀ n, n ∈ (m_channels m).*1 → n ∈ ys.*1).
Proof using Hm Hnull.
  intros Hsch. unfold check_channels. eapply checks_mono.
  { apply checks_map with (I := λ n (y : string * vchannel), y.1 = n ∧ True).
    intros n Hn%sorted_names_elem. rewrite fmap_names in Hn. apply dget_is_Some in Hn as [c Hc].
    unfold entry. rewrite dget_fmap, Hc. cbn [fmap option_fmap option_map default from_option id].
    pose proof (dget_Some _ _ _ Hc) as Hin. eapply checks_bind.
    { eapply vcheck_channel_quiet; [by eapply (ok_channels _ Hm)| |done].
      intros s Hs. eapply Hnull. by eapply dget_Some. }
    intros. by apply checks_ret. }
  intros ys Hys n Hn. rewrite (Forall2_keys (λ _ _, True) _ _ Hys).
  apply sorted_names_elem. by rewrite fmap_names.
Qed.

Lemma check_participants_quiet channels :
  (∀ n, n ∈ (m_channels m).*1 → n ∈ channels.*1) →
  quiet (check_participants base_dir join is_file can_read can_execute env_path digest_of suffix_of
           summary_of loads ((λ '(n, p), (n, participant_doc p)) <$> m_participants m) channels)
    (λ _, True).
Proof using Hm Hrefs Hsingle.
  intros Hch. unfold check_participants.
  pose proof (ok_participant_names _ Hm) as Hnames.
  assert (mjoin (published_by m <$> sorted_names ((λ '(n, p), (n, participant_doc p)) <$> m_participants m))
          ≡ₚ mjoin ((λ np, published np.2) <$> m_participants m)) as Hperm.
  { unfold sorted_names. rewrite merge_sort_Permutation, fmap_names. by rewrite published_by_names. }
  apply check_publishers_quiet with (pub := published_by m).
  - intros n Hn%sorted_names_elem. rewrite fmap_names in Hn. apply dget_is_Some in Hn as [p Hp].
    unfold entry, published_by. rewrite dget_fmap, Hp. cbn [fmap option_fmap option_map default from_option id].
    pose proof (dget_Some _ _ _ Hp) as Hin. destruct (Hrefs _ _ Hin) as (Hd & Hs & Hpub).
    apply check_participant_quiet; auto. by eapply (ok_participants _ Hm).
  - rewrite Hperm. apply NoDup_published; [done| |exact Hsingle]. intros n p Hin. apply (Hrefs _ _ Hin).
  - by intros ? _ ?%elem_of_nil.
Qed.

Lemma check_document_quiet : Forall tolerated (check_document' (manifest_doc m)).
Proof using Hm Hnull Hrefs Hsingle.
  unfold check_document. set (k := vobject _ [] ≫= _).
  enough (quiet k (λ _, True)) as H by apply H. subst k.
  change (manifest_doc m) with (JObj manifest_entries). q_typed manifest_entries.
  eapply checks_bind; [apply check_header_quiet|]. intros _ _.
  eapply checks_bind; [by apply section_quiet|]. intros ? ->.
  eapply checks_bind; [apply check_schemas_quiet|]. intros schemas Hs.
  eapply checks_bind; [by apply section_quiet|]. intros ? ->.
  eapply checks_bind; [by apply check_channels_quiet|]. intros channels Hc.
  eapply checks_bind; [by apply section_quiet|]. intros ? ->.
  eapply checks_bind; [by apply check_participants_quiet|]. intros. by apply checks_ret.
Qed.
End built.
End document.

(** C3. The document of an authored Manifest passes the check: whatever the
    file system holds, every problem the check reports is about an artifact
    (a missing or unreadable file, a Recording that differs), an Arena too large
    for [size_t], or a shm Channel one Process uses in both directions, provided
    no field spec has a null count. *)
Theorem built_document_checks base_dir join is_file can_read can_execute env_path digest_of suffix_of
    summary_of loads path_str file_digest d e m0 tr m doc :
  new_manifest d e = Ok m0 → reachable (authoring_step path_str file_digest) m0 tr m →
  to_doc m = Ok doc → (∀ n s, (n, s) ∈ m_schemas m → no_null_count s) →
  ∀ pr, pr ∈ check_document base_dir join is_file can_read can_execute env_path digest_of suffix_of
               summary_of loads doc → environmental (pr_what pr) = true.
Proof.
  intros Hn Hr Hdoc Hnull. pose proof (authored_ok _ _ _ _ _ _ _ Hn Hr) as Hm.
  unfold to_doc in Hdoc. apply bind_Ok in Hdoc as ([] & Hv & [= <-]).
  apply validate_builder_Ok in Hv as [Hrefs Hsingle]; [|apply Hm].
  pose proof (check_document_quiet base_dir join is_file can_read can_execute env_path digest_of
    suffix_of summary_of loads m Hm Hnull Hrefs Hsingle) as Hq.
  intros pr Hpr. exact (proj1 (Forall_forall _ _) Hq pr Hpr).
Qed.

Definition demo_manifest : manifest := foldl (exec id demo_digest) demo_start demo_ops.

(** The check of a document where no file exists. *)
Definition demo_check (doc : json) : list problem :=
  check_document "/m" (λ a b, a) (λ _, false) (λ _, false) (λ _, false) None (λ _, "") (λ _, "")
    (λ _, None) (λ _, None) doc.

Lemma demo_no_null n s : (n, s) ∈ m_schemas demo_manifest → no_null_count s.
Proof.
  change (m_schemas demo_manifest) with [("Vehicle"%string, demo_schema)].
  intros [= _ ->]%list_elem_of_singleton l f [= <-] Hf.
  repeat (apply elem_of_cons in Hf as [->|Hf]; [discriminate|]). by apply elem_of_nil in Hf.
Qed.

Lemma built_document_checks_witness :
  map pr_what (demo_check (manifest_doc demo_manifest))
  = [CNotOnPath "python3"; CNotAFile "Native library" "libplant.so"]
  ∧ ∀ pr, pr ∈ demo_check (manifest_doc demo_manifest) → environmental (pr_what pr) = true.
Proof.
  split; [vm_compute; reflexivity|].
  refine (built_document_checks _ _ _ _ _ _ _ _ _ _ id demo_digest (JInt 1000000) (JInt 0) demo_start
    demo_ops demo_manifest (manifest_doc demo_manifest) _ _ _ demo_no_null).
  - vm_compute. reflexivity.
  - apply run_reachable.
  - vm_compute. reflexivity.
Defined.

(** A field spec with a null count. *)
Definition null_schema : json :=
  JObj [("fields", JArr [JObj [("name", JStr "x"); ("type", JStr "u8"); ("count", JNull)]])]%string.

(** The builder and the check differ on a null count: the builder accepts
    the schema and emits it unchanged, and the check refuses the document. *)
Theorem null_count_refused :
  ∃ m doc, add_schemas demo_start (JObj [("S"%string, null_schema)]) = (m, None)
           ∧ to_doc m = Ok doc
           ∧ map pr_what (demo_check doc) = [CExpected "an integer" JNull].
Proof.
  exists (add_schemas demo_start (JObj [("S"%string, null_schema)])).1.
  exists (manifest_doc (add_schemas demo_start (JObj [("S"%string, null_schema)])).1).
  split; [|split]; vm_compute; reflexivity.
Qed.
