(* ===== verification/ManifestSound.v ===== *)
(** * What an accepted Manifest document guarantees

    A document [_check_document] finds no problem in has schemas the codec of
    Schema.v reads, Channels whose schema is declared, Participants that list
    declared Channels only, each once, and one publisher per Channel. *)

From Stdlib Require Import ZArith Lia.
From S2P Require Import Prelude PyFloat Json SchemaTypes Schema Pointer Recording Manifest ManifestValidate.

(** ** Checks without problems *)

Section clean_rules.
Lemma clean_ret {A} (a : A) (Q : A → Prop) : Q a → clean (mret a) Q.
Proof. by intros ? _. Qed.
Lemma clean_bind {A B} (m : check A) (f : A → check B) Q R :
  clean m Q → (∀ a, Q a → clean (f a) R) → clean (m ≫= f) R.
Proof. intros Hm Hf [H1 H2]%app_eq_nil. by apply Hf; [apply Hm|]. Qed.
(** A step whose outcome does not matter. *)
Lemma clean_skip {A B} (m : check A) (f : A → check B) R :
  (∀ a, clean (f a) R) → clean (m ≫= f) R.
Proof. intros Hf [_ H]%app_eq_nil. by apply Hf. Qed.
Lemma clean_mono {A} (m : check A) (Q R : A → Prop) :
  clean m Q → (∀ a, Q a → R a) → clean m R.
Proof. intros Hm HQ H. auto. Qed.
Lemma clean_complain {B} path what (f : () → check B) R : clean (complain path what ≫= f) R.
Proof. intros H. discriminate. Qed.
Lemma clean_complain_if b path what (Q : () → Prop) :
  (b = false → Q ()) → clean (complain_if b path what) Q.
Proof. destruct b; [intros _ H; discriminate|]. intros H _. auto. Qed.
Lemma clean_typed {A} v path (test : json → option A) e (Q : option A → Prop) :
  (∀ a, test v = Some a → Q (Some a)) → clean (typed v path test e) Q.
Proof.
  unfold typed. destruct (test v); intros H; [by apply clean_ret, H|]. apply clean_complain.
Qed.
Lemma clean_required d k path (Q : option json → Prop) :
  (∀ v, dget d k = Some v → Q (Some v)) → clean (required d k path) Q.
Proof.
  unfold required. destruct (dget d k) as [[]|]; intros H; try apply clean_complain;
    by apply clean_ret, H.
Qed.
Lemma clean_choice v path cs what (Q : option string → Prop) :
  (∀ s, v = JStr s → s ∈ cs → Q (Some s)) → clean (choice v path cs what) Q.
Proof.
  intros H. unfold choice. eapply clean_bind with (Q := λ o, ∃ s, o = Some s ∧ v = JStr s).
  - apply clean_typed. intros s Hs. exists s. split; [done|]. destruct v; cbn in Hs; congruence.
  - intros o (s & -> & ->). case_bool_decide; [|apply clean_complain]. apply clean_ret. auto.
Qed.
Lemma clean_known_keys d path allowed (Q : () → Prop) :
  ((∀ k, k ∈ d.*1 → k ∈ allowed) → Q ()) → clean (known_keys d path allowed) Q.
Proof.
  intros HQ Hc. destruct (value _). apply HQ. clear HQ. unfold known_keys in Hc.
  induction (d.*1) as [|k ks IH]; [by intros ? ?%elem_of_nil|]. cbn [foldC] in Hc.
  apply app_eq_nil in Hc as [H1 H2]. case_bool_decide as Hk; [|discriminate].
  intros k' [->|Hk']%elem_of_cons; [done|]. apply IH; [|done].
  by destruct (value _).
Qed.
End clean_rules.

(** ** Schemas *)

(** A schema the codec of Schema.v reads, with a byte size within [size_t]. *)
Definition codec_schema (s : json) (fs : list field) : Prop :=
  fields_of_json s = Some fs ∧ fs ≠ [] ∧ NoDup (fd_name <$> fs)
  ∧ Forall (λ f, fd_count f ≠ Some 0%nat) fs ∧ Z.of_nat (mt_size fs) ≤ u64_max.

Lemma as_integer_Some lo hi v z : as_integer lo hi v = Some z → v = JInt z ∧ lo ≤ z ≤ hi.
Proof.
  destruct v; cbn; try discriminate. destruct (in_range lo hi z0) eqn:H; [|discriminate].
  intros [= <-]. by apply in_range_true in H.
Qed.

Lemma as_string_Some v s : as_string v = Some s → v = JStr s.
Proof. destruct v; cbn; congruence. Qed.

Lemma types_listed ty : ty ∈ names_of_types → ∃ p, prim_of_name ty = Some p.
Proof. intros H. unfold prim_of_name. by apply dget_is_Some in H. Qed.

Lemma check_field_keys_clean d path :
  clean (check_field_keys d path)
    (λ r, ∃ f, field_of_json (JObj d) = Some f ∧ fd_count f ≠ Some 0%nat
               ∧ r = (Some (fd_name f), Some (prim_name (fd_type f)),
                      Some (Z.of_nat (default 1%nat (fd_count f))))).
Proof.
  unfold check_field_keys. apply clean_skip. intros _.
  eapply clean_bind with (Q := λ o, ∃ v, dget d "name"%string = Some v ∧ o = Some v).
  { apply clean_required. eauto. }
  intros ? (nv & Hn & ->). cbn [when_some].
  eapply clean_bind with (Q := λ o, ∃ n, nv = JStr n ∧ o = Some n).
  { apply clean_typed. intros n ->%as_string_Some. eauto. }
  intros ? (n & -> & ->).
  eapply clean_bind with (Q := λ o, ∃ v, dget d "type"%string = Some v ∧ o = Some v).
  { apply clean_required. eauto. }
  intros ? (tv & Ht & ->). cbn [when_some].
  eapply clean_bind with (Q := λ o, ∃ p, tv = JStr (prim_name p) ∧ o = Some (prim_name p)).
  { apply clean_choice. intros s -> [p Hp]%types_listed. apply prim_of_name_Some in Hp as ->. eauto. }
  intros ? (p & -> & ->). unfold field_of_json. cbn [jget]. rewrite Hn, Ht, prim_of_name_name.
  cbn [mbind option_bind]. destruct (dget d "count"%string) as [cv|].
  - eapply clean_bind with (Q := λ o, ∃ z, cv = JInt z ∧ 1 ≤ z ∧ o = Some z).
    { apply clean_typed. intros z [-> ?]%as_integer_Some. exists z. split_and!; [done|lia|done]. }
    intros ? (z & -> & Hz & ->). apply clean_ret. destruct (z <? 0) eqn:?; [lia|].
    exists (mk_field n p (Some (Z.to_nat z))). cbn. split_and!; [done| |repeat f_equal; lia].
    intros [= ?]. lia.
  - eapply clean_bind; [by apply clean_ret with (Q := λ o, o = Some 1)|]. intros ? ->.
    apply clean_ret. by exists (mk_field n p None).
Qed.

Lemma mt_size_field f fs :
  Z.of_nat (mt_size (f :: fs))
  = type_size (prim_name (fd_type f)) * Z.of_nat (default 1%nat (fd_count f)) + Z.of_nat (mt_size fs).
Proof.
  unfold type_size. rewrite prim_of_name_name, mt_size_cons, Nat2Z.inj_add, field_size_Z. done.
Qed.

Lemma check_schema_fields_clean path l i names sz :
  sz ≤ u64_max →
  clean (check_schema_fields path true names sz (enumerate_from i l))
    (λ _, ∃ fs, mapM field_of_json l = Some fs ∧ Forall (λ f, fd_count f ≠ Some 0%nat) fs
                ∧ NoDup (fd_name <$> fs) ∧ (∀ f, f ∈ fs → fd_name f ∉ names)
                ∧ sz + Z.of_nat (mt_size fs) ≤ u64_max).
Proof.
  revert i names sz. induction l as [|x l IH]; intros i names sz Hsz;
    cbn [check_schema_fields enumerate_from].
  { apply clean_ret. exists []. split_and!; try constructor; [by intros ? ?%elem_of_nil|].
    cbn. lia. }
  eapply clean_bind with (Q := λ o, ∃ d, x = JObj d ∧ o = Some d).
  { apply clean_typed. intros d ->%as_object_Some. eauto. }
  intros ? (d & -> & ->). eapply clean_bind; [apply check_field_keys_clean|].
  intros ? (f & Hf & Hc & ->). cbv beta iota.
  eapply clean_bind with (Q := λ _, fd_name f ∉ names).
  { apply clean_complain_if. intros H. by apply bool_decide_eq_false in H. }
  intros _ Hn. rewrite bool_decide_eq_false_2 by done. cbn [negb andb].
  destruct (u64_max <? _) eqn:Hov; [apply clean_complain|].
  eapply clean_mono; [apply IH; lia|].
  intros _ (fs & Hfs & Hcs & Hnd & Hdis & Hle). exists (f :: fs). split_and!.
  - cbn [mapM]. by rewrite Hf, Hfs.
  - by constructor.
  - rewrite fmap_cons. apply NoDup_cons. split; [|done].
    intros (g & Heq & Hg)%list_elem_of_fmap. apply (Hdis g Hg). rewrite <- Heq. left.
  - intros g [->|Hg]%elem_of_cons; [done|]. intros Hin. apply (Hdis g Hg). by right.
  - rewrite mt_size_field. lia.
Qed.

Lemma vcheck_schema_clean s path :
  clean (vcheck_schema s path) (λ _, ∃ fs, codec_schema s fs).
Proof.
  unfold vcheck_schema. eapply clean_bind with (Q := λ o, ∃ d, s = JObj d ∧ o = Some d).
  { apply clean_typed. intros d ->%as_object_Some. eauto. }
  intros ? (d & -> & ->). cbn [when_some]. apply clean_skip. intros _.
  eapply clean_bind with (Q := λ o, ∃ v, dget d "fields"%string = Some v ∧ o = Some v).
  { apply clean_required. eauto. }
  intros ? (v & Hv & ->). cbn [when_some].
  eapply clean_bind with (Q := λ o, ∃ l, v = JArr l ∧ o = Some l).
  { apply clean_typed. intros l ->%as_array_Some. eauto. }
  intros ? (l & -> & ->). cbn [when_some]. case_bool_decide as Hl; [apply clean_complain|].
  eapply clean_bind; [apply check_schema_fields_clean; unfold u64_max; lia|].
  intros o (fs & Hfs & Hc & Hnd & _ & Hle). apply clean_ret. exists fs.
  unfold codec_schema, fields_of_json. cbn [jget]. rewrite Hv. split_and!; try done.
  intros ->. apply mapM_Some in Hfs. inversion Hfs. by subst.
Qed.

(** ** Channels *)

Lemma vcheck_channel_clean c path docs schemas :
  clean (vcheck_channel c path docs schemas)
    (λ _, ∃ n, jget c "schema" = Some (JStr n) ∧ n ∈ schemas.*1).
Proof.
  unfold vcheck_channel. eapply clean_bind with (Q := λ o, ∃ d, c = JObj d ∧ o = Some d).
  { apply clean_typed. intros d ->%as_object_Some. eauto. }
  intros ? (d & -> & ->). apply clean_skip. intros _.
  eapply clean_bind with (Q := λ _, ∃ n, jget (JObj d) "schema" = Some (JStr n) ∧ n ∈ schemas.*1).
  { unfold check_schema_ref.
    eapply clean_bind with (Q := λ o, ∃ v, dget d "schema"%string = Some v ∧ o = Some v).
    { apply clean_required. eauto. }
    intros ? (v & Hv & ->). cbn [when_some].
    eapply clean_bind with (Q := λ o, ∃ n, v = JStr n ∧ o = Some n).
    { apply clean_typed. intros n ->%as_string_Some. eauto. }
    intros ? (n & -> & ->). destruct (dget schemas n) eqn:Hs; [|apply clean_complain].
    apply clean_ret. exists n. split; [done|]. apply dget_is_Some. by eexists. }
  intros [sch fields] H. do 4 (apply clean_skip; intros ?). by apply clean_ret.
Qed.

(** ** Lists of Channels *)

(** Names kept one by one, all declared and different. *)
Definition kept (channels : list (string * vchannel)) (names : list string) : Prop :=
  NoDup names ∧ ∀ n, n ∈ names → n ∈ channels.*1.

Lemma keep_reference_clean name path channels seen :
  kept channels seen →
  clean (keep_reference (Some name) path channels seen)
    (λ r, r = seen ++ [name] ∧ kept channels r).
Proof.
  intros [Hnd Hd]. unfold keep_reference.
  eapply clean_bind with (Q := λ b, b = true ∧ name ∈ channels.*1 ∧ name ∉ seen).
  - unfold check_reference. destruct (dmem channels name) eqn:Hm; cbn [negb]; [|apply clean_complain].
    case_bool_decide; [apply clean_complain|]. apply clean_ret. by apply dmem_true in Hm.
  - intros ? (-> & Hin & Hnew). apply clean_ret. split; [done|]. split.
    + apply NoDup_app. split_and!; [done| |apply NoDup_singleton].
      intros x Hx ->%list_elem_of_singleton. done.
    + intros n [Hn|Hn%list_elem_of_singleton]%elem_of_app; [auto|by subst].
Qed.

(** A loop that keeps the name of each item. *)
Lemma kept_loop channels (f : list string → nat * json → check (list string))
    (name : json → string → Prop) l i seen :
  (∀ seen i x, x ∈ l → kept channels seen →
     clean (f seen (i, x)) (λ r, ∃ n, name x n ∧ r = seen ++ [n] ∧ kept channels r)) →
  kept channels seen →
  clean (foldC f seen (enumerate_from i l))
    (λ r, kept channels r ∧ ∃ ns, r = seen ++ ns ∧ Forall2 name l ns).
Proof.
  revert i seen. induction l as [|x l IH]; intros i seen Hf Hk; cbn [foldC enumerate_from].
  { apply clean_ret. split; [done|]. exists []. by rewrite app_nil_r. }
  eapply clean_bind; [apply Hf; [left|done]|]. intros ? (n & Hn & -> & Hk').
  eapply clean_mono; [apply IH; [|done]|].
  - intros. apply Hf; [by right|done].
  - intros r (Hr & ns & -> & Hns). split; [done|]. exists (n :: ns). split; [|by constructor].
    by rewrite <- (assoc_L (++)).
Qed.

Lemma check_channel_list_clean v path channels :
  clean (check_channel_list v path channels)
    (λ names, v = JArr (JStr <$> names) ∧ kept channels names).
Proof.
  unfold check_channel_list. eapply clean_bind with (Q := λ o, ∃ l, v = JArr l ∧ o = Some l).
  { apply clean_typed. intros l ->%as_array_Some. eauto. }
  intros ? (l & -> & ->). eapply clean_mono.
  { apply (kept_loop channels) with (name := λ x n, x = JStr n).
    - intros seen i x _ Hk. cbn [fst snd].
      eapply clean_bind with (Q := λ o, ∃ n, x = JStr n ∧ o = Some n).
      { apply clean_typed. intros n ->%as_string_Some. eauto. }
      intros ? (n & -> & ->). eapply clean_mono; [by apply keep_reference_clean|]. naive_solver.
    - split; [constructor|by intros ? ?%elem_of_nil]. }
  intros r (Hk & ns & -> & Hns). split; [|done]. f_equal. cbn [app].
  clear -Hns. cbn in Hns. induction Hns; cbn; congruence.
Qed.

(** The Channel a route names. *)
Definition route_names (r : json) (ch : string) : Prop :=
  r = JStr ch ∨ jget r "channel" = Some (JStr ch).

Lemma check_routes_clean v path channels :
  clean (check_routes v path channels)
    (λ names, ∃ l, v = JArr l ∧ Forall2 route_names l names ∧ kept channels names).
Proof.
  unfold check_routes. eapply clean_bind with (Q := λ o, ∃ l, v = JArr l ∧ o = Some l).
  { apply clean_typed. intros l ->%as_array_Some. eauto. }
  intros ? (l & -> & ->). eapply clean_mono.
  { apply (kept_loop channels) with (name := route_names).
    - intros seen i x _ Hk. cbn [fst snd].
      assert (∀ n p, route_names x n →
        clean (keep_reference (Some n) p channels seen)
          (λ r, ∃ n, route_names x n ∧ r = seen ++ [n] ∧ kept channels r)) as Hkeep.
      { intros. eapply clean_mono; [by apply keep_reference_clean|]. naive_solver. }
      unfold check_route. destruct x as [| | | |s| |d]; 
        try (eapply clean_bind; [by apply clean_typed with (Q := λ _, False)|done]);
        [apply Hkeep; by left|].
      eapply clean_bind with (Q := λ o, o = Some d); [by apply clean_typed; intros ? [= ->]|].
      intros ? ->. apply clean_skip. intros _.
      eapply clean_bind with (Q := λ o, ∃ v, dget d "channel"%string = Some v ∧ o = Some v).
      { apply clean_required. eauto. }
      intros ? (v & Hv & ->). cbn [when_some].
      eapply clean_bind with (Q := λ o, ∃ n, v = JStr n ∧ o = Some n).
      { apply clean_typed. intros n ->%as_string_Some. eauto. }
      intros ? (n & -> & ->). apply clean_skip. intros _. apply Hkeep. by right.
    - split; [constructor|by intros ? ?%elem_of_nil]. }
  intros r (Hk & ns & -> & Hns). by exists l.
Qed.

(** ** Participants *)

(** The participant entry lists the Channel under a key. *)
Definition lists (p : json) (k ch : string) : Prop :=
  ∃ l, jget p k = Some (JArr l) ∧ JStr ch ∈ l.
Definition publishes (p : json) (ch : string) : Prop :=
  lists p "publishes" ch ∨ lists p "channels" ch.
Definition subscribes (p : json) (ch : string) : Prop :=
  ∃ l r, jget p "subscribes" = Some (JArr l) ∧ r ∈ l ∧ route_names r ch.

(** What a check of a Participant returns: the Channels it publishes. *)
Definition participant_checked (channels : list (string * vchannel)) (p : json)
    (names : list string) : Prop :=
  kept channels names ∧ (∀ ch, publishes p ch → ch ∈ names)
  ∧ (∀ ch, subscribes p ch → ch ∈ channels.*1).

Lemma lists_names p k names ch :
  jget p k = Some (JArr (JStr <$> names)) → lists p k ch → ch ∈ names.
Proof.
  intros H (l & Hl & Hin). rewrite H in Hl. injection Hl as <-.
  apply list_elem_of_fmap in Hin as (? & [= <-] & ?). done.
Qed.

Lemma kept_nil channels : kept channels [].
Proof. split; [constructor|by intros ? ?%elem_of_nil]. Qed.

Lemma route_subscribed p l names ch :
  jget p "subscribes" = Some (JArr l) → Forall2 route_names l names → subscribes p ch → ch ∈ names.
Proof.
  intros H Hl (l' & r & Hl' & Hr & Hch). rewrite H in Hl'. injection Hl' as <-.
  apply list_elem_of_lookup in Hr as [i Hi].
  destruct (Forall2_lookup_l _ _ _ _ _ Hl Hi) as (n & Hn & [Hrn|Hrn]); destruct Hch as [Hch|Hch];
    subst; try discriminate; simplify_eq; by eapply list_elem_of_lookup_2.
Qed.

(** The optional ["subscribes"] and ["publishes"] lists of an entry. *)
Lemma optional_routes_clean p path channels :
  clean (match dget p "subscribes"%string with
         | Some v => check_routes v path channels
         | None => mret []
         end) (λ _, ∀ ch, subscribes (JObj p) ch → ch ∈ channels.*1).
Proof.
  destruct (dget p "subscribes"%string) as [v|] eqn:Hs.
  - eapply clean_mono; [apply check_routes_clean|]. intros names (l & -> & Hl & _ & Hk) ch Hch.
    apply Hk. exact (route_subscribed (JObj p) l names ch Hs Hl Hch).
  - apply clean_ret. intros ch (l & r & Hl & _). cbn in Hl. congruence.
Qed.

(** The list of published names, once ["channels"] is known to be no key. *)
Lemma publishes_clean p path channels :
  dget p "channels"%string = None → (∀ ch, subscribes (JObj p) ch → ch ∈ channels.*1) →
  ∀ v, dget p "publishes"%string = Some v →
  clean (check_channel_list v path channels) (participant_checked channels (JObj p)).
Proof.
  intros Hc Hs v Hv. eapply clean_mono; [apply check_channel_list_clean|].
  intros names [-> Hk]. split; [done|]. split; [|done]. intros ch [Hl|(l & Hl & _)].
  - by apply (lists_names (JObj p) _ names) in Hl.
  - cbn in Hl. congruence.
Qed.

Lemma no_publishes p channels :
  dget p "channels"%string = None → dget p "publishes"%string = None →
  (∀ ch, subscribes (JObj p) ch → ch ∈ channels.*1) → participant_checked channels (JObj p) [].
Proof.
  intros Hc Hp Hs. split; [apply kept_nil|]. split; [|done].
  intros ch [(l & Hl & _)|(l & Hl & _)]; cbn in Hl; congruence.
Qed.

Section participants.
Context (base_dir : string) (join : string → string → string)
  (is_file can_read can_execute : string → bool) (env_path : option string)
  (digest_of : string → string) (suffix_of : string → string)
  (summary_of : string → option summary) (loads : bytes → option json).

Lemma check_native_clean p path channels :
  dget p "channels"%string = None →
  clean (check_native base_dir join is_file can_read p path channels)
    (participant_checked channels (JObj p)).
Proof.
  intros Hc. unfold check_native. do 5 (apply clean_skip; intros ?).
  eapply clean_bind; [apply optional_routes_clean|]. intros ? Hs.
  destruct (dget p "publishes"%string) as [v|] eqn:Hp; [|by apply clean_ret, no_publishes].
  by eapply publishes_clean.
Qed.

Lemma check_process_clean p path channels :
  dget p "channels"%string = None →
  clean (check_process base_dir join is_file can_read can_execute env_path p path channels)
    (participant_checked channels (JObj p)).
Proof.
  intros Hc. unfold check_process. do 3 (apply clean_skip; intros ?).
  eapply clean_bind; [apply optional_routes_clean|]. intros subs Hs.
  do 4 (apply clean_skip; intros ?).
  destruct (dget p "publishes"%string) as [v|] eqn:Hp; [|by apply clean_ret, no_publishes].
  eapply clean_bind; [by eapply publishes_clean|]. intros names Hn.
  apply clean_skip. intros _. by apply clean_ret.
Qed.

Lemma check_replay_clean p path channels :
  dget p "subscribes"%string = None → dget p "publishes"%string = None →
  clean (check_replay base_dir join is_file can_read digest_of suffix_of summary_of loads
           p path channels) (participant_checked channels (JObj p)).
Proof.
  intros Hs Hp. unfold check_replay. do 5 (apply clean_skip; intros ?).
  eapply clean_bind with (Q := λ o, ∃ v, dget p "channels"%string = Some v ∧ o = Some v).
  { apply clean_required. eauto. }
  intros ? (v & Hv & ->). cbn [when_some].
  eapply clean_bind with (Q := λ o, ∃ l, v = JArr l ∧ o = Some l).
  { apply clean_typed. intros l ->%as_array_Some. eauto. }
  intros ? (l & -> & ->). apply clean_skip. intros _.
  eapply clean_bind; [apply check_channel_list_clean|]. intros names [Hl Hk].
  apply clean_skip. intros _. apply clean_ret. split; [done|]. split.
  - intros ch [(l' & Hl' & _)|Hch]; [cbn in Hl'; congruence|]. apply (lists_names (JObj p) "channels" names); [|done].
    cbn. rewrite Hv. congruence.
  - intros ch (l' & r & Hl' & _). cbn in Hl'. congruence.
Qed.

Notation check_participant' := (check_participant base_dir join is_file can_read can_execute
  env_path digest_of suffix_of summary_of loads).

Lemma check_participant_clean p path channels :
  clean (check_participant' p path channels) (participant_checked channels p).
Proof.
  unfold check_participant. eapply clean_bind with (Q := λ o, ∃ d, p = JObj d ∧ o = Some d).
  { apply clean_typed. intros d ->%as_object_Some. eauto. }
  intros ? (d & -> & ->).
  eapply clean_bind with (Q := λ o, ∃ v, o = Some v); [apply clean_required; eauto|].
  intros ? (v & ->). cbn [when_some].
  eapply clean_bind with (Q := λ o, ∃ n, o = Some n); [apply clean_typed; eauto|].
  intros ? (ty & ->). apply clean_skip. intros _.
  destruct (dget PARTICIPANT_TYPES ty) as [[keys t]|] eqn:Hty; [|apply clean_complain].
  eapply clean_bind with (Q := λ _, ∀ k, k ∉ keys → dget d k = None).
  { apply clean_known_keys. intros Hk k Hn. apply dget_None. auto. }
  intros _ Hk. apply dget_Some in Hty.
  repeat (apply elem_of_cons in Hty as [[= -> -> ->]|Hty]); [..|by apply elem_of_nil in Hty].
  - apply check_native_clean, Hk. by apply (bool_decide_unpack _).
  - apply check_process_clean, Hk. by apply (bool_decide_unpack _).
  - apply check_replay_clean; apply Hk; by apply (bool_decide_unpack _).
Qed.
End participants.

(** ** The document *)

Lemma clean_map {A B} (f : A → check B) (Q : A → B → Prop) l :
  (∀ x, x ∈ l → clean (f x) (Q x)) → clean (mapC f l) (λ ys, Forall2 Q l ys).
Proof.
  induction l as [|x l IH]; intros Hf; cbn [mapC]; [apply clean_ret; constructor|].
  eapply clean_bind; [apply Hf; left|]. intros y Hy. eapply clean_bind.
  { apply IH. intros. apply Hf. by right. }
  intros ys Hys. apply clean_ret. by constructor.
Qed.

Lemma check_one_publisher_clean path n d chans :
  clean (foldC (check_one_publisher path n) d chans)
    (λ d', (∀ ch, ch ∈ chans → ch ∉ d.*1) ∧ ∀ ch, ch ∈ chans ∨ ch ∈ d.*1 → ch ∈ d'.*1).
Proof.
  revert d. induction chans as [|ch chans IH]; intros d; cbn [foldC].
  { apply clean_ret. split; [by intros ? ?%elem_of_nil|]. by intros ch [?%elem_of_nil|?]. }
  eapply clean_bind with (Q := λ d1, ch ∉ d.*1 ∧ d1 = d ++ [(ch, n)]).
  { unfold check_one_publisher. destruct (dget d ch) eqn:Hg; [apply clean_complain|].
    apply dget_None in Hg. apply clean_ret. split; [done|]. by apply dset_keys_new. }
  intros ? [Hn ->]. eapply clean_mono; [apply IH|]. intros d' [H1 H2].
  setoid_rewrite fmap_app in H1. setoid_rewrite fmap_app in H2.
  setoid_rewrite elem_of_app in H1. setoid_rewrite elem_of_app in H2.
  setoid_rewrite elem_of_cons. split; [naive_solver|].
  intros c [[->|Hc]|Hc]; apply H2; [right; right; left|by left|by right; left].
Qed.

Section document.
Context (base_dir : string) (join : string → string → string)
  (is_file can_read can_execute : string → bool) (env_path : option string)
  (digest_of : string → string) (suffix_of : string → string)
  (summary_of : string → option summary) (loads : bytes → option json).

Notation check_participants' := (check_participants base_dir join is_file can_read can_execute
  env_path digest_of suffix_of summary_of loads).
Notation check_document' := (check_document base_dir join is_file can_read can_execute
  env_path digest_of suffix_of summary_of loads).

(** The publishers of a list of Participants: no Channel has two, and all are
    recorded. *)
Definition publishers_checked (docs : list (string * json)) (channels : list (string * vchannel))
    (ns : list string) (d : list (string * string)) : Prop :=
  (∀ n, n ∈ ns → ∃ names, participant_checked channels (entry docs n) names
                          ∧ ∀ ch, ch ∈ names → ch ∉ d.*1)
  ∧ ∀ i j n1 n2 ch, ns !! i = Some n1 → ns !! j = Some n2 → i ≠ j →
      publishes (entry docs n1) ch → publishes (entry docs n2) ch → False.

Lemma check_publishers_clean docs channels ns d :
  clean (foldC (λ publishers n,
    published ← check_participant base_dir join is_file can_read can_execute
      env_path digest_of suffix_of summary_of loads (entry docs n) [TKey "participants"; TKey n]
      channels;
    foldC (check_one_publisher [TKey "participants"; TKey n] n) publishers published) d ns)
    (λ _, publishers_checked docs channels ns d).
Proof.
  revert d. induction ns as [|n ns IH]; intros d; cbn [foldC].
  { apply clean_ret. split; [by intros ? ?%elem_of_nil|]. by intros i j n1 n2 ch Hi. }
  eapply clean_bind with (Q := λ d1, ∃ names, participant_checked channels (entry docs n) names
    ∧ (∀ ch, ch ∈ names → ch ∉ d.*1) ∧ ∀ ch, ch ∈ names ∨ ch ∈ d.*1 → ch ∈ d1.*1).
  { eapply clean_bind; [apply check_participant_clean|]. intros names Hn.
    eapply clean_mono; [apply check_one_publisher_clean|]. naive_solver. }
  intros d1 (names & Hp & Hnew & Hd1). eapply clean_mono; [apply IH|].
  intros _ [Hall Hpair].
  assert (∀ j n' ch, ns !! j = Some n' → publishes (entry docs n) ch →
    publishes (entry docs n') ch → False) as Hx.
  { intros j n' ch Hj H1 H2. destruct (Hall n') as (names' & (_ & Hpub' & _) & Hnew').
    { by eapply list_elem_of_lookup_2. }
    apply (Hnew' ch); [by apply Hpub'|]. apply Hd1. left. by apply Hp. }
  split.
  - intros n' [->|Hin]%elem_of_cons; [by exists names|].
    destruct (Hall _ Hin) as (names' & Hp' & Hnew'). exists names'. split; [done|].
    intros ch Hch Hd. apply (Hnew' _ Hch), Hd1. by right.
  - intros [|i] [|j] n1 n2 ch Hi Hj Hne H1 H2; cbn in Hi, Hj; simplify_eq; eauto.
Qed.

(** The sections of a document, each an object. *)
Record sections (doc : json) (schemas channels participants : list (string * json)) : Prop := {
  sec_schemas : jget doc "schemas" = Some (JObj schemas);
  sec_channels : jget doc "channels" = Some (JObj channels);
  sec_participants : jget doc "participants" = Some (JObj participants);
}.

(** What no problem means. *)
Record accepted (schemas channels participants : list (string * json)) : Prop := {
  acc_schemas : ∀ n s, dget schemas n = Some s → ∃ fs, codec_schema s fs;
  acc_channels : ∀ n c, dget channels n = Some c →
    ∃ sn, jget c "schema" = Some (JStr sn) ∧ sn ∈ schemas.*1;
  acc_declared : ∀ n p ch, dget participants n = Some p → publishes p ch ∨ subscribes p ch →
    ch ∈ channels.*1;
  acc_single : ∀ n1 p1 n2 p2 ch, dget participants n1 = Some p1 → dget participants n2 = Some p2 →
    publishes p1 ch → publishes p2 ch → n1 = n2;
}.

Lemma section_clean d key :
  clean (section d key) (λ o, ∃ s, dget d key = Some (JObj s) ∧ o = Some s).
Proof.
  unfold section. eapply clean_bind with (Q := λ o, ∃ v, dget d key = Some v ∧ o = Some v).
  { apply clean_required. eauto. }
  intros ? (v & Hv & ->). cbn [when_some]. apply clean_typed. intros s ->%as_object_Some. eauto.
Qed.

Lemma named_map_clean {V} (f : string → check V) (Q : string → Prop) ns :
  (∀ n, clean (f n) (λ _, Q n)) →
  clean (mapC (λ n, v ← f n; mret (n, v)) ns) (λ ys, ys.*1 = ns ∧ ∀ n, n ∈ ns → Q n).
Proof.
  intros Hf. eapply clean_mono.
  { apply clean_map with (Q := λ n (y : string * V), y.1 = n ∧ Q n). intros n _.
    eapply clean_bind; [apply Hf|]. intros v Hv. by apply clean_ret. }
  intros ys Hys. split.
  - induction Hys as [|n [k v] ns ys [Hk _] Hys IH]; [done|]. cbn in *. by rewrite Hk, IH.
  - intros n Hn. apply list_elem_of_lookup in Hn as [i Hi].
    destruct (Forall2_lookup_l _ _ _ _ _ Hys Hi) as (y & _ & _ & HQ). done.
Qed.

Lemma dget_sorted {docs : list (string * json)} n v :
  dget docs n = Some v → n ∈ sorted_names docs ∧ entry docs n = v.
Proof.
  intros H. split; [apply sorted_names_elem, dget_is_Some; eauto|]. unfold entry. by rewrite H.
Qed.

Lemma check_document_accepts doc :
  check_document' doc = [] → ∃ schemas channels participants,
    sections doc schemas channels participants ∧ accepted schemas channels participants.
Proof.
  unfold check_document. set (m := vobject doc [] ≫= _).
  enough (clean m (λ _, ∃ schemas channels participants,
    sections doc schemas channels participants ∧ accepted schemas channels participants)) as H by apply H.
  subst m. eapply clean_bind with (Q := λ o, ∃ d, doc = JObj d ∧ o = Some d).
  { apply clean_typed. intros d ->%as_object_Some. eauto. }
  intros ? (d & -> & ->). apply clean_skip. intros _.
  eapply clean_bind; [apply section_clean|]. intros ? (ss & Hss & ->).
  eapply clean_bind; [apply (named_map_clean _ (λ n, ∃ fs, codec_schema (entry ss n) fs));
    intros; apply vcheck_schema_clean|]. intros schemas [Hsk Hs].
  eapply clean_bind; [apply section_clean|]. intros ? (cs & Hcs & ->).
  eapply clean_bind; [apply (named_map_clean _ (λ n, ∃ sn, jget (entry cs n) "schema" = Some (JStr sn)
    ∧ sn ∈ schemas.*1)); intros; apply vcheck_channel_clean|]. intros channels [Hck Hc].
  eapply clean_bind; [apply section_clean|]. intros ? (ps & Hps & ->).
  eapply clean_bind; [apply check_publishers_clean|]. intros ? [Hall Hpair]. apply clean_ret.
  exists ss, cs, ps. split; [by split|].
  cbn [default from_option id] in *. split.
  - intros n s [Hn <-]%dget_sorted. auto.
  - intros n c [Hn <-]%dget_sorted. destruct (Hc _ Hn) as (sn & ? & Hin). exists sn. split; [done|].
    rewrite Hsk in Hin. by apply sorted_names_elem in Hin.
  - intros n p ch [Hn <-]%dget_sorted Hch.
    destruct (Hall _ Hn) as (names & (Hk & Hpub & Hsub) & _).
    assert (ch ∈ channels.*1) as Hin by (destruct Hch; [by apply Hk, Hpub|by apply Hsub]).
    rewrite Hck in Hin. by apply sorted_names_elem in Hin.
  - intros n1 p1 n2 p2 ch [Hn1 <-]%dget_sorted [Hn2 <-]%dget_sorted H1 H2.
    apply list_elem_of_lookup in Hn1 as [i Hi], Hn2 as [j Hj].
    destruct (decide (i = j)) as [->|Hij]; [congruence|]. by destruct (Hpair i j n1 n2 ch).
Qed.
End document.

(** C18. A Manifest file for which the check exits with 0 is JSON whose schemas
    the codec reads, whose Channels refer to declared schemas, whose
    Participants publish and subscribe to declared Channels only, and in which
    no Channel has two publishers. *)
Theorem validate_sound base_dir join is_file can_read can_execute env_path digest_of suffix_of
    summary_of loads encodable content :
  exit_code (validate base_dir join is_file can_read can_execute env_path digest_of suffix_of
               summary_of loads encodable content) = 0 →
  ∃ raw doc schemas channels participants,
    content = Parsed raw ∧ parse_numbers raw = Some doc
    ∧ sections doc schemas channels participants ∧ accepted schemas channels participants.
Proof.
  unfold exit_code. destruct (validate _ _ _ _ _ _ _ _ _ _ _ _) eqn:Hv; [|discriminate]. intros _.
  unfold validate in Hv. destruct content as [| | |raw]; try discriminate.
  destruct (parse_numbers raw) as [doc|] eqn:Hp; [|discriminate].
  destruct (encodable doc); [|discriminate]. apply check_document_accepts in Hv as (s & c & p & ?).
  by exists raw, doc, s, c, p.
Qed.

Definition demo_doc : json := manifest_doc (foldl (exec id demo_digest) demo_start demo_ops).

Lemma validate_sound_witness :
  ∃ schemas channels participants,
    sections demo_doc schemas channels participants ∧ accepted schemas channels participants.
Proof.
  destruct (validate_sound "/m" (λ a b, b) (λ _, true) (λ _, true) (λ _, true) None (λ _, ""%string)
    (λ _, ""%string) (λ _, None) (λ _, None) (λ _, true) (Parsed demo_doc))
    as (raw & doc & s & c & p & Hraw & Hp & Hs).
  - vm_compute. reflexivity.
  - injection Hraw as <-. vm_compute in Hp. injection Hp as <-. exists s, c, p. exact Hs.
Defined.
