(* ===== verification/SourceScope.v ===== *)
(** * Offline decoding of a source-scope capture

    Models [python/src/sil/source_scope_decode.py]: the raw header and records,
    the scope map and identity checks, the observation stream, pairing of entry
    and return edges, and the join of paired calls with the Activations.
    [json.loads] is a parameter. Text is UTF-8 bytes; only ASCII white space and
    ASCII digits count as such. A document is a record with the fields of the
    JSON object; decimal strings are kept as integers. *)

From Stdlib Require Import ZArith Lia Ascii.
From S2P Require Import Prelude PyFloat Json Pointer.

(** ** Errors *)

(** [CaptureFailed] with its reason, and the errors the code does not catch. *)
Inductive capture_error :=
| RawInvalid | RawIncomplete | ObserverUnavailable | MapInvalid | CaptureMismatch
| IdentityMismatch | ClockUnverified
| UncaughtKeyError (key : string)
| UncaughtValueError (key : string)
| UncaughtTypeError.

Abbreviation decoded := (result capture_error).

(** ** The raw file *)

Definition HEADER_SIZE : nat := 256.
Definition RECORD_SIZE : nat := 16.
Definition MAGIC : bytes := [x53; x49; x4c; x53; x43; x4f; x50; x45].
Definition CREATED : Z := 0.
Definition ACTIVE : Z := 1.
Definition FINALIZED : Z := 2.
Definition UNAVAILABLE : Z := 3.
Definition MAX_RECORDS : Z := 262144.
Definition MAX_SITES : Z := 4096.
Definition MAX_ROWS : nat := 1000.

Record raw_header := mk_raw_header {
  rh_state : Z;
  rh_capture_id : string;
  rh_pid : Z;
  rh_capacity : Z;
  rh_records : Z;
  rh_dropped_full : Z;
  rh_dropped_contended : Z;
  rh_clock_errors : Z;
  rh_bracket : list Z;
  rh_device : Z;
  rh_inode : Z;
  rh_build_id : string;
}.

(** [RawHeader.lost]. *)
Definition lost (h : raw_header) : Z :=
  rh_dropped_full h + rh_dropped_contended h + rh_clock_errors h.

(** [n] bytes at an offset, little-endian. *)
Definition field_at (data : bytes) (i n : nat) : Z := le_value (slice data i n).

(** [bytes.hex()]. *)
Definition hex_digit (n : Z) : ascii :=
  ascii_of_N (Z.to_N (if n <? 10 then 48 + n else 87 + n)).
Fixpoint hex (bs : bytes) : string :=
  match bs with
  | [] => ""
  | b :: bs => String (hex_digit (Z_of_byte b / 16)) (String (hex_digit (Z_of_byte b mod 16)) (hex bs))
  end.

(** [str(uuid.UUID(bytes=b))]. *)
Definition uuid_str (b : bytes) : string :=
  (hex (slice b 0 4) ++ "-" ++ hex (slice b 4 2) ++ "-" ++ hex (slice b 6 2) ++ "-"
   ++ hex (slice b 8 2) ++ "-" ++ hex (slice b 10 6))%string.

Definition read_header (events : bytes) : decoded raw_header :=
  _ ← raise_if (bool_decide (length events < HEADER_SIZE)%nat) RawInvalid;
  let build_id_bytes := field_at events 120 1 in
  let h := mk_raw_header (field_at events 14 2) (uuid_str (slice events 16 16))
    (field_at events 32 4) (field_at events 40 8) (field_at events 48 8) (field_at events 56 8)
    (field_at events 64 8) (field_at events 72 8)
    [field_at events 80 8; field_at events 88 8; field_at events 96 8]
    (field_at events 104 8) (field_at events 112 8)
    (hex (take (Z.to_nat build_id_bytes) (slice events 121 40))) in
  _ ← raise_if (negb (bool_decide (slice events 0 8 = MAGIC)) || negb (field_at events 8 2 =? 1)
                || negb (field_at events 10 2 =? Z.of_nat HEADER_SIZE)
                || negb (field_at events 12 2 =? Z.of_nat RECORD_SIZE)
                || negb (field_at events 36 4 =? 0) || (UNAVAILABLE <? rh_state h)) RawInvalid;
  _ ← raise_if (negb (in_range 1 MAX_RECORDS (rh_capacity h)) || (40 <? build_id_bytes)
                || negb (Z.of_nat (length events)
                         =? Z.of_nat HEADER_SIZE + Z.of_nat RECORD_SIZE * rh_capacity h)
                || (rh_capacity h <? rh_records h)) RawInvalid;
  Ok h.

Inductive edge := Entry | Return.
#[export] Instance edge_eq_dec : EqDecision edge.
Proof. solve_decision. Defined.

(** (monotonic_ns, tid, scope, edge). *)
Record event := mk_event { ev_ns : Z; ev_tid : Z; ev_scope : Z; ev_edge : edge }.

(** [RECORD.unpack_from(events, HEADER.size + RECORD.size * index)]. *)
Definition raw_record (events : bytes) (index : nat) : Z * Z * Z * Z * Z :=
  let at_ := (HEADER_SIZE + RECORD_SIZE * index)%nat in
  (field_at events at_ 8, field_at events (at_ + 8) 4, field_at events (at_ + 12) 2,
   field_at events (at_ + 14) 1, field_at events (at_ + 15) 1).

(** One iteration of [_records]: [last] is the latest time of each thread. *)
Definition read_record (events : bytes) (scopes : list Z)
    (st : list event * list (Z * Z)) (index : nat) : decoded (list event * list (Z * Z)) :=
  let '(records, last) := st in
  let '(ns, tid, scope, e, reserved) := raw_record events index in
  _ ← raise_if (negb ((e =? 0) || (e =? 1)) || negb (reserved =? 0)
                || negb (bool_decide (scope ∈ scopes)) || (ns <? default 0 (dget last tid)))
        RawInvalid;
  Ok (records ++ [mk_event ns tid scope (if e =? 0 then Entry else Return)], dset last tid ns).

(** [_records]. *)
Definition read_records (events : bytes) (h : raw_header) (scopes : list Z)
    : decoded (list event) :=
  _ ← raise_if ((rh_state h =? CREATED) && negb (rh_records h =? 0)) RawInvalid;
  st ← foldE (read_record events scopes) ([], []) (seq 0 (Z.to_nat (rh_records h)));
  Ok st.1.

(** ** The scope map *)

(** [for entry in entries]. *)
Definition py_items (v : json) : option (list json) :=
  match v with
  | JArr l => Some l
  | JStr s => Some ((λ c, JStr (String c "")) <$> String.list_ascii_of_string s)
  | JObj d => Some (JStr <$> d.*1)
  | _ => None
  end.

(** [len(v)]; of a string, the bytes that start a character. *)
Definition starts_char (c : ascii) : bool := negb (N_of_ascii c / 64 =? 2)%N.
Definition py_len (v : json) : option Z :=
  match v with
  | JStr s => Some (Z.of_nat (length (filter starts_char (String.list_ascii_of_string s))))
  | _ => Z.of_nat ∘ length <$> py_items v
  end.

(** [entry[key]], with a KeyError or TypeError as [None]. *)
Definition py_index (v : json) (k : string) : option json := jget v k.

(** [_check_map]: the ids, or [None] for a map that is not valid. *)
Definition map_ids (scope_map : json) : option (list Z) :=
  entries ← py_index scope_map "scopes" ≫= py_items;
  ids ← mapM (λ e, py_index e "id") entries;
  sites ← mapM (λ e, py_index e "sites" ≫= py_len) entries;
  version ← py_index scope_map "sil_source_scope_map";
  ids ← mapM (λ v, match v with
                   | JInt z => if in_range 1 65535 z then Some z else None
                   | _ => None
                   end) ids;
  if py_eq_int version 1 && bool_decide (NoDup ids) && (foldr Z.add 0 sites <=? MAX_SITES)
  then Some ids else None.

Definition check_map (scope_map : json) : decoded (list Z) :=
  match map_ids scope_map with Some ids => Ok ids | None => Err MapInvalid end.

(** ** The observation stream: [_Stream] *)

Record stream := mk_stream {
  st_header : option json;
  st_rows : list json;
  st_cut : bool;
  st_coverage_end : Z;
}.

Definition empty_stream : stream := mk_stream None [] false 0.

(** [_host]: [None] is its ValueError or KeyError. *)
Definition host (row : json) (key : string) : option Z :=
  match jget row key with
  | Some (JStr s) => if String.eqb s "" then None else digits_value 0 s
  | _ => None
  end.

(** [row.get(key)], None for a missing key; [row] is an object. *)
Definition get_or_null (row : json) (key : string) : json := default JNull (jget row key).

(** [times], for the keys the row has. *)
Definition row_times (row : json) : option (list Z) :=
  mapM (host row) (filter (λ k, is_Some (jget row k)) ["begin_ns"; "end_ns"; "at_ns"]%string).

Definition is_kind (kind : string) (row : json) : bool :=
  bool_decide (get_or_null row "kind" = JStr kind).

(** A line after the header: an end record, a kept row with its times, or
    [None] for a line that cuts the stream. *)
Inductive line_kind := EndLine (row : json) | RowLine (row : json) (times : list Z).

Definition read_line (loads : string → option json) (line : string) : option line_kind :=
  row ← loads line;
  if negb (is_object row) then None
  else if is_kind "end" row then Some (EndLine row)
  else
    times ← row_times row;
    if is_kind "activation" row && negb (bool_decide (length times = 2%nat)) then None
    else Some (RowLine row times).

(** The loop after the header line; the second result is [end]. *)
Fixpoint read_lines (loads : string → option json) (s : stream) (lines : list string)
    : stream * option json :=
  match lines with
  | [] => (s, None)
  | line :: lines =>
      match read_line loads line with
      | None => (mk_stream (st_header s) (st_rows s) true (st_coverage_end s), None)
      | Some (EndLine row) => (s, Some row)
      | Some (RowLine row times) =>
          read_lines loads
            (mk_stream (st_header s) (st_rows s ++ [row]) (st_cut s)
               (foldr Z.max (st_coverage_end s) times)) lines
      end
  end.

(** [text.split("\n")], and [line.strip()]. *)
Fixpoint split_lines (s : string) : list string :=
  match s with
  | EmptyString => [""%string]
  | String c s =>
      match split_lines s with
      | [] => [String c ""]
      | x :: xs => if Ascii.eqb c "010" then ""%string :: x :: xs else String c x :: xs
      end
  end.
Definition is_space (c : ascii) : bool :=
  ((9 <=? N_of_ascii c)%N && (N_of_ascii c <=? 13)%N)
  || ((28 <=? N_of_ascii c)%N && (N_of_ascii c <=? 32)%N).
Definition blank (line : string) : bool := forallb is_space (String.list_ascii_of_string line).

(** The last statement of [parse]. *)
Definition finish_stream (s : stream) (end_ : option json) : stream :=
  let bad := match end_ with
             | None => true
             | Some row => truthy (get_or_null row "truncated")
                           || truthy (get_or_null row "write_failed")
                           || truthy (get_or_null row "dropped")
             end in
  mk_stream (st_header s) (st_rows s) (st_cut s || bad) (st_coverage_end s).

Definition parse_stream (loads : string → option json) (text : string) : stream :=
  match filter (λ line, blank line = false) (split_lines text) with
  | [] => finish_stream empty_stream None
  | first :: lines =>
      match loads first with
      | None => finish_stream (mk_stream None [] true 0) None
      | Some row =>
          if negb (is_object row && py_eq_int (get_or_null row "sil_activation_observations") 1)
          then empty_stream
          else let '(s, end_) := read_lines loads (mk_stream (Some row) [] false 0) lines in
               finish_stream s end_
      end
  end.

(** ** Identity checks *)

(** [scope_map["library"][key]]. *)
Definition library_key (scope_map : json) (key : string) : decoded json :=
  match jget scope_map "library" with
  | None => Err (UncaughtKeyError "library")
  | Some (JObj d) => match dget d key with
                     | Some v => Ok v
                     | None => Err (UncaughtKeyError key)
                     end
  | Some _ => Err UncaughtTypeError
  end.

(** [dict == v] for the pid namespace. *)
Definition namespace (h : raw_header) : json :=
  JObj [("device"%string, JInt (rh_device h)); ("inode"%string, JInt (rh_inode h))].

Fixpoint sorted_list (l : list Z) : bool :=
  match l with
  | a :: (b :: _) as l' => (a <=? b) && sorted_list l'
  | _ => true
  end.

Definition check_identities (h : raw_header) (s : stream) (scope_map : json) (capture_id : string)
    (library_sha256 : option string) : decoded () :=
  match st_header s with
  | None => Err CaptureMismatch
  | Some observed =>
      _ ← raise_if (negb (String.eqb (rh_capture_id h) capture_id)) CaptureMismatch;
      let activated := rh_state h =? FINALIZED in
      _ ← raise_if (activated && (negb (py_eq (JInt (rh_pid h)) (get_or_null observed "runner_pid"))
                     || negb (py_eq (namespace h) (get_or_null observed "pid_namespace"))))
            CaptureMismatch;
      other_build ← (if activated then
                       b ← library_key scope_map "build_id";
                       Ok (negb (py_eq (JStr (rh_build_id h)) b))
                     else Ok false);
      other ← (if other_build : bool then Ok true
               else sha ← library_key scope_map "sha256";
                    Ok (negb (py_eq (match library_sha256 with Some x => JStr x | None => JNull end)
                                sha)));
      _ ← raise_if other IdentityMismatch;
      raise_if (negb (bool_decide (get_or_null observed "clock" = JStr "host_monotonic"))
                || (activated && negb (sorted_list (rh_bracket h)))) ClockUnverified
  end.

(** ** Intervals: [_Intervals] *)

(** (begin, end, value). *)
Abbreviation interval := (Z * Z * nat)%type.

(** The order of Python tuples. *)
Definition interval_le (a b : interval) : Prop :=
  let '(b1, e1, v1) := a in let '(b2, e2, v2) := b in
  b1 < b2 ∨ (b1 = b2 ∧ (e1 < e2 ∨ (e1 = e2 ∧ (v1 ≤ v2)%nat))).
#[export] Instance interval_le_dec : RelDecision interval_le.
Proof. intros [[b1 e1] v1] [[b2 e2] v2]. cbn. apply _. Defined.

(** [bisect.bisect_right(a, x, lo, hi)]: the fuel bounds [hi - lo]. *)
Fixpoint bisect_right (fuel : nat) (a : list Z) (x : Z) (lo hi : nat) : nat :=
  match fuel with
  | O => lo
  | S fuel =>
      if decide (lo < hi)%nat then
        let mid := ((lo + hi) / 2)%nat in
        if x <? nth mid a 0 then bisect_right fuel a x lo mid
        else bisect_right fuel a x (S mid) hi
      else lo
  end.

(** [_Intervals.find]. *)
Definition find_interval (items : list interval) (time_ns : Z) : option nat :=
  match bisect_right (length items) (items.*1.*1) time_ns 0 (length items) with
  | O => None
  | S index =>
      match items !! index with
      | Some (begin, end_, value) =>
          if (begin <=? time_ns) && (time_ns <? end_) then Some value else None
      | None => None
      end
  end.

(** ** Pairing: [_pair] *)

(** [_Call]; an edge is its record index and its time. *)
Record call := mk_call {
  ca_tid : Z;
  ca_scope : Z;
  ca_entry : option (nat * Z);
  ca_ret : option (nat * Z);
}.

(** [_Call.order]. *)
Definition order (c : call) : nat :=
  match ca_entry c with
  | Some e => e.1
  | None => default 0%nat (fst <$> ca_ret c)
  end.

(** The stacks of open calls, the innermost first, with the results so far. *)
Record pairing := mk_pairing {
  pa_stacks : list (Z * list call);
  pa_paired : list call;
  pa_unpaired : list call;
}.

(** The calls above the innermost one of a scope, that call, and the calls
    below it. *)
Fixpoint split_scope (scope : Z) (stack : list call) : option (list call * call * list call) :=
  match stack with
  | [] => None
  | c :: stack =>
      if ca_scope c =? scope then Some ([], c, stack)
      else '(above, d, below) ← split_scope scope stack; Some (c :: above, d, below)
  end.

Definition pair_record (p : pairing) (ix : nat * event) : pairing :=
  let '(index, ev) := ix in
  let tid := ev_tid ev in
  let stack := default [] (dget (pa_stacks p) tid) in
  match ev_edge ev with
  | Entry =>
      mk_pairing (dset (pa_stacks p) tid (mk_call tid (ev_scope ev) (Some (index, ev_ns ev)) None :: stack))
        (pa_paired p) (pa_unpaired p)
  | Return =>
      match split_scope (ev_scope ev) stack with
      | None =>
          mk_pairing (dset (pa_stacks p) tid stack) (pa_paired p)
            (pa_unpaired p ++ [mk_call tid (ev_scope ev) None (Some (index, ev_ns ev))])
      | Some (above, c, below) =>
          mk_pairing (dset (pa_stacks p) tid below)
            (pa_paired p ++ [mk_call (ca_tid c) (ca_scope c) (ca_entry c) (Some (index, ev_ns ev))])
            (pa_unpaired p ++ reverse above)
      end
  end.

(** [_pair]: the paired calls and the unpaired edges. *)
Definition pair_calls (records : list event) : list call * list call :=
  let p := foldl pair_record (mk_pairing [] [] []) (enumerate records) in
  (pa_paired p, pa_unpaired p ++ mjoin ((λ ts, reverse ts.2) <$> pa_stacks p)).

(** ** The join: [_Join] *)

Inductive reason :=
| ObservationsIncomplete | EventsLost | NotCompleted | UnbalancedScopes | CrossingCall.
#[export] Instance reason_eq_dec : EqDecision reason.
Proof. solve_decision. Defined.
Definition ACTIVATION_REASONS : list reason :=
  [ObservationsIncomplete; EventsLost; NotCompleted; UnbalancedScopes; CrossingCall].

(** Why a call or edge is not attributed. *)
Inductive unattributed_reason :=
| UObservationsIncomplete | UWorkerThread | UOtherParticipant | UOutsideActivations
| UCrossingInterval | UMissingReturn | UMissingEntry.
#[export] Instance unattributed_reason_eq_dec : EqDecision unattributed_reason.
Proof. solve_decision. Defined.

(** What [__init__] computes once. *)
Record join := mk_join {
  jn_cut : bool;
  jn_coverage_end : Z;
  jn_runner_tid : json;
  jn_rows : list json;
  jn_selected : list nat;
  jn_intervals : list interval;
}.

(** What the join fills in: [self.calls], [self.flags], [self.unattributed]. *)
Record joined := mk_joined {
  jd_calls : list (nat * list call);
  jd_flags : list (nat * list reason);
  jd_unattributed : list (call * unattributed_reason);
}.

Definition selects (participant : string) (row : json) : decoded bool :=
  match jget row "participant" with
  | None => Err (UncaughtKeyError "participant")
  | Some v => Ok (py_eq v (JStr participant)
                  && bool_decide (get_or_null row "task_kind" = JStr "native_task"))
  end.

Definition select_rows (participant : string) (rows : list json) : decoded (list nat) :=
  flags ← mapE (λ ix, b ← selects participant ix.2; Ok (ix.1, b)) (enumerate rows);
  Ok (filter (λ ib, ib.2 = true) flags).*1.

(** [_host] outside [parse], where nothing catches its errors. *)
Definition host_now (row : json) (key : string) : decoded Z :=
  match jget row key, host row key with
  | None, _ => Err (UncaughtKeyError key)
  | Some _, None => Err (UncaughtValueError key)
  | Some _, Some z => Ok z
  end.

(** The intervals of the runner thread. *)
Definition runner_intervals (runner_tid : json) (rows : list json) : decoded (list interval) :=
  mapE (λ ix, b ← host_now ix.2 "begin_ns"; e ← host_now ix.2 "end_ns"; Ok (b, e, ix.1))
    (filter (λ ix, py_eq (get_or_null ix.2 "tid") runner_tid = true) (enumerate rows)).

Definition new_join (s : stream) (participant : string) : decoded join :=
  let runner_tid := get_or_null (default JNull (st_header s)) "runner_tid" in
  let rows := filter (λ r, is_kind "activation" r = true) (st_rows s) in
  selected ← select_rows participant rows;
  items ← runner_intervals runner_tid rows;
  Ok (mk_join (st_cut s) (st_coverage_end s) runner_tid rows selected
        (merge_sort interval_le items)).

(** [self.calls[i].append(call)] and [self.flags[i].add(reason)]. *)
Definition append_at {A} (d : list (nat * list A)) (i : nat) (a : A) : list (nat * list A) :=
  (λ kv, if decide (kv.1 = i) then (kv.1, kv.2 ++ [a]) else kv) <$> d.

Definition unattribute (s : joined) (c : call) (r : unattributed_reason) : joined :=
  mk_joined (jd_calls s) (jd_flags s) (jd_unattributed s ++ [(c, r)]).
Definition flag (j : join) (s : joined) (i : option nat) (r : reason) : joined :=
  match i with
  | Some i => if bool_decide (i ∈ jn_selected j)
              then mk_joined (jd_calls s) (append_at (jd_flags s) i r) (jd_unattributed s) else s
  | None => s
  end.

Definition edge_ns (e : option (nat * Z)) : Z := default 0 (snd <$> e).

(** [_join]. *)
Definition join_call (j : join) (s : joined) (c : call) : joined :=
  let entry_ns := edge_ns (ca_entry c) in
  let return_ns := edge_ns (ca_ret c) in
  if jn_cut j && (jn_coverage_end j <=? return_ns) then unattribute s c UObservationsIncomplete
  else if negb (py_eq (JInt (ca_tid c)) (jn_runner_tid j)) then unattribute s c UWorkerThread
  else
    let at_entry := find_interval (jn_intervals j) entry_ns in
    let at_return := find_interval (jn_intervals j) return_ns in
    match at_entry, at_return with
    | None, None =>
        unattribute s c (if jn_cut j then UObservationsIncomplete else UOutsideActivations)
    | _, _ =>
        if bool_decide (at_entry = at_return) then
          match at_entry with
          | Some i => if bool_decide (i ∈ jn_selected j)
                      then mk_joined (append_at (jd_calls s) i c) (jd_flags s) (jd_unattributed s)
                      else unattribute s c UOtherParticipant
          | None => s
          end
        else
          let incomplete := jn_cut j && (bool_decide (at_entry = None) || bool_decide (at_return = None)) in
          let r := if incomplete then ObservationsIncomplete else CrossingCall in
          unattribute (flag j (flag j s at_entry r) at_return r) c
            (if incomplete then UObservationsIncomplete else UCrossingInterval)
    end.

(** [_unpaired]. *)
Definition join_unpaired (j : join) (s : joined) (c : call) : joined :=
  let e := match ca_entry c with Some e => Some e | None => ca_ret c end in
  let s := if py_eq (JInt (ca_tid c)) (jn_runner_tid j)
           then flag j s (find_interval (jn_intervals j) (edge_ns e)) UnbalancedScopes
           else s in
  unattribute s c (if ca_entry c then UMissingReturn else UMissingEntry).

(** ** The document *)

(** [_nest]: a row of an exact Activation. *)
Record nest_row := mk_nest_row {
  nr_scope : Z;
  nr_depth : nat;
  nr_parent : option nat;
  nr_entry_ns : Z;
  nr_return_ns : Z;
  nr_elapsed_ns : Z;
}.

Definition entry_index (c : call) : nat := default 0%nat (fst <$> ca_entry c).
Definition return_index (c : call) : nat := default 0%nat (fst <$> ca_ret c).

(** Open calls, the innermost first: (return record index, row). *)
Fixpoint pop_closed (index : nat) (open : list (nat * nat)) : list (nat * nat) :=
  match open with
  | [] => []
  | (r, row) :: rest => if decide (r < index)%nat then pop_closed index rest else open
  end.

Fixpoint nest_go (rows : nat) (open : list (nat * nat)) (calls : list call) : list nest_row :=
  match calls with
  | [] => []
  | c :: calls =>
      let open := pop_closed (entry_index c) open in
      mk_nest_row (ca_scope c) (length open) (snd <$> head open)
        (edge_ns (ca_entry c)) (edge_ns (ca_ret c)) (edge_ns (ca_ret c) - edge_ns (ca_entry c))
      :: nest_go (S rows) ((return_index c, rows) :: open) calls
  end.
Definition nest (calls : list call) : list nest_row := nest_go 0 [] calls.

Definition order_le (a b : call) : Prop := (order a ≤ order b)%nat.
#[export] Instance order_le_dec : RelDecision order_le.
Proof. intros a b. unfold order_le. apply _. Defined.

(** One Activation of the document; [None] as a reason is an exact one. *)
Record activation := mk_activation {
  ac_record : list (string * json);
  ac_reason : option reason;
  ac_withheld : nat;
  ac_calls : list nest_row;
  ac_counts : option (list (Z * nat));
}.

Definition RECORD_KEYS : list string :=
  ["participant"; "task"; "index"; "virtual_time_ns"; "begin_ns"; "end_ns"; "outcome"]%string.

Definition row_key (row : json) (k : string) : decoded (string * json) :=
  match jget row k with Some v => Ok (k, v) | None => Err (UncaughtKeyError k) end.

(** [Counter(call.scope for call in calls)], by scope. *)
Definition count_of {A} `{!EqDecision A} (x : A) (l : list A) : nat :=
  length (filter (λ y, y = x) l).
Definition scope_counts (calls : list call) : list (Z * nat) :=
  let scopes := ca_scope <$> calls in
  (λ s, (s, count_of s scopes)) <$> merge_sort Z.le (remove_dups scopes).

(** The reason of an Activation's flags: the first that applies. *)
Definition first_reason (flags : list reason) : option reason :=
  snd <$> list_find (λ r, r ∈ flags) ACTIVATION_REASONS.

(** [_activation]. *)
Definition activation_of (h : raw_header) (j : join) (s : joined) (index : nat)
    : decoded activation :=
  let row := default JNull (jn_rows j !! index) in
  outcome ← row_key row "outcome";
  let flags := default [] (dget (jd_flags s) index)
               ++ (if lost h =? 0 then [] else [EventsLost])
               ++ (if bool_decide (outcome.2 = JStr "completed") then [] else [NotCompleted]) in
  let calls := merge_sort order_le (default [] (dget (jd_calls s) index)) in
  record ← mapE (row_key row) RECORD_KEYS;
  Ok match first_reason flags with
     | Some r => mk_activation record (Some r) (length calls) [] None
     | None => mk_activation record None 0 (nest calls) (Some (scope_counts calls))
     end.

Record totals := mk_totals {
  to_entries : nat;
  to_returns : nat;
  to_paired : nat;
  to_attributed : nat;
  to_withheld : nat;
  to_unattributed : nat;
}.

(** An unattributed row: [_Call.row]. *)
Record call_row := mk_call_row {
  cr_scope : Z;
  cr_tid : Z;
  cr_entry_ns : option Z;
  cr_return_ns : option Z;
  cr_reason : unattributed_reason;
}.
Definition call_row_of (cr : call * unattributed_reason) : call_row :=
  mk_call_row (ca_scope cr.1) (ca_tid cr.1) (snd <$> ca_entry cr.1) (snd <$> ca_ret cr.1) cr.2.

Record document := mk_document {
  do_capture_id : string;
  do_participant : string;
  do_problems : list reason;
  do_totals : totals;
  do_activations : list activation;
  do_reasons : list (unattributed_reason * nat);
  do_rows : list call_row;
  do_rows_remainder : nat;
}.

(** The document's ["status"]. *)
Definition complete (d : document) : bool := bool_decide (do_problems d = []).

(** [Counter]: counts in the order of first occurrence. *)
Fixpoint first_seen {A} `{!EqDecision A} (seen l : list A) : list A :=
  match l with
  | [] => []
  | x :: l => if bool_decide (x ∈ seen) then first_seen seen l else x :: first_seen (x :: seen) l
  end.
Definition counter {A} `{!EqDecision A} (l : list A) : list (A * nat) :=
  (λ x, (x, count_of x l)) <$> first_seen [] l.

Definition unattributed_le (a b : call * unattributed_reason) : Prop := order_le a.1 b.1.
#[export] Instance unattributed_le_dec : RelDecision unattributed_le.
Proof. intros a b. unfold unattributed_le. apply _. Defined.

Definition start_joined (j : join) : joined :=
  mk_joined ((λ i, (i, [])) <$> jn_selected j) ((λ i, (i, [])) <$> jn_selected j) [].

(** The two loops of [document]. *)
Definition join_all (j : join) (paired unpaired : list call) : joined :=
  foldl (join_unpaired j) (foldl (join_call j) (start_joined j) paired) unpaired.

(** [document]. *)
Definition document_of (h : raw_header) (records : list event) (participant : string) (j : join)
    : decoded document :=
  let '(paired, unpaired) := pair_calls records in
  let s := join_all j paired unpaired in
  let problems := (if lost h =? 0 then [] else [EventsLost])
                  ++ (if jn_cut j then [ObservationsIncomplete] else [])
                  ++ (if bool_decide (unpaired = []) then [] else [UnbalancedScopes]) in
  activations ← mapE (activation_of h j s) (jn_selected j);
  let exact := filter (λ a, ac_reason a = None) activations in
  let rows := call_row_of <$> merge_sort unattributed_le (jd_unattributed s) in
  Ok (mk_document (rh_capture_id h) participant problems
        (mk_totals (count_of Entry (ev_edge <$> records)) (count_of Return (ev_edge <$> records))
           (length paired) (sum_list_with (length ∘ ac_calls) exact)
           (sum_list_with ac_withheld activations) (length rows))
        activations (counter (cr_reason <$> rows)) (take MAX_ROWS rows) (length rows - MAX_ROWS)).

(** [decode]. *)
Definition decode (loads : string → option json) (events : bytes) (observations : string)
    (scope_map : json) (participant capture_id : string) (library_sha256 : option string)
    : decoded document :=
  scopes ← check_map scope_map;
  h ← read_header events;
  records ← read_records events h scopes;
  _ ← raise_if (rh_state h =? ACTIVE) RawIncomplete;
  _ ← raise_if (rh_state h =? UNAVAILABLE) ObserverUnavailable;
  let s := parse_stream loads observations in
  _ ← check_identities h s scope_map capture_id library_sha256;
  j ← new_join s participant;
  document_of h records participant j.

(** ** Pairing conserves edges *)

(** The records a call is made of. *)
Definition edges_of (c : call) : list (nat * event) :=
  match ca_entry c with
  | Some (i, ns) => [(i, mk_event ns (ca_tid c) (ca_scope c) Entry)]
  | None => []
  end ++
  match ca_ret c with
  | Some (i, ns) => [(i, mk_event ns (ca_tid c) (ca_scope c) Return)]
  | None => []
  end.

Definition all_edges (cs : list call) : list (nat * event) := mjoin (edges_of <$> cs).

Lemma all_edges_app a b : all_edges (a ++ b) = all_edges a ++ all_edges b.
Proof. unfold all_edges. by rewrite fmap_app, join_app. Qed.

#[export] Instance all_edges_perm : Proper ((≡ₚ) ==> (≡ₚ)) all_edges.
Proof. intros a b H. unfold all_edges. by rewrite H. Qed.

(** The calls of every stack. *)
Definition open_calls (p : pairing) : list call := mjoin (pa_stacks p).*2.

Lemma dset_stacks (d : list (Z * list call)) k :
  ∃ rest, mjoin d.*2 ≡ₚ default [] (dget d k) ++ rest
          ∧ ∀ v, mjoin (dset d k v).*2 ≡ₚ v ++ rest.
Proof.
  induction d as [|[k' l] d (rest & H1 & H2)]; cbn.
  { exists []. split; [done|]. done. }
  destruct (decide (k = k')) as [->|Hne]; cbn.
  - by exists (mjoin d.*2).
  - exists (l ++ rest). split.
    + rewrite H1. rewrite !(assoc_L (++)). apply Permutation_app_tail, Permutation_app_comm.
    + intros v. rewrite H2. rewrite !(assoc_L (++)). apply Permutation_app_tail, Permutation_app_comm.
Qed.

(** An open call is an entry edge of its thread. *)
Definition open_ok (p : pairing) : Prop :=
  ∀ tid stack c, dget (pa_stacks p) tid = Some stack → c ∈ stack →
    ca_tid c = tid ∧ ca_ret c = None ∧ is_Some (ca_entry c).

Lemma dget_dset_inv {V} (d : list (Z * V)) k v k' v' :
  dget (dset d k v) k' = Some v' → (k' = k ∧ v' = v) ∨ (k' ≠ k ∧ dget d k' = Some v').
Proof.
  destruct (decide (k = k')) as [<-|Hne].
  - rewrite dget_dset_eq. intros [= <-]. by left.
  - rewrite dget_dset_ne by done. auto.
Qed.

Lemma split_scope_Some scope stack above c below :
  split_scope scope stack = Some (above, c, below) →
  stack = above ++ c :: below ∧ ca_scope c = scope ∧ Forall (λ c, ca_scope c ≠ scope) above.
Proof.
  revert above. induction stack as [|d stack IH]; intros above; cbn; [done|].
  destruct (ca_scope d =? scope) eqn:Hd; [intros [= <- <- <-]; split_and!; [done|lia|constructor]|].
  destruct (split_scope scope stack) as [[[ab c'] be]|] eqn:Hs; cbn; [|done].
  intros [= <- <- <-]. destruct (IH _ eq_refl) as (-> & Hc & Hab). split_and!; [done|done|].
  constructor; [lia|done].
Qed.

Lemma stack_of p tid c :
  c ∈ default [] (dget (pa_stacks p) tid) → ∃ stack, dget (pa_stacks p) tid = Some stack ∧ c ∈ stack.
Proof.
  destruct (dget (pa_stacks p) tid) as [stack|] eqn:H; [|by intros ?%elem_of_nil].
  intros Hc. by exists stack.
Qed.

Lemma pair_record_open p ix : open_ok p → open_ok (pair_record p ix).
Proof.
  intros Hok. destruct ix as [i [ns tid scope e]]. unfold pair_record. cbn [ev_tid ev_edge ev_scope ev_ns].
  assert (∀ c, c ∈ default [] (dget (pa_stacks p) tid) →
    ca_tid c = tid ∧ ca_ret c = None ∧ is_Some (ca_entry c)) as Hst.
  { intros c (stack & Hin & Hc)%stack_of. by eapply Hok. }
  destruct e; [|destruct (split_scope _ _) as [[[above c] below]|] eqn:Hs];
    intros tid' stack' c' [[-> ->]|[_ Hin]]%dget_dset_inv Hc'; eauto.
  - apply elem_of_cons in Hc' as [->|Hc']; [done|auto].
  - apply split_scope_Some in Hs as (Hs & _). apply Hst. rewrite Hs. set_solver.
Qed.

Lemma pair_record_edges p ix :
  open_ok p →
  all_edges (pa_paired (pair_record p ix) ++ pa_unpaired (pair_record p ix)
             ++ open_calls (pair_record p ix))
  ≡ₚ ix :: all_edges (pa_paired p ++ pa_unpaired p ++ open_calls p).
Proof.
  intros Hok. destruct ix as [i [ns tid scope e]]. unfold pair_record, open_calls.
  cbn [ev_tid ev_edge ev_scope ev_ns].
  destruct (dset_stacks (pa_stacks p) tid) as (rest & H1 & H2).
  destruct e; [|destruct (split_scope _ _) as [[[above c] below]|] eqn:Hs];
    cbn [pa_paired pa_unpaired pa_stacks]; rewrite H2, H1, !all_edges_app.
  - cbn [all_edges fmap list_fmap mjoin list_join edges_of ca_entry ca_ret app ca_tid ca_scope].
    change (mjoin (edges_of <$> _)) with (all_edges (default [] (dget (pa_stacks p) tid))).
    rewrite !(Permutation_app_comm (all_edges (pa_paired p))). cbn. solve_Permutation.
  - apply split_scope_Some in Hs as (Hs & Hc & _). rewrite Hs, !all_edges_app.
    destruct (Hok tid (default [] (dget (pa_stacks p) tid)) c) as (Ht & Hr & [[ei ens] He]).
    { destruct (dget (pa_stacks p) tid) eqn:Hg; [done|]. by destruct above. }
    { rewrite Hs. set_solver. }
    assert (all_edges [mk_call (ca_tid c) (ca_scope c) (ca_entry c) (Some (i, ns))]
            = all_edges [c] ++ [(i, mk_event ns tid scope Return)]) as ->.
    { unfold all_edges, edges_of. cbn. rewrite He, Hr, Ht, Hc. done. }
    rewrite (reverse_Permutation above). change (c :: below) with ([c] ++ below).
    rewrite all_edges_app. solve_Permutation.
  - solve_Permutation.
Qed.

Lemma pair_fold_edges ixs p :
  open_ok p →
  open_ok (foldl pair_record p ixs)
  ∧ all_edges (pa_paired (foldl pair_record p ixs) ++ pa_unpaired (foldl pair_record p ixs)
               ++ open_calls (foldl pair_record p ixs))
    ≡ₚ ixs ++ all_edges (pa_paired p ++ pa_unpaired p ++ open_calls p).
Proof.
  revert p. induction ixs as [|ix ixs IH]; intros p Hok; cbn [foldl]; [done|].
  destruct (IH (pair_record p ix)) as [H1 H2]; [by apply pair_record_open|]. split; [done|].
  rewrite H2, pair_record_edges by done. cbn. by rewrite <- Permutation_middle.
Qed.

Lemma reversed_stacks (d : list (Z * list call)) :
  mjoin ((λ ts, reverse ts.2) <$> d) ≡ₚ mjoin d.*2.
Proof. induction d as [|[k l] d IH]; cbn [fmap list_fmap mjoin list_join snd]; [done|]. by rewrite reverse_Permutation, IH. Qed.

Lemma pair_edges records :
  all_edges ((pair_calls records).1 ++ (pair_calls records).2) ≡ₚ enumerate records.
Proof.
  unfold pair_calls. cbn [fst snd].
  destruct (pair_fold_edges (enumerate records) (mk_pairing [] [] [])) as [_ H].
  { by intros ? ? ? ?. }
  rewrite reversed_stacks. fold (open_calls (foldl pair_record (mk_pairing [] [] []) (enumerate records))).
  rewrite H. cbn. by rewrite app_nil_r.
Qed.

(** ** Pairing nests calls *)

(** A call with both edges, the return after the entry. *)
Definition closed (c : call) : Prop :=
  ∃ i ns r ns', ca_entry c = Some (i, ns) ∧ ca_ret c = Some (r, ns') ∧ (i < r)%nat.

(** Two calls of a thread are disjoint or one is inside the other. *)
Definition laminar (c d : call) : Prop :=
  ca_tid c = ca_tid d → (entry_index c < entry_index d)%nat →
  (return_index c < entry_index d)%nat ∨ (return_index d < return_index c)%nat.

(** The state after the records before [n]. *)
Record nested (n : nat) (p : pairing) : Prop := {
  ns_open : open_ok p;
  ns_stacks : ∀ tid stack, dget (pa_stacks p) tid = Some stack →
    StronglySorted (λ a b, (entry_index b < entry_index a)%nat) stack
    ∧ ∀ c, c ∈ stack → (entry_index c < n)%nat;
  ns_closed : ∀ c, c ∈ pa_paired p → closed c ∧ (return_index c < n)%nat;
  ns_laminar : ∀ c d, c ∈ pa_paired p → d ∈ pa_paired p → laminar c d;
  ns_between : ∀ c o stack, c ∈ pa_paired p → dget (pa_stacks p) (ca_tid c) = Some stack → o ∈ stack →
    (entry_index o < entry_index c)%nat ∨ (return_index c < entry_index o)%nat;
}.

Lemma nested_weaken n p : nested n p → nested (S n) p.
Proof.
  intros [H1 H2 H3 H4 H5]. split; try done.
  - intros tid stack Hin. destruct (H2 _ _ Hin) as [? Hc]. split; [done|].
    intros c Hc'. specialize (Hc _ Hc'). lia.
  - intros c Hc. destruct (H3 _ Hc). split; [done|]. lia.
Qed.

Lemma entry_index_mk tid scope i ns r : entry_index (mk_call tid scope (Some (i, ns)) r) = i.
Proof. done. Qed.

Lemma pair_entry_nested n p tid scope ns :
  nested n p → nested (S n) (pair_record p (n, mk_event ns tid scope Entry)).
Proof.
  intros Hn. pose proof (pair_record_open p (n, mk_event ns tid scope Entry) (ns_open _ _ Hn)) as Ho.
  destruct Hn as [H1 H2 H3 H4 H5]. unfold pair_record in *. cbn [ev_tid ev_edge ev_scope ev_ns] in *.
  assert (∀ c, c ∈ default [] (dget (pa_stacks p) tid) → (entry_index c < n)%nat) as Hlt.
  { intros c (stack & Hin & Hc)%stack_of. by apply (H2 _ _ Hin). }
  split; cbn [pa_stacks pa_paired]; [done| | |done|].
  - intros tid' stack [[-> ->]|[_ Hin]]%dget_dset_inv.
    + split.
      * apply SSorted_cons.
        { destruct (dget (pa_stacks p) tid) as [s|] eqn:Hs; [|constructor].
          by apply (H2 _ _ Hs). }
        apply Forall_forall. intros c Hc. rewrite entry_index_mk. by apply Hlt.
      * intros c [->|Hc]%elem_of_cons; [rewrite entry_index_mk; lia|]. specialize (Hlt _ Hc). lia.
    + destruct (H2 _ _ Hin) as [? Hc]. split; [done|]. intros c Hc'. specialize (Hc _ Hc'). lia.
  - intros c Hc. destruct (H3 _ Hc). split; [done|]. lia.
  - intros c o stack Hc [[Ht ->]|[_ Hin]]%dget_dset_inv Hos; [|by eapply H5].
    apply elem_of_cons in Hos as [->|Hos]; [right; rewrite entry_index_mk; by apply H3|].
    apply stack_of in Hos as (s & Hin & Hos). rewrite <- Ht in Hin. by eapply H5.
Qed.

Lemma pair_unmatched_nested n p tid stack unp :
  nested n p → default [] (dget (pa_stacks p) tid) = stack →
  nested (S n) (mk_pairing (dset (pa_stacks p) tid stack) (pa_paired p) unp).
Proof.
  intros Hn Hst. apply nested_weaken in Hn as [H1 H2 H3 H4 H5].
  assert (∀ tid' s', dget (dset (pa_stacks p) tid stack) tid' = Some s' →
    dget (pa_stacks p) tid' = Some s' ∨ s' = []) as Hin.
  { intros tid' s' [[-> ->]|[_ ?]]%dget_dset_inv; [|by left]. subst stack.
    destruct (dget (pa_stacks p) tid) eqn:Hg; [by left|by right]. }
  split; cbn [pa_stacks pa_paired]; try done.
  - intros t s c [?| ->]%Hin Hc; [by eapply H1|by apply elem_of_nil in Hc].
  - intros t s [?| ->]%Hin; [by eapply H2|]. split; [constructor|by intros ? ?%elem_of_nil].
  - intros c o s Hc [?| ->]%Hin Ho; [by eapply H5|by apply elem_of_nil in Ho].
Qed.

Lemma sorted_split above (c : call) below :
  StronglySorted (λ a b, (entry_index b < entry_index a)%nat) (above ++ c :: below) →
  StronglySorted (λ a b, (entry_index b < entry_index a)%nat) below
  ∧ ∀ d, d ∈ below → (entry_index d < entry_index c)%nat.
Proof.
  intros H%StronglySorted_app. destruct H as (_ & _ & H). apply StronglySorted_inv in H as [H1 H2].
  split; [done|]. by apply Forall_forall.
Qed.

Lemma pair_matched_nested n p tid ns above c below unp :
  nested n p → dget (pa_stacks p) tid = Some (above ++ c :: below) →
  nested (S n) (mk_pairing (dset (pa_stacks p) tid below)
    (pa_paired p ++ [mk_call (ca_tid c) (ca_scope c) (ca_entry c) (Some (n, ns))]) unp).
Proof.
  intros [H1 H2 H3 H4 H5] Hg.
  set (c' := mk_call _ _ _ _).
  assert (c ∈ above ++ c :: below) as Hc by set_solver.
  destruct (H1 _ _ _ Hg Hc) as (Ht & Hr & [[i ens] He]).
  destruct (H2 _ _ Hg) as [Hsort Hlt]. destruct (sorted_split _ _ _ Hsort) as [Hbs Hbl].
  assert (entry_index c' = entry_index c ∧ return_index c' = n ∧ ca_tid c' = tid) as (Ee & Er & Et) by done.
  pose proof (Hlt _ Hc) as Hcn. split; cbn [pa_stacks pa_paired].
  - intros t s d [[-> ->]|[_ Hin]]%dget_dset_inv Hd; [|by eapply H1]. eapply H1; [done|set_solver].
  - intros t s [[-> ->]|[_ Hin]]%dget_dset_inv.
    + split; [done|]. intros d Hd. specialize (Hbl _ Hd). lia.
    + destruct (H2 _ _ Hin) as [? Hd]. split; [done|]. intros d Hd'. specialize (Hd _ Hd'). lia.
  - intros d [Hd|Hd%list_elem_of_singleton]%elem_of_app.
    + destruct (H3 _ Hd). split; [done|]. lia.
    + rewrite Hd. split; [|lia]. exists i, ens, n, ns. split_and!; [done..|].
      unfold entry_index in Hcn. rewrite He in Hcn. done.
  - intros d1 d2 [Hd1|Hd1%list_elem_of_singleton]%elem_of_app
      [Hd2|Hd2%list_elem_of_singleton]%elem_of_app; [by apply H4| | |].
    + rewrite Hd2. intros Htid Hlt'. left. rewrite Et in Htid. rewrite <- Htid in Hg.
      destruct (H5 d1 c _ Hd1 Hg Hc); lia.
    + rewrite Hd1. intros Htid Hlt'. right. rewrite Er. by apply H3.
    + rewrite Hd1, Hd2. intros _ ?. lia.
  - intros d o s [Hd|Hd%list_elem_of_singleton]%elem_of_app [[Htd ->]|[Hne Hin]]%dget_dset_inv Ho.
    + rewrite <- Htd in Hg. eapply H5; [done..|set_solver].
    + by eapply H5.
    + rewrite Hd. left. rewrite Ee. by apply Hbl.
    + rewrite Hd in Hne. done.
Qed.

Lemma pair_record_nested n p ev : nested n p → nested (S n) (pair_record p (n, ev)).
Proof.
  intros Hn. destruct ev as [ns tid scope []]; [by apply pair_entry_nested|].
  unfold pair_record. cbn [ev_tid ev_edge ev_scope ev_ns].
  destruct (split_scope _ _) as [[[above c] below]|] eqn:Hs; [|by apply pair_unmatched_nested].
  apply split_scope_Some in Hs as (Hs & _). eapply pair_matched_nested; [done|].
  destruct (dget (pa_stacks p) tid); cbn in Hs; [by subst|by destruct above].
Qed.

Lemma pair_fold_nested n records p :
  nested n p → nested (n + length records) (foldl pair_record p (enumerate_from n records)).
Proof.
  revert n p. induction records as [|ev records IH]; intros n p Hn; cbn [foldl enumerate_from length].
  - by rewrite Nat.add_0_r.
  - rewrite <- Nat.add_succ_comm. by apply IH, pair_record_nested.
Qed.

Lemma pair_nested records :
  nested (length records) (foldl pair_record (mk_pairing [] [] []) (enumerate records)).
Proof.
  apply (pair_fold_nested 0). split; cbn; try (by intros ? ?%elem_of_nil); try done.
  by intros ? ? ? ?%elem_of_nil.
Qed.

(** ** Times of a call *)

(** Records of a thread are in time order. *)
Definition in_order (a b : event) : Prop := ev_tid a = ev_tid b → ev_ns a ≤ ev_ns b.

Lemma read_records_sorted events h scopes records :
  read_records events h scopes = Ok records → StronglySorted in_order records.
Proof.
  unfold read_records. intros H. inv_ok.
  enough (StronglySorted in_order a0.1
          ∧ Forall (λ e, ev_ns e ≤ default 0 (dget a0.2 (ev_tid e))) a0.1) as [? _] by done.
  refine (foldE_inv (λ st, StronglySorted in_order st.1
    ∧ Forall (λ e, ev_ns e ≤ default 0 (dget st.2 (ev_tid e))) st.1) _ _ _ _ _ _ Hok0);
    [|split; constructor].
  clear. intros [rs last] i [rs' last'] _ [Hs Hl] H. cbn [fst snd] in *. unfold read_record in H.
  destruct (raw_record events i) as [[[[ns tid] scope] e] reserved]. inv_ok. apply orb_false_iff in Hok as [_ Hns].
  split.
  - apply sorted_snoc; [done|]. eapply Forall_impl; [done|]. intros ev He Ht.
    cbn [ev_tid ev_ns] in *. rewrite Ht in He. lia.
  - apply Forall_app. split; [|apply Forall_singleton; cbn [ev_tid ev_ns]; by rewrite dget_dset_eq].
    eapply Forall_impl; [done|]. intros ev He. cbn [ev_tid ev_ns] in *.
    destruct (decide (tid = ev_tid ev)) as [Heq|Hne].
    + rewrite Heq, dget_dset_eq. rewrite Heq in Hns. cbn [default from_option id] in *. lia.
    + by rewrite dget_dset_ne.
Qed.

Lemma paired_closed records : Forall closed (pair_calls records).1.
Proof. apply Forall_forall. intros c Hc. by apply (ns_closed _ _ (pair_nested records)). Qed.

Lemma edge_in c cs ev : c ∈ cs → ev ∈ edges_of c → ev ∈ all_edges cs.
Proof.
  intros Hc He. apply list_elem_of_join. exists (edges_of c). split; [done|].
  by apply list_elem_of_fmap_2.
Qed.

Lemma paired_times records c :
  StronglySorted in_order records → c ∈ (pair_calls records).1 →
  edge_ns (ca_entry c) ≤ edge_ns (ca_ret c).
Proof.
  intros Hs Hc. destruct (proj1 (Forall_forall _ _) (paired_closed records) c Hc)
    as (i & ns & r & ns' & He & Hr & Hlt).
  assert (∀ ev, ev ∈ edges_of c → records !! ev.1 = Some ev.2) as Hin.
  { intros [k ev] Hev. apply enumerate_elem. rewrite <- pair_edges, all_edges_app.
    apply elem_of_app. left. by eapply edge_in. }
  unfold edges_of in Hin. rewrite He, Hr in Hin. cbn [app] in Hin.
  pose proof (Hin _ ltac:(left)) as H1. pose proof (Hin _ ltac:(right; left)) as H2. cbn in H1, H2.
  rewrite He, Hr. cbn. exact (sorted_lookup _ _ _ _ _ _ Hs H1 H2 Hlt eq_refl).
Qed.

(** ** Intervals *)

Lemma nth_sorted (a : list Z) i j :
  Sorted Z.le a → (i ≤ j)%nat → (j < length a)%nat → nth i a 0 ≤ nth j a 0.
Proof.
  intros Hs%(Sorted_StronglySorted Z.le) Hij Hj.
  destruct (decide (i = j)) as [->|]; [lia|].
  destruct (lookup_lt_is_Some_2 a i) as [x Hx]; [lia|].
  destruct (lookup_lt_is_Some_2 a j) as [y Hy]; [lia|].
  rewrite (nth_lookup_Some a i 0 x Hx), (nth_lookup_Some a j 0 y Hy).
  eapply sorted_lookup; [done..|lia].
Qed.

(** [bisect_right] finds the number of elements that are at most [x]. *)
Lemma bisect_right_spec fuel a x lo hi :
  Sorted Z.le a → (hi - lo ≤ fuel)%nat → (lo ≤ hi)%nat → (hi ≤ length a)%nat →
  (∀ i, (i < lo)%nat → nth i a 0 ≤ x) →
  (∀ i, (hi ≤ i)%nat → (i < length a)%nat → x < nth i a 0) →
  let k := bisect_right fuel a x lo hi in
  (k ≤ length a)%nat ∧ (∀ i, (i < k)%nat → nth i a 0 ≤ x)
  ∧ (∀ i, (k ≤ i)%nat → (i < length a)%nat → x < nth i a 0).
Proof.
  intros Hs. revert lo hi. induction fuel as [|fuel IH]; intros lo hi Hf Hle Hhi Hlo Hup;
    cbn [bisect_right].
  { assert (lo = hi) as -> by lia. done. }
  destruct (decide (lo < hi)%nat) as [Hlt|]; [|assert (lo = hi) as -> by lia; done].
  pose proof (Nat.div_mod_eq (lo + hi) 2). pose proof (Nat.mod_upper_bound (lo + hi) 2 ltac:(lia)).
  set (mid := ((lo + hi) / 2)%nat) in *.
  assert (lo ≤ mid < hi)%nat as Hmid by lia.
  destruct (x <? nth mid a 0) eqn:Hx; apply IH; try lia; try done.
  - intros i Hi Hil. pose proof (nth_sorted a mid i Hs ltac:(lia) Hil). lia.
  - intros i Hi. destruct (decide (i < lo)%nat); [auto|].
    pose proof (nth_sorted a i mid Hs ltac:(lia) ltac:(lia)). lia.
Qed.

(** One interval ends before the other begins. *)
Definition separated (a b : interval) : Prop := a.1.2 ≤ b.1.1 ∨ b.1.2 ≤ a.1.1.
Definition well_spaced (items : list interval) : Prop :=
  (∀ it, it ∈ items → it.1.1 ≤ it.1.2)
  ∧ ∀ i j a b, items !! i = Some a → items !! j = Some b → i ≠ j → separated a b.

#[local] Instance interval_le_trans : Transitive interval_le.
Proof. intros [[b1 e1] v1] [[b2 e2] v2] [[b3 e3] v3]. cbn. lia. Qed.
#[local] Instance interval_le_total : Total interval_le.
Proof. intros [[b1 e1] v1] [[b2 e2] v2]. cbn. lia. Qed.

Lemma find_interval_sound items t v :
  find_interval items t = Some v → ∃ b e, (b, e, v) ∈ items ∧ b ≤ t < e.
Proof.
  unfold find_interval. destruct (bisect_right _ _ _ _ _) as [|k]; [done|].
  destruct (items !! k) as [[[b e] v']|] eqn:Hk; [|done].
  destruct ((b <=? t) && (t <? e)) eqn:Hin; [|done]. intros [= ->].
  exists b, e. split; [by eapply list_elem_of_lookup_2|]. lia.
Qed.

Lemma begins_sorted items : StronglySorted interval_le items → Sorted Z.le items.*1.*1.
Proof.
  intros H. apply StronglySorted_Sorted. induction H as [|[[b e] v] l Hl IH Ha]; cbn; [constructor|].
  constructor; [done|]. clear -Ha. induction Ha as [|[[b' e'] v'] l Hx Ha IH]; cbn; constructor; [|done].
  cbn in Hx. lia.
Qed.

Lemma find_interval_complete items t b e v :
  StronglySorted interval_le items → well_spaced items → (b, e, v) ∈ items → b ≤ t < e →
  find_interval items t = Some v.
Proof.
  intros Hs [Hpos Hsep] [m Hm]%list_elem_of_lookup Ht. unfold find_interval.
  destruct (bisect_right_spec (length items) items.*1.*1 t 0 (length items)) as (Hk & Hlo & Hup);
    [by apply begins_sorted|lia|lia|by rewrite !length_fmap|lia|rewrite !length_fmap; lia|].
  rewrite !length_fmap in *.
  set (k := bisect_right _ _ _ _ _) in *.
  assert (∀ i it, items !! i = Some it → nth i items.*1.*1 0 = it.1.1) as Hnth.
  { intros i it Hi. apply nth_lookup_Some. by rewrite !list_lookup_fmap, Hi. }
  pose proof (lookup_lt_Some _ _ _ Hm) as Hml.
  assert (m < k)%nat as Hmk.
  { destruct (decide (m < k)%nat); [done|]. specialize (Hup m ltac:(lia) Hml).
    rewrite (Hnth _ _ Hm) in Hup. cbn in Hup. lia. }
  destruct k as [|j]; [lia|].
  destruct (lookup_lt_is_Some_2 items j) as [[[b' e'] v'] Hj]; [lia|]. rewrite Hj.
  specialize (Hlo j ltac:(lia)). rewrite (Hnth _ _ Hj) in Hlo. cbn in Hlo.
  destruct (decide (m = j)) as [->|Hne].
  - rewrite Hj in Hm. injection Hm as -> -> ->.
    by rewrite (proj2 (Z.leb_le _ _)), (proj2 (Z.ltb_lt _ _)) by lia.
  - exfalso. pose proof (sorted_lookup _ _ _ _ _ _ Hs Hm Hj ltac:(lia)) as Hle.
    pose proof (Hpos _ (list_elem_of_lookup_2 _ _ _ Hj)) as Hp.
    destruct (Hsep _ _ _ _ Hm Hj Hne) as [H|H]; cbn in *; lia.
Qed.

Lemma well_spaced_perm items items' : items ≡ₚ items' → well_spaced items → well_spaced items'.
Proof.
  intros Hp [H1 H2]. split; [intros it Hit; apply H1; by rewrite Hp|].
  symmetry in Hp. apply Permutation_inj in Hp as [_ (f & Hf & Hl)].
  intros i j a b Hi Hj Hij. rewrite Hl in Hi, Hj. apply (H2 (f i) (f j)); [done..|].
  intros Heq. by apply Hf in Heq.
Qed.

Lemma find_sorted_iff items t v :
  well_spaced items →
  find_interval (merge_sort interval_le items) t = Some v ↔ ∃ b e, (b, e, v) ∈ items ∧ b ≤ t < e.
Proof.
  intros Hw. pose proof (merge_sort_Permutation interval_le items) as Hp. split.
  - intros (b & e & Hin & Ht)%find_interval_sound. rewrite Hp in Hin. eauto.
  - intros (b & e & Hin & Ht). eapply find_interval_complete; [apply StronglySorted_merge_sort; apply _| |by rewrite Hp|done].
    eapply well_spaced_perm; [symmetry; exact Hp|done].
Qed.

(** ** The join conserves calls *)

Lemma append_at_keys {A} (d : list (nat * list A)) i a : (append_at d i a).*1 = d.*1.
Proof.
  unfold append_at. rewrite <- list_fmap_compose. apply list_fmap_ext. intros k [x l] _. cbn.
  by destruct (decide (x = i)).
Qed.

Lemma append_at_absent {A} (d : list (nat * list A)) i a : i ∉ d.*1 → append_at d i a = d.
Proof.
  induction d as [|[k l] d IH]; intros Hi; [done|]. rewrite fmap_cons in Hi.
  apply not_elem_of_cons in Hi as [Hne Hi]. cbn. rewrite decide_False by (cbn in Hne; congruence).
  f_equal. by apply IH.
Qed.

Lemma append_at_calls {A} (d : list (nat * list A)) i a :
  NoDup d.*1 → i ∈ d.*1 → mjoin (append_at d i a).*2 ≡ₚ a :: mjoin d.*2.
Proof.
  induction d as [|[k l] d IH]; intros Hnd Hi; [by apply elem_of_nil in Hi|].
  rewrite fmap_cons in Hnd, Hi. apply NoDup_cons in Hnd as [Hk Hnd]. cbn in Hk.
  cbn [append_at fmap list_fmap fst snd]. fold (append_at d i a).
  destruct (decide (k = i)) as [->|Hne]; cbn [fmap list_fmap mjoin list_join snd].
  - rewrite append_at_absent by done. solve_Permutation.
  - apply elem_of_cons in Hi as [Hi|Hi]; [cbn in Hi; congruence|].
    rewrite IH by done. solve_Permutation.
Qed.

Lemma append_at_elem {A} (d : list (nat * list A)) i a k l x :
  (k, l) ∈ append_at d i a → x ∈ l → (k = i ∧ x = a) ∨ ∃ l', (k, l') ∈ d ∧ x ∈ l'.
Proof.
  intros ([k' l'] & Hkl & Hin)%list_elem_of_fmap Hx. cbn in Hkl.
  destruct (decide (k' = i)); injection Hkl as -> ->; [|eauto].
  apply elem_of_app in Hx as [Hx|Hx%list_elem_of_singleton]; [eauto|auto].
Qed.

(** Both edges of a call are in the Activation's interval, on the runner
    thread. *)
Definition attributed (j : join) (i : nat) (c : call) : Prop :=
  py_eq (JInt (ca_tid c)) (jn_runner_tid j) = true
  ∧ find_interval (jn_intervals j) (edge_ns (ca_entry c)) = Some i
  ∧ find_interval (jn_intervals j) (edge_ns (ca_ret c)) = Some i.

(** The calls under the selected Activations are attributed to them, and come
    from [paired]. *)
Record joined_ok (paired : list call) (j : join) (s : joined) : Prop := {
  jo_keys : (jd_calls s).*1 = jn_selected j;
  jo_attributed : ∀ i cs c, (i, cs) ∈ jd_calls s → c ∈ cs → attributed j i c ∧ c ∈ paired;
}.

(** The calls the join has placed. *)
Definition placed (s : joined) : list call :=
  mjoin (jd_calls s).*2 ++ (jd_unattributed s).*1.

Lemma flag_calls j s i r :
  jd_calls (flag j s i r) = jd_calls s ∧ jd_unattributed (flag j s i r) = jd_unattributed s.
Proof. unfold flag. destruct i as [i|]; [|done]. by destruct (bool_decide _). Qed.

Lemma unattribute_ok paired j s s' c r :
  jd_calls s' = jd_calls s ∧ jd_unattributed s' = jd_unattributed s →
  joined_ok paired j s → joined_ok paired j (unattribute s' c r) ∧ placed (unattribute s' c r) ≡ₚ c :: placed s.
Proof.
  intros [H1 H2] [Hk Ha]. unfold placed, unattribute. cbn [jd_calls jd_unattributed].
  split; [split; cbn; by rewrite ?H1|]. rewrite H1, H2, fmap_app. cbn. solve_Permutation.
Qed.

Lemma join_call_ok paired j s c :
  NoDup (jn_selected j) → c ∈ paired → joined_ok paired j s →
  joined_ok paired j (join_call j s c) ∧ placed (join_call j s c) ≡ₚ c :: placed s.
Proof.
  intros Hnd Hcp Hok. unfold join_call. destruct (jn_cut j && _); [by apply unattribute_ok|].
  destruct (py_eq (JInt (ca_tid c)) (jn_runner_tid j)) eqn:Ht; cbn [negb]; [|by apply unattribute_ok].
  destruct (find_interval _ (edge_ns (ca_entry c))) as [i|] eqn:He,
    (find_interval _ (edge_ns (ca_ret c))) as [i'|] eqn:Hr; [| | |by apply unattribute_ok].
  - case_bool_decide as Heq; [injection Heq as <-|].
    + case_bool_decide as Hi; [|by apply unattribute_ok]. destruct Hok as [Hk Ha]. split.
      * split; cbn [jd_calls]; [by rewrite append_at_keys|].
        intros k cs d Hin Hd. destruct (append_at_elem _ _ _ _ _ _ Hin Hd) as [[-> ->]|(cs' & ? & ?)];
          [done|by eapply Ha].
      * unfold placed. cbn [jd_calls jd_unattributed]. rewrite append_at_calls; [done|..]; by rewrite Hk.
    + apply unattribute_ok; [|done].
      by rewrite !(proj1 (flag_calls _ _ _ _)), !(proj2 (flag_calls _ _ _ _)).
  - case_bool_decide; [done|]. apply unattribute_ok; [|done].
    by rewrite !(proj1 (flag_calls _ _ _ _)), !(proj2 (flag_calls _ _ _ _)).
  - case_bool_decide; [done|]. apply unattribute_ok; [|done].
    by rewrite !(proj1 (flag_calls _ _ _ _)), !(proj2 (flag_calls _ _ _ _)).
Qed.

Lemma join_unpaired_ok paired j s c :
  joined_ok paired j s →
  joined_ok paired j (join_unpaired j s c) ∧ placed (join_unpaired j s c) ≡ₚ c :: placed s.
Proof.
  intros Hok. unfold join_unpaired. apply unattribute_ok; [|done].
  destruct (py_eq _ _); [apply flag_calls|done].
Qed.

Lemma foldl_placed (f : joined → call → joined) paired j cs s :
  (∀ s c, c ∈ cs → joined_ok paired j s →
     joined_ok paired j (f s c) ∧ placed (f s c) ≡ₚ c :: placed s) →
  joined_ok paired j s → joined_ok paired j (foldl f s cs) ∧ placed (foldl f s cs) ≡ₚ cs ++ placed s.
Proof.
  revert s. induction cs as [|c cs IH]; intros s Hf Hs; cbn [foldl]; [done|].
  destruct (Hf s c ltac:(left) Hs) as [H1 H2]. destruct (IH (f s c)) as [H3 H4]; [|done|].
  { intros. apply Hf; [by right|done]. }
  split; [done|]. rewrite H4, H2. cbn. by rewrite <- Permutation_middle.
Qed.

Lemma start_joined_ok paired j : joined_ok paired j (start_joined j) ∧ placed (start_joined j) = [].
Proof.
  unfold start_joined, placed. cbn [jd_calls jd_unattributed]. split.
  - split; cbn [jd_calls].
    + rewrite <- list_fmap_compose. induction (jn_selected j); cbn; f_equal; auto.
    + intros i cs c (k & [= -> ->] & _)%list_elem_of_fmap Hc. by apply elem_of_nil in Hc.
  - rewrite app_nil_r, <- list_fmap_compose. induction (jn_selected j); cbn; auto.
Qed.

Lemma join_all_ok j paired unpaired :
  NoDup (jn_selected j) →
  joined_ok paired j (join_all j paired unpaired)
  ∧ placed (join_all j paired unpaired) ≡ₚ paired ++ unpaired.
Proof.
  intros Hnd. unfold join_all. destruct (start_joined_ok paired j) as [H0 Hp0].
  destruct (foldl_placed (join_call j) paired j paired (start_joined j)) as [H1 Hp1];
    [intros; by apply join_call_ok|done|].
  destruct (foldl_placed (join_unpaired j) paired j unpaired (foldl (join_call j) (start_joined j) paired))
    as [H2 Hp2]; [intros; by apply join_unpaired_ok|done|].
  split; [done|]. rewrite Hp2, Hp1, Hp0, app_nil_r. apply Permutation_app_comm.
Qed.

(** ** Totals *)

(** An unpaired call is one edge. *)
Definition single_edge (c : call) : Prop := length (edges_of c) = 1%nat.

Lemma open_single p tid stack c :
  open_ok p → dget (pa_stacks p) tid = Some stack → c ∈ stack → single_edge c.
Proof.
  intros Hok Hs Hc. destruct (Hok _ _ _ Hs Hc) as (_ & Hr & [[i ns] He]).
  unfold single_edge, edges_of. by rewrite He, Hr.
Qed.

Lemma pair_record_unpaired p ix :
  open_ok p → Forall single_edge (pa_unpaired p) → Forall single_edge (pa_unpaired (pair_record p ix)).
Proof.
  intros Hok Hu. destruct ix as [i [ns tid scope []]]; unfold pair_record;
    cbn [ev_tid ev_edge ev_scope ev_ns]; [done|].
  destruct (split_scope _ _) as [[[above c] below]|] eqn:Hs; cbn [pa_unpaired]; apply Forall_app;
    (split; [done|]); [|by apply Forall_singleton].
  apply split_scope_Some in Hs as (Hs & _). apply Forall_forall. intros d Hd.
  rewrite elem_of_reverse in Hd. destruct (dget (pa_stacks p) tid) as [stack|] eqn:Hg; cbn in Hs.
  - eapply open_single; [done..|]. rewrite Hs. set_solver.
  - by destruct above.
Qed.

Lemma unpaired_single records : Forall single_edge (pair_calls records).2.
Proof.
  unfold pair_calls. cbn [snd].
  assert (∀ ixs p, open_ok p → Forall single_edge (pa_unpaired p) →
    open_ok (foldl pair_record p ixs) ∧ Forall single_edge (pa_unpaired (foldl pair_record p ixs))) as H.
  { intros ixs. induction ixs as [|ix ixs IH]; intros p Ho Hu; cbn [foldl]; [done|].
    apply IH; [by apply pair_record_open|by apply pair_record_unpaired]. }
  destruct (H (enumerate records) (mk_pairing [] [] [])) as [Ho Hu]; [by intros ? ? ? ?|constructor|].
  pose proof (ns_open _ _ (pair_nested records)) as Hopen.
  apply Forall_app. split; [done|]. rewrite reversed_stacks.
  assert (NoDup (pa_stacks (foldl pair_record (mk_pairing [] [] []) (enumerate records))).*1) as Hnd.
  { clear. enough (∀ p, NoDup (pa_stacks p).*1 → NoDup (pa_stacks (foldl pair_record p (enumerate records))).*1)
      as H by (apply H; constructor).
    generalize (enumerate records). intros ixs. induction ixs as [|[i [ns tid sc []]] ixs IH];
      intros p Hp; cbn [foldl]; [done|..]; apply IH; unfold pair_record; cbn [ev_tid ev_edge ev_scope].
    - by apply dset_NoDup.
    - destruct (split_scope _ _) as [[[? ?] ?]|]; by apply dset_NoDup. }
  apply Forall_forall. intros c (stack & Hc & ([tid s] & -> & Hin)%list_elem_of_fmap)%list_elem_of_join.
  eapply open_single; [done| |done]. by apply dget_elem.
Qed.

Lemma all_edges_length (cs : list call) n :
  Forall (λ c, length (edges_of c) = n) cs → length (all_edges cs) = (n * length cs)%nat.
Proof.
  induction 1 as [|c cs Hc Hcs IH]; [cbn; lia|].
  change (all_edges (c :: cs)) with (edges_of c ++ all_edges cs).
  rewrite length_app, Hc, IH. cbn [length]. lia.
Qed.

Lemma closed_edges c : closed c → length (edges_of c) = 2%nat.
Proof. intros (i & ns & r & ns' & He & Hr & _). unfold edges_of. by rewrite He, Hr. Qed.

Lemma edge_counts records :
  (count_of Entry (ev_edge <$> records) + count_of Return (ev_edge <$> records))%nat = length records.
Proof.
  unfold count_of. induction records as [|[ns t sc e] records IH]; [done|].
  rewrite fmap_cons, !filter_cons. cbn [ev_edge length].
  destruct e; repeat case_decide; try done; cbn [length]; lia.
Qed.

(** Each record is one edge of a paired call or one unpaired edge. *)
Lemma pair_counts records :
  length records = (2 * length (pair_calls records).1 + length (pair_calls records).2)%nat.
Proof.
  pose proof (Permutation_length (pair_edges records)) as H. unfold enumerate in H.
  rewrite enumerate_from_length, all_edges_app, length_app in H. rewrite <- H.
  rewrite (all_edges_length _ 2), (all_edges_length _ 1); [lia|apply unpaired_single|].
  eapply Forall_impl; [apply paired_closed|]. apply closed_edges.
Qed.

Lemma nest_length calls : length (nest calls) = length calls.
Proof.
  unfold nest. generalize 0%nat ([] : list (nat * nat)).
  induction calls as [|c calls IH]; intros n open; cbn; [done|]. by rewrite IH.
Qed.

Lemma activation_of_calls h j s i a :
  activation_of h j s i = Ok a →
  (length (ac_calls a) + ac_withheld a = length (default [] (dget (jd_calls s) i)))%nat
  ∧ (ac_reason a ≠ None → ac_calls a = []).
Proof.
  unfold activation_of. intros H. inv_ok.
  assert (length (merge_sort order_le (default [] (dget (jd_calls s) i)))
          = length (default [] (dget (jd_calls s) i))) as Hl
    by (by rewrite (merge_sort_Permutation order_le)).
  destruct (first_reason _); cbn; [by rewrite Hl|]. rewrite nest_length, Hl. split; [lia|done].
Qed.

Lemma sum_exact (acts : list activation) :
  Forall (λ a, ac_reason a ≠ None → ac_calls a = []) acts →
  sum_list_with (length ∘ ac_calls) (filter (λ a, ac_reason a = None) acts)
  = sum_list_with (length ∘ ac_calls) acts.
Proof.
  induction 1 as [|a acts Ha Hacts IH]; [done|]. rewrite filter_cons. cbn [sum_list_with].
  case_decide as Hr; cbn [sum_list_with]; rewrite IH; [done|]. cbn. by rewrite (Ha Hr).
Qed.

Lemma sum_calls (d : list (nat * list call)) (ks : list nat) :
  NoDup ks → d.*1 = ks →
  sum_list_with (λ i, length (default [] (dget d i))) ks = length (mjoin d.*2).
Proof.
  revert ks. induction d as [|[k l] d IH]; intros ks Hnd <-; [done|]. rewrite fmap_cons in *.
  apply NoDup_cons in Hnd as [Hk Hnd]. cbn [sum_list_with fst snd dget fmap list_fmap mjoin list_join].
  rewrite decide_True by done. cbn [default from_option id]. rewrite length_app. f_equal.
  etransitivity; [|apply (IH _ Hnd eq_refl)]. clear IH Hnd. cbn in Hk. induction (d.*1) as [|x xs IHx]; [done|].
  apply not_elem_of_cons in Hk as [Hne Hk]. cbn [sum_list_with].
  rewrite decide_False by done. by rewrite IHx.
Qed.

Lemma document_totals h records participant j d :
  NoDup (jn_selected j) → document_of h records participant j = Ok d →
  let t := do_totals d in
  (to_entries t + to_returns t
   = to_paired t + to_attributed t + to_withheld t + to_unattributed t)%nat.
Proof.
  intros Hnd H. unfold document_of in H. destruct (pair_calls records) as [paired unpaired] eqn:Hpair.
  pose proof (pair_counts records) as Hc. rewrite Hpair in Hc. cbn [fst snd] in Hc.
  destruct (join_all_ok j paired unpaired Hnd) as [[Hk _] Hp]. inv_ok.
  cbn [do_totals to_entries to_returns to_paired to_attributed to_withheld to_unattributed].
  rewrite edge_counts, length_fmap, (merge_sort_Permutation unattributed_le), Hc.
  apply Permutation_length in Hp. unfold placed in Hp. rewrite !length_app, length_fmap in Hp.
  apply mapE_Ok in Hok. rewrite sum_exact.
  2: { eapply Forall2_Forall_r; [exact Hok|]. apply Forall_forall. intros i _ a' Ha.
       by destruct (activation_of_calls _ _ _ _ _ Ha). }
  assert (sum_list_with (length ∘ ac_calls) a + sum_list_with ac_withheld a
          = sum_list_with (λ i, length (default [] (dget (jd_calls (join_all j paired unpaired)) i)))
              (jn_selected j))%nat as Hsum.
  { clear -Hok. induction Hok as [|i a' ks acts Hi Hacts IH]; [done|]. cbn [sum_list_with].
    apply activation_of_calls in Hi as [Hi _]. cbn. lia. }
  rewrite (sum_calls _ _ Hnd Hk) in Hsum. lia.
Qed.

Lemma new_join_selected s participant j : new_join s participant = Ok j → NoDup (jn_selected j).
Proof.
  unfold new_join, select_rows. intros H. inv_ok. cbn [jn_selected].
  eapply sublist_NoDup; [|apply (fmap_sublist fst), sublist_filter].
  apply mapE_Ok in Hok1. rename a1 into flags.
  assert (flags.*1 = (enumerate (filter (λ r, is_kind "activation" r = true) (st_rows s))).*1) as ->.
  { clear Hok0. induction Hok1 as [|[i r] f l l' Hf Hl IH]; [done|]. rewrite !fmap_cons, IH.
    by inv_ok. }
  unfold enumerate. clear. generalize 0%nat (filter (λ r, is_kind "activation" r = true) (st_rows s)).
  intros n l. assert ((enumerate_from n l).*1 = seq n (length l)) as ->; [|apply NoDup_seq].
  revert n. induction l as [|x l IH]; intros n; cbn; [done|]. by rewrite IH.
Qed.

(** ** Attributed calls are inside their Activation *)

Lemma nest_go_elem n open calls r :
  r ∈ nest_go n open calls → ∃ c, c ∈ calls ∧ nr_entry_ns r = edge_ns (ca_entry c)
    ∧ nr_return_ns r = edge_ns (ca_ret c) ∧ nr_elapsed_ns r = nr_return_ns r - nr_entry_ns r
    ∧ nr_scope r = ca_scope c.
Proof.
  revert n open. induction calls as [|c calls IH]; intros n open; cbn [nest_go];
    [by intros ?%elem_of_nil|].
  intros [->|Hr]%elem_of_cons; [exists c; split_and!; [left|done..]|].
  destruct (IH _ _ Hr) as (d & Hd & ?). exists d. split; [by right|done].
Qed.

(** The interval of an Activation is the one its row gives. *)
Lemma runner_intervals_elem tid rows items b e i :
  runner_intervals tid rows = Ok items → (b, e, i) ∈ items →
  ∃ row, rows !! i = Some row ∧ host row "begin_ns" = Some b ∧ host row "end_ns" = Some e.
Proof.
  unfold runner_intervals. intros H%mapE_Ok [k Hk]%list_elem_of_lookup.
  destruct (Forall2_lookup_r _ _ _ _ _ H Hk) as ([i' row] & Hrow & Hf). cbn [fst snd] in Hf. inv_ok.
  apply list_elem_of_lookup_2, list_elem_of_filter in Hrow as [_ Hrow]. apply enumerate_elem in Hrow.
  exists row. unfold host_now in *.
  destruct (jget row "begin_ns"), (host row "begin_ns"); try discriminate.
  destruct (jget row "end_ns"), (host row "end_ns"); try discriminate. by simplify_eq.
Qed.

(** The record of an Activation has the row's values. *)
Lemma record_host row record k :
  mapE (row_key row) RECORD_KEYS = Ok record → k ∈ RECORD_KEYS → host (JObj record) k = host row k.
Proof.
  intros H Hk. unfold host. cbn [jget].
  enough (dget record k = jget row k) as -> by done.
  apply mapE_Ok in H. revert Hk. induction H as [|k' [k1 v] ks record Hkv Hr IH];
    [by intros ?%elem_of_nil|].
  unfold row_key in Hkv. destruct (jget row k') eqn:Hj; [|discriminate]. injection Hkv as <- <-.
  cbn [dget]. destruct (decide (k = k')) as [->|Hne]; [done|].
  intros [->|Hk]%elem_of_cons; [done|auto].
Qed.

Lemma activation_of_inside h j s i a r paired :
  joined_ok paired j s → activation_of h j s i = Ok a → r ∈ ac_calls a →
  ∃ c row, c ∈ paired ∧ attributed j i c ∧ jn_rows j !! i = row
    ∧ mapE (row_key (default JNull row)) RECORD_KEYS = Ok (ac_record a)
    ∧ nr_entry_ns r = edge_ns (ca_entry c) ∧ nr_return_ns r = edge_ns (ca_ret c)
    ∧ nr_elapsed_ns r = nr_return_ns r - nr_entry_ns r.
Proof.
  intros [_ Hat] H Hr. unfold activation_of in H. inv_ok.
  destruct (first_reason _); cbn [ac_calls] in Hr; [by apply elem_of_nil in Hr|].
  apply nest_go_elem in Hr as (c & Hc & ? & ? & ? & _). rewrite merge_sort_Permutation in Hc.
  destruct (dget (jd_calls s) i) as [cs|] eqn:Hcs; [|by apply elem_of_nil in Hc].
  destruct (Hat i cs c) as [? ?]; [by apply dget_Some|done|].
  exists c, (jn_rows j !! i). cbn [ac_record]. by split_and!.
Qed.

Lemma decode_Ok loads events observations scope_map participant capture_id sha d :
  decode loads events observations scope_map participant capture_id sha = Ok d →
  ∃ h scopes records j, read_records events h scopes = Ok records
    ∧ new_join (parse_stream loads observations) participant = Ok j
    ∧ document_of h records participant j = Ok d.
Proof. unfold decode. intros H. inv_ok. eauto 10. Qed.

(** The interval of a selected Activation, as [find_interval] uses it. *)
Lemma new_join_interval s participant j t i :
  new_join s participant = Ok j → find_interval (jn_intervals j) t = Some i →
  ∃ row b e, jn_rows j !! i = Some row ∧ host row "begin_ns" = Some b ∧ host row "end_ns" = Some e
             ∧ b ≤ t < e.
Proof.
  unfold new_join. intros H Hf. inv_ok. cbn [jn_intervals jn_rows] in *.
  apply find_interval_sound in Hf as (b & e & Hin & Ht). rewrite merge_sort_Permutation in Hin.
  match goal with Hi : runner_intervals _ _ = Ok _ |- _ =>
    destruct (runner_intervals_elem _ _ _ _ _ _ Hi Hin) as (row & ? & ? & ?) end.
  by exists row, b, e.
Qed.

Lemma decode_inside loads events observations scope_map participant capture_id sha d a r :
  decode loads events observations scope_map participant capture_id sha = Ok d →
  a ∈ do_activations d → r ∈ ac_calls a →
  ∃ b e, host (JObj (ac_record a)) "begin_ns" = Some b ∧ host (JObj (ac_record a)) "end_ns" = Some e
         ∧ b ≤ nr_entry_ns r ≤ nr_return_ns r ∧ nr_return_ns r < e
         ∧ nr_elapsed_ns r = nr_return_ns r - nr_entry_ns r.
Proof.
  intros (h & scopes & records & j & Hrec & Hj & H)%decode_Ok Ha Hr.
  pose proof (new_join_selected _ _ _ Hj) as Hnd. unfold document_of in H.
  destruct (pair_calls records) as [paired unpaired] eqn:Hpair. inv_ok. cbn [do_activations] in Ha.
  destruct (join_all_ok j paired unpaired Hnd) as [Hjo _].
  apply mapE_Ok in Hok. apply list_elem_of_lookup in Ha as [k Hk].
  destruct (Forall2_lookup_r _ _ _ _ _ Hok Hk) as (i & _ & Hi).
  destruct (activation_of_inside _ _ _ _ _ _ _ Hjo Hi Hr)
    as (c & row & Hc & (_ & Hfe & Hfr) & Hrow & Hkeys & He & Hre & Hel).
  destruct (new_join_interval _ _ _ _ _ Hj Hfe) as (row1 & b & e & Hrow1 & Hb & Hend & Ht1).
  destruct (new_join_interval _ _ _ _ _ Hj Hfr) as (row2 & b2 & e2 & Hrow2 & Hb2 & Hend2 & Ht2).
  rewrite Hrow1 in Hrow2. injection Hrow2 as <-. rewrite Hb in Hb2. injection Hb2 as <-.
  rewrite Hend in Hend2. injection Hend2 as <-. rewrite Hrow1 in Hrow. subst row. cbn in Hkeys.
  assert (nr_entry_ns r ≤ nr_return_ns r) as Hle.
  { rewrite He, Hre. apply (paired_times records); [by eapply read_records_sorted|].
    by rewrite Hpair. }
  exists b, e. rewrite !(record_host _ _ _ Hkeys) by (unfold RECORD_KEYS; set_solver).
  split_and!; try done; lia.
Qed.

(** ** Nesting *)

(** The rows before row [i] whose calls are still open at its entry, the
    innermost first. *)
Definition still_open (calls : list call) (e j : nat) : bool :=
  match calls !! j with
  | Some c => bool_decide (e ≤ return_index c)%nat
  | None => false
  end.
Definition open_at (calls : list call) (n e : nat) : list nat :=
  filter (λ j, still_open calls e j = true) (reverse (seq 0 n)).
Definition enclosing (calls : list call) (i : nat) : list nat :=
  match calls !! i with
  | Some c => open_at calls i (entry_index c)
  | None => []
  end.

(** Calls of one thread, in entry order, that do not cross. *)
Record nesting (calls : list call) : Prop := {
  ne_sorted : StronglySorted (λ a b, (entry_index a < entry_index b)%nat) calls;
  ne_inside : ∀ i j c d, calls !! i = Some c → calls !! j = Some d → (i < j)%nat →
    (entry_index d ≤ return_index c)%nat → (return_index d < return_index c)%nat;
}.

Lemma pop_closed_filter e open :
  StronglySorted (λ a b, (a.1 < b.1)%nat) open →
  pop_closed e open = filter (λ rj, (e ≤ rj.1)%nat) open.
Proof.
  induction 1 as [|[r j] open Hs IH Ha]; [done|]. cbn [pop_closed]. rewrite filter_cons.
  cbn [fst]. destruct (decide (r < e)%nat); case_decide; try lia; [done|].
  f_equal. symmetry. apply filter_all. eapply Forall_impl; [exact Ha|]. cbn. lia.
Qed.

(** The rows that are open after row [n - 1], with their return indices. *)
Definition open_rows (calls : list call) (e n : nat) : list (nat * nat) :=
  (λ j, (default 0%nat (return_index <$> calls !! j), j)) <$> open_at calls n e.

Lemma open_at_succ calls n e :
  open_at calls (S n) e = if still_open calls e n then n :: open_at calls n e else open_at calls n e.
Proof.
  unfold open_at. rewrite seq_S, reverse_snoc, filter_cons. cbn.
  destruct (still_open calls e n); by case_decide.
Qed.

Lemma open_at_elem calls n e j :
  j ∈ open_at calls n e ↔ (j < n)%nat ∧ ∃ c, calls !! j = Some c ∧ (e ≤ return_index c)%nat.
Proof.
  unfold open_at, still_open. rewrite list_elem_of_filter, elem_of_reverse, elem_of_seq.
  destruct (calls !! j) as [c|].
  - rewrite bool_decide_eq_true. split; [intros [? ?]; split; [lia|eauto]|].
    intros [? (c' & [= <-] & ?)]. split; [done|lia].
  - split; [by intros [? ?]|]. by intros [_ (c & ? & _)].
Qed.

(** The open calls are those still open at any later entry. *)
Definition open_inv (calls : list call) (n : nat) (open : list (nat * nat)) : Prop :=
  StronglySorted (λ a b, (a.1 < b.1)%nat) open
  ∧ ∀ e, (∀ j c, (j < n)%nat → calls !! j = Some c → (entry_index c < e)%nat) →
      filter (λ rj, (e ≤ rj.1)%nat) open = open_rows calls e n.

Lemma open_inv_step calls n open c :
  nesting calls → calls !! n = Some c → open_inv calls n open →
  pop_closed (entry_index c) open = open_rows calls (entry_index c) n
  ∧ open_inv calls (S n) ((return_index c, n) :: pop_closed (entry_index c) open).
Proof.
  intros [Hsort Hin] Hc [Hs Hopen].
  assert (∀ j d, (j < n)%nat → calls !! j = Some d → (entry_index d < entry_index c)%nat) as Hlt.
  { intros j d Hj Hd. exact (sorted_lookup _ _ _ _ _ _ Hsort Hd Hc Hj). }
  pose proof (pop_closed_filter (entry_index c) open Hs) as Hpop.
  rewrite (Hopen _ Hlt) in Hpop. split; [done|]. rewrite Hpop. split.
  - constructor; [rewrite <- (Hopen _ Hlt); by apply sorted_filter|].
    apply Forall_forall. intros x (j & -> & (Hj & d & Hd & Hle)%open_at_elem)%list_elem_of_fmap.
    rewrite Hd. cbn. by eapply Hin.
  - intros e He. rewrite filter_cons. cbn [fst].
    assert (filter (λ rj, (e ≤ rj.1)%nat) (open_rows calls (entry_index c) n) = open_rows calls e n) as ->.
    { rewrite <- (Hopen _ Hlt), filter_twice; [apply Hopen|].
      - intros j d Hj. apply He. lia.
      - intros [r j]. cbn. specialize (He n c ltac:(lia) Hc). lia. }
    unfold open_rows. rewrite open_at_succ. unfold still_open. rewrite Hc.
    case_decide; case_bool_decide; try done. cbn. by rewrite Hc.
Qed.

Lemma nest_go_rows calls n open rest i row :
  nesting calls → drop n calls = rest → open_inv calls n open →
  nest_go n open rest !! i = Some row →
  nr_depth row = length (enclosing calls (n + i)) ∧ nr_parent row = head (enclosing calls (n + i)).
Proof.
  intros Hne. revert n open i. induction rest as [|c rest IH]; intros n open i Hd Hinv Hi; [done|].
  assert (calls !! n = Some c) as Hc.
  { rewrite <- (Nat.add_0_r n), <- lookup_drop, Hd. done. }
  destruct (open_inv_step _ _ _ _ Hne Hc Hinv) as [Hpop Hinv'].
  cbn [nest_go] in Hi. destruct i as [|i]; cbn in Hi.
  - injection Hi as <-. cbn [nr_depth nr_parent]. rewrite Nat.add_0_r. unfold enclosing.
    rewrite Hc, Hpop. unfold open_rows. rewrite length_fmap. split; [done|].
    by destruct (open_at calls n (entry_index c)).
  - rewrite <- Nat.add_succ_comm. eapply IH; [|exact Hinv'|exact Hi].
    rewrite <- Nat.add_1_r, <- drop_drop, Hd. done.
Qed.

Lemma nest_rows calls i row :
  nesting calls → nest calls !! i = Some row →
  nr_depth row = length (enclosing calls i) ∧ nr_parent row = head (enclosing calls i).
Proof.
  intros Hne. apply (nest_go_rows calls 0); [done..|].
  split; [constructor|]. intros e _. done.
Qed.

(** Calls of one thread that pairing made nest. *)
Lemma paired_nesting records tid calls :
  (∀ c, c ∈ calls → c ∈ (pair_calls records).1 ∧ ca_tid c = tid) →
  StronglySorted (λ a b, (entry_index a < entry_index b)%nat) calls → nesting calls.
Proof.
  intros Hp Hs. split; [done|]. intros i j c d Hi Hj Hij Hle.
  destruct (Hp c) as [Hc Htc]; [by eapply list_elem_of_lookup_2|].
  destruct (Hp d) as [Hd Htd]; [by eapply list_elem_of_lookup_2|].
  pose proof (sorted_lookup _ _ _ _ _ _ Hs Hi Hj Hij) as Hlt.
  destruct (ns_laminar _ _ (pair_nested records) c d Hc Hd) as [H|H]; [congruence|done|lia|done].
Qed.

(** ** A small capture *)

Section demo.
Local Open Scope string_scope.

Definition demo_record (ns tid scope e : Z) : bytes :=
  (le_bytes 8 ns ++ le_bytes 4 tid ++ le_bytes 2 scope ++ le_bytes 1 e ++ le_bytes 1 0)%list.

Definition demo_events : bytes :=
  (MAGIC ++ le_bytes 2 1 ++ le_bytes 2 256 ++ le_bytes 2 16 ++ le_bytes 2 FINALIZED
   ++ replicate 16 x00 ++ le_bytes 4 7 ++ le_bytes 4 0 ++ le_bytes 8 5 ++ le_bytes 8 5
   ++ le_bytes 8 0 ++ le_bytes 8 0 ++ le_bytes 8 0 ++ le_bytes 8 1 ++ le_bytes 8 2 ++ le_bytes 8 3
   ++ le_bytes 8 5 ++ le_bytes 8 6 ++ le_bytes 1 1 ++ [x2a] ++ replicate 39 x00 ++ replicate 95 x00
   ++ demo_record 10 7 1 0 ++ demo_record 12 7 2 0 ++ demo_record 15 7 2 1 ++ demo_record 18 7 1 1
   ++ demo_record 19 8 1 1)%list.

Definition demo_map : json :=
  JObj [("sil_source_scope_map", JInt 1);
        ("scopes", JArr [JObj [("id", JInt 1); ("sites", JArr [])];
                         JObj [("id", JInt 2); ("sites", JArr [])]]);
        ("library", JObj [("build_id", JStr "2a"); ("sha256", JStr "ff")])].

Definition demo_loads (line : string) : option json :=
  if String.eqb line "h" then
    Some (JObj [("sil_activation_observations", JInt 1); ("runner_pid", JInt 7);
                ("pid_namespace", JObj [("inode", JInt 6); ("device", JInt 5)]);
                ("clock", JStr "host_monotonic"); ("runner_tid", JInt 7)])
  else if String.eqb line "a" then
    Some (JObj [("kind", JStr "activation"); ("participant", JStr "p"); ("tid", JInt 7);
                ("task_kind", JStr "native_task"); ("task", JStr "t"); ("index", JInt 0);
                ("virtual_time_ns", JInt 0); ("begin_ns", JStr "5"); ("end_ns", JStr "20");
                ("outcome", JStr "completed")])
  else if String.eqb line "e" then Some (JObj [("kind", JStr "end")])
  else None.

Definition demo_observations : string :=
  String "h" (String "010" (String "a" (String "010" (String "e" (String "010" ""))))).

Definition demo_decode : decoded document :=
  decode demo_loads demo_events demo_observations demo_map "p"
    "00000000-0000-0000-0000-000000000000" (Some "ff").

Definition demo_document : document :=
  match demo_decode with
  | Ok d => d
  | Err _ => mk_document "" "" [] (mk_totals 0 0 0 0 0 0) [] [] [] 0
  end.
End demo.

Lemma demo_decoded : demo_decode = Ok demo_document.
Proof. vm_compute. reflexivity. Qed.

(** ** Claims *)

(** C16. Pairing loses and invents nothing: the edges of the paired calls and of
    the unpaired ones are exactly the records, each once, with its thread,
    scope, time and kind. *)
Theorem pair_conserves records :
  all_edges ((pair_calls records).1 ++ (pair_calls records).2) ≡ₚ enumerate records.
Proof. apply pair_edges. Qed.

(** A paired call is an entry and a later return, and two paired calls of a
    thread never cross: they are disjoint or one is inside the other. *)
Theorem pair_nests records :
  Forall closed (pair_calls records).1
  ∧ ∀ c d, c ∈ (pair_calls records).1 → d ∈ (pair_calls records).1 → laminar c d.
Proof.
  split; [apply paired_closed|]. intros c d. apply (ns_laminar _ _ (pair_nested records)).
Qed.

(** A decoded capture accounts for every record: the entry and return
    edges are the paired calls' returns plus the attributed, withheld and
    unattributed calls. *)
Theorem decode_totals loads events observations scope_map participant capture_id sha d :
  decode loads events observations scope_map participant capture_id sha = Ok d →
  let t := do_totals d in
  (to_entries t + to_returns t
   = to_paired t + to_attributed t + to_withheld t + to_unattributed t)%nat.
Proof.
  intros (h & scopes & records & j & _ & Hj & H)%decode_Ok.
  eapply document_totals; [by eapply new_join_selected|done].
Qed.

Lemma decode_totals_witness :
  (to_entries (do_totals demo_document) + to_returns (do_totals demo_document) = 5)%nat
  ∧ (to_paired (do_totals demo_document) + to_attributed (do_totals demo_document)
     + to_withheld (do_totals demo_document) + to_unattributed (do_totals demo_document) = 5)%nat.
Proof.
  assert (to_entries (do_totals demo_document) + to_returns (do_totals demo_document) = 5)%nat as H
    by (vm_compute; reflexivity).
  split; [exact H|]. rewrite <- H. symmetry.
  exact (decode_totals _ _ _ _ _ _ _ demo_document demo_decoded).
Defined.

(** Every call a decoded capture attributes to an Activation has both its
    edges inside that Activation's half-open interval, and its elapsed time is
    their distance, which is not negative. *)
Theorem decode_attributes_inside loads events observations scope_map participant capture_id sha d a r :
  decode loads events observations scope_map participant capture_id sha = Ok d →
  a ∈ do_activations d → r ∈ ac_calls a →
  ∃ b e, host (JObj (ac_record a)) "begin_ns" = Some b ∧ host (JObj (ac_record a)) "end_ns" = Some e
         ∧ b ≤ nr_entry_ns r ≤ nr_return_ns r ∧ nr_return_ns r < e
         ∧ nr_elapsed_ns r = nr_return_ns r - nr_entry_ns r.
Proof. apply decode_inside. Qed.

Definition demo_activation : activation := default (mk_activation [] None 0 [] None)
  (head (do_activations demo_document)).
Definition demo_row : nest_row := default (mk_nest_row 0 0 None 0 0 0) (head (ac_calls demo_activation)).

Lemma decode_attributes_inside_witness :
  ∃ b e, host (JObj (ac_record demo_activation)) "begin_ns" = Some b
         ∧ host (JObj (ac_record demo_activation)) "end_ns" = Some e
         ∧ b ≤ nr_entry_ns demo_row ≤ nr_return_ns demo_row ∧ nr_return_ns demo_row < e
         ∧ nr_elapsed_ns demo_row = nr_return_ns demo_row - nr_entry_ns demo_row.
Proof.
  refine (decode_attributes_inside _ _ _ _ _ _ _ demo_document demo_activation demo_row demo_decoded _ _).
  - vm_compute. left.
  - vm_compute. left.
Defined.

(** The rows of an exact Activation nest as the calls do: a row's depth is
    the number of earlier calls still open at its entry, and its parent is the
    innermost of them. *)
Theorem nest_enclosing records tid calls i row :
  (∀ c, c ∈ calls → c ∈ (pair_calls records).1 ∧ ca_tid c = tid) →
  StronglySorted (λ a b, (entry_index a < entry_index b)%nat) calls →
  nest calls !! i = Some row →
  nr_depth row = length (enclosing calls i) ∧ nr_parent row = head (enclosing calls i).
Proof. intros Hp Hs. apply nest_rows. by eapply paired_nesting. Qed.

Definition demo_trace : list event :=
  [mk_event 10 7 1 Entry; mk_event 12 7 2 Entry; mk_event 15 7 2 Return; mk_event 18 7 1 Return].
Definition demo_calls : list call :=
  [mk_call 7 1 (Some (0%nat, 10)) (Some (3%nat, 18)); mk_call 7 2 (Some (1%nat, 12)) (Some (2%nat, 15))].

Lemma nest_enclosing_witness :
  nr_depth (mk_nest_row 2 1 (Some 0%nat) 12 15 3) = length (enclosing demo_calls 1)
  ∧ nr_parent (mk_nest_row 2 1 (Some 0%nat) 12 15 3) = head (enclosing demo_calls 1).
Proof.
  refine (nest_enclosing demo_trace 7 demo_calls 1 (mk_nest_row 2 1 (Some 0%nat) 12 15 3) _ _ _).
  - intros c Hc. unfold demo_calls in Hc.
    apply elem_of_cons in Hc as [->|Hc]; [split; [vm_compute; right; left|reflexivity]|].
    apply list_elem_of_singleton in Hc as ->. split; [vm_compute; left|reflexivity].
  - repeat constructor.
  - vm_compute. reflexivity.
Defined.

(** Looking up a time by bisection finds the interval that contains it: for
    intervals that end before the next begins, [find] gives a value exactly
    when an interval with that value contains the time. *)
Theorem find_interval_iff items t v :
  well_spaced items →
  find_interval (merge_sort interval_le items) t = Some v ↔ ∃ b e, (b, e, v) ∈ items ∧ b ≤ t < e.
Proof. apply find_sorted_iff. Qed.

Lemma find_interval_iff_witness :
  ∃ b e, (b, e, 1%nat) ∈ [(20, 30, 1%nat); (5, 20, 0%nat)] ∧ b ≤ 20 < e.
Proof.
  apply (proj1 (find_interval_iff [(20, 30, 1%nat); (5, 20, 0%nat)] 20 1%nat ltac:(
    split;
    [ intros it Hit; repeat (apply elem_of_cons in Hit as [->|Hit]; [cbn; lia|]);
      by apply elem_of_nil in Hit
    | intros [|[|i]] [|[|j]] a b Ha Hb Hij; cbn in Ha, Hb; simplify_eq; try lia;
      unfold separated; cbn; lia ]))).
  vm_compute. reflexivity.
Defined.
