(* ===== verification/Participant.v ===== *)
(** * The step protocol endpoint of a process participant

    Models [python/src/sil/participant.py]: the Arenas shared with the kernel
    ([arena_open], [arena_read], [arena_write]), the step codec that picks the
    transport of each Message ([decode_inputs], [encode_outputs]) and the
    protocol loop ([run]). The mapped files are a shared store, which the
    kernel changes between two lines. What a step publishes is what a peer that
    maps the same files decodes ([outputs_delivered]), a slot gives back
    exactly its last write ([arena_history]), and the loop answers every line
    as the protocol says ([run_conversation]). *)

From Stdlib Require Import ZArith Lia.
From S2P Require Import Prelude PyFloat Json SchemaTypes Schema Base64.

(** ** Exceptions *)

(** The messages of the ParticipantFailures this file raises, and a
    participant's own. *)
Inductive failure :=
| SlotOutOfRange (slot : json)
| StaleSlot (slot expected : json) (got : Z)
| LengthExceedsCapacity
| PayloadExceedsCapacity
| StepBeforeInit
| OwnFailure (message : string).

Inductive exn :=
| XFailure (f : failure)
| XManifest (message : string)
| XKey (k : json)
| XType
| XAttribute
| XStruct
| XOverflow
| XValue
| XIndex
| XOS
| XSchema (name : string)
| XPack (e : pack_error)
| XB64 (e : b64_error)
| XOther (text : string)
| XExit.

(** [except Exception] does not catch SystemExit. *)
Definition is_exception (e : exn) : bool := match e with XExit => false | _ => true end.

Definition lift_pack {A} (r : result pack_error A) : result exn A :=
  match r with Ok a => Ok a | Err e => Err (XPack e) end.

Definition lift_b64 {A} (r : result b64_error A) : result exn A :=
  match r with Ok a => Ok a | Err e => Err (XB64 e) end.

(** ** JSON access as the code does it *)

(** [v[k]] with a string key. *)
Definition subscript (v : json) (k : string) : result exn json :=
  match v with
  | JObj d => match dget d k with Some x => Ok x | None => Err (XKey (JStr k)) end
  | _ => Err XType
  end.

(** [d[k]] of a dict with string keys: a list or dict is not hashable. *)
Definition lookup_key {A} (d : list (string * A)) (k : json) : result exn A :=
  match k with
  | JStr s => match dget d s with Some x => Ok x | None => Err (XKey k) end
  | JArr _ | JObj _ => Err XType
  | _ => Err (XKey k)
  end.

(** [v.items()]. *)
Definition py_items (v : json) : result exn (list (string * json)) :=
  match v with JObj d => Ok d | _ => Err XAttribute end.

(** [for x in v]. *)
Definition iterate (v : json) : result exn (list json) :=
  match v with
  | JArr l => Ok l
  | JObj d => Ok (JStr <$> d.*1)
  | JStr s => Ok ((λ c, JStr (String c "")) <$> String.list_ascii_of_string s)
  | _ => Err XType
  end.

(** ** Arenas *)

Abbreviation files := (gmap string bytes).

(** [m[i : i + len(bs)] = bs] inside the mapping. *)
Definition splice (m : bytes) (i : nat) (bs : bytes) : bytes :=
  take i m ++ bs ++ drop (i + length bs) m.

Definition poke (fs : files) (path : string) (i : nat) (bs : bytes) : files :=
  alter (λ m, splice m i bs) path fs.

Definition HEADER : Z := 16.

(** An open mapping: [ar_length] bytes of the file are mapped. *)
Record arena := mk_arena {
  ar_path : string;
  ar_capacity : Z;
  ar_slots : Z;
  ar_length : nat;
  ar_seq : Z;
  ar_open : bool;
}.

Definition stride (a : arena) : Z := HEADER + ar_capacity a.

Definition set_seq (a : arena) (seq : Z) : arena :=
  mk_arena (ar_path a) (ar_capacity a) (ar_slots a) (ar_length a) seq (ar_open a).

(** [mmap.mmap(fileno, length)]: length 0 maps the whole file. *)
Definition mmap_length (len : Z) (m : bytes) : result exn nat :=
  if len <? 0 then Err XOverflow
  else if len =? 0 then
    match m with [] => Err XValue | _ => Ok (length m) end
  else if Z.of_nat (length m) <? len then Err XValue
  else Ok (Z.to_nat len).

(** [_Arena.__init__]. A path that is not a string is refused, although
    [open] would take an int as a descriptor. *)
Definition arena_open (fs : files) (path capacity slots : json) : result exn arena :=
  match as_num capacity with
  | None => Err XType
  | Some capacity =>
      '(p, m) ← match path with
                | JStr p => match fs !! p with Some m => Ok (p, m) | None => Err XOS end
                | _ => Err XType
                end;
      match capacity, as_num slots with
      | PInt c, Some (PInt n) =>
          len ← mmap_length ((HEADER + c) * n) m;
          Ok (mk_arena p c n len 0 true)
      | _, _ => Err XType
      end
  end.

Definition offset (a : arena) (slot : json) : result exn Z :=
  match slot with
  | JInt z => if (0 <=? z) && (z <? ar_slots a) then Ok (z * stride a)
              else Err (XFailure (SlotOutOfRange slot))
  | _ => Err (XFailure (SlotOutOfRange slot))
  end.

(** What the mapping shows of its file. *)
Definition mapped (fs : files) (a : arena) : bytes :=
  take (ar_length a) (default [] (fs !! ar_path a)).

(** [_ARENA_HEADER.unpack_from(self._mmap, offset)]. *)
Definition header_at (m : bytes) (off : Z) : result exn (Z * Z) :=
  if (0 <=? off) && (off + HEADER <=? Z.of_nat (length m)) then
    Ok (le_value (slice m (Z.to_nat off) 8), le_value (slice m (Z.to_nat off + 8) 8))
  else Err XStruct.

Definition arena_read (fs : files) (a : arena) (seq slot : json) : result exn bytes :=
  off ← offset a slot;
  '(got, len) ← header_at (mapped fs a) off;
  raise: XFailure (StaleSlot slot seq got) if: negb (py_eq_int seq got);;
  raise: XFailure LengthExceedsCapacity if: ar_capacity a <? len;;
  Ok (slice (mapped fs a) (Z.to_nat (off + HEADER)) (Z.to_nat len)).

(** [_Arena.write]: the payload, then the header. The sequence number and the
    payload are changed even when the header does not fit its 64 bits. *)
Definition arena_write (fs : files) (a : arena) (payload : bytes) (slot : Z)
    : files * arena * result exn Z :=
  let len := Z.of_nat (length payload) in
  if ar_capacity a <? len then (fs, a, Err (XFailure PayloadExceedsCapacity))
  else match offset a (JInt slot) with
  | Err e => (fs, a, Err e)
  | Ok off =>
      if Z.of_nat (ar_length a) <? off + HEADER + len then (fs, a, Err XIndex)
      else
        let fs1 := poke fs (ar_path a) (Z.to_nat (off + HEADER)) payload in
        let seq := ar_seq a + 1 in
        let a1 := set_seq a seq in
        if u64_max <? seq then (fs1, a1, Err XStruct)
        else (poke fs1 (ar_path a) (Z.to_nat off) (le_bytes 8 seq ++ le_bytes 8 len),
              a1, Ok seq)
  end.

Definition arena_close (a : arena) : arena :=
  mk_arena (ar_path a) (ar_capacity a) (ar_slots a) (ar_length a) (ar_seq a) false.

(** ** The step codec *)

Record codec := mk_codec {
  cd_types : list (string * list field);
  cd_arenas : list (string * arena);
  cd_indexed : bool;
}.

Record input := mk_input {
  in_channel : json;
  in_publish_ns : json;
  in_data : values;
}.

(** [_InlineAdapter.decode]. *)
Definition inline_decode (item : json) : result exn bytes :=
  data ← subscript item "data";
  match data with
  | JStr s => lift_b64 (b64decode s)
  | _ => Err XType
  end.

(** [_ArenaAdapter.decode]. *)
Definition arena_decode (fs : files) (c : codec) (item channel : json)
    : result exn bytes :=
  a ← lookup_key (cd_arenas c) channel;
  seq ← subscript item "shm_seq";
  arena_read fs a seq (default (JInt 0) (jget item "shm_slot")).

Definition decode_input (fs : files) (c : codec) (message : json) : result exn input :=
  channel ← subscript message "ch";
  raw ← match jget message "shm_seq" with
        | Some _ => arena_decode fs c message channel
        | None => inline_decode message
        end;
  t ← subscript message "t";
  fields ← lookup_key (cd_types c) channel;
  data ← lift_pack (mt_unpack fields raw);
  Ok (mk_input channel t data).

Definition decode_inputs (fs : files) (c : codec) (messages : list json)
    : result exn (list input) := mapE (decode_input fs c) messages.

Definition set_arenas (c : codec) (arenas : list (string * arena)) : codec :=
  mk_codec (cd_types c) arenas (cd_indexed c).

(** [_ArenaAdapter.encode] into an item that has its channel. *)
Definition arena_encode (fs : files) (c : codec) (channel : string) (a : arena)
    (raw : bytes) (slot : Z) : files * codec * result exn json :=
  let '(fs', a', r) := arena_write fs a raw slot in
  (fs', set_arenas c (dset (cd_arenas c) channel a'),
   seq ← r;
   Ok (JObj ([("ch"%string, JStr channel)]
             ++ (if cd_indexed c then [("shm_slot"%string, JInt slot)] else [])
             ++ [("shm_seq"%string, JInt seq)]))).

Definition inline_encode (channel : string) (raw : bytes) : json :=
  JObj [("ch"%string, JStr channel); ("data"%string, JStr (b64encode raw))].

(** One pass of the loop of [encode_outputs]: the item, and the slots used. *)
Definition encode_output (fs : files) (c : codec) (next : list (string * Z))
    (out : string * values) : files * codec * list (string * Z) * result exn json :=
  let '(channel, fields) := out in
  match (ty ← lookup_key (cd_types c) (JStr channel); lift_pack (mt_pack ty fields)) with
  | Err e => (fs, c, next, Err e)
  | Ok raw =>
      let slot := default 0 (dget next channel) in
      match dget (cd_arenas c) channel with
      | Some a =>
          if slot <? ar_slots a then
            let '(fs', c', r) := arena_encode fs c channel a raw slot in
            (fs', c', dset next channel (slot + 1), r)
          else (fs, c, next, Ok (inline_encode channel raw))
      | None => (fs, c, next, Ok (inline_encode channel raw))
      end
  end.

Fixpoint encode_from (fs : files) (c : codec) (next : list (string * Z))
    (outs : list (string * values)) (encoded : list json)
    : files * codec * result exn (list json) :=
  match outs with
  | [] => (fs, c, Ok encoded)
  | out :: outs =>
      let '(fs', c', next', r) := encode_output fs c next out in
      match r with
      | Err e => (fs', c', Err e)
      | Ok item => encode_from fs' c' next' outs (encoded ++ [item])
      end
  end.

Definition encode_outputs (fs : files) (c : codec) (outs : list (string * values))
    : files * codec * result exn (list json) := encode_from fs c [] outs [].

(** ** The protocol loop *)

(** How the handler of a line leaves the loop. *)
Inductive control := Continue | Return | Raise (e : exn).

(** What happens to the participant, in order: a line of stdin, a write of the
    kernel into a mapped file, or SIGTERM while it waits for a line. *)
Inductive event :=
| Line (text : string)
| KernelWrite (path : string) (i : nat) (bs : bytes)
| Sigterm.

Inductive ending := AtEof | Returned | Raised (e : exn).

(** [min(msg.get("protocol", 1), 2)]. *)
Definition min_protocol (v : json) : result exn json :=
  match as_num v with
  | Some n => Ok (if num_lt (PInt 2) n then JInt 2 else v)
  | None => Err XType
  end.

Definition supports_index (protocol : json) : bool :=
  match as_num protocol with Some n => num_le (PInt 2) n | None => false end.

(** [schema.load]. *)
Definition load_schemas (v : json) : result exn (list (string * list field)) :=
  d ← py_items v;
  mapE (λ '(name, spec), match fields_of_json spec with
                         | Some fs => Ok (name, fs)
                         | None => Err (XSchema name)
                         end) d.

(** The type and the Arena of one entry of [msg["channels"]]. *)
Definition channel_type (types : list (string * list field)) (entry : string * json)
    : result exn (string * list field) :=
  name ← subscript entry.2 "schema";
  ty ← lookup_key types name;
  Ok (entry.1, ty).

Definition is_shm (entry : string * json) : bool :=
  match jget entry.2 "transport" with Some v => py_eq v (JStr "shm") | None => false end.

Definition channel_arena (fs : files) (entry : string * json)
    : result exn (string * arena) :=
  path ← subscript entry.2 "shm_path";
  capacity ← subscript entry.2 "shm_capacity";
  a ← arena_open fs path capacity (default (JInt 1) (jget entry.2 "shm_slots"));
  Ok (entry.1, a).

(** The part of an init line that is done before [on_init]. *)
Definition read_init (fs : files) (msg : json) : result exn (json * codec) :=
  protocol ← min_protocol (default (JInt 1) (jget msg "protocol"));
  schemas ← subscript msg "schemas";
  types ← load_schemas schemas;
  channels ← subscript msg "channels";
  entries ← py_items channels;
  by_channel ← mapE (channel_type types) entries;
  arenas ← mapE (channel_arena fs) (List.filter is_shm entries);
  Ok (protocol, mk_codec by_channel arenas (supports_index protocol)).

Section run.
Context {P : Type}.
Context (on_init : P → json → P * result exn ()).
Context (on_step : P → json → json → list input
                   → P * result exn (option (list (string * values)))).
Context (reason : exn → string) (loads : string → result exn json).

Record loop := mk_loop {
  lp_self : P;
  lp_files : files;
  lp_codec : option codec;
}.

Definition fail_line (e : exn) : json :=
  JObj [("op"%string, JStr "fail"); ("reason"%string, JStr (reason e))].

Definition run_fail_line (e : exn) : json :=
  JObj [("op"%string, JStr "fail"); ("reason"%string, JStr (reason e));
        ("failure"%string, JStr "run")].

Definition handle_init (s : loop) (msg : json) : loop * list json * control :=
  match read_init (lp_files s) msg with
  | Err e => (s, [], Raise e)
  | Ok (protocol, c) =>
      let '(p, r) := on_init (lp_self s) msg in
      let s' := mk_loop p (lp_files s) (Some c) in
      match r with
      | Err (XManifest m) => (s', [fail_line (XManifest m)], Return)
      | Err (XFailure f) => (s', [run_fail_line (XFailure f)], Return)
      | Err e => (s', [], Raise e)
      | Ok _ =>
          (s', [JObj ([("op"%string, JStr "ready")]
                      ++ match jget msg "protocol" with
                         | Some _ => [("protocol"%string, protocol)]
                         | None => []
                         end)], Continue)
      end
  end.

(** What a step line gives [on_step]: its Messages, decoded, and its times. *)
Definition step_args (fs : files) (c : codec) (msg : json)
    : result exn (json * json * list input) :=
  ins ← subscript msg "in"; messages ← iterate ins;
  inputs ← decode_inputs fs c messages;
  t ← subscript msg "t"; dt ← subscript msg "dt"; Ok (t, dt, inputs).

(** The body of the [try] of a step line. *)
Definition step_body (s : loop) (msg : json) : loop * result exn json :=
  match lp_codec s with
  | None => (s, Err (XFailure StepBeforeInit))
  | Some c =>
      match step_args (lp_files s) c msg with
      | Err e => (s, Err e)
      | Ok (t, dt, inputs) =>
          let '(p, r) := on_step (lp_self s) t dt inputs in
          match r with
          | Err e => (mk_loop p (lp_files s) (Some c), Err e)
          | Ok outs =>
              let '(fs, c', r) := encode_outputs (lp_files s) c (default [] outs) in
              (mk_loop p fs (Some c'),
               items ← r;
               Ok (JObj [("op"%string, JStr "step_done"); ("out"%string, JArr items)]))
          end
      end
  end.

Definition handle_step (s : loop) (msg : json) : loop * list json * control :=
  let '(s', r) := step_body s msg in
  match r with
  | Ok line => (s', [line], Continue)
  | Err e => if is_exception e then (s', [fail_line e], Continue) else (s', [], Raise e)
  end.

(** One line: [op] is compared with the three names in turn. *)
Definition handle_line (s : loop) (text : string) : loop * list json * control :=
  match (msg ← loads text; op ← subscript msg "op"; Ok (msg, op)) with
  | Err e => (s, [], Raise e)
  | Ok (msg, op) =>
      if py_eq op (JStr "init") then handle_init s msg
      else if py_eq op (JStr "step") then handle_step s msg
      else if py_eq op (JStr "shutdown") then (s, [], Return)
      else (s, [], Continue)
  end.

Fixpoint protocol_loop (s : loop) (evs : list event) : loop * list json * ending :=
  match evs with
  | [] => (s, [], AtEof)
  | KernelWrite path i bs :: evs =>
      protocol_loop (mk_loop (lp_self s) (poke (lp_files s) path i bs) (lp_codec s)) evs
  | Sigterm :: _ => (s, [], Raised XExit)
  | Line text :: evs =>
      let '(s', sent, k) := handle_line s text in
      match k with
      | Return => (s', sent, Returned)
      | Raise e => (s', sent, Raised e)
      | Continue =>
          let '(s'', rest, e) := protocol_loop s' evs in (s'', sent ++ rest, e)
      end
  end.

(** The [finally] closes every Arena. *)
Definition teardown (s : loop) : loop :=
  mk_loop (lp_self s) (lp_files s)
    ((λ c, set_arenas c (prod_map id arena_close <$> cd_arenas c)) <$> lp_codec s).

Definition run (self : P) (fs : files) (evs : list event) : loop * list json * ending :=
  let '(s, sent, e) := protocol_loop (mk_loop self fs None) evs in (teardown s, sent, e).
End run.

(** ** Memory lemmas *)

Lemma length_splice m i bs : (i + length bs ≤ length m)%nat → length (splice m i bs) = length m.
Proof. intros. unfold splice. rewrite !length_app, length_take, length_drop. lia. Qed.

Lemma lookup_splice m i bs k :
  (i + length bs ≤ length m)%nat →
  splice m i bs !! k = if decide (i ≤ k < i + length bs)%nat then bs !! (k - i)%nat else m !! k.
Proof.
  intros Hl. unfold splice. destruct (decide _) as [Hk|Hk].
  - rewrite lookup_app_r by (rewrite length_take; lia). rewrite length_take.
    rewrite lookup_app_l by lia. f_equal. lia.
  - destruct (decide (k < i)%nat).
    + rewrite lookup_app_l by (rewrite length_take; lia). by rewrite lookup_take_lt.
    + rewrite lookup_app_r, lookup_app_r by (rewrite ?length_take; lia).
      rewrite lookup_drop, length_take. f_equal. lia.
Qed.

Lemma lookup_slice {A} (m : list A) i n k :
  slice m i n !! k = if decide (k < n)%nat then m !! (i + k)%nat else None.
Proof.
  unfold slice. destruct (decide _).
  - by rewrite lookup_take_lt, lookup_drop.
  - apply lookup_take_ge. lia.
Qed.

Ltac by_lookup :=
  apply list_eq; intros ?;
  rewrite ?lookup_slice, ?lookup_splice, ?lookup_slice by (rewrite ?length_splice; lia).

Lemma slice_splice_out m i bs j n :
  (i + length bs ≤ length m)%nat → (j + n ≤ i ∨ i + length bs ≤ j)%nat →
  slice (splice m i bs) j n = slice m j n.
Proof. intros. by_lookup. repeat case_decide; (done || lia). Qed.

(** Writing inside a window is writing into the window. *)
Lemma slice_splice_in m i bs j n :
  (j + n ≤ length m)%nat → (j ≤ i)%nat → (i + length bs ≤ j + n)%nat →
  slice (splice m i bs) j n = splice (slice m j n) (i - j) bs.
Proof.
  intros. apply list_eq. intros k.
  rewrite lookup_slice, !lookup_splice by (rewrite ?length_slice; lia).
  rewrite lookup_slice. repeat case_decide; try done; try lia.
  f_equal. lia.
Qed.

(** The payload and then the header in front of it are one write. *)
Lemma splice_splice m i h p :
  (i + length h + length p ≤ length m)%nat →
  splice (splice m (i + length h) p) i h = splice m i (h ++ p).
Proof.
  intros. apply list_eq. intros k.
  rewrite !lookup_splice by (rewrite ?length_splice, ?length_app; lia).
  rewrite length_app. repeat case_decide; try done; try lia.
  - by rewrite lookup_app_l by lia.
  - rewrite lookup_app_r by lia. f_equal. lia.
Qed.

Lemma slice_slice {A} (m : list A) i n j k :
  (j + k ≤ n)%nat → slice (slice m i n) j k = slice m (i + j) k.
Proof.
  intros. apply list_eq. intros x. rewrite !lookup_slice. repeat case_decide; try done; try lia.
  f_equal. lia.
Qed.

(** ** The Arena as an array of slots *)

(** The mapping covers every slot. *)
Definition arena_ok (fs : files) (a : arena) : Prop :=
  0 ≤ ar_capacity a ∧ stride a * ar_slots a ≤ Z.of_nat (ar_length a)
  ∧ ∃ m, fs !! ar_path a = Some m ∧ (ar_length a ≤ length m)%nat.

Lemma length_mapped fs a : arena_ok fs a → length (mapped fs a) = ar_length a.
Proof.
  intros (_ & _ & m & Hm & Hl). unfold mapped. rewrite Hm. cbn. rewrite length_take. lia.
Qed.

Lemma mapped_poke fs a i bs :
  arena_ok fs a → (i + length bs ≤ ar_length a)%nat →
  mapped (poke fs (ar_path a) i bs) a = splice (mapped fs a) i bs
  ∧ arena_ok (poke fs (ar_path a) i bs) a.
Proof.
  intros (Hc & Hs & m & Hm & Hl) Hi. unfold mapped, poke, arena_ok. rewrite lookup_alter_eq, Hm.
  cbn. split.
  - pose proof (slice_splice_in m i bs 0 (ar_length a)) as H. unfold slice in H.
    rewrite !drop_0, Nat.sub_0_r in H. apply H; lia.
  - split_and!; [done..|]. eexists; split; [done|]. rewrite length_splice; lia.
Qed.

Lemma mapped_poke_ne fs a path i bs :
  path ≠ ar_path a → mapped (poke fs path i bs) a = mapped fs a.
Proof. intros Hn. unfold mapped, poke. by rewrite lookup_alter_ne. Qed.

Lemma arena_ok_poke_ne fs a path i bs :
  path ≠ ar_path a → arena_ok fs a → arena_ok (poke fs path i bs) a.
Proof. intros Hn. unfold arena_ok, poke. by rewrite lookup_alter_ne. Qed.

(** The bytes of one slot, header included. *)
Definition block (fs : files) (a : arena) (slot : Z) : bytes :=
  slice (mapped fs a) (Z.to_nat (slot * stride a)) (Z.to_nat (stride a)).

Definition read_block (a : arena) (seq slot : json) (b : bytes) : result exn bytes :=
  raise: XFailure (StaleSlot slot seq (le_value (slice b 0 8)))
    if: negb (py_eq_int seq (le_value (slice b 0 8)));;
  raise: XFailure LengthExceedsCapacity if: ar_capacity a <? le_value (slice b 8 8);;
  Ok (slice b 16 (Z.to_nat (le_value (slice b 8 8)))).

Lemma slot_bounds fs a slot :
  arena_ok fs a → 0 ≤ slot < ar_slots a →
  0 ≤ slot * stride a ∧ 16 ≤ stride a
  ∧ slot * stride a + stride a ≤ Z.of_nat (ar_length a).
Proof. unfold arena_ok, stride, HEADER. intros (? & ? & _) ?. split_and!; nia. Qed.

Lemma offset_ok a slot : 0 ≤ slot < ar_slots a → offset a (JInt slot) = Ok (slot * stride a).
Proof.
  intros [? ?]. cbn. rewrite (proj2 (Z.leb_le _ _)), (proj2 (Z.ltb_lt _ _)) by lia. done.
Qed.

(** A read depends on the slot's own bytes only. *)
Lemma arena_read_block fs a seq slot :
  arena_ok fs a → 0 ≤ slot < ar_slots a →
  arena_read fs a seq (JInt slot) = read_block a seq (JInt slot) (block fs a slot).
Proof.
  intros Ha Hs. pose proof (slot_bounds _ _ _ Ha Hs) as (H0 & H16 & Hb).
  pose proof (length_mapped _ _ Ha) as Hm.
  unfold arena_read. rewrite offset_ok by done. mcbn. unfold header_at, HEADER.
  rewrite (proj2 (Z.leb_le _ _)), (proj2 (Z.leb_le _ _)) by lia. cbn [andb]. mcbn.
  unfold read_block, block. rewrite (slice_slice _ _ _ 0 8), (slice_slice _ _ _ 8 8) by lia. rewrite Nat.add_0_r.
  destruct (py_eq_int _ _); [|done]. mcbn.
  destruct (Z.ltb_spec (ar_capacity a) (le_value (slice (mapped fs a)
    (Z.to_nat (slot * stride a) + 8) 8))) as [|Hc]; [done|]. mcbn.
  unfold stride, HEADER in *. rewrite slice_slice by lia. do 2 f_equal. lia.
Qed.

(** A write succeeds, and replaces the header and the payload of its slot. *)
Lemma arena_write_block fs a payload slot :
  arena_ok fs a → 0 ≤ slot < ar_slots a → Z.of_nat (length payload) ≤ ar_capacity a →
  ar_seq a < u64_max →
  ∃ fs', arena_write fs a payload slot = (fs', set_seq a (ar_seq a + 1), Ok (ar_seq a + 1))
    ∧ arena_ok fs' a
    ∧ mapped fs' a = splice (mapped fs a) (Z.to_nat (slot * stride a))
        (le_bytes 8 (ar_seq a + 1) ++ le_bytes 8 (Z.of_nat (length payload)) ++ payload)
    ∧ ∀ path, path ≠ ar_path a → fs' !! path = fs !! path.
Proof.
  intros Ha Hs Hp Hq. pose proof (slot_bounds _ _ _ Ha Hs) as (H0 & H16 & Hb).
  unfold arena_write. rewrite (proj2 (Z.ltb_ge _ _)), offset_ok by lia.
  unfold stride, HEADER in *. rewrite (proj2 (Z.ltb_ge _ _)), (proj2 (Z.ltb_ge _ _)) by lia.
  eexists; split; [done|].
  destruct (mapped_poke fs a (Z.to_nat (slot * (16 + ar_capacity a) + 16)) payload) as [M1 A1];
    [done|lia|].
  destruct (mapped_poke _ a (Z.to_nat (slot * (16 + ar_capacity a)))
    (le_bytes 8 (ar_seq a + 1) ++ le_bytes 8 (Z.of_nat (length payload))) A1) as [M2 A2].
  { rewrite length_app, !length_le_bytes. lia. }
  split_and!; [done| |].
  - rewrite M2, M1, app_assoc.
    set (h := le_bytes 8 (ar_seq a + 1) ++ _).
    assert (length h = 16%nat) as Hh by (unfold h; by rewrite length_app, !length_le_bytes).
    replace (Z.to_nat (slot * (16 + ar_capacity a) + 16))
      with (Z.to_nat (slot * (16 + ar_capacity a)) + length h)%nat by lia.
    apply splice_splice. rewrite length_mapped by done. lia.
  - intros path Hn. unfold poke. by rewrite !lookup_alter_ne.
Qed.

(** ** What a write changes *)

Lemma block_other fs fs' a slot slot' bs :
  arena_ok fs a → 0 ≤ slot < ar_slots a → 0 ≤ slot' < ar_slots a → slot ≠ slot' →
  Z.of_nat (length bs) ≤ stride a →
  mapped fs' a = splice (mapped fs a) (Z.to_nat (slot * stride a)) bs →
  block fs' a slot' = block fs a slot'.
Proof.
  intros Ha Hs Hs' Hne Hl Hm. unfold block. rewrite Hm.
  pose proof (slot_bounds _ _ _ Ha Hs). pose proof (slot_bounds _ _ _ Ha Hs').
  apply slice_splice_out; [rewrite length_mapped by done; lia|].
  destruct (decide (slot < slot')); [right|left]; nia.
Qed.

Lemma block_same fs fs' a slot bs :
  arena_ok fs a → 0 ≤ slot < ar_slots a → Z.of_nat (length bs) ≤ stride a →
  mapped fs' a = splice (mapped fs a) (Z.to_nat (slot * stride a)) bs →
  ∃ rest, block fs' a slot = bs ++ rest.
Proof.
  intros Ha Hs Hl Hm. unfold block. rewrite Hm.
  pose proof (slot_bounds _ _ _ Ha Hs) as (? & ? & ?).
  rewrite slice_splice_in by (rewrite ?length_mapped by done; lia).
  rewrite Nat.sub_diag. unfold splice. rewrite take_0. cbn [app]. eauto.
Qed.

Lemma py_eq_int_int x y : py_eq_int (JInt x) y = (x =? y).
Proof.
  unfold py_eq_int. cbn [py_eq as_num]. unfold num_eq, num_x, x_eq. apply Bool.eq_iff_eq_true.
  rewrite !Z.eqb_eq. lia.
Qed.

(** What a block with the given header and payload gives. *)
Lemma read_block_written a seq slot k (payload rest : bytes) :
  0 ≤ k ≤ u64_max → Z.of_nat (length payload) ≤ ar_capacity a →
  Z.of_nat (length payload) ≤ u64_max →
  read_block a (JInt seq) slot
    (le_bytes 8 k ++ le_bytes 8 (Z.of_nat (length payload)) ++ payload ++ rest)
  = if seq =? k then Ok payload else Err (XFailure (StaleSlot slot (JInt seq) k)).
Proof.
  intros Hk Hc Hu. unfold read_block, u64_max in *.
  set (h1 := le_bytes 8 k). set (h2 := le_bytes 8 _).
  assert (length h1 = 8%nat) as L1 by apply length_le_bytes.
  assert (length h2 = 8%nat) as L2 by apply length_le_bytes.
  pose proof (slice_app [] h1 (h2 ++ payload ++ rest)) as S1. rewrite L1 in S1.
  pose proof (slice_app h1 h2 (payload ++ rest)) as S2. rewrite L1, L2 in S2.
  pose proof (slice_app (h1 ++ h2) payload rest) as S3.
  rewrite length_app, L1, L2, <- app_assoc in S3. cbn [app length Nat.add] in S1, S3.
  assert (le_value h1 = k) as V1.
  { apply le_value_le_bytes_small. change (256 ^ Z.of_nat 8) with (2 ^ 64). lia. }
  assert (le_value h2 = Z.of_nat (length payload)) as V2.
  { apply le_value_le_bytes_small. change (256 ^ Z.of_nat 8) with (2 ^ 64). lia. }
  rewrite S1, S2, V1, V2.
  rewrite py_eq_int_int. destruct (seq =? k); [|done]. mcbn.
  rewrite (proj2 (Z.ltb_ge _ _)) by lia. mcbn. by rewrite Nat2Z.id, S3.
Qed.

(** The whole effect of a write on later reads of the Arena. *)
Lemma arena_write_read fs a payload slot :
  arena_ok fs a → 0 ≤ slot < ar_slots a → Z.of_nat (length payload) ≤ ar_capacity a →
  Z.of_nat (length payload) ≤ u64_max → 0 ≤ ar_seq a < u64_max →
  ∃ fs', arena_write fs a payload slot = (fs', set_seq a (ar_seq a + 1), Ok (ar_seq a + 1))
    ∧ arena_ok fs' a
    ∧ (∀ seq, arena_read fs' a (JInt seq) (JInt slot)
              = if seq =? ar_seq a + 1 then Ok payload
                else Err (XFailure (StaleSlot (JInt slot) (JInt seq) (ar_seq a + 1))))
    ∧ (∀ slot' seq, 0 ≤ slot' < ar_slots a → slot' ≠ slot →
         arena_read fs' a seq (JInt slot') = arena_read fs a seq (JInt slot'))
    ∧ ∀ path, path ≠ ar_path a → fs' !! path = fs !! path.
Proof.
  intros Ha Hs Hp Hu Hq.
  destruct (arena_write_block fs a payload slot) as (fs' & Hw & Ha' & Hm & Ho); try done; try lia.
  exists fs'. split_and!; [done|done| | |done].
  - intros seq. rewrite arena_read_block by done.
    edestruct block_same as [rest ->]; [exact Ha|exact Hs| |exact Hm|].
    + rewrite !length_app, !length_le_bytes. unfold stride, HEADER. lia.
    + rewrite <- !app_assoc. apply read_block_written; lia.
  - intros slot' seq Hs' Hne. rewrite !arena_read_block by done.
    by erewrite block_other; [|exact Ha|exact Hs|done|done| |exact Hm];
      [|rewrite !length_app, !length_le_bytes; unfold stride, HEADER; lia].
Qed.

(** The sequence number is not part of what a read sees. *)
Lemma arena_read_other fs fs' a b seq slot :
  ar_path b = ar_path a → ar_capacity b = ar_capacity a → ar_slots b = ar_slots a →
  ar_length b = ar_length a → fs' !! ar_path a = fs !! ar_path a →
  arena_read fs' b seq slot = arena_read fs a seq slot.
Proof.
  destruct a, b; cbn. intros -> -> -> -> Hf. unfold arena_read, mapped, offset, stride. cbn.
  by rewrite Hf.
Qed.

(** ** Histories of an Arena *)

Fixpoint write_all (fs : files) (a : arena) (ws : list (Z * bytes))
    : files * arena * result exn (list Z) :=
  match ws with
  | [] => (fs, a, Ok [])
  | (slot, payload) :: ws =>
      let '(fs', a', r) := arena_write fs a payload slot in
      match r with
      | Err e => (fs', a', Err e)
      | Ok seq => let '(fs'', a'', rs) := write_all fs' a' ws in
                  (fs'', a'', seqs ← rs; Ok (seq :: seqs))
      end
  end.

(** The number and payload of the last write to a slot, counting from [i],
    or what was there before. *)
Fixpoint last_write (i : Z) (ws : list (Z * bytes)) (slot : Z) (before : Z * bytes)
    : Z * bytes :=
  match ws with
  | [] => before
  | (s, payload) :: ws =>
      last_write (i + 1) ws slot (if decide (s = slot) then (i + 1, payload) else before)
  end.

Definition expect (slot seq : Z) (now : Z * bytes) : result exn bytes :=
  if seq =? now.1 then Ok now.2
  else Err (XFailure (StaleSlot (JInt slot) (JInt seq) now.1)).

Definition write_ok (a : arena) (w : Z * bytes) : Prop :=
  0 ≤ w.1 < ar_slots a ∧ Z.of_nat (length w.2) ≤ ar_capacity a
  ∧ Z.of_nat (length w.2) ≤ u64_max.

Lemma write_all_reads fs a ws (now : Z → Z * bytes) :
  arena_ok fs a → Forall (write_ok a) ws → 0 ≤ ar_seq a →
  ar_seq a + Z.of_nat (length ws) ≤ u64_max →
  (∀ slot seq, 0 ≤ slot < ar_slots a →
     arena_read fs a (JInt seq) (JInt slot) = expect slot seq (now slot)) →
  ∃ fs', write_all fs a ws
         = (fs', set_seq a (ar_seq a + Z.of_nat (length ws)),
            Ok ((λ i, ar_seq a + 1 + Z.of_nat i) <$> seq 0 (length ws)))
    ∧ ∀ slot seq, 0 ≤ slot < ar_slots a →
        arena_read fs' a (JInt seq) (JInt slot)
        = expect slot seq (last_write (ar_seq a) ws slot (now slot)).
Proof.
  revert fs a now. induction ws as [|[s p] ws IH]; intros fs a now Ha Hw H0 Hq Hr.
  { exists fs. split; [|done]. cbn. rewrite Z.add_0_r. by destruct a. }
  inversion Hw as [|? ? (Hs & Hc & Hu) Hws]; subst. cbn [length fst snd] in *.
  destruct (arena_write_read fs a p s) as (fs1 & W & Ha1 & R1 & R2 & _); try done; try lia.
  destruct (IH fs1 (set_seq a (ar_seq a + 1))
    (λ slot, if decide (s = slot) then (ar_seq a + 1, p) else now slot)) as (fs2 & W2 & R3);
    try done; cbn [set_seq ar_seq] in *; try lia.
  { intros slot sq Hslot.
    rewrite (arena_read_other fs1 fs1 a) by done. case_decide as Hd.
    - subst. by rewrite R1.
    - rewrite R2 by done. by apply Hr. }
  exists fs2. split.
  - cbn [write_all]. rewrite W, W2. cbn [mbind result_bind seq]. rewrite <- fmap_S_seq.
    rewrite fmap_cons, <- list_fmap_compose. rewrite Z.add_0_r.
    replace (ar_seq a + Z.of_nat (S (length ws)))
      with (ar_seq a + 1 + Z.of_nat (length ws)) by lia.
    do 3 f_equal. apply list_fmap_ext. intros _ i _. cbn [compose]. lia.
  - intros slot sq Hslot. cbn [last_write].
    rewrite <- (arena_read_other fs2 fs2 a (set_seq a (ar_seq a + 1))) by done.
    by apply R3.
Qed.

(** A fresh Arena is all zeros. *)
Lemma read_zero fs a slot seq :
  arena_ok fs a → mapped fs a = replicate (ar_length a) x00 → 0 ≤ slot < ar_slots a →
  arena_read fs a (JInt seq) (JInt slot) = expect slot seq (0, []).
Proof.
  intros Ha Hz Hs. rewrite arena_read_block by done.
  pose proof (slot_bounds _ _ _ Ha Hs) as (? & ? & ?).
  assert (∃ rest, block fs a slot = le_bytes 8 0 ++ le_bytes 8 (Z.of_nat (@length byte [])) ++ [] ++ rest)
    as [rest ->].
  { exists (replicate (Z.to_nat (stride a) - 16) x00). unfold block, slice. rewrite Hz.
    rewrite drop_replicate, take_replicate.
    change (le_bytes 8 0) with (replicate 8 x00). rewrite app_nil_l.
    change (le_bytes 8 (Z.of_nat (@length byte []))) with (replicate 8 x00).
    rewrite <- !replicate_add. f_equal. lia. }
  apply read_block_written; cbn; try lia; try done. destruct Ha. done.
Qed.

(** ** Delivery of a step's outputs *)

(** An output item as it reaches a peer: the kernel adds the publish time. *)
Definition deliver (t : json) (item : json) : json :=
  match item with JObj d => JObj (d ++ [("t"%string, t)]) | _ => item end.

(** A publication that fits its Channel's schema, and can be given to [pack]
    as keyword arguments. *)
Definition out_ok (c : codec) (out : string * values) : Prop :=
  ∃ fields vs, dget (cd_types c) out.1 = Some fields ∧ NoDup (fd_name <$> fields)
    ∧ Forall2 has_type fields vs ∧ out.2 = zip (fd_name <$> fields) vs
    ∧ "self"%string ∉ fd_name <$> fields.

(** The Arenas as the init line sets them up, with room for [n] more writes:
    distinct files that cover their slots, a capacity that is the schema's
    size or more, and more than one slot under protocol 2 only. *)
Record codec_ok (fs : files) (c : codec) (n : nat) : Prop := {
  ok_arena ch a : dget (cd_arenas c) ch = Some a →
    arena_ok fs a ∧ 0 ≤ ar_seq a ∧ ar_seq a + Z.of_nat n ≤ u64_max
    ∧ (cd_indexed c = true ∨ ar_slots a ≤ 1);
  ok_capacity ch a fields : dget (cd_arenas c) ch = Some a →
    dget (cd_types c) ch = Some fields →
    Z.of_nat (mt_size fields) ≤ ar_capacity a ∧ Z.of_nat (mt_size fields) ≤ u64_max;
  ok_distinct ch ch' a a' : dget (cd_arenas c) ch = Some a →
    dget (cd_arenas c) ch' = Some a' → ch ≠ ch' → ar_path a ≠ ar_path a';
}.

(** Two codecs over the same mappings, whatever their sequence numbers. *)
Definition same_maps (c d : codec) : Prop :=
  cd_types c = cd_types d ∧ cd_indexed c = cd_indexed d
  ∧ ∀ ch, (λ a, set_seq a 0) <$> dget (cd_arenas c) ch
          = (λ a, set_seq a 0) <$> dget (cd_arenas d) ch.

#[export] Instance same_maps_equiv : Equivalence same_maps.
Proof.
  unfold same_maps. split.
  - by intros c.
  - intros c d (? & ? & H). split_and!; [done..|]. intros ch. by rewrite H.
  - intros c d e (? & ? & H) (? & ? & H'). split_and!; [congruence..|].
    intros ch. by rewrite H, H'.
Qed.

Definition next_slot (next : list (string * Z)) (ch : string) : Z :=
  default 0 (dget next ch).

(** Slots already filled in this step read the same in both stores. *)
Definition kept (c : codec) (next : list (string * Z)) (fs fs' : files) : Prop :=
  ∀ ch a slot seq, dget (cd_arenas c) ch = Some a →
    0 ≤ slot < next_slot next ch → slot < ar_slots a →
    arena_read fs' a seq (JInt slot) = arena_read fs a seq (JInt slot).

Lemma arena_read_seq0 fs a b seq slot :
  set_seq a 0 = set_seq b 0 → arena_read fs a seq slot = arena_read fs b seq slot.
Proof. destruct a, b. intros [=]; subst. by apply arena_read_other. Qed.

Lemma same_maps_arena c d ch a :
  same_maps c d → dget (cd_arenas c) ch = Some a →
  ∃ b, dget (cd_arenas d) ch = Some b ∧ set_seq a 0 = set_seq b 0.
Proof.
  intros (_ & _ & H) Ha. specialize (H ch). rewrite Ha in H. cbn in H.
  destruct (dget (cd_arenas d) ch) as [b|]; [|done]. cbn in H. injection H as H.
  exists b. split; [done|]. unfold set_seq. congruence.
Qed.

(** Equal mappings decode alike. *)
Lemma decode_input_maps fs c d m : same_maps c d → decode_input fs c m = decode_input fs d m.
Proof.
  intros Hm. pose proof Hm as (Ht & _ & H). unfold decode_input. rewrite Ht.
  destruct (subscript m "ch") as [ch|]; [|done]. mcbn.
  assert (arena_decode fs c m ch = arena_decode fs d m ch) as ->; [|done].
  unfold arena_decode. destruct ch as [| | | |s| |]; try done. cbn [lookup_key].
  destruct (dget (cd_arenas c) s) as [a|] eqn:Ha.
  - destruct (same_maps_arena _ _ _ _ Hm Ha) as (b & -> & Hb). mcbn.
    destruct (subscript m "shm_seq"); [|done]. mcbn. by apply arena_read_seq0.
  - specialize (H s). rewrite Ha in H. cbn in H. by destruct (dget (cd_arenas d) s).
Qed.

Lemma decode_inline fs c ch raw fields t vals :
  dget (cd_types c) ch = Some fields → mt_unpack fields raw = Ok vals →
  decode_input fs c (deliver t (inline_encode ch raw)) = Ok (mk_input (JStr ch) t vals).
Proof.
  intros Hf Hu. set (m := deliver t _). unfold decode_input, inline_decode.
  assert (subscript m "ch" = Ok (JStr ch)) as -> by reflexivity.
  assert (jget m "shm_seq" = None) as -> by reflexivity.
  assert (subscript m "data" = Ok (JStr (b64encode raw))) as -> by reflexivity.
  assert (subscript m "t" = Ok t) as -> by reflexivity.
  mcbn. rewrite b64decode_encode. cbn [lift_b64 lookup_key]. mcbn. rewrite Hf. mcbn. by rewrite Hu.
Qed.

Lemma decode_arena fs c ch a slot seq raw fields t vals :
  dget (cd_types c) ch = Some fields → mt_unpack fields raw = Ok vals →
  dget (cd_arenas c) ch = Some a → (cd_indexed c = true ∨ slot = 0) →
  arena_read fs a (JInt seq) (JInt slot) = Ok raw →
  decode_input fs c (deliver t (JObj ([("ch"%string, JStr ch)]
    ++ (if cd_indexed c then [("shm_slot"%string, JInt slot)] else [])
    ++ [("shm_seq"%string, JInt seq)]))) = Ok (mk_input (JStr ch) t vals).
Proof.
  intros Hf Hu Ha Hi Hr. set (m := deliver t _). unfold decode_input, arena_decode.
  assert (subscript m "ch" = Ok (JStr ch)) as -> by (unfold m; by destruct (cd_indexed c)).
  assert (jget m "shm_seq" = Some (JInt seq)) as -> by (unfold m; by destruct (cd_indexed c)).
  assert (subscript m "shm_seq" = Ok (JInt seq)) as -> by (unfold m; by destruct (cd_indexed c)).
  assert (subscript m "t" = Ok t) as -> by (unfold m; by destruct (cd_indexed c)).
  assert (default (JInt 0) (jget m "shm_slot") = JInt slot) as ->.
  { unfold m. destruct (cd_indexed c); [done|]. destruct Hi as [Hi| ->]; done. }
  mcbn. cbn [lookup_key]. rewrite Ha. mcbn. rewrite Hr. mcbn. rewrite Hf. mcbn. by rewrite Hu.
Qed.

Lemma next_slot_dset next ch n ch' :
  next_slot (dset next ch n) ch' = if decide (ch = ch') then n else next_slot next ch'.
Proof.
  unfold next_slot. case_decide as H; [subst; by rewrite dget_dset_eq|].
  by rewrite dget_dset_ne.
Qed.

(** One write of an Arena of the codec: the others are untouched. *)
Lemma codec_ok_write fs fs' c ch a n :
  codec_ok fs c (S n) → dget (cd_arenas c) ch = Some a → arena_ok fs' a →
  (∀ path, path ≠ ar_path a → fs' !! path = fs !! path) →
  let c' := set_arenas c (dset (cd_arenas c) ch (set_seq a (ar_seq a + 1))) in
  codec_ok fs' c' n ∧ same_maps c c'.
Proof.
  intros Hc Ha Hok Ho c'.
  assert (∀ ch1 b, dget (cd_arenas c') ch1 = Some b →
    ∃ b0, dget (cd_arenas c) ch1 = Some b0 ∧ set_seq b0 0 = set_seq b 0
      ∧ 0 ≤ ar_seq b ∧ ar_seq b + Z.of_nat n ≤ u64_max ∧ arena_ok fs' b) as Hb.
  { intros ch1 b. cbn. destruct (decide (ch = ch1)) as [->|Hne].
    - rewrite dget_dset_eq. intros [= <-]. exists a. destruct (ok_arena _ _ _ Hc _ _ Ha).
      cbn. split_and!; [done|done|lia|lia|done].
    - rewrite dget_dset_ne by done. intros Hb. exists b.
      destruct (ok_arena _ _ _ Hc _ _ Hb) as (Hok1 & ? & ? & ?). split_and!; [done|done|lia|lia|].
      pose proof (ok_distinct _ _ _ Hc _ _ _ _ Ha Hb Hne).
      unfold arena_ok. rewrite Ho by congruence. done. }
  split; [split|].
  - intros ch1 b (b0 & H0 & Hs & ? & ? & ?)%Hb. destruct (ok_arena _ _ _ Hc _ _ H0) as (_ & _ & _ & Hi).
    split_and!; try done. cbn. destruct Hi as [->|]; [by left|right]. destruct b0, b.
    injection Hs. cbn in *. lia.
  - intros ch1 b fields (b0 & H0 & Hs & _)%Hb Hf.
    pose proof (ok_capacity _ _ _ Hc _ _ _ H0 Hf). destruct b0, b. injection Hs. cbn in *. lia.
  - intros ch1 ch2 b1 b2 (a1 & H1 & Hs1 & _)%Hb (a2 & H2 & Hs2 & _)%Hb Hne.
    pose proof (ok_distinct _ _ _ Hc _ _ _ _ H1 H2 Hne). destruct a1, a2, b1, b2.
    injection Hs1. injection Hs2. cbn in *. congruence.
  - split_and!; [done..|]. intros ch1. cbn. destruct (decide (ch = ch1)) as [->|].
    + by rewrite dget_dset_eq, Ha.
    + by rewrite dget_dset_ne.
Qed.

Lemma codec_ok_weaken fs c n : codec_ok fs c (S n) → codec_ok fs c n.
Proof.
  intros [H1 H2 H3]. split; [|done..]. intros ch a Ha. destruct (H1 ch a Ha) as (? & ? & ? & ?).
  split_and!; try done. lia.
Qed.

(** The result of encoding one output: the slots filled before are kept, and
    whoever keeps its slot decodes it. *)
Definition sends (fs : files) (c : codec) (next : list (string * Z)) (n : nat)
    (out : string * values)
    (r : files * codec * list (string * Z) * result exn json) : Prop :=
  ∃ fs' c' next' item,
    r = (fs', c', next', Ok item)
    ∧ codec_ok fs' c' n ∧ same_maps c c' ∧ kept c next fs fs'
    ∧ (∀ ch, next_slot next ch ≤ next_slot next' ch)
    ∧ ∀ fs'' t, kept c next' fs' fs'' →
        decode_input fs'' c (deliver t item) = Ok (mk_input (JStr out.1) t out.2).

Lemma inline_sends fs c next n ch raw fields vals :
  codec_ok fs c (S n) → dget (cd_types c) ch = Some fields → mt_unpack fields raw = Ok vals →
  sends fs c next n (ch, vals) (fs, c, next, Ok (inline_encode ch raw)).
Proof.
  intros Hc Hf Hu. exists fs, c, next, (inline_encode ch raw). split_and!; try done.
  - by apply codec_ok_weaken.
  - intros fs'' t _. by eapply decode_inline.
Qed.

Lemma arena_sends fs c next n ch a raw fields vals :
  codec_ok fs c (S n) → dget (cd_types c) ch = Some fields → mt_unpack fields raw = Ok vals →
  dget (cd_arenas c) ch = Some a → length raw = mt_size fields →
  0 ≤ next_slot next ch < ar_slots a →
  sends fs c next n (ch, vals)
    (let '(fs', c', r) := arena_encode fs c ch a raw (next_slot next ch) in
     (fs', c', dset next ch (next_slot next ch + 1), r)).
Proof.
  intros Hc Hf Hu Ha Hl Hs.
  destruct (ok_arena _ _ _ Hc _ _ Ha) as (Hok & Hq0 & Hq & Hi).
  destruct (ok_capacity _ _ _ Hc _ _ _ Ha Hf) as [Hcap Hmax].
  destruct (arena_write_read fs a raw (next_slot next ch)) as (fs' & W & Ha' & R1 & R2 & Hoth);
    [done|lia..|].
  destruct (codec_ok_write fs fs' c ch a n Hc Ha Ha' Hoth) as [Hc' Hm].
  unfold arena_encode. rewrite W. mcbn. do 4 eexists. split_and!; [done|done|done| | |].
  - intros ch1 b slot seq Hb Hslot Hlt. destruct (decide (ch1 = ch)) as [->|Hne].
    + rewrite Ha in Hb. injection Hb as <-. apply R2; lia.
    + apply arena_read_other; try done. apply Hoth.
      apply (ok_distinct _ _ _ Hc ch1 ch); done.
  - intros ch1. rewrite next_slot_dset. case_decide; subst; lia.
  - intros fs'' t Hk. eapply decode_arena; try done.
    + destruct Hi; [by left|right; lia].
    + rewrite (Hk ch a) by (rewrite ?next_slot_dset, ?decide_True; done || lia).
      rewrite R1. by rewrite Z.eqb_refl.
Qed.

Lemma encode_output_sends fs c next out n :
  codec_ok fs c (S n) → out_ok c out → (∀ ch, 0 ≤ next_slot next ch) →
  sends fs c next n out (encode_output fs c next out).
Proof.
  intros Hc (fields & vs & Hf & Hn & Ht & Ho & Hself) H0. destruct out as [ch vals].
  cbn [fst snd] in *. subst vals. destruct (mt_unpack_pack _ _ Hn Ht) as (raw & Hp & Hl & Hu).
  unfold encode_output. cbn [lookup_key]. rewrite Hf. mcbn.
  rewrite mt_pack_keywords, bool_decide_eq_false_2, Hp by (done || by eapply eq_sym, Forall2_length).
  cbn [lift_pack].
  fold (next_slot next ch). specialize (H0 ch).
  destruct (dget (cd_arenas c) ch) as [a|] eqn:Ha; [|by eapply inline_sends].
  destruct (Z.ltb_spec (next_slot next ch) (ar_slots a)); [|by eapply inline_sends].
  by eapply arena_sends.
Qed.

Lemma slots_kept_trans c next next' fs1 fs2 fs3 :
  (∀ ch, next_slot next ch ≤ next_slot next' ch) →
  kept c next fs1 fs2 → kept c next' fs2 fs3 → kept c next fs1 fs3.
Proof.
  intros Hle H1 H2 ch a slot seq Ha Hs Hl. specialize (Hle ch).
  rewrite (H2 ch a slot seq), (H1 ch a slot seq) by (done || lia). done.
Qed.

Lemma kept_maps c d next fs fs' : same_maps c d → kept d next fs fs' → kept c next fs fs'.
Proof.
  intros Hm Hk ch a slot seq Ha Hs Hl. destruct (same_maps_arena _ _ _ _ Hm Ha) as (b & Hb & Hab).
  rewrite !(arena_read_seq0 _ a b) by done. apply (Hk ch); [done|done|].
  destruct a, b. injection Hab. cbn in *. lia.
Qed.

Lemma encode_from_delivered fs c next outs encoded :
  codec_ok fs c (length outs) → Forall (out_ok c) outs → (∀ ch, 0 ≤ next_slot next ch) →
  ∃ fs' c' items,
    encode_from fs c next outs encoded = (fs', c', Ok (encoded ++ items))
    ∧ same_maps c c' ∧ kept c next fs fs'
    ∧ ∀ t, Forall2 (λ out item, decode_input fs' c (deliver t item)
                       = Ok (mk_input (JStr out.1) t out.2)) outs items.
Proof.
  revert fs c next encoded. induction outs as [|out outs IH]; intros fs c next encoded Hc Ho H0.
  { exists fs, c, []. rewrite app_nil_r. split_and!; try done. }
  inversion Ho as [|? ? Ho1 Ho2]; subst.
  destruct (encode_output_sends fs c next out (length outs)) as
    (fs1 & c1 & next1 & item & E1 & Hc1 & Hm1 & Hk1 & Hle & Hd); [done..|].
  assert (Forall (out_ok c1) outs) as Ho3.
  { eapply Forall_impl; [done|]. intros o. unfold out_ok. by rewrite (proj1 Hm1). }
  destruct (IH fs1 c1 next1 (encoded ++ [item])) as (fs2 & c2 & items & E2 & Hm2 & Hk2 & Hf);
    [done|done| |].
  { intros ch. specialize (H0 ch). specialize (Hle ch). lia. }
  exists fs2, c2, (item :: items). split_and!.
  - cbn [encode_from]. rewrite E1, E2, <- app_assoc. done.
  - by trans c1.
  - eapply slots_kept_trans; [done|done|]. by eapply kept_maps.
  - intros t. constructor; [apply Hd; by eapply kept_maps|].
    eapply Forall2_impl; [apply Hf|]. intros o i <-. by apply decode_input_maps.
Qed.

(** Opening a mapping of the size the init line declares gives a usable Arena
    whose first write has number 1. *)
Lemma arena_open_ok fs path capacity slots a :
  arena_open fs path capacity slots = Ok a → 0 ≤ ar_capacity a →
  arena_ok fs a ∧ ar_seq a = 0 ∧ ar_open a = true.
Proof.
  unfold arena_open. destruct (as_num capacity) as [n|]; [|done].
  intros ([p m] & Hp & H)%bind_Ok Hc.
  destruct path as [| | | |p0| |]; try done. destruct (fs !! p0) as [m0|] eqn:Hf; [|done].
  injection Hp as -> ->. destruct n as [c|]; [|done].
  destruct (as_num slots) as [[k|]|]; try done. apply bind_Ok in H as (len & Hl & [= <-]).
  cbn in *. unfold mmap_length in Hl. split; [|done]. unfold arena_ok, stride. cbn.
  destruct (Z.ltb_spec ((HEADER + c) * k) 0); [done|].
  destruct (Z.eqb_spec ((HEADER + c) * k) 0) as [E|].
  - destruct m; [done|]. injection Hl as <-. split_and!; [done|lia|by eauto].
  - destruct (Z.ltb_spec (Z.of_nat (length m)) ((HEADER + c) * k)); [done|]. injection Hl as <-.
    split_and!; [done|lia|]. exists m. split; [done|]. lia.
Qed.

(** ** The protocol a peer sees *)

Section conversation.
Context {P : Type} (on_init : P → json → P * result exn ()).
Context (on_step : P → json → json → list input
                   → P * result exn (option (list (string * values)))).
Context (reason : exn → string) (loads : string → result exn json).
Implicit Types (p : P) (c : codec) (oc : option codec).

(** The line is a document with the given "op". *)
Definition asks (text : string) (msg op : json) : Prop :=
  loads text = Ok msg ∧ subscript msg "op" = Ok op.

(** What one step of the participant came to: the participant is stepped once,
    with the decoded inputs, or not at all when the line cannot be decoded; what
    it publishes is encoded, and the first exception of the three is the outcome. *)
Inductive stepped (p : P) (fs : files) (c : codec) (msg : json)
    : P → files → codec → result exn (list json) → Prop :=
| st_undecoded e :
    step_args fs c msg = Err e → stepped p fs c msg p fs c (Err e)
| st_raised t dt inputs p' e :
    step_args fs c msg = Ok (t, dt, inputs) → on_step p t dt inputs = (p', Err e) →
    stepped p fs c msg p' fs c (Err e)
| st_published t dt inputs p' outs fs' c' r :
    step_args fs c msg = Ok (t, dt, inputs) → on_step p t dt inputs = (p', Ok outs) →
    encode_outputs fs c (default [] outs) = (fs', c', r) →
    stepped p fs c msg p' fs' c' r.

(** A conversation with a participant in a state, over the mapped files, with
    the codec of the last init that was read: the events, the lines sent, how
    it ended, and the participant's last state. Each reply is the one that is
    due for what [on_init] returned, or for what the step came to. *)
Inductive conversation : P → files → option codec → list event → list json → ending → P → Prop :=
| cv_eof p fs oc : conversation p fs oc [] [] AtEof p
| cv_write p fs oc path i bs evs rs e q :
    conversation p (poke fs path i bs) oc evs rs e q →
    conversation p fs oc (KernelWrite path i bs :: evs) rs e q
| cv_sigterm p fs oc evs : conversation p fs oc (Sigterm :: evs) [] (Raised XExit) p
| cv_garbled p fs oc text evs e :
    (msg ← loads text; subscript msg "op") = Err e →
    conversation p fs oc (Line text :: evs) [] (Raised e) p
| cv_unread p fs oc text msg evs e :
    asks text msg (JStr "init") → read_init fs msg = Err e →
    conversation p fs oc (Line text :: evs) [] (Raised e) p
| cv_ready p fs oc text msg evs protocol c p' rs e q :
    asks text msg (JStr "init") → read_init fs msg = Ok (protocol, c) →
    on_init p msg = (p', Ok ()) → conversation p' fs (Some c) evs rs e q →
    conversation p fs oc (Line text :: evs)
      (JObj (("op"%string, JStr "ready")
             :: if jget msg "protocol" then [("protocol"%string, protocol)] else []) :: rs) e q
| cv_bad_manifest p fs oc text msg evs protocol c p' m :
    asks text msg (JStr "init") → read_init fs msg = Ok (protocol, c) →
    on_init p msg = (p', Err (XManifest m)) →
    conversation p fs oc (Line text :: evs)
      [JObj [("op"%string, JStr "fail"); ("reason"%string, JStr (reason (XManifest m)))]] Returned p'
| cv_init_failed p fs oc text msg evs protocol c p' f :
    asks text msg (JStr "init") → read_init fs msg = Ok (protocol, c) →
    on_init p msg = (p', Err (XFailure f)) →
    conversation p fs oc (Line text :: evs)
      [JObj [("op"%string, JStr "fail"); ("reason"%string, JStr (reason (XFailure f)));
             ("failure"%string, JStr "run")]] Returned p'
| cv_init_raised p fs oc text msg evs protocol c p' e :
    asks text msg (JStr "init") → read_init fs msg = Ok (protocol, c) →
    on_init p msg = (p', Err e) → (∀ m, e ≠ XManifest m) → (∀ f, e ≠ XFailure f) →
    conversation p fs oc (Line text :: evs) [] (Raised e) p'
| cv_early p fs text msg evs rs e q :
    asks text msg (JStr "step") → conversation p fs None evs rs e q →
    conversation p fs None (Line text :: evs)
      (JObj [("op"%string, JStr "fail"); ("reason"%string, JStr (reason (XFailure StepBeforeInit)))] :: rs) e q
| cv_done p fs c text msg evs p' fs' c' items rs e q :
    asks text msg (JStr "step") → stepped p fs c msg p' fs' c' (Ok items) →
    conversation p' fs' (Some c') evs rs e q →
    conversation p fs (Some c) (Line text :: evs)
      (JObj [("op"%string, JStr "step_done"); ("out"%string, JArr items)] :: rs) e q
| cv_step_failed p fs c text msg evs p' fs' c' x rs e q :
    asks text msg (JStr "step") → stepped p fs c msg p' fs' c' (Err x) → x ≠ XExit →
    conversation p' fs' (Some c') evs rs e q →
    conversation p fs (Some c) (Line text :: evs)
      (JObj [("op"%string, JStr "fail"); ("reason"%string, JStr (reason x))] :: rs) e q
| cv_step_exit p fs c text msg evs p' fs' c' :
    asks text msg (JStr "step") → stepped p fs c msg p' fs' c' (Err XExit) →
    conversation p fs (Some c) (Line text :: evs) [] (Raised XExit) p'
| cv_shutdown p fs oc text msg evs :
    asks text msg (JStr "shutdown") → conversation p fs oc (Line text :: evs) [] Returned p
| cv_ignored p fs oc text msg op evs rs e q :
    asks text msg op → op ∉ [JStr "init"; JStr "step"; JStr "shutdown"] →
    conversation p fs oc evs rs e q → conversation p fs oc (Line text :: evs) rs e q.
End conversation.

Lemma py_eq_str v s : py_eq v (JStr s) = true ↔ v = JStr s.
Proof.
  destruct v; cbn; try (split; [discriminate|by intros [=]]).
  rewrite String.eqb_eq. split; [by intros ->|by intros [= ->]].
Qed.

Section run_facts.
Context {P : Type} (on_init : P → json → P * result exn ()).
Context (on_step : P → json → json → list input
                   → P * result exn (option (list (string * values)))).
Context (reason : exn → string) (loads : string → result exn json).
Implicit Types s : @loop P.

Local Abbreviation talk := (conversation on_init on_step reason loads).

(** A conversation from where the loop stands. *)
Definition from_here s (evs : list event) (rs : list json) (e : ending) (q : P) : Prop :=
  talk (lp_self s) (lp_files s) (lp_codec s) evs rs e q.

(** What a handled line leaves room for. *)
Definition leads s text s' sent k : Prop :=
  match k with
  | Continue => ∀ evs rest e q, from_here s' evs rest e q → from_here s (Line text :: evs) (sent ++ rest) e q
  | Return => ∀ evs, from_here s (Line text :: evs) sent Returned (lp_self s')
  | Raise e => ∀ evs, from_here s (Line text :: evs) sent (Raised e) (lp_self s')
  end.

Lemma handle_init_leads s text msg s' sent k :
  asks loads text msg (JStr "init") → handle_init on_init reason s msg = (s', sent, k) →
  leads s text s' sent k.
Proof.
  intros Hm. unfold handle_init, leads, from_here.
  destruct (read_init _ _) as [[protocol c]|e] eqn:Hr; [|intros [= <- <- <-] evs; by eapply cv_unread].
  destruct (on_init _ _) as [p [[]|e]] eqn:Hi.
  - intros [= <- <- <-] evs rest e q H. eapply cv_ready in H; [|done..].
    by destruct (jget msg "protocol").
  - destruct e; intros [= <- <- <-] evs;
      solve [by eapply cv_bad_manifest|by eapply cv_init_failed|by eapply cv_init_raised].
Qed.

Lemma step_body_stepped s c msg s' r :
  lp_codec s = Some c → step_body on_step s msg = (s', r) →
  ∃ c' r', lp_codec s' = Some c'
    ∧ stepped on_step (lp_self s) (lp_files s) c msg (lp_self s') (lp_files s') c' r'
    ∧ r = (items ← r'; Ok (JObj [("op"%string, JStr "step_done"); ("out"%string, JArr items)])).
Proof.
  intros Hc. unfold step_body. rewrite Hc.
  destruct (step_args _ _ _) as [[[t dt] inputs]|e] eqn:Ha;
    [|intros [= <- <-]; exists c, (Err e); split_and!; [done|by constructor|done]].
  destruct (on_step _ _ _ _) as [p [outs|e]] eqn:Ho;
    [|intros [= <- <-]; exists c, (Err e); split_and!; [done|by eapply st_raised|done]].
  destruct (encode_outputs _ _ _) as [[fs c'] r'] eqn:He.
  intros [= <- <-]. exists c', r'. split_and!; [done|by eapply st_published|done].
Qed.

Lemma is_exception_exit e : is_exception e = true ↔ e ≠ XExit.
Proof. destruct e; cbn; split; congruence. Qed.

Lemma handle_step_leads s text msg s' sent k :
  asks loads text msg (JStr "step") → handle_step on_step reason s msg = (s', sent, k) →
  leads s text s' sent k.
Proof.
  intros Hm. unfold handle_step. destruct (lp_codec s) as [c|] eqn:Hc; cycle 1.
  { unfold step_body. rewrite Hc. cbn. intros [= <- <- <-] evs rest e q. unfold from_here.
    rewrite Hc. by eapply cv_early. }
  destruct (step_body _ _ _) as [s1 r] eqn:Hb.
  apply (step_body_stepped _ c) in Hb as (c' & r' & Hc' & Hs & ->); [|done].
  unfold leads, from_here. rewrite Hc. destruct r' as [items|x]; cbn [mbind result_bind].
  - intros [= <- <- <-] evs rest e q. rewrite Hc'. by eapply cv_done.
  - destruct (is_exception x) eqn:Hx; intros [= <- <- <-] evs.
    + intros rest e q. rewrite Hc'. apply is_exception_exit in Hx. by eapply cv_step_failed.
    + destruct x; try done. by eapply cv_step_exit.
Qed.

Lemma handle_line_leads s text s' sent k :
  handle_line on_init on_step reason loads s text = (s', sent, k) → leads s text s' sent k.
Proof.
  unfold handle_line. destruct (loads text ≫= _) as [[msg op]|err] eqn:Hm; cycle 1.
  { intros [= <- <- <-] evs. apply cv_garbled. destruct (loads text) as [m|]; [|by injection Hm as ->].
    mcbn. cbn [mbind result_bind] in Hm. destruct (subscript m "op"); [done|].
    by injection Hm as ->. }
  assert (asks loads text msg op) as Hop.
  { apply bind_Ok in Hm as (m & H1 & (o & H2 & [= -> ->])%bind_Ok). done. }
  destruct (py_eq op (JStr "init")) eqn:E1; [apply py_eq_str in E1 as ->; by apply handle_init_leads|].
  destruct (py_eq op (JStr "step")) eqn:E2; [apply py_eq_str in E2 as ->; by apply handle_step_leads|].
  destruct (py_eq op (JStr "shutdown")) eqn:E3; [apply py_eq_str in E3 as ->|].
  { intros [= <- <- <-] evs. by eapply cv_shutdown. }
  intros [= <- <- <-] evs rest e q. eapply cv_ignored; [done|]. rewrite !not_elem_of_cons.
  split_and!; [intros ->; by rewrite (proj2 (py_eq_str _ _)) in * by done..|].
  apply not_elem_of_nil.
Qed.

(** The loop follows the protocol from every state. *)
Lemma protocol_loop_conversation s evs s' sent e :
  protocol_loop on_init on_step reason loads s evs = (s', sent, e) →
  from_here s evs sent e (lp_self s').
Proof.
  revert s sent e. induction evs as [|ev evs IH]; intros s sent e.
  { cbn. intros [= <- <- <-]. constructor. }
  destruct ev as [text|path i bs|]; cbn [protocol_loop].
  - destruct (handle_line _ _ _ _ s text) as [[s1 sent1] k] eqn:Hl.
    apply handle_line_leads in Hl. destruct k; [|intros [= <- <- <-]; apply Hl..].
    destruct (protocol_loop _ _ _ _ s1 evs) as [[s2 rest] e2] eqn:Hr. intros [= <- <- <-].
    eapply Hl, IH. exact Hr.
  - intros H%IH. by constructor.
  - intros [= <- <- <-]. constructor.
Qed.

(** What the loop does with a line that was understood. *)
Lemma handle_line_asks s text msg op :
  asks loads text msg (JStr op) →
  handle_line on_init on_step reason loads s text
  = if String.eqb op "init" then handle_init on_init reason s msg
    else if String.eqb op "step" then handle_step on_step reason s msg
    else if String.eqb op "shutdown" then (s, [], Return) else (s, [], Continue).
Proof. intros [H1 H2]. unfold handle_line. by rewrite H1; mcbn; cbn [mbind result_bind]; rewrite H2. Qed.

Lemma stepped_step_body p fs c msg p' fs' c' r :
  stepped on_step p fs c msg p' fs' c' r →
  step_body on_step (mk_loop p fs (Some c)) msg
  = (mk_loop p' fs' (Some c'),
     items ← r; Ok (JObj [("op"%string, JStr "step_done"); ("out"%string, JArr items)])).
Proof.
  unfold step_body. cbn [lp_codec lp_files lp_self].
  destruct 1 as [e -> |t dt inputs p' e -> ->|t dt inputs p' outs fs' c' r -> -> ->]; done.
Qed.

(** The protocol leaves the loop no choice. *)
Lemma conversation_protocol_loop p fs oc evs rs e q :
  talk p fs oc evs rs e q →
  ∃ s, protocol_loop on_init on_step reason loads (mk_loop p fs oc) evs = (s, rs, e) ∧ lp_self s = q.
Proof.
  induction 1 as [p fs oc|p fs oc path i bs evs rs e q _ IH|p fs oc evs|p fs oc text evs e Hm
    |p fs oc text msg evs e Hm Hr|p fs oc text msg evs protocol c p' rs e q Hm Hr Hi _ IH
    |p fs oc text msg evs protocol c p' m Hm Hr Hi|p fs oc text msg evs protocol c p' f Hm Hr Hi
    |p fs oc text msg evs protocol c p' e Hm Hr Hi H1 H2|p fs text msg evs rs e q Hm _ IH
    |p fs c text msg evs p' fs' c' items rs e q Hm Hs _ IH|p fs c text msg evs p' fs' c' x rs e q Hm Hs Hx _ IH
    |p fs c text msg evs p' fs' c' Hm Hs|p fs oc text msg evs Hm|p fs oc text msg op evs rs e q [H1 H2] Ho _ IH];
    cbn [protocol_loop]; try (rewrite (handle_line_asks _ _ _ _ Hm); cbn [String.eqb Ascii.eqb Bool.eqb]);
    unfold handle_init, handle_step; cbn [lp_files lp_self]; try rewrite Hr; try rewrite Hi;
    try (rewrite (stepped_step_body _ _ _ _ _ _ _ _ Hs); cbn [mbind result_bind]);
    try (destruct IH as (s & IH & <-)); try (by eexists).
  - exists (mk_loop p fs oc). unfold handle_line. destruct (loads text) as [m|]; [|by injection Hm as ->].
    mcbn. cbn [mbind result_bind] in *. by destruct (subscript m "op"); [|injection Hm as ->].
  - rewrite IH. exists s. by destruct (jget msg "protocol").
  - destruct e; try (by eexists); by (destruct (H1 _ eq_refl) || destruct (H2 _ eq_refl)).
  - cbn. rewrite IH. by exists s.
  - rewrite IH. by exists s.
  - apply is_exception_exit in Hx. rewrite Hx, IH. by exists s.
  - unfold handle_line. rewrite H1. mcbn. cbn [mbind result_bind]. rewrite H2.
    rewrite !not_elem_of_cons in Ho. destruct Ho as (O1 & O2 & O3 & _).
    assert (∀ n, op ≠ JStr n → py_eq op (JStr n) = false) as Hn.
    { intros n Hne. apply not_true_iff_false. by rewrite py_eq_str. }
    cbn [mbind result_bind]. rewrite !Hn by done. rewrite IH. by exists s.
Qed.
End run_facts.

(** ** Properties *)

(** C15. Transport transparency: a step whose outputs fit their schemas is
    encoded, in order, and a peer that maps the same files decodes from the
    items exactly the published Channels and fields, whether each one went
    through an Arena slot or inline, and whatever was written after it. *)
Theorem outputs_delivered fs c peer outs t :
  codec_ok fs c (length outs) → Forall (out_ok c) outs → same_maps c peer →
  ∃ fs' c' items,
    encode_outputs fs c outs = (fs', c', Ok items) ∧ same_maps c c'
    ∧ decode_inputs fs' peer (deliver t <$> items)
      = Ok ((λ out, mk_input (JStr out.1) t out.2) <$> outs).
Proof.
  intros Hc Ho Hp.
  destruct (encode_from_delivered fs c [] outs []) as (fs' & c' & items & E & Hm & _ & Hf); [done..|].
  exists fs', c', items. split_and!; [done|done|]. apply mapE_Ok.
  rewrite Forall2_fmap. apply Forall2_flip. eapply Forall2_impl; [apply (Hf t)|].
  cbn. intros out item <-. symmetry. by apply decode_input_maps.
Qed.

(** An Arena is an array of last writes: after any sequence of writes into
    a fresh one, which return 1, 2, 3, ..., a read of a slot gives the payload
    of the last write into it when asked for that write's number, and is
    refused as stale for every other number. *)
Theorem arena_history fs a ws :
  arena_ok fs a → mapped fs a = replicate (ar_length a) x00 → ar_seq a = 0 →
  Forall (write_ok a) ws → Z.of_nat (length ws) ≤ u64_max →
  ∃ fs' a', write_all fs a ws = (fs', a', Ok ((λ i, Z.of_nat i + 1) <$> seq 0 (length ws)))
    ∧ ∀ slot seq, 0 ≤ slot < ar_slots a →
        arena_read fs' a (JInt seq) (JInt slot)
        = expect slot seq (last_write 0 ws slot (0, [])).
Proof.
  intros Ha Hz H0 Hw Hl.
  destruct (write_all_reads fs a ws (λ _, (0, []))) as (fs' & W & R); try done; try lia.
  { intros slot seq Hs. by apply read_zero. }
  rewrite H0 in W, R. exists fs', (set_seq a (0 + Z.of_nat (length ws))). split; [|done].
  rewrite W. do 2 f_equal. apply list_fmap_ext. intros _ i _. lia.
Qed.

(** C23. Protocol conformance: over any events, what [run] sends, how it ends
    and the state it leaves the participant in are those of the one
    conversation the protocol admits. An init that is read is answered for what
    [on_init] returned: "ready" when it returned, with the protocol exactly if
    the line named one; "fail" when it raised a [ManifestError], and "fail" with
    "failure": "run" when it raised a [ParticipantFailure], after which the loop
    ends; any other exception goes unanswered and out of [run]. A step is
    answered for what came of it, and steps the participant at most once:
    "step_done" with its encoded outputs, or "fail" with the exception, after
    which the loop goes on; before an init the participant is not stepped. The
    loop ends at "shutdown" without a reply, and however it ends every Arena is
    closed. *)
Theorem run_conversation {P} on_init on_step reason loads (self : P) fs evs :
  let '(s, sent, e) := run on_init on_step reason loads self fs evs in
  (∀ rs e' q, conversation on_init on_step reason loads self fs None evs rs e' q
              ↔ rs = sent ∧ e' = e ∧ q = lp_self s)
  ∧ ∀ c, lp_codec s = Some c → Forall (λ x, ar_open x.2 = false) (cd_arenas c).
Proof.
  unfold run. destruct (protocol_loop _ _ _ _ _ _) as [[s sent] e] eqn:Hl. split.
  - intros rs e' q. split.
    + intros (s' & Hl' & <-)%conversation_protocol_loop. rewrite Hl in Hl'. by injection Hl' as -> -> ->.
    + intros (-> & -> & ->). by apply protocol_loop_conversation in Hl.
  - unfold teardown. cbn. intros c. destruct (lp_codec s) as [c0|]; [|done]. cbn.
    intros [= <-]. cbn. rewrite Forall_fmap. apply Forall_forall. done.
Qed.

(** ** Witnesses *)

(** Two slots of four bytes on a file, and an inline Channel. *)
Definition demo_files : files := {[ "/arena"%string := replicate 40 x00 ]}.
Definition demo_arena : arena := mk_arena "/arena" 4 2 40 0 true.
Definition demo_word : list field := [mk_field "word" U32 None].
Definition demo_codec : codec :=
  mk_codec [("fast"%string, demo_word); ("slow"%string, demo_word)]
    [("fast"%string, demo_arena)] true.
Definition demo_out (ch : string) (n : Z) : string * values :=
  (ch, [("word"%string, VNum (PInt n))]).
Definition demo_outs : list (string * values) :=
  [demo_out "fast" 7; demo_out "slow" 8; demo_out "fast" 9; demo_out "fast" 10].

Lemma demo_arena_ok : arena_ok demo_files demo_arena.
Proof.
  split_and!; [done..|]. exists (replicate 40 x00). split; [done|]. cbn. lia.
Qed.

Lemma demo_codec_ok : codec_ok demo_files demo_codec 4.
Proof.
  assert (∀ ch a, dget (cd_arenas demo_codec) ch = Some a → ch = "fast"%string ∧ a = demo_arena) as H.
  { intros ch a. cbn. case_decide; [|done]. by intros [= <-]. }
  split.
  - intros ch a [-> ->]%H. split_and!; [exact demo_arena_ok|done..|by left].
  - intros ch a fields [-> ->]%H [= <-]. done.
  - intros ch ch' a a' [-> ->]%H [-> ->]%H. done.
Qed.

Lemma demo_out_ok ch n :
  dget (cd_types demo_codec) ch = Some demo_word → 0 ≤ n < 2 ^ 32 →
  out_ok demo_codec (demo_out ch n).
Proof.
  intros Hc Hn. exists demo_word, [VNum (PInt n)]. split_and!; [done| | |done|].
  - apply (bool_decide_unpack _). vm_compute. exact I.
  - constructor; [|constructor]. split; [lia|]. apply Z.lt_le_pred. exact (proj2 Hn).
  - apply (bool_decide_unpack _). vm_compute. exact I.
Qed.

Lemma outputs_delivered_witness :
  ∃ fs' c' items,
    encode_outputs demo_files demo_codec demo_outs = (fs', c', Ok items)
    ∧ same_maps demo_codec c'
    ∧ decode_inputs fs' demo_codec (deliver (JInt 5) <$> items)
      = Ok ((λ out, mk_input (JStr out.1) (JInt 5) out.2) <$> demo_outs).
Proof.
  apply (outputs_delivered demo_files demo_codec demo_codec demo_outs (JInt 5)).
  - exact demo_codec_ok.
  - repeat constructor; (apply demo_out_ok; [reflexivity|lia]).
  - reflexivity.
Defined.

Lemma arena_history_witness :
  ∃ fs' a', write_all demo_files demo_arena [(1, [x61]); (0, [x62; x63]); (1, [])]
            = (fs', a', Ok ((λ i, Z.of_nat i + 1) <$> seq 0 3))
    ∧ ∀ slot seq, 0 ≤ slot < 2 →
        arena_read fs' demo_arena (JInt seq) (JInt slot)
        = expect slot seq (last_write 0 [(1, [x61]); (0, [x62; x63]); (1, [])] slot (0, [])).
Proof.
  apply (arena_history demo_files demo_arena [(1, [x61]); (0, [x62; x63]); (1, [])]).
  - exact demo_arena_ok.
  - reflexivity.
  - reflexivity.
  - repeat constructor; unfold write_ok; cbn; try lia; done.
  - done.
Defined.

(** The first three Messages of a burst take the slots and the fourth goes
    inline; a step before init fails and the loop goes on. *)
Example demo_items :
  (encode_outputs demo_files demo_codec demo_outs).2
  = Ok [JObj [("ch"%string, JStr "fast"); ("shm_slot"%string, JInt 0); ("shm_seq"%string, JInt 1)];
        JObj [("ch"%string, JStr "slow"); ("data"%string, JStr "CAAAAA==")];
        JObj [("ch"%string, JStr "fast"); ("shm_slot"%string, JInt 1); ("shm_seq"%string, JInt 2)];
        JObj [("ch"%string, JStr "fast"); ("data"%string, JStr "CgAAAA==")]].
Proof. vm_compute. reflexivity. Qed.
