(* ===== verification/Interchange.v ===== *)
(** * The visualization interchange profile

    Models [python/src/sil/visualization/interchange.py]: [ChannelCodec] checks
    a source Schema ([checked_fields]), generates a JSON Schema ([json_schema])
    and turns payloads into JSON envelopes ([payload]). Documents are [json]
    values; their text ([json.dumps]) is not modelled. Every envelope is valid
    under the generated schema ([payload_valid]) and loses nothing but the
    payload bits of NaNs ([payload_lossless]). *)

From Stdlib Require Import ZArith Lia Ascii.
From stdpp Require Import pretty.
From S2P Require Import Prelude PyFloat Json SchemaTypes Schema Pointer Base64.

Open Scope string_scope.
Open Scope list_scope.
Open Scope Z_scope.

Inductive interchange_error :=
| NotADeclaration
| FieldWithoutName
| UnsupportedType (name : string) (type_ : json)
| UnhashableType
| BadCount (name : string) (count : json)
| DeclaredTwice (name : string)
| MalformedPayload (expected got : nat).

Definition wide_integer (p : prim) : bool :=
  match p with I64 | U64 => true | _ => false end.
Definition is_float (p : prim) : bool :=
  match p with F32 | F64 => true | _ => false end.

(** ** The declaration *)

(** [type_ not in FORMATS]: a list or dict is not hashable, so the test
    raises TypeError. *)
Definition known_type (name : string) (type_ : json) : result interchange_error prim :=
  match type_ with
  | JStr s => match prim_of_name s with
              | Some p => Ok p
              | None => Err (UnsupportedType name type_)
              end
  | JArr _ | JObj _ => Err UnhashableType
  | _ => Err (UnsupportedType name type_)
  end.

(** ["count" in field] and its check; [None] is an absent count. *)
Definition checked_count (name : string) (count : option json)
    : result interchange_error (option nat) :=
  match count with
  | None => Ok None
  | Some (JInt n) => if n <? 1 then Err (BadCount name (JInt n)) else Ok (Some (Z.to_nat n))
  | Some v => Err (BadCount name v)
  end.

(** One pass of the loop of [_checked_fields], over the fields seen. *)
Definition checked_field (seen : list field) (v : json)
    : result interchange_error (list field) :=
  match v, jget v "name" with
  | JObj _, Some (JStr name) =>
      p ← known_type name (default JNull (jget v "type"));
      count ← checked_count name (jget v "count");
      raise: DeclaredTwice name if: bool_decide (name ∈ (fd_name <$> seen));;
      Ok (seen ++ [mk_field name p count])
  | _, _ => Err FieldWithoutName
  end.

Definition checked_fields (declaration : json) : result interchange_error (list field) :=
  match jget declaration "fields" with
  | Some (JArr l) => foldE checked_field [] l
  | _ => Err NotADeclaration
  end.

(** ** The JSON Schema *)

Definition obj := JObj.
Definition strs (l : list string) : json := JArr (JStr <$> l).

Definition DECIMAL : string := "^-?(0|[1-9][0-9]*)$".

Definition SIL_MEMBER : json :=
  obj [("type", JStr "object");
       ("description", JStr "SiL locator and representation notes; not a source field");
       ("properties", obj
         [("publication_time_ns", obj
             [("type", JStr "string"); ("pattern", JStr DECIMAL);
              ("description", JStr "publication time in integer nanoseconds of Virtual time")]);
          ("record_index", obj
             [("type", JStr "string"); ("pattern", JStr DECIMAL);
              ("description", JStr "ordinal in the whole source's stored Message order; with the source SHA-256 a stable locator")]);
          ("nonfinite", obj
             [("type", JStr "object");
              ("description", JStr "JSON pointer of each null field value to the non-finite float it stands for");
              ("additionalProperties", obj
                 [("enum", strs ["-Infinity"; "Infinity"; "NaN"])])])]);
       ("required", strs ["publication_time_ns"; "record_index"; "nonfinite"]);
       ("additionalProperties", JBool false)].

Definition element_schema (p : prim) : list (string * json) :=
  if wide_integer p then [("type", JStr "string"); ("pattern", JStr DECIMAL)]
  else match int_range p with
  | None => [("type", strs ["number"; "null"])]
  | Some (low, high) => [("type", JStr "integer"); ("minimum", JInt low); ("maximum", JInt high)]
  end.

(** [{**schema, "description": ...}]. *)
Definition field_schema (f : field) : json :=
  let p := fd_type f in
  let notes := (if wide_integer p then ["decimal string"] else [])
               ++ (if is_float p then ["null when non-finite, see /sil/nonfinite"] else []) in
  let '(schema, original, notes) :=
    match fd_count f with
    | None => (element_schema p, prim_name p, notes)
    | Some n =>
        if decide (p = U8) then
          ([("type", JStr "string"); ("contentEncoding", JStr "base64")],
           "u8[" +:+ decimal n +:+ "]", notes ++ ["base64"])
        else
          ([("type", JStr "array"); ("items", obj (element_schema p));
            ("minItems", JInt (Z.of_nat n)); ("maxItems", JInt (Z.of_nat n))],
           prim_name p +:+ "[" +:+ decimal n +:+ "]", notes)
    end in
  let note := match notes with
              | [] => ""
              | _ => " (" +:+ String.concat "; " notes +:+ ")"
              end in
  obj (schema ++ [("description", JStr ("SiL " +:+ original +:+ note))]).

Definition json_schema (schema_name : string) (fs : list field) : json :=
  let fields := foldl (λ d f, dset d (fd_name f) (field_schema f)) [] fs in
  obj [("$schema", JStr "https://json-schema.org/draft/2020-12/schema");
       ("title", JStr schema_name);
       ("description", JStr ("SiL Schema " +:+ schema_name
          +:+ " in profile sil_visualization_json v1"));
       ("type", JStr "object");
       ("properties", obj
          [("sil", SIL_MEMBER);
           ("fields", obj [("type", JStr "object"); ("properties", obj fields);
                           ("required", strs fields.*1);
                           ("additionalProperties", JBool false)])]);
       ("required", strs ["sil"; "fields"]);
       ("additionalProperties", JBool false)].

(** ** The envelope *)

Abbreviation notes := (list (string * string)).

Definition nonfinite_name (b : Z) : string :=
  if is_nan64 b then "NaN" else if f_sign 52 11 b then "-Infinity" else "Infinity".

(** [_element]: the value, and [nonfinite] with the entry it adds. The numbers
    come from [unpack], so an integer type has an int. *)
Definition element (p : prim) (n : pynum) (ptr : string) (nonfinite : notes)
    : json * notes :=
  match n with
  | PInt z => (if wide_integer p then JStr (decimal_Z z) else JInt z, nonfinite)
  | PFloat b =>
      if is_float p && negb (is_finite64 b)
      then (JNull, dset nonfinite ptr (nonfinite_name b))
      else (JFloat b, nonfinite)
  end.

(** The list comprehension over an array, from index [i]. *)
Fixpoint elements_json (p : prim) (l : list pynum) (ptr : string) (i : nat) (nonfinite : notes)
    : list json * notes :=
  match l with
  | [] => ([], nonfinite)
  | n :: l =>
      let '(v, nf) := element p n (ptr +:+ "/" +:+ decimal i) nonfinite in
      let '(vs, nf') := elements_json p l ptr (S i) nf in
      (v :: vs, nf')
  end.

(** [_value]. *)
Definition value_json (f : field) (v : value) (ptr : string) (nonfinite : notes)
    : json * notes :=
  match v with
  | VNum n => element (fd_type f) n ptr nonfinite
  | VBytes bs => (JStr (b64encode bs), nonfinite)
  | VList l => let '(vs, nf) := elements_json (fd_type f) l ptr 0 nonfinite in (JArr vs, nf)
  end.

Definition field_pointer (f : field) : string := "/fields/" +:+ escape (fd_name f).

(** The dict comprehension over the fields; [decoded] has every name. *)
Fixpoint fields_json (fs : list field) (decoded : values) (out : list (string * json))
    (nonfinite : notes) : list (string * json) * notes :=
  match fs with
  | [] => (out, nonfinite)
  | f :: fs =>
      let '(j, nf) := value_json f (default (VNum (PInt 0)) (dget decoded (fd_name f)))
                        (field_pointer f) nonfinite in
      fields_json fs decoded (dset out (fd_name f) j) nf
  end.

(** [ChannelCodec.payload], before [json.dumps]. *)
Definition payload (fs : list field) (data : bytes) (publication_time_ns record_index : Z)
    : result interchange_error json :=
  if decide (length data ≠ mt_size fs) then Err (MalformedPayload (mt_size fs) (length data))
  else match mt_unpack fs data with
  | Err _ => Err (MalformedPayload (mt_size fs) (length data))
  | Ok decoded =>
      let '(fields, nonfinite) := fields_json fs decoded [] [] in
      Ok (obj [("sil", obj [("publication_time_ns", JStr (decimal_Z publication_time_ns));
                            ("record_index", JStr (decimal_Z record_index));
                            ("nonfinite", obj (prod_map id JStr <$> nonfinite))]);
               ("fields", obj fields)])
  end.

(** ** JSON Schema validation

    The keywords of draft 2020-12 that generated schemas use, for documents
    that [json.dumps] can write: a non-finite number is not one. *)

Definition digit_char (c : ascii) : bool := is_digit c.
Definition nonzero_digit (c : ascii) : bool := is_digit c && negb (Ascii.eqb c "0").

(** The pattern [DECIMAL]. *)
Definition is_natural (l : list ascii) : bool :=
  match l with
  | [c] => digit_char c
  | c :: l => nonzero_digit c && forallb digit_char l
  | [] => false
  end.
Definition is_decimal (s : string) : bool :=
  match String.list_ascii_of_string s with
  | "-"%char :: l => is_natural l
  | l => is_natural l
  end.

Definition type_is (v : json) (t : json) : bool :=
  match v, t with
  | JObj _, JStr t => String.eqb t "object"
  | JArr _, JStr t => String.eqb t "array"
  | JStr _, JStr t => String.eqb t "string"
  | JInt _, JStr t => String.eqb t "integer" || String.eqb t "number"
  | JFloat b, JStr t => String.eqb t "number" && is_finite64 b
  | JNull, JStr t => String.eqb t "null"
  | _, _ => false
  end.

Section keywords.
Context (valid : json → json → bool).

(** One keyword [k] with value [arg] of the schema [kws]. *)
Definition keyword (kws : list (string * json)) (k : string) (arg v : json) : bool :=
  if String.eqb k "type" then
    match arg with JArr ts => existsb (type_is v) ts | _ => type_is v arg end
  else if String.eqb k "pattern" then
    match v with JStr s => bool_decide (arg = JStr DECIMAL) && is_decimal s | _ => true end
  else if String.eqb k "minimum" then
    match v, arg with JInt z, JInt lo => lo <=? z | _, _ => false end
  else if String.eqb k "maximum" then
    match v, arg with JInt z, JInt hi => z <=? hi | _, _ => false end
  else if String.eqb k "enum" then
    match arg with JArr l => existsb (py_eq v) l | _ => false end
  else if String.eqb k "properties" then
    match v with
    | JObj d => forallb (λ kv, match jget arg kv.1 with
                               | Some s => valid s kv.2 | None => true end) d
    | _ => true
    end
  else if String.eqb k "required" then
    match v, arg with
    | JObj d, JArr names => forallb (λ n, existsb (λ kv, py_eq n (JStr kv.1)) d) names
    | _, _ => false
    end
  else if String.eqb k "additionalProperties" then
    match v with
    | JObj d =>
        forallb (λ kv, match jget (default JNull (dget kws "properties")) kv.1 with
                       | Some _ => true | None => valid arg kv.2 end) d
    | _ => true
    end
  else if String.eqb k "items" then
    match v with JArr l => forallb (valid arg) l | _ => true end
  else if String.eqb k "minItems" then
    match v, arg with JArr l, JInt n => n <=? Z.of_nat (length l) | _, _ => false end
  else if String.eqb k "maxItems" then
    match v, arg with JArr l, JInt n => Z.of_nat (length l) <=? n | _, _ => false end
  else (* annotations *)
    existsb (String.eqb k) ["$schema"; "title"; "description"; "contentEncoding"].
End keywords.

(** Validation, to a nesting depth of the schema. *)
Fixpoint valid (depth : nat) (schema v : json) : bool :=
  match depth with
  | O => false
  | S depth =>
      match schema with
      | JBool b => b
      | JObj kws => forallb (λ kw, keyword (valid depth) kws kw.1 kw.2 v) kws
      | _ => false
      end
  end.

(** ** Decimal text *)

Lemma pretty_char_digit x : (x < 10)%N → is_digit (pretty_N_char x) = true
  ∧ ((0 < x)%N → nonzero_digit (pretty_N_char x) = true).
Proof.
  intros Hx. assert (x ∈ [0; 1; 2; 3; 4; 5; 6; 7; 8; 9]%N) as H by (rewrite !elem_of_cons; lia).
  repeat (apply elem_of_cons in H as [->|H]; [split; [reflexivity|by vm_compute]|]).
  by apply elem_of_nil in H.
Qed.

Abbreviation chars := String.list_ascii_of_string.

Lemma pretty_go_digits x s :
  (0 < x)%N →
  ∃ c l, chars (pretty_N_go x s) = c :: l ++ chars s
         ∧ nonzero_digit c = true ∧ forallb digit_char l = true.
Proof.
  revert s. induction x as [x IH] using (well_founded_ind N.lt_wf_0). intros s Hx.
  rewrite pretty_N_go_step by done.
  assert (x `mod` 10 < 10)%N as Hm by (apply N.mod_lt; lia).
  destruct (pretty_char_digit _ Hm) as [Hd Hnz].
  destruct (decide (x `div` 10 = 0)%N) as [E|E].
  - rewrite E, pretty_N_go_0. eexists _, []. split_and!; [done| |done]. apply Hnz.
    apply N.div_small_iff in E; [|lia]. rewrite N.mod_small by done. done.
  - destruct (IH (x `div` 10)%N) with (s := String (pretty_N_char (x `mod` 10)) s)
      as (c & l & E1 & Hc & Hl); [by apply N.div_lt|by apply N.neq_0_lt_0|].
    exists c, (l ++ [pretty_N_char (x `mod` 10)]). split_and!; [|done|].
    + rewrite E1, <- app_assoc. done.
    + rewrite forallb_app, Hl. cbn [forallb]. unfold digit_char. by rewrite Hd.
Qed.

Lemma is_natural_digits c l :
  nonzero_digit c = true → forallb digit_char l = true → is_natural (c :: l) = true.
Proof.
  intros Hc Hl. unfold is_natural. destruct l as [|d l]; [|by rewrite Hc].
  by apply andb_true_iff in Hc as [Hc _].
Qed.

Lemma decimal_Z_is_decimal z : is_decimal (decimal_Z z) = true.
Proof.
  unfold decimal_Z, is_decimal. destruct z as [|p|p]; [done|..];
    (destruct (pretty_go_digits (N.pos p) "") as (c & l & E & Hc & Hl); [lia|]);
    rewrite app_nil_r in E.
  - change (pretty (Z.pos p)) with (pretty_N_go (N.pos p) ""). rewrite E.
    assert (is_natural (c :: l) = true) as Hn by by apply is_natural_digits.
    destruct c as [[] [] [] [] [] [] [] []]; done.
  - change (chars (pretty (Z.neg p))) with ("-"%char :: chars (pretty_N_go (N.pos p) "")).
    rewrite E. by apply is_natural_digits.
Qed.

(** ** What an element becomes *)

(** The elements of a value with their pointers. *)
Definition pointed (f : field) (v : value) : list (string * pynum) :=
  match v with
  | VNum n => [(field_pointer f, n)]
  | VBytes _ => []
  | VList l => (λ '(i, n), (field_pointer f +:+ "/" +:+ decimal i, n)) <$> enumerate l
  end.

Definition nonfinite_element (p : prim) (n : pynum) : option string :=
  match n with
  | PFloat b => if is_float p && negb (is_finite64 b) then Some (nonfinite_name b) else None
  | PInt _ => None
  end.

Definition element_json (p : prim) (n : pynum) : json :=
  match n with
  | PInt z => if wide_integer p then JStr (decimal_Z z) else JInt z
  | PFloat b => if is_float p && negb (is_finite64 b) then JNull else JFloat b
  end.

(** The entries that a list of elements adds to [nonfinite]. *)
Definition note (p : prim) (nf : notes) (x : string * pynum) : notes :=
  match nonfinite_element p x.2 with Some s => dset nf x.1 s | None => nf end.

Lemma element_split p n ptr nf :
  element p n ptr nf = (element_json p n, note p nf (ptr, n)).
Proof.
  unfold element, note. destruct n as [z|b]; cbn [snd nonfinite_element element_json]; [done|].
  by destruct (is_float p && negb (is_finite64 b)).
Qed.

Lemma elements_split p l ptr i nf :
  elements_json p l ptr i nf
  = (element_json p <$> l,
     foldl (note p) nf ((λ '(i, n), (ptr +:+ "/" +:+ decimal i, n)) <$> enumerate_from i l)).
Proof.
  revert i nf. induction l as [|n l IH]; intros i nf; [done|].
  cbn [elements_json]. rewrite element_split, IH. done.
Qed.

Definition value_doc (f : field) (v : value) : json :=
  match v with
  | VNum n => element_json (fd_type f) n
  | VBytes bs => JStr (b64encode bs)
  | VList l => JArr (element_json (fd_type f) <$> l)
  end.

Lemma value_split f v nf :
  value_json f v (field_pointer f) nf
  = (value_doc f v, foldl (note (fd_type f)) nf (pointed f v)).
Proof.
  destruct v as [n|bs|l]; cbn [value_json value_doc pointed].
  - by rewrite element_split.
  - done.
  - by rewrite elements_split.
Qed.

(** All elements of a Message, with their types. *)
Definition all_pointed (fs : list field) (vs : list value) : list (string * (prim * pynum)) :=
  concat (zip_with (λ f v, (λ x, (x.1, (fd_type f, x.2))) <$> pointed f v) fs vs).

Definition note' (nf : notes) (x : string * (prim * pynum)) : notes :=
  note x.2.1 nf (x.1, x.2.2).

Lemma foldl_note p nf l :
  foldl (note p) nf l = foldl note' nf ((λ x, (x.1, (p, x.2))) <$> l).
Proof. revert nf. induction l as [|[s n] l IH]; intros nf; [done|]. cbn. apply IH. Qed.

Lemma fields_split fs vs decoded out nf :
  NoDup (fd_name <$> fs) → length vs = length fs →
  (∀ f v, (f, v) ∈ zip fs vs → dget decoded (fd_name f) = Some v) →
  (∀ f, f ∈ fs → fd_name f ∉ out.*1) →
  fields_json fs decoded out nf
  = (out ++ zip_with (λ f v, (fd_name f, value_doc f v)) fs vs,
     foldl note' nf (all_pointed fs vs)).
Proof.
  revert vs out nf. induction fs as [|f fs IH]; intros [|v vs] out nf Hn Hl Hd Ho; try done.
  { cbn. by rewrite app_nil_r. }
  apply NoDup_cons in Hn as [Hf Hn]. cbn [fields_json].
  rewrite (Hd f v) by (cbn; left). cbn [default]. rewrite value_split, dset_keys_new
    by (apply Ho; left).
  rewrite (IH vs).
  - unfold all_pointed. cbn [zip_with concat]. by rewrite foldl_app, foldl_note, <- app_assoc.
  - done.
  - by injection Hl.
  - intros g w Hg. apply Hd. cbn. by right.
  - intros g Hg. rewrite fmap_app. cbn. rewrite elem_of_app, list_elem_of_singleton.
    intros [H|H]; [by apply (Ho g); [right|]|]. apply Hf. rewrite <- H.
    apply list_elem_of_fmap. eauto.
Qed.

(** The envelope, in closed form. *)
Definition envelope (fs : list field) (vs : list value) (t i : Z) : json :=
  obj [("sil", obj [("publication_time_ns", JStr (decimal_Z t));
                    ("record_index", JStr (decimal_Z i));
                    ("nonfinite", obj (prod_map id JStr <$> foldl note' [] (all_pointed fs vs)))]);
       ("fields", obj (zip_with (λ f v, (fd_name f, value_doc f v)) fs vs))].

Lemma payload_envelope fs data t i :
  NoDup (fd_name <$> fs) → length data = mt_size fs →
  payload fs data t i = Ok (envelope fs (field_values fs data) t i).
Proof.
  intros Hn Hl. unfold payload. rewrite decide_False by (by intros []).
  rewrite mt_unpack_values by done.
  assert (length (field_values fs data) = length fs) as Hv.
  { clear. revert data. induction fs as [|f fs IH]; intros data; cbn; auto. }
  rewrite (fields_split fs (field_values fs data)); [done|done|done| |set_solver].
  intros f v Hfv. by apply zip_dget.
Qed.

(** ** Shapes of decoded values *)

Definition elem_ok (p : prim) (n : pynum) : Prop :=
  match int_range p, n with
  | Some (lo, hi), PInt z => lo ≤ z ≤ hi
  | None, PFloat _ => True
  | _, _ => False
  end.

Definition shaped (f : field) (v : value) : Prop :=
  match field_plan f, v with
  | PScalar p, VNum n => elem_ok p n
  | PByteArray n, VBytes bs => length bs = n
  | PList p n, VList l => length l = n ∧ Forall (elem_ok p) l
  | _, _ => False
  end.

Lemma unpack_elem_ok p bs :
  length bs = Z.to_nat (size_of p) → elem_ok p (Struct.unpack_prim p bs).
Proof.
  intros Hl. unfold elem_ok. destruct (int_range p) as [[lo hi]|] eqn:Hr.
  - destruct (unpack_prim_ok p bs Hl) as [H _]; [by destruct p|].
    unfold num_ok in H. rewrite Hr in H. done.
  - by destruct p.
Qed.

Lemma field_value_shaped f d :
  (field_size f ≤ length d)%nat → shaped f (field_value f d).
Proof.
  unfold field_size, field_value, shaped, Struct.size.
  destruct (field_plan f) as [p|n|p n]; cbn [plan_fmt]; intros Hl.
  - apply unpack_elem_ok. cbn in Hl. rewrite length_take. lia.
  - cbn in Hl. rewrite length_take. lia.
  - rewrite length_fmap, length_seq. split; [done|]. apply Forall_fmap, Forall_forall.
    intros i Hi%elem_of_seq. apply unpack_elem_ok. rewrite length_take, length_drop.
    assert (sum_list_with Struct.item_size (replicate n (Struct.IPrim p))
            = n * Z.to_nat (size_of p))%nat as E.
    { clear. induction n; cbn in *; lia. }
    rewrite E in Hl. nia.
Qed.

Lemma field_values_shaped fs data :
  (mt_size fs ≤ length data)%nat → Forall2 shaped fs (field_values fs data).
Proof.
  revert data. induction fs as [|f fs IH]; intros data Hl; cbn [field_values]; constructor.
  - apply field_value_shaped. unfold mt_size, mt_items, Struct.size, field_size in *.
    cbn in Hl. rewrite sum_list_with_app in Hl. unfold Struct.size. lia.
  - apply IH. rewrite length_drop. unfold mt_size, mt_items, Struct.size, field_size in *.
    cbn in Hl. rewrite sum_list_with_app in Hl. unfold Struct.size. lia.
Qed.

(** ** Validity *)

Section validity.
Context (ok : json → json → bool) (kws : list (string * json)).

(** A schema's keywords hold one by one. *)
Definition holds (l : list (string * json)) (v : json) : bool :=
  forallb (λ kw, keyword ok kws kw.1 kw.2 v) l.

Lemma holds_element p n : elem_ok p n → holds (element_schema p) (element_json p n) = true.
Proof.
  unfold elem_ok, element_schema, element_json.
  destruct (int_range p) as [[lo hi]|] eqn:Hr, n as [z|b]; try done.
  - intros Hz. destruct (wide_integer p); cbn [holds forallb fst snd].
    + unfold holds. cbn [forallb fst snd]. unfold keyword. cbn [String.eqb Ascii.eqb Bool.eqb].
      rewrite decimal_Z_is_decimal, bool_decide_true by done. done.
    + unfold holds. cbn [forallb fst snd]. unfold keyword. cbn [String.eqb Ascii.eqb Bool.eqb].
      rewrite !(proj2 (Z.leb_le _ _)) by lia. done.
  - intros _. assert (is_float p = true) as -> by by destruct p.
    assert (wide_integer p = false) as -> by by destruct p. cbn [andb].
    destruct (is_finite64 b) eqn:Hb; cbn [negb]; unfold holds; cbn [forallb fst snd];
      unfold keyword; cbn; [by rewrite Hb|done].
Qed.
End validity.

Ltac kw_cbn := unfold keyword; cbn [String.eqb Ascii.eqb Bool.eqb forallb fst snd andb orb existsb].

Lemma valid_obj k kws v : valid (S k) (obj kws) v = holds (valid k) kws kws v.
Proof. done. Qed.

Lemma field_valid k f v : shaped f v → valid (S (S k)) (field_schema f) (value_doc f v) = true.
Proof.
  unfold shaped, field_plan, field_schema. intros H.
  destruct (fd_count f) as [n|].
  - destruct (decide (fd_type f = U8)) as [Hu|Hu].
    + by destruct v.
    + destruct v as [| |l]; try done. destruct H as [<- Hl].
      rewrite valid_obj. unfold holds. rewrite forallb_app. cbn [value_doc]. kw_cbn.
      rewrite length_fmap, Z.leb_refl, !andb_true_r.
      apply forallb_forall. intros j (n & -> & Hn)%list_elem_of_In%list_elem_of_fmap.
      rewrite valid_obj. apply holds_element. rewrite Forall_forall in Hl. by apply Hl.
  - destruct v as [n| |]; try done. rewrite valid_obj. unfold holds. rewrite forallb_app.
    apply andb_true_iff. split; [by apply holds_element|]. by kw_cbn.
Qed.

Lemma schema_fields fs :
  NoDup (fd_name <$> fs) →
  foldl (λ d f, dset d (fd_name f) (field_schema f)) [] fs
  = (λ f, (fd_name f, field_schema f)) <$> fs.
Proof.
  intros Hn. change ((λ f, (fd_name f, field_schema f)) <$> fs)
    with ([] ++ ((λ f, (fd_name f, field_schema f)) <$> fs)).
  assert (∀ f, f ∈ fs → fd_name f ∉ ([] : list (string * json)).*1) as Ho by set_solver.
  revert Ho. generalize ([] : list (string * json)) as out.
  induction fs as [|f fs IH]; intros out Ho; [by rewrite app_nil_r|].
  apply NoDup_cons in Hn as [Hf Hn]. cbn [foldl]. rewrite dset_keys_new by (apply Ho; left).
  rewrite IH; [by rewrite <- app_assoc|done|].
  intros g Hg. rewrite fmap_app. cbn. rewrite elem_of_app, list_elem_of_singleton.
  intros [H|H]; [by apply (Ho g); [right|]|]. apply Hf. rewrite <- H. apply list_elem_of_fmap. eauto.
Qed.

Definition annotation (k : string) : bool :=
  existsb (String.eqb k) ["$schema"; "title"; "description"; "contentEncoding"].

Lemma annotation_holds ok kws k arg v : annotation k = true → keyword ok kws k arg v = true.
Proof.
  unfold annotation. cbn [existsb]. rewrite !orb_true_iff, !String.eqb_eq.
  by intros [->|[->|[->|[->|]]]].
Qed.

(** The keywords of an object with exactly the properties [props]. *)
Definition object_keywords (props : list (string * json)) : list (string * json) :=
  [("type", JStr "object"); ("properties", obj props);
   ("required", strs props.*1); ("additionalProperties", JBool false)].

Lemma object_valid k kws (props d : list (string * json)) :
  Forall (λ kw, kw ∈ object_keywords props ∨ annotation kw.1 = true) kws →
  dget kws "properties" = Some (obj props) →
  props.*1 = d.*1 → NoDup d.*1 →
  Forall2 (λ p x, valid k p.2 x.2 = true) props d →
  valid (S k) (obj kws) (JObj d) = true.
Proof.
  intros Hkws Hprops Hk Hn Hv.
  assert (∀ x, x ∈ d → ∃ s, dget props x.1 = Some s ∧ valid k s x.2 = true) as Hd.
  { intros x [i Hi]%list_elem_of_lookup. destruct (Forall2_lookup_r _ _ _ _ _ Hv Hi) as (p & Hp & H).
    exists p.2. split; [|done]. apply dget_elem; [by rewrite Hk|].
    assert (p.1 = x.1) as <-.
    { assert (props.*1 !! i = d.*1 !! i) as E by by rewrite Hk.
      rewrite !list_lookup_fmap, Hp, Hi in E. by injection E. }
    destruct p. by eapply list_elem_of_lookup_2. }
  rewrite valid_obj. apply forallb_forall. intros kw Hkw%list_elem_of_In.
  rewrite Forall_forall in Hkws. destruct (Hkws _ Hkw) as [H|H]; [|by apply annotation_holds].
  unfold object_keywords in H. rewrite !elem_of_cons in H.
  destruct H as [->|[->|[->|[->|[]%not_elem_of_nil]]]]; kw_cbn.
  - done.
  - apply forallb_forall. intros x (s & E & H)%list_elem_of_In%Hd. cbn [obj jget]. by rewrite E.
  - unfold strs. rewrite Hk. apply forallb_forall.
    intros j (n & -> & (x & -> & Hx)%list_elem_of_fmap)%list_elem_of_In%list_elem_of_fmap.
    apply existsb_exists. exists x. split; [by apply list_elem_of_In|]. cbn. apply String.eqb_refl.
  - rewrite Hprops. apply forallb_forall. intros x (s & E & H)%list_elem_of_In%Hd.
    change (jget (default JNull (Some (obj props))) x.1) with (dget props x.1). by rewrite E.
Qed.

Lemma note_names nf l :
  Forall (λ x : string * string, x.2 ∈ ["-Infinity"; "Infinity"; "NaN"]) nf →
  Forall (λ x, x.2 ∈ ["-Infinity"; "Infinity"; "NaN"]) (foldl note' nf l).
Proof.
  revert nf. induction l as [|[ptr [p n]] l IH]; intros nf H; [done|]. apply IH.
  unfold note', note. cbn. destruct (nonfinite_element p n) as [s|] eqn:E; [|done].
  assert (s ∈ ["-Infinity"; "Infinity"; "NaN"]) as Hs.
  { unfold nonfinite_element in E. destruct n as [|b]; [done|].
    destruct (is_float p && _); [|done]. injection E as <-. unfold nonfinite_name.
    destruct (is_nan64 b); [set_solver|]. destruct (f_sign 52 11 b); set_solver. }
  clear -H Hs. induction H as [|[k v] nf Hv Hnf IH]; cbn; [by constructor; [|constructor]|].
  case_decide; constructor; done.
Qed.

Ltac object_keywords_solve :=
  repeat (apply Forall_cons_2;
          [first [right; reflexivity
                 | left; repeat first [apply list_elem_of_here | apply list_elem_of_further]]|]);
  apply Forall_nil_2.

Lemma decimal_valid k a z :
  valid (S k) (obj [("type", JStr "string"); ("pattern", JStr DECIMAL); ("description", a)])
    (JStr (decimal_Z z)) = true.
Proof. rewrite valid_obj. unfold holds. kw_cbn. by rewrite decimal_Z_is_decimal. Qed.

Lemma nonfinite_valid k a (nf : notes) :
  Forall (λ x, x.2 ∈ ["-Infinity"; "Infinity"; "NaN"]) nf →
  valid (S (S k)) (obj [("type", JStr "object"); ("description", a);
    ("additionalProperties", obj [("enum", strs ["-Infinity"; "Infinity"; "NaN"])])])
    (obj (prod_map id JStr <$> nf)) = true.
Proof.
  intros Hnf. rewrite Forall_forall in Hnf. rewrite valid_obj. unfold holds. kw_cbn.
  cbn [type_is obj String.eqb Ascii.eqb Bool.eqb andb]. rewrite andb_true_r.
  apply forallb_forall. intros x (y & -> & Hy%Hnf)%list_elem_of_In%list_elem_of_fmap.
  rewrite valid_obj. unfold holds. kw_cbn. cbn [default jget].
  rewrite !elem_of_cons in Hy. destruct y as [ptr s]. cbn in Hy.
  by destruct Hy as [->|[->|[->|[]%not_elem_of_nil]]].
Qed.

Lemma sil_member_valid k t i (nf : notes) :
  Forall (λ x, x.2 ∈ ["-Infinity"; "Infinity"; "NaN"]) nf →
  valid (S (S (S k))) SIL_MEMBER
    (obj [("publication_time_ns", JStr (decimal_Z t)); ("record_index", JStr (decimal_Z i));
          ("nonfinite", obj (prod_map id JStr <$> nf))]) = true.
Proof.
  intros Hnf. eapply object_valid.
  - object_keywords_solve.
  - done.
  - done.
  - apply (bool_decide_unpack _). done.
  - constructor; [apply decimal_valid|]. constructor; [apply decimal_valid|].
    constructor; [by apply nonfinite_valid|constructor].
Qed.

Lemma json_schema_valid name fs vs t i :
  NoDup (fd_name <$> fs) → Forall2 shaped fs vs →
  valid 5 (json_schema name fs) (envelope fs vs t i) = true.
Proof.
  intros Hn Hs. unfold json_schema. rewrite schema_fields by done. eapply object_valid.
  - object_keywords_solve.
  - done.
  - done.
  - apply (bool_decide_unpack _). done.
  - constructor; [|constructor; [|constructor]].
    + apply sil_member_valid, note_names. constructor.
    + cbn [snd]. eapply object_valid.
      * object_keywords_solve.
      * done.
      * clear Hn. induction Hs as [|f v fs vs _ _ IH]; [done|].
        cbn [zip_with]. rewrite !fmap_cons. cbn [fst]. by rewrite IH.
      * assert ((zip_with (λ f v, (fd_name f, value_doc f v)) fs vs).*1 = fd_name <$> fs) as ->; [|done].
        clear Hn. induction Hs as [|f v fs vs _ _ IH]; [done|]. cbn [zip_with].
        rewrite !fmap_cons. cbn [fst]. by rewrite IH.
      * clear Hn. induction Hs as [|f v fs vs Hv _ IH]; [constructor|]. cbn [zip_with].
        rewrite fmap_cons. constructor; [by apply field_valid|done].
Qed.

(** ** Pointers name one element *)

Lemma escape_inj s t : escape s = escape t → s = t.
Proof. intros H. rewrite <- (unescape_escape s), <- (unescape_escape t). by rewrite H. Qed.

(** The field an element's pointer is in. *)
Lemma pointed_owner f v ptr n :
  (ptr, n) ∈ pointed f v →
  ∃ x, ptr = "/fields/" +:+ x ∧ head (split_slash x) = Some (escape (fd_name f)).
Proof.
  destruct v as [m|bs|l]; cbn [pointed].
  - rewrite list_elem_of_singleton. intros [= -> ->]. eexists. split; [done|].
    by rewrite (proj1 (split_escape _)).
  - by intros []%not_elem_of_nil.
  - intros ([i m] & [= -> ->] & _)%list_elem_of_fmap.
    exists (escape (fd_name f) +:+ String "/" (decimal i)). split; [done|].
    by rewrite (proj2 (split_escape _)).
Qed.

Lemma append_inj_l s t u : s +:+ t = s +:+ u → t = u.
Proof.
  induction s as [|a s IH]; [done|]. intros H. apply IH.
  change (String a (s +:+ t) = String a (s +:+ u)) in H. by injection H.
Qed.

Lemma pointed_NoDup f v : NoDup (pointed f v).*1.
Proof.
  destruct v as [m|bs|l]; cbn [pointed]; [apply NoDup_singleton|constructor|].
  rewrite <- list_fmap_compose. unfold enumerate. generalize 0%nat as k.
  induction l as [|m l IH]; intros k; [constructor|]. cbn [enumerate_from].
  rewrite fmap_cons. constructor; [|apply IH].
  intros ([i x] & E & Hi)%list_elem_of_fmap. cbn in E. apply append_inj_l in E.
  apply elem_enumerate in Hi as (j & -> & _). injection E as E. apply (inj decimal) in E. lia.
Qed.

Lemma all_pointed_NoDup fs vs :
  NoDup (fd_name <$> fs) → NoDup (all_pointed fs vs).*1.
Proof.
  revert vs. induction fs as [|f fs IH]; intros [|v vs] Hn; try constructor.
  apply NoDup_cons in Hn as [Hf Hn]. unfold all_pointed. cbn [zip_with concat].
  rewrite fmap_app. apply NoDup_app. split_and!; [|..|by apply IH].
  - rewrite <- list_fmap_compose. apply (pointed_NoDup f v).
  - intros ptr ([q [p n]] & -> & (x & [= -> -> ->] & Hx)%list_elem_of_fmap)%list_elem_of_fmap.
    destruct x as [q n]. apply pointed_owner in Hx as (x & -> & Hx). cbn [fst].
    intros ([q' y] & E & Hy)%list_elem_of_fmap. cbn in E. subst q'.
    apply list_elem_of_In, in_concat in Hy as (seg & Hseg%list_elem_of_In & Hy%list_elem_of_In).
    apply elem_of_lookup_zip_with in Hseg as (i & g & w & -> & Hg & _).
    apply list_elem_of_fmap in Hy as ([q m] & [= <- ->] & Hm).
    apply pointed_owner in Hm as (x' & E & Hx'). apply append_inj_l in E as <-.
    rewrite Hx in Hx'. injection Hx' as E%escape_inj. apply Hf. rewrite E.
    apply list_elem_of_fmap. exists g. split; [done|]. by eapply list_elem_of_lookup_2.
Qed.

Lemma note_other nf l ptr : ptr ∉ l.*1 → dget (foldl note' nf l) ptr = dget nf ptr.
Proof.
  revert nf. induction l as [|[q [p n]] l IH]; intros nf Hp; [done|]. cbn [foldl].
  rewrite IH by set_solver. unfold note', note. cbn [fst snd].
  destruct (nonfinite_element p n); [|done]. apply dget_dset_ne. set_solver.
Qed.

(** The entry of a non-finite element. *)
Lemma note_entry nf l ptr p n s :
  NoDup l.*1 → (ptr, (p, n)) ∈ l → nonfinite_element p n = Some s →
  dget (foldl note' nf l) ptr = Some s.
Proof.
  revert nf. induction l as [|[q y] l IH]; intros nf Hn Hin Hs; [by apply not_elem_of_nil in Hin|].
  apply NoDup_cons in Hn as [Hq Hn]. cbn [foldl]. apply elem_of_cons in Hin as [[= <- <-]|Hin].
  - rewrite note_other by done. unfold note', note. cbn [fst snd]. rewrite Hs. apply dget_dset_eq.
  - by apply IH.
Qed.

(** ** Nothing is lost *)

(** The same number, or the same kind of non-finite float. *)
Definition same_num (n m : pynum) : Prop :=
  n = m ∨ ∃ b c, n = PFloat b ∧ m = PFloat c ∧ is_finite64 b = false ∧ is_finite64 c = false
                 ∧ nonfinite_name b = nonfinite_name c.

Definition same_value (v w : value) : Prop :=
  match v, w with
  | VNum n, VNum m => same_num n m
  | VBytes bs, VBytes cs => bs = cs
  | VList l, VList k => Forall2 same_num l k
  | _, _ => False
  end.

Lemma element_same p n m :
  elem_ok p n → elem_ok p m → element_json p n = element_json p m →
  (∀ s s', nonfinite_element p n = Some s → nonfinite_element p m = Some s' → s = s') →
  same_num n m.
Proof.
  unfold elem_ok, element_json, nonfinite_element.
  destruct (int_range p) as [[lo hi]|] eqn:Hr, n as [z|b], m as [z'|c]; try done.
  - intros _ _ E _. left. f_equal. destruct (wide_integer p); injection E; [|done].
    by intros ?%(inj decimal_Z).
  - intros _ _. assert (is_float p = true) as -> by by destruct p. cbn [andb].
    destruct (is_finite64 b) eqn:Hb, (is_finite64 c) eqn:Hc; cbn [negb]; try done.
    + intros [= ->] _. by left.
    + intros _ H. right. exists b, c. split_and!; auto.
Qed.

Lemma b64encode_inj bs cs : b64encode bs = b64encode cs → bs = cs.
Proof.
  intros H. pose proof (b64decode_encode bs) as E. rewrite H, b64decode_encode in E.
  by injection E.
Qed.

Lemma value_same f v w :
  shaped f v → shaped f w → value_doc f v = value_doc f w →
  (∀ ptr n m s s', (ptr, n) ∈ pointed f v → (ptr, m) ∈ pointed f w →
     nonfinite_element (fd_type f) n = Some s → nonfinite_element (fd_type f) m = Some s' → s = s') →
  same_value v w.
Proof.
  unfold shaped, field_plan. intros Hv Hw E H.
  destruct (fd_count f) as [k|]; [case_decide|]; destruct v as [n|bs|l], w as [m|cs|l']; try done;
    cbn [value_doc same_value] in *.
  - apply b64encode_inj. by injection E.
  - destruct Hv as [<- Hl], Hw as [Hlen Hl']. apply Forall2_same_length_lookup. split; [done|].
    intros i n m Hn Hm. rewrite Forall_lookup in Hl, Hl'. eapply element_same; [by eapply Hl|by eapply Hl'|..].
    + injection E as E. assert ((element_json (fd_type f) <$> l) !! i = (element_json (fd_type f) <$> l') !! i)
        as E' by by rewrite E.
      rewrite !list_lookup_fmap, Hn, Hm in E'. by injection E'.
    + intros s s'. apply (H (field_pointer f +:+ "/" +:+ decimal i)); cbn [pointed];
        apply list_elem_of_fmap; eexists (i, _); (split; [done|]);
        apply list_elem_of_lookup; exists i; unfold enumerate; rewrite enumerate_from_lookup;
        [by rewrite Hn|by rewrite Hm].
  - eapply element_same; [done..|]. intros s s'. apply (H (field_pointer f)); by apply list_elem_of_singleton.
Qed.

(** The declaration check gives what [MessageType] reads, with distinct names. *)
Lemma checked_fields_ok declaration fs :
  checked_fields declaration = Ok fs →
  fields_of_json declaration = Some fs ∧ NoDup (fd_name <$> fs).
Proof.
  unfold checked_fields, fields_of_json.
  destruct (jget declaration "fields") as [[| | | | |l|]|]; try done.
  change fs with ([] ++ fs) at 2 3. intros H.
  cut (∀ seen out, NoDup (fd_name <$> seen) → foldE checked_field seen l = Ok out →
    ∃ new, out = seen ++ new ∧ mapM field_of_json l = Some new ∧ NoDup (fd_name <$> out)).
  { intros Hc. destruct (Hc [] fs) as (new & -> & ? & ?); [constructor|done|]. done. }
  clear H. induction l as [|v l IH]; intros seen out Hn; cbn [foldE].
  { intros [= <-]. exists []. by rewrite app_nil_r. }
  intros (seen1 & H1 & H2)%bind_Ok. unfold checked_field in H1.
  destruct v as [| | | | | |d]; try done. destruct (jget (JObj d) "name") as [[| | | |name| |]|] eqn:En; try done.
  apply bind_Ok in H1 as (p & Hp & (count & Hcount & ([] & Hd%raise_if_Ok & [= <-])%bind_Ok)%bind_Ok).
  apply bool_decide_eq_false in Hd.
  assert (field_of_json (JObj d) = Some (mk_field name p count)) as Hf.
  { unfold field_of_json. rewrite En. destruct (jget (JObj d) "type") as [[| | | |ty| |]|]; try done.
    cbn [from_option id known_type] in Hp.
    destruct (prim_of_name ty) as [p0|]; [|done]. injection Hp as ->. cbn [mbind option_bind].
    destruct (jget (JObj d) "count") as [[| |n| | | |]|]; cbn [checked_count] in Hcount; try done.
    - destruct (Z.ltb_spec n 1); [done|]. injection Hcount as <-.
      by rewrite (proj2 (Z.ltb_ge _ _)) by lia.
    - by injection Hcount as <-. }
  apply IH in H2 as (new & -> & Hm & Hnd); cycle 1.
  { rewrite fmap_app. apply NoDup_app. split_and!; [done|set_solver|apply NoDup_singleton]. }
  eexists. rewrite <- app_assoc. split_and!; [done| |by rewrite <- app_assoc in Hnd].
  cbn. rewrite Hf. cbn. by rewrite Hm.
Qed.

Lemma pointed_all fs vs k f x ptr n :
  fs !! k = Some f → vs !! k = Some x → (ptr, n) ∈ pointed f x →
  (ptr, (fd_type f, n)) ∈ all_pointed fs vs.
Proof.
  intros Hf Hx Hp. apply list_elem_of_In, in_concat. eexists. split.
  - apply list_elem_of_In, elem_of_lookup_zip_with. by exists k, f, x.
  - apply list_elem_of_In, list_elem_of_fmap. by exists (ptr, n).
Qed.

(** Equal envelopes hold the same values. *)
Lemma envelope_same fs v1 v2 t1 t2 i1 i2 :
  NoDup (fd_name <$> fs) → Forall2 shaped fs v1 → Forall2 shaped fs v2 →
  envelope fs v1 t1 i1 = envelope fs v2 t2 i2 →
  t1 = t2 ∧ i1 = i2 ∧ Forall2 same_value v1 v2.
Proof.
  intros Hn S1 S2 E. injection E as Et Ei Enf Ef.
  apply (inj decimal_Z) in Et, Ei. split_and!; [done..|].
  assert (Inj (=) (=) (prod_map id JStr : string * string → _)) as Hinj.
  { intros [] []; cbn; congruence. }
  apply (list_fmap_eq_inj _ Hinj) in Enf.
  apply Forall2_same_length_lookup. split.
  { by rewrite <- (Forall2_length _ _ _ S1), <- (Forall2_length _ _ _ S2). }
  intros k v w Hv Hw. destruct (Forall2_lookup_r _ _ _ _ _ S1 Hv) as (f & Hf & Sv).
  pose proof (Forall2_lookup_lr _ _ _ _ _ _ S2 Hf Hw) as Sw.
  apply (value_same f); [done..| |].
  - assert (zip_with (λ f v, (fd_name f, value_doc f v)) fs v1 !! k
            = zip_with (λ f v, (fd_name f, value_doc f v)) fs v2 !! k) as E by by rewrite Ef.
    rewrite !lookup_zip_with, Hf, Hv, Hw in E. by injection E.
  - intros ptr n m s s' Hn1 Hm1 Hs Hs'.
    pose proof (note_entry [] _ _ _ _ _ (all_pointed_NoDup fs v1 Hn)
      (pointed_all _ _ _ _ _ _ _ Hf Hv Hn1) Hs) as E1.
    pose proof (note_entry [] _ _ _ _ _ (all_pointed_NoDup fs v2 Hn)
      (pointed_all _ _ _ _ _ _ _ Hf Hw Hm1) Hs') as E2.
    rewrite Enf, E2 in E1. by injection E1.
Qed.

Lemma payload_size fs d t i doc : payload fs d t i = Ok doc → length d = mt_size fs.
Proof.
  unfold payload. destruct (decide (length d ≠ mt_size fs)) as [|Hd]; [done|].
  intros _. by apply dec_stable.
Qed.

(** ** Properties *)

(** The envelope of every payload of a checked Schema is valid under the
    JSON Schema the codec generates for it: exactly the declared fields, ints
    in their range or as decimal strings, floats as finite numbers or null,
    arrays of the declared length. *)
Theorem payload_valid name declaration fs data t i :
  checked_fields declaration = Ok fs → length data = mt_size fs →
  ∃ doc, payload fs data t i = Ok doc ∧ valid 5 (json_schema name fs) doc = true.
Proof.
  intros [_ Hn]%checked_fields_ok Hl. eexists. split; [by apply payload_envelope|].
  apply json_schema_valid; [done|]. apply field_values_shaped. lia.
Qed.

(** C35. Nothing is lost: two Messages of a checked Schema with the same
    envelope have the same publication time and record index, and every field
    has the same bytes, the same integers and the same finite floats; a
    non-finite float keeps whether it is NaN, Infinity or -Infinity. *)
Theorem payload_lossless declaration fs d1 d2 t1 t2 i1 i2 doc :
  checked_fields declaration = Ok fs →
  payload fs d1 t1 i1 = Ok doc → payload fs d2 t2 i2 = Ok doc →
  t1 = t2 ∧ i1 = i2 ∧ Forall2 same_value (field_values fs d1) (field_values fs d2).
Proof.
  intros [_ Hn]%checked_fields_ok H1 H2.
  pose proof (payload_size _ _ _ _ _ H1) as L1. pose proof (payload_size _ _ _ _ _ H2) as L2.
  rewrite payload_envelope in H1, H2 by done. rewrite <- H2 in H1.
  eapply envelope_same; [done|apply field_values_shaped; lia..|]. congruence.
Qed.

(** ** Witnesses *)

Definition demo_declaration : json :=
  obj [("fields", JArr [obj [("name", JStr "a/b"); ("type", JStr "i64")];
                        obj [("name", JStr "v"); ("type", JStr "f32"); ("count", JInt 2)];
                        obj [("name", JStr "raw"); ("type", JStr "u8"); ("count", JInt 2)]])].
Definition demo_checked : list field :=
  [mk_field "a/b" I64 None; mk_field "v" F32 (Some 2%nat); mk_field "raw" U8 (Some 2%nat)].
Definition demo_data : bytes :=
  le_bytes 8 (-5) ++ le_bytes 4 1065353216 ++ le_bytes 4 2143289344 ++ [x01; x02].

Definition demo_doc : json :=
  obj [("sil", obj [("publication_time_ns", JStr "7"); ("record_index", JStr "3");
                    ("nonfinite", obj [("/fields/v/1", JStr "NaN")])]);
       ("fields", obj [("a/b", JStr "-5"); ("v", JArr [JFloat 4607182418800017408; JNull]);
                       ("raw", JStr "AQI=")])].

Example demo_payload : payload demo_checked demo_data 7 3 = Ok demo_doc.
Proof. vm_compute. reflexivity. Qed.

Lemma payload_valid_witness :
  ∃ doc, payload demo_checked demo_data 7 3 = Ok doc
         ∧ valid 5 (json_schema "demo" demo_checked) doc = true.
Proof.
  apply (payload_valid "demo" demo_declaration demo_checked demo_data 7 3);
    vm_compute; reflexivity.
Defined.

(** Two NaNs with different payload bits have the same envelope. *)
Lemma payload_lossless_witness :
  7 = 7 ∧ 3 = 3 ∧ Forall2 same_value (field_values demo_checked demo_data)
    (field_values demo_checked (le_bytes 8 (-5) ++ le_bytes 4 1065353216
       ++ le_bytes 4 2143289345 ++ [x01; x02])).
Proof.
  apply (payload_lossless demo_declaration demo_checked demo_data
    (le_bytes 8 (-5) ++ le_bytes 4 1065353216 ++ le_bytes 4 2143289345 ++ [x01; x02])
    7 7 3 3 demo_doc); vm_compute; reflexivity.
Defined.

(** A field type that is a list or an object is not reported as an
    unsupported Schema: the membership test raises TypeError. *)
Example unhashable_type :
  checked_fields (obj [("fields", JArr [obj [("name", JStr "a"); ("type", JArr [])]])])
  = Err UnhashableType.
Proof. reflexivity. Qed.
