(* ===== verification/VizSource.v ===== *)
(** * Sources of the visualization tools

    Models [python/src/sil/visualization/source.py]: the identity and Channel
    catalog of a finalized Recording ([open_source]), its Messages with their
    whole-source ordinals ([source_messages]), the Channel selection
    ([select_channels]) and what is known of the Run ([completeness]). The mcap
    package's summary, SHA-256, [os.stat] and [json.loads] are parameters. *)

From Stdlib Require Import ZArith Lia.
From S2P Require Import Prelude PyFloat Json Recording.

Inductive source_error :=
| NotMcapSuffix
| CannotRead
| Unreadable
| NotAnMcapFile
| Truncated
| WithoutSummary
| ChannelTwice (topic : string)
| WithoutSchema (topic : string)
| UnsupportedEncoding (topic role encoding : string)
| SchemaIsNotJson (schema : string)
| SourceChanged
| SelectionEmpty
| SelectedTwice (names : list string)
| SelectedUnknown (name : string).

Record source_channel := mk_source_channel {
  sc_name : string;
  sc_schema_name : string;
  sc_schema : json;
  sc_schema_sha256 : string;
}.

Record source_message := mk_source_message {
  sm_index : Z;
  sm_channel : string;
  sm_time : Z;
  sm_data : bytes;
}.

#[export] Instance source_message_eq_dec : EqDecision source_message.
Proof. solve_decision. Defined.

(** [st_dev], [st_ino], [st_size] and [st_mtime_ns]. *)
Abbreviation identity := (Z * Z * Z * Z)%type.

Record source := mk_source {
  so_sha256 : string;
  so_size_bytes : Z;
  so_manifest_hash : option string;
  so_channels : list source_channel;
  so_identity : identity;
}.

(** ** The catalog *)

(** What the code reads of the mcap package's summary records. *)
Record viz_channel := mk_viz_channel {
  vc_topic : string;
  vc_schema_id : Z;
  vc_encoding : string;
}.
Record viz_schema := mk_viz_schema {
  vs_name : string;
  vs_encoding : string;
  vs_data : bytes;
}.
Record viz_summary := mk_viz_summary {
  vz_channels : list (Z * viz_channel);
  vz_schemas : list (Z * viz_schema);
}.

Definition SOURCE_ENCODING : string := "sil_pod".

Section open.
Context (loads : bytes → option json) (sha256 : bytes → string).

(** One pass of the loop of [_channels]. *)
Definition add_channel (schemas : list (Z * viz_schema)) (channels : list source_channel)
    (channel : Z * viz_channel) : result source_error (list source_channel) :=
  let topic := vc_topic channel.2 in
  raise: ChannelTwice topic if: bool_decide (topic ∈ (sc_name <$> channels));;
  match dget schemas (vc_schema_id channel.2) with
  | None => Err (WithoutSchema topic)
  | Some schema =>
      raise: UnsupportedEncoding topic "message" (vc_encoding channel.2)
        if: negb (bool_decide (vc_encoding channel.2 = SOURCE_ENCODING));;
      raise: UnsupportedEncoding topic "schema" (vs_encoding schema)
        if: negb (bool_decide (vs_encoding schema = SOURCE_ENCODING));;
      match loads (vs_data schema) with
      | None => Err (SchemaIsNotJson (vs_name schema))
      | Some declaration =>
          Ok (channels ++ [mk_source_channel topic (vs_name schema) declaration
                             (sha256 (vs_data schema))])
      end
  end.

Definition read_catalog (sm : option viz_summary) : result source_error (list source_channel) :=
  match sm with
  | None => Err WithoutSummary
  | Some sm => foldE (add_channel (vz_schemas sm)) [] (vz_channels sm)
  end.

(** [_check_finalized]. *)
Definition check_finalized (f : bytes) (size : Z) : result source_error () :=
  let head := read_at f 0 (zlen MCAP_MAGIC) in
  let tail := read_at f (Z.max 0 (size - zlen MCAP_MAGIC)) (zlen MCAP_MAGIC) in
  raise: NotAnMcapFile if: negb (bool_decide (head = MCAP_MAGIC));;
  raise: Truncated if: (size <? 2 * zlen MCAP_MAGIC) || negb (bool_decide (tail = MCAP_MAGIC));;
  Ok ().

(** [open_source]. [file] is the identity and content of a path that exists;
    [summary] is [None] when the mcap package raises, and [metadata] are the
    records [read_manifest_hash] reads. *)
Definition open_source (suffix : string) (file : option (identity * bytes))
    (summary : bytes → option (option viz_summary))
    (metadata : list (string * list (string * string))) : result source_error source :=
  raise: NotMcapSuffix if: negb (bool_decide (suffix = ".mcap"%string));;
  match file with
  | None => Err CannotRead
  | Some (ident, f) =>
      let size := zlen f in
      _ ← check_finalized f size;
      match summary f with
      | None => Err Unreadable
      | Some sm =>
          channels ← read_catalog sm;
          Ok (mk_source (sha256 f) size (read_manifest_hash metadata) channels ident)
      end
  end.
End open.

(** [check_unchanged], given the identity the path has now. *)
Definition check_unchanged (s : source) (now : identity) : result source_error () :=
  raise_if (negb (bool_decide (now = so_identity s))) SourceChanged.

(** [Source.messages]: [topics] are the topics by channel id. What was yielded
    before a Message that cannot be read stays yielded. *)
Fixpoint name_messages (topics : list (Z * string)) (found : list (location * option bytes))
    : list source_message * option source_error :=
  match found with
  | [] => ([], None)
  | (loc, data) :: found =>
      match dget topics (loc_channel_id loc) with
      | None => ([], Some Unreadable)
      | Some topic =>
          let '(ms, e) := name_messages topics found in
          (mk_source_message (loc_record_index loc) topic (loc_log_time loc) (default [] data) :: ms, e)
      end
  end.

Definition UNBOUNDED : Z := 2 ^ 64.

Definition source_messages (zstd lz4 : bytes → Z → option bytes) (f : bytes)
    (topics : list (Z * string)) : list source_message * option source_error :=
  let '(found, err) := stored_messages zstd lz4 f UNBOUNDED in
  let '(ms, e) := name_messages topics found in
  (ms, match e, err with Some e, _ => Some e | None, Some _ => Some Unreadable | None, None => None end).

(** ** Selections *)

Definition count_of (names : list string) (name : string) : nat :=
  length (filter (name =.) names).

(** [select_channels]; the refusal of a repeated name carries every repeated
    one, of which the message names the smallest. *)
Definition select_channels (channels : list source_channel) (names : option (list string))
    : result source_error (list source_channel) :=
  match names with
  | None => Ok channels
  | Some names =>
      raise: SelectionEmpty if: bool_decide (names = []);;
      let duplicates := filter (λ n, (1 < count_of names n)%nat) names in
      raise: SelectedTwice duplicates if: negb (bool_decide (duplicates = []));;
      match filter (λ n, n ∉ (sc_name <$> channels)) names with
      | unknown :: _ => Err (SelectedUnknown unknown)
      | [] => Ok (filter (λ c, sc_name c ∈ names) channels)
      end
  end.

(** ** What is known of the Run *)

Definition unknown_run (outcome : string) (exit_code evidence : json) : json :=
  JObj [("source_finalized"%string, JBool true); ("run_outcome"%string, JStr outcome);
        ("run_exit_code"%string, exit_code); ("evidence"%string, evidence);
        ("note"%string, JStr "Message coverage does not prove Run completion")].

(** The exit code of a provenance document bound to the source; [None] is an
    exception the code catches, or a document that does not bind. *)
Definition bound_exit_code (sha : string) (document : json) : option Z :=
  digest ← jget document "recording";
  version ← jget document "schema_version";
  if negb (py_eq_int version 1 || py_eq_int version 2) then None
  else if negb (is_object digest) then None
  else if negb (py_eq (default (JStr "calculated") (jget digest "digest_state")) (JStr "calculated"))
  then None
  else
    actual ← jget digest "sha256";
    exit_code ← jget document "run_exit_code";
    if negb (py_eq actual (JStr sha)) then None
    else match exit_code with JInt z => Some z | _ => None end.

(** [completeness]; [sidecar] is the document read, [None] when it cannot be. *)
Definition completeness (sha sidecar_name : string) (sidecar : option json) : json :=
  match sidecar ≫= bound_exit_code sha with
  | Some z => unknown_run (if z =? 0 then "completed" else "failed") (JInt z) (JStr sidecar_name)
  | None => unknown_run "unknown" JNull JNull
  end.

(** ** Facts *)

(** A catalog has every Channel of the summary once, in its order. *)
Lemma read_catalog_names loads sha sm channels :
  read_catalog loads sha (Some sm) = Ok channels →
  sc_name <$> channels = (λ c, vc_topic c.2) <$> vz_channels sm ∧ NoDup (sc_name <$> channels).
Proof.
  unfold read_catalog. intros H.
  cut (∀ l acc out, foldE (add_channel loads sha (vz_schemas sm)) acc l = Ok out →
    NoDup (sc_name <$> acc) →
    sc_name <$> out = (sc_name <$> acc) ++ ((λ c, vc_topic c.2) <$> l) ∧ NoDup (sc_name <$> out)).
  { intros Hc. apply (Hc _ [] _ H). constructor. }
  clear H. induction l as [|c l IH]; intros acc out; cbn [foldE].
  { intros [= <-] Hn. by rewrite app_nil_r. }
  intros (acc1 & H1 & H2)%bind_Ok Hn. unfold add_channel in H1.
  apply bind_Ok in H1 as ([] & Hd%raise_if_Ok & H1). apply bool_decide_eq_false in Hd.
  destruct (dget _ _) as [schema|]; [|done]. inv_ok.
  destruct (loads (vs_data schema)); [|done]. injection H1 as <-.
  apply IH in H2 as [E ?].
  - split; [|done]. by rewrite E, fmap_app, <- app_assoc.
  - rewrite fmap_app. apply NoDup_app. split_and!; [done|set_solver|apply NoDup_singleton].
Qed.

(** An accepted selection is the named Channels, in declaration order. *)
Lemma select_channels_ok channels names sel :
  select_channels channels (Some names) = Ok sel →
  sel = filter (λ c, sc_name c ∈ names) channels ∧ names ≠ []
  ∧ names ⊆ sc_name <$> channels.
Proof.
  unfold select_channels. intros H. inv_ok. apply bool_decide_eq_false in Hok.
  destruct (filter (λ n, n ∉ (sc_name <$> channels)) names) as [|u us] eqn:E; [|done].
  injection H as <-. split_and!; [done|done|]. intros n Hn.
  destruct (decide (n ∈ sc_name <$> channels)) as [|Hni]; [done|].
  assert (n ∈ filter (λ n, n ∉ (sc_name <$> channels)) names) as Hf by by apply list_elem_of_filter.
  rewrite E in Hf. by apply not_elem_of_nil in Hf.
Qed.
