(* ===== verification/Navigation.v ===== *)
(** * Indexed navigation of a Recording

    Models [python/src/sil/visualization/navigation.py]: the index of Message
    locations ([insert_locations], [write_catalog], [reuse], [prepare]) and the
    [Navigator] over it ([describe], [messages], [continuation_after],
    [snapshot]) with its chunk cache. A SQL table is a list of rows and a query
    is the filter, sort and limit it states; the text of a continuation
    ([json.dumps] and [json.loads] through URL-safe base64) is a pair of
    parameters. A read of the file's identity is an argument, so the source may
    change at each check. *)

From Stdlib Require Import ZArith Lia.
From S2P Require Import Prelude PyFloat Json SchemaTypes Schema Pointer Recording.
From S2P Require Import Base64 Interchange VizSource.

Definition TIME_LIMIT : Z := 2 ^ 64.
Definition TIME_SHIFT : Z := 2 ^ 63.
Definition INDEX_VERSION : Z := 1.
Definition ORDER : string := "publication_time_ns,record_index".

(** What [LimitExceeded] names of a refused Message. *)
Record refusal := mk_refusal {
  rf_index : Z;
  rf_channel : string;
  rf_time : Z;
  rf_size : Z;
}.

(** [NOverflow] is the OverflowError of an int that SQLite cannot hold, and
    [NTooManyDigits] the ValueError of [int] on a text of more than 4300 digits
    and [NType] the TypeError of an unhashable type of a field; the code catches
    none of them. *)
Inductive nav_error :=
| NSource (e : source_error)
| NInvalid (name : string) (value : json)
| NStartAfterEnd (start_ns end_ns : Z)
| NContinuation
| NContinuationOther (key : string)
| NOutsideInterval
| NLimit (r : option refusal)
| NCorrupt
| NCancelled
| NOverflow
| NTooManyDigits
| NType.

Definition lift_source {A} (r : result source_error A) : result nav_error A :=
  match r with Ok a => Ok a | Err e => Err (NSource e) end.

(** ** Limits *)

Definition require_positive (name : string) (v : json) : result nav_error Z :=
  match v with
  | JInt z => if z <=? 0 then Err (NInvalid name v) else Ok z
  | _ => Err (NInvalid name v)
  end.

(** [_require_time]: an int of [0..maximum]. *)
Definition require_time (name : string) (v maximum : Z) : result nav_error () :=
  raise_if (negb (in_range 0 maximum v)) (NInvalid name (JInt v)).

Record limits := mk_limits {
  lm_max_decoded_bytes : Z;
  lm_chunk_cache_bytes : Z;
  lm_max_message_bytes : Z;
  lm_max_index_bytes : option Z;
}.

(** [Limits.__post_init__]. *)
Definition make_limits (decoded cache message index : json) : result nav_error limits :=
  d ← require_positive "max_decoded_bytes" decoded;
  c ← require_positive "chunk_cache_bytes" cache;
  m ← require_positive "max_message_bytes" message;
  i ← match index with
      | JNull => Ok None
      | _ => i ← require_positive "max_index_bytes" index; Ok (Some i)
      end;
  raise: NInvalid "chunk_cache_bytes" cache if: c <? d;;
  Ok (mk_limits d c m i).

Record page_limits := mk_page_limits { pl_max_rows : Z; pl_max_bytes : Z }.

Definition make_page_limits (rows bytes_ : json) : result nav_error page_limits :=
  r ← require_positive "max_rows" rows;
  b ← require_positive "max_bytes" bytes_;
  Ok (mk_page_limits r b).

(** [PageLimits()]. *)
Definition default_page : page_limits := mk_page_limits 1000 (8 * 2 ^ 20).

(** ** The index *)

(** A row of the table [messages]; [rw_time] is the stored, signed time. *)
Record row := mk_row {
  rw_index : Z;
  rw_channel : Z;
  rw_time : Z;
  rw_chunk : Z;
  rw_offset : Z;
  rw_size : Z;
}.

#[export] Instance row_eq_dec : EqDecision row.
Proof. solve_decision. Defined.

Record channel_row := mk_channel_row {
  cr_id : Z;
  cr_name : string;
  cr_messages : Z;
  cr_first : option Z;
  cr_last : option Z;
}.

Record index := mk_index {
  ix_rows : list row;
  ix_channels : list channel_row;
  ix_meta : list (string * string);
}.

Definition row_of (l : location) : row :=
  mk_row (loc_record_index l) (loc_channel_id l) (loc_log_time l - TIME_SHIFT)
    (loc_chunk_offset l) (loc_offset l) (loc_size l).

(** [_channel_ids]: a topic repeated in the summary keeps the last id. *)
Definition channel_ids (sm : viz_summary) : list (string * Z) :=
  foldl (λ d c, dset d (vc_topic c.2) c.1) [] (vz_channels sm).

(** [_payload_sizes]; an unsupported Schema is a SourceError. *)
Definition payload_sizes (channels : list source_channel) (ids : list (string * Z))
    : result nav_error (list (Z * Z)) :=
  foldE (λ sizes c,
    match dget ids (sc_name c), checked_fields (sc_schema c) with
    | Some i, Ok fs => Ok (dset sizes i (Z.of_nat (mt_size fs)))
    | Some _, Err UnhashableType => Err NType
    | _, _ => Err (NSource Unreadable)
    end) [] channels.

(** [_check_payload_size]. *)
Definition check_payload_size (sizes : list (Z * Z)) (l : location) : result nav_error () :=
  match dget sizes (loc_channel_id l) with
  | None => Err (NSource Unreadable)
  | Some size => raise_if (negb (loc_size l =? size)) (NSource Unreadable)
  end.

(** One batch of the loop of [_insert_locations]; [cancelled] is the event's
    state when the batch arrives. *)
Definition insert_batch (sizes : list (Z * Z)) (rows : list row)
    (batch : bool * list location) : result nav_error (list row) :=
  raise: NCancelled if: batch.1;;
  _ ← foldE (λ _ l, check_payload_size sizes l) () batch.2;
  Ok (rows ++ (row_of <$> batch.2)).

(** What [_build] makes of an exception of the scan. *)
Definition scan_error (e : read_error) : nav_error :=
  match e with OversizeMessage _ _ _ => NLimit None | _ => NSource Unreadable end.

(** [_insert_locations]: [stop] is the exception that ends the scan, if any. *)
Definition insert_locations (channels : list source_channel) (ids : list (string * Z))
    (batches : list (bool * list location)) (stop : option read_error)
    : result nav_error (list row) :=
  sizes ← payload_sizes channels ids;
  rows ← foldE (insert_batch sizes) [] batches;
  match stop with Some e => Err (scan_error e) | None => Ok rows end.

(** [SELECT channel, count, min(time), max(time) ... GROUP BY channel]. *)
Definition rows_of (rows : list row) (id : Z) : list row := filter (λ r, rw_channel r = id) rows.
Definition min_time (rows : list row) : option Z :=
  foldr (λ r m, Some (match m with Some t => Z.min (rw_time r) t | None => rw_time r end)) None rows.
Definition max_time (rows : list row) : option Z :=
  foldr (λ r m, Some (match m with Some t => Z.max (rw_time r) t | None => rw_time r end)) None rows.

(** [_write_catalog]. *)
Definition write_catalog (channels : list source_channel) (ids : list (string * Z))
    (sha : string) (rows : list row) : option index :=
  crs ← mapM (λ c, i ← dget ids (sc_name c);
                   let mine := rows_of rows i in
                   Some (mk_channel_row i (sc_name c) (zlen mine) (min_time mine) (max_time mine)))
          channels;
  Some (mk_index rows crs
    [("index_version"%string, decimal_Z INDEX_VERSION); ("source_sha256"%string, sha);
     ("message_count"%string, decimal_Z (zlen rows)); ("complete"%string, "1"%string)]).

Definition last_index (rows : list row) : option Z :=
  foldr (λ r m, Some (match m with Some i => Z.max (rw_index r) i | None => rw_index r end)) None rows.

(** [_reuse]: whether a published index verifies for the source. *)
Definition index_valid (ix : index) (s : source) : bool :=
  bool_decide (dget (ix_meta ix) "index_version"%string = Some (decimal_Z INDEX_VERSION))
  && bool_decide (dget (ix_meta ix) "source_sha256"%string = Some (so_sha256 s))
  && bool_decide (dget (ix_meta ix) "complete"%string = Some "1"%string)
  && bool_decide (dget (ix_meta ix) "message_count"%string
       = Some (decimal_Z (match last_index (ix_rows ix) with Some l => l + 1 | None => 0 end)))
  && bool_decide ((list_to_set (cr_name <$> ix_channels ix) : gset string)
                  = list_to_set (sc_name <$> so_channels s)).

(** [_build]: the index, and the published file of the cache directory only
    when everything succeeded and the source did not change meanwhile. *)
Definition build (s : source) (ids : list (string * Z)) (batches : list (bool * list location))
    (stop : option read_error) (cancelled_at_end : bool) (now : identity) : result nav_error index :=
  rows ← insert_locations (so_channels s) ids batches stop;
  match write_catalog (so_channels s) ids (so_sha256 s) rows with
  | None => Err (NSource Unreadable)
  | Some ix =>
      raise: NCancelled if: cancelled_at_end;;
      _ ← lift_source (check_unchanged s now);
      Ok ix
  end.

(** The index that [_build] wrote is verified like a reused one, and removed
    again when it does not verify. *)
Definition build_verified (s : source) (ids : list (string * Z))
    (batches : list (bool * list location)) (stop : option read_error) (cancelled_at_end : bool)
    (built now : identity) : option index * result nav_error (index * bool) :=
  match build s ids batches stop cancelled_at_end built with
  | Err e => (None, Err e)
  | Ok ix =>
      if index_valid ix s
      then (Some ix, _ ← lift_source (check_unchanged s now); Ok (ix, false))
      else (None, Err NCorrupt)
  end.

(** [prepare_navigation], over the published index of the cache directory, if
    any: what is published after, and the index used with whether it was
    reused. [built] and [now] are the identities the two checks see. *)
Definition prepare (s : source) (ids : list (string * Z)) (published : option index)
    (batches : list (bool * list location)) (stop : option read_error) (cancelled_at_end : bool)
    (built now : identity) : option index * result nav_error (index * bool) :=
  match published with
  | Some ix =>
      if index_valid ix s
      then (Some ix, _ ← lift_source (check_unchanged s now); Ok (ix, true))
      else build_verified s ids batches stop cancelled_at_end built now
  | None => build_verified s ids batches stop cancelled_at_end built now
  end.

(** ** Queries *)

Definition row_key (r : row) : Z * Z := (rw_time r, rw_index r).

Definition key_lt (a b : Z * Z) : Prop := a.1 < b.1 ∨ (a.1 = b.1 ∧ a.2 < b.2).
Definition key_le (a b : Z * Z) : Prop := a.1 < b.1 ∨ (a.1 = b.1 ∧ a.2 ≤ b.2).
#[export] Instance key_lt_dec a b : Decision (key_lt a b).
Proof. unfold key_lt. apply _. Defined.
#[export] Instance key_le_dec a b : Decision (key_le a b).
Proof. unfold key_le. apply _. Defined.

Definition row_le (a b : row) : Prop := key_le (row_key a) (row_key b).
#[export] Instance row_le_dec a b : Decision (row_le a b).
Proof. unfold row_le. apply _. Defined.

(** [ORDER BY time, record_index LIMIT count]. *)
Definition order_limit (count : nat) (rows : list row) : list row :=
  take count (merge_sort row_le rows).

(** [(time, record_index) > (?, ?) AND time <= ?]. *)
Definition in_range_rows (after : Z * Z) (last : Z) (rows : list row) : list row :=
  filter (λ r, key_lt after (row_key r) ∧ rw_time r ≤ last) rows.

(** The least head of some sorted lists, and what is left. *)
Fixpoint pop_least (ls : list (list row)) : option (row * list (list row)) :=
  match ls with
  | [] => None
  | [] :: ls => match pop_least ls with
                | Some (x, ls') => Some (x, [] :: ls')
                | None => None
                end
  | (y :: l) :: ls =>
      match pop_least ls with
      | Some (x, ls') => if decide (row_le y x) then Some (y, l :: ls)
                         else Some (x, (y :: l) :: ls')
      | None => Some (y, l :: ls)
      end
  end.

(** [heapq.merge] of the ranges by key; the fuel is the number of rows. *)
Fixpoint heap_merge (fuel : nat) (ls : list (list row)) : list row :=
  match fuel with
  | O => []
  | S fuel => match pop_least ls with
              | Some (x, ls') => x :: heap_merge fuel ls'
              | None => []
              end
  end.

(** [_rows_after]; every source Channel has an id. *)
Definition rows_after (ix : index) (ids : list (string * Z)) (all selected : list source_channel)
    (after : Z * Z) (last_ns : Z) (count : nat) : list row :=
  let bound := (after.1 - TIME_SHIFT, after.2) in
  let rows := in_range_rows bound (last_ns - TIME_SHIFT) (ix_rows ix) in
  if decide (length selected = length all) then order_limit count rows
  else
    let ranges := (λ c, order_limit count
                          (rows_of rows (default (-1) (dget ids (sc_name c))))) <$> selected in
    take count (heap_merge (length (concat ranges)) ranges).

(** ** The Navigator *)

(** [ChannelSummary], without the Channel's schema, which is the source's. *)
Record channel_summary := mk_channel_summary {
  cs_name : string;
  cs_message_count : Z;
  cs_start_ns : option Z;
  cs_end_ns : option Z;
}.

Record description := mk_description {
  ds_channels : list channel_summary;
  ds_message_count : Z;
  ds_start_ns : option Z;
  ds_end_ns : option Z;
}.

Record page := mk_page {
  pg_messages : list source_message;
  pg_continuation : option string;
  pg_complete : bool;
}.

(** The chunk cache: decoded chunks, least recently used first, and their
    total size. *)
Record cache := mk_cache { ca_chunks : list (Z * bytes); ca_bytes : Z }.

Definition pop_key {V} (d : list (Z * V)) (k : Z) : list (Z * V) :=
  filter (λ kv, kv.1 ≠ k) d.

(** [while cached > limit: popitem(last=False)]. *)
Fixpoint evict (limit : Z) (chunks : list (Z * bytes)) (cached : Z) : cache :=
  match chunks with
  | [] => mk_cache [] cached
  | (o, b) :: rest =>
      if limit <? cached then evict limit rest (cached - zlen b)
      else mk_cache chunks cached
  end.

Definition opt_min (l : list Z) : option Z :=
  foldr (λ x m, Some (match m with Some y => Z.min x y | None => x end)) None l.
Definition opt_max (l : list Z) : option Z :=
  foldr (λ x m, Some (match m with Some y => Z.max x y | None => x end)) None l.

Section navigator.
Context (zstd lz4 : bytes → Z → option bytes).
(** The text of a continuation and back: [None] is a malformed text. *)
Context (seal : json → string) (unseal : string → option json).
Context (s : source) (f : bytes) (ids : list (string * Z)) (ix : index) (lim : limits).

(** [_chunk]: the cached records, or those read from the file. A read that
    raises leaves the cache as it is. *)
Definition chunk (c : cache) (offset : Z) : cache * result read_error bytes :=
  match dget (ca_chunks c) offset with
  | Some records =>
      (evict (lm_chunk_cache_bytes lim) (pop_key (ca_chunks c) offset ++ [(offset, records)])
         (ca_bytes c), Ok records)
  | None =>
      match read_chunk zstd lz4 f offset (lm_max_decoded_bytes lim) with
      | Err e => (c, Err e)
      | Ok records =>
          (evict (lm_chunk_cache_bytes lim) (ca_chunks c ++ [(offset, records)])
             (ca_bytes c + zlen records), Ok records)
      end
  end.

Definition names : list (Z * string) := (λ x, (x.2, x.1)) <$> ids.

Definition refused_row (r : row) : option refusal :=
  (λ name, mk_refusal (rw_index r) name (rw_time r + TIME_SHIFT) (rw_size r))
    <$> dget names (rw_channel r).

(** What [_message] makes of the record it read. *)
Definition check_found (r : row) (found : result read_error (Z * Z * bytes))
    : result nav_error source_message :=
  match found with
  | Err (OversizeMessage _ _ _) => Err (NLimit None)
  | Err _ => Err NCorrupt
  | Ok (channel, time, data) =>
      if bool_decide (channel = rw_channel r) && bool_decide (time = rw_time r + TIME_SHIFT)
         && bool_decide (zlen data = rw_size r)
      then match dget names (rw_channel r) with
           | Some name => Ok (mk_source_message (rw_index r) name time data)
           | None => Err NCorrupt
           end
      else Err NCorrupt
  end.

(** [_message]. *)
Definition message_of (c : cache) (r : row) : cache * result nav_error source_message :=
  if lm_max_message_bytes lim <? rw_size r then (c, Err (NLimit (refused_row r)))
  else if rw_chunk r <? 0 then
    (c, check_found r (read_message f (rw_offset r) (lm_max_message_bytes lim)))
  else
    let '(c', records) := chunk c (rw_chunk r) in
    (c', check_found r (b ← records; message_in_chunk b (rw_offset r))).

Fixpoint messages_of (c : cache) (rows : list row)
    : cache * result nav_error (list source_message) :=
  match rows with
  | [] => (c, Ok [])
  | r :: rows =>
      let '(c1, m) := message_of c r in
      match m with
      | Err e => (c1, Err e)
      | Ok m => let '(c2, ms) := messages_of c1 rows in (c2, ms ≫= λ ms, Ok (m :: ms))
      end
  end.

(** The catalog that [Navigator.__init__] reads; [_time] shifts a stored time
    back. *)
Definition catalog : list (string * (Z * option Z * option Z)) :=
  (λ c, (cr_name c, (cr_messages c, (λ t, t + TIME_SHIFT) <$> cr_first c, (λ t, t + TIME_SHIFT) <$> cr_last c)))
    <$> ix_channels ix.

(** [describe]; [None] is the KeyError of a Channel that the index lacks. *)
Definition describe : option description :=
  channels ← mapM (λ c, '(count, first, last_) ← dget catalog (sc_name c);
                        Some (mk_channel_summary (sc_name c) count first last_)) (so_channels s);
  Some (mk_description channels (foldr (λ c n, cs_message_count c + n) 0 channels)
          (opt_min (omap cs_start_ns channels)) (opt_max (omap cs_end_ns channels))).

(** [_pin]. *)
Definition pin (selected : list source_channel) (start_ns end_ns : Z) : list (string * json) :=
  [("continuation"%string, JInt 1); ("index_version"%string, JInt INDEX_VERSION);
   ("source_sha256"%string, JStr (so_sha256 s));
   ("channels"%string, JArr ((λ c, JStr (sc_name c)) <$> selected));
   ("start_ns"%string, JStr (decimal_Z start_ns)); ("end_ns"%string, JStr (decimal_Z end_ns));
   ("order"%string, JStr ORDER)].

(** [_continuation]. *)
Definition continuation (p : list (string * json)) (time_ns record_index : Z) : string :=
  seal (JObj (p ++ [("after"%string, JArr [JStr (decimal_Z time_ns); JStr (decimal_Z record_index)])])).

(** [_is_decimal] and [int]: the non-negative integer a text is, if any. *)
Definition parse_decimal (v : json) : result nav_error (option Z) :=
  match v with
  | JStr t =>
      if String.eqb t "" then Ok None
      else match digits_value 0 t with
           | None => Ok None
           | Some z => if (4300 <? String.length t)%nat then Err NTooManyDigits
                       else Ok (if String.eqb t (decimal_Z z) then Some z else None)
           end
  | _ => Ok None
  end.

(** The first key of the pin that the continuation has another value for. *)
Fixpoint pin_mismatch (p : list (string * json)) (body : json) : option string :=
  match p with
  | [] => None
  | (key, expected) :: p =>
      match jget body key with
      | Some v => if py_eq v expected then pin_mismatch p body else Some key
      | None => Some key
      end
  end.

(** [_resume]. *)
Definition resume (token : string) (p : list (string * json)) (start_ns end_ns : Z)
    : result nav_error (Z * Z) :=
  match unseal token with
  | Some (JObj d) =>
      raise: NContinuation
        if: negb (bool_decide ((list_to_set d.*1 : gset string) = list_to_set (p.*1 ++ ["after"%string])));;
      match pin_mismatch p (JObj d) with
      | Some key => Err (NContinuationOther key)
      | None =>
          match dget d "after"%string with
          | Some (JArr [a; b]) =>
              ta ← parse_decimal a;
              match ta with
              | None => Err NContinuation
              | Some time_ns =>
                  tb ← parse_decimal b;
                  match tb with
                  | None => Err NContinuation
                  | Some record_index =>
                      raise: NOutsideInterval if: negb ((start_ns <=? time_ns) && (time_ns <? end_ns));;
                      Ok (time_ns, record_index)
                  end
              end
          | _ => Err NContinuation
          end
      end
  | _ => Err NContinuation
  end.

(** The loop over the rows of a page: the rows taken, or the refusal of the
    first one. *)
Fixpoint take_rows (page : page_limits) (rows : list row) (taken : list row) (used : Z)
    : result nav_error (list row) :=
  match rows with
  | [] => Ok taken
  | r :: rows =>
      if Z.min (pl_max_bytes page) (lm_max_message_bytes lim) <? rw_size r then
        match taken with
        | [] => Err (NLimit (refused_row r))
        | _ => Ok taken
        end
      else if pl_max_bytes page <? used + rw_size r then Ok taken
      else take_rows page rows (taken ++ [r]) (used + rw_size r)
  end.

(** [messages]; [before] and [behind] are the identities of the two checks. *)
Definition messages (c : cache) (channels : option (list string)) (start_ns end_ns : Z)
    (token : option string) (pl : page_limits) (before behind : identity)
    : cache * result nav_error page :=
  match (selected ← lift_source (select_channels (so_channels s) channels);
         _ ← require_time "start_ns" start_ns TIME_LIMIT;
         _ ← require_time "end_ns" end_ns TIME_LIMIT;
         raise: NStartAfterEnd start_ns end_ns if: end_ns <? start_ns;;
         let p := pin selected start_ns end_ns in
         after ← match token with
                 | None => Ok (start_ns, -1)
                 | Some token => resume token p start_ns end_ns
                 end;
         _ ← lift_source (check_unchanged s before);
         rows ← (if start_ns =? end_ns then Ok []
                 else raise: NOverflow
                        if: (TIME_SHIFT <=? after.2) || (TIME_SHIFT <=? pl_max_rows pl + 1);;
                      Ok (rows_after ix ids (so_channels s) selected after (end_ns - 1)
                            (S (Z.to_nat (pl_max_rows pl)))));
         taken ← take_rows pl (take (Z.to_nat (pl_max_rows pl)) rows) [] 0;
         Ok (p, rows, taken)) with
  | Err e => (c, Err e)
  | Ok (p, rows, taken) =>
      let '(c', ms) := messages_of c taken in
      (c', ms ← ms;
           _ ← lift_source (check_unchanged s behind);
           if decide (length taken = length rows) then Ok (mk_page ms None true)
           else match last ms with
                | Some m => Ok (mk_page ms (Some (continuation p (sm_time m) (sm_index m))) false)
                | None => Err NCorrupt
                end)
  end.

(** [continuation_after]. *)
Definition continuation_after (channels : option (list string))
    (start_ns end_ns time_ns record_index : Z) : result nav_error string :=
  selected ← lift_source (select_channels (so_channels s) channels);
  _ ← require_time "start_ns" start_ns TIME_LIMIT;
  _ ← require_time "end_ns" end_ns TIME_LIMIT;
  _ ← require_time "time_ns" time_ns (TIME_LIMIT - 1);
  _ ← require_time "record_index" record_index (TIME_SHIFT - 1);
  raise: NOutsideInterval if: negb ((start_ns <=? time_ns) && (time_ns <? end_ns));;
  Ok (continuation (pin selected start_ns end_ns) time_ns record_index).

(** [... WHERE channel = ? AND time <= ? ORDER BY time DESC, record_index DESC LIMIT 1]. *)
Definition latest_row (id time_ns : Z) : option row :=
  last (merge_sort row_le (filter (λ r, rw_time r ≤ time_ns - TIME_SHIFT) (rows_of (ix_rows ix) id))).

Fixpoint snapshot_rows (c : cache) (selected : list source_channel) (time_ns : Z)
    : cache * result nav_error (list (string * option source_message)) :=
  match selected with
  | [] => (c, Ok [])
  | ch :: selected =>
      let '(c1, m) := match latest_row (default (-1) (dget ids (sc_name ch))) time_ns with
                      | None => (c, Ok None)
                      | Some r => let '(c1, m) := message_of c r in (c1, m ≫= λ m, Ok (Some m))
                      end in
      match m with
      | Err e => (c1, Err e)
      | Ok m => let '(c2, rest) := snapshot_rows c1 selected time_ns in
                (c2, rest ≫= λ rest, Ok ((sc_name ch, m) :: rest))
      end
  end.

(** [snapshot]. *)
Definition snapshot (c : cache) (channels : option (list string)) (time_ns : Z)
    (before behind : identity)
    : cache * result nav_error (list (string * option source_message)) :=
  match (selected ← lift_source (select_channels (so_channels s) channels);
         _ ← require_time "time_ns" time_ns (TIME_LIMIT - 1);
         _ ← lift_source (check_unchanged s before); Ok selected) with
  | Err e => (c, Err e)
  | Ok selected =>
      let '(c', r) := snapshot_rows c selected time_ns in
      (c', r ← r; _ ← lift_source (check_unchanged s behind); Ok r)
  end.
End navigator.
