(* ===== verification/NavigationProofs.v ===== *)
(** * The Navigator against the Recording it indexes

    Proofs about [Navigation]. [rows_after_plans]: the query plan of a partial
    selection, which merges one range per Channel, gives the rows of the plain
    query. [pages_complete]: over an index built from a file, following
    continuations gives every stored Message of the selection and interval, once
    and in publication order. [prepare_reuses]: a prepared index verifies, and
    the next preparation reuses it. *)

From Stdlib Require Import ZArith Lia.
From S2P Require Import Prelude PyFloat Json SchemaTypes Schema Pointer Recording.
From S2P Require Import Base64 Interchange VizSource Navigation.

(** ** Sorted rows *)

#[export] Instance key_le_total : Total key_le.
Proof. intros [a b] [c d]. unfold key_le. cbn. lia. Qed.
#[export] Instance key_le_trans : Transitive key_le.
Proof. intros [a b] [c d] [e g]. unfold key_le. cbn. lia. Qed.
#[export] Instance row_le_total : Total row_le.
Proof. intros a b. apply key_le_total. Qed.
#[export] Instance row_le_trans : Transitive row_le.
Proof. intros a b c. apply key_le_trans. Qed.

(** Rows of one table differ in their index. *)
Definition distinct (rows : list row) : Prop := NoDup (rw_index <$> rows).

Lemma distinct_unique rows a b :
  distinct rows → a ∈ rows → b ∈ rows → row_le a b → row_le b a → a = b.
Proof.
  intros Hd [i Hi]%list_elem_of_lookup [j Hj]%list_elem_of_lookup H1 H2.
  assert (rw_index a = rw_index b) as E.
  { unfold row_le, key_le, row_key in *. cbn in *. lia. }
  assert (i = j) as ->; [|congruence].
  eapply NoDup_lookup; [exact Hd|rewrite list_lookup_fmap, Hi; done|].
  rewrite list_lookup_fmap, Hj. cbn. by rewrite E.
Qed.

Lemma distinct_sublist l k : l `sublist_of` k → distinct k → distinct l.
Proof. intros H Hk. eapply sublist_NoDup; [exact Hk|]. by apply fmap_sublist. Qed.
Lemma distinct_perm l k : l ≡ₚ k → distinct k → distinct l.
Proof. unfold distinct. intros ->. done. Qed.

Lemma sort_sorted rows : StronglySorted row_le (merge_sort row_le rows).
Proof. apply (StronglySorted_merge_sort _ _). Qed.
Lemma sort_perm rows : merge_sort row_le rows ≡ₚ rows.
Proof. apply merge_sort_Permutation. Qed.

(** A sorted permutation of distinct rows is the sorted table. *)
Lemma sorted_is_sort l rows :
  distinct rows → StronglySorted row_le l → l ≡ₚ rows → l = merge_sort row_le rows.
Proof.
  intros Hd Hs Hp. apply (StronglySorted_unique_strong row_le); [|done|apply sort_sorted|].
  - intros a b Ha Hb. apply (distinct_unique rows); [done|by rewrite <- Hp|by rewrite <- (sort_perm rows)].
  - by rewrite sort_perm.
Qed.

(** Filtering and sorting commute. *)
Lemma sort_filter (P : row → Prop) `{!∀ r, Decision (P r)} rows :
  distinct rows → merge_sort row_le (filter P rows) = filter P (merge_sort row_le rows).
Proof.
  intros Hd. symmetry. apply sorted_is_sort.
  - eapply distinct_sublist; [apply sublist_filter|done].
  - apply sorted_filter, sort_sorted.
  - by rewrite sort_perm.
Qed.

(** ** The merged ranges *)

Lemma pop_least_perm ls x ls' :
  pop_least ls = Some (x, ls') → concat ls ≡ₚ x :: concat ls'.
Proof.
  revert x ls'. induction ls as [|[|y l] ls IH]; intros x ls'; cbn [pop_least]; [done|..].
  - destruct (pop_least ls) as [[z lz]|]; [|done]. intros [= <- <-]. cbn. by apply IH.
  - destruct (pop_least ls) as [[z lz]|]; [|by intros [= <- <-]].
    destruct (decide (row_le y z)); intros [= <- <-]; [done|].
    cbn. rewrite (IH z lz) by done. solve_Permutation.
Qed.

Lemma pop_least_none ls : pop_least ls = None → concat ls = [].
Proof.
  induction ls as [|[|y l] ls IH]; cbn [pop_least]; [done|..].
  - destruct (pop_least ls) as [[]|]; [done|]. cbn. auto.
  - destruct (pop_least ls) as [[z lz]|]; [|done]. by case_decide.
Qed.

Lemma pop_least_sorted ls x ls' :
  Forall (StronglySorted row_le) ls → pop_least ls = Some (x, ls') →
  Forall (StronglySorted row_le) ls' ∧ Forall (row_le x) (concat ls').
Proof.
  intros Hs. revert x ls'. induction Hs as [|l ls Hl Hls IH]; intros x ls'; cbn [pop_least]; [done|].
  destruct l as [|y l].
  - destruct (pop_least ls) as [[z lz]|]; [|done]. intros [= <- <-].
    destruct (IH z lz) as [H1 H2]; [done|]. split; [by constructor|done].
  - inversion Hl as [|? ? Hsl Hyl]; subst.
    destruct (pop_least ls) as [[z lz]|] eqn:Hp.
    + destruct (IH z lz) as [H1 H2]; [done|]. pose proof (pop_least_perm _ _ _ Hp) as Hperm.
      destruct (decide (row_le y z)) as [Hyz|Hyz]; intros [= <- <-].
      * split; [by constructor|]. cbn. apply Forall_app. split; [done|].
        rewrite Hperm. constructor; [done|]. eapply Forall_impl; [exact H2|]. intros w. by transitivity z.
      * assert (row_le z y) as Hzy by (destruct (total row_le y z); done).
        split; [by constructor|]. cbn. constructor; [done|]. apply Forall_app. split; [|done].
        eapply Forall_impl; [exact Hyl|]. intros w. by transitivity y.
    + intros [= <- <-]. split; [by constructor|]. cbn. apply Forall_app. split; [done|].
      apply pop_least_none in Hp as ->. constructor.
Qed.

Lemma heap_merge_sorted n ls :
  length (concat ls) = n → Forall (StronglySorted row_le) ls →
  heap_merge n ls ≡ₚ concat ls ∧ StronglySorted row_le (heap_merge n ls).
Proof.
  revert ls. induction n as [|n IH]; intros ls Hn Hs; cbn [heap_merge].
  { apply nil_length_inv in Hn as ->. split; [done|constructor]. }
  destruct (pop_least ls) as [[x ls']|] eqn:Hp.
  - pose proof (pop_least_perm _ _ _ Hp) as Hperm.
    destruct (pop_least_sorted _ _ _ Hs Hp) as [H1 H2].
    destruct (IH ls') as [H3 H4]; [|done|].
    { apply Permutation_length in Hperm. cbn in Hperm. lia. }
    split; [by rewrite H3|]. constructor; [done|]. by rewrite H3.
  - apply pop_least_none in Hp. rewrite Hp in Hn. done.
Qed.

(** ** One range per Channel *)

Lemma filter_split (P Q : row → Prop) `{!∀ r, Decision (P r), !∀ r, Decision (Q r)} l :
  (∀ x, P x → ¬ Q x) → filter (λ x, P x ∨ Q x) l ≡ₚ filter P l ++ filter Q l.
Proof.
  intros Hd. induction l as [|x l IH]; [done|]. rewrite !filter_cons.
  destruct (decide (P x)) as [HP|HP].
  - rewrite decide_True by auto. rewrite decide_False by auto. cbn. by rewrite IH.
  - destruct (decide (Q x)) as [HQ|HQ].
    + rewrite decide_True by auto. rewrite IH. solve_Permutation.
    + by rewrite decide_False by naive_solver.
Qed.

(** The rows of some keys are the ranges of each key together. *)
Lemma ranges_perm (ks : list Z) l :
  NoDup ks →
  concat ((λ k, filter (λ r, rw_channel r = k) l) <$> ks) ≡ₚ filter (λ r, rw_channel r ∈ ks) l.
Proof.
  induction 1 as [|k ks Hk _ IH]; cbn.
  - induction l as [|x l IHl]; [done|]. rewrite filter_cons_False; [done|by intros ?%not_elem_of_nil].
  - rewrite IH, <- filter_split by congruence.
    erewrite list_filter_iff; [done|]. intros r. by rewrite elem_of_cons.
Qed.

Lemma sublist_full {A} (l k : list A) : l `sublist_of` k → length l = length k → l = k.
Proof.
  induction 1 as [|x l k Hs IH|x l k Hs IH]; cbn; intros Hl; [done| |].
  - f_equal. apply IH. lia.
  - apply sublist_length in Hs. lia.
Qed.

Lemma concat_take_sublist (ls : list (list row)) n : concat (take n <$> ls) `sublist_of` concat ls.
Proof. induction ls as [|l ls IH]; cbn; [done|]. apply sublist_app; [apply sublist_take|done]. Qed.

Lemma distinct_NoDup rows : distinct rows → NoDup rows.
Proof. apply NoDup_fmap_1. Qed.

Lemma sorted_take {A} (R : A → A → Prop) n l : StronglySorted R l → StronglySorted R (take n l).
Proof.
  intros H. revert n. induction H as [|x l Hs IH Hx]; intros [|n]; cbn; try constructor; [done|].
  by apply Forall_take.
Qed.

(** What holds of the first [n] elements does not drop any of them. *)
Lemma take_filter_prefix (P : row → Prop) `{!∀ r, Decision (P r)} n l :
  Forall P (take n l) → take n (filter P l) = take n l.
Proof.
  intros HP. rewrite <- (take_drop n l) at 1. rewrite filter_app, (filter_all _ (take n l)) by done.
  destruct (decide (length l ≤ n)%nat).
  - rewrite (drop_ge l) by done. cbn. by rewrite app_nil_r, take_take, Nat.min_id.
  - rewrite take_app_le by (rewrite length_take; lia). by rewrite take_take, Nat.min_id.
Qed.

(** The first [n] rows of some keys are among the first [n] of each key. *)
Lemma first_in_ranges (ks : list Z) w n x :
  x ∈ take n (filter (λ r, rw_channel r ∈ ks) w) →
  x ∈ concat ((λ k, take n (filter (λ r, rw_channel r = k) w)) <$> ks).
Proof.
  set (M := filter (λ r, rw_channel r ∈ ks) w). intros Hx.
  assert (x ∈ M) as [Hk _]%list_elem_of_filter by (by eapply elem_of_sublist; [|apply sublist_take]).
  apply list_elem_of_In, in_concat. eexists. split.
  - apply list_elem_of_In, list_elem_of_fmap. exists (rw_channel x). split; [reflexivity|exact Hk].
  - apply list_elem_of_In.
    rewrite <- (filter_twice (λ r, rw_channel r = rw_channel x) (λ r, rw_channel r ∈ ks))
      by (by intros r ->).
    fold M. rewrite <- (take_drop n M), filter_app.
    rewrite take_app_ge by (etrans; [apply length_filter|rewrite length_take; lia]).
    apply elem_of_app. left. apply list_elem_of_filter. done.
Qed.

(** Taking [n] of each range before the merge takes the same first [n]. *)
Lemma merge_ranges (ks : list Z) (w : list row) n :
  NoDup ks → distinct w →
  let ranges := (λ k, take n (merge_sort row_le (filter (λ r, rw_channel r = k) w))) <$> ks in
  take n (heap_merge (length (concat ranges)) ranges)
  = take n (filter (λ r, rw_channel r ∈ ks) (merge_sort row_le w)).
Proof.
  intros Hks Hd ranges. set (W := merge_sort row_le w).
  assert (distinct W) as HdW by (eapply distinct_perm; [apply sort_perm|done]).
  set (M := filter (λ r, rw_channel r ∈ ks) W).
  set (full := (λ k, filter (λ r, rw_channel r = k) W) <$> ks).
  assert (ranges = take n <$> full) as Hr.
  { unfold ranges, full. rewrite <- list_fmap_compose. apply list_fmap_ext. intros _ k _. cbn.
    by rewrite sort_filter. }
  assert (concat full ≡ₚ M) as Hfull by by apply ranges_perm.
  assert (distinct M) as HdM by (eapply distinct_sublist; [apply sublist_filter|done]).
  assert (concat ranges ⊆ M) as Hsub.
  { intros x Hx. rewrite <- Hfull. rewrite Hr in Hx. eapply elem_of_sublist; [exact Hx|].
    apply concat_take_sublist. }
  destruct (heap_merge_sorted (length (concat ranges)) ranges) as [Hp Hs]; [done| |].
  { rewrite Hr. apply Forall_fmap, Forall_forall. intros l (k & -> & _)%list_elem_of_fmap.
    apply sorted_take, sorted_filter, sort_sorted. }
  rewrite <- (take_filter_prefix (.∈ concat ranges) n M); cycle 1.
  { apply Forall_forall. intros x Hx. rewrite Hr. unfold full. rewrite <- list_fmap_compose.
    by apply first_in_ranges. }
  f_equal. apply (StronglySorted_unique_strong row_le);
    [|done|apply sorted_filter, sorted_filter, sort_sorted|].
  - intros a b Ha [_ Hb]%list_elem_of_filter. apply (distinct_unique M); [done| |done].
    apply Hsub. by rewrite <- Hp.
  - rewrite Hp. apply NoDup_Permutation.
    + eapply sublist_NoDup; [|rewrite Hr; apply concat_take_sublist]. rewrite Hfull. by apply distinct_NoDup.
    + apply NoDup_filter. by apply distinct_NoDup.
    + intros x. rewrite list_elem_of_filter. split; [|tauto]. auto.
Qed.

(** ** Pages of a list of Messages: the specification *)

Definition msg_key (m : source_message) : Z * Z := (sm_time m, sm_index m).

(** The Messages of some Channels after a position and before a time. *)
Definition matching (src : list source_message) (chs : list string) (after : Z * Z) (end_ns : Z)
    : list source_message :=
  filter (λ m, sm_channel m ∈ chs ∧ key_lt after (msg_key m) ∧ sm_time m < end_ns) src.

Definition refusal_of (m : source_message) : refusal :=
  mk_refusal (sm_index m) (sm_channel m) (sm_time m) (zlen (sm_data m)).

Definition oversize (max_message : Z) (pl : page_limits) (m : source_message) : bool :=
  Z.min (pl_max_bytes pl) max_message <? zlen (sm_data m).

(** The longest prefix that fits the byte limit. *)
Fixpoint fill (max_message : Z) (pl : page_limits) (ms : list source_message) (used : Z)
    : list source_message :=
  match ms with
  | [] => []
  | m :: ms =>
      if oversize max_message pl m || (pl_max_bytes pl <? used + zlen (sm_data m)) then []
      else m :: fill max_message pl ms (used + zlen (sm_data m))
  end.

(** The refusal of the first Message, or the Messages of a page and whether
    none follow. *)
Definition page_of (max_message : Z) (pl : page_limits) (ms : list source_message)
    : result refusal (list source_message * bool) :=
  match ms with
  | [] => Ok ([], true)
  | m :: _ =>
      if oversize max_message pl m then Err (refusal_of m)
      else let taken := fill max_message pl (take (Z.to_nat (pl_max_rows pl)) ms) 0 in
           Ok (taken, bool_decide (length taken = length ms))
  end.

Lemma fill_prefix mx pl ms used : fill mx pl ms used `prefix_of` ms.
Proof.
  revert used. induction ms as [|m ms IH]; intros used; cbn [fill]; [done|].
  destruct (_ || _); [apply prefix_nil|]. apply prefix_cons, IH.
Qed.

Definition limits_ok (pl : page_limits) : Prop := 0 < pl_max_rows pl < TIME_SHIFT - 1 ∧ 0 < pl_max_bytes pl.

(** A page that is not the last one has a Message. *)
Lemma page_of_progress mx pl ms taken complete :
  limits_ok pl → page_of mx pl ms = Ok (taken, complete) →
  taken `prefix_of` ms ∧ (complete = true → taken = ms) ∧ (ms ≠ [] → taken ≠ []).
Proof.
  intros [Hr _]. unfold page_of. destruct ms as [|m ms]; [by intros [= <- <-]|].
  destruct (oversize mx pl m) eqn:Ho; [done|]. set (taken' := fill _ _ _ _).
  intros [= <- <-].
  assert (taken' `prefix_of` m :: ms) as Hp.
  { etrans; [apply fill_prefix|apply prefix_take]. }
  split_and!; [done| |].
  - rewrite bool_decide_eq_true. intros Hl. apply prefix_length_eq; [done|by rewrite Hl].
  - intros _. unfold taken'. destruct (Z.to_nat (pl_max_rows pl)) as [|n] eqn:En; [lia|].
    cbn [take fill]. rewrite Ho. cbn [orb].
    apply Z.ltb_ge in Ho. rewrite (proj2 (Z.ltb_ge _ _)) by lia. done.
Qed.

Lemma Forall2_filter_both {A B} (R : A → B → Prop) (P : A → Prop) (Q : B → Prop)
    `{!∀ x, Decision (P x), !∀ x, Decision (Q x)} (l : list A) (k : list B) :
  Forall2 R l k → (∀ x y, x ∈ l → R x y → P x ↔ Q y) → Forall2 R (filter P l) (filter Q k).
Proof.
  induction 1 as [|x y l k Hxy Hlk IH]; intros HPQ; [constructor|]. rewrite !filter_cons.
  assert (Forall2 R (filter P l) (filter Q k)) by (apply IH; intros; apply HPQ; [by right|done]).
  pose proof (HPQ x y (list_elem_of_here _ _) Hxy).
  destruct (decide (P x)), (decide (Q y)); try (done || tauto). by constructor.
Qed.

Lemma fill_sizes mx pl ms used : Forall (λ m, zlen (sm_data m) ≤ mx) (fill mx pl ms used).
Proof.
  revert used. induction ms as [|m ms IH]; intros used; cbn [fill]; [constructor|].
  destruct (oversize mx pl m) eqn:Ho; [constructor|]. cbn [orb]. destruct (_ <? _); [constructor|].
  constructor; [|done]. apply Z.ltb_ge in Ho. lia.
Qed.

(** ** The Navigator over an index *)

Section catalog.
Context (s : source) (ids : list (string * Z)) (ix : index).

(** The Channel ids of the index and of the source agree. *)
Record catalog_ok : Prop := {
  co_names : NoDup (sc_name <$> so_channels s);
  co_ids c : c ∈ so_channels s → is_Some (dget ids (sc_name c));
  co_keys : NoDup ids.*1;
  co_inj n m i : dget ids n = Some i → dget ids m = Some i → n = m;
  co_rows r : r ∈ ix_rows ix →
    ∃ c, c ∈ so_channels s ∧ dget ids (sc_name c) = Some (rw_channel r);
  co_distinct : distinct (ix_rows ix);
}.

Lemma names_of i n : catalog_ok → dget ids n = Some i → dget (names ids) i = Some n.
Proof.
  intros Hc Hn. apply dget_elem.
  - unfold names. rewrite <- list_fmap_compose.
    apply NoDup_alt. intros a b x. rewrite !list_lookup_fmap.
    destruct (ids !! a) as [[n1 i1]|] eqn:Ha, (ids !! b) as [[n2 i2]|] eqn:Hb; try done.
    cbn. intros [= ->] [= ->]. apply list_elem_of_lookup_2 in Ha as Ha', Hb as Hb'.
    assert (n1 = n2) as ->.
    { apply (co_inj Hc n1 n2 x); apply dget_elem; try done; apply (co_keys Hc). }
    eapply NoDup_lookup; [apply (co_keys Hc)|rewrite list_lookup_fmap, Ha; done|].
    by rewrite list_lookup_fmap, Hb.
  - unfold names. apply list_elem_of_fmap. exists (n, i). split; [done|]. by apply dget_Some.
Qed.

(** The Channel a row is on. *)
Definition channel_of (r : row) : string := default "" (dget (names ids) (rw_channel r)).

Lemma channel_of_id c r :
  catalog_ok → c ∈ so_channels s → r ∈ ix_rows ix →
  (rw_channel r = default (-1) (dget ids (sc_name c)) ↔ channel_of r = sc_name c).
Proof.
  intros Hc Hin Hr. destruct (co_rows Hc r Hr) as (d & Hd & Ed).
  destruct (co_ids Hc c Hin) as [i Ei]. rewrite Ei. cbn [default from_option id].
  unfold channel_of. rewrite (names_of _ _ Hc Ed). cbn. split.
  - intros E. apply (co_inj Hc _ _ i); [|done]. by rewrite Ed, E.
  - intros E. rewrite E, Ei in Ed. by injection Ed.
Qed.

(** The reference of [_rows_after]: the rows of the selection in the interval,
    in order. *)
Definition rows_wanted (chs : list string) (after : Z * Z) (last_ns : Z) : list row :=
  filter (λ r, channel_of r ∈ chs
               ∧ key_lt (after.1 - TIME_SHIFT, after.2) (row_key r) ∧ rw_time r ≤ last_ns - TIME_SHIFT)
    (merge_sort row_le (ix_rows ix)).

Lemma selected_ids (chs : list string) :
  catalog_ok →
  NoDup ((λ c, default (-1) (dget ids (sc_name c))) <$> filter (λ c, sc_name c ∈ chs) (so_channels s)).
Proof.
  intros Hc. apply NoDup_alt. intros a b x. rewrite !list_lookup_fmap.
  set (sel := filter _ _). assert (NoDup (sc_name <$> sel)) as Hn.
  { eapply sublist_NoDup; [apply (co_names Hc)|]. apply fmap_sublist, sublist_filter. }
  destruct (sel !! a) as [c|] eqn:Ha, (sel !! b) as [d|] eqn:Hb; try done. cbn. intros [= <-] [= E].
  assert (∀ k e, sel !! k = Some e → e ∈ so_channels s) as Hin.
  { intros k e He%list_elem_of_lookup_2. by apply list_elem_of_filter in He as [_ ?]. }
  destruct (co_ids Hc c (Hin _ _ Ha)) as [i Ei], (co_ids Hc d (Hin _ _ Hb)) as [j Ej].
  rewrite Ei, Ej in E. cbn in E. subst j. pose proof (co_inj Hc _ _ _ Ei Ej) as En.
  eapply NoDup_lookup; [exact Hn|rewrite list_lookup_fmap, Ha; done|].
  rewrite list_lookup_fmap, Hb. cbn. by rewrite En.
Qed.

Lemma rows_after_wanted chs after last_ns n :
  catalog_ok → chs ⊆ sc_name <$> so_channels s →
  rows_after ix ids (so_channels s) (filter (λ c, sc_name c ∈ chs) (so_channels s)) after last_ns n
  = take n (rows_wanted chs after last_ns).
Proof.
  intros Hc Hchs. unfold rows_after, rows_wanted. set (sel := filter _ _).
  set (w := in_range_rows _ _ _).
  assert (distinct w) as Hd by (eapply distinct_sublist; [apply sublist_filter|apply (co_distinct Hc)]).
  assert (∀ r, r ∈ ix_rows ix → ∃ c, c ∈ so_channels s ∧ channel_of r = sc_name c) as Hch.
  { intros r Hr. destruct (co_rows Hc r Hr) as (c & Hcin & E). exists c. split; [done|].
    apply channel_of_id; [done..|]. by rewrite E. }
  assert (∀ r, r ∈ ix_rows ix →
    (rw_channel r ∈ ((λ c, default (-1) (dget ids (sc_name c))) <$> sel) ↔ channel_of r ∈ chs)) as Hsel.
  { intros r Hr. rewrite list_elem_of_fmap. split.
    - intros (c & E & [Hin Hcin]%list_elem_of_filter). apply channel_of_id in E as ->; done.
    - intros Hin. destruct (Hch r Hr) as (c & Hcin & E). exists c. split.
      + by apply channel_of_id.
      + apply list_elem_of_filter. by rewrite <- E. }
  assert (filter (λ r, rw_channel r ∈ ((λ c, default (-1) (dget ids (sc_name c))) <$> sel))
            (merge_sort row_le w)
          = filter (λ r, channel_of r ∈ chs ∧ key_lt (after.1 - TIME_SHIFT, after.2) (row_key r)
                         ∧ rw_time r ≤ last_ns - TIME_SHIFT) (merge_sort row_le (ix_rows ix))) as Hf.
  { unfold w, in_range_rows. rewrite sort_filter by apply (co_distinct Hc).
    rewrite list_filter_filter. apply filter_ext_in. intros r Hr.
    rewrite (Hsel r) by (by rewrite <- (sort_perm (ix_rows ix))). tauto. }
  destruct (decide (length sel = length (so_channels s))) as [El|El].
  - unfold order_limit. rewrite <- Hf. f_equal. symmetry. apply filter_all, Forall_forall.
    intros r Hr%(elem_of_Permutation_proper _ _ _ (sort_perm w)).
    apply list_elem_of_filter in Hr as [_ Hr]. apply Hsel; [done|].
    destruct (Hch r Hr) as (c & Hcin & ->).
    assert (c ∈ sel) as [? _]%list_elem_of_filter; [|done].
    assert (sel = so_channels s) as ->; [|done].
    apply sublist_full; [apply sublist_filter|lia].
  - rewrite <- Hf, <- merge_ranges by (done || by apply selected_ids).
    rewrite <- list_fmap_compose. done.
Qed.

End catalog.

(** ** The chunk cache *)

Section navigator_facts.
Context (zstd lz4 : bytes → Z → option bytes).
Context (seal : json → string) (unseal : string → option json).
Context (s : source) (f : bytes) (ids : list (string * Z)) (ix : index) (lim : limits).

Definition cached_size (chunks : list (Z * bytes)) : Z := foldr (λ kv n, zlen kv.2 + n) 0 chunks.

(** The cache holds decoded chunks of the file, and not more than its limit. *)
Record cache_ok (c : cache) : Prop := {
  ck_keys : NoDup (ca_chunks c).*1;
  ck_read o b : (o, b) ∈ ca_chunks c → read_chunk zstd lz4 f o (lm_max_decoded_bytes lim) = Ok b;
  ck_size : ca_bytes c = cached_size (ca_chunks c);
  ck_limit : ca_bytes c ≤ lm_chunk_cache_bytes lim;
}.

Lemma cached_size_cons o b l : cached_size ((o, b) :: l) = zlen b + cached_size l.
Proof. done. Qed.
Lemma cached_size_app l k : cached_size (l ++ k) = cached_size l + cached_size k.
Proof.
  induction l as [|[o b] l IH]; [done|]. rewrite <- app_comm_cons, !cached_size_cons. lia.
Qed.

Lemma evict_ok limit chunks :
  0 ≤ limit →
  let c := evict limit chunks (cached_size chunks) in
  ca_chunks c `sublist_of` chunks ∧ ca_bytes c = cached_size (ca_chunks c) ∧ ca_bytes c ≤ limit.
Proof.
  intros Hl. induction chunks as [|[o b] chunks IH]; cbn [evict].
  - cbn. done.
  - destruct (Z.ltb_spec limit (cached_size ((o, b) :: chunks))).
    + replace (cached_size ((o, b) :: chunks) - zlen b) with (cached_size chunks)
        by (rewrite cached_size_cons; lia).
      destruct IH as (H1 & H2 & H3). split_and!; [by apply sublist_cons|done|done].
    + cbn [ca_chunks ca_bytes]. done.
Qed.

Lemma cache_ok_evict chunks :
  0 ≤ lm_chunk_cache_bytes lim → NoDup chunks.*1 →
  (∀ o b, (o, b) ∈ chunks → read_chunk zstd lz4 f o (lm_max_decoded_bytes lim) = Ok b) →
  cache_ok (evict (lm_chunk_cache_bytes lim) chunks (cached_size chunks)).
Proof.
  intros Hl Hn Hr. destruct (evict_ok _ chunks Hl) as (Hs & Hb & Hle).
  split; [|..|done|done].
  - eapply sublist_NoDup; [exact Hn|]. by apply fmap_sublist.
  - intros o b Hob. apply Hr. by eapply elem_of_sublist.
Qed.

Lemma cached_size_pop chunks o b :
  NoDup chunks.*1 → (o, b) ∈ chunks →
  cached_size (pop_key chunks o) + zlen b = cached_size chunks.
Proof.
  induction chunks as [|[o' b'] chunks IH]; intros Hn Hin; [by apply not_elem_of_nil in Hin|].
  rewrite fmap_cons in Hn. apply NoDup_cons in Hn as [Ho Hn]. unfold pop_key in *.
  rewrite filter_cons. cbn [fst] in *. apply elem_of_cons in Hin as [[= <- <-]|Hin].
  - rewrite decide_False by (by intros []). rewrite filter_all.
    + rewrite cached_size_cons. lia.
    + apply Forall_forall. intros [k v] Hk. cbn. intros ->. apply Ho. apply list_elem_of_fmap. by exists (o, v).
  - rewrite decide_True.
    + rewrite !cached_size_cons. specialize (IH Hn Hin). lia.
    + intros ->. apply Ho. apply list_elem_of_fmap. by exists (o, b).
Qed.

(** The cache is transparent. *)
Lemma chunk_transparent c o :
  cache_ok c → 0 ≤ lm_chunk_cache_bytes lim →
  cache_ok (chunk zstd lz4 f lim c o).1
  ∧ (chunk zstd lz4 f lim c o).2 = read_chunk zstd lz4 f o (lm_max_decoded_bytes lim).
Proof.
  intros Hc Hl. pose proof Hc as [Hn Hr Hs _]. unfold chunk. destruct (dget (ca_chunks c) o) as [b|] eqn:Hd.
  - apply dget_Some in Hd as Hin. split; [|symmetry; by apply Hr].
    cbn [fst]. rewrite Hs. set (chunks := pop_key _ _ ++ _).
    assert (cached_size (ca_chunks c) = cached_size chunks) as ->.
    { unfold chunks. rewrite cached_size_app, cached_size_cons. cbn [cached_size foldr].
      pose proof (cached_size_pop _ _ _ Hn Hin). lia. }
    apply cache_ok_evict; [done|..]; unfold chunks, pop_key.
    + rewrite fmap_app. apply NoDup_app. split_and!.
      * eapply sublist_NoDup; [exact Hn|]. apply fmap_sublist, sublist_filter.
      * intros k ([k' v] & -> & [? _]%list_elem_of_filter)%list_elem_of_fmap.
        cbn in *. by intros ->%list_elem_of_singleton.
      * apply NoDup_singleton.
    + intros k v [[_ Hk]%list_elem_of_filter|Hk%list_elem_of_singleton]%elem_of_app; [by apply Hr|].
      injection Hk as -> ->. by apply Hr.
  - destruct (read_chunk _ _ _ _ _) as [b|] eqn:Hb; [|done].
    split; [|done]. cbn [fst]. rewrite Hs.
    assert (cached_size (ca_chunks c) + zlen b = cached_size (ca_chunks c ++ [(o, b)])) as ->.
    { rewrite cached_size_app, cached_size_cons. cbn [cached_size foldr]. lia. }
    apply cache_ok_evict; [done|..].
    + rewrite fmap_app. apply NoDup_app. split_and!; [done| |apply NoDup_singleton].
      apply dget_None in Hd. set_solver.
    + intros k v [Hk|Hk%list_elem_of_singleton]%elem_of_app; [by apply Hr|].
      by injection Hk as -> ->.
Qed.

(** ** Pages *)

(** [_message] without the cache. *)
Definition message_direct (r : row) : result nav_error source_message :=
  if lm_max_message_bytes lim <? rw_size r then Err (NLimit (refused_row ids r))
  else check_found ids r
         (if rw_chunk r <? 0 then read_message f (rw_offset r) (lm_max_message_bytes lim)
          else b ← read_chunk zstd lz4 f (rw_chunk r) (lm_max_decoded_bytes lim);
               message_in_chunk b (rw_offset r)).

Lemma message_of_direct c r :
  cache_ok c → 0 ≤ lm_chunk_cache_bytes lim →
  cache_ok (message_of zstd lz4 f ids lim c r).1
  ∧ (message_of zstd lz4 f ids lim c r).2 = message_direct r.
Proof.
  intros Hc Hl. unfold message_of, message_direct.
  destruct (_ <? rw_size r); [done|]. destruct (rw_chunk r <? 0); [done|].
  destruct (chunk_transparent c (rw_chunk r) Hc Hl) as [H1 H2].
  destruct (chunk _ _ _ _ _ _) as [c' b]. cbn in *. by rewrite H2.
Qed.

(** What the Navigator shows of a row: the Message, unless it is larger than
    the Message limit. *)
Definition shows (r : row) (m : source_message) : Prop :=
  rw_index r = sm_index m ∧ dget (names ids) (rw_channel r) = Some (sm_channel m)
  ∧ rw_time r + TIME_SHIFT = sm_time m ∧ rw_size r = zlen (sm_data m)
  ∧ (rw_size r ≤ lm_max_message_bytes lim → message_direct r = Ok m).

(** The index shows a list of Messages, in order. *)
Definition index_shows (src : list source_message) : Prop :=
  Forall2 shows (merge_sort row_le (ix_rows ix)) src.

Lemma wanted_matching src chs after end_ns :
  index_shows src →
  Forall2 shows (rows_wanted ids ix chs after (end_ns - 1)) (matching src chs after end_ns).
Proof.
  intros H. apply Forall2_filter_both; [done|]. intros r m _ (Hi & Hn & Ht & _).
  unfold channel_of. rewrite Hn. cbn [default from_option id].
  unfold key_lt, row_key, msg_key. cbn. rewrite <- Ht, Hi. split; intros (? & ? & ?); split_and!; try done; lia.
Qed.

(** The rows taken for a page are those of the specification. *)
Lemma take_rows_fill pl rows ms taken used :
  Forall2 shows rows ms → 0 ≤ used →
  take_rows ids lim pl rows taken used
  = match taken, ms with
    | [], m :: _ => if oversize (lm_max_message_bytes lim) pl m
                    then Err (NLimit (Some (refusal_of m)))
                    else Ok (taken ++ take (length (fill (lm_max_message_bytes lim) pl ms used)) rows)
    | _, _ => Ok (taken ++ take (length (fill (lm_max_message_bytes lim) pl ms used)) rows)
    end.
Proof.
  intros H. revert taken used. induction H as [|r m rows ms Hrm _ IH]; intros taken used Hu.
  { cbn. rewrite app_nil_r. by destruct taken. }
  cbn [take_rows fill]. unfold oversize. destruct Hrm as (Hi & Hn & Ht & Hs & _). rewrite Hs.
  destruct (Z.min (pl_max_bytes pl) (lm_max_message_bytes lim) <? zlen (sm_data m)) eqn:Ho.
  { cbn [orb length take]. rewrite app_nil_r. destruct taken; [|done].
    unfold refused_row. rewrite Hn. cbn. unfold refusal_of. do 4 f_equal; done. }
  cbn [orb]. destruct (pl_max_bytes pl <? used + zlen (sm_data m)).
  { cbn [length take]. rewrite app_nil_r. by destruct taken. }
  rewrite IH by (pose proof (zlen_nonneg (sm_data m)); lia).
  cbn [length take]. rewrite <- app_assoc. cbn [app].
  destruct taken as [|t taken]; cbn [app]; [|done]. done.
Qed.

Lemma messages_of_shown c rows ms :
  cache_ok c → 0 ≤ lm_chunk_cache_bytes lim → Forall2 shows rows ms →
  Forall (λ m, zlen (sm_data m) ≤ lm_max_message_bytes lim) ms →
  cache_ok (messages_of zstd lz4 f ids lim c rows).1
  ∧ (messages_of zstd lz4 f ids lim c rows).2 = Ok ms.
Proof.
  intros Hc Hl H. revert c Hc. induction H as [|r m rows ms Hrm _ IH]; intros c Hc Hf; [done|].
  inversion Hf as [|? ? Hm Hms]; subst. cbn [messages_of].
  destruct (message_of_direct c r Hc Hl) as [H1 H2].
  destruct (message_of _ _ _ _ _ _ _) as [c1 m1]. cbn in H1, H2.
  destruct Hrm as (_ & _ & _ & Hs & Hd). rewrite Hd in H2 by lia. subst m1.
  destruct (IH c1 H1 Hms) as [H3 H4].
  destruct (messages_of _ _ _ _ _ _ _) as [c2 ms2]. cbn in H3, H4. by subst ms2.
Qed.

(** ** Continuations *)

(** The JSON body of a continuation. *)
Definition body_of (p : list (string * json)) (t i : Z) : json :=
  JObj (p ++ [("after"%string, JArr [JStr (decimal_Z t); JStr (decimal_Z i)])]).

(** The continuations of a request can be read back. *)
Definition unseals (p : list (string * json)) : Prop :=
  ∀ t i, 0 ≤ t → 0 ≤ i → unseal (continuation seal p t i) = Some (body_of p t i).

Lemma pin_mismatch_none p body :
  Forall (λ kv, jget body kv.1 = Some kv.2 ∧ py_eq kv.2 kv.2 = true) p → pin_mismatch p body = None.
Proof using Type.
  induction 1 as [|[k v] p [Hg He] _ IH]; [done|]. cbn [pin_mismatch fst snd] in *. by rewrite Hg, He.
Qed.

Lemma py_eq_strs (l : list string) : py_eq (JArr (JStr <$> l)) (JArr (JStr <$> l)) = true.
Proof using Type.
  induction l as [|x l IH]; [done|]. cbn in *. by rewrite String.eqb_refl, IH.
Qed.

Lemma parse_decimal_Z z : 0 ≤ z < 2 ^ 64 → parse_decimal (JStr (decimal_Z z)) = Ok (Some z).
Proof using Type.
  intros Hz. cbn [parse_decimal]. rewrite decimal_Z_nonempty, digits_value_decimal by lia.
  pose proof (decimal_Z_length z Hz) as Hl.
  rewrite (proj2 (Nat.ltb_ge _ _)) by (etrans; [exact Hl|]; apply (Nat.leb_le 20 4300); reflexivity).
  by rewrite String.eqb_refl.
Qed.

(** A continuation resumes where it was issued. *)
Lemma resume_continuation sel start_ns end_ns t i :
  unseals (pin s sel start_ns end_ns) → 0 ≤ t < 2 ^ 64 → 0 ≤ i < 2 ^ 64 → start_ns ≤ t < end_ns →
  resume unseal (continuation seal (pin s sel start_ns end_ns) t i)
    (pin s sel start_ns end_ns) start_ns end_ns = Ok (t, i).
Proof using Type.
  intros Hu Ht Hi Hin. unfold resume. rewrite Hu by lia. unfold body_of.
  set (p := pin s sel start_ns end_ns). set (d := p ++ _).
  assert (d.*1 = p.*1 ++ ["after"%string]) as Hk by (unfold d; by rewrite fmap_app).
  rewrite Hk, bool_decide_true by done. mcbn.
  assert (NoDup d.*1) as Hn.
  { rewrite Hk. apply (bool_decide_unpack _). vm_compute. exact I. }
  rewrite pin_mismatch_none.
  - rewrite (dget_elem d "after"%string
      (JArr [JStr (decimal_Z t); JStr (decimal_Z i)]) Hn)
      by (unfold d; apply elem_of_app; right; by apply list_elem_of_singleton).
    rewrite !parse_decimal_Z by done. mcbn.
    rewrite (proj2 (Z.leb_le _ _)), (proj2 (Z.ltb_lt _ _)) by lia. done.
  - apply Forall_forall. intros [k v] Hkv. cbn [fst snd]. split.
    + cbn [jget]. apply dget_elem; [done|]. apply elem_of_app. by left.
    + unfold p, pin in Hkv. rewrite !elem_of_cons in Hkv.
      destruct Hkv as [[= -> ->]|[[= -> ->]|[[= -> ->]|[[= -> ->]|[[= -> ->]|[[= -> ->]|[[= -> ->]|Hkv]]]]]]];
        [done|done|by apply String.eqb_refl| |by apply String.eqb_refl|by apply String.eqb_refl|done|].
      * rewrite (list_fmap_compose sc_name JStr). apply py_eq_strs.
      * by apply not_elem_of_nil in Hkv.
Qed.

(** A selection the Navigator accepts. *)
Definition selection_ok (chs : list string) : Prop :=
  chs ≠ [] ∧ NoDup chs ∧ chs ⊆ sc_name <$> so_channels s.

Lemma count_of_NoDup l n : NoDup l → (count_of l n ≤ 1)%nat.
Proof using Type.
  unfold count_of. induction 1 as [|x l Hx _ IH]; [cbn; lia|]. rewrite filter_cons. case_decide; [|done].
  subst. rewrite filter_none; [cbn; lia|]. apply Forall_forall. by intros y Hy ->.
Qed.

Lemma select_ok chs :
  selection_ok chs →
  select_channels (so_channels s) (Some chs) = Ok (filter (λ c, sc_name c ∈ chs) (so_channels s)).
Proof using Type.
  intros (Hne & Hnd & Hsub). unfold select_channels. rewrite (bool_decide_false (chs = [])) by done. mcbn.
  assert (filter (λ n, (1 < count_of chs n)%nat) chs = []) as ->.
  { apply filter_none, Forall_forall. intros n _. pose proof (count_of_NoDup chs n Hnd). lia. }
  mcbn. rewrite bool_decide_true by done. mcbn.
  assert (filter (λ n, n ∉ (sc_name <$> so_channels s)) chs = []) as ->; [|done].
  apply filter_none, Forall_forall. intros n Hn Hno. by apply Hno, Hsub.
Qed.

(** ** Pages against the specification *)

(** The request is in range, and the source has not changed. *)
Definition request_ok (chs : list string) (start_ns end_ns : Z) (pl : page_limits) : Prop :=
  selection_ok chs ∧ 0 ≤ start_ns ≤ end_ns ∧ end_ns ≤ TIME_LIMIT ∧ limits_ok pl.

(** The position a request starts after. *)
Definition start_position (start_ns : Z) (after : option (Z * Z)) : Z * Z :=
  default (start_ns, -1) after.

Definition token_of (chs : list string) (start_ns end_ns : Z) (after : option (Z * Z))
    : option string :=
  (λ a, continuation seal (pin s (filter (λ c, sc_name c ∈ chs) (so_channels s)) start_ns end_ns) a.1 a.2)
    <$> after.

Definition after_ok (start_ns end_ns : Z) (after : option (Z * Z)) : Prop :=
  ∀ a, after = Some a → start_ns ≤ a.1 < end_ns ∧ 0 ≤ a.2 < TIME_SHIFT.

Lemma check_same : lift_source (check_unchanged s (so_identity s)) = Ok ().
Proof using Type. unfold check_unchanged. by rewrite bool_decide_true. Qed.

Lemma last_key_token chs start_ns end_ns ms m :
  last ms = Some m →
  Some (continuation seal (pin s (filter (λ c, sc_name c ∈ chs) (so_channels s)) start_ns end_ns)
    (sm_time m) (sm_index m)) = token_of chs start_ns end_ns (msg_key <$> last ms).
Proof using Type. by intros ->. Qed.

(** The rows of a request, and those of them that a page takes. *)
Lemma page_rows src chs start_ns end_ns after pl :
  catalog_ok s ids ix → index_shows src → request_ok chs start_ns end_ns pl →
  after_ok start_ns end_ns after →
  let sel := filter (λ c, sc_name c ∈ chs) (so_channels s) in
  let ms := matching src chs (start_position start_ns after) end_ns in
  let pos := start_position start_ns after in
  ∃ rows, (if start_ns =? end_ns then Ok []
           else raise: NOverflow if: (TIME_SHIFT <=? pos.2) || (TIME_SHIFT <=? pl_max_rows pl + 1);;
                Ok (rows_after ix ids (so_channels s) sel pos (end_ns - 1)
                      (S (Z.to_nat (pl_max_rows pl))))) = Ok rows
    ∧ Forall2 shows rows (take (S (Z.to_nat (pl_max_rows pl))) ms).
Proof using Type.
  intros Hc Hs (Hsel & Hse & _ & Hpl) Ha. cbn zeta.
  destruct (Z.eqb_spec start_ns end_ns) as [->|Hne]; eexists; (split; [|]).
  - done.
  - assert (matching src chs (start_position end_ns after) end_ns = []) as ->; [|constructor].
    apply filter_none, Forall_forall. intros m _ (_ & Hk & Ht).
    destruct after as [a|]; cbn in Hk; unfold key_lt, msg_key in Hk; cbn in Hk.
    + destruct (Ha a eq_refl). lia.
    + lia.
  - rewrite !(proj2 (Z.leb_gt _ _)); [done|destruct Hpl; lia|].
    destruct after as [a|]; [by apply (Ha a)|done].
  - rewrite rows_after_wanted by (try done; apply Hsel). apply Forall2_take. by apply wanted_matching.
Qed.

(** The pin of a request. *)
Definition request_pin (chs : list string) (start_ns end_ns : Z) : list (string * json) :=
  pin s (filter (λ c, sc_name c ∈ chs) (so_channels s)) start_ns end_ns.

Lemma token_position chs start_ns end_ns after :
  unseals (request_pin chs start_ns end_ns) → 0 ≤ start_ns → end_ns ≤ TIME_LIMIT → after_ok start_ns end_ns after →
  match token_of chs start_ns end_ns after with
  | None => Ok (start_ns, -1)
  | Some token =>
      resume unseal token (pin s (filter (λ c, sc_name c ∈ chs) (so_channels s)) start_ns end_ns)
        start_ns end_ns
  end = Ok (start_position start_ns after).
Proof using Type.
  intros Hu H0 Hend Ha. destruct after as [[t i]|]; [|done]. destruct (Ha (t, i) eq_refl) as [Ht Hi].
  unfold TIME_LIMIT, TIME_SHIFT in *. cbn [fst snd] in Ht, Hi. apply resume_continuation; cbn [fst snd]; (done || lia).
Qed.

(** The end of [messages], from the rows on, when the source has not changed. *)
Lemma page_of_rows chs start_ns end_ns c rows ms pl :
  cache_ok c → 0 ≤ lm_chunk_cache_bytes lim → limits_ok pl →
  Forall2 shows rows (take (S (Z.to_nat (pl_max_rows pl))) ms) →
  let p := pin s (filter (λ c, sc_name c ∈ chs) (so_channels s)) start_ns end_ns in
  ∃ c', cache_ok c' ∧
    match (taken ← take_rows ids lim pl (take (Z.to_nat (pl_max_rows pl)) rows) [] 0;
           Ok (p, rows, taken)) with
    | Err e => (c, Err e)
    | Ok (p, rows, taken) =>
        let '(c', ms) := messages_of zstd lz4 f ids lim c taken in
        (c', ms ← ms;
             if decide (length taken = length rows) then Ok (mk_page ms None true)
             else match last ms with
                  | Some m => Ok (mk_page ms (Some (continuation seal p (sm_time m) (sm_index m))) false)
                  | None => Err NCorrupt
                  end)
    end
    = (c', match page_of (lm_max_message_bytes lim) pl ms with
           | Err r => Err (NLimit (Some r))
           | Ok (ms, complete) =>
               Ok (mk_page ms (if complete then None
                               else token_of chs start_ns end_ns (msg_key <$> last ms)) complete)
           end).
Proof using Type.
  intros Hk Hl Hpl Hrows p. set (n := Z.to_nat (pl_max_rows pl)) in *.
  assert (Forall2 shows (take n rows) (take n ms)) as Hn.
  { replace (take n ms) with (take n (take (S n) ms)) by (rewrite take_take; f_equal; lia).
    by apply Forall2_take. }
  rewrite (take_rows_fill _ _ _ _ _ Hn) by done. set (mx := lm_max_message_bytes lim) in *.
  destruct ms as [|m ms].
  { rewrite take_nil in Hrows. inversion Hrows; subst. rewrite take_nil. cbn [app mbind result_bind].
    exists c. split; [done|]. cbn [messages_of take fill length]. done. }
  assert (n ≠ 0)%nat as Hn0 by (destruct Hpl; lia).
  unfold page_of. fold n. clearbody n. destruct n as [|n]; [done|]. cbn [take].
  destruct (oversize mx pl m) eqn:Ho; [by exists c|].
  change (m :: take n ms) with (take (S n) (m :: ms)) in *.
  set (F := fill mx pl (take (S n) (m :: ms)) 0). cbn [app mbind result_bind].
  assert (F `prefix_of` take (S n) (m :: ms)) as Hp by apply fill_prefix.
  assert (take (length F) (take (S n) (m :: ms)) = F) as HF
    by (destruct Hp as [z Hz]; rewrite Hz; apply take_app_length).
  set (T := take (length F) (take (S n) rows)).
  pose proof (Forall2_take _ _ _ (length F) Hn) as HT. rewrite HF in HT. fold T in HT.
  destruct (messages_of_shown c T F Hk Hl HT (fill_sizes _ _ _ _)) as [Hc' Hm].
  destruct (messages_of _ _ _ _ _ _ _) as [c' r]. cbn [fst snd] in Hc', Hm. subst r.
  exists c'. split; [done|]. cbn [mbind result_bind]. f_equal.
  pose proof (Forall2_length _ _ _ HT) as HlT. pose proof (Forall2_length _ _ _ Hrows) as Hlr.
  pose proof (prefix_length _ _ Hp) as HlF. rewrite length_take in Hlr, HlF.
  destruct (decide (length T = length rows)) as [E|E].
  - by rewrite bool_decide_true by lia.
  - rewrite bool_decide_false by lia. destruct (last F) as [z|] eqn:Hz; [done|].
    apply last_None in Hz. unfold F in Hz. cbn [take fill] in Hz. rewrite Ho in Hz.
    apply Z.ltb_ge in Ho. rewrite (proj2 (Z.ltb_ge _ _)) in Hz by lia. done.
Qed.

(** [messages] gives the page of the specification, and keeps the cache
    bounded. *)
Lemma messages_spec src c chs start_ns end_ns after pl :
  catalog_ok s ids ix → index_shows src → cache_ok c → 0 ≤ lm_chunk_cache_bytes lim →
  unseals (request_pin chs start_ns end_ns) → request_ok chs start_ns end_ns pl → after_ok start_ns end_ns after →
  ∃ c', cache_ok c' ∧
    messages zstd lz4 seal unseal s f ids ix lim c (Some chs) start_ns end_ns
      (token_of chs start_ns end_ns after) pl (so_identity s) (so_identity s)
    = (c', match page_of (lm_max_message_bytes lim) pl
                   (matching src chs (start_position start_ns after) end_ns) with
           | Err r => Err (NLimit (Some r))
           | Ok (ms, complete) =>
               Ok (mk_page ms (if complete then None
                               else token_of chs start_ns end_ns (msg_key <$> last ms)) complete)
           end).
Proof using Type.
  intros Hc Hs Hk Hl Hu Hreq Ha. pose proof Hreq as (Hsel & Hse & Hend & Hpl).
  destruct (page_rows src chs start_ns end_ns after pl Hc Hs Hreq Ha) as (rows & Erows & Hrows).
  unfold messages. rewrite select_ok by done. cbn [lift_source]. mcbn. unfold require_time.
  rewrite !(proj2 (in_range_true _ _ _)) by (unfold TIME_LIMIT in *; lia). mcbn.
  rewrite (proj2 (Z.ltb_ge _ _)) by lia. mcbn.
  rewrite token_position by (done || lia). mcbn. rewrite check_same. mcbn.
  rewrite Erows. mcbn. eapply page_of_rows; eauto.
Qed.

(** ** Snapshots *)

(** The latest Message of a Channel at or before a time. *)
Definition latest (src : list source_message) (ch : string) (time_ns : Z) : option source_message :=
  last (filter (λ m, sm_channel m = ch ∧ sm_time m ≤ time_ns) src).

Lemma Forall2_last {A B} (R : A → B → Prop) l k :
  Forall2 R l k → match last l, last k with
                  | Some x, Some y => R x y
                  | None, None => True
                  | _, _ => False
                  end.
Proof using Type.
  intros H. rewrite !last_lookup, (Forall2_length _ _ _ H).
  destruct (k !! pred (length k)) as [y|] eqn:Hy.
  - by destruct (Forall2_lookup_r _ _ _ _ _ H Hy) as (x & -> & ?).
  - destruct (l !! pred (length k)) as [x|] eqn:Hx; [|done].
    by destruct (Forall2_lookup_l _ _ _ _ _ H Hx) as (y & E & _); rewrite Hy in E.
Qed.

Lemma latest_row_shown src c time_ns :
  catalog_ok s ids ix → index_shows src → c ∈ so_channels s →
  match latest_row ix (default (-1) (dget ids (sc_name c))) time_ns, latest src (sc_name c) time_ns with
  | Some r, Some m => shows r m
  | None, None => True
  | _, _ => False
  end.
Proof using Type.
  intros Hc Hs Hin. unfold latest_row, latest, rows_of.
  rewrite list_filter_filter, sort_filter by apply (co_distinct _ _ _ Hc).
  apply Forall2_last, Forall2_filter_both; [done|].
  intros r m Hr (_ & Hn & Ht & _).
  assert (r ∈ ix_rows ix) as Hri by by rewrite <- (sort_perm (ix_rows ix)).
  rewrite (channel_of_id s ids ix c r Hc Hin Hri). unfold channel_of. rewrite Hn. cbn.
  rewrite <- Ht. split; intros [? ?]; split; (done || lia).
Qed.

Lemma filter_one (l : list source_channel) c :
  NoDup (sc_name <$> l) → c ∈ l → filter (λ d, sc_name d ∈ [sc_name c]) l = [c].
Proof using Type.
  induction l as [|d l IH]; intros Hn Hc; [by apply not_elem_of_nil in Hc|].
  rewrite fmap_cons in Hn. apply NoDup_cons in Hn as [Hd Hn]. rewrite filter_cons.
  apply elem_of_cons in Hc as [->|Hc].
  - rewrite decide_True by (by apply list_elem_of_singleton). rewrite filter_none; [done|].
    apply Forall_forall. intros e He E%list_elem_of_singleton. apply Hd. rewrite <- E.
    apply list_elem_of_fmap. eauto.
  - rewrite decide_False; [by apply IH|]. intros E%list_elem_of_singleton. apply Hd. rewrite E.
    apply list_elem_of_fmap. eauto.
Qed.

(** A snapshot of one Channel. *)
Lemma snapshot_spec src c ch time_ns :
  catalog_ok s ids ix → index_shows src → cache_ok c → 0 ≤ lm_chunk_cache_bytes lim →
  ch ∈ sc_name <$> so_channels s → 0 ≤ time_ns < TIME_LIMIT →
  ∃ c', cache_ok c' ∧
    snapshot zstd lz4 s f ids ix lim c (Some [ch]) time_ns (so_identity s) (so_identity s)
    = (c', match latest src ch time_ns with
           | None => Ok [(ch, None)]
           | Some m => if lm_max_message_bytes lim <? zlen (sm_data m)
                       then Err (NLimit (Some (refusal_of m))) else Ok [(ch, Some m)]
           end).
Proof using Type.
  intros Hc Hs Hk Hl Hch Ht. unfold snapshot.
  apply list_elem_of_fmap in Hch as (sc & -> & Hsc).
  rewrite select_ok; cycle 1.
  { split_and!; [done|apply NoDup_singleton|]. intros x ->%list_elem_of_singleton.
    apply list_elem_of_fmap. eauto. }
  cbn [lift_source]. mcbn. unfold require_time.
  rewrite (proj2 (in_range_true _ _ _)) by (unfold TIME_LIMIT in *; lia). mcbn.
  rewrite check_same. mcbn. rewrite (filter_one _ _ (co_names _ _ _ Hc) Hsc). cbn [snapshot_rows].
  pose proof (latest_row_shown src sc time_ns Hc Hs Hsc) as Hlat.
  destruct (latest_row _ _ _) as [r|], (latest src (sc_name sc) time_ns) as [m|]; try done.
  - destruct (message_of_direct c r Hk Hl) as [H1 H2].
    destruct (message_of _ _ _ _ _ _ _) as [c1 m1]. cbn [fst snd] in H1, H2. exists c1.
    destruct Hlat as (Hi & Hn & Htm & Hsz & Hd). subst m1. split; [done|].
    destruct (Z.ltb_spec (lm_max_message_bytes lim) (zlen (sm_data m))) as [Hgt|Hle].
    + unfold message_direct. rewrite (proj2 (Z.ltb_lt _ _)) by lia. cbn [mbind result_bind].
      unfold refused_row. rewrite Hn. cbn. unfold refusal_of. by rewrite Hi, Htm, Hsz.
    + rewrite Hd by lia. done.
  - by exists c.
Qed.

(** A source that changes makes a call fail, or not matter. *)
Lemma check_changed now :
  lift_source (check_unchanged s now) = (Ok () : result nav_error ())
  ∨ lift_source (check_unchanged s now) = (Err (NSource SourceChanged) : result nav_error ()).
Proof using Type. unfold check_unchanged. destruct (bool_decide _); [by left|by right]. Qed.

Lemma messages_changes c channels start_ns end_ns token pl before behind :
  let same := messages zstd lz4 seal unseal s f ids ix lim c channels start_ns end_ns token pl
                (so_identity s) (so_identity s) in
  let now := messages zstd lz4 seal unseal s f ids ix lim c channels start_ns end_ns token pl
               before behind in
  now = same ∨ (now.2 = Err (NSource SourceChanged) ∧ (now.1 = c ∨ now.1 = same.1)).
Proof using Type.
  cbn zeta. unfold messages. rewrite !check_same.
  destruct (lift_source (select_channels _ _)) as [sel|e]; [|by left]. mcbn.
  destruct (require_time "start_ns" _ _) as [[]|e]; [|by left]. mcbn.
  destruct (require_time "end_ns" _ _) as [[]|e]; [|by left]. mcbn.
  destruct (end_ns <? start_ns); [by left|]. mcbn.
  destruct (match token with None => _ | Some _ => _ end) as [after|e]; [|by left]. mcbn.
  destruct (check_changed before) as [-> | ->]; mcbn; [|right; by split; [|left]].
  destruct (if start_ns =? end_ns then _ else _) as [rows|e]; [|by left]. mcbn.
  destruct (take_rows _ _ _ _ _ _) as [taken|e]; [|by left]. mcbn.
  destruct (messages_of _ _ _ _ _ _ _) as [c' [ms|e]]; [|by left]. mcbn.
  destruct (check_changed behind) as [-> | ->]; mcbn; [by left|right; by split; [|right]].
Qed.

Lemma snapshot_changes c channels time_ns before behind :
  let same := snapshot zstd lz4 s f ids ix lim c channels time_ns (so_identity s) (so_identity s) in
  let now := snapshot zstd lz4 s f ids ix lim c channels time_ns before behind in
  now = same ∨ (now.2 = Err (NSource SourceChanged) ∧ (now.1 = c ∨ now.1 = same.1)).
Proof using Type.
  cbn zeta. unfold snapshot. rewrite !check_same.
  destruct (lift_source (select_channels _ _)) as [sel|e]; [|by left]. mcbn.
  destruct (require_time "time_ns" _ _) as [[]|e]; [|by left]. mcbn.
  destruct (check_changed before) as [-> | ->]; mcbn; [|right; by split; [|left]].
  destruct (snapshot_rows _ _ _ _ _ _ _ _ _) as [c' [r|e]]; [|by left]. mcbn.
  destruct (check_changed behind) as [-> | ->]; mcbn; [by left|right; by split; [|right]].
Qed.

(** ** Following continuations *)

(** Read pages until one is complete. *)
Fixpoint read_all (fuel : nat) (c : cache) (chs : list string) (start_ns end_ns : Z)
    (token : option string) (pl : page_limits) : option (result nav_error (list source_message)) :=
  match fuel with
  | O => None
  | S fuel =>
      let '(c', r) := messages zstd lz4 seal unseal s f ids ix lim c (Some chs) start_ns end_ns
                        token pl (so_identity s) (so_identity s) in
      match r with
      | Err e => Some (Err e)
      | Ok pg =>
          if pg_complete pg then Some (Ok (pg_messages pg))
          else rest ← read_all fuel c' chs start_ns end_ns (pg_continuation pg) pl;
               Some (ms ← rest; Ok (pg_messages pg ++ ms))
      end
  end.
End navigator_facts.

Definition msg_lt (a b : source_message) : Prop := key_lt (msg_key a) (msg_key b).

Lemma key_lt_trans a b c : key_lt a b → key_lt b c → key_lt a c.
Proof. unfold key_lt. destruct a, b, c. cbn. lia. Qed.
Lemma key_lt_irrefl a : ¬ key_lt a a.
Proof. unfold key_lt. lia. Qed.

(** What follows the last Message taken is what was not taken. *)
Lemma matching_after src chs after end_ns taken rest m :
  StronglySorted msg_lt src → matching src chs after end_ns = taken ++ rest → last taken = Some m →
  matching src chs (msg_key m) end_ns = rest.
Proof.
  intros Hs Hm Hl.
  assert (StronglySorted msg_lt (taken ++ rest)) as Hst by (rewrite <- Hm; by apply sorted_filter).
  apply last_Some in Hl as [pre ->].
  assert (m ∈ matching src chs after end_ns) as ((_ & Ha & _) & _)%list_elem_of_filter.
  { rewrite Hm. set_solver. }
  assert (matching src chs (msg_key m) end_ns
          = filter (λ x, key_lt (msg_key m) (msg_key x)) (matching src chs after end_ns)) as ->.
  { unfold matching. rewrite list_filter_filter. apply filter_ext_in. intros x _.
    pose proof (key_lt_trans after (msg_key m) (msg_key x) Ha). tauto. }
  rewrite Hm, filter_app, filter_none, filter_all; [done|..].
  - apply Forall_forall. intros x Hx. rewrite <- app_assoc in Hst. clear Hm.
    induction pre as [|y pre IH]; cbn in Hst; inversion Hst as [|? ? Hs1 Hs2]; subst; [|auto].
    by apply (proj1 (Forall_forall _ _) Hs2).
  - apply Forall_forall. intros x Hx Hlt. apply elem_of_app in Hx as [Hx| ->%list_elem_of_singleton];
      [|by eapply key_lt_irrefl].
    apply (key_lt_irrefl (msg_key x)). eapply key_lt_trans; [|exact Hlt].
    clear -Hx Hst. rewrite <- app_assoc in Hst. induction pre as [|y pre IH]; [by apply not_elem_of_nil in Hx|].
    cbn in Hst. inversion Hst as [|? ? Hs1 Hs2]; subst. apply elem_of_cons in Hx as [->|Hx]; [|auto].
    apply (proj1 (Forall_forall _ _) Hs2). set_solver.
Qed.

(** Distinct rows in order show strictly increasing Messages. *)
Lemma index_shows_sorted zstd lz4 f ids ix lim src :
  distinct (ix_rows ix) → index_shows zstd lz4 f ids ix lim src → StronglySorted msg_lt src.
Proof.
  intros Hd Hs. pose proof (sort_sorted (ix_rows ix)) as Hsort.
  assert (distinct (merge_sort row_le (ix_rows ix))) as Hd' by (eapply distinct_perm; [apply sort_perm|done]).
  unfold index_shows in Hs. induction Hs as [|r m rows ms Hrm Hrest IH]; [constructor|].
  inversion Hsort as [|? ? Hs1 Hs2]; subst. apply NoDup_cons in Hd' as [Hr Hd'].
  constructor; [by apply IH|]. apply Forall_forall. intros m' [i Hi]%list_elem_of_lookup.
  destruct (Forall2_lookup_r _ _ _ _ _ Hrest Hi) as (r' & Hr' & Hrm').
  apply list_elem_of_lookup_2 in Hr'. pose proof (proj1 (Forall_forall _ _) Hs2 _ Hr') as Hle.
  assert (rw_index r ≠ rw_index r') as Hne.
  { intros E. apply Hr. rewrite E. apply list_elem_of_fmap. eauto. }
  destruct Hrm as (Hi1 & _ & Ht1 & _), Hrm' as (Hi2 & _ & Ht2 & _).
  unfold msg_lt, key_lt, msg_key, row_le, key_le, row_key in *. cbn in *. lia.
Qed.

Section reading.
Context (zstd lz4 : bytes → Z → option bytes).
Context (seal : json → string) (unseal : string → option json).
Context (s : source) (f : bytes) (ids : list (string * Z)) (ix : index) (lim : limits).
Context (Hcat : catalog_ok s ids ix) (Hlim : 0 ≤ lm_chunk_cache_bytes lim).

Lemma read_all_from src c chs start_ns end_ns after pl fuel :
  index_shows zstd lz4 f ids ix lim src → cache_ok zstd lz4 f lim c →
  Forall (λ m, 0 ≤ sm_index m < TIME_SHIFT ∧ 0 ≤ sm_time m) src →
  unseals seal unseal (request_pin s chs start_ns end_ns) →
  request_ok s chs start_ns end_ns pl → after_ok start_ns end_ns after →
  let ms := matching src chs (start_position start_ns after) end_ns in
  Forall (λ m, oversize (lm_max_message_bytes lim) pl m = false) ms →
  (length ms < fuel)%nat →
  read_all zstd lz4 seal unseal s f ids ix lim fuel c chs start_ns end_ns
    (token_of seal s chs start_ns end_ns after) pl = Some (Ok ms).
Proof using Hcat Hlim.
  intros Hs Hc Hpos Hu Hreq Ha. pose proof (index_shows_sorted _ _ _ _ _ _ _ (co_distinct _ _ _ Hcat) Hs) as Hsort.
  pose proof Hreq as (_ & Hse & _ & Hpl).
  revert c after Hc Ha. induction fuel as [|fuel IH]; intros c after Hc Ha ms Hfit Hfuel; [lia|].
  cbn [read_all].
  destruct (messages_spec zstd lz4 seal unseal s f ids ix lim src c chs start_ns end_ns after pl)
    as (c' & Hc' & ->); try done. fold ms.
  assert (∃ taken complete, page_of (lm_max_message_bytes lim) pl ms = Ok (taken, complete))
    as (taken & complete & Hp).
  { unfold page_of. destruct ms as [|m ms'] eqn:Em; [eauto|].
    inversion Hfit as [|? ? Hm _]; subst. rewrite Hm. eauto. }
  rewrite Hp. destruct (page_of_progress _ _ _ _ _ Hpl Hp) as ([rest Hrest] & Hcomp & Hne).
  cbn [pg_complete pg_messages pg_continuation]. destruct complete; [by rewrite Hcomp|].
  assert (ms ≠ []) as Hms.
  { intros E. rewrite E in Hp. by injection Hp. }
  destruct (last taken) as [m|] eqn:Hl; [|by apply last_None in Hl; destruct Hne].
  assert (m ∈ ms) as Hin.
  { rewrite Hrest. apply last_Some in Hl as [pre ->]. set_solver. }
  unfold ms, matching in Hin. apply list_elem_of_filter in Hin as ((_ & Hk & Ht) & Hsrc).
  pose proof (proj1 (Forall_forall _ _) Hpos _ Hsrc) as [Hi0 Ht0].
  assert (start_ns ≤ sm_time m) as Hst.
  { destruct after as [a|]; unfold key_lt, start_position in Hk; cbn in Hk;
      [destruct (Ha a eq_refl)|]; lia. }
  assert (matching src chs (start_position start_ns (Some (msg_key m))) end_ns = rest) as Hm.
  { by eapply matching_after. }
  cbn [fmap option_fmap option_map]. rewrite IH.
  - rewrite Hm, Hrest. reflexivity.
  - done.
  - intros a [= <-]. cbn. lia.
  - rewrite Hm. rewrite Hrest in Hfit. by apply Forall_app in Hfit as [_ ?].
  - rewrite Hm. rewrite Hrest, length_app in Hfuel. destruct taken; [done|]. cbn in Hfuel. lia.
Qed.
End reading.

(** ** Indexes built from a file *)

Definition msg_le (a b : source_message) : Prop := key_le (msg_key a) (msg_key b).
#[export] Instance msg_le_dec a b : Decision (msg_le a b).
Proof. unfold msg_le. apply _. Defined.
#[export] Instance msg_le_total : Total msg_le.
Proof. intros a b. apply key_le_total. Qed.
#[export] Instance msg_le_trans : Transitive msg_le.
Proof. intros a b c. apply key_le_trans. Qed.

(** Sorting lists in step keeps them in step, when related elements compare
    alike. *)
Section sort_related.
Context {A B : Type} (R : A → B → Prop) (leA : relation A) (leB : relation B).
Context `{!∀ x y, Decision (leA x y), !∀ x y, Decision (leB x y)}.
Context (Hle : ∀ x y x' y', R x y → R x' y' → leA x x' ↔ leB y y').

Lemma merge_related l1 k1 l2 k2 :
  Forall2 R l1 k1 → Forall2 R l2 k2 → Forall2 R (list_merge leA l1 l2) (list_merge leB k1 k2).
Proof using Hle.
  intros H1. revert l2 k2. induction H1 as [|x y l1 k1 Hxy H1 IH1]; intros l2 k2 H2.
  { by rewrite !list_merge_nil_l. }
  induction H2 as [|x' y' l2 k2 Hxy' H2 IH2]; [by rewrite !list_merge_nil_r; constructor|].
  rewrite !list_merge_cons. pose proof (Hle x y x' y' Hxy Hxy').
  destruct (decide (leA x x')), (decide (leB y y')); try tauto; constructor; try done.
  apply IH1. by constructor.
Qed.

Lemma to_stack_related st sk l k :
  Forall2 (option_Forall2 (Forall2 R)) st sk → Forall2 R l k →
  Forall2 (option_Forall2 (Forall2 R)) (merge_list_to_stack leA st l) (merge_list_to_stack leB sk k).
Proof using Hle.
  intros Hs. revert l k. induction Hs as [|o o' st sk Ho Hst IH]; intros l k Hlk; cbn.
  - constructor; [by constructor|constructor].
  - destruct Ho as [l' k' Hlk'|]; constructor; [constructor| |by constructor|done].
    apply IH. by apply merge_related.
Qed.

Lemma sort_related l k : Forall2 R l k → Forall2 R (merge_sort leA l) (merge_sort leB k).
Proof using Hle.
  unfold merge_sort. cut (∀ st sk, Forall2 (option_Forall2 (Forall2 R)) st sk → Forall2 R l k →
    Forall2 R (merge_sort_aux leA st l) (merge_sort_aux leB sk k)); [auto using Forall2_nil|].
  intros st sk Hst Hl. revert st sk Hst. induction Hl as [|x y l k Hxy Hl IH]; intros st sk Hst; cbn.
  - induction Hst as [|o o' st sk Ho Hst IH]; cbn; [constructor|].
    destruct Ho; [by apply merge_related|done].
  - apply IH. apply to_stack_related; [done|]. by repeat constructor.
Qed.
End sort_related.

Lemma last_index_seq (rows : list row) i :
  rw_index <$> rows = seqZ i (zlen rows) →
  last_index rows = match rows with [] => None | _ => Some (i + zlen rows - 1) end.
Proof.
  revert i. induction rows as [|r rows IH]; intros i H; [done|].
  rewrite zlen_cons in *. rewrite seqZ_cons in H by (pose proof (zlen_nonneg rows); lia).
  cbn [fmap list_fmap] in H. injection H as Hr H.
  replace (Z.pred (1 + zlen rows)) with (zlen rows) in H by lia.
  change (last_index (r :: rows)) with
    (Some (match last_index rows with Some j => Z.max (rw_index r) j | None => rw_index r end)).
  rewrite (IH _ H). destruct rows as [|r' rows]; [f_equal; unfold zlen; cbn [length]; lia|].
  rewrite zlen_cons. pose proof (zlen_nonneg rows). f_equal. lia.
Qed.

Section built.
Context (loads : bytes → option json) (sha256 : bytes → string).
Context (s : source) (sm : viz_summary).
Context (Hcat : read_catalog loads sha256 (Some sm) = Ok (so_channels s)).
Context (Hids : NoDup (vz_channels sm).*1).

Lemma channel_ids_topics :
  channel_ids sm = (λ c, (vc_topic c.2, c.1)) <$> vz_channels sm
  ∧ NoDup (channel_ids sm).*1 ∧ (channel_ids sm).*1 = sc_name <$> so_channels s.
Proof using Hcat.
  destruct (read_catalog_names _ _ _ _ Hcat) as [Hn Hd].
  assert (∀ l acc, NoDup (acc.*1 ++ ((λ c, vc_topic c.2) <$> l)) →
    foldl (λ d (c : Z * viz_channel), dset d (vc_topic c.2) c.1) acc l
    = acc ++ ((λ c, (vc_topic c.2, c.1)) <$> l)) as Hf.
  { induction l as [|c l IH]; intros acc Hnd; cbn; [by rewrite app_nil_r|].
    assert (dset acc (vc_topic c.2) c.1 = acc ++ [(vc_topic c.2, c.1)]) as ->.
    { apply dset_keys_new. apply NoDup_app in Hnd as (_ & Hnd & _). intros Hin.
      apply (Hnd _ Hin). by left. }
    rewrite IH, <- app_assoc; [done|]. by rewrite fmap_app, <- app_assoc. }
  assert (channel_ids sm = (λ c, (vc_topic c.2, c.1)) <$> vz_channels sm) as E.
  { unfold channel_ids. rewrite Hf; [done|]. cbn. by rewrite <- Hn. }
  assert ((channel_ids sm).*1 = sc_name <$> so_channels s) as E1.
  { rewrite E, <- list_fmap_compose. cbn. by rewrite Hn. }
  split_and!; [done| |done]. by rewrite E1.
Qed.

Lemma channel_ids_inj n m i :
  dget (channel_ids sm) n = Some i → dget (channel_ids sm) m = Some i → n = m.
Proof using Hcat Hids.
  destruct channel_ids_topics as (-> & _ & _).
  intros ([c1 c] & [= -> ->] & [a Ha]%list_elem_of_lookup)%dget_Some%list_elem_of_fmap
         ([d1 d] & [= -> ->] & [b Hb]%list_elem_of_lookup)%dget_Some%list_elem_of_fmap.
  assert (a = b) as ->; [|congruence].
  eapply NoDup_lookup; [exact Hids|rewrite list_lookup_fmap, Ha; done|].
  by rewrite list_lookup_fmap, Hb.
Qed.

(** Every size is that of a Channel of the source. *)
Lemma payload_sizes_channel sizes i :
  payload_sizes (so_channels s) (channel_ids sm) = Ok sizes → is_Some (dget sizes i) →
  ∃ c, c ∈ so_channels s ∧ dget (channel_ids sm) (sc_name c) = Some i.
Proof using Type.
  unfold payload_sizes. intros H.
  cut (∀ l acc out, foldE (λ sizes c,
      match dget (channel_ids sm) (sc_name c), checked_fields (sc_schema c) with
      | Some i, Ok fs => Ok (dset sizes i (Z.of_nat (mt_size fs)))
      | Some _, Err UnhashableType => Err NType
      | _, _ => Err (NSource Unreadable)
      end) acc l = Ok out → is_Some (dget out i) →
    is_Some (dget acc i) ∨ ∃ c, c ∈ l ∧ dget (channel_ids sm) (sc_name c) = Some i).
  { intros Hc Hi. destruct (Hc _ _ _ H Hi) as [[? ?]|?]; done. }
  clear H. induction l as [|c l IH]; intros acc out; cbn [foldE].
  { intros [= <-]. by left. }
  intros (acc1 & H1 & H2)%bind_Ok Hi. destruct (dget (channel_ids sm) (sc_name c)) as [j|] eqn:Hj; [|done].
  destruct (checked_fields (sc_schema c)) as [fs|[]]; try done. injection H1 as <-.
  destruct (IH _ _ H2 Hi) as [Ha|(d & Hd & E)]; [|right; exists d; split; [by right|done]].
  destruct (decide (j = i)) as [->|Hne]; [right; exists c; split; [by left|done]|].
  left. by rewrite dget_dset_ne in Ha.
Qed.

(** The rows of a built index are the located Messages, in order. *)
Lemma build_rows batches now ix :
  build s (channel_ids sm) ((λ b, (false, b)) <$> batches) None false now = Ok ix →
  ix_rows ix = row_of <$> concat batches
  ∧ Forall (λ l, ∃ c, c ∈ so_channels s ∧ dget (channel_ids sm) (sc_name c) = Some (loc_channel_id l))
      (concat batches).
Proof using Type.
  unfold build, insert_locations. intros (rows & (sizes & Hsz & Hf)%bind_Ok & H)%bind_Ok.
  destruct (write_catalog _ _ _ _) as [ix'|] eqn:Hw; [|done]. inv_ok.
  unfold write_catalog in Hw. destruct (mapM _ _); [|done]. injection Hw as <-. cbn [ix_rows].
  cut (∀ acc, foldE (insert_batch sizes) acc ((λ b, (false, b)) <$> batches) = Ok rows →
    rows = acc ++ (row_of <$> concat batches)
    ∧ Forall (λ l, is_Some (dget sizes (loc_channel_id l))) (concat batches)).
  { intros Hc. destruct (Hc _ Hok1) as [-> Hall]. split; [done|]. eapply Forall_impl; [exact Hall|].
    intros loc. by apply payload_sizes_channel. }
  clear Hok1. induction batches as [|b batches IH]; intros acc; cbn [fmap list_fmap foldE].
  { intros [= <-]. by rewrite app_nil_r. }
  intros (acc1 & Hb & Hrest)%bind_Ok. destruct (IH _ Hrest) as [-> Hall].
  unfold insert_batch in Hb. cbn [fst snd] in Hb. inv_ok.
  cbn [concat]. rewrite fmap_app, <- app_assoc. split; [done|]. apply Forall_app. split; [|done].
  match goal with H : foldE _ () b = Ok ?u |- _ => destruct u; apply foldE_unit in H as Hl end.
  eapply Forall_impl; [exact Hl|]. intros loc H1. unfold check_payload_size in H1.
  by destruct (dget sizes (loc_channel_id loc)).
Qed.

Context (zstd lz4 : bytes → Z → option bytes) (f : bytes) (lim : limits).

(** A stored Message with the topic of its channel. *)
Definition named (x : Z * location * option bytes) : source_message :=
  mk_source_message (loc_record_index x.1.2)
    (default "" (dget (names (channel_ids sm)) (loc_channel_id x.1.2)))
    (loc_log_time x.1.2) (default [] x.2).

(** A row of a readable Message shows it. *)
Lemma readable_shows x :
  readable zstd lz4 f (lm_max_decoded_bytes lim) x →
  is_Some (dget (names (channel_ids sm)) (loc_channel_id x.1.2)) →
  shows zstd lz4 f (channel_ids sm) lim (row_of x.1.2) (named x).
Proof using Type.
  destruct x as [[e l] p]. unfold readable, shows, named, row_of. cbn [fst snd]. intros Hr [name Hn].
  rewrite Hn. cbn [default from_option id rw_index rw_channel rw_time rw_size sm_index sm_channel
                   sm_time sm_data].
  unfold message_direct, check_found. cbn [rw_index rw_channel rw_time rw_chunk rw_offset rw_size].
  destruct (decide (loc_chunk_offset l = -1)) as [->|Hne].
  - destruct Hr as (d & -> & Hz & Hread). cbn [default from_option id]. split_and!; [done|done|lia|done|].
    intros Hle. rewrite (proj2 (Z.ltb_ge _ _)) by lia. cbn [Z.ltb Z.compare]. rewrite Hread by done.
    rewrite !bool_decide_true by lia. cbn [andb]. by rewrite Hn.
  - destruct Hr as (Hpos & records & d & -> & Hz & Hc & Hm). cbn [default from_option id].
    split_and!; [done|done|lia|done|]. intros Hle.
    rewrite !(proj2 (Z.ltb_ge _ _)) by lia. rewrite Hc. cbn [mbind result_bind]. rewrite Hm.
    rewrite !bool_decide_true by lia. cbn [andb]. by rewrite Hn.
Qed.

Context (out : list (Z * location * option bytes)) (batch_size : nat) (ix : index).
Context (Hscan : scan zstd lz4 f (lm_max_decoded_bytes lim) true = (out, None)).
Context (Hbatch : (0 < batch_size)%nat).

(** The batches [locate_messages] gives. *)
Definition located : list (list location) :=
  (locate_batches batch_size (scan zstd lz4 f (lm_max_decoded_bytes lim) false).1).*2.

Context (Hbuild : build s (channel_ids sm) ((λ b, (false, b)) <$> located) None false (so_identity s) = Ok ix).

Lemma built_rows :
  ix_rows ix = (λ x, row_of x.1.2) <$> out
  ∧ ∀ x, x ∈ out → ∃ c, c ∈ so_channels s ∧ dget (channel_ids sm) (sc_name c) = Some (loc_channel_id x.1.2).
Proof using Hbatch Hbuild Hscan.
  destruct (build_rows _ _ _ Hbuild) as [Hr Hall].
  assert (concat located = (λ x, x.1.2) <$> out) as E by (by eapply locate_messages_batches).
  rewrite E in Hr, Hall. split; [by rewrite Hr, <- list_fmap_compose|].
  intros x Hx. rewrite Forall_fmap, Forall_forall in Hall. by apply Hall.
Qed.

Lemma built_distinct : distinct (ix_rows ix).
Proof using Hbatch Hbuild Hscan.
  destruct built_rows as [-> _]. unfold distinct. rewrite <- list_fmap_compose.
  destruct (scan_located zstd lz4 f (lm_max_decoded_bytes lim)) as [Hi _]. rewrite Hscan in Hi.
  cbn [fst] in Hi. change (NoDup ((λ x, loc_record_index x.1.2) <$> out)). rewrite Hi. apply NoDup_seqZ.
Qed.

Lemma built_catalog : catalog_ok s (channel_ids sm) ix.
Proof using Hbatch Hbuild Hcat Hids Hscan.
  destruct (channel_ids_topics) as (_ & Hk & Hn). destruct built_rows as [Hr Hall].
  split; [by apply (read_catalog_names _ _ _ _ Hcat)| |done|apply channel_ids_inj| |apply built_distinct].
  - intros c Hc. apply dget_is_Some. rewrite Hn. apply list_elem_of_fmap. eauto.
  - intros r. rewrite Hr. intros (x & -> & Hx)%list_elem_of_fmap. by apply Hall.
Qed.

(** The index shows the stored Messages, in publication order. *)
Lemma built_shows :
  index_shows zstd lz4 f (channel_ids sm) ix lim (merge_sort msg_le (named <$> out)).
Proof using Hbatch Hbuild Hcat Hids Hscan.
  unfold index_shows. apply sort_related.
  - intros r m r' m' (Hi & _ & Ht & _) (Hi' & _ & Ht' & _).
    unfold row_le, msg_le, key_le, row_key, msg_key. cbn. lia.
  - destruct built_rows as [-> Hall].
    destruct (scan_located zstd lz4 f (lm_max_decoded_bytes lim)) as [_ Hr]. rewrite Hscan in Hr. cbn in Hr.
    apply Forall2_fmap, Forall_Forall2_diag, Forall_forall. intros x Hx.
    apply readable_shows; [by apply (proj1 (Forall_forall _ _) Hr)|].
    destruct (Hall x Hx) as (c & Hc & E). eexists.
    by apply (names_of s (channel_ids sm) ix _ _ built_catalog).
Qed.

Lemma message_head_time bs off c t : message_head bs off = (c, t) → 0 ≤ t.
Proof using Type. unfold message_head. intros [= _ <-]. apply uint_at_nonneg. Qed.

Lemma readable_time x : readable zstd lz4 f (lm_max_decoded_bytes lim) x → 0 ≤ loc_log_time x.1.2.
Proof using Type.
  destruct x as [[e l] p]. unfold readable. cbn [fst snd]. case_decide.
  - intros (d & _ & _ & H1). specialize (H1 (loc_size l) (Z.le_refl _)). unfold read_message in H1.
    apply bind_Ok in H1 as ([op len] & _ & H1). inv_ok.
    destruct (message_head _ 0) as [c t] eqn:Ht. apply message_head_time in Ht. inv_ok. by simplify_eq.
  - intros (_ & records & d & _ & _ & _ & H1). unfold message_in_chunk in H1. inv_ok.
    destruct (message_head _ _) as [c t] eqn:Ht. apply message_head_time in Ht. inv_ok. by simplify_eq.
Qed.

Lemma built_positions :
  zlen out < TIME_SHIFT → Forall (λ m, 0 ≤ sm_index m < TIME_SHIFT ∧ 0 ≤ sm_time m) (merge_sort msg_le (named <$> out)).
Proof using Hscan.
  clear Hbatch. intros Hmany. rewrite merge_sort_Permutation. apply Forall_fmap, Forall_forall. intros x Hx.
  destruct (scan_located zstd lz4 f (lm_max_decoded_bytes lim)) as [Hi Hr]. rewrite Hscan in Hi, Hr.
  cbn [fst] in Hi, Hr. split; [|apply readable_time; by apply (proj1 (Forall_forall _ _) Hr)].
  assert (loc_record_index x.1.2 ∈ seqZ 0 (zlen out)) as [? ?]%elem_of_seqZ; [|cbn [named sm_index]; lia].
  rewrite <- Hi. apply list_elem_of_fmap. eauto.
Qed.

(** A built index verifies. *)
Lemma build_valid : index_valid ix s = true.
Proof using Hbatch Hbuild Hscan.
  destruct built_rows as [Hrows _].
  pose proof Hbuild as (rows & Hr & H)%bind_Ok.
  destruct (write_catalog _ _ _ _) as [ix'|] eqn:Hw; [|done]. inv_ok.
  unfold write_catalog in Hw. destruct (mapM _ _) as [crs|] eqn:Hm; [|done]. injection Hw as Hix.
  assert (cr_name <$> crs = sc_name <$> so_channels s) as Hn.
  { clear -Hm. revert crs Hm. induction (so_channels s) as [|c l IH]; intros crs; [by intros [= <-]|].
    cbn. destruct (dget _ _); [|done]. cbn. destruct (mapM _ l) as [crs'|]; [|done].
    intros [= <-]. cbn. f_equal. by apply IH. }
  assert (rw_index <$> rows = seqZ 0 (zlen rows)) as Hseq.
  { rewrite <- Hix in Hrows. cbn in Hrows. rewrite Hrows, <- list_fmap_compose.
    destruct (scan_located zstd lz4 f (lm_max_decoded_bytes lim)) as [Hi _]. rewrite Hscan in Hi.
    unfold zlen. rewrite length_fmap. exact Hi. }
  rewrite <- Hix. unfold index_valid. cbn [ix_meta ix_rows ix_channels].
  rewrite Hn, (last_index_seq _ _ Hseq). rewrite !bool_decide_true; [done|..]; try done.
  destruct rows as [|r rows]; [done|].
  replace (0 + zlen (r :: rows) - 1 + 1) with (zlen (r :: rows)) by lia. done.
Qed.
End built.

(** ** Theorems *)

(** C36. Query plans: whatever the selection, the rows [_rows_after] gives by
    merging one bounded range per Channel, or by the plain query when every
    Channel is selected, are the first rows of the selection in the interval,
    in order of time and record index. *)
Theorem rows_after_plans s ids ix chs after last_ns count :
  catalog_ok s ids ix → chs ⊆ sc_name <$> so_channels s →
  rows_after ix ids (so_channels s) (filter (λ c, sc_name c ∈ chs) (so_channels s)) after last_ns count
  = take count (rows_wanted ids ix chs after last_ns).
Proof. apply rows_after_wanted. Qed.

(** C4. Complete paging: over the index built from a file whose scan completes,
    following continuations from the start of an interval gives every stored
    Message of the selected Channels in it, each once and in publication
    order, whatever the page limits, the chunk compression and the bounded
    chunk cache; provided no Message is larger than the limits. *)
Theorem pages_complete zstd lz4 seal unseal loads sha256 s sm f lim out batch_size ix
    chs start_ns end_ns pl fuel :
  read_catalog loads sha256 (Some sm) = Ok (so_channels s) → NoDup (vz_channels sm).*1 →
  scan zstd lz4 f (lm_max_decoded_bytes lim) true = (out, None) → zlen out < TIME_SHIFT →
  (0 < batch_size)%nat →
  build s (channel_ids sm) ((λ b, (false, b)) <$> located zstd lz4 f lim batch_size) None false
    (so_identity s) = Ok ix →
  0 ≤ lm_chunk_cache_bytes lim →
  unseals seal unseal (request_pin s chs start_ns end_ns) → request_ok s chs start_ns end_ns pl →
  let ms := filter (λ m, sm_channel m ∈ chs ∧ start_ns ≤ sm_time m < end_ns)
              (merge_sort msg_le (named sm <$> out)) in
  Forall (λ m, oversize (lm_max_message_bytes lim) pl m = false) ms → (length ms < fuel)%nat →
  read_all zstd lz4 seal unseal s f (channel_ids sm) ix lim fuel (mk_cache [] 0) chs start_ns end_ns
    None pl = Some (Ok ms).
Proof.
  intros Hcat Hids Hscan Hmany Hb Hbuild Hl Hu Hreq.
  set (src := merge_sort msg_le (named sm <$> out)).
  pose proof (built_positions sm zstd lz4 f lim out Hscan Hmany) as Hpos. fold src in Hpos.
  assert (filter (λ m, sm_channel m ∈ chs ∧ start_ns ≤ sm_time m < end_ns) src
          = matching src chs (start_position start_ns None) end_ns) as ->.
  { apply filter_ext_in. intros m Hm. pose proof (proj1 (Forall_forall _ _) Hpos m Hm) as [Hi _].
    unfold key_lt, start_position, msg_key. cbn. split; intros (? & ? & ?); split_and!; (done || lia). }
  apply (read_all_from zstd lz4 seal unseal s f (channel_ids sm) ix lim
           (built_catalog _ _ _ _ Hcat Hids _ _ _ _ _ _ _ Hscan Hb Hbuild) Hl src _ chs start_ns end_ns None);
    try done.
  - by eapply built_shows.
  - split; [constructor|by intros ? ? ?%not_elem_of_nil|done|done].
Qed.

(** Preparing and reusing: when the index of a source is built and the
    source did not change, it verifies and is published, and the next
    preparation uses it without reading the file again. *)
Theorem prepare_reuses zstd lz4 s sm f lim out batch_size ix batches stop cancelled built :
  scan zstd lz4 f (lm_max_decoded_bytes lim) true = (out, None) → (0 < batch_size)%nat →
  build s (channel_ids sm) ((λ b, (false, b)) <$> located zstd lz4 f lim batch_size) None false
    (so_identity s) = Ok ix →
  prepare s (channel_ids sm) None ((λ b, (false, b)) <$> located zstd lz4 f lim batch_size) None false
    (so_identity s) (so_identity s) = (Some ix, Ok (ix, false))
  ∧ prepare s (channel_ids sm) (Some ix) batches stop cancelled built (so_identity s)
    = (Some ix, Ok (ix, true)).
Proof.
  intros Hscan Hb Hbuild. pose proof (build_valid _ _ _ _ _ _ _ _ _ Hscan Hb Hbuild) as Hv.
  unfold prepare, build_verified. rewrite Hbuild, Hv, check_same. done.
Qed.

(** ** Witnesses *)

Definition demo_stored : bytes :=
  Mcap.file_bytes
    [Mcap.Chunk 5 9 0 [Mcap.MsgRec 1 0 9 9 [x10]; Mcap.MsgRec 2 1 5 5 [x11]];
     Mcap.Plain (Mcap.MsgRec 1 2 12 12 [x20]); Mcap.Plain (Mcap.MsgRec 2 3 12 12 [x21])] [] [].

Definition demo_summary : viz_summary :=
  mk_viz_summary [(1, mk_viz_channel "a" 1 "sil_pod"); (2, mk_viz_channel "b" 1 "sil_pod")]
    [(1, mk_viz_schema "S" "sil_pod" [])].

Definition demo_schema : json :=
  JObj [("fields"%string, JArr [JObj [("name"%string, JStr "v"); ("type"%string, JStr "u8")]])].

Definition demo_source : source :=
  mk_source "sha" (zlen demo_stored) None
    [mk_source_channel "a" "S" demo_schema ""; mk_source_channel "b" "S" demo_schema ""] (0, 0, 0, 0).

Definition demo_limits : limits := mk_limits 200 200 100 None.
Definition no_codec (_ : bytes) (_ : Z) : option bytes := None.
Definition demo_scan : list (Z * location * option bytes) :=
  (scan no_codec no_codec demo_stored 200 true).1.

Definition demo_index : index :=
  match build demo_source (channel_ids demo_summary)
          ((λ b, (false, b)) <$> located no_codec no_codec demo_stored demo_limits 1) None false (0, 0, 0, 0)
  with Ok ix => ix | Err _ => mk_index [] [] [] end.

Lemma demo_scanned :
  scan no_codec no_codec demo_stored (lm_max_decoded_bytes demo_limits) true = (demo_scan, None).
Proof. vm_compute. reflexivity. Qed.

Lemma demo_built :
  build demo_source (channel_ids demo_summary)
    ((λ b, (false, b)) <$> located no_codec no_codec demo_stored demo_limits 1) None false
    (so_identity demo_source) = Ok demo_index.
Proof. vm_compute. reflexivity. Qed.

Lemma demo_catalog :
  read_catalog (λ _, Some demo_schema) (λ _, ""%string) (Some demo_summary) = Ok (so_channels demo_source).
Proof. vm_compute. reflexivity. Qed.

Lemma demo_channel_ids : NoDup (vz_channels demo_summary).*1.
Proof. apply (bool_decide_unpack _). vm_compute. exact I. Qed.

(** A text for the continuations of one request. *)
Definition demo_seal (j : json) : string :=
  match j with
  | JObj d => match dget d "after"%string with
              | Some (JArr [JStr a; JStr b]) => (escape a ++ "/" ++ escape b)%string
              | _ => ""%string
              end
  | _ => ""%string
  end.
Definition demo_unseal (p : list (string * json)) (t : string) : option json :=
  match split_slash t with
  | [a; b] => Some (JObj (p ++ [("after"%string, JArr [JStr (unescape a); JStr (unescape b)])]))
  | _ => None
  end.

Lemma demo_unseals p :
  "after"%string ∉ p.*1 → unseals demo_seal (demo_unseal p) p.
Proof.
  intros Hp t i Ht Hi. unfold continuation, demo_seal.
  assert (dget (p ++ [("after"%string, JArr [JStr (decimal_Z t); JStr (decimal_Z i)])]) "after"%string
          = Some (JArr [JStr (decimal_Z t); JStr (decimal_Z i)])) as ->.
  { induction p as [|[k v] p IH]; [done|]. cbn [app dget]. rewrite decide_False.
    - apply IH. intros ?. apply Hp. by right.
    - intros E. apply Hp. rewrite <- E. by left. }
  unfold demo_unseal. change ("/" ++ escape ?b)%string with (String (Ascii.Ascii true true true true false true false false) (escape b)).
  rewrite (proj2 (split_escape _)), (proj1 (split_escape _)), !unescape_escape. done.
Qed.

Lemma rows_after_plans_witness :
  rows_after demo_index (channel_ids demo_summary) (so_channels demo_source)
    (filter (λ c, sc_name c ∈ ["b"%string]) (so_channels demo_source)) (5, -1) 12 1
  = take 1 (rows_wanted (channel_ids demo_summary) demo_index ["b"%string] (5, -1) 12).
Proof.
  apply (rows_after_plans demo_source).
  - exact (built_catalog _ _ _ _ demo_catalog demo_channel_ids _ _ _ _ _ _ _ demo_scanned Nat.lt_0_1 demo_built).
  - apply (bool_decide_unpack _). vm_compute. exact I.
Defined.

(** Two pages of at most two Messages each. *)
Lemma pages_complete_witness :
  read_all no_codec no_codec demo_seal
    (demo_unseal (request_pin demo_source ["b"; "a"]%string 0 13)) demo_source demo_stored
    (channel_ids demo_summary) demo_index demo_limits 5 (mk_cache [] 0) ["b"; "a"]%string 0 13 None
    (mk_page_limits 2 100)
  = Some (Ok [mk_source_message 1 "b" 5 [x11]; mk_source_message 0 "a" 9 [x10];
              mk_source_message 2 "a" 12 [x20]; mk_source_message 3 "b" 12 [x21]]).
Proof.
  eapply (pages_complete no_codec no_codec _ _ (λ _, Some demo_schema) (λ _, ""%string)
            demo_source demo_summary demo_stored demo_limits demo_scan 1);
    [exact demo_catalog|exact demo_channel_ids|exact demo_scanned|reflexivity|exact Nat.lt_0_1|exact demo_built|..].
  - vm_compute. discriminate.
  - apply demo_unseals. apply (bool_decide_unpack _). vm_compute. exact I.
  - split_and!; try (vm_compute; congruence); apply (bool_decide_unpack _); vm_compute; exact I.
  - vm_compute. repeat constructor.
  - vm_compute. lia.
Defined.

Lemma prepare_reuses_witness :
  prepare demo_source (channel_ids demo_summary) (Some demo_index) [] (Some EOFError) true (1, 1, 1, 1)
    (so_identity demo_source) = (Some demo_index, Ok (demo_index, true)).
Proof.
  apply (prepare_reuses no_codec no_codec demo_source demo_summary demo_stored demo_limits demo_scan 1);
    [exact demo_scanned|exact Nat.lt_0_1|exact demo_built].
Defined.

(** A continuation whose record index SQLite cannot hold passes every check of
    [_resume], and the query raises OverflowError instead of ContinuationError. *)
Example continuation_overflow :
  let p := request_pin demo_source ["a"%string] 0 13 in
  (messages no_codec no_codec demo_seal (demo_unseal p) demo_source demo_stored
     (channel_ids demo_summary) demo_index demo_limits (mk_cache [] 0) (Some ["a"%string]) 0 13
     (Some (continuation demo_seal p 5 (2 ^ 63))) (mk_page_limits 2 100) (0, 0, 0, 0) (0, 0, 0, 0)).2
  = Err NOverflow.
Proof. vm_compute. reflexivity. Qed.
