(* ===== verification/Playback.v ===== *)
(** * Playback of a prepared Recording

    Models [python/src/sil/visualization/playback.py]: the controller
    [Playback] with its commands ([configure], [set_subscription],
    [disconnect], [close]), delivery ([drain], [superseded]) and work ([pump]).
    The lock is held during a command and released while [pump] reads the
    Navigator, so [pump] is two steps: [pump_begin] takes work and [pump_end]
    applies its result; commands may come between them. The clock is an
    argument of each step that reads it. The Navigator is an interface, a
    [navigator] of the calls the controller makes.

    Not modelled: the reason text of a refusal, the session id and source digest
    that every state repeats, the condition variable's waits. *)

From Stdlib Require Import ZArith Lia.
From S2P Require Import Prelude PyFloat Json SchemaTypes Recording.
From S2P Require Import VizSource Navigation.

Definition REQUEST_CACHE : nat := 256.
(** The binary64 patterns of 0.1, 10.0 and 1.0. *)
Definition MIN_RATE : Z := 4591870180066957722.
Definition MAX_RATE : Z := 4621819117588971520.
Definition UNIT_RATE : Z := 4607182418800017408.
Definition AFTER_INSTANT : Z := 2 ^ 63 - 1.
Definition BEFORE_INSTANT : Z := -1.
Definition MAX_PAGE_ROWS : Z := 1000.

Inductive status := PAUSED | PLAYING | BUFFERING | ENDED | FAILED | CLOSED.

Record queue_limits := mk_queue_limits { ql_max_messages : Z; ql_max_bytes : Z }.

(** [QueueLimits.__post_init__]. *)
Definition make_queue_limits (messages_ bytes_ : json) : result nav_error queue_limits :=
  m ← require_positive "max_messages" messages_;
  b ← require_positive "max_bytes" bytes_;
  Ok (mk_queue_limits m b).

(** What a controller keeps of its Navigator and its arguments. *)
Record config := mk_config {
  cf_channels : list string;
  cf_start : option Z;
  cf_end : option Z;
  cf_limits : queue_limits;
}.

(** What a read of the Navigator raises: an error of it, the IndexError of an
    empty page, the KeyError of a Channel a snapshot lacks, or the model's fuel
    is used up. *)
Inductive play_error :=
| PNav (e : nav_error)
| PIndexError
| PKeyError
| POutOfFuel.

(** [PlaybackState]. *)
Record view := mk_view {
  vw_generation : Z;
  vw_status : status;
  vw_playing : bool;
  vw_pending : bool;
  vw_cursor : option Z;
  vw_seek : option Z;
  vw_start : option Z;
  vw_end : option Z;
  vw_rate : Z;
  vw_request_id : option string;
  vw_subscription : list string;
  vw_diagnostic : option play_error;
}.

Inductive notification :=
| NReset (generation : Z) (position_ns : option Z) (request_id : option string)
| NBackfill (generation : Z) (m : source_message)
| NMessage (generation : Z) (m : source_message)
| NRefused (generation : Z) (r : refusal) (backfill : bool)
| NCommit (v : view)
| NStateChanged (v : view).

(** What a read gives: a Message, or the LimitExceeded that names one. *)
Inductive item := IMsg (m : source_message) | IRef (r : refusal).

(** [_key]. *)
Definition item_key (i : item) : Z * Z :=
  match i with
  | IMsg m => (sm_time m, sm_index m)
  | IRef r => (rf_time r, rf_index r)
  end.

(** [_channel]. *)
Definition channel_of_notification (n : notification) : option string :=
  match n with
  | NMessage _ m | NBackfill _ m => Some (sm_channel m)
  | NRefused _ r _ => Some (rf_channel r)
  | _ => None
  end.

(** [getattr(notification, "generation", None)]. *)
Definition generation_of (n : notification) : option Z :=
  match n with
  | NReset g _ _ | NBackfill g _ | NMessage g _ | NRefused g _ _ => Some g
  | _ => None
  end.

(** [_Job], [_Staged] and [_Read]. *)
Record job := mk_job {
  jb_generation : Z;
  jb_reset : bool;
  jb_after : option (Z * Z);
  jb_channels : list string;
}.
Record staged := mk_staged {
  sg_job : job;
  sg_items : list item;
  sg_queued : gset string;
}.
Record read := mk_read {
  rd_generation : Z;
  rd_channels : list string;
  rd_after : Z * Z;
  rd_target : Z;
  rd_limits : page_limits;
  rd_queue_empty : bool;
}.

(** The arguments of a [configure] request. *)
Abbreviation content := (json * json * json)%type.

(** The controller. [ps_nav_open] is whether the Navigator is open. *)
Record playback := mk_playback {
  ps_generation : Z;
  ps_flushed : Z;
  ps_playing : bool;
  ps_rate : Z;
  ps_cursor : option Z;
  ps_after : option (Z * Z);
  ps_anchor : Z * option Z;
  ps_stall_target : option Z;
  ps_ended : bool;
  ps_closed : bool;
  ps_busy : bool;
  ps_more : bool;
  ps_fault : option play_error;
  ps_fresh : bool;
  ps_subscription : list string;
  ps_unreconstructed : gset string;
  ps_staged : option staged;
  ps_reset_pending : bool;
  ps_seek : option Z;
  ps_seek_after : option (Z * Z);
  ps_seek_request : option string;
  ps_request_id : option string;
  ps_requests : list (string * (content * view));
  ps_queue : list notification;
  ps_queued_messages : Z;
  ps_queued_bytes : Z;
  ps_nav_open : bool;
}.

Definition set_generation (v : Z) (p : playback) : playback :=
  mk_playback v (ps_flushed p) (ps_playing p) (ps_rate p) (ps_cursor p) (ps_after p) (ps_anchor p)
  (ps_stall_target p) (ps_ended p) (ps_closed p) (ps_busy p) (ps_more p) (ps_fault p) (ps_fresh p)
  (ps_subscription p) (ps_unreconstructed p) (ps_staged p) (ps_reset_pending p) (ps_seek p)
  (ps_seek_after p) (ps_seek_request p) (ps_request_id p) (ps_requests p) (ps_queue p)
  (ps_queued_messages p) (ps_queued_bytes p) (ps_nav_open p).
Definition set_flushed (v : Z) (p : playback) : playback :=
  mk_playback (ps_generation p) v (ps_playing p) (ps_rate p) (ps_cursor p) (ps_after p)
  (ps_anchor p) (ps_stall_target p) (ps_ended p) (ps_closed p) (ps_busy p) (ps_more p) (ps_fault p)
  (ps_fresh p) (ps_subscription p) (ps_unreconstructed p) (ps_staged p) (ps_reset_pending p)
  (ps_seek p) (ps_seek_after p) (ps_seek_request p) (ps_request_id p) (ps_requests p) (ps_queue p)
  (ps_queued_messages p) (ps_queued_bytes p) (ps_nav_open p).
Definition set_playing (v : bool) (p : playback) : playback :=
  mk_playback (ps_generation p) (ps_flushed p) v (ps_rate p) (ps_cursor p) (ps_after p)
  (ps_anchor p) (ps_stall_target p) (ps_ended p) (ps_closed p) (ps_busy p) (ps_more p) (ps_fault p)
  (ps_fresh p) (ps_subscription p) (ps_unreconstructed p) (ps_staged p) (ps_reset_pending p)
  (ps_seek p) (ps_seek_after p) (ps_seek_request p) (ps_request_id p) (ps_requests p) (ps_queue p)
  (ps_queued_messages p) (ps_queued_bytes p) (ps_nav_open p).
Definition set_rate (v : Z) (p : playback) : playback :=
  mk_playback (ps_generation p) (ps_flushed p) (ps_playing p) v (ps_cursor p) (ps_after p)
  (ps_anchor p) (ps_stall_target p) (ps_ended p) (ps_closed p) (ps_busy p) (ps_more p) (ps_fault p)
  (ps_fresh p) (ps_subscription p) (ps_unreconstructed p) (ps_staged p) (ps_reset_pending p)
  (ps_seek p) (ps_seek_after p) (ps_seek_request p) (ps_request_id p) (ps_requests p) (ps_queue p)
  (ps_queued_messages p) (ps_queued_bytes p) (ps_nav_open p).
Definition set_cursor (v : option Z) (p : playback) : playback :=
  mk_playback (ps_generation p) (ps_flushed p) (ps_playing p) (ps_rate p) v (ps_after p)
  (ps_anchor p) (ps_stall_target p) (ps_ended p) (ps_closed p) (ps_busy p) (ps_more p) (ps_fault p)
  (ps_fresh p) (ps_subscription p) (ps_unreconstructed p) (ps_staged p) (ps_reset_pending p)
  (ps_seek p) (ps_seek_after p) (ps_seek_request p) (ps_request_id p) (ps_requests p) (ps_queue p)
  (ps_queued_messages p) (ps_queued_bytes p) (ps_nav_open p).
Definition set_after (v : option (Z * Z)) (p : playback) : playback :=
  mk_playback (ps_generation p) (ps_flushed p) (ps_playing p) (ps_rate p) (ps_cursor p) v
  (ps_anchor p) (ps_stall_target p) (ps_ended p) (ps_closed p) (ps_busy p) (ps_more p) (ps_fault p)
  (ps_fresh p) (ps_subscription p) (ps_unreconstructed p) (ps_staged p) (ps_reset_pending p)
  (ps_seek p) (ps_seek_after p) (ps_seek_request p) (ps_request_id p) (ps_requests p) (ps_queue p)
  (ps_queued_messages p) (ps_queued_bytes p) (ps_nav_open p).
Definition set_anchor (v : Z * option Z) (p : playback) : playback :=
  mk_playback (ps_generation p) (ps_flushed p) (ps_playing p) (ps_rate p) (ps_cursor p)
  (ps_after p) v (ps_stall_target p) (ps_ended p) (ps_closed p) (ps_busy p) (ps_more p)
  (ps_fault p) (ps_fresh p) (ps_subscription p) (ps_unreconstructed p) (ps_staged p)
  (ps_reset_pending p) (ps_seek p) (ps_seek_after p) (ps_seek_request p) (ps_request_id p)
  (ps_requests p) (ps_queue p) (ps_queued_messages p) (ps_queued_bytes p) (ps_nav_open p).
Definition set_stall_target (v : option Z) (p : playback) : playback :=
  mk_playback (ps_generation p) (ps_flushed p) (ps_playing p) (ps_rate p) (ps_cursor p)
  (ps_after p) (ps_anchor p) v (ps_ended p) (ps_closed p) (ps_busy p) (ps_more p) (ps_fault p)
  (ps_fresh p) (ps_subscription p) (ps_unreconstructed p) (ps_staged p) (ps_reset_pending p)
  (ps_seek p) (ps_seek_after p) (ps_seek_request p) (ps_request_id p) (ps_requests p) (ps_queue p)
  (ps_queued_messages p) (ps_queued_bytes p) (ps_nav_open p).
Definition set_ended (v : bool) (p : playback) : playback :=
  mk_playback (ps_generation p) (ps_flushed p) (ps_playing p) (ps_rate p) (ps_cursor p)
  (ps_after p) (ps_anchor p) (ps_stall_target p) v (ps_closed p) (ps_busy p) (ps_more p)
  (ps_fault p) (ps_fresh p) (ps_subscription p) (ps_unreconstructed p) (ps_staged p)
  (ps_reset_pending p) (ps_seek p) (ps_seek_after p) (ps_seek_request p) (ps_request_id p)
  (ps_requests p) (ps_queue p) (ps_queued_messages p) (ps_queued_bytes p) (ps_nav_open p).
Definition set_closed (v : bool) (p : playback) : playback :=
  mk_playback (ps_generation p) (ps_flushed p) (ps_playing p) (ps_rate p) (ps_cursor p)
  (ps_after p) (ps_anchor p) (ps_stall_target p) (ps_ended p) v (ps_busy p) (ps_more p)
  (ps_fault p) (ps_fresh p) (ps_subscription p) (ps_unreconstructed p) (ps_staged p)
  (ps_reset_pending p) (ps_seek p) (ps_seek_after p) (ps_seek_request p) (ps_request_id p)
  (ps_requests p) (ps_queue p) (ps_queued_messages p) (ps_queued_bytes p) (ps_nav_open p).
Definition set_busy (v : bool) (p : playback) : playback :=
  mk_playback (ps_generation p) (ps_flushed p) (ps_playing p) (ps_rate p) (ps_cursor p)
  (ps_after p) (ps_anchor p) (ps_stall_target p) (ps_ended p) (ps_closed p) v (ps_more p)
  (ps_fault p) (ps_fresh p) (ps_subscription p) (ps_unreconstructed p) (ps_staged p)
  (ps_reset_pending p) (ps_seek p) (ps_seek_after p) (ps_seek_request p) (ps_request_id p)
  (ps_requests p) (ps_queue p) (ps_queued_messages p) (ps_queued_bytes p) (ps_nav_open p).
Definition set_more (v : bool) (p : playback) : playback :=
  mk_playback (ps_generation p) (ps_flushed p) (ps_playing p) (ps_rate p) (ps_cursor p)
  (ps_after p) (ps_anchor p) (ps_stall_target p) (ps_ended p) (ps_closed p) (ps_busy p) v
  (ps_fault p) (ps_fresh p) (ps_subscription p) (ps_unreconstructed p) (ps_staged p)
  (ps_reset_pending p) (ps_seek p) (ps_seek_after p) (ps_seek_request p) (ps_request_id p)
  (ps_requests p) (ps_queue p) (ps_queued_messages p) (ps_queued_bytes p) (ps_nav_open p).
Definition set_fault (v : option play_error) (p : playback) : playback :=
  mk_playback (ps_generation p) (ps_flushed p) (ps_playing p) (ps_rate p) (ps_cursor p)
  (ps_after p) (ps_anchor p) (ps_stall_target p) (ps_ended p) (ps_closed p) (ps_busy p) (ps_more p)
  v (ps_fresh p) (ps_subscription p) (ps_unreconstructed p) (ps_staged p) (ps_reset_pending p)
  (ps_seek p) (ps_seek_after p) (ps_seek_request p) (ps_request_id p) (ps_requests p) (ps_queue p)
  (ps_queued_messages p) (ps_queued_bytes p) (ps_nav_open p).
Definition set_fresh (v : bool) (p : playback) : playback :=
  mk_playback (ps_generation p) (ps_flushed p) (ps_playing p) (ps_rate p) (ps_cursor p)
  (ps_after p) (ps_anchor p) (ps_stall_target p) (ps_ended p) (ps_closed p) (ps_busy p) (ps_more p)
  (ps_fault p) v (ps_subscription p) (ps_unreconstructed p) (ps_staged p) (ps_reset_pending p)
  (ps_seek p) (ps_seek_after p) (ps_seek_request p) (ps_request_id p) (ps_requests p) (ps_queue p)
  (ps_queued_messages p) (ps_queued_bytes p) (ps_nav_open p).
Definition set_subscription (v : list string) (p : playback) : playback :=
  mk_playback (ps_generation p) (ps_flushed p) (ps_playing p) (ps_rate p) (ps_cursor p)
  (ps_after p) (ps_anchor p) (ps_stall_target p) (ps_ended p) (ps_closed p) (ps_busy p) (ps_more p)
  (ps_fault p) (ps_fresh p) v (ps_unreconstructed p) (ps_staged p) (ps_reset_pending p) (ps_seek p)
  (ps_seek_after p) (ps_seek_request p) (ps_request_id p) (ps_requests p) (ps_queue p)
  (ps_queued_messages p) (ps_queued_bytes p) (ps_nav_open p).
Definition set_unreconstructed (v : gset string) (p : playback) : playback :=
  mk_playback (ps_generation p) (ps_flushed p) (ps_playing p) (ps_rate p) (ps_cursor p)
  (ps_after p) (ps_anchor p) (ps_stall_target p) (ps_ended p) (ps_closed p) (ps_busy p) (ps_more p)
  (ps_fault p) (ps_fresh p) (ps_subscription p) v (ps_staged p) (ps_reset_pending p) (ps_seek p)
  (ps_seek_after p) (ps_seek_request p) (ps_request_id p) (ps_requests p) (ps_queue p)
  (ps_queued_messages p) (ps_queued_bytes p) (ps_nav_open p).
Definition set_staged (v : option staged) (p : playback) : playback :=
  mk_playback (ps_generation p) (ps_flushed p) (ps_playing p) (ps_rate p) (ps_cursor p)
  (ps_after p) (ps_anchor p) (ps_stall_target p) (ps_ended p) (ps_closed p) (ps_busy p) (ps_more p)
  (ps_fault p) (ps_fresh p) (ps_subscription p) (ps_unreconstructed p) v (ps_reset_pending p)
  (ps_seek p) (ps_seek_after p) (ps_seek_request p) (ps_request_id p) (ps_requests p) (ps_queue p)
  (ps_queued_messages p) (ps_queued_bytes p) (ps_nav_open p).
Definition set_reset_pending (v : bool) (p : playback) : playback :=
  mk_playback (ps_generation p) (ps_flushed p) (ps_playing p) (ps_rate p) (ps_cursor p)
  (ps_after p) (ps_anchor p) (ps_stall_target p) (ps_ended p) (ps_closed p) (ps_busy p) (ps_more p)
  (ps_fault p) (ps_fresh p) (ps_subscription p) (ps_unreconstructed p) (ps_staged p) v (ps_seek p)
  (ps_seek_after p) (ps_seek_request p) (ps_request_id p) (ps_requests p) (ps_queue p)
  (ps_queued_messages p) (ps_queued_bytes p) (ps_nav_open p).
Definition set_seek (v : option Z) (p : playback) : playback :=
  mk_playback (ps_generation p) (ps_flushed p) (ps_playing p) (ps_rate p) (ps_cursor p)
  (ps_after p) (ps_anchor p) (ps_stall_target p) (ps_ended p) (ps_closed p) (ps_busy p) (ps_more p)
  (ps_fault p) (ps_fresh p) (ps_subscription p) (ps_unreconstructed p) (ps_staged p)
  (ps_reset_pending p) v (ps_seek_after p) (ps_seek_request p) (ps_request_id p) (ps_requests p)
  (ps_queue p) (ps_queued_messages p) (ps_queued_bytes p) (ps_nav_open p).
Definition set_seek_after (v : option (Z * Z)) (p : playback) : playback :=
  mk_playback (ps_generation p) (ps_flushed p) (ps_playing p) (ps_rate p) (ps_cursor p)
  (ps_after p) (ps_anchor p) (ps_stall_target p) (ps_ended p) (ps_closed p) (ps_busy p) (ps_more p)
  (ps_fault p) (ps_fresh p) (ps_subscription p) (ps_unreconstructed p) (ps_staged p)
  (ps_reset_pending p) (ps_seek p) v (ps_seek_request p) (ps_request_id p) (ps_requests p)
  (ps_queue p) (ps_queued_messages p) (ps_queued_bytes p) (ps_nav_open p).
Definition set_seek_request (v : option string) (p : playback) : playback :=
  mk_playback (ps_generation p) (ps_flushed p) (ps_playing p) (ps_rate p) (ps_cursor p)
  (ps_after p) (ps_anchor p) (ps_stall_target p) (ps_ended p) (ps_closed p) (ps_busy p) (ps_more p)
  (ps_fault p) (ps_fresh p) (ps_subscription p) (ps_unreconstructed p) (ps_staged p)
  (ps_reset_pending p) (ps_seek p) (ps_seek_after p) v (ps_request_id p) (ps_requests p)
  (ps_queue p) (ps_queued_messages p) (ps_queued_bytes p) (ps_nav_open p).
Definition set_request_id (v : option string) (p : playback) : playback :=
  mk_playback (ps_generation p) (ps_flushed p) (ps_playing p) (ps_rate p) (ps_cursor p)
  (ps_after p) (ps_anchor p) (ps_stall_target p) (ps_ended p) (ps_closed p) (ps_busy p) (ps_more p)
  (ps_fault p) (ps_fresh p) (ps_subscription p) (ps_unreconstructed p) (ps_staged p)
  (ps_reset_pending p) (ps_seek p) (ps_seek_after p) (ps_seek_request p) v (ps_requests p)
  (ps_queue p) (ps_queued_messages p) (ps_queued_bytes p) (ps_nav_open p).
Definition set_requests (v : list (string * (content * view))) (p : playback) : playback :=
  mk_playback (ps_generation p) (ps_flushed p) (ps_playing p) (ps_rate p) (ps_cursor p)
  (ps_after p) (ps_anchor p) (ps_stall_target p) (ps_ended p) (ps_closed p) (ps_busy p) (ps_more p)
  (ps_fault p) (ps_fresh p) (ps_subscription p) (ps_unreconstructed p) (ps_staged p)
  (ps_reset_pending p) (ps_seek p) (ps_seek_after p) (ps_seek_request p) (ps_request_id p) v
  (ps_queue p) (ps_queued_messages p) (ps_queued_bytes p) (ps_nav_open p).
Definition set_queue (v : list notification) (p : playback) : playback :=
  mk_playback (ps_generation p) (ps_flushed p) (ps_playing p) (ps_rate p) (ps_cursor p)
  (ps_after p) (ps_anchor p) (ps_stall_target p) (ps_ended p) (ps_closed p) (ps_busy p) (ps_more p)
  (ps_fault p) (ps_fresh p) (ps_subscription p) (ps_unreconstructed p) (ps_staged p)
  (ps_reset_pending p) (ps_seek p) (ps_seek_after p) (ps_seek_request p) (ps_request_id p)
  (ps_requests p) v (ps_queued_messages p) (ps_queued_bytes p) (ps_nav_open p).
Definition set_queued_messages (v : Z) (p : playback) : playback :=
  mk_playback (ps_generation p) (ps_flushed p) (ps_playing p) (ps_rate p) (ps_cursor p)
  (ps_after p) (ps_anchor p) (ps_stall_target p) (ps_ended p) (ps_closed p) (ps_busy p) (ps_more p)
  (ps_fault p) (ps_fresh p) (ps_subscription p) (ps_unreconstructed p) (ps_staged p)
  (ps_reset_pending p) (ps_seek p) (ps_seek_after p) (ps_seek_request p) (ps_request_id p)
  (ps_requests p) (ps_queue p) v (ps_queued_bytes p) (ps_nav_open p).
Definition set_queued_bytes (v : Z) (p : playback) : playback :=
  mk_playback (ps_generation p) (ps_flushed p) (ps_playing p) (ps_rate p) (ps_cursor p)
  (ps_after p) (ps_anchor p) (ps_stall_target p) (ps_ended p) (ps_closed p) (ps_busy p) (ps_more p)
  (ps_fault p) (ps_fresh p) (ps_subscription p) (ps_unreconstructed p) (ps_staged p)
  (ps_reset_pending p) (ps_seek p) (ps_seek_after p) (ps_seek_request p) (ps_request_id p)
  (ps_requests p) (ps_queue p) (ps_queued_messages p) v (ps_nav_open p).
Definition set_nav_open (v : bool) (p : playback) : playback :=
  mk_playback (ps_generation p) (ps_flushed p) (ps_playing p) (ps_rate p) (ps_cursor p)
  (ps_after p) (ps_anchor p) (ps_stall_target p) (ps_ended p) (ps_closed p) (ps_busy p) (ps_more p)
  (ps_fault p) (ps_fresh p) (ps_subscription p) (ps_unreconstructed p) (ps_staged p)
  (ps_reset_pending p) (ps_seek p) (ps_seek_after p) (ps_seek_request p) (ps_request_id p)
  (ps_requests p) (ps_queue p) (ps_queued_messages p) (ps_queued_bytes p) v.

Inductive command_error :=
| InvalidCommand (v : view)
| RequestConflict (v : view)
| ROverflow.

(** ** The queue *)

(** [_account]. *)
Definition account (n : notification) (sign : Z) (p : playback) : playback :=
  match n with
  | NMessage _ m | NBackfill _ m =>
      set_queued_bytes (ps_queued_bytes p + sign * zlen (sm_data m))
        (set_queued_messages (ps_queued_messages p + sign) p)
  | NRefused _ _ _ => set_queued_messages (ps_queued_messages p + sign) p
  | _ => p
  end.

Definition is_state_changed (n : notification) : bool :=
  match n with NStateChanged _ => true | _ => false end.

(** [_enqueue]: a state replaces a state at the end of the queue. *)
Definition enqueue (n : notification) (p : playback) : playback :=
  match is_state_changed n, last (ps_queue p) with
  | true, Some (NStateChanged _) => set_queue (removelast (ps_queue p) ++ [n]) p
  | _, _ => account n 1 (set_queue (ps_queue p ++ [n]) p)
  end.

(** [_drop]. *)
Definition drop_queued (matches : notification → bool) (p : playback) : playback :=
  let kept := filter (λ n, matches n = false) (ps_queue p) in
  foldl (λ p n, account n 1 (set_queue (ps_queue p ++ [n]) p))
    (set_queued_bytes 0 (set_queued_messages 0 (set_queue [] p))) kept.

Section controller.
Context (cf : config).

(** ** State *)

Definition stalled (p : playback) : bool := bool_decide (is_Some (ps_stall_target p)).
Definition pending (p : playback) : bool :=
  ps_reset_pending p || negb (bool_decide (ps_unreconstructed p = ∅)).
Definition running (p : playback) : bool :=
  ps_playing p && negb (pending p) && negb (stalled p) && negb (ps_ended p).

(** [int(elapsed * Fraction(rate))]. *)
Definition scaled (elapsed rate : Z) : Z :=
  match float_x rate with
  | XFin z => elapsed * z / 2 ^ 1074
  | _ => 0
  end.

(** [_playhead]. A controller that plays has a range and an anchor in it. *)
Definition playhead (now : Z) (p : playback) : Z :=
  let '(anchor_now, anchor_ns) := ps_anchor p in
  Z.min (default 0 (cf_end cf))
    (default 0 anchor_ns + scaled (Z.max 0 (now - anchor_now)) (ps_rate p)).

Definition status_of (p : playback) : status :=
  if ps_closed p then CLOSED
  else if bool_decide (is_Some (ps_fault p)) then FAILED
  else if pending p then BUFFERING
  else if ps_ended p then ENDED
  else if ps_playing p then (if stalled p then BUFFERING else PLAYING)
  else PAUSED.

(** [_state]. *)
Definition state_of (p : playback) : view :=
  mk_view (ps_generation p) (status_of p) (ps_playing p) (pending p) (ps_cursor p) (ps_seek p)
    (cf_start cf) (cf_end cf) (ps_rate p) (ps_request_id p) (ps_subscription p) (ps_fault p).

(** [__init__]. *)
Definition initial : playback :=
  mk_playback 0 0 false UNIT_RATE (cf_start cf) ((λ s, (s, BEFORE_INSTANT)) <$> cf_start cf)
    (0, cf_start cf) None false false false false None false [] ∅ None false None None None None
    [] [] 0 0 true.

(** [_start_seek]. *)
Definition start_seek (after : option (Z * Z)) (request : option string) (p : playback) : playback :=
  let g := ps_generation p + 1 in
  drop_queued (λ _, true)
    (set_stall_target None (set_ended false (set_unreconstructed (list_to_set (ps_subscription p))
      (set_seek (fst <$> after) (set_seek_after after (set_reset_pending true
        (set_flushed g (set_generation g (set_staged None (set_seek_request request p)))))))))).

(** [_set_playing]. *)
Definition apply_playing (playing : bool) (now : Z) (p : playback) : playback :=
  if negb playing then set_stall_target None (set_playing false p)
  else if bool_decide (cf_start cf = None) then set_ended true p
  else if ps_playing p then p
  else set_anchor (now, ps_cursor p) (set_playing true p).

(** [_check_open]. *)
Definition check_open (p : playback) : result command_error () :=
  raise: InvalidCommand (state_of p) if: ps_closed p;;
  raise_if (bool_decide (is_Some (ps_fault p))) (InvalidCommand (state_of p)).

(** ** Commands *)

Definition check_position (position_ns : json) (p : playback) : result command_error (option Z) :=
  match position_ns with
  | JNull => Ok None
  | JInt t =>
      match cf_start cf, cf_end cf with
      | Some s, Some e => if in_range s e t then Ok (Some t) else Err (InvalidCommand (state_of p))
      | _, _ => Err (InvalidCommand (state_of p))
      end
  | _ => Err (InvalidCommand (state_of p))
  end.

Definition check_playing (playing : json) (p : playback) : result command_error (option bool) :=
  match playing with
  | JNull => Ok None
  | JBool b => Ok (Some b)
  | _ => Err (InvalidCommand (state_of p))
  end.

(** The rate as a number, and [float] of it. [math.isfinite] raises
    OverflowError for an int beyond the binary64 range. *)
Definition check_rate (rate : json) (p : playback) : result command_error (option (pynum * Z)) :=
  let in_bounds n := num_le (PFloat MIN_RATE) n && num_le n (PFloat MAX_RATE) in
  match rate with
  | JNull => Ok None
  | JInt z =>
      match float_of_int z with
      | None => Err ROverflow
      | Some b => if in_bounds (PInt z) then Ok (Some (PInt z, b)) else Err (InvalidCommand (state_of p))
      end
  | JFloat b =>
      if is_finite64 b && in_bounds (PFloat b) then Ok (Some (PFloat b, b))
      else Err (InvalidCommand (state_of p))
  | _ => Err (InvalidCommand (state_of p))
  end.

(** The rate change of [configure]. *)
Definition apply_rate (rate : option (pynum * Z)) (now : Z) (p : playback) : playback :=
  match rate with
  | None => p
  | Some (n, b) =>
      if num_eq n (PFloat (ps_rate p)) then p
      else set_rate b (if running p then set_anchor (now, Some (playhead now p)) p else p)
  end.

Definition apply_position (position : option Z) (playing : option bool) (request : string)
    (p : playback) : playback :=
  match position, playing, cf_start cf with
  | Some t, _, _ => start_seek (Some (t, AFTER_INSTANT)) (Some request) p
  | None, Some true, Some s =>
      if ps_ended p then start_seek (Some (s, BEFORE_INSTANT)) (Some request) p else p
  | _, _, _ => p
  end.

Definition same_content (a b : content) : bool :=
  let '(a1, a2, a3) := a in let '(b1, b2, b3) := b in
  py_eq a1 b1 && py_eq a2 b2 && py_eq a3 b3.

(** [configure]. A refused command leaves the controller as it is. *)
Definition configure (request_id position_ns playing rate : json) (now : Z) (p : playback)
    : playback * result command_error view :=
  match (_ ← check_open p;
         match request_id with
         | JStr r => raise: InvalidCommand (state_of p) if: String.eqb r "";; Ok r
         | _ => Err (InvalidCommand (state_of p))
         end) with
  | Err e => (p, Err e)
  | Ok request =>
      let c := (position_ns, playing, rate) in
      match dget (ps_requests p) request with
      | Some (cached, st) =>
          (p, if same_content cached c then Ok st else Err (RequestConflict (state_of p)))
      | None =>
          match (t ← check_position position_ns p; pl ← check_playing playing p;
                 r ← check_rate rate p; Ok (t, pl, r)) with
          | Err e => (p, Err e)
          | Ok (t, pl, r) =>
              let p1 := apply_position t pl request (apply_rate r now p) in
              let p2 := match pl with None => p1 | Some b => apply_playing b now p1 end in
              let p3 := set_request_id (Some request) p2 in
              let st := state_of p3 in
              let requests := dset (ps_requests p3) request (c, st) in
              (set_requests (if (REQUEST_CACHE <? length requests)%nat then tail requests else requests) p3,
               Ok st)
          end
      end
  end.

(** [_discard_staged]. *)
Definition discard_staged (p : playback) : playback :=
  set_staged None
    match ps_staged p with
    | Some g => if jb_reset (sg_job g) then p
                else set_unreconstructed (ps_unreconstructed p ∖ sg_queued g) p
    | None => p
    end.

(** The new subscription of [set_subscription], of Channels [wanted]. *)
Definition subscribe (wanted : list string) (now : Z) (p : playback) : playback :=
  let removed := filter (λ c, c ∉ wanted) (ps_subscription p) in
  let added := filter (λ c, c ∉ ps_subscription p) wanted in
  let p1 := discard_staged p in
  let p2 := set_generation (ps_generation p1 + 1) p1 in
  let p3 := set_unreconstructed
              (filter (λ c, c ∈ wanted) (ps_unreconstructed p2) ∪ list_to_set added) p2 in
  let p4 := set_subscription wanted p3 in
  let p5 := if stalled p4 then set_anchor (now, ps_cursor p4) (set_stall_target None p4) else p4 in
  let p6 := drop_queued (λ n, match channel_of_notification n with
                              | Some c => bool_decide (c ∈ removed)
                              | None => false
                              end) p5 in
  if ps_fresh p6 && negb (bool_decide (wanted = [])) then
    let p7 := set_fresh false p6 in
    start_seek (if ps_reset_pending p7 then ps_seek_after p7 else ps_after p7) None p7
  else p6.

(** [set_subscription]. *)
Definition set_subscription_command (names : list string) (now : Z) (p : playback)
    : playback * result command_error view :=
  match check_open p with
  | Err e => (p, Err e)
  | Ok _ =>
      if negb (bool_decide (names ⊆ cf_channels cf) && bool_decide (NoDup names))
      then (p, Err (InvalidCommand (state_of p)))
      else
        let wanted := filter (λ c, c ∈ names) (cf_channels cf) in
        if bool_decide (wanted = ps_subscription p) then (p, Ok (state_of p))
        else let p' := subscribe wanted now p in (p', Ok (state_of p'))
  end.

(** [disconnect]. *)
Definition disconnect (p : playback) : playback * result command_error view :=
  if ps_closed p then (p, Err (InvalidCommand (state_of p)))
  else
    let g := ps_generation p + 1 in
    let p' := set_fresh true (drop_queued (λ _, true)
                (set_flushed g (set_generation g (set_requests [] (set_staged None
                  (set_unreconstructed ∅ (set_subscription [] (set_stall_target None
                    (set_playing false p))))))))) in
    (p', Ok (state_of p')).

(** [close]. *)
Definition close (p : playback) : playback :=
  if ps_closed p then p
  else
    let p1 := drop_queued (λ _, true) (set_playing false (set_closed true p)) in
    let p2 := enqueue (NStateChanged (state_of p1)) p1 in
    if ps_busy p2 then p2 else set_nav_open false p2.

(** ** Delivery *)

(** [drain], once it has waited. *)
Definition drain (max_items : option Z) (p : playback) : playback * list notification :=
  let len := zlen (ps_queue p) in
  let n := Z.to_nat (Z.min (default len max_items) len) in
  let taken := take n (ps_queue p) in
  (foldl (λ p n, account n (-1) p) (set_queue (drop n (ps_queue p)) p) taken, taken).

(** [superseded]. *)
Definition superseded (n : notification) (p : playback) : bool :=
  match generation_of n with
  | None => false
  | Some g =>
      (g <? ps_flushed p)
      || match channel_of_notification n with
         | Some c => negb (bool_decide (c ∈ ps_subscription p))
         | None => false
         end
  end.

(** ** Work *)

(** [_take_job]. *)
Definition take_job (p : playback) : option job :=
  if pending p then
    Some (mk_job (ps_generation p) (ps_reset_pending p)
            (if ps_reset_pending p then ps_seek_after p else ps_after p)
            (filter (λ c, c ∈ ps_unreconstructed p) (ps_subscription p)))
  else None.

(** [_stall]. *)
Definition stall (target : Z) (p : playback) : playback :=
  if stalled p then p
  else let p' := set_stall_target (Some target) p in enqueue (NStateChanged (state_of p')) p'.

(** [_take_read]. *)
Definition take_read (now : Z) (p : playback) : playback * option read :=
  let p := set_more false p in
  if negb (ps_playing p) || pending p || ps_ended p then (p, None)
  else
    let target := match ps_stall_target p with Some t => t | None => playhead now p end in
    let free_messages := ql_max_messages (cf_limits cf) - ps_queued_messages p in
    let free_bytes := ql_max_bytes (cf_limits cf) - ps_queued_bytes p in
    if (free_messages <=? 0) || (free_bytes <=? 0) then (stall target p, None)
    else if stalled p && negb (ps_queued_messages p =? 0) then (p, None)
    else (p, Some (mk_read (ps_generation p) (ps_subscription p)
                     (default (0, 0) (ps_after p)) target
                     (mk_page_limits (Z.min free_messages MAX_PAGE_ROWS) free_bytes)
                     (ps_queued_messages p =? 0))).

(** [_backfill]; [None] while the queue has no room. *)
Definition backfill (i : item) (generation : Z) (p : playback) : option notification :=
  let lim := cf_limits cf in
  if ql_max_messages lim <=? ps_queued_messages p then None
  else match i with
  | IRef r => Some (NRefused generation r true)
  | IMsg m =>
      let size := zlen (sm_data m) in
      if ql_max_bytes lim <? size
      then Some (NRefused generation (mk_refusal (sm_index m) (sm_channel m) (sm_time m) size) true)
      else if ql_max_bytes lim <? ps_queued_bytes p + size then None
      else Some (NBackfill generation m)
  end.

(** The end of [_fill_staged], once every item is queued. *)
Definition commit_staged (j : job) (now : Z) (p : playback) : playback :=
  let p1 := set_staged None p in
  let p2 := if jb_reset j then
              set_reset_pending false (set_seek_after None
                (set_seek None (set_after (jb_after j) (set_cursor (ps_seek p1) p1))))
            else p1 in
  let p3 := set_unreconstructed ∅ p2 in
  let p4 := if ps_playing p3 then set_anchor (now, ps_cursor p3) p3 else p3 in
  enqueue (NCommit (state_of p4)) p4.

(** The loop of [_fill_staged]. *)
Fixpoint fill_items (j : job) (items : list item) (queued : gset string) (now : Z) (p : playback)
    : playback :=
  match items with
  | [] => commit_staged j now p
  | i :: rest =>
      match backfill i (jb_generation j) p with
      | None => set_staged (Some (mk_staged j items queued)) p
      | Some n =>
          fill_items j rest
            (match channel_of_notification n with Some c => {[c]} | None => ∅ end ∪ queued)
            now (enqueue n p)
      end
  end.

(** [_fill_staged]. *)
Definition fill_staged (now : Z) (p : playback) : playback :=
  match ps_staged p with
  | Some g => fill_items (sg_job g) (sg_items g) (sg_queued g) now p
  | None => p
  end.

(** [_commit]. *)
Definition commit (j : job) (items : list item) (now : Z) (p : playback) : playback :=
  if negb (jb_generation j =? ps_generation p) then p
  else
    let p1 := if jb_reset j then enqueue (NReset (jb_generation j) (ps_seek p) (ps_seek_request p)) p
              else p in
    fill_staged now (set_staged (Some (mk_staged j items ∅)) p1).

(** The notification of a crossed item. *)
Definition crossed (generation : Z) (i : item) : notification :=
  match i with
  | IMsg m => NMessage generation m
  | IRef r => NRefused generation r false
  end.

(** The end of [_advance], once the page is queued. *)
Definition reach_target (target now : Z) (p : playback) : playback :=
  let p1 := set_cursor (Some target) (set_after (Some (target, AFTER_INSTANT)) p) in
  if bool_decide (Some target = cf_end cf) then
    let p2 := set_stall_target None (set_playing false (set_ended true p1)) in
    enqueue (NStateChanged (state_of p2)) p2
  else if stalled p1 then
    let p2 := set_anchor (now, ps_cursor p1) (set_stall_target None p1) in
    enqueue (NStateChanged (state_of p2)) p2
  else p1.

(** [_advance], once the items are queued. *)
Definition advance_past (r : read) (items : list item) (complete : bool) (now : Z) (p : playback)
    : playback :=
  let p1 := match last items with
            | Some i => set_cursor (Some (item_key i).1) (set_after (Some (item_key i)) p)
            | None => p
            end in
  if complete then reach_target (rd_target r) now p1 else set_more true p1.

(** [_advance]. A refused Message comes alone. *)
Definition advance (r : read) (items : list item) (complete : bool) (now : Z) (p : playback)
    : playback :=
  if negb (rd_generation r =? ps_generation p) || negb (ps_playing p) || pending p || ps_ended p
  then p
  else match items with
  | IRef e :: _ =>
      if rd_queue_empty r
      then advance_past r items complete now (enqueue (NRefused (rd_generation r) e false) p)
      else stall (rd_target r) p
  | _ => advance_past r items complete now
           (foldl (λ p i, enqueue (crossed (rd_generation r) i) p) p items)
  end.

(** [_fail]. *)
Definition fail (e : play_error) (p : playback) : playback :=
  let p1 := set_stall_target None (set_playing false (set_fault (Some e) p)) in
  enqueue (NStateChanged (state_of p1)) p1.

Inductive work := WJob (j : job) | WRead (r : read).

(** [pump], up to the release of the lock. *)
Definition pump_begin (now : Z) (p : playback) : playback * option work :=
  if ps_closed p || ps_busy p || bool_decide (is_Some (ps_fault p)) then (p, None)
  else match ps_staged p with
  | Some _ => (fill_staged now p, None)
  | None =>
      match take_job p with
      | Some j => (set_busy true p, Some (WJob j))
      | None =>
          let '(p', r) := take_read now p in
          match r with
          | Some r => (set_busy true p', Some (WRead r))
          | None => (p', None)
          end
      end
  end.

(** [except (SourceError, OSError)]. *)
Definition caught (e : play_error) : bool :=
  match e with
  | PNav (NOverflow | NTooManyDigits | NType) => false
  | PNav _ => true
  | _ => false
  end.

(** [pump], after the read. An exception that is not caught leaves [pump], and
    the controller busy. *)
Definition pump_end (w : work) (found : result play_error (list item * bool)) (now : Z) (p : playback)
    : playback :=
  match found with
  | Err e =>
      if negb (caught e) then p
      else let p1 := set_busy false p in
           if ps_closed p1 then set_nav_open false p1 else fail e p1
  | Ok (items, complete) =>
      let p1 := set_busy false p in
      if ps_closed p1 then set_nav_open false p1
      else match w with
           | WJob j => commit j items now p1
           | WRead r => advance r items complete now p1
           end
  end.

(** What [run] does after a [pump]: return, pump again, or wait for a
    notification, at most a tick when [timed]. *)
Inductive run_action := RunReturn | RunPump | RunWait (timed : bool).

Definition run_next (p : playback) : run_action :=
  if ps_closed p then RunReturn
  else if negb (bool_decide (is_Some (ps_fault p)))
          && ((pending p && negb (bool_decide (is_Some (ps_staged p)))) || ps_more p)
  then RunPump
  else RunWait (ps_playing p).
End controller.

(** ** Reads of the Navigator *)

(** The calls the controller makes. A Navigator has a state of its own, its
    chunk cache and the file it reads. *)
Record navigator (N : Type) := mk_navigator {
  nav_messages : N → list string → Z → Z → option string → page_limits → N * result nav_error page;
  nav_continuation_after : list string → Z → Z → Z → Z → result nav_error string;
  nav_snapshot : N → list string → Z → N * result nav_error (list (string * option source_message));
}.
Arguments nav_messages {_}.
Arguments nav_continuation_after {_}.
Arguments nav_snapshot {_}.

Definition item_le (a b : item) : Prop := key_le (item_key a) (item_key b).
#[export] Instance item_le_dec a b : Decision (item_le a b).
Proof. unfold item_le. apply _. Defined.

Section reads.
Context {N : Type} (nav : navigator N).

Definition lift_nav {A} (r : result nav_error A) : result play_error A :=
  match r with Ok a => Ok a | Err e => Err (PNav e) end.

(** [_page]. *)
Definition page_items (n : N) (channels : list string) (start_ns end_ns : Z)
    (after : option (Z * Z)) (limits : page_limits) : N * result play_error (list item * bool) :=
  match match after with
        | None => Ok None
        | Some a => t ← nav_continuation_after nav channels start_ns end_ns a.1 a.2; Ok (Some t)
        end with
  | Err e => (n, Err (PNav e))
  | Ok token =>
      let '(n', r) := nav_messages nav n channels start_ns end_ns token limits in
      (n', match r with
           | Ok pg => Ok (IMsg <$> pg_messages pg, pg_complete pg)
           | Err (NLimit (Some e)) => Ok ([IRef e], false)
           | Err e => Err (PNav e)
           end)
  end.

(** [_latest]. *)
Definition latest_item (n : N) (channel : string) (time_ns : Z) : N * result play_error (option item) :=
  let '(n', r) := nav_snapshot nav n [channel] time_ns in
  (n', match r with
       | Ok found => match dget found channel with
                     | Some m => Ok (IMsg <$> m)
                     | None => Err PKeyError
                     end
       | Err (NLimit (Some e)) => Ok (Some (IRef e))
       | Err e => Err (PNav e)
       end).

(** The [for] loop of [_predecessor] over a page: the best item so far, and
    whether one lies after the position. *)
Fixpoint walk_items (after : Z * Z) (items : list item) (best : option item) : option item * bool :=
  match items with
  | [] => (best, false)
  | i :: items => if decide (key_lt after (item_key i)) then (best, true)
                  else walk_items after items (Some i)
  end.

(** The [while] loop of [_predecessor]. *)
Fixpoint walk (fuel : nat) (n : N) (channel : string) (after : Z * Z) (best : option item)
    (position : option (Z * Z)) : N * result play_error (option item) :=
  match fuel with
  | O => (n, Err POutOfFuel)
  | S fuel =>
      let '(n', r) := page_items n [channel] after.1 (after.1 + 1) position default_page in
      match r with
      | Err e => (n', Err e)
      | Ok (items, complete) =>
          let '(best', past) := walk_items after items best in
          match last items with
          | None => (n', Err PIndexError)
          | Some i => if complete || past then (n', Ok best')
                      else walk fuel n' channel after best' (Some (item_key i))
          end
      end
  end.

(** [_predecessor]. *)
Definition predecessor (fuel : nat) (n : N) (channel : string) (after : Z * Z)
    : N * result play_error (option item) :=
  let '(n1, r) := latest_item n channel after.1 in
  match r with
  | Ok (Some i) =>
      if decide (key_lt after (item_key i)) then
        let '(n2, r2) := walk fuel n1 channel after None None in
        match r2 with
        | Ok None => if 0 <? after.1 then latest_item n2 channel (after.1 - 1) else (n2, Ok None)
        | _ => (n2, r2)
        end
      else (n1, r)
  | _ => (n1, r)
  end.

Fixpoint predecessors (fuel : nat) (n : N) (channels : list string) (after : Z * Z)
    : N * result play_error (list item) :=
  match channels with
  | [] => (n, Ok [])
  | c :: channels =>
      let '(n1, r) := predecessor fuel n c after in
      match r with
      | Err e => (n1, Err e)
      | Ok i => let '(n2, rest) := predecessors fuel n1 channels after in
                (n2, rest ≫= λ rest, Ok (match i with Some i => i :: rest | None => rest end))
      end
  end.

(** [_reconstruct]. *)
Definition reconstruct (fuel : nat) (n : N) (j : job) : N * result play_error (list item * bool) :=
  match jb_after j with
  | None => (n, Ok ([], true))
  | Some after =>
      let '(n', r) := predecessors fuel n (jb_channels j) after in
      (n', items ← r; Ok (merge_sort item_le items, true))
  end.

(** [_read]. *)
Definition read_items (n : N) (r : read) : N * result play_error (list item * bool) :=
  let '(time_ns, record_index) := rd_after r in
  if bool_decide (rd_channels r = []) || (rd_target r <? time_ns)
     || ((time_ns =? rd_target r) && (record_index =? AFTER_INSTANT))
  then (n, Ok ([], true))
  else page_items n (rd_channels r) time_ns (rd_target r + 1)
         (if record_index =? BEFORE_INSTANT then None else Some (rd_after r)) (rd_limits r).

(** The read of [pump]. *)
Definition perform (fuel : nat) (n : N) (w : work) : N * result play_error (list item * bool) :=
  match w with
  | WJob j => reconstruct fuel n j
  | WRead r => read_items n r
  end.
End reads.
