(* ===== verification/PlaybackReads.v ===== *)
(** * What the controller reads of a Navigator

    [navigator_laws] states what a Navigator promises to the playback
    controller: pages and snapshots of one list of Messages, or a failure of the
    source. The reads of [Playback] are proved against it
    ([reconstruct_spec], [read_items_spec]), and the Navigator over an index
    built from a file keeps it ([navigation_laws]). *)

From Stdlib Require Import ZArith Lia Ascii.
From S2P Require Import Prelude PyFloat Json SchemaTypes Schema Pointer Recording.
From S2P Require Import Interchange VizSource Navigation NavigationProofs Playback.

(** A failure that ends the session. *)
Definition fatal (e : nav_error) : Prop := ∃ s, e = NSource s.

(** What [messages] answers for the Messages [ms] of a request. *)
Definition page_answer (mx : Z) (pl : page_limits) (ms : list source_message)
    (r : result nav_error page) : Prop :=
  match page_of mx pl ms with
  | Err rf => r = Err (NLimit (Some rf))
  | Ok (taken, complete) => ∃ token, r = Ok (mk_page taken token complete)
  end.

(** What [snapshot] answers for one Channel. *)
Definition latest_answer (mx : Z) (ch : string) (m : option source_message)
    : result nav_error (list (string * option source_message)) :=
  match m with
  | None => Ok [(ch, None)]
  | Some m => if mx <? zlen (sm_data m) then Err (NLimit (Some (refusal_of m))) else Ok [(ch, Some m)]
  end.

(** A Navigator of the Messages [src] of [channels]. A call may fail only when
    the source [changes]. *)
Class navigator_laws {N} (nav : navigator N) (ok : N → Prop) (src : list source_message)
    (channels : list string) (mx : Z) (changes : Prop) : Prop := {
  law_sorted : StronglySorted msg_lt src;
  law_range m : m ∈ src → 0 ≤ sm_index m ≤ AFTER_INSTANT ∧ 0 ≤ sm_time m < TIME_LIMIT;
  law_messages n chs start_ns end_ns after pl :
    ok n → chs ≠ [] → NoDup chs → chs ⊆ channels → 0 ≤ start_ns ≤ end_ns → end_ns ≤ TIME_LIMIT →
    limits_ok pl → after_ok start_ns end_ns after →
    ∃ token n' r,
      match after with
      | None => token = None
      | Some a => ∃ t, nav_continuation_after nav chs start_ns end_ns a.1 a.2 = Ok t ∧ token = Some t
      end
      ∧ nav_messages nav n chs start_ns end_ns token pl = (n', r) ∧ ok n'
      ∧ (page_answer mx pl (matching src chs (start_position start_ns after) end_ns) r
         ∨ changes ∧ ∃ e, fatal e ∧ r = Err e);
  law_snapshot n ch time_ns :
    ok n → ch ∈ channels → 0 ≤ time_ns < TIME_LIMIT →
    ∃ n' r, nav_snapshot nav n [ch] time_ns = (n', r) ∧ ok n'
      ∧ (r = latest_answer mx ch (latest src ch time_ns) ∨ changes ∧ ∃ e, fatal e ∧ r = Err e);
}.

(** An item stands for a Message: it is it, or names it as too large. *)
Definition stands_for (i : item) (m : source_message) : Prop :=
  i = IMsg m ∨ i = IRef (refusal_of m).

Lemma stands_for_key i m : stands_for i m → item_key i = msg_key m.
Proof. by intros [-> | ->]. Qed.

Section laws.
Context {N} (nav : navigator N) (ok : N → Prop) (src : list source_message).
Context (channels : list string) (mx : Z) (changes : Prop).
Context {Hlaws : navigator_laws nav ok src channels mx changes}.

(** Reads end with what is promised or a failure the session reports. *)
Definition read_ok {A} (P : A → Prop) (r : result play_error A) : Prop :=
  (∃ a, r = Ok a ∧ P a) ∨ (changes ∧ ∃ e, fatal e ∧ r = Err (PNav e)).

(** A page of items for the Messages [ms]. *)
Definition page_shows (pl : page_limits) (ms : list source_message) (x : list item * bool) : Prop :=
  ∃ taken rest, ms = taken ++ rest ∧ Forall2 stands_for x.1 taken
    ∧ (x.2 = true → rest = []) ∧ (ms ≠ [] → x.1 ≠ []) ∧ (ms = [] → x.2 = true)
    ∧ ((∃ m, x = ([IRef (refusal_of m)], false) ∧ oversize mx pl m = true)
       ∨ (x.1 = IMsg <$> taken ∧ zlen taken ≤ pl_max_rows pl
          ∧ foldr (λ m n, zlen (sm_data m) + n) 0 taken ≤ pl_max_bytes pl)).

Lemma fill_bounds pl ms used :
  0 ≤ used ≤ pl_max_bytes pl →
  used + foldr (λ m n, zlen (sm_data m) + n) 0 (fill mx pl ms used) ≤ pl_max_bytes pl.
Proof using Type.
  revert used. induction ms as [|m ms IH]; intros used Hu; cbn [fill foldr]; [lia|].
  destruct (oversize mx pl m); cbn [orb foldr]; [lia|].
  destruct (Z.ltb_spec (pl_max_bytes pl) (used + zlen (sm_data m))); cbn [foldr]; [lia|].
  pose proof (zlen_nonneg (sm_data m)). specialize (IH (used + zlen (sm_data m))). lia.
Qed.

Lemma page_of_shows pl ms :
  limits_ok pl →
  match page_of mx pl ms with
  | Err rf => page_shows pl ms ([IRef rf], false)
  | Ok (taken, complete) => page_shows pl ms (IMsg <$> taken, complete)
  end.
Proof using Type.
  intros Hl. destruct (page_of mx pl ms) as [[taken complete]|rf] eqn:Hp.
  - destruct (page_of_progress _ _ _ _ _ Hl Hp) as ([rest Hr] & Hc & Hne). exists taken, rest.
    split_and!; [done| | | | |right; split_and!].
    + apply Forall2_fmap_l. clear. induction taken; constructor; [by left|done].
    + cbn [fst snd]. intros Hcc. specialize (Hc Hcc). rewrite Hc in Hr. apply (app_inv_head ms). by rewrite app_nil_r, <- Hr.
    + cbn. intros ? E%fmap_nil_inv. by destruct Hne.
    + intros ->. by injection Hp as <- <-.
    + done.
    + unfold page_of in Hp. destruct ms as [|m ms]; [injection Hp as <- <-; unfold zlen; cbn [length]; destruct Hl; lia|].
      destruct (oversize mx pl m); [done|]. injection Hp as <- _.
      pose proof (prefix_length _ _ (fill_prefix mx pl (take (Z.to_nat (pl_max_rows pl)) (m :: ms)) 0)) as H.
      rewrite length_take in H. destruct Hl. unfold zlen. lia.
    + unfold page_of in Hp. destruct ms as [|m ms]; [injection Hp as <- <-; cbn [foldr]; destruct Hl; lia|].
      destruct (oversize mx pl m); [done|]. injection Hp as <- _.
      apply (fill_bounds pl _ 0). destruct Hl. lia.
  - unfold page_of in Hp. destruct ms as [|m ms]; [done|]. destruct (oversize mx pl m) eqn:Ho; [|done].
    injection Hp as <-. exists [m], ms. split_and!; [done| |done|done|done|].
    + constructor; [by right|constructor].
    + left. by exists m.
Qed.

(** [_page]. *)
Lemma page_items_spec n chs start_ns end_ns after pl :
  ok n → chs ≠ [] → NoDup chs → chs ⊆ channels → 0 ≤ start_ns ≤ end_ns → end_ns ≤ TIME_LIMIT →
  limits_ok pl → after_ok start_ns end_ns after →
  let '(n', r) := page_items nav n chs start_ns end_ns after pl in
  ok n' ∧ read_ok (page_shows pl (matching src chs (start_position start_ns after) end_ns)) r.
Proof using All.
  intros Hn Hne Hnd Hsub Hse Hend Hl Ha. unfold page_items.
  destruct (law_messages n chs start_ns end_ns after pl Hn Hne Hnd Hsub Hse Hend Hl Ha)
    as (token & n' & r & Htok & Hm & Hn' & Hr).
  assert (match after with
          | None => Ok None
          | Some a => t ← nav_continuation_after nav chs start_ns end_ns a.1 a.2; Ok (Some t)
          end = (Ok token : result nav_error (option string))) as ->.
  { destruct after as [a|]; [|by rewrite Htok]. destruct Htok as (t & Ht & ->). by rewrite Ht. }
  rewrite Hm. split; [done|]. destruct Hr as [Hr|(Hch & e & [sf ->] & ->)]; [|right; split; [done|]; exists (NSource sf); split; [by exists sf|done]].
  left. unfold page_answer in Hr. pose proof (page_of_shows pl (matching src chs (start_position start_ns after) end_ns) Hl) as Hs.
  destruct (page_of mx pl _) as [[taken complete]|rf].
  - destruct Hr as [tk ->]. eauto.
  - subst r. eauto.
Qed.

(** [_latest]. *)
Lemma latest_item_spec n ch time_ns :
  ok n → ch ∈ channels → 0 ≤ time_ns < TIME_LIMIT →
  let '(n', r) := latest_item nav n ch time_ns in
  ok n' ∧ read_ok (λ i, match i, latest src ch time_ns with
                        | Some i, Some m => stands_for i m
                        | None, None => True
                        | _, _ => False
                        end) r.
Proof using All.
  intros Hn Hch Ht. unfold latest_item.
  destruct (law_snapshot n ch time_ns Hn Hch Ht) as (n' & r & -> & Hn' & Hr). split; [done|].
  destruct Hr as [-> |(Hc & e & [sf ->] & ->)]; [|right; split; [done|]; exists (NSource sf); split; [by exists sf|done]].
  left. unfold latest_answer. destruct (latest src ch time_ns) as [m|].
  - destruct (mx <? zlen (sm_data m)).
    + eexists. split; [done|]. by right.
    + cbn [dget]. rewrite decide_True by done. eexists. split; [done|]. by left.
  - cbn [dget]. rewrite decide_True by done. eexists. split; done.
Qed.

(** ** Predecessors *)

(** The last Message of a Channel at or before a position. *)
Definition last_upto (ch : string) (after : Z * Z) : option source_message :=
  last (filter (λ m, sm_channel m = ch ∧ ¬ key_lt after (msg_key m)) src).

Definition opt_stands (i : option item) (m : option source_message) : Prop :=
  match i, m with
  | Some i, Some m => stands_for i m
  | None, None => True
  | _, _ => False
  end.

Lemma walk_items_spec after items taken best b past :
  Forall2 stands_for items taken → walk_items after items best = (b, past) →
  ∃ t1 t2, taken = t1 ++ t2 ∧ Forall (λ m, ¬ key_lt after (msg_key m)) t1
    ∧ (if past then ∃ m t3, t2 = m :: t3 ∧ key_lt after (msg_key m) else t2 = [])
    ∧ ∀ d, opt_stands best (last d) → opt_stands b (last (d ++ t1)).
Proof using Type.
  intros H. revert best. induction H as [|i m items taken Him Hrest IH]; intros best; cbn [walk_items].
  - intros [= <- <-]. exists [], []. split_and!; [done|constructor|done|]. intros d. by rewrite app_nil_r.
  - rewrite (stands_for_key _ _ Him). destruct (decide (key_lt after (msg_key m))) as [Hlt|Hge].
    + intros [= <- <-]. exists [], (m :: taken). split_and!; [done|constructor|by eauto|].
      intros d. by rewrite app_nil_r.
    + intros Hw. destruct (IH _ Hw) as (t1 & t2 & -> & Hall & Ht2 & Hb).
      exists (m :: t1), t2. split_and!; [done|by constructor|done|]. intros d _.
      specialize (Hb (d ++ [m])). rewrite <- app_assoc in Hb. apply Hb. by rewrite last_snoc.
Qed.

Lemma sorted_after_head (l1 l2 : list source_message) m after :
  StronglySorted msg_lt (l1 ++ m :: l2) → key_lt after (msg_key m) →
  Forall (λ x, ¬ key_lt after (msg_key x)) l1 →
  filter (λ x, ¬ key_lt after (msg_key x)) (l1 ++ m :: l2) = l1.
Proof using Type.
  intros Hs Hm Hl. rewrite filter_app, (filter_all _ l1) by done.
  rewrite filter_none; [by rewrite app_nil_r|].
  assert (StronglySorted msg_lt (m :: l2)) as Hs2.
  { clear -Hs. induction l1 as [|x l1 IH]; [done|]. inversion Hs; auto. }
  inversion Hs2 as [|? ? _ Hall]; subst. constructor; [tauto|]. eapply Forall_impl; [exact Hall|].
  cbn. intros x Hx Hn. apply Hn. by eapply key_lt_trans.
Qed.

(** The walk over an instant that has a Message after the position. *)
Lemma walk_spec fuel n ch after best position done_ rest :
  ok n → ch ∈ channels → 0 ≤ after.1 < TIME_LIMIT →
  after_ok after.1 (after.1 + 1) position →
  matching src [ch] (start_position after.1 position) (after.1 + 1) = rest →
  matching src [ch] (after.1, -1) (after.1 + 1) = done_ ++ rest →
  Forall (λ m, ¬ key_lt after (msg_key m)) done_ → opt_stands best (last done_) →
  Exists (λ m, key_lt after (msg_key m)) rest → (length rest < fuel)%nat →
  let '(n', r) := walk nav fuel n ch after best position in
  ok n' ∧ read_ok (λ b, opt_stands b (last (filter (λ m, ¬ key_lt after (msg_key m)) (done_ ++ rest)))) r.
Proof using All.
  revert n best position done_ rest. induction fuel as [|fuel IH];
    intros n best position done_ rest Hn Hch Ht Hpos Hrest Hall Hd Hb Hex Hf; [lia|].
  cbn [walk].
  pose proof (page_items_spec n [ch] after.1 (after.1 + 1) position default_page Hn) as Hpage.
  destruct (page_items nav n [ch] after.1 (after.1 + 1) position default_page) as [n' r].
  destruct Hpage as [Hn' Hr]; [done|apply NoDup_singleton|set_solver|lia|lia|done|done|].
  rewrite Hrest in Hr. destruct Hr as [([items complete] & -> & Hshow)|(Hc & e & He & ->)];
    [|split; [done|]; right; by eauto].
  destruct Hshow as (taken & rest' & Hsplit & Hit & Hcomp & Hne & _ & _). cbn [fst snd] in *.
  destruct (walk_items after items best) as [b past] eqn:Hw.
  destruct (walk_items_spec _ _ _ _ _ _ Hit Hw) as (t1 & t2 & Htk & Ht1 & Ht2 & Hbest).
  assert (StronglySorted msg_lt (done_ ++ rest)) as Hsort by (rewrite <- Hall; apply sorted_filter, law_sorted).
  assert (rest ≠ []) as Hrne by (by intros ->; inversion Hex).
  destruct (last items) as [i|] eqn:Hl; [|by apply last_None in Hl; destruct Hne].
  pose proof (Forall2_last _ _ _ Hit) as Hlast. rewrite Hl in Hlast.
  destruct (last taken) as [m|] eqn:Hlt; [|done].
  destruct past; [|destruct complete].
  - rewrite orb_true_r. split; [done|]. left. eexists. split; [done|].
    destruct Ht2 as (m' & t3 & -> & Hm'). subst taken. rewrite Hsplit, <- !app_assoc, <- app_comm_cons in Hsort |- *.
    rewrite app_assoc in Hsort |- *. rewrite sorted_after_head; [by apply Hbest|done|done|].
    by apply Forall_app.
  - exfalso. rewrite Hcomp, app_nil_r in Hsplit by done. rewrite Ht2, app_nil_r in Htk.
    subst. apply Exists_exists in Hex as (x & Hx & Hlx). by apply (proj1 (Forall_forall _ _) Ht1 x Hx).
  - cbn [orb]. rewrite Ht2, app_nil_r in Htk. subst t1. rewrite Hsplit, app_assoc in *.
    rewrite (stands_for_key _ _ Hlast).
    assert (m ∈ taken) as Hmt by (apply last_Some in Hlt as [? ->]; set_solver).
    assert (m ∈ matching src [ch] (after.1, -1) (after.1 + 1)) as Hmm by (rewrite Hall; set_solver).
    apply list_elem_of_filter in Hmm as ((_ & Hkm & Htm) & Hms). destruct (law_range m Hms) as [Him _].
    apply IH; try done.
    + intros a [= <-]. unfold AFTER_INSTANT, TIME_SHIFT, key_lt in *. cbn in *. lia.
    + eapply matching_after; [apply law_sorted|exact Hrest|done].
    + by apply Forall_app.
    + by apply Hbest.
    + apply Exists_app in Hex as [Hex|Hex]; [|done]. exfalso. apply Exists_exists in Hex as (x & Hx & Hlx).
      by apply (proj1 (Forall_forall _ _) Ht1 x Hx).
    + rewrite length_app in Hf. destruct taken; [done|]. cbn in Hf. lia.
Qed.

(** The last element that satisfies a predicate. *)
Lemma last_filter_Some (P : source_message → Prop) `{!∀ m, Decision (P m)} m :
  last (filter P src) = Some m ↔ m ∈ src ∧ P m ∧ ∀ x, x ∈ src → P x → x = m ∨ msg_lt x m.
Proof using All.
  pose proof law_sorted as Hs. split.
  - intros [l Hl]%last_Some.
    assert (m ∈ filter P src) as [HP Hin]%list_elem_of_filter by (rewrite Hl; set_solver).
    split_and!; [done|done|]. intros x Hx HPx.
    assert (x ∈ l ++ [m]) as Hxl by (rewrite <- Hl; by apply list_elem_of_filter).
    apply elem_of_app in Hxl as [Hxl|Hxl%list_elem_of_singleton]; [|by left]. right.
    assert (StronglySorted msg_lt (l ++ [m])) as Hsl by (rewrite <- Hl; by apply sorted_filter).
    clear -Hxl Hsl. induction l as [|y l IH]; [by apply not_elem_of_nil in Hxl|].
    inversion Hsl as [|? ? H1 H2]; subst. apply elem_of_cons in Hxl as [->|Hxl]; [|auto].
    apply (proj1 (Forall_forall _ _) H2). set_solver.
  - intros (Hin & HP & Hmax). destruct (last (filter P src)) as [x|] eqn:Hl.
    + apply last_Some in Hl as [l Hl].
      assert (x ∈ filter P src) as [HPx Hx]%list_elem_of_filter by (rewrite Hl; set_solver).
      destruct (Hmax x Hx HPx) as [->|Hxm]; [done|]. exfalso.
      assert (m ∈ l ++ [x]) as Hm by (rewrite <- Hl; by apply list_elem_of_filter).
      assert (StronglySorted msg_lt (l ++ [x])) as Hsl by (rewrite <- Hl; by apply sorted_filter).
      apply elem_of_app in Hm as [Hm| ->%list_elem_of_singleton]; [|by eapply key_lt_irrefl].
      clear -Hm Hsl Hxm. induction l as [|y l IH]; [by apply not_elem_of_nil in Hm|].
      inversion Hsl as [|? ? H1 H2]; subst. apply elem_of_cons in Hm as [->|Hm]; [|auto].
      eapply key_lt_irrefl, key_lt_trans; [exact Hxm|]. apply (proj1 (Forall_forall _ _) H2). set_solver.
    + apply last_None in Hl. assert (m ∈ filter P src) as Hm by by apply list_elem_of_filter.
      rewrite Hl in Hm. by apply not_elem_of_nil in Hm.
Qed.

Lemma last_filter_None (P : source_message → Prop) `{!∀ m, Decision (P m)} :
  last (filter P src) = None ↔ ∀ x, x ∈ src → ¬ P x.
Proof using Type.
  rewrite last_None. split.
  - intros Hnil x Hx HP. assert (x ∈ filter P src) as Hm by by apply list_elem_of_filter.
    rewrite Hnil in Hm. by apply not_elem_of_nil in Hm.
  - intros Hno. apply filter_none, Forall_forall. done.
Qed.

(** Two predicates with the same last element. *)
Lemma last_filter_same (P Q : source_message → Prop) `{!∀ m, Decision (P m), !∀ m, Decision (Q m)} :
  (∀ x, x ∈ src → Q x → P x) →
  (∀ x, x ∈ src → P x → Q x ∨ ∃ y, y ∈ src ∧ Q y ∧ msg_lt x y) →
  last (filter P src) = last (filter Q src).
Proof using All.
  intros HQP HPQ. destruct (last (filter Q src)) as [m|] eqn:Hq.
  - apply last_filter_Some in Hq as (Hin & HQ & Hmax). apply last_filter_Some. split_and!; [done|auto|].
    intros x Hx HPx. destruct (HPQ x Hx HPx) as [HQx|(y & Hy & HQy & Hlt)]; [auto|].
    right. destruct (Hmax y Hy HQy) as [->|Hym]; [done|]. by eapply key_lt_trans.
  - apply last_filter_None. intros x Hx HPx.
    destruct (HPQ x Hx HPx) as [HQx|(y & Hy & HQy & _)]; by eapply last_filter_None in Hq.
Qed.

Lemma upto_latest ch after m :
  latest src ch after.1 = Some m → ¬ key_lt after (msg_key m) → last_upto ch after = Some m.
Proof using All.
  unfold latest, last_upto. intros (Hm & [Hmc Hmt] & Hmax)%last_filter_Some Hge.
  apply last_filter_Some. split_and!; [done..|]. intros x Hx [Hxc Hxk]. apply Hmax; [done|].
  split; [done|]. unfold key_lt, msg_key in Hxk. cbn in Hxk. lia.
Qed.

Lemma upto_none ch after : latest src ch after.1 = None → last_upto ch after = None.
Proof using Type.
  unfold latest, last_upto. rewrite !last_filter_None. intros H x Hx [Hc Hk]. apply (H x Hx).
  split; [done|]. unfold key_lt, msg_key in Hk. cbn in Hk. lia.
Qed.

(** The Messages of a Channel at the position's instant, up to the position. *)
Definition instant_upto (ch : string) (after : Z * Z) : option source_message :=
  last (filter (λ m, ¬ key_lt after (msg_key m)) (matching src [ch] (after.1, -1) (after.1 + 1))).

Lemma instant_upto_filter ch after :
  instant_upto ch after
  = last (filter (λ m, (sm_channel m = ch ∧ ¬ key_lt after (msg_key m)) ∧ sm_time m = after.1) src).
Proof using All.
  unfold instant_upto, matching. rewrite list_filter_filter. f_equal. apply filter_ext_in. intros x Hx.
  destruct (law_range x Hx) as [? _]. rewrite list_elem_of_singleton. unfold key_lt, msg_key. cbn.
  split; [intros (? & ? & ? & ?)|intros ((? & ?) & ?)]; split_and!; try done; lia.
Qed.

Lemma upto_instant ch after m : instant_upto ch after = Some m → last_upto ch after = Some m.
Proof using All.
  rewrite instant_upto_filter. intros Hm. pose proof Hm as (Hin & HP & _)%last_filter_Some.
  rewrite <- Hm. apply last_filter_same; [tauto|]. intros x Hx [Hc Hk].
  destruct (decide (sm_time x = after.1)); [by left|]. right. exists m.
  split; [done|split; [done|]]. destruct HP as [_ Ht]. unfold msg_lt, key_lt, msg_key in *. cbn in *. lia.
Qed.

Lemma upto_before ch after :
  instant_upto ch after = None → last_upto ch after = latest src ch (after.1 - 1).
Proof using All.
  rewrite instant_upto_filter, last_filter_None. intros H. unfold last_upto, latest. f_equal.
  apply filter_ext_in. intros x Hx. specialize (H x Hx).
  assert (¬ key_lt after (msg_key x) → sm_time x ≤ after.1) as H1
    by (unfold key_lt, msg_key; cbn; lia).
  assert (sm_time x ≤ after.1 - 1 → ¬ key_lt after (msg_key x)) as H2
    by (unfold key_lt, msg_key; cbn; lia).
  split; intros [Hc Hk]; (split; [done|]); [|by apply H2]. specialize (H1 Hk).
  assert (sm_time x ≠ after.1) by tauto. lia.
Qed.

(** A Message after the position at its time is one of the instant. *)
Lemma instant_after ch after m :
  latest src ch after.1 = Some m → key_lt after (msg_key m) →
  m ∈ matching src [ch] (after.1, -1) (after.1 + 1).
Proof using All.
  unfold latest. intros (Hm & [Hmc Hmt] & _)%last_filter_Some Hlt. destruct (law_range m Hm) as [? _].
  apply list_elem_of_filter. split; [|done]. split_and!; [set_solver| |lia].
  unfold key_lt, msg_key in *. cbn in *. lia.
Qed.

(** [_predecessor]: enough fuel is one unit more than the Messages. *)
Lemma predecessor_spec fuel n ch after :
  ok n → ch ∈ channels → 0 ≤ after.1 < TIME_LIMIT → (length src < fuel)%nat →
  let '(n', r) := predecessor nav fuel n ch after in
  ok n' ∧ read_ok (λ i, opt_stands i (last_upto ch after)) r.
Proof using All.
  intros Hn Hch Ht Hf. unfold predecessor.
  pose proof (latest_item_spec n ch after.1 Hn Hch Ht) as Hl.
  destruct (latest_item nav n ch after.1) as [n1 r]. destruct Hl as [Hn1 Hr].
  destruct Hr as [(i & -> & Hi)|(Hc & e & He & ->)]; [|split; [done|]; right; by eauto].
  destruct i as [i|], (latest src ch after.1) as [m|] eqn:Hlat; try done; cycle 1.
  { split; [done|]. left. eexists. split; [done|]. by rewrite upto_none. }
  rewrite (stands_for_key _ _ Hi). destruct (decide (key_lt after (msg_key m))) as [Hlt|Hge]; cycle 1.
  { split; [done|]. left. eexists. split; [done|]. by rewrite (upto_latest _ _ m). }
  pose proof (walk_spec fuel n1 ch after None None [] _ Hn1 Hch Ht ltac:(by intros ?) eq_refl eq_refl
                ltac:(constructor) I) as Hw.
  destruct (walk nav fuel n1 ch after None None) as [n2 r2]. destruct Hw as [Hn2 Hr2].
  { apply Exists_exists. exists m. split; [by apply instant_after|done]. }
  { eapply Nat.le_lt_trans; [apply length_filter|done]. }
  destruct Hr2 as [(b & -> & Hb)|(Hc & e & He & ->)]; [|split; [done|]; right; by eauto].
  change (opt_stands b (instant_upto ch after)) in Hb.
  destruct b as [b|], (instant_upto ch after) as [x|] eqn:Hx; try done.
  - split; [done|]. left. eexists. split; [done|]. by rewrite (upto_instant _ _ x).
  - rewrite (upto_before _ _ Hx). destruct (Z.ltb_spec 0 after.1).
    + pose proof (latest_item_spec n2 ch (after.1 - 1) Hn2 Hch ltac:(lia)) as Hl2.
      by destruct (latest_item nav n2 ch (after.1 - 1)).
    + split; [done|]. left. eexists. split; [done|]. unfold latest.
      assert (last (filter (λ m, sm_channel m = ch ∧ sm_time m ≤ after.1 - 1) src) = None) as ->; [|done].
      apply last_filter_None. intros y Hy [_ Hyt]. destruct (law_range y Hy). lia.
Qed.

Lemma predecessors_spec fuel n chs after :
  ok n → chs ⊆ channels → 0 ≤ after.1 < TIME_LIMIT → (length src < fuel)%nat →
  let '(n', r) := predecessors nav fuel n chs after in
  ok n' ∧ read_ok (λ items, Forall2 stands_for items (omap (λ c, last_upto c after) chs)) r.
Proof using All.
  intros Hn Hch Ht Hf. revert n Hn. induction chs as [|c chs IH]; intros n Hn; cbn [predecessors].
  { split; [done|]. left. eexists. split; [done|constructor]. }
  pose proof (predecessor_spec fuel n c after Hn ltac:(set_solver) Ht Hf) as Hp.
  destruct (predecessor nav fuel n c after) as [n1 r]. destruct Hp as [Hn1 Hr].
  destruct Hr as [(i & -> & Hi)|(Hc & e & He & ->)]; [|split; [done|]; right; by eauto].
  specialize (IH ltac:(set_solver) n1 Hn1).
  destruct (predecessors nav fuel n1 chs after) as [n2 rest]. destruct IH as [Hn2 Hr].
  split; [done|]. destruct Hr as [(items & -> & Hit)|(Hc & e & He & ->)]; [|right; by eauto].
  left. eexists. split; [done|]. cbn [omap list_omap].
  destruct i as [i|], (last_upto c after) as [m|]; try done. by constructor.
Qed.

(** [_reconstruct]: the last Message of each Channel up to the position, in
    publication order. *)
Lemma reconstruct_spec fuel n j after :
  ok n → jb_after j = Some after → jb_channels j ⊆ channels → 0 ≤ after.1 < TIME_LIMIT →
  (length src < fuel)%nat →
  let '(n', r) := reconstruct nav fuel n j in
  ok n' ∧ read_ok (λ x, Forall2 stands_for x.1
                          (merge_sort msg_le (omap (λ c, last_upto c after) (jb_channels j)))) r.
Proof using All.
  intros Hn Hj Hch Ht Hf. unfold reconstruct. rewrite Hj.
  pose proof (predecessors_spec fuel n (jb_channels j) after Hn Hch Ht Hf) as Hp.
  destruct (predecessors nav fuel n (jb_channels j) after) as [n1 r]. destruct Hp as [Hn1 Hr].
  split; [done|]. destruct Hr as [(items & -> & Hit)|(Hc & e & He & ->)]; [|right; by eauto].
  left. eexists. split; [done|]. cbn [fst]. apply sort_related; [|done].
  intros x y x' y' Hx%stands_for_key Hx'%stands_for_key. unfold item_le, msg_le. by rewrite Hx, Hx'.
Qed.

(** The Messages of some Channels after a position and up to a time. *)
Definition crossing (chs : list string) (after : Z * Z) (target : Z) : list source_message :=
  matching src chs after (target + 1).

Definition position_ok (a : Z * Z) : Prop := 0 ≤ a.1 ∧ BEFORE_INSTANT ≤ a.2 ≤ AFTER_INSTANT.

(** [_read]. *)
Lemma read_items_spec n r :
  ok n → NoDup (rd_channels r) → rd_channels r ⊆ channels → position_ok (rd_after r) →
  (rd_after r).1 ≤ rd_target r < TIME_LIMIT → limits_ok (rd_limits r) →
  let '(n', x) := read_items nav n r in
  ok n' ∧ read_ok (page_shows (rd_limits r) (crossing (rd_channels r) (rd_after r) (rd_target r))) x.
Proof using All.
  intros Hn Hnd Hch [Ht0 Hi] Ht Hl. unfold read_items. destruct (rd_after r) as [t i] eqn:Ha.
  cbn [fst snd] in *. rewrite (proj2 (Z.ltb_ge _ _)), orb_false_r by lia.
  destruct (bool_decide (rd_channels r = []) || ((t =? rd_target r) && (i =? AFTER_INSTANT))) eqn:Hearly.
  - assert (crossing (rd_channels r) (t, i) (rd_target r) = []) as ->.
    { apply filter_none, Forall_forall. intros m Hm (Hc & Hk & Htm).
      apply orb_true_iff in Hearly as [He|[He1%Z.eqb_eq He2%Z.eqb_eq]%andb_true_iff].
      - apply bool_decide_eq_true in He. rewrite He in Hc. by apply not_elem_of_nil in Hc.
      - destruct (law_range m Hm) as [? _]. unfold key_lt, msg_key in Hk. cbn in Hk. lia. }
    split; [done|]. left. eexists. split; [done|]. exists [], []. split_and!; try done.
    right. destruct Hl. split_and!; [done|unfold zlen; cbn [length]; lia|cbn [foldr]; lia].
  - apply orb_false_iff in Hearly as [He _]. apply bool_decide_eq_false in He.
    assert (crossing (rd_channels r) (t, i) (rd_target r)
            = matching src (rd_channels r)
                (start_position t (if i =? BEFORE_INSTANT then None else Some (t, i))) (rd_target r + 1)) as ->.
    { unfold crossing. destruct (Z.eqb_spec i BEFORE_INSTANT) as [->|]; done. }
    apply page_items_spec; try done; try lia. intros a.
    destruct (Z.eqb_spec i BEFORE_INSTANT); [done|]. intros [= <-]. cbn [fst snd].
    unfold BEFORE_INSTANT, AFTER_INSTANT, TIME_SHIFT in *. lia.
Qed.
End laws.

(** ** The Navigator of an index *)

Section navigation.
Context (zstd lz4 : bytes → Z → option bytes).
Context (seal : json → string) (unseal : string → option json).
Context (s : source) (f : bytes) (ids : list (string * Z)) (ix : index) (lim : limits).

(** The cache, and the identities that the coming checks will see. *)
Abbreviation nav_state := (cache * list (identity * identity))%type.

Definition next_seen (seen : list (identity * identity))
    : (identity * identity) * list (identity * identity) :=
  match seen with [] => ((so_identity s, so_identity s), []) | x :: seen => (x, seen) end.

Definition navigator_of : navigator nav_state :=
  mk_navigator nav_state
    (λ n chs start_ns end_ns token pl,
       let '((b, a), seen) := next_seen n.2 in
       let '(c, r) := messages zstd lz4 seal unseal s f ids ix lim n.1 (Some chs) start_ns end_ns token pl b a in
       ((c, seen), r))
    (λ chs start_ns end_ns time_ns record_index,
       continuation_after seal s (Some chs) start_ns end_ns time_ns record_index)
    (λ n chs time_ns,
       let '((b, a), seen) := next_seen n.2 in
       let '(c, r) := snapshot zstd lz4 s f ids ix lim n.1 (Some chs) time_ns b a in
       ((c, seen), r)).

Context (src : list source_message) (changes : Prop).
Context (Hcat : catalog_ok s ids ix) (Hlim : 0 ≤ lm_chunk_cache_bytes lim).
Context (Hshow : index_shows zstd lz4 f ids ix lim src).
Context (Hrange : ∀ m, m ∈ src → 0 ≤ sm_index m ≤ AFTER_INSTANT ∧ 0 ≤ sm_time m < TIME_LIMIT).
Context (Hseal : ∀ chs start_ns end_ns, unseals seal unseal (request_pin s chs start_ns end_ns)).

Definition nav_ok (n : nav_state) : Prop :=
  cache_ok zstd lz4 f lim n.1
  ∧ (changes ∨ Forall (λ x, x = (so_identity s, so_identity s)) n.2).

Lemma next_seen_ok n b a seen :
  nav_ok n → next_seen n.2 = ((b, a), seen) →
  (changes ∨ (b = so_identity s ∧ a = so_identity s)) ∧ (∀ c, cache_ok zstd lz4 f lim c → nav_ok (c, seen)).
Proof using Type.
  intros [_ Hs] Hn. destruct (n.2) as [|x l]; cbn in Hn; simplify_eq.
  - split; [by right|]. intros c Hc. split; [done|]. right. constructor.
  - destruct Hs as [Hc|Hall]; [split; [by left|]; intros c Hok; split; [done|by left]|].
    inversion Hall; simplify_eq. split; [by right|]. intros c Hc. split; [done|by right].
Qed.

Lemma continuation_after_token chs start_ns end_ns a :
  selection_ok s chs → 0 ≤ start_ns ≤ end_ns → end_ns ≤ TIME_LIMIT →
  after_ok start_ns end_ns (Some a) →
  continuation_after seal s (Some chs) start_ns end_ns a.1 a.2
  = Ok (continuation seal (request_pin s chs start_ns end_ns) a.1 a.2).
Proof using Type.
  intros Hsel Hse Hend Ha. destruct (Ha a eq_refl) as [Ht Hi]. unfold continuation_after.
  rewrite select_ok by done. cbn [lift_source]. mcbn. unfold require_time.
  rewrite !(proj2 (in_range_true _ _ _)) by (unfold TIME_LIMIT, TIME_SHIFT in *; lia). mcbn.
  rewrite (proj2 (Z.leb_le _ _)), (proj2 (Z.ltb_lt _ _)) by lia. done.
Qed.

Lemma navigation_messages n chs start_ns end_ns after pl :
  nav_ok n → request_ok s chs start_ns end_ns pl → after_ok start_ns end_ns after →
  let '(n', r) := nav_messages navigator_of n chs start_ns end_ns
                    (token_of seal s chs start_ns end_ns after) pl in
  nav_ok n'
  ∧ (page_answer (lm_max_message_bytes lim) pl
       (matching src chs (start_position start_ns after) end_ns) r
     ∨ changes ∧ ∃ e, fatal e ∧ r = Err e).
Proof using Hcat Hlim Hshow Hseal.
  intros Hn Hreq Ha. cbn [navigator_of nav_messages].
  destruct (next_seen n.2) as [[b a] seen] eqn:Hseen. destruct (next_seen_ok n b a seen Hn Hseen) as [Hba Hok].
  destruct Hn as [Hc _].
  destruct (messages_spec zstd lz4 seal unseal s f ids ix lim src n.1 chs start_ns end_ns after pl)
    as (c' & Hc' & Hm); try done.
  pose proof (messages_changes zstd lz4 seal unseal s f ids ix lim n.1 (Some chs) start_ns end_ns
                (token_of seal s chs start_ns end_ns after) pl b a) as Hch. cbn zeta in Hch.
  destruct (messages zstd lz4 seal unseal s f ids ix lim n.1 (Some chs) start_ns end_ns _ pl b a) as [c r] eqn:Hr.
  rewrite Hm in Hch. cbn [fst snd] in Hch.
  assert (((c, r) = (c', match page_of (lm_max_message_bytes lim) pl
               (matching src chs (start_position start_ns after) end_ns) with
           | Err e => Err (NLimit (Some e))
           | Ok (ms, complete) => Ok (mk_page ms (if complete then None else
               token_of seal s chs start_ns end_ns (msg_key <$> last ms)) complete)
           end)) ∨ (changes ∧ r = Err (NSource SourceChanged) ∧ (c = n.1 ∨ c = c'))) as [E|(Hcs & -> & Hcc)].
  { destruct Hba as [Hcs|[-> ->]]; [|left; by rewrite <- Hm, <- Hr].
    destruct Hch as [Hch|[Hch1 Hch2]]; [by left|by right]. }
  - injection E as -> ->. split; [by apply Hok|]. left. unfold page_answer.
    destruct (page_of _ _ _) as [[ms complete]|]; [by eexists|done].
  - split; [apply Hok; by destruct Hcc as [-> | ->]|]. right. split; [done|].
    eexists. split; [by eexists|done].
Qed.

Lemma navigation_snapshot n ch time_ns :
  nav_ok n → ch ∈ sc_name <$> so_channels s → 0 ≤ time_ns < TIME_LIMIT →
  let '(n', r) := nav_snapshot navigator_of n [ch] time_ns in
  nav_ok n' ∧ (r = latest_answer (lm_max_message_bytes lim) ch (latest src ch time_ns)
               ∨ changes ∧ ∃ e, fatal e ∧ r = Err e).
Proof using Hcat Hlim Hshow.
  intros Hn Hin Ht. cbn [navigator_of nav_snapshot].
  destruct (next_seen n.2) as [[b a] seen] eqn:Hseen. destruct (next_seen_ok n b a seen Hn Hseen) as [Hba Hok].
  destruct Hn as [Hc _].
  destruct (snapshot_spec zstd lz4 s f ids ix lim src n.1 ch time_ns) as (c' & Hc' & Hm); try done.
  fold (latest_answer (lm_max_message_bytes lim) ch (latest src ch time_ns)) in Hm.
  pose proof (snapshot_changes zstd lz4 s f ids ix lim n.1 (Some [ch]) time_ns b a) as Hch. cbn zeta in Hch.
  destruct (snapshot zstd lz4 s f ids ix lim n.1 (Some [ch]) time_ns b a) as [c r] eqn:Hr.
  rewrite Hm in Hch. cbn [fst snd] in Hch.
  destruct Hch as [[= -> ->]|[-> Hcc]]; [by split; [apply Hok|left]|].
  destruct Hba as [Hcs|[-> ->]].
  - split; [apply Hok; by destruct Hcc as [-> | ->]|]. right. split; [done|]. eexists. split; [by eexists|done].
  - rewrite Hm in Hr. injection Hr as <- Hr. split; [by apply Hok|]. left. by rewrite Hr.
Qed.

#[export] Instance navigation_laws :
  navigator_laws navigator_of nav_ok src (sc_name <$> so_channels s) (lm_max_message_bytes lim) changes.
Proof using Hcat Hlim Hshow Hrange Hseal.
  split.
  - eapply index_shows_sorted; [apply (co_distinct _ _ _ Hcat)|exact Hshow].
  - exact Hrange.
  - intros n chs start_ns end_ns after pl Hn Hne Hnd Hsub Hse Hend Hl Ha.
    assert (selection_ok s chs) as Hsel by done.
    pose proof (navigation_messages n chs start_ns end_ns after pl Hn) as Hm.
    destruct (nav_messages navigator_of n chs start_ns end_ns _ pl) as [n' r] eqn:Hr.
    destruct Hm as [Hn' Hr']; [done|done|].
    exists (token_of seal s chs start_ns end_ns after), n', r. split_and!; [|done..].
    destruct after as [a|]; [|done]. eexists. split; [by apply continuation_after_token|done].
  - intros n ch time_ns Hn Hch Ht. pose proof (navigation_snapshot n ch time_ns Hn Hch Ht) as Hm.
    destruct (nav_snapshot navigator_of n [ch] time_ns) as [n' r] eqn:Hr. destruct Hm. by eauto.
Qed.
End navigation.

(** ** A Navigator to try *)

(** A text for the continuations of every request. *)
Fixpoint positive_text (p : positive) : string :=
  match p with
  | xH => ""
  | xO p => String "0"%char (positive_text p)
  | xI p => String "1"%char (positive_text p)
  end.
Fixpoint text_positive (t : string) : positive :=
  match t with
  | EmptyString => xH
  | String "0"%char t => xO (text_positive t)
  | String _ t => xI (text_positive t)
  end.
Definition text_seal (j : json) : string := positive_text (encode j).
Definition text_unseal (t : string) : option json := decode (text_positive t).

Lemma text_unseals p : unseals text_seal text_unseal p.
Proof.
  intros t i _ _. unfold continuation, text_seal, text_unseal.
  assert (∀ q, text_positive (positive_text q) = q) as -> by (induction q; cbn; by f_equal).
  by rewrite decode_encode.
Qed.

Definition demo_navigator : navigator (cache * list (identity * identity)) :=
  navigator_of no_codec no_codec text_seal text_unseal demo_source demo_stored (channel_ids demo_summary)
    demo_index demo_limits.
Definition demo_messages : list source_message :=
  [mk_source_message 1 "b" 5 [x11]; mk_source_message 0 "a" 9 [x10];
   mk_source_message 2 "a" 12 [x20]; mk_source_message 3 "b" 12 [x21]].
Definition demo_cache : cache * list (identity * identity) := (mk_cache [] 0, []).
Definition demo_ok : cache * list (identity * identity) → Prop :=
  nav_ok no_codec no_codec demo_source demo_stored demo_limits False.

Lemma demo_laws : navigator_laws demo_navigator demo_ok demo_messages ["a"; "b"]%string 100 False.
Proof.
  assert (demo_messages = merge_sort msg_le (named demo_summary <$> demo_scan)) as E by (vm_compute; reflexivity).
  apply (navigation_laws no_codec no_codec text_seal text_unseal demo_source demo_stored (channel_ids demo_summary)
           demo_index demo_limits).
  - exact (built_catalog _ _ _ _ demo_catalog demo_channel_ids _ _ _ _ _ _ _ demo_scanned Nat.lt_0_1 demo_built).
  - vm_compute. discriminate.
  - rewrite E. eapply built_shows; [exact demo_catalog|exact demo_channel_ids|exact demo_scanned|exact Nat.lt_0_1|exact demo_built].
  - apply Forall_forall. unfold demo_messages, AFTER_INSTANT, TIME_LIMIT. repeat constructor; discriminate.
  - intros chs start_ns end_ns. apply text_unseals.
Qed.

Lemma demo_start_ok : demo_ok demo_cache.
Proof. split; [|right; constructor]. split; [constructor|by intros ? ? ?%not_elem_of_nil|done|done]. Qed.
