(* ===== verification/PlaybackProofs.v ===== *)
(** * The playback controller: its machine and its bounds

    The controller of [Playback] as a machine of commands, drains and the two
    halves of [pump] over any Navigator that keeps [navigator_laws].

    [queue_bounded]: whatever the commands and however they come between the
    halves of a [pump], the queue stays within its limits and the Navigator is
    never used after it is closed. The lemmas here give every step a form (what
    it does to the queue, and what to the rest) that the files on requests,
    delivery and liveness share. *)

From Stdlib Require Import ZArith Lia.
From S2P Require Import Prelude PyFloat Json SchemaTypes Schema Pointer Recording.
From S2P Require Import Interchange VizSource Navigation NavigationProofs Playback PlaybackReads.

Ltac pcbn := cbn [ps_generation ps_flushed ps_playing ps_rate ps_cursor ps_after ps_anchor ps_stall_target ps_ended
  ps_closed ps_busy ps_more ps_fault ps_fresh ps_subscription ps_unreconstructed ps_staged
  ps_reset_pending ps_seek ps_seek_after ps_seek_request ps_request_id ps_requests ps_queue
  ps_queued_messages ps_queued_bytes ps_nav_open set_generation set_flushed set_playing set_rate
  set_cursor set_after set_anchor set_stall_target set_ended set_closed set_busy set_more set_fault
  set_fresh set_subscription set_unreconstructed set_staged set_reset_pending set_seek
  set_seek_after set_seek_request set_request_id set_requests set_queue set_queued_messages
  set_queued_bytes set_nav_open] in *.
Ltac pgoal := cbn [ps_generation ps_flushed ps_playing ps_rate ps_cursor ps_after ps_anchor ps_stall_target ps_ended
  ps_closed ps_busy ps_more ps_fault ps_fresh ps_subscription ps_unreconstructed ps_staged
  ps_reset_pending ps_seek ps_seek_after ps_seek_request ps_request_id ps_requests ps_queue
  ps_queued_messages ps_queued_bytes ps_nav_open set_generation set_flushed set_playing set_rate
  set_cursor set_after set_anchor set_stall_target set_ended set_closed set_busy set_more set_fault
  set_fresh set_subscription set_unreconstructed set_staged set_reset_pending set_seek
  set_seek_after set_seek_request set_request_id set_requests set_queue set_queued_messages
  set_queued_bytes set_nav_open].


(** ** The queue and its counters *)

Definition messages_in (n : notification) : Z :=
  match channel_of_notification n with Some _ => 1 | None => 0 end.
Definition bytes_in (n : notification) : Z :=
  match n with NMessage _ m | NBackfill _ m => zlen (sm_data m) | _ => 0 end.
Definition total (f : notification → Z) (q : list notification) : Z := foldr (λ n z, f n + z) 0 q.

Lemma total_cons f n q : total f (n :: q) = f n + total f q.
Proof. done. Qed.
Lemma total_app f q k : total f (q ++ k) = total f q + total f k.
Proof. induction q as [|n q IH]; [done|]. rewrite <- app_comm_cons, !total_cons. lia. Qed.
Lemma total_nonneg f q : (∀ n, 0 ≤ f n) → 0 ≤ total f q.
Proof. intros Hf. induction q as [|n q IH]; rewrite ?total_cons; [done|]. specialize (Hf n). lia. Qed.
Lemma messages_in_nonneg n : 0 ≤ messages_in n.
Proof. unfold messages_in. destruct (channel_of_notification n); lia. Qed.
Lemma bytes_in_nonneg n : 0 ≤ bytes_in n.
Proof. destruct n; cbn; try apply zlen_nonneg; lia. Qed.
Lemma total_sublist f q k : (∀ n, 0 ≤ f n) → q `sublist_of` k → total f q ≤ total f k.
Proof.
  intros Hf. induction 1 as [|n q k _ IH|n q k _ IH]; [done|..]; rewrite ?total_cons; [lia|].
  specialize (Hf n). lia.
Qed.

(** The controller with another queue and its counters. *)
Definition with_queue (q : list notification) (p : playback) : playback :=
  set_queue q (set_queued_messages (total messages_in q) (set_queued_bytes (total bytes_in q) p)).

Definition counted (p : playback) : Prop :=
  ps_queued_messages p = total messages_in (ps_queue p) ∧ ps_queued_bytes p = total bytes_in (ps_queue p).

Lemma counted_with_queue q p : counted (with_queue q p).
Proof. done. Qed.

Definition push (n : notification) (q : list notification) : list notification :=
  match is_state_changed n, last q with
  | true, Some (NStateChanged _) => removelast q ++ [n]
  | _, _ => q ++ [n]
  end.

Lemma removelast_snoc {A} (l : list A) x : removelast (l ++ [x]) = l.
Proof. rewrite List.removelast_app by done. cbn. by rewrite app_nil_r. Qed.

Lemma total_push f n q :
  (∀ v, f (NStateChanged v) = 0) → total f (push n q) = total f q + f n.
Proof.
  intros Hf. unfold push. destruct (is_state_changed n), (last q) as [[]|] eqn:Hl;
    rewrite ?total_app; cbn [total foldr]; try lia.
  apply last_Some in Hl as [l ->]. rewrite removelast_snoc, total_app. cbn [total foldr]. rewrite Hf. lia.
Qed.

Lemma playback_eta p :
  p = set_queue (ps_queue p) (set_queued_messages (ps_queued_messages p) (set_queued_bytes (ps_queued_bytes p) p)).
Proof. by destruct p. Qed.

Lemma account_form n sign p :
  account n sign p
  = set_queued_messages (ps_queued_messages p + sign * messages_in n)
      (set_queued_bytes (ps_queued_bytes p + sign * bytes_in n) p).
Proof.
  destruct n; cbn [account messages_in channel_of_notification bytes_in];
    rewrite ?Z.mul_0_r, ?Z.mul_1_r, ?Z.add_0_r; destruct p; reflexivity.
Qed.

Lemma enqueue_push n p : counted p → enqueue n p = with_queue (push n (ps_queue p)) p.
Proof.
  intros [Hm Hb]. pose proof (total_push messages_in n (ps_queue p) ltac:(done)) as H1.
  pose proof (total_push bytes_in n (ps_queue p) ltac:(done)) as H2.
  unfold with_queue. rewrite H1, H2, <- Hm, <- Hb. clear Hm Hb H1 H2.
  unfold enqueue, push. destruct n, (last (ps_queue p)) as [[]|]; cbn [is_state_changed account messages_in
    channel_of_notification bytes_in]; rewrite ?Z.add_0_r, ?Z.mul_1_l; destruct p; reflexivity.
Qed.

Lemma account_all q acc :
  counted acc → foldl (λ p n, account n 1 (set_queue (ps_queue p ++ [n]) p)) acc q
  = with_queue (ps_queue acc ++ q) acc.
Proof.
  revert acc. induction q as [|n q IH]; intros acc [Hm Hb]; cbn [foldl].
  { rewrite app_nil_r. unfold with_queue. rewrite <- Hm, <- Hb. apply playback_eta. }
  assert (account n 1 (set_queue (ps_queue acc ++ [n]) acc) = with_queue (ps_queue acc ++ [n]) acc) as ->.
  { unfold with_queue. rewrite !total_app, <- Hm, <- Hb. cbn [total foldr].
    destruct n; cbn [account messages_in channel_of_notification bytes_in];
      rewrite ?Z.add_0_r, ?Z.mul_1_l; destruct acc; reflexivity. }
  rewrite IH by apply counted_with_queue. cbn [with_queue ps_queue set_queue]. rewrite <- app_assoc. done.
Qed.

Lemma drop_queued_filter f p :
  drop_queued f p = with_queue (filter (λ n, f n = false) (ps_queue p)) p.
Proof. unfold drop_queued. rewrite account_all by done. done. Qed.

Lemma drop_all p : drop_queued (λ _, true) p = with_queue [] p.
Proof.
  rewrite drop_queued_filter. f_equal. apply filter_none, Forall_forall. done.
Qed.

Lemma drain_drop mx p :
  counted p → ∃ k, (drain mx p).1 = with_queue (drop k (ps_queue p)) p ∧ (drain mx p).2 = take k (ps_queue p).
Proof.
  intros [Hm Hb]. unfold drain. set (k := Z.to_nat _). exists k. split; [|done]. cbn [fst].
  assert (∀ l acc, foldl (λ p n, account n (-1) p) acc l
    = set_queued_messages (ps_queued_messages acc - total messages_in l)
        (set_queued_bytes (ps_queued_bytes acc - total bytes_in l) acc)) as Hf.
  { induction l as [|n l IH]; intros acc; cbn [foldl].
    - cbn [total foldr]. rewrite !Z.sub_0_r. by destruct acc.
    - rewrite IH, account_form, !total_cons. pgoal. rewrite !Z.sub_add_distr.
      replace (ps_queued_messages acc + -1 * messages_in n) with (ps_queued_messages acc - messages_in n) by lia.
      replace (ps_queued_bytes acc + -1 * bytes_in n) with (ps_queued_bytes acc - bytes_in n) by lia. reflexivity. }
  rewrite Hf. pgoal. pose proof (total_app messages_in (take k (ps_queue p)) (drop k (ps_queue p))) as Em.
  pose proof (total_app bytes_in (take k (ps_queue p)) (drop k (ps_queue p))) as Eb.
  rewrite take_drop, <- Hm in Em. rewrite take_drop, <- Hb in Eb.
  rewrite Em, Eb, !Z.add_simpl_l. reflexivity.
Qed.

(** ** The machine *)

Inductive event :=
| EConfigure (request_id position_ns playing rate : json) (now : Z)
| ESubscribe (names : list string) (now : Z)
| EDisconnect
| EClose
| EDrain (max_items : option Z)
| EPump (now : Z)
| EFinish (now : Z).

Section machine.
Context {N} (nav : navigator N) (cf : config) (fuel : nat).

(** The controller, the work whose read is in progress, and the Navigator. *)
Record system := mk_system { sy_play : playback; sy_work : option work; sy_nav : N }.

Definition with_play (p : playback) (s : system) : system := mk_system p (sy_work s) (sy_nav s).

Definition run_event (e : event) (s : system) : system :=
  let p := sy_play s in
  match e with
  | EConfigure request_id position_ns playing rate now =>
      with_play (configure cf request_id position_ns playing rate now p).1 s
  | ESubscribe names now => with_play (set_subscription_command cf names now p).1 s
  | EDisconnect => with_play (disconnect cf p).1 s
  | EClose => with_play (close cf p) s
  | EDrain max_items => with_play (drain max_items p).1 s
  | EPump now =>
      let '(p', w) := pump_begin cf now p in
      mk_system p' (match w with Some w => Some w | None => sy_work s end) (sy_nav s)
  | EFinish now =>
      match sy_work s with
      | None => s
      | Some w =>
          let '(n', found) := perform nav fuel (sy_nav s) w in
          mk_system (pump_end cf w found now p) None n'
      end
  end.

Definition step (s : system) (e : event) (s' : system) : Prop := s' = run_event e s.

Definition start (n : N) : system := mk_system (initial cf) None n.
End machine.
Arguments mk_system {_}.
Arguments sy_play {_}.
Arguments sy_work {_}.
Arguments sy_nav {_}.

(** ** Well-formed controllers *)

Section controller_facts.
Context (cf : config).

(** A configuration: a range of times or none, Channels, and positive limits. *)
Record config_ok : Prop := {
  co_range : match cf_start cf, cf_end cf with
             | Some a, Some e => 0 ≤ a ≤ e ∧ e < TIME_LIMIT
             | None, None => True
             | _, _ => False
             end;
  co_channels : NoDup (cf_channels cf);
  co_limits : 0 < ql_max_messages (cf_limits cf) ∧ 0 < ql_max_bytes (cf_limits cf);
}.

(** A position of the range. *)
Definition in_bounds (a : option (Z * Z)) : Prop :=
  match cf_start cf, cf_end cf, a with
  | Some s, Some e, Some x => s ≤ x.1 ≤ e ∧ BEFORE_INSTANT ≤ x.2 ≤ AFTER_INSTANT
  | None, None, None => True
  | _, _, _ => False
  end.

(** A time of the range. *)
Definition time_ok (t : Z) : Prop :=
  match cf_start cf, cf_end cf with Some s, Some e => s ≤ t ≤ e | _, _ => False end.

(** A rate of at least a tenth. *)
Definition rate_ok (b : Z) : Prop := ∃ z, float_x b = XFin z ∧ 2 ^ 1074 ≤ 10 * z.

Definition anchor_ok (a : Z * option Z) : Prop :=
  match a.2 with Some t => time_ok t | None => cf_start cf = None end.

Record play_ok (p : playback) : Prop := {
  po_counted : counted p;
  po_messages : total messages_in (ps_queue p) ≤ ql_max_messages (cf_limits cf);
  po_bytes : total bytes_in (ps_queue p) ≤ ql_max_bytes (cf_limits cf);
  po_after : in_bounds (ps_after p);
  po_cursor : ps_cursor p = fst <$> ps_after p;
  po_seek : ps_reset_pending p = true → in_bounds (ps_seek_after p) ∧ ps_seek p = fst <$> ps_seek_after p;
  po_playing : ps_playing p = true → is_Some (cf_start cf);
  po_subscription : NoDup (ps_subscription p) ∧ ps_subscription p ⊆ cf_channels cf;
  po_stall t : ps_stall_target p = Some t → time_ok t;
  po_rate : rate_ok (ps_rate p);
  po_anchor : anchor_ok (ps_anchor p);
  po_staged g : ps_staged p = Some g →
    jb_generation (sg_job g) = ps_generation p ∧ jb_reset (sg_job g) = ps_reset_pending p
    ∧ (jb_reset (sg_job g) = true → jb_after (sg_job g) = ps_seek_after p);
  po_open : ps_closed p = false → ps_nav_open p = true;
  po_busy : ps_busy p = true → ps_nav_open p = true;
}.

(** Work that a controller took, which later commands may have superseded. *)
Definition work_ok (p : playback) (w : work) : Prop :=
  match w with
  | WJob j =>
      jb_generation j ≤ ps_generation p ∧ jb_channels j ⊆ cf_channels cf ∧ in_bounds (jb_after j)
      ∧ (jb_generation j = ps_generation p →
         jb_reset j = ps_reset_pending p ∧ (jb_reset j = true → jb_after j = ps_seek_after p))
  | WRead r =>
      rd_generation r ≤ ps_generation p ∧ NoDup (rd_channels r) ∧ rd_channels r ⊆ cf_channels cf
      ∧ in_bounds (Some (rd_after r)) ∧ time_ok (rd_target r)
      ∧ limits_ok (rd_limits r)
      ∧ (rd_generation r = ps_generation p →
         rd_channels r = ps_subscription p ∧ ps_after p = Some (rd_after r)
         ∧ pl_max_rows (rd_limits r) + total messages_in (ps_queue p) ≤ ql_max_messages (cf_limits cf)
         ∧ pl_max_bytes (rd_limits r) + total bytes_in (ps_queue p) ≤ ql_max_bytes (cf_limits cf)
         ∧ (rd_queue_empty r = true → total messages_in (ps_queue p) = 0))
  end.

Lemma unit_rate_ok : rate_ok UNIT_RATE.
Proof. eexists. split; [reflexivity|]. apply Z.leb_le. vm_compute. reflexivity. Qed.

Lemma initial_ok : config_ok → play_ok (initial cf).
Proof.
  intros [Hr _ Hl]. unfold initial. split; pgoal; try done; try (cbn; lia).
  - unfold in_bounds. destruct (cf_start cf), (cf_end cf); cbn; try done.
    unfold BEFORE_INSTANT, AFTER_INSTANT. lia.
  - by destruct (cf_start cf).
  - split; [constructor|]. by intros ? ?%not_elem_of_nil.
  - exact unit_rate_ok.
  - unfold anchor_ok, time_ok. cbn. destruct (cf_start cf), (cf_end cf); try done; lia.
Qed.

Lemma cursor_time p t : play_ok p → ps_cursor p = Some t → time_ok t.
Proof.
  intros Hp Hc. rewrite (po_cursor _ Hp) in Hc. pose proof (po_after _ Hp) as Ha. unfold in_bounds, time_ok in *.
  destruct (cf_start cf), (cf_end cf), (ps_after p); try done. injection Hc as <-. lia.
Qed.

Lemma cursor_anchor now p : play_ok p → anchor_ok (now, ps_cursor p).
Proof.
  intros Hp. unfold anchor_ok. cbn. destruct (ps_cursor p) as [t|] eqn:Hc; [by eapply cursor_time|].
  rewrite (po_cursor _ Hp) in Hc. pose proof (po_after _ Hp) as Ha. unfold in_bounds in Ha.
  destruct (cf_start cf), (cf_end cf), (ps_after p); done.
Qed.

Lemma scaled_nonneg elapsed b : rate_ok b → 0 ≤ elapsed → 0 ≤ scaled elapsed b.
Proof.
  intros (z & Hz & Hl) He. unfold scaled. rewrite Hz. apply Z.div_pos; [|apply Z.pow_pos_nonneg; lia].
  assert (0 < 2 ^ 1074) by (apply Z.pow_pos_nonneg; lia). nia.
Qed.

Lemma playhead_time now p : play_ok p → is_Some (cf_start cf) → config_ok → time_ok (playhead cf now p).
Proof.
  intros Hp [a Ha] Hc. pose proof (co_range Hc) as Hr. pose proof (po_anchor _ Hp) as Han.
  unfold anchor_ok, time_ok, playhead in *. destruct (ps_anchor p) as [t0 o]. cbn [snd] in Han.
  rewrite Ha in *. destruct (cf_end cf) as [e|]; [|done]. cbn [default from_option id].
  pose proof (scaled_nonneg (Z.max 0 (now - t0)) (ps_rate p) (po_rate _ Hp) ltac:(lia)).
  destruct o as [x|]; [|done]. cbn [default from_option id]. lia.
Qed.

(** A controller with another queue. *)
Lemma with_queue_ok q p :
  play_ok p → total messages_in q ≤ ql_max_messages (cf_limits cf) →
  total bytes_in q ≤ ql_max_bytes (cf_limits cf) → play_ok (with_queue q p).
Proof. intros [] Hm Hb. unfold with_queue. split; pgoal; done. Qed.

Lemma with_sublist_ok q p : play_ok p → q `sublist_of` ps_queue p → play_ok (with_queue q p).
Proof.
  intros Hp Hq. apply with_queue_ok; [done|..].
  - etrans; [by apply total_sublist; [apply messages_in_nonneg|]|apply (po_messages _ Hp)].
  - etrans; [by apply total_sublist; [apply bytes_in_nonneg|]|apply (po_bytes _ Hp)].
Qed.

Lemma limits_nonneg : config_ok → 0 ≤ ql_max_messages (cf_limits cf) ∧ 0 ≤ ql_max_bytes (cf_limits cf).
Proof. intros [_ _ []]. lia. Qed.

(** ** Commands *)

Lemma start_seek_ok a request p :
  config_ok → play_ok p → in_bounds a → play_ok (start_seek a request p).
Proof.
  intros [_ _ Hl] Hp Ha. unfold start_seek. rewrite drop_all. destruct Hp. unfold with_queue.
  split; pgoal; try done; try (cbn [total foldr]; lia).
Qed.

Lemma set_subscription_ok p names :
  play_ok p → NoDup names → names ⊆ cf_channels cf → play_ok (set_subscription names p).
Proof. intros [] ? ?. split; pgoal; done. Qed.

(** Changes that no clause of [play_ok] reads. *)
Lemma play_ok_frame p p' :
  play_ok p → counted p' → ps_queue p' = ps_queue p → ps_after p' = ps_after p → ps_cursor p' = ps_cursor p →
  ps_reset_pending p' = ps_reset_pending p → ps_seek_after p' = ps_seek_after p → ps_seek p' = ps_seek p →
  (ps_playing p' = true → is_Some (cf_start cf)) →
  ps_subscription p' = ps_subscription p →
  (ps_stall_target p' = None ∨ ps_stall_target p' = ps_stall_target p) →
  rate_ok (ps_rate p') → anchor_ok (ps_anchor p') →
  (ps_staged p' = None ∨ (ps_staged p' = ps_staged p ∧ ps_generation p' = ps_generation p)) →
  ps_closed p' = ps_closed p → ps_nav_open p' = ps_nav_open p →
  (ps_busy p' = ps_busy p ∨ ps_busy p' = false ∨ ps_closed p = false) →
  play_ok p'.
Proof.
  intros [] Hc Hq Ha Hcu Hrp Hsa Hs Hpl Hsub Hst Hra Han Hsg Hcl Hno Hbu.
  split; rewrite ?Hq, ?Ha, ?Hcu, ?Hrp, ?Hsa, ?Hs, ?Hsub, ?Hcl, ?Hno; try done.
  - intros t Ht. destruct Hst as [Hst|Hst]; rewrite Hst in Ht; [done|by apply po_stall0].
  - intros g Hg. destruct Hsg as [Hsg|[Hsg Hgen]]; rewrite Hsg in Hg; [done|].
    rewrite Hgen. by apply po_staged0.
  - intros Hb. destruct Hbu as [Hbu|[Hbu|Hbu]]; [|congruence|by apply po_open0].
    apply po_busy0. by rewrite <- Hbu.
Qed.

(** What a step that does no work keeps for work in progress: a new generation,
    or the position and the room it counts on. *)
Definition keeps (p p' : playback) : Prop :=
  ps_generation p < ps_generation p'
  ∨ (ps_generation p' = ps_generation p ∧ ps_reset_pending p' = ps_reset_pending p
     ∧ ps_seek_after p' = ps_seek_after p ∧ ps_subscription p' = ps_subscription p
     ∧ ps_after p' = ps_after p ∧ total messages_in (ps_queue p') ≤ total messages_in (ps_queue p)
     ∧ total bytes_in (ps_queue p') ≤ total bytes_in (ps_queue p)).

Lemma keeps_refl p : keeps p p.
Proof. right. split_and!; done. Qed.

Lemma keeps_trans p q r : keeps p q → keeps q r → keeps p r.
Proof.
  intros [H1|(H1 & H2 & H3 & H4 & H5 & H6 & H7)] [K1|(K1 & K2 & K3 & K4 & K5 & K6 & K7)].
  - left. lia.
  - left. lia.
  - left. lia.
  - right. split_and!; (congruence || lia).
Qed.

Lemma work_ok_keeps p p' w : keeps p p' → work_ok p w → work_ok p' w.
Proof.
  intros [Hg|(Hg & Hrp & Hsa & Hsub & Ha & Hm & Hb)]; destruct w as [j|r]; cbn.
  - intros (H1 & H2 & H3 & H4). split_and!; [lia|done|done|lia].
  - intros (H1 & H2 & H3 & H4 & H5 & H6 & H7). split_and!; try done; lia.
  - by rewrite Hg, Hrp, Hsa.
  - rewrite Hg, Hsub, Ha. intros (H1 & H2 & H3 & H4 & H5 & H6 & H7). split_and!; try done.
    intros E. destruct (H7 E) as (K1 & K2 & K3 & K4 & K5). split_and!; try done; try lia.
    intros He. specialize (K5 He). pose proof (total_nonneg messages_in (ps_queue p') messages_in_nonneg). lia.
Qed.

(** A step that commands take: it keeps the controller well formed. *)
Definition fine (p p' : playback) : Prop := play_ok p' ∧ keeps p p'.

Lemma fine_trans p q r : fine p q → (play_ok q → fine q r) → fine p r.
Proof. intros [Hq Hk] Hr. destruct (Hr Hq) as [? ?]. split; [done|]. by eapply keeps_trans. Qed.

Ltac frame Hp := split; [eapply play_ok_frame; [exact Hp|..]; pgoal; auto; done
                        |right; pgoal; split_and!; try done; lia].

Lemma start_seek_fine a request p :
  config_ok → play_ok p → in_bounds a → fine p (start_seek a request p).
Proof.
  intros Hc Hp Ha. split; [by apply start_seek_ok|]. left. unfold start_seek. rewrite drop_all.
  unfold with_queue. pgoal. lia.
Qed.

Lemma check_rate_ok v p n b : check_rate cf v p = Ok (Some (n, b)) → rate_ok b.
Proof.
  unfold check_rate.
  assert (∃ z, float_x MIN_RATE = XFin z ∧ 2 ^ 1074 ≤ 10 * z ∧ 0 < z) as (mn & Emin & Hmin & Hmn).
  { eexists. split; [reflexivity|]. split; [apply Z.leb_le|apply Z.ltb_lt]; vm_compute; reflexivity. }
  destruct v as [| |z|c| | |]; try discriminate.
  - destruct (float_of_int z) as [b'|] eqn:Hb; [|discriminate].
    destruct (num_le (PFloat MIN_RATE) (PInt z) && num_le (PInt z) (PFloat MAX_RATE)) eqn:Hbd; [|discriminate].
    intros [= <- <-]. apply andb_true_iff in Hbd as [Hlo Hhi].
    assert (1 ≤ z ≤ 10) as Hz.
    { assert (0 < 2 ^ 1074) by (apply Z.pow_pos_nonneg; lia).
      unfold num_le, num_x, x_le, x_lt, x_eq in Hlo, Hhi. rewrite Emin in Hlo.
      assert (float_x MAX_RATE = XFin (10 * 2 ^ 1074)) as Emax by (vm_compute; reflexivity).
      rewrite Emax in Hhi. apply orb_true_iff in Hlo, Hhi. rewrite Z.ltb_lt, Z.eqb_eq in Hlo, Hhi. nia. }
    assert (z ∈ [1; 2; 3; 4; 5; 6; 7; 8; 9; 10]) as Hin by (rewrite !elem_of_cons; lia).
    clear -Hin Hb. repeat (apply elem_of_cons in Hin as [->|Hin];
      [vm_compute in Hb; injection Hb as <-; eexists; split; [reflexivity|];
       apply Z.leb_le; vm_compute; reflexivity|]).
    by apply not_elem_of_nil in Hin.
  - destruct (is_finite64 c && _) eqn:Hbd; [|discriminate]. intros [= <- <-].
    apply andb_true_iff in Hbd as [Hf Hbd]. apply andb_true_iff in Hbd as [Hlo _].
    destruct (proj1 (num_finite_x (PFloat c)) Hf) as [z Hz]. cbn [num_x] in Hz. exists z. split; [done|].
    unfold num_le, num_x, x_le, x_lt, x_eq in Hlo. rewrite Emin, Hz in Hlo.
    apply orb_true_iff in Hlo. rewrite Z.ltb_lt, Z.eqb_eq in Hlo. lia.
Qed.

Lemma running_playing p : running p = true → ps_playing p = true.
Proof. unfold running. by intros [[[? _]%andb_true_iff _]%andb_true_iff _]%andb_true_iff. Qed.

Lemma apply_rate_fine r now p :
  config_ok → play_ok p → (∀ n b, r = Some (n, b) → rate_ok b) → fine p (apply_rate cf r now p).
Proof.
  intros Hc Hp Hr. unfold apply_rate. destruct r as [[n b]|]; [|by split; [|apply keeps_refl]].
  destruct (num_eq _ _); [by split; [|apply keeps_refl]|]. specialize (Hr n b eq_refl).
  pose proof (po_counted _ Hp). pose proof (po_playing _ Hp) as Hpl. pose proof (po_anchor _ Hp).
  destruct (running p) eqn:Hrun; [|frame Hp].
  assert (anchor_ok (now, Some (playhead cf now p))).
  { apply (playhead_time now p Hp); [by apply Hpl, running_playing|done]. }
  frame Hp.
Qed.

Lemma apply_playing_fine b now p : play_ok p → fine p (apply_playing cf b now p).
Proof.
  intros Hp. pose proof (po_counted _ Hp). pose proof (po_playing _ Hp). pose proof (po_rate _ Hp).
  pose proof (po_anchor _ Hp). pose proof (cursor_anchor now p Hp). unfold apply_playing.
  destruct (negb b); [frame Hp|]. destruct (bool_decide (cf_start cf = None)) eqn:Hs; [frame Hp|].
  apply bool_decide_eq_false in Hs. destruct (ps_playing p) eqn:Hpl; [by split; [|apply keeps_refl]|].
  assert (is_Some (cf_start cf)) by (by apply not_eq_None_Some). frame Hp.
Qed.

Lemma apply_position_fine t pl request p :
  config_ok → play_ok p →
  match t with Some t => in_bounds (Some (t, AFTER_INSTANT)) | None => True end →
  fine p (apply_position cf t pl request p).
Proof.
  intros Hc Hp Ht. unfold apply_position. destruct t as [t|]; [by apply start_seek_fine|].
  destruct pl as [[]|]; try (by split; [|apply keeps_refl]).
  destruct (cf_start cf) as [a|] eqn:Ha; [|by split; [|apply keeps_refl]].
  destruct (ps_ended p); [|by split; [|apply keeps_refl]]. apply start_seek_fine; [done|done|].
  unfold in_bounds. pose proof (co_range Hc) as Hr. rewrite Ha in *.
  destruct (cf_end cf); [|done]. unfold BEFORE_INSTANT, AFTER_INSTANT. cbn. lia.
Qed.

Lemma check_position_bounds v p t :
  check_position cf v p = Ok (Some t) → in_bounds (Some (t, AFTER_INSTANT)).
Proof.
  unfold check_position, in_bounds. destruct v; try done.
  destruct (cf_start cf), (cf_end cf); try done. destruct (in_range _ _ _) eqn:Hr; [|done].
  intros [= <-]. apply in_range_true in Hr. unfold BEFORE_INSTANT, AFTER_INSTANT. cbn. lia.
Qed.

Lemma configure_fine request_id position_ns playing rate now p :
  config_ok → play_ok p → fine p (configure cf request_id position_ns playing rate now p).1.
Proof.
  intros Hc Hp. assert (fine p p) as Hpp by (split; [done|apply keeps_refl]). unfold configure.
  destruct (_ ← check_open cf p; _) as [request|e]; [|done].
  destruct (dget _ _) as [[cached st]|]; [done|].
  destruct (t ← check_position cf position_ns p; _) as [[[t pl] r]|e] eqn:Hch; [|done].
  apply bind_Ok in Hch as (t' & Ht & (pl' & _ & (r' & Hr & [= -> -> ->])%bind_Ok)%bind_Ok). cbn [fst].
  eapply fine_trans; [apply (apply_rate_fine r now); [done|done|]|intros Hp1].
  { intros n b ->. by eapply check_rate_ok. }
  eapply fine_trans; [apply (apply_position_fine t pl request); [done|done|]|intros Hp2].
  { destruct t as [t|]; [by eapply check_position_bounds|done]. }
  eapply (fine_trans _ (match pl with None => _ | Some b => apply_playing cf b now _ end)).
  { destruct pl; [by apply apply_playing_fine|split; [exact Hp2|apply keeps_refl]]. }
  intros Hp3. pose proof (po_counted _ Hp3). pose proof (po_playing _ Hp3). pose proof (po_rate _ Hp3).
  pose proof (po_anchor _ Hp3). frame Hp3.
Qed.

Lemma discard_staged_form p :
  ∃ u, discard_staged p = set_staged None (set_unreconstructed u p) ∧ u ⊆ ps_unreconstructed p.
Proof.
  unfold discard_staged. destruct (ps_staged p) as [g|]; [destruct (jb_reset (sg_job g))|].
  2: { eexists. split; [reflexivity|]. set_solver. }
  all: exists (ps_unreconstructed p); split; [by destruct p|done].
Qed.

Lemma subscribe_fine wanted now p :
  config_ok → play_ok p → NoDup wanted → wanted ⊆ cf_channels cf → fine p (subscribe wanted now p).
Proof.
  intros Hc Hp Hnd Hsub. unfold subscribe.
  destruct (discard_staged_form p) as (u & -> & _). rewrite drop_queued_filter.
  set (added := filter _ wanted). set (removed := filter _ (ps_subscription p)).
  set (p4 := set_subscription wanted _).
  set (p5 := if stalled p4 then set_anchor (now, ps_cursor p4) (set_stall_target None p4) else p4).
  set (q := filter _ (ps_queue p5)).
  assert (ps_queue p5 = ps_queue p) as Hq by (unfold p5; by destruct (stalled p4)).
  assert (play_ok p5) as Hp5.
  { pose proof (cursor_anchor now p Hp). pose proof Hp as []. unfold p5. destruct (stalled p4); unfold p4; split; pgoal; try done. }
  assert (play_ok (with_queue q p5)) as Hp6.
  { apply with_sublist_ok; [done|]. apply sublist_filter. }
  assert (ps_generation p < ps_generation (with_queue q p5)) as Hg.
  { unfold with_queue, p5. destruct (stalled p4); unfold p4; pgoal; lia. }
  destruct (ps_fresh (with_queue q p5) && _); [|by split; [|left]].
  set (p6 := with_queue q p5) in *. set (p7 := set_fresh false p6).
  assert (play_ok p7) as Hp7 by (destruct Hp6; unfold p7; split; pgoal; done).
  assert (in_bounds (if ps_reset_pending p7 then ps_seek_after p7 else ps_after p7)) as Hb.
  { destruct (ps_reset_pending p7) eqn:Hrp; [by apply (po_seek _ Hp7)|apply (po_after _ Hp7)]. }
  destruct (start_seek_fine _ None p7 Hc Hp7 Hb) as [H1 [H2|(H2 & _)]]; (split; [done|]); left;
    change (ps_generation p7) with (ps_generation p6) in H2; lia.
Qed.

Lemma set_subscription_command_fine names now p :
  config_ok → play_ok p → fine p (set_subscription_command cf names now p).1.
Proof.
  intros Hc Hp. assert (fine p p) by (split; [done|apply keeps_refl]). unfold set_subscription_command.
  destruct (check_open cf p); [|done].
  destruct (bool_decide (names ⊆ _) && bool_decide (NoDup names)); cbn [negb fst]; [|done].
  case_bool_decide; cbn [fst]; [done|]. apply subscribe_fine; [done|done|..].
  - apply NoDup_filter, (co_channels Hc).
  - intros c [_ ?]%list_elem_of_filter. done.
Qed.

Lemma disconnect_fine p : config_ok → play_ok p → fine p (disconnect cf p).1.
Proof.
  intros Hc Hp. pose proof (limits_nonneg Hc). unfold disconnect.
  destruct (ps_closed p); [by split; [|apply keeps_refl]|]. cbn [fst]. rewrite drop_all. destruct Hp.
  split; [|left; unfold with_queue; pgoal; lia]. unfold with_queue. split; pgoal; try done; try (cbn [total foldr]; lia).
  split; [constructor|]. by intros ? ?%not_elem_of_nil.
Qed.

(** A notification that is not a Message needs no room. *)
Lemma enqueue_fine n p :
  play_ok p → messages_in n = 0 → bytes_in n = 0 → fine p (enqueue n p).
Proof.
  intros Hp Hm Hb. rewrite enqueue_push by apply (po_counted _ Hp).
  pose proof (total_push messages_in n (ps_queue p) ltac:(done)).
  pose proof (total_push bytes_in n (ps_queue p) ltac:(done)). split.
  - apply with_queue_ok; [done|..]; [pose proof (po_messages _ Hp)|pose proof (po_bytes _ Hp)]; lia.
  - right. unfold with_queue. pgoal. split_and!; try done; lia.
Qed.

Lemma close_fine p : config_ok → play_ok p → fine p (close cf p).
Proof.
  intros Hc Hp. pose proof (limits_nonneg Hc). unfold close.
  destruct (ps_closed p) eqn:Hcl; [by split; [|apply keeps_refl]|]. rewrite drop_all.
  set (p1 := with_queue [] _).
  assert (fine p p1) as Hf.
  { pose proof Hp as []. split.
    - unfold p1, with_queue. split; pgoal; try done; try (cbn [total foldr]; lia).
    - right. unfold p1, with_queue. pgoal. cbn [total foldr].
      pose proof (total_nonneg messages_in (ps_queue p) messages_in_nonneg).
      pose proof (total_nonneg bytes_in (ps_queue p) bytes_in_nonneg). split_and!; done. }
  eapply fine_trans; [exact Hf|]. intros Hp1.
  eapply fine_trans; [by apply (enqueue_fine (NStateChanged (state_of cf p1)))|]. intros Hp2.
  set (p2 := enqueue _ p1) in *. destruct (ps_busy p2) eqn:Hb; [by split; [|apply keeps_refl]|].
  assert (ps_closed p2 = true) as Hcl2.
  { unfold p2. rewrite enqueue_push by apply (po_counted _ Hp1). done. }
  destruct Hp2. split; [split; pgoal; (done || congruence)|right; pgoal; split_and!; done].
Qed.

Lemma drain_fine mx p : play_ok p → fine p (drain mx p).1.
Proof.
  intros Hp. destruct (drain_drop mx p (po_counted _ Hp)) as (k & -> & _). split.
  - apply with_sublist_ok; [done|]. apply sublist_drop.
  - right. unfold with_queue. pgoal. split_and!; try done; apply total_sublist;
      auto using messages_in_nonneg, bytes_in_nonneg, sublist_drop.
Qed.

(** ** Work *)

Lemma play_ok_set_busy b p : play_ok p → (b = true → ps_closed p = false) → play_ok (set_busy b p).
Proof. intros [] Hb. split; pgoal; auto. Qed.

Lemma take_job_work p j : play_ok p → take_job p = Some j → work_ok p (WJob j).
Proof.
  intros Hp. unfold take_job. destruct (pending p); [|done]. intros [= <-]. cbn. split_and!; [lia| | |].
  - intros c [_ Hc]%list_elem_of_filter. by apply (po_subscription _ Hp).
  - destruct (ps_reset_pending p) eqn:Hr; [by apply (po_seek _ Hp)|apply (po_after _ Hp)].
  - intros _. split; [done|]. by intros ->.
Qed.

Lemma stall_fine t p : play_ok p → time_ok t → fine p (stall cf t p).
Proof.
  intros Hp Ht. unfold stall. destruct (stalled p); [by split; [|apply keeps_refl]|].
  set (p1 := set_stall_target (Some t) p).
  eapply (fine_trans _ p1); [|intros Hp1; by apply enqueue_fine].
  pose proof Hp as []. split; [|right; split_and!; done]. unfold p1. split; pgoal; try done.
  by intros ? [= <-].
Qed.

Lemma set_more_fine b p : play_ok p → fine p (set_more b p).
Proof. intros []. split; [split; pgoal; done|right; pgoal; split_and!; done]. Qed.

(** The state in which [_take_read] takes a page to read. *)
Lemma take_read_spec now p p' r :
  config_ok → play_ok p → take_read cf now p = (p', r) →
  fine p p' ∧ (∀ x, r = Some x → p' = set_more false p ∧ work_ok p' (WRead x)).
Proof.
  intros Hc Hp. unfold take_read. set (p1 := set_more false p).
  assert (fine p p1) as [Hp1 Hk1] by by apply set_more_fine.
  assert (p1 = set_more false p) as Ep1 by done. clearbody p1.
  destruct (negb (ps_playing p1) || pending p1 || ps_ended p1) eqn:Hidle; [by intros [= <- <-]|].
  apply orb_false_iff in Hidle as [[Hpl%negb_false_iff Hpe]%orb_false_iff He].
  pose proof (po_playing _ Hp1 Hpl) as Hs.
  set (target := match ps_stall_target p1 with Some t => t | None => _ end).
  assert (time_ok target) as Ht.
  { unfold target. destruct (ps_stall_target p1) as [t|] eqn:Hst; [by apply (po_stall _ Hp1)|].
    by apply playhead_time. }
  destruct (po_counted _ Hp1) as [Em Eb].
  destruct (_ || _) eqn:Hroom.
  { intros [= <- <-]. split; [|done]. eapply fine_trans; [by split|]. intros _. by apply stall_fine. }
  apply orb_false_iff in Hroom as [Hm%Z.leb_gt Hb%Z.leb_gt].
  destruct (stalled p1 && _); [by intros [= <- <-]|]. intros [= <- <-]. split; [by split|].
  intros x [= <-]. split; [done|].
  cbn [work_ok rd_generation rd_channels rd_after rd_target rd_limits rd_queue_empty pl_max_rows pl_max_bytes].
  rewrite Em, Eb in *.
  assert (∃ a, ps_after p1 = Some a) as [a Ha].
  { pose proof (po_after _ Hp1) as Hb1. unfold in_bounds in Hb1. destruct Hs as [s0 Hs]. rewrite Hs in Hb1.
    destruct (cf_end cf), (ps_after p1); eauto; done. }
  rewrite Ha. cbn [default from_option id].
  destruct (po_subscription _ Hp1) as [Hnd Hsub].
  do 4 (split; [first [lia|done|by rewrite <- Ha; apply (po_after _ Hp1)]|]). split; [done|].
  split; [split; cbn [pl_max_rows pl_max_bytes]; unfold MAX_PAGE_ROWS, TIME_SHIFT; lia|].
  intros _. split_and!; [done|done|lia|lia|]. intros E%Z.eqb_eq. done.
Qed.

(** ** Reconstructions *)

(** A job of the controller's generation. *)
Definition job_now (j : job) (p : playback) : Prop :=
  jb_generation j = ps_generation p ∧ jb_reset j = ps_reset_pending p
  ∧ (jb_reset j = true → jb_after j = ps_seek_after p).

Lemma backfill_room i g p n :
  play_ok p → backfill cf i g p = Some n → play_ok (enqueue n p).
Proof.
  intros Hp. destruct (po_counted _ Hp) as [Em Eb]. unfold backfill.
  destruct (Z.leb_spec (ql_max_messages (cf_limits cf)) (ps_queued_messages p)) as [|Hm]; [done|].
  intros Hn. rewrite enqueue_push by by split.
  apply with_queue_ok; [done|rewrite total_push by done..].
  - assert (messages_in n = 1) as ->; [|lia]. destruct i as [m|r]; [|by injection Hn as <-].
    destruct (_ <? _); [by injection Hn as <-|]. destruct (_ <? _); [done|by injection Hn as <-].
  - pose proof (po_bytes _ Hp). destruct i as [m|r]; [|injection Hn as <-; cbn; lia].
    destruct (_ <? _); [injection Hn as <-; cbn; lia|].
    destruct (Z.ltb_spec (ql_max_bytes (cf_limits cf)) (ps_queued_bytes p + zlen (sm_data m))); [done|].
    injection Hn as <-. cbn [bytes_in]. lia.
Qed.

Lemma commit_staged_ok j now p : play_ok p → job_now j p → play_ok (commit_staged cf j now p).
Proof.
  intros Hp (Hg & Hr & Ha). unfold commit_staged. set (p1 := set_staged None p).
  set (p2 := if jb_reset j then _ else p1). set (p3 := set_unreconstructed ∅ p2).
  assert (play_ok p3) as Hp3.
  { pose proof Hp as []. unfold p3, p2. destruct (jb_reset j) eqn:Hj; unfold p1; split; pgoal; try done.
    - rewrite Ha by done. by apply po_seek0.
    - rewrite Ha by done. by apply po_seek0. }
  set (p4 := if ps_playing p3 then _ else p3).
  assert (play_ok p4) as Hp4.
  { unfold p4. destruct (ps_playing p3) eqn:Hpl; [|done]. pose proof (cursor_anchor now p3 Hp3).
    destruct Hp3. split; pgoal; try done. }
  by apply enqueue_fine.
Qed.

Lemma job_now_enqueue j n p : counted p → job_now j p → job_now j (enqueue n p).
Proof. intros Hc Hj. rewrite enqueue_push by done. exact Hj. Qed.

Lemma fill_items_ok j items queued now p :
  play_ok p → job_now j p → play_ok (fill_items cf j items queued now p).
Proof.
  revert queued p. induction items as [|i items IH]; intros queued p Hp Hj; cbn [fill_items].
  { by apply commit_staged_ok. }
  destruct (backfill cf i (jb_generation j) p) as [n|] eqn:Hb.
  - apply IH; [by eapply backfill_room|]. apply job_now_enqueue; [apply (po_counted _ Hp)|done].
  - destruct Hp. split; pgoal; try done. intros g [= <-]. exact Hj.
Qed.

Lemma fill_staged_ok now p : play_ok p → play_ok (fill_staged cf now p).
Proof.
  intros Hp. unfold fill_staged. destruct (ps_staged p) as [g|] eqn:Hg; [|done].
  apply fill_items_ok; [done|]. by apply (po_staged _ Hp).
Qed.

Lemma commit_ok j items now p : play_ok p → work_ok p (WJob j) → play_ok (commit cf j items now p).
Proof.
  intros Hp (_ & _ & _ & Hj). unfold commit.
  destruct (Z.eqb_spec (jb_generation j) (ps_generation p)) as [E|]; cbn [negb]; [|done].
  specialize (Hj E). set (p1 := if jb_reset j then _ else p).
  assert (play_ok p1 ∧ job_now j p1) as [Hp1 Hj1].
  { assert (job_now j p) as Hjn by by split. unfold p1. clear p1. destruct (jb_reset j); [|done].
    split; [by apply enqueue_fine|]. by apply job_now_enqueue; [apply (po_counted _ Hp)|]. }
  apply fill_staged_ok. destruct Hp1. split; pgoal; try done. by intros g [= <-].
Qed.

(** What the queue holds of playback: crossed Messages, refused ones as such. *)
Definition crossing_of (n : notification) : option item :=
  match n with
  | NMessage _ m => Some (IMsg m)
  | NRefused _ r false => Some (IRef r)
  | _ => None
  end.
Definition crossings (q : list notification) : list item := omap crossing_of q.

Lemma crossings_app q k : crossings (q ++ k) = crossings q ++ crossings k.
Proof. apply omap_app. Qed.

Lemma crossings_push n q :
  crossings (push n q) = crossings q ++ match crossing_of n with Some i => [i] | None => [] end.
Proof.
  unfold push. destruct (is_state_changed n), (last q) as [[]|] eqn:Hl; rewrite ?crossings_app; cbn;
    try (by destruct (crossing_of n)).
  apply last_Some in Hl as [l ->]. rewrite removelast_snoc, crossings_app. cbn. rewrite app_nil_r.
  by destruct (crossing_of n).
Qed.

(** A step of the same controller but for its queue, which gets no crossing. *)
Definition requeued (p p' : playback) : Prop :=
  ∃ q, p' = with_queue q p ∧ crossings q = crossings (ps_queue p).

Lemma requeued_enqueue n p : counted p → crossing_of n = None → requeued p (enqueue n p).
Proof.
  intros Hc Hn. rewrite enqueue_push by done. eexists. split; [done|].
  rewrite crossings_push, Hn. apply app_nil_r.
Qed.

(** [_fill_staged] has queued everything, but for the Commit. *)
Definition committed (j : job) (now : Z) (p : playback) : playback :=
  let p1 := set_staged None p in
  let p2 := if jb_reset j then
              set_reset_pending false (set_seek_after None
                (set_seek None (set_after (jb_after j) (set_cursor (ps_seek p1) p1))))
            else p1 in
  let p3 := set_unreconstructed ∅ p2 in
  if ps_playing p3 then set_anchor (now, ps_cursor p3) p3 else p3.

Lemma committed_queue j now p : ps_queue (committed j now p) = ps_queue p.
Proof. unfold committed. pgoal. destruct (jb_reset j); pgoal; by destruct (ps_playing p). Qed.
Lemma committed_counted j now p : counted p → counted (committed j now p).
Proof.
  unfold counted, committed. pgoal. by destruct (jb_reset j); pgoal; destruct (ps_playing p).
Qed.
Lemma committed_requeue j now q p : committed j now (with_queue q p) = with_queue q (committed j now p).
Proof.
  unfold committed, with_queue. pgoal. by destruct (jb_reset j); pgoal; destruct (ps_playing p).
Qed.

Lemma backfill_crossing i g p n : backfill cf i g p = Some n → crossing_of n = None.
Proof.
  unfold backfill. destruct (_ <=? _); [done|]. destruct i as [m|r]; [|by intros [= <-]].
  destruct (_ <? _); [by intros [= <-]|]. destruct (_ <? _); [done|by intros [= <-]].
Qed.

(** [_fill_staged] commits, or waits with what is left. *)
Lemma fill_items_form j items queued now p :
  counted p →
  ∃ q, crossings q = crossings (ps_queue p)
    ∧ (fill_items cf j items queued now p = with_queue q (committed j now p)
       ∨ ∃ g, (sg_job g = j ∧ (0 < length (sg_items g) ≤ length items)%nat) ∧ fill_items cf j items queued now p = with_queue q (set_staged (Some g) p)).
Proof.
  revert queued p. induction items as [|i items IH]; intros queued p Hc; cbn [fill_items].
  - destruct (requeued_enqueue (NCommit (state_of cf (committed j now p))) (committed j now p))
      as (q & Hq & Hx); [by apply committed_counted|done|].
    exists q. split; [by rewrite Hx, committed_queue|]. left. exact Hq.
  - destruct (backfill cf i (jb_generation j) p) as [n|] eqn:Hb.
    + destruct (requeued_enqueue n p Hc (backfill_crossing _ _ _ _ Hb)) as (q1 & -> & Hx1).
      destruct (IH (match channel_of_notification n with Some c => {[c]} | None => ∅ end ∪ queued)
                  (with_queue q1 p)) as (q & Hx & Hf); [done|].
      exists q. split; [by rewrite Hx|]. destruct Hf as [->|(g & Hg & ->)].
      * left. by rewrite committed_requeue.
      * right. exists g. split; [|done]. cbn [length]. destruct Hg. split; [done|lia].
    + exists (ps_queue p). split; [done|]. right. exists (mk_staged j (i :: items) queued). split; [cbn; split; [done|lia]|].
      destruct Hc as [Hm Hby]. unfold with_queue. rewrite <- Hm, <- Hby. by destruct p.
Qed.

Lemma commit_form j items now p :
  counted p → jb_generation j = ps_generation p →
  ∃ q, crossings q = crossings (ps_queue p)
    ∧ (commit cf j items now p = with_queue q (committed j now p)
       ∨ ∃ g, (sg_job g = j ∧ (0 < length (sg_items g) ≤ length items)%nat) ∧ commit cf j items now p = with_queue q (set_staged (Some g) p)).
Proof.
  intros Hc Hg. unfold commit. rewrite Hg, Z.eqb_refl. cbn [negb].
  set (p1 := if jb_reset j then _ else p).
  assert (requeued p p1) as (q1 & E1 & Hx1).
  { unfold p1. destruct (jb_reset j); [by apply requeued_enqueue|]. exists (ps_queue p). split; [|done].
    destruct Hc as [Hm Hby]. unfold with_queue. rewrite <- Hm, <- Hby. by destruct p. }
  rewrite E1. clear p1 E1. unfold fill_staged. pgoal.
  destruct (fill_items_form j items ∅ now (set_staged (Some (mk_staged j items ∅)) (with_queue q1 p)))
    as (q & Hx & Hf); [done|].
  exists q. split; [by rewrite Hx|]. cbn [sg_job sg_items sg_queued]. destruct Hf as [->|(g & Hgj & ->)].
  - left. unfold committed, with_queue. pgoal. by destruct (jb_reset j); pgoal; destruct (ps_playing p).
  - right. exists g. done.
Qed.

(** ** Playback *)

(** A page that fits the room that was asked for. *)
Definition page_fits (pl : page_limits) (items : list item) : Prop :=
  ((∃ e, items = [IRef e])
   ∨ ∃ ms, items = IMsg <$> ms ∧ zlen ms ≤ pl_max_rows pl
       ∧ foldr (λ m n, zlen (sm_data m) + n) 0 ms ≤ pl_max_bytes pl)
  ∧ Forall (λ i, in_bounds (Some (item_key i))) items.

Lemma push_crossed g i q : push (crossed g i) q = q ++ [crossed g i].
Proof. by destruct i. Qed.

Lemma enqueue_all g items p :
  counted p → foldl (λ p i, enqueue (crossed g i) p) p items = with_queue (ps_queue p ++ (crossed g <$> items)) p.
Proof.
  revert p. induction items as [|i items IH]; intros p Hp; cbn [foldl fmap list_fmap].
  { rewrite app_nil_r. destruct Hp as [Hm Hb]. unfold with_queue. rewrite <- Hm, <- Hb. apply playback_eta. }
  rewrite enqueue_push, push_crossed, IH by done. unfold with_queue at 2. pgoal. rewrite <- app_assoc. done.
Qed.

Lemma total_crossed g ms :
  total messages_in (crossed g <$> (IMsg <$> ms)) = zlen ms
  ∧ total bytes_in (crossed g <$> (IMsg <$> ms)) = foldr (λ m n, zlen (sm_data m) + n) 0 ms.
Proof.
  induction ms as [|m ms [IH1 IH2]]; [done|]. cbn [fmap list_fmap]. rewrite !total_cons, zlen_cons, IH1, IH2. done.
Qed.

Lemma reach_target_ok t now p : play_ok p → time_ok t → play_ok (reach_target cf t now p).
Proof.
  intros Hp Ht. unfold reach_target. set (p1 := set_cursor _ _).
  assert (play_ok p1) as Hp1.
  { pose proof Hp as []. unfold p1. split; pgoal; try done. unfold in_bounds, time_ok in *.
    by destruct (cf_start cf), (cf_end cf). }
  clearbody p1. destruct (bool_decide (Some t = cf_end cf)).
  - apply enqueue_fine; [|done|done]. destruct Hp1. split; pgoal; try done.
  - destruct (stalled p1); [|done]. apply enqueue_fine; [|done|done].
    pose proof (cursor_anchor now p1 Hp1). destruct Hp1. split; pgoal; try done.
Qed.

Lemma advance_past_ok r items complete now p :
  play_ok p → time_ok (rd_target r) → Forall (λ i, in_bounds (Some (item_key i))) items →
  play_ok (advance_past cf r items complete now p).
Proof.
  intros Hp Ht Hit. unfold advance_past. set (p1 := match last items with Some i => _ | None => p end).
  assert (play_ok p1) as Hp1.
  { unfold p1. destruct (last items) as [i|] eqn:Hl; [|done].
    assert (in_bounds (Some (item_key i))) as Hi.
    { apply (proj1 (Forall_forall _ _) Hit). apply last_Some in Hl as [l ->]. set_solver. }
    destruct Hp. split; pgoal; done. }
  destruct complete; [by apply reach_target_ok|by apply set_more_fine].
Qed.

Lemma advance_ok r items complete now p :
  config_ok → play_ok p → work_ok p (WRead r) → page_fits (rd_limits r) items →
  play_ok (advance cf r items complete now p).
Proof.
  intros Hc Hp (_ & _ & _ & _ & Ht & _ & Hw) [Hfit Hkeys]. unfold advance.
  destruct (_ || ps_ended p) eqn:Hs; [done|].
  apply orb_false_iff in Hs as [[[Hg%negb_false_iff%Z.eqb_eq _]%orb_false_iff _]%orb_false_iff _].
  destruct (Hw Hg) as (_ & _ & Hrows & Hbytes & Hempty). pose proof (co_limits Hc).
  destruct Hfit as [[e ->]|(ms & -> & Hr & Hb)].
  - destruct (rd_queue_empty r); [|by apply stall_fine].
    apply advance_past_ok; [|done|done]. rewrite enqueue_push by apply (po_counted _ Hp).
    apply with_queue_ok; [done|rewrite total_push by done..]; cbn [messages_in channel_of_notification bytes_in].
    + rewrite Hempty by done. lia.
    + pose proof (po_bytes _ Hp). lia.
  - assert (play_ok (foldl (λ p i, enqueue (crossed (rd_generation r) i) p) p (IMsg <$> ms))) as Hp'.
    { rewrite enqueue_all by apply (po_counted _ Hp). destruct (total_crossed (rd_generation r) ms) as [E1 E2].
      apply with_queue_ok; [done|rewrite total_app, ?E1, ?E2; lia..]. }
    destruct ms as [|m ms]; by apply advance_past_ok.
Qed.

Lemma fail_ok e p : play_ok p → play_ok (fail cf e p).
Proof. intros []. unfold fail. apply enqueue_fine; [|done|done]. split; pgoal; try done. Qed.

(** What a read gives that the controller can rely on. *)
Definition found_ok (w : work) (found : result play_error (list item * bool)) : Prop :=
  match found, w with
  | Err e, _ => caught e = true
  | Ok (items, _), WRead r => page_fits (rd_limits r) items
  | _, _ => True
  end.

(** [_advance], but for the queue. *)
Definition reached (target now : Z) (p : playback) : playback :=
  let p1 := set_cursor (Some target) (set_after (Some (target, AFTER_INSTANT)) p) in
  if bool_decide (Some target = cf_end cf) then
    set_stall_target None (set_playing false (set_ended true p1))
  else if stalled p1 then set_anchor (now, ps_cursor p1) (set_stall_target None p1)
  else p1.

Definition moved (items : list item) (p : playback) : playback :=
  match last items with
  | Some i => set_cursor (Some (item_key i).1) (set_after (Some (item_key i)) p)
  | None => p
  end.

Definition advanced (r : read) (items : list item) (complete : bool) (now : Z) (p : playback) : playback :=
  if complete then reached (rd_target r) now (moved items p) else set_more true (moved items p).

(** Whether a read was superseded while it was read. *)
Definition stale (r : read) (p : playback) : bool :=
  negb (rd_generation r =? ps_generation p) || negb (ps_playing p) || pending p || ps_ended p.

Lemma requeued_refl p : counted p → requeued p p.
Proof.
  intros [Hm Hb]. exists (ps_queue p). split; [|done]. unfold with_queue. rewrite <- Hm, <- Hb. by destruct p.
Qed.

Lemma reach_target_form target now p :
  counted p → requeued (reached target now p) (reach_target cf target now p).
Proof.
  intros Hc. unfold reach_target, reached.
  destruct (bool_decide _); [by apply requeued_enqueue|].
  destruct (stalled _); [by apply requeued_enqueue|by apply requeued_refl].
Qed.

Lemma reached_requeue q target now p :
  reached target now (with_queue q p) = with_queue q (reached target now p).
Proof.
  unfold reached, stalled, with_queue. pgoal. destruct (bool_decide _); [done|].
  by destruct (bool_decide (is_Some (ps_stall_target p))).
Qed.

Lemma reached_queue target now p : ps_queue (reached target now p) = ps_queue p.
Proof. unfold reached. destruct (bool_decide _); [done|]. by destruct (stalled _). Qed.

Lemma moved_requeue q items p : moved items (with_queue q p) = with_queue q (moved items p).
Proof. unfold moved. by destruct (last items). Qed.
Lemma moved_counted items p : counted p → counted (moved items p).
Proof. unfold moved. by destruct (last items). Qed.
Lemma moved_queue items p : ps_queue (moved items p) = ps_queue p.
Proof. unfold moved. by destruct (last items). Qed.

Lemma advance_past_form r items complete now p q :
  counted p → crossings q = crossings (ps_queue p) ++ items →
  ∃ q', crossings q' = crossings (ps_queue p) ++ items
    ∧ advance_past cf r items complete now (with_queue q p)
      = with_queue q' (advanced r items complete now p).
Proof.
  intros Hc Hq. unfold advance_past, advanced. fold (moved items (with_queue q p)). rewrite moved_requeue.
  destruct complete; [|by exists q].
  destruct (reach_target_form (rd_target r) now (with_queue q (moved items p))) as (q' & -> & Hx); [done|].
  exists q'. rewrite reached_requeue in *. split; [by rewrite Hx, <- Hq|done].
Qed.

Lemma crossings_crossed g ms : crossings (crossed g <$> (IMsg <$> ms)) = IMsg <$> ms.
Proof. induction ms as [|m ms IH]; [done|]. cbn [fmap list_fmap crossings omap list_omap crossing_of crossed]. by f_equal. Qed.

Lemma advance_form r items complete now p :
  counted p → page_fits (rd_limits r) items → stale r p = false →
  (advance cf r items complete now p = stall cf (rd_target r) p ∧ rd_queue_empty r = false
   ∧ ∃ e, items = [IRef e])
  ∨ ∃ q, crossings q = crossings (ps_queue p) ++ items
      ∧ advance cf r items complete now p = with_queue q (advanced r items complete now p).
Proof.
  intros Hc [Hfit _] Hs. unfold advance. unfold stale in Hs. rewrite Hs.
  destruct Hfit as [[e ->]|(ms & -> & _)].
  - destruct (rd_queue_empty r); [|by left; eauto]. right. rewrite enqueue_push by done.
    apply advance_past_form; [done|]. by rewrite crossings_push.
  - right. rewrite enqueue_all by done.
    destruct (advance_past_form r (IMsg <$> ms) complete now p
                (ps_queue p ++ (crossed (rd_generation r) <$> (IMsg <$> ms)))) as (q & Hx & Ha); [done| |].
    { by rewrite crossings_app, crossings_crossed. }
    exists q. split; [done|]. by destruct ms.
Qed.

Lemma advanced_busy r items complete now p : ps_busy (advanced r items complete now p) = ps_busy p.
Proof.
  unfold advanced, reached, moved. destruct complete, (last items); pgoal; try done;
    (destruct (bool_decide _); [done|]; by destruct (stalled _)).
Qed.

Lemma stall_busy t p : counted p → ps_busy (stall cf t p) = ps_busy p.
Proof. intros Hc. unfold stall. destruct (stalled p); [done|]. by rewrite enqueue_push. Qed.

Lemma committed_busy j now p : ps_busy (committed j now p) = ps_busy p.
Proof. unfold committed. pgoal. destruct (jb_reset j); pgoal; by destruct (ps_playing p). Qed.

Lemma pump_end_ok w found now p :
  config_ok → play_ok p → work_ok p w → found_ok w found →
  play_ok (pump_end cf w found now p) ∧ ps_busy (pump_end cf w found now p) = false.
Proof.
  intros Hc Hp Hw Hf. unfold pump_end. set (p1 := set_busy false p).
  assert (play_ok p1) as Hp1 by by apply play_ok_set_busy.
  assert (work_ok p1 w) as Hw1 by done.
  assert (ps_busy p1 = false) as Hb1 by done. clearbody p1.
  assert (∀ p2, play_ok p2 → ps_closed p2 = true → ps_busy p2 = false → play_ok (set_nav_open false p2)) as Hclose.
  { intros p2 [] H1 H2. split; pgoal; try done; congruence. }
  pose proof (po_counted _ Hp1) as Hcount.
  destruct found as [[items complete]|e]; cbn in Hf.
  - destruct (ps_closed p1) eqn:Hcl; [split; [by apply Hclose|done]|]. destruct w as [j|r].
    + split; [by apply commit_ok|].
      destruct (decide (jb_generation j = ps_generation p1)) as [Hg|Hg].
      * destruct (commit_form j items now p1 Hcount Hg) as (q & _ & [-> |(g & _ & ->)]); [|done].
        unfold with_queue. pgoal. by rewrite committed_busy.
      * unfold commit. by rewrite (proj2 (Z.eqb_neq _ _) Hg).
    + split; [by apply advance_ok|]. destruct (stale r p1) eqn:Hst.
      * unfold advance. unfold stale in Hst. by rewrite Hst.
      * destruct (advance_form r items complete now p1 Hcount Hf Hst) as [(-> & _)|(q & _ & ->)].
        -- by rewrite stall_busy.
        -- unfold with_queue. pgoal. by rewrite advanced_busy.
  - rewrite Hf. cbn [negb]. destruct (ps_closed p1) eqn:Hcl; [split; [by apply Hclose|done]|].
    split; [by apply fail_ok|]. unfold fail. rewrite enqueue_push by done. done.
Qed.

Lemma fill_staged_busy now p : counted p → ps_busy (fill_staged cf now p) = ps_busy p.
Proof.
  intros Hc. unfold fill_staged. destruct (ps_staged p) as [g|]; [|done].
  destruct (fill_items_form (sg_job g) (sg_items g) (sg_queued g) now p Hc) as (q & _ & [-> |(g' & _ & ->)]); [|done].
  unfold with_queue. pgoal. by rewrite committed_busy.
Qed.

Lemma take_read_busy now p : counted p → ps_busy (take_read cf now p).1 = ps_busy p.
Proof.
  intros Hc. unfold take_read. destruct (_ || ps_ended _); [done|]. destruct (_ || _); [|by destruct (_ && _)].
  cbn [fst]. by rewrite stall_busy.
Qed.

Lemma pump_begin_ok now p p' w :
  config_ok → play_ok p → pump_begin cf now p = (p', w) →
  play_ok p'
  ∧ match w with
    | Some w => ps_busy p = false ∧ ps_busy p' = true ∧ work_ok p' w
    | None => p' = p ∨ (ps_busy p = false ∧ ps_busy p' = false)
    end.
Proof.
  intros Hc Hp. unfold pump_begin.
  destruct (_ || bool_decide _) eqn:Hidle; [intros [= <- <-]; split; [done|by left]|].
  apply orb_false_iff in Hidle as [[Hcl Hb]%orb_false_iff _].
  destruct (ps_staged p) as [g|] eqn:Hg.
  { intros [= <- <-]. split; [by apply fill_staged_ok|]. right.
    by rewrite fill_staged_busy by apply (po_counted _ Hp). }
  destruct (take_job p) as [j|] eqn:Hj.
  { intros [= <- <-]. split; [by apply play_ok_set_busy|]. split_and!; [done|done|].
    exact (take_job_work p j Hp Hj). }
  destruct (take_read cf now p) as [p1 r] eqn:Hr.
  destruct (take_read_spec now p p1 r Hc Hp Hr) as [[Hp1 _] Hx].
  pose proof (take_read_busy now p (po_counted _ Hp)) as Hb1. rewrite Hr in Hb1. cbn [fst] in Hb1.
  destruct r as [r|]; intros [= <- <-]; [|split; [done|right; by rewrite Hb1]].
  destruct (Hx r eq_refl) as [E Hw]. assert (ps_closed p1 = false) as Hcl1 by by rewrite E.
  split; [by apply play_ok_set_busy|]. split_and!; [done|done|exact Hw].
Qed.
End controller_facts.

(** ** The machine over a Navigator *)

Section system_facts.
Context {N} (nav : navigator N) (ok : N → Prop) (src : list source_message).
Context (cf : config) (mx : Z) (changes : Prop) (fuel : nat).
Context {Hlaws : navigator_laws nav ok src (cf_channels cf) mx changes}.
Context (Hcf : config_ok cf) (Hfuel : (length src < fuel)%nat).
(** The range covers the Messages. *)
Context (Hcovers : ∀ m, m ∈ src → time_ok cf (sm_time m)).

Abbreviation system := (system (N := N)).
Abbreviation run_event := (run_event nav cf fuel).

Lemma time_ok_limit t : time_ok cf t → 0 ≤ t < TIME_LIMIT.
Proof using All.
  unfold time_ok. pose proof (co_range _ Hcf) as Hr. destruct (cf_start cf), (cf_end cf); try done. lia.
Qed.

Lemma in_bounds_Some a : in_bounds cf (Some a) → time_ok cf a.1 ∧ BEFORE_INSTANT ≤ a.2 ≤ AFTER_INSTANT.
Proof using Type. unfold in_bounds, time_ok. destruct (cf_start cf), (cf_end cf); done. Qed.

Lemma message_bounds m : m ∈ src → in_bounds cf (Some (msg_key m)).
Proof using All.
  intros Hm. pose proof (Hcovers m Hm) as Ht. destruct (law_range m Hm) as [Hi _].
  unfold time_ok, in_bounds in *. destruct (cf_start cf), (cf_end cf); try done.
  unfold BEFORE_INSTANT. cbn. lia.
Qed.

Lemma page_shows_fits pl ms items complete :
  ms ⊆ src → page_shows mx pl ms (items, complete) → page_fits cf pl items.
Proof using All.
  intros Hms (taken & rest & -> & Hst & _ & _ & _ & Hfit). cbn [fst snd] in *. split.
  - destruct Hfit as [(m & [= -> ->] & _)|(-> & Hr & Hb)]; [left; by eexists|right; by eauto].
  - apply Forall_forall. intros i [k Hk]%list_elem_of_lookup.
    destruct (Forall2_lookup_l _ _ _ _ _ Hst Hk) as (m & Hm & Him). rewrite (stands_for_key _ _ Him).
    apply message_bounds, Hms. apply list_elem_of_lookup_2 in Hm. set_solver.
Qed.

(** The page of a read of the current position. *)
Lemma read_found p r n n' found :
  ok n → work_ok cf p (WRead r) → perform nav fuel n (WRead r) = (n', found) →
  ok n' ∧ if decide ((rd_after r).1 ≤ rd_target r)
          then read_ok changes (page_shows mx (rd_limits r)
                 (crossing src (rd_channels r) (rd_after r) (rd_target r))) found
          else found = Ok ([], true).
Proof using All.
  intros Hn (_ & Hnd & Hch & Ha & Ht & Hl & _) Hp. apply in_bounds_Some in Ha as [Hat Hai].
  apply time_ok_limit in Ht, Hat. case_decide as Hle.
  - pose proof (read_items_spec nav ok src (cf_channels cf) mx changes n r Hn Hnd Hch) as Hr.
    cbn [perform] in Hp. rewrite Hp in Hr. apply Hr; [split; lia|lia|done].
  - cbn [perform] in Hp. unfold read_items in Hp. destruct (rd_after r) as [t i]. cbn [fst] in Hle.
    rewrite (proj2 (Z.ltb_lt _ _)), orb_true_r in Hp by lia. by injection Hp as <- <-.
Qed.

Lemma perform_found p w n n' found :
  ok n → work_ok cf p w → perform nav fuel n w = (n', found) → ok n' ∧ found_ok cf w found.
Proof using All.
  intros Hn Hw Hp. destruct w as [j|r].
  - destruct Hw as (_ & Hch & Ha & _). cbn [perform] in Hp.
    destruct (jb_after j) as [a|] eqn:Hj.
    + apply in_bounds_Some in Ha as [Hat _]. apply time_ok_limit in Hat.
      pose proof (reconstruct_spec nav ok src (cf_channels cf) mx changes fuel n j a Hn Hj Hch Hat Hfuel) as Hr.
      rewrite Hp in Hr. destruct Hr as [Hn' [([items b] & -> & _)|(_ & e & [sf ->] & ->)]]; done.
    + unfold reconstruct in Hp. rewrite Hj in Hp. by injection Hp as <- <-.
  - destruct (read_found p r n n' found Hn Hw Hp) as [Hn' Hf]. split; [done|]. case_decide.
    + destruct Hf as [([items b] & -> & Hs)|(_ & e & [sf ->] & ->)]; [|done].
      eapply page_shows_fits; [|exact Hs]. intros m [_ Hm]%list_elem_of_filter. done.
    + subst found. cbn. split; [|constructor]. right. exists []. destruct Hw as (_ & _ & _ & _ & _ & [? ?] & _).
      split_and!; [done|unfold zlen; cbn [length]; lia|cbn [foldr]; lia].
Qed.

Record sys_ok (s : system) : Prop := {
  so_play : play_ok cf (sy_play s);
  so_nav : ok (sy_nav s);
  so_work : match sy_work s with
            | Some w => ps_busy (sy_play s) = true ∧ work_ok cf (sy_play s) w
            | None => ps_busy (sy_play s) = false
            end;
}.

Lemma fine_busy_sys p' s :
  sys_ok s → fine cf (sy_play s) p' → ps_busy p' = ps_busy (sy_play s) → sys_ok (with_play p' s).
Proof using Type.
  intros [Hp Hn Hw] [Hp' Hk] Hb. split; [done|done|]. cbn. rewrite Hb.
  destruct (sy_work s) as [w|]; [|done]. destruct Hw as [? ?]. split; [done|]. by eapply work_ok_keeps.
Qed.

Lemma start_seek_busy a request p : ps_busy (start_seek a request p) = ps_busy p.
Proof using Type. unfold start_seek. by rewrite drop_all. Qed.

Lemma configure_busy request_id position_ns playing rate now p :
  ps_busy (configure cf request_id position_ns playing rate now p).1 = ps_busy p.
Proof using Type.
  unfold configure. destruct (_ ← check_open cf p; _) as [request|e]; [|done].
  destruct (dget _ _) as [[]|]; [done|].
  destruct (t ← check_position cf position_ns p; _) as [[[t pl] r]|e]; [|done]. cbn [fst].
  assert (∀ q, ps_busy (apply_rate cf r now q) = ps_busy q) as E1.
  { intros q. unfold apply_rate. destruct r as [[]|]; [|done]. destruct (num_eq _ _); [done|]. by destruct (running q). }
  assert (∀ q, ps_busy (apply_position cf t pl request q) = ps_busy q) as E2.
  { intros q. unfold apply_position. destruct t; [apply start_seek_busy|]. destruct pl as [[]|]; try done.
    destruct (cf_start cf); [|done]. destruct (ps_ended q); [apply start_seek_busy|done]. }
  assert (∀ b q, ps_busy (apply_playing cf b now q) = ps_busy q) as E3.
  { intros b q. unfold apply_playing. destruct (negb b); [done|]. destruct (bool_decide _); [done|].
    by destruct (ps_playing q). }
  destruct pl; pgoal; rewrite ?E3, E2, E1; done.
Qed.

Lemma subscribe_busy wanted now p : ps_busy (subscribe wanted now p) = ps_busy p.
Proof using Type.
  unfold subscribe. destruct (discard_staged_form p) as (u & -> & _). rewrite drop_queued_filter.
  set (p4 := set_subscription wanted _). set (p5 := if stalled p4 then _ else _).
  assert (ps_busy p5 = ps_busy p) as E by (unfold p5; by destruct (stalled p4)).
  destruct (_ && _); [rewrite start_seek_busy|]; exact E.
Qed.

Lemma command_busy e p :
  match e with
  | ESubscribe names now => ps_busy (set_subscription_command cf names now p).1 = ps_busy p
  | EDisconnect => ps_busy (disconnect cf p).1 = ps_busy p
  | EClose => counted p → ps_busy (close cf p) = ps_busy p
  | EDrain k => counted p → ps_busy (drain k p).1 = ps_busy p
  | _ => True
  end.
Proof using Type.
  destruct e as [|names now| | |k| |]; try done.
  - unfold set_subscription_command. destruct (check_open cf p); [|done]. destruct (negb _); [done|].
    destruct (bool_decide _); [done|]. apply subscribe_busy.
  - unfold disconnect. destruct (ps_closed p); [done|]. cbn [fst]. by rewrite drop_all.
  - intros Hc. unfold close. destruct (ps_closed p); [done|]. rewrite drop_all.
    set (p1 := with_queue [] _). rewrite enqueue_push by done. unfold with_queue at 1 2. pgoal.
    by destruct (ps_busy p1) eqn:E; unfold with_queue; pgoal.
  - intros Hc. by destruct (drain_drop k p Hc) as (? & -> & _).
Qed.

Lemma step_sys_ok s e : sys_ok s → sys_ok (run_event e s).
Proof using All.
  intros Hs. pose proof Hs as [Hp Hn Hw]. pose proof (po_counted _ _ Hp) as Hc.
  pose proof (command_busy e (sy_play s)) as Hb. destruct e; cbn [PlaybackProofs.run_event].
  - apply fine_busy_sys; [done|by apply configure_fine|apply configure_busy].
  - apply fine_busy_sys; [done|by apply set_subscription_command_fine|done].
  - apply fine_busy_sys; [done|by apply disconnect_fine|done].
  - apply fine_busy_sys; [done|by apply close_fine|by apply Hb].
  - apply fine_busy_sys; [done|by apply drain_fine|by apply Hb].
  - destruct (pump_begin cf now (sy_play s)) as [p' w] eqn:Hpb.
    destruct (pump_begin_ok cf now _ _ _ Hcf Hp Hpb) as [Hp' Hw']. split; [done|done|]. cbn.
    destruct w as [w|]; [by destruct Hw' as (_ & ? & ?)|].
    destruct Hw' as [-> |[Hb1 Hb2]]; [done|]. destruct (sy_work s); [|done]. destruct Hw as [Hw _]. congruence.
  - destruct (sy_work s) as [w|] eqn:Hsw; [|split; [done|done|by rewrite Hsw]].
    destruct Hw as [_ Hw]. destruct (perform nav fuel (sy_nav s) w) as [n' found] eqn:Hpf.
    destruct (perform_found _ _ _ _ _ Hn Hw Hpf) as [Hn' Hf].
    destruct (pump_end_ok cf w found now _ Hcf Hp Hw Hf) as [Hp' Hb']. by split.
Qed.

Lemma reachable_sys_ok n tr s : ok n → reachable (step nav cf fuel) (start cf n) tr s → sys_ok s.
Proof using All.
  intros Hn. apply (reachable_inv (step nav cf fuel) sys_ok).
  - split; [by apply initial_ok|done|done].
  - intros s0 e s1 Hs ->. by apply step_sys_ok.
Qed.
End system_facts.

(** ** Theorem *)

(** C37. A bounded queue: whatever commands, drains and pumps come, and however
    commands come between the halves of a pump, the counters are those of the
    queue, the queued Messages and bytes stay within the limits, and the
    Navigator is open while it is read. *)
Theorem queue_bounded {N} (nav : navigator N) ok src cf mx changes fuel
    `{Hlaws : !navigator_laws nav ok src (cf_channels cf) mx changes} n tr s :
  config_ok cf → (∀ m, m ∈ src → time_ok cf (sm_time m)) → (length src < fuel)%nat → ok n →
  reachable (step nav cf fuel) (start cf n) tr s →
  let p := sy_play s in
  ps_queued_messages p = total messages_in (ps_queue p) ∧ ps_queued_bytes p = total bytes_in (ps_queue p)
  ∧ ps_queued_messages p ≤ ql_max_messages (cf_limits cf) ∧ ps_queued_bytes p ≤ ql_max_bytes (cf_limits cf)
  ∧ (sy_work s ≠ None → ps_nav_open p = true).
Proof.
  intros Hcf Hcov Hfuel Hn Htr.
  destruct (reachable_sys_ok nav ok src cf mx changes fuel Hcf Hfuel Hcov n tr s Hn Htr) as [[] _ Hw].
  destruct po_counted0 as [Em Eb]. cbn zeta. rewrite Em, Eb. split_and!; try done.
  destruct (sy_work s); [|done]. destruct Hw as [Hw _]. auto.
Qed.

(** ** A session to try *)

Definition demo_config : config := mk_config ["a"; "b"]%string (Some 5) (Some 12) (mk_queue_limits 2 100).
Definition demo_run (es : list event) : system (N := cache * list (identity * identity)) :=
  foldl (λ s e, run_event demo_navigator demo_config 5 e s) (start demo_config demo_cache) es.

Lemma demo_config_ok : config_ok demo_config.
Proof. split; [done|apply (bool_decide_unpack _); vm_compute; exact I|done]. Qed.

Lemma demo_covers m : m ∈ demo_messages → time_ok demo_config (sm_time m).
Proof. revert m. apply Forall_forall. repeat constructor; discriminate. Qed.

Lemma events_reachable {N} (nav : navigator N) cf fuel s es :
  reachable (step nav cf fuel) s es (foldl (λ s e, run_event nav cf fuel e s) s es).
Proof.
  induction es as [|e es IH] using rev_ind; [constructor|]. rewrite foldl_app. by eapply reach_step.
Qed.

(** Subscribe, reconstruct, play, and a read that fills the queue. *)
Definition demo_playing : list event :=
  [ESubscribe ["a"; "b"]%string 0; EPump 0; EFinish 0;
   EConfigure (JStr "play") JNull (JBool true) JNull 0; EDrain None].

Lemma queue_bounded_witness :
  let s := demo_run (demo_playing ++ [EPump 100; EFinish 100]) in
  length (ps_queue (sy_play s)) = 2%nat ∧ ps_queued_messages (sy_play s) ≤ 2.
Proof.
  cbn zeta. split; [vm_compute; reflexivity|].
  assert (reachable (step demo_navigator demo_config 5) (start demo_config demo_cache)
            (demo_playing ++ [EPump 100; EFinish 100]) (demo_run (demo_playing ++ [EPump 100; EFinish 100]))) as Hr
    by apply events_reachable.
  destruct (queue_bounded demo_navigator demo_ok demo_messages demo_config 100 False 5 (Hlaws := demo_laws)
              _ _ _ demo_config_ok demo_covers ltac:(cbn; lia) demo_start_ok Hr) as (_ & _ & Hm & _).
  exact Hm.
Defined.
