(* ===== verification/PlaybackRequests.v ===== *)
(** * Requests are applied once

    [configure] remembers the requests it accepted: a request that is sent again
    gets its first answer and does nothing, until REQUEST_CACHE others were
    accepted or the client disconnected ([configure_once]). *)

From Stdlib Require Import ZArith Lia.
From S2P Require Import Prelude PyFloat Json SchemaTypes Schema Pointer Recording.
From S2P Require Import Interchange VizSource Navigation NavigationProofs.
From S2P Require Import Playback PlaybackReads PlaybackProofs.

Section requests.
Context (cf : config).

(** A request and at most [k] that were accepted after it. *)
Definition remembered (request : string) (x : content * view) (k : nat) (p : playback) : Prop :=
  ∃ l1 l2, ps_requests p = l1 ++ (request, x) :: l2 ∧ request ∉ l1.*1 ∧ (length l2 ≤ k)%nat.

Lemma remembered_get request x k p : remembered request x k p → dget (ps_requests p) request = Some x.
Proof.
  intros (l1 & l2 & -> & Hn & _). induction l1 as [|[r y] l1 IH]; cbn [app dget].
  - by rewrite decide_True.
  - cbn in Hn. rewrite decide_False by set_solver. apply IH. set_solver.
Qed.

Lemma apply_requests t pl request r now p :
  let p1 := apply_position cf t pl request (apply_rate cf r now p) in
  ps_requests (match pl with None => p1 | Some b => apply_playing cf b now p1 end) = ps_requests p.
Proof.
  assert (∀ q, ps_requests (apply_rate cf r now q) = ps_requests q) as E1.
  { intros q. unfold apply_rate. destruct r as [[]|]; [|done]. destruct (num_eq _ _); [done|]. by destruct (running q). }
  assert (∀ a q, ps_requests (start_seek a (Some request) q) = ps_requests q) as E0.
  { intros a q. unfold start_seek. by rewrite drop_all. }
  assert (∀ q, ps_requests (apply_position cf t pl request q) = ps_requests q) as E2.
  { intros q. unfold apply_position. destruct t; [apply E0|]. destruct pl as [[]|]; try done.
    destruct (cf_start cf); [|done]. destruct (ps_ended q); [apply E0|done]. }
  assert (∀ b q, ps_requests (apply_playing cf b now q) = ps_requests q) as E3.
  { intros b q. unfold apply_playing. destruct (negb b); [done|]. destruct (bool_decide _); [done|].
    by destruct (ps_playing q). }
  cbn zeta. destruct pl; by rewrite ?E3, E2, E1.
Qed.

Lemma dset_absent (d : list (string * (content * view))) k v : dget d k = None → dset d k v = d ++ [(k, v)].
Proof.
  induction d as [|[k' v'] d IH]; [done|]. cbn [dget dset app]. case_decide; [done|]. intros Hd. by rewrite IH.
Qed.

(** What [configure] does to the requests. *)
Lemma configure_requests request_id position_ns playing rate now p :
  let '(p', x) := configure cf request_id position_ns playing rate now p in
  (p' = p ∧ ∀ request v, request_id = JStr request → dget (ps_requests p) request = None → x ≠ Ok v)
  ∨ ∃ request v, request_id = JStr request ∧ x = Ok v ∧ request ≠ ""%string ∧ dget (ps_requests p) request = None
    ∧ same_content (position_ns, playing, rate) (position_ns, playing, rate) = true
    ∧ ps_requests p' = (let l := ps_requests p ++ [(request, ((position_ns, playing, rate), v))] in
                        if (REQUEST_CACHE <? length l)%nat then tail l else l).
Proof.
  unfold configure. destruct (_ ← check_open cf p; _) as [request|e] eqn:Hid; [|by left].
  apply bind_Ok in Hid as (_ & _ & Hid).
  destruct request_id as [| | | |s0| |]; try done. apply bind_Ok in Hid as (u & Hne & [= Es]). subst s0.
  destruct (dget (ps_requests p) request) as [[]|] eqn:Hd; [left; split; [done|]; intros ? ? [= <-]; congruence|].
  destruct (t ← check_position cf position_ns p; _) as [[[t pl] r]|e] eqn:Hch; [|by left]. right.
  set (p3 := set_request_id _ _).
  assert (ps_requests p3 = ps_requests p) as E by (apply apply_requests). rewrite E.
  exists request, (state_of cf p3). split_and!; [done|done|by intros -> |done| |].
  - apply bind_Ok in Hch as (t' & Ht & (pl' & Hpl & (r' & Hr & _)%bind_Ok)%bind_Ok). cbn [same_content].
    rewrite !andb_true_iff. split_and!.
    + destruct position_ns; try done. cbn. unfold num_eq, x_eq, num_x. by rewrite Z.eqb_refl.
    + destruct playing as [|[]| | | | |]; done.
    + destruct rate as [| |z|b| | |]; try done.
      * cbn. unfold num_eq, x_eq, num_x. by rewrite Z.eqb_refl.
      * cbn in Hr |- *. destruct (is_finite64 b) eqn:Hfin; [|done].
        destruct (proj1 (num_finite_x (PFloat b)) Hfin) as [z Hz]. unfold num_eq. rewrite Hz. apply Z.eqb_refl.
  - pgoal. by rewrite dset_absent.
Qed.

(** ** Other events *)

Lemma committed_requests j now p : ps_requests (committed j now p) = ps_requests p.
Proof. unfold committed. pgoal. destruct (jb_reset j); pgoal; by destruct (ps_playing p). Qed.

Lemma fill_staged_requests now p : counted p → ps_requests (fill_staged cf now p) = ps_requests p.
Proof.
  intros Hc. unfold fill_staged. destruct (ps_staged p) as [g|]; [|done].
  destruct (fill_items_form cf (sg_job g) (sg_items g) (sg_queued g) now p Hc) as (q & _ & [-> |(g' & _ & ->)]); [|done].
  exact (committed_requests (sg_job g) now p).
Qed.

Lemma stall_requests t p : counted p → ps_requests (stall cf t p) = ps_requests p.
Proof. intros Hc. unfold stall. destruct (stalled p); [done|]. by rewrite enqueue_push. Qed.

Lemma advanced_requests r items complete now p :
  ps_requests (advanced cf r items complete now p) = ps_requests p.
Proof.
  unfold advanced, reached, moved. destruct complete, (last items); try done;
    (destruct (bool_decide _); [done|]; by destruct (stalled _)).
Qed.

Lemma subscription_requests names now p :
  ps_requests (set_subscription_command cf names now p).1 = ps_requests p.
Proof.
  unfold set_subscription_command. destruct (check_open cf p); [|done]. destruct (negb _); [done|].
  set (wanted := filter _ (cf_channels cf)). destruct (bool_decide _); [done|]. cbn [fst]. unfold subscribe.
  assert (ps_requests (discard_staged p) = ps_requests p) as E0.
  { unfold discard_staged. destruct (ps_staged p) as [g|]; [|done]. by destruct (jb_reset (sg_job g)). }
  rewrite drop_queued_filter. set (p4 := set_subscription wanted _). set (p5 := if stalled p4 then _ else _).
  assert (ps_requests p5 = ps_requests p) as E by (rewrite <- E0; unfold p5; by destruct (stalled p4)).
  destruct (_ && _); [unfold start_seek; rewrite drop_all|]; exact E.
Qed.

Lemma pump_begin_requests now p : counted p → ps_requests (pump_begin cf now p).1 = ps_requests p.
Proof.
  intros Hc. unfold pump_begin. destruct (_ || bool_decide _); [done|].
  destruct (ps_staged p) eqn:Hg; [by apply fill_staged_requests|]. destruct (take_job p); [done|].
  assert (ps_requests (take_read cf now p).1 = ps_requests p) as E.
  { unfold take_read. destruct (_ || ps_ended _); [done|]. destruct (_ || _); [|by destruct (_ && _)].
    cbn [fst]. by rewrite stall_requests. }
  by destruct (take_read cf now p) as [p1 [r|]].
Qed.

Lemma pump_end_requests w found now p :
  play_ok cf p → found_ok cf w found → ps_requests (pump_end cf w found now p) = ps_requests p.
Proof.
  intros Hp Hf. pose proof (po_counted _ _ Hp) as Hc0. unfold pump_end. set (p1 := set_busy false p).
  assert (counted p1) as Hc by exact Hc0. change (ps_requests p) with (ps_requests p1).
  destruct found as [[items complete]|e]; cbn in Hf.
  - destruct (ps_closed p1); [done|]. destruct w as [j|r].
    + destruct (decide (jb_generation j = ps_generation p1)) as [Hg|Hg].
      * destruct (commit_form cf j items now p1 Hc Hg) as (q & _ & [-> |(g & _ & ->)]); [|done].
        exact (committed_requests j now p1).
      * unfold commit. by rewrite (proj2 (Z.eqb_neq _ _) Hg).
    + destruct (stale r p1) eqn:Hst.
      * unfold advance. fold (stale r p1). by rewrite Hst.
      * destruct (advance_form cf r items complete now p1 Hc Hf Hst) as [(-> & _)|(q & _ & ->)].
        -- by apply stall_requests.
        -- exact (advanced_requests r items complete now p1).
  - rewrite Hf. cbn [negb]. destruct (ps_closed p1); [done|]. unfold fail. by rewrite enqueue_push.
Qed.
End requests.

(** ** The machine *)

Section machine_requests.
Context {N} (nav : navigator N) (ok : N → Prop) (src : list source_message).
Context (cf : config) (mx : Z) (changes : Prop) (fuel : nat).
Context {Hlaws : navigator_laws nav ok src (cf_channels cf) mx changes}.
Context (Hcf : config_ok cf) (Hfuel : (length src < fuel)%nat).
Context (Hcovers : ∀ m, m ∈ src → time_ok cf (sm_time m)).

Definition is_configure (e : event) : bool := match e with EConfigure _ _ _ _ _ => true | _ => false end.

Lemma event_requests e s :
  sys_ok ok cf s → is_configure e = false → e ≠ EDisconnect →
  ps_requests (sy_play (run_event nav cf fuel e s)) = ps_requests (sy_play s).
Proof using All.
  intros Hs He Hd. pose proof Hs as [Hp Hn Hw]. pose proof (po_counted _ _ Hp) as Hc.
  destruct e as [|names now| | |k|now|now]; try done; cbn [run_event].
  - apply subscription_requests.
  - cbn [with_play sy_play]. unfold close. destruct (ps_closed _); [done|]. rewrite drop_all.
    rewrite enqueue_push by done. by destruct (ps_busy _).
  - cbn [with_play sy_play]. by destruct (drain_drop k _ Hc) as (? & -> & _).
  - pose proof (pump_begin_requests cf now (sy_play s) Hc) as E. by destruct (pump_begin cf now (sy_play s)).
  - destruct (sy_work s) as [w|] eqn:Hsw; [|done]. destruct Hw as [_ Hw].
    destruct (perform nav fuel (sy_nav s) w) as [n' found] eqn:Hpf.
    destruct (perform_found nav ok src cf mx changes fuel Hcf Hfuel Hcovers _ _ _ _ _ Hn Hw Hpf) as [_ Hf].
    by apply pump_end_requests.
Qed.

(** The requests accepted since. *)
Definition configures (es : list event) : nat := length (filter (λ e, is_configure e = true) es).

Lemma remembered_run request x k es s :
  sys_ok ok cf s → remembered request x k (sy_play s) → EDisconnect ∉ es →
  (k + configures es < REQUEST_CACHE)%nat →
  remembered request x (k + configures es) (sy_play (foldl (λ s e, run_event nav cf fuel e s) s es)).
Proof using All.
  revert k s. induction es as [|e es IH]; intros k s Hs Hr Hd Hk; cbn [foldl].
  { unfold configures. cbn. by rewrite Nat.add_0_r. }
  pose proof (step_sys_ok nav ok src cf mx changes fuel Hcf Hfuel Hcovers s e Hs) as Hs'.
  destruct (is_configure e) eqn:He; cycle 1.
  { assert (configures (e :: es) = configures es) as E.
    { unfold configures. rewrite filter_cons, decide_False by (by rewrite He). done. }
    rewrite E in *. apply IH; [done| |set_solver|done]. unfold remembered.
    rewrite event_requests; [exact Hr|done|done|set_solver]. }
  assert (configures (e :: es) = S (configures es)) as E.
  { unfold configures. rewrite filter_cons, decide_True by done. done. }
  rewrite E in *. rewrite Nat.add_succ_r in *. rewrite <- Nat.add_succ_l in *. apply IH; [done| |set_solver|done].
  destruct e as [rid pos pl rate now| | | | | |]; try done. cbn [run_event with_play sy_play].
  pose proof (configure_requests cf rid pos pl rate now (sy_play s)) as Hc.
  destruct (configure cf rid pos pl rate now (sy_play s)) as [p' y]. cbn [fst].
  destruct Hr as (l1 & l2 & Hl & Hn & Hlen).
  destruct Hc as [[-> _]|(r & v & _ & _ & _ & _ & _ & Hp')]; [exists l1, l2; split_and!; [done|done|lia]|].
  cbn zeta in Hp'. rewrite Hl, <- app_assoc, <- app_comm_cons in Hp'.
  assert (length (l2 ++ [(r, ((pos, pl, rate), v))]) ≤ S k)%nat as Hlen' by (rewrite length_app; cbn; lia).
  destruct (Nat.ltb_spec REQUEST_CACHE (length (l1 ++ (request, x) :: l2 ++ [(r, ((pos, pl, rate), v))]))) as [Hbig|_];
    [|by eexists l1, _].
  destruct l1 as [|y1 l1].
  { exfalso. cbn in Hbig. rewrite length_app in Hbig. cbn in Hbig. lia. }
  eexists l1, _. split_and!; [exact Hp'|set_solver|done].
Qed.
End machine_requests.

(** ** Theorem *)

(** Requests are applied once: after [configure] accepted a new request,
    and whatever commands, drains and pumps come next, the same request gets
    the first answer again and changes nothing, and with other content it is
    refused as a conflict, while fewer than REQUEST_CACHE further requests came
    and the client has not disconnected. *)
Theorem configure_once {N} (nav : navigator N) ok src cf mx changes fuel
    `{Hlaws : !navigator_laws nav ok src (cf_channels cf) mx changes} n tr s
    request position_ns playing rate now v es now' :
  config_ok cf → (∀ m, m ∈ src → time_ok cf (sm_time m)) → (length src < fuel)%nat → ok n →
  reachable (step nav cf fuel) (start cf n) tr s → dget (ps_requests (sy_play s)) request = None →
  (configure cf (JStr request) position_ns playing rate now (sy_play s)).2 = Ok v →
  EDisconnect ∉ es → (configures es < REQUEST_CACHE)%nat →
  let s' := foldl (λ s e, run_event nav cf fuel e s) s
              (EConfigure (JStr request) position_ns playing rate now :: es) in
  ps_closed (sy_play s') = false → ps_fault (sy_play s') = None →
  same_content (position_ns, playing, rate) (position_ns, playing, rate) = true
  ∧ ∀ c1 c2 c3, configure cf (JStr request) c1 c2 c3 now' (sy_play s')
    = (sy_play s', if same_content (position_ns, playing, rate) (c1, c2, c3) then Ok v
                   else Err (RequestConflict (state_of cf (sy_play s')))).
Proof.
  intros Hcf Hcov Hfuel Hn Htr Hnew Hv Hd Hk s' Hcl Hf.
  pose proof (reachable_sys_ok nav ok src cf mx changes fuel Hcf Hfuel Hcov n tr s Hn Htr) as Hs.
  pose proof (configure_requests cf (JStr request) position_ns playing rate now (sy_play s)) as Hc.
  set (e := EConfigure _ _ _ _ _) in s'. set (s1 := run_event nav cf fuel e s).
  assert (sy_play s1 = (configure cf (JStr request) position_ns playing rate now (sy_play s)).1) as E by done.
  assert (sys_ok ok cf s1) as Hs1 by by eapply step_sys_ok.
  change s' with (foldl (λ s e, run_event nav cf fuel e s) s1 es) in *. clearbody s1.
  destruct (configure cf (JStr request) position_ns playing rate now (sy_play s)) as [p1 x]. cbn [fst snd] in *.
  destruct Hc as [[_ Hc]|(r & v' & [= <-] & -> & Hne & _ & Hsame & Hreq)]; [by destruct (Hc request v)|].
  injection Hv as ->. split; [done|].
  assert (remembered request ((position_ns, playing, rate), v) 0 (sy_play s1)) as Hrem.
  { unfold remembered. rewrite E, Hreq. cbn zeta. apply dget_None in Hnew. destruct (Nat.ltb_spec REQUEST_CACHE
      (length (ps_requests (sy_play s) ++ [(request, (position_ns, playing, rate, v))]))) as [Hbig|_]; [|by eexists _, []].
    destruct (ps_requests (sy_play s)) as [|y l]; [cbn in Hbig; unfold REQUEST_CACHE in Hbig; lia|].
    exists l, []. split_and!; [done|set_solver|done]. }
  pose proof (remembered_run nav ok src cf mx changes fuel Hcf Hfuel Hcov request _ 0 es s1 Hs1 Hrem Hd Hk) as Hrun.
  apply remembered_get in Hrun. intros c1 c2 c3. set (s2 := foldl _ s1 es) in *. unfold configure, check_open.
  rewrite Hcl, Hf. mcbn. rewrite bool_decide_false by (by intros [? ?]).
  rewrite (proj2 (String.eqb_neq _ _) Hne). mcbn. by rewrite Hrun.
Qed.

(** The request that started playback, sent again after a read and another
    request. *)
Lemma configure_once_witness :
  let before := [ESubscribe ["a"; "b"]%string 0; EPump 0; EFinish 0] in
  let after := [EDrain None; EPump 100; EConfigure (JStr "slow") JNull JNull (JInt 1) 100; EFinish 100] in
  let s := demo_run (before ++ EConfigure (JStr "play") JNull (JBool true) JNull 0 :: after) in
  ∃ v, vw_playing v = true
    ∧ configure demo_config (JStr "play") JNull (JBool true) JNull 200 (sy_play s) = (sy_play s, Ok v).
Proof.
  intros before after s.
  assert (reachable (step demo_navigator demo_config 5) (start demo_config demo_cache) before (demo_run before)) as Hr
    by apply events_reachable.
  destruct (configure demo_config (JStr "play") JNull (JBool true) JNull 0 (sy_play (demo_run before))).2 as [v|] eqn:Hv;
    [|vm_compute in Hv; discriminate].
  exists v. split; [vm_compute in Hv; injection Hv as <-; reflexivity|].
  assert (s = foldl (λ s e, run_event demo_navigator demo_config 5 e s) (demo_run before)
                (EConfigure (JStr "play") JNull (JBool true) JNull 0 :: after)) as E
    by (unfold s, demo_run; by rewrite foldl_app).
  destruct (configure_once demo_navigator demo_ok demo_messages demo_config 100 False 5 (Hlaws := demo_laws)
              demo_cache before (demo_run before) "play" JNull (JBool true) JNull 0 v after 200) as [Hs H].
  - exact demo_config_ok.
  - exact demo_covers.
  - cbn. lia.
  - exact demo_start_ok.
  - exact Hr.
  - vm_compute. reflexivity.
  - exact Hv.
  - clear. unfold after. intros Hin. do 4 (apply elem_of_cons in Hin as [Hin|Hin]; [discriminate|]).
    exact (not_elem_of_nil _ Hin).
  - apply Nat.ltb_lt. vm_compute. reflexivity.
  - vm_compute. reflexivity.
  - vm_compute. reflexivity.
  - rewrite <- E in H. rewrite H, Hs. reflexivity.
Defined.
