(* ===== verification/PlaybackDelivery.v ===== *)
(** * Playback delivers every Message it crosses, once and in order

    With a monotonic clock, and but for two command sequences ([steady]), the
    crossed Messages of a session are exactly those between the position where
    playback started and the committed cursor ([delivery_exact]). [rewinds]
    shows that each excluded sequence moves the cursor back, so that Messages
    are delivered again. *)

From Stdlib Require Import ZArith Lia.
From S2P Require Import Prelude PyFloat Json SchemaTypes Schema Pointer Recording.
From S2P Require Import Interchange VizSource Navigation NavigationProofs.
From S2P Require Import Playback PlaybackReads PlaybackProofs.

(** ** The playhead *)

Section pace.
Context (cf : config).

(** From a time on, the playhead is not before [x]. *)
Definition anchored (p : playback) (clock x : Z) : Prop := ∀ now, clock ≤ now → x ≤ playhead cf now p.

Lemma scaled_mono a b rate : rate_ok rate → a ≤ b → scaled a rate ≤ scaled b rate.
Proof.
  intros (z & Hz & Hl) Hab. unfold scaled. rewrite Hz. assert (0 < 2 ^ 1074) by (apply Z.pow_pos_nonneg; lia).
  apply Z.div_le_mono; [done|]. nia.
Qed.

Lemma playhead_anchored now p : rate_ok (ps_rate p) → anchored p now (playhead cf now p).
Proof.
  intros Hr now' Hn. unfold playhead. destruct (ps_anchor p) as [t0 o].
  pose proof (scaled_mono (Z.max 0 (now - t0)) (Z.max 0 (now' - t0)) (ps_rate p) Hr ltac:(lia)). lia.
Qed.

(** A new anchor holds the playhead at its time or after. *)
Lemma anchor_anchored now x y p :
  rate_ok (ps_rate p) → ps_anchor p = (now, Some x) → time_ok cf x → y ≤ x → anchored p now y.
Proof.
  intros Hr Ha Hx Hy now' Hn. unfold playhead, time_ok in *. rewrite Ha. cbn [default from_option id].
  pose proof (scaled_nonneg (Z.max 0 (now' - now)) (ps_rate p) Hr ltac:(lia)).
  destruct (cf_start cf), (cf_end cf); try done. cbn [default from_option id]. lia.
Qed.

Lemma anchored_later p c c' x y : anchored p c x → c ≤ c' → y ≤ x → anchored p c' y.
Proof. intros Ha Hc Hy now Hn. specialize (Ha now ltac:(lia)). lia. Qed.

(** The cursor is behind the playhead, and behind the target of a stall. *)
Record paced (clock : Z) (p : playback) : Prop := {
  pa_anchor c : ps_playing p = true → ps_ended p = false → ps_reset_pending p = false →
    ps_stall_target p = None → ps_cursor p = Some c → anchored p clock c;
  pa_stall t c : ps_stall_target p = Some t → ps_cursor p = Some c → c ≤ t;
  pa_seek : ps_reset_pending p = true → ps_stall_target p = None;
}.

(** A read that is not stale ends at or after its position, where playback may
    go on. *)
Definition target_ok (clock : Z) (p : playback) (w : option work) : Prop :=
  ∀ r, w = Some (WRead r) → stale r p = false →
    (rd_after r).1 ≤ rd_target r
    ∧ match ps_stall_target p with
      | Some t => rd_target r = t
      | None => anchored p clock (rd_target r)
      end.

Definition on_pace (clock : Z) (p : playback) (w : option work) : Prop :=
  paced clock p ∧ target_ok clock p w.

(** The same transport. *)
Definition same_transport (p p' : playback) : Prop :=
  ps_playing p' = ps_playing p ∧ ps_ended p' = ps_ended p ∧ ps_reset_pending p' = ps_reset_pending p
  ∧ ps_stall_target p' = ps_stall_target p ∧ ps_cursor p' = ps_cursor p ∧ ps_anchor p' = ps_anchor p
  ∧ ps_rate p' = ps_rate p ∧ ps_generation p' = ps_generation p
  ∧ ps_unreconstructed p' = ps_unreconstructed p.

Lemma same_playhead p p' now :
  ps_anchor p' = ps_anchor p → ps_rate p' = ps_rate p → playhead cf now p' = playhead cf now p.
Proof. intros Ha Hr. unfold playhead. by rewrite Ha, Hr. Qed.

Lemma same_anchored p p' c c' x :
  ps_anchor p' = ps_anchor p → ps_rate p' = ps_rate p → c ≤ c' → anchored p c x → anchored p' c' x.
Proof. intros Ha Hr Hc H now Hn. rewrite (same_playhead p p') by done. apply H. lia. Qed.

Lemma on_pace_same clock clock' p p' w :
  same_transport p p' → clock ≤ clock' → on_pace clock p w → on_pace clock' p' w.
Proof.
  intros (E1 & E2 & E3 & E4 & E5 & E6 & E7 & E8 & E9) Hc [[Ha Hs Hk] Hw]. split; [split|].
  - intros c. rewrite E1, E2, E3, E4, E5. intros. eapply same_anchored; eauto.
  - intros t c. rewrite E4, E5. apply Hs.
  - by rewrite E3, E4.
  - intros r Hr Hst. rewrite E4. unfold stale, pending in *. rewrite E1, E2, E3, E8, E9 in Hst.
    destruct (Hw r Hr Hst) as [Hle Ht]. split; [done|]. destruct (ps_stall_target p); [done|].
    eapply same_anchored; eauto.
Qed.

(** A controller that is paused, or that a seek stopped. *)
Lemma on_pace_paused clock p w :
  ps_playing p = false → (∀ t c, ps_stall_target p = Some t → ps_cursor p = Some c → c ≤ t) →
  (ps_reset_pending p = true → ps_stall_target p = None) → on_pace clock p w.
Proof.
  intros Hp Hs Hk. split; [split|]; [congruence|done|done|]. intros r _. unfold stale. rewrite Hp.
  cbn [negb]. rewrite orb_true_r. done.
Qed.

Lemma stale_generation r p : rd_generation r ≠ ps_generation p → stale r p = true.
Proof. intros H. unfold stale. by rewrite (proj2 (Z.eqb_neq _ _) H). Qed.

(** After a seek, until it commits. *)
Lemma on_pace_seek clock a request p w :
  match w with Some w => work_ok cf p w | None => True end → on_pace clock (start_seek a request p) w.
Proof.
  intros Hw. unfold start_seek. rewrite drop_all. unfold with_queue. split; [split; pgoal; done|].
  intros r -> Hst. destruct Hw as [Hg _]. exfalso. rewrite stale_generation in Hst; [done|]. pgoal. lia.
Qed.
End pace.

(** ** Pace of the commands *)

Section commands.
Context (cf : config).

(** Commands that keep the pace: with a subscription's reconstruction pending,
    no rate change, and while a read is in progress, no resume. *)
Definition steady_configure (p : playback) (w : option work) (playing rate : json) : Prop :=
  (rate = JNull ∨ ps_playing p = false ∨ pending p = false ∨ ps_reset_pending p = true)
  ∧ (playing = JBool true → ps_playing p = true ∨ w = None).

Lemma running_iff p :
  running p = true ↔ ps_playing p = true ∧ pending p = false ∧ ps_stall_target p = None ∧ ps_ended p = false.
Proof.
  unfold running, stalled. rewrite !andb_true_iff, !negb_true_iff, bool_decide_eq_false, <- eq_None_not_Some. tauto.
Qed.

Lemma stale_false r p :
  stale r p = false ↔ rd_generation r = ps_generation p ∧ ps_playing p = true ∧ pending p = false ∧ ps_ended p = false.
Proof. unfold stale. rewrite !orb_false_iff, !negb_false_iff, Z.eqb_eq. tauto. Qed.

Lemma apply_rate_pace clock now r p w :
  play_ok cf p → (∀ n b, r = Some (n, b) → rate_ok b) → config_ok cf → clock ≤ now →
  (r = None ∨ ps_playing p = false ∨ pending p = false ∨ ps_reset_pending p = true) →
  on_pace cf clock p w → match w with Some w => work_ok cf p w | None => True end →
  on_pace cf now (apply_rate cf r now p) w.
Proof.
  intros Hp Hr Hcf Hc Hsteady Hpace Hwok. unfold apply_rate.
  destruct r as [[n b]|]; [|by eapply on_pace_same; [|exact Hc|exact Hpace]].
  destruct (num_eq _ _); [by eapply on_pace_same; [|exact Hc|exact Hpace]|].
  specialize (Hr n b eq_refl). destruct Hsteady as [|Hsteady]; [done|]. destruct Hpace as [[Ha Hs Hk] Hw].
  destruct (running p) eqn:Hrun.
  - apply running_iff in Hrun as (Hpl & Hpe & Hst & He).
    assert (time_ok cf (playhead cf now p)) as Ht by (apply playhead_time; [done|by apply (po_playing _ _ Hp)|done]).
    set (p' := set_rate b _). assert (∀ y, y ≤ playhead cf now p → anchored cf p' now y) as Hanch.
    { intros y Hy. by eapply anchor_anchored. }
    split; [split|]; unfold p'; pgoal; try done.
    + intros c _ _ Hrp _ Hcur. apply Hanch, Ha; done.
    + intros r Hwr Hstale. pgoal. rewrite Hst. destruct (Hw r Hwr Hstale) as [Hle Ht'].
      split; [done|]. rewrite Hst in Ht'. by apply Hanch, Ht'.
  - assert (¬ (ps_playing p = true ∧ pending p = false ∧ ps_stall_target p = None ∧ ps_ended p = false)) as Hno.
    { intros H%running_iff. congruence. }
    split; [split|]; pgoal; try done.
    + intros c Hpl He Hrp Hst _. destruct Hsteady as [?|[?|?]]; [congruence|tauto|congruence].
    + intros r Hwr Hstale. pose proof Hstale as (Hg & Hpl & Hpe & He)%stale_false.
      destruct (Hw r Hwr Hstale) as [Hle Ht]. split; [done|]. pgoal.
      destruct (ps_stall_target p); [done|]. exfalso. by apply Hno.
Qed.

Lemma apply_playing_pace clock b now p w :
  play_ok cf p → clock ≤ now → (b = true → ps_playing p = true ∨ w = None) →
  on_pace cf clock p w → on_pace cf now (apply_playing cf b now p) w.
Proof.
  intros Hp Hc Hsteady Hpace. unfold apply_playing. destruct b; cbn [negb].
  2: { apply on_pace_paused; pgoal; done. }
  destruct (bool_decide (cf_start cf = None)) eqn:Hs.
  { apply bool_decide_eq_true in Hs. apply on_pace_paused; pgoal; [|apply Hpace..].
    destruct (ps_playing p) eqn:Hpl; [|done]. destruct (po_playing _ _ Hp Hpl). congruence. }
  destruct (ps_playing p) eqn:Hpl; [by eapply on_pace_same; [|exact Hc|exact Hpace]|].
  destruct Hsteady as [?| ->]; [done|congruence|]. destruct Hpace as [[Ha Hst Hk] _].
  split; [split|]; pgoal; [|done|done|by intros ?].
  intros c _ _ _ _ Hcur. eapply anchor_anchored; pgoal; [apply (po_rate _ _ Hp)|by rewrite Hcur| |lia].
  by eapply cursor_time.
Qed.

Lemma apply_position_pace clock t pl request p w :
  match w with Some w => work_ok cf p w | None => True end →
  on_pace cf clock p w → on_pace cf clock (apply_position cf t pl request p) w.
Proof.
  intros Hw Hp. unfold apply_position. destruct t; [by apply on_pace_seek|]. destruct pl as [[]|]; try done.
  destruct (cf_start cf); [|done]. destruct (ps_ended p); [by apply on_pace_seek|done].
Qed.

Lemma apply_position_playing t pl request p : ps_playing (apply_position cf t pl request p) = ps_playing p.
Proof.
  unfold apply_position, start_seek. destruct t; [by rewrite drop_all|]. destruct pl as [[]|]; try done.
  destruct (cf_start cf); [|done]. destruct (ps_ended p); [by rewrite drop_all|done].
Qed.
Lemma apply_rate_playing r now p : ps_playing (apply_rate cf r now p) = ps_playing p.
Proof. unfold apply_rate. destruct r as [[]|]; [|done]. destruct (num_eq _ _); [done|]. by destruct (running p). Qed.

Lemma configure_pace clock request_id position_ns playing rate now p w :
  config_ok cf → play_ok cf p → clock ≤ now → steady_configure p w playing rate →
  match w with Some w => work_ok cf p w | None => True end → on_pace cf clock p w →
  on_pace cf now (configure cf request_id position_ns playing rate now p).1 w.
Proof.
  intros Hcf Hp Hc [Hs1 Hs2] Hw Hpace. assert (on_pace cf now p w) by (by eapply on_pace_same; [|exact Hc|exact Hpace]).
  unfold configure. destruct (_ ← check_open cf p; _) as [request|e]; [|done].
  destruct (dget _ _) as [[cached st]|]; [done|].
  destruct (t ← check_position cf position_ns p; _) as [[[t pl] r]|e] eqn:Hch; [|done].
  apply bind_Ok in Hch as (t' & Ht & (pl' & Hpl & (r' & Hr & [= -> -> ->])%bind_Ok)%bind_Ok). cbn [fst].
  assert (∀ n b, r = Some (n, b) → rate_ok b) as Hrate by (intros n b ->; by eapply check_rate_ok).
  assert (match t with Some t => in_bounds cf (Some (t, AFTER_INSTANT)) | None => True end) as Hpos
    by (destruct t; [by eapply check_position_bounds|done]).
  set (p1 := apply_rate cf r now p). destruct (apply_rate_fine cf r now p Hcf Hp Hrate) as [Hp1 Hk1].
  assert (match w with Some w => work_ok cf p1 w | None => True end) as Hw1
    by (destruct w; [by eapply work_ok_keeps|done]).
  assert (on_pace cf now p1 w) as Hpace1.
  { eapply apply_rate_pace; [done|done|done|exact Hc| |done|done]. destruct Hs1 as [-> |?]; [|by right].
    cbn in Hr. injection Hr as <-. by left. }
  set (p2 := apply_position cf t pl request p1).
  destruct (apply_position_fine cf t pl request p1 Hcf Hp1 Hpos) as [Hp2 _]. fold p2 in Hp2.
  assert (on_pace cf now p2 w) as Hpace2 by by apply apply_position_pace.
  assert (ps_playing p2 = ps_playing p) as Epl by (unfold p2, p1; by rewrite apply_position_playing, apply_rate_playing).
  assert (on_pace cf now (match pl with None => p2 | Some b => apply_playing cf b now p2 end) w) as Hpace3.
  { destruct pl as [b|]; [|done]. eapply apply_playing_pace; [done|reflexivity| |done]. rewrite Epl.
    intros ->. apply Hs2. destruct playing; try done. cbn in Hpl. congruence. }
  by eapply on_pace_same; [|reflexivity|exact Hpace3].
Qed.

Lemma subscribe_pace clock wanted now p w :
  play_ok cf p → clock ≤ now → match w with Some w => work_ok cf p w | None => True end →
  on_pace cf clock p w → on_pace cf now (subscribe wanted now p) w.
Proof.
  intros Hp Hc Hw [[Ha Hs Hk] _]. unfold subscribe.
  destruct (discard_staged_form p) as (u & -> & _). rewrite drop_queued_filter.
  set (p4 := set_subscription wanted _). set (p5 := if stalled p4 then _ else p4). set (q := filter _ (ps_queue p5)).
  assert (ps_generation (with_queue q p5) = ps_generation p + 1) as Hg
    by (unfold with_queue, p5; by destruct (stalled p4)).
  assert (match w with Some w => work_ok cf (set_fresh false (with_queue q p5)) w | None => True end) as Hw5.
  { destruct w as [w|]; [|done]. eapply work_ok_keeps; [|exact Hw]. left. pgoal. rewrite Hg. lia. }
  destruct (_ && _); [by apply on_pace_seek|]. split.
  - unfold with_queue, p5. destruct (stalled p4) eqn:Hst; unfold p4; (split; pgoal; try done).
    + intros c _ _ _ _ Hcur. eapply anchor_anchored; pgoal; [apply (po_rate _ _ Hp)|by rewrite Hcur| |lia].
      by eapply cursor_time.
    + intros c Hpl He Hrp Hn Hcur. eapply same_anchored; [..|by apply Ha]; done.
  - intros r -> Hstale. exfalso. destruct Hw as [Hgr _]. rewrite stale_generation in Hstale; [done|].
    rewrite Hg. lia.
Qed.

Lemma with_queue_transport q p : same_transport p (with_queue q p).
Proof. split_and!; done. Qed.

Lemma requeued_pace clock p p' w : requeued p p' → on_pace cf clock p w → on_pace cf clock p' w.
Proof. intros (q & -> & _). eapply on_pace_same; [apply with_queue_transport|done]. Qed.

Lemma disconnect_pace clock p w : on_pace cf clock p w → on_pace cf clock (disconnect cf p).1 w.
Proof.
  intros Hp. unfold disconnect. destruct (ps_closed p); [done|]. cbn [fst]. rewrite drop_all.
  apply on_pace_paused; unfold with_queue; pgoal; done.
Qed.

Lemma close_pace clock p w : counted p → on_pace cf clock p w → on_pace cf clock (close cf p) w.
Proof.
  intros Hc [[Ha Hs Hk] Hw]. unfold close. destruct (ps_closed p); [done|]. rewrite drop_all.
  rewrite enqueue_push by done. destruct (ps_busy _); apply on_pace_paused; unfold with_queue; pgoal; done.
Qed.

Lemma drain_pace clock k p w : counted p → on_pace cf clock p w → on_pace cf clock (drain k p).1 w.
Proof.
  intros Hc. destruct (drain_drop k p Hc) as (n & -> & _). eapply on_pace_same; [apply with_queue_transport|done].
Qed.

(** ** Pace of the work *)

Lemma committed_pace clock j now p :
  play_ok cf p → job_now j p → clock ≤ now → on_pace cf clock p None → on_pace cf now (committed j now p) None.
Proof.
  intros Hp (_ & Hr & Haf) Hc [[Ha Hs Hk] _]. unfold committed.
  assert (∀ c, ps_cursor p = Some c → time_ok cf c) as Hcur by (intros c; by apply cursor_time).
  assert (jb_reset j = true → ∀ c, ps_seek p = Some c → time_ok cf c) as Hseek.
  { intros Hj c Hsk. rewrite Hr in Hj. destruct (po_seek _ _ Hp Hj) as [Hb E]. rewrite E in Hsk.
    destruct (ps_seek_after p) as [x|]; [|done]. injection Hsk as <-. by apply in_bounds_Some in Hb as [? _]. }
  destruct (jb_reset j) eqn:Hj; pgoal; destruct (ps_playing p) eqn:Hpl; (split; [split|by intros ?]); pgoal; try done.
  - intros c _ _ _ _ E. eapply anchor_anchored; pgoal; [apply (po_rate _ _ Hp)|by rewrite E| |lia]. by apply Hseek.
  - rewrite Hk by done. done.
  - congruence.
  - rewrite Hk by done. done.
  - intros c _ _ _ _ E. eapply anchor_anchored; pgoal; [apply (po_rate _ _ Hp)|by rewrite E| |lia]. by apply Hcur.
  - congruence.
Qed.

Lemma fill_staged_pace clock now p :
  play_ok cf p → clock ≤ now → on_pace cf clock p None → on_pace cf now (fill_staged cf now p) None.
Proof.
  intros Hp Hc Hpace. unfold fill_staged.
  destruct (ps_staged p) as [g|] eqn:Hg; [|by eapply on_pace_same; [|exact Hc|exact Hpace]].
  destruct (fill_items_form cf (sg_job g) (sg_items g) (sg_queued g) now p (po_counted _ _ Hp))
    as (q & _ & [-> |(g' & _ & ->)]).
  - eapply on_pace_same; [apply with_queue_transport|reflexivity|]. eapply committed_pace; [done| |done|done].
    by apply (po_staged _ _ Hp).
  - by eapply on_pace_same; [|exact Hc|exact Hpace].
Qed.

Lemma stall_pace clock t p :
  counted p → ps_reset_pending p = false → (∀ c, ps_cursor p = Some c → c ≤ t) →
  on_pace cf clock p None → on_pace cf clock (stall cf t p) None.
Proof.
  intros Hc Hr Ht [[Ha Hs Hk] _]. unfold stall. destruct (stalled p); [by split; [split|]|].
  rewrite enqueue_push by done. eapply on_pace_same; [apply with_queue_transport|reflexivity|].
  split; [split|by intros ?]; pgoal; [done| |congruence]. intros ? c [= <-] E. by apply Ht.
Qed.

Lemma take_read_pace clock now p p' r :
  config_ok cf → play_ok cf p → clock ≤ now → on_pace cf clock p None → take_read cf now p = (p', r) →
  on_pace cf now p' (WRead <$> r).
Proof.
  intros Hcf Hp Hc Hpace. unfold take_read. set (p1 := set_more false p).
  assert (on_pace cf clock p1 None) as Hpace1 by by eapply on_pace_same; [|reflexivity|exact Hpace].
  assert (play_ok cf p1) as Hp1 by by apply set_more_fine. clearbody p1.
  destruct (negb (ps_playing p1) || pending p1 || ps_ended p1) eqn:Hidle.
  { intros [= <- <-]. by eapply on_pace_same; [|exact Hc|exact Hpace1]. }
  apply orb_false_iff in Hidle as [[Hpl%negb_false_iff Hpe]%orb_false_iff He].
  pose proof Hpe as [Hrp _]%orb_false_iff. pose proof Hpace1 as [[Ha Hs Hk] _].
  set (target := match ps_stall_target p1 with Some t => t | None => _ end).
  assert (∀ c, ps_cursor p1 = Some c → c ≤ target) as Hct.
  { intros c E. unfold target. destruct (ps_stall_target p1) eqn:Hst; [by eapply Hs|]. by apply Ha. }
  destruct (_ || _).
  { intros [= <- <-]. apply stall_pace; [apply (po_counted _ _ Hp1)|done|done|].
    by eapply on_pace_same; [|exact Hc|exact Hpace1]. }
  destruct (stalled p1 && _); intros [= <- <-]; [by eapply on_pace_same; [|exact Hc|exact Hpace1]|].
  split; [by eapply on_pace_same; [|exact Hc|exact Hpace1]|]. intros r [= <-] _. cbn [rd_after rd_target].
  assert (ps_cursor p1 = fst <$> ps_after p1) as E by apply (po_cursor _ _ Hp1).
  assert (is_Some (ps_after p1)) as [a Haf].
  { destruct (po_playing _ _ Hp1 Hpl) as [s0 Hs0]. pose proof (po_after _ _ Hp1) as Hb. unfold in_bounds in Hb.
    rewrite Hs0 in Hb. destruct (cf_end cf), (ps_after p1); done. }
  rewrite Haf in E |- *. cbn [default from_option id]. split; [by apply Hct|].
  unfold target. destruct (ps_stall_target p1); [done|]. apply playhead_anchored, (po_rate _ _ Hp1).
Qed.

Lemma pump_begin_pace clock now p p' w0 w :
  config_ok cf → play_ok cf p → clock ≤ now → (ps_busy p = false → w0 = None) → on_pace cf clock p w0 →
  pump_begin cf now p = (p', w) →
  on_pace cf now p' (match w with Some w => Some w | None => w0 end).
Proof.
  intros Hcf Hp Hc Hb Hpace. assert (on_pace cf now p w0) as Hnow by by eapply on_pace_same; [|exact Hc|exact Hpace].
  unfold pump_begin. destruct (_ || bool_decide _) eqn:Hidle; [by intros [= <- <-]|].
  apply orb_false_iff in Hidle as [[Hcl Hbu]%orb_false_iff _]. rewrite (Hb Hbu) in *.
  destruct (ps_staged p) as [g|]; [intros [= <- <-]; by eapply fill_staged_pace|].
  destruct (take_job p) as [j|].
  { intros [= <- <-]. destruct Hnow as [[] _]. split; [by split|by intros ?]. }
  destruct (take_read cf now p) as [p1 r] eqn:Hr. pose proof (take_read_pace _ _ _ _ _ Hcf Hp Hc Hpace Hr) as Hp1.
  destruct r as [r|]; intros [= <- <-]; [|done]. by eapply on_pace_same; [|reflexivity|exact Hp1].
Qed.

Lemma advanced_pace clock r items complete now p :
  play_ok cf p → work_ok cf p (WRead r) → clock ≤ now → stale r p = false →
  Forall (λ i, (item_key i).1 ≤ rd_target r) items →
  on_pace cf clock p (Some (WRead r)) → on_pace cf now (advanced cf r items complete now p) None.
Proof.
  intros Hp (_ & _ & _ & _ & Ht & _) Hc Hst Hit [[Ha Hs Hk] Hw].
  destruct (Hw r eq_refl Hst) as [Hle Htgt]. apply stale_false in Hst as (_ & Hpl & Hpe & He).
  apply orb_false_iff in Hpe as [Hrp _]. unfold advanced, reached, moved.
  assert (∀ i, last items = Some i → (item_key i).1 ≤ rd_target r) as Hlast.
  { intros i [l ->]%last_Some. apply (proj1 (Forall_forall _ _) Hit). set_solver. }
  split; [|by intros ?]. destruct complete.
  - destruct (last items) as [i|] eqn:Hl; (destruct (bool_decide _);
      [|destruct (stalled _) eqn:Hsd]); split; pgoal; try done; try congruence.
    all: try (intros c _ _ _ _ [= <-]; eapply anchor_anchored; pgoal; [apply (po_rate _ _ Hp)|done|done|lia]).
    all: try (intros c _ _ _ Hns [= <-]; rewrite Hns in Htgt; by eapply same_anchored; [..|exact Htgt]).
    all: intros t c Hst [= <-]; exfalso; unfold stalled in Hsd; pcbn; rewrite Hst in Hsd;
      by rewrite bool_decide_true in Hsd.
  - destruct (last items) as [i|] eqn:Hl; split; pgoal; try done; try congruence.
    + intros c _ _ _ Hns [= <-]. rewrite Hns in Htgt. specialize (Hlast i eq_refl).
      eapply same_anchored; [reflexivity|reflexivity|exact Hc|]. eapply anchored_later; [exact Htgt|done|done].
    + intros t c Hst [= <-]. rewrite Hst in Htgt. specialize (Hlast i eq_refl). lia.
    + intros c H1 H2 H3 H4 H5. eapply same_anchored; [reflexivity|reflexivity|exact Hc|]. by apply Ha.
Qed.

Lemma pump_end_pace clock w found now p :
  config_ok cf → play_ok cf p → work_ok cf p w → found_ok cf w found → clock ≤ now →
  match w, found with
  | WRead r, Ok (items, _) => stale r p = false → Forall (λ i, (item_key i).1 ≤ rd_target r) items
  | _, _ => True
  end →
  on_pace cf clock p (Some w) → on_pace cf now (pump_end cf w found now p) None.
Proof.
  intros Hcf Hp Hw Hf Hc Hit Hpace. unfold pump_end. set (p1 := set_busy false p).
  assert (play_ok cf p1) as Hp1 by by apply play_ok_set_busy.
  assert (on_pace cf clock p1 (Some w)) as Hpace1 by by eapply on_pace_same; [|reflexivity|exact Hpace].
  assert (on_pace cf clock p1 None) as Hnone by (destruct Hpace1; split; [done|by intros ?]).
  assert (on_pace cf now p1 None) as Hnow by by eapply on_pace_same; [|exact Hc|exact Hnone].
  assert (work_ok cf p1 w) as Hw1 by done.
  pose proof (po_counted _ _ Hp1) as Hcount.
  destruct found as [[items complete]|e]; cbn in Hf.
  - destruct (ps_closed p1); [by eapply on_pace_same; [|exact Hc|exact Hnone]|]. destruct w as [j|r].
    + destruct (decide (jb_generation j = ps_generation p1)) as [Hg|Hg].
      * destruct (commit_form cf j items now p1 Hcount Hg) as (q & _ & [-> |(g & _ & ->)]).
        -- eapply on_pace_same; [apply with_queue_transport|reflexivity|].
           destruct Hw1 as (_ & _ & _ & Hj). by eapply committed_pace; [|split; [|apply Hj]|exact Hc|].
        -- by eapply on_pace_same; [|exact Hc|exact Hnone].
      * unfold commit. by rewrite (proj2 (Z.eqb_neq _ _) Hg).
    + destruct (stale r p1) eqn:Hst.
      * unfold advance. fold (stale r p1). by rewrite Hst.
      * specialize (Hit Hst). destruct (advance_form cf r items complete now p1 Hcount Hf Hst) as [(-> & _)|(q & _ & ->)].
        -- pose proof Hst as (Hg & Hpl & [Hrp _]%orb_false_iff & He)%stale_false.
           apply stall_pace; [done|done| |done]. intros c E.
           destruct Hpace1 as [_ Hwk]. destruct (Hwk r eq_refl Hst) as [Hle _].
           destruct Hw1 as (_ & _ & _ & _ & _ & _ & Hcur). destruct (Hcur Hg) as (_ & Ea & _).
           rewrite (po_cursor _ _ Hp1), Ea in E. by injection E as <-.
        -- eapply on_pace_same; [apply with_queue_transport|reflexivity|]. by eapply advanced_pace.
  - rewrite Hf. cbn [negb]. destruct (ps_closed p1); [by eapply on_pace_same; [|exact Hc|exact Hnone]|].
    unfold fail. rewrite enqueue_push by done. apply on_pace_paused; unfold with_queue; pgoal; done.
Qed.
End commands.

(** ** Histories *)

(** Where a stretch of playback began, and what it crossed since: the Messages
    enqueued for one subscription without a seek. *)
Record history := mk_history { hs_base : option (Z * Z); hs_crossed : list item; hs_clock : Z }.

(** A step that starts a new stretch: another subscription, or a committed seek. *)
Definition new_stretch (p p' : playback) : bool :=
  negb (bool_decide (ps_subscription p' = ps_subscription p))
  || (ps_reset_pending p && negb (ps_reset_pending p')).

Definition event_now (e : event) : option Z :=
  match e with
  | EConfigure _ _ _ _ now | ESubscribe _ now | EPump now | EFinish now => Some now
  | _ => None
  end.

Definition record_step (e : event) (p p' : playback) (h : history) : history :=
  let clock := default (hs_clock h) (event_now e) in
  if new_stretch p p' then mk_history (ps_after p') [] clock
  else mk_history (hs_base h)
         (hs_crossed h ++ drop (length (crossings (ps_queue p))) (crossings (ps_queue p'))) clock.

(** A step that crosses nothing. *)
Definition quiet (p p' : playback) : Prop :=
  ps_after p' = ps_after p ∧ (length (crossings (ps_queue p')) ≤ length (crossings (ps_queue p)))%nat.

Lemma crossings_sublist q k : q `sublist_of` k → (length (crossings q) ≤ length (crossings k))%nat.
Proof.
  induction 1 as [|n q k _ IH|n q k _ IH]; [done|..]; cbn [crossings omap list_omap];
    destruct (crossing_of n); cbn [length]; unfold crossings in *; lia.
Qed.

Lemma quiet_refl p : quiet p p.
Proof. by split. Qed.
Lemma quiet_trans p q r : quiet p q → quiet q r → quiet p r.
Proof. intros [H1 H2] [K1 K2]. split; [congruence|lia]. Qed.
Lemma quiet_same p p' : ps_after p' = ps_after p → ps_queue p' = ps_queue p → quiet p p'.
Proof. intros H1 H2. split; [done|by rewrite H2]. Qed.
Lemma quiet_requeue q p : crossings q = crossings (ps_queue p) → quiet p (with_queue q p).
Proof. intros H. split; [done|]. unfold with_queue. pgoal. by rewrite H. Qed.

Section quiet.
Context (cf : config).

Lemma start_seek_quiet a request p : quiet p (start_seek a request p).
Proof. unfold start_seek. rewrite drop_all. split; [done|]. unfold with_queue. pgoal. cbn. lia. Qed.

Lemma apply_rate_quiet r now p : quiet p (apply_rate cf r now p).
Proof.
  unfold apply_rate. destruct r as [[]|]; [|done]. destruct (num_eq _ _); [done|].
  by apply quiet_same; destruct (running p).
Qed.
Lemma apply_position_quiet t pl request p : quiet p (apply_position cf t pl request p).
Proof.
  unfold apply_position. destruct t; [apply start_seek_quiet|]. destruct pl as [[]|]; try done.
  destruct (cf_start cf); [|done]. destruct (ps_ended p); [apply start_seek_quiet|done].
Qed.
Lemma apply_playing_quiet b now p : quiet p (apply_playing cf b now p).
Proof.
  unfold apply_playing. destruct (negb b); [done|]. destruct (bool_decide _); [done|]. by destruct (ps_playing p).
Qed.

Lemma configure_quiet request_id position_ns playing rate now p :
  quiet p (configure cf request_id position_ns playing rate now p).1.
Proof.
  unfold configure. destruct (_ ← check_open cf p; _) as [request|e]; [|done].
  destruct (dget _ _) as [[]|]; [done|].
  destruct (t ← check_position cf position_ns p; _) as [[[t pl] r]|e]; [|done]. cbn [fst].
  eapply quiet_trans; [apply (apply_rate_quiet r now)|].
  eapply quiet_trans; [apply (apply_position_quiet t pl request)|].
  eapply (quiet_trans _ (match pl with None => _ | Some b => apply_playing cf b now _ end)); [|by apply quiet_same].
  destruct pl; [apply apply_playing_quiet|done].
Qed.

(** A subscription that changes starts a stretch, and any other is quiet. *)
Lemma subscribe_stretch names now p :
  let p' := (set_subscription_command cf names now p).1 in new_stretch p p' = true ∨ p' = p.
Proof.
  cbn zeta. unfold set_subscription_command. destruct (check_open cf p); [|by right].
  destruct (negb _); [by right|]. destruct (bool_decide (_ = ps_subscription p)) eqn:Hw; [by right|].
  apply bool_decide_eq_false in Hw. left. cbn [fst]. unfold new_stretch. rewrite bool_decide_false; [done|].
  set (wanted := filter _ _) in *. intros E. apply Hw. rewrite <- E. symmetry.
  unfold subscribe. destruct (discard_staged_form p) as (u & -> & _). rewrite drop_queued_filter.
  set (p4 := set_subscription wanted _). set (p5 := if stalled p4 then _ else _).
  assert (ps_subscription p5 = wanted) as E5 by (unfold p5; by destruct (stalled p4)).
  destruct (_ && _); [unfold start_seek; rewrite drop_all|]; exact E5.
Qed.

Lemma disconnect_quiet p : quiet p (disconnect cf p).1.
Proof.
  unfold disconnect. destruct (ps_closed p); [done|]. cbn [fst]. rewrite drop_all. split; [done|].
  unfold with_queue. pgoal. cbn. lia.
Qed.

Lemma close_quiet p : quiet p (close cf p).
Proof.
  unfold close. destruct (ps_closed p); [done|]. rewrite drop_all. rewrite enqueue_push by done.
  split; [by destruct (ps_busy _)|]. destruct (ps_busy _); unfold with_queue; pgoal; cbn; lia.
Qed.

Lemma drain_quiet k p : counted p → quiet p (drain k p).1.
Proof.
  intros Hc. destruct (drain_drop k p Hc) as (n & -> & _). split; [done|]. unfold with_queue. pgoal.
  apply crossings_sublist, sublist_drop.
Qed.

(** ** Work *)

Lemma committed_stretch j now q p :
  job_now j p → crossings q = crossings (ps_queue p) →
  let p' := with_queue q (committed j now p) in new_stretch p p' = true ∨ quiet p p'.
Proof.
  intros (_ & Hr & _) Hq. cbn zeta. destruct (jb_reset j) eqn:Hj.
  - left. unfold new_stretch. rewrite <- Hr. cbn [andb].
    assert (ps_reset_pending (with_queue q (committed j now p)) = false) as ->; [|apply orb_true_r].
    unfold committed, with_queue. rewrite Hj. pgoal. by destruct (ps_playing p).
  - right. split; unfold with_queue; pgoal; [|by rewrite Hq]. unfold committed. rewrite Hj. pgoal.
    by destruct (ps_playing p).
Qed.

Lemma fill_staged_stretch now p :
  play_ok cf p → new_stretch p (fill_staged cf now p) = true ∨ quiet p (fill_staged cf now p).
Proof.
  intros Hp. unfold fill_staged. destruct (ps_staged p) as [g|] eqn:Hg; [|by right].
  destruct (fill_items_form cf (sg_job g) (sg_items g) (sg_queued g) now p (po_counted _ _ Hp))
    as (q & Hq & [-> |(g' & _ & ->)]).
  - apply committed_stretch; [by apply (po_staged _ _ Hp)|done].
  - right. split; [done|]. unfold with_queue. pgoal. by rewrite Hq.
Qed.

Lemma stall_quiet t p : counted p → quiet p (stall cf t p).
Proof.
  intros Hc. unfold stall. destruct (stalled p); [done|]. rewrite enqueue_push by done.
  split; [done|]. unfold with_queue. pgoal. rewrite crossings_push. cbn. by rewrite app_nil_r.
Qed.

Lemma pump_begin_stretch now p :
  play_ok cf p → new_stretch p (pump_begin cf now p).1 = true ∨ quiet p (pump_begin cf now p).1.
Proof.
  intros Hp. pose proof (po_counted _ _ Hp) as Hc. unfold pump_begin.
  destruct (_ || bool_decide _); [by right|]. destruct (ps_staged p); [by apply fill_staged_stretch|].
  destruct (take_job p); [by right|].
  assert (quiet p (take_read cf now p).1) as Hq.
  { unfold take_read. destruct (_ || ps_ended _); [done|]. destruct (_ || _); [|by destruct (_ && _)].
    cbn [fst]. by eapply quiet_trans; [|apply stall_quiet]. }
  destruct (take_read cf now p) as [p1 [r|]]; by right.
Qed.

Lemma new_stretch_busy b p p' : new_stretch (set_busy b p) p' = new_stretch p p'.
Proof. done. Qed.
Lemma quiet_busy b p p' : quiet (set_busy b p) p' → quiet p p'.
Proof. done. Qed.

(** The end of a read, unless it advances. *)
Lemma pump_end_stretch w found now p :
  play_ok cf p → work_ok cf p w → found_ok cf w found →
  let p' := pump_end cf w found now p in
  new_stretch p p' = true ∨ quiet p p'
  ∨ ∃ r items complete q, w = WRead r ∧ found = Ok (items, complete) ∧ stale r p = false
      ∧ crossings q = crossings (ps_queue p) ++ items
      ∧ p' = with_queue q (advanced cf r items complete now (set_busy false p)).
Proof.
  intros Hp Hw Hf. cbn zeta. unfold pump_end. set (p1 := set_busy false p).
  assert (play_ok cf p1) as Hp1 by by apply play_ok_set_busy.
  pose proof (po_counted _ _ Hp1) as Hc. assert (quiet p p1) as Hq by done.
  destruct found as [[items complete]|e]; cbn in Hf.
  - destruct (ps_closed p1); [by right; left|]. destruct w as [j|r].
    + destruct (decide (jb_generation j = ps_generation p1)) as [Hg|Hg]; cycle 1.
      { right. left. unfold commit. by rewrite (proj2 (Z.eqb_neq _ _) Hg). }
      destruct Hw as (_ & _ & _ & Hj). assert (job_now j p1) as Hjn by (split; [done|by apply Hj]).
      destruct (commit_form cf j items now p1 Hc Hg) as (q & Hx & [-> |(g & _ & ->)]).
      * destruct (committed_stretch j now q p1 Hjn Hx) as [Hn|Hn].
        -- left. unfold p1 in Hn at 1. rewrite new_stretch_busy in Hn. exact Hn.
        -- right. left. exact (quiet_busy _ _ _ Hn).
      * right. left. split; [done|]. unfold with_queue. pgoal. by rewrite Hx.
    + destruct (stale r p1) eqn:Hst.
      * right. left. unfold advance. fold (stale r p1). by rewrite Hst.
      * right. destruct (advance_form cf r items complete now p1 Hc Hf Hst) as [(-> & _)|(q & Hx & ->)].
        -- left. eapply quiet_trans; [exact Hq|]. by apply stall_quiet.
        -- right. by exists r, items, complete, q.
  - rewrite Hf. cbn [negb]. right. left. destruct (ps_closed p1); [done|]. unfold fail.
    rewrite enqueue_push by done. split; [done|]. unfold with_queue. pgoal. rewrite crossings_push.
    cbn. by rewrite app_nil_r.
Qed.
End quiet.

(** ** Messages between two positions *)

Definition delivered (src : list source_message) (sub : list string) (b a : Z * Z) : list source_message :=
  filter (λ m, sm_channel m ∈ sub ∧ key_lt b (msg_key m) ∧ ¬ key_lt a (msg_key m)) src.

Lemma key_lt_split a b : key_lt a b ∨ ¬ key_lt a b.
Proof. destruct (decide (key_lt a b)); auto. Qed.

Lemma not_key_lt_trans a b c : ¬ key_lt b a → ¬ key_lt c b → ¬ key_lt c a.
Proof. unfold key_lt. lia. Qed.

(** Messages in order are those up to a position and those after it. *)
Lemma messages_split (P : source_message → Prop) `{!∀ m, Decision (P m)} (a : Z * Z) src :
  StronglySorted msg_lt src →
  filter P src = filter (λ m, P m ∧ ¬ key_lt a (msg_key m)) src ++ filter (λ m, P m ∧ key_lt a (msg_key m)) src.
Proof.
  induction 1 as [|m src Hs IH Hm]; [done|]. rewrite !filter_cons.
  destruct (decide (key_lt a (msg_key m))) as [Ha|Ha].
  - rewrite (decide_False (P := P m ∧ ¬ _)) by tauto.
    assert (filter (λ m, P m ∧ ¬ key_lt a (msg_key m)) src = []) as E.
    { apply filter_none. eapply Forall_impl; [exact Hm|]. intros x Hx [_ Hn]. apply Hn. by eapply key_lt_trans. }
    rewrite E in IH |- *. cbn [app] in *. rewrite IH. destruct (decide (P m)).
    + by rewrite decide_True.
    + rewrite decide_False; [done|tauto].
  - rewrite (decide_False (P := P m ∧ key_lt _ _)) by tauto. destruct (decide (P m)).
    + rewrite decide_True by done. cbn [app]. by rewrite IH.
    + rewrite decide_False by tauto. done.
Qed.

Lemma delivered_app src sub b a a' :
  StronglySorted msg_lt src → ¬ key_lt a b → ¬ key_lt a' a →
  delivered src sub b a' = delivered src sub b a ++ delivered src sub a a'.
Proof.
  intros Hs Hba Haa. unfold delivered. rewrite (messages_split _ a) by done. f_equal; apply filter_ext_in; intros m _.
  - pose proof (not_key_lt_trans (msg_key m) a a'). unfold key_lt in *. split; intros; split_and!; (tauto || lia || idtac).
  - split; [tauto|]. intros (H1 & H2 & H3). split_and!; try done. unfold key_lt in *. lia.
Qed.

Lemma delivered_none src sub a : delivered src sub a a = [].
Proof. apply filter_none, Forall_forall. tauto. Qed.

Lemma crossing_delivered src sub a target :
  (∀ m, m ∈ src → sm_index m ≤ AFTER_INSTANT) →
  crossing src sub a target = delivered src sub a (target, AFTER_INSTANT).
Proof.
  intros Hi. apply filter_ext_in. intros m Hm. specialize (Hi m Hm). unfold key_lt, msg_key. cbn. split; intros; split_and!;
    (tauto || lia || idtac).
Qed.

(** The Messages up to the last one taken are those taken. *)
Lemma delivered_taken src sub a target taken rest m :
  StronglySorted msg_lt src → (∀ x, x ∈ src → sm_index x ≤ AFTER_INSTANT) →
  crossing src sub a target = taken ++ rest → last taken = Some m →
  delivered src sub a (msg_key m) = taken.
Proof.
  intros Hs Hi Hc Hl. pose proof (matching_after src sub a (target + 1) taken rest m Hs Hc Hl) as Hrest.
  apply last_Some in Hl as [pre ->].
  assert (m ∈ crossing src sub a target) as (Hm & Hms)%list_elem_of_filter by (rewrite Hc; set_solver).
  assert (delivered src sub a (msg_key m) = filter (λ x, ¬ key_lt (msg_key m) (msg_key x)) (crossing src sub a target)) as ->.
  { unfold delivered, crossing, matching. rewrite list_filter_filter. apply filter_ext_in. intros x Hx.
    specialize (Hi x Hx). unfold key_lt, msg_key in *. cbn in *. split; intros; split_and!; (tauto || lia || idtac). }
  rewrite Hc, filter_app, filter_all, filter_none; [apply app_nil_r|..].
  - apply Forall_forall. intros x Hx Hn. apply Hn. rewrite <- Hrest in Hx.
    by apply list_elem_of_filter in Hx as ((_ & ? & _) & _).
  - assert (StronglySorted msg_lt ((pre ++ [m]) ++ rest)) as Hss by (rewrite <- Hc; by apply sorted_filter).
    rewrite <- app_assoc in Hss. apply Forall_forall. intros x Hx Hlt.
    apply elem_of_app in Hx as [Hx| ->%list_elem_of_singleton]; [|by eapply key_lt_irrefl].
    clear -Hx Hlt Hss. induction pre as [|y pre IH]; [by apply not_elem_of_nil in Hx|].
    inversion Hss as [|? ? H1 H2]; subst. apply elem_of_cons in Hx as [->|Hx]; [|auto].
    eapply key_lt_irrefl, key_lt_trans; [exact Hlt|]. apply (proj1 (Forall_forall _ _) H2). set_solver.
Qed.

(** ** Delivery *)

Section delivery.
Context {N} (nav : navigator N) (ok : N → Prop) (src : list source_message).
Context (cf : config) (mx : Z) (changes : Prop) (fuel : nat).
Context {Hlaws : navigator_laws nav ok src (cf_channels cf) mx changes}.
Context (Hcf : config_ok cf) (Hfuel : (length src < fuel)%nat).
Context (Hcovers : ∀ m, m ∈ src → time_ok cf (sm_time m)).

Abbreviation system := (system (N := N)).

Definition steady (s : system) (e : event) : Prop :=
  match e with
  | EConfigure _ _ playing rate _ => steady_configure (sy_play s) (sy_work s) playing rate
  | _ => True
  end.

(** A step of the machine and of its history, at a clock that does not go back. *)
Definition history_step (x : system * history) (e : event) (y : system * history) : Prop :=
  steady x.1 e ∧ hs_clock x.2 ≤ default (hs_clock x.2) (event_now e)
  ∧ y.1 = run_event nav cf fuel e x.1 ∧ y.2 = record_step e (sy_play x.1) (sy_play y.1) x.2.

Definition play_on (e : event) (x : system * history) : system * history :=
  let s' := run_event nav cf fuel e x.1 in (s', record_step e (sy_play x.1) (sy_play s') x.2).

(** A run of events that keeps the conditions of [history_step]. *)
Fixpoint run_steady (es : list event) (x : system * history) : Prop :=
  match es with
  | [] => True
  | e :: es => steady x.1 e ∧ hs_clock x.2 ≤ default (hs_clock x.2) (event_now e) ∧ run_steady es (play_on e x)
  end.

Lemma run_steady_reachable es x :
  run_steady es x → reachable history_step x es (foldl (λ x e, play_on e x) x es).
Proof using Type.
  assert (∀ es x tr y, reachable history_step x tr y → run_steady es y →
    reachable history_step x (tr ++ es) (foldl (λ x e, play_on e x) y es)) as H.
  { clear es x. induction es as [|e es IH]; intros x tr y Hr Hs; cbn [foldl].
    - by rewrite app_nil_r.
    - destruct Hs as (H1 & H2 & H3). change (e :: es) with ([e] ++ es). rewrite app_assoc. apply IH; [|done].
      by eapply reach_step. }
  intros Hs. apply (H es x [] x); [constructor|done].
Qed.

Definition history_start (n : N) (clock : Z) : system * history :=
  (start cf n, mk_history (ps_after (initial cf)) [] clock).

(** The crossed Messages of a stretch are those between its base and the
    position. *)
Definition shows_history (p : playback) (h : history) : Prop :=
  match hs_base h, ps_after p with
  | Some b, Some a =>
      ¬ key_lt a b ∧ Forall2 stands_for (hs_crossed h) (delivered src (ps_subscription p) b a)
  | None, None => hs_crossed h = []
  | _, _ => False
  end.

Lemma shows_new p clock : shows_history p (mk_history (ps_after p) [] clock).
Proof using Type.
  unfold shows_history. cbn [hs_base hs_crossed]. destruct (ps_after p); [|done].
  rewrite delivered_none. split; [apply key_lt_irrefl|constructor].
Qed.

Lemma new_stretch_false p p' : new_stretch p p' = false → ps_subscription p' = ps_subscription p.
Proof using Type.
  unfold new_stretch. intros [H%negb_false_iff _]%orb_false_iff. by apply bool_decide_eq_true in H.
Qed.

Lemma record_new e p p' h :
  new_stretch p p' = true → shows_history p' (record_step e p p' h).
Proof using Type. intros Hn. unfold record_step. rewrite Hn. apply shows_new. Qed.

Lemma record_quiet e p p' h :
  quiet p p' → shows_history p h → shows_history p' (record_step e p p' h).
Proof using Type.
  intros [Ha Hq] Hs. destruct (new_stretch p p') eqn:Hn; [by apply record_new|].
  unfold record_step, shows_history in *. rewrite Hn. cbn [hs_base hs_crossed].
  rewrite drop_ge, app_nil_r by exact Hq. by rewrite (new_stretch_false _ _ Hn), Ha.
Qed.

(** A step that is quiet or starts a stretch. *)
Lemma record_stretch e p p' h :
  new_stretch p p' = true ∨ quiet p p' → shows_history p h → shows_history p' (record_step e p p' h).
Proof using Type. intros [Hn|Hq] Hs; [by apply record_new|by apply record_quiet]. Qed.

Lemma advanced_after r items complete now p :
  ps_after (advanced cf r items complete now p)
  = if complete then Some (rd_target r, AFTER_INSTANT)
    else match last items with Some i => Some (item_key i) | None => ps_after p end.
Proof using Type.
  unfold advanced, reached, moved. destruct complete, (last items); try done;
    (destruct (bool_decide _); [done|]; by destruct (stalled _)).
Qed.

Lemma advanced_subscription r items complete now p :
  ps_subscription (advanced cf r items complete now p) = ps_subscription p.
Proof using Type.
  unfold advanced, reached, moved. destruct complete, (last items); try done;
    (destruct (bool_decide _); [done|]; by destruct (stalled _)).
Qed.

(** What a page adds to the delivered Messages. *)
Lemma page_delivered r items complete sub a' :
  (rd_after r).1 ≤ rd_target r → BEFORE_INSTANT ≤ (rd_after r).2 ≤ AFTER_INSTANT →
  page_shows mx (rd_limits r) (crossing src sub (rd_after r) (rd_target r)) (items, complete) →
  a' = (if complete then (rd_target r, AFTER_INSTANT)
        else match last items with Some i => item_key i | None => rd_after r end) →
  ¬ key_lt a' (rd_after r) ∧ Forall2 stands_for items (delivered src sub (rd_after r) a').
Proof using All.
  intros Hle Hi (taken & rest & Hsplit & Hst & Hcomp & _) ->. cbn [fst snd] in *.
  assert (∀ x, x ∈ src → sm_index x ≤ AFTER_INSTANT) as Hidx by (intros x Hx; by apply law_range).
  destruct complete.
  - rewrite <- crossing_delivered, Hsplit, Hcomp, app_nil_r by done. split; [|done].
    unfold key_lt. cbn. lia.
  - pose proof (Forall2_last _ _ _ Hst) as Hl. destruct (last items) as [i|] eqn:Hli.
    + destruct (last taken) as [m|] eqn:Hlt; [|done]. rewrite (stands_for_key _ _ Hl).
      rewrite (delivered_taken src sub _ _ _ _ _ law_sorted Hidx Hsplit Hlt). split; [|done].
      assert (m ∈ crossing src sub (rd_after r) (rd_target r)) as ((_ & Hk & _) & _)%list_elem_of_filter.
      { rewrite Hsplit. apply last_Some in Hlt as [? ->]. set_solver. }
      unfold key_lt in *. lia.
    + apply last_None in Hli as ->. rewrite delivered_none. split; [apply key_lt_irrefl|constructor].
Qed.

Lemma page_times r sub items complete :
  page_shows mx (rd_limits r) (crossing src sub (rd_after r) (rd_target r)) (items, complete) →
  Forall (λ i, (item_key i).1 ≤ rd_target r) items.
Proof using All.
  intros (taken & rest & Hsplit & Hst & _). cbn [fst] in Hst. apply Forall_forall.
  intros i [k Hk]%list_elem_of_lookup. destruct (Forall2_lookup_l _ _ _ _ _ Hst Hk) as (m & Hm & Him).
  rewrite (stands_for_key _ _ Him). apply list_elem_of_lookup_2 in Hm.
  assert (m ∈ crossing src sub (rd_after r) (rd_target r)) as ((_ & _ & Ht) & _)%list_elem_of_filter
    by (rewrite Hsplit; set_solver).
  cbn. lia.
Qed.

Record history_ok (x : system * history) : Prop := {
  ho_sys : sys_ok ok cf x.1;
  ho_pace : on_pace cf (hs_clock x.2) (sy_play x.1) (sy_work x.1);
  ho_shows : shows_history (sy_play x.1) x.2;
}.

Lemma record_clock e p p' h : hs_clock (record_step e p p' h) = default (hs_clock h) (event_now e).
Proof using Type. unfold record_step. by destruct (new_stretch p p'). Qed.

(** A page that playback crosses. *)
Lemma advance_shows e p h r items complete now q :
  work_ok cf p (WRead r) → stale r p = false → (rd_after r).1 ≤ rd_target r →
  page_shows mx (rd_limits r) (crossing src (rd_channels r) (rd_after r) (rd_target r)) (items, complete) →
  crossings q = crossings (ps_queue p) ++ items → shows_history p h →
  let p' := with_queue q (advanced cf r items complete now (set_busy false p)) in
  shows_history p' (record_step e p p' h).
Proof using All.
  intros (_ & _ & _ & Hb & _ & _ & Hcur) (Hg & _)%stale_false Hle Hx Hq Hshow.
  destruct (Hcur Hg) as (Hch & Ha & _). apply in_bounds_Some in Hb as [_ Hb]. rewrite Hch in Hx.
  cbn zeta. unfold record_step, shows_history in *. destruct (new_stretch _ _); [apply shows_new|].
  cbn [hs_base hs_crossed].
  assert (∀ q p, ps_after (with_queue q p) = ps_after p) as -> by done.
  assert (∀ q p, ps_subscription (with_queue q p) = ps_subscription p) as -> by done.
  assert (∀ q p, ps_queue (with_queue q p) = q) as -> by done.
  rewrite advanced_after, advanced_subscription, Hq, drop_app_length. pgoal. rewrite Ha in *.
  destruct (hs_base h) as [b|]; [|done]. destruct Hshow as [Hba Hd].
  set (a' := if complete then (rd_target r, AFTER_INSTANT)
             else match last items with Some i => item_key i | None => rd_after r end).
  assert ((if complete then Some (rd_target r, AFTER_INSTANT)
           else match last items with Some i => Some (item_key i) | None => Some (rd_after r) end) = Some a') as ->
    by (unfold a'; by destruct complete, (last items)).
  destruct (page_delivered r items complete _ a' Hle Hb Hx eq_refl) as [Haa Hi]. split.
  - by eapply not_key_lt_trans.
  - rewrite (delivered_app src _ b (rd_after r) a') by (done || apply law_sorted). by apply Forall2_app.
Qed.

(** The end of a read. *)
Lemma finish_ok s h now w n' found :
  history_ok (s, h) → hs_clock h ≤ now → sy_work s = Some w → perform nav fuel (sy_nav s) w = (n', found) →
  let p' := pump_end cf w found now (sy_play s) in
  on_pace cf now p' None ∧ shows_history p' (record_step (EFinish now) (sy_play s) p' h).
Proof using All.
  intros [[Hp Hn Hw] Hpace Hshow] Hc Hsw Hpf. cbn [fst snd] in *. rewrite Hsw in Hw, Hpace. destruct Hw as [_ Hw].
  destruct (perform_found nav ok src cf mx changes fuel Hcf Hfuel Hcovers _ _ _ _ _ Hn Hw Hpf) as [_ Hf].
  assert (∀ r items complete, w = WRead r → found = Ok (items, complete) → stale r (sy_play s) = false →
    (rd_after r).1 ≤ rd_target r
    ∧ page_shows mx (rd_limits r) (crossing src (rd_channels r) (rd_after r) (rd_target r)) (items, complete)) as Hpage.
  { intros r items complete -> -> Hst. destruct Hpace as [_ Ht]. destruct (Ht r eq_refl Hst) as [Hle _].
    destruct (read_found nav ok src cf mx changes fuel Hcf Hfuel Hcovers _ _ _ _ _ Hn Hw Hpf) as [_ Hr].
    rewrite decide_True in Hr by done. destruct Hr as [(x & [= <-] & Hx)|(_ & e & _ & ?)]; done. }
  split.
  - eapply pump_end_pace; try done. destruct w as [|r]; [done|]. destruct found as [[items complete]|]; [|done].
    intros Hst. destruct (Hpage r items complete eq_refl eq_refl Hst) as [_ Hx]. by eapply page_times.
  - destruct (pump_end_stretch cf w found now _ Hp Hw Hf) as [Hs|[Hs|(r & items & complete & q & -> & -> & Hst & Hq & Hp')]].
    1, 2: apply record_stretch; auto.
    destruct (Hpage r items complete eq_refl eq_refl Hst) as [Hle Hx]. cbn zeta. rewrite Hp'.
    by apply advance_shows.
Qed.

(** A command. *)
Lemma command_ok e s h p' :
  history_ok (s, h) → run_event nav cf fuel e s = with_play p' s →
  hs_clock h ≤ default (hs_clock h) (event_now e) →
  on_pace cf (default (hs_clock h) (event_now e)) p' (sy_work s) →
  new_stretch (sy_play s) p' = true ∨ quiet (sy_play s) p' →
  history_ok (with_play p' s, record_step e (sy_play s) p' h).
Proof using All.
  intros [Hs Hpace Hshow] He Hc Hp' Hq. split; cbn [fst snd with_play sy_play sy_work] in *.
  - change (mk_system p' (sy_work s) (sy_nav s)) with (with_play p' s). rewrite <- He. by eapply step_sys_ok.
  - by rewrite record_clock.
  - by apply record_stretch.
Qed.

Lemma history_step_ok x e y : history_ok x → history_step x e y → history_ok y.
Proof using All.
  destruct x as [s h], y as [s' h']. intros Hx (Hsteady & Hc & Hs' & Hh'). cbn [fst snd] in *. subst s' h'.
  pose proof Hx as [Hs Hpace Hshow]. cbn [fst snd] in *. pose proof Hs as [Hp Hn Hw].
  pose proof (po_counted _ _ Hp) as Hcount.
  assert (match sy_work s with Some w => work_ok cf (sy_play s) w | None => True end) as Hwok
    by (destruct (sy_work s); [by destruct Hw|done]).
  destruct e as [rid pos pl rate now|names now| | |k|now|now]; cbn [event_now default from_option id] in Hc.
  - eapply command_ok; [done|done|done| |right; apply configure_quiet]. by eapply configure_pace.
  - assert (sy_play (run_event nav cf fuel (ESubscribe names now) s)
            = (set_subscription_command cf names now (sy_play s)).1) as -> by done.
    eapply command_ok; [done|done|done| |].
    + cbn [event_now default from_option id]. unfold set_subscription_command.
      assert (on_pace cf now (sy_play s) (sy_work s)) by (by eapply on_pace_same; [|exact Hc|exact Hpace]).
      destruct (check_open _ _); [|done]. destruct (negb _); [done|]. destruct (bool_decide _); [done|].
      by eapply subscribe_pace.
    + destruct (subscribe_stretch cf names now (sy_play s)) as [H| ->]; [by left|right; apply quiet_refl].
  - eapply command_ok; [done|done|done|by apply disconnect_pace|right; apply disconnect_quiet].
  - eapply command_ok; [done|done|done|by apply close_pace|right; apply close_quiet].
  - eapply command_ok; [done|done|done|by apply drain_pace|right; by apply drain_quiet].
  - pose proof (step_sys_ok nav ok src cf mx changes fuel Hcf Hfuel Hcovers s (EPump now) Hs) as Hs'.
    pose proof (pump_begin_stretch cf now (sy_play s) Hp) as Hstr.
    cbn [run_event] in *. destruct (pump_begin cf now (sy_play s)) as [p' w] eqn:Hpb. cbn [fst] in Hstr.
    split; cbn [fst snd sy_play sy_work]; [done| |by apply record_stretch]. rewrite record_clock.
    eapply pump_begin_pace; [done|exact Hp|exact Hc| |done|exact Hpb]. intros Hb.
    destruct (sy_work s); [destruct Hw; congruence|done].
  - pose proof (step_sys_ok nav ok src cf mx changes fuel Hcf Hfuel Hcovers s (EFinish now) Hs) as Hs'.
    cbn [run_event] in *. destruct (sy_work s) as [w|] eqn:Hsw.
    + destruct (perform nav fuel (sy_nav s) w) as [n' found] eqn:Hpf.
      destruct (finish_ok s h now w n' found Hx Hc Hsw Hpf) as [H1 H2]. split; cbn [fst snd sy_play sy_work]; [done|by rewrite record_clock|done].
    + split; [done| |by apply record_quiet]. cbn [fst snd]. rewrite record_clock, Hsw.
      by eapply on_pace_same; [|exact Hc|exact Hpace].
Qed.

Lemma history_start_ok n clock : ok n → history_ok (history_start n clock).
Proof using All.
  intros Hn. split; cbn [fst snd history_start].
  - split; [by apply initial_ok|done|done].
  - by apply on_pace_paused.
  - apply shows_new.
Qed.

Lemma reachable_history_ok n clock tr x :
  ok n → reachable history_step (history_start n clock) tr x → history_ok x.
Proof using All.
  intros Hn. apply (reachable_inv history_step history_ok); [by apply history_start_ok|apply history_step_ok].
Qed.
End delivery.

(** ** Theorems *)

(** C5. Exact delivery: with a clock that does not go back, and whatever
    commands, drains and pumps come but for the two of [steady_configure], the
    Messages playback enqueued since the last committed seek or change of the
    subscription are those of the subscription between that position and the
    committed cursor, each once and in publication order; one larger than the
    limits is named instead. *)
Theorem delivery_exact {N} (nav : navigator N) ok src cf mx changes fuel
    `{Hlaws : !navigator_laws nav ok src (cf_channels cf) mx changes} n clock tr s h :
  config_ok cf → (∀ m, m ∈ src → time_ok cf (sm_time m)) → (length src < fuel)%nat → ok n →
  reachable (history_step nav cf fuel) (history_start cf n clock) tr (s, h) →
  match hs_base h, ps_after (sy_play s) with
  | Some b, Some a =>
      ¬ key_lt a b
      ∧ Forall2 stands_for (hs_crossed h)
          (filter (λ m, sm_channel m ∈ ps_subscription (sy_play s) ∧ key_lt b (msg_key m) ∧ ¬ key_lt a (msg_key m)) src)
      ∧ ps_cursor (sy_play s) = Some a.1
  | None, None => hs_crossed h = []
  | _, _ => False
  end.
Proof.
  intros Hcf Hcov Hfuel Hn Htr.
  destruct (reachable_history_ok nav ok src cf mx changes fuel Hcf Hfuel Hcov n clock tr (s, h) Hn Htr) as [[Hp _ _] _ Hs].
  cbn [fst snd] in *. pose proof (po_cursor _ _ Hp) as Hc. unfold shows_history in Hs.
  destruct (hs_base h), (ps_after (sy_play s)); try done. by destruct Hs.
Qed.

Definition demo_history (es : list event) : system (N := cache * list (identity * identity)) * history :=
  foldl (λ x e, play_on demo_navigator demo_config 5 e x) (history_start demo_config demo_cache 0) es.

Ltac steady_run := cbn [run_steady app];
  repeat (split; [first [vm_compute; exact I|split; [left; reflexivity|intros _; right; vm_compute; reflexivity]]
                 |split; [vm_compute; congruence|]]);
  exact I.

(** From the start of the range at 5 to 10: the Message of "b" at 5 and that of
    "a" at 9. *)
Lemma delivery_exact_witness :
  let x := demo_history (demo_playing ++ [EPump 5; EFinish 5]) in
  ps_after (sy_play x.1) = Some (10, AFTER_INSTANT)
  ∧ hs_crossed x.2 = IMsg <$> [mk_source_message 1 "b" 5 [x11]; mk_source_message 0 "a" 9 [x10]]
  ∧ Forall2 stands_for (hs_crossed x.2) (delivered demo_messages ["a"; "b"]%string (5, -1) (10, AFTER_INSTANT)).
Proof.
  cbn zeta. split; [vm_compute; reflexivity|]. split; [vm_compute; reflexivity|].
  assert (reachable (history_step demo_navigator demo_config 5) (history_start demo_config demo_cache 0)
            (demo_playing ++ [EPump 5; EFinish 5]) (demo_history (demo_playing ++ [EPump 5; EFinish 5]))) as Hr.
  { apply run_steady_reachable. unfold demo_playing. steady_run. }
  destruct (demo_history (demo_playing ++ [EPump 5; EFinish 5])) as [s h] eqn:E.
  assert (hs_base h = Some (5, -1) ∧ ps_after (sy_play s) = Some (10, AFTER_INSTANT)
          ∧ ps_subscription (sy_play s) = ["a"; "b"]%string) as (Eb & Ea & Es).
  { apply (f_equal (λ x, (hs_base x.2, ps_after (sy_play x.1), ps_subscription (sy_play x.1)))) in E.
    cbn [fst snd] in E. vm_compute in E. injection E. intros. done. }
  pose proof (delivery_exact demo_navigator demo_ok demo_messages demo_config 100 False 5 (Hlaws := demo_laws)
                _ 0 _ s h demo_config_ok demo_covers ltac:(cbn; lia) demo_start_ok Hr) as H.
  rewrite Eb, Ea, Es in H. apply H.
Defined.

(** ** What [steady_configure] excludes *)

(** A pause and a resume while a page is read: the page counts, and the
    playhead restarts at the old cursor, before the committed one. *)
Definition demo_resumed : list event :=
  [ESubscribe ["a"%string] 0; EPump 0; EFinish 0; EConfigure (JStr "play") JNull (JBool true) JNull 0; EDrain None;
   EPump 5; EConfigure (JStr "pause") JNull (JBool false) JNull 5;
   EConfigure (JStr "resume") JNull (JBool true) JNull 5; EFinish 5].

(** A rate change while a new Channel is reconstructed, and the Channel is
    unsubscribed again: half the rate counts for the whole time played. *)
Definition demo_slowed : list event :=
  [ESubscribe ["a"%string] 0; EPump 0; EFinish 0; EConfigure (JStr "play") JNull (JBool true) JNull 0; EDrain None;
   EPump 5; EFinish 5; ESubscribe ["a"; "b"]%string 5;
   EConfigure (JStr "slow") JNull JNull (JFloat 4602678819172646912) 5; ESubscribe ["a"%string] 5].

(** The cursor goes back after a resume during a read, and after a rate
    change during a reconstruction that is then not needed: the Message of "a"
    at 9, which was delivered, is delivered again. *)
Example rewinds :
  let crossed_a := [IMsg (mk_source_message 0 "a" 9 [x10])] in
  ps_cursor (sy_play (demo_run demo_resumed)) = Some 10
  ∧ crossings (ps_queue (sy_play (demo_run demo_resumed))) = crossed_a
  ∧ ps_cursor (sy_play (demo_run (demo_resumed ++ [EDrain None; EPump 6; EFinish 6]))) = Some 6
  ∧ crossings (ps_queue (sy_play (demo_run (demo_resumed ++ [EDrain None; EPump 6; EFinish 6; EPump 9; EFinish 9]))))
    = crossed_a
  ∧ ps_cursor (sy_play (demo_run demo_slowed)) = Some 10
  ∧ crossings (ps_queue (sy_play (demo_run demo_slowed))) = crossed_a
  ∧ ps_cursor (sy_play (demo_run (demo_slowed ++ [EDrain None; EPump 5; EFinish 5]))) = Some 7
  ∧ crossings (ps_queue (sy_play (demo_run (demo_slowed ++ [EDrain None; EPump 5; EFinish 5; EPump 9; EFinish 9]))))
    = crossed_a.
Proof. vm_compute. split_and!; reflexivity. Qed.
