(* ===== verification/PlaybackLiveness.v ===== *)
(** * Playback comes to the end

    A playing controller whose queue is drained and that is pumped as time goes
    on comes to the end of the Recording, whatever events came before; after a
    [run_steady] history it has then delivered every Message of its subscription
    ([playback_finishes]). The steps of the proof are the
    phases a controller goes through: a read in progress, a pending
    reconstruction, a staged one, a stall, and the playhead. *)

From Stdlib Require Import ZArith Lia.
From S2P Require Import Prelude PyFloat Json SchemaTypes Schema Pointer Recording.
From S2P Require Import Interchange VizSource Navigation NavigationProofs.
From S2P Require Import Playback PlaybackReads PlaybackProofs PlaybackDelivery.

Lemma filter_shorter {A} (P Q : A → Prop) `{!∀ x, Decision (P x)} `{!∀ x, Decision (Q x)} (l : list A) :
  (∀ x, Q x → P x) →
  (length (filter Q l) ≤ length (filter P l))%nat
  ∧ (∀ x, x ∈ l → P x → ¬ Q x → (length (filter Q l) < length (filter P l))%nat).
Proof.
  intros Himp. induction l as [|y l [IH1 IH2]]; [split; [done|by intros ? ?%not_elem_of_nil]|].
  rewrite !filter_cons. pose proof (Himp y). split.
  - destruct (decide (P y)), (decide (Q y)); cbn [length]; try tauto; lia.
  - intros x [->|Hx]%elem_of_cons HP HQ.
    + rewrite decide_False, decide_True by done. cbn [length]. lia.
    + specialize (IH2 x Hx HP HQ). destruct (decide (P y)), (decide (Q y)); cbn [length]; try tauto; lia.
Qed.

Section finishing.
Context (cf : config).

(** The time in which the slowest rate plays the whole range. *)
Definition slowest : Z := 10 * (default 0 (cf_end cf) - default 0 (cf_start cf)).

Lemma playhead_end now p :
  config_ok cf → play_ok cf p → is_Some (cf_start cf) → (ps_anchor p).1 + slowest ≤ now →
  Some (playhead cf now p) = cf_end cf.
Proof.
  intros Hcf Hp [a Ha] Hn. pose proof (po_anchor _ _ Hp) as Han. destruct (po_rate _ _ Hp) as (z & Hz & Hl).
  pose proof (co_range _ Hcf) as Hr. unfold slowest, playhead, anchor_ok, time_ok in *.
  destruct (ps_anchor p) as [t0 o]. cbn [fst snd] in *. rewrite Ha in *.
  destruct (cf_end cf) as [e|]; [|done]. cbn [default from_option id] in *. destruct o as [x|]; [|done].
  cbn [default from_option id]. f_equal. rewrite Z.min_l; [done|].
  assert (e - a ≤ scaled (Z.max 0 (now - t0)) (ps_rate p)); [|lia]. unfold scaled. rewrite Hz.
  assert (0 < 2 ^ 1074) by (apply Z.pow_pos_nonneg; lia). apply Z.div_le_lower_bound; [done|]. nia.
Qed.

(** Open and without a failure. *)
Definition open (p : playback) : Prop := ps_closed p = false ∧ ps_fault p = None.
Definition active (p : playback) : Prop := open p ∧ ps_playing p = true ∧ ps_ended p = false.
(** Playing, with nothing to reconstruct. *)
Definition ready (p : playback) : Prop := active p ∧ ps_staged p = None ∧ pending p = false.
(** At the end, with nothing left to do. *)
Definition at_end (p : playback) : Prop :=
  open p ∧ ps_ended p = true ∧ ps_playing p = false ∧ ps_staged p = None ∧ pending p = false
  ∧ ps_after p = (λ e, (e, AFTER_INSTANT)) <$> cf_end cf.

Lemma drain_all p : counted p → (drain None p).1 = with_queue [] p.
Proof.
  intros Hc. unfold drain. cbn [default from_option id fst]. rewrite Z.min_id. unfold zlen. rewrite Nat2Z.id.
  destruct (drain_drop None p Hc) as (k & Hk & _). unfold drain in Hk. cbn [default from_option id fst] in Hk.
  rewrite Z.min_id in Hk. unfold zlen in Hk. rewrite Nat2Z.id in Hk. rewrite Hk. f_equal.
  assert (ps_queue (with_queue (drop k (ps_queue p)) p) = []) as E; [|exact E]. rewrite <- Hk.
  rewrite drop_ge by lia.
  assert (∀ l acc, ps_queue acc = [] → ps_queue (foldl (λ p n, account n (-1) p) acc l) = []) as Hf.
  { induction l as [|n l IH]; [done|]. intros acc E. cbn [foldl]. apply IH. rewrite account_form. exact E. }
  by apply Hf.
Qed.

(** A pump with nothing to do. *)
Lemma pump_at_end now p : at_end p → pump_begin cf now p = (p, None) ∨ pump_begin cf now p = (set_more false p, None).
Proof.
  intros ([Hcl Hf] & He & Hpl & Hst & Hpe & _). unfold pump_begin. rewrite Hcl, Hf, Hst.
  destruct (ps_busy p); [by left|]. cbn [orb]. rewrite bool_decide_false by (by intros [? ?]).
  unfold take_job. rewrite Hpe. unfold take_read. pgoal. rewrite Hpl. cbn [negb orb]. by right.
Qed.

(** A pump of a ready controller with an empty queue takes a read. *)
Lemma pump_ready now p :
  config_ok cf → play_ok cf p → ready p → ps_busy p = false → ps_queue p = [] →
  ∃ r, pump_begin cf now p = (set_busy true (set_more false p), Some (WRead r))
    ∧ rd_target r = match ps_stall_target p with Some t => t | None => playhead cf now p end
    ∧ rd_queue_empty r = true ∧ rd_generation r = ps_generation p.
Proof.
  intros Hcf Hp (([Hcl Hf] & Hpl & He) & Hst & Hpe) Hb Hq. unfold pump_begin. rewrite Hcl, Hb, Hf, Hst. cbn [orb].
  rewrite bool_decide_false by (by intros [? ?]). unfold take_job. rewrite Hpe. unfold take_read. pgoal.
  rewrite Hpl. cbn [negb orb]. unfold pending in *. pgoal. rewrite Hpe, He. cbn [orb].
  destruct (po_counted _ _ Hp) as [Hm Hby]. rewrite Hq in Hm, Hby. cbn in Hm, Hby. rewrite Hm, Hby.
  destruct (co_limits _ Hcf). rewrite !(proj2 (Z.leb_gt _ _)) by lia. cbn [orb].
  rewrite andb_false_r. by eexists.
Qed.

Lemma stale_ready r p : ready p → rd_generation r = ps_generation p → stale r (set_busy true (set_more false p)) = false.
Proof.
  intros (([Hcl Hf] & Hpl & He) & Hst & Hpe) Hg. apply stale_false. pgoal. done.
Qed.

Lemma reached_at_end target now items p q :
  ready p → Some target = cf_end cf → at_end (with_queue q (reached cf target now (moved items p))).
Proof.
  intros (([Hcl Hf] & Hpl & He) & Hst & Hpe) Hend. unfold reached. rewrite bool_decide_true by done.
  unfold at_end, open, pending in *. rewrite <- Hend. unfold moved. by destruct (last items).
Qed.

Lemma reached_ready target now items p q :
  ready p → Some target ≠ cf_end cf →
  let p' := with_queue q (reached cf target now (moved items p)) in ready p' ∧ ps_stall_target p' = None.
Proof.
  intros Hr Hend. cbn zeta. unfold reached. rewrite bool_decide_false by done. unfold moved.
  destruct (last items); (destruct (stalled _) eqn:Hs; [done|]); (split; [done|]);
    unfold stalled in Hs; pcbn; apply bool_decide_eq_false in Hs; by apply eq_None_not_Some.
Qed.
End finishing.

(** ** Staged items and a read in progress *)

Section staging.
Context (cf : config).

Lemma start_seek_staged a request p : ps_staged (start_seek a request p) = None.
Proof. unfold start_seek. by rewrite drop_all. Qed.

Lemma configure_staged request_id position_ns playing rate now p :
  ps_staged p = None → ps_staged (configure cf request_id position_ns playing rate now p).1 = None.
Proof.
  intros Hp. unfold configure. destruct (_ ← check_open cf p; _) as [request|e]; [|done].
  destruct (dget _ _) as [[]|]; [done|].
  destruct (t ← check_position cf position_ns p; _) as [[[t pl] r]|e]; [|done]. cbn [fst].
  assert (ps_staged (apply_rate cf r now p) = None) as E1.
  { unfold apply_rate. destruct r as [[]|]; [|done]. destruct (num_eq _ _); [done|]. by destruct (running p). }
  set (p1 := apply_rate cf r now p) in *. clearbody p1.
  assert (ps_staged (apply_position cf t pl request p1) = None) as E2.
  { unfold apply_position. destruct t; [apply start_seek_staged|]. destruct pl as [[]|]; try done.
    destruct (cf_start cf); [|done]. destruct (ps_ended p1); [apply start_seek_staged|done]. }
  set (p2 := apply_position cf t pl request p1) in *. clearbody p2. destruct pl as [b|]; pgoal; [|done].
  unfold apply_playing. destruct (negb b); [done|]. destruct (bool_decide _); [done|]. by destruct (ps_playing p2).
Qed.

Lemma subscription_staged names now p :
  ps_staged p = None → ps_staged (set_subscription_command cf names now p).1 = None.
Proof.
  intros Hp. unfold set_subscription_command. destruct (check_open cf p); [|done]. destruct (negb _); [done|].
  set (wanted := filter _ (cf_channels cf)). destruct (bool_decide _); [done|]. cbn [fst]. unfold subscribe.
  destruct (discard_staged_form p) as (u & -> & _). rewrite drop_queued_filter.
  set (p4 := set_subscription wanted _). set (p5 := if stalled p4 then _ else _).
  assert (ps_staged p5 = None) as E by (unfold p5; by destruct (stalled p4)).
  destruct (_ && _); [apply start_seek_staged|exact E].
Qed.

Lemma close_staged p : counted p → ps_staged p = None → ps_staged (close cf p) = None.
Proof.
  intros Hc Hp. unfold close. destruct (ps_closed p); [done|]. rewrite drop_all. rewrite enqueue_push by done.
  by destruct (ps_busy _).
Qed.

(** Items are staged only while no read is in progress. *)
Lemma step_staged {N} (nav : navigator N) (ok : N → Prop) fuel e (s : system) :
  sys_ok ok cf s → sy_work s = None ∨ ps_staged (sy_play s) = None →
  let s' := run_event nav cf fuel e s in sy_work s' = None ∨ ps_staged (sy_play s') = None.
Proof.
  intros [Hp Hn Hw] Hs. pose proof (po_counted _ _ Hp) as Hc. cbn zeta.
  destruct e as [rid pos pl rate now|names now| | |k|now|now]; cbn [run_event with_play sy_work sy_play].
  - destruct Hs; [by left|right; by apply configure_staged].
  - destruct Hs; [by left|right; by apply subscription_staged].
  - destruct Hs; [by left|right]. unfold disconnect. destruct (ps_closed _); [done|]. cbn [fst]. by rewrite drop_all.
  - destruct Hs; [by left|right; by apply close_staged].
  - destruct Hs; [by left|right]. by destruct (drain_drop k _ Hc) as (? & -> & _).
  - unfold pump_begin. destruct (_ || bool_decide _) eqn:Hb; [done|].
    apply orb_false_iff in Hb as [[_ Hb]%orb_false_iff _].
    assert (sy_work s = None) as Hnone by (destruct (sy_work s); [destruct Hw; congruence|done]). rewrite Hnone.
    destruct (ps_staged (sy_play s)) eqn:Hg; [by left|]. destruct (take_job _); [by right|].
    destruct (take_read cf now (sy_play s)) as [p1 [r|]] eqn:Hr; [|by left]. right. cbn [sy_play].
    unfold take_read in Hr. destruct (_ || ps_ended _); [done|]. destruct (_ || _); [done|].
    destruct (_ && _); [done|]. injection Hr as <- <-. exact Hg.
  - destruct (sy_work s) as [w|] eqn:E; [|left; exact E]. destruct (perform nav fuel (sy_nav s) w). by left.
Qed.
End staging.

Section rounds.
Context {N} (nav : navigator N) (ok : N → Prop) (src : list source_message).
Context (cf : config) (mx : Z) (fuel : nat).
Context {Hlaws : navigator_laws nav ok src (cf_channels cf) mx False}.
Context (Hcf : config_ok cf) (Hfuel : (length src < fuel)%nat).
Context (Hcovers : ∀ m, m ∈ src → time_ok cf (sm_time m)).

Abbreviation system := (system (N := N)).
Abbreviation sound x := (sys_ok ok cf (fst (x : system * history))).
Abbreviation play_on := (PlaybackDelivery.play_on nav cf fuel).

(** A drain of the queue, a pump and the end of its read, at two times. *)
Definition round (x : system * history) (t : Z * Z) : system * history :=
  play_on (EFinish t.2) (play_on (EPump t.1) (play_on (EDrain None) x)).

(** Rounds with time between them for the slowest rate. *)
Fixpoint spaced (c : Z) (ts : list (Z * Z)) : Prop :=
  match ts with
  | [] => True
  | t :: ts => c + slowest cf ≤ t.1 ≤ t.2 ∧ spaced t.2 ts
  end.

Definition ended_well (x : system * history) : Prop := at_end cf (sy_play x.1) ∧ sy_work x.1 = None.

Definition finishes (k : nat) (c : Z) (x : system * history) : Prop :=
  ∀ ts, (k ≤ length ts)%nat → spaced c ts → sound (foldl round x ts) ∧ ended_well (foldl round x ts).

(** The times a state has seen. *)
Definition timely (c : Z) (x : system * history) : Prop :=
  sound x ∧ hs_clock x.2 ≤ c ∧ (ps_anchor (sy_play x.1)).1 ≤ c.

Lemma slowest_nonneg : 0 ≤ slowest cf.
Proof using All.
  unfold slowest. pose proof (co_range _ Hcf) as Hr. destruct (cf_start cf), (cf_end cf); try done. cbn. lia.
Qed.

Lemma play_on_ok e x :
  sound x → sound (play_on e x) ∧ hs_clock (play_on e x).2 = default (hs_clock x.2) (event_now e).
Proof using All.
  intros Hx. split; [|apply record_clock].
  exact (step_sys_ok nav ok src cf mx False fuel Hcf Hfuel Hcovers _ e Hx).
Qed.

(** No read is in progress while a reconstruction is staged, whatever was played. *)
Lemma played_ok es x :
  sound x → sy_work x.1 = None ∨ ps_staged (sy_play x.1) = None →
  let x' := foldl (λ x e, play_on e x) x es in
  sound x' ∧ (sy_work x'.1 = None ∨ ps_staged (sy_play x'.1) = None).
Proof using All.
  revert x. induction es as [|e es IH]; intros x Hx Hi; [done|]. cbn [foldl]. apply IH.
  - by apply play_on_ok.
  - by eapply step_staged.
Qed.

Lemma round_ok x t :
  sound x → sound (round x t) ∧ hs_clock (round x t).2 = t.2.
Proof using All.
  intros Hx. destruct (play_on_ok (EDrain None) x Hx) as [Hx1 _].
  destruct (play_on_ok (EPump t.1) _ Hx1) as [Hx2 _]. apply (play_on_ok (EFinish t.2) _ Hx2).
Qed.

(** The rounds of a steady history are steady. *)
Lemma rounds_history c x ts :
  history_ok ok src cf x → hs_clock x.2 ≤ c → spaced c ts → history_ok ok src cf (foldl round x ts).
Proof using All.
  intros Hx Hc. pose proof slowest_nonneg as Hsl. revert c x Hx Hc.
  assert (∀ e x, history_ok ok src cf x → steady x.1 e → hs_clock x.2 ≤ default (hs_clock x.2) (event_now e) →
    history_ok ok src cf (play_on e x)) as Hstep.
  { intros e x Hx Hs Hc. by eapply (history_step_ok nav ok src cf mx False fuel Hcf Hfuel Hcovers); [exact Hx|]. }
  induction ts as [|t ts IH]; intros c x Hx Hc Hsp; [done|]. destruct Hsp as [Ht Hsp]. cbn [foldl].
  assert (∀ e x, hs_clock (play_on e x).2 = default (hs_clock x.2) (event_now e)) as Hclk
    by (intros; apply record_clock).
  apply (IH t.2); [|unfold round; by rewrite Hclk|done]. unfold round.
  apply Hstep; [|done|rewrite !Hclk; exact (proj2 Ht)].
  apply Hstep; [|done|rewrite !Hclk; cbn [event_now default from_option id]; clear -Ht Hsl Hc; lia].
  by apply Hstep.
Qed.

Lemma finishes_round k c x :
  (∀ t, c + slowest cf ≤ t.1 ≤ t.2 → finishes k t.2 (round x t)) → finishes (S k) c x.
Proof using Type.
  intros H [|t ts] Hk Hsp; [cbn in Hk; exfalso; clear -Hk; lia|]. destruct Hsp as [Ht Hsp].
  apply (H t Ht); [|done]. cbn in Hk. clear -Hk. lia.
Qed.

Lemma finishes_more k k' c x : finishes k c x → (k ≤ k')%nat → finishes k' c x.
Proof using Type. intros H Hk ts Hl. apply H. clear -Hk Hl. lia. Qed.

(** The system after the drain and the pump of a round. *)
Definition pumped (t : Z) (s : system) : system :=
  run_event nav cf fuel (EPump t) (with_play (with_queue [] (sy_play s)) s).

Lemma round_pumped x t :
  sound x → (round x t).1 = run_event nav cf fuel (EFinish t.2) (pumped t.1 x.1).
Proof using Type.
  intros [Hp _ _]. unfold round, play_on, pumped. cbn [fst run_event].
  by rewrite (drain_all _ (po_counted _ _ Hp)).
Qed.

Lemma pumped_ok x t : sound x → sys_ok ok cf (pumped t x.1).
Proof using All.
  intros Hx. destruct (play_on_ok (EDrain None) x Hx) as [Hx1 _].
  destruct (play_on_ok (EPump t) _ Hx1) as [Hx2 _]. destruct Hx as [Hp _ _]. revert Hx2.
  unfold play_on, pumped. cbn [fst run_event]. by rewrite (drain_all _ (po_counted _ _ Hp)).
Qed.

(** What the read of a source that does not change gives. *)
Lemma perform_ok s w n' found :
  sys_ok ok cf s → sy_work s = Some w → perform nav fuel (sy_nav s) w = (n', found) →
  work_ok cf (sy_play s) w ∧ found_ok cf w found ∧ ∃ items complete, found = Ok (items, complete).
Proof using All.
  intros [Hp Hn Hw] Hsw Hpf. rewrite Hsw in Hw. destruct Hw as [_ Hw].
  destruct (perform_found nav ok src cf mx False fuel Hcf Hfuel Hcovers _ _ _ _ _ Hn Hw Hpf) as [_ Hf].
  split_and!; [done|done|]. destruct w as [j|r].
  - destruct Hw as (_ & Hch & Ha & _). cbn [perform] in Hpf. destruct (jb_after j) as [a|] eqn:Hj.
    + apply in_bounds_Some in Ha as [Hat _]. apply (time_ok_limit nav ok src cf mx False fuel Hcf Hfuel Hcovers) in Hat.
      pose proof (reconstruct_spec nav ok src (cf_channels cf) mx False fuel _ j a Hn Hj Hch Hat Hfuel) as Hr.
      rewrite Hpf in Hr. destruct Hr as [_ [([items b] & -> & _)|([] & _)]]; eauto.
    + unfold reconstruct in Hpf. rewrite Hj in Hpf. injection Hpf as <- <-. eauto.
  - destruct (read_found nav ok src cf mx False fuel Hcf Hfuel Hcovers _ _ _ _ _ Hn Hw Hpf) as [_ Hr].
    case_decide; [|subst found; eauto]. destruct Hr as [([items b] & -> & _)|([] & _)]; eauto.
Qed.

(** A round of a controller at the end changes nothing it promises. *)
Lemma at_end_round x t : sound x → ended_well x → ended_well (round x t).
Proof using Type.
  intros Hx [He Hw]. unfold ended_well. rewrite round_pumped by done. unfold pumped. cbn [run_event with_play sy_play].
  assert (at_end cf (with_queue [] (sy_play x.1))) as He1 by done.
  destruct (pump_at_end cf t.1 _ He1) as [-> | ->]; cbn [sy_work with_play]; rewrite Hw; cbn [sy_play sy_work]; done.
Qed.

Lemma at_end_finishes c x : sound x → hs_clock x.2 ≤ c → ended_well x → finishes 0 c x.
Proof using All.
  intros Hx Hc He ts _. pose proof slowest_nonneg as Hs. revert c x Hx Hc He.
  induction ts as [|t ts IH]; intros c x Hx Hc He Hsp; [done|]. destruct Hsp as [Ht Hsp]. cbn [foldl].
  destruct (round_ok x t Hx) as [Hx' Ec].
  apply (IH t.2); [done|by rewrite Ec|by apply at_end_round|done].
Qed.

(** ** The playhead *)

(** The Messages of the subscription that are still to come. *)
Definition remaining (p : playback) : nat :=
  length (filter (λ m, sm_channel m ∈ ps_subscription p
                       ∧ key_lt (default (0, 0) (ps_after p)) (msg_key m)) src).

Lemma advanced_requeue q r items complete now p :
  advanced cf r items complete now (with_queue q p) = with_queue q (advanced cf r items complete now p).
Proof using Type. unfold advanced. rewrite moved_requeue. destruct complete; [apply reached_requeue|done]. Qed.

(** The read of a round. *)
Lemma round_read x t :
  sound x → sy_work x.1 = None → ready (sy_play x.1) →
  ∃ r items complete q a,
    sy_play (round x t).1
      = with_queue q (advanced cf r items complete t.2 (set_busy false (set_more false (sy_play x.1))))
    ∧ sy_work (round x t).1 = None
    ∧ rd_target r = match ps_stall_target (sy_play x.1) with
                    | Some u => u
                    | None => playhead cf t.1 (sy_play x.1)
                    end
    ∧ ps_after (sy_play x.1) = Some a
    ∧ (complete = false →
       page_shows mx (rd_limits r) (crossing src (ps_subscription (sy_play x.1)) a (rd_target r)) (items, false)).
Proof using All.
  intros Hx Hw Hr. rewrite round_pumped by done. pose proof (pumped_ok x t.1 Hx) as Hok.
  pose proof Hx as [Hp Hn Hb]. rewrite Hw in Hb.
  assert (play_ok cf (with_queue [] (sy_play x.1))) as Hp1 by (apply with_sublist_ok; [done|apply sublist_nil_l]).
  destruct (pump_ready cf t.1 (with_queue [] (sy_play x.1)) Hcf Hp1 Hr Hb eq_refl) as (r & Hpump & Htgt & Hemp & Hg).
  unfold pumped in *. cbn [run_event with_play sy_play] in *. rewrite Hpump in *.
  set (s2 := mk_system _ _ _) in *. rename Hok into Hs2.
  cbn [sy_work s2]. destruct (perform nav fuel (sy_nav s2) (WRead r)) as [n' found] eqn:Hpf.
  destruct (perform_ok s2 (WRead r) n' found Hs2 eq_refl Hpf) as (Hwok & Hf & items & complete & ->).
  pose proof (stale_ready r (with_queue [] (sy_play x.1)) Hr Hg) as Hst.
  destruct (read_found nav ok src cf mx False fuel Hcf Hfuel Hcovers _ _ _ _ _ (so_nav _ _ _ Hs2) Hwok Hpf) as [_ Hrd].
  assert (complete = false → page_shows mx (rd_limits r)
    (crossing src (rd_channels r) (rd_after r) (rd_target r)) (items, false)) as Hshow.
  { intros ->. case_decide; [|done]. by destruct Hrd as [(y & [= <-] & Hshow)|([] & _)]. }
  destruct Hwok as (_ & _ & _ & _ & _ & _ & Hcur). destruct (Hcur Hg) as (Hch & Ha & _). rewrite Hch in Hshow.
  destruct Hr as (([Hcl Hft] & Hpl & He) & Hsg & Hpe).
  cbn [pump_end]. replace (ps_closed _) with false by (symmetry; exact Hcl).
  destruct (advance_form cf r items complete t.2 (set_busy false (sy_play s2))) as [(_ & E & _)|(q & _ & ->)];
    [done|exact Hf|exact Hst|congruence|].
  exists r, items, complete, q, (rd_after r). split_and!; try done.
  change (set_busy false (sy_play s2)) with (with_queue [] (set_busy false (set_more false (sy_play x.1)))).
  cbn [sy_play]. by rewrite advanced_requeue.
Qed.

(** A page that is not the last one. *)
Lemma page_remaining r sub a items (p p' : playback) :
  page_shows mx (rd_limits r) (crossing src sub a (rd_target r)) (items, false) →
  ps_subscription p = sub → ps_after p = Some a → ps_subscription p' = sub →
  ps_after p' = match last items with Some i => Some (item_key i) | None => ps_after p end →
  (remaining p' < remaining p)%nat.
Proof using All.
  intros (taken & rest & Hsplit & Hst & _ & Hne & Hcomp & _) Hs Ha Hs' Ha'. cbn [fst snd] in *.
  assert (crossing src sub a (rd_target r) ≠ []) as Hms by (intros E; by specialize (Hcomp E)).
  specialize (Hne Hms). destruct (last items) as [i|] eqn:Hl; [|by apply last_None in Hl].
  pose proof (Forall2_last _ _ _ Hst) as Hlast. rewrite Hl in Hlast. destruct (last taken) as [m|] eqn:Hlt; [|done].
  rewrite (stands_for_key _ _ Hlast) in Ha'.
  assert (m ∈ crossing src sub a (rd_target r)) as ((Hmc & Hk & _) & Hm)%list_elem_of_filter.
  { rewrite Hsplit. apply last_Some in Hlt as [? ->]. set_solver. }
  unfold remaining. rewrite Hs, Hs', Ha, Ha'. cbn [default from_option id].
  refine (proj2 (filter_shorter _ _ src _) m Hm _ _).
  - intros y [? ?]. split; [done|]. by eapply key_lt_trans.
  - done.
  - intros [_ H]. by eapply key_lt_irrefl.
Qed.

(** A round of a ready controller. *)
Lemma round_ready c x t :
  timely c x → sy_work x.1 = None → ready (sy_play x.1) → c + slowest cf ≤ t.1 ≤ t.2 →
  let x' := round x t in
  timely t.2 x' ∧ sy_work x'.1 = None
  ∧ (at_end cf (sy_play x'.1)
     ∨ ready (sy_play x'.1) ∧ ps_stall_target (sy_play x'.1) = ps_stall_target (sy_play x.1)
       ∧ (remaining (sy_play x'.1) < remaining (sy_play x.1))%nat
     ∨ ready (sy_play x'.1) ∧ is_Some (ps_stall_target (sy_play x.1)) ∧ ps_stall_target (sy_play x'.1) = None).
Proof using All.
  intros (Hx & Hcl & Hanc) Hw Hr Ht. pose proof slowest_nonneg as Hsl. cbn zeta.
  destruct (round_ok x t Hx) as [Hx' Hclk].
  destruct (round_read x t Hx Hw Hr) as (r & items & complete & q & a & Hplay & Hwork & Htgt & Ha & Hshow).
  pose proof Hx as [Hp _ _]. unfold timely. rewrite Hplay, Hclk.
  set (p0 := set_busy false (set_more false (sy_play x.1))) in *.
  assert (ready p0) as Hr0 by exact Hr.
  assert ((ps_anchor (advanced cf r items complete t.2 p0)).1 ≤ t.2) as Hanc'.
  { assert ((ps_anchor p0).1 ≤ t.2) by (change (ps_anchor p0) with (ps_anchor (sy_play x.1)); lia).
    unfold advanced, reached, moved. destruct complete, (last items); try done;
      (destruct (bool_decide _); [done|]; by destruct (stalled _)). }
  split; [by split_and!|]. split; [done|]. destruct complete.
  - destruct (decide (Some (rd_target r) = cf_end cf)) as [He|He].
    + left. by apply reached_at_end.
    + right. right. destruct (reached_ready cf (rd_target r) t.2 items p0 q Hr0 He) as [Hr1 Hst].
      split_and!; [done| |done]. rewrite Htgt in He. destruct (ps_stall_target (sy_play x.1)); [done|].
      exfalso. apply He. apply playhead_end; [done|done| |lia]. apply (po_playing _ _ Hp). by destruct Hr as [(_ & ? & _) _].
  - right. left. assert (∀ p, ready p → ready (with_queue q (set_more true (moved items p)))) as Hm.
    { intros p. unfold moved. by destruct (last items). }
    split_and!; [by apply Hm|unfold advanced, moved; by destruct (last items)|].
    eapply page_remaining; [by apply Hshow|done|done|unfold advanced, moved; by destruct (last items)|].
    unfold advanced, moved. by destruct (last items).
Qed.

Lemma ready_finishes k c x :
  timely c x → sy_work x.1 = None → ready (sy_play x.1) → ps_stall_target (sy_play x.1) = None →
  (remaining (sy_play x.1) < k)%nat → finishes k c x.
Proof using All.
  revert c x. induction k as [|k IH]; intros c x Hx Hw Hr Hst Hk; [lia|]. apply finishes_round. intros t Ht.
  destruct (round_ready c x t Hx Hw Hr Ht) as ((Hx' & Hc' & Ha') & Hw' & [He|[(Hr' & Hst' & Hm)|(_ & [? ?] & _)]]);
    [| |congruence].
  - eapply finishes_more; [by apply at_end_finishes|lia].
  - apply IH; [done|done|done|congruence|lia].
Qed.

Lemma remaining_most p : (remaining p ≤ length src)%nat.
Proof using Type. apply length_filter. Qed.

(** What a ready controller needs: the Messages up to the target of a stall, and
    then those up to the end. *)
Definition ready_rounds : nat := 2 * length src + 2.

Lemma stalled_finishes k c x :
  timely c x → sy_work x.1 = None → ready (sy_play x.1) →
  (remaining (sy_play x.1) < k)%nat → finishes (k + S (length src)) c x.
Proof using All.
  revert c x. induction k as [|k IH]; intros c x Hx Hw Hr Hk; [lia|]. cbn [Nat.add]. apply finishes_round. intros t Ht.
  destruct (round_ready c x t Hx Hw Hr Ht) as (Hx' & Hw' & [He|[(Hr' & Hst' & Hm)|(Hr' & _ & Hst')]]).
  - destruct Hx' as (? & ? & ?). eapply finishes_more; [by apply at_end_finishes|lia].
  - apply IH; [done|done|done|lia].
  - eapply finishes_more; [by apply ready_finishes; [..|apply Nat.lt_succ_r, remaining_most]|lia].
Qed.

Lemma any_ready_finishes c x :
  timely c x → sy_work x.1 = None → ready (sy_play x.1) → finishes ready_rounds c x.
Proof using All.
  intros Hx Hw Hr. pose proof (remaining_most (sy_play x.1)). eapply finishes_more.
  - apply (stalled_finishes (S (length src))); [done|done|done|lia].
  - unfold ready_rounds. lia.
Qed.

(** ** Reconstruction *)

(** Ready, or waiting with at most [k] staged items. *)
Definition waits (k : nat) (p : playback) : Prop :=
  ready p ∨ active p ∧ ∃ g, ps_staged p = Some g ∧ (0 < length (sg_items g) ≤ k)%nat.

Lemma committed_ready j now q p :
  active p → job_now j p → ready (with_queue q (committed j now p)).
Proof using Type.
  intros ([Hcl Hf] & Hpl & He) (_ & Hr & _). unfold ready, active, open, pending, with_queue, committed. pgoal.
  destruct (jb_reset j); pgoal; rewrite Hpl; pgoal; rewrite <- ?Hr; split_and!; try done.
Qed.

Lemma committed_anchor j now q p : ps_playing p = true → (ps_anchor (with_queue q (committed j now p))).1 = now.
Proof using Type.
  intros Hpl. unfold committed, with_queue. pgoal. by destruct (jb_reset j); pgoal; rewrite Hpl.
Qed.

(** What the commit of some items leaves. *)
Lemma filled_waits j k now p p' q :
  active p → job_now j p →
  (p' = with_queue q (committed j now p)
   ∨ ∃ g, (sg_job g = j ∧ (0 < length (sg_items g) ≤ k)%nat) ∧ p' = with_queue q (set_staged (Some g) p)) →
  waits k p' ∧ (ps_anchor p' = ps_anchor p ∨ (ps_anchor p').1 = now).
Proof using Type.
  intros Hac Hj [-> |(g & (_ & Hg) & ->)].
  - split; [left; by apply committed_ready|]. right. apply committed_anchor. by destruct Hac as (_ & ? & _).
  - split; [|by left]. right. split; [exact Hac|]. by exists g.
Qed.

(** With an empty queue, there is room for an item. *)
Lemma backfill_first i g p :
  play_ok cf p → ps_queue p = [] → is_Some (backfill cf i g p).
Proof using All.
  intros Hp Hq. destruct (po_counted _ _ Hp) as [Hm Hby]. rewrite Hq in Hm, Hby. cbn in Hm, Hby.
  unfold backfill. rewrite Hm, Hby. destruct (co_limits _ Hcf). rewrite (proj2 (Z.leb_gt _ _)) by lia.
  destruct i as [m|e]; [|done]. rewrite Z.add_0_l. by destruct (_ <? _).
Qed.

(** Every commit of staged items queues one at least. *)
Lemma fill_staged_progress g now p :
  play_ok cf p → ps_queue p = [] → active p → ps_staged p = Some g →
  let p' := fill_staged cf now p in
  waits (length (sg_items g) - 1) p' ∧ (ps_anchor p' = ps_anchor p ∨ (ps_anchor p').1 = now).
Proof using All.
  intros Hp Hq Hac Hg. cbn zeta. pose proof (po_staged _ _ Hp g Hg) as Hj. unfold fill_staged. rewrite Hg.
  destruct g as [j items queued]. cbn [sg_job sg_items sg_queued] in *. destruct items as [|i items]; cbn [length].
  - destruct (fill_items_form cf j [] queued now p (po_counted _ _ Hp)) as (q & _ & Hf). by eapply filled_waits.
  - cbn [fill_items]. destruct (backfill_first i (jb_generation j) p Hp Hq) as [n Hn]. rewrite Hn.
    destruct (requeued_enqueue n p (po_counted _ _ Hp) (backfill_crossing _ _ _ _ _ Hn)) as (q1 & -> & _).
    destruct (fill_items_form cf j items (match channel_of_notification n with Some c => {[c]} | None => ∅ end ∪ queued)
                now (with_queue q1 p)) as (q & _ & Hf); [done|].
    rewrite Nat.sub_succ, Nat.sub_0_r. exact (filled_waits j (length items) now (with_queue q1 p) _ q Hac Hj Hf).
Qed.

Lemma round_staged c x t g :
  timely c x → sy_work x.1 = None → active (sy_play x.1) → ps_staged (sy_play x.1) = Some g →
  c + slowest cf ≤ t.1 ≤ t.2 →
  timely t.2 (round x t) ∧ sy_work (round x t).1 = None ∧ waits (length (sg_items g) - 1) (sy_play (round x t).1).
Proof using All.
  intros (Hx & Hcl & Hanc) Hw Hac Hg Ht. pose proof slowest_nonneg as Hsl.
  destruct (round_ok x t Hx) as [Hx' Hclk]. unfold timely. rewrite Hclk.
  pose proof Hx as [Hp _ Hb]. rewrite Hw in Hb.
  assert (play_ok cf (with_queue [] (sy_play x.1))) as Hp1 by (apply with_sublist_ok; [done|apply sublist_nil_l]).
  destruct (fill_staged_progress g t.1 _ Hp1 eq_refl Hac Hg) as [Hwait Ha].
  assert ((round x t).1 = mk_system (fill_staged cf t.1 (with_queue [] (sy_play x.1))) None (sy_nav x.1)) as E.
  { rewrite round_pumped by done. unfold pumped. cbn [run_event with_play sy_play]. unfold pump_begin.
    destruct Hac as ([Hc Hf] & _). change (ps_closed (with_queue [] ?p)) with (ps_closed p).
    change (ps_busy (with_queue [] ?p)) with (ps_busy p). change (ps_fault (with_queue [] ?p)) with (ps_fault p).
    change (ps_staged (with_queue [] ?p)) with (ps_staged p). rewrite Hc, Hb, Hf, Hg. cbn [orb].
    rewrite bool_decide_false by (by intros [? ?]). cbn [sy_work with_play sy_nav]. by rewrite Hw. }
  rewrite E in Hx' |- *. cbn [sy_play sy_work]. split_and!; [done|done| |done|done].
  destruct Ha as [-> | ->]; [|lia]. change (ps_anchor (with_queue [] (sy_play x.1))) with (ps_anchor (sy_play x.1)). lia.
Qed.

Lemma waits_finishes k c x :
  timely c x → sy_work x.1 = None → waits k (sy_play x.1) → finishes (k + ready_rounds) c x.
Proof using All.
  revert c x. induction k as [|k IH]; intros c x Hx Hw [Hr|(Hac & g & Hg & Hk)].
  1, 3: eapply finishes_more; [by apply any_ready_finishes|lia].
  - lia.
  - cbn [Nat.add]. apply finishes_round. intros t Ht.
    destruct (round_staged c x t g Hx Hw Hac Hg Ht) as (Hx' & Hw' & [Hr|(Hac' & g' & Hg' & Hk')]).
    + eapply finishes_more; [by apply any_ready_finishes|lia].
    + apply IH; [done|done|]. right. split; [done|]. exists g'. split; [done|lia].
Qed.

(** The items of a reconstruction, one for each Channel at most. *)
Lemma job_length j n n' items complete k :
  ok n → in_bounds cf (jb_after j) → jb_channels j ⊆ cf_channels cf →
  perform nav fuel n (WJob j) = (n', Ok (items, complete)) →
  (length (jb_channels j) ≤ k)%nat → (length items ≤ k)%nat.
Proof using All.
  intros Hn Ha Hch Hr Hk. cbn [perform] in Hr. destruct (jb_after j) as [a|] eqn:Hj; cycle 1.
  { unfold reconstruct in Hr. rewrite Hj in Hr. injection Hr as <- <- <-. cbn. lia. }
  apply in_bounds_Some in Ha as [Hat _]. apply (time_ok_limit nav ok src cf mx False fuel Hcf Hfuel Hcovers) in Hat.
  pose proof (reconstruct_spec nav ok src (cf_channels cf) mx False fuel n j a Hn Hj Hch Hat Hfuel) as Hs.
  rewrite Hr in Hs. destruct Hs as [_ [(y & [= <-] & Hy)|([] & _)]]. cbn [fst] in Hy.
  rewrite (Forall2_length _ _ _ Hy), merge_sort_Permutation. etrans; [|exact Hk]. clear.
  induction (jb_channels j) as [|ch l IH]; [done|].
  cbn in IH |- *. destruct (last_upto src ch a); cbn [length]; lia.
Qed.

(** The end of a reconstruction that is still wanted. *)
Lemma job_outcome s j t n' items complete :
  sys_ok ok cf s → sy_work s = Some (WJob j) → active (sy_play s) → jb_generation j = ps_generation (sy_play s) →
  perform nav fuel (sy_nav s) (WJob j) = (n', Ok (items, complete)) →
  let s' := run_event nav cf fuel (EFinish t) s in
  sy_work s' = None ∧ waits (length items) (sy_play s')
  ∧ (ps_anchor (sy_play s') = ps_anchor (sy_play s) ∨ (ps_anchor (sy_play s')).1 = t).
Proof using All.
  intros Hs Hsw Hac Hg Hpf. cbn zeta. cbn [run_event]. rewrite Hsw, Hpf. cbn [sy_work sy_play]. split; [done|].
  destruct (perform_ok s _ _ _ Hs Hsw Hpf) as ((_ & _ & _ & Hj) & _ & _). cbn [pump_end].
  set (p1 := set_busy false (sy_play s)). assert (active p1) as Hac1 by exact Hac.
  pose proof (po_counted _ _ (so_play _ _ _ Hs)) as Hcount.
  pose proof Hac as ([Hcl Hft] & Hpl & He). replace (ps_closed p1) with false by (symmetry; exact Hcl).
  assert (job_now j p1) as Hjn by (split; [done|by apply Hj]).
  destruct (commit_form cf j items t p1 Hcount Hg) as (q & _ & Hc). exact (filled_waits j (length items) t p1 _ q Hac1 Hjn Hc).
Qed.

(** The end of a read that was in progress. *)
Lemma finish_outcome s w t n' items complete :
  sys_ok ok cf s → sy_work s = Some w → active (sy_play s) → ps_staged (sy_play s) = None →
  perform nav fuel (sy_nav s) w = (n', Ok (items, complete)) →
  let s' := run_event nav cf fuel (EFinish t) s in
  sy_work s' = None ∧ (at_end cf (sy_play s') ∨ active (sy_play s'))
  ∧ (ps_anchor (sy_play s') = ps_anchor (sy_play s) ∨ (ps_anchor (sy_play s')).1 = t)
  ∧ ∀ g, ps_staged (sy_play s') = Some g → (length (sg_items g) ≤ length items)%nat.
Proof using All.
  intros Hs Hsw Hac Hsg Hpf. cbn zeta.
  assert ((∃ j, w = WJob j ∧ jb_generation j = ps_generation (sy_play s))
          ∨ ∀ j, w = WJob j → jb_generation j ≠ ps_generation (sy_play s)) as [(j & -> & Hg)|Hno].
  { destruct w as [j|r]; [|by right]. destruct (decide (jb_generation j = ps_generation (sy_play s)));
      [left; by exists j|right; by intros ? [= <-]]. }
  { destruct (job_outcome s j t n' items complete Hs Hsw Hac Hg Hpf) as (Hw & Hwait & Hanc).
    split_and!; [done|right; by destruct Hwait as [[? _]|[? _]]|done|].
    intros g Hg'. destruct Hwait as [(_ & E & _)|(_ & g' & E & ?)]; [congruence|].
    rewrite E in Hg'. injection Hg' as <-. lia. }
  cbn [run_event]. rewrite Hsw, Hpf. cbn [sy_work sy_play]. split; [done|].
  destruct (perform_ok s w _ _ Hs Hsw Hpf) as (Hwok & Hf & _). cbn [pump_end].
  set (p1 := set_busy false (sy_play s)). assert (active p1) as Hac1 by exact Hac.
  pose proof (po_counted _ _ (so_play _ _ _ Hs)) as Hcount.
  pose proof Hac as ([Hcl Hft] & Hpl & He). replace (ps_closed p1) with false by (symmetry; exact Hcl).
  destruct w as [j|r].
  - pose proof (Hno j eq_refl) as Hg. change (ps_generation (sy_play s)) with (ps_generation p1) in Hg.
    unfold commit. rewrite (proj2 (Z.eqb_neq _ _) Hg). cbn [negb].
    split_and!; [by right|by left|]. intros g Hg'. exfalso. exact (eq_None_ne_Some_1 _ _ Hsg Hg').
  - destruct (stale r p1) eqn:Hst.
    { unfold advance. fold (stale r p1). rewrite Hst. split_and!; [by right|by left|].
      intros g Hg'. exfalso. exact (eq_None_ne_Some_1 _ _ Hsg Hg'). }
    assert (ready p1) as Hrd by (split; [exact Hac1|split; [exact Hsg|apply (proj1 (stale_false r p1) Hst)]]).
    destruct (advance_form cf r items complete t p1 Hcount Hf Hst) as [(-> & _)|(q & _ & ->)].
    + unfold stall. destruct (stalled p1); [|rewrite enqueue_push by done];
        (split_and!; [by right|by left|intros g Hg'; exfalso; exact (eq_None_ne_Some_1 _ _ Hsg Hg')]).
    + split_and!.
      * destruct complete; [|right; unfold advanced, moved; by destruct (last items)].
        destruct (decide (Some (rd_target r) = cf_end cf)).
        -- left. by apply reached_at_end.
        -- right. by destruct (reached_ready cf (rd_target r) t items p1 q Hrd) as [[? _] _].
      * unfold advanced, reached, moved. destruct complete, (last items); try (by left);
          (destruct (bool_decide _); [by left|]; destruct (stalled _); [by right|by left]).
      * assert (ps_staged (with_queue q (advanced cf r items complete t p1)) = None) as ->; [|done].
        rewrite <- Hsg. unfold advanced, reached, moved. destruct complete, (last items); try done;
          (destruct (bool_decide _); [done|]; by destruct (stalled _)).
Qed.

Lemma round_job c x t :
  timely c x → sy_work x.1 = None → active (sy_play x.1) → ps_staged (sy_play x.1) = None →
  pending (sy_play x.1) = true → c + slowest cf ≤ t.1 ≤ t.2 →
  timely t.2 (round x t) ∧ sy_work (round x t).1 = None ∧ waits (length (cf_channels cf)) (sy_play (round x t).1).
Proof using All.
  intros (Hx & Hcl & Hanc) Hw Hac Hsg Hpe Ht. pose proof slowest_nonneg as Hsl.
  destruct (round_ok x t Hx) as [Hx' Hclk]. unfold timely. rewrite Hclk.
  pose proof (pumped_ok x t.1 Hx) as Hs2.
  pose proof Hx as [Hp _ Hb]. rewrite Hw in Hb.
  destruct (take_job (with_queue [] (sy_play x.1))) as [j|] eqn:Hj; cycle 1.
  { unfold take_job in Hj. replace (pending _) with true in Hj. done. }
  assert (pumped t.1 x.1 = mk_system (set_busy true (with_queue [] (sy_play x.1))) (Some (WJob j)) (sy_nav x.1)) as E.
  { unfold pumped. cbn [run_event with_play sy_play]. unfold pump_begin. rewrite Hj.
    destruct Hac as ([Hc Hf] & _). change (ps_closed (with_queue [] ?p)) with (ps_closed p).
    change (ps_busy (with_queue [] ?p)) with (ps_busy p). change (ps_fault (with_queue [] ?p)) with (ps_fault p).
    change (ps_staged (with_queue [] ?p)) with (ps_staged p). rewrite Hc, Hb, Hf, Hsg. cbn [orb].
    by rewrite bool_decide_false by (by intros [? ?]). }
  rewrite E in Hs2. rewrite round_pumped, E in Hx' by done. rewrite round_pumped, E by done. set (s2 := mk_system _ _ _) in *.
  destruct (perform nav fuel (sy_nav s2) (WJob j)) as [n' found] eqn:Hpf.
  destruct (perform_ok s2 _ _ _ Hs2 eq_refl Hpf) as ((_ & Hch & Ha & _) & _ & items & complete & ->).
  unfold take_job in Hj. replace (pending _) with true in Hj. injection Hj as Hj.
  destruct (job_outcome s2 j t.2 n' items complete Hs2 eq_refl Hac) as (Hw' & Hwait & Ha'); [by rewrite <- Hj|done|].
  assert (length items ≤ length (cf_channels cf))%nat as Hlen.
  { destruct (po_subscription _ _ Hp) as [Hnd Hsub]. transitivity (length (ps_subscription (sy_play x.1))).
    - eapply job_length; [exact (so_nav _ _ _ Hs2)|exact Ha|exact Hch|exact Hpf|].
      rewrite <- Hj. cbn [jb_channels]. apply length_filter.
    - by apply submseteq_length, NoDup_submseteq. }
  split_and!; [done|done| |done|].
  - destruct Ha' as [-> | ->]; [|lia]. change (ps_anchor (sy_play s2)) with (ps_anchor (sy_play x.1)). lia.
  - destruct Hwait as [Hr|(Hac' & g & Hg & Hl)]; [by left|]. right. split; [done|]. exists g. split; [done|lia].
Qed.

(** A playing controller with no read in progress. *)
Lemma idle_finishes k c x :
  timely c x → sy_work x.1 = None → active (sy_play x.1) →
  (∀ g, ps_staged (sy_play x.1) = Some g → (length (sg_items g) ≤ k)%nat) →
  finishes (S (k + length (cf_channels cf) + ready_rounds)) c x.
Proof using All.
  intros Hx Hw Hac Hk. destruct (ps_staged (sy_play x.1)) as [g|] eqn:Hsg.
  - specialize (Hk g eq_refl). apply finishes_round. intros t Ht.
    destruct (round_staged c x t g Hx Hw Hac Hsg Ht) as (Hx' & Hw' & Hwait).
    eapply finishes_more; [by apply (waits_finishes _ _ _ Hx' Hw' Hwait)|lia].
  - destruct (pending (sy_play x.1)) eqn:Hpe.
    + apply finishes_round. intros t Ht. destruct (round_job c x t Hx Hw Hac Hsg Hpe Ht) as (Hx' & Hw' & Hwait).
      eapply finishes_more; [by apply (waits_finishes _ _ _ Hx' Hw' Hwait)|lia].
    + eapply finishes_more; [by apply any_ready_finishes|lia].
Qed.

(** A pump while a read is in progress does nothing. *)
Lemma pumped_busy x w t :
  sound x → sy_work x.1 = Some w →
  pumped t x.1 = with_play (with_queue [] (sy_play x.1)) x.1.
Proof using Type.
  intros [Hp _ Hb] Hw. rewrite Hw in Hb. destruct Hb as [Hb _]. unfold pumped. cbn [run_event with_play sy_play].
  unfold pump_begin. change (ps_busy (with_queue [] ?p)) with (ps_busy p). by rewrite Hb, orb_true_r.
Qed.

Lemma active_finishes c x :
  timely c x → active (sy_play x.1) → (sy_work x.1 = None ∨ ps_staged (sy_play x.1) = None) →
  ∃ k, finishes k c x.
Proof using All.
  intros Hx Hac Hidle. destruct (sy_work x.1) as [w|] eqn:Hw; cycle 1.
  { eexists. apply (idle_finishes (match ps_staged (sy_play x.1) with Some g => length (sg_items g) | None => 0%nat end));
      [done|done|done|]. intros g ->. done. }
  destruct Hidle as [?|Hsg]; [done|]. pose proof Hx as (Hok & Hcl & Hanc). pose proof slowest_nonneg as Hsl.
  set (s1 := with_play (with_queue [] (sy_play x.1)) x.1).
  assert (sys_ok ok cf s1) as Hs1.
  { pose proof (pumped_ok x (hs_clock x.2) Hok) as Hs. by rewrite (pumped_busy _ w) in Hs. }
  destruct (perform nav fuel (sy_nav s1) w) as [n' found] eqn:Hpf.
  destruct (perform_ok s1 w _ _ Hs1 Hw Hpf) as (_ & _ & items & complete & ->).
  eexists. apply finishes_round. intros t Ht. destruct (round_ok x t Hok) as [Hok' Hclk].
  destruct (finish_outcome s1 w t.2 n' items complete Hs1 Hw Hac Hsg Hpf) as (Hw' & Hout & Ha' & Hg').
  assert ((round x t).1 = run_event nav cf fuel (EFinish t.2) s1) as E.
  { rewrite round_pumped by done. by rewrite (pumped_busy _ w). }
  rewrite <- E in Hw', Hout, Ha', Hg'.
  assert (timely t.2 (round x t)) as Hx'.
  { unfold timely. rewrite Hclk. split_and!; [done|done|]. destruct Ha' as [-> | ->]; [|lia].
    change (ps_anchor (sy_play s1)) with (ps_anchor (sy_play x.1)). lia. }
  destruct Hout as [He|Hac'].
  - eapply finishes_more; [by apply at_end_finishes; [..|rewrite Hclk|]|apply Nat.le_0_l].
  - by apply idle_finishes.
Qed.
End rounds.

(** ** Theorems *)

(** C6. The controller's promise of progress: from every state that commands,
    drains and pumps can lead to, at any times, with a source that does not
    change, a controller that plays and has not failed comes to the end when its
    queue is drained and it is pumped as time goes on, whatever seek,
    reconstruction, stall or read is under way. When moreover the clock never
    went back, no resume came while a read was in progress and no rate change
    while a reconstruction was pending ([run_steady]), what it crossed is then
    every Message of the subscription from where the stretch began. *)
Theorem playback_finishes {N} (nav : navigator N) ok src cf mx fuel
    `{Hlaws : !navigator_laws nav ok src (cf_channels cf) mx False} n clock es c :
  config_ok cf → (∀ m, m ∈ src → time_ok cf (sm_time m)) → (length src < fuel)%nat → ok n →
  let x0 := foldl (λ x e, play_on nav cf fuel e x) (history_start cf n clock) es in
  active (sy_play x0.1) → hs_clock x0.2 ≤ c → (ps_anchor (sy_play x0.1)).1 ≤ c →
  ∃ k, ∀ ts, (k ≤ length ts)%nat → spaced cf c ts →
    let x := foldl (round nav cf fuel) x0 ts in
    ps_ended (sy_play x.1) = true
    ∧ (run_steady nav cf fuel es (history_start cf n clock) →
       ∃ b e, hs_base x.2 = Some b ∧ cf_end cf = Some e
         ∧ Forall2 stands_for (hs_crossed x.2)
             (delivered src (ps_subscription (sy_play x.1)) b (e, AFTER_INSTANT))).
Proof.
  intros Hcf Hcov Hfuel Hn x0 Hac Hc Ha.
  assert (sys_ok ok cf x0.1 ∧ (sy_work x0.1 = None ∨ ps_staged (sy_play x0.1) = None)) as [Hx Hi].
  { apply (played_ok nav ok src cf mx fuel Hcf Hfuel Hcov es); [|by left].
    apply (history_start_ok nav ok src cf mx False fuel Hcf Hfuel Hcov n clock Hn). }
  destruct (active_finishes nav ok src cf mx fuel Hcf Hfuel Hcov c x0) as [k Hk]; [done|done|done|].
  assert (is_Some (cf_end cf)) as [e Ee].
  { destruct Hac as (_ & Hpl & _). destruct (po_playing _ _ (so_play _ _ _ Hx) Hpl) as [a Es].
    pose proof (co_range _ Hcf) as Hr. rewrite Es in Hr. by destruct (cf_end cf). }
  exists k. intros ts Hl Hsp. destruct (Hk ts Hl Hsp) as [_ [(_ & He & _ & _ & _ & Hend) _]].
  cbn zeta. split; [done|]. intros Hst%run_steady_reachable.
  apply (reachable_history_ok nav ok src cf mx False fuel Hcf Hfuel Hcov) in Hst; [|done].
  destruct (rounds_history nav ok src cf mx fuel Hcf Hfuel Hcov c x0 ts Hst Hc Hsp) as [_ _ Hshow].
  unfold shows_history in Hshow. rewrite Hend, Ee in Hshow.
  destruct (hs_base _) as [b|]; [|done]. exists b, e. split; [done|]. split; [done|]. apply Hshow.
Qed.

(** A playing session, a read of which the page limits end early: it ends after
    some rounds, and three are enough. *)
Lemma playback_finishes_witness :
  (∃ k, ∀ ts, (k ≤ length ts)%nat → spaced demo_config 0 ts →
     let x := foldl (round demo_navigator demo_config 5) (demo_history demo_playing) ts in
     ps_ended (sy_play x.1) = true ∧ is_Some (hs_base x.2))
  ∧ let x := foldl (round demo_navigator demo_config 5) (demo_history demo_playing) [(70, 70); (140, 140); (210, 210)] in
    ps_ended (sy_play x.1) = true ∧ length (hs_crossed x.2) = 4%nat.
Proof.
  split; [|split; vm_compute; reflexivity].
  assert (run_steady demo_navigator demo_config 5 demo_playing (history_start demo_config demo_cache 0)) as Hr
    by (unfold demo_playing; steady_run).
  destruct (playback_finishes demo_navigator demo_ok demo_messages demo_config 100 5 (Hlaws := demo_laws)
              demo_cache 0 demo_playing 0 demo_config_ok demo_covers ltac:(cbn; lia) demo_start_ok
              ltac:(unfold active, open; split_and!; vm_compute; reflexivity)
              ltac:(vm_compute; congruence) ltac:(vm_compute; congruence)) as [k Hk].
  exists k. intros ts Hl Hs. destruct (Hk ts Hl Hs) as [He Hd]. split; [exact He|].
  destruct (Hd Hr) as (b & e & Hb & _). by exists b.
Defined.
