(* ===== verification/Coupling.v ===== *)
(** * Coupled FMUs

    Models [python/src/sil/fmi/coupling.py] and the checks of
    [python/src/sil/fmi/documents.py] it uses: the coupling document
    ([document]), the Manifest it authors ([coupled_manifest], over the builder
    of Manifest.v), the connections and the sources of every input, the
    execution order of a Slot with its cycle search, and the plan of every route
    ([timeline]).

    The inspection of an FMU archive ([inspect]) and [Path.resolve] are
    parameters. Not modelled: reading and decoding the document, the receipt and
    its digests, the rendered plan, and the texts of refusals. *)

From Stdlib Require Import ZArith Lia Ascii.
From S2P Require Import Prelude PyFloat Json SchemaTypes Pointer Manifest.

Inductive coupling_error :=
| CNotObject (w : where_)
| CUnknownKeys (w : where_) (keys : list string)
| CMissingKeys (w : where_) (keys : list string)
| CNotArray (w : where_)
| CNotText (w : where_)
| CBadVersion (v : json)
| CNotFilled (key : string)
| CHoldTwice (fmu : string)
| CBadLatency (channel : string) (v : json)
| CNotDeclared (w : where_) (v : json)
| CNoFields (channel : string)
| CNoBind (w : where_)
| CNoSuchField (w : where_) (field : string)
| CNoArchive (fmu : string)
| CExtraArchive (fmu : string)
| CManifest (e : manifest_error)
| CPartialSteps (fmus : list string) (common : Z) (such_as : list Z)
| CUnusable (fmu : string) (reasons : list string)
| CMappingRejected (fmu : string)
| CNoVariable (fmu variable : string)
| CNotOutput (channel field : string)
| CNotInput (channel field : string)
| CTypes (channel field : string)
| CDimensions (channel field : string)
| CStatedUnit (channel field : string)
| CUnits (channel field : string)
| CFedTwice (fmu input : string)
| CNotStartable (fmu variable : string)
| CStartUnit (fmu variable : string)
| CStartTwice (fmu variable : string)
| CHoldsOther (fmu variable : string)
| CHoldsFed (fmu variable : string)
| CHoldsUnset (fmu variable : string)
| CNoStart (fmu variable : string)
| CUnfed (fmu : string) (inputs : list string)
| CSamePriority (first second : string)
| CCycle (loop : list (string * string)) (node : string)
| COrder (channel publisher subscriber : string) (such_as : option (list string))
| COverflows (channel subscriber : string) (peak capacity : Z)
(** Python's TypeError and KeyError, and the model's fuel. *)
| CTypeError
| CKeyError
| CFuel.

Abbreviation coupled := (result coupling_error).

(** ** Documents: [documents.py] *)

Definition sorted_names : list string → list string := merge_sort String.le.

Definition exact_object (value : json) (w : where_) (keys : list string)
    : coupled (list (string * json)) :=
  match value with
  | JObj d =>
      match sorted_names (filter (λ k, k ∉ keys) d.*1) with
      | [] => match sorted_names (filter (λ k, k ∉ d.*1) keys) with
              | [] => Ok d
              | missing => Err (CMissingKeys w missing)
              end
      | unknown => Err (CUnknownKeys w unknown)
      end
  | _ => Err (CNotObject w)
  end.

Definition array (value : json) (w : where_) : coupled (list json) :=
  match value with JArr l => Ok l | _ => Err (CNotArray w) end.

Definition text (value : json) (w : where_) : coupled string :=
  match value with
  | JStr s => if String.eqb s "" then Err (CNotText w) else Ok s
  | _ => Err (CNotText w)
  end.

Definition unit_of (value : json) (w : where_) : coupled (option string) :=
  match value with JNull => Ok None | _ => s ← text value w; Ok (Some s) end.

(** [d[key]]. *)
Definition entry (d : list (string * json)) (key : string) : coupled json :=
  match dget d key with Some v => Ok v | None => Err CKeyError end.

(** ** The coupling document *)

Record start_decl := mk_start { st_variable : string; st_value : string; st_unit : option string }.

(** The period and the priority are checked by the Manifest builder. *)
Record fmu_decl := mk_fmu {
  fm_period : json;
  fm_priority : json;
  fm_start : list start_decl;
  fm_hold : list string;
}.

Record field_decl := mk_field_decl {
  fl_name : string;
  fl_type : string;
  fl_variable : string;
  fl_unit : option string;
  fl_count : option json;
}.

Record route_decl := mk_route_decl {
  ro_capacity : json;
  ro_overflow : json;
  ro_bind : list (string * string);
}.

Record channel_decl := mk_channel_decl {
  cd_publisher : string;
  cd_latency : Z;
  cd_fields : list field_decl;
  cd_subscribers : list (string * route_decl);
}.

Record coupling := mk_coupling {
  cp_duration : json;
  cp_fmus : list (string * fmu_decl);
  cp_channels : list (string * channel_decl);
}.

Definition DOCUMENT_KEYS : list string := ["sil_fmu_coupling"; "duration_ns"; "fmus"; "channels"]%string.
Definition FMU_KEYS : list string := ["step_period_ns"; "priority"; "start"; "hold"]%string.
Definition CHANNEL_KEYS : list string := ["publisher"; "latency_ns"; "fields"; "subscribers"]%string.
Definition FIELD_KEYS : list string := ["name"; "type"; "variable"; "unit"]%string.
Definition ARRAY_FIELD_KEYS : list string := FIELD_KEYS ++ ["count"%string].
Definition ROUTE_KEYS : list string := ["capacity"; "overflow"; "bind"]%string.
Definition STARTABLE : list string := ["input"; "parameter"; "structuralParameter"]%string.
Definition SHOWN_DELIVERIES : nat := 3.
Definition SHOWN_ACTIVATIONS : nat := 12.

(** [_fmu]. *)
Definition fmu_start (w : where_) (v : json) : coupled start_decl :=
  d ← exact_object v w ["variable"; "value"; "unit"]%string;
  variable ← entry d "variable" ≫= λ v, text v (w ++ [TKey "variable"]);
  value ← entry d "value" ≫= λ v, text v (w ++ [TKey "value"]);
  u ← entry d "unit" ≫= λ v, unit_of v (w ++ [TKey "unit"]);
  Ok (mk_start variable value u).

Definition fmu_of (name : string) (fmu : json) : coupled fmu_decl :=
  let w := [TKey "fmus"; TKey name] in
  _ ← text (JStr name) w;
  d ← exact_object fmu w FMU_KEYS;
  starts ← entry d "start" ≫= λ v, array v (w ++ [TKey "start"]);
  starts ← mapE (λ ix, fmu_start (w ++ [TKey "start"; TIdx ix.1]) ix.2) (enumerate starts);
  hold ← entry d "hold" ≫= λ v, array v (w ++ [TKey "hold"]);
  hold ← mapE (λ ix, text ix.2 (w ++ [TKey "hold"; TIdx ix.1])) (enumerate hold);
  raise: CHoldTwice name if: negb (bool_decide (NoDup hold));;
  period ← entry d "step_period_ns";
  priority ← entry d "priority";
  Ok (mk_fmu period priority starts hold).

(** [_declared_fmu]; [in] raises TypeError for a value that has no hash. *)
Definition declared_fmu (name : json) (fmus : list (string * fmu_decl)) (w : where_) : coupled string :=
  match name with
  | JStr s => if dmem fmus s then Ok s else Err (CNotDeclared w name)
  | JArr _ | JObj _ => Err CTypeError
  | _ => Err (CNotDeclared w name)
  end.

(** ["count" in field] of a value that is not yet known to be an object. *)
Definition has_count (field : json) : coupled bool :=
  match field with
  | JObj d => Ok (dmem d "count")
  | JStr _ | JArr _ => Ok false
  | _ => Err CTypeError
  end.

Definition channel_field (w : where_) (v : json) : coupled field_decl :=
  counted ← has_count v;
  d ← exact_object v w (if counted : bool then ARRAY_FIELD_KEYS else FIELD_KEYS);
  name ← entry d "name" ≫= λ v, text v (w ++ [TKey "name"]);
  type_ ← entry d "type" ≫= λ v, text v (w ++ [TKey "type"]);
  variable ← entry d "variable" ≫= λ v, text v (w ++ [TKey "variable"]);
  u ← entry d "unit" ≫= λ v, unit_of v (w ++ [TKey "unit"]);
  Ok (mk_field_decl name type_ variable u (dget d "count")).

Definition bind_of (w : where_) (names : list string) (kv : string * json) : coupled (string * string) :=
  raise: CNoSuchField w kv.1 if: negb (bool_decide (kv.1 ∈ names));;
  variable ← text kv.2 (w ++ [TKey kv.1]);
  Ok (kv.1, variable).

Definition route_of (fmus : list (string * fmu_decl)) (w : where_) (names : list string)
    (kv : string * json) : coupled (string * route_decl) :=
  _ ← declared_fmu (JStr kv.1) fmus w;
  let w := w ++ [TKey kv.1] in
  d ← exact_object kv.2 w ROUTE_KEYS;
  bind ← entry d "bind";
  bind ← match bind with
         | JObj [] => Err (CNoBind w)
         | JObj b => mapE (bind_of w names) b
         | _ => Err (CNoBind w)
         end;
  capacity ← entry d "capacity";
  overflow ← entry d "overflow";
  Ok (kv.1, mk_route_decl capacity overflow bind).

(** [_channel]. *)
Definition channel_of (fmus : list (string * fmu_decl)) (name : string) (channel : json)
    : coupled channel_decl :=
  let w := [TKey "channels"; TKey name] in
  d ← exact_object channel w CHANNEL_KEYS;
  latency ← entry d "latency_ns" ≫= λ v, match v with JInt z => Ok z | _ => Err (CBadLatency name v) end;
  publisher ← entry d "publisher" ≫= λ v, declared_fmu v fmus (w ++ [TKey "publisher"]);
  fields ← entry d "fields" ≫= λ v, array v (w ++ [TKey "fields"]);
  raise: CNoFields name if: bool_decide (fields = []);;
  fields ← mapE (λ ix, channel_field (w ++ [TKey "fields"; TIdx ix.1]) ix.2) (enumerate fields);
  subscribers ← entry d "subscribers";
  routes ← match subscribers with
           | JObj routes => mapE (route_of fmus (w ++ [TKey "subscribers"]) (fl_name <$> fields)) routes
           | _ => Err (CNotObject (w ++ [TKey "subscribers"]))
           end;
  Ok (mk_channel_decl publisher latency fields routes).

Definition filled (d : list (string * json)) (key : string) : coupled (list (string * json)) :=
  v ← entry d key;
  match v with
  | JObj [] => Err (CNotFilled key)
  | JObj items => Ok items
  | _ => Err (CNotFilled key)
  end.

(** [_document]. *)
Definition document (doc : json) : coupled coupling :=
  d ← exact_object doc [] DOCUMENT_KEYS;
  version ← entry d "sil_fmu_coupling";
  raise: CBadVersion version if: is_boolean version || negb (py_eq_int version 1);;
  fmus ← filled d "fmus";
  channels ← filled d "channels";
  fmus ← mapE (λ kv, f ← fmu_of kv.1 kv.2; Ok (kv.1, f)) fmus;
  channels ← mapE (λ kv, c ← channel_of fmus kv.1 kv.2; Ok (kv.1, c)) channels;
  duration ← entry d "duration_ns";
  Ok (mk_coupling duration fmus channels).

(** [_require_archives]; [archives] maps names to paths. *)
Definition require_archives (doc : coupling) (archives : list (string * string)) : coupled () :=
  _ ← foldE (λ _ kv, raise_if (negb (dmem archives kv.1)) (CNoArchive kv.1)) () (cp_fmus doc);
  foldE (λ _ kv, raise_if (negb (dmem (cp_fmus doc) kv.1)) (CExtraArchive kv.1)) () archives.

(** [fmus[name]]. *)
Definition archive_of (archives : list (string * string)) (name : string) : coupled string :=
  match dget archives name with Some path => Ok path | None => Err CKeyError end.

(** [sorted(d.items())] of a dict. *)
Definition entry_le {V} (a b : string * V) : Prop := String.le a.1 b.1.
#[export] Instance entry_le_dec {V} : RelDecision (@entry_le V).
Proof. unfold entry_le. intros a b. apply _. Defined.
Definition sorted_items {V} (d : list (string * V)) : list (string * V) := merge_sort entry_le d.

Record connection := mk_connection {
  cn_channel : string;
  cn_field : string;
  cn_publisher : string;
  cn_output : string;
  cn_subscriber : string;
  cn_input : string;
  cn_unit : option string;
}.

(** [_connections]. *)
Definition field_connections (channel : string) (c : channel_decl) (f : field_decl) : list connection :=
  omap (λ '(subscriber, r),
    (λ input, mk_connection channel (fl_name f) (cd_publisher c) (fl_variable f) subscriber input (fl_unit f))
      <$> dget (ro_bind r) (fl_name f)) (sorted_items (cd_subscribers c)).

Definition connections (doc : coupling) : list connection :=
  concat ((λ '(channel, c), concat (field_connections channel c <$> cd_fields c))
            <$> sorted_items (cp_channels doc)).

(** ** The Manifest *)

(** [_subscribed] and [_published], with the declarations. *)
Definition subscribed_channels (doc : coupling) (name : string) : list (string * channel_decl) :=
  sorted_items (filter (λ kv, dmem (cd_subscribers kv.2) name = true) (cp_channels doc)).
Definition published_channels (doc : coupling) (name : string) : list (string * channel_decl) :=
  sorted_items (filter (λ kv, cd_publisher kv.2 = name) (cp_channels doc)).

Definition argument (channel field variable : string) : string :=
  (channel ++ ":" ++ field ++ "=" ++ variable)%string.

(** [_bind_arguments]. *)
Definition bind_arguments (doc : coupling) (name : string) : list string :=
  concat ((λ '(channel, c),
             let bind := match dget (cd_subscribers c) name with Some r => ro_bind r | None => [] end in
             omap (λ f, argument channel (fl_name f) <$> dget bind (fl_name f)) (cd_fields c))
            <$> subscribed_channels doc name)
  ++ concat ((λ '(channel, c), (λ f, argument channel (fl_name f) (fl_variable f)) <$> cd_fields c)
               <$> published_channels doc name).

Definition start_le (a b : start_decl) : Prop := String.le (st_variable a) (st_variable b).
#[export] Instance start_le_dec : RelDecision start_le.
Proof. unfold start_le. intros a b. apply _. Defined.

(** [_start_arguments]. *)
Definition start_arguments (f : fmu_decl) : list string :=
  (λ s, (st_variable s ++ "=" ++ st_value s)%string) <$> merge_sort start_le (fm_start f).

(** [_schemas]. *)
Definition field_schema (f : field_decl) : json :=
  JObj ([("name"%string, JStr (fl_name f)); ("type"%string, JStr (fl_type f))]
        ++ match fl_count f with Some c => [("count"%string, c)] | None => [] end).
Definition channel_schema (c : channel_decl) : json :=
  JObj [("fields"%string, JArr (field_schema <$> cd_fields c))].
Definition schemas (doc : coupling) : json :=
  JObj ((λ kv, (kv.1, channel_schema kv.2)) <$> cp_channels doc).

Definition lift_manifest {A} (r : made A) : coupled A :=
  match r with Ok a => Ok a | Err e => Err (CManifest e) end.

Section authoring.
(** [str(Path(p).resolve())]. *)
Context (resolve : string → string).

(** The command of the FMU in the archive at [path]. *)
Definition command (doc : coupling) (path name : string) (f : fmu_decl) : list string :=
  ["python3"; "-m"; "sil.fmi"; resolve path]%string
  ++ concat ((λ a, ["--bind"%string; a]) <$> bind_arguments doc name)
  ++ concat ((λ a, ["--start"%string; a]) <$> start_arguments f).

Definition routes_of (doc : coupling) (name : string) : routes_arg :=
  RoutesList (omap (λ '(channel, c),
    (λ r, RouteArg (JStr channel) (ro_capacity r) (ro_overflow r)) <$> dget (cd_subscribers c) name)
    (subscribed_channels doc name)).

Definition add_coupled_channel (m : manifest) (kv : string * channel_decl) : made manifest :=
  add_channel m (JStr kv.1) (JStr kv.1) (JInt (cd_latency kv.2)) (JStr "inline") JNull.

Definition add_coupled_fmu (doc : coupling) (archives : list (string * string)) (m : manifest)
    (kv : string * fmu_decl) : coupled manifest :=
  path ← archive_of archives kv.1;
  lift_manifest (add_process m (JStr kv.1) (strs (command doc path kv.1 kv.2)) (fm_period kv.2)
    (routes_of doc kv.1) (strs (published_channels doc kv.1).*1) (fm_priority kv.2)
    (JBool false) (JStr "reject") JNull).

(** [coupled_manifest]. *)
Definition coupled_manifest (doc : coupling) (archives : list (string * string)) : coupled manifest :=
  m ← lift_manifest (
    m ← new_manifest (cp_duration doc) (JInt 0);
    m ← match add_schemas m (schemas doc) with (m, None) => Ok m | (_, Some e) => Err e end;
    foldE add_coupled_channel m (sorted_items (cp_channels doc)));
  m ← foldE (add_coupled_fmu doc archives) m (sorted_items (cp_fmus doc));
  _ ← lift_manifest (to_doc m);
  Ok m.
End authoring.

(** An integer that the builder accepted. *)
Definition int_of (v : json) : Z := match v with JInt z => z | _ => 0 end.

Definition period_of (f : fmu_decl) : Z := int_of (fm_period f).
Definition priority_of (f : fmu_decl) : Z := int_of (fm_priority f).
Definition duration_of (doc : coupling) : Z := int_of (cp_duration doc).

(** [_require_whole_steps]. *)
Definition require_whole_steps (doc : coupling) : coupled () :=
  let duration := duration_of doc in
  let periods := (λ kv, (kv.1, period_of kv.2)) <$> sorted_items (cp_fmus doc) in
  match filter (λ kv, duration mod kv.2 ≠ 0) periods with
  | [] => Ok ()
  | split_ =>
      let common := foldr Z.lcm 1 periods.*2 in
      let below := duration - duration mod common in
      Err (CPartialSteps split_.*1 common (filter (λ ns, ns ≠ 0) [below; below + common]))
  end.

(** ** The FMUs *)

(** What the report of an inspection says of a variable. *)
Record variable := mk_variable {
  va_name : string;
  va_type : string;
  va_causality : string;
  va_start : option string;
  va_unit : option string;
  va_dimensions : json;
  va_clocks : list string;
}.

Record report := mk_report {
  rp_unusable : list string;
  rp_compatible : bool;
  rp_variables : list variable;
}.

(** The proposed mapping of one FMU. *)
Record mapping := mk_mapping {
  mp_schemas : list (string * json);
  mp_in : list string;
  mp_out : list string;
  mp_bind : list string;
  mp_start : list string;
}.

Definition mapping_of (doc : coupling) (name : string) (f : fmu_decl) : mapping :=
  let ins := subscribed_channels doc name in
  let outs := published_channels doc name in
  mk_mapping ((λ kv, (kv.1, channel_schema kv.2)) <$> (ins ++ outs)) ins.*1 outs.*1
    (bind_arguments doc name) (start_arguments f).

Abbreviation variables := (list (string * variable)).

(** [{v["name"]: v for v in report["variables"]}]. *)
Definition by_name (l : list variable) : variables := foldl (λ d v, dset d (va_name v) v) [] l.

(** [_variable]. *)
Definition variable_of (vs : variables) (fmu name : string) : coupled variable :=
  match dget vs name with Some v => Ok v | None => Err (CNoVariable fmu name) end.

Definition variables_of (all : list (string * variables)) (fmu : string) : variables :=
  default [] (dget all fmu).

(** [_require_compatible]. *)
Definition require_compatible (all : list (string * variables)) (c : connection) : coupled () :=
  output ← variable_of (variables_of all (cn_publisher c)) (cn_publisher c) (cn_output c);
  taken ← variable_of (variables_of all (cn_subscriber c)) (cn_subscriber c) (cn_input c);
  raise: CNotOutput (cn_channel c) (cn_field c) if: negb (String.eqb (va_causality output) "output");;
  raise: CNotInput (cn_channel c) (cn_field c) if: negb (String.eqb (va_causality taken) "input");;
  raise: CTypes (cn_channel c) (cn_field c) if: negb (String.eqb (va_type output) (va_type taken));;
  raise: CDimensions (cn_channel c) (cn_field c) if: negb (py_eq (va_dimensions output) (va_dimensions taken));;
  raise: CStatedUnit (cn_channel c) (cn_field c) if: negb (bool_decide (cn_unit c = va_unit output));;
  raise_if (negb (bool_decide (va_unit taken = va_unit output))) (CUnits (cn_channel c) (cn_field c)).

(** [_require_starts]: the variables that are given a start value. *)
Definition require_start (fmu : string) (vs : variables) (started : gset string) (s : start_decl)
    : coupled (gset string) :=
  v ← variable_of vs fmu (st_variable s);
  raise: CNotStartable fmu (st_variable s) if: negb (bool_decide (va_causality v ∈ STARTABLE));;
  raise: CStartUnit fmu (st_variable s) if: negb (bool_decide (st_unit s = va_unit v));;
  raise: CStartTwice fmu (st_variable s) if: bool_decide (st_variable s ∈ started);;
  Ok ({[st_variable s]} ∪ started).

(** [_require_holds]. *)
Definition require_hold (fmu : string) (vs : variables) (fed : list (string * connection))
    (started : gset string) (name : string) : coupled () :=
  v ← variable_of vs fmu name;
  raise: CHoldsOther fmu name if: negb (String.eqb (va_causality v) "input");;
  raise: CHoldsFed fmu name if: dmem fed name || bool_decide (name ∈ started);;
  raise_if (bool_decide (va_start v = None)) (CHoldsUnset fmu name).

(** The connections that feed one FMU. *)
Definition feed (name : string) (fed : list (string * connection)) (c : connection)
    : coupled (list (string * connection)) :=
  if String.eqb (cn_subscriber c) name then
    raise: CFedTwice name (cn_input c) if: dmem fed (cn_input c);;
    Ok (dset fed (cn_input c) c)
  else Ok fed.

(** [_require_sources]. *)
Definition require_sources (name : string) (f : fmu_decl) (cs : list connection) (vs : variables)
    : coupled () :=
  fed ← foldE (feed name) [] cs;
  started ← foldE (require_start name vs) ∅ (fm_start f);
  _ ← foldE (λ _ v, require_hold name vs fed started v) () (fm_hold f);
  clocks ← foldE (λ clocks kv,
             match dget vs kv.1 with
             | None => Err CKeyError
             | Some v => raise: CNoStart name kv.1 if: bool_decide (va_start v = None)
                                                     && negb (bool_decide (kv.1 ∈ started));;
                         Ok (clocks ++ va_clocks v)
             end) [] fed;
  let declared := fed.*1 ++ elements started ++ fm_hold f ++ clocks in
  let missing := filter (λ v, va_causality v = "input"%string ∧ va_name v ∉ declared) vs.*2 in
  raise_if (negb (bool_decide (missing = []))) (CUnfed name (va_name <$> missing)).

(** ** Execution order *)

(** A zero-Latency route: publisher, subscriber, Channel. *)
Abbreviation edge := (string * string * string)%type.

Definition edge_le (x y : edge) : Prop :=
  let '(a, b, c) := x in let '(a', b', c') := y in
  if decide (a = a') then if decide (b = b') then String.le c c' else String.le b b' else String.le a a'.
#[export] Instance edge_le_dec : RelDecision edge_le.
Proof. intros [[a b] c] [[a' b'] c']. unfold edge_le. repeat case_decide; apply _. Defined.

(** [_same_slot]. *)
Definition same_slot (doc : coupling) : list edge :=
  merge_sort edge_le
    (concat ((λ '(channel, c), if cd_latency c =? 0
                               then (λ kv, (cd_publisher c, kv.1, channel)) <$> cd_subscribers c else [])
               <$> cp_channels doc)).

(** [successors]. *)
Definition successors (edges : list edge) (node : string) : list (string * string) :=
  omap (λ '(p, s, c), if String.eqb p node then Some (s, c) else None) edges.

(** [path[on_path.index(node):]]. *)
Fixpoint loop_from (node : string) (path : list (string * string)) : list (string * string) :=
  match path with
  | [] => []
  | (n, c) :: rest => if String.eqb n node then path else loop_from node rest
  end.

(** [visit] of [_cycle]: the nodes that are done, and the loop that was met.
    [None] is out of fuel. *)
Section visit.
Context (edges : list edge).

Fixpoint visit (fuel : nat) (node : string) (path : list (string * string)) (done_ : gset string)
    : option (gset string * option (list (string * string) * string)) :=
  match fuel with
  | O => None
  | S fuel =>
      if bool_decide (node ∈ path.*1) then Some (done_, Some (loop_from node path, node))
      else if bool_decide (node ∈ done_) then Some (done_, None)
      else
        (fix each_successor (succs : list (string * string)) (done_ : gset string) :=
           match succs with
           | [] => Some ({[node]} ∪ done_, None)
           | (s, c) :: succs =>
               match visit fuel s (path ++ [(node, c)]) done_ with
               | None => None
               | Some (done', Some l) => Some (done', Some l)
               | Some (done', None) => each_successor succs done'
               end
           end) (successors edges node) done_
  end.

Fixpoint visit_all (fuel : nat) (nodes : list string) (done_ : gset string)
    : option (option (list (string * string) * string)) :=
  match nodes with
  | [] => Some None
  | node :: nodes =>
      match visit fuel node [] done_ with
      | None => None
      | Some (_, Some l) => Some (Some l)
      | Some (done', None) => visit_all fuel nodes done'
      end
  end.
End visit.

(** [_cycle]. A path has no node twice, so its fuel is the number of nodes. *)
Definition cycle (nodes : list string) (edges : list edge)
    : option (option (list (string * string) * string)) :=
  visit_all edges (S (length nodes)) nodes ∅.

(** The key of [min], and of the final [sorted]. *)
Definition place_le (a b : string * fmu_decl) : Prop :=
  if decide (priority_of a.2 = priority_of b.2) then String.le a.1 b.1
  else priority_of a.2 ≤ priority_of b.2.
#[export] Instance place_le_dec : RelDecision place_le.
Proof. intros a b. unfold place_le. case_decide; apply _. Defined.

Definition least (l : list (string * fmu_decl)) : option (string * fmu_decl) :=
  foldr (λ x best, match best with
                   | None => Some x
                   | Some y => Some (if decide (place_le x y) then x else y)
                   end) None l.

(** [_topological]; [None] is the ValueError of an empty [min]. *)
Fixpoint topological_from (edges : list edge) (fuel : nat) (waiting : list (string * fmu_decl))
    (order : list string) : option (list string) :=
  match fuel, waiting with
  | _, [] => Some order
  | O, _ => None
  | S fuel, _ =>
      let before n := (λ '(p, _, _), p) <$> filter (λ '(_, s, _), s = n) edges in
      match least (filter (λ kv, Forall (λ p, p ∈ order) (before kv.1)) waiting) with
      | None => None
      | Some (chosen, _) => topological_from edges fuel (filter (λ kv, kv.1 ≠ chosen) waiting) (order ++ [chosen])
      end
  end.
Definition topological (fmus : list (string * fmu_decl)) (edges : list edge) : option (list string) :=
  topological_from edges (length fmus) fmus [].

Definition by_priority (st : list (Z * string)) (kv : string * fmu_decl) : coupled (list (Z * string)) :=
  match dget st (priority_of kv.2) with
  | Some other => raise: CSamePriority other kv.1 if: negb (String.eqb other kv.1);; Ok st
  | None => Ok (dset st (priority_of kv.2) kv.1)
  end.

Definition place (doc : coupling) (name : string) : Z :=
  match dget (cp_fmus doc) name with Some f => priority_of f | None => 0 end.

Definition priority_le (a b : string * fmu_decl) : Prop := priority_of a.2 ≤ priority_of b.2.
#[export] Instance priority_le_dec : RelDecision priority_le.
Proof. intros a b. unfold priority_le. apply _. Defined.

(** [_execution_order]. *)
Definition execution_order (doc : coupling) : coupled (list string) :=
  _ ← foldE by_priority [] (sorted_items (cp_fmus doc));
  let edges := same_slot doc in
  _ ← match cycle (sorted_items (cp_fmus doc)).*1 edges with
      | None => Err CFuel
      | Some (Some (l, node)) => Err (CCycle l node)
      | Some None => Ok ()
      end;
  _ ← foldE (λ _ '(p, s, c), raise_if (place doc s <=? place doc p)
                               (COrder c p s (topological (cp_fmus doc) edges))) () edges;
  Ok (merge_sort priority_le (cp_fmus doc)).*1.

(** ** The plan *)

(** [range(0, stop, step)] of positive integers. *)
Definition steps_below (stop step : Z) : list Z :=
  (λ k, k * step) <$> seqZ 0 ((stop + step - 1) / step).

(** The Message an activation steps on: [None] is the start value. *)
Record delivery := mk_delivery { dl_published : Z; dl_delivered : Z }.
Record activation := mk_activation { ac_at : Z; ac_delivered : Z; ac_input : option Z }.

(** The local variables of [_timeline]. *)
Record line := mk_line {
  ln_publications : list Z;
  ln_pending : list Z;
  ln_peak : Z;
  ln_dropped : list Z;
  ln_deliveries : list delivery;
  ln_activations : list activation;
  ln_not_listed : Z;
  ln_held : option Z;
  ln_final : option Z;
}.

Section timeline.
Context (publisher_period subscriber_period latency duration : Z).
Context (publisher_first : bool) (drop_above : option Z).

(** [publish]. *)
Definition publish (published : Z) (s : line) : line :=
  if match drop_above with Some n => n <=? zlen (ln_pending s) | None => false end then
    mk_line (ln_publications s) (ln_pending s) (ln_peak s) (ln_dropped s ++ [published]) (ln_deliveries s)
      (ln_activations s) (ln_not_listed s) (ln_held s) (ln_final s)
  else
    let pending := ln_pending s ++ [published] in
    mk_line (ln_publications s) pending (Z.max (ln_peak s) (zlen pending)) (ln_dropped s) (ln_deliveries s)
      (ln_activations s) (ln_not_listed s) (ln_held s) (ln_final s).

Definition set_publications (l : list Z) (s : line) : line :=
  mk_line l (ln_pending s) (ln_peak s) (ln_dropped s) (ln_deliveries s) (ln_activations s)
    (ln_not_listed s) (ln_held s) (ln_final s).

(** Whether a publication comes before a drain. *)
Definition before_drain (drain publication : Z) : bool :=
  (publication <? drain) || ((publication =? drain) && publisher_first).

(** The publications before a drain; [None] is those after the last. *)
Fixpoint publish_before (drain : option Z) (publications : list Z) (s : line) : line :=
  match publications with
  | [] => set_publications [] s
  | p :: rest =>
      if match drain with Some d => before_drain d p | None => true end
      then publish_before drain rest (publish p s)
      else set_publications publications s
  end.

(** The Messages of a drain. *)
Definition take_one (drain published : Z) (s : line) : line :=
  mk_line (ln_publications s) (ln_pending s) (ln_peak s) (ln_dropped s)
    (if bool_decide (length (ln_deliveries s) < SHOWN_DELIVERIES)%nat
     then ln_deliveries s ++ [mk_delivery published drain] else ln_deliveries s)
    (ln_activations s) (ln_not_listed s) (Some published)
    (if published =? duration - publisher_period then Some drain else ln_final s).

Definition set_pending (l : list Z) (s : line) : line :=
  mk_line (ln_publications s) l (ln_peak s) (ln_dropped s) (ln_deliveries s) (ln_activations s)
    (ln_not_listed s) (ln_held s) (ln_final s).

Fixpoint take_visible (drain : Z) (pending : list Z) (taken : Z) (s : line) : line * Z :=
  match pending with
  | [] => (set_pending [] s, taken)
  | p :: rest => if p + latency <=? drain then take_visible drain rest (taken + 1) (take_one drain p s)
                 else (set_pending pending s, taken)
  end.

Definition list_activation (drain taken : Z) (s : line) : line :=
  if drain <? latency + Z.lcm publisher_period subscriber_period then
    if bool_decide (length (ln_activations s) < SHOWN_ACTIVATIONS)%nat then
      mk_line (ln_publications s) (ln_pending s) (ln_peak s) (ln_dropped s) (ln_deliveries s)
        (ln_activations s ++ [mk_activation drain taken (ln_held s)]) (ln_not_listed s) (ln_held s) (ln_final s)
    else
      mk_line (ln_publications s) (ln_pending s) (ln_peak s) (ln_dropped s) (ln_deliveries s)
        (ln_activations s) (ln_not_listed s + 1) (ln_held s) (ln_final s)
  else s.

(** One activation of the subscriber. *)
Definition drain_step (s : line) (drain : Z) : line :=
  let s := publish_before (Some drain) (ln_publications s) s in
  let '(s, taken) := take_visible drain (ln_pending s) 0 s in
  list_activation drain taken s.

(** [_timeline]. *)
Definition timeline : line :=
  let s := mk_line (steps_below duration publisher_period) [] 0 [] [] [] 0 None None in
  let s := foldl drain_step s (steps_below duration subscriber_period) in
  publish_before None (ln_publications s) s.
End timeline.

(** [_route] and what [_plan] says of the order. *)
Record route_plan := mk_route_plan {
  rl_channel : string;
  rl_publisher : string;
  rl_subscriber : string;
  rl_latency : Z;
  rl_capacity : Z;
  rl_overflow : json;
  rl_line : line;
  rl_until_first : list (string * (option string * bool));
}.

Definition fmu_in (doc : coupling) (name : string) : fmu_decl :=
  default (mk_fmu JNull JNull [] []) (dget (cp_fmus doc) name).

Definition route_plan_of (doc : coupling) (all : list (string * variables)) (channel : string) (c : channel_decl)
    (subscriber : string) (r : route_decl) : route_plan :=
  let p := fmu_in doc (cd_publisher c) in
  let s := fmu_in doc subscriber in
  let starts := foldl (λ d s, dset d (st_variable s) (Some (st_value s), true)) [] (fm_start s) in
  mk_route_plan channel (cd_publisher c) subscriber (cd_latency c) (int_of (ro_capacity r)) (ro_overflow r)
    (timeline (period_of p) (period_of s) (cd_latency c) (duration_of doc)
       (priority_of p <? priority_of s)
       (if py_eq (ro_overflow r) (JStr "drop_newest") then Some (int_of (ro_capacity r)) else None))
    (foldl (λ d v, dset d v (default (match dget (variables_of all subscriber) v with
                                      | Some x => va_start x | None => None end, false) (dget starts v)))
       [] (ro_bind r).*2).

Record order_plan := mk_order_plan { op_fmu : string; op_priority : Z; op_period : Z; op_steps : Z }.

Record final_plan := mk_final_plan { fp_published : Z; fp_values_at : Z; fp_taken_by : list (string * Z) }.

Record channel_plan := mk_channel_plan {
  cl_channel : string;
  cl_publisher : string;
  cl_latency : Z;
  cl_fields : list (string * string * option string);
  cl_final : final_plan;
}.

Record plan := mk_plan {
  pl_duration : Z;
  pl_order : list order_plan;
  pl_same_slot : list edge;
  pl_channels : list channel_plan;
  pl_routes : list route_plan;
}.

(** [_final]. *)
Definition final_of (doc : coupling) (channel : string) (c : channel_decl) (routes : list route_plan)
    : final_plan :=
  mk_final_plan (duration_of doc - period_of (fmu_in doc (cd_publisher c))) (duration_of doc)
    (omap (λ r, if String.eqb (rl_channel r) channel then (rl_subscriber r,.) <$> ln_final (rl_line r) else None)
       routes).

(** [_plan]. *)
Definition plan_of (doc : coupling) (order : list string) (all : list (string * variables)) : plan :=
  let channels := sorted_items (cp_channels doc) in
  let routes := concat ((λ '(channel, c), (λ '(s, r), route_plan_of doc all channel c s r)
                                            <$> sorted_items (cd_subscribers c)) <$> channels) in
  mk_plan (duration_of doc)
    ((λ name, let f := fmu_in doc name in
              mk_order_plan name (priority_of f) (period_of f) (duration_of doc / period_of f)) <$> order)
    (same_slot doc)
    ((λ '(channel, c), mk_channel_plan channel (cd_publisher c) (cd_latency c)
        ((λ f, (fl_name f, fl_variable f, fl_unit f)) <$> cd_fields c) (final_of doc channel c routes)) <$> channels)
    routes.

(** [_require_route_bounds]. *)
Definition require_route_bounds (p : plan) : coupled () :=
  foldE (λ _ r, raise_if (py_eq (rl_overflow r) (JStr "fail") && (rl_capacity r <? ln_peak (rl_line r)))
                  (COverflows (rl_channel r) (rl_subscriber r) (ln_peak (rl_line r)) (rl_capacity r)))
    () (pl_routes p).

(** ** The whole check *)

Section check.
Context (resolve : string → string) (inspect : string → mapping → report).

(** [_inspected]. *)
Definition inspected (doc : coupling) (archives : list (string * string)) (kv : string * fmu_decl)
    : coupled (string * report) :=
  path ← archive_of archives kv.1;
  let r := inspect path (mapping_of doc kv.1 kv.2) in
  raise: CUnusable kv.1 (rp_unusable r) if: negb (bool_decide (rp_unusable r = []));;
  Ok (kv.1, r).

Record checked := mk_checked {
  ck_doc : coupling;
  ck_manifest : manifest;
  ck_connections : list connection;
  ck_variables : list (string * variables);
  ck_plan : plan;
}.

(** [check], from the document's value. *)
Definition check (value : json) (archives : list (string * string)) : coupled checked :=
  doc ← document value;
  _ ← require_archives doc archives;
  m ← coupled_manifest resolve doc archives;
  _ ← require_whole_steps doc;
  let cs := connections doc in
  reports ← mapE (inspected doc archives) (cp_fmus doc);
  let all := (λ kv, (kv.1, by_name (rp_variables kv.2))) <$> reports in
  _ ← foldE (λ _ c, require_compatible all c) () cs;
  _ ← foldE (λ _ kv, require_sources kv.1 kv.2 cs (variables_of all kv.1)) () (cp_fmus doc);
  _ ← foldE (λ _ kv, raise_if (negb (rp_compatible kv.2)) (CMappingRejected kv.1)) () reports;
  order ← execution_order doc;
  let p := plan_of doc order all in
  _ ← require_route_bounds p;
  Ok (mk_checked doc m cs all p).
End check.
