(* ===== verification/CouplingOrder.v ===== *)
(** * The order of coupled FMUs in a Slot

    The search of [_cycle] ends, and finds a loop of zero-Latency routes exactly
    when there is one ([cycle_ok]); the order [_topological] suggests exists
    and respects the routes whenever there is none. [execution_order_correct]
    states what [_execution_order] accepts and what its refusals name. *)

From Stdlib Require Import ZArith Lia.
From S2P Require Import Prelude PyFloat Json SchemaTypes Pointer Manifest Coupling.

(** ** Finite relations *)

(** Where every node of a finite set has a predecessor in it, there is a cycle. *)
Lemma no_minimal_cycle {A} `{EqDecision A} (W : list A) (R : relation A) :
  W ≠ [] → (∀ x, x ∈ W → ∃ y, y ∈ W ∧ R y x) → ∃ n, tc R n n.
Proof.
  remember (length W) as k eqn:Hk. revert W R Hk. induction k as [k IH] using lt_wf_ind.
  intros W R Hk Hne Hp. destruct W as [|x W]; [done|].
  destruct (Hp x) as (w & Hw & Hwx); [left|]. destruct (decide (w = x)) as [->|Hne']; [exists x; by apply tc_once|].
  set (W' := filter (.≠ x) (x :: W)). set (R' := λ a b, R a b ∨ (R a x ∧ R x b)).
  assert (w ∈ W') as Hw' by (apply list_elem_of_filter; done).
  destruct (IH (length W')) with (W := W') (R := R') as [n Hn]; [|done|by intros E; rewrite E in Hw'; apply not_elem_of_nil in Hw'| |].
  - subst k. unfold W'. rewrite filter_cons_False by tauto. cbn. apply Nat.lt_succ_r, length_filter.
  - intros z [Hzx Hz]%list_elem_of_filter. destruct (Hp z Hz) as (y & Hy & Hyz).
    destruct (decide (y = x)) as [->|Hyx].
    + exists w. split; [done|by right].
    + exists y. split; [by apply list_elem_of_filter|by left].
  - exists n. clear -Hn. assert (∀ a b, tc R' a b → tc R a b) as H; [|by apply H].
    intros a b. induction 1 as [a b [Hab|[H1 H2]]|a c b [Hac|[H1 H2]] _ IH].
    + by apply tc_once.
    + by eapply tc_l, tc_once.
    + by eapply tc_l.
    + by eapply tc_l, tc_l.
Qed.

Lemma Acc_no_cycle {A} (R : relation A) n : Acc (flip R) n → ¬ tc R n n.
Proof.
  induction 1 as [n _ IH]. intros Hn. inversion Hn as [? ? Hnn|? m ? Hnm Hmn]; subst.
  - by apply (IH n).
  - apply (IH m); [done|]. by eapply tc_r.
Qed.

Section search.
Context (nodes : list string) (edges : list edge).
Context (Hnodes : NoDup nodes) (Hedges : ∀ p s c, (p, s, c) ∈ edges → p ∈ nodes ∧ s ∈ nodes).

Definition arrow (a b : string) : Prop := ∃ c, (a, b, c) ∈ edges.

Lemma elem_of_successors n s c : (s, c) ∈ successors edges n ↔ (n, s, c) ∈ edges.
Proof.
  unfold successors. rewrite list_elem_of_omap. split.
  - intros ([[p s'] c'] & Hin & Hp). destruct (String.eqb_spec p n) as [->|]; [|done]. by injection Hp as <- <-.
  - intros Hin. eexists. split; [exact Hin|]. cbn. by rewrite String.eqb_refl.
Qed.

(** A path of nodes, each with the Channel to the next one, that ends at [t]. *)
Definition next_node (l : list (string * string)) (t : string) : string :=
  match l with [] => t | (n, _) :: _ => n end.
Fixpoint walk (l : list (string * string)) (t : string) : Prop :=
  match l with
  | [] => True
  | (n, c) :: rest => (n, next_node rest t, c) ∈ edges ∧ walk rest t
  end.

Lemma walk_snoc l n c t : walk (l ++ [(n, c)]) t ↔ walk l n ∧ (n, t, c) ∈ edges.
Proof.
  induction l as [|[m d] l IH]; cbn [app walk]; [cbn; tauto|]. rewrite IH.
  assert (next_node (l ++ [(n, c)]) t = next_node l n) as -> by (by destruct l as [|[]]). tauto.
Qed.

(** A loop of routes. *)
Definition is_loop (l : list (string * string)) (n : string) : Prop :=
  l ≠ [] ∧ next_node l n = n ∧ walk l n ∧ NoDup l.*1.

Lemma loop_from_loop node path :
  walk path node → node ∈ path.*1 → NoDup path.*1 → is_loop (loop_from node path) node.
Proof.
  induction path as [|[m c] path IH]; cbn [loop_from fmap list_fmap walk fst]; [by intros _ ?%not_elem_of_nil|].
  intros [He Hw] Hin Hnd. destruct (String.eqb_spec m node) as [->|Hm].
  - split_and!; done.
  - apply NoDup_cons in Hnd as [_ Hnd]. apply IH; [done| |done]. by apply elem_of_cons in Hin as [->|?].
Qed.

Lemma walk_tc n c l t : walk ((n, c) :: l) t → tc arrow n t.
Proof.
  revert n c. induction l as [|[m d] l IH]; intros n c [He Hw].
  - apply tc_once. by exists c.
  - eapply tc_l; [by exists c|]. by eapply IH.
Qed.

Lemma is_loop_cycle l n : is_loop l n → tc arrow n n.
Proof.
  intros (Hne & Hh & Hw & _). destruct l as [|[m c] l]; [done|]. cbn in Hh. subst m. by eapply walk_tc.
Qed.

(** Nodes from which every path of routes ends. *)
Definition safe (done_ : gset string) : Prop := ∀ n, n ∈ done_ → Acc (flip arrow) n.

Definition visit_spec (node : string) (done_ : gset string)
    (r : option (gset string * option (list (string * string) * string))) : Prop :=
  ∃ done' x, r = Some (done', x)
    ∧ match x with
      | Some (l, n) => is_loop l n
      | None => done_ ⊆ done' ∧ node ∈ done' ∧ safe done'
      end.

Lemma visit_ok fuel node path done_ :
  node ∈ nodes → path.*1 ⊆ nodes → NoDup path.*1 → walk path node → safe done_ →
  (length nodes < fuel + length path)%nat → visit_spec node done_ (visit edges fuel node path done_).
Proof using All.
  revert node path done_. induction fuel as [|fuel IH]; intros node path done_ Hn Hp Hnd Hw Hs Hf.
  { exfalso. assert (length path.*1 ≤ length nodes)%nat as Hl by (by apply submseteq_length, NoDup_submseteq).
    rewrite length_fmap in Hl. cbn in Hf. lia. }
  cbn [visit]. destruct (bool_decide (node ∈ path.*1)) eqn:Hin.
  { apply bool_decide_eq_true in Hin. eexists _, _. split; [done|]. by apply loop_from_loop. }
  apply bool_decide_eq_false in Hin. destruct (bool_decide (node ∈ done_)) eqn:Hd.
  { apply bool_decide_eq_true in Hd. eexists _, _. split; [done|]. done. }
  assert (∀ s c, (s, c) ∈ successors edges node → (node, s, c) ∈ edges) as Hall by (intros; by apply elem_of_successors).
  assert (∀ m, arrow node m → m ∈ done_ ∨ ∃ c, (m, c) ∈ successors edges node) as Hrest
    by (intros m [c Hc%elem_of_successors]; eauto).
  revert Hall Hrest. generalize (successors edges node) as succs. clear Hd. intros succs. revert done_ Hs.
  induction succs as [|[s c] succs IHs]; intros done_ Hs Hall Hrest.
  - eexists _, None. split; [done|]. split_and!; [set_solver|set_solver|]. intros m Hm.
    apply elem_of_union in Hm as [->%elem_of_singleton|Hm]; [|by apply Hs]. constructor. intros m Hm.
    destruct (Hrest m Hm) as [?|[? ?%not_elem_of_nil]]; [by apply Hs|done].
  - assert ((node, s, c) ∈ edges) as He by (apply Hall; left).
    destruct (IH s (path ++ [(node, c)]) done_) as (done' & x & -> & Hx).
    + by apply (Hedges _ _ _ He).
    + rewrite fmap_app. cbn. set_solver.
    + rewrite fmap_app. cbn. apply NoDup_app. split_and!; [done| |apply NoDup_singleton]. set_solver.
    + by apply walk_snoc.
    + done.
    + rewrite length_app. cbn. lia.
    + destruct x as [[l n]|]; [by eexists _, _|]. destruct Hx as (Hsub & Hsd & Hs').
      destruct (IHs done' Hs') as (done'' & y & -> & Hy).
      * intros s' c' Hin'. apply Hall. by right.
      * intros m Hm. destruct (Hrest m Hm) as [?|[c' Hc]]; [left; set_solver|].
        apply elem_of_cons in Hc as [[= -> ->]|Hc]; [by left|right; eauto].
      * eexists _, _. split; [done|]. destruct y as [[l n]|]; [done|]. destruct Hy as (? & ? & ?).
        split_and!; [set_solver|done|done].
Qed.

Lemma visit_all_ok ns done_ :
  ns ⊆ nodes → safe done_ →
  ∃ r, visit_all edges (S (length nodes)) ns done_ = Some r
    ∧ match r with
      | Some (l, n) => is_loop l n
      | None => ∀ n, n ∈ ns → Acc (flip arrow) n
      end.
Proof using All.
  revert done_. induction ns as [|n ns IH]; intros done_ Hns Hs; cbn [visit_all].
  { eexists. split; [done|]. by intros ? ?%not_elem_of_nil. }
  destruct (visit_ok (S (length nodes)) n [] done_) as (done' & x & -> & Hx);
    [set_solver|set_solver|constructor|done|done|lia|].
  destruct x as [[l m]|]; [by eexists|]. destruct Hx as (_ & Hn & Hs').
  destruct (IH done') as (r & Hr & Hx); [set_solver|done|]. exists r. split; [done|].
  destruct r as [[l m]|]; [done|]. intros m [->|Hm]%elem_of_cons; [by apply Hs'|by apply Hx].
Qed.

(** The search ends, with a loop or without a cycle. *)
Lemma cycle_ok :
  ∃ r, cycle nodes edges = Some r
    ∧ match r with Some (l, n) => is_loop l n | None => ∀ n, ¬ tc arrow n n end.
Proof using All.
  destruct (visit_all_ok nodes ∅) as (r & Hr & Hx); [done|by intros ? ?%elem_of_empty|].
  exists r. split; [done|]. destruct r as [[l n]|]; [done|]. intros n Hn.
  assert (n ∈ nodes) as Hin.
  { inversion Hn as [? ? [c Hc]|? ? ? [c Hc]]; subst; by apply (Hedges _ _ _ Hc). }
  by apply (Acc_no_cycle arrow n (Hx n Hin)).
Qed.
End search.

(** ** The suggested order *)

Lemma least_None l : least l = None → l = [].
Proof. destruct l as [|x l]; [done|]. cbn. by destruct (foldr _ None l). Qed.

Lemma least_elem l x : least l = Some x → x ∈ l.
Proof.
  revert x. induction l as [|y l IH]; intros x; [done|]. cbn. fold (least l).
  destruct (least l) as [z|]; [|intros [= <-]; left]. case_decide; intros [= <-]; [left|right; by apply IH].
Qed.

(** Every route goes forward: its publisher is before its subscriber. *)
Definition respects (edges : list edge) (order : list string) : Prop :=
  ∀ p s c l1 l2, (p, s, c) ∈ edges → order = l1 ++ s :: l2 → p ∈ l1.

Lemma respects_snoc edges order n :
  respects edges order → (∀ p c, (p, n, c) ∈ edges → p ∈ order) → n ∉ order → respects edges (order ++ [n]).
Proof.
  intros Hr Hn Hnew p s c l1 l2 He E. destruct l2 as [|y l2 _] using rev_ind.
  - apply app_inj_tail in E as [<- [= <-]]. by eapply Hn.
  - rewrite app_comm_cons, app_assoc in E. apply app_inj_tail in E as [E _]. by eapply Hr.
Qed.

Lemma NoDup_keys_filter {V} (P : string * V → Prop) `{!∀ x, Decision (P x)} (l : list (string * V)) :
  NoDup l.*1 → NoDup (filter P l).*1.
Proof.
  induction l as [|[k v] l IH]; [done|]. intros [Hk Hl]%NoDup_cons. rewrite filter_cons. case_decide; [|by apply IH].
  cbn. apply NoDup_cons. split; [|by apply IH]. intros [[k' v'] [-> Hin]]%list_elem_of_fmap. apply Hk.
  apply list_elem_of_filter in Hin as [_ Hin]. apply list_elem_of_fmap. by exists (k', v').
Qed.

Lemma topological_ok edges fuel waiting order :
  (∀ n, ¬ tc (arrow edges) n n) → NoDup waiting.*1 → (∀ n, n ∈ waiting.*1 → n ∉ order) →
  (∀ p s c, (p, s, c) ∈ edges → p ∈ order ∨ p ∈ waiting.*1) →
  respects edges order → (length waiting ≤ fuel)%nat →
  ∃ order', topological_from edges fuel waiting order = Some order'
    ∧ order' ≡ₚ order ++ waiting.*1 ∧ respects edges order'.
Proof.
  intros Hac. revert waiting order. induction fuel as [|fuel IH]; intros waiting order Hnd Hdis Hed Hr Hf.
  { destruct waiting; [|cbn in Hf; lia]. exists order. split_and!; [done|by rewrite app_nil_r|done]. }
  cbn [topological_from]. destruct waiting as [|w0 ws] eqn:Hws.
  { exists order. split_and!; [done|by rewrite app_nil_r|done]. }
  rewrite <- Hws in *. assert (waiting ≠ []) as Hne by (by rewrite Hws). clear Hws w0 ws.
  set (before n := (λ '(p, _, _), p) <$> filter (λ '(_, s, _), s = n) edges).
  assert (∀ n p, p ∈ before n ↔ ∃ c, (p, n, c) ∈ edges) as Hbefore.
  { intros n p. unfold before. rewrite list_elem_of_fmap. split.
    - intros ([[p' s] c] & -> & [-> Hin]%list_elem_of_filter). eauto.
    - intros [c Hc]. exists (p, n, c). split; [done|]. by apply list_elem_of_filter. }
  destruct (least _) as [[chosen f]|] eqn:Hl; cycle 1.
  { exfalso. apply least_None in Hl. destruct (no_minimal_cycle waiting.*1 (arrow edges)) as [n Hn]; [| |by apply (Hac n)].
    { by intros E%fmap_nil_inv. }
    intros x [[x' fx] [-> Hx]]%list_elem_of_fmap. cbn.
    assert (¬ Forall (λ p, p ∈ order) (before x')) as Hno.
    { intros Hall. assert ((x', fx) ∈ ([] : list (string * fmu_decl))) as Hbad; [|by apply not_elem_of_nil in Hbad].
      rewrite <- Hl. by apply list_elem_of_filter. }
    apply not_Forall_Exists in Hno; [|apply _]. apply Exists_exists in Hno as (p & Hp & Hpo).
    apply Hbefore in Hp as [c Hc]. exists p. split; [|by exists c]. by destruct (Hed _ _ _ Hc). }
  apply least_elem, list_elem_of_filter in Hl as [Hready Hin]. cbn in Hready.
  assert (chosen ∈ waiting.*1) as Hch by (apply list_elem_of_fmap; by exists (chosen, f)).
  set (rest := filter (λ kv, kv.1 ≠ chosen) waiting).
  assert (waiting.*1 ≡ₚ chosen :: rest.*1) as Hperm.
  { clear -Hnd Hch. unfold rest. induction waiting as [|[k v] l IHl]; [by apply not_elem_of_nil in Hch|].
    cbn in Hnd, Hch. apply NoDup_cons in Hnd as [Hk Hnd]. rewrite filter_cons, fmap_cons. cbn [fst].
    destruct (decide (k = chosen)) as [->|Hkc].
    - rewrite decide_False by tauto. rewrite filter_all; [done|]. apply Forall_forall. intros [k' v'] Hin. cbn.
      intros ->. apply Hk, list_elem_of_fmap. by exists (chosen, v').
    - rewrite decide_True by done. cbn. rewrite IHl; [apply Permutation_swap|done|set_solver]. }
  destruct (IH rest (order ++ [chosen])) as (order' & Ho & Hp & Hr').
  - by apply NoDup_keys_filter.
  - intros n Hn [Ho| ->%list_elem_of_singleton]%elem_of_app.
    + apply (Hdis n); [|done]. rewrite Hperm. by right.
    + rewrite Hperm in Hnd. by apply NoDup_cons in Hnd as [? _].
  - intros p s c Hc. destruct (Hed _ _ _ Hc) as [?|Hpw]; [left; set_solver|].
    rewrite Hperm in Hpw. apply elem_of_cons in Hpw as [->|?]; [left; set_solver|by right].
  - apply respects_snoc; [done| |by apply Hdis]. intros p c Hc. apply (proj1 (Forall_forall _ _) Hready).
    apply Hbefore. by exists c.
  - assert (length waiting.*1 = S (length rest.*1)) as E by by rewrite Hperm. rewrite !length_fmap in E. lia.
  - exists order'. split_and!; [done| |done]. rewrite Hp, Hperm, <- app_assoc. done.
Qed.

(** ** Documents that were accepted *)

Record doc_ok (doc : coupling) : Prop := {
  dk_fmus : NoDup (cp_fmus doc).*1;
  dk_channels : NoDup (cp_channels doc).*1;
  dk_publisher n c : (n, c) ∈ cp_channels doc → cd_publisher c ∈ (cp_fmus doc).*1;
  dk_subscribers n c : (n, c) ∈ cp_channels doc →
    NoDup (cd_subscribers c).*1 ∧ (cd_subscribers c).*1 ⊆ (cp_fmus doc).*1;
}.

Lemma exact_object_Ok v w keys d : exact_object v w keys = Ok d → v = JObj d.
Proof. destruct v; try done. cbn. destruct (sorted_names _); [|done]. destruct (sorted_names _); [|done]. by intros [= ->]. Qed.

Lemma entry_wf d k v : json_wf (JObj d) = true → entry d k = Ok v → json_wf v = true.
Proof.
  cbn [json_wf]. intros [_ Hd]%andb_true_iff. unfold entry. destruct (dget d k) as [x|] eqn:Hk; [|done].
  intros [= <-]. apply dget_Some in Hk. rewrite forallb_forall in Hd. apply (Hd (k, x)). by apply list_elem_of_In.
Qed.

Lemma obj_wf d : json_wf (JObj d) = true → NoDup d.*1 ∧ ∀ k v, (k, v) ∈ d → json_wf v = true.
Proof.
  cbn [json_wf]. intros [Hn%bool_decide_eq_true Hd]%andb_true_iff. split; [done|]. intros k v Hin.
  rewrite forallb_forall in Hd. apply (Hd (k, v)). by apply list_elem_of_In.
Qed.

Lemma filled_Ok d k items : filled d k = Ok items → entry d k = Ok (JObj items).
Proof.
  unfold filled. intros (v & Hv & H)%bind_Ok. destruct v as [| | | | | |[|x l]]; try done. by injection H as <-.
Qed.

(** A loop over the items of a dict keeps its keys. *)
Lemma mapE_keys {A B} (f : string * A → coupled (string * B)) l l' :
  (∀ kv kv', f kv = Ok kv' → kv'.1 = kv.1) → mapE f l = Ok l' → l'.*1 = l.*1.
Proof.
  intros Hf H%mapE_Ok. induction H as [|kv kv' l l' Hkv _ IH]; [done|]. cbn. by rewrite IH, (Hf _ _ Hkv).
Qed.

Lemma mapE_elem {A B} (f : A → coupled B) l l' y : mapE f l = Ok l' → y ∈ l' → ∃ x, x ∈ l ∧ f x = Ok y.
Proof.
  intros H%mapE_Ok [i Hi]%list_elem_of_lookup. destruct (Forall2_lookup_r _ _ _ _ _ H Hi) as (x & Hx & E).
  exists x. split; [by eapply list_elem_of_lookup_2|done].
Qed.

Lemma declared_fmu_Ok v fmus w s : declared_fmu v fmus w = Ok s → v = JStr s ∧ s ∈ fmus.*1.
Proof.
  destruct v; try done. cbn. unfold dmem. destruct (bool_decide _) eqn:H; [|done]. intros [= ->].
  by apply bool_decide_eq_true in H.
Qed.

Lemma route_of_key fmus w names kv kv' :
  route_of fmus w names kv = Ok kv' → kv'.1 = kv.1 ∧ kv.1 ∈ fmus.*1.
Proof.
  unfold route_of. intros (s & [[= <-] Hs]%declared_fmu_Ok & H)%bind_Ok. split; [|done].
  repeat (apply bind_Ok in H as (? & _ & H)). by injection H as <-.
Qed.

Lemma channel_of_ok fmus name v c :
  json_wf v = true → channel_of fmus name v = Ok c →
  cd_publisher c ∈ fmus.*1 ∧ NoDup (cd_subscribers c).*1 ∧ (cd_subscribers c).*1 ⊆ fmus.*1.
Proof.
  intros Hwf. unfold channel_of. intros (d & ->%exact_object_Ok & H)%bind_Ok.
  apply bind_Ok in H as (lat & _ & (pub & (pv & _ & [_ Hp]%declared_fmu_Ok)%bind_Ok & H)%bind_Ok).
  apply bind_Ok in H as (fs & _ & (_ & _ & (fs' & _ & (sv & Hsv & H)%bind_Ok)%bind_Ok)%bind_Ok).
  apply bind_Ok in H as (routes & Hr & [= <-]). cbn. split; [done|].
  apply (entry_wf _ _ _ Hwf) in Hsv. destruct sv as [| | | | | |subs]; try done. apply obj_wf in Hsv as [Hnd _].
  rewrite (mapE_keys _ _ _ (λ kv kv' H, proj1 (route_of_key _ _ _ _ _ H)) Hr). split; [done|].
  intros k [[k' s] [-> Hin]]%list_elem_of_fmap. apply mapE_Ok in Hr. apply list_elem_of_lookup in Hin as [i Hi].
  destruct (Forall2_lookup_l _ _ _ _ _ Hr Hi) as (y & _ & Hy). exact (proj2 (route_of_key _ _ _ _ _ Hy)).
Qed.

Lemma document_ok v doc : json_wf v = true → document v = Ok doc → doc_ok doc.
Proof.
  intros Hwf. unfold document. intros (d & ->%exact_object_Ok & H)%bind_Ok.
  apply bind_Ok in H as (ver & _ & (_ & _ & (fmus & Hf%filled_Ok & (chans & Hc%filled_Ok & H)%bind_Ok)%bind_Ok)%bind_Ok).
  apply bind_Ok in H as (fmus' & Hf' & (chans' & Hc' & (dur & _ & [= <-])%bind_Ok)%bind_Ok).
  apply (entry_wf _ _ _ Hwf), obj_wf in Hf as [Hfn _]. apply (entry_wf _ _ _ Hwf), obj_wf in Hc as [Hcn Hcw].
  assert (fmus'.*1 = fmus.*1) as Ef.
  { eapply mapE_keys; [|exact Hf']. intros kv kv' (f & _ & [= <-])%bind_Ok. done. }
  assert (chans'.*1 = chans.*1) as Ec.
  { eapply mapE_keys; [|exact Hc']. intros kv kv' (c & _ & [= <-])%bind_Ok. done. }
  assert (∀ n c, (n, c) ∈ chans' → cd_publisher c ∈ fmus'.*1
    ∧ NoDup (cd_subscribers c).*1 ∧ (cd_subscribers c).*1 ⊆ fmus'.*1) as Hall.
  { intros n c Hin. destruct (mapE_elem _ _ _ _ Hc' Hin) as ([n' v] & Hv & (c' & Hch & [= -> ->])%bind_Ok).
    eapply channel_of_ok; [|exact Hch]. by eapply Hcw. }
  split; cbn; [by rewrite Ef|by rewrite Ec|intros n c Hin; exact (proj1 (Hall n c Hin))|intros n c Hin; exact (proj2 (Hall n c Hin))].
Qed.

(** ** The execution order *)

Lemma elem_of_same_slot doc p s c :
  (p, s, c) ∈ same_slot doc ↔
  ∃ d, (c, d) ∈ cp_channels doc ∧ cd_latency d = 0 ∧ cd_publisher d = p ∧ s ∈ (cd_subscribers d).*1.
Proof.
  unfold same_slot. rewrite merge_sort_Permutation, elem_of_concat. split.
  - intros (l & Hl & [[n d] [-> Hin]]%list_elem_of_fmap). destruct (Z.eqb_spec (cd_latency d) 0); [|by apply not_elem_of_nil in Hl].
    apply list_elem_of_fmap in Hl as [[s' r] [[= -> -> ->] Hs]]. exists d. split_and!; try done.
    apply list_elem_of_fmap. by exists (s', r).
  - intros (d & Hin & Hl & <- & [[s' r] [-> Hs]]%list_elem_of_fmap).
    eexists. split; [|apply list_elem_of_fmap; exists (c, d); split; [reflexivity|done]].
    rewrite Hl. apply list_elem_of_fmap. by exists (s', r).
Qed.

Lemma same_slot_declared doc p s c :
  doc_ok doc → (p, s, c) ∈ same_slot doc → p ∈ (cp_fmus doc).*1 ∧ s ∈ (cp_fmus doc).*1.
Proof.
  intros Hd (d & Hin & _ & <- & Hs)%elem_of_same_slot. split; [by eapply dk_publisher|].
  destruct (dk_subscribers _ Hd _ _ Hin) as [_ Hsub]. by apply Hsub.
Qed.

Lemma by_priority_Ok l st st' :
  foldE by_priority st l = Ok st' → NoDup l.*1 → (∀ n f k, (n, f) ∈ l → dget st k ≠ Some n) →
  NoDup ((λ kv, priority_of kv.2) <$> l) ∧ ∀ kv, kv ∈ l → dget st (priority_of kv.2) = None.
Proof.
  revert st. induction l as [|[n f] l IH]; intros st; cbn [foldE].
  { intros _ _ _. split; [constructor|by intros ? ?%not_elem_of_nil]. }
  intros (st1 & H1 & H2)%bind_Ok [Hn Hnd]%NoDup_cons Hfresh. unfold by_priority in H1. cbn [fst snd] in H1.
  destruct (dget st (priority_of f)) as [other|] eqn:Ho.
  { exfalso. apply bind_Ok in H1 as (u & H1 & _). destruct (String.eqb_spec other n) as [->|]; [|done].
    by apply (Hfresh n f (priority_of f)); [left|]. }
  injection H1 as <-. destruct (IH _ H2 Hnd) as [Hp Hnone].
  { intros m g k Hin Hk. destruct (decide (k = priority_of f)) as [->|Hne].
    - rewrite dget_dset_eq in Hk. injection Hk as ->. apply Hn, list_elem_of_fmap. by exists (m, g).
    - rewrite dget_dset_ne in Hk by done. by apply (Hfresh m g k); [right|]. }
  split.
  - cbn. apply NoDup_cons. split; [|done]. intros [[m g] [E Hin]]%list_elem_of_fmap.
    specialize (Hnone _ Hin). cbn in E, Hnone. rewrite <- E, dget_dset_eq in Hnone. done.
  - intros kv [->|Hin]%elem_of_cons; [done|]. specialize (Hnone _ Hin).
    destruct (decide (priority_of kv.2 = priority_of f)) as [E|Hne].
    + rewrite E, dget_dset_eq in Hnone. done.
    + by rewrite dget_dset_ne in Hnone.
Qed.

Lemma by_priority_Err l e :
  foldE by_priority [] l = Err e →
  ∃ a b fa fb, e = CSamePriority a b ∧ a ≠ b ∧ (a, fa) ∈ l ∧ (b, fb) ∈ l ∧ priority_of fa = priority_of fb.
Proof.
  intros (l1 & [b fb] & l2 & st & -> & Hst & He)%foldE_Err.
  assert (∀ k n, dget st k = Some n → ∃ f, (n, f) ∈ l1 ∧ priority_of f = k) as Hinv.
  { revert Hst. apply (foldE_inv (λ st, ∀ k n, dget st k = Some n → ∃ f, (n, f) ∈ l1 ∧ priority_of f = k)); [|done].
    intros st0 [n f] st1 Hin H0 H1 k m. unfold by_priority in H1. cbn [fst snd] in H1.
    destruct (dget st0 (priority_of f)) as [other|].
    - apply bind_Ok in H1 as (_ & _ & [= <-]). apply H0.
    - injection H1 as <-. destruct (decide (k = priority_of f)) as [->|Hne].
      + rewrite dget_dset_eq. intros [= <-]. by exists f.
      + rewrite dget_dset_ne by done. apply H0. }
  unfold by_priority in He. cbn [fst snd] in He. destruct (dget st (priority_of fb)) as [a|] eqn:Ha; [|done].
  destruct (Hinv _ _ Ha) as (fa & Hin & Hpr). destruct (String.eqb_spec a b); [done|]. injection He as <-.
  exists a, b, fa, fb. split_and!; [done|done|set_solver|set_solver|done].
Qed.

Lemma sorted_items_perm {V} (d : list (string * V)) : sorted_items d ≡ₚ d.
Proof. apply merge_sort_Permutation. Qed.

#[export] Instance priority_le_trans : Transitive priority_le.
Proof. intros a b c. unfold priority_le. lia. Qed.
#[export] Instance priority_le_total : Total priority_le.
Proof. intros a b. unfold priority_le. lia. Qed.

Lemma place_elem doc n f : doc_ok doc → (n, f) ∈ cp_fmus doc → place doc n = priority_of f.
Proof. intros Hd Hin. unfold place. by rewrite (dget_elem _ _ _ (dk_fmus _ Hd) Hin). Qed.

(** Sorting by distinct priorities. *)
Lemma order_sorted doc :
  doc_ok doc → NoDup ((λ kv, priority_of kv.2) <$> cp_fmus doc) →
  StronglySorted (λ a b, place doc a < place doc b) (merge_sort priority_le (cp_fmus doc)).*1.
Proof.
  intros Hd Hnd. pose proof (StronglySorted_merge_sort priority_le (cp_fmus doc)) as Hs.
  pose proof (merge_sort_Permutation priority_le (cp_fmus doc)) as Hp.
  rewrite <- Hp in Hnd. assert (∀ kv, kv ∈ merge_sort priority_le (cp_fmus doc) → kv ∈ cp_fmus doc) as Hin
    by (intros kv; by rewrite Hp). clear Hp.
  induction Hs as [|[n f] l _ IH Hall]; [constructor|]. cbn in Hnd. apply NoDup_cons in Hnd as [Hf Hnd]. cbn.
  constructor; [apply IH; [done|intros; apply Hin; by right]|].
  apply Forall_forall. intros m [[m' g] [-> Hm]]%list_elem_of_fmap. cbn.
  rewrite (place_elem doc n f), (place_elem doc m' g) by (done || apply Hin; set_solver).
  assert (priority_of f ≤ priority_of g) by exact (proj1 (Forall_forall _ _) Hall _ Hm).
  assert (priority_of f ≠ priority_of g); [|lia]. intros E. apply Hf, list_elem_of_fmap. by exists (m', g).
Qed.

(** An order that runs every publisher before its subscribers. *)
Lemma sorted_respects edges (key : string → Z) order :
  StronglySorted (λ a b, key a < key b) order → (∀ p s c, (p, s, c) ∈ edges → p ∈ order ∧ key p < key s) →
  respects edges order.
Proof.
  intros Hs He p s c l1 l2 Hin ->. destruct (He _ _ _ Hin) as [Hp Hlt].
  apply elem_of_app in Hp as [?|Hp]; [done|]. exfalso. clear He Hin. induction l1 as [|x l1 IH].
  - cbn in Hs. inversion Hs as [|? ? _ Hall]; subst. apply elem_of_cons in Hp as [->|Hp]; [lia|].
    pose proof (proj1 (Forall_forall _ _) Hall _ Hp). cbn in *. lia.
  - inversion Hs; subst. by apply IH.
Qed.

(** C8. The order of a Slot: when [_execution_order] accepts the priorities, the
    FMUs are ordered by strictly increasing priority and every zero-Latency
    route runs its publisher before its subscriber. A refusal is right: two FMUs
    that share a priority, a loop of zero-Latency routes node by node, or a
    route whose publisher does not come first, with an order of all FMUs that
    the routes allow. The search for a loop always ends. *)
Theorem execution_order_correct value doc :
  json_wf value = true → document value = Ok doc →
  match execution_order doc with
  | Ok order =>
      order ≡ₚ (cp_fmus doc).*1 ∧ StronglySorted (λ a b, place doc a < place doc b) order
      ∧ respects (same_slot doc) order
  | Err (CSamePriority a b) => a ≠ b ∧ a ∈ (cp_fmus doc).*1 ∧ b ∈ (cp_fmus doc).*1 ∧ place doc a = place doc b
  | Err (CCycle l n) => is_loop (same_slot doc) l n
  | Err (COrder c p s such_as) =>
      (p, s, c) ∈ same_slot doc ∧ place doc s ≤ place doc p
      ∧ ∃ order, such_as = Some order ∧ order ≡ₚ (cp_fmus doc).*1 ∧ respects (same_slot doc) order
  | Err _ => False
  end.
Proof.
  intros Hwf Hdoc. pose proof (document_ok _ _ Hwf Hdoc) as Hd. unfold execution_order.
  assert (∀ kv, kv ∈ sorted_items (cp_fmus doc) ↔ kv ∈ cp_fmus doc) as Hsort by (intros; by rewrite sorted_items_perm).
  assert (NoDup (sorted_items (cp_fmus doc)).*1) as Hnd by (rewrite sorted_items_perm; apply Hd).
  destruct (foldE by_priority [] _) as [st|e] eqn:Hp; mcbn; cycle 1.
  { apply by_priority_Err in Hp as (a & b & fa & fb & -> & Hab & Ha%Hsort & Hb%Hsort & Hpr).
    rewrite (place_elem _ _ _ Hd Ha), (place_elem _ _ _ Hd Hb).
    split_and!; [done|apply list_elem_of_fmap; by exists (a, fa)|apply list_elem_of_fmap; by exists (b, fb)|done]. }
  apply by_priority_Ok in Hp as [Hpr _]; [|done|done]. rewrite sorted_items_perm in Hpr.
  destruct (cycle_ok (sorted_items (cp_fmus doc)).*1 (same_slot doc) Hnd) as (r & -> & Hr).
  { intros p s c Hin. rewrite !sorted_items_perm. by eapply same_slot_declared. }
  destruct r as [[l n]|]; mcbn; [done|].
  destruct (foldE _ () (same_slot doc)) as [u|e] eqn:He; mcbn.
  - split_and!; [by rewrite merge_sort_Permutation|by apply order_sorted|].
    apply (sorted_respects _ (place doc)); [by apply order_sorted|]. intros p s c Hin.
    destruct (same_slot_declared _ _ _ _ Hd Hin) as [Hpub _]. split; [by rewrite merge_sort_Permutation|].
    destruct u. pose proof (foldE_each _ _ _ He _ Hin) as H. cbn in H.
    destruct (Z.leb_spec (place doc s) (place doc p)); [done|lia].
  - apply foldE_Err in He as (l1 & [[p s] c] & l2 & [] & E & _ & He). cbn in He.
    destruct (Z.leb_spec (place doc s) (place doc p)); [|done]. injection He as <-.
    split_and!; [rewrite E; set_solver|done|].
    destruct (topological_ok (same_slot doc) (length (cp_fmus doc)) (cp_fmus doc) []) as (o & Ho & Hperm & Hres).
    + done.
    + apply Hd.
    + intros ? _ ?%not_elem_of_nil. done.
    + intros p' s' c' Hin. right. exact (proj1 (same_slot_declared _ _ _ _ Hd Hin)).
    + by intros p0 s0 c0 [|? ?] k2.
    + done.
    + by exists o.
Qed.

(** ** A concrete coupling *)

Definition sample_fmu (period priority : Z) (start hold : list json) : json :=
  JObj [("step_period_ns", JInt period); ("priority", JInt priority); ("start", JArr start);
        ("hold", JArr hold)]%string.
Definition sample_route (capacity : Z) (overflow : string) (bind : list (string * string)) : json :=
  JObj [("capacity", JInt capacity); ("overflow", JStr overflow);
        ("bind", JObj ((λ kv, (kv.1, JStr kv.2)) <$> bind))]%string.
Definition sample_field (name variable : string) : json :=
  JObj [("name", JStr name); ("type", JStr "f64"); ("variable", JStr variable); ("unit", JNull)]%string.
Definition sample_channel (publisher : string) (latency : Z) (field : json) (subscriber : string) (route : json)
    : json :=
  JObj [("publisher", JStr publisher); ("latency_ns", JInt latency); ("fields", JArr [field]);
        ("subscribers", JObj [(subscriber, route)])]%string.

(** A plant, its controller and the loop over the two Channels between them. *)
Definition sample_coupling (loop_latency : Z) : json :=
  JObj [("sil_fmu_coupling", JInt 1); ("duration_ns", JInt 40);
        ("fmus", JObj [("plant", sample_fmu 10 1 [] []); ("control", sample_fmu 20 2 [] [])]);
        ("channels", JObj
          [("speed", sample_channel "plant" 0 (sample_field "v" "out") "control"
              (sample_route 2 "fail" [("v", "measured")]));
           ("force", sample_channel "control" loop_latency (sample_field "f" "cmd") "plant"
              (sample_route 1 "drop_newest" [("f", "in")]))])]%string.

Definition sample_doc (loop_latency : Z) : coupling :=
  match document (sample_coupling loop_latency) with Ok doc => doc | Err _ => mk_coupling JNull [] [] end.

Example sample_order : execution_order (sample_doc 10) = Ok ["plant"; "control"]%string.
Proof. vm_compute. reflexivity. Qed.
Example sample_loop :
  execution_order (sample_doc 0) = Err (CCycle [("control", "force"); ("plant", "speed")] "control")%string.
Proof. vm_compute. reflexivity. Qed.

Lemma execution_order_correct_witness :
  is_loop (same_slot (sample_doc 0)) [("control", "force"); ("plant", "speed")]%string "control".
Proof.
  pose proof (execution_order_correct (sample_coupling 0) (sample_doc 0) eq_refl eq_refl) as H.
  rewrite sample_loop in H. exact H.
Defined.
