(* ===== verification/CouplingTimeline.v ===== *)
(** * The plan of a route

    [_timeline] simulates the queue of a route, activation by activation. The
    reference here has no queue: a Message is delivered at the first activation
    of its subscriber that may see it ([delivery_at], in closed form), it is in
    the route until then, and it is refused if it finds the route full
    ([accepted]). [timeline_refines] shows that the simulation computes the
    reference; the bounds on the Messages a route holds follow from it. *)

From Stdlib Require Import ZArith Lia.
From S2P Require Import Prelude PyFloat Json SchemaTypes Pointer Manifest Coupling CouplingOrder.

(** ** Lists along a key *)

(** Along a monotone key, a range splits at any bound. *)
Lemma filter_range_split {A} (f : A → Z) (a b : Z) (l : list A) :
  StronglySorted (λ x y, f x ≤ f y) l → a ≤ b →
  filter (λ x, f x < b) l = filter (λ x, f x < a) l ++ filter (λ x, a ≤ f x < b) l.
Proof.
  intros Hs Hab. induction Hs as [|x l _ IH Hall]; [done|].
  destruct (decide (f x < a)) as [Hx|Hx].
  - rewrite !(filter_cons_True (λ x, f x < _)) by lia. rewrite (filter_cons_False (λ x, a ≤ f x < b)) by lia.
    by rewrite IH.
  - assert (∀ y, y ∈ l → ¬ f y < a) as Hl.
    { intros y Hy. pose proof (proj1 (Forall_forall _ _) Hall _ Hy). cbn in *. lia. }
    rewrite (filter_cons_False (λ x, f x < a)) by done. rewrite (filter_none (λ x, f x < a)) by by apply Forall_forall. rewrite app_nil_l.
    apply filter_ext_in. intros y [->|Hy]%elem_of_cons; [lia|]. specialize (Hl _ Hy). lia.
Qed.

Lemma foldr_max_snoc (l : list Z) x : 0 ≤ x → foldr Z.max 0 (l ++ [x]) = Z.max (foldr Z.max 0 l) x.
Proof. intros. induction l as [|y l IH]; cbn; [lia|]. rewrite IH. lia. Qed.

Lemma foldr_max_elem (l : list Z) x : x ∈ l → x ≤ foldr Z.max 0 l.
Proof. induction 1; cbn; lia. Qed.

Lemma foldr_max_bound (l : list Z) b : 0 ≤ b → (∀ x, x ∈ l → x ≤ b) → foldr Z.max 0 l ≤ b.
Proof.
  intros ?. induction l as [|x l IH]; cbn; intros Hb; [lia|].
  pose proof (Hb x ltac:(left)). assert (foldr Z.max 0 l ≤ b) by (apply IH; intros; apply Hb; by right). lia.
Qed.

Lemma sorted_impl {A} (R R' : relation A) (l : list A) :
  StronglySorted R l → (∀ x y, R x y → R' x y) → StronglySorted R' l.
Proof. induction 1 as [|x l _ IH Hall]; constructor; [auto|]. eapply Forall_impl; [exact Hall|auto]. Qed.

Lemma final_next {A B} `{EqDecision A} (x : A) (now was : list A) (a b c : B) `{!Decision (x ∈ now), !Decision (x ∈ was), !Decision (x ∈ was ++ now)} :
  (x ∈ now → a = b) →
  (if decide (x ∈ now) then a else if decide (x ∈ was) then b else c) = if decide (x ∈ was ++ now) then b else c.
Proof. intros Hab. repeat case_decide; set_solver. Qed.

(** A log that keeps its first [n] entries. *)
Lemma take_snoc_log {A} n (l : list A) x :
  (if bool_decide (length (take n l) < n)%nat then take n l ++ [x] else take n l) = take n (l ++ [x]).
Proof.
  rewrite length_take, take_app. case_bool_decide as Hn.
  - by rewrite (take_ge l), (take_ge [x]) by (cbn; lia).
  - replace (n - length l)%nat with O by lia. by rewrite take_0, app_nil_r.
Qed.

Lemma drop_snoc_log {A} n (l : list A) x :
  zlen (drop n (l ++ [x])) = zlen (drop n l) + (if bool_decide (length (take n l) < n)%nat then 0 else 1).
Proof.
  rewrite drop_app, length_take, zlen_app. f_equal. case_bool_decide.
  - rewrite drop_ge; [done|]. cbn. lia.
  - by replace (n - length l)%nat with O by lia.
Qed.

(** ** The reference *)

Section reference.
Context (publisher_period subscriber_period latency duration : Z).
Context (publisher_first : bool) (drop_above : option Z).
Abbreviation before := (before_drain publisher_first).

(** The first activation of the subscriber at or after the Message is visible;
    in a Slot both share, one that comes after the publication. *)
Definition delivery_at (p : Z) : Z :=
  if (latency =? 0) && negb publisher_first then (p / subscriber_period + 1) * subscriber_period
  else (p + latency + subscriber_period - 1) / subscriber_period * subscriber_period.

(** The Messages among [l] that are in the route when [p] has been published. *)
Definition in_route (l : list Z) (p : Z) : list Z :=
  filter (λ q, q ≤ p ∧ before (delivery_at q) p = true) l.

(** The publications the route takes, and the ones it refuses. *)
Definition accept (l : list Z) (p : Z) : list Z :=
  if match drop_above with Some n => n <=? zlen (in_route l p) | None => false end then l else l ++ [p].
Definition accepted (publications : list Z) : list Z := foldl accept [] publications.
Definition refused (publications : list Z) : list Z :=
  filter (λ p, p ∉ accepted publications) publications.

Definition occupancy (l : list Z) : Z := foldr Z.max 0 ((λ p, zlen (in_route l p)) <$> l).

(** What an activation takes and steps on. *)
Definition activation_at (l : list Z) (d : Z) : activation :=
  mk_activation d (zlen (filter (λ q, delivery_at q = d) l)) (last (filter (λ q, delivery_at q ≤ d) l)).

Definition shown_drains (drains : list Z) : list Z :=
  filter (λ d, d < latency + Z.lcm publisher_period subscriber_period) drains.

(** The route before the activation at [now], when [published] has been
    published and [l] is all that the route takes. *)
Definition line_at (l : list Z) (now : Z) (drains published rest : list Z) : line :=
  let acc := accepted published in
  let taken := filter (λ q, delivery_at q < now) acc in
  let shown := activation_at l <$> shown_drains drains in
  mk_line rest (filter (λ q, now ≤ delivery_at q) acc) (occupancy acc) (refused published)
    (take SHOWN_DELIVERIES ((λ q, mk_delivery q (delivery_at q)) <$> taken))
    (take SHOWN_ACTIVATIONS shown) (zlen (drop SHOWN_ACTIVATIONS shown)) (last taken)
    (if decide (duration - publisher_period ∈ taken) then Some (delivery_at (duration - publisher_period)) else None).

Definition reference_line : line :=
  let publications := steps_below duration publisher_period in
  line_at (accepted publications) duration (steps_below duration subscriber_period) publications [].

(** ** What the route takes *)

Lemma accepted_snoc l p : accepted (l ++ [p]) = accept (accepted l) p.
Proof. unfold accepted. by rewrite foldl_app. Qed.

Lemma accepted_elem l q : q ∈ accepted l → q ∈ l.
Proof.
  induction l as [|p l IH] using rev_ind; [done|]. rewrite accepted_snoc. unfold accept.
  case_match; set_solver.
Qed.

Lemma accepted_app l k : ∃ e, accepted (l ++ k) = accepted l ++ e ∧ ∀ q, q ∈ e → q ∈ k.
Proof.
  induction k as [|p k IH] using rev_ind; [exists []; by rewrite !app_nil_r|]. destruct IH as (e & He & Hin).
  rewrite app_assoc, accepted_snoc, He. unfold accept. case_match; [exists e|exists (e ++ [p])].
  - split; [done|set_solver].
  - rewrite app_assoc. split; [done|set_solver].
Qed.

Lemma accepted_sorted l : StronglySorted Z.lt l → StronglySorted Z.lt (accepted l).
Proof.
  induction l as [|p l IH] using rev_ind; intros Hs; [constructor|]. rewrite accepted_snoc.
  apply StronglySorted_app in Hs as (Hp & Hs & _). specialize (IH Hs). unfold accept. case_match; [done|].
  apply sorted_snoc; [done|]. apply Forall_forall. intros q Hq%accepted_elem. apply Hp; set_solver.
Qed.

Lemma refused_snoc l p :
  p ∉ l → refused (l ++ [p]) = if decide (p ∈ accepted (l ++ [p])) then refused l else refused l ++ [p].
Proof.
  intros Hp. unfold refused. rewrite filter_app. rewrite (filter_ext_in _ (λ q, q ∉ accepted l) l).
  - rewrite filter_cons, filter_nil. repeat case_decide; try done. by rewrite app_nil_r.
  - intros q Hq. assert (q ≠ p) by (by intros ->). rewrite accepted_snoc. unfold accept. case_match; set_solver.
Qed.

Hypothesis Hpp : 0 < publisher_period.
Hypothesis Hsp : 0 < subscriber_period.
Hypothesis Hlat : 0 ≤ latency.

(** ** Deliveries *)

Lemma before_spec d p : before d p = true ↔ p < d ∨ (p = d ∧ publisher_first = true).
Proof.
  unfold before_drain. rewrite orb_true_iff, andb_true_iff, Z.ltb_lt, Z.eqb_eq. done.
Qed.

Lemma before_mono d d' p p' : d ≤ d' → p' ≤ p → before d p = true → before d' p' = true.
Proof.
  rewrite !before_spec. intros ? ? [?|[-> ?]]; [left; lia|].
  destruct (decide (p' < d')); [by left|right; split; [lia|done]].
Qed.

Lemma div_le_mul a b k : 0 < b → (a + b - 1) / b ≤ k ↔ a ≤ k * b.
Proof.
  intros Hb. pose proof (Z.div_mod (a + b - 1) b ltac:(lia)). pose proof (Z.mod_pos_bound (a + b - 1) b Hb).
  split; nia.
Qed.

(** [delivery_at] is the first activation that sees the Message. *)
Lemma delivery_spec p k : delivery_at p ≤ k * subscriber_period
  ↔ p + latency ≤ k * subscriber_period ∧ before (k * subscriber_period) p = true.
Proof using Hsp Hlat.
  rewrite before_spec. unfold delivery_at.
  destruct (Z.eqb_spec latency 0) as [->|Hl]; destruct publisher_first; cbn [andb negb].
  - rewrite <- Z.mul_le_mono_pos_r, div_le_mul by lia. intuition lia.
  - rewrite <- Z.mul_le_mono_pos_r by lia. rewrite Z.add_1_r, Z.le_succ_l.
    pose proof (Z.div_mod p subscriber_period ltac:(lia)). pose proof (Z.mod_pos_bound p subscriber_period Hsp).
    split; [intros; split; [nia|left; nia]|]. intros [_ [?|[_ ?]]]; [nia|done].
  - rewrite <- Z.mul_le_mono_pos_r, div_le_mul by lia. intuition lia.
  - rewrite <- Z.mul_le_mono_pos_r, div_le_mul by lia. intuition lia.
Qed.

Lemma delivery_slot p : ∃ k, delivery_at p = k * subscriber_period.
Proof. unfold delivery_at. destruct (_ && _); by eexists. Qed.

Lemma delivery_after p : p + latency ≤ delivery_at p ∧ before (delivery_at p) p = true.
Proof using Hsp Hlat. destruct (delivery_slot p) as [k Hk]. rewrite Hk. apply delivery_spec. lia. Qed.

Lemma delivery_mono p q : p ≤ q → delivery_at p ≤ delivery_at q.
Proof using Hsp Hlat.
  intros Hpq. destruct (delivery_slot q) as [k Hk]. destruct (delivery_after q) as [H1 H2].
  rewrite Hk in *. apply delivery_spec. split; [lia|]. by apply (before_mono _ _ _ _ (Z.le_refl _) Hpq).
Qed.

(** The activations are the multiples of the period. *)
Lemma delivery_next p k : delivery_at p < (k + 1) * subscriber_period ↔ delivery_at p ≤ k * subscriber_period.
Proof using Hsp.
  destruct (delivery_slot p) as [j ->]. rewrite <- Z.mul_lt_mono_pos_r, <- Z.mul_le_mono_pos_r by lia. lia.
Qed.

(** ** Deliveries in order *)

Lemma deliveries_sorted l : StronglySorted Z.lt l → StronglySorted (λ p q, delivery_at p ≤ delivery_at q) l.
Proof using Hsp Hlat.
  induction 1 as [|p l _ IH Hall]; constructor; [done|]. eapply Forall_impl; [exact Hall|].
  intros q Hq. apply delivery_mono. cbn in Hq. lia.
Qed.

Lemma occupancy_snoc l p :
  Forall (λ q, q < p) l → occupancy (l ++ [p]) = Z.max (occupancy l) (zlen (in_route l p) + 1).
Proof using Hsp Hlat.
  intros Hl. rewrite Forall_forall in Hl. unfold occupancy. rewrite fmap_app. cbn.
  rewrite foldr_max_snoc by apply zlen_nonneg. f_equal.
  - f_equal. apply list_fmap_ext. intros i q Hq%list_elem_of_lookup_2. f_equal. unfold in_route.
    rewrite filter_app, filter_cons_False, app_nil_r; [done|]. specialize (Hl _ Hq). lia.
  - unfold in_route. rewrite filter_app, zlen_app. f_equal. rewrite filter_cons_True; [done|].
    split; [lia|]. apply delivery_after.
Qed.

(** ** The steps of the simulation *)

Lemma publish_line l k drains done_ rest p :
  StronglySorted Z.lt (done_ ++ [p]) → (∀ q, delivery_at q < k * subscriber_period → before (delivery_at q) p = false) →
  before (k * subscriber_period) p = true →
  publish drop_above p (line_at l (k * subscriber_period) drains done_ rest)
  = line_at l (k * subscriber_period) drains (done_ ++ [p]) rest.
Proof using All.
  intros Hs Hafter Hp. set (D := k * subscriber_period) in *.
  apply StronglySorted_app in Hs as (Hlt & Hs & _).
  assert (∀ q, q ∈ accepted done_ → q < p) as Hacc by (intros q Hq%accepted_elem; apply Hlt; set_solver).
  assert (in_route (accepted done_) p = filter (λ q, D ≤ delivery_at q) (accepted done_)) as Hroute.
  { apply filter_ext_in. intros q Hq. specialize (Hacc _ Hq). split.
    - intros [_ Hb]. destruct (decide (D ≤ delivery_at q)); [done|]. rewrite Hafter in Hb by lia. done.
    - intros Hd. split; [lia|]. by apply (before_mono D _ p p Hd). }
  assert (D ≤ delivery_at p) as HD.
  { destruct (decide (D ≤ delivery_at p)); [done|]. destruct (delivery_after p) as [_ Hb].
    rewrite Hafter in Hb by lia. done. }
  assert (p ∉ done_) as Hnew by (intros Hin; specialize (Hlt p p Hin ltac:(set_solver)); lia).
  unfold publish, line_at. rewrite (refused_snoc _ _ Hnew), accepted_snoc. unfold accept.
  rewrite Hroute. cbn [ln_pending ln_peak ln_dropped ln_deliveries ln_activations ln_not_listed ln_held ln_final ln_publications].
  case_match eqn:Hfull.
  - rewrite (decide_False (P := p ∈ _)) by (intros Hin; specialize (Hacc _ Hin); lia). done.
  - rewrite (decide_True (P := p ∈ _)) by set_solver.
    rewrite !filter_app, !(filter_cons_True (λ q, D ≤ delivery_at q)), !(filter_cons_False (λ q, delivery_at q < D)) by lia.
    rewrite !filter_nil, app_nil_r, occupancy_snoc by by apply Forall_forall. by rewrite Hroute, zlen_app.
Qed.

(** The publications up to the activation at [k]. *)
Lemma publish_before_line l k drains drain done_ rest X :
  StronglySorted Z.lt (done_ ++ rest) →
  (∀ p q, p ∈ rest → delivery_at q < k * subscriber_period → before (delivery_at q) p = false) →
  (∀ p, p ∈ rest → match drain with Some d => before d p | None => true end = before (k * subscriber_period) p) →
  ∃ done' rest', done_ ++ rest = done' ++ rest'
    ∧ publish_before publisher_first drop_above drain rest (line_at l (k * subscriber_period) drains done_ X)
      = line_at l (k * subscriber_period) drains done' rest'
    ∧ (∀ p, p ∈ done' → p ∈ done_ ∨ before (k * subscriber_period) p = true)
    ∧ (∀ p, p ∈ rest' → before (k * subscriber_period) p = false ∧ p ∈ rest).
Proof using All.
  revert done_. induction rest as [|p rest IH]; intros done_ Hs Hafter Hstop.
  { exists done_, []. split_and!; [done|done|by left|by intros ? ?%not_elem_of_nil]. }
  cbn [publish_before]. rewrite (Hstop p) by left. destruct (before _ p) eqn:Hp; cycle 1.
  { exists done_, (p :: rest). split_and!; [done|done|by left|]. intros q Hq. split; [|done].
    apply elem_of_cons in Hq as [->|Hq]; [done|]. apply StronglySorted_app in Hs as (_ & _ & Hs).
    inversion Hs as [|? ? _ Hall]; subst. pose proof (proj1 (Forall_forall _ _) Hall _ Hq) as Hlt. cbn in Hlt.
    destruct (before _ q) eqn:Hq'; [|done]. by rewrite (before_mono _ _ q p (Z.le_refl _) ltac:(lia) Hq') in Hp. }
  rewrite (cons_middle p done_ rest), app_assoc in Hs. rewrite publish_line; [|by apply StronglySorted_app in Hs as (_ & ? & _)|by intros; apply Hafter; [left|]|done].
  destruct (IH (done_ ++ [p]) Hs) as (done' & rest' & E & Hrun & Hd & Hr).
  { intros; apply Hafter; [by right|done]. }
  { intros; apply Hstop; by right. }
  exists done', rest'. split_and!; [by rewrite <- E, <- app_assoc|done| |].
  - intros q [Hq|Hq]%Hd; [|by right]. apply elem_of_app in Hq as [Hq|[->|Hq]%elem_of_cons]; [by left|by right|].
    by apply not_elem_of_nil in Hq.
  - intros q [Hq Hin]%Hr. split; [done|by right].
Qed.

(** The Messages one activation takes. *)
Lemma take_visible_split D pending taken s :
  StronglySorted (λ p q, p + latency ≤ q + latency) pending →
  take_visible publisher_period latency duration D pending taken s
  = (set_pending (filter (λ q, D < q + latency) pending)
       (foldl (λ s q, take_one publisher_period duration D q s) s (filter (λ q, q + latency ≤ D) pending)),
     taken + zlen (filter (λ q, q + latency ≤ D) pending)).
Proof.
  intros Hs. revert taken s. induction Hs as [|p l _ IH Hall]; intros taken s; cbn [take_visible].
  { by rewrite !filter_nil, Z.add_0_r. }
  destruct (Z.leb_spec (p + latency) D) as [Hp|Hp].
  - rewrite (filter_cons_True (λ q, q + latency ≤ D)), (filter_cons_False (λ q, D < q + latency)) by lia.
    rewrite IH, zlen_cons. f_equal. lia.
  - rewrite Forall_forall in Hall.
    rewrite (filter_cons_False (λ q, q + latency ≤ D)), (filter_cons_True (λ q, D < q + latency)) by lia.
    rewrite (filter_none (λ q, q + latency ≤ D)), (filter_all (λ q, D < q + latency)); [by rewrite Z.add_0_r| |];
      apply Forall_forall; intros q Hq; specialize (Hall q Hq); cbn in Hall; lia.
Qed.

Lemma take_all_line D l s logged :
  ln_deliveries s = take SHOWN_DELIVERIES logged →
  foldl (λ s q, take_one publisher_period duration D q s) s l
  = mk_line (ln_publications s) (ln_pending s) (ln_peak s) (ln_dropped s)
      (take SHOWN_DELIVERIES (logged ++ ((λ q, mk_delivery q D) <$> l))) (ln_activations s) (ln_not_listed s)
      (match last l with Some q => Some q | None => ln_held s end)
      (if decide (duration - publisher_period ∈ l) then Some D else ln_final s).
Proof using All.
  intros Hlog. induction l as [|p l IH] using rev_ind.
  { cbn [foldl last fmap list_fmap]. rewrite app_nil_r, decide_False by apply not_elem_of_nil. rewrite <- Hlog. by destruct s. }
  rewrite foldl_app. cbn [foldl]. rewrite IH. unfold take_one.
  cbn [ln_pending ln_peak ln_dropped ln_deliveries ln_activations ln_not_listed ln_held ln_final ln_publications].
  rewrite last_snoc, fmap_app, app_assoc, take_snoc_log. f_equal.
  destruct (Z.eqb_spec p (duration - publisher_period)) as [->|Hne].
  - by rewrite decide_True by set_solver.
  - destruct (decide (_ ∈ l)) as [Hin|Hin]; destruct (decide (_ ∈ l ++ [p])); set_solver.
Qed.

(** What an activation takes of the route. *)
Lemma visible_now k (l : list Z) :
  (∀ q, q ∈ l → before (k * subscriber_period) q = true) →
  filter (λ q, q + latency ≤ k * subscriber_period) (filter (λ q, k * subscriber_period ≤ delivery_at q) l)
    = filter (λ q, delivery_at q = k * subscriber_period) l
  ∧ filter (λ q, k * subscriber_period < q + latency) (filter (λ q, k * subscriber_period ≤ delivery_at q) l)
    = filter (λ q, (k + 1) * subscriber_period ≤ delivery_at q) l.
Proof using All.
  intros Hb. split; rewrite list_filter_filter; apply filter_ext_in; intros q Hq;
    pose proof (delivery_spec q k) as Hd; rewrite (Hb q Hq) in Hd; pose proof (delivery_next q k); intuition lia.
Qed.

(** An activation of the reference: what was taken before, and what it takes. *)
Lemma taken_next k (l : list Z) :
  StronglySorted Z.lt l →
  filter (λ q, delivery_at q < (k + 1) * subscriber_period) l
  = filter (λ q, delivery_at q < k * subscriber_period) l ++ filter (λ q, delivery_at q = k * subscriber_period) l.
Proof using All.
  intros Hs. rewrite (filter_range_split delivery_at (k * subscriber_period)) by (lia || by apply deliveries_sorted).
  f_equal. apply filter_ext_in. intros q _. pose proof (delivery_next q k). lia.
Qed.

Lemma activation_prefix k (l e : list Z) :
  (∀ q, q ∈ e → before (k * subscriber_period) q = false) →
  activation_at (l ++ e) (k * subscriber_period) = activation_at l (k * subscriber_period).
Proof using All.
  intros He. unfold activation_at. rewrite !filter_app.
  assert (∀ q, q ∈ e → ¬ delivery_at q ≤ k * subscriber_period) as Hlate.
  { intros q Hq [_ Hb]%delivery_spec. by rewrite He in Hb. }
  rewrite (filter_none (λ q, delivery_at q = _) e), (filter_none (λ q, delivery_at q ≤ _) e), !app_nil_r; [done| |];
    apply Forall_forall; intros q Hq; specialize (Hlate q Hq); lia.
Qed.

(** The line after the Messages of an activation are taken and it is listed. *)
Lemma listed_line all k drains done_ rest :
  StronglySorted Z.lt (accepted done_) →
  activation_at all (k * subscriber_period) = activation_at (accepted done_) (k * subscriber_period) →
  list_activation publisher_period subscriber_period latency (k * subscriber_period)
    (zlen (filter (λ q, delivery_at q = k * subscriber_period) (accepted done_)))
    (set_pending (filter (λ q, (k + 1) * subscriber_period ≤ delivery_at q) (accepted done_))
      (foldl (λ s q, take_one publisher_period duration (k * subscriber_period) q s)
        (line_at all (k * subscriber_period) drains done_ rest)
        (filter (λ q, delivery_at q = k * subscriber_period) (accepted done_))))
  = line_at all ((k + 1) * subscriber_period) (drains ++ [k * subscriber_period]) done_ rest.
Proof using All.
  intros Hs Hact. set (D := k * subscriber_period) in *. set (acc := accepted done_) in *.
  set (now := filter (λ q, delivery_at q = D) acc). set (was := filter (λ q, delivery_at q < D) acc).
  rewrite (take_all_line D _ _ ((λ q, mk_delivery q (delivery_at q)) <$> was)) by done.
  assert ((λ q, mk_delivery q D) <$> now = (λ q, mk_delivery q (delivery_at q)) <$> now) as ->.
  { apply list_fmap_ext. intros i q [-> _]%list_elem_of_lookup_2%list_elem_of_filter. done. }
  unfold list_activation, set_pending, line_at.
  cbn [ln_pending ln_peak ln_dropped ln_deliveries ln_activations ln_not_listed ln_held ln_final ln_publications].
  fold acc. pose proof (taken_next k acc Hs) as Hnext. fold D now was in Hnext. fold was. rewrite Hnext, fmap_app, last_app.
  assert (mk_activation D (zlen now) (match last now with Some q => Some q | None => last was end)
          = activation_at all D) as ->.
  { rewrite Hact. unfold activation_at. f_equal. rewrite <- last_app, <- Hnext. f_equal.
    apply filter_ext_in. intros q _. apply delivery_next. }
  assert (duration - publisher_period ∈ now → Some D = Some (delivery_at (duration - publisher_period))) as Hfinal.
  { by intros [-> _]%list_elem_of_filter. }
  unfold shown_drains. rewrite filter_app, filter_cons, filter_nil.
  destruct (Z.ltb_spec D (latency + Z.lcm publisher_period subscriber_period)); cycle 1.
  - rewrite (decide_False (P := D < _)), app_nil_r by lia. f_equal. by apply final_next.
  - rewrite (decide_True (P := D < _)) by done. rewrite fmap_app. cbn [fmap list_fmap].
    rewrite <- take_snoc_log, drop_snoc_log. case_bool_decide; rewrite ?Z.add_0_r; f_equal; by apply final_next.
Qed.

(** One activation of the subscriber in the simulation. *)
Lemma drain_line k drains done_ rest :
  StronglySorted Z.lt (done_ ++ rest) →
  (∀ p q, p ∈ rest → delivery_at q < k * subscriber_period → before (delivery_at q) p = false) →
  (∀ p, p ∈ done_ → before (k * subscriber_period) p = true) →
  ∃ done' rest', done_ ++ rest = done' ++ rest'
    ∧ drain_step publisher_period subscriber_period latency duration publisher_first drop_above
        (line_at (accepted (done_ ++ rest)) (k * subscriber_period) drains done_ rest) (k * subscriber_period)
      = line_at (accepted (done_ ++ rest)) ((k + 1) * subscriber_period) (drains ++ [k * subscriber_period]) done' rest'
    ∧ (∀ p q, p ∈ rest' → delivery_at q < (k + 1) * subscriber_period → before (delivery_at q) p = false)
    ∧ (∀ p, p ∈ done' → before ((k + 1) * subscriber_period) p = true).
Proof using All.
  intros Hs Hafter Hdone. set (all := accepted (done_ ++ rest)). set (D := k * subscriber_period) in *.
  destruct (publish_before_line all k drains (Some D) done_ rest rest Hs Hafter ltac:(done)) as (done' & rest' & E & Hrun & Hd & Hr).
  fold D in Hrun, Hd, Hr. exists done', rest'. assert (∀ p, p ∈ done' → before D p = true) as Hd' by (intros p [Hp|Hp]%Hd; [by apply Hdone|done]).
  assert (StronglySorted Z.lt (accepted done')) as Hacc.
  { apply accepted_sorted. rewrite E in Hs. by apply StronglySorted_app in Hs as (_ & ? & _). }
  split; [done|]. split; cycle 1; [split|].
  - intros p q Hp Hq. apply Hr in Hp as [Hp _]. apply delivery_next in Hq.
    destruct (before (delivery_at q) p) eqn:Hb; [|done]. by rewrite (before_mono _ D p p Hq (Z.le_refl p) Hb) in Hp.
  - intros p Hp. apply (before_mono D _ p p); [lia|lia|auto].
  - unfold drain_step. cbn [ln_publications line_at]. fold D. rewrite Hrun. clear Hrun.
    destruct (visible_now k (accepted done')) as [Hnow Hlater]; [by intros q Hq%accepted_elem; apply Hd'|].
    rewrite take_visible_split; cycle 1.
    { apply sorted_filter. eapply sorted_impl; [exact Hacc|]. intros; cbn in *; lia. }
    cbn [ln_pending line_at]. fold D in Hnow, Hlater |- *. rewrite Hnow, Hlater.
    apply listed_line; [done|]. destruct (accepted_app done' rest') as (e & He & Hin).
    unfold all. rewrite E, He. apply activation_prefix. intros q Hq. by apply Hr, Hin.
Qed.

(** The activations of a whole Run. *)
Lemma drains_line pubs (n : nat) :
  StronglySorted Z.lt pubs → (∀ p, p ∈ pubs → 0 ≤ p) →
  let drains := (λ k, k * subscriber_period) <$> seqZ 0 (Z.of_nat n) in
  ∃ done_ rest, pubs = done_ ++ rest
    ∧ foldl (drain_step publisher_period subscriber_period latency duration publisher_first drop_above)
        (line_at (accepted pubs) 0 [] [] pubs) drains
      = line_at (accepted pubs) (Z.of_nat n * subscriber_period) drains done_ rest
    ∧ (∀ p q, p ∈ rest → delivery_at q < Z.of_nat n * subscriber_period → before (delivery_at q) p = false)
    ∧ (∀ p, p ∈ done_ → before (Z.of_nat n * subscriber_period) p = true).
Proof using All.
  intros Hs Hpos. induction n as [|n IH]; cbn zeta.
  - exists [], pubs. split_and!; [done|done| |by intros ? ?%not_elem_of_nil]. intros p q Hp Hq.
    apply not_true_iff_false. rewrite before_spec. specialize (Hpos p Hp). lia.
  - destruct IH as (done_ & rest & E & Hrun & Hafter & Hdone). rewrite seqZ_S, fmap_app, foldl_app, Hrun.
    cbn [foldl fmap list_fmap]. rewrite Z.add_0_l.
    rewrite E in Hs. destruct (drain_line (Z.of_nat n) ((λ k, k * subscriber_period) <$> seqZ 0 (Z.of_nat n)) done_ rest)
      as (done' & rest' & E' & Hstep & H1 & H2); [done..|].
    exists done', rest'. rewrite <- E in Hstep, E'. rewrite Hstep.
    replace (Z.of_nat (S n)) with (Z.of_nat n + 1) by lia. done.
Qed.
End reference.

Lemma line_at_start pp sp latency duration publisher_first drop_above l pubs :
  line_at pp sp latency duration publisher_first drop_above l 0 [] [] pubs = mk_line pubs [] 0 [] [] [] 0 None None.
Proof. done. Qed.

(** The last activation is the last one before the Duration. *)
Lemma line_at_end pp sp latency duration publisher_first drop_above l n drains pubs :
  0 < sp → (∀ j, n ≤ j ↔ duration ≤ j * sp) →
  line_at pp sp latency duration publisher_first drop_above l (n * sp) drains pubs []
  = line_at pp sp latency duration publisher_first drop_above l duration drains pubs [].
Proof.
  intros Hsp Hn. unfold line_at. set (acc := accepted _ _ _ _ pubs).
  assert (∀ q, delivery_at sp latency publisher_first q < n * sp ↔ delivery_at sp latency publisher_first q < duration) as Hq.
  { intros q. destruct (delivery_slot sp latency publisher_first q) as [j ->]. specialize (Hn j). nia. }
  by rewrite (filter_ext_in (λ q, _ q < n * sp) (λ q, delivery_at sp latency publisher_first q < duration) acc),
    (filter_ext_in (λ q, n * sp ≤ _) (λ q, duration ≤ delivery_at sp latency publisher_first q) acc)
    by (intros q _; specialize (Hq q); lia).
Qed.

Lemma steps_below_elem stop step p :
  0 < step → p ∈ steps_below stop step ↔ 0 ≤ p < stop ∧ ∃ k, p = k * step.
Proof.
  intros Hstep. unfold steps_below. rewrite list_elem_of_fmap. setoid_rewrite elem_of_seqZ.
  split.
  - intros (k & -> & Hk). pose proof (div_le_mul stop step k Hstep). split; [nia|by exists k].
  - intros (Hp & k & ->). pose proof (div_le_mul stop step k Hstep). exists k. split; [done|nia].
Qed.

Lemma steps_below_sorted stop step : 0 < step → StronglySorted Z.lt (steps_below stop step).
Proof.
  intros Hstep. unfold steps_below. generalize ((stop + step - 1) / step). intros n.
  destruct (decide (n ≤ 0)); [by rewrite seqZ_nil; [constructor|]|].
  rewrite <- (Z2Nat.id n) by lia. clear -Hstep. generalize (Z.to_nat n). clear n. intros n.
  induction n as [|n IH]; [constructor|]. rewrite seqZ_S, fmap_app. apply sorted_snoc; [done|].
  apply Forall_forall. intros x (k & -> & Hk%elem_of_seqZ)%list_elem_of_fmap. cbn. nia.
Qed.

Lemma timeline_reference publisher_period subscriber_period latency duration publisher_first drop_above :
  0 < publisher_period → 0 < subscriber_period → 0 ≤ latency → 0 ≤ duration →
  timeline publisher_period subscriber_period latency duration publisher_first drop_above
  = reference_line publisher_period subscriber_period latency duration publisher_first drop_above.
Proof.
  intros Hpp Hsp Hlat Hdur. unfold timeline, reference_line. set (pubs := steps_below duration publisher_period).
  assert (StronglySorted Z.lt pubs) as Hs by by apply steps_below_sorted.
  assert (∀ p, p ∈ pubs → 0 ≤ p < duration) as Hpos by by intros p [? _]%steps_below_elem.
  pose proof (div_le_mul duration subscriber_period) as Hn.
  set (n := (duration + subscriber_period - 1) / subscriber_period) in *.
  assert (0 ≤ n) as Hn0 by (apply Z.div_pos; lia).
  destruct (drains_line publisher_period subscriber_period latency duration publisher_first drop_above Hpp Hsp Hlat
    pubs (Z.to_nat n) Hs) as (done_ & rest & E & Hrun & Hafter & Hdone); [by intros p [? _]%Hpos|].
  rewrite Z2Nat.id in Hrun, Hafter, Hdone by done.
  change (_ <$> seqZ 0 n) with (steps_below duration subscriber_period) in Hrun.
  rewrite <- (line_at_start publisher_period subscriber_period latency duration publisher_first drop_above
    (accepted subscriber_period latency publisher_first drop_above pubs) pubs), Hrun.
  rewrite E in Hs. destruct (publish_before_line publisher_period subscriber_period latency duration publisher_first
    drop_above Hpp Hsp Hlat (accepted subscriber_period latency publisher_first drop_above pubs) n
    (steps_below duration subscriber_period) None done_ rest rest Hs Hafter) as (done' & rest' & E' & Hlast & _ & Hr).
  { intros p Hp. symmetry. apply before_spec. left. destruct (Hpos p) as [_ ?]; [rewrite E; set_solver|].
    specialize (Hn n Hsp). lia. }
  etrans; [exact Hlast|]. clear Hlast. destruct rest' as [|p rest'].
  - rewrite app_nil_r, <- E in E'. rewrite <- E'. apply line_at_end; [lia|]. intros j. rewrite Hn by done. lia.
  - exfalso. destruct (Hr p) as [Hb%not_true_iff_false Hp]; [left|]. apply Hb, before_spec. left.
    destruct (Hpos p) as [_ ?]; [rewrite E; set_solver|]. specialize (Hn n Hsp). lia.
Qed.

(** C7. The plan of a route is what its routing rules say: simulating the queue
    gives, for every publisher and subscriber period, Latency, Duration, order
    in a shared Slot and overflow policy, exactly the deliveries, the held
    inputs of the activations, the refused Messages, the final delivery and the
    peak that follow from delivering each Message the route takes at the first
    activation that sees it. *)
Theorem timeline_refines publisher_period subscriber_period latency duration publisher_first drop_above :
  0 < publisher_period → 0 < subscriber_period → 0 ≤ latency → 0 ≤ duration →
  timeline publisher_period subscriber_period latency duration publisher_first drop_above
  = reference_line publisher_period subscriber_period latency duration publisher_first drop_above.
Proof. apply timeline_reference. Qed.

Lemma timeline_refines_witness :
  timeline 10 20 5 80 true (Some 2) = reference_line 10 20 5 80 true (Some 2)
  ∧ ln_dropped (timeline 10 20 5 80 true (Some 2)) ≠ [].
Proof. split; [apply (timeline_refines 10 20 5 80 true (Some 2)); lia|vm_compute; done]. Defined.
