(* ===== verification/CouplingManifest.v ===== *)
(** * The Manifest of a coupling

    [coupled_manifest] authors a Manifest with the builder of Manifest.v.
    [expected_manifest] states what it is to hold: one inline Channel per
    Channel of the document with a Schema of its own, one Process per FMU, each
    with its period, priority, routes and publications. [coupled_manifest_Ok]
    shows the builder either refuses or holds exactly that, in range; the
    document it writes then passes the check of ManifestValidate.v. *)

From Stdlib Require Import ZArith Lia.
From S2P Require Import Prelude PyFloat Json SchemaTypes Schema Pointer Recording Manifest ManifestValidate ManifestAgree Coupling CouplingOrder.

(** ** What the Manifest is to hold *)

Definition text_of (v : json) : string := match v with JStr s => s | _ => ""%string end.

(** The routes into one FMU, by Channel. *)
Definition coupled_routes (doc : coupling) (name : string) : list (string * route_decl) :=
  omap (λ '(channel, c), (channel,.) <$> dget (cd_subscribers c) name) (subscribed_channels doc name).

Section expected.
Context (resolve : string → string).

Definition expected_channel (kv : string * channel_decl) : string * channel :=
  (kv.1, mk_channel kv.1 (Some (cd_latency kv.2)) None []).
Definition expected_route (kv : string * route_decl) : route :=
  mk_route kv.1 (int_of (ro_capacity kv.2)) (text_of (ro_overflow kv.2)).
(** The Participant of an FMU that has an archive. *)
Definition expected_process (doc : coupling) (archives : list (string * string)) (kv : string * fmu_decl)
    : string * participant :=
  (kv.1, Process (command resolve doc (default ""%string (dget archives kv.1)) kv.1 kv.2) (period_of kv.2)
    (expected_route <$> coupled_routes doc kv.1) (published_channels doc kv.1).*1 (priority_of kv.2)
    false "reject" None).
Definition expected_manifest (doc : coupling) (archives : list (string * string)) : manifest :=
  mk_manifest (duration_of doc) 0 ((λ kv, (kv.1, channel_schema kv.2)) <$> cp_channels doc)
    (expected_channel <$> sorted_items (cp_channels doc))
    (expected_process doc archives <$> sorted_items (cp_fmus doc)).
End expected.

(** Every FMU of the document has an archive. *)
Definition archived (doc : coupling) (archives : list (string * string)) : Prop :=
  ∀ n f, (n, f) ∈ cp_fmus doc → is_Some (dget archives n).

Definition route_ranges (r : route_decl) : Prop :=
  ro_capacity r = JInt (int_of (ro_capacity r)) ∧ pos_ok (int_of (ro_capacity r))
  ∧ ∃ s, ro_overflow r = JStr s ∧ s ∈ OVERFLOW_POLICIES.

(** The integers of the document are in the ranges of the Manifest. *)
Record ranges_ok (doc : coupling) : Prop := {
  rk_duration : cp_duration doc = JInt (duration_of doc) ∧ pos_ok (duration_of doc);
  rk_latency n c : (n, c) ∈ cp_channels doc → u64_ok (cd_latency c);
  rk_period n f : (n, f) ∈ cp_fmus doc → fm_period f = JInt (period_of f) ∧ pos_ok (period_of f);
  rk_priority n f : (n, f) ∈ cp_fmus doc → fm_priority f = JInt (priority_of f) ∧ i32_ok (priority_of f);
  rk_route n f r : (n, f) ∈ cp_fmus doc → r ∈ coupled_routes doc n → route_ranges r.2;
}.

(** ** The builder on the arguments of a coupling *)

Lemma each_strs l w : each mstring (JStr <$> l) w = Ok l.
Proof.
  unfold each, enumerate. generalize O. induction l as [|x l IH]; intros i; [done|]. cbn.
  rewrite IH. done.
Qed.

Lemma marray_strs l w : marray (strs l) w = Ok (JStr <$> l).
Proof. done. Qed.

Lemma channel_list_strs l participant key : channel_list (strs l) participant key = Ok l.
Proof. unfold channel_list, strs. mcbn. cbn [marray]. mcbn. apply each_strs. Qed.

Lemma omap_fmap_out {A B C} (f : A → option B) (g : B → C) (l : list A) :
  omap (λ x, g <$> f x) l = g <$> omap f l.
Proof. induction l as [|x l IH]; [done|]. cbn. destruct (f x); cbn; by rewrite IH. Qed.

Lemma routes_of_args doc name :
  routes_of doc name
  = RoutesList ((λ kv, RouteArg (JStr kv.1) (ro_capacity kv.2) (ro_overflow kv.2)) <$> coupled_routes doc name).
Proof.
  unfold routes_of, coupled_routes. f_equal. rewrite <- omap_fmap_out.
  induction (subscribed_channels doc name) as [|[ch c] l IH]; [done|]. cbn. rewrite IH. by destruct (dget _ name).
Qed.

Lemma subscriber_route_Ok (kv : string * route_decl) w r :
  subscriber_route (RouteArg (JStr kv.1) (ro_capacity kv.2) (ro_overflow kv.2)) w = Ok r →
  r = expected_route kv ∧ route_ranges kv.2.
Proof.
  cbn [subscriber_route]. intros (ch & [= <-]%mstring_Ok & H)%bind_Ok.
  apply bind_Ok in H as (cap & [Hcap Hrange]%minteger_Ok & (ov & Hov%mstring_Ok & H)%bind_Ok).
  apply bind_Ok in H as (_ & _ & (_ & Hp%raise_if_Ok%negb_false_iff%bool_decide_eq_true & [= <-])%bind_Ok).
  unfold expected_route, route_ranges. rewrite Hcap, Hov. cbn. split; [done|].
  split; [done|]. split; [exact Hrange|by exists ov].
Qed.

Lemma subscriber_routes_args (l : list (string * route_decl)) participant subs :
  subscriber_routes (RoutesList ((λ kv, RouteArg (JStr kv.1) (ro_capacity kv.2) (ro_overflow kv.2)) <$> l)) participant
    = Ok subs →
  subs = expected_route <$> l ∧ Forall (λ kv, route_ranges kv.2) l.
Proof.
  cbn. unfold enumerate. generalize O. revert subs. induction l as [|kv l IH]; intros subs i; cbn.
  { intros [= <-]. split; [done|constructor]. }
  intros (r & [-> Hr]%subscriber_route_Ok & (rs & Hrs & [= <-])%bind_Ok)%bind_Ok. apply IH in Hrs as [-> Hl].
  split; [done|by constructor].
Qed.

Lemma add_coupled_channel_Ok m kv m' :
  add_coupled_channel m kv = Ok m' →
  m' = set_channels m (m_channels m ++ [expected_channel kv]) ∧ u64_ok (cd_latency kv.2).
Proof.
  unfold add_coupled_channel, add_channel. cbn [mstring]. mcbn.
  intros (_ & Hnew%raise_if_Ok & (_ & _ & (lat & Hlat & H)%bind_Ok)%bind_Ok)%bind_Ok.
  apply dmem_false in Hnew. change (bool_decide ("inline"%string ∈ TRANSPORTS)) with true in H. mcbn.
  unfold opt_integer in Hlat. apply bind_Ok in Hlat as (z & [[= <-] Hz]%minteger_Ok & [= <-]).
  cbn in H. injection H as <-. rewrite dset_keys_new by done. split; [done|exact Hz].
Qed.

Lemma lift_manifest_Ok {A} (r : made A) a : lift_manifest r = Ok a → r = Ok a.
Proof. destruct r; [by intros [= ->]|done]. Qed.

Lemma add_coupled_fmu_Ok resolve doc archives m kv m' :
  add_coupled_fmu resolve doc archives m kv = Ok m' →
  m' = set_participants m (m_participants m ++ [expected_process resolve doc archives kv])
  ∧ is_Some (dget archives kv.1)
  ∧ (fm_period kv.2 = JInt (period_of kv.2) ∧ pos_ok (period_of kv.2))
  ∧ (fm_priority kv.2 = JInt (priority_of kv.2) ∧ i32_ok (priority_of kv.2))
  ∧ Forall (λ r, route_ranges r.2) (coupled_routes doc kv.1).
Proof.
  unfold add_coupled_fmu, archive_of. destruct (dget archives kv.1) as [path|] eqn:Hpath; [|done].
  cbn [mbind result_bind]. intros H%lift_manifest_Ok. revert H.
  unfold add_process. cbn [mstring]. mcbn.
  rewrite marray_strs. mcbn. intros (u & _ & H)%bind_Ok. rewrite each_strs in H. cbn [mbind result_bind] in H.
  apply bind_Ok in H as (period & [Hp Hpr]%minteger_Ok & (subs & Hs & H)%bind_Ok).
  rewrite routes_of_args in Hs. apply subscriber_routes_args in Hs as [-> Hr].
  rewrite channel_list_strs in H. cbn [mbind result_bind] in H. apply bind_Ok in H as (prio & [Hq Hqr]%minteger_Ok & H).
  change (bool_decide ("reject"%string ∈ SLEEP_POLICIES)) with true in H. cbn in H.
  unfold add_participant in H. apply bind_Ok in H as (_ & Hnew%raise_if_Ok%dmem_false & [= <-]).
  rewrite dset_keys_new by done. unfold expected_process, period_of, priority_of. rewrite Hp, Hq.
  cbn [fst snd]. rewrite Hpath. split; [done|]. split; [by eexists|done].
Qed.


(** A loop of the builder that appends one entry per item. *)
Lemma builder_appends {E A B} (f : manifest → A → result E manifest) (get : manifest → list B)
    (set : manifest → list B → manifest) (g : A → B) (P : A → Prop) :
  (∀ m x m', f m x = Ok m' → m' = set m (get m ++ [g x]) ∧ P x) →
  (∀ m l k, set (set m l) k = set m k) → (∀ m l, get (set m l) = l) → (∀ m, set m (get m) = m) →
  ∀ l m m', foldE f m l = Ok m' → m' = set m (get m ++ (g <$> l)) ∧ Forall P l.
Proof.
  intros Hf Hset Hget Hid l. induction l as [|x l IH]; intros m m'; cbn [foldE].
  { intros [= <-]. cbn. by rewrite app_nil_r, Hid. }
  intros (m1 & [-> Hx]%Hf & [-> Hl]%IH)%bind_Ok. rewrite Hset, Hget, <- app_assoc. split; [done|by constructor].
Qed.

Lemma add_schema_items_Ok items m m' :
  add_schema_items m items = (m', None) → m' = set_schemas m (m_schemas m ++ items).
Proof.
  revert m. induction items as [|[name s] items IH]; intros m; cbn [add_schema_items].
  { intros [= <-]. rewrite app_nil_r. by destruct m. }
  destruct (mobject s [TKey name] ≫= _) as [u|e] eqn:H; [|done]. intros ->%IH.
  apply bind_Ok in H as (_ & _ & (_ & Hnew%raise_if_Ok%dmem_false & _)%bind_Ok).
  cbn [set_schemas m_schemas]. by rewrite dset_keys_new, <- app_assoc by done.
Qed.

Lemma coupled_manifest_Ok resolve doc archives m :
  coupled_manifest resolve doc archives = Ok m →
  m = expected_manifest resolve doc archives ∧ archived doc archives ∧ ranges_ok doc
  ∧ manifest_ok m ∧ refs_ok m ∧ single_publisher m.
Proof.
  unfold coupled_manifest. intros (m2 & H%lift_manifest_Ok & (m3 & H3 & H4)%bind_Ok)%bind_Ok.
  apply bind_Ok in H as (m0 & H0 & (m1 & H1 & H2)%bind_Ok).
  apply bind_Ok in H4 as (d & Hd%lift_manifest_Ok & [= ->]). unfold to_doc in Hd. apply bind_Ok in Hd as ([] & Hv & _).
  destruct (add_schemas m0 (schemas doc)) as [m1' [e|]] eqn:Hs; [done|]. injection H1 as ->.
  assert (manifest_ok m) as Hok.
  { eapply foldE_inv; [|eapply foldE_inv; [| |exact H2]|exact H3].
    - intros a x a1 _ Ha (path & _ & Hf%lift_manifest_Ok)%bind_Ok. exact (add_process_ok _ _ _ _ _ _ _ _ _ _ _ Ha Hf).
    - intros a x a1 _ Ha Hf. unfold add_coupled_channel in Hf. exact (add_channel_ok _ _ _ _ _ _ _ Ha Hf).
    - replace m1 with (add_schemas m0 (schemas doc)).1 by by rewrite Hs. by eapply add_schemas_ok, new_manifest_ok. }
  apply validate_builder_Ok in Hv as [Hrefs Hsingle]; [|apply Hok].
  unfold new_manifest in H0. apply bind_Ok in H0 as (dur & [Hdur Hrange]%minteger_Ok & H0). cbn in H0. injection H0 as <-.
  apply add_schema_items_Ok in Hs as ->.
  apply (builder_appends _ m_channels set_channels expected_channel _ add_coupled_channel_Ok) in H2 as [-> Hlat]; [|done|done|by intros []].
  apply (builder_appends _ m_participants set_participants _ _ (add_coupled_fmu_Ok resolve doc archives)) in H3 as [Hm Hfmus]; [|done|done|by intros []].
  rewrite Forall_forall in Hlat. rewrite Forall_forall in Hfmus. split; [|split; [|split; [|done]]].
  - rewrite Hm. unfold expected_manifest, duration_of. by rewrite Hdur.
  - intros n f Hf. apply (Hfmus (n, f)). by rewrite sorted_items_perm.
  - split.
    + unfold duration_of. rewrite Hdur. done.
    + intros n c Hc. apply (Hlat (n, c)). by rewrite sorted_items_perm.
    + intros n f Hf. apply (Hfmus (n, f)). by rewrite sorted_items_perm.
    + intros n f Hf. apply (Hfmus (n, f)). by rewrite sorted_items_perm.
    + intros n f r Hf Hr. destruct (Hfmus (n, f)) as (_ & _ & _ & Hall); [by rewrite sorted_items_perm|].
      exact (proj1 (Forall_forall _ _) Hall r Hr).
Qed.

(** ** The topology of the Run *)

Lemma elem_of_sorted {V B} (g : string * V → B) (d : list (string * V)) y :
  y ∈ g <$> sorted_items d ↔ ∃ x, y = g x ∧ x ∈ d.
Proof. rewrite list_elem_of_fmap. by setoid_rewrite sorted_items_perm. Qed.

Lemma subscribed_elem doc name ch c :
  (ch, c) ∈ subscribed_channels doc name ↔ (ch, c) ∈ cp_channels doc ∧ name ∈ (cd_subscribers c).*1.
Proof.
  unfold subscribed_channels. rewrite sorted_items_perm, list_elem_of_filter. cbn. rewrite dmem_true. tauto.
Qed.

Lemma published_elem doc name ch :
  ch ∈ (published_channels doc name).*1 ↔ ∃ c, (ch, c) ∈ cp_channels doc ∧ cd_publisher c = name.
Proof.
  unfold published_channels. rewrite list_elem_of_fmap. setoid_rewrite sorted_items_perm.
  setoid_rewrite list_elem_of_filter. split.
  - intros ([ch' c] & -> & Hp & Hin). by exists c.
  - intros (c & Hin & Hp). by exists (ch, c).
Qed.

Lemma coupled_routes_elem doc name ch r :
  doc_ok doc →
  (ch, r) ∈ coupled_routes doc name ↔ ∃ c, (ch, c) ∈ cp_channels doc ∧ (name, r) ∈ cd_subscribers c.
Proof.
  intros Hd. unfold coupled_routes. rewrite list_elem_of_omap. split.
  - intros ([ch' c] & [Hin _]%subscribed_elem & Hr). destruct (dget (cd_subscribers c) name) as [r'|] eqn:Hg; [|done].
    injection Hr as -> ->. exists c. split; [done|by apply dget_Some].
  - intros (c & Hin & Hr). exists (ch, c). destruct (dk_subscribers _ Hd _ _ Hin) as [Hnd _].
    rewrite (dget_elem _ _ _ Hnd Hr). split; [|done]. apply subscribed_elem. split; [done|].
    apply list_elem_of_fmap. by exists (name, r).
Qed.

(** C27. The Manifest of a coupling has the coupling's topology: when it is
    authored, its Duration and Channels are the document's, its Participants are
    the FMUs with their archive's command, their period and priority, an FMU publishes exactly the
    Channels that name it as publisher and has exactly the routes that name it
    as subscriber, and every Channel has one publisher. *)
Theorem coupled_manifest_topology resolve value doc archives m :
  json_wf value = true → document value = Ok doc → coupled_manifest resolve doc archives = Ok m →
  JInt (m_duration_ns m) = cp_duration doc
  ∧ (∀ n c, (n, c) ∈ m_channels m ↔
       ∃ d, (n, d) ∈ cp_channels doc ∧ c = mk_channel n (Some (cd_latency d)) None [] ∧ u64_ok (cd_latency d))
  ∧ (∀ n p, (n, p) ∈ m_participants m ↔
       ∃ f path subs pubs, (n, f) ∈ cp_fmus doc ∧ dget archives n = Some path
         ∧ p = Process (command resolve doc path n f) (period_of f) subs pubs (priority_of f) false "reject" None
         ∧ fm_period f = JInt (period_of f) ∧ fm_priority f = JInt (priority_of f)
         ∧ subs = (λ kv, mk_route kv.1 (int_of (ro_capacity kv.2)) (text_of (ro_overflow kv.2))) <$> coupled_routes doc n
         ∧ pubs = (published_channels doc n).*1)
  ∧ (∀ n ch, ch ∈ (published_channels doc n).*1 ↔ ∃ c, (ch, c) ∈ cp_channels doc ∧ cd_publisher c = n)
  ∧ (∀ n ch r, (ch, r) ∈ coupled_routes doc n ↔ ∃ c, (ch, c) ∈ cp_channels doc ∧ (n, r) ∈ cd_subscribers c)
  ∧ manifest_ok m ∧ refs_ok m ∧ single_publisher m.
Proof.
  intros Hwf Hdoc%(document_ok _ _ Hwf) Hm. apply coupled_manifest_Ok in Hm as (-> & Ha & Hr & Hok & Hrefs & Hone).
  split; [symmetry; apply Hr|]. split; [|split; [|split; [|split; [|done]]]].
  - intros n c. cbn [m_channels m_participants expected_manifest]. rewrite elem_of_sorted. split.
    + intros ([n' d] & [= -> ->] & Hd). exists d. split_and!; [done|done|by eapply rk_latency].
    + intros (d & Hd & -> & _). by exists (n, d).
  - intros n p. cbn [m_channels m_participants expected_manifest]. rewrite elem_of_sorted. split.
    + intros ([n' f] & [= -> ->] & Hf). destruct (Ha _ _ Hf) as [path Hpath]. cbn [fst snd]. rewrite Hpath.
      eexists f, path, _, _. split_and!; [done|done|done| | |done|done].
      * by eapply rk_period.
      * by eapply rk_priority.
    + intros (f & path & subs & pubs & Hf & Hpath & -> & _ & _ & -> & ->). exists (n, f).
      unfold expected_process. cbn [fst snd]. by rewrite Hpath.
  - intros. apply published_elem.
  - intros. by apply coupled_routes_elem.
Qed.

Definition sample_resolve (path : string) : string := ("/fmus/" ++ path)%string.
Definition sample_archives : list (string * string) := [("plant", "plant.fmu"); ("control", "control.fmu")]%string.
Definition sample_manifest : manifest := expected_manifest sample_resolve (sample_doc 10) sample_archives.

Example sample_commands :
  (λ np, match np.2 with Process cmd _ _ _ _ _ _ _ => cmd | _ => [] end) <$> m_participants sample_manifest
  = [["python3"; "-m"; "sil.fmi"; "/fmus/control.fmu"; "--bind"; "speed:v=measured"; "--bind"; "force:f=cmd"];
     ["python3"; "-m"; "sil.fmi"; "/fmus/plant.fmu"; "--bind"; "force:f=in"; "--bind"; "speed:v=out"]]%string.
Proof. vm_compute. reflexivity. Qed.

Lemma coupled_manifest_topology_witness :
  coupled_manifest sample_resolve (sample_doc 10) sample_archives = Ok sample_manifest
  ∧ single_publisher sample_manifest.
Proof.
  assert (coupled_manifest sample_resolve (sample_doc 10) sample_archives = Ok sample_manifest) as Hm
    by (vm_compute; reflexivity).
  split; [exact Hm|].
  destruct (coupled_manifest_topology sample_resolve (sample_coupling 10) (sample_doc 10) sample_archives
    sample_manifest eq_refl eq_refl Hm) as (_ & _ & _ & _ & _ & _ & _ & Hone). exact Hone.
Defined.

(** ** The authored document passes the check *)

(** No field of the document has a null count. *)
Definition no_null_fields (doc : coupling) : Prop :=
  ∀ n c f, (n, c) ∈ cp_channels doc → f ∈ cd_fields c → fl_count f ≠ Some JNull.

Lemma channel_schema_no_null c :
  (∀ f, f ∈ cd_fields c → fl_count f ≠ Some JNull) → no_null_count (channel_schema c).
Proof.
  intros Hnull l f [= <-] (fd & -> & Hin)%list_elem_of_fmap. specialize (Hnull _ Hin). cbn.
  by destruct (fl_count fd) as [v|].
Qed.

(** The Manifest of a coupling passes the check of a Run: whatever the file
    system holds, every problem it reports is about an artifact or an Arena too
    large for [size_t], provided no field of the document has a null count. *)
Theorem coupled_document_checks base_dir join is_file can_read can_execute env_path digest_of suffix_of
    summary_of loads resolve value doc archives m :
  document value = Ok doc → coupled_manifest resolve doc archives = Ok m →
  no_null_fields doc →
  ∀ pr, pr ∈ check_document base_dir join is_file can_read can_execute env_path digest_of suffix_of
               summary_of loads (manifest_doc m) → environmental (pr_what pr) = true.
Proof.
  intros _ (-> & _ & _ & Hok & Hrefs & Hone)%coupled_manifest_Ok Hnull pr Hpr.
  assert (∀ n s, (n, s) ∈ m_schemas (expected_manifest resolve doc archives) → no_null_count s) as Hn.
  { intros n s ([n' c] & [= -> ->] & Hc)%list_elem_of_fmap. apply channel_schema_no_null. intros f. by eapply Hnull. }
  exact (proj1 (Forall_forall _ _) (check_document_quiet base_dir join is_file can_read can_execute env_path digest_of
    suffix_of summary_of loads _ Hok Hn Hrefs Hone) pr Hpr).
Qed.

Lemma coupled_document_checks_witness :
  map pr_what (demo_check (manifest_doc sample_manifest)) = [CNotOnPath "python3"; CNotOnPath "python3"]
  ∧ ∀ pr, pr ∈ demo_check (manifest_doc sample_manifest) → environmental (pr_what pr) = true.
Proof.
  split; [vm_compute; reflexivity|].
  refine (coupled_document_checks _ _ _ _ _ _ _ _ _ _ sample_resolve (sample_coupling 10) (sample_doc 10)
    sample_archives sample_manifest eq_refl _ _).
  - vm_compute. reflexivity.
  - intros n c f Hc. vm_compute in Hc.
    repeat (apply elem_of_cons in Hc as [[= -> ->]|Hc]; [by intros ->%list_elem_of_singleton|]).
    by apply elem_of_nil in Hc.
Defined.
