(* ===== verification/CouplingPlan.v ===== *)
(** * Couplings that are accepted

    What the check of a coupling guarantees of the Run it plans: no route with
    overflow [fail] ever holds more Messages than its capacity, and every input
    of every FMU has exactly one declared source that fits it. *)

From Stdlib Require Import ZArith Lia.
From S2P Require Import Prelude PyFloat Json SchemaTypes Schema Pointer Recording Manifest ManifestValidate ManifestAgree Coupling CouplingOrder CouplingTimeline CouplingManifest.

(** ** How many Messages a route can hold *)

(** Values at least [step] apart in a window. *)
Lemma spaced_count (l : list Z) step a b :
  0 < step → StronglySorted (λ x y, x + step ≤ y) l → (∀ x, x ∈ l → a ≤ x ≤ b) → l ≠ [] →
  (zlen l - 1) * step ≤ b - a.
Proof.
  intros Hstep Hs. revert a. induction Hs as [|x l _ IH Hall]; intros a Hin Hne; [done|].
  pose proof (Hin x ltac:(left)). rewrite zlen_cons. destruct l as [|y l]; [unfold zlen; cbn; lia|].
  rewrite Forall_forall in Hall. specialize (IH (x + step)).
  assert ((zlen (y :: l) - 1) * step ≤ b - (x + step)); [|lia]. apply IH; [|done].
  intros z Hz. specialize (Hall z Hz). cbn in Hall. specialize (Hin z ltac:(by right)). lia.
Qed.

Section occupancy.
Context (publisher_period subscriber_period latency : Z) (publisher_first : bool).
Hypothesis Hpp : 0 < publisher_period.
Hypothesis Hsp : 0 < subscriber_period.
Hypothesis Hlat : 0 ≤ latency.

Lemma delivery_soon q t :
  before_drain publisher_first (delivery_at subscriber_period latency publisher_first q) t = true →
  t - q ≤ latency + subscriber_period - 1.
Proof using Hsp Hlat.
  rewrite before_spec. unfold delivery_at.
  pose proof (Z.div_mod q subscriber_period ltac:(lia)). pose proof (Z.mod_pos_bound q subscriber_period Hsp).
  pose proof (Z.div_mod (q + latency + subscriber_period - 1) subscriber_period ltac:(lia)).
  pose proof (Z.mod_pos_bound (q + latency + subscriber_period - 1) subscriber_period Hsp).
  destruct (Z.eqb_spec latency 0) as [->|Hl], publisher_first; cbn [andb negb]; intros [Ht|[Ht Hf]]; try done; lia.
Qed.

(** The Messages in a route at one time were published within its Latency and
    one subscriber period. *)
Lemma in_route_window l t :
  StronglySorted Z.lt l → (∀ q, q ∈ l → ∃ k, q = k * publisher_period) →
  zlen (in_route subscriber_period latency publisher_first l t)
  ≤ (latency + subscriber_period - 1) / publisher_period + 1.
Proof using All.
  intros Hs Hk. set (r := in_route _ _ _ l t). destruct (decide (r = [])) as [->|Hne].
  { unfold zlen. cbn. assert (0 ≤ (latency + subscriber_period - 1) / publisher_period) by (apply Z.div_pos; lia). lia. }
  enough (zlen r - 1 ≤ (latency + subscriber_period - 1) / publisher_period) by lia.
  apply Z.div_le_lower_bound; [done|]. rewrite Z.mul_comm.
  assert (∀ q, q ∈ r → q ∈ l ∧ t - (latency + subscriber_period - 1) ≤ q ≤ t) as Hr.
  { intros q [[Hq Hb%delivery_soon] Hin]%list_elem_of_filter. split; [done|lia]. }
  pose proof (spaced_count r publisher_period (t - (latency + subscriber_period - 1)) t Hpp) as Hc.
  etrans; [apply Hc; [|by intros q [_ ?]%Hr|done]|lia].
  assert (StronglySorted Z.lt r) as Hs' by by apply sorted_filter.
  assert (∀ q, q ∈ r → ∃ k, q = k * publisher_period) as Hk' by (intros q [Hq _]%Hr; auto).
  clear -Hs' Hk' Hpp. induction Hs' as [|x r _ IH Hall]; constructor.
  - apply IH. intros; apply Hk'; by right.
  - rewrite Forall_forall in *. intros y Hy. specialize (Hall y Hy). cbn in Hall.
    destruct (Hk' x ltac:(left)) as [i ->]. destruct (Hk' y ltac:(by right)) as [j ->].
    cbn. assert (i < j) by nia. nia.
Qed.

(** Between two publications the route only empties. *)
Lemma in_route_mono (l : list Z) p t :
  p ≤ t → (∀ q, q ∈ l → q ≤ t → q ≤ p) →
  zlen (in_route subscriber_period latency publisher_first l t)
  ≤ zlen (in_route subscriber_period latency publisher_first l p).
Proof.
  intros Hpt Hl. unfold zlen. apply inj_le, submseteq_length, sublist_submseteq. unfold in_route.
  set (P x q := q ≤ x ∧ before_drain publisher_first (delivery_at subscriber_period latency publisher_first q) x = true).
  change (filter (P t) l `sublist_of` filter (P p) l).
  rewrite (filter_ext_in (P t) (λ q, P t q ∧ P p q) l).
  - rewrite <- list_filter_filter. apply sublist_filter.
  - intros q Hq. split; [|tauto]. intros [H1 H2]. split; [done|].
    split; [auto|]. by apply (before_mono _ _ _ t p (Z.le_refl _)).
Qed.

(** A route that refuses Messages above a capacity never holds more. *)
Lemma in_route_capacity cap l t :
  0 ≤ cap → StronglySorted Z.lt l →
  zlen (in_route subscriber_period latency publisher_first
          (accepted subscriber_period latency publisher_first (Some cap) l) t) ≤ cap.
Proof using All.
  intros Hcap. induction l as [|p l IH] using rev_ind; intros Hs; [done|].
  apply StronglySorted_app in Hs as (Hlt & Hs & _). specialize (IH Hs). rewrite accepted_snoc. unfold accept.
  set (acc := accepted _ _ _ _ l) in *.
  destruct (Z.leb_spec cap (zlen (in_route subscriber_period latency publisher_first acc p))) as [Hf|Hf]; [done|].
  unfold in_route at 1. rewrite filter_app, zlen_app, filter_cons, filter_nil. case_decide as Hp; cycle 1.
  { rewrite Z.add_0_r. exact IH. }
  assert (zlen (in_route subscriber_period latency publisher_first acc t)
          ≤ zlen (in_route subscriber_period latency publisher_first acc p)) as Hle.
  { apply in_route_mono; [apply Hp|]. intros q Hq%accepted_elem _. specialize (Hlt q p Hq ltac:(set_solver)). lia. }
  change (zlen [p]) with 1. unfold in_route in *. lia.
Qed.

Lemma accepted_None l : accepted subscriber_period latency publisher_first None l = l.
Proof. induction l as [|p l IH] using rev_ind; [done|]. by rewrite accepted_snoc, IH. Qed.

Lemma refused_None l : refused subscriber_period latency publisher_first None l = [].
Proof. unfold refused. rewrite accepted_None. apply filter_none, Forall_forall. tauto. Qed.

(** The peak bounds the route at every time of the Run. *)
Lemma in_route_peak duration t :
  0 ≤ t < duration →
  let publications := steps_below duration publisher_period in
  zlen (in_route subscriber_period latency publisher_first publications t)
  ≤ occupancy subscriber_period latency publisher_first publications.
Proof using All.
  intros Ht. cbn zeta. set (p := t / publisher_period * publisher_period).
  pose proof (Z.div_mod t publisher_period ltac:(lia)). pose proof (Z.mod_pos_bound t publisher_period Hpp).
  assert (0 ≤ t / publisher_period) by (apply Z.div_pos; lia).
  etrans; [apply (in_route_mono _ p)|].
  - unfold p. lia.
  - intros q [_ [k ->]]%steps_below_elem Hq; [|done]. unfold p. apply Z.mul_le_mono_nonneg_r; [lia|].
    by apply Z.div_le_lower_bound; [|rewrite Z.mul_comm].
  - apply foldr_max_elem, list_elem_of_fmap. exists p. split; [done|]. apply steps_below_elem; [done|].
    split; [unfold p; nia|by eexists].
Qed.
End occupancy.

(** ** Accepted couplings *)

Lemma check_Ok resolve inspect value archives c :
  check resolve inspect value archives = Ok c →
  document value = Ok (ck_doc c) ∧ coupled_manifest resolve (ck_doc c) archives = Ok (ck_manifest c)
  ∧ ck_connections c = connections (ck_doc c)
  ∧ (∀ k, k ∈ ck_connections c → require_compatible (ck_variables c) k = Ok ())
  ∧ (∀ n f, (n, f) ∈ cp_fmus (ck_doc c) → require_sources n f (ck_connections c) (variables_of (ck_variables c) n) = Ok ())
  ∧ (∃ order, execution_order (ck_doc c) = Ok order ∧ ck_plan c = plan_of (ck_doc c) order (ck_variables c))
  ∧ require_route_bounds (ck_plan c) = Ok ().
Proof.
  unfold check. intros (doc & Hdoc & ([] & _ & (m & Hm & ([] & _ & H)%bind_Ok)%bind_Ok)%bind_Ok)%bind_Ok.
  apply bind_Ok in H as (reports & _ & ([] & Hc & ([] & Hs & ([] & _ & H)%bind_Ok)%bind_Ok)%bind_Ok).
  apply bind_Ok in H as (order & Ho & ([] & Hb & [= <-])%bind_Ok).
  cbn [ck_doc ck_manifest ck_connections ck_variables ck_plan]. split_and!; [done..| | | |done].
  - apply (foldE_each _ _ _ Hc).
  - intros n f Hf. apply (foldE_each _ _ _ Hs (n, f) Hf).
  - by exists order.
Qed.

Lemma fmu_in_elem doc n : doc_ok doc → n ∈ (cp_fmus doc).*1 → (n, fmu_in doc n) ∈ cp_fmus doc.
Proof.
  intros Hd [[n' f] [-> Hin]]%list_elem_of_fmap. unfold fmu_in. by rewrite (dget_elem _ _ _ (dk_fmus _ Hd) Hin).
Qed.

(** The parameters of the route of a declared subscriber. *)
Definition route_publications (doc : coupling) (d : channel_decl) : list Z :=
  steps_below (duration_of doc) (period_of (fmu_in doc (cd_publisher d))).
Definition route_first (doc : coupling) (d : channel_decl) (s : string) : bool :=
  priority_of (fmu_in doc (cd_publisher d)) <? priority_of (fmu_in doc s).
Definition route_drop (r : route_decl) : option Z :=
  if py_eq (ro_overflow r) (JStr "drop_newest") then Some (int_of (ro_capacity r)) else None.

Lemma plan_route doc order all ch d s r :
  (ch, d) ∈ cp_channels doc → (s, r) ∈ cd_subscribers d →
  route_plan_of doc all ch d s r ∈ pl_routes (plan_of doc order all).
Proof.
  intros Hch Hs. cbn [plan_of pl_routes]. apply elem_of_concat.
  exists ((λ '(s, r), route_plan_of doc all ch d s r) <$> sorted_items (cd_subscribers d)).
  split; [apply elem_of_sorted; by exists (s, r)|apply elem_of_sorted; by exists (ch, d)].
Qed.

(** What an accepted coupling has of one route. *)
Lemma route_facts resolve doc archives m ch d s r :
  doc_ok doc → coupled_manifest resolve doc archives = Ok m →
  (ch, d) ∈ cp_channels doc → (s, r) ∈ cd_subscribers d →
  0 < period_of (fmu_in doc (cd_publisher d)) ∧ 0 < period_of (fmu_in doc s) ∧ 0 ≤ cd_latency d
  ∧ 0 < duration_of doc ∧ 0 < int_of (ro_capacity r)
  ∧ (ro_overflow r = JStr "fail" ∨ ro_overflow r = JStr "drop_newest").
Proof.
  intros Hd (_ & _ & Hk & _)%coupled_manifest_Ok Hch Hs.
  assert (s ∈ (cd_subscribers d).*1) as Hin by (apply list_elem_of_fmap; by exists (s, r)).
  apply (dk_subscribers _ Hd _ _ Hch) in Hin. pose proof (fmu_in_elem _ _ Hd Hin) as Hsub.
  pose proof (fmu_in_elem _ _ Hd (dk_publisher _ Hd _ _ Hch)) as Hpub.
  assert ((ch, r) ∈ coupled_routes doc s) as Hr by (apply coupled_routes_elem; [done|by exists d]).
  destruct (rk_route _ Hk _ _ _ Hsub Hr) as (_ & Hcap & pol & Hov & Hpol).
  pose proof (proj2 (rk_period _ Hk _ _ Hsub)). pose proof (proj2 (rk_period _ Hk _ _ Hpub)).
  pose proof (rk_latency _ Hk _ _ Hch). pose proof (proj2 (rk_duration _ Hk)). unfold pos_ok, u64_ok in *. cbn in Hcap, Hov.
  split_and!; try lia. rewrite Hov. unfold OVERFLOW_POLICIES in Hpol. set_solver.
Qed.

(** C14. No planned route overflows: in a coupling the check accepts, at every time
    of the Run every route holds at most its capacity, and at most one Message
    per publisher period of its Latency plus one subscriber period; a route with
    overflow [fail] takes every Message that is published. *)
Theorem checked_route_bounds resolve inspect value archives c ch d s r :
  json_wf value = true → check resolve inspect value archives = Ok c →
  (ch, d) ∈ cp_channels (ck_doc c) → (s, r) ∈ cd_subscribers d →
  let period := period_of (fmu_in (ck_doc c) s) in
  let first := route_first (ck_doc c) d s in
  let taken := accepted period (cd_latency d) first (route_drop r) (route_publications (ck_doc c) d) in
  (∀ t, 0 ≤ t < duration_of (ck_doc c) →
     zlen (in_route period (cd_latency d) first taken t) ≤ int_of (ro_capacity r)
     ∧ zlen (in_route period (cd_latency d) first taken t)
       ≤ (cd_latency d + period - 1) / period_of (fmu_in (ck_doc c) (cd_publisher d)) + 1)
  ∧ (ro_overflow r = JStr "fail" → taken = route_publications (ck_doc c) d).
Proof.
  intros Hwf (Hdoc & Hm & _ & _ & _ & (order & _ & Hplan) & Hb)%check_Ok Hch Hs period first taken.
  pose proof (document_ok _ _ Hwf Hdoc) as Hd. set (doc := ck_doc c) in *.
  destruct (route_facts _ _ _ _ _ _ _ _ Hd Hm Hch Hs) as (Hpp & Hsp & Hlat & Hdur & Hcap & Hov).
  rewrite Hplan in Hb. assert (StronglySorted Z.lt (route_publications doc d)) as Hsort by by apply steps_below_sorted.
  split; cycle 1.
  { intros E. unfold taken, route_drop. rewrite E. apply accepted_None. }
  intros t Ht. split; cycle 1.
  { apply in_route_window; [done..|by apply accepted_sorted|].
    intros q Hq%accepted_elem. by apply steps_below_elem in Hq as [_ ?]. }
  destruct Hov as [E|E]; unfold taken, route_drop; rewrite E.
  - change (py_eq _ _) with false. cbn iota. rewrite accepted_None. etrans; [by apply in_route_peak|].
    pose proof (foldE_each _ _ _ Hb _ (plan_route doc order (ck_variables c) ch d s r Hch Hs)) as Hr.
    apply raise_if_Ok in Hr. cbn [route_plan_of rl_overflow rl_capacity rl_line] in Hr. rewrite E in Hr.
    rewrite timeline_reference in Hr by lia. apply Z.ltb_ge in Hr. rewrite <- Hr. cbn [ln_peak reference_line line_at].
    change (py_eq (JStr "fail") (JStr "drop_newest")) with false. cbn iota. by rewrite accepted_None.
  - change (py_eq _ _) with true. cbn iota. apply (in_route_capacity _ _ _ _ Hpp Hsp Hlat); [lia|done].
Qed.

(** ** A coupling with its FMUs *)

Definition sample_variable (name causality : string) : variable :=
  mk_variable name "Float64" causality (Some "0"%string) None (JArr []) [].

(** The reports of the two FMUs of [sample_coupling]. *)
Definition sample_inspect (path : string) (_ : mapping) : report :=
  mk_report [] true
    (if String.eqb path "plant.fmu" then [sample_variable "in" "input"; sample_variable "out" "output"]
     else [sample_variable "measured" "input"; sample_variable "cmd" "output"])%string.

Definition sample_checked : checked :=
  match check sample_resolve sample_inspect (sample_coupling 10) sample_archives with
  | Ok c => c
  | Err _ => mk_checked (sample_doc 10) sample_manifest [] [] (mk_plan 0 [] [] [] [])
  end.

Example sample_accepted :
  check sample_resolve sample_inspect (sample_coupling 10) sample_archives = Ok sample_checked.
Proof. vm_compute. reflexivity. Qed.

Definition sample_speed : channel_decl :=
  default (mk_channel_decl "" 0 [] []) (dget (cp_channels (sample_doc 10)) "speed"%string).
Definition sample_speed_route : route_decl :=
  default (mk_route_decl JNull JNull []) (dget (cd_subscribers sample_speed) "control"%string).

Lemma checked_route_bounds_witness :
  zlen (in_route 20 0 true (steps_below 40 10) 20) = 2
  ∧ ∀ t, 0 ≤ t < 40 → zlen (in_route 20 0 true (steps_below 40 10) t) ≤ 2.
Proof.
  split; [vm_compute; reflexivity|]. intros t Ht.
  assert (("speed"%string, sample_speed) ∈ cp_channels (ck_doc sample_checked)) as Hc by (vm_compute; left).
  assert (("control"%string, sample_speed_route) ∈ cd_subscribers sample_speed) as Hr by (vm_compute; left).
  destruct (checked_route_bounds sample_resolve sample_inspect (sample_coupling 10) sample_archives sample_checked
    "speed" sample_speed "control" sample_speed_route eq_refl sample_accepted Hc Hr) as [Hb _].
  exact (proj1 (Hb t Ht)).
Defined.

(** ** The sources of inputs *)

Lemma connections_elem doc k :
  k ∈ connections doc ↔ ∃ ch d f s r, (ch, d) ∈ cp_channels doc ∧ f ∈ cd_fields d ∧ (s, r) ∈ cd_subscribers d
    ∧ dget (ro_bind r) (fl_name f) = Some (cn_input k)
    ∧ k = mk_connection ch (fl_name f) (cd_publisher d) (fl_variable f) s (cn_input k) (fl_unit f).
Proof.
  unfold connections. rewrite elem_of_concat. split.
  - intros (l & Hl & ([ch d] & -> & Hd)%elem_of_sorted). apply elem_of_concat in Hl as (l & Hl & (f & -> & Hf)%list_elem_of_fmap).
    unfold field_connections in Hl. apply list_elem_of_omap in Hl as ([s r] & Hs & Hk). rewrite sorted_items_perm in Hs.
    destruct (dget (ro_bind r) (fl_name f)) as [i|] eqn:Hi; [|done]. injection Hk as <-. by exists ch, d, f, s, r.
  - intros (ch & d & f & s & r & Hd & Hf & Hs & Hi & ->). cbn in Hi.
    exists (concat (field_connections ch d <$> cd_fields d)). split; [|apply elem_of_sorted; by exists (ch, d)].
    apply elem_of_concat. exists (field_connections ch d f). split; [|apply list_elem_of_fmap; by exists f].
    apply list_elem_of_omap. exists (s, r). rewrite sorted_items_perm, Hi. done.
Qed.

(** A connection joins an output to an input that takes its values. *)
Definition fits (all : list (string * variables)) (k : connection) : Prop :=
  ∃ output taken, dget (variables_of all (cn_publisher k)) (cn_output k) = Some output
    ∧ dget (variables_of all (cn_subscriber k)) (cn_input k) = Some taken
    ∧ va_causality output = "output"%string ∧ va_causality taken = "input"%string
    ∧ va_type output = va_type taken ∧ py_eq (va_dimensions output) (va_dimensions taken) = true
    ∧ cn_unit k = va_unit output ∧ va_unit taken = va_unit output.

Lemma variable_of_Ok vs fmu name v : variable_of vs fmu name = Ok v ↔ dget vs name = Some v.
Proof. unfold variable_of. destruct (dget vs name); split; congruence. Qed.

Lemma require_compatible_Ok all k : require_compatible all k = Ok () ↔ fits all k.
Proof.
  unfold require_compatible, fits. rewrite bind_Ok. setoid_rewrite bind_Ok. setoid_rewrite variable_of_Ok. split.
  - intros (output & Ho & taken & Ht & H). exists output, taken. inv_ok.
    repeat match goal with
    | H : negb _ = false |- _ => apply negb_false_iff in H
    | H : String.eqb _ _ = true |- _ => apply String.eqb_eq in H
    | H : bool_decide _ = true |- _ => apply bool_decide_eq_true in H
    end. done.
  - intros (output & taken & Ho & Ht & H1 & H2 & H3 & H4 & H5 & H6). exists output. split; [done|]. exists taken. split; [done|].
    rewrite H1, H2, H3, H4, H5, H6, String.eqb_refl. cbn. rewrite !bool_decide_eq_true_2 by done. done.
Qed.

(** The connections into one FMU, by input. *)
Definition fed_by (name : string) (cs : list connection) : list (string * connection) :=
  (λ k, (cn_input k, k)) <$> filter (λ k, cn_subscriber k = name) cs.

Lemma feed_Ok name cs fed0 fed :
  foldE (feed name) fed0 cs = Ok fed → NoDup fed0.*1 → fed = fed0 ++ fed_by name cs ∧ NoDup fed.*1.
Proof.
  revert fed0. induction cs as [|k cs IH]; intros fed0; cbn [foldE].
  { intros [= <-] Hnd. by rewrite app_nil_r. }
  intros (fed1 & H1 & H2)%bind_Ok Hnd. unfold feed in H1. unfold fed_by. rewrite filter_cons.
  destruct (String.eqb_spec (cn_subscriber k) name) as [E|E].
  - apply bind_Ok in H1 as (_ & Hnew%raise_if_Ok%dmem_false & [= <-]). rewrite decide_True by done.
    rewrite dset_keys_new in H2 by done. apply IH in H2 as [-> Hnd'].
    + split; [by rewrite <- app_assoc|done].
    + rewrite fmap_app. apply NoDup_app. split; [done|]. split; [set_solver|apply NoDup_singleton].
  - injection H1 as <-. rewrite decide_False by done. by apply IH.
Qed.

Definition startable (vs : variables) (s : start_decl) : Prop :=
  ∃ v, dget vs (st_variable s) = Some v ∧ va_causality v ∈ STARTABLE ∧ st_unit s = va_unit v.

Lemma require_starts_Ok name vs l st0 st :
  foldE (require_start name vs) st0 l = Ok st →
  (∀ x, x ∈ st ↔ x ∈ st0 ∨ x ∈ st_variable <$> l) ∧ NoDup (st_variable <$> l)
  ∧ (∀ x, x ∈ st_variable <$> l → x ∉ st0) ∧ Forall (startable vs) l.
Proof.
  revert st0. induction l as [|s l IH]; intros st0; cbn [foldE].
  { intros [= <-]. split_and!; [set_solver|constructor|set_solver|constructor]. }
  intros (st1 & H1 & H2)%bind_Ok. apply IH in H2 as (Hst & Hnd & Hnew & Hall). unfold require_start in H1.
  apply bind_Ok in H1 as (v & Hv%variable_of_Ok & (_ & Hc%raise_if_Ok%negb_false_iff%bool_decide_eq_true & H1)%bind_Ok).
  apply bind_Ok in H1 as (_ & Hu%raise_if_Ok%negb_false_iff%bool_decide_eq_true & (_ & Hn%raise_if_Ok%bool_decide_eq_false & [= <-])%bind_Ok).
  split_and!.
  - set_solver.
  - cbn. apply NoDup_cons. split; [|done]. intros Hin. specialize (Hnew _ Hin). set_solver.
  - intros x. cbn. intros [->|Hx]%elem_of_cons; [done|]. specialize (Hnew _ Hx). set_solver.
  - constructor; [by exists v|done].
Qed.

(** Every input has one declared source. *)
Record sourced (name : string) (f : fmu_decl) (cs : list connection) (vs : variables) : Prop := {
  so_fed_once : NoDup (fed_by name cs).*1;
  so_started_once : NoDup (st_variable <$> fm_start f);
  so_started : Forall (startable vs) (fm_start f);
  so_held x : x ∈ fm_hold f → ∃ v, dget vs x = Some v ∧ va_causality v = "input"%string ∧ va_start v ≠ None
    ∧ x ∉ (fed_by name cs).*1 ∧ x ∉ st_variable <$> fm_start f;
  so_first x : x ∈ (fed_by name cs).*1 → ∃ v, dget vs x = Some v
    ∧ (va_start v ≠ None ∨ x ∈ st_variable <$> fm_start f);
  so_inputs n v : (n, v) ∈ vs → va_causality v = "input"%string →
    va_name v ∈ (fed_by name cs).*1 ∨ va_name v ∈ st_variable <$> fm_start f ∨ va_name v ∈ fm_hold f
    ∨ ∃ x w, x ∈ (fed_by name cs).*1 ∧ dget vs x = Some w ∧ va_name v ∈ va_clocks w;
}.

Lemma fed_clocks_Ok name vs started (fed : list (string * connection)) clocks0 clocks :
  foldE (λ clocks kv,
    match dget vs kv.1 with
    | None => Err CKeyError
    | Some v => raise: CNoStart name kv.1 if: bool_decide (va_start v = None) && negb (bool_decide (kv.1 ∈ started));;
                Ok (clocks ++ va_clocks v)
    end) clocks0 fed = Ok clocks →
  (∀ x, x ∈ fed.*1 → ∃ v, dget vs x = Some v ∧ (va_start v ≠ None ∨ x ∈ (started : gset string)))
  ∧ (∀ c, c ∈ clocks → c ∈ clocks0 ∨ ∃ x w, x ∈ fed.*1 ∧ dget vs x = Some w ∧ c ∈ va_clocks w).
Proof.
  revert clocks0. induction fed as [|kv fed IH]; intros clocks0; cbn [foldE].
  { intros [= <-]. split; [by intros ? ?%not_elem_of_nil|by left]. }
  intros (c1 & H1 & H2)%bind_Ok. apply IH in H2 as [Hfirst Hclocks].
  destruct (dget vs kv.1) as [v|] eqn:Hv; [|done]. apply bind_Ok in H1 as (_ & Hs%raise_if_Ok & [= <-]).
  split.
  - intros x [->|Hx]%elem_of_cons; [|by apply Hfirst]. exists v. split; [done|].
    apply andb_false_iff in Hs as [Hs%bool_decide_eq_false|Hs%negb_false_iff%bool_decide_eq_true]; auto.
  - intros c [[Hc|Hc]%elem_of_app|(x & w & Hx & Hw & Hc)]%Hclocks; [by left| |].
    + right. exists kv.1, v. split; [left|done].
    + right. exists x, w. split; [by right|done].
Qed.

Lemma require_sources_Ok name f cs vs : require_sources name f cs vs = Ok () → sourced name f cs vs.
Proof.
  unfold require_sources. intros (fed & Hfed & (started & Hst & ([] & Hh & H)%bind_Ok)%bind_Ok)%bind_Ok.
  apply bind_Ok in H as (clocks & Hcl & Hm%raise_if_Ok%negb_false_iff%bool_decide_eq_true).
  apply feed_Ok in Hfed as [-> Hnd]; [|constructor]. cbn [app] in *.
  apply require_starts_Ok in Hst as (Hst & Hsnd & _ & Hsall).
  apply fed_clocks_Ok in Hcl as [Hfirst Hclocks].
  assert (∀ x, x ∈ started ↔ x ∈ st_variable <$> fm_start f) as Hstarted by (intros; rewrite Hst; set_solver).
  split; [done..| | |].
  - intros x Hx. pose proof (foldE_each _ _ _ Hh _ Hx) as H. unfold require_hold in H.
    apply bind_Ok in H as (v & Hv%variable_of_Ok & (_ & Hc%raise_if_Ok%negb_false_iff%String.eqb_eq & H)%bind_Ok).
    apply bind_Ok in H as (_ & Hf%raise_if_Ok%orb_false_iff & Hs%raise_if_Ok%bool_decide_eq_false).
    destruct Hf as [Hf%dmem_false Hn%bool_decide_eq_false]. exists v. rewrite <- Hstarted. done.
  - intros x Hx. setoid_rewrite <- Hstarted. by apply Hfirst.
  - intros n v Hin Hc. destruct (decide (va_name v ∈ (fed_by name cs).*1 ++ base.elements started ++ fm_hold f ++ clocks)) as [Hd|Hd].
    + rewrite !elem_of_app, elem_of_elements, Hstarted in Hd. destruct Hd as [Hd|[Hd|[Hd|Hd]]]; auto.
      apply Hclocks in Hd as [?%not_elem_of_nil|?]; [done|auto].
    + exfalso. apply (not_elem_of_nil v). rewrite <- Hm. apply list_elem_of_filter. split; [done|].
      apply list_elem_of_fmap. by exists (n, v).
Qed.

(** C39. Every input of an accepted coupling has one declared source that fits:
    each connection is a binding of the document and joins an output to an input
    of the same type, dimensions and unit; no input is fed by two connections;
    and each input is fed, given a start value, held at one or set as a clock. *)
Theorem checked_sources resolve inspect value archives c :
  check resolve inspect value archives = Ok c →
  (∀ k, k ∈ ck_connections c ↔
     ∃ ch d f s r, (ch, d) ∈ cp_channels (ck_doc c) ∧ f ∈ cd_fields d ∧ (s, r) ∈ cd_subscribers d
       ∧ dget (ro_bind r) (fl_name f) = Some (cn_input k)
       ∧ k = mk_connection ch (fl_name f) (cd_publisher d) (fl_variable f) s (cn_input k) (fl_unit f))
  ∧ (∀ k, k ∈ ck_connections c → fits (ck_variables c) k)
  ∧ ∀ n f, (n, f) ∈ cp_fmus (ck_doc c) → sourced n f (ck_connections c) (variables_of (ck_variables c) n).
Proof.
  intros (_ & _ & Hcs & Hfit & Hsrc & _)%check_Ok. split; [|split].
  - intros k. rewrite Hcs. apply connections_elem.
  - intros k Hk. by apply require_compatible_Ok, Hfit.
  - intros n f Hf. by apply require_sources_Ok, Hsrc.
Qed.

Lemma checked_sources_witness :
  length (ck_connections sample_checked) = 2%nat
  ∧ (∀ k, k ∈ ck_connections sample_checked → fits (ck_variables sample_checked) k).
Proof.
  split; [vm_compute; reflexivity|].
  destruct (checked_sources sample_resolve sample_inspect (sample_coupling 10) sample_archives sample_checked
    sample_accepted) as (_ & Hfit & _). exact Hfit.
Defined.
