(* ===== verification/CouplingCanonical.v ===== *)
(** * The canonical Manifest of a coupling

    [coupled_manifest] is authored exactly when the integers and Schemas of the
    document are in range ([coupled_manifest_iff]), and the order in which the
    document declares FMUs, Channels, subscribers and start values does not
    change the bytes it is written with ([coupled_manifest_canonical]). *)

From Stdlib Require Import ZArith Lia.
From S2P Require Import Prelude PyFloat Json SchemaTypes Schema Pointer Recording Manifest ManifestValidate ManifestAgree Coupling CouplingOrder CouplingManifest.

(** ** When the builder accepts *)

Definition schemas_ok (doc : coupling) : Prop :=
  ∀ n c, (n, c) ∈ cp_channels doc → check_schema n (channel_schema c) = Ok ().

Lemma minteger_in z w lo hi : lo ≤ z ≤ hi → minteger (JInt z) w lo hi = Ok z.
Proof. intros. cbn. destruct (Z.ltb_spec z lo); [lia|]. destruct (Z.ltb_spec hi z); [lia|done]. Qed.

Lemma add_schema_items_accepts items m :
  NoDup items.*1 → (∀ n s, (n, s) ∈ items → n ∉ (m_schemas m).*1 ∧ (∃ d, s = JObj d) ∧ check_schema n s = Ok ()) →
  add_schema_items m items = (set_schemas m (m_schemas m ++ items), None).
Proof.
  revert m. induction items as [|[n s] items IH]; intros m Hnd Hok; cbn [add_schema_items].
  { rewrite app_nil_r. by destruct m. }
  apply NoDup_cons in Hnd as [Hn Hnd]. destruct (Hok n s) as (Hnew & [d ->] & Hs); [left|].
  cbn [mobject]. mcbn. rewrite (proj2 (dmem_false _ _) Hnew). mcbn. rewrite Hs.
  rewrite dset_keys_new by done. rewrite IH; [|done|].
  - cbn. by rewrite <- app_assoc.
  - intros n' s' Hin. destruct (Hok n' s') as (Hnew' & Hs'); [by right|]. split; [|done].
    cbn. rewrite fmap_app, elem_of_app. intros [?|[= ->]%list_elem_of_singleton]; [done|].
    apply Hn, list_elem_of_fmap. by exists (n, s').
Qed.

Lemma add_coupled_channel_accepts m kv :
  kv.1 ∉ (m_channels m).*1 → kv.1 ∈ (m_schemas m).*1 → u64_ok (cd_latency kv.2) →
  add_coupled_channel m kv = Ok (set_channels m (m_channels m ++ [expected_channel kv])).
Proof.
  intros Hn Hs Hl. unfold add_coupled_channel, add_channel. cbn [mstring]. mcbn.
  rewrite (proj2 (dmem_false _ _) Hn), (proj2 (dmem_true _ _) Hs). mcbn. unfold opt_integer.
  rewrite minteger_in by exact Hl. mcbn.
  change (bool_decide ("inline"%string ∈ TRANSPORTS)) with true. cbn. by rewrite dset_keys_new.
Qed.

Lemma subscriber_routes_accepts (l : list (string * route_decl)) participant :
  Forall (λ kv, route_ranges kv.2) l →
  subscriber_routes (RoutesList ((λ kv, RouteArg (JStr kv.1) (ro_capacity kv.2) (ro_overflow kv.2)) <$> l)) participant
  = Ok (expected_route <$> l).
Proof.
  cbn. unfold enumerate. generalize O. induction l as [|kv l IH]; intros i Hl; [done|].
  apply Forall_cons in Hl as [(Hc & Hr & s & Hs & Hp) Hl]. cbn [fmap list_fmap enumerate_from mapE].
  cbn [fst snd subscriber_route mstring]. mcbn. unfold expected_route at 1. rewrite Hc, Hs.
  rewrite minteger_in by exact Hr. cbn [mstring]. mcbn.
  assert (String.eqb s "blocking" = false) as ->.
  { apply String.eqb_neq. intros ->. unfold OVERFLOW_POLICIES in Hp. set_solver. }
  rewrite bool_decide_eq_true_2 by done. mcbn. rewrite IH by done. done.
Qed.

Lemma add_coupled_fmu_accepts resolve doc archives m kv :
  kv.1 ∉ (m_participants m).*1 →
  (fm_period kv.2 = JInt (period_of kv.2) ∧ pos_ok (period_of kv.2)) →
  (fm_priority kv.2 = JInt (priority_of kv.2) ∧ i32_ok (priority_of kv.2)) →
  Forall (λ r, route_ranges r.2) (coupled_routes doc kv.1) → is_Some (dget archives kv.1) →
  add_coupled_fmu resolve doc archives m kv
  = Ok (set_participants m (m_participants m ++ [expected_process resolve doc archives kv])).
Proof.
  intros Hn [Hp Hpr] [Hq Hqr] Hr [path Hpath]. unfold add_coupled_fmu, archive_of, expected_process. rewrite Hpath.
  cbn [mbind result_bind default]. unfold add_process. cbn [mstring]. mcbn.
  rewrite marray_strs. mcbn. rewrite each_strs. mcbn.
  rewrite Hp, minteger_in by exact Hpr. mcbn. rewrite routes_of_args, subscriber_routes_accepts by done. mcbn.
  rewrite channel_list_strs. mcbn. rewrite Hq, minteger_in by exact Hqr. mcbn.
  change (bool_decide ("reject"%string ∈ SLEEP_POLICIES)) with true. cbn.
  unfold add_participant. rewrite (proj2 (dmem_false _ _) Hn). mcbn. by rewrite dset_keys_new.
Qed.

(** A loop of the builder that accepts every item. *)
Lemma builder_accepts {X A B} (f : manifest → A → result X manifest) (get : manifest → list B)
    (set : manifest → list B → manifest) (g : A → B) (P : manifest → Prop) (key : A → string) (key' : B → string) :
  (∀ m l, P m → P (set m l)) → (∀ m l k, set (set m l) k = set m k) → (∀ m l, get (set m l) = l) →
  (∀ m, set m (get m) = m) → (∀ x, key' (g x) = key x) →
  ∀ l m, (∀ m x, x ∈ l → P m → key x ∉ key' <$> get m → f m x = Ok (set m (get m ++ [g x]))) →
  P m → NoDup (key <$> l) → (∀ x, x ∈ l → key x ∉ key' <$> get m) →
  foldE f m l = Ok (set m (get m ++ (g <$> l))).
Proof.
  intros HP Hset Hget Hid Hkey l. induction l as [|x l IH]; intros m Hf Hm Hnd Hnew; cbn [foldE].
  { cbn. by rewrite app_nil_r, Hid. }
  cbn in Hnd. apply NoDup_cons in Hnd as [Hx Hnd]. rewrite Hf; [|left|done|apply Hnew; left]. mcbn.
  rewrite IH; [|intros; apply Hf; by (done || right)|auto|done|].
  - by rewrite Hset, Hget, <- app_assoc.
  - intros y Hy. rewrite Hget, fmap_app, elem_of_app. cbn. rewrite Hkey.
    intros [Hin|E%list_elem_of_singleton]; [by apply (Hnew y); [right|]|].
    apply Hx. rewrite <- E. by apply list_elem_of_fmap_2.
Qed.

Lemma add_schema_items_checked items m m' n s :
  add_schema_items m items = (m', None) → (n, s) ∈ items → check_schema n s = Ok ().
Proof.
  revert m. induction items as [|[n' s'] items IH]; intros m; [by intros _ ?%not_elem_of_nil|]. cbn [add_schema_items].
  destruct (mobject s' [TKey n'] ≫= _) as [[]|e] eqn:H; [|done]. intros Hrest [[= -> ->]|Hin]%elem_of_cons; [|by eapply IH].
  by apply bind_Ok in H as (_ & _ & (_ & _ & H)%bind_Ok).
Qed.

Lemma coupled_routes_keys doc name : doc_ok doc → NoDup (coupled_routes doc name).*1.
Proof.
  intros Hd. assert (NoDup (subscribed_channels doc name).*1) as Hn.
  { unfold subscribed_channels. rewrite sorted_items_perm. by apply NoDup_keys_filter, Hd. }
  unfold coupled_routes. revert Hn. generalize (subscribed_channels doc name). intros l.
  induction l as [|[ch c] l IH]; [done|]. cbn. intros [Hx Hl]%NoDup_cons.
  destruct (dget (cd_subscribers c) name) as [r0|]; cbn; [|by apply IH]. apply NoDup_cons. split; [|by apply IH].
  intros [[ch' r] [-> ([ch1 c1] & Hin & E)%list_elem_of_omap]]%list_elem_of_fmap. apply Hx. cbn in E.
  destruct (dget (cd_subscribers c1) name); [|done]. injection E as <- _. apply list_elem_of_fmap. by exists (ch1, c1).
Qed.

Lemma expected_published resolve doc archives n p :
  (n, p) ∈ m_participants (expected_manifest resolve doc archives) →
  (∃ f, (n, f) ∈ cp_fmus doc) ∧ published p = (published_channels doc n).*1 ∧ subscribed p = (coupled_routes doc n).*1.
Proof.
  intros ([n' f] & [= -> ->] & Hin)%elem_of_sorted. split; [by exists f|]. split; [done|]. cbn.
  rewrite <- list_fmap_compose. done.
Qed.

Lemma expected_refs resolve doc archives :
  doc_ok doc → refs_ok (expected_manifest resolve doc archives) ∧ single_publisher (expected_manifest resolve doc archives).
Proof.
  intros Hd. assert (∀ ch c, (ch, c) ∈ cp_channels doc → ch ∈ (m_channels (expected_manifest resolve doc archives)).*1) as Hch.
  { intros ch c Hin. apply list_elem_of_fmap. exists (expected_channel (ch, c)). split; [done|].
    apply elem_of_sorted. by exists (ch, c). }
  split.
  - intros n p (_ & -> & ->)%expected_published. split; [|split].
    + intros ch [[[ch' r] [-> Hr]]%list_elem_of_fmap|(c & Hin & _)%published_elem]%elem_of_app; [|by eapply Hch].
      apply coupled_routes_elem in Hr as (c & Hin & _); [|done]. by eapply Hch.
    + by apply coupled_routes_keys.
    + unfold published_channels. rewrite sorted_items_perm. by apply NoDup_keys_filter, Hd.
  - intros n1 p1 n2 p2 ch (_ & H1 & _)%expected_published (_ & H2 & _)%expected_published. rewrite H1, H2.
    intros (c1 & Hc1 & <-)%published_elem (c2 & Hc2 & <-)%published_elem.
    pose proof (dget_elem _ _ _ (dk_channels _ Hd) Hc1) as E. rewrite (dget_elem _ _ _ (dk_channels _ Hd) Hc2) in E.
    by injection E as <-.
Qed.

Lemma coupled_manifest_accepts resolve doc archives :
  doc_ok doc → ranges_ok doc → schemas_ok doc → archived doc archives →
  coupled_manifest resolve doc archives = Ok (expected_manifest resolve doc archives).
Proof.
  intros Hd Hr Hs Ha. destruct (expected_refs resolve doc archives Hd) as [Hrefs Hone].
  unfold coupled_manifest, new_manifest. destruct (rk_duration _ Hr) as [-> Hdur].
  rewrite (minteger_in (duration_of doc)) by exact Hdur. mcbn. rewrite (minteger_in 0) by (unfold SIZE_MAX, u64_max; lia). mcbn.
  unfold schemas, add_schemas. rewrite add_schema_items_accepts; cycle 1.
  { rewrite <- list_fmap_compose. apply Hd. }
  { intros n s ([n' c] & [= -> ->] & Hin)%list_elem_of_fmap. split; [by intros ?%not_elem_of_nil|].
    split; [by eexists|by apply Hs]. }
  mcbn. set (m1 := set_schemas _ _).
  rewrite (builder_accepts _ m_channels set_channels expected_channel (λ m, m_schemas m = m_schemas m1) fst fst);
    [|done|done|done|by intros []|done| |done|by rewrite sorted_items_perm; apply Hd|by intros x _ ?%not_elem_of_nil]; cycle 1.
  { intros m [n c] Hin Hm Hn. rewrite sorted_items_perm in Hin. apply add_coupled_channel_accepts; [done| |by eapply rk_latency].
    rewrite Hm. cbn. rewrite <- list_fmap_compose. apply list_elem_of_fmap. by exists (n, c). }
  cbn [lift_manifest mbind result_bind]. rewrite (builder_accepts _ m_participants set_participants (expected_process resolve doc archives) (λ _, True) fst fst);
    [|done|done|done|by intros []|done| |done|by rewrite sorted_items_perm; apply Hd|by intros x _ ?%not_elem_of_nil]; cycle 1.
  { intros m [n f] Hin _ Hn. rewrite sorted_items_perm in Hin.
    apply add_coupled_fmu_accepts; [done|by eapply rk_period|by eapply rk_priority| |by eapply Ha].
    apply Forall_forall. intros r Hrt. by eapply rk_route. }
  mcbn. match goal with |- context [to_doc ?m] => change m with (expected_manifest resolve doc archives) end.
  assert (NoDup (m_participants (expected_manifest resolve doc archives)).*1) as Hn.
  { cbn. rewrite <- list_fmap_compose. change (fst ∘ _) with (@fst string fmu_decl). rewrite sorted_items_perm. apply Hd. }
  unfold to_doc. by rewrite (proj2 (validate_builder_Ok _ Hn)).
Qed.

Lemma coupled_manifest_iff resolve doc archives m :
  doc_ok doc →
  coupled_manifest resolve doc archives = Ok m ↔
  m = expected_manifest resolve doc archives ∧ ranges_ok doc ∧ schemas_ok doc ∧ archived doc archives.
Proof.
  intros Hd. split; [|intros (-> & Hr & Hs & Ha); by apply coupled_manifest_accepts].
  intros Hm. destruct (coupled_manifest_Ok _ _ _ _ Hm) as (-> & Ha & Hr & _). split_and!; [done|done| |done].
  unfold coupled_manifest in Hm. apply bind_Ok in Hm as (m2 & H%lift_manifest_Ok & _).
  apply bind_Ok in H as (m0 & _ & (m1 & H1 & _)%bind_Ok). destruct (add_schemas m0 (schemas doc)) as [m1' [e|]] eqn:Hs; [done|].
  intros n c Hin. eapply add_schema_items_checked; [exact Hs|]. apply list_elem_of_fmap. by exists (n, c).
Qed.

(** ** Documents that differ in the order of their declarations *)

Definition item_same {V} (R : V → V → Prop) (a b : string * V) : Prop := a.1 = b.1 ∧ R a.2 b.2.

(** The items of a dict in another order, with related values. *)
Definition reordered {V} (R : V → V → Prop) (l l' : list (string * V)) : Prop :=
  ∃ k, l ≡ₚ k ∧ Forall2 (item_same R) k l'.

Definition fmu_same (f f' : fmu_decl) : Prop :=
  fm_period f = fm_period f' ∧ fm_priority f = fm_priority f' ∧ fm_start f ≡ₚ fm_start f' ∧ fm_hold f ≡ₚ fm_hold f'.

Definition channel_same (c c' : channel_decl) : Prop :=
  cd_publisher c = cd_publisher c' ∧ cd_latency c = cd_latency c' ∧ cd_fields c = cd_fields c'
  ∧ cd_subscribers c ≡ₚ cd_subscribers c'.

Record doc_same (doc doc' : coupling) : Prop := {
  sm_duration : cp_duration doc = cp_duration doc';
  sm_fmus : reordered fmu_same (cp_fmus doc) (cp_fmus doc');
  sm_channels : reordered channel_same (cp_channels doc) (cp_channels doc');
}.

#[export] Instance fmu_same_equivalence : Equivalence fmu_same.
Proof.
  split; [intros f|intros f f'|intros f f' f'']; unfold fmu_same; [done|by intros (-> & -> & -> & ->)|].
  by intros (-> & -> & -> & ->) (-> & -> & -> & ->).
Qed.

#[export] Instance channel_same_equivalence : Equivalence channel_same.
Proof.
  split; [intros c|intros c c'|intros c c' c'']; unfold channel_same; [done|by intros (-> & -> & -> & ->)|].
  by intros (-> & -> & -> & ->) (-> & -> & -> & ->).
Qed.

Lemma Forall2_keys_same {V} (R : V → V → Prop) l l' : Forall2 (item_same R) l l' → l.*1 = l'.*1.
Proof. induction 1 as [|a b l l' [E _] _ IH]; cbn; [done|]. by rewrite E, IH. Qed.

Lemma reordered_keys {V} (R : V → V → Prop) l l' : reordered R l l' → l.*1 ≡ₚ l'.*1.
Proof. intros (k & Hp & Hf). by rewrite Hp, (Forall2_keys_same _ _ _ Hf). Qed.

Lemma Forall2_filter_same {A B} (Q : A → B → Prop) (P : A → Prop) (P' : B → Prop)
    `{!∀ x, Decision (P x), !∀ x, Decision (P' x)} l l' :
  Forall2 Q l l' → (∀ a b, Q a b → P a ↔ P' b) → Forall2 Q (filter P l) (filter P' l').
Proof.
  intros Hf HP. induction Hf as [|a b l l' Hab _ IH]; [constructor|]. rewrite !filter_cons.
  pose proof (HP a b Hab). repeat case_decide; try tauto. by constructor.
Qed.

Lemma fmap_related {A B C} (Q : A → B → Prop) (f : A → C) (g : B → C) l l' :
  Forall2 Q l l' → (∀ a b, a ∈ l → Q a b → f a = g b) → f <$> l = g <$> l'.
Proof.
  induction 1 as [|a b l l' Hab _ IH]; intros Hf; [done|]. cbn. rewrite (Hf a b), IH; auto; [|left].
  intros. apply Hf; [by right|done].
Qed.

Lemma dget_perm {K V} `{EqDecision K} (d d' : list (K * V)) k : NoDup d.*1 → d ≡ₚ d' → dget d k = dget d' k.
Proof.
  intros Hn Hp. assert (NoDup d'.*1) as Hn' by by rewrite <- Hp. destruct (dget d k) as [v|] eqn:Hk.
  - apply dget_Some in Hk. rewrite Hp in Hk. symmetry. by apply dget_elem.
  - symmetry. apply dget_None. apply dget_None in Hk. by rewrite <- Hp.
Qed.

(** Sorting by a key that no two entries share. *)
Lemma sorted_by_key {A} (key : A → string) (l l' : list A) :
  let R x y := String.le (key x) (key y) in
  NoDup (key <$> l) → l ≡ₚ l' → StronglySorted R l → StronglySorted R l' → l = l'.
Proof.
  intros R Hn Hp Hs Hs'. apply (StronglySorted_unique_strong R); [|done..]. intros x y Hx Hy Hxy Hyx.
  assert (key x = key y) as E by by apply (anti_symm String.le). rewrite <- Hp in Hy.
  apply list_elem_of_lookup in Hx as [i Hi], Hy as [j Hj].
  assert (i = j) as ->; [|congruence]. apply (NoDup_lookup (key <$> l) i j (key x)); [done|..];
    rewrite list_lookup_fmap; [by rewrite Hi|by rewrite Hj, E].
Qed.

#[export] Instance entry_le_trans {V} : Transitive (@entry_le V).
Proof. intros a b c. unfold entry_le. apply (transitivity (R := String.le)). Qed.
#[export] Instance entry_le_total {V} : Total (@entry_le V).
Proof. intros a b. unfold entry_le. apply (total String.le). Qed.
#[export] Instance start_le_trans : Transitive start_le.
Proof. intros a b c. unfold start_le. apply (transitivity (R := String.le)). Qed.
#[export] Instance start_le_total : Total start_le.
Proof. intros a b. unfold start_le. apply (total String.le). Qed.

Lemma sorted_keys {V} (l : list (string * V)) : StronglySorted entry_le l ↔ StronglySorted String.le l.*1.
Proof.
  induction l as [|x l IH]; cbn; [split; constructor|].
  split; inversion_clear 1 as [|? ? Hs Hall]; constructor; (by apply IH) || rewrite Forall_fmap in * || idtac; done.
Qed.

Lemma sorted_items_same {V} (R : V → V → Prop) (l l' : list (string * V)) :
  NoDup l.*1 → reordered R l l' → Forall2 (item_same R) (sorted_items l) (sorted_items l').
Proof.
  intros Hn Hr. pose proof (reordered_keys _ _ _ Hr) as Hkeys. destruct Hr as (k & Hp & Hf).
  rewrite <- (sorted_items_perm l) in Hp. symmetry in Hp.
  destruct (Permutation_Forall2 Hp Hf) as (l2 & Hp2 & Hf2).
  replace (sorted_items l') with l2; [done|]. apply (sorted_by_key fst).
  - rewrite <- Hp2, <- Hkeys. done.
  - by rewrite sorted_items_perm.
  - apply sorted_keys. rewrite <- (Forall2_keys_same _ _ _ Hf2). apply sorted_keys, (StronglySorted_merge_sort entry_le).
  - apply (StronglySorted_merge_sort entry_le).
Qed.

Lemma reordered_perm {V} (R : V → V → Prop) `{!Reflexive R} (l l' : list (string * V)) : l ≡ₚ l' → reordered R l l'.
Proof. intros Hp. exists l'. split; [done|]. induction l' in |- *; constructor; done. Qed.

Lemma reordered_filter {V} (R : V → V → Prop) (P : string * V → Prop) `{!∀ x, Decision (P x)} l l' :
  (∀ a b, item_same R a b → P a ↔ P b) → reordered R l l' → reordered R (filter P l) (filter P l').
Proof. intros HP (k & Hp & Hf). exists (filter P k). split; [by rewrite Hp|by apply Forall2_filter_same]. Qed.

Section same.
Context (doc doc' : coupling) (Hd : doc_ok doc) (Hsame : doc_same doc doc').

Lemma subscribed_same name :
  Forall2 (item_same channel_same) (subscribed_channels doc name) (subscribed_channels doc' name).
Proof using Hd Hsame.
  apply sorted_items_same; [apply NoDup_keys_filter, Hd|]. apply reordered_filter; [|apply Hsame].
  intros [n c] [n' c'] [_ (_ & _ & _ & Hp)]. cbn in *. by rewrite !dmem_true, Hp.
Qed.

Lemma published_same name :
  Forall2 (item_same channel_same) (published_channels doc name) (published_channels doc' name).
Proof using Hd Hsame.
  apply sorted_items_same; [apply NoDup_keys_filter, Hd|]. apply reordered_filter; [|apply Hsame].
  intros [n c] [n' c'] [_ (E & _)]. cbn in *. by rewrite E.
Qed.

Lemma subscribers_same name ch c ch' c' :
  (ch, c) ∈ subscribed_channels doc name → item_same channel_same (ch, c) (ch', c') →
  dget (cd_subscribers c) name = dget (cd_subscribers c') name.
Proof using Hd.
  intros [Hin _]%subscribed_elem [_ (_ & _ & _ & Hp)]. apply dget_perm; [|exact Hp].
  by destruct (dk_subscribers _ Hd _ _ Hin).
Qed.

Lemma bind_arguments_same name : bind_arguments doc name = bind_arguments doc' name.
Proof using Hd Hsame.
  unfold bind_arguments. f_equal; f_equal.
  - apply (fmap_related _ _ _ _ _ (subscribed_same name)). intros [ch c] [ch' c'] Hin Hs.
    rewrite (subscribers_same _ _ _ _ _ Hin Hs). destruct Hs as [E (_ & _ & Hf & _)]. cbn in E, Hf. by rewrite E, Hf.
  - apply (fmap_related _ _ _ _ _ (published_same name)). intros [ch c] [ch' c'] _ [E (_ & _ & Hf & _)].
    cbn in E, Hf. by rewrite E, Hf.
Qed.

Lemma coupled_routes_same name : coupled_routes doc name = coupled_routes doc' name.
Proof using Hd Hsame.
  unfold coupled_routes. pose proof (subscribed_same name) as Hs.
  pose proof (λ ch c ch' c', subscribers_same name ch c ch' c') as Hsub. revert Hs Hsub.
  generalize (subscribed_channels doc name), (subscribed_channels doc' name). intros l l' Hs.
  induction Hs as [|[ch c] [ch' c'] l l' Hab _ IH]; intros Hsub; [done|]. cbn.
  rewrite <- (Hsub ch c ch' c') by (left || done). rewrite IH by (intros; eapply Hsub; [by right|done]).
  destruct Hab as [E _]. cbn in E. by rewrite E.
Qed.

Lemma start_arguments_same f f' :
  NoDup (st_variable <$> fm_start f) → fm_start f ≡ₚ fm_start f' → start_arguments f = start_arguments f'.
Proof.
  intros Hn Hp. unfold start_arguments. f_equal. apply (sorted_by_key st_variable).
  - by rewrite merge_sort_Permutation.
  - by rewrite !merge_sort_Permutation.
  - apply (StronglySorted_merge_sort start_le).
  - apply (StronglySorted_merge_sort start_le).
Qed.
End same.

(** [sort_keys=True] of [json.dumps]. *)
Fixpoint sort_keys (j : json) : json :=
  match j with
  | JArr l => JArr (map sort_keys l)
  | JObj d => JObj (sorted_items (map (λ kv, (kv.1, sort_keys kv.2)) d))
  | _ => j
  end.

Lemma sorted_items_perm_eq {V} (l l' : list (string * V)) :
  NoDup l.*1 → l ≡ₚ l' → sorted_items l = sorted_items l'.
Proof.
  intros Hn Hp. apply (sorted_by_key fst).
  - by rewrite sorted_items_perm.
  - by rewrite !sorted_items_perm.
  - apply (StronglySorted_merge_sort entry_le).
  - apply (StronglySorted_merge_sort entry_le).
Qed.

Lemma sort_keys_cong l l' :
  (λ kv, (kv.1, sort_keys kv.2)) <$> l = (λ kv, (kv.1, sort_keys kv.2)) <$> l' →
  sort_keys (JObj l) = sort_keys (JObj l').
Proof. intros E. cbn. f_equal. f_equal. exact E. Qed.

Lemma sort_keys_perm l l' : NoDup l.*1 → l ≡ₚ l' → sort_keys (JObj l) = sort_keys (JObj l').
Proof.
  intros Hn Hp. cbn. f_equal. apply sorted_items_perm_eq.
  - by rewrite <- list_fmap_compose.
  - by rewrite Hp.
Qed.

Lemma expected_same resolve archives doc doc' :
  doc_ok doc → doc_same doc doc' → (∀ n f, (n, f) ∈ cp_fmus doc → NoDup (st_variable <$> fm_start f)) →
  expected_channel <$> sorted_items (cp_channels doc) = expected_channel <$> sorted_items (cp_channels doc')
  ∧ expected_process resolve doc archives <$> sorted_items (cp_fmus doc)
    = expected_process resolve doc' archives <$> sorted_items (cp_fmus doc').
Proof.
  intros Hd Hs Hst. split.
  - apply (fmap_related (item_same channel_same)); [apply sorted_items_same; [apply Hd|apply Hs]|].
    intros [n c] [n' c'] _ [E (_ & Hl & _)]. cbn in E, Hl. unfold expected_channel. cbn. by rewrite E, Hl.
  - apply (fmap_related (item_same fmu_same)); [apply sorted_items_same; [apply Hd|apply Hs]|].
    intros [n f] [n' f'] Hin [E (Hp & Hq & Hstart & _)]. cbn in E, Hp, Hq, Hstart. subst n'.
    rewrite sorted_items_perm in Hin. unfold expected_process, command, period_of, priority_of. cbn [fst snd].
    rewrite Hp, Hq, (bind_arguments_same doc doc' Hd Hs), (start_arguments_same f f' (Hst _ _ Hin) Hstart).
    rewrite (coupled_routes_same doc doc' Hd Hs), (Forall2_keys_same _ _ _ (published_same doc doc' Hd Hs n)). done.
Qed.

Lemma schemas_same doc doc' :
  doc_same doc doc' →
  (λ kv, (kv.1, channel_schema kv.2)) <$> cp_channels doc ≡ₚ (λ kv, (kv.1, channel_schema kv.2)) <$> cp_channels doc'.
Proof.
  intros Hs. destruct (sm_channels _ _ Hs) as (k & -> & Hf). apply Permutation_refl'.
  apply (fmap_related _ _ _ _ _ Hf). intros [n c] [n' c'] _ [E (_ & _ & Hfl & _)]. cbn in *. unfold channel_schema. by rewrite E, Hfl.
Qed.

(** A document keeps its integers and Schemas in range in any order. *)
Lemma accepted_same doc doc' :
  doc_ok doc → doc_same doc doc' → ranges_ok doc → schemas_ok doc →
  ranges_ok doc' ∧ schemas_ok doc' ∧ ∀ archives, archived doc archives → archived doc' archives.
Proof.
  intros Hd Hs Hr Hsch.
  assert (∀ n c', (n, c') ∈ cp_channels doc' → ∃ c, (n, c) ∈ cp_channels doc ∧ channel_same c c') as Hc.
  { destruct (sm_channels _ _ Hs) as (k & Hp & Hf). intros n c' [i Hi]%list_elem_of_lookup.
    destruct (Forall2_lookup_r _ _ _ _ _ Hf Hi) as ([n0 c] & Hk & [E Hcc]). cbn in E, Hcc. subst n0.
    exists c. split; [|done]. rewrite Hp. by eapply list_elem_of_lookup_2. }
  assert (∀ n f', (n, f') ∈ cp_fmus doc' → ∃ f, (n, f) ∈ cp_fmus doc ∧ fmu_same f f') as Hfm.
  { destruct (sm_fmus _ _ Hs) as (k & Hp & Hf). intros n f' [i Hi]%list_elem_of_lookup.
    destruct (Forall2_lookup_r _ _ _ _ _ Hf Hi) as ([n0 f] & Hk & [E Hff]). cbn in E, Hff. subst n0.
    exists f. split; [|done]. rewrite Hp. by eapply list_elem_of_lookup_2. }
  split; [split|split].
  - unfold duration_of. rewrite <- (sm_duration _ _ Hs). apply Hr.
  - intros n c' (c & Hin & _ & <- & _)%Hc. by eapply rk_latency.
  - intros n f' (f & Hin & E & _)%Hfm. unfold period_of. rewrite <- E. by eapply rk_period.
  - intros n f' (f & Hin & _ & E & _)%Hfm. unfold priority_of. rewrite <- E. by eapply rk_priority.
  - intros n f' r (f & Hin & _)%Hfm Hrt. rewrite <- (coupled_routes_same doc doc' Hd Hs) in Hrt. by eapply rk_route.
  - intros n c' (c & Hin & _ & _ & E & _)%Hc. unfold channel_schema. rewrite <- E. by apply Hsch.
  - intros archives Ha n f' (f & Hin & _)%Hfm. by eapply Ha.
Qed.

(** C28. The Manifest of a coupling is canonical: two documents that declare the
    same FMUs, Channels, subscribers and start values in different orders give
    the same text with sorted keys, and when one is authored, so is the other. *)
Theorem coupled_manifest_canonical resolve archives value value' doc doc' m :
  json_wf value = true → json_wf value' = true → document value = Ok doc → document value' = Ok doc' →
  doc_same doc doc' → (∀ n f, (n, f) ∈ cp_fmus doc → NoDup (st_variable <$> fm_start f)) →
  coupled_manifest resolve doc archives = Ok m →
  ∃ m', coupled_manifest resolve doc' archives = Ok m'
    ∧ sort_keys (manifest_doc m') = sort_keys (manifest_doc m).
Proof.
  intros Hwf Hwf' Hd%(document_ok _ _ Hwf) Hd'%(document_ok _ _ Hwf') Hs Hst Hm.
  apply (coupled_manifest_iff _ _ _ _ Hd) in Hm as (-> & Hr & Hsch & Ha).
  destruct (accepted_same _ _ Hd Hs Hr Hsch) as (Hr' & Hsch' & Ha').
  exists (expected_manifest resolve doc' archives). split; [apply coupled_manifest_accepts; auto|].
  destruct (expected_same resolve archives doc doc' Hd Hs Hst) as [Hc Hp].
  unfold expected_manifest. rewrite <- Hc, <- Hp. unfold duration_of. rewrite <- (sm_duration _ _ Hs).
  assert (NoDup ((λ kv, (kv.1, channel_schema kv.2)) <$> cp_channels doc).*1) as Hn
    by (rewrite <- list_fmap_compose; apply Hd).
  pose proof (sort_keys_perm _ _ Hn (schemas_same _ _ Hs)) as Hsk.
  unfold manifest_doc. cbn [m_schemas m_channels m_participants m_duration_ns m_epoch_ns].
  cbn [Z.eqb app]. apply sort_keys_cong. cbn [fmap list_fmap fst snd]. by rewrite Hsk.
Qed.

(** [sample_coupling] with its FMUs and Channels in the other order. *)
Definition sample_reordered : json :=
  match sample_coupling 10 with
  | JObj [v; d; (fk, JObj fs); (ck, JObj cs)] => JObj [d; (ck, JObj (reverse cs)); (fk, JObj (reverse fs)); v]
  | j => j
  end.
Definition sample_reordered_doc : coupling :=
  mk_coupling (cp_duration (sample_doc 10)) (reverse (cp_fmus (sample_doc 10))) (reverse (cp_channels (sample_doc 10))).

Lemma coupled_manifest_canonical_witness :
  sample_reordered_doc ≠ sample_doc 10
  ∧ ∃ m', coupled_manifest sample_resolve sample_reordered_doc sample_archives = Ok m'
    ∧ sort_keys (manifest_doc m') = sort_keys (manifest_doc sample_manifest).
Proof.
  split; [vm_compute; congruence|].
  apply (coupled_manifest_canonical sample_resolve sample_archives (sample_coupling 10) sample_reordered (sample_doc 10)
    sample_reordered_doc sample_manifest).
  - reflexivity.
  - reflexivity.
  - reflexivity.
  - vm_compute. reflexivity.
  - split; [reflexivity| |]; apply reordered_perm; [apply _|symmetry; apply reverse_Permutation|apply _|symmetry; apply reverse_Permutation].
  - intros n f Hf. vm_compute in Hf.
    repeat (apply elem_of_cons in Hf as [[= -> ->]|Hf]; [constructor|]). by apply elem_of_nil in Hf.
  - vm_compute. reflexivity.
Defined.
