(* ===== verification/CsvText.v ===== *)
(** * CSV text

    The reader of Python's [csv] module as [csv_recording.py] uses it, strict
    and over [io.StringIO(text, newline="")]: [split_lines] gives the lines the
    reader is fed, [process] is its state machine, [read_record] one [next].
    [broken_field] is the scan of [_broken_column], which names the column of a
    malformed row.

    [broken_column_reads] shows that this scan agrees with the reader;
    [read_written_table] that the reader gives back every table, however it is
    written ([writes_table]): each cell plain or in quotes, each record ended by any
    of the newlines or the end of the text. Text is its UTF-8 bytes. *)

From Stdlib Require Import ZArith Lia Ascii.
From S2P Require Import Prelude.

Definition LF : ascii := "010".
Definition CR : ascii := "013".
Definition QUOTE : ascii := "034".
Definition COMMA : ascii := ",".

Definition is_newline (c : ascii) : bool := Ascii.eqb c LF || Ascii.eqb c CR.

(** The lines of a [StringIO] with [newline=""], terminators included. [cur] is
    the line so far, reversed. *)
Fixpoint lines_from (cur : list ascii) (text : list ascii) : list (list ascii) :=
  match text with
  | [] => if decide (cur = []) then [] else [reverse cur]
  | c :: text =>
      if Ascii.eqb c LF then reverse (c :: cur) :: lines_from [] text
      else if Ascii.eqb c CR then
        match text with
        | d :: rest => if Ascii.eqb d LF then reverse (d :: c :: cur) :: lines_from [] rest
                       else reverse (c :: cur) :: lines_from [] text
        | [] => [reverse (c :: cur)]
        end
      else lines_from (c :: cur) text
  end.
Definition split_lines : list ascii → list (list ascii) := lines_from [].

(** ** The reader *)

Inductive rstate := StartRecord | StartField | InField | InQuoted | QuoteInQuoted | EatCrnl.

#[export] Instance rstate_eq_dec : EqDecision rstate.
Proof. solve_decision. Defined.

(** A finished cell is a string; the current one its characters. *)
Record reader := mk_reader {
  rd_state : rstate;
  rd_field : list ascii;
  rd_fields : list string;
}.

Inductive csv_error := UnexpectedEnd | DelimiterExpected | FieldLimit | NewlineInField.

Definition start_reader : reader := mk_reader StartRecord [] [].

Definition save_field (s : rstate) (r : reader) : reader :=
  mk_reader s [] (rd_fields r ++ [String.string_of_list_ascii (rd_field r)]).
Definition go_to (s : rstate) (r : reader) : reader := mk_reader s (rd_field r) (rd_fields r).

(** A byte that does not start a character. *)
Definition continues (c : ascii) : bool := in_range 128 191 (Z.of_N (N_of_ascii c)).
Definition characters (l : list ascii) : Z := zlen (filter (λ c, continues c = false) l).

Section reader.
(** [csv.field_size_limit()]. *)
Context (field_limit : Z).

(** An error leaves the reader in its state. *)
Definition add_char (s : rstate) (c : ascii) (r : reader) : result (csv_error * reader) reader :=
  if negb (continues c) && (field_limit <=? characters (rd_field r)) then Err (FieldLimit, r)
  else Ok (mk_reader s (rd_field r ++ [c]) (rd_fields r)).

Definition start_field (c : option ascii) (r : reader) : result (csv_error * reader) reader :=
  match c with
  | None => Ok (save_field StartRecord r)
  | Some c =>
      if is_newline c then Ok (save_field EatCrnl r)
      else if Ascii.eqb c QUOTE then Ok (go_to InQuoted r)
      else if Ascii.eqb c COMMA then Ok (save_field StartField r)
      else add_char InField c r
  end.

(** One character, or the end of a line. *)
Definition process (r : reader) (c : option ascii) : result (csv_error * reader) reader :=
  match rd_state r with
  | StartRecord =>
      match c with
      | None => Ok r
      | Some d => if is_newline d then Ok (go_to EatCrnl r) else start_field c (go_to StartField r)
      end
  | StartField => start_field c r
  | InField =>
      match c with
      | None => Ok (save_field StartRecord r)
      | Some c =>
          if is_newline c then Ok (save_field EatCrnl r)
          else if Ascii.eqb c COMMA then Ok (save_field StartField r)
          else add_char InField c r
      end
  | InQuoted =>
      match c with
      | None => Ok r
      | Some c => if Ascii.eqb c QUOTE then Ok (go_to QuoteInQuoted r) else add_char InQuoted c r
      end
  | QuoteInQuoted =>
      match c with
      | None => Ok (save_field StartRecord r)
      | Some c =>
          if Ascii.eqb c QUOTE then add_char InQuoted c r
          else if Ascii.eqb c COMMA then Ok (save_field StartField r)
          else if is_newline c then Ok (save_field EatCrnl r)
          else Err (DelimiterExpected, r)
      end
  | EatCrnl =>
      match c with
      | None => Ok (go_to StartRecord r)
      | Some c => if is_newline c then Ok r else Err (NewlineInField, r)
      end
  end.

Definition process_line (r : reader) (line : list ascii) : result (csv_error * reader) reader :=
  foldE process r ((Some <$> line) ++ [None]).

(** [next]: the cells of a record and the lines after it, or [None] at the end. *)
Fixpoint read_lines (r : reader) (lines : list (list ascii))
    : result (csv_error * reader) (option (list string * list (list ascii))) :=
  match lines with
  | [] => if decide (rd_field r ≠ [] ∨ rd_state r = InQuoted) then Err (UnexpectedEnd, r) else Ok None
  | line :: lines =>
      r ← process_line r line;
      if decide (rd_state r = StartRecord) then Ok (Some (rd_fields r, lines)) else read_lines r lines
  end.
Definition read_record (lines : list (list ascii)) := read_lines start_reader lines.
End reader.

(** ** The column of a malformed row *)

(** The loop of [_broken_column] from one character on. *)
Fixpoint broken_field (rest : list ascii) (field : nat) (quoted at_start : bool) : nat :=
  match rest with
  | [] => field
  | ch :: tl =>
      if quoted then
        if Ascii.eqb ch QUOTE then
          match tl with
          | [] => field
          | d :: tl' =>
              if Ascii.eqb d QUOTE then broken_field tl' field true false
              else if Ascii.eqb d COMMA || is_newline d then broken_field tl field false false
              else field
          end
        else broken_field tl field true false
      else if Ascii.eqb ch COMMA then broken_field tl (S field) false true
      else if is_newline ch then field
      else if Ascii.eqb ch QUOTE && at_start then broken_field tl field true false
      else broken_field tl field false false
  end.

(** [_broken_column]: the name of a column, or the number of a cell beyond the
    header. [line] counts from one. *)
Inductive column := Named (name : string) | Cell (number : nat).

Definition broken_column (text : list ascii) (line : nat) (header : list string) : column :=
  let field := broken_field (concat (drop (line - 1) (split_lines text))) 0 false true in
  match header !! field with
  | Some name => Named name
  | None => Cell (S field)
  end.

Definition chars (s : string) : list ascii := String.list_ascii_of_string s.

(** What the reader gives, and [None] for the end or an error. *)
Fixpoint read_all (fuel : nat) (lines : list (list ascii)) : list (option (list string)) :=
  match fuel with
  | O => []
  | S fuel =>
      match read_record 131072 lines with
      | Ok (Some (cells, rest)) => Some cells :: read_all fuel rest
      | _ => [None]
      end
  end.

Example read_examples :
  read_all 9 (split_lines (chars "a,b" ++ [LF] ++ chars "1,2" ++ [LF; LF] ++ chars "3,4"))
    = [Some ["a"; "b"]; Some ["1"; "2"]; Some []; Some ["3"; "4"]; None]%string
  ∧ read_all 9 (split_lines ([QUOTE; "a"; CR; LF; "b"; QUOTE] ++ chars ",c"))%char
    = [Some [String "a" (String CR (String LF (String "b" EmptyString))); "c"%string]; None]%char
  ∧ read_all 9 (split_lines (chars "a" ++ [CR; CR] ++ chars "b" ++ [CR; LF])) = [Some ["a"]; Some []; Some ["b"]; None]%string.
Proof. vm_compute. done. Qed.

(** ** The scan agrees with the reader *)

Section scan.
Context (field_limit : Z).

(** What the scan gives from a state of the reader on. *)
Definition scan (r : reader) (rest : list ascii) : nat :=
  let n := length (rd_fields r) in
  match rd_state r with
  | StartRecord | StartField => broken_field rest n false true
  | InField => broken_field rest n false false
  | InQuoted => broken_field rest n true false
  | QuoteInQuoted => broken_field (QUOTE :: rest) n true false
  | EatCrnl => n
  end.

Lemma newline_chars c : is_newline c = true → Ascii.eqb c QUOTE = false ∧ Ascii.eqb c COMMA = false.
Proof. unfold is_newline. rewrite orb_true_iff, !Ascii.eqb_eq. by intros [->| ->]. Qed.

Lemma quote_chars : is_newline QUOTE = false ∧ Ascii.eqb QUOTE COMMA = false.
Proof. done. Qed.

Lemma comma_chars : is_newline COMMA = false ∧ Ascii.eqb COMMA QUOTE = false.
Proof. done. Qed.

Lemma length_save s r : length (rd_fields (save_field s r)) = S (length (rd_fields r)).
Proof. cbn. rewrite length_app. cbn. lia. Qed.

(** One character keeps what the scan gives, unless the record is over. *)
Lemma process_scan r c rest r' :
  process field_limit r (Some c) = Ok r' → rd_state r' ≠ EatCrnl → scan r (c :: rest) = scan r' rest.
Proof.
  destruct r as [s f fs]. unfold process, start_field, scan. cbn [rd_state]. destruct s; cbn [go_to rd_state rd_field rd_fields broken_field].
  all: unfold add_char; cbn [rd_field rd_fields].
  all: repeat match goal with
    | |- context [Ascii.eqb ?x ?d] => is_var x; destruct (Ascii.eqb_spec x d) as [->|?]
    | |- context [is_newline ?x] => is_var x; destruct (is_newline x) eqn:?
    | |- context [if ?b then Err _ else _] => destruct b
    end; try done.
  all: intros [= <-] Hs; cbn [rd_state save_field go_to rd_fields rd_field] in *; try done.
  all: rewrite ?length_app, ?Nat.add_1_r; cbn [length app]; try done.
Qed.

Definition malformed (e : csv_error) : bool :=
  match e with UnexpectedEnd | DelimiterExpected => true | _ => false end.

Lemma process_malformed r c rest e r' :
  process field_limit r (Some c) = Err (e, r') → malformed e = true → scan r (c :: rest) = length (rd_fields r').
Proof.
  destruct r as [s f fs]. unfold process, start_field, scan. cbn [rd_state]. destruct s; cbn [go_to rd_state rd_field rd_fields broken_field].
  all: unfold add_char; cbn [rd_field rd_fields].
  all: repeat match goal with
    | |- context [Ascii.eqb ?x ?d] => is_var x; destruct (Ascii.eqb_spec x d) as [->|?]
    | |- context [is_newline ?x] => is_var x; destruct (is_newline x) eqn:?
    | |- context [if ?b then Err _ else _] => destruct b
    end; try done.
  all: by intros [= <- <-].
Qed.

(** Once a newline is read, the record is over at the end of its line. *)
Lemma eat_line line r :
  rd_state r = EatCrnl →
  match process_line field_limit r line with
  | Ok r' => rd_state r' = StartRecord
  | Err (e, _) => malformed e = false
  end.
Proof.
  unfold process_line. revert r. induction line as [|c line IH]; intros r Hr; cbn [fmap list_fmap app foldE].
  { unfold process. rewrite Hr. done. }
  assert (process field_limit r (Some c) = if is_newline c then Ok r else Err (NewlineInField, r)) as ->
    by (unfold process; by rewrite Hr).
  destruct (is_newline c); mcbn; [by apply IH|done].
Qed.

Lemma process_end r :
  match process field_limit r None with
  | Ok r' => rd_state r' = StartRecord ∨ r' = r ∧ rd_state r = InQuoted
  | Err _ => False
  end.
Proof. destruct r as [[] f fs]; cbn; auto. Qed.

Lemma line_scan line r rest :
  match process_line field_limit r line with
  | Ok r' => rd_state r' = StartRecord ∨ rd_state r' = InQuoted ∧ scan r (line ++ rest) = scan r' rest
  | Err (e, r') => malformed e = true → scan r (line ++ rest) = length (rd_fields r')
  end.
Proof.
  unfold process_line. revert r. induction line as [|c line IH]; intros r; cbn [fmap list_fmap app foldE].
  { pose proof (process_end r) as H. destruct (process field_limit r None) as [r'|]; mcbn; [|done].
    destruct H as [H|[-> H]]; auto. }
  destruct (process field_limit r (Some c)) as [r1|[e r1]] eqn:H1; mcbn.
  - destruct (decide (rd_state r1 = EatCrnl)) as [He|He].
    + pose proof (eat_line line r1 He) as H. unfold process_line in H.
      destruct (foldE _ r1 _) as [r'|[e r']]; [by left|]. by rewrite H.
    + rewrite (process_scan r c (line ++ rest) r1 H1 He). apply IH.
  - intros Hm. by eapply process_malformed.
Qed.

Lemma read_lines_scan lines r e r' :
  (rd_state r = InQuoted ∨ rd_field r = []) →
  read_lines field_limit r lines = Err (e, r') → malformed e = true → scan r (concat lines) = length (rd_fields r').
Proof.
  revert r. induction lines as [|line lines IH]; intros r Hr; cbn [read_lines concat].
  { case_decide as Hq; [|done]. intros [= <- <-] _. destruct Hq as [Hq|Hq]; [|by unfold scan; rewrite Hq].
    destruct Hr as [Hr|Hr]; [|done]. by unfold scan; rewrite Hr. }
  pose proof (line_scan line r (concat lines)) as Hl.
  destruct (process_line field_limit r line) as [r1|[e1 r1]]; mcbn.
  - case_decide as Hs; [done|]. destruct Hl as [Hl|[Hq ->]]; [done|]. apply IH. by left.
  - intros [= <- <-]. done.
Qed.
End scan.

(** C30. The column a malformed row is reported with is the one the reader was in:
    for a row that starts at any line of any text, when the csv module refuses an
    unterminated quoted cell or text after a closing quote, [_broken_column] gives
    the cell after those the reader had finished. *)
Theorem broken_column_reads field_limit text line header e r :
  read_record field_limit (drop (line - 1) (split_lines text)) = Err (e, r) → malformed e = true →
  broken_column text line header
  = match header !! length (rd_fields r) with
    | Some name => Named name
    | None => Cell (S (length (rd_fields r)))
    end.
Proof.
  intros Hr Hm. unfold broken_column.
  pose proof (read_lines_scan field_limit _ start_reader e r (or_intror eq_refl) Hr Hm) as Hs.
  unfold scan in Hs. cbn in Hs. by rewrite Hs.
Qed.

Lemma broken_column_reads_witness :
  broken_column (chars "t,x" ++ [LF] ++ chars "1," ++ [QUOTE; "a"; QUOTE; "b"; LF])%char 2 ["t"; "x"]%string
  = Named "x".
Proof.
  exact (broken_column_reads 131072 (chars "t,x" ++ [LF] ++ chars "1," ++ [QUOTE; "a"; QUOTE; "b"; LF])%char 2
    ["t"; "x"]%string DelimiterExpected (mk_reader QuoteInQuoted ["a"]%char ["1"]%string) eq_refl eq_refl).
Defined.

(** A cell that is too long is named by the wrong column: the scan goes on to the
    last cell of the row. *)
Theorem long_cell_misplaced :
  read_record 3 (split_lines (chars "1,abcd,2" ++ [LF])) = Err (FieldLimit, mk_reader InField ["a"; "b"; "c"]%char ["1"]%string)
  ∧ broken_column (chars "1,abcd,2" ++ [LF]) 1 ["t"; "x"; "y"]%string = Named "y".
Proof. vm_compute. done. Qed.

(** ** Written tables *)

(** A cell in quotes, and one that can do without them: it has no comma and no
    newline and does not begin with a quote. *)
Definition escape_char (c : ascii) : list ascii := if Ascii.eqb c QUOTE then [QUOTE; QUOTE] else [c].
Definition cell_text (s : string) : list ascii := [QUOTE] ++ concat (escape_char <$> chars s) ++ [QUOTE].
Definition separates (c : ascii) : bool := is_newline c || Ascii.eqb c COMMA.
Definition plain (l : list ascii) : bool :=
  forallb (λ c, negb (separates c)) l && match l with c :: _ => negb (Ascii.eqb c QUOTE) | [] => true end.

Inductive writes_cell : string → list ascii → Prop :=
| quoted_cell s : writes_cell s (cell_text s)
| plain_cell s : plain (chars s) = true → writes_cell s (chars s).

Inductive writes_cells : list string → list ascii → Prop :=
| last_cell s t : writes_cell s t → writes_cells [s] t
| more_cells s cells t text :
    writes_cell s t → writes_cells cells text → writes_cells (s :: cells) (t ++ COMMA :: text).

(** What ends a record that [rest] follows: a newline of any kind, or the end. *)
Definition ends_record (e rest : list ascii) : Prop :=
  e = [LF] ∨ e = [CR; LF] ∨ (e = [CR] ∧ head rest ≠ Some LF) ∨ (e = [] ∧ rest = []).

(** A record of one empty cell needs its quotes: a blank line has no cells. *)
Inductive writes_table : list (list string) → list ascii → Prop :=
| table_end : writes_table [] []
| table_record cells rows t e rest :
    writes_cells cells t → t ≠ [] → ends_record e rest → writes_table rows rest →
    writes_table (cells :: rows) (t ++ e ++ rest).

(** A table all in quotes, as [csv.QUOTE_ALL] writes it, and one with none. *)
Fixpoint cells_text (text : string → list ascii) (cells : list string) : list ascii :=
  match cells with
  | [] => []
  | [s] => text s
  | s :: cells => text s ++ COMMA :: cells_text text cells
  end.
Fixpoint table_text (text : string → list ascii) (e : list ascii) (rows : list (list string)) : list ascii :=
  match rows with
  | [] => []
  | cells :: rows => cells_text text cells ++ e ++ table_text text e rows
  end.

Lemma cells_text_writes text cells :
  cells ≠ [] → Forall (λ s, writes_cell s (text s)) cells → writes_cells cells (cells_text text cells).
Proof.
  intros Hne Hall. induction Hall as [|s cells Hs Hall IH]; [done|]. destruct cells as [|s' cells]; [by apply last_cell|].
  by apply (more_cells s (s' :: cells)); [|apply IH].
Qed.
Lemma table_text_writes text e rows :
  e = [LF] ∨ e = [CR; LF] →
  Forall (λ cells, cells ≠ [] ∧ cells_text text cells ≠ [] ∧ Forall (λ s, writes_cell s (text s)) cells) rows →
  writes_table rows (table_text text e rows).
Proof.
  intros He. induction 1 as [|cells rows (Hne & Ht & Hc) _ IH]; [constructor|]. cbn [table_text].
  apply table_record; [by apply cells_text_writes|done| |done]. unfold ends_record. tauto.
Qed.

Section tables.
Context (field_limit : Z).

(** Every record of a text. *)
Fixpoint read_table (fuel : nat) (lines : list (list ascii)) : option (list (list string)) :=
  match fuel with
  | O => None
  | S fuel =>
      match read_record field_limit lines with
      | Ok None => Some []
      | Ok (Some (cells, rest)) => (cells ::.) <$> read_table fuel rest
      | Err _ => None
      end
  end.

(** Characters that are read with newlines only inside quotes. *)
Fixpoint smooth (r : reader) (l : list ascii) (r' : reader) : Prop :=
  match l with
  | [] => r' = r
  | c :: l => ∃ r1, process field_limit r (Some c) = Ok r1
                    ∧ (is_newline c = true → rd_state r1 = InQuoted) ∧ smooth r1 l r'
  end.

Lemma smooth_app r l l' r1 r2 : smooth r l r1 → smooth r1 l' r2 → smooth r (l ++ l') r2.
Proof.
  revert r. induction l as [|c l IH]; intros r; cbn; [by intros ->|].
  intros (r0 & Hc & Hn & Hl) Hl'. exists r0. split_and!; [done..|]. by apply IH.
Qed.

Lemma smooth_run r l r' : smooth r l r' → foldE (process field_limit) r (Some <$> l) = Ok r'.
Proof.
  revert r. induction l as [|c l IH]; intros r; cbn [smooth fmap list_fmap foldE]; [by intros ->|].
  intros (r0 & -> & _ & Hl). mcbn. by apply IH.
Qed.

Lemma lines_LF cur text : lines_from cur (LF :: text) = (reverse cur ++ [LF]) :: lines_from [] text.
Proof. cbn [lines_from]. change (Ascii.eqb LF LF) with true. cbn iota. by rewrite reverse_cons. Qed.

Lemma lines_CRLF cur text : lines_from cur (CR :: LF :: text) = (reverse cur ++ [CR; LF]) :: lines_from [] text.
Proof.
  cbn [lines_from]. change (Ascii.eqb CR LF) with false. change (Ascii.eqb CR CR) with true.
  change (Ascii.eqb LF LF) with true. cbn iota. by rewrite !reverse_cons, <- app_assoc.
Qed.

Lemma lines_CR cur d text :
  d ≠ LF → lines_from cur (CR :: d :: text) = (reverse cur ++ [CR]) :: lines_from [] (d :: text).
Proof.
  intros Hd. cbn [lines_from]. change (Ascii.eqb CR LF) with false. change (Ascii.eqb CR CR) with true.
  destruct (Ascii.eqb_spec d LF); [done|]. cbn iota. by rewrite reverse_cons.
Qed.

Lemma lines_char cur c text : is_newline c = false → lines_from cur (c :: text) = lines_from (c :: cur) text.
Proof. unfold is_newline. intros [H1 H2]%orb_false_iff. cbn [lines_from]. by rewrite H1, H2. Qed.

Lemma read_quoted_line r0 l r lines :
  smooth r0 l r → rd_state r = InQuoted → read_lines field_limit r0 (l :: lines) = read_lines field_limit r lines.
Proof.
  intros Hs Hq. cbn [read_lines]. unfold process_line. rewrite foldE_app, (smooth_run _ _ _ Hs). mcbn. cbn [foldE].
  assert (process field_limit r None = Ok r) as -> by (unfold process; by rewrite Hq). mcbn.
  by rewrite decide_False by (by rewrite Hq).
Qed.

(** The states a cell can end in. *)
Definition ending (r : reader) : Prop :=
  rd_state r = QuoteInQuoted ∨ rd_state r = InField ∨ rd_state r = StartField.

Lemma ending_saves r :
  ending r → process field_limit r None = Ok (save_field StartRecord r)
  ∧ ∀ c, is_newline c = true → process field_limit r (Some c) = Ok (save_field EatCrnl r).
Proof.
  intros He. unfold process. split; [by destruct He as [->|[->| ->]]|]. intros c Hc. destruct (newline_chars c Hc) as [H1 H2].
  destruct He as [->|[->| ->]]; cbn [start_field]; by rewrite ?H1, ?H2, Hc.
Qed.
Lemma eat_newlines e r :
  rd_state r = EatCrnl → Forall (λ c, is_newline c = true) e →
  process_line field_limit r e = Ok (go_to StartRecord r).
Proof.
  intros Hr. unfold process_line. induction 1 as [|c e Hc _ IH]; cbn [fmap list_fmap app foldE].
  - unfold process. by rewrite Hr.
  - assert (process field_limit r (Some c) = Ok r) as -> by (unfold process; by rewrite Hr, Hc). exact IH.
Qed.
Lemma ending_line r e :
  ending r → Forall (λ c, is_newline c = true) e → process_line field_limit r e = Ok (save_field StartRecord r).
Proof.
  intros Hq He. destruct (ending_saves r Hq) as [Hnone Hsome]. destruct He as [|c e Hc He].
  - unfold process_line. cbn [fmap list_fmap app foldE]. by rewrite Hnone.
  - transitivity (process_line field_limit (save_field EatCrnl r) e); [|by apply (eat_newlines e (save_field EatCrnl r))].
    unfold process_line. cbn [fmap list_fmap app foldE]. by rewrite (Hsome c Hc).
Qed.
Lemma read_last_line r0 l r e lines :
  smooth r0 l r → ending r → Forall (λ c, is_newline c = true) e →
  read_lines field_limit r0 ((l ++ e) :: lines)
  = Ok (Some (rd_fields r ++ [String.string_of_list_ascii (rd_field r)], lines)).
Proof.
  intros Hs Hq He. cbn [read_lines]. unfold process_line.
  rewrite fmap_app, <- app_assoc, foldE_app, (smooth_run _ _ _ Hs). mcbn.
  pose proof (ending_line r e Hq He) as H. unfold process_line in H. by rewrite H.
Qed.

(** The line that ends a record. *)
Lemma lines_end cur e rest :
  ends_record e rest → cur ≠ [] ∨ e ≠ [] →
  lines_from cur (e ++ rest) = (reverse cur ++ e) :: split_lines rest ∧ Forall (λ c, is_newline c = true) e.
Proof.
  intros [->|[->|[[-> Hr]|[-> ->]]]] Hne; cbn [app].
  - rewrite lines_LF. by repeat constructor.
  - rewrite lines_CRLF. by repeat constructor.
  - split; [|by repeat constructor]. destruct rest as [|d rest].
    + cbn [lines_from]. change (Ascii.eqb CR LF) with false. change (Ascii.eqb CR CR) with true. by rewrite reverse_cons.
    + apply lines_CR. by intros ->.
  - split; [|constructor]. cbn [lines_from]. destruct Hne as [Hne|]; [|done]. rewrite decide_False by done. by rewrite app_nil_r.
Qed.

(** Lines within quotes are one record. *)
Lemma feed_lines text cur r0 r r1 e rest :
  smooth r0 (reverse cur) r → smooth r text r1 → ending r1 → ends_record e rest →
  rd_state r = InQuoted ∨ cur ≠ [] ∨ text ≠ [] →
  read_lines field_limit r0 (lines_from cur (text ++ e ++ rest))
  = Ok (Some (rd_fields r1 ++ [String.string_of_list_ascii (rd_field r1)], split_lines rest)).
Proof.
  intros Hcur Htext Hend He Hne. assert (rd_state r1 ≠ InQuoted) as Hnq by (destruct Hend as [->|[->| ->]]; done).
  remember (length text) as n eqn:Hn. revert text cur r0 r Hn Hcur Htext Hne.
  induction n as [n IH] using lt_wf_ind. intros text cur r0 r -> Hcur Htext Hne. destruct text as [|c text].
  { cbn in Htext. subst r1. cbn [app]. destruct (lines_end cur e rest He) as [-> Hnl]; [naive_solver|]. by apply read_last_line. }
  cbn [app]. clear Hne. destruct Htext as (r2 & Hc & Hnl & Htext).
  assert (smooth r0 (reverse cur ++ [c]) r2) as Hline by (eapply smooth_app; [done|by exists r2]).
  destruct (is_newline c) eqn:Hn; cycle 1.
  { rewrite lines_char by done. apply (IH (length text)) with (r := r2); [cbn; lia|done|by rewrite reverse_cons|done|by right; left]. }
  specialize (Hnl eq_refl). unfold is_newline in Hn. apply orb_true_iff in Hn. rewrite !Ascii.eqb_eq in Hn.
  destruct Hn as [->| ->].
  { rewrite lines_LF, (read_quoted_line _ _ _ _ Hline Hnl). by apply (IH (length text)) with (r := r2); [cbn; lia|done..|left]. }
  destruct text as [|d text]; [by cbn in Htext; subst r1|].
  cbn [app]. destruct (decide (d = LF)) as [->|Hd].
  - destruct Htext as (r3 & Hd & Hnl3 & Htext). specialize (Hnl3 eq_refl).
    rewrite lines_CRLF. rewrite (read_quoted_line _ _ r3).
    + by apply (IH (length text)) with (r := r3); [cbn; lia|done..|left].
    + change [CR; LF] with ([CR] ++ [LF]). rewrite app_assoc. eapply smooth_app; [done|by exists r3].
    + done.
  - rewrite lines_CR, (read_quoted_line _ _ _ _ Hline Hnl) by done.
    by apply (IH (length (d :: text))) with (text := d :: text) (r := r2); [cbn; lia|done..|left].
Qed.

(** ** Cells *)

Lemma add_fits s st c l f fs :
  characters (f ++ c :: l) ≤ field_limit →
  add_char field_limit s c (mk_reader st f fs) = Ok (mk_reader s (f ++ [c]) fs).
Proof.
  intros Hf. unfold add_char. cbn [rd_field rd_fields]. destruct (continues c) eqn:Hc; [done|]. cbn [negb andb].
  destruct (Z.leb_spec field_limit (characters f)) as [Hl|]; [|done]. exfalso.
  unfold characters in *. rewrite filter_app, filter_cons_True, zlen_app, zlen_cons in Hf by done.
  pose proof (zlen_nonneg (filter (λ c, continues c = false) l)). lia.
Qed.

Lemma escape_smooth l f fs :
  characters (f ++ l) ≤ field_limit →
  smooth (mk_reader InQuoted f fs) (concat (escape_char <$> l)) (mk_reader InQuoted (f ++ l) fs).
Proof.
  revert f. induction l as [|c l IH]; intros f Hf; cbn [fmap list_fmap concat]; [by rewrite app_nil_r|].
  eapply smooth_app; [|rewrite (cons_middle c f l), app_assoc; apply IH; by rewrite <- app_assoc].
  unfold escape_char. destruct (Ascii.eqb_spec c QUOTE) as [->|Hne]; cbn [smooth].
  - eexists. split; [reflexivity|]. split; [done|]. eexists. split; [cbn; by eapply add_fits|done].
  - eexists. split; [|split; [|reflexivity]]; [|done]. unfold process. cbn [rd_state].
    destruct (Ascii.eqb_spec c QUOTE); [done|]. by eapply add_fits.
Qed.

Lemma separates_false c : separates c = false → is_newline c = false ∧ Ascii.eqb c COMMA = false.
Proof. apply orb_false_iff. Qed.

(** The characters of a cell without quotes, after the first. *)
Lemma plain_smooth l f fs :
  forallb (λ c, negb (separates c)) l = true → characters (f ++ l) ≤ field_limit →
  smooth (mk_reader InField f fs) l (mk_reader InField (f ++ l) fs).
Proof.
  revert f. induction l as [|c l IH]; intros f Hp Hf; cbn [smooth]; [by rewrite app_nil_r|].
  cbn [forallb] in Hp. apply andb_true_iff in Hp as [[Hn Hc]%negb_true_iff%separates_false Hp].
  eexists. split; [unfold process; cbn [rd_state]; rewrite Hn, Hc; by eapply add_fits|]. split; [by rewrite Hn|].
  rewrite (cons_middle c f l), app_assoc. apply IH; [done|]. by rewrite <- app_assoc.
Qed.

Lemma cell_smooth s t fs st :
  writes_cell s t → (st = StartRecord ∨ st = StartField) → characters (chars s) ≤ field_limit →
  ∃ st', smooth (mk_reader st [] fs) t (mk_reader st' (chars s) fs)
    ∧ (st' = QuoteInQuoted ∨ st' = InField ∨ (st' = st ∧ t = [])).
Proof.
  intros Ht Hst Hs. destruct Ht as [s|s Hp].
  - exists QuoteInQuoted. split; [|by left]. unfold cell_text. cbn [app smooth]. exists (mk_reader InQuoted [] fs).
    split; [destruct Hst as [-> | ->]; done|]. split; [done|]. eapply smooth_app; [apply escape_smooth; exact Hs|].
    cbn [smooth app]. by eexists.
  - unfold plain in Hp. destruct (chars s) as [|c l]; [exists st; split; [done|by right; right]|]. exists InField. split; [|by right; left].
    cbn [forallb] in Hp. rewrite !andb_true_iff in Hp. destruct Hp as [[Hc Hl] Hq]. apply negb_true_iff in Hc, Hq.
    apply separates_false in Hc as [Hn Hc]. cbn [smooth].
    exists (mk_reader InField [c] fs). split; [|split; [by rewrite Hn|by apply (plain_smooth l [c])]].
    destruct Hst as [-> | ->]; unfold process, go_to; cbn [rd_state rd_field rd_fields start_field]; rewrite ?Hn, ?Hq, ?Hc;
      by apply (add_fits _ _ _ l []).
Qed.

Lemma comma_saves st s fs :
  st ≠ InQuoted → st ≠ EatCrnl →
  process field_limit (mk_reader st (chars s) fs) (Some COMMA) = Ok (mk_reader StartField [] (fs ++ [s])).
Proof.
  intros H1 H2. destruct st; try done; cbn; unfold save_field; cbn; unfold chars; by rewrite String.string_of_list_ascii_of_string.
Qed.

Lemma cells_smooth cells text fs st :
  writes_cells cells text → (st = StartRecord ∨ st = StartField) → Forall (λ s, characters (chars s) ≤ field_limit) cells →
  st = StartField ∨ text ≠ [] →
  ∃ s r, smooth (mk_reader st [] fs) text r ∧ ending r ∧ rd_field r = chars s ∧ rd_fields r ++ [s] = fs ++ cells.
Proof.
  intros Hw. revert fs st. induction Hw as [s t Ht|s cells t text Ht Hw IH]; intros fs st Hst Hall Hne; apply Forall_cons in Hall as [Hs Hall];
    destruct (cell_smooth s t fs st Ht Hst Hs) as (st' & Hr & Hst').
  - exists s, (mk_reader st' (chars s) fs). split; [done|]. split; [|done]. unfold ending. cbn. naive_solver.
  - destruct (IH (fs ++ [s]) StartField (or_intror eq_refl) Hall (or_introl eq_refl)) as (z & r & Hz & He & Hf & E). exists z, r.
    split; [|by rewrite <- app_assoc in E]. eapply smooth_app; [done|]. cbn [smooth]. exists (mk_reader StartField [] (fs ++ [s])).
    split; [apply comma_saves; destruct Hst as [-> | ->]; naive_solver|by split].
Qed.

Lemma read_record_written cells t e rest :
  writes_cells cells t → t ≠ [] → ends_record e rest → Forall (λ s, characters (chars s) ≤ field_limit) cells →
  read_record field_limit (split_lines (t ++ e ++ rest)) = Ok (Some (cells, split_lines rest)).
Proof.
  intros Hw Ht He Hall. destruct (cells_smooth cells t [] StartRecord Hw (or_introl eq_refl) Hall (or_intror Ht)) as (s & r & Hs & Hend & Hf & E).
  unfold split_lines at 1, read_record. rewrite (feed_lines t [] start_reader start_reader r e rest eq_refl Hs Hend He) by auto.
  rewrite Hf. unfold chars. rewrite String.string_of_list_ascii_of_string. by rewrite E.
Qed.

Lemma read_written_table rows text fuel :
  writes_table rows text → Forall (Forall (λ s, characters (chars s) ≤ field_limit)) rows →
  (length rows < fuel)%nat → read_table fuel (split_lines text) = Some rows.
Proof.
  intros Hw. revert fuel. induction Hw as [|cells rows t e rest Hc Ht He _ IH]; intros fuel Hall Hf; (destruct fuel as [|fuel]; [lia|]).
  { done. }
  apply Forall_cons in Hall as [Hl Hall]. cbn [read_table]. rewrite (read_record_written cells) by done.
  cbn in Hf. rewrite IH by (done || lia). done.
Qed.
End tables.
