(* ===== verification/Csv.v ===== *)
(** * CSV conversion

    Models [python/src/sil/csv_recording.py]: the mapping document ([mapping_of]),
    the cells of timestamps and fields ([clock_ns], [field_value_of]), the rows
    ([read_rows]), the Recording that is written and the receipt ([convert]).
    The text of the CSV file is read with CsvText.v.

    Numbers of the document that are not integers are [Decimal]s, so it has its
    own type of values, [djson]. [json.loads], UTF-8 decoding, the text of a
    schema ([json.dumps]), SHA-256 and the ids the mcap writer returns are
    parameters. Not modelled: the files, the message texts, the command. *)

From Stdlib Require Import ZArith Lia Ascii QArith Qreduction.
From Stdlib.Floats Require Import SpecFloat.
From S2P Require Import Prelude PyFloat Json SchemaTypes Schema Pointer Manifest CsvText.
Open Scope Z_scope.

(** ** Numbers *)

(** A finite [Decimal]: [(-1)^neg * coef * 10^exp]. *)
Record dec := mk_dec { dc_neg : bool; dc_coef : Z; dc_exp : Z }.

Definition dec_Q (d : dec) : Q :=
  let m := if dc_neg d then - dc_coef d else dc_coef d in
  if 0 <=? dc_exp d then inject_Z (m * 10 ^ dc_exp d) else Qmake m (Z.to_pos (10 ^ (- dc_exp d))).

Definition INFINITY : Z := f_join 52 11 false 2047 0.

(** The number of decimal digits of a coefficient. *)
Fixpoint count_digits (fuel : nat) (z : Z) : Z :=
  match fuel with
  | O => 0
  | S fuel => if z =? 0 then 0 else 1 + count_digits fuel (z / 10)
  end.
Definition digit_count (z : Z) : Z := count_digits (Z.to_nat (Z.log2 z + 1)) z.

(** [float(d)], and [float] of a decimal text: the nearest binary64. A quotient
    has one bit more than the format and a sticky bit. *)
Definition float_of_dec (d : dec) : Z :=
  let s := dc_neg d in
  let m := dc_coef d in
  if m =? 0 then f_join 52 11 s 0 0
  else if 310 <? digit_count m + dc_exp d then infinity_of s
  else if digit_count m + dc_exp d <? -330 then f_join 52 11 s 0 0
  else if 0 <=? dc_exp d then default (infinity_of s) (round_ieee 52 11 s (m * 10 ^ dc_exp d) 0)
  else
    let den := 10 ^ (- dc_exp d) in
    let k := Z.log2 den + 1200 in
    let q := m * 2 ^ k / den in
    let r := m * 2 ^ k mod den in
    default (infinity_of s) (round_ieee 52 11 s (2 * q + (if r =? 0 then 0 else 1)) (- (k + 1))).

(** ** Cells *)

Inductive cell_error :=
| XNotPlain
| XDigits
| XNotWhole
| XNegative
| XOverflow
| XNotInteger
| XRange (value : Z)
| XNonFinite
| XNotDecimal
| XUnderflow
| XNotFinite
| XF32Range
(** [decimal.InvalidOperation], which is no ValueError. *)
| XInvalidOperation.

Abbreviation celled := (result cell_error).

Definition digit_of (c : ascii) : Z := Z.of_N (N_of_ascii c) - 48.
Definition number_of (ds : list ascii) : Z := foldl (λ acc c, acc * 10 + digit_of c) 0 ds.

Fixpoint span_digits (l : list ascii) : list ascii * list ascii :=
  match l with
  | c :: tl => if is_digit c then let '(ds, rest) := span_digits tl in (c :: ds, rest) else ([], l)
  | [] => ([], [])
  end.

(** [[+-]?]. *)
Definition span_sign (l : list ascii) : bool * list ascii :=
  match l with
  | c :: tl => if Ascii.eqb c "-" then (true, tl) else if Ascii.eqb c "+" then (false, tl) else (false, l)
  | [] => (false, [])
  end.

(** [_INTEGER]: the sign and the digits. *)
Definition integer_cell (cell : string) : option (bool * list ascii) :=
  let '(s, l) := span_sign (chars cell) in
  match span_digits l with
  | (ds, []) => if decide (ds = []) then None else Some (s, ds)
  | _ => None
  end.

(** [_DECIMAL]: the sign and the digits before and after the point. *)
Definition decimal_cell (cell : string) : option (bool * list ascii * list ascii) :=
  let '(s, l) := span_sign (chars cell) in
  match span_digits l with
  | ([], _) => None
  | (ds, []) => Some (s, ds, [])
  | (ds, c :: tl) =>
      if Ascii.eqb c "." then
        match span_digits tl with
        | (fs, []) => if decide (fs = []) then None else Some (s, ds, fs)
        | _ => None
        end
      else None
  end.

(** The exponent of [_FLOAT]: nothing, or [[eE][+-]?[0-9]+]. *)
Definition exponent_of (l : list ascii) : option Z :=
  match l with
  | [] => Some 0
  | c :: tl =>
      if Ascii.eqb c "e" || Ascii.eqb c "E" then
        let '(s, l) := span_sign tl in
        match span_digits l with
        | (ds, []) => if decide (ds = []) then None else Some (if s then - number_of ds else number_of ds)
        | _ => None
        end
      else None
  end.

(** [_FLOAT]. *)
Definition float_cell (cell : string) : option dec :=
  let '(s, l) := span_sign (chars cell) in
  let '(ds, rest) := span_digits l in
  let '(fs, rest, point) :=
    match rest with
    | c :: tl => if Ascii.eqb c "." then let '(fs, rest) := span_digits tl in (fs, rest, true) else ([], rest, false)
    | [] => ([], [], false)
    end in
  if decide (ds = [] ∧ (point = false ∨ fs = [])) then None
  else e ← exponent_of rest; Some (mk_dec s (number_of (ds ++ fs)) (e - zlen fs)).

(** [str.lower] of ASCII letters. *)
Definition lower (c : ascii) : ascii :=
  if char_between "A" "Z" c then ascii_of_N (N_of_ascii c + 32) else c.

(** [_NON_FINITE]. *)
Definition non_finite_cell (cell : string) : bool :=
  let '(_, l) := span_sign (chars cell) in
  let w := String.string_of_list_ascii (lower <$> l) in
  bool_decide (w ∈ ["nan"; "inf"; "infinity"]%string).

(** [sys.int_info.default_max_str_digits]. *)
Definition INT_MAX_STR_DIGITS : Z := 4300.
Definition int_digits (ds : list ascii) : celled Z :=
  if INT_MAX_STR_DIGITS <? zlen ds then Err XDigits else Ok (number_of ds).

Definition NS_PER_UNIT : list (string * Z) := [("s", 10 ^ 9); ("ms", 10 ^ 6); ("us", 10 ^ 3); ("ns", 1)]%string.

Record clock := mk_clock { ck_column : string; ck_unit : string; ck_origin : Q }.

Definition ns_per_unit (c : clock) : Z := default 1 (dget NS_PER_UNIT (ck_unit c)).

(** [Fraction] of a plain decimal. *)
Definition fraction_of (s : bool) (ds fs : list ascii) : celled Q :=
  i ← int_digits ds;
  f ← int_digits fs;
  Ok (dec_Q (mk_dec s (i * 10 ^ zlen fs + f) (- zlen fs))).

(** [_Clock.ns]. *)
Definition clock_ns (c : clock) (cell : string) : celled Z :=
  match decimal_cell cell with
  | None => Err XNotPlain
  | Some (s, ds, fs) =>
      q ← fraction_of s ds fs;
      let ns := Qred ((q - ck_origin c) * inject_Z (ns_per_unit c)) in
      raise: XNotWhole if: negb (Pos.eqb (Qden ns) 1);;
      raise: XNegative if: Qnum ns <? 0;;
      raise: XOverflow if: u64_max <? Qnum ns;;
      Ok (Qnum ns)
  end.

(** [_Field]. The factors are ints for an integer type, and floats otherwise. *)
Record cfield := mk_cfield {
  cf_name : string;
  cf_type : prim;
  cf_column : string;
  cf_scale : pynum;
  cf_offset : pynum;
}.

Definition int_num (n : pynum) : Z := match n with PInt z => z | PFloat _ => 0 end.
Definition float_num (n : pynum) : Z := match n with PFloat b => b | PInt _ => 0 end.

(** [_Field._integer]. *)
Definition integer_value (f : cfield) (range : Z * Z) (cell : string) : celled pynum :=
  match integer_cell cell with
  | None => Err XNotInteger
  | Some (s, ds) =>
      i ← int_digits ds;
      let v := (if s then - i else i) * int_num (cf_scale f) + int_num (cf_offset f) in
      if in_range range.1 range.2 v then Ok (PInt v) else Err (XRange v)
  end.

Definition is_zero (b : Z) : bool := num_eq (PFloat b) (PInt 0).

(** [_Field._nonzero]. *)
Definition nonzero (v : Z) (was_nonzero : bool) : celled Z :=
  if is_zero v && was_nonzero then Err XUnderflow else Ok v.

(** The exponents a [Decimal] can have on a 64-bit platform. *)
Definition MAX_EMAX : Z := 999999999999999999.
Definition ETINY : Z := - MAX_EMAX - (MAX_EMAX - 1).
Definition decimal_fits (d : dec) : bool :=
  (ETINY <=? dc_exp d)
  && (if dc_coef d =? 0 then dc_exp d <=? MAX_EMAX else dc_exp d + digit_count (dc_coef d) - 1 <=? MAX_EMAX).

(** [_Field._float]. *)
Definition float_value (f : cfield) (cell : string) : celled pynum :=
  raise: XNonFinite if: non_finite_cell cell;;
  d ← match float_cell cell with Some d => Ok d | None => Err XNotDecimal end;
  raise: XInvalidOperation if: negb (decimal_fits d);;
  v ← nonzero (float_of_dec d) (negb (dc_coef d =? 0));
  v ← (if num_eq (cf_scale f) (PInt 1) then Ok v else nonzero (fmul v (float_num (cf_scale f))) (negb (is_zero v)));
  let v := if num_eq (cf_offset f) (PInt 0) then v else fadd v (float_num (cf_offset f)) in
  raise: XNotFinite if: negb (is_finite64 v);;
  v ← match cf_type f with
      | F32 => match narrow v with
               | None => Err XF32Range
               | Some n => nonzero (widen n) (negb (is_zero v))
               end
      | _ => Ok v
      end;
  Ok (PFloat v).

(** [_Field.value]. *)
Definition value_of (f : cfield) (cell : string) : celled pynum :=
  match int_range (cf_type f) with
  | Some range => integer_value f range cell
  | None => float_value f cell
  end.

(** ** The mapping document *)

(** JSON with [parse_float=Decimal]. *)
Inductive djson :=
| DNull
| DBool (b : bool)
| DInt (z : Z)
| DDec (d : dec)
| DStr (s : string)
| DArr (l : list djson)
| DObj (d : list (string * djson)).

(** The same value with no [Decimal] in it. *)
Fixpoint djson_json (v : djson) : option json :=
  match v with
  | DNull => Some JNull
  | DBool b => Some (JBool b)
  | DInt z => Some (JInt z)
  | DDec _ => None
  | DStr s => Some (JStr s)
  | DArr l =>
      JArr <$> (fix go l := match l with
                            | [] => Some []
                            | x :: l => y ← djson_json x; ys ← go l; Some (y :: ys)
                            end) l
  | DObj d =>
      JObj <$> (fix go d := match d with
                            | [] => Some []
                            | kx :: d => y ← djson_json kx.2; ys ← go d; Some ((kx.1, y) :: ys)
                            end) d
  end.

Inductive conversion_error :=
| VOutput
| VNotJson
| VDuplicateKey (key : string)
| VNotObject (w : where_)
| VUnknownKeys (w : where_) (keys : list string)
| VMissingKeys (w : where_) (keys : list string)
| VNotString (w : where_)
| VNotNumber (w : where_)
| VVersion
| VUnit
| VSchemas (e : manifest_error)
| VSchemaDecimal
| VNoChannels
| VTwice (channel : string)
| VNoSchema (channel schema : string)
| VExtraFields (channel : string) (fields : list string)
| VMissingFields (channel : string) (fields : list string)
| VTakes (w : where_) (key : string)
| VColumns (w : where_) (count : Z)
| VIntegerFactor (w : where_)
| VFiniteFactor (w : where_)
| VNotUtf8
| VHeader (e : csv_error)
| VNoHeader
| VColumnTwice (name : string)
| VMissingColumns (names : list string)
| VMalformed (row line : Z) (c : column) (e : csv_error)
| VWidth (row line expected got : Z)
| VCell (row line : Z) (column : string) (e : cell_error)
| VDescends (row line : Z) (ns previous : Z)
| VPartial (row line : Z) (channel : string) (columns : list string)
| VNoMessages
(** Python's KeyError and struct.error, and the model's fuel. *)
| VKeyError
| VStructError (e : pack_error)
| VFuel.

Abbreviation converted := (result conversion_error).

(** [_unique_keys] on every object. *)
Fixpoint unique_keys (v : djson) : converted djson :=
  match v with
  | DArr l => l ← mapE unique_keys l; Ok (DArr l)
  | DObj d =>
      d ← mapE (λ kx, y ← unique_keys kx.2; Ok (kx.1, y)) d;
      _ ← foldE (λ seen kx, raise: VDuplicateKey kx.1 if: bool_decide (kx.1 ∈ seen);; Ok (kx.1 :: seen)) [] d;
      Ok (DObj d)
  | _ => Ok v
  end.

(** [_object]. *)
Definition object_of (v : djson) (w : where_) (required optional : list string) : converted (list (string * djson)) :=
  match v with
  | DObj d =>
      match merge_sort String.le (filter (λ k, k ∉ required ++ optional) d.*1) with
      | [] => match merge_sort String.le (filter (λ k, k ∉ d.*1) required) with
              | [] => Ok d
              | missing => Err (VMissingKeys w missing)
              end
      | unknown => Err (VUnknownKeys w unknown)
      end
  | _ => Err (VNotObject w)
  end.

Definition ditem_of (d : list (string * djson)) (k : string) : converted djson :=
  match dget d k with Some v => Ok v | None => Err VKeyError end.

(** [_string] and [_number]. *)
Definition string_of (v : djson) (w : where_) : converted string :=
  match v with
  | DStr s => if String.eqb s "" then Err (VNotString w) else Ok s
  | _ => Err (VNotString w)
  end.
Definition number_arg (v : djson) (w : where_) : converted djson :=
  match v with
  | DInt _ | DDec _ => Ok v
  | _ => Err (VNotNumber w)
  end.

(** [Fraction] of a number. *)
Definition number_Q (v : djson) : Q :=
  match v with
  | DInt z => inject_Z z
  | DDec d => dec_Q d
  | _ => inject_Z 0
  end.

(** [_clock]. *)
Definition clock_of (v : djson) : converted clock :=
  let w := [TKey "timestamp"] in
  d ← object_of v w ["column"; "unit"]%string ["origin"%string];
  unit_ ← ditem_of d "unit" ≫= λ u, match u with
                                    | DStr s => if dmem NS_PER_UNIT s then Ok s else Err VUnit
                                    | _ => Err VUnit
                                    end;
  origin ← number_arg (default (DInt 0) (dget d "origin"%string)) (w ++ [TKey "origin"]);
  column ← ditem_of d "column" ≫= λ c, string_of c (w ++ [TKey "column"]);
  Ok (mk_clock column unit_ (number_Q origin)).

(** [_schemas]: the builder's own checks. A [Decimal] passes none of them. *)
Definition schemas_of (v : djson) : converted (list (string * json)) :=
  match v with
  | DObj _ =>
      match djson_json v with
      | Some (JObj d as j) =>
          match new_manifest (JInt 1) (JInt 0) with
          | Ok m => match add_schemas m j with
                    | (_, None) => Ok d
                    | (_, Some e) => Err (VSchemas e)
                    end
          | Err e => Err (VSchemas e)
          end
      | _ => Err VSchemaDecimal
      end
  | _ => Err (VNotObject [TKey "schemas"])
  end.

(** [_field]. *)
Definition factor_of (p : prim) (spec : list (string * djson)) (key : string) (identity : Z) (w : where_)
    : converted pynum :=
  n ← number_arg (default (DInt identity) (dget spec key)) (w ++ [TKey key]);
  if is_int_type p then
    match n with DInt z => Ok (PInt z) | _ => Err (VIntegerFactor (w ++ [TKey key])) end
  else
    let b := match n with
             | DInt z => default INFINITY (float_of_int z)
             | DDec d => float_of_dec d
             | _ => INFINITY
             end in
    if is_finite64 b then Ok (PFloat b) else Err (VFiniteFactor (w ++ [TKey key])).

Definition field_with (name : string) (p : prim) (spec : list (string * djson)) (column : string) (w : where_)
    : converted cfield :=
  scale ← factor_of p spec "scale" 1 w;
  offset ← factor_of p spec "offset" 0 w;
  Ok (mk_cfield name p column scale offset).

(** The field of an accepted Schema: its name, type and count. *)
Definition declared_field (f : json) : converted (string * prim * option Z) :=
  match jget f "name", jget f "type" with
  | Some (JStr n), Some (JStr t) =>
      match prim_of_name t with
      | Some p => Ok (n, p, match jget f "count" with Some (JInt c) => Some c | _ => None end)
      | None => Err VKeyError
      end
  | _, _ => Err VKeyError
  end.

Definition element_name (name : string) (i : nat) : string := (name ++ "[" ++ decimal_Z (Z.of_nat i) ++ "]")%string.

(** [_fields]. *)
Definition fields_with (declared : string * prim * option Z) (spec : djson) (w : where_) : converted (list cfield) :=
  let '(name, p, count) := declared in
  let key := match count with None => "column"%string | Some _ => "columns"%string end in
  raise: VTakes w key
    if: match spec with
        | DObj d => negb (dmem d key) && (dmem d "column"%string || dmem d "columns"%string)
        | _ => false
        end;;
  d ← object_of spec w [key] ["scale"; "offset"]%string;
  match count with
  | None =>
      column ← ditem_of d "column" ≫= λ c, string_of c (w ++ [TKey "column"]);
      f ← field_with name p d column w;
      Ok [f]
  | Some n =>
      columns ← ditem_of d "columns";
      match columns with
      | DArr l =>
          raise: VColumns w n if: negb (zlen l =? n);;
          mapE (λ ix, column ← string_of ix.2 (w ++ [TKey "columns"; TIdx ix.1]);
                      field_with (element_name name ix.1) p d column w) (enumerate l)
      | _ => Err (VColumns w n)
      end
  end.

(** [_Channel]; [cc_schema_json] is the Schema, whose canonical text is written. *)
Record cchannel := mk_cchannel {
  cc_name : string;
  cc_schema : string;
  cc_schema_json : json;
  cc_fields : list cfield;
}.
Definition layout_of (c : cchannel) : list Struct.item := (λ f, Struct.IPrim (cf_type f)) <$> cc_fields c.

(** [_channel]. *)
Definition channel_of (entry : djson) (w : where_) (schemas : list (string * json)) : converted cchannel :=
  d ← object_of entry w ["channel"; "schema"; "fields"]%string [];
  name ← ditem_of d "channel" ≫= λ c, string_of c (w ++ [TKey "channel"]);
  schema ← ditem_of d "schema" ≫= λ s, string_of s [TKey name; TKey "schema"];
  body ← match dget schemas schema with Some s => Ok s | None => Err (VNoSchema name schema) end;
  declared ← match jget body "fields" with Some (JArr l) => mapE declared_field l | _ => Err VKeyError end;
  specs ← ditem_of d "fields" ≫= λ f, match f with DObj s => Ok s | _ => Err (VNotObject [TKey name; TKey "fields"]) end;
  let names := (λ f, f.1.1) <$> declared in
  raise: VExtraFields name (merge_sort String.le (filter (λ k, k ∉ names) specs.*1))
    if: negb (bool_decide (filter (λ k, k ∉ names) specs.*1 = []));;
  raise: VMissingFields name (filter (λ n, n ∉ specs.*1) names)
    if: negb (bool_decide (filter (λ n, n ∉ specs.*1) names = []));;
  fields ← mapE (λ f, spec ← ditem_of specs f.1.1; fields_with f spec [TKey name; TKey f.1.1]) declared;
  Ok (mk_cchannel name schema body (concat fields)).

Record csv_mapping := mk_csv_mapping { cm_clock : clock; cm_channels : list cchannel }.

(** [list(dict.fromkeys(l))]. *)
Definition distinct (l : list string) : list string :=
  foldl (λ acc x, if bool_decide (x ∈ acc) then acc else acc ++ [x]) [] l.

(** [_Mapping.columns]. *)
Definition columns_of (m : csv_mapping) : list string :=
  distinct (ck_column (cm_clock m) :: concat ((λ c, cf_column <$> cc_fields c) <$> cm_channels m)).

Definition add_channel_of (schemas : list (string * json)) (channels : list cchannel) (ix : nat * djson)
    : converted (list cchannel) :=
  c ← channel_of ix.2 [TKey "channels"; TIdx ix.1] schemas;
  raise: VTwice (cc_name c) if: bool_decide (cc_name c ∈ cc_name <$> channels);;
  Ok (channels ++ [c]).

(** [_mapping]. *)
Definition mapping_of (doc : djson) : converted csv_mapping :=
  d ← object_of doc [] ["sil_csv_mapping"; "timestamp"; "schemas"; "channels"]%string [];
  version ← ditem_of d "sil_csv_mapping";
  raise: VVersion if: match version with
                      | DInt z => negb (z =? 1)
                      | DDec v => negb (Qeq_bool (dec_Q v) 1)
                      | _ => true
                      end;;
  clock ← ditem_of d "timestamp" ≫= clock_of;
  schemas ← ditem_of d "schemas" ≫= schemas_of;
  entries ← ditem_of d "channels" ≫= λ e, match e with
                                           | DArr [] => Err VNoChannels
                                           | DArr l => Ok l
                                           | _ => Err VNoChannels
                                           end;
  channels ← foldE (add_channel_of schemas) [] (enumerate entries);
  Ok (mk_csv_mapping clock channels).

(** [_parse_mapping]; [loads] keeps repeated keys. *)
Definition parse_mapping (loads : bytes → option djson) (data : bytes) : converted csv_mapping :=
  match loads data with
  | None => Err VNotJson
  | Some raw => doc ← unique_keys raw; mapping_of doc
  end.

(** ** Rows *)

(** [_Message]. *)
Record cmessage := mk_cmessage { cg_channel : nat; cg_ns : Z; cg_payload : bytes }.

(** [_column_index]. *)
Definition column_index (header : list string) (m : csv_mapping) : converted (list (string * nat)) :=
  index ← foldE (λ index ix, raise: VColumnTwice ix.2 if: dmem index ix.2;; Ok (dset index ix.2 ix.1)) []
            (enumerate header);
  let missing := filter (λ c, c ∉ index.*1) (columns_of m) in
  raise: VMissingColumns missing if: negb (bool_decide (missing = []));;
  Ok index.

Section row.
Context (m : csv_mapping) (index : list (string * nat)).

(** [cells[index[column]]]. *)
Definition cell_of (cells : list string) (column : string) : converted string :=
  match dget index column ≫= λ i, cells !! i with Some c => Ok c | None => Err VKeyError end.

(** [_row_ns]. *)
Definition row_ns (row line : Z) (cells : list string) (previous : option Z) : converted Z :=
  let c := cm_clock m in
  cell ← cell_of cells (ck_column c);
  ns ← match clock_ns c cell with Ok ns => Ok ns | Err e => Err (VCell row line (ck_column c) e) end;
  match previous with
  | Some p => raise: VDescends row line ns p if: ns <? p;; Ok ns
  | None => Ok ns
  end.

Definition cell_value (row line : Z) (fc : cfield * string) : converted value :=
  match value_of fc.1 fc.2 with
  | Ok v => Ok (VNum v)
  | Err e => Err (VCell row line (cf_column fc.1) e)
  end.

(** [_payload]. *)
Definition payload_of (row line : Z) (c : cchannel) (cells : list string) : converted (option bytes) :=
  raw ← mapE (λ f, cell_of cells (cf_column f)) (cc_fields c);
  let empty := (λ fc, cf_column fc.1) <$> filter (λ fc, fc.2 = ""%string) (zip (cc_fields c) raw) in
  if zlen empty =? zlen raw then Ok None
  else
    raise: VPartial row line (cc_name c) empty if: negb (bool_decide (empty = []));;
    values ← mapE (cell_value row line) (zip (cc_fields c) raw);
    match Struct.pack (layout_of c) values with
    | Ok payload => Ok (Some payload)
    | Err e => Err (VStructError e)
    end.

(** [_row_messages]. *)
Definition row_messages (row line : Z) (cells : list string) (ns : Z) : converted (list cmessage) :=
  foldE (λ messages ic,
    payload ← payload_of row line ic.2 cells;
    Ok (match payload with Some p => messages ++ [mk_cmessage ic.1 ns p] | None => messages end))
    [] (enumerate (cm_channels m)).

(** The body of the loop of [_read_rows], for a row of [width] cells. *)
Definition read_row (width row line : Z) (cells : list string) (previous : option Z)
    : converted (Z * list cmessage) :=
  raise: VWidth row line width (zlen cells) if: negb (zlen cells =? width);;
  ns ← row_ns row line cells previous;
  messages ← row_messages row line cells ns;
  Ok (ns, messages).
End row.

Section rows.
Context (field_limit : Z) (m : csv_mapping) (text : list ascii) (header : list string) (index : list (string * nat)).

(** The loop: the rows so far, the last timestamp and the Messages. Every record
    takes a line, so the number of lines is fuel. *)
Fixpoint rows_loop (fuel : nat) (lines : list (list ascii)) (rows : Z) (previous : option Z) (messages : list cmessage)
    : converted (Z * list cmessage) :=
  match fuel with
  | O => Err VFuel
  | S fuel =>
      let line := zlen (split_lines text) - zlen lines + 1 in
      match read_record field_limit lines with
      | Err (e, _) => Err (VMalformed (rows + 1) line (broken_column text (Z.to_nat line) header) e)
      | Ok None => Ok (rows, messages)
      | Ok (Some (cells, rest)) =>
          '(ns, ms) ← read_row m index (zlen header) (rows + 1) line cells previous;
          rows_loop fuel rest (rows + 1) (Some ns) (messages ++ ms)
      end
  end.
End rows.

(** [_read_rows], from the decoded text. *)
Definition read_rows (field_limit : Z) (m : csv_mapping) (text : list ascii) : converted (Z * list cmessage) :=
  let lines := split_lines text in
  match read_record field_limit lines with
  | Err (e, _) => Err (VHeader e)
  | Ok None => Err VNoHeader
  | Ok (Some (header, rest)) =>
      index ← column_index header m;
      rows_loop field_limit m text header index (S (length lines)) rest 0 None []
  end.

(** ** Output *)

(** The calls on the mcap writer. *)
Inductive csv_call :=
| KStart (profile library : string)
| KMetadata (name : string) (entries : list (string * string))
| KSchema (name encoding : string) (data : bytes)
| KChannel (topic encoding : string) (schema_id : Z)
| KMessage (channel_id log_time publish_time : Z) (data : bytes)
| KFinish.

Section writing.
(** The ids the writer returns for its n-th Schema and Channel, and the canonical
    text of a Schema. *)
Context (schema_id channel_id : nat → Z) (dumps : json → bytes).

Definition register_channel (st : list (string * Z) * list Z * list csv_call) (c : cchannel)
    : list (string * Z) * list Z * list csv_call :=
  let '(schema_ids, channel_ids, calls) := st in
  let '(schema_ids, calls) :=
    match dget schema_ids (cc_schema c) with
    | Some _ => (schema_ids, calls)
    | None => (dset schema_ids (cc_schema c) (schema_id (length schema_ids)),
               calls ++ [KSchema (cc_schema c) "sil_pod" (dumps (cc_schema_json c))])
    end in
  (schema_ids, channel_ids ++ [channel_id (length channel_ids)],
   calls ++ [KChannel (cc_name c) "sil_pod" (default 0 (dget schema_ids (cc_schema c)))]).

(** [_recording]. *)
Definition recording_calls (version : string) (m : csv_mapping) (messages : list cmessage)
    (digests : list (string * string)) : list csv_call :=
  let '(_, ids, calls) := foldl register_channel ([], [], []) (cm_channels m) in
  [KStart "sil" ("sil-csv/" ++ version); KMetadata "sil_csv" digests] ++ calls
  ++ ((λ g, KMessage (default 0 (ids !! cg_channel g)) (cg_ns g) (cg_ns g) (cg_payload g)) <$> messages)
  ++ [KFinish].
End writing.

(** [_receipt]: the Channels and the time bounds. *)
Record tally := mk_tally { ta_schema : string; ta_messages : Z; ta_first : option Z; ta_last : option Z }.
Record csv_receipt := mk_csv_receipt { re_channels : list (string * tally); re_bounds : option (Z * Z); re_rows : Z }.

Definition count_message (m : csv_mapping) (d : list (string * tally)) (g : cmessage) : list (string * tally) :=
  match cm_channels m !! cg_channel g with
  | Some c =>
      match dget d (cc_name c) with
      | Some t => dset d (cc_name c) (mk_tally (ta_schema t) (ta_messages t + 1)
                    (match ta_first t with None => Some (cg_ns g) | f => f end) (Some (cg_ns g)))
      | None => d
      end
  | None => d
  end.

Definition receipt_of (m : csv_mapping) (rows : Z) (messages : list cmessage) : csv_receipt :=
  let d := foldl (λ d c, dset d (cc_name c) (mk_tally (cc_schema c) 0 None None)) [] (cm_channels m) in
  mk_csv_receipt (foldl (count_message m) d messages)
    (match head messages, last messages with Some a, Some b => Some (cg_ns a, cg_ns b) | _, _ => None end) rows.

Section convert.
Context (loads : bytes → option djson) (decode : bytes → option (list ascii)) (dumps : json → bytes)
  (sha256 : bytes → string) (schema_id channel_id : nat → Z) (version : string) (field_limit : Z).

(** [convert], of the bytes of the two files; [suffix] is that of the output. *)
Definition convert (mapping source : bytes) (suffix : string) : converted (list csv_call * csv_receipt) :=
  raise: VOutput if: negb (String.eqb suffix ".mcap");;
  m ← parse_mapping loads mapping;
  text ← match decode source with Some t => Ok t | None => Err VNotUtf8 end;
  '(rows, messages) ← read_rows field_limit m text;
  raise: VNoMessages if: bool_decide (messages = []);;
  Ok (recording_calls schema_id channel_id dumps version m messages
        [("source_sha256", sha256 source); ("mapping_sha256", sha256 mapping)]%string,
      receipt_of m rows messages).
End convert.
