(* ===== verification/CsvProofs.v ===== *)
(** * What a CSV conversion promises

    [timestamps_exact]: a timestamp is exact nanoseconds after the origin or it
    is refused. [table_converted]: of a CSV file that holds a table, however its
    cells are quoted and its lines end ([writes_table] of CsvText.v), every row gives, in order, one Message for each Channel whose cells it fills, with the
    row's timestamp and a payload that decodes to the values of its cells. *)

From Stdlib Require Import ZArith Lia Ascii QArith Qreduction.
From Stdlib.Floats Require Import SpecFloat.
From S2P Require Import Prelude PyFloat Json SchemaTypes Schema Pointer Manifest CsvText Csv.
Open Scope Z_scope.

(** ** Timestamps *)

Lemma number_of_from acc ds :
  foldl (λ acc c, acc * 10 + digit_of c) acc ds = acc * 10 ^ zlen ds + number_of ds.
Proof.
  unfold number_of. revert acc. induction ds as [|d ds IH]; intros acc; cbn [foldl].
  { unfold zlen. cbn. lia. }
  rewrite IH, (IH (0 * 10 + _)), zlen_cons. pose proof (zlen_nonneg ds).
  rewrite Z.pow_add_r by lia. lia.
Qed.

Lemma number_of_app ds fs : number_of (ds ++ fs) = number_of ds * 10 ^ zlen fs + number_of fs.
Proof. unfold number_of at 1. rewrite foldl_app. apply number_of_from. Qed.

(** The rational number a plain decimal writes. *)
Definition decimal_value (s : bool) (ds fs : list ascii) : Q := dec_Q (mk_dec s (number_of (ds ++ fs)) (- zlen fs)).

Lemma Qred_whole q : Qden (Qred q) = 1%positive ↔ ∃ n, q == inject_Z n.
Proof.
  split.
  - intros Hd. exists (Qnum (Qred q)). rewrite <- (Qred_correct q) at 1. destruct (Qred q) as [a d]. cbn in *. by subst d.
  - intros [n Hn%Qred_complete]. rewrite Hn. unfold Qred, inject_Z.
    pose proof (Z.ggcd_gcd n 1) as Hg. destruct (Z.ggcd n 1) as [g [a b]] eqn:E.
    pose proof (Z.ggcd_correct_divisors n 1) as Hc. rewrite E in Hc. cbn in *. rewrite Z.gcd_1_r in Hg. subst g. destruct Hc as [_ Hb].
    destruct b; cbn; lia.
Qed.

Lemma Qred_num q n : q == inject_Z n → Qnum (Qred q) = n.
Proof.
  intros Hn. assert (Qden (Qred q) = 1%positive) as Hd by (apply Qred_whole; by exists n).
  assert (Qred q == inject_Z n) as E by by rewrite Qred_correct. unfold Qeq in E. rewrite Hd in E. cbn in E. lia.
Qed.

(** A timestamp cell is converted exactly or refused: the result is the whole
    number of nanoseconds between the origin and the number the cell writes, in
    the range of u64, and a refusal says truly that the cell is no plain decimal,
    is too long, is no whole number, is negative or is too large. *)
Theorem timestamps_exact c cell :
  match decimal_cell cell with
  | None => clock_ns c cell = Err XNotPlain
  | Some (s, ds, fs) =>
      let ns := ((decimal_value s ds fs - ck_origin c) * inject_Z (ns_per_unit c))%Q in
      match clock_ns c cell with
      | Ok n => (ns == inject_Z n)%Q ∧ 0 ≤ n ≤ u64_max
      | Err XDigits => INT_MAX_STR_DIGITS < zlen ds ∨ INT_MAX_STR_DIGITS < zlen fs
      | Err XNotWhole => ¬ ∃ n, (ns == inject_Z n)%Q
      | Err XNegative => ∃ n, (ns == inject_Z n)%Q ∧ n < 0
      | Err XOverflow => ∃ n, (ns == inject_Z n)%Q ∧ u64_max < n
      | Err _ => False
      end
  end.
Proof.
  unfold clock_ns. destruct (decimal_cell cell) as [[[s ds] fs]|]; [|done]. cbn zeta.
  unfold fraction_of, int_digits.
  destruct (Z.ltb_spec INT_MAX_STR_DIGITS (zlen ds)); mcbn; [by left|].
  destruct (Z.ltb_spec INT_MAX_STR_DIGITS (zlen fs)); mcbn; [by right|].
  rewrite <- number_of_app. fold (decimal_value s ds fs).
  set (ns := ((decimal_value s ds fs - ck_origin c) * inject_Z (ns_per_unit c))%Q).
  destruct (Pos.eqb_spec (Qden (Qred ns)) 1) as [Hd|Hd]; mcbn; cycle 1.
  { by rewrite <- Qred_whole. }
  apply Qred_whole in Hd as [n Hn]. rewrite (Qred_num _ _ Hn).
  destruct (Z.ltb_spec n 0); mcbn; [by exists n|]. destruct (Z.ltb_spec u64_max n); mcbn; [by exists n|].
  split; [done|lia].
Qed.

(** ** Values *)

Lemma infinity_bound s : 0 ≤ infinity_of s < 2 ^ 64.
Proof. by destruct s. Qed.

Lemma round_or_infinity s m e : 0 ≤ m → 0 ≤ default (infinity_of s) (round_ieee 52 11 s m e) < 2 ^ 64.
Proof.
  intros Hm. destruct (round_ieee 52 11 s m e) as [b|] eqn:E; [|apply infinity_bound]. cbn.
  by apply (round_ieee_bound 52 11 ltac:(lia) ltac:(lia) s m e).
Qed.

Lemma of_sf_bound x : 0 ≤ of_sf x < 2 ^ 64.
Proof. destruct x as [[]|[]| |s m e]; [done..|]. by apply round_or_infinity. Qed.

Lemma float_of_dec_bound d : 0 ≤ dc_coef d → 0 ≤ float_of_dec d < 2 ^ 64.
Proof.
  intros Hd. unfold float_of_dec. assert (0 ≤ f_join 52 11 (dc_neg d) 0 0 < 2 ^ 64) by by destruct (dc_neg d).
  destruct (dc_coef d =? 0); [done|]. destruct (_ <? _); [apply infinity_bound|]. destruct (_ <? _); [done|].
  destruct (Z.leb_spec 0 (dc_exp d)); apply round_or_infinity.
  - apply Z.mul_nonneg_nonneg; [done|]. apply Z.pow_nonneg. lia.
  - set (k := Z.log2 _ + 1200). assert (0 ≤ dc_coef d * 2 ^ k / 10 ^ (- dc_exp d)); [|destruct (_ =? _); lia].
    apply Z.div_pos; [apply Z.mul_nonneg_nonneg; [done|apply Z.pow_nonneg; lia]|apply Z.pow_pos_nonneg; lia].
Qed.

Lemma digit_nonneg c : is_digit c = true → 0 ≤ digit_of c.
Proof.
  unfold is_digit, char_between, digit_of. rewrite andb_true_iff, !Nat.leb_le. cbn [nat_of_ascii].
  intros [Hlo _]. change (nat_of_ascii "0") with 48%nat in Hlo. unfold nat_of_ascii in Hlo. lia.
Qed.

Lemma number_nonneg ds : Forall (λ c, is_digit c = true) ds → 0 ≤ number_of ds.
Proof.
  induction ds as [|c ds IH] using rev_ind; [done|]. rewrite Forall_app, Forall_singleton. intros [Hds Hc].
  specialize (IH Hds). apply digit_nonneg in Hc. unfold number_of in *. rewrite foldl_app. cbn. lia.
Qed.

Lemma span_digits_all l : Forall (λ c, is_digit c = true) (span_digits l).1.
Proof.
  induction l as [|c l IH]; [constructor|]. cbn. destruct (is_digit c) eqn:Hc; [|constructor].
  destruct (span_digits l) as [ds rest]. by constructor.
Qed.

Lemma float_cell_nonneg cell d : float_cell cell = Some d → 0 ≤ dc_coef d.
Proof.
  unfold float_cell. destruct (span_sign (chars cell)) as [s l]. pose proof (span_digits_all l) as Hds.
  destruct (span_digits l) as [ds rest]. cbn in Hds.
  assert (∀ fs rest' point, Forall (λ c, is_digit c = true) fs →
    (if decide (ds = [] ∧ (point = false ∨ fs = [])) then None
     else e ← exponent_of rest'; Some (mk_dec s (number_of (ds ++ fs)) (e - zlen fs))) = Some d → 0 ≤ dc_coef d) as Hend.
  { intros fs rest' point Hfs. case_decide; [done|]. destruct (exponent_of rest'); [|done]. cbn. intros [= <-].
    apply number_nonneg, Forall_app. done. }
  destruct rest as [|c tl]; [by apply Hend|]. destruct (Ascii.eqb c "."); [|by apply Hend].
  pose proof (span_digits_all tl) as Hfs. destruct (span_digits tl) as [fs rest']. by apply Hend.
Qed.

Lemma narrow_bound v n :
  is_finite64 v = true → narrow v = Some n → 0 ≤ n < 2 ^ 32 ∧ is_nan32 n = false.
Proof.
  unfold is_finite64, narrow. intros Hf%negb_true_iff. rewrite Hf. intros H.
  pose proof (f_sig_nonneg64 v) as Hs. split.
  - by apply (round_ieee_bound 23 8 ltac:(lia) ltac:(lia) _ _ _ _ Hs H).
  - destruct (round_ieee_finite 23 8 ltac:(lia) ltac:(lia) _ _ _ _ Hs H) as [Hn _].
    unfold is_nan32, is_nan. by rewrite Hn.
Qed.

Lemma nonzero_Ok v w u : nonzero v w = Ok u → u = v.
Proof. unfold nonzero. destruct (_ && _); congruence. Qed.

(** A converted cell is a value its field holds without rounding. *)
Lemma value_of_ok f cell v : value_of f cell = Ok v → num_ok (cf_type f) v.
Proof.
  unfold value_of, num_ok. destruct (int_range (cf_type f)) as [[lo hi]|] eqn:Hr.
  - unfold integer_value. destruct (integer_cell cell) as [[s ds]|]; [|done]. intros (i & _ & H)%bind_Ok. cbn in H.
    destruct (in_range lo hi _) eqn:Hin; [|done]. injection H as <-. by apply in_range_true in Hin.
  - unfold float_value. intros (_ & _ & (d & Hd & (_ & _ & (v0 & Hv0 & H)%bind_Ok)%bind_Ok)%bind_Ok)%bind_Ok.
    destruct (float_cell cell) as [d'|] eqn:Hc; [|done]. injection Hd as ->.
    apply nonzero_Ok in Hv0 as ->. pose proof (float_of_dec_bound d (float_cell_nonneg _ _ Hc)) as Hb.
    apply bind_Ok in H as (v1 & Hv1 & H).
    assert (0 ≤ v1 < 2 ^ 64) as Hb1.
    { destruct (num_eq (cf_scale f) (PInt 1)); [by injection Hv1 as <-|]. apply nonzero_Ok in Hv1 as ->. apply of_sf_bound. }
    set (v2 := if num_eq (cf_offset f) (PInt 0) then v1 else _) in *.
    assert (0 ≤ v2 < 2 ^ 64) as Hb2 by (unfold v2; destruct (num_eq (cf_offset f) (PInt 0)); [done|apply of_sf_bound]).
    apply bind_Ok in H as (_ & Hf%raise_if_Ok%negb_false_iff & (v3 & Hv3 & [= <-])%bind_Ok).
    destruct (cf_type f); try done; try (by injection Hv3 as <-).
    destruct (narrow v2) as [n|] eqn:Hn; [|done]. apply nonzero_Ok in Hv3 as ->.
    destruct (narrow_bound _ _ Hf Hn) as [Hb3 Hnan]. by exists n.
Qed.

(** ** Rows *)

Lemma filter_full {A} (P : A → Prop) `{!∀ x, Decision (P x)} (l : list A) :
  length (filter P l) = length l ↔ Forall P l.
Proof.
  split; [|intros Hl; by rewrite filter_all].
  induction l as [|x l IH]; [constructor|]. rewrite filter_cons. case_decide as Hx; cbn; intros Hl.
  - constructor; [done|]. apply IH. lia.
  - pose proof (length_filter P l). lia.
Qed.

Lemma Forall_zip_snd {A B} (P : B → Prop) (l : list A) (k : list B) :
  length l = length k → Forall (λ ab, P ab.2) (zip l k) ↔ Forall P k.
Proof.
  intros Hl. rewrite <- (snd_zip l k) at 2 by lia. by rewrite Forall_fmap.
Qed.

(** The cell of a row under a column of the header. *)
Definition named (header cells : list string) (column x : string) : Prop :=
  ∃ i, header !! i = Some column ∧ cells !! i = Some x.

(** What a row gives one Channel: nothing when its cells are all empty, and
    otherwise a payload that packs the values of its cells and unpacks to them. *)
Definition carries (header : list string) (c : cchannel) (cells : list string) (p : option bytes) : Prop :=
  ∃ raw, Forall2 (λ f x, named header cells (cf_column f) x) (cc_fields c) raw ∧
  match p with
  | None => Forall (λ x, x = ""%string) raw
  | Some bs => raw ≠ [] ∧ Forall (λ x, x ≠ ""%string) raw ∧
      ∃ vs, Forall2 (λ fx v, value_of fx.1 fx.2 = Ok v) (zip (cc_fields c) raw) vs
        ∧ Struct.pack (layout_of c) (VNum <$> vs) = Ok bs ∧ Struct.unpack (layout_of c) bs = Ok (VNum <$> vs)
  end.

Lemma cell_values_Ok row line l vs :
  mapE (cell_value row line) l = Ok vs ↔ ∃ ns, vs = VNum <$> ns ∧ Forall2 (λ fx v, value_of fx.1 fx.2 = Ok v) l ns.
Proof.
  rewrite mapE_Ok. split.
  - induction 1 as [|fx v l vs Hv _ (ns & -> & Hl)]; [by exists []|]. unfold cell_value in Hv.
    destruct (value_of fx.1 fx.2) as [n|] eqn:Hn; [|done]. injection Hv as <-. exists (n :: ns). by split; [|constructor].
  - intros (ns & -> & Hl). induction Hl as [|fx v l ns Hv _ IH]; [constructor|]. cbn. constructor; [|done].
    unfold cell_value. by rewrite Hv.
Qed.

Lemma pack_values (fs : list cfield) raw vs :
  length fs = length raw → Forall2 (λ fx v, value_of fx.1 fx.2 = Ok v) (zip fs raw) vs →
  ∃ bs, Struct.pack ((λ f, Struct.IPrim (cf_type f)) <$> fs) (VNum <$> vs) = Ok bs
    ∧ Struct.unpack ((λ f, Struct.IPrim (cf_type f)) <$> fs) bs = Ok (VNum <$> vs).
Proof.
  intros Hlen Hv.
  assert (Forall2 item_ok ((λ f, Struct.IPrim (cf_type f)) <$> fs) (VNum <$> vs)) as Hok.
  { revert raw vs Hlen Hv. induction fs as [|f fs IH]; intros [|x raw] vs Hlen Hv; try done; cbn in *; inversion Hv; subst; [constructor|].
    cbn. constructor; [by eapply value_of_ok|]. eapply IH; [|done]. lia. }
  destruct (pack_items_ok _ _ Hok) as (bs & Hp & Hl & Hu). exists bs. pose proof (Forall2_length _ _ _ Hok) as Hlen'.
  unfold Struct.pack, Struct.unpack. rewrite decide_True by done. rewrite decide_True by done. by rewrite Hp, Hu.
Qed.

Section row.
Context (m : csv_mapping) (header : list string) (index : list (string * nat)).
Hypothesis index_ok : ∀ column i, dget index column = Some i ↔ header !! i = Some column.

Lemma cell_of_iff cells column x : cell_of index cells column = Ok x ↔ named header cells column x.
Proof using index_ok.
  unfold cell_of, named. split.
  - destruct (dget index column) as [i|] eqn:Hi; cbn; [|done]. apply index_ok in Hi.
    destruct (cells !! i) as [y|] eqn:Hy; [|done]. intros [= <-]. by exists i.
  - intros (i & Hi%index_ok & Hx). rewrite Hi. cbn. by rewrite Hx.
Qed.

Lemma empty_cells (fs : list cfield) (raw : list string) :
  length fs = length raw →
  let empty := (λ fc, cf_column fc.1) <$> filter (λ fc : cfield * string, fc.2 = ""%string) (zip fs raw) in
  (zlen empty = zlen raw ↔ Forall (λ x, x = ""%string) raw) ∧ (empty = [] ↔ Forall (λ x, x ≠ ""%string) raw).
Proof.
  intros Hl empty. unfold empty. split.
  - unfold zlen. rewrite length_fmap, Nat2Z.inj_iff.
    rewrite <- (Forall_zip_snd _ fs raw Hl), <- filter_full, length_zip_with. by rewrite Hl, Nat.min_id.
  - rewrite <- (Forall_zip_snd _ fs raw Hl). split.
    + intros He%fmap_nil_inv. apply Forall_forall. intros fx Hfx Hx.
      exact (filter_nil_not_elem_of _ _ _ He Hx Hfx).
    + intros Hf. by rewrite filter_none.
Qed.

Lemma payload_of_iff row line c cells p : payload_of index row line c cells = Ok p ↔ carries header c cells p.
Proof using index_ok.
  unfold payload_of, carries. rewrite bind_Ok. split.
  - intros (raw & Hraw%mapE_Ok & H). exists raw. pose proof (Forall2_length _ _ _ Hraw) as Hlen.
    split; [by eapply Forall2_impl; [done|]; intros ??; apply cell_of_iff|].
    destruct (empty_cells _ _ Hlen) as [Hall Hnone]. destruct (Z.eqb_spec (zlen ((λ fc, cf_column fc.1) <$> filter (λ fc : cfield * string, fc.2 = ""%string) (zip (cc_fields c) raw))) (zlen raw)) as [He|He].
    { injection H as <-. by apply Hall. }
    apply bind_Ok in H as (_ & Hn%raise_if_Ok%negb_false_iff%bool_decide_eq_true & H). rewrite Hn in He.
    apply bind_Ok in H as (vs & (ns & -> & Hns)%cell_values_Ok & H).
    destruct (pack_values _ _ _ Hlen Hns) as (bs & Hp & Hu). unfold layout_of in *. rewrite Hp in H. injection H as <-.
    split; [intros ->; done|]. split; [by apply Hnone|]. by exists ns.
  - intros (raw & Hraw & H). exists raw. pose proof (Forall2_length _ _ _ Hraw) as Hlen.
    split; [apply mapE_Ok; by eapply Forall2_impl; [done|]; intros ??; apply cell_of_iff|].
    destruct (empty_cells _ _ Hlen) as [Hall Hnone]. destruct (Z.eqb_spec (zlen ((λ fc, cf_column fc.1) <$> filter (λ fc : cfield * string, fc.2 = ""%string) (zip (cc_fields c) raw))) (zlen raw)) as [He|He].
    + apply Hall in He. destruct p as [bs|]; [|done]. destruct H as (Hne & Hn & _). destruct raw as [|x raw]; [done|].
      apply Forall_cons in He as [-> _]. by apply Forall_cons in Hn as [? _].
    + destruct p as [bs|]; [|by apply Hall in H]. destruct H as (Hne & Hn%Hnone & vs & Hvs & Hp & Hu).
      rewrite Hn. rewrite bool_decide_true by done. mcbn.
      rewrite (proj2 (cell_values_Ok row line _ _)) by by exists vs. mcbn. by rewrite Hp.
Qed.

(** The Messages of a row with its timestamp: one for each Channel with a payload. *)
Definition sent (ns : Z) (ps : list (option bytes)) : list cmessage :=
  omap (λ ip, mk_cmessage ip.1 ns <$> ip.2) (enumerate ps).

Lemma channels_iff row line cells ns cs k acc ms :
  foldE (λ messages ic,
    payload ← payload_of index row line ic.2 cells;
    Ok (match payload with Some p => messages ++ [mk_cmessage ic.1 ns p] | None => messages end))
    acc (enumerate_from k cs) = Ok ms
  ↔ ∃ ps, Forall2 (λ c p, carries header c cells p) cs ps
          ∧ ms = acc ++ omap (λ ip, mk_cmessage ip.1 ns <$> ip.2) (enumerate_from k ps).
Proof using index_ok.
  revert k acc. induction cs as [|c cs IH]; intros k acc; cbn [enumerate_from foldE].
  { split; [intros [= <-]; exists []; by rewrite app_nil_r|].
    intros (ps & Hps%Forall2_nil_inv_l & ->). subst ps. cbn. by rewrite app_nil_r. }
  rewrite bind_Ok. split.
  - intros (acc' & (p & Hp%payload_of_iff & [= <-])%bind_Ok & (ps & Hps & ->)%IH). exists (p :: ps).
    split; [by constructor|]. destruct p; cbn; by rewrite <- ?app_assoc.
  - intros (ps & Hps & ->). inversion Hps as [|? p ? ps' Hp Hps']; subst.
    eexists. split.
    + apply bind_Ok. exists p. split; [by apply payload_of_iff|]. reflexivity.
    + apply IH. exists ps'. split; [done|]. destruct p; cbn; by rewrite <- ?app_assoc.
Qed.

(** What a row of a table gives: its timestamp and its Messages. *)
Definition row_gives (cells : list string) (out : Z * list cmessage) : Prop :=
  length cells = length header
  ∧ (∃ t, named header cells (ck_column (cm_clock m)) t ∧ clock_ns (cm_clock m) t = Ok out.1)
  ∧ ∃ ps, Forall2 (λ c p, carries header c cells p) (cm_channels m) ps ∧ out.2 = sent out.1 ps.

Lemma read_row_iff row line cells previous out :
  read_row m index (zlen header) row line cells previous = Ok out
  ↔ row_gives cells out ∧ match previous with Some p => p ≤ out.1 | None => True end.
Proof using index_ok.
  unfold read_row, row_gives, row_messages, row_ns. destruct out as [ns ms]. cbn [fst snd]. split.
  - intros (_ & Hw%raise_if_Ok%negb_false_iff%Z.eqb_eq & H)%bind_Ok.
    apply bind_Ok in H as (ns' & Hns & (ms' & (ps & Hps & Hms)%channels_iff & [= -> ->])%bind_Ok).
    apply bind_Ok in Hns as (t & Ht%cell_of_iff & (ns' & Hns & Hp)%bind_Ok).
    destruct (clock_ns (cm_clock m) t) as [z|] eqn:Hz; [|done]. injection Hns as ->.
    assert (ns' = ns ∧ match previous with Some p => p ≤ ns | None => True end) as [-> Hle].
    { destruct previous as [p|]; [|by injection Hp as ->].
      apply bind_Ok in Hp as (_ & Hlt%raise_if_Ok%Z.ltb_ge & [= ->]). done. }
    split; [|done]. split; [unfold zlen in Hw; lia|]. split; [by exists t|]. by exists ps.
  - intros ((Hw & (t & Ht & Hz) & ps & Hps & Hms) & Hle). apply bind_Ok. exists (). split.
    { apply raise_if_Ok, negb_false_iff, Z.eqb_eq. unfold zlen. lia. }
    apply bind_Ok. exists ns. split.
    { apply bind_Ok. exists t. split; [by apply cell_of_iff|]. rewrite Hz. mcbn.
      destruct previous as [p|]; [|done]. apply bind_Ok. exists (). split; [|done]. by apply raise_if_Ok, Z.ltb_ge. }
    apply bind_Ok. exists ms. split; [|done]. apply channels_iff. by exists ps.
Qed.

Definition fits (field_limit : Z) (cells : list string) : Prop :=
  Forall (λ s, characters (chars s) ≤ field_limit) cells.

Lemma rows_loop_iff field_limit text rows rest fuel k previous acc n ms :
  writes_table rows rest → Forall (fits field_limit) rows → (length rows < fuel)%nat →
  rows_loop field_limit m text header index fuel (split_lines rest) k previous acc = Ok (n, ms)
  ↔ n = k + zlen rows ∧ ∃ out, Forall2 row_gives rows out ∧ Sorted Z.le (option_list previous ++ out.*1)
                               ∧ ms = acc ++ concat out.*2.
Proof using index_ok.
  intros Hw Hall. revert fuel k previous acc Hall.
  induction Hw as [|cells rows t e rest Hc Hne He _ IH]; intros fuel k previous acc Hall Hf; (destruct fuel as [|fuel]; [lia|]).
  - cbn. unfold zlen. cbn. rewrite Z.add_0_r. split.
    + intros [= <- <-]. split; [done|]. exists []. split; [done|]. split; [by destruct previous; repeat constructor|].
      by rewrite app_nil_r.
    + intros (-> & out & Ho%Forall2_nil_inv_l & _ & ->). subst out. by rewrite app_nil_r.
  - apply Forall_cons in Hall as [Hfit Hall]. cbn [rows_loop]. rewrite (read_record_written field_limit cells) by done.
    rewrite bind_Ok. cbn in Hf. rewrite zlen_cons. split.
    + intros ([ns ms'] & [Hr Hp]%read_row_iff & (-> & out & Ho & Hs & ->)%IH); [|done|lia].
      split; [lia|]. exists ((ns, ms') :: out). split; [by constructor|]. split; [|cbn; by rewrite <- app_assoc].
      destruct previous as [p|]; [|done]. constructor; [exact Hs|]. by constructor.
    + intros (-> & out & Ho & Hs & ->). inversion Ho as [|? [ns ms'] ? out' Hr Hout]; subst. exists (ns, ms'). split.
      * apply read_row_iff. split; [done|]. destruct previous as [p|]; [|done]. cbn in Hs.
        apply Sorted_inv in Hs as [_ Hs]. by inversion Hs.
      * apply IH; [done|lia|]. split; [lia|]. exists out'. split; [done|]. split; [|cbn; by rewrite <- app_assoc].
        destruct previous as [p|]; [|done]. by apply Sorted_inv in Hs as [Hs _].
Qed.
End row.

(** ** Whole files *)

Lemma read_lines_shorter field_limit r lines cells rest :
  read_lines field_limit r lines = Ok (Some (cells, rest)) → (length rest < length lines)%nat.
Proof.
  revert r. induction lines as [|line lines IH]; intros r; cbn [read_lines]; [by case_decide|].
  intros (r' & _ & Hr)%bind_Ok. case_decide; [by injection Hr as _ <-; cbn; lia|].
  apply IH in Hr. cbn. lia.
Qed.

(** The fuel of the loop is enough: more gives the same. *)
Lemma rows_loop_fuel field_limit m text header index fuel lines k previous acc :
  (length lines < fuel)%nat →
  rows_loop field_limit m text header index fuel lines k previous acc
  = rows_loop field_limit m text header index (S (length lines)) lines k previous acc.
Proof.
  remember (length lines) as len eqn:Hlen. revert fuel lines k previous acc Hlen.
  induction len as [len IH] using lt_wf_ind. intros [|fuel] lines k previous acc -> Hf; [lia|].
  cbn [rows_loop]. destruct (read_record field_limit lines) as [[[cells rest]|]|[e r]] eqn:Hr; [|done..].
  apply read_lines_shorter in Hr. destruct (read_row _ _ _ _ _ _ _) as [[ns ms]|e]; mcbn; [|done].
  rewrite (IH (length rest)) by lia. symmetry. destruct (length lines) as [|len] eqn:Hl; [lia|].
  apply (IH (length rest)); lia.
Qed.

Lemma table_lines field_limit rows text :
  writes_table rows text → Forall (fits field_limit) rows → (length rows ≤ length (split_lines text))%nat.
Proof.
  induction 1 as [|cells rows t e rest Hc Hne He _ IH]; intros Hall; [cbn; lia|]. apply Forall_cons in Hall as [Hfit Hall].
  pose proof (read_record_written field_limit cells t e rest Hc Hne He Hfit) as Hr.
  apply read_lines_shorter in Hr. specialize (IH Hall). cbn [length]. lia.
Qed.

Lemma header_index header k d index :
  foldE (λ index ix, raise: VColumnTwice ix.2 if: dmem index ix.2;; Ok (dset index ix.2 ix.1)) d
    (enumerate_from k header) = Ok index
  ↔ NoDup header ∧ Forall (λ c, c ∉ d.*1) header ∧ index = d ++ ((λ ix, (ix.2, ix.1)) <$> enumerate_from k header).
Proof.
  revert k d. induction header as [|c header IH]; intros k d; cbn [enumerate_from foldE].
  { cbn. rewrite app_nil_r. split; [intros [= <-]; by repeat constructor|by intros (_ & _ & ->)]. }
  rewrite bind_Ok, NoDup_cons, Forall_cons. split.
  - intros (d' & (_ & Hc%raise_if_Ok%dmem_false & [= <-])%bind_Ok & (Hn & Hd & ->)%IH).
    cbn [fst snd] in *. rewrite dset_keys_new in Hd |- * by done. rewrite fmap_app in Hd. split_and!; [|done|done| |].
    + intros Hin. apply (proj1 (Forall_forall _ _) Hd c Hin). set_solver.
    + eapply Forall_impl; [exact Hd|]. cbn. set_solver.
    + by rewrite <- app_assoc.
  - intros ((Hnc & Hn) & (Hc & Hd) & ->). exists (d ++ [(c, k)]). split.
    + apply bind_Ok. exists (). split; [by apply raise_if_Ok, dmem_false|]. by rewrite <- dset_keys_new.
    + apply IH. split; [done|]. split; [|by rewrite <- app_assoc]. rewrite fmap_app. apply Forall_forall. intros x Hx.
      pose proof (proj1 (Forall_forall _ _) Hd x Hx). cbn. set_solver.
Qed.

(** The index gives each column its position in the header. *)
Lemma column_index_iff header m index :
  column_index header m = Ok index
  ↔ NoDup header ∧ Forall (λ c, c ∈ header) (columns_of m) ∧ index = (λ ix, (ix.2, ix.1)) <$> enumerate header.
Proof.
  unfold column_index. rewrite bind_Ok.
  assert (((λ ix : nat * string, (ix.2, ix.1)) <$> enumerate header).*1 = header) as Hkeys.
  { rewrite <- list_fmap_compose. apply enumerate_from_snd. }
  split.
  - intros (d & (Hn & _ & Hd)%header_index & (_ & Hm%raise_if_Ok%negb_false_iff%bool_decide_eq_true & [= <-])%bind_Ok).
    cbn in Hd. split; [done|]. split; [|done]. apply Forall_forall. intros c Hc. apply dec_stable. intros Hnot.
    rewrite Hd in Hm. unfold enumerate in Hkeys. rewrite Hkeys in Hm. exact (filter_nil_not_elem_of _ _ _ Hm Hnot Hc).
  - intros (Hn & Hc & ->). eexists. split; [apply header_index; split; [done|split; [|reflexivity]]|].
    + apply Forall_forall. intros c _. cbn. set_solver.
    + cbn [app]. unfold enumerate in Hkeys. apply bind_Ok. exists (). split; [|done].
      apply raise_if_Ok, negb_false_iff, bool_decide_eq_true, filter_none. eapply Forall_impl; [exact Hc|].
      intros c Hin Hnot. by rewrite Hkeys in Hnot.
Qed.

Lemma column_index_ok header m index column i :
  column_index header m = Ok index → dget index column = Some i ↔ header !! i = Some column.
Proof.
  intros (Hn & _ & ->)%column_index_iff.
  assert (((λ ix : nat * string, (ix.2, ix.1)) <$> enumerate header).*1 = header) as Hkeys.
  { rewrite <- list_fmap_compose. apply enumerate_from_snd. }
  split.
  - intros ([j x] & [= <- <-] & (j' & -> & Hj)%elem_enumerate)%dget_Some%list_elem_of_fmap. exact Hj.
  - intros Hi. apply dget_elem; [by rewrite Hkeys|]. apply list_elem_of_fmap. exists (i, column). split; [done|].
    apply list_elem_of_lookup. exists i. unfold enumerate. rewrite enumerate_from_lookup, Hi. done.
Qed.

(** C29. Converting a CSV file that holds a table, each cell with or without quotes
    and each line with any newline: it succeeds exactly when the header names every
    mapped column and none twice, every row has as many cells as the header, a
    timestamp that converts and no Channel of which only some cells are filled or a
    cell does not convert, and the timestamps never go back. The result is then, row
    by row and in the mapping's order of Channels, one Message for each Channel whose
    cells the row fills, with the row's timestamp and a payload that decodes to the
    values of its cells. *)
Theorem table_converted field_limit m header rows text n ms :
  writes_table (header :: rows) text → Forall (fits field_limit) (header :: rows) →
  read_rows field_limit m text = Ok (n, ms)
  ↔ NoDup header ∧ Forall (λ c, c ∈ header) (columns_of m) ∧ n = zlen rows
    ∧ ∃ out, Forall2 (row_gives m header) rows out ∧ Sorted Z.le out.*1 ∧ ms = concat out.*2.
Proof.
  intros Hw Hall. pose proof (table_lines _ _ _ Hw Hall) as Hf. cbn [length] in Hf. unfold read_rows.
  inversion Hw as [|? ? t e rest Hc Hne He Hrest]; subst. apply Forall_cons in Hall as [Hh Hall].
  rewrite (read_record_written field_limit header t e rest Hc Hne He Hh), bind_Ok. split.
  - intros (index & Hi & Hr). pose proof (proj1 (column_index_iff _ _ _) Hi) as (Hn & Hco & _).
    apply (rows_loop_iff m header index (λ c i, column_index_ok header m index c i Hi) _ _ rows) in Hr as (-> & out & Ho & Hs & ->); [|done|done|lia].
    split_and!; [done..|]. by exists out.
  - intros (Hn & Hco & -> & out & Ho & Hs & ->). eexists.
    pose proof (proj2 (column_index_iff header m _) (conj Hn (conj Hco eq_refl))) as Hi. split; [exact Hi|].
    apply (rows_loop_iff m header _ (λ c i, column_index_ok header m _ c i Hi) _ _ rows); [done|done|lia|]. split; [done|]. by exists out.
Qed.

(** The witness: a speed and an optional two-element position. *)
Definition demo_header : list string := ["t"; "v"; "x"; "y"]%string.
Definition demo_rows : list (list string) := [["0.5"; "7"; ""; ""]; ["0.5"; ""; "-1"; "2"]; ["0.75"; "8"; "3"; "4"]]%string.
Definition demo_mapping : csv_mapping :=
  mk_csv_mapping (mk_clock "t" "ms" (inject_Z 0))
    [mk_cchannel "speed" "Speed" JNull [mk_cfield "v" U8 "v" (PInt 10) (PInt 1)];
     mk_cchannel "pos" "Pos" JNull [mk_cfield "p[0]" I8 "x" (PInt 1) (PInt 0); mk_cfield "p[1]" I8 "y" (PInt 1) (PInt 0)]].

Definition demo_messages : list cmessage :=
  [mk_cmessage 0 500000 (byte_of_Z <$> [71]); mk_cmessage 1 500000 (byte_of_Z <$> [255; 2]);
   mk_cmessage 0 750000 (byte_of_Z <$> [81]); mk_cmessage 1 750000 (byte_of_Z <$> [3; 4])].

(** The file as a spreadsheet writes it, and with quotes and another newline. *)
Definition demo_text : list ascii := table_text chars [LF] (demo_header :: demo_rows).
Example demo_text_lines :
  demo_text = chars "t,v,x,y" ++ [LF] ++ chars "0.5,7,," ++ [LF] ++ chars "0.5,,-1,2" ++ [LF] ++ chars "0.75,8,3,4" ++ [LF].
Proof. vm_compute. reflexivity. Qed.
Lemma demo_writes : writes_table (demo_header :: demo_rows) demo_text.
Proof.
  apply table_text_writes; [by left|].
  repeat (constructor; [split; [done|split; [done|repeat (constructor; [by apply plain_cell|]); constructor]]|]). constructor.
Qed.

Lemma table_converted_witness :
  Forall (fits 131072) (demo_header :: demo_rows)
  ∧ read_rows 131072 demo_mapping (table_text cell_text [CR; LF] (demo_header :: demo_rows)) = Ok (3, demo_messages)
  ∧ ∃ out, Forall2 (row_gives demo_mapping demo_header) demo_rows out ∧ Sorted Z.le out.*1
           ∧ demo_messages = concat out.*2.
Proof.
  assert (Forall (fits 131072) (demo_header :: demo_rows)) as Hf.
  { unfold fits. repeat constructor; vm_compute; done. }
  split; [exact Hf|]. split; [vm_compute; reflexivity|].
  exact (proj2 (proj2 (proj2 (proj1 (table_converted 131072 demo_mapping demo_header demo_rows demo_text 3 demo_messages demo_writes Hf)
    ltac:(vm_compute; reflexivity))))).
Defined.
