(* ===== verification/FmuRuntime.v ===== *)
(** * FMU instances

    Models [fmi/runtime.py], [fmi/stepping.py] and the payloads of
    [fmi/binding.py]: an instantiated FMI 3.0 FMU ([cosim]) driven through its
    co-simulation entry points ([call]), the buffers a Clock gates, and the
    rules a single FMU and a group of them share.

    The FMU is a binary the repository does not contain. It is a parameter: what
    it answers to a call after the calls made before it ([behaviour]). Any FMU,
    deterministic or not, gives the answers of some such function in one Run, as
    the calls before a call are never the same twice. The doubles of a call are
    functions of the integers it carries here: [t / NS_PER_S].

    Exceptions leave the state as it is, so operations are functions from a state
    to a state and a [result] ([fmi]); [triple] is their program logic. *)

From Stdlib Require Import ZArith Lia.
From S2P Require Import Prelude PyFloat SchemaTypes Schema.

(** ** Calls and failures *)

Inductive call :=
| EnterConfigurationMode
| ExitConfigurationMode
| EnterInitializationMode
| ExitInitializationMode
| EnterEventMode
| EnterStepMode
| UpdateDiscreteStates
| GetClock (clock : Z)
| SetClock (clocks : list Z)
| GetIntervalFraction (clock : Z)
| DoStep (t dt : Z)
| SetValues (kind : string) (refs : list Z) (values : list pynum)
| GetValues (kind : string) (refs : list Z) (count : Z)
| SetBinary (refs : list Z) (payloads : list bytes)
| GetBinary (refs : list Z)
| Terminate
| FreeInstance.

#[export] Instance call_eq_dec : EqDecision call.
Proof. solve_decision. Defined.

(** The status of a call and what it writes through its pointers; a call uses
    the fields that are its own. *)
Record answer := mk_answer {
  an_status : Z;
  an_clock : bool;
  an_binary : list bytes;
  an_values : list pynum;
  an_counter : Z;
  an_resolution : Z;
  an_qualifier : Z;
  an_need_update : bool;
  an_terminate : bool;
  an_event_needed : bool;
  an_early_return : bool;
  an_next_event_time : option Z;
}.

Definition an_ok : answer := mk_answer 0 false [] [] 0 0 0 false false false false None.

(** ParticipantFailures, and the exceptions of Python itself. *)
Inductive fmi_failure :=
| FNoInstance
| FNotExported (c : call)
| FStatus (c : call) (status : Z)
| FStart (name : string) (e : fmi_failure)
| FStepTermination
| FEarlyReturn (t dt : Z)
| FEventTermination (t : Z)
| FEventIterations (t : Z)
| FNotContiguous (standing t : Z)
| FQualifier (qualifier clock : Z)
| FResolution (clock : Z)
| FFraction (clock counter resolution : Z)
| FValueCount (given expected : Z)
| FLength (length capacity : Z)
| FProduced (length capacity : Z)
| FAboveMaxSize (transceiver : nat) (length capacity : Z)
| FUnreachable (channel : string) (instant start end_ : Z)
| FClockPassed (clock due t : Z)
| FEventPassed (declared t : Z)
| FPropagations (t : Z)
| FStepPast (declared t dt : Z)
| FEventUnhandled (t : Z)
| FInstance (name : string) (e : fmi_failure)
| FChannel (reading : bool) (e : fmi_failure)
| FFloat
| FKey
| FFuel.

(** ** Operations *)

Definition fmi_of (X S A : Type) : Type := S → S * result X A.
Abbreviation fmi := (fmi_of fmi_failure).

#[export] Instance fmi_ret X S : MRet (fmi_of X S) := λ A a s, (s, Ok a).
#[export] Instance fmi_bind X S : MBind (fmi_of X S) := λ A B k m s,
  match m s with
  | (s', Ok a) => k a s'
  | (s', Err e) => (s', Err e)
  end.

Definition throw {X S A} (e : X) : fmi_of X S A := λ s, (s, Err e).
Definition lift {X S A} (r : result X A) : fmi_of X S A := λ s, (s, r).
Definition gets {X S A} (f : S → A) : fmi_of X S A := λ s, (s, Ok (f s)).
Definition update {X S} (f : S → S) : fmi_of X S () := λ s, (f s, Ok ()).
Definition throw_if {X S} (b : bool) (e : X) : fmi_of X S () := if b then throw e else mret ().

Fixpoint each {X S A} (f : A → fmi_of X S ()) (l : list A) : fmi_of X S () :=
  match l with
  | [] => mret ()
  | x :: l => f x ≫= λ _, each f l
  end.

(** The loop [for x in l: out.extend(f(x))]. *)
Fixpoint gather_each {X S A B} (f : A → fmi_of X S (list B)) (l : list A) : fmi_of X S (list B) :=
  match l with
  | [] => mret []
  | x :: l => ys ← f x; rest ← gather_each f l; mret (ys ++ rest)
  end.

(** ** The program logic: [Q] holds after a result and [E] after an exception. *)

Definition triple {X S A} (P : S → Prop) (m : fmi_of X S A) (Q : A → S → Prop) (E : S → Prop) : Prop :=
  ∀ s, P s → match m s with
             | (s', Ok a) => Q a s'
             | (s', Err _) => E s'
             end.

Section logic.
Context {X S : Type}.
Implicit Types P E : S → Prop.

Lemma triple_ret {A} (a : A) (Q : A → S → Prop) E : triple (Q a) (mret a : fmi_of X S A) Q E.
Proof. by intros s. Qed.

Lemma triple_bind {A B} (m : fmi_of X S A) (k : A → fmi_of X S B) P Q R E :
  triple P m Q E → (∀ a, triple (Q a) (k a) R E) → triple P (m ≫= k) R E.
Proof.
  intros Hm Hk s Hs. specialize (Hm s Hs). unfold mbind, fmi_bind. destruct (m s) as [s' [a|e]]; [|done].
  by apply Hk.
Qed.

Lemma triple_conseq {A} (m : fmi_of X S A) P P' (Q Q' : A → S → Prop) E E' :
  triple P' m Q' E' → (∀ s, P s → P' s) → (∀ a s, Q' a s → Q a s) → (∀ s, E' s → E s) → triple P m Q E.
Proof.
  intros Hm HP HQ HE s Hs. specialize (Hm s (HP s Hs)). destruct (m s) as [s' [a|e]]; auto.
Qed.

Lemma triple_throw {A} P (e : X) (Q : A → S → Prop) E : (∀ s, P s → E s) → triple P (throw e) Q E.
Proof. intros HE s Hs. cbn. auto. Qed.

Lemma triple_throw_if (b : bool) P (e : X) (Q : () → S → Prop) E :
  (∀ s, P s → b = true → E s) → (∀ s, P s → b = false → Q () s) → triple P (throw_if b e) Q E.
Proof. intros HE HQ s Hs. destruct b; cbn; auto. Qed.

Lemma triple_lift {A} P (r : result X A) (Q : A → S → Prop) E :
  (∀ s, P s → match r with Ok a => Q a s | Err _ => E s end) → triple P (lift r) Q E.
Proof. intros Hr s Hs. specialize (Hr s Hs). cbn. by destruct r. Qed.

Lemma triple_gets {A} (f : S → A) P E : triple P (gets f : fmi_of X S A) (λ a s, P s ∧ a = f s) E.
Proof. by intros s. Qed.

Lemma triple_update (f : S → S) P (Q : () → S → Prop) E : (∀ s, P s → Q () (f s)) → triple P (update f : fmi_of X S ()) Q E.
Proof. intros HQ s Hs. cbn. auto. Qed.

Lemma triple_each {A} (f : A → fmi_of X S ()) l (I : list A → S → Prop) E :
  (∀ x l, triple (I (x :: l)) (f x) (λ _, I l) E) → triple (I l) (each f l) (λ _, I []) E.
Proof.
  intros Hf. induction l as [|x l IH]; [by intros s|]. cbn [each].
  eapply triple_bind; [apply Hf|intros []; exact IH].
Qed.

Lemma triple_gather {A B} (f : A → fmi_of X S (list B)) l (I : S → Prop) (Q : B → Prop) E :
  (∀ x, triple I (f x) (λ ys s, I s ∧ Forall Q ys) E) → triple I (gather_each f l) (λ ys s, I s ∧ Forall Q ys) E.
Proof.
  intros Hf. induction l as [|x l IH].
  { intros s Hs. by split. }
  cbn [gather_each]. eapply triple_bind; [apply Hf|]. intros ys s [Hs Hy].
  specialize (IH s Hs). unfold mbind, fmi_bind. destruct (gather_each f l s) as [s' [zs|e]]; [|done].
  destruct IH as [HI HQ]. split; [done|]. by apply Forall_app.
Qed.

(** A precondition can be looked into. *)
Lemma triple_pull {A} (m : fmi_of X S A) P Q E :
  (∀ s, P s → ∃ P' : S → Prop, P' s ∧ triple P' m Q E) → triple P m Q E.
Proof. intros Hm s (P' & Hs & Ht)%Hm. by apply Ht. Qed.

Lemma triple_seq {A B} (m : fmi_of X S A) (k : A → fmi_of X S B) P Q R E :
  triple P m Q E → (∀ a s, Q a s → ∃ P' : S → Prop, P' s ∧ triple P' (k a) R E) → triple P (m ≫= k) R E.
Proof. intros Hm Hk. eapply triple_bind; [exact Hm|]. intros a. apply triple_pull, Hk. Qed.
End logic.

(** ** Instances *)

Definition behaviour : Type := list (call * answer) → call → option answer.

(** [CoSimulation]: [co_open] while it has its handle, [co_failed] after an Error. *)
Record cosim := mk_cosim {
  co_binary : behaviour;
  co_log : list (call * answer);
  co_failed : bool;
  co_open : bool;
}.

Definition NS_PER_S : Z := 1000000000.
Definition FMI_SUCCESS_STATUS : Z := 0.
Definition FMI_ERROR_STATUS : Z := 3.
Definition FMI_FATAL_STATUS : Z := 4.

Definition log_call (c : call) (a : answer) (co : cosim) : cosim :=
  mk_cosim (co_binary co) (co_log co ++ [(c, a)])
    (co_failed co || (an_status a =? FMI_ERROR_STATUS)) (co_open co && negb (an_status a =? FMI_FATAL_STATUS)).

(** [CoSimulation._call]. *)
Definition call_fmu (c : call) : fmi cosim answer := λ co,
  match co_binary co (co_log co) c with
  | None => (co, Err (FNotExported c))
  | Some a =>
      (log_call c a co, if an_status a =? FMI_SUCCESS_STATUS then Ok a else Err (FStatus c (an_status a)))
  end.

Definition call_ (c : call) : fmi cosim () := call_fmu c ≫= λ _, mret ().

(** [initialize], [enter_event_mode], [enter_step_mode] and [raise_clocks]. *)
Definition initialize : fmi cosim () := call_ EnterInitializationMode ≫= λ _, call_ ExitInitializationMode.
Definition enter_event_mode : fmi cosim () := call_ EnterEventMode.
Definition enter_step_mode : fmi cosim () := call_ EnterStepMode.
Definition raise_clocks (clocks : list Z) : fmi cosim () := call_ (SetClock clocks).

Record discrete_states := mk_discrete_states {
  ds_need_update : bool;
  ds_terminate : bool;
  ds_next_event_time : option Z;
}.

Definition update_discrete_states : fmi cosim discrete_states :=
  a ← call_fmu UpdateDiscreteStates;
  mret (mk_discrete_states (an_need_update a) (an_terminate a) (an_next_event_time a)).

(** [do_step]. *)
Definition do_step (t dt : Z) : fmi cosim bool :=
  a ← call_fmu (DoStep t dt);
  _ ← throw_if (an_terminate a) FStepTermination;
  _ ← throw_if (an_early_return a) (FEarlyReturn t dt);
  mret (an_event_needed a).

(** A start value: the whole value of a variable. *)
Inductive start_data := SScalars (kind : string) (values : list pynum) | SBinary (bs : bytes).
Record start := mk_start {
  st_name : string;
  st_structural : bool;
  st_reference : Z;
  st_data : start_data;
}.

Definition write_start_value (s : start) : fmi cosim () :=
  match st_data s with
  | SBinary bs => call_ (SetBinary [st_reference s] [bs])
  | SScalars kind values => call_ (SetValues kind [st_reference s] values)
  end.

(** [try: m; except ParticipantFailure as e: raise f(e)]. *)
Definition reraise {X S A} (f : X → X) (m : fmi_of X S A) : fmi_of X S A := λ s,
  match m s with
  | (s', Ok a) => (s', Ok a)
  | (s', Err e) => (s', Err (f e))
  end.

Definition write_start_values (starts : list start) : fmi cosim () :=
  each (λ s, reraise (FStart (st_name s)) (write_start_value s)) starts.

(** [apply_start_values]. *)
Definition apply_start_values (starts : list start) : fmi cosim () :=
  let structural := filter (λ s, st_structural s = true) starts in
  _ ← (if decide (structural = []) then mret ()
       else _ ← call_ EnterConfigurationMode; _ ← write_start_values structural; call_ ExitConfigurationMode);
  write_start_values (filter (λ s, st_structural s = false) starts).

(** [close]: the [finally] frees the instance unless a call has dropped it. *)
Definition free_instance : fmi cosim () := λ co,
  if co_open co then
    match co_binary co (co_log co) FreeInstance with
    | None => (co, Err (FNotExported FreeInstance))
    | Some a => (mk_cosim (co_binary co) (co_log co ++ [(FreeInstance, a)]) (co_failed co) false, Ok ())
    end
  else (co, Ok ()).

Definition close : fmi cosim () := λ co,
  if co_open co then
    let '(co', r) := (if co_failed co then mret () else call_ Terminate) co in
    match free_instance co' with
    | (co'', Ok _) => (co'', r)
    | (co'', Err e) => (co'', Err e)
    end
  else (co, Ok ()).

(** ** Buffers *)

(** [BinaryBuffer.read] of one variable. *)
Definition read_binary (data : Z) : fmi cosim bytes :=
  a ← call_fmu (GetBinary [data]); mret (default [] (head (an_binary a))).

(** [ClockedBuffer]: a Binary variable and the triggered Clock that gates it. *)
Record clocked := mk_clocked { kb_data : Z; kb_clock : Z }.

Definition read_clocked (b : clocked) : fmi cosim (option bytes) :=
  a ← call_fmu (GetClock (kb_clock b));
  if an_clock a then payload ← read_binary (kb_data b); mret (Some payload) else mret None.

Definition deliver_clocked (b : clocked) (payload : bytes) : fmi cosim () :=
  _ ← call_ (SetClock [kb_clock b]);
  call_ (SetBinary [kb_data b] [payload]).

(** [CountdownBuffer]: the interval last stated and the instant it ends at. *)
Record countdown := mk_countdown {
  nb_data : Z;
  nb_clock : Z;
  nb_interval : option Z;
  nb_due : option Z;
}.

(** [_exact_ns]. *)
Definition exact_ns (clock counter resolution : Z) : result fmi_failure Z :=
  raise: FResolution clock if: resolution =? 0;;
  raise: FFraction clock counter resolution if: negb (counter * NS_PER_S mod resolution =? 0);;
  Ok (counter * NS_PER_S / resolution).

(** [refresh]. *)
Definition refreshed (b : countdown) (now : Z) (a : answer) : result fmi_failure countdown :=
  if an_qualifier a =? 0 then Ok (mk_countdown (nb_data b) (nb_clock b) None None)
  else if an_qualifier a =? 2 then
    interval ← exact_ns (nb_clock b) (an_counter a) (an_resolution a);
    Ok (mk_countdown (nb_data b) (nb_clock b) (Some interval) (Some (now + interval)))
  else if an_qualifier a =? 1 then
    Ok (match nb_due b, nb_interval b with
        | None, Some interval => mk_countdown (nb_data b) (nb_clock b) (Some interval) (Some (now + interval))
        | _, _ => b
        end)
  else Err (FQualifier (an_qualifier a) (nb_clock b)).

Definition refresh (b : countdown) (now : Z) : fmi cosim countdown :=
  a ← call_fmu (GetIntervalFraction (nb_clock b)); lift (refreshed b now a).

(** [take]: the activation is spent. *)
Definition spent (b : countdown) : countdown := mk_countdown (nb_data b) (nb_clock b) (nb_interval b) None.

(** ** Stepping *)

Definition MAX_EVENT_ITERATIONS : nat := 100.

(** [run_event], of any state whose FMU is updated by [upd]. *)
Section event.
Context {S B : Type} (upd : fmi S discrete_states) (collect : fmi S (list B)) (t : Z).

Fixpoint event_from (n : nat) (produced : list B) : fmi S (list B * discrete_states) :=
  match n with
  | O => throw (FEventIterations t)
  | Datatypes.S n =>
      before ← collect;
      states ← upd;
      _ ← throw_if (ds_terminate states) (FEventTermination t);
      if ds_need_update states then event_from n (produced ++ before)
      else after ← collect; mret (produced ++ before ++ after, states)
  end.
Definition run_event : fmi S (list B * discrete_states) := event_from MAX_EVENT_ITERATIONS [].
End event.

(** [declared_ns]: Python raises for an infinity or a NaN. *)
Definition declared_ns (next_event_time : option Z) : result fmi_failure (option Z) :=
  match next_event_time with
  | None => Ok None
  | Some b => match round_float (fmul b (default 0 (float_of_int NS_PER_S))) with
              | Some n => Ok (Some n)
              | None => Err FFloat
              end
  end.

(** [require_contiguous]. *)
Definition require_contiguous (standing t : Z) : result fmi_failure () :=
  raise_if (negb (t =? standing)) (FNotContiguous standing t).

(** ** Payloads of Channels *)

(** [BinaryField]. *)
Record binary_field := mk_binary_field {
  bf_field : string;
  bf_length : string;
  bf_capacity : Z;
  bf_event_time : string;
}.

Definition int_field (fields : values) (name : string) : result fmi_failure Z :=
  match dget fields name with Some (VNum (PInt n)) => Ok n | _ => Err FKey end.

(** [outgoing_payload]. *)
Definition outgoing_payload (b : binary_field) (fields : values) : result fmi_failure bytes :=
  length ← int_field fields (bf_length b);
  raise: FLength length (bf_capacity b) if: bf_capacity b <? length;;
  match dget fields (bf_field b) with
  | Some (VBytes bs) => Ok (take (Z.to_nat length) bs)
  | _ => Err FKey
  end.

(** [_incoming_payload]: padded with zeros to the capacity. *)
Definition incoming_payload (b : binary_field) (payload : bytes) : result fmi_failure values :=
  raise: FProduced (zlen payload) (bf_capacity b) if: bf_capacity b <? zlen payload;;
  Ok (dset [(bf_field b, VBytes (payload ++ replicate (Z.to_nat (bf_capacity b - zlen payload)) Byte.x00))]
        (bf_length b) (VNum (PInt (zlen payload)))).

(** [activation_message]. *)
Definition activation_message (b : binary_field) (payload : bytes) (t : Z) : result fmi_failure values :=
  fields ← incoming_payload b payload;
  Ok (dset fields (bf_event_time b) (VNum (PInt t))).
