(* ===== verification/FmuGroup.v ===== *)
(** * Groups of connected FMUs

    Models [fmi/terminals.py] and [fmi/group.py]: an FMU of a group and its
    network terminals ([instance], [transceiver]), the schedule of the group
    between two Slots ([advance]), the propagation of one instant ([settle_at]),
    and the participant ([on_init], [on_step], [close_group]).

    An instance is its position in the group and a transceiver its position in
    the list of all of them, in the place of Python's references. The documents a
    group is composed from are not part of this file. *)

From Stdlib Require Import ZArith Lia.
From S2P Require Import Prelude PyFloat SchemaTypes Schema FmuRuntime.

(** ** Instances *)

Record transceiver := mk_transceiver {
  tr_instance : nat;
  tr_receive : clocked;
  tr_capacity : Z;
  tr_peer : option nat;
  tr_observation : option (string * binary_field);
  tr_injection : option (string * binary_field);
}.

(** [Instance]; [in_fmu] is [None] until it is instantiated. *)
Record instance := mk_instance {
  in_name : string;
  in_bus : bool;
  in_fmu : option cosim;
  in_triggered : list (nat * clocked);
  in_countdown : list (nat * countdown);
  in_in_event : bool;
  in_event_pending : bool;
  in_next_event_time : option Z;
}.

Definition set_fmu (co : cosim) (x : instance) : instance :=
  mk_instance (in_name x) (in_bus x) (Some co) (in_triggered x) (in_countdown x)
    (in_in_event x) (in_event_pending x) (in_next_event_time x).
Definition set_in_event (b : bool) (x : instance) : instance :=
  mk_instance (in_name x) (in_bus x) (in_fmu x) (in_triggered x) (in_countdown x)
    b (in_event_pending x) (in_next_event_time x).
Definition set_event_pending (b : bool) (x : instance) : instance :=
  mk_instance (in_name x) (in_bus x) (in_fmu x) (in_triggered x) (in_countdown x)
    (in_in_event x) b (in_next_event_time x).
Definition set_next_event_time (n : option Z) (x : instance) : instance :=
  mk_instance (in_name x) (in_bus x) (in_fmu x) (in_triggered x) (in_countdown x)
    (in_in_event x) (in_event_pending x) n.
Definition set_countdown (j : nat) (b : nat * countdown) (x : instance) : instance :=
  mk_instance (in_name x) (in_bus x) (in_fmu x) (in_triggered x) (<[j := b]> (in_countdown x))
    (in_in_event x) (in_event_pending x) (in_next_event_time x).

Definition with_fmu {A} (m : fmi cosim A) : fmi instance A := λ x,
  match in_fmu x with
  | Some co => let '(co', r) := m co in (set_fmu co' x, r)
  | None => (x, Err FNoInstance)
  end.

(** [instantiate]; the FMU may give no instance. *)
Definition instantiate (created : option behaviour) (starts : list start) : fmi instance () :=
  match created with
  | None => throw FNoInstance
  | Some b =>
      _ ← update (set_fmu (mk_cosim b [] false true));
      _ ← with_fmu (apply_start_values starts);
      _ ← with_fmu initialize;
      update (set_in_event true)
  end.

(** [enter_event] and [leave_event]. *)
Definition enter_event : fmi instance () :=
  inside ← gets in_in_event;
  if (inside : bool) then mret () else _ ← with_fmu enter_event_mode; update (set_in_event true).
Definition leave_event : fmi instance () :=
  inside ← gets in_in_event;
  if (inside : bool) then _ ← with_fmu enter_step_mode; update (set_in_event false) else mret ().

(** [step]. *)
Definition step (t dt : Z) : fmi instance () :=
  needed ← with_fmu (do_step t dt); update (set_event_pending needed).

Definition declared (x : instance) : result fmi_failure (option Z) := declared_ns (in_next_event_time x).

(** [due]; Python does not look further once an operand is true. *)
Definition due (t : Z) (x : instance) : result fmi_failure bool :=
  if in_event_pending x then Ok true
  else d ← declared x;
       Ok (bool_decide (d = Some t) || existsb (λ b, bool_decide (nb_due b.2 = Some t)) (in_countdown x)).

(** [asked_for]. *)
Definition countdowns (x : instance) : list Z := omap (λ b, nb_due b.2) (in_countdown x).
Definition asked_for (after : Z) (x : instance) : result fmi_failure (list Z) :=
  d ← declared x;
  Ok (filter (λ i, after < i) (countdowns x ++ option_list d)).

(** [require_nothing_passed]. *)
Definition require_nothing_passed (t : Z) (x : instance) : result fmi_failure () :=
  _ ← foldE (λ _ b, match nb_due b.2 with
                    | Some d => raise_if (d <=? t) (FClockPassed (nb_clock b.2) d t)
                    | None => Ok ()
                    end) () (in_countdown x);
  d ← declared x;
  match d with
  | Some d => raise_if (d <=? t) (FEventPassed d t)
  | None => Ok ()
  end.

(** [_activations]: a triggered Clock and its buffer. *)
Definition read_triggered (b : nat * clocked) : fmi instance (list (nat * bytes)) :=
  payload ← with_fmu (read_clocked b.2);
  mret (match payload with Some bs => [(b.1, bs)] | None => [] end).
Definition activations : fmi instance (list (nat * bytes)) :=
  bs ← gets in_triggered; gather_each read_triggered bs.

(** [take], and what it gives the group. *)
Definition take_countdown (jb : nat * (nat * countdown)) : fmi instance (list (nat * bytes)) :=
  let '(j, (tr, b)) := jb in
  _ ← update (set_countdown j (tr, spent b));
  payload ← with_fmu (read_binary (nb_data b));
  bus ← gets in_bus;
  mret (if negb (bool_decide (payload = [])) || negb bus then [(tr, payload)] else []).

Definition refresh_countdown (t : Z) (jb : nat * (nat * countdown)) : fmi instance () :=
  let '(j, (tr, b)) := jb in
  b' ← with_fmu (refresh b t);
  update (set_countdown j (tr, b')).

Definition due_countdowns (t : Z) (x : instance) : list (nat * (nat * countdown)) :=
  filter (λ jb, nb_due jb.2.2 = Some t) (enumerate (in_countdown x)).

(** [handle]: one event. *)
Definition handle (t : Z) : fmi instance (list (nat * bytes)) :=
  _ ← enter_event;
  _ ← update (set_event_pending false);
  dues ← gets (due_countdowns t);
  _ ← (if decide (dues = []) then mret ()
       else with_fmu (raise_clocks ((λ jb, nb_clock jb.2.2) <$> dues)));
  taken ← gather_each take_countdown dues;
  '(collected, states) ← run_event (with_fmu update_discrete_states) activations t;
  _ ← update (set_next_event_time (ds_next_event_time states));
  bs ← gets (λ x, enumerate (in_countdown x));
  _ ← each (refresh_countdown t) bs;
  mret (taken ++ collected).

(** [Transceiver.accept] and [Instance.deliver]. *)
Definition deliver (n : nat) (tr : transceiver) (payload : bytes) : fmi instance () :=
  _ ← throw_if (tr_capacity tr <? zlen payload) (FAboveMaxSize n (zlen payload) (tr_capacity tr));
  _ ← enter_event;
  with_fmu (deliver_clocked (tr_receive tr) payload).

(** ** The group *)

(** A Message: its Channel and its fields. *)
Abbreviation message := (string * values)%type.

(** [_Pending]. *)
Record pending := mk_pending { pd_instance : nat; pd_delivery : option (nat * bytes) }.

Definition on_instance {A} (i : nat) (m : fmi instance A) : fmi (list instance) A := λ g,
  match g !! i with
  | Some x => let '(x', r) := m x in (<[i := x']> g, r)
  | None => (g, Err FKey)
  end.

Definition MAX_PROPAGATIONS : nat := 100.

Section group.
Context (transceivers : list transceiver).

(** [_Group.__init__]: the transceiver a Channel is handed to. *)
Definition injections : list (string * nat) :=
  foldl (λ d nt, match tr_injection nt.2 with Some ch => dset d ch.1 nt.1 | None => d end) [] (enumerate transceivers).

Definition require_reachable (channel : string) (instant start end_ : Z) : result fmi_failure () :=
  raise_if (negb (in_range start end_ instant)) (FUnreachable channel instant start end_).

(** [_injected]: what arrived, by the instant it states. *)
Definition inject (start end_ : Z) (d : list (Z * list pending)) (m : message)
    : result fmi_failure (list (Z * list pending)) :=
  match dget injections m.1 ≫= λ n, t ← transceivers !! n; ch ← tr_injection t; Some (n, t, ch.2) with
  | Some (n, tr, b) =>
      instant ← int_field m.2 (bf_event_time b);
      _ ← require_reachable m.1 instant start end_;
      payload ← outgoing_payload b m.2;
      Ok (dset d instant (default [] (dget d instant) ++ [mk_pending (tr_instance tr) (Some (n, payload))]))
  | None => Err FKey
  end.
Definition injected (inputs : list message) (start end_ : Z) : result fmi_failure (list (Z * list pending)) :=
  foldE (inject start end_) [] inputs.

(** [injected.pop(t, [])]. *)
Definition pop (d : list (Z * list pending)) (t : Z) : list pending * list (Z * list pending) :=
  (default [] (dget d t), filter (λ kv, kv.1 ≠ t) d).

(** [_boundary]. *)
Definition least (l : list Z) (dflt : Z) : Z :=
  match l with [] => dflt | x :: l => foldl Z.min x l end.
Definition boundary (g : list instance) (now end_ : Z) (d : list (Z * list pending)) : result fmi_failure Z :=
  asked ← mapE (asked_for now) g;
  Ok (least (filter (λ i, i ≤ end_) (concat asked) ++ filter (λ i, now < i) d.*1) end_).

(** [_deliver_same_instant]: the work to do first is the first that is not for a
    bus simulation, and otherwise all that is for the first one. *)
Fixpoint pick (bus : nat → bool) (work : list pending) : option (pending * list pending) :=
  match work with
  | [] => None
  | p :: work =>
      if bus (pd_instance p) then
        match pick bus work with Some (q, rest) => Some (q, p :: rest) | None => None end
      else Some (p, work)
  end.

Definition combine (d : list (nat * bytes)) (p : pending) : list (nat * bytes) :=
  match pd_delivery p with
  | Some (n, payload) => dset d n (default [] (dget d n) ++ payload)
  | None => d
  end.

Definition hand (n : nat) (payload : bytes) : fmi instance () :=
  match transceivers !! n with
  | Some tr => deliver n tr payload
  | None => throw FKey
  end.

Definition is_bus (g : list instance) (i : nat) : bool :=
  match g !! i with Some x => in_bus x | None => false end.

Definition deliver_same_instant (work : list pending) : fmi (list instance) (nat * list pending) :=
  g ← gets id;
  match pick (is_bus g) work, work with
  | Some (owed, rest), _ =>
      _ ← match pd_delivery owed with
          | Some (n, payload) => on_instance (pd_instance owed) (hand n payload)
          | None => mret ()
          end;
      mret (pd_instance owed, rest)
  | None, owed :: rest =>
      let mine := filter (λ p, pd_instance p = pd_instance owed) work in
      let others := filter (λ p, pd_instance p ≠ pd_instance owed) rest in
      _ ← each (λ np, on_instance (pd_instance owed) (hand np.1 np.2)) (foldl combine [] mine);
      mret (pd_instance owed, others)
  | None, [] => throw FKey
  end.

(** What the activations of an event are published as and handed on to. *)
Definition route (t : Z) (st : list message * list pending) (np : nat * bytes)
    : result fmi_failure (list message * list pending) :=
  match transceivers !! np.1 with
  | None => Err FKey
  | Some tr =>
      published ← match tr_observation tr with
                  | Some (ch, b) => m ← activation_message b np.2 t; Ok (st.1 ++ [(ch, m)])
                  | None => Ok st.1
                  end;
      Ok (published,
          match tr_peer tr ≫= λ p, q ← transceivers !! p; Some (p, q) with
          | Some (p, q) => st.2 ++ [mk_pending (tr_instance q) (Some (p, np.2))]
          | None => st.2
          end)
  end.

(** [_quiesce]. *)
Definition quiesce (t : Z) : fmi (list instance) () :=
  g ← gets id;
  _ ← lift (foldE (λ _ x, require_nothing_passed t x) () g);
  each (λ i, on_instance i leave_event) (seq 0 (length g)).

(** [_settle]. *)
Fixpoint settle_from (fuel : nat) (t : Z) (work : list pending) (published : list message)
    : fmi (list instance) (list message) :=
  match fuel with
  | O => throw (FPropagations t)
  | S fuel =>
      if decide (work = []) then _ ← quiesce t; mret published
      else
        '(i, rest) ← deliver_same_instant work;
        out ← on_instance i (handle t);
        '(published, rest) ← lift (foldE (route t) (published, rest) out);
        settle_from fuel t rest published
  end.
Definition settle_at (t : Z) (work : list pending) : fmi (list instance) (list message) :=
  if decide (work = []) then mret [] else settle_from MAX_PROPAGATIONS t work [].

(** [initialize]. *)
Definition initialize_group : fmi (list instance) (list message) :=
  g ← gets id; settle_at 0 ((λ i, mk_pending i None) <$> seq 0 (length g)).

(** The instances with an event at the instant just reached. *)
Definition due_instances (t : Z) (g : list instance) : result fmi_failure (list pending) :=
  dues ← mapE (due t) g;
  Ok (omap (λ ib : nat * bool, if ib.2 then Some (mk_pending ib.1 None) else None) (enumerate dues)).

(** [advance]. The next boundary is later than [now], so the length of the
    interval is fuel. *)
Fixpoint advance_from (fuel : nat) (now end_ : Z) (d : list (Z * list pending)) (published : list message)
    : fmi (list instance) (list message) :=
  if end_ <=? now then mret published
  else
    match fuel with
    | O => throw FFuel
    | S fuel =>
        g ← gets id;
        b ← lift (boundary g now end_ d);
        _ ← each (λ i, on_instance i (step now (b - now))) (seq 0 (length g));
        g ← gets id;
        dues ← lift (due_instances b g);
        out ← settle_at b ((pop d b).1 ++ (dues : list pending));
        advance_from fuel b end_ (pop d b).2 (published ++ (out : list message))
    end.
Definition advance (t dt : Z) (inputs : list message) : fmi (list instance) (list message) :=
  d ← lift (injected inputs t (t + dt));
  published ← settle_at t (pop d t).1;
  advance_from (Z.to_nat dt) t (t + dt) (pop d t).2 published.

(** [_Group.close]: every instance is closed and the first failure reported. *)
Definition close_instance (i : nat) (failure : option fmi_failure) (g : list instance)
    : list instance * option fmi_failure :=
  match g !! i with
  | Some x =>
      match in_fmu x with
      | None => (g, failure)
      | Some co =>
          let '(co', r) := close co in
          (<[i := set_fmu co' x]> g,
           match failure, r with None, Err e => Some (FInstance (in_name x) e) | f, _ => f end)
      end
  | None => (g, failure)
  end.
Definition close_all : fmi (list instance) () := λ g,
  let '(g, failure) := foldl (λ gf i, close_instance i gf.2 gf.1) (g, None) (seq 0 (length g)) in
  (g, match failure with Some e => Err e | None => Ok () end).
End group.

(** ** The participant *)

(** [FmuGroupParticipant]. *)
Record group_participant := mk_group_participant {
  gp_instances : list instance;
  gp_pending : list message;
  gp_point : Z;
}.

Definition on_group {A} (m : fmi (list instance) A) : fmi group_participant A := λ p,
  let '(g, r) := m (gp_instances p) in (mk_group_participant g (gp_pending p) (gp_point p), r).

Section participant.
Context (transceivers : list transceiver).

Definition start_instance (created : list (option behaviour * list start)) (i : nat) : fmi instance () :=
  match created !! i with
  | Some (b, starts) => instantiate b starts
  | None => throw FKey
  end.

(** [on_init], from the instances that were read and checked. *)
Definition on_init (created : list (option behaviour * list start)) : fmi group_participant () :=
  g ← gets gp_instances;
  _ ← on_group (each (λ i, on_instance i (start_instance created i)) (seq 0 (length g)));
  published ← on_group (initialize_group transceivers);
  update (λ p, mk_group_participant (gp_instances p) published (gp_point p)).

(** [on_step]. *)
Definition on_step (t dt : Z) (inputs : list message) : fmi group_participant (list message) :=
  standing ← gets gp_point;
  _ ← lift (require_contiguous standing t);
  published ← gets gp_pending;
  _ ← update (λ p, mk_group_participant (gp_instances p) [] (gp_point p));
  out ← on_group (advance transceivers t dt inputs);
  _ ← update (λ p, mk_group_participant (gp_instances p) (gp_pending p) (t + dt));
  mret (published ++ out).

Definition close_group : fmi group_participant () := on_group close_all.
End participant.
