(* ===== verification/FmuGroupProofs.v ===== *)
(** * What a group of FMUs promises

    [monitor] is the contract of FMI 3.0 with the requests an FMU makes, as a
    machine that reads the calls of one instance and their answers: which calls a
    mode allows, that steps continue where the last one ended, that no step
    passes an instant the FMU asked to be in Event Mode at, and that the event of
    such an instant is the next thing that happens to it. [group_conforms] shows
    that the group keeps this contract with every FMU it drives, whatever the
    FMUs answer, but for one way out of a failed initialization, and [group_together] that all of them are stepped over the same
    intervals from virtual time zero. *)

From Stdlib Require Import ZArith Lia.
From S2P Require Import Prelude PyFloat SchemaTypes Schema FmuRuntime FmuGroup.

(** ** The contract *)

(** [StepMode true]: the FMU is owed an event. [Refused]: a call was answered with
    a status that is neither an error nor a success. *)
Inductive stage :=
| Instantiated
| Configuration
| Initialization
| EventMode
| StepMode (owed : bool)
| Refused (early : bool)
| Errored
| Fatal
| Terminated
| Freed.

#[export] Instance stage_eq_dec : EqDecision stage.
Proof. solve_decision. Defined.

Definition early (s : stage) : bool :=
  match s with Instantiated | Configuration | Initialization => true | _ => false end.

(** The mode after a call that succeeds, if the mode allows it. *)
Definition allowed (s : stage) (c : call) : option stage :=
  match s, c with
  | Instantiated, (SetValues _ _ _ | SetBinary _ _) => Some Instantiated
  | Instantiated, EnterConfigurationMode => Some Configuration
  | Configuration, (SetValues _ _ _ | SetBinary _ _) => Some Configuration
  | Configuration, ExitConfigurationMode => Some Instantiated
  | Instantiated, EnterInitializationMode => Some Initialization
  | Initialization, ExitInitializationMode => Some EventMode
  | EventMode, (GetClock _ | SetClock _ | GetIntervalFraction _ | UpdateDiscreteStates | GetBinary _ | SetBinary _ _) =>
      Some EventMode
  | EventMode, EnterStepMode => Some (StepMode false)
  | StepMode false, (DoStep _ _ | SetValues _ _ _ | GetValues _ _ _ | GetBinary _ | SetBinary _ _) => Some (StepMode false)
  | StepMode _, EnterEventMode => Some EventMode
  | (EventMode | StepMode _ | Refused false), Terminate => Some Terminated
  | (Freed | Fatal), _ => None
  | _, FreeInstance => Some Freed
  | _, _ => None
  end.

Definition answered (before after : stage) (c : call) (a : answer) : stage :=
  if bool_decide (c = FreeInstance) || (an_status a =? FMI_SUCCESS_STATUS) then after
  else if an_status a =? FMI_ERROR_STATUS then Errored
  else if an_status a =? FMI_FATAL_STATUS then Fatal
  else if bool_decide (c = Terminate) then Terminated else Refused (early before).

(** The instant the FMU stands on, the event time it declared, and for each of
    its countdown Clocks the interval it stated and the instant it is due at. *)
Record monitor := mk_monitor {
  mo_stage : stage;
  mo_now : Z;
  mo_next : option Z;
  mo_clocks : gmap Z (option Z * option Z);
}.

Definition new_monitor : monitor := mk_monitor Instantiated 0 None ∅.

Definition clock_state (m : monitor) (c : Z) : option Z * option Z := default (None, None) (mo_clocks m !! c).

Definition restated (old : option Z * option Z) (now : Z) (a : answer) : option Z * option Z :=
  if an_qualifier a =? 0 then (None, None)
  else if an_qualifier a =? 2 then
    match exact_ns 0 (an_counter a) (an_resolution a) with
    | Ok interval => (Some interval, Some (now + interval))
    | Err _ => old
    end
  else match old with
       | (Some interval, None) => (Some interval, Some (now + interval))
       | _ => old
       end.

Section monitor.
Context (cs : list Z).

(** Every instant the FMU asked to be in Event Mode at. *)
Definition requests (m : monitor) : list Z :=
  omap (λ c, (clock_state m c).2) cs
  ++ match declared_ns (mo_next m) with Ok d => option_list d | Err _ => [] end.

Definition effect (m : monitor) (after : stage) (c : call) (a : answer) : monitor :=
  match c with
  | DoStep t dt =>
      mk_monitor (StepMode (an_event_needed a || bool_decide (t + dt ∈ requests m))) (t + dt) (mo_next m) (mo_clocks m)
  | UpdateDiscreteStates => mk_monitor after (mo_now m) (an_next_event_time a) (mo_clocks m)
  | GetIntervalFraction c =>
      mk_monitor after (mo_now m) (mo_next m) (<[c := restated (clock_state m c) (mo_now m) a]> (mo_clocks m))
  | SetClock raised =>
      mk_monitor after (mo_now m) (mo_next m)
        (foldr (λ c clocks, <[c := ((clock_state m c).1, None)]> clocks) (mo_clocks m) raised)
  | _ => mk_monitor after (mo_now m) (mo_next m) (mo_clocks m)
  end.

(** A step continues where the FMU stands and passes no instant it asked for. *)
Definition in_time (m : monitor) (c : call) : bool :=
  match c with
  | DoStep t dt => bool_decide (t = mo_now m ∧ 0 < dt ∧ Forall (λ i, t + dt ≤ i) (requests m))
  | _ => true
  end.

Definition watch (m : monitor) (ca : call * answer) : option monitor :=
  match allowed (mo_stage m) ca.1 with
  | Some after =>
      if in_time m ca.1 then
        if an_status ca.2 =? FMI_SUCCESS_STATUS then Some (effect m after ca.1 ca.2)
        else Some (mk_monitor (answered (mo_stage m) after ca.1 ca.2) (mo_now m) (mo_next m) (mo_clocks m))
      else None
  | None => None
  end.

Definition observe (log : list (call * answer)) : option monitor :=
  foldl (λ om ca, m ← om; watch m ca) (Some new_monitor) log.
End monitor.

Definition log_of (x : instance) : list (call * answer) :=
  match in_fmu x with Some co => co_log co | None => [] end.
Definition clocks_of (x : instance) : list Z := (λ b, nb_clock b.2) <$> in_countdown x.

(** The intervals an FMU was stepped over. *)
Definition steps_of (log : list (call * answer)) : list (Z * Z) :=
  omap (λ ca, match ca.1 with DoStep t dt => Some (t, dt) | _ => None end) log.

Fixpoint tiles (from to : Z) (l : list (Z * Z)) : Prop :=
  match l with
  | [] => from = to
  | (t, dt) :: l => t = from ∧ 0 < dt ∧ tiles (t + dt) to l
  end.

#[local] Arguments observe : simpl never.
#[local] Arguments steps_of : simpl never.
#[local] Arguments watch : simpl never.
#[local] Arguments effect : simpl never.
#[local] Arguments requests : simpl never.

Lemma observe_app cs l ca : observe cs (l ++ [ca]) = observe cs l ≫= λ m, watch cs m ca.
Proof. unfold observe. by rewrite foldl_app. Qed.

Lemma steps_app l ca :
  steps_of (l ++ [ca]) = steps_of l ++ match ca.1 with DoStep t dt => [(t, dt)] | _ => [] end.
Proof. unfold steps_of. rewrite omap_app. f_equal. cbn. by destruct ca as [[] a]. Qed.

(** ** One instance *)

(** The instance is alive, its calls conform and have led to [m]. *)
Record good (cs : list Z) (L : list (Z * Z)) (m : monitor) (co : cosim) : Prop := {
  gd_open : co_open co = true;
  gd_alive : co_failed co = false;
  gd_log : observe cs (co_log co) = Some m;
  gd_steps : steps_of (co_log co) = L;
}.

(** After a failure its calls still conform, and closing it does. *)
Definition closable (co : cosim) (s : stage) : Prop :=
  if co_open co then if co_failed co then s = Errored else allowed s Terminate = Some Terminated
  else s = Fatal.
Definition broken (cs : list Z) (co : cosim) : Prop :=
  ∃ m, observe cs (co_log co) = Some m ∧ closable co (mo_stage m).

Definition running (s : stage) : bool := match s with EventMode | StepMode _ => true | _ => false end.

Lemma good_broken cs L m co : good cs L m co → running (mo_stage m) = true → broken cs co.
Proof.
  intros [Ho Hf Hl _] Hr. exists m. split; [done|]. unfold closable. rewrite Ho, Hf. by destruct (mo_stage m) as [| | | |[]|[]| | | |].
Qed.

Lemma call_any cs L m c after :
  allowed (mo_stage m) c = Some after → in_time cs m c = true →
  triple (good cs L m) (call_fmu c)
    (λ a co, good cs (L ++ match c with DoStep t dt => [(t, dt)] | _ => [] end) (effect cs m after c a) co)
    (λ _, True).
Proof.
  intros Ha Ht co [Ho Hf Hl Hs]. unfold call_fmu. destruct (co_binary co (co_log co) c) as [a|]; [|done].
  destruct (an_status a =? FMI_SUCCESS_STATUS) eqn:Hst; [|done].
  apply Z.eqb_eq in Hst. split; unfold log_call; cbn [co_open co_failed co_log].
  - by rewrite Ho, Hst.
  - by rewrite Hf, Hst.
  - rewrite observe_app, Hl. cbn [mbind option_bind]. unfold watch. cbn [fst snd]. by rewrite Ha, Ht, Hst.
  - by rewrite steps_app, Hs.
Qed.

Lemma call_good cs L m c after :
  running (mo_stage m) = true → allowed (mo_stage m) c = Some after → in_time cs m c = true →
  c ≠ FreeInstance → c ≠ Terminate →
  triple (good cs L m) (call_fmu c)
    (λ a co, good cs (L ++ match c with DoStep t dt => [(t, dt)] | _ => [] end) (effect cs m after c a) co)
    (broken cs).
Proof.
  intros Hr Ha Ht Hnf Hnt co Hco. pose proof (call_any cs L m c after Ha Ht co Hco) as Hany. unfold call_fmu in *.
  pose proof (good_broken _ _ _ _ Hco Hr) as Hb.
  destruct Hco as [Ho Hf Hl Hs]. destruct (co_binary co (co_log co) c) as [a|]; [|done].
  destruct (an_status a =? FMI_SUCCESS_STATUS) eqn:Hst; [exact Hany|].
  exists (mk_monitor (answered (mo_stage m) after c a) (mo_now m) (mo_next m) (mo_clocks m)). split.
  - unfold log_call. cbn [co_log]. rewrite observe_app, Hl. cbn [mbind option_bind]. unfold watch. cbn [fst snd]. by rewrite Ha, Ht, Hst.
  - cbn. unfold closable, log_call, answered. cbn. rewrite Ho, Hf. rewrite !bool_decide_false by done. cbn. rewrite Hst.
    destruct (Z.eqb_spec (an_status a) FMI_ERROR_STATUS) as [->|]; [done|].
    destruct (an_status a =? FMI_FATAL_STATUS); [done|]. by destruct (mo_stage m).
Qed.

(** Calls in Event Mode that change nothing the contract looks at. *)
Definition plain (c : call) : bool :=
  match c with GetClock _ | GetBinary _ | SetBinary _ _ => true | _ => false end.

Lemma plain_call cs L m c :
  mo_stage m = EventMode → plain c = true → triple (good cs L m) (call_fmu c) (λ _, good cs L m) (broken cs).
Proof.
  intros Hm Hc. eapply triple_conseq.
  - apply (call_good cs L m c EventMode); [by rewrite Hm|rewrite Hm; by destruct c|by destruct c..].
  - done.
  - intros a co Hco. destruct c; try done; cbn in Hco; rewrite app_nil_r in Hco; unfold effect in Hco;
      destruct m as [s n x cl]; cbn in *; by subst s.
  - done.
Qed.

Lemma read_binary_good cs L m data :
  mo_stage m = EventMode → triple (good cs L m) (read_binary data) (λ _, good cs L m) (broken cs).
Proof. intros Hm. eapply triple_bind; [by apply plain_call|]. intros a. apply (triple_ret _ (λ _, good cs L m)). Qed.

Lemma read_clocked_good cs L m b :
  mo_stage m = EventMode → triple (good cs L m) (read_clocked b) (λ _, good cs L m) (broken cs).
Proof.
  intros Hm. eapply triple_bind; [by apply plain_call|]. intros a. destruct (an_clock a); cycle 1.
  { apply (triple_ret _ (λ _, good cs L m)). }
  eapply triple_bind; [by apply read_binary_good|]. intros bs. apply (triple_ret _ (λ _, good cs L m)).
Qed.

(** A call that changes only [mo_next] or [mo_clocks]. *)
Lemma event_call cs L m c :
  mo_stage m = EventMode → (c = UpdateDiscreteStates ∨ (∃ k, c = SetClock k) ∨ ∃ k, c = GetIntervalFraction k) →
  triple (good cs L m) (call_fmu c) (λ a, good cs L (effect cs m EventMode c a)) (broken cs).
Proof.
  intros Hm Hc. eapply triple_conseq.
  - apply (call_good cs L m c EventMode); rewrite ?Hm; by destruct Hc as [->|[[k ->]|[k ->]]].
  - done.
  - intros a co Hco. destruct Hc as [->|[[k ->]|[k ->]]]; by rewrite app_nil_r in Hco.
  - done.
Qed.

(** An instance with the fields of [y] and an FMU that has led to [m]. *)
Definition inst (cs : list Z) (L : list (Z * Z)) (m : monitor) (y x : instance) : Prop :=
  ∃ co, x = set_fmu co y ∧ good cs L m co.
Definition dead (cs : list Z) (x : instance) : Prop :=
  ∃ co y, x = set_fmu co y ∧ clocks_of y = cs ∧ broken cs co.

Lemma with_fmu_inst {A} (prog : fmi cosim A) cs L m y (Q : A → cosim → Prop) :
  triple (good cs L m) prog Q (broken cs) → clocks_of y = cs →
  triple (inst cs L m y) (with_fmu prog) (λ a x, ∃ co, x = set_fmu co y ∧ Q a co) (dead cs).
Proof.
  intros Hp Hy x (co & -> & Hco). unfold with_fmu. cbn. specialize (Hp co Hco).
  destruct (prog co) as [co' [a|e]]; [by exists co'|by exists co', y].
Qed.

Lemma inst_dead cs L m y x : inst cs L m y x → running (mo_stage m) = true → clocks_of y = cs → dead cs x.
Proof. intros (co & -> & Hco) Hr Hy. exists co, y. split_and!; [done..|]. by eapply good_broken. Qed.

(** ** An event *)

(** The buffers of countdown Clocks agree with the contract, but that those of
    [R] are raised and not taken yet. *)
Definition agreed (m : monitor) (y : instance) (R : list nat) : Prop :=
  ∀ j tr b, in_countdown y !! j = Some (tr, b) →
    clock_state m (nb_clock b) = (nb_interval b, if decide (j ∈ R) then None else nb_due b).

Definition same (y y' : instance) : Prop :=
  in_in_event y' = in_in_event y ∧ in_next_event_time y' = in_next_event_time y
  ∧ in_event_pending y' = in_event_pending y ∧ clocks_of y' = clocks_of y ∧ in_bus y' = in_bus y.

Lemma set_countdown_same j tr b b' y :
  in_countdown y !! j = Some (tr, b) → nb_clock b' = nb_clock b → same y (set_countdown j (tr, b') y).
Proof.
  intros Hj Hb. split_and!; try done. unfold clocks_of. cbn. apply list_eq. intros i. rewrite !list_lookup_fmap.
  destruct (decide (i = j)) as [->|Hi].
  - rewrite list_lookup_insert_eq by (by eapply lookup_lt_Some). rewrite Hj. cbn. by rewrite Hb.
  - by rewrite list_lookup_insert_ne.
Qed.

Lemma same_trans y y' y'' : same y y' → same y' y'' → same y y''.
Proof. unfold same. intros (?&?&?&?&?) (?&?&?&?&?). split_and!; congruence. Qed.

Lemma same_refl y : same y y.
Proof. unfold same. done. Qed.

Lemma take_loop cs L m y dues :
  mo_stage m = EventMode → clocks_of y = cs → NoDup dues.*1 → agreed m y dues.*1 →
  Forall (λ jb, in_countdown y !! jb.1 = Some jb.2) dues →
  triple (inst cs L m y) (gather_each take_countdown dues)
    (λ _ x, ∃ y', inst cs L m y' x ∧ same y y' ∧ agreed m y' []) (dead cs).
Proof.
  intros Hm. revert y. induction dues as [|[j [tr b]] dues IH]; intros y Hy Hn Ha Hj.
  { intros x Hx. cbn. exists y. split_and!; [done|apply same_refl|done]. }
  apply NoDup_cons in Hn as [Hnj Hn]. apply Forall_cons in Hj as [Hjb Hj]. cbn [fst snd fmap list_fmap] in *.
  pose proof (set_countdown_same j tr b (spent b) y Hjb eq_refl) as Hsame.
  set (y' := set_countdown j (tr, spent b) y) in *.
  assert (clocks_of y' = cs) as Hy' by (destruct Hsame as (_ & _ & _ & -> & _); done).
  cbn [gather_each]. eapply triple_bind with (Q := λ _, inst cs L m y').
  - unfold take_countdown. eapply triple_bind with (Q := λ _, inst cs L m y').
    { apply triple_update. intros x (co & -> & Hco). by exists co. }
    intros _. eapply triple_bind with (Q := λ _, inst cs L m y').
    { eapply triple_conseq; [by apply with_fmu_inst, Hy'; apply read_binary_good|done| |done].
      intros bs x (co & -> & Hco). by exists co. }
    intros bs. eapply triple_bind; [apply (triple_gets in_bus)|]. intros bus x [Hx _]. exact Hx.
  - intros out. eapply triple_bind with (Q := λ _ x, ∃ y'', inst cs L m y'' x ∧ same y y'' ∧ agreed m y'' []).
    + eapply triple_conseq; [apply (IH y')| | |].
      * done.
      * done.
      * intros i tr' b' Hi. destruct (decide (i = j)) as [->|Hij].
        -- unfold y' in Hi. cbn in Hi. rewrite list_lookup_insert_eq in Hi by (by eapply lookup_lt_Some).
           injection Hi as <- <-. rewrite decide_False by done. cbn. rewrite (Ha j tr b Hjb). by rewrite decide_True by left.
        -- unfold y' in Hi. cbn in Hi. rewrite list_lookup_insert_ne in Hi by done. rewrite (Ha i tr' b' Hi).
           f_equal. apply decide_ext. rewrite elem_of_cons. naive_solver.
      * apply Forall_forall. intros [i b'] Hi. pose proof (proj1 (Forall_forall _ _) Hj _ Hi) as Hb. cbn in *.
        rewrite list_lookup_insert_ne; [done|]. intros ->. apply Hnj. apply list_elem_of_fmap. by exists (i, b').
      * done.
      * intros a x (y'' & Hx & Hs & Hag). exists y''. split_and!; [done| |done]. by eapply same_trans.
      * done.
    + intros rest x Hx. exact Hx.
Qed.

Lemma due_countdowns_spec t y :
  NoDup (due_countdowns t y).*1
  ∧ Forall (λ jb, in_countdown y !! jb.1 = Some jb.2 ∧ nb_due jb.2.2 = Some t) (due_countdowns t y)
  ∧ ∀ j tr b, in_countdown y !! j = Some (tr, b) → nb_due b = Some t → j ∈ (due_countdowns t y).*1.
Proof.
  unfold due_countdowns. split_and!.
  - unfold enumerate. generalize 0%nat. generalize (in_countdown y). intros l.
    induction l as [|b l IH]; intros n; cbn [enumerate_from]; [constructor|]. rewrite filter_cons.
    case_decide; [|apply IH]. rewrite fmap_cons. apply NoDup_cons. split; [|apply IH].
    intros ([i b'] & Heq & [_ (k & Hk & _)%elem_enumerate]%list_elem_of_filter)%list_elem_of_fmap. cbn in *. lia.
  - apply Forall_forall. intros [j b] [Hd (k & -> & Hk)%elem_enumerate]%list_elem_of_filter. done.
  - intros j tr b Hj Hd. apply list_elem_of_fmap. exists (j, (tr, b)). split; [done|]. apply list_elem_of_filter.
    split; [done|]. apply list_elem_of_lookup. exists j. unfold enumerate. by rewrite enumerate_from_lookup, Hj.
Qed.

(** The same contract state with another declared event time. *)
Definition with_next (n : option Z) (m : monitor) : monitor := mk_monitor (mo_stage m) (mo_now m) n (mo_clocks m).

Lemma activations_inst cs L m y :
  mo_stage m = EventMode → clocks_of y = cs → triple (inst cs L m y) activations (λ _, inst cs L m y) (dead cs).
Proof.
  intros Hm Hy. unfold activations. eapply triple_bind; [apply (triple_gets in_triggered)|]. intros bs.
  eapply triple_conseq; [apply (triple_gather _ bs (inst cs L m y) (λ _, True))| by intros x [Hx _]|by intros a x [Hx _]|done].
  intros b. unfold read_triggered. eapply triple_bind with (Q := λ _, inst cs L m y).
  { eapply triple_conseq; [by apply with_fmu_inst, Hy; apply read_clocked_good|done| |done].
    intros a x (co & -> & Hco). by exists co. }
  intros [bs'|] x Hx; cbn; by repeat constructor.
Qed.

Lemma event_loop cs L y t n m produced :
  mo_stage m = EventMode → clocks_of y = cs →
  triple (inst cs L m y) (event_from (with_fmu update_discrete_states) activations t n produced)
    (λ r, inst cs L (with_next (ds_next_event_time r.2) m) y) (dead cs).
Proof.
  intros Hm Hy. revert m Hm produced. induction n as [|n IH]; intros m Hm produced; cbn [event_from].
  { apply triple_throw. intros x Hx. eapply inst_dead; [done|by rewrite Hm|done]. }
  eapply triple_bind; [by apply activations_inst|]. intros before.
  eapply triple_bind with (Q := λ st, inst cs L (with_next (ds_next_event_time st) m) y).
  { eapply triple_conseq; [apply (with_fmu_inst _ cs L m y (λ st, good cs L (with_next (ds_next_event_time st) m))), Hy|done| |done].
    - unfold update_discrete_states. eapply triple_bind; [apply event_call; [done|by left]|]. intros a.
      intros co Hco. cbn.
      unfold effect in Hco. rewrite <- Hm in Hco. exact Hco.
    - intros st x (co & -> & Hco). by exists co. }
  intros st. eapply triple_bind with (Q := λ _, inst cs L (with_next (ds_next_event_time st) m) y).
  { apply triple_throw_if; [|done]. intros x Hx _. eapply inst_dead; [done|by cbn; rewrite Hm|done]. }
  intros _. destruct (ds_need_update st); [by apply (IH (with_next _ m))|].
  eapply triple_bind; [by apply activations_inst|]. intros after x Hx. exact Hx.
Qed.

Lemma clock_state_insert m c c' v :
  clock_state (mk_monitor (mo_stage m) (mo_now m) (mo_next m) (<[c := v]> (mo_clocks m))) c'
  = if decide (c' = c) then v else clock_state m c'.
Proof.
  unfold clock_state. cbn. case_decide as Hc; [subst c'; by rewrite lookup_insert_eq|by rewrite lookup_insert_ne].
Qed.

Lemma refreshed_clock b t a b' : refreshed b t a = Ok b' → nb_clock b' = nb_clock b.
Proof.
  unfold refreshed. repeat case_match; try done; try (by intros [= <-]).
  by intros (i & _ & [= <-])%bind_Ok.
Qed.

Lemma refreshed_restated b t a b' :
  refreshed b t a = Ok b' → restated (nb_interval b, nb_due b) t a = (nb_interval b', nb_due b').
Proof.
  unfold refreshed, restated. destruct (an_qualifier a =? 0); [by intros [= <-]|].
  destruct (an_qualifier a =? 2).
  - intros (i & Hi & [= <-])%bind_Ok. unfold exact_ns in *.
    destruct (an_resolution a =? 0); [done|]. cbn [raise_if mbind result_bind] in *.
    destruct (negb (an_counter a * NS_PER_S mod an_resolution a =? 0)); [done|]. by injection Hi as <-.
  - destruct (an_qualifier a =? 1); [|done]. destruct (nb_due b) eqn:Hd, (nb_interval b) eqn:Hi; intros [= <-]; by rewrite ?Hd, ?Hi.
Qed.

Definition event_state (cs : list Z) (L : list (Z * Z)) (t : Z) (y0 : instance) (m : monitor) (y x : instance) : Prop :=
  inst cs L m y x ∧ same y0 y ∧ agreed m y [] ∧ mo_stage m = EventMode ∧ mo_now m = t
  ∧ mo_next m = in_next_event_time y.

Lemma refresh_one cs L t m y j tr b :
  NoDup cs → clocks_of y = cs → agreed m y [] → mo_stage m = EventMode → mo_now m = t →
  mo_next m = in_next_event_time y → in_countdown y !! j = Some (tr, b) →
  triple (inst cs L m y) (refresh_countdown t (j, (tr, b)))
    (λ _ x, ∃ m' b', event_state cs L t y m' (set_countdown j (tr, b') y) x) (dead cs).
Proof.
  intros Hn Hy Ha Hm Ht Hnx Hj. unfold refresh_countdown.
  set (m' := λ a, effect cs m EventMode (GetIntervalFraction (nb_clock b)) a).
  eapply triple_seq with (Q := λ b' x, ∃ a, inst cs L (m' a) y x ∧ refreshed b t a = Ok b').
  - eapply triple_conseq; [apply (with_fmu_inst _ cs L m y (λ b' co, ∃ a, good cs L (m' a) co ∧ refreshed b t a = Ok b')), Hy|done| |done].
    + unfold refresh. eapply triple_bind; [apply event_call; [done|right; right; by eexists]|]. intros a.
      apply triple_lift. intros co Hco. destruct (refreshed b t a) as [b'|] eqn:Hb; [by exists a|].
      eapply good_broken; [exact Hco|done].
    + intros b' x (co & -> & a & Hco & Hb). exists a. split; [by exists co|done].
  - intros b' x (a & Hx & Hb). eexists. split; [exact Hx|]. apply triple_update. clear x Hx. intros x (co & -> & Hco).
    exists (m' a), b'. pose proof (refreshed_clock _ _ _ _ Hb) as Hc. split_and!; [by exists co|by eapply set_countdown_same| |done..].
    intros i tr' b'' Hi. unfold m', effect. rewrite <- Hm, clock_state_insert. cbn in Hi.
    pose proof (Ha j tr b Hj) as Hjb. rewrite decide_False in Hjb by apply not_elem_of_nil.
    destruct (decide (i = j)) as [->|Hij].
    + rewrite list_lookup_insert_eq in Hi by (by eapply lookup_lt_Some). injection Hi as <- <-.
      rewrite decide_True by done. rewrite Hjb, Ht, decide_False by apply not_elem_of_nil. by apply refreshed_restated.
    + rewrite list_lookup_insert_ne in Hi by done. rewrite decide_False; [by apply (Ha i tr')|].
      intros Heq. apply Hij. eapply (NoDup_lookup (clocks_of y)); [by rewrite Hy| |].
      * unfold clocks_of. by rewrite list_lookup_fmap, Hi.
      * unfold clocks_of. rewrite list_lookup_fmap, Hj. cbn. by rewrite Heq.
Qed.

Lemma refresh_loop cs L t y0 bs m y :
  NoDup cs → clocks_of y0 = cs → same y0 y → agreed m y [] → mo_stage m = EventMode → mo_now m = t →
  mo_next m = in_next_event_time y → NoDup bs.*1 → Forall (λ jb, in_countdown y !! jb.1 = Some jb.2) bs →
  triple (inst cs L m y) (each (refresh_countdown t) bs) (λ _ x, ∃ m' y', event_state cs L t y0 m' y' x) (dead cs).
Proof.
  intros Hn Hy0. revert m y. induction bs as [|[j [tr b]] bs IH]; intros m y Hs Ha Hm Ht Hnx Hnb Hbs.
  { intros x Hx. cbn. exists m, y. by split_and!. }
  apply NoDup_cons in Hnb as [Hnj Hnb]. apply Forall_cons in Hbs as [Hj Hbs]. cbn [fst snd] in Hj.
  assert (clocks_of y = cs) as Hy by (destruct Hs as (_ & _ & _ & -> & _); done).
  cbn [each]. eapply triple_seq; [by apply refresh_one|]. intros _ x (m' & b' & Hx & Hs' & Ha' & Hm' & Ht' & Hn').
  eexists. split; [exact Hx|]. apply IH; try done.
  - by eapply same_trans.
  - apply Forall_forall. intros [i b''] Hi. pose proof (proj1 (Forall_forall _ _) Hbs _ Hi) as Hb. cbn in *.
    rewrite list_lookup_insert_ne; [done|]. intros ->. apply Hnj. apply list_elem_of_fmap. by exists (i, b'').
Qed.

(** ** The operations of an instance *)

(** The instance stands at [t] in the mode [s], and knows what its FMU asked for. *)
Definition tracks (cs : list Z) (L : list (Z * Z)) (t : Z) (s : stage) (x : instance) : Prop :=
  ∃ m y, inst cs L m y x ∧ clocks_of y = cs ∧ agreed m y [] ∧ mo_stage m = s ∧ mo_now m = t
         ∧ mo_next m = in_next_event_time y ∧ in_in_event y = bool_decide (s = EventMode).

Lemma tracks_dead cs L t s x : tracks cs L t s x → running s = true → dead cs x.
Proof. intros (m & y & Hx & Hy & _ & <- & _) Hr. by eapply inst_dead. Qed.

Lemma enter_event_tracks cs L t s :
  running s = true → triple (tracks cs L t s) enter_event (λ _, tracks cs L t EventMode) (dead cs).
Proof.
  intros Hr. apply triple_pull. intros x (m & y & Hx & Hy & Ha & Hm & Ht & Hn & Hi). eexists. split; [exact Hx|]. clear x Hx.
  unfold enter_event. eapply triple_seq; [apply (triple_gets in_in_event)|]. intros inside x [Hx ->].
  destruct Hx as (co & -> & Hco). change (in_in_event (set_fmu co y)) with (in_in_event y). rewrite Hi.
  exists (inst cs L m y). split; [by exists co|]. case_bool_decide as Hs.
  { subst s. intros x Hx. exists m, y. by split_and!. }
  set (m' := mk_monitor EventMode (mo_now m) (mo_next m) (mo_clocks m)).
  eapply triple_bind with (Q := λ _, inst cs L m' y).
  - eapply triple_conseq; [apply (with_fmu_inst _ cs L m y (λ _, good cs L m')), Hy|done| |done].
    + unfold enter_event_mode, call_. eapply triple_bind; [apply (call_good cs L m EnterEventMode EventMode)|].
      * by rewrite Hm.
      * rewrite Hm. by destruct s as [| | | |[]|[]| | | |].
      * done.
      * done.
      * done.
      * intros a co' Hco'. cbn. rewrite app_nil_r in Hco'. exact Hco'.
    + intros _ x (co' & -> & Hco'). by exists co'.
  - intros _. apply triple_update. intros x (co' & -> & Hco'). exists m', (set_in_event true y).
    split_and!; try done. by exists co'.
Qed.

Lemma spent_clocks m cs raised c :
  clock_state (effect cs m EventMode (SetClock raised) an_ok) c
  = if decide (c ∈ raised) then ((clock_state m c).1, None) else clock_state m c.
Proof.
  unfold effect, clock_state. cbn [mo_clocks]. induction raised as [|r raised IH]; [done|]. cbn [foldr].
  destruct (decide (c = r)) as [->|Hc].
  - rewrite lookup_insert_eq. rewrite decide_True by left. done.
  - rewrite lookup_insert_ne by done. rewrite IH. apply decide_ext. rewrite elem_of_cons. naive_solver.
Qed.

Lemma raise_clocks_inst cs L m y raised :
  mo_stage m = EventMode → clocks_of y = cs →
  triple (inst cs L m y) (with_fmu (raise_clocks raised))
    (λ _, inst cs L (effect cs m EventMode (SetClock raised) an_ok) y) (dead cs).
Proof.
  intros Hm Hy. eapply triple_conseq;
    [apply (with_fmu_inst _ cs L m y (λ _, good cs L (effect cs m EventMode (SetClock raised) an_ok))), Hy|done| |done].
  - unfold raise_clocks, call_. eapply triple_bind; [apply event_call; [done|right; left; by eexists]|]. by intros a co Hco.
  - intros _ x (co & -> & Hco). by exists co.
Qed.

Lemma due_clocks_raised cs m y t :
  clocks_of y = cs → NoDup cs → agreed m y [] →
  agreed (effect cs m EventMode (SetClock ((λ jb, nb_clock jb.2.2) <$> due_countdowns t y)) an_ok) y (due_countdowns t y).*1.
Proof.
  intros Hy Hn Ha j tr b Hj. rewrite spent_clocks. pose proof (Ha j tr b Hj) as Hb. rewrite decide_False in Hb by apply not_elem_of_nil.
  destruct (due_countdowns_spec t y) as (_ & Hd & Hall). rewrite Hb. cbn [fst].
  destruct (decide (j ∈ (due_countdowns t y).*1)) as [Hin|Hin].
  - rewrite decide_True; [done|]. apply list_elem_of_fmap in Hin as ([j' b'] & -> & Hin).
    apply list_elem_of_fmap. exists (j', b'). split; [|done]. pose proof (proj1 (Forall_forall _ _) Hd _ Hin) as [Hb' _].
    cbn in *. rewrite Hj in Hb'. by injection Hb' as <-.
  - rewrite decide_False; [done|]. intros ([j' [tr' b']] & Hc & Hin')%list_elem_of_fmap. cbn in Hc.
    pose proof (proj1 (Forall_forall _ _) Hd _ Hin') as [Hb' _]. cbn in Hb'. apply Hin.
    apply list_elem_of_fmap. exists (j', (tr', b')). split; [|done]. cbn.
    eapply (NoDup_lookup (clocks_of y)); [by rewrite Hy| |]; unfold clocks_of; rewrite list_lookup_fmap.
    + by rewrite Hj.
    + rewrite Hb'. cbn. by rewrite Hc.
Qed.

(** An event leaves the instance in Event Mode, in step with its FMU. *)
Lemma handle_tracks cs L t s :
  NoDup cs → running s = true → triple (tracks cs L t s) (handle t) (λ _, tracks cs L t EventMode) (dead cs).
Proof.
  intros Hn Hr. unfold handle. eapply triple_bind; [by apply enter_event_tracks|]. intros [].
  apply triple_pull. intros x (m & y0 & Hx & Hy0 & Ha0 & Hm & Ht & Hnx & Hi). eexists. split; [exact Hx|]. clear x Hx.
  set (y := set_event_pending false y0). eapply triple_bind with (Q := λ _, inst cs L m y).
  { apply triple_update. intros x (co & -> & Hco). by exists co. }
  intros _. assert (clocks_of y = cs) as Hy by done. assert (agreed m y []) as Ha by done.
  eapply triple_bind; [apply (triple_gets (due_countdowns t))|]. intros dues. apply triple_pull. intros x [Hx ->].
  destruct Hx as (co & -> & Hco). change (due_countdowns t (set_fmu co y)) with (due_countdowns t y).
  exists (inst cs L m y). split; [by exists co|]. clear co Hco. destruct (due_countdowns_spec t y) as (Hnd & Hd & Hdue).
  set (m1 := effect cs m EventMode (SetClock ((λ jb, nb_clock jb.2.2) <$> due_countdowns t y)) an_ok).
  eapply triple_bind with (Q := λ _, inst cs L m1 y).
  { destruct (decide (due_countdowns t y = [])) as [He|He]; [|by apply raise_clocks_inst]. intros x Hx. cbn. unfold m1. rewrite He. unfold effect. cbn [fmap list_fmap foldr].
    destruct m as [ms mn mx mc]. cbn in *. by subst ms. }
  intros _. eapply triple_seq; [apply (take_loop cs L m1 y); [done|done|done|by apply due_clocks_raised|]|].
  { eapply Forall_impl; [exact Hd|]. by intros jb [Hjb _]. }
  intros taken x (y1 & Hx & Hs & Ha1). exists (inst cs L m1 y1). split; [exact Hx|]. clear x Hx.
  assert (clocks_of y1 = cs) as Hy1 by (destruct Hs as (_ & _ & _ & -> & _); done).
  eapply triple_seq; [by apply event_loop|]. intros [collected states] x Hx. cbn [snd] in Hx.
  exists (inst cs L (with_next (ds_next_event_time states) m1) y1). split; [exact Hx|]. clear x Hx. set (m2 := with_next (ds_next_event_time states) m1).
  set (y2 := set_next_event_time (ds_next_event_time states) y1).
  eapply triple_bind with (Q := λ _, inst cs L m2 y2).
  { apply triple_update. intros x (co & -> & Hco). by exists co. }
  intros _. eapply triple_bind; [apply (triple_gets (λ x, enumerate (in_countdown x)))|]. intros bs. apply triple_pull.
  intros x [Hx ->]. exists (inst cs L m2 y2). split; [done|]. destruct Hx as (co & -> & _).
  eapply triple_seq; [apply (refresh_loop cs L t y2 _ m2 y2)|].
  - done.
  - done.
  - apply same_refl.
  - exact Ha1.
  - done.
  - done.
  - done.
  - unfold enumerate. generalize 0%nat. generalize (in_countdown (set_fmu co y2)). intros l.
    induction l as [|b l IH]; intros n; cbn; [constructor|]. apply NoDup_cons. split; [|apply IH].
    intros ([i b'] & Heq & (k & Hk & _)%elem_enumerate)%list_elem_of_fmap. cbn in *. lia.
  - apply Forall_forall. intros [j b] (k & -> & Hk)%elem_enumerate. exact Hk.
  - intros _ x (m3 & y3 & Hx & Hs3 & Ha3 & Hm3 & Ht3 & Hn3). eexists. split; [exact Hx|]. intros x' Hx'.
    cbn. exists m3, y3. split_and!; try done.
    + destruct Hs3 as (_ & _ & _ & -> & _). done.
    + destruct Hs3 as (-> & _). destruct Hs as (Hs & _). unfold y2. cbn. rewrite Hs. cbn. by rewrite Hi.
Qed.

Lemma deliver_tracks cs L t s n tr payload :
  kb_clock (tr_receive tr) ∉ cs → running s = true →
  triple (tracks cs L t s) (deliver n tr payload) (λ _, tracks cs L t EventMode) (dead cs).
Proof.
  intros Hc Hr. unfold deliver. eapply triple_bind with (Q := λ _, tracks cs L t s).
  { apply triple_throw_if; [|done]. intros x Hx _. by eapply tracks_dead. }
  intros _. eapply triple_bind; [by apply enter_event_tracks|]. intros [].
  apply triple_pull. intros x (m & y & Hx & Hy & Ha & Hm & Ht & Hn & Hi). exists (inst cs L m y). split; [exact Hx|]. clear x Hx.
  set (m' := effect cs m EventMode (SetClock [kb_clock (tr_receive tr)]) an_ok).
  eapply triple_conseq; [apply (with_fmu_inst _ cs L m y (λ _, good cs L m')), Hy|done| |done].
  - unfold deliver_clocked, call_. eapply triple_bind with (Q := λ _, good cs L m').
    { eapply triple_bind; [apply event_call; [done|right; left; by eexists]|]. by intros a co Hco. }
    intros _. eapply triple_bind; [by apply (plain_call cs L m')|]. by intros a co Hco.
  - intros _ x (co & -> & Hco). exists m', y. split_and!; try done; [by exists co|].
    intros j tr' b Hj. unfold m'. rewrite spent_clocks, decide_False; [by apply (Ha j tr')|].
    rewrite list_elem_of_singleton. intros Heq. apply Hc. rewrite <- Heq, <- Hy. unfold clocks_of.
    apply list_elem_of_fmap. exists (tr', b). split; [done|]. by eapply list_elem_of_lookup_2.
Qed.

(** What an instance was asked for, as the code computes it and as the contract does. *)
Definition asks (x : instance) : list Z :=
  countdowns x ++ match declared x with Ok d => option_list d | Err _ => [] end.

Lemma requests_asks cs m y :
  clocks_of y = cs → agreed m y [] → mo_next m = in_next_event_time y → requests cs m = asks y.
Proof.
  intros Hy Ha Hn. unfold requests, asks, declared, countdowns. rewrite Hn. f_equal. rewrite <- Hy. unfold clocks_of.
  assert (Forall (λ b : nat * countdown, (clock_state m (nb_clock b.2)).2 = nb_due b.2) (in_countdown y)) as Hall.
  { apply Forall_forall. intros [tr b] [j Hj]%list_elem_of_lookup. cbn. rewrite (Ha j tr b Hj).
    by rewrite decide_False by apply not_elem_of_nil. }
  clear Ha Hn Hy. induction Hall as [|b bs Hb _ IH]; [done|]. cbn. rewrite Hb. destruct (nb_due b.2); [f_equal|]; exact IH.
Qed.

Lemma leave_event_tracks cs L t s A :
  s = EventMode ∨ s = StepMode false →
  triple (λ x, tracks cs L t s x ∧ asks x = A) leave_event (λ _ x, tracks cs L t (StepMode false) x ∧ asks x = A) (dead cs).
Proof.
  intros Hr. apply triple_pull. intros x [(m & y & Hx & Hy & Ha & Hm & Ht & Hn & Hi) HA]. exists (inst cs L m y). split; [exact Hx|].
  assert (asks y = A) as HyA by (by destruct Hx as (co & -> & _)). clear x Hx HA.
  unfold leave_event. eapply triple_seq; [apply (triple_gets in_in_event)|]. intros inside x [Hx ->].
  destruct Hx as (co & -> & Hco). change (in_in_event (set_fmu co y)) with (in_in_event y). rewrite Hi.
  exists (inst cs L m y). split; [by exists co|]. case_bool_decide as Hs.
  2: { destruct Hr as [->| ->]; [done|]. intros x Hx. split; [|by destruct Hx as (co' & -> & _)]. exists m, y. by split_and!. }
  set (m' := mk_monitor (StepMode false) (mo_now m) (mo_next m) (mo_clocks m)).
  eapply triple_bind with (Q := λ _, inst cs L m' y).
  - eapply triple_conseq; [apply (with_fmu_inst _ cs L m y (λ _, good cs L m')), Hy|done| |done].
    + unfold enter_step_mode, call_. eapply triple_bind; [apply (call_good cs L m EnterStepMode (StepMode false))|].
      * by rewrite Hm, Hs.
      * by rewrite Hm, Hs.
      * done.
      * done.
      * done.
      * intros a co' Hco'. cbn. rewrite app_nil_r in Hco'. exact Hco'.
    + intros _ x (co' & -> & Hco'). by exists co'.
  - intros _. apply triple_update. intros x (co' & -> & Hco'). split; [|exact HyA]. exists m', (set_in_event false y).
    split_and!; try done. by exists co'.
Qed.

Lemma tracks_asks cs L t s x :
  tracks cs L t s x → ∃ m y, inst cs L m y x ∧ asks x = asks y ∧ requests cs m = asks y.
Proof.
  intros (m & y & Hx & Hy & Ha & _ & _ & Hn & _). exists m, y. split; [done|]. split; [|by apply requests_asks].
  by destruct Hx as (co & -> & _).
Qed.

Lemma step_tracks cs L now b A :
  now < b → Forall (λ i, b ≤ i) A →
  triple (λ x, tracks cs L now (StepMode false) x ∧ asks x = A) (step now (b - now))
    (λ _ x, tracks cs (L ++ [(now, b - now)]) b (StepMode (in_event_pending x || bool_decide (b ∈ A))) x ∧ asks x = A)
    (dead cs).
Proof.
  intros Hnb HA. apply triple_pull. intros x [(m & y & Hx & Hy & Ha & Hm & Ht & Hn & Hi) Hask].
  exists (inst cs L m y). split; [exact Hx|]. assert (asks y = A) as Hay by (by destruct Hx as (co & -> & _)). clear x Hx Hask.
  pose proof (requests_asks cs m y Hy Ha Hn) as Hreq. set (L' := L ++ [(now, b - now)]).
  set (m' := λ needed, mk_monitor (StepMode (needed || bool_decide (b ∈ A))) b (mo_next m) (mo_clocks m)).
  unfold step. eapply triple_bind with (Q := λ needed, inst cs L' (m' needed) y).
  - eapply triple_conseq; [apply (with_fmu_inst _ cs L m y (λ needed, good cs L' (m' needed))), Hy|done| |done].
    + unfold do_step. eapply triple_bind with (Q := λ a, good cs L' (m' (an_event_needed a))).
      { eapply triple_conseq; [apply (call_good cs L m (DoStep now (b - now)) (StepMode false))|done| |done].
        - by rewrite Hm.
        - by rewrite Hm.
        - unfold in_time. apply bool_decide_eq_true. rewrite Hreq, Hay, Ht, Zplus_minus. split_and!; [done|lia|done].
        - done.
        - done.
        - intros a co Hco. unfold effect in Hco. rewrite Hreq, Hay, Zplus_minus in Hco. exact Hco. }
      intros a. assert (∀ co, good cs L' (m' (an_event_needed a)) co → broken cs co) as Hbr.
      { intros co Hco. by eapply good_broken. }
      eapply triple_bind with (Q := λ _, good cs L' (m' (an_event_needed a))); [apply triple_throw_if; auto|]. intros _.
      eapply triple_bind with (Q := λ _, good cs L' (m' (an_event_needed a))); [apply triple_throw_if; auto|]. intros _.
      by intros co Hco.
    + intros needed x (co & -> & Hco). by exists co.
  - intros needed. apply triple_update. intros x (co & -> & Hco). split; [|exact Hay].
    exists (m' needed), (set_event_pending needed y). split_and!; try done. by exists co.
Qed.

(** ** The group *)

Lemma pick_spec bus work owed rest :
  pick bus work = Some (owed, rest) → ∃ w1 w2, work = w1 ++ owed :: w2 ∧ rest = w1 ++ w2.
Proof.
  revert rest. induction work as [|p work IH]; intros rest; [done|]. cbn. destruct (bus (pd_instance p)).
  - destruct (pick bus work) as [[q r]|]; [|done]. intros [= -> <-]. destruct (IH r eq_refl) as (w1 & w2 & -> & ->).
    by exists (p :: w1), w2.
  - intros [= <- <-]. by exists [], work.
Qed.

Lemma combine_spec ps d :
  Forall (λ np, ∃ p, p ∈ ps ∧ ∃ b, pd_delivery p = Some (np.1, b)) d →
  ∀ qs, Forall (λ np, ∃ p, p ∈ ps ++ qs ∧ ∃ b, pd_delivery p = Some (np.1, b)) (foldl combine d qs).
Proof.
  intros Hd qs. revert ps d Hd. induction qs as [|q qs IH]; intros ps d Hd; cbn; [by rewrite app_nil_r|].
  rewrite (cons_middle q ps qs), app_assoc. apply IH. unfold combine.
  assert (Forall (λ np, ∃ p, p ∈ ps ++ [q] ∧ ∃ b, pd_delivery p = Some (np.1, b)) d) as Hd'.
  { eapply Forall_impl; [exact Hd|]. intros np (p & Hp & Hb). exists p. split; [|done]. set_solver. }
  destruct (pd_delivery q) as [[n b]|] eqn:Hq; [|done]. apply Forall_forall. intros [k v] Hkv.
  assert (k = n ∨ k ∈ d.*1) as [->|Hk].
  { apply (list_elem_of_fmap_2 fst) in Hkv. rewrite dset_keys in Hkv. case_decide; [right; done|].
    apply elem_of_app in Hkv as [Hkv|Hkv%list_elem_of_singleton]; auto. }
  - exists q. split; [set_solver|]. by exists b.
  - apply list_elem_of_fmap in Hk as ([k' v'] & -> & Hk). by apply (proj1 (Forall_forall _ _) Hd' _ Hk).
Qed.

Lemma require_asks t x : require_nothing_passed t x = Ok () → Forall (λ i, t < i) (asks x).
Proof.
  unfold require_nothing_passed, asks, countdowns. intros (u & Hf & (d & Hd & Hn)%bind_Ok)%bind_Ok. apply Forall_app. split.
  - revert Hf. generalize (in_countdown x). intros bs. destruct u. induction bs as [|b bs IH]; cbn [foldE]; [constructor|].
    intros (v & Hb & Hr)%bind_Ok. destruct v. cbn. destruct (nb_due b.2) as [i|]; [|by apply IH].
    apply raise_if_Ok, Z.leb_gt in Hb. constructor; [done|]. by apply IH.
  - rewrite Hd. destruct d as [i|]; [|constructor]. apply raise_if_Ok, Z.leb_gt in Hn. by repeat constructor.
Qed.

Lemma least_spec l dflt : (least l dflt ∈ l ∨ l = [] ∧ least l dflt = dflt) ∧ Forall (λ i, least l dflt ≤ i) l.
Proof.
  destruct l as [|x l]; [by split; [right|constructor]|]. cbn [least].
  assert (∀ l x, (foldl Z.min x l ∈ x :: l) ∧ Forall (λ i, foldl Z.min x l ≤ i) (x :: l)) as Hl.
  { clear. induction l as [|y l IH]; intros x; cbn [foldl].
    - split; [by left|]. by repeat constructor.
    - destruct (IH (Z.min x y)) as [Hin Hall]. apply Forall_cons in Hall as [Hxy Hall]. split.
      + apply elem_of_cons in Hin as [Heq|Hin]; [|by do 2 right]. destruct (Z.min_spec x y) as [[_ ?]|[_ ?]]; rewrite Heq; set_solver.
      + repeat constructor; [lia|lia|done]. }
  destruct (Hl l x) as [H1 H2]. split; [by left|done].
Qed.

Lemma asked_for_asks now x l :
  asked_for now x = Ok l → l = filter (λ i, now < i) (asks x).
Proof. unfold asked_for, asks. intros (d & -> & [= <-])%bind_Ok. done. Qed.

(** The boundary is later than [now], and no instance asked for an instant before it. *)
Lemma boundary_spec (g : list instance) now end_ (d : list (Z * list pending)) b :
  now < end_ → Forall (λ k, k ≤ end_) d.*1 → boundary g now end_ d = Ok b →
  now < b ≤ end_ ∧ Forall (λ x, Forall (λ i, now < i → b ≤ i) (asks x)) g ∧ Forall (λ k, now < k → b ≤ k) d.*1.
Proof.
  intros Hlt Hd. unfold boundary. intros (asked & Hask%mapE_Ok & [= <-])%bind_Ok.
  set (l := filter (λ i, i ≤ end_) (concat asked) ++ filter (λ i, now < i) d.*1).
  destruct (least_spec l end_) as [Hin Hall].
  assert (∀ i, i ∈ l → now < i ≤ end_) as Hl.
  { intros i [[Hi Hc]%list_elem_of_filter|[Hi Hc]%list_elem_of_filter]%elem_of_app.
    - split; [|done]. apply elem_of_concat in Hc as (k & Hik & Hk). apply list_elem_of_lookup in Hk as [n Hn].
      destruct (Forall2_lookup_r _ _ _ _ _ Hask Hn) as (x & _ & Hx%asked_for_asks). subst k.
      by apply list_elem_of_filter in Hik as [? _].
    - split; [done|]. by apply (proj1 (Forall_forall _ _) Hd). }
  assert (now < least l end_ ≤ end_) as Hb by (destruct Hin as [Hin|[_ ->]]; [auto|lia]).
  split; [done|]. split.
  - apply Forall_forall. intros x [n Hx]%list_elem_of_lookup. destruct (Forall2_lookup_l _ _ _ _ _ Hask Hx) as (k & Hk & Hak%asked_for_asks).
    apply Forall_forall. intros i Hi Hni. destruct (decide (i ≤ end_)) as [He|He]; [|lia].
    apply (proj1 (Forall_forall _ _) Hall). apply elem_of_app. left. apply list_elem_of_filter. split; [done|].
    apply elem_of_concat. exists k. split; [subst k; by apply list_elem_of_filter|by eapply list_elem_of_lookup_2].
  - apply Forall_forall. intros k Hk Hnk. apply (proj1 (Forall_forall _ _) Hall). apply elem_of_app. right.
    by apply list_elem_of_filter.
Qed.

Lemma due_spec t x v : due t x = Ok v → v = in_event_pending x || bool_decide (t ∈ asks x).
Proof.
  unfold due, asks. destruct (in_event_pending x); [by intros [= <-]|]. intros (d & -> & [= <-])%bind_Ok. cbn [orb].
  assert (existsb (λ b : nat * countdown, bool_decide (nb_due b.2 = Some t)) (in_countdown x) = true ↔ t ∈ countdowns x) as Hc.
  { unfold countdowns. rewrite existsb_exists, list_elem_of_omap. split; intros (b & Hb & Hd); exists b.
    - split; [by apply list_elem_of_In|by apply bool_decide_eq_true in Hd].
    - split; [by apply list_elem_of_In|by apply bool_decide_eq_true]. }
  apply eq_iff_eq_true. rewrite orb_true_iff, Hc, !bool_decide_eq_true, elem_of_app. clear Hc. destruct d as [i|]; cbn; set_solver.
Qed.

Lemma due_instances_spec t g dues :
  due_instances t g = Ok dues →
  (∀ j x, g !! j = Some x → in_event_pending x || bool_decide (t ∈ asks x) = true → j ∈ pd_instance <$> dues)
  ∧ Forall (λ p, pd_delivery p = None) dues.
Proof.
  unfold due_instances. intros (vs & Hvs%mapE_Ok & [= <-])%bind_Ok. split.
  - intros j x Hj Hv. destruct (Forall2_lookup_l _ _ _ _ _ Hvs Hj) as (v & Hjv & Hd%due_spec).
    apply list_elem_of_fmap. exists (mk_pending j None). split; [done|]. apply list_elem_of_omap. exists (j, true). split; [|done].
    apply list_elem_of_lookup. exists j. unfold enumerate. rewrite enumerate_from_lookup, Hjv. cbn. by rewrite Hd, Hv.
  - apply Forall_forall. intros p ([i v] & _ & Hp)%list_elem_of_omap. cbn in Hp. destruct v; [|done]. by injection Hp as <-.
Qed.
Lemma tiles_app a b c k l : tiles a b k → tiles b c l → tiles a c (k ++ l).
Proof.
  revert a. induction k as [|[t dt] k IH]; intros a; cbn; [by intros ->|]. intros (Ht & Hdt & Hk) Hl. by split_and!; [..|apply IH].
Qed.

Section group_proofs.
Context (transceivers : list transceiver) (N : nat) (CS : nat → list Z).
Hypothesis clocks_distinct : ∀ j, NoDup (CS j).
Hypothesis receive_apart :
  ∀ n tr, transceivers !! n = Some tr → kb_clock (tr_receive tr) ∉ CS (tr_instance tr).

Definition all (R : nat → instance → Prop) (g : list instance) : Prop :=
  length g = N ∧ ∀ j x, g !! j = Some x → R j x.
Definition all_dead : list instance → Prop := all (λ j, dead (CS j)).

Lemma all_impl (R R' : nat → instance → Prop) g : (∀ j x, R j x → R' j x) → all R g → all R' g.
Proof. intros HR [Hg Hx]. split; [done|]. auto. Qed.

Lemma on_instance_gen {A} i (m : fmi instance A) (R E : nat → instance → Prop) (Q : A → instance → Prop) :
  triple (R i) m Q (E i) → (∀ j x, R j x → E j x) →
  triple (all R) (on_instance i m) (λ a, all (λ j x, if decide (j = i) then Q a x else R j x)) (all E).
Proof.
  intros Hm Hd g [Hg Hx]. unfold on_instance. destruct (g !! i) as [x|] eqn:Hi; [|split; auto].
  specialize (Hm x (Hx i x Hi)). destruct (m x) as [x' [a|e]].
  - split; [by rewrite length_insert|]. intros j z Hz. destruct (decide (j = i)) as [->|Hj].
    + rewrite list_lookup_insert_eq in Hz by (by eapply lookup_lt_Some). by injection Hz as <-.
    + rewrite list_lookup_insert_ne in Hz by done. auto.
  - split; [by rewrite length_insert|]. intros j z Hz. destruct (decide (j = i)) as [->|Hj].
    + rewrite list_lookup_insert_eq in Hz by (by eapply lookup_lt_Some). by injection Hz as <-.
    + rewrite list_lookup_insert_ne in Hz by done. auto.
Qed.

Lemma on_instance_all {A} i (m : fmi instance A) (R : nat → instance → Prop) (Q : A → instance → Prop) :
  triple (R i) m Q (dead (CS i)) → (∀ j x, R j x → dead (CS j) x) →
  triple (all R) (on_instance i m) (λ a, all (λ j x, if decide (j = i) then Q a x else R j x)) all_dead.
Proof. apply on_instance_gen with (E := λ j, dead (CS j)). Qed.

(** The same for every instance in turn. *)
Lemma each_instance_all (m : nat → fmi instance ()) (R Q E : nat → instance → Prop) :
  (∀ j, triple (R j) (m j) (λ _, Q j) (E j)) → (∀ j x, R j x → E j x) → (∀ j x, Q j x → E j x) →
  triple (all R) (each (λ i, on_instance i (m i)) (seq 0 N)) (λ _, all Q) (all E).
Proof.
  intros Hm HR HQ.
  assert (∀ k n, (k + n = N)%nat → triple (all (λ j x, if decide (j < k)%nat then Q j x else R j x))
    (each (λ i, on_instance i (m i)) (seq k n)) (λ _, all Q) (all E)) as Hall.
  { intros k n. revert k. induction n as [|n IH]; intros k Hk.
    - intros g [Hg Hx]. cbn. split; [done|]. intros j x Hj. specialize (Hx j x Hj). rewrite decide_True in Hx; [done|].
      apply lookup_lt_Some in Hj. lia.
    - cbn [seq each]. eapply triple_seq; [apply (on_instance_gen k (m k) _ E (λ _, Q k))|].
      + eapply triple_conseq; [apply (Hm k)| |done|done]. intros x. by rewrite decide_False by lia.
      + intros j x. case_decide; auto.
      + intros [] g Hg. eexists. split; [exact Hg|]. eapply triple_conseq; [apply (IH (S k)); lia| |done|done].
        intros g'. apply all_impl. intros j x. destruct (decide (j = k)) as [->|]; [by rewrite decide_True by lia|].
        destruct (decide (j < k)%nat), (decide (j < S k)%nat); auto; lia. }
  eapply triple_conseq; [apply (Hall 0%nat N); lia| |done|done]. intros g. apply all_impl. intros j x. by rewrite decide_False by lia.
Qed.

(** Nothing the instance asked for is at or behind [t]. *)
Definition rested (L : list (Z * Z)) (t : Z) (j : nat) (x : instance) : Prop :=
  tracks (CS j) L t (StepMode false) x ∧ Forall (λ i, t < i) (asks x).

(** While an instant is settled: who is owed an event has work. *)
Definition settling (L : list (Z * Z)) (t : Z) (work : list pending) (j : nat) (x : instance) : Prop :=
  ∃ s, tracks (CS j) L t s x
       ∧ (s = EventMode ∨ s = StepMode false ∨ s = StepMode true ∧ j ∈ pd_instance <$> work).

Lemma rested_dead L t j x : rested L t j x → dead (CS j) x.
Proof. intros [Hx _]. by eapply tracks_dead. Qed.

Lemma settling_running L t work j x : settling L t work j x → ∃ s, running s = true ∧ tracks (CS j) L t s x.
Proof. intros (s & Hx & [->|[->|[-> _]]]); (eexists; split; [|exact Hx]; done). Qed.

Lemma settling_dead L t work j x : settling L t work j x → dead (CS j) x.
Proof. intros (s & Hr & Hx)%settling_running. by eapply tracks_dead. Qed.

Definition work_ok (p : pending) : Prop :=
  match pd_delivery p with
  | Some (n, _) => ∃ tr, transceivers !! n = Some tr ∧ tr_instance tr = pd_instance p
  | None => True
  end.

(** A delivery to an instance that is running leaves it in Event Mode. *)
Lemma hand_settling L t n payload i :
  work_ok (mk_pending i (Some (n, payload))) →
  triple (λ x, ∃ s, running s = true ∧ tracks (CS i) L t s x) (hand transceivers n payload)
    (λ _ x, ∃ s, running s = true ∧ tracks (CS i) L t s x) (dead (CS i)).
Proof using receive_apart.
  intros (tr & Htr & Hi). cbn in Hi. unfold hand. rewrite Htr. apply triple_pull. intros x (s & Hs & Hx). eexists. split; [exact Hx|].
  eapply triple_conseq; [apply deliver_tracks; [|exact Hs]|done| |done].
  - rewrite <- Hi. by eapply receive_apart.
  - intros [] z Hz. by exists EventMode.
Qed.

(** After a delivery, its instance runs and the others have the work that is left. *)
Definition delivered L t (i : nat) (rest : list pending) (j : nat) (x : instance) : Prop :=
  if decide (j = i) then ∃ s, running s = true ∧ tracks (CS j) L t s x else settling L t rest j x.

Lemma delivered_dead L t i rest j x : delivered L t i rest j x → dead (CS j) x.
Proof.
  unfold delivered. case_decide; [|apply settling_dead]. intros (s & Hr & Hx). by eapply tracks_dead.
Qed.

Lemma settling_delivered L t i work rest j x :
  (∀ p, p ∈ work → pd_instance p ≠ i → p ∈ rest) → settling L t work j x → delivered L t i rest j x.
Proof.
  intros Hw Hx. unfold delivered. case_decide as Hj; [by eapply settling_running|].
  destruct Hx as (s & Hx & Hs). exists s. split; [done|]. destruct Hs as [->|[->|[-> Hin]]]; auto. right; right. split; [done|].
  apply list_elem_of_fmap in Hin as (p & -> & Hp). apply list_elem_of_fmap. exists p. auto.
Qed.

Lemma delivered_on L t i rest n payload :
  work_ok (mk_pending i (Some (n, payload))) →
  triple (all (delivered L t i rest)) (on_instance i (hand transceivers n payload)) (λ _, all (delivered L t i rest)) all_dead.
Proof using receive_apart.
  intros Hw. eapply triple_conseq; [apply (on_instance_all i _ (delivered L t i rest) (λ _ x, ∃ s, running s = true ∧ tracks (CS i) L t s x))|done| |done].
  - eapply triple_conseq; [by apply (hand_settling L t n payload i)| |done|done].
    intros x. unfold delivered. by rewrite decide_True.
  - apply delivered_dead.
  - intros [] g. apply all_impl. intros j x. unfold delivered. by destruct (decide (j = i)) as [->|].
Qed.

Lemma deliver_same_instant_settles L t work :
  Forall work_ok work →
  triple (all (settling L t work)) (deliver_same_instant transceivers work)
    (λ ir g, all (delivered L t ir.1 ir.2) g ∧ Forall work_ok ir.2) all_dead.
Proof using clocks_distinct receive_apart.
  intros Hok. unfold deliver_same_instant. eapply triple_bind; [apply (triple_gets id)|]. intros g0. apply triple_pull.
  intros g [Hg _]. exists (all (settling L t work)). split; [done|]. clear g Hg.
  destruct (pick (is_bus g0) work) as [[owed rest]|] eqn:Hp.
  - destruct (pick_spec _ _ _ _ Hp) as (w1 & w2 & -> & ->). set (i := pd_instance owed).
    apply Forall_app in Hok as [Hok1 [Hokp Hok2]%Forall_cons].
    assert (∀ j x, settling L t (w1 ++ owed :: w2) j x → delivered L t i (w1 ++ w2) j x) as Hsd.
    { intros j x. apply settling_delivered. unfold i. set_solver. }
    eapply triple_bind with (Q := λ _, all (delivered L t i (w1 ++ w2))).
    + destruct (pd_delivery owed) as [[n payload]|] eqn:Hd.
      * eapply triple_conseq; [apply (delivered_on L t i (w1 ++ w2) n payload)| |done|done].
        -- unfold work_ok in Hokp. by rewrite Hd in Hokp.
        -- intros g. by apply all_impl.
      * intros g Hg. cbn. by eapply all_impl.
    + intros _ g Hg. cbn. split; [done|]. by apply Forall_app.
  - destruct work as [|owed rest].
    { apply triple_throw. intros g. apply all_impl. apply settling_dead. }
    set (i := pd_instance owed). set (others := filter (λ p, pd_instance p ≠ i) rest).
    eapply triple_bind with (Q := λ _, all (delivered L t i others)).
    + assert (Forall (λ np, work_ok (mk_pending i (Some np))) (foldl combine [] (filter (λ p, pd_instance p = i) (owed :: rest)))) as Hc.
      { eapply Forall_impl; [apply (combine_spec [] []); constructor|]. intros [n b] (p & Hin & b' & Hb).
        cbn [app] in Hin. apply list_elem_of_filter in Hin as [Hpi Hin]. pose proof (proj1 (Forall_forall _ _) Hok _ Hin) as Hwp.
        unfold work_ok in *. rewrite Hb in Hwp. cbn in *. by rewrite <- Hpi. }
      eapply triple_conseq with (P' := all (delivered L t i others)) (Q' := λ _, all (delivered L t i others)) (E' := all_dead);
        [| |done|done].
      * revert Hc. generalize (foldl combine [] (filter (λ p, pd_instance p = i) (owed :: rest))).
        intros l Hl. induction Hl as [|[n b] l Hnb _ IH]; [by intros g Hg|]. cbn [each].
        eapply triple_bind; [by apply delivered_on|]. intros []. exact IH.
      * intros g. apply all_impl. intros j x. apply settling_delivered. intros p Hp' Hpi.
        apply elem_of_cons in Hp' as [->|Hp']; [done|]. by apply list_elem_of_filter.
    + intros _ g Hg. cbn. split; [done|]. apply Forall_forall. intros p [_ Hp']%list_elem_of_filter.
      apply Forall_cons in Hok as [_ Hok]. by apply (proj1 (Forall_forall _ _) Hok).
Qed.

Lemma settling_mono L t work work' j x :
  (∀ p, p ∈ work → p ∈ work') → settling L t work j x → settling L t work' j x.
Proof.
  intros Hw (s & Hx & Hs). exists s. split; [done|]. destruct Hs as [->|[->|[-> Hin]]]; auto. right; right. split; [done|].
  apply list_elem_of_fmap in Hin as (p & -> & Hp). apply list_elem_of_fmap. exists p. auto.
Qed.

Lemma handle_delivered L t i rest :
  triple (all (delivered L t i rest)) (on_instance i (handle t)) (λ _, all (settling L t rest)) all_dead.
Proof using clocks_distinct.
  eapply triple_conseq; [apply (on_instance_all i (handle t) (delivered L t i rest) (λ _, tracks (CS i) L t EventMode))|done| |done].
  - apply triple_pull. intros x Hx. unfold delivered in Hx. rewrite decide_True in Hx by done. destruct Hx as (s & Hs & Hx).
    eexists. split; [exact Hx|]. by apply handle_tracks.
  - apply delivered_dead.
  - intros out g. apply all_impl. intros j x. unfold delivered. destruct (decide (j = i)) as [->|]; [|done].
    intros Hx. exists EventMode. auto.
Qed.

Lemma route_work t out st st' :
  foldE (route transceivers t) st out = Ok st' → Forall work_ok st.2 → Forall work_ok st'.2 ∧ ∀ p, p ∈ st.2 → p ∈ st'.2.
Proof using Type.
  revert st. induction out as [|np out IH]; intros st; cbn [foldE].
  { intros [= <-]. auto. }
  intros (st1 & Hr & Ho)%bind_Ok Hok. unfold route in Hr. destruct (transceivers !! np.1) as [tr|]; [|done].
  apply bind_Ok in Hr as (pub & _ & [= <-]). apply IH in Ho as [H1 H2].
  - split; [done|]. intros p Hp. apply H2. cbn. destruct (tr_peer tr ≫= _) as [[q ?]|]; [|done]. apply elem_of_app. by left.
  - cbn. destruct (tr_peer tr ≫= _) as [[q qt]|] eqn:Hq; [|done]. apply Forall_app. split; [done|].
    constructor; [|done]. unfold work_ok. cbn. exists qt. split; [|done].
    destruct (tr_peer tr) as [k|]; [|done]. cbn in Hq. destruct (transceivers !! k) eqn:Hk; [|done]. by injection Hq as <- <-.
Qed.

Lemma quiesce_rests L t : triple (all (settling L t [])) (quiesce t) (λ _, all (rested L t)) all_dead.
Proof using Type.
  unfold quiesce. eapply triple_bind; [apply (triple_gets id)|]. intros g0. cbn [id]. apply triple_pull. intros g [Hg ->].
  exists (λ g', g' = g ∧ all (settling L t []) g). split; [done|]. assert (length g = N) as -> by apply Hg. clear Hg.
  eapply triple_bind with (Q := λ _, all (λ j x, settling L t [] j x ∧ Forall (λ i, t < i) (asks x))).
  - apply triple_lift. intros g' [-> [Hg Hx]]. destruct (foldE _ () g) as [u|e] eqn:Hf.
    + split; [done|]. intros j x Hj. split; [by apply Hx|]. apply require_asks.
      assert (Forall (λ x, require_nothing_passed t x = Ok ()) g) as Hall.
      { clear -Hf. induction g as [|x g IH]; [constructor|]. cbn [foldE] in Hf.
        apply bind_Ok in Hf as (w & Hw & Hr). destruct w. constructor; auto. }
      apply list_elem_of_lookup_2 in Hj. by apply (proj1 (Forall_forall _ _) Hall).
    + split; [done|]. intros j x Hj. by eapply settling_dead, Hx.
  - intros _. eapply triple_conseq with (P' := all (λ j x, settling L t [] j x ∧ Forall (λ i, t < i) (asks x)))
      (Q' := λ _, all (rested L t)) (E' := all_dead); [|done..].
    apply (each_instance_all (λ _, leave_event)).
    + intros j. apply triple_pull. intros x [(s & Hx & Hs) HA]. exists (λ z, tracks (CS j) L t s z ∧ asks z = asks x). split; [done|].
      eapply triple_conseq; [apply (leave_event_tracks (CS j) L t s (asks x))|done| |done].
      * destruct Hs as [->|[->|[_ Hin]]]; auto. by apply not_elem_of_nil in Hin.
      * intros _ z [Hz Hzx]. split; [done|]. by rewrite Hzx.
    + intros j x [Hx _]. by eapply settling_dead.
    + apply rested_dead.
Qed.

Lemma settle_from_rests L t fuel work published :
  Forall work_ok work →
  triple (all (settling L t work)) (settle_from transceivers fuel t work published) (λ _, all (rested L t)) all_dead.
Proof using clocks_distinct receive_apart.
  revert work published. induction fuel as [|fuel IH]; intros work published Hok; cbn [settle_from].
  { apply triple_throw. intros g. apply all_impl, settling_dead. }
  destruct (decide (work = [])) as [->|Hne].
  { eapply triple_bind; [apply quiesce_rests|]. intros [] g Hg. exact Hg. }
  eapply triple_seq; [by apply deliver_same_instant_settles|]. intros [i rest] g [Hg Hrest]. cbn [fst snd] in *.
  eexists. split; [exact Hg|]. clear g Hg. eapply triple_seq; [apply handle_delivered|]. intros out g Hg.
  eexists. split; [exact Hg|]. clear g Hg.
  eapply triple_seq with (Q := λ st g, all (settling L t st.2) g ∧ Forall work_ok st.2).
  - apply triple_lift. intros g Hg. destruct (foldE _ _ _) as [st|e] eqn:Hr; [|by eapply all_impl; [apply settling_dead|]].
    apply route_work in Hr as [H1 H2]; [|done]. split; [|done]. eapply all_impl; [|exact Hg]. intros j x. by apply settling_mono.
  - intros [pub work'] g [Hg Hw]. eexists. split; [exact Hg|]. by apply IH.
Qed.

Lemma settle_at_rests L t work (R : nat → instance → Prop) :
  Forall work_ok work → (∀ j x, R j x → settling L t work j x) → (work = [] → ∀ j x, R j x → rested L t j x) →
  triple (all R) (settle_at transceivers t work) (λ _, all (rested L t)) all_dead.
Proof using clocks_distinct receive_apart.
  intros Hok Hs He. unfold settle_at. destruct (decide (work = [])) as [Hw|Hw].
  - intros g Hg. cbn. eapply all_impl; [|exact Hg]. auto.
  - eapply triple_conseq; [exact (settle_from_rests L t MAX_PROPAGATIONS work [] Hok)| |done|done]. intros g. by apply all_impl.
Qed.


(** ** A Step *)

(** The Messages a Step still owes: instants of the Step, later than [now]. *)
Definition owing (now end_ : Z) (d : list (Z * list pending)) : Prop :=
  Forall (λ kv, now < kv.1 ≤ end_ ∧ Forall work_ok kv.2) d.

Lemma pop_spec now end_ d b :
  owing now end_ d → Forall (λ k, now < k → b ≤ k) d.*1 → Forall work_ok (pop d b).1 ∧ owing b end_ (pop d b).2.
Proof using Type.
  intros Hd Hb. unfold pop, owing in *. cbn. split.
  - destruct (dget d b) as [ps|] eqn:Hp; [|constructor]. apply dget_Some in Hp.
    by apply (proj1 (Forall_forall _ _) Hd) in Hp as [_ ?].
  - apply Forall_forall. intros [k ps] [Hk Hin]%list_elem_of_filter. cbn in *.
    pose proof (proj1 (Forall_forall _ _) Hd _ Hin) as [Hr Hw]. cbn in *. split; [|done].
    apply (list_elem_of_fmap_2 fst) in Hin. pose proof (proj1 (Forall_forall _ _) Hb _ Hin) as Hbk. cbn in Hbk. lia.
Qed.

Lemma injected_spec inputs start end_ d :
  injected transceivers inputs start end_ = Ok d → Forall (λ kv, start ≤ kv.1 ≤ end_ ∧ Forall work_ok kv.2) d.
Proof using Type.
  unfold injected. apply (foldE_inv (λ d, Forall (λ kv, start ≤ kv.1 ≤ end_ ∧ Forall work_ok kv.2) d)); [|constructor].
  clear d. intros d m d' _ Hd. unfold inject. destruct (dget _ _ ≫= _) as [[[n tr] b]|] eqn:Hn; [|done].
  intros (i & _ & (u & Hr & (payload & _ & [= <-])%bind_Ok)%bind_Ok)%bind_Ok.
  unfold require_reachable in Hr. apply raise_if_Ok, negb_false_iff, in_range_true in Hr.
  assert (transceivers !! n = Some tr) as Htr.
  { destruct (dget (injections transceivers) m.1) as [k|]; [|done]. cbn in Hn. destruct (transceivers !! k) as [tk|] eqn:Hk; [|done].
    cbn in Hn. destruct (tr_injection tk); [|done]. by injection Hn as <- <- _. }
  assert (Forall work_ok (default [] (dget d i) ++ [mk_pending (tr_instance tr) (Some (n, payload))])) as Hw.
  { apply Forall_app. split; [|constructor; [by exists tr|constructor]]. destruct (dget d i) as [ps|] eqn:Hp; [|constructor].
    apply dget_Some in Hp. by apply (proj1 (Forall_forall _ _) Hd) in Hp as [_ ?]. }
  clear -Hd Hr Hw. revert Hw. generalize (default [] (dget d i) ++ [mk_pending (tr_instance tr) (Some (n, payload))]). intros v Hw.
  induction Hd as [|[k ps] d Hk Hd IH]; cbn; [constructor; [done|constructor]|]. case_decide; constructor; auto. subst k. by split.
Qed.

Lemma steps_all L now b :
  now < b →
  triple (all (λ j x, rested L now j x ∧ Forall (λ i, b ≤ i) (asks x)))
    (each (λ i, on_instance i (step now (b - now))) (seq 0 N))
    (λ _, all (λ j x, tracks (CS j) (L ++ [(now, b - now)]) b (StepMode (in_event_pending x || bool_decide (b ∈ asks x))) x
                      ∧ Forall (λ i, b ≤ i) (asks x))) all_dead.
Proof using Type.
  intros Hb. apply (each_instance_all (λ _, step now (b - now))).
  - intros j. apply triple_pull. intros x [[Hx _] HA]. exists (λ z, tracks (CS j) L now (StepMode false) z ∧ asks z = asks x).
    split; [by split|]. eapply triple_conseq; [apply (step_tracks (CS j) L now b (asks x)); done|done| |done].
    intros _ z [Hz Hzx]. by rewrite Hzx.
  - intros j x [Hx _]. by eapply rested_dead.
  - intros j x [Hx _]. by eapply tracks_dead.
Qed.

Lemma advance_from_rests L now end_ fuel d published :
  now ≤ end_ → owing now end_ d →
  triple (all (rested L now)) (advance_from transceivers fuel now end_ d published)
    (λ _ g, ∃ K, tiles now end_ K ∧ all (rested (L ++ K) end_) g) all_dead.
Proof using clocks_distinct receive_apart.
  revert L now d published. induction fuel as [|fuel IH]; intros L now d published Hle Hd; cbn [advance_from];
    (destruct (Z.leb_spec end_ now) as [He|He];
      [intros g Hg; cbn; exists []; rewrite app_nil_r; assert (now = end_) as <- by lia; done|]).
  { apply triple_throw. intros g. apply all_impl, rested_dead. }
  eapply triple_bind; [apply (triple_gets id)|]. intros g0. apply triple_pull. intros g [Hg ->]. cbn [id].
  exists (λ g', g' = g ∧ all (rested L now) g). split; [done|]. assert (length g = N) as -> by apply Hg. clear Hg.
  eapply triple_seq with (Q := λ b g', boundary g now end_ d = Ok b ∧ g' = g ∧ all (rested L now) g).
  { apply triple_lift. intros g' [-> Hg]. destruct (boundary _ _ _ _); [done|]. by eapply all_impl; [apply rested_dead|]. }
  intros b g' (Hb & -> & Hg). apply boundary_spec in Hb as (Hnb & Hasks & Hkeys); [|done|].
  2: { apply Forall_fmap. eapply Forall_impl; [exact Hd|]. intros [k ps] [Hk _]. cbn in *. lia. }
  destruct (pop_spec now end_ d b Hd Hkeys) as [Hmine Hd'].
  exists (all (λ j x, rested L now j x ∧ Forall (λ i, b ≤ i) (asks x))). split.
  { destruct Hg as [Hlen Hg]. split; [done|]. intros j x Hj. pose proof (Hg j x Hj) as Hr. split; [done|].
    apply list_elem_of_lookup_2 in Hj. pose proof (proj1 (Forall_forall _ _) Hasks x Hj) as Hx. destruct Hr as [_ Hr].
    apply Forall_forall. intros i Hi. pose proof (proj1 (Forall_forall _ _) Hr i Hi). by apply (proj1 (Forall_forall _ _) Hx i Hi). }
  clear g Hg Hasks. set (L' := L ++ [(now, b - now)]). eapply triple_bind; [apply (steps_all L now b); lia|]. intros [].
  eapply triple_bind; [apply (triple_gets id)|]. intros g0. apply triple_pull. intros g [Hg ->]. cbn [id].
  set (R := λ (dues : list pending) j x, tracks (CS j) L' b (StepMode (in_event_pending x || bool_decide (b ∈ asks x))) x
                      ∧ Forall (λ i, b ≤ i) (asks x)
                      ∧ (in_event_pending x || bool_decide (b ∈ asks x) = true → j ∈ pd_instance <$> dues)).
  exists (λ g', g' = g). split; [done|].
  eapply triple_seq with (Q := λ dues g', all (R dues) g' ∧ Forall work_ok dues).
  { apply triple_lift. intros g' ->. destruct (due_instances b g) as [dues|] eqn:Hdue.
    - apply due_instances_spec in Hdue as [Hdue Hnone]. split.
      + destruct Hg as [Hlen Hg]. split; [done|]. intros j x Hj. destruct (Hg j x Hj) as [H1 H2].
        split; [exact H1|]. split; [exact H2|]. exact (Hdue j x Hj).
      + eapply Forall_impl; [exact Hnone|]. intros p Hp. unfold work_ok. by rewrite Hp.
    - eapply all_impl; [|exact Hg]. intros j x [Hx _]. by eapply tracks_dead. }
  intros dues g' [Hg' Hdues]. exists (all (R dues)). split; [done|]. clear g g' Hg Hg'.
  eapply triple_bind; [apply (settle_at_rests L' b ((pop d b).1 ++ dues) (R dues))|].
  - by apply Forall_app.
  - intros j x (Hx & _ & Hin). eexists. split; [exact Hx|]. destruct (in_event_pending x || bool_decide (b ∈ asks x)); [|auto].
    right; right. split; [done|]. rewrite fmap_app. apply elem_of_app. right. auto.
  - intros [_ ->]%app_nil j x (Hx & HA & Hin). destruct (in_event_pending x || bool_decide (b ∈ asks x)) eqn:Ho.
    { by apply not_elem_of_nil in Hin. }
    apply orb_false_iff in Ho as [_ Ho%bool_decide_eq_false]. split; [done|]. apply Forall_forall. intros i Hi.
    pose proof (proj1 (Forall_forall _ _) HA i Hi) as Hbi. cbn in Hbi. destruct (decide (i = b)) as [->|]; [done|lia].
  - intros out. eapply triple_conseq; [apply (IH L' b)|done| |done]; [lia|done|].
    intros a g (K & HK & Hg). exists ((now, b - now) :: K). split; [|by unfold L' in Hg; rewrite <- app_assoc in Hg].
    cbn. split_and!; [done|lia|]. by rewrite Zplus_minus.
Qed.

Lemma advance_rests L t dt inputs :
  0 ≤ dt →
  triple (all (rested L t)) (advance transceivers t dt inputs)
    (λ _ g, ∃ K, tiles t (t + dt) K ∧ all (rested (L ++ K) (t + dt)) g) all_dead.
Proof using clocks_distinct receive_apart.
  intros Hdt. unfold advance.
  eapply triple_seq with (Q := λ d g, injected transceivers inputs t (t + dt) = Ok d ∧ all (rested L t) g).
  { apply triple_lift. intros g Hg. destruct (injected _ _ _ _); [done|]. by eapply all_impl; [apply rested_dead|]. }
  intros d g [Hd%injected_spec Hg]. eexists. split; [exact Hg|]. clear g Hg.
  assert (Forall work_ok (pop d t).1 ∧ owing t (t + dt) (pop d t).2) as [Hmine Hd'].
  { apply (pop_spec (t - 1)).
    - eapply Forall_impl; [exact Hd|]. intros [k ps] [? ?]. cbn in *. split; [lia|done].
    - apply Forall_fmap. eapply Forall_impl; [exact Hd|]. intros [k ps] [? ?] ?. cbn in *. lia. }
  eapply triple_bind; [apply (settle_at_rests L t _ (rested L t)); [done| |done]|].
  - intros j x [Hx _]. exists (StepMode false). auto.
  - intros published. apply advance_from_rests; [lia|done].
Qed.
End group_proofs.
