(* ===== verification/FmuGroupRun.v ===== *)
(** * Runs of a group of FMUs

    A Run as the kernel drives it: [on_init], [on_step] for each Step until one
    fails ([play]), and [close_group]. [group_conforms] and [group_together] are
    the theorems of FmuGroupProofs.v for whole Runs. *)

From Stdlib Require Import ZArith Lia.
From S2P Require Import Prelude PyFloat SchemaTypes Schema FmuRuntime FmuGroup FmuGroupProofs.

(** ** The loop of a Step ends *)

Lemma boundary_after (g : list instance) now end_ (d : list (Z * list pending)) b :
  now < end_ → boundary g now end_ d = Ok b → now < b.
Proof.
  intros Hlt. unfold boundary. intros (asked & Hask%mapE_Ok & [= <-])%bind_Ok.
  destruct (least_spec (filter (λ i, i ≤ end_) (concat asked) ++ filter (λ i, now < i) d.*1) end_) as [[Hin|[_ ->]] _]; [|done].
  apply elem_of_app in Hin as [[_ Hc]%list_elem_of_filter|[Hi _]%list_elem_of_filter]; [|done].
  apply elem_of_concat in Hc as (k & Hik & [n Hn]%list_elem_of_lookup).
  destruct (Forall2_lookup_r _ _ _ _ _ Hask Hn) as (x & _ & ->%asked_for_asks). by apply list_elem_of_filter in Hik as [? _].
Qed.

(** The nanoseconds of a Step are enough fuel: more gives the same. *)
Lemma advance_from_fuel transceivers fuel fuel' now end_ d published g :
  (Z.to_nat (end_ - now) ≤ fuel)%nat → (Z.to_nat (end_ - now) ≤ fuel')%nat →
  advance_from transceivers fuel now end_ d published g = advance_from transceivers fuel' now end_ d published g.
Proof.
  revert fuel' now d published g. induction fuel as [|fuel IH]; intros fuel' now d published g Hf Hf'.
  { destruct fuel'; cbn [advance_from]; destruct (Z.leb_spec end_ now); (done || lia). }
  destruct fuel' as [|fuel']; cbn [advance_from]; destruct (Z.leb_spec end_ now) as [He|He]; try done; try lia.
  unfold mbind, fmi_bind, gets, lift. cbn [id]. destruct (boundary g now end_ d) as [b|e] eqn:Hb; [|done].
  apply boundary_after in Hb; [|done]. destruct (each _ _ g) as [g1 [u|e]]; [|done].
  destruct (due_instances b g1) as [dues|e]; [|done]. destruct (settle_at _ _ _ g1) as [g2 [out|e]]; [|done].
  apply IH; lia.
Qed.

(** ** Initialization *)

Definition at_stage (s : stage) : monitor := mk_monitor s 0 None ∅.

(** A stage before initialization is over, in which FMI has no fmi3Terminate. *)
Definition unstarted (s : stage) : bool :=
  match s with Instantiated | Configuration | Initialization | Refused true => true | _ => false end.

(** Initialization failed: the calls conform, and closing conforms or finds the
    FMU alive before initialization is over. *)
Definition unready (cs : list Z) (co : cosim) : Prop :=
  ∃ m, observe cs (co_log co) = Some m
    ∧ (closable co (mo_stage m) ∨ co_open co = true ∧ co_failed co = false ∧ unstarted (mo_stage m) = true).

Lemma broken_unready cs co : broken cs co → unready cs co.
Proof. intros (m & Hm & Hc). exists m. auto. Qed.

Lemma call_early cs L m c after :
  allowed (mo_stage m) c = Some after → in_time cs m c = true → early (mo_stage m) = true →
  c ≠ FreeInstance → c ≠ Terminate →
  triple (good cs L m) (call_fmu c)
    (λ a co, good cs (L ++ match c with DoStep t dt => [(t, dt)] | _ => [] end) (effect cs m after c a) co)
    (unready cs).
Proof.
  intros Ha Ht He Hnf Hnt co Hco. pose proof (call_any cs L m c after Ha Ht co Hco) as Hany. unfold call_fmu in *.
  destruct Hco as [Ho Hf Hl Hs]. destruct (co_binary co (co_log co) c) as [a|]; cycle 1.
  { exists m. split; [done|]. right. split_and!; [done..|]. by destruct (mo_stage m). }
  destruct (an_status a =? FMI_SUCCESS_STATUS) eqn:Hst; [exact Hany|].
  exists (mk_monitor (answered (mo_stage m) after c a) (mo_now m) (mo_next m) (mo_clocks m)). split.
  - unfold log_call. cbn [co_log]. rewrite observe_app, Hl. cbn [mbind option_bind]. unfold watch. cbn [fst snd]. by rewrite Ha, Ht, Hst.
  - cbn. unfold closable, log_call, answered. cbn. rewrite Ho, Hf. rewrite !bool_decide_false by done. cbn. rewrite Hst.
    destruct (Z.eqb_spec (an_status a) FMI_ERROR_STATUS) as [->|]; [by left|].
    destruct (an_status a =? FMI_FATAL_STATUS); [by left|]. right. by rewrite He.
Qed.

Lemma starting_call cs s c s' :
  allowed s c = Some s' → early s = true → c ≠ FreeInstance → c ≠ Terminate →
  triple (good cs [] (at_stage s)) (call_ c) (λ _, good cs [] (at_stage s')) (unready cs).
Proof.
  intros Ha He Hc Hnt. unfold call_. eapply triple_bind; [apply (call_early cs [] (at_stage s) c s' Ha); [|done..]|].
  - destruct s as [| | | |[]|[]| | | |]; try done; by destruct c.
  - intros a co Hco. destruct s as [| | | |[]|[]| | | |]; try done; destruct c; try done; injection Ha as <-; exact Hco.
Qed.

Lemma reraise_triple {S A} f (m : fmi S A) (P : S → Prop) Q E : triple P m Q E → triple P (reraise f m) Q E.
Proof. intros Hm s Hs. specialize (Hm s Hs). unfold reraise. by destruct (m s) as [s' [a|e]]. Qed.

Lemma write_starts_good cs s starts :
  s = Instantiated ∨ s = Configuration →
  triple (good cs [] (at_stage s)) (write_start_values starts) (λ _, good cs [] (at_stage s)) (unready cs).
Proof.
  intros Hs. unfold write_start_values. apply (triple_each _ starts (λ _, good cs [] (at_stage s))). intros st _.
  apply reraise_triple. unfold write_start_value. destruct (st_data st); apply starting_call; by destruct Hs as [->| ->].
Qed.

Lemma apply_starts_good cs starts :
  triple (good cs [] (at_stage Instantiated)) (apply_start_values starts) (λ _, good cs [] (at_stage Instantiated)) (unready cs).
Proof.
  unfold apply_start_values. eapply triple_bind with (Q := λ _, good cs [] (at_stage Instantiated)).
  - destruct (decide _); [by intros co Hco|].
    eapply triple_bind; [by apply (starting_call cs Instantiated EnterConfigurationMode Configuration)|]. intros [].
    eapply triple_bind; [apply write_starts_good; by right|]. intros []. by apply starting_call.
  - intros []. apply write_starts_good. by left.
Qed.

Lemma initialize_good cs :
  triple (good cs [] (at_stage Instantiated)) initialize (λ _, good cs [] (at_stage EventMode)) (unready cs).
Proof.
  unfold initialize. eapply triple_bind; [by apply (starting_call cs Instantiated EnterInitializationMode Initialization)|].
  intros []. by apply starting_call.
Qed.

(** An instance as it is built: it has no FMU, and its Clocks ask for nothing. *)
Record fresh (x : instance) : Prop := {
  fr_fmu : in_fmu x = None;
  fr_event : in_in_event x = false;
  fr_next : in_next_event_time x = None;
  fr_clocks : Forall (λ b, nb_interval b.2 = None ∧ nb_due b.2 = None) (in_countdown x);
}.

(** An instance that closing finds: without an FMU, or with one that failed. *)
Definition shut (cs : list Z) (x : instance) : Prop :=
  clocks_of x = cs ∧ match in_fmu x with Some co => unready cs co | None => True end.

Lemma dead_shut cs x : dead cs x → shut cs x.
Proof. intros (co & y & -> & Hy & Hb). split; [done|]. by apply broken_unready. Qed.

Lemma fresh_shut x : fresh x → shut (clocks_of x) x.
Proof. intros [Hf _ _ _]. split; [done|]. by rewrite Hf. Qed.

Lemma with_fmu_any {A} (prog : fmi cosim A) cs m m' y :
  triple (good cs [] m) prog (λ _, good cs [] m') (unready cs) → clocks_of y = cs →
  triple (inst cs [] m y) (with_fmu prog) (λ _, inst cs [] m' y) (shut cs).
Proof.
  intros Hp Hy x (co & -> & Hco). unfold with_fmu. cbn. specialize (Hp co Hco). destruct (prog co) as [co' [a|e]]; [by exists co'|done].
Qed.

Lemma instantiate_tracks cs created starts :
  triple (λ x, fresh x ∧ clocks_of x = cs) (instantiate created starts) (λ _, tracks cs [] 0 EventMode) (shut cs).
Proof.
  apply triple_pull. intros y [Hy Hcs]. exists (λ x, x = y). split; [done|]. destruct created as [b|]; cycle 1.
  { intros x ->. cbn. rewrite <- Hcs. by apply fresh_shut. }
  unfold instantiate. eapply triple_bind with (Q := λ _, inst cs [] (at_stage Instantiated) y).
  { apply triple_update. intros x ->. eexists. split; [reflexivity|]. by split. }
  intros _. eapply triple_bind; [apply with_fmu_any; [apply apply_starts_good|done]|]. intros [].
  eapply triple_bind; [apply with_fmu_any; [apply initialize_good|done]|]. intros []. apply triple_update. intros x (co & -> & Hco).
  exists (at_stage EventMode), (set_in_event true y). destruct Hy as [_ _ Hn Hb]. split_and!; try done.
  - by exists co.
  - intros j tr b' Hj. apply list_elem_of_lookup_2, (proj1 (Forall_forall _ _) Hb) in Hj as [Hi Hd]. cbn in *.
    rewrite Hi, Hd. by case_decide.
Qed.

(** ** Runs *)

Section run.
Context (transceivers : list transceiver).

(** The Steps of a Run, up to the first that fails: the time, the duration and
    the Messages that arrived. *)
Fixpoint play (steps : list (Z * Z * list message)) : fmi group_participant (list (list message)) :=
  match steps with
  | [] => mret []
  | (t, dt, inputs) :: steps =>
      out ← on_step transceivers t dt inputs;
      rest ← play steps;
      mret ((out : list message) :: rest)
  end.

(** The Clocks of a group are told apart: those an FMU counts down by their
    references, and those Messages are handed over with are not among them. *)
Definition wired (g : list instance) : Prop :=
  Forall (λ x, NoDup (clocks_of x)) g
  ∧ ∀ n tr x, transceivers !! n = Some tr → g !! tr_instance tr = Some x → kb_clock (tr_receive tr) ∉ clocks_of x.

(** A group as it is composed, and as initialization leaves it. *)
Definition composed (p : group_participant) : Prop :=
  Forall fresh (gp_instances p) ∧ wired (gp_instances p) ∧ gp_pending p = [] ∧ gp_point p = 0.
End run.

Section run_proofs.
Context (transceivers : list transceiver) (N : nat) (CS : nat → list Z).
Hypothesis clocks_distinct : ∀ j, NoDup (CS j).
Hypothesis receive_apart :
  ∀ n tr, transceivers !! n = Some tr → kb_clock (tr_receive tr) ∉ CS (tr_instance tr).

Definition standing (L : list (Z * Z)) (p : group_participant) : Prop :=
  all N (rested CS L (gp_point p)) (gp_instances p) ∧ tiles 0 (gp_point p) L.

Lemma on_group_triple {A} (m : fmi (list instance) A) P (Q : A → list instance → Prop) E ms t :
  triple P m Q E →
  triple (λ p, P (gp_instances p) ∧ gp_pending p = ms ∧ gp_point p = t) (on_group m)
    (λ a p, Q a (gp_instances p) ∧ gp_pending p = ms ∧ gp_point p = t) (λ p, E (gp_instances p)).
Proof.
  intros Hm p (Hp & Hms & Ht). specialize (Hm _ Hp). unfold on_group. destruct (m (gp_instances p)) as [g [a|e]]; done.
Qed.

Lemma initialize_group_rests :
  triple (all N (λ j, tracks (CS j) [] 0 EventMode)) (initialize_group transceivers) (λ _, all N (rested CS [] 0)) (all_dead N CS).
Proof using clocks_distinct receive_apart.
  unfold initialize_group. eapply triple_bind; [apply (triple_gets id)|]. intros g0. apply triple_pull. intros g [Hg ->].
  assert (length (id g) = N) as -> by apply Hg. exists (all N (λ j x, tracks (CS j) [] 0 EventMode x ∧ (j < N)%nat)). split.
  { destruct Hg as [Hlen Hg]. split; [done|]. intros j x Hj. split; [auto|]. apply lookup_lt_Some in Hj. lia. }
  apply (settle_at_rests transceivers N CS clocks_distinct receive_apart).
  - apply Forall_fmap, Forall_forall. done.
  - intros j x [Hx _]. exists EventMode. auto.
  - intros He j x [_ Hj]. apply fmap_nil_inv in He. destruct N; [lia|done].
Qed.

Lemma on_init_stands created p :
  all N (λ j x, fresh x ∧ clocks_of x = CS j) (gp_instances p) → gp_point p = 0 →
  triple (λ q, q = p) (on_init transceivers created) (λ _, standing []) (λ q, all N (λ j, shut (CS j)) (gp_instances q)).
Proof using clocks_distinct receive_apart.
  intros Hp Ht. unfold on_init. eapply triple_bind; [apply (triple_gets gp_instances)|]. intros g. apply triple_pull. intros q [-> ->].
  assert (length (gp_instances p) = N) as -> by apply Hp.
  exists (λ q, all N (λ j x, fresh x ∧ clocks_of x = CS j) (gp_instances q) ∧ gp_pending q = gp_pending p ∧ gp_point q = 0).
  split; [done|].
  eapply triple_bind with (Q := λ _ q, all N (λ j, tracks (CS j) [] 0 EventMode) (gp_instances q) ∧ gp_pending q = gp_pending p ∧ gp_point q = 0).
  { eapply triple_conseq; [eapply on_group_triple with (ms := gp_pending p) (t := 0); apply (each_instance_all N (start_instance created)
      (λ j x, fresh x ∧ clocks_of x = CS j) (λ j, tracks (CS j) [] 0 EventMode) (λ j, shut (CS j)))|done|done|done].
    - intros j. unfold start_instance. destruct (created !! j) as [[b starts]|]; [apply instantiate_tracks|].
      apply triple_throw. intros x [Hx <-]. by apply fresh_shut.
    - intros j x [Hx <-]. by apply fresh_shut.
    - intros j x Hx. apply dead_shut. by eapply tracks_dead. }
  intros _. eapply triple_bind; [eapply triple_conseq; [eapply on_group_triple with (ms := gp_pending p) (t := 0); apply initialize_group_rests|done|intros a s Hs; exact Hs|]|].
  - intros q Hq. eapply all_impl; [|exact Hq]. intros j x. apply dead_shut.
  - intros ms. apply triple_update. intros q (Hq & _ & Hq0). split; [by rewrite <- Hq0 in Hq|]. cbn. by rewrite Hq0.
Qed.

Lemma standing_dead L p : standing L p → all_dead N CS (gp_instances p).
Proof. intros [Hg _]. eapply all_impl; [|exact Hg]. intros j x. apply rested_dead. Qed.

Lemma on_step_stands L t dt inputs :
  0 ≤ dt →
  triple (standing L) (on_step transceivers t dt inputs) (λ _ p, ∃ K, standing (L ++ K) p ∧ gp_point p = t + dt)
    (λ p, all_dead N CS (gp_instances p)).
Proof using clocks_distinct receive_apart.
  intros Hdt. unfold on_step. eapply triple_bind; [apply (triple_gets gp_point)|]. intros st. apply triple_pull.
  intros p [Hp ->]. exists (λ q, q = p). split; [done|].
  eapply triple_seq with (Q := λ _ q, q = p ∧ t = gp_point p).
  { apply triple_lift. intros q ->. unfold require_contiguous. destruct (Z.eqb_spec t (gp_point p)) as [Ht|Ht]; cbn; [done|].
    by eapply standing_dead. }
  intros [] q [-> Ht]. exists (λ q, q = p). split; [done|].
  eapply triple_bind; [apply (triple_gets gp_pending)|]. intros published. apply triple_pull. intros q [-> ->].
  exists (λ q, q = p). split; [done|].
  eapply triple_bind with (Q := λ _ q, all N (rested CS L t) (gp_instances q) ∧ gp_pending q = [] ∧ gp_point q = t).
  { apply triple_update. intros q ->. cbn. destruct Hp as [Hg _]. by rewrite Ht. }
  intros _. eapply triple_seq; [eapply on_group_triple with (ms := []) (t := t); apply (advance_rests transceivers N CS clocks_distinct receive_apart L t dt inputs Hdt)|].
  intros out q ((K & HK & Hg) & _ & _). exists (λ z, z = q). split; [done|].
  eapply triple_bind with (Q := λ _ z, standing (L ++ K) z ∧ gp_point z = t + dt).
  { apply triple_update. intros z ->. split; [|done]. split; [exact Hg|]. cbn. destruct Hp as [_ Hp]. rewrite <- Ht in Hp.
    by eapply tiles_app. }
  intros _ z Hz. cbn. by exists K.
Qed.

Lemma play_stands L steps :
  Forall (λ s, 0 ≤ s.1.2) steps →
  triple (standing L) (play transceivers steps) (λ _ p, ∃ K, standing (L ++ K) p) (λ p, all_dead N CS (gp_instances p)).
Proof using clocks_distinct receive_apart.
  intros Hs. revert L. induction Hs as [|[[t dt] inputs] steps Hdt _ IH]; intros L; cbn [play].
  { intros p Hp. exists []. by rewrite app_nil_r. }
  eapply triple_seq; [by apply on_step_stands|]. intros out p (K & Hp & _). eexists. split; [exact Hp|]. clear p Hp.
  eapply triple_seq; [apply IH|]. intros rest p (K' & Hp). exists (λ q, q = p). split; [done|]. intros q ->.
  exists (K ++ K'). by rewrite app_assoc.
Qed.
End run_proofs.

(** ** Closing *)

Lemma free_conforms cs co m :
  observe cs (co_log co) = Some m → mo_stage m ≠ Freed → (co_open co = true → mo_stage m ≠ Fatal) →
  is_Some (observe cs (co_log (free_instance co).1)).
Proof.
  intros Hm Hf Ho. unfold free_instance. destruct (co_open co); [|by exists m]. specialize (Ho eq_refl).
  destruct (co_binary co (co_log co) FreeInstance) as [a|]; [|by exists m]. cbn [fst co_log]. rewrite observe_app, Hm.
  cbn [mbind option_bind]. unfold watch. cbn [fst snd in_time].
  assert (allowed (mo_stage m) FreeInstance = Some Freed) as -> by (destruct (mo_stage m) as [| | | |[]|[]| | | |]; done).
  by destruct (an_status a =? FMI_SUCCESS_STATUS).
Qed.

Lemma call_state c co :
  (call_ c co).1 = match co_binary co (co_log co) c with Some a => log_call c a co | None => co end.
Proof. unfold call_, mbind, fmi_bind, call_fmu. destruct (co_binary co (co_log co) c) as [a|]; [|done]. by destruct (an_status a =? _). Qed.

Lemma close_conforms cs co : broken cs co → is_Some (observe cs (co_log (close co).1)).
Proof.
  intros (m & Hm & Hc). unfold close, closable in *. destruct (co_open co) eqn:Ho; [|by exists m].
  destruct (co_failed co) eqn:Hf.
  { cbn. pose proof (free_conforms cs co m Hm) as Hfree. rewrite Hc in Hfree. destruct (free_instance co) as [co' [u|e]]; by apply Hfree. }
  pose proof (call_state Terminate co) as Hst. destruct (call_ Terminate co) as [co1 r]. cbn [fst] in Hst.
  destruct (co_binary co (co_log co) Terminate) as [a|]; subst co1.
  - set (co1 := log_call Terminate a co).
    assert (∃ m1, observe cs (co_log co1) = Some m1 ∧ mo_stage m1 ≠ Freed ∧ (co_open co1 = true → mo_stage m1 ≠ Fatal)) as (m1 & H1 & H2 & H3).
    { unfold co1, log_call. cbn [co_log co_open]. rewrite observe_app, Hm. cbn [mbind option_bind]. unfold watch. cbn [fst snd in_time].
      rewrite Hc. destruct (Z.eqb_spec (an_status a) FMI_SUCCESS_STATUS) as [Hs|Hs].
      { eexists. split; [reflexivity|]. done. }
      eexists. split; [reflexivity|]. cbn [mo_stage]. unfold answered. rewrite bool_decide_false by done. cbn [orb].
      destruct (Z.eqb_spec (an_status a) FMI_SUCCESS_STATUS) as [?|_]; [done|].
      destruct (Z.eqb_spec (an_status a) FMI_ERROR_STATUS) as [_|_]; [done|].
      destruct (Z.eqb_spec (an_status a) FMI_FATAL_STATUS) as [_|_]; [by rewrite Ho|]. done. }
    pose proof (free_conforms cs co1 m1 H1 H2 H3) as Hfree. destruct (free_instance co1) as [co' [u|e]]; exact Hfree.
  - pose proof (free_conforms cs co m Hm) as Hfree.
    destruct (free_instance co) as [co' [u|e]]; apply Hfree; intros; intros E; by rewrite E in Hc.
Qed.

(** The calls of a closed instance: they conform, or they do until closing
    terminates an FMU that initialization left alive before its end. *)
Definition driven (cs : list Z) (log : list (call * answer)) : Prop :=
  is_Some (observe cs log)
  ∨ ∃ before m a frees, log = before ++ (Terminate, a) :: frees ∧ observe cs before = Some m
      ∧ unstarted (mo_stage m) = true ∧ (frees = [] ∨ ∃ b, frees = [(FreeInstance, b)]).

Lemma close_driven cs co : unready cs co → driven cs (co_log (close co).1).
Proof.
  intros (m & Hm & [Hc|(Ho & Hf & Hs)]); [left; apply close_conforms; by exists m|].
  unfold close. rewrite Ho, Hf. pose proof (call_state Terminate co) as Hst.
  destruct (call_ Terminate co) as [co1 r]. cbn [fst] in Hst.
  destruct (co_binary co (co_log co) Terminate) as [a|]; subst co1.
  - right. exists (co_log co), m, a. unfold free_instance.
    destruct (co_open (log_call Terminate a co)); [|exists []; by split_and!; [| | |left]].
    destruct (co_binary (log_call Terminate a co) (co_log (log_call Terminate a co)) FreeInstance) as [b|].
    + exists [(FreeInstance, b)]. split_and!; [|done|done|right; by exists b]. cbn. by rewrite <- app_assoc.
    + exists []. by split_and!; [| | |left].
  - left. pose proof (free_conforms cs co m Hm) as Hfree.
    destruct (free_instance co) as [co' [u|e]]; apply Hfree; intros; intros E; by rewrite E in Hs.
Qed.

(** Closing the group brings every instance from [R] to [Q] of its calls. *)
Lemma close_all_each N CS (R : list Z → instance → Prop) (Q : list Z → list (call * answer) → Prop) g :
  (∀ cs x, R cs x → clocks_of x = cs ∧ match in_fmu x with
                                       | Some co => Q cs (co_log (close co).1)
                                       | None => Q cs []
                                       end) →
  all N (λ j, R (CS j)) g → all N (λ j x, clocks_of x = CS j ∧ Q (CS j) (log_of x)) (close_all g).1.
Proof.
  intros HR Hg. unfold close_all.
  assert (∀ k n f h, (k + n = N)%nat →
    all N (λ j x, if decide (j < k)%nat then clocks_of x = CS j ∧ Q (CS j) (log_of x) else R (CS j) x) h →
    all N (λ j x, clocks_of x = CS j ∧ Q (CS j) (log_of x))
      (foldl (λ gf i, close_instance i gf.2 gf.1) (h, f) (seq k n)).1) as Hall.
  { intros k n. revert k. induction n as [|n IH]; intros k f h Hk Hh; cbn [seq foldl].
    - cbn [fst]. destruct Hh as [Hlen Hh]. split; [done|]. intros j x Hj. specialize (Hh j x Hj). rewrite decide_True in Hh; [done|].
      apply lookup_lt_Some in Hj. lia.
    - cbn [fst snd]. destruct Hh as [Hlen Hh]. unfold close_instance at 2. destruct (lookup_lt_is_Some_2 h k) as [x Hx]; [lia|].
      rewrite Hx. pose proof (Hh k x Hx) as Hd. rewrite decide_False in Hd by lia. destruct (HR _ _ Hd) as [Hy Hq].
      destruct (in_fmu x) as [co|] eqn:Hfmu.
      + destruct (close co) as [co' r]. cbn [fst] in Hq.
        apply IH; [lia|]. split; [by rewrite length_insert|]. intros j z Hz. destruct (decide (j = k)) as [->|Hj].
        * rewrite list_lookup_insert_eq in Hz by (by eapply lookup_lt_Some). injection Hz as <-. rewrite decide_True by lia. done.
        * rewrite list_lookup_insert_ne in Hz by done. specialize (Hh j z Hz). case_decide; case_decide; (done || lia).
      + apply IH; [lia|]. split; [done|]. intros j z Hz. destruct (decide (j = k)) as [->|Hj].
        * rewrite decide_True by lia. rewrite Hx in Hz. injection Hz as <-. unfold log_of. by rewrite Hfmu.
        * specialize (Hh j z Hz). case_decide; case_decide; (done || lia). }
  pose proof (Hall 0%nat (length g) None g) as H0. destruct Hg as [Hlen Hg].
  destruct (foldl _ _ _) as [g' f]. cbn [fst] in *. apply H0; [lia|]. split; [done|]. intros j x Hj.
  rewrite decide_False by lia. auto.
Qed.

Lemma close_all_conforms N CS g :
  all_dead N CS g → all N (λ j x, clocks_of x = CS j ∧ is_Some (observe (CS j) (log_of x))) (close_all g).1.
Proof.
  apply (close_all_each N CS dead (λ cs log, is_Some (observe cs log))).
  intros cs x (co & y & -> & Hy & Hb). split; [done|]. by apply close_conforms.
Qed.

Lemma close_all_driven N CS g :
  all N (λ j, shut (CS j)) g → all N (λ j x, clocks_of x = CS j ∧ driven (CS j) (log_of x)) (close_all g).1.
Proof.
  apply (close_all_each N CS shut driven). intros cs x [Hy Hx]. split; [done|].
  destruct (in_fmu x); [by apply close_driven|]. left. by exists new_monitor.
Qed.

(** ** The theorems *)

Section theorems.
Context (transceivers : list transceiver).

(** The Clocks of each instance of a group. *)
Definition group_clocks (g : list instance) (j : nat) : list Z :=
  match g !! j with Some x => clocks_of x | None => [] end.

Lemma wired_clocks g :
  wired transceivers g →
  (∀ j, NoDup (group_clocks g j))
  ∧ ∀ n tr, transceivers !! n = Some tr → kb_clock (tr_receive tr) ∉ group_clocks g (tr_instance tr).
Proof.
  intros [Hn Hw]. unfold group_clocks. split.
  - intros j. destruct (g !! j) as [x|] eqn:Hj; [|constructor]. by eapply Forall_lookup_1 in Hn.
  - intros n tr Htr. destruct (g !! tr_instance tr) as [x|] eqn:Hx; [by eapply Hw|apply not_elem_of_nil].
Qed.

Lemma composed_all p :
  composed transceivers p →
  all (length (gp_instances p)) (λ j x, fresh x ∧ clocks_of x = group_clocks (gp_instances p) j) (gp_instances p).
Proof.
  intros (Hf & _). split; [done|]. intros j x Hj. split; [by eapply Forall_lookup_1 in Hf|].
  unfold group_clocks. by rewrite Hj.
Qed.

(** Initialization and the Steps, up to what fails. *)
Definition run_group (created : list (option behaviour * list start)) (steps : list (Z * Z * list message))
    : fmi group_participant (list (list message)) :=
  on_init transceivers created ≫= λ _, play transceivers steps.

Lemma all_closed N CS (Q : list Z → list (call * answer) → Prop) p2 p3 r' :
  all N (λ j x, clocks_of x = CS j ∧ Q (CS j) (log_of x)) (close_all (gp_instances p2)).1 → close_group p2 = (p3, r') →
  Forall (λ x, Q (clocks_of x) (log_of x)) (gp_instances p3).
Proof.
  intros Hd Hc. unfold close_group, on_group in Hc. destruct (close_all (gp_instances p2)) as [g rc].
  injection Hc as <- _. cbn. apply Forall_lookup_2. intros j x Hj. destruct Hd as [_ Hd]. by destruct (Hd j x Hj) as [-> ?].
Qed.

Lemma group_driven p created steps p2 r p3 r' :
  composed transceivers p → Forall (λ s, 0 ≤ s.1.2) steps →
  run_group created steps p = (p2, r) → close_group p2 = (p3, r') →
  Forall (λ x, driven (clocks_of x) (log_of x)) (gp_instances p3)
  ∧ ((on_init transceivers created p).2 = Ok () → Forall (λ x, is_Some (observe (clocks_of x) (log_of x))) (gp_instances p3)).
Proof.
  intros Hp Hs Hr Hc. pose proof (composed_all p Hp) as Hall. destruct Hp as (_ & Hw & _ & Ht).
  destruct (wired_clocks _ Hw) as [H1 H2]. set (N := length (gp_instances p)) in *. set (CS := group_clocks (gp_instances p)) in *.
  pose proof (on_init_stands transceivers N CS H1 H2 created p Hall Ht p eq_refl) as Hi.
  unfold run_group, mbind, fmi_bind in Hr. destruct (on_init transceivers created p) as [p1 [[]|e]]; cycle 1.
  { injection Hr as <- <-. split; [|done]. by eapply all_closed; [apply close_all_driven|]. }
  assert (all_dead N CS (gp_instances p2)) as Hd.
  { pose proof (play_stands transceivers N CS H1 H2 [] steps Hs p1 Hi) as Hp. rewrite Hr in Hp. destruct r as [outs|e]; [|done].
    destruct Hp as (K & Hp). by eapply standing_dead. }
  apply close_all_conforms in Hd. pose proof (all_closed _ _ (λ cs log, is_Some (observe cs log)) _ _ _ Hd Hc) as H.
  split; [|done]. eapply Forall_impl; [exact H|]. intros x Hx. by left.
Qed.

Lemma run_conforms p created p1 steps p2 r p3 r' :
  composed transceivers p → Forall (λ s, 0 ≤ s.1.2) steps →
  on_init transceivers created p = (p1, Ok ()) → play transceivers steps p1 = (p2, r) → close_group p2 = (p3, r') →
  Forall (λ x, is_Some (observe (clocks_of x) (log_of x))) (gp_instances p3).
Proof.
  intros Hp Hs Hi Hr Hc. eapply (group_driven p created steps p2 r); [done|done| |done|by rewrite Hi].
  unfold run_group, mbind, fmi_bind. by rewrite Hi.
Qed.

(** C9. Every FMU of a group is driven as FMI 3.0 and its own requests say, from
    its instantiation until it is closed: for any answers of the FMUs, any Steps,
    and wherever the Run fails, the calls each instance receives are allowed in
    the mode it is in, every step continues where the last one ended and passes
    no instant the FMU declared or counts down to, an instant reached that way,
    or an event the step reported, is handled in Event Mode before the FMU is
    stepped again, and after an error or a fatal answer only the calls FMI leaves
    are made. There is one exception, which takes a failed initialization: an FMU
    that is alive before its initialization is over, because a call of it was
    answered with neither success nor an error or is not exported, is terminated
    before it is freed, in a state in which FMI does not allow that. *)
Theorem group_conforms p created steps p2 r p3 r' :
  composed transceivers p → Forall (λ s, 0 ≤ s.1.2) steps →
  run_group created steps p = (p2, r) → close_group p2 = (p3, r') →
  Forall (λ x, driven (clocks_of x) (log_of x)) (gp_instances p3)
  ∧ ((on_init transceivers created p).2 = Ok () → Forall (λ x, is_Some (observe (clocks_of x) (log_of x))) (gp_instances p3)).
Proof. apply group_driven. Qed.

(** C10. All FMUs of a group stand together: after any Steps that succeed there is
    one list of intervals, which begins at virtual time zero, has no gap and ends
    where the participant stands, and every FMU was stepped over exactly these. *)
Theorem group_together p created p1 steps p2 outs :
  composed transceivers p → Forall (λ s, 0 ≤ s.1.2) steps →
  on_init transceivers created p = (p1, Ok ()) → play transceivers steps p1 = (p2, Ok outs) →
  ∃ K, tiles 0 (gp_point p2) K ∧ Forall (λ x, steps_of (log_of x) = K) (gp_instances p2).
Proof.
  intros Hp Hs Hi Hr. pose proof (composed_all p Hp) as Hall. destruct Hp as (_ & Hw & _ & Ht).
  destruct (wired_clocks _ Hw) as [H1 H2]. set (N := length (gp_instances p)) in *. set (CS := group_clocks (gp_instances p)) in *.
  pose proof (on_init_stands transceivers N CS H1 H2 created p Hall Ht p eq_refl) as Hst. rewrite Hi in Hst.
  pose proof (play_stands transceivers N CS H1 H2 [] steps Hs p1 Hst) as Hp. rewrite Hr in Hp.
  destruct Hp as (K & [_ Hg] & HK). exists K. split; [done|]. apply Forall_lookup_2. intros j x Hj.
  destruct (Hg j x Hj) as [(m & y & (co & -> & Hco) & _) _]. cbn. apply Hco.
Qed.
End theorems.

(** ** Event times *)

Section times.
Context (transceivers : list transceiver).

(** A Message that states an activation of a terminal at an instant. *)
Definition observed (i : Z) (m : message) : Prop :=
  ∃ n tr b payload, transceivers !! n = Some tr ∧ tr_observation tr = Some (m.1, b)
                    ∧ activation_message b payload i = Ok m.2.

Lemma route_observed t out st st' :
  foldE (route transceivers t) st out = Ok st' → Forall (observed t) st.1 → Forall (observed t) st'.1.
Proof.
  revert st. induction out as [|[n payload] out IH]; intros st; cbn [foldE]; [by intros [= <-]|].
  intros (st1 & Hr & Ho)%bind_Ok Hst. eapply IH; [exact Ho|]. unfold route in Hr. cbn [fst snd] in Hr.
  destruct (transceivers !! n) as [tr|] eqn:Hn; [|done]. apply bind_Ok in Hr as (pub & Hp & [= <-]). cbn.
  destruct (tr_observation tr) as [[ch b]|] eqn:Hb; [|by injection Hp as <-]. apply bind_Ok in Hp as (m & Hm & [= <-]).
  apply Forall_app. split; [done|]. constructor; [|constructor]. by exists n, tr, b, payload.
Qed.

Lemma any_triple {S A} (m : fmi S A) : triple (λ _, True) m (λ _ _, True) (λ _, True).
Proof. intros s _. by destruct (m s) as [s' [a|e]]. Qed.

Lemma settle_observed fuel t work published :
  Forall (observed t) published →
  triple (λ _, True) (settle_from transceivers fuel t work published) (λ out _, Forall (observed t) out) (λ _, True).
Proof.
  revert work published. induction fuel as [|fuel IH]; intros work published Hp; cbn [settle_from]; [by intros s _|].
  destruct (decide (work = [])).
  { eapply triple_bind; [apply any_triple|]. by intros [] s _. }
  eapply triple_bind; [apply any_triple|]. intros [i rest]. eapply triple_bind; [apply any_triple|]. intros out.
  eapply triple_seq with (Q := λ st _, Forall (observed t) st.1).
  - apply triple_lift. intros g _. destruct (foldE _ _ _) as [st|] eqn:Hr; [|done]. by eapply route_observed in Hr.
  - intros [pub work'] g Hpub. exists (λ _, True). split; [done|]. by apply IH.
Qed.

(** The instants a list of Messages states, in order and within an interval. *)
Definition dated (from to : Z) (ms : list message) : Prop :=
  ∃ ts, Forall2 observed ts ms ∧ Sorted Z.le ts ∧ Forall (λ i, from ≤ i ≤ to) ts.

Lemma dated_app a b c ms ms' : dated a b ms → Forall (observed c) ms' → a ≤ b → b ≤ c → dated a c (ms ++ ms').
Proof.
  intros (ts & Hi & Hs & Hr) Hm Hab Hbc. exists (ts ++ replicate (length ms') c). split_and!.
  - apply Forall2_app; [done|]. clear -Hm. induction Hm; cbn; by constructor.
  - apply Sorted_StronglySorted in Hs; [|intros ???; lia]. apply StronglySorted_Sorted. clear Hi.
    induction Hs as [|i ts Hs IH Hle]; cbn [app].
    + clear. induction ms'; cbn; constructor; auto. apply Forall_replicate. lia.
    + apply Forall_cons in Hr as [Hi' Hr]. constructor; [by apply IH|].
      apply Forall_app. split; [done|]. apply Forall_replicate. lia.
  - apply Forall_app. split; [|apply Forall_replicate; lia]. eapply Forall_impl; [exact Hr|]. intros i. cbn. lia.
Qed.

Lemma settle_at_observed t work :
  triple (λ _, True) (settle_at transceivers t work) (λ out _, Forall (observed t) out) (λ _, True).
Proof. unfold settle_at. destruct (decide (work = [])); [intros g _; constructor|]. by apply settle_observed. Qed.

Lemma advance_from_dated fuel t now end_ d published :
  t ≤ now ≤ end_ → Forall (λ k, k ≤ end_) d.*1 → dated t now published →
  triple (λ _, True) (advance_from transceivers fuel now end_ d published) (λ out _, dated t end_ out) (λ _, True).
Proof.
  revert now d published. induction fuel as [|fuel IH]; intros now d published Hn Hd Hp; cbn [advance_from];
    (destruct (Z.leb_spec end_ now); [intros g _; cbn; by replace end_ with now by lia|]); [by intros g _|].
  eapply triple_bind; [apply any_triple|]. intros g0.
  eapply triple_seq with (Q := λ b _, boundary g0 now end_ d = Ok b).
  { apply triple_lift. intros g _. by destruct (boundary _ _ _ _). }
  intros b g Hb. apply boundary_spec in Hb as (Hb & _ & _); [|lia|done]. exists (λ _, True). split; [done|].
  eapply triple_bind; [apply any_triple|]. intros []. eapply triple_bind; [apply any_triple|]. intros g1.
  eapply triple_bind; [apply any_triple|]. intros dues.
  eapply triple_seq; [apply settle_at_observed|]. intros out g2 Ho. exists (λ _, True). split; [done|]. apply IH.
  - lia.
  - apply Forall_forall. intros k ([k' ps] & -> & [_ Hin]%list_elem_of_filter)%list_elem_of_fmap.
    apply (list_elem_of_fmap_2 fst) in Hin. by apply (proj1 (Forall_forall _ _) Hd).
  - eapply dated_app; [exact Hp|done|lia|lia].
Qed.

Lemma advance_dated t dt inputs :
  0 ≤ dt → triple (λ _, True) (advance transceivers t dt inputs) (λ out _, dated t (t + dt) out) (λ _, True).
Proof.
  intros Hdt. unfold advance. eapply triple_seq with (Q := λ d _, injected transceivers inputs t (t + dt) = Ok d).
  { apply triple_lift. intros g _. by destruct (injected _ _ _ _). }
  intros d g Hd%injected_spec. exists (λ _, True). split; [done|].
  eapply triple_seq; [apply settle_at_observed|]. intros out g' Ho. exists (λ _, True). split; [done|]. apply advance_from_dated.
  - lia.
  - apply Forall_forall. intros k ([k' ps] & -> & [_ Hin]%list_elem_of_filter)%list_elem_of_fmap.
    by apply (proj1 (Forall_forall _ _) Hd) in Hin as [[_ ?] _].
  - change out with ([] ++ out). apply (dated_app t t t); [|done|lia|lia]. exists []. by repeat constructor.
Qed.
End times.

Section times_theorem.
Context (transceivers : list transceiver).

Lemma on_init_dated created p p1 :
  gp_point p = 0 → on_init transceivers created p = (p1, Ok ()) →
  Forall (observed transceivers 0) (gp_pending p1) ∧ gp_point p1 = 0.
Proof.
  intros Hp Hi.
  assert (triple (λ q, gp_point q = 0) (on_init transceivers created)
    (λ _ q, Forall (observed transceivers 0) (gp_pending q) ∧ gp_point q = 0) (λ _, True)) as Ht.
  { assert (∀ A (m : fmi (list instance) A) Q, triple (λ _, True) m (λ a _, Q a) (λ _, True) →
      triple (λ q, gp_point q = 0) (on_group m) (λ a q, gp_point q = 0 ∧ Q a) (λ _, True)) as Hg.
    { intros A m Q Hm q Hq. specialize (Hm (gp_instances q) I). unfold on_group. by destruct (m _) as [g [a|e]]. }
    unfold on_init. eapply triple_bind; [apply (triple_gets gp_instances)|]. intros g. apply triple_pull. intros q [Hq _].
    exists (λ q, gp_point q = 0). split; [done|].
    eapply triple_bind with (Q := λ _ q, gp_point q = 0).
    { eapply triple_conseq; [apply (Hg _ _ (λ _, True)), any_triple|done|by intros a z [? _]|done]. }
    intros []. eapply triple_bind; [apply (Hg _ _ (Forall (observed transceivers 0)))|].
    - unfold initialize_group. eapply triple_bind; [apply any_triple|]. intros g'. apply settle_at_observed.
    - intros ms. apply triple_update. by intros z [? ?]. }
  specialize (Ht p Hp). by rewrite Hi in Ht.
Qed.

Lemma on_step_dated t dt inputs p p' out :
  0 ≤ dt → Forall (observed transceivers (gp_point p)) (gp_pending p) →
  on_step transceivers t dt inputs p = (p', Ok out) → dated transceivers t (t + dt) out ∧ gp_pending p' = [] ∧ gp_point p' = t + dt.
Proof.
  intros Hdt Hpend. unfold on_step, mbind, fmi_bind, gets, lift, update. cbn.
  destruct (require_contiguous (gp_point p) t) as [u|e] eqn:Hc; [|done]. unfold on_group. cbn.
  pose proof (advance_dated transceivers t dt inputs Hdt (gp_instances p) I) as Ha.
  destruct (advance transceivers t dt inputs (gp_instances p)) as [g [ms|e]]; [|done].
  intros [= <- <-]. cbn. split; [|done]. unfold require_contiguous in Hc. apply raise_if_Ok, negb_false_iff, Z.eqb_eq in Hc.
  rewrite <- Hc in Hpend. destruct Ha as (ts & H1 & H2 & H3). exists (replicate (length (gp_pending p)) t ++ ts). split_and!.
  - apply Forall2_app; [|done]. clear -Hpend. induction Hpend; cbn; by constructor.
  - apply StronglySorted_Sorted. apply Sorted_StronglySorted in H2; [|intros ???; lia]. clear -H2 H3.
    induction (length (gp_pending p)) as [|k IH]; cbn; [done|]. constructor; [done|]. apply Forall_app.
    split; [apply Forall_replicate; lia|]. eapply Forall_impl; [exact H3|]. intros i. cbn. lia.
  - apply Forall_app. split; [apply Forall_replicate; lia|done].
Qed.

(** What a group publishes is dated and in order: each Message of a Step is
    the activation of a terminal that its Channel observes, and the instants they
    state lie within the Step and never go back; what initialization produced is
    published in the first Step and states virtual time zero. *)
Theorem group_times p created p1 steps p2 outs :
  gp_point p = 0 → Forall (λ s, 0 ≤ s.1.2) steps →
  on_init transceivers created p = (p1, Ok ()) → play transceivers steps p1 = (p2, Ok outs) →
  Forall2 (λ s out, dated transceivers s.1.1 (s.1.1 + s.1.2) out) steps outs.
Proof.
  intros Hp Hs Hi. apply on_init_dated in Hi as [Hpend Hpt]; [|done]. rewrite <- Hpt in Hpend. clear Hp Hpt.
  revert p1 outs Hpend. induction Hs as [|[[t dt] inputs] steps Hdt _ IH]; intros q outs Hpend; cbn [play].
  { intros [= _ <-]. constructor. }
  unfold mbind, fmi_bind. destruct (on_step transceivers t dt inputs q) as [q1 [out|e]] eqn:Ho; [|done].
  apply on_step_dated in Ho as (Hd & Hq & _); [|done|done].
  destruct (play transceivers steps q1) as [q2 [rest|e]] eqn:Hr; [|done]. intros [= -> <-].
  constructor; [done|]. eapply IH; [|done]. rewrite Hq. constructor.
Qed.
End times_theorem.

(** ** The witness *)

(** A node asks for an event at 3 ns and sends there; a bus simulation counts
    down 2 ns and hands the frame on. *)
Definition seen (c : call → bool) (log : list (call * answer)) : bool := existsb (λ ca, c ca.1) log.
Definition is_step (c : call) : bool := match c with DoStep _ _ => true | _ => false end.
Definition is_update (c : call) : bool := match c with UpdateDiscreteStates => true | _ => false end.
Definition is_read (c : call) : bool := match c with GetBinary _ => true | _ => false end.

Definition demo_node : behaviour := λ log c, Some
  match c with
  | UpdateDiscreteStates =>
      mk_answer 0 false [] [] 0 0 0 false false false false
        (if seen is_update log then None else Some 4479327984896590303)
  | GetClock _ => mk_answer 0 (seen is_step log && negb (seen is_read log)) [] [] 0 0 0 false false false false None
  | GetBinary _ => mk_answer 0 false [[Byte.x01]] [] 0 0 0 false false false false None
  | _ => an_ok
  end.

Fixpoint fed (log : list (call * answer)) (b : bool) : bool :=
  match log with
  | [] => b
  | (SetBinary _ _, _) :: log => fed log true
  | (GetIntervalFraction _, _) :: log => fed log false
  | _ :: log => fed log b
  end.
Definition demo_bus : behaviour := λ log c, Some
  match c with
  | GetIntervalFraction _ => mk_answer 0 false [] [] 2 1000000000 (if fed log false then 2 else 0) false false false false None
  | GetBinary _ => mk_answer 0 false [[Byte.x01]] [] 0 0 0 false false false false None
  | _ => an_ok
  end.

Definition demo_transceivers : list transceiver :=
  [mk_transceiver 0 (mk_clocked 11 12) 8 (Some 1%nat) (Some ("tx"%string, mk_binary_field "data" "size" 4 "time")) None;
   mk_transceiver 1 (mk_clocked 21 22) 8 (Some 0%nat) None None].
Definition demo_group : group_participant :=
  mk_group_participant
    [mk_instance "node" false None [(0%nat, mk_clocked 14 13)] [] false false None;
     mk_instance "bus" true None [] [(1%nat, mk_countdown 24 23 None None)] false false None] [] 0.
Definition demo_created : list (option behaviour * list start) := [(Some demo_node, []); (Some demo_bus, [])].
Definition demo_steps : list (Z * Z * list message) := [(0, 4, []); (4, 4, [])].

Definition demo_started := (on_init demo_transceivers demo_created demo_group).1.
Definition demo_played := (play demo_transceivers demo_steps demo_started).1.

Lemma demo_composed : composed demo_transceivers demo_group.
Proof.
  split; [|split; [|done]].
  - repeat constructor.
  - split; [repeat constructor; set_solver|]. intros [|[|n]] tr x; cbn; [| |done]; intros [= <-]; cbn; intros [= <-]; cbn; set_solver.
Qed.

Definition demo_run := run_group demo_transceivers demo_created demo_steps demo_group.

(** A Run that initializes, and one whose first FMU discards a start value. *)
Definition discards : behaviour := λ _ c, Some
  match c with SetValues _ _ _ => mk_answer 2 false [] [] 0 0 0 false false false false None | _ => an_ok end.
Definition demo_discarded := run_group demo_transceivers
  [(Some discards, [mk_start "gain" false 7 (SScalars "Float64" [PInt 1])]); (Some demo_bus, [])] demo_steps demo_group.

Lemma group_conforms_witness :
  Forall (λ x, is_Some (observe (clocks_of x) (log_of x))) (gp_instances (close_group demo_run.1).1)
  ∧ (λ x, length (log_of x)) <$> gp_instances (close_group demo_run.1).1 = [25; 23]%nat
  ∧ Forall (λ x, driven (clocks_of x) (log_of x)) (gp_instances (close_group demo_discarded.1).1)
  ∧ (λ x, (log_of x).*1) <$> gp_instances (close_group demo_discarded.1).1
    = [[SetValues "Float64" [7] [PInt 1]; Terminate; FreeInstance]; []].
Proof.
  split_and!; [|vm_compute; reflexivity| |vm_compute; reflexivity].
  - exact (proj2 (group_conforms demo_transceivers demo_group demo_created demo_steps demo_run.1 demo_run.2
      (close_group demo_run.1).1 (close_group demo_run.1).2 demo_composed ltac:(repeat constructor; done)
      (surjective_pairing _) (surjective_pairing _)) ltac:(vm_compute; reflexivity)).
  - exact (proj1 (group_conforms demo_transceivers demo_group _ demo_steps demo_discarded.1 demo_discarded.2
      (close_group demo_discarded.1).1 (close_group demo_discarded.1).2 demo_composed ltac:(repeat constructor; done)
      (surjective_pairing _) (surjective_pairing _))).
Defined.

Definition demo_outs : list (list message) :=
  [[("tx"%string, [("data"%string, VBytes [Byte.x01; Byte.x00; Byte.x00; Byte.x00]); ("size"%string, VNum (PInt 1));
                   ("time"%string, VNum (PInt 3))])]; []].

Lemma group_together_witness :
  ∃ K, tiles 0 (gp_point demo_played) K ∧ Forall (λ x, steps_of (log_of x) = K) (gp_instances demo_played).
Proof.
  exact (group_together demo_transceivers demo_group demo_created demo_started demo_steps demo_played demo_outs
    demo_composed ltac:(repeat constructor; done) ltac:(vm_compute; reflexivity) ltac:(vm_compute; reflexivity)).
Defined.

Lemma group_times_witness :
  Forall2 (λ s out, dated demo_transceivers s.1.1 (s.1.1 + s.1.2) out) demo_steps demo_outs.
Proof.
  exact (group_times demo_transceivers demo_group demo_created demo_started demo_steps demo_played demo_outs
    eq_refl ltac:(repeat constructor; done) ltac:(vm_compute; reflexivity) ltac:(vm_compute; reflexivity)).
Defined.

(** ** The bound on one instant *)

Section bound.
Context (transceivers : list transceiver).

(** Operations keep which instances are bus simulations. *)
Definition keeps {A} (m : fmi instance A) : Prop := ∀ x, in_bus (m x).1 = in_bus x.

Lemma keeps_bind {A B} (m : fmi instance A) (k : A → fmi instance B) : keeps m → (∀ a, keeps (k a)) → keeps (m ≫= k).
Proof.
  intros Hm Hk x. unfold mbind, fmi_bind. specialize (Hm x). destruct (m x) as [x' [a|e]]; cbn in *; [|done].
  rewrite Hk. done.
Qed.

Lemma keeps_lift {A} (f : instance → result fmi_failure A) : keeps (λ x, (x, f x)).
Proof. done. Qed.

Lemma keeps_with_fmu {A} (m : fmi cosim A) : keeps (with_fmu m).
Proof. intros x. unfold with_fmu. destruct (in_fmu x) as [co|]; [|done]. by destruct (m co) as [co' r]. Qed.

Lemma keeps_each {A} (f : A → fmi instance ()) l : (∀ a, keeps (f a)) → keeps (each f l).
Proof. intros Hf. induction l as [|a l IH]; [done|]. cbn. by apply keeps_bind. Qed.

Lemma keeps_gather {A B} (f : A → fmi instance (list B)) l : (∀ a, keeps (f a)) → keeps (gather_each f l).
Proof. intros Hf. induction l as [|a l IH]; [done|]. cbn. apply keeps_bind; [done|]. intros ys. by apply keeps_bind. Qed.

Lemma keeps_enter : keeps enter_event.
Proof.
  apply keeps_bind; [apply (keeps_lift (λ x, Ok (in_in_event x)))|]. intros []; [done|].
  apply keeps_bind; [apply keeps_with_fmu|]. by intros ?.
Qed.

Lemma keeps_activations : keeps activations.
Proof.
  apply keeps_bind; [done|]. intros bs. apply keeps_gather. intros b. apply keeps_bind; [apply keeps_with_fmu|]. by intros ?.
Qed.

Lemma keeps_event t n produced : keeps (event_from (with_fmu update_discrete_states) activations t n produced).
Proof.
  revert produced. induction n as [|n IH]; intros produced; [done|]. cbn [event_from].
  apply keeps_bind; [apply keeps_activations|]. intros before. apply keeps_bind; [apply keeps_with_fmu|]. intros st.
  apply keeps_bind; [by destruct (ds_terminate st)|]. intros ?. destruct (ds_need_update st); [apply IH|].
  apply keeps_bind; [apply keeps_activations|]. by intros ?.
Qed.

Lemma keeps_handle t : keeps (handle t).
Proof.
  apply keeps_bind; [apply keeps_enter|]. intros ?. apply keeps_bind; [done|]. intros ?. apply keeps_bind; [done|]. intros dues.
  apply keeps_bind; [destruct (decide _); [done|apply keeps_with_fmu]|]. intros ?. apply keeps_bind.
  { apply keeps_gather. intros [j [tr b]]. apply keeps_bind; [done|]. intros ?. apply keeps_bind; [apply keeps_with_fmu|].
    intros bs. by apply keeps_bind. }
  intros taken. apply keeps_bind; [apply keeps_event|]. intros [collected st]. apply keeps_bind; [done|]. intros ?.
  apply keeps_bind; [done|]. intros bs. apply keeps_bind; [|done]. apply keeps_each. intros [j [tr b]].
  apply keeps_bind; [apply keeps_with_fmu|]. by intros b'.
Qed.

Lemma keeps_hand n payload : keeps (hand transceivers n payload).
Proof.
  unfold hand. destruct (transceivers !! n) as [tr|]; [|done]. apply keeps_bind; [by destruct (_ <? _)|]. intros ?.
  apply keeps_bind; [apply keeps_enter|]. intros ?. apply keeps_with_fmu.
Qed.

Lemma keeps_on_instance {A} i (m : fmi instance A) g : keeps m → ∀ j, is_bus (on_instance i m g).1 j = is_bus g j.
Proof.
  intros Hm j. unfold on_instance, is_bus. destruct (g !! i) as [x|] eqn:Hi; [|done].
  specialize (Hm x). destruct (m x) as [x' r]. cbn in *. destruct (decide (j = i)) as [->|Hj].
  - rewrite list_lookup_insert_eq by (by eapply lookup_lt_Some). by rewrite Hi.
  - by rewrite list_lookup_insert_ne.
Qed.

Lemma pick_first bus work : Forall (λ p, bus (pd_instance p) = false) work → pick bus work = match work with [] => None | p :: work => Some (p, work) end.
Proof. destruct 1 as [|p work Hp]; [done|]. cbn. by rewrite Hp. Qed.

(** Work for instances that are no bus simulations is done one at a time. *)
Lemma settle_from_overrun fuel t work published g :
  (∀ j, is_bus g j = false) → (fuel ≤ length work)%nat →
  match (settle_from transceivers fuel t work published g).2 with Ok _ => False | Err _ => True end.
Proof.
  revert work published g. induction fuel as [|fuel IH]; intros work published g Hg Hl; [done|]. cbn [settle_from].
  destruct work as [|p work]; [cbn in Hl; lia|]. rewrite decide_False by done.
  unfold deliver_same_instant, gets, mbind, fmi_bind. cbn [id].
  rewrite pick_first by (by apply Forall_forall).
  set (h := match pd_delivery p with Some (n, payload) => on_instance (pd_instance p) (hand transceivers n payload) | None => mret () end).
  assert (∀ j, is_bus (h g).1 j = is_bus g j) as Hh.
  { unfold h. destruct (pd_delivery p) as [[n payload]|]; [|done]. apply keeps_on_instance, keeps_hand. }
  destruct (h g) as [g1 [u|e]]; [|done]. cbn [fst mret fmi_ret] in *.
  pose proof (keeps_on_instance (pd_instance p) (handle t) g1 (keeps_handle t)) as Hg2.
  destruct (on_instance (pd_instance p) (handle t) g1) as [g2 [out|e]]; [|done]. cbn [fst] in Hg2. unfold lift.
  destruct (foldE (route transceivers t) (published, work) out) as [[pub work']|e] eqn:Hr; [|done].
  apply IH; [intros j; by rewrite Hg2, Hh|].
  assert (length work ≤ length work')%nat; [|cbn in Hl; lia].
  clear -Hr. revert published work Hr. induction out as [|np out IH]; intros published work; cbn [foldE]; [by intros [= <- <-]|].
  intros ([pub1 work1] & H1 & H2)%bind_Ok. apply IH in H2. unfold route in H1. destruct (transceivers !! np.1) as [tr|]; [|done].
  apply bind_Ok in H1 as (pub2 & _ & [= <- <-]). destruct (tr_peer tr ≫= _) as [[q qt]|]; [|done].
  cbn in H2. rewrite length_app in H2. cbn in H2. lia.
Qed.

(** A group of a hundred FMUs or more that holds no bus simulation never
    initializes, whatever the FMUs answer: the bound that stops FMUs from handing
    each other activations counts the event of each instance too. *)
Theorem large_groups_fail created p :
  (100 ≤ length (gp_instances p))%nat → Forall (λ x, in_bus x = false) (gp_instances p) →
  match (on_init transceivers created p).2 with Ok _ => False | Err _ => True end.
Proof.
  intros Hlen Hbus. unfold on_init, on_group, initialize_group, mbind, fmi_bind, gets. cbn [id].
  assert (∀ l g, (∀ j, is_bus g j = false) →
    (∀ j, is_bus (each (λ i, on_instance i (start_instance created i)) l g).1 j = false)
    ∧ length (each (λ i, on_instance i (start_instance created i)) l g).1 = length g) as Hstart.
  { intros l. induction l as [|i l IH]; intros g Hg; [done|]. cbn [each]. unfold mbind, fmi_bind.
    assert (keeps (start_instance created i)) as Hk.
    { unfold start_instance. destruct (created !! i) as [[[b|] starts]|]; [|done..]. unfold instantiate.
      apply keeps_bind; [done|]. intros ?. apply keeps_bind; [apply keeps_with_fmu|]. intros ?.
      apply keeps_bind; [apply keeps_with_fmu|]. by intros ?. }
    pose proof (keeps_on_instance i _ g Hk) as Hb.
    assert (length (on_instance i (start_instance created i) g).1 = length g) as Hl.
    { unfold on_instance. destruct (g !! i) as [x|]; [|done]. destruct (start_instance created i x) as [x' r]. cbn. by rewrite length_insert. }
    destruct (on_instance i (start_instance created i) g) as [g' [u|e]]; cbn [fst] in *; [|split; [intros j; by rewrite Hb|done]].
    destruct (IH g') as [H1 H2]; [intros j; by rewrite Hb|]. by rewrite H2. }
  destruct (Hstart (seq 0 (length (gp_instances p))) (gp_instances p)) as [H1 H2].
  { intros j. unfold is_bus. destruct (gp_instances p !! j) as [x|] eqn:Hj; [|done]. by eapply Forall_lookup_1 in Hbus. }
  destruct (each _ _ (gp_instances p)) as [g [u|e]]; cbn [fst gp_instances] in *; [|done]. unfold settle_at.
  rewrite decide_False by (destruct (length g) eqn:E; [lia|done]).
  pose proof (settle_from_overrun MAX_PROPAGATIONS 0 ((λ i, mk_pending i None) <$> seq 0 (length g)) [] g H1) as Ho.
  rewrite length_fmap, length_seq, H2 in Ho. specialize (Ho Hlen). rewrite H2 in *.
  by destruct (settle_from _ _ _ _ _ _) as [g' [ms|e]].
Qed.
End bound.
