(* ===== verification/FmuSingle.v ===== *)
(** * One FMU on the kernel's Slots

    Models [fmi/single.py] and the bindings of [fmi/binding.py] for an FMI 3.0
    FMU: the Channels whose fields are written before and read after a Step
    ([binding]), those whose Messages are activations of a Clock ([events]), and
    the participant that is stepped over exactly the interval of each Step
    ([on_step_single]). The documents the bindings are resolved from are in
    FmuMapping.v, and FMI 2.0 in FmuRuntime2.v.

    [single_conforms] shows that a clocked FMU is driven as the contract of
    FmuGroupProofs.v says. *)

From Stdlib Require Import ZArith Lia.
From S2P Require Import Prelude PyFloat SchemaTypes Schema FmuRuntime FmuGroup FmuGroupProofs FmuGroupRun.

(** ** Bindings *)

(** [ScalarGroup]: the fields of one type, and how many values each spans. *)
Record scalar_group := mk_scalar_group {
  sg_kind : string;
  sg_refs : list Z;
  sg_fields : list (string * option Z);
}.
Inductive group := GScalar (g : scalar_group) | GBinary (bound : list (Z * binary_field)).
Abbreviation binding := (list group).

Definition sg_count (g : scalar_group) : Z := foldl (λ n f, n + default 1 f.2) 0 (sg_fields g).

(** What a C [bool] holds of a number. *)
Definition native (kind : string) (n : pynum) : pynum :=
  if String.eqb kind "Boolean" then PInt (if num_eq n (PInt 0) then 0 else 1) else n.

Definition field_values (fields : values) (f : string * option Z) : result fmi_failure (list pynum) :=
  match dget fields f.1, f.2 with
  | Some (VNum n), None => Ok [n]
  | Some (VList l), Some _ => Ok l
  | Some (VBytes bs), Some _ => Ok ((λ b, PInt (Z_of_byte b)) <$> bs)
  | _, _ => Err FKey
  end.

(** [ScalarGroup.write] and [ScalarBuffer.write]. *)
Definition write_scalars (g : scalar_group) (fields : values) : fmi cosim () :=
  vs ← lift (mapE (field_values fields) (sg_fields g));
  let vs := concat vs in
  reraise (FChannel false)
    (_ ← throw_if (negb (zlen vs =? sg_count g)) (FValueCount (zlen vs) (sg_count g));
     call_ (SetValues (sg_kind g) (sg_refs g) (native (sg_kind g) <$> vs))).

(** [ScalarGroup.read]: the values of the call are dealt out to the fields. *)
Fixpoint deal (fs : list (string * option Z)) (vs : list pynum) (into : values) : values :=
  match fs with
  | [] => into
  | (name, None) :: fs => deal fs (drop 1 vs) (dset into name (VNum (default (PInt 0) (head vs))))
  | (name, Some n) :: fs => deal fs (drop (Z.to_nat n) vs) (dset into name (VList (take (Z.to_nat n) vs)))
  end.
Definition read_scalars (g : scalar_group) (into : values) : fmi cosim values :=
  a ← reraise (FChannel true) (call_fmu (GetValues (sg_kind g) (sg_refs g) (sg_count g)));
  mret (deal (sg_fields g) (an_values a) into).

(** [BinaryGroup]. *)
Definition write_binaries (bound : list (Z * binary_field)) (fields : values) : fmi cosim () :=
  payloads ← lift (mapE (λ rb, outgoing_payload rb.2 fields) bound);
  call_ (SetBinary bound.*1 payloads).
Definition read_binaries (bound : list (Z * binary_field)) (into : values) : fmi cosim values :=
  a ← call_fmu (GetBinary bound.*1);
  lift (foldE (λ into bp, fields ← incoming_payload bp.1 bp.2; Ok (foldl (λ d kv, dset d kv.1 kv.2) into fields))
          into (zip bound.*2 (an_binary a))).

(** [ChannelBinding]. *)
Definition write_group (fields : values) (g : group) : fmi cosim () :=
  match g with
  | GScalar g => write_scalars g fields
  | GBinary bound => write_binaries bound fields
  end.
Definition write_binding (b : binding) (fields : values) : fmi cosim () := each (write_group fields) b.

Definition read_group (g : group) (into : values) : fmi cosim values :=
  match g with
  | GScalar g => read_scalars g into
  | GBinary bound => read_binaries bound into
  end.
Fixpoint read_binding_from (b : binding) (into : values) : fmi cosim values :=
  match b with
  | [] => mret into
  | g :: b => into ← read_group g into; read_binding_from b into
  end.
Definition read_binding (b : binding) : fmi cosim values := read_binding_from b [].

(** ** The participant *)

(** [_Events]: the Clocks of each direction, by Channel. *)
Record events := mk_events {
  ev_outputs : list (string * (clocked * binary_field));
  ev_inputs : list (string * (clocked * binary_field));
}.

(** [FmuParticipant], with [_Events.next_event_time]. *)
Record single := mk_single {
  sn_fmu : option cosim;
  sn_inputs : list (string * binding);
  sn_outputs : list (string * binding);
  sn_events : option events;
  sn_next : option Z;
  sn_pending : list message;
  sn_point : Z;
}.

Definition sset_fmu (co : cosim) (x : single) : single :=
  mk_single (Some co) (sn_inputs x) (sn_outputs x) (sn_events x) (sn_next x) (sn_pending x) (sn_point x).
Definition sset_next (n : option Z) (x : single) : single :=
  mk_single (sn_fmu x) (sn_inputs x) (sn_outputs x) (sn_events x) n (sn_pending x) (sn_point x).
Definition sset_pending (ms : list message) (x : single) : single :=
  mk_single (sn_fmu x) (sn_inputs x) (sn_outputs x) (sn_events x) (sn_next x) ms (sn_point x).
Definition sset_point (t : Z) (x : single) : single :=
  mk_single (sn_fmu x) (sn_inputs x) (sn_outputs x) (sn_events x) (sn_next x) (sn_pending x) t.

Definition on_fmu {A} (m : fmi cosim A) : fmi single A := λ x,
  match sn_fmu x with
  | Some co => let '(co', r) := m co in (sset_fmu co' x, r)
  | None => (x, Err FNoInstance)
  end.

(** [_Events._activations]. *)
Definition read_activation (t : Z) (o : string * (clocked * binary_field)) : fmi single (list message) :=
  payload ← on_fmu (read_clocked o.2.1);
  match payload with
  | None => mret []
  | Some bs => m ← lift (activation_message o.2.2 bs t); mret [(o.1, m)]
  end.

(** [_Events.handle]. *)
Definition handle_event (e : events) (t : Z) : fmi single (list message) :=
  '(published, states) ← run_event (on_fmu update_discrete_states) (gather_each (read_activation t) (ev_outputs e)) t;
  _ ← update (sset_next (ds_next_event_time states));
  mret published.

(** [_Events.deliver]. *)
Definition deliver_message (e : events) (t : Z) (m : message) : fmi single (list message) :=
  match dget (ev_inputs e) m.1 with
  | None => throw FKey
  | Some (b, f) =>
      payload ← lift (outgoing_payload f m.2);
      _ ← on_fmu (deliver_clocked b payload);
      handle_event e t
  end.

(** [require_next_event_reachable]. *)
Definition require_next_event_reachable (t dt : Z) (next : option Z) : result fmi_failure () :=
  match next with
  | None => Ok ()
  | Some _ => d ← declared_ns next;
              match d with Some d => raise_if (d <? t + dt) (FStepPast d t dt) | None => Ok () end
  end.

(** [due]. *)
Definition event_due (t : Z) (next : option Z) : result fmi_failure bool :=
  d ← declared_ns next; Ok (bool_decide (d = Some t)).

(** [_deliver]. *)
Definition deliver_events (e : events) (messages : list message) (t : Z) : fmi single (list message) :=
  if decide (messages = []) then mret []
  else
    _ ← on_fmu enter_event_mode;
    published ← gather_each (deliver_message e t) messages;
    _ ← on_fmu enter_step_mode;
    mret published.

Definition write_input (m : message) : fmi single () :=
  inputs ← gets sn_inputs;
  match dget inputs m.1 with
  | Some b => on_fmu (write_binding b m.2)
  | None => throw FKey
  end.
Definition read_output (o : string * binding) : fmi single (list message) :=
  fields ← on_fmu (read_binding o.2); mret [(o.1, fields)].

(** The end of a Step of a clocked FMU: any event, and back to Step Mode. *)
Definition take_event (e : events) (needed : bool) (t : Z) : fmi single (list message) :=
  next ← gets sn_next;
  is_due ← (if needed then mret true else lift (event_due t next));
  if (is_due : bool) then
    _ ← on_fmu enter_event_mode;
    published ← handle_event e t;
    _ ← on_fmu enter_step_mode;
    mret published
  else mret [].

(** [_step]. *)
Definition step_single (t dt : Z) (inputs : list message) : fmi single (list message) :=
  _ ← each write_input inputs;
  ev ← gets sn_events;
  next ← gets sn_next;
  _ ← (match ev with Some _ => lift (require_next_event_reachable t dt next) | None => mret () end);
  needed ← on_fmu (do_step t dt);
  published ← (match (ev : option events) with
               | None => _ ← throw_if needed (FEventUnhandled (t + dt)); mret []
               | Some e => take_event e needed (t + dt)
               end);
  outputs ← gets sn_outputs;
  out ← gather_each read_output outputs;
  mret ((published : list message) ++ out).

(** [on_init], from the bindings that were resolved. *)
Definition on_init_single (created : option behaviour) (starts : list start) : fmi single () :=
  match created with
  | None => throw FNoInstance
  | Some b =>
      _ ← update (sset_fmu (mk_cosim b [] false true));
      _ ← on_fmu (apply_start_values starts);
      _ ← on_fmu initialize;
      ev ← gets sn_events;
      match (ev : option events) with
      | None => mret ()
      | Some e =>
          published ← handle_event e 0;
          _ ← update (sset_pending published);
          on_fmu enter_step_mode
      end
  end.

(** [on_step]. *)
Definition on_step_single (t dt : Z) (inputs : list message) : fmi single (list message) :=
  ev ← gets sn_events;
  match (ev : option events) with
  | None => step_single t dt inputs
  | Some e =>
      standing ← gets sn_point;
      _ ← lift (require_contiguous standing t);
      published ← gets sn_pending;
      _ ← update (sset_pending []);
      let events := filter (λ m, m.1 ∈ (ev_inputs e).*1) inputs in
      let plain := filter (λ m, m.1 ∉ (ev_inputs e).*1) inputs in
      delivered ← deliver_events e events t;
      out ← step_single t dt plain;
      _ ← update (sset_point (t + dt));
      mret ((published : list message) ++ delivered ++ out)
  end.

(** [close]. *)
Definition close_single : fmi single () := λ x,
  match sn_fmu x with
  | Some co => let '(co', r) := close co in (sset_fmu co' x, r)
  | None => (x, Ok ())
  end.

(** ** Conformance *)

Definition sinst (L : list (Z * Z)) (m : monitor) (y x : single) : Prop := ∃ co, x = sset_fmu co y ∧ good [] L m co.
Definition sdead (x : single) : Prop := ∃ co y, x = sset_fmu co y ∧ broken [] co.

(** The FMU stands at [t] in the mode [s], and the participant at [p]. *)
Definition stracks (e : events) (L : list (Z * Z)) (t : Z) (s : stage) (p : Z) (x : single) : Prop :=
  ∃ m y, sinst L m y x ∧ mo_stage m = s ∧ mo_now m = t ∧ mo_next m = sn_next y ∧ sn_events y = Some e ∧ sn_point y = p.

Lemma stracks_dead e L t s p x : stracks e L t s p x → running s = true → sdead x.
Proof. intros (m & y & (co & -> & Hco) & <- & _) Hr. exists co, y. split; [done|]. by eapply good_broken. Qed.

(** Calls that leave the mode, or change it and nothing else. *)
Lemma on_fmu_stracks {A} (prog : fmi cosim A) e L t s s' p :
  (∀ m, mo_stage m = s → triple (good [] L m) prog (λ _, good [] L (mk_monitor s' (mo_now m) (mo_next m) (mo_clocks m))) (broken [])) →
  triple (stracks e L t s p) (on_fmu prog) (λ _, stracks e L t s' p) sdead.
Proof.
  intros Hp x (m & y & (co & -> & Hco) & Hs & Ht & Hn & He & Hpt). unfold on_fmu. cbn. specialize (Hp m Hs co Hco).
  destruct (prog co) as [co' [a|er]]; [|by exists co', y]. eexists _, y. split_and!; [by exists co'|done..].
Qed.

Lemma monitor_eta m s : mo_stage m = s → mk_monitor s (mo_now m) (mo_next m) (mo_clocks m) = m.
Proof. destruct m; cbn. by intros ->. Qed.

Lemma keep_stage {A} (prog : fmi cosim A) L m s :
  mo_stage m = s → triple (good [] L m) prog (λ _, good [] L m) (broken []) →
  triple (good [] L m) prog (λ _, good [] L (mk_monitor s (mo_now m) (mo_next m) (mo_clocks m))) (broken []).
Proof. intros Hs. by rewrite (monitor_eta m s Hs). Qed.

Definition step_plain (c : call) : bool :=
  match c with SetValues _ _ _ | GetValues _ _ _ | SetBinary _ _ | GetBinary _ => true | _ => false end.

Lemma step_call L m c :
  mo_stage m = StepMode false → step_plain c = true → triple (good [] L m) (call_fmu c) (λ _, good [] L m) (broken []).
Proof.
  intros Hm Hc. eapply triple_conseq.
  - apply (call_good [] L m c (StepMode false)); [by rewrite Hm|rewrite Hm; by destruct c|by destruct c..].
  - done.
  - intros a co Hco. rewrite <- (monitor_eta m _ Hm). destruct c; try done; cbn in Hco; by rewrite app_nil_r in Hco.
  - done.
Qed.

Lemma lift_good {A} L m (r : result fmi_failure A) :
  running (mo_stage m) = true → triple (good [] L m) (lift r) (λ _, good [] L m) (broken []).
Proof. intros Hr. apply triple_lift. intros co Hco. destruct r; [done|]. by eapply good_broken. Qed.

Lemma write_group_good L m fields g :
  mo_stage m = StepMode false → triple (good [] L m) (write_group fields g) (λ _, good [] L m) (broken []).
Proof.
  intros Hm. assert (running (mo_stage m) = true) as Hr by by rewrite Hm. destruct g as [g|bound]; cbn [write_group].
  - unfold write_scalars. eapply triple_bind; [by apply lift_good|]. intros vs. apply reraise_triple.
    eapply triple_bind with (Q := λ _, good [] L m).
    { apply triple_throw_if; [|done]. intros co Hco _. by eapply good_broken. }
    intros _. unfold call_. eapply triple_bind; [by apply step_call|]. by intros a co Hco.
  - unfold write_binaries. eapply triple_bind; [by apply lift_good|]. intros ps. unfold call_.
    eapply triple_bind; [by apply step_call|]. by intros a co Hco.
Qed.

Lemma read_group_good L m g into :
  mo_stage m = StepMode false → triple (good [] L m) (read_group g into) (λ _, good [] L m) (broken []).
Proof.
  intros Hm. assert (running (mo_stage m) = true) as Hr by by rewrite Hm. destruct g as [g|bound]; cbn [read_group].
  - unfold read_scalars. eapply triple_bind; [by apply reraise_triple, step_call|]. by intros a co Hco.
  - unfold read_binaries. eapply triple_bind; [by apply step_call|]. intros a. by apply lift_good.
Qed.

Lemma read_binding_good L m b into :
  mo_stage m = StepMode false → triple (good [] L m) (read_binding_from b into) (λ _, good [] L m) (broken []).
Proof.
  intros Hm. revert into. induction b as [|g b IH]; intros into; [by intros co Hco|]. cbn [read_binding_from].
  eapply triple_bind; [by apply read_group_good|]. intros into'. apply IH.
Qed.

Lemma enter_event_stracks e L t p b :
  triple (stracks e L t (StepMode b) p) (on_fmu enter_event_mode) (λ _, stracks e L t EventMode p) sdead.
Proof.
  apply on_fmu_stracks. intros m Hm. unfold enter_event_mode, call_.
  eapply triple_bind; [by apply (call_good [] L m EnterEventMode EventMode); rewrite ?Hm; destruct b|].
  intros a co Hco. rewrite app_nil_r in Hco. exact Hco.
Qed.

Lemma enter_step_stracks e L t p :
  triple (stracks e L t EventMode p) (on_fmu enter_step_mode) (λ _, stracks e L t (StepMode false) p) sdead.
Proof.
  apply on_fmu_stracks. intros m Hm. unfold enter_step_mode, call_.
  eapply triple_bind; [by apply (call_good [] L m EnterStepMode (StepMode false)); rewrite ?Hm|].
  intros a co Hco. rewrite app_nil_r in Hco. exact Hco.
Qed.

Lemma lift_stracks {A} e L t s p (r : result fmi_failure A) :
  running s = true → triple (stracks e L t s p) (lift r) (λ a x, stracks e L t s p x ∧ r = Ok a) sdead.
Proof. intros Hr. apply triple_lift. intros x Hx. destruct r; [done|]. by eapply stracks_dead. Qed.

Lemma gather_stracks {A B} (f : A → fmi single (list B)) l e L t s p :
  (∀ a, triple (stracks e L t s p) (f a) (λ _, stracks e L t s p) sdead) →
  triple (stracks e L t s p) (gather_each f l) (λ _, stracks e L t s p) sdead.
Proof.
  intros Hf. eapply triple_conseq; [apply (triple_gather f l (stracks e L t s p) (λ _, True))|done|by intros a x [Hx _]|done].
  intros a. eapply triple_conseq; [apply Hf|done| |done]. intros ys x Hx. split; [done|]. by apply Forall_forall.
Qed.

Lemma on_fmu_inst {A} (prog : fmi cosim A) L m y (Q : A → cosim → Prop) :
  triple (good [] L m) prog Q (broken []) →
  triple (sinst L m y) (on_fmu prog) (λ a x, ∃ co, x = sset_fmu co y ∧ Q a co) sdead.
Proof.
  intros Hp x (co & -> & Hco). unfold on_fmu. cbn. specialize (Hp co Hco).
  destruct (prog co) as [co' [a|er]]; [by exists co'|by exists co', y].
Qed.

Lemma sinst_dead L m y x : sinst L m y x → running (mo_stage m) = true → sdead x.
Proof. intros (co & -> & Hco) Hr. exists co, y. split; [done|]. by eapply good_broken. Qed.

Lemma collect_sinst L m y t outputs :
  mo_stage m = EventMode →
  triple (sinst L m y) (gather_each (read_activation t) outputs) (λ _, sinst L m y) sdead.
Proof.
  intros Hm. eapply triple_conseq; [apply (triple_gather _ outputs (sinst L m y) (λ _, True))|done|by intros a x [Hx _]|done].
  intros o. unfold read_activation. eapply triple_bind with (Q := λ _, sinst L m y).
  { eapply triple_conseq; [by apply on_fmu_inst, read_clocked_good|done| |done]. intros a x (co & -> & Hco). by exists co. }
  intros [bs|]; [|intros x Hx; by split]. eapply triple_bind with (Q := λ _, sinst L m y).
  { apply triple_lift. intros x Hx. destruct (activation_message _ _ _); [done|]. eapply sinst_dead; [done|by rewrite Hm]. }
  intros msg x Hx. split; [done|]. by repeat constructor.
Qed.

Lemma single_event_loop L y t e n m produced :
  mo_stage m = EventMode →
  triple (sinst L m y)
    (event_from (on_fmu update_discrete_states) (gather_each (read_activation t) (ev_outputs e)) t n produced)
    (λ r, sinst L (with_next (ds_next_event_time r.2) m) y) sdead.
Proof.
  intros Hm. revert m Hm produced. induction n as [|n IH]; intros m Hm produced; cbn [event_from].
  { apply triple_throw. intros x Hx. eapply sinst_dead; [done|by rewrite Hm]. }
  eapply triple_bind; [by apply collect_sinst|]. intros before.
  eapply triple_bind with (Q := λ st, sinst L (with_next (ds_next_event_time st) m) y).
  { eapply triple_conseq; [apply (on_fmu_inst _ L m y (λ st, good [] L (with_next (ds_next_event_time st) m)))|done| |done].
    - unfold update_discrete_states. eapply triple_bind; [apply event_call; [done|by left]|]. intros a co Hco. cbn.
      unfold effect in Hco. rewrite <- Hm in Hco. exact Hco.
    - intros st x (co & -> & Hco). by exists co. }
  intros st. eapply triple_bind with (Q := λ _, sinst L (with_next (ds_next_event_time st) m) y).
  { apply triple_throw_if; [|done]. intros x Hx _. eapply sinst_dead; [done|by cbn; rewrite Hm]. }
  intros _. destruct (ds_need_update st); [by apply (IH (with_next _ m))|].
  eapply triple_bind; [by apply collect_sinst|]. intros after x Hx. exact Hx.
Qed.

Lemma handle_event_stracks e L t p :
  triple (stracks e L t EventMode p) (handle_event e t) (λ _, stracks e L t EventMode p) sdead.
Proof.
  apply triple_pull. intros x (m & y & Hx & Hm & Ht & Hn & He & Hp). exists (sinst L m y). split; [exact Hx|].
  unfold handle_event. eapply triple_bind; [by apply single_event_loop|]. intros [published st]. cbn [snd].
  eapply triple_bind with (Q := λ _, stracks e L t EventMode p); [|by intros ? z Hz].
  apply triple_update. intros z (co & -> & Hco). exists (with_next (ds_next_event_time st) m), (sset_next (ds_next_event_time st) y).
  split_and!; try done. by exists co.
Qed.

Lemma deliver_message_stracks e L t p msg :
  triple (stracks e L t EventMode p) (deliver_message e t msg) (λ _, stracks e L t EventMode p) sdead.
Proof.
  unfold deliver_message. destruct (dget (ev_inputs e) msg.1) as [[b f]|]; cycle 1.
  { apply triple_throw. intros x Hx. by eapply stracks_dead. }
  eapply triple_bind with (Q := λ _, stracks e L t EventMode p).
  { eapply triple_conseq; [by apply (lift_stracks e L t EventMode p)|done|by intros a x [Hx _]|done]. }
  intros payload. eapply triple_bind with (Q := λ _, stracks e L t EventMode p); [|intros _; apply handle_event_stracks].
  apply triple_pull. intros x (m & y & Hx & Hm & Ht & Hn & He & Hp). exists (sinst L m y). split; [exact Hx|].
  set (m' := effect [] m EventMode (SetClock [kb_clock b]) an_ok).
  eapply triple_conseq; [apply (on_fmu_inst _ L m y (λ _, good [] L m'))|done| |done].
  - unfold deliver_clocked, call_. eapply triple_bind with (Q := λ _, good [] L m').
    { eapply triple_bind; [apply event_call; [done|right; left; by eexists]|]. by intros a co Hco. }
    intros _. eapply triple_bind; [by apply (plain_call [] L m')|]. by intros a co Hco.
  - intros _ z (co & -> & Hco). exists m', y. split_and!; try done. by exists co.
Qed.

Lemma deliver_events_stracks e L t p ms :
  triple (stracks e L t (StepMode false) p) (deliver_events e ms t) (λ _, stracks e L t (StepMode false) p) sdead.
Proof.
  unfold deliver_events. destruct (decide (ms = [])); [by intros x Hx|].
  eapply triple_bind; [apply enter_event_stracks|]. intros [].
  eapply triple_bind; [apply gather_stracks, deliver_message_stracks|]. intros out.
  eapply triple_bind; [apply enter_step_stracks|]. by intros [] x Hx.
Qed.

Lemma write_input_stracks e L t p msg :
  triple (stracks e L t (StepMode false) p) (write_input msg) (λ _, stracks e L t (StepMode false) p) sdead.
Proof.
  unfold write_input. eapply triple_bind; [apply (triple_gets sn_inputs)|]. intros inputs. apply triple_pull. intros x [Hx _].
  eexists. split; [exact Hx|]. destruct (dget inputs msg.1) as [b|]; cycle 1.
  { apply triple_throw. intros z Hz. by eapply stracks_dead. }
  apply on_fmu_stracks. intros m Hm. apply keep_stage; [done|]. unfold write_binding.
  apply (triple_each _ b (λ _, good [] L m)). intros g _. by apply write_group_good.
Qed.

Lemma read_output_stracks e L t p o :
  triple (stracks e L t (StepMode false) p) (read_output o) (λ _, stracks e L t (StepMode false) p) sdead.
Proof.
  unfold read_output. eapply triple_bind with (Q := λ _, stracks e L t (StepMode false) p); [|by intros ? z Hz].
  apply on_fmu_stracks. intros m Hm. apply keep_stage; [done|]. by apply read_binding_good.
Qed.

(** One Step: the FMU is stepped over its interval, and any event is taken. *)
Lemma do_step_stracks e L t dt p next :
  0 < dt → require_next_event_reachable t dt next = Ok () →
  triple (λ x, stracks e L t (StepMode false) p x ∧ sn_next x = next) (on_fmu (do_step t dt))
    (λ needed x, ∃ owed, stracks e (L ++ [(t, dt)]) (t + dt) (StepMode owed) p x ∧ sn_next x = next
       ∧ (owed = true → needed = false → event_due (t + dt) next = Ok false → False)) sdead.
Proof.
  intros Hdt Hreach. apply triple_pull. intros x [(m & y & Hx & Hm & Ht & Hn & He & Hp) Hnx]. exists (sinst L m y). split; [exact Hx|].
  assert (sn_next y = next) as Hny by (by destruct Hx as (co & -> & _)). clear x Hx Hnx.
  assert (requests [] m = match declared_ns next with Ok d => option_list d | Err _ => [] end) as Hreq.
  { unfold requests. cbn. by rewrite Hn, Hny. }
  set (m' := λ a, effect [] m (StepMode false) (DoStep t dt) a).
  eapply triple_conseq with (Q' := λ needed x, ∃ co, x = sset_fmu co y ∧ ∃ a, needed = an_event_needed a ∧ good [] (L ++ [(t, dt)]) (m' a) co);
    [apply on_fmu_inst|done| |done].
  - unfold do_step. eapply triple_bind; [apply (call_good [] L m (DoStep t dt) (StepMode false))|].
    + by rewrite Hm.
    + by rewrite Hm.
    + apply bool_decide_eq_true. split; [done|]. split; [done|]. rewrite Hreq. unfold require_next_event_reachable in Hreach.
      destruct next as [b|]; [|constructor]. destruct (declared_ns (Some b)) as [[d|]|]; try constructor; [|constructor].
      cbn [mbind result_bind] in Hreach. apply raise_if_Ok, Z.ltb_ge in Hreach. done.
    + done.
    + done.
    + intros a. assert (∀ co, good [] (L ++ [(t, dt)]) (m' a) co → broken [] co) as Hbr.
      { intros co Hco. by eapply good_broken. }
      eapply triple_bind with (Q := λ _, good [] (L ++ [(t, dt)]) (m' a)); [apply triple_throw_if; auto|]. intros _.
      eapply triple_bind with (Q := λ _, good [] (L ++ [(t, dt)]) (m' a)); [apply triple_throw_if; auto|]. intros _ co Hco. cbn. by exists a.
  - intros needed x (co & -> & a & -> & Hco). eexists. split; [|split].
    + exists (m' a), y. split; [by exists co|]. split_and!; try done.
    + done.
    + rewrite Hreq. intros [->|Hin%bool_decide_eq_true]%orb_true_iff; [done|]. intros _. unfold event_due.
      destruct (declared_ns next) as [[d|]|]; cbn in Hin; [|by apply not_elem_of_nil in Hin..]. apply list_elem_of_singleton in Hin as ->.
      cbn. by rewrite bool_decide_true.
Qed.

Lemma take_event_stracks e L t p next needed :
  triple (λ x, ∃ owed, stracks e L t (StepMode owed) p x ∧ sn_next x = next
       ∧ (owed = true → needed = false → event_due t next = Ok false → False))
    (take_event e needed t) (λ _, stracks e L t (StepMode false) p) sdead.
Proof.
  apply triple_pull. intros x (owed & Hx & Hn & Ho). exists (λ z, stracks e L t (StepMode owed) p z ∧ sn_next z = next). split; [done|].
  unfold take_event. eapply triple_bind; [apply (triple_gets sn_next)|]. intros n. apply triple_pull. intros z [[Hz Hzn] ->].
  rewrite Hzn. exists (stracks e L t (StepMode owed) p). split; [done|].
  eapply triple_seq with (Q := λ d z, stracks e L t (StepMode owed) p z ∧ (owed = true → d = true)).
  - destruct needed; [by intros w Hw|]. eapply triple_conseq; [by apply (lift_stracks e L t (StepMode owed) p)|done| |done].
    intros d w [Hw Hd]. split; [done|]. intros Hod. destruct d; [done|]. by exfalso; apply Ho.
  - intros d w [Hw Hd]. eexists. split; [exact Hw|]. destruct d; cycle 1.
    { destruct owed; [by discriminate Hd|]. by intros v Hv. }
    eapply triple_bind; [apply enter_event_stracks|]. intros []. eapply triple_bind; [apply handle_event_stracks|]. intros out.
    eapply triple_bind; [apply enter_step_stracks|]. by intros [] v Hv.
Qed.

Lemma step_single_stracks e L t dt p inputs :
  0 < dt →
  triple (stracks e L t (StepMode false) p) (step_single t dt inputs)
    (λ _, stracks e (L ++ [(t, dt)]) (t + dt) (StepMode false) p) sdead.
Proof.
  intros Hdt. unfold step_single. eapply triple_bind with (Q := λ _, stracks e L t (StepMode false) p).
  { apply (triple_each _ inputs (λ _, stracks e L t (StepMode false) p)). intros msg _. apply write_input_stracks. }
  intros _. eapply triple_bind; [apply (triple_gets sn_events)|]. intros ev. apply triple_pull. intros x [Hx ->].
  assert (sn_events x = Some e) as -> by (by destruct Hx as (m & y & (co & -> & _) & _ & _ & _ & He & _)).
  exists (stracks e L t (StepMode false) p). split; [done|]. clear x Hx.
  eapply triple_bind; [apply (triple_gets sn_next)|]. intros next. apply triple_pull. intros x [Hx ->].
  exists (λ z, z = x). split; [done|].
  eapply triple_seq with (Q := λ _ z, z = x ∧ require_next_event_reachable t dt (sn_next x) = Ok ()).
  { apply triple_lift. intros z ->. destruct (require_next_event_reachable _ _ _) as [[]|]; [done|]. by eapply stracks_dead. }
  intros [] z [-> Hreach]. exists (λ z, stracks e L t (StepMode false) p z ∧ sn_next z = sn_next x). split; [done|].
  eapply triple_bind; [by apply do_step_stracks|]. intros needed.
  eapply triple_bind; [apply take_event_stracks|]. intros published.
  eapply triple_bind; [apply (triple_gets sn_outputs)|]. intros outputs. apply triple_pull. intros z [Hz _].
  eexists. split; [exact Hz|]. eapply triple_bind; [apply gather_stracks, read_output_stracks|]. by intros out w Hw.
Qed.

(** ** Runs *)

Fixpoint play_single (steps : list (Z * Z * list message)) : fmi single (list (list message)) :=
  match steps with
  | [] => mret []
  | (t, dt, inputs) :: steps =>
      out ← on_step_single t dt inputs;
      rest ← play_single steps;
      mret ((out : list message) :: rest)
  end.

Definition single_log (x : single) : list (call * answer) := match sn_fmu x with Some co => co_log co | None => [] end.

(** What closing finds: no FMU, or one that failed. *)
Definition sshut (x : single) : Prop := match sn_fmu x with Some co => unready [] co | None => True end.

Lemma sdead_sshut x : sdead x → sshut x.
Proof. intros (co & y & -> & Hco). by apply broken_unready. Qed.

Lemma on_init_stracks e created starts x :
  sn_fmu x = None → sn_events x = Some e → sn_point x = 0 → sn_next x = None →
  triple (λ z, z = x) (on_init_single created starts) (λ _, stracks e [] 0 (StepMode false) 0) sshut.
Proof.
  intros Hf He Hp Hn. destruct created as [b|]; [|intros z ->; cbn; unfold sshut; by rewrite Hf]. unfold on_init_single.
  assert (∀ A (prog : fmi cosim A) m m' y, triple (good [] [] m) prog (λ _, good [] [] m') (unready []) →
    triple (sinst [] m y) (on_fmu prog) (λ _, sinst [] m' y) sshut) as Hany.
  { intros A prog m m' y Hprog z (co & -> & Hco). unfold on_fmu. cbn. specialize (Hprog co Hco).
    destruct (prog co) as [co' [a|er]]; [by exists co'|done]. }
  eapply triple_bind with (Q := λ _, sinst [] (at_stage Instantiated) x).
  { apply triple_update. intros z ->. eexists. split; [reflexivity|]. by split. }
  intros _. eapply triple_bind; [apply Hany, apply_starts_good|]. intros [].
  eapply triple_bind; [apply Hany, initialize_good|]. intros [].
  eapply triple_bind; [apply (triple_gets sn_events)|]. intros ev. apply triple_pull. intros z [Hz ->].
  assert (sn_events z = Some e) as -> by (by destruct Hz as (co & -> & _)).
  exists (stracks e [] 0 EventMode 0). split.
  { exists (at_stage EventMode), x. by split_and!. }
  eapply triple_conseq with (Q' := λ _, stracks e [] 0 (StepMode false) 0) (E' := sdead); [|done|done|apply sdead_sshut].
  eapply triple_bind; [apply handle_event_stracks|]. intros published.
  eapply triple_bind with (Q := λ _, stracks e [] 0 EventMode 0); [|intros _; apply enter_step_stracks].
  apply triple_update. intros w (m & y & (co & -> & Hco) & Hm). exists m, (sset_pending published y). split; [by exists co|done].
Qed.

Lemma on_step_stracks e L t0 t dt inputs :
  0 < dt →
  triple (stracks e L t0 (StepMode false) t0) (on_step_single t dt inputs)
    (λ _, stracks e (L ++ [(t, dt)]) (t + dt) (StepMode false) (t + dt)) sdead.
Proof.
  intros Hdt. unfold on_step_single. eapply triple_bind; [apply (triple_gets sn_events)|]. intros ev. apply triple_pull. intros x [Hx ->].
  assert (sn_events x = Some e ∧ sn_point x = t0) as [-> Hpt] by (by destruct Hx as (m & y & (co & -> & _) & _ & _ & _ & He & Hp)).
  exists (λ z, z = x). split; [done|]. eapply triple_bind; [apply (triple_gets sn_point)|]. intros st. apply triple_pull. intros z [-> ->].
  rewrite Hpt. exists (stracks e L t0 (StepMode false) t0). split; [done|].
  eapply triple_seq; [by apply lift_stracks|]. intros [] z [Hz Hc]. unfold require_contiguous in Hc.
  apply raise_if_Ok, negb_false_iff, Z.eqb_eq in Hc. clear x Hx Hpt. subst t0. eexists. split; [exact Hz|]. clear z Hz.
  eapply triple_bind; [apply (triple_gets sn_pending)|]. intros published. apply triple_pull. intros z [Hz _].
  eexists. split; [exact Hz|]. clear z Hz. eapply triple_bind with (Q := λ _, stracks e L t (StepMode false) t).
  { apply triple_update. intros w (m & y & (co & -> & Hco) & Hm). exists m, (sset_pending [] y). split; [by exists co|done]. }
  intros _. eapply triple_bind; [apply deliver_events_stracks|]. intros delivered.
  eapply triple_bind; [by apply step_single_stracks|]. intros out.
  eapply triple_bind with (Q := λ _, stracks e (L ++ [(t, dt)]) (t + dt) (StepMode false) (t + dt)); [|by intros ? z Hz].
  apply triple_update. intros w (m & y & (co & -> & Hco) & Hm & Ht & Hn & He & _). exists m, (sset_point (t + dt) y).
  split_and!; try done. by exists co.
Qed.

Lemma play_single_stracks e L t0 steps :
  Forall (λ s, 0 < s.1.2) steps →
  triple (stracks e L t0 (StepMode false) t0) (play_single steps)
    (λ _ x, ∃ t, stracks e (L ++ steps.*1) t (StepMode false) t x) sdead.
Proof.
  intros Hs. revert L t0. induction Hs as [|[[t dt] inputs] steps Hdt _ IH]; intros L t0; cbn [play_single].
  { intros x Hx. exists t0. cbn. by rewrite app_nil_r. }
  eapply triple_bind; [by apply on_step_stracks|]. intros out. eapply triple_bind; [apply IH|]. intros rest x (t1 & Hx).
  exists t1. cbn. by rewrite <- app_assoc in Hx.
Qed.

(** Initialization and the Steps, up to what fails. *)
Definition run_single (created : option behaviour) (starts : list start) (steps : list (Z * Z * list message))
    : fmi single (list (list message)) :=
  on_init_single created starts ≫= λ _, play_single steps.

(** C31. A clocked FMU on its own is driven as FMI 3.0 and its own requests say,
    from its instantiation until it is closed: whatever it answers and wherever
    the Run fails, the calls it receives are allowed in the mode it is in, no Step
    passes an instant it declared, a declared instant that a Step reaches, or an
    event the Step reports, is handled before the next one, and after an error or
    a fatal answer only the calls FMI leaves are made. There is one exception,
    which takes a failed initialization: an FMU that is alive before its
    initialization is over, because a call of it was answered with neither success
    nor an error or is not exported, is terminated before it is freed, in a state
    in which FMI does not allow that. When the Run succeeds, the FMU was stepped
    over exactly the intervals the kernel declared. *)
Theorem single_conforms e created starts x steps x2 r x3 r' :
  sn_fmu x = None → sn_events x = Some e → sn_point x = 0 → sn_next x = None → Forall (λ s, 0 < s.1.2) steps →
  run_single created starts steps x = (x2, r) → close_single x2 = (x3, r') →
  driven [] (single_log x3)
  ∧ ((on_init_single created starts x).2 = Ok () → is_Some (observe [] (single_log x3)))
  ∧ match r with Ok _ => steps_of (single_log x2) = steps.*1 | Err _ => True end.
Proof.
  intros Hf He Hp Hn Hs Hr Hc. pose proof (on_init_stracks e created starts x Hf He Hp Hn x eq_refl) as Hx1.
  unfold run_single, mbind, fmi_bind in Hr. destruct (on_init_single created starts x) as [x1 [[]|er]]; cycle 1.
  { injection Hr as <- <-. split; [|done]. unfold close_single, single_log, sshut in *.
    destruct (sn_fmu x1) as [co|] eqn:Hx; [|injection Hc as <- _; rewrite Hx; left; by exists new_monitor].
    apply close_driven in Hx1. destruct (close co) as [co' rc]. by injection Hc as <- _. }
  pose proof (play_single_stracks e [] 0 steps Hs x1 Hx1) as Hx2. rewrite Hr in Hx2.
  assert (is_Some (observe [] (single_log x3))) as Hok.
  { assert (sdead x2) as (co & y & -> & Hco).
    { destruct r as [outs|er]; [|done]. destruct Hx2 as (t & Hx2). by eapply stracks_dead. }
    unfold close_single in Hc. cbn in Hc. apply close_conforms in Hco. destruct (close co) as [co' rc]. injection Hc as <- _. exact Hco. }
  split; [by left|]. split; [done|].
  destruct r as [outs|er]; [|done]. destruct Hx2 as (t & m & y & (co & -> & Hco) & _). apply Hco.
Qed.

(** The witness: a clocked FMU that declares an event at 3 ns and sends there. *)
Definition demo_single : single :=
  mk_single None [] [("state"%string, [GScalar (mk_scalar_group "Float64" [5] [("x"%string, None)])])]
    (Some (mk_events [("tx"%string, (mk_clocked 14 13, mk_binary_field "data" "size" 4 "time"))] [])) None [] 0.
Definition demo_single_steps : list (Z * Z * list message) := [(0, 3, []); (3, 4, [])].
Definition demo_single_run := run_single (Some demo_node) [] demo_single_steps demo_single.
Definition demo_single_discarded :=
  run_single (Some discards) [mk_start "gain" false 7 (SScalars "Float64" [PInt 1])] demo_single_steps demo_single.

Lemma single_conforms_witness :
  is_Some (observe [] (single_log (close_single demo_single_run.1).1))
  ∧ steps_of (single_log demo_single_run.1) = [(0, 3); (3, 4)]
  ∧ driven [] (single_log (close_single demo_single_discarded.1).1).
Proof.
  destruct (single_conforms (mk_events [("tx"%string, (mk_clocked 14 13, mk_binary_field "data" "size" 4 "time"))] [])
    (Some demo_node) [] demo_single demo_single_steps demo_single_run.1 demo_single_run.2
    (close_single demo_single_run.1).1 (close_single demo_single_run.1).2
    eq_refl eq_refl eq_refl eq_refl ltac:(repeat constructor; done) (surjective_pairing _) (surjective_pairing _)) as (_ & Hok & Hl).
  split; [apply Hok; vm_compute; reflexivity|]. split; [vm_compute; reflexivity|].
  exact (proj1 (single_conforms (mk_events [("tx"%string, (mk_clocked 14 13, mk_binary_field "data" "size" 4 "time"))] [])
    (Some discards) _ demo_single demo_single_steps demo_single_discarded.1 demo_single_discarded.2
    (close_single demo_single_discarded.1).1 (close_single demo_single_discarded.1).2
    eq_refl eq_refl eq_refl eq_refl ltac:(repeat constructor; done) (surjective_pairing _) (surjective_pairing _))).
Defined.

(** A start value that an FMU discards is followed by fmi3Terminate in the
    instantiated state, in which FMI 3.0 does not allow it. *)
Example discarded_start_terminates :
  let x := (on_init_single (Some discards) [mk_start "gain" false 7 (SScalars "Float64" [PInt 1])] demo_single).1 in
  (single_log (close_single x).1).*1 = [SetValues "Float64" [7] [PInt 1]; Terminate; FreeInstance]
  ∧ observe [] (single_log (close_single x).1) = None.
Proof. vm_compute. done. Qed.
