(* ===== verification/FmuDescription.v ===== *)
(** * What an FMU declares

    Models [fmi/description.py]: the variables, terminals and bus profile of an
    FMU ([model_description]), read from the elements of its documents
    ([read_description]) for FMI 3.0 and for the FMI 2.0 profile with its OSMP
    binary variables, the scalar types that are mapped ([SCALARS]), and the
    grammars of their start values.

    A document is the tree [ElementTree] gives ([element]); XML itself is not
    modelled. The text of a number is read as Python reads it, with digits and
    spaces of any script ([py_int], [py_float]). Errors carry what their messages
    name, and no message texts. *)

From Stdlib Require Import ZArith Lia Ascii.
From S2P Require Import Prelude PyFloat Json SchemaTypes Schema Pointer Manifest CsvText Csv.
Open Scope Z_scope.

(** ** Text *)

Definition byte_at (c : ascii) : Z := Z.of_N (N_of_ascii c).
Definition continuation (c : ascii) : bool := in_range 128 191 (byte_at c).

(** The code points of a text. A byte that is no UTF-8 is a lone surrogate, as
    Python reads the arguments of a command. *)
Fixpoint code_points (l : list ascii) : list Z :=
  match l with
  | [] => []
  | a :: l1 =>
      let x := byte_at a in
      if x <? 128 then x :: code_points l1
      else
        match l1 with
        | b :: l2 =>
            let y := byte_at b - 128 in
            if in_range 194 223 x && continuation b then (x - 192) * 64 + y :: code_points l2
            else
              match l2 with
              | c :: l3 =>
                  let z := byte_at c - 128 in
                  let v := ((x - 224) * 64 + y) * 64 + z in
                  if in_range 224 239 x && continuation b && continuation c && (2048 <=? v) && negb (in_range 55296 57343 v)
                  then v :: code_points l3
                  else
                    match l3 with
                    | d :: l4 =>
                        let v := (((x - 240) * 64 + y) * 64 + z) * 64 + (byte_at d - 128) in
                        if in_range 240 244 x && continuation b && continuation c && continuation d && in_range 65536 1114111 v
                        then v :: code_points l4
                        else 56320 + x :: code_points l1
                    | [] => 56320 + x :: code_points l1
                    end
              | [] => 56320 + x :: code_points l1
              end
        | [] => 56320 + x :: code_points l1
        end
  end.

(** The zeros of the decimal digits of Unicode. *)
Definition DIGIT_ZEROS : list Z :=
  [48; 1632; 1776; 1984; 2406; 2534; 2662; 2790; 2918; 3046; 3174; 3302; 3430; 3558; 3664; 3792; 3872; 4160; 4240;
   6112; 6160; 6470; 6608; 6784; 6800; 6992; 7088; 7232; 7248; 42528; 43216; 43264; 43472; 43504; 43600; 44016; 65296;
   66720; 68912; 69734; 69872; 69942; 70096; 70384; 70736; 70864; 71248; 71360; 71472; 71904; 72016; 72784; 73040;
   73120; 92768; 92864; 93008; 120782; 120792; 120802; 120812; 120822; 123200; 123632; 125264; 130032].

(** [str.isspace] outside ASCII. *)
Definition wide_space (c : Z) : bool :=
  bool_decide (c ∈ [133; 160; 5760; 8232; 8233; 8239; 8287; 12288]) || in_range 8192 8202 c.

(** A character as [int] and [float] take it: an ASCII one stands for itself. *)
Definition plain_char (c : Z) : option ascii :=
  if c <? 128 then Some (ascii_of_N (Z.to_N c))
  else if wide_space c then Some " "%char
  else match filter (λ z, z ≤ c < z + 10) DIGIT_ZEROS with
       | z :: _ => Some (ascii_of_N (Z.to_N (48 + (c - z))))
       | [] => None
       end.
Definition plain (s : string) : option (list ascii) := mapM plain_char (code_points (chars s)).

(** [Py_ISSPACE]. *)
Definition ascii_space (c : ascii) : bool := in_range 9 13 (byte_at c) || (byte_at c =? 32).

Fixpoint drop_while {A} (p : A → bool) (l : list A) : list A :=
  match l with
  | x :: l' => if p x then drop_while p l' else l
  | [] => []
  end.
Definition trim (l : list ascii) : list ascii :=
  reverse (drop_while ascii_space (reverse (drop_while ascii_space l))).

(** Single underscores between digits are dropped. *)
Fixpoint no_underscores (after_digit : bool) (l : list ascii) : option (list ascii) :=
  match l with
  | [] => Some []
  | c :: l =>
      if Ascii.eqb c "_" then
        match l with
        | d :: _ => if after_digit && is_digit d then no_underscores false l else None
        | [] => None
        end
      else cons c <$> no_underscores (is_digit c) l
  end.

(** [int(s)]; [None] is the ValueError. *)
Definition py_int (s : string) : option Z :=
  l ← plain s;
  let '(sign, l) := span_sign (trim l) in
  l ← no_underscores false l;
  match span_digits l with
  | (ds, []) =>
      if decide (ds = []) then None
      else match int_digits ds with Ok n => Some (if sign then - n else n) | Err _ => None end
  | _ => None
  end.

(** [float(s)]. *)
Definition py_float (s : string) : option Z :=
  l ← plain s;
  l ← no_underscores false (trim l);
  let text := String.string_of_list_ascii l in
  if non_finite_cell text then
    let '(sign, l) := span_sign l in
    Some (if decide (lower <$> l = chars "nan") then f_join 52 11 sign 2047 (2 ^ 51) else infinity_of sign)
  else float_of_dec <$> float_cell text.

(** [bytes.fromhex(s)]. *)
Definition hex_digit (c : ascii) : option Z :=
  let x := byte_at c in
  if in_range 48 57 x then Some (x - 48)
  else if in_range 65 70 x then Some (x - 55)
  else if in_range 97 102 x then Some (x - 87)
  else None.
Fixpoint from_hex (l : list ascii) : option bytes :=
  match l with
  | [] => Some []
  | c :: l1 =>
      if ascii_space c then from_hex l1
      else match l1 with
           | d :: l2 => x ← hex_digit c; y ← hex_digit d; cons (byte_of_Z (x * 16 + y)) <$> from_hex l2
           | [] => None
           end
  end.

(** [s.partition(sep)] for a character: what is before it, and what follows. *)
Fixpoint cut (sep : ascii) (l : list ascii) : list ascii * option (list ascii) :=
  match l with
  | [] => ([], None)
  | c :: l => if Ascii.eqb c sep then ([], Some l) else let '(a, b) := cut sep l in (c :: a, b)
  end.
Definition partition (sep : ascii) (s : string) : string * option string :=
  let '(a, b) := cut sep (chars s) in
  (String.string_of_list_ascii a, String.string_of_list_ascii <$> b).

(** [s.rpartition(sep)]: [None] when there is no separator. *)
Definition rpartition (sep : ascii) (s : string) : option (string * string) :=
  let '(b, a) := cut sep (reverse (chars s)) in
  match a with
  | Some a => Some (String.string_of_list_ascii (reverse a), String.string_of_list_ascii (reverse b))
  | None => None
  end.

(** [s.split(" ")]. *)
Fixpoint split_from (sep : ascii) (cur : list ascii) (l : list ascii) : list (list ascii) :=
  match l with
  | [] => [reverse cur]
  | c :: l => if Ascii.eqb c sep then reverse cur :: split_from sep [] l else split_from sep (c :: cur) l
  end.
Definition split_on (sep : ascii) (s : string) : list string :=
  String.string_of_list_ascii <$> split_from sep [] (chars s).

(** The UTF-8 of the spaces of [str.isspace]. *)
Definition SPACES : list (list ascii) :=
  ((λ c : Z, [ascii_of_N (Z.to_N c)]) <$> [9; 10; 11; 12; 13; 28; 29; 30; 31; 32])
  ++ ((λ c : Z, [ascii_of_N (Z.to_N (192 + c / 64)); ascii_of_N (Z.to_N (128 + c mod 64))]) <$> [133; 160])
  ++ ((λ c : Z, [ascii_of_N (Z.to_N (224 + c / 4096)); ascii_of_N (Z.to_N (128 + c / 64 mod 64));
                 ascii_of_N (Z.to_N (128 + c mod 64))])
      <$> [5760; 8192; 8193; 8194; 8195; 8196; 8197; 8198; 8199; 8200; 8201; 8202; 8232; 8233; 8239; 8287; 12288]).

Definition after_prefix (p l : list ascii) : option (list ascii) :=
  if decide (take (length p) l = p) then Some (drop (length p) l) else None.
Definition skip_space (spaces : list (list ascii)) (l : list ascii) : option (list ascii) :=
  head (omap (λ p, after_prefix p l) spaces).

Fixpoint strip_left (fuel : nat) (spaces : list (list ascii)) (l : list ascii) : list ascii :=
  match fuel with
  | O => l
  | S fuel => match skip_space spaces l with Some l' => strip_left fuel spaces l' | None => l end
  end.

(** [s.strip()]. *)
Definition strip (s : string) : string :=
  let l := strip_left (String.length s) SPACES (chars s) in
  String.string_of_list_ascii (reverse (strip_left (length l) (reverse <$> SPACES) (reverse l))).

(** [s.split()]. *)
Fixpoint words_from (fuel : nat) (cur : list ascii) (l : list ascii) : list (list ascii) :=
  let word := match cur with [] => [] | _ => [reverse cur] end in
  match fuel, l with
  | _, [] | O, _ => word
  | S fuel, c :: l' =>
      match skip_space SPACES l with
      | Some l'' => word ++ words_from fuel [] l''
      | None => words_from fuel (c :: cur) l'
      end
  end.
Definition words (s : string) : list string :=
  String.string_of_list_ascii <$> words_from (String.length s) [] (chars s).

(** ** Errors *)

(** A ManifestError, by what is wrong; the last ones are other exceptions. *)
Inductive doc_error :=
(** [description.py]. *)
| ENoDescription
| EVersion (version : option string)
| ENoCoSimulation
| ENoGuid
| ENoModelVariables
| EBadNumber (text : string)
| EScalarVariable (name : option string)
| EOutside (names : list string)
| EUnreadable (member : string)
| EOsmpAnnotation (name : string)
| EOsmpUnnamed (name : string)
| EOsmpRole (name : string) (role : option string)
| EOsmpTwice (binary role : string)
| EOsmpUndeclared (binaries : list string)
| EOsmpMissing (binary : string) (roles : list string)
| EOsmpClash (binary : string)
| EOsmpKind (name : string)
| EOsmpName (name binary role : string)
| EOsmpCausality (binary : string)
| EOsmpMime (binary : string)
(** [mapping.py]. *)
| EUnmatchedField (channel field : string)
| EUnmatchedVariable (name : string)
| EBindSyntax (bind : string)
| EBindChannel (bind channel : string)
| EBindField (bind field : string)
| EBindTwice (bind : string)
| EUndeclared (what name : string)
| EUnmappable (name : string)
| ECausality (name causality : string)
| EFieldType (field name : string)
| EBinaryField (field : string)
| ELengthMissing (field : string)
| ELengthType (field : string)
| ELengthCeiling (field : string) (capacity ceiling : Z)
| EMaxSize (name : string) (given max_size : Z)
| EOsmpCeiling (field : string) (capacity : Z)
| EFieldTwice (channel field : string)
| EFieldUnbound (channel field : string)
| EClock (name : string)
| EClockedOthers (channel field : string)
| ENotCarried (channel field : string)
| EEventTimeMissing (channel field : string)
| EEventTimeType (channel field : string)
| EAllocation (channel kind : string)
| EStartSyntax (start : string)
| EStartOsmp (name : string)
| EStartKind (name kind : string)
| EStartArray (name : string)
| EStartCount (name : string) (given : Z)
| EStartValue (name text : string)
| EStartCalculated (name : string)
(** [composition.py] and [group.py]. *)
| EInstanceEmpty (name path : string)
| EInstanceDot (name : string)
| EInstanceTwice (name : string)
| ENoInstances
| ENoProfile
| EFmi2 (name : string)
| EUnqualified (text : string)
| ENoInstance (name : string)
| EMember (instance terminal member : string)
| ETerminal (instance terminal : string)
| EBusVersion (left right : string)
| EConnection (declaration : string)
| EConnected (declaration end_ : string)
| EBuses (declaration : string)
| EMimeTypes (declaration : string)
| EGroupChannel (channel : string)
| EUnusedInstance (name : string)
(** Exceptions that are no ManifestError. *)
| EKey (key : string)
| EInvalidOperation
| ENegativeArray (length : Z)
| ENoMemory (length : Z).

Abbreviation doc := (result doc_error).

(** ** Scalar types *)

(** [_ScalarType]: its field, the reader of its start values ([Ok None] is a
    ValueError) and whether it may be an array. *)
Record scalar_type := mk_scalar_type {
  sc_field : prim;
  sc_parse : string → result doc_error (option pynum);
  sc_array : bool;
}.

Definition read_boolean (text : string) : doc (option pynum) :=
  Ok (if String.eqb text "true" then Some (PInt 1)
      else if String.eqb text "false" then Some (PInt 0) else None).

(** [_DECIMAL_INTEGER] and [_integer]. *)
Definition read_integer (p : prim) (text : string) : doc (option pynum) :=
  let l := chars text in
  let '(negative, l) :=
    match l with c :: tl => if Ascii.eqb c "-" then (true, tl) else (false, l) | [] => (false, l) end in
  Ok match span_digits l, int_range p with
     | (d :: ds, []), Some (low, high) =>
         if (low =? 0) && negative then None
         else match int_digits (d :: ds) with
              | Ok n => let v := if negative then - n else n in
                        if in_range low high v then Some (PInt v) else None
              | Err _ => None
              end
     | _, _ => None
     end.

(** [_float32]. *)
Definition read_float32 (text : string) : doc (option pynum) :=
  if non_finite_cell text then Ok None
  else match float_cell text with
       | None => Ok None
       | Some d =>
           let v := float_of_dec d in
           match narrow v with
           | None => Ok None
           | Some n =>
               let r := widen n in
               if negb (is_finite64 r) then Ok None
               else if is_zero r then
                 if decimal_fits d then Ok (if dc_coef d =? 0 then Some (PFloat r) else None)
                 else Err EInvalidOperation
               else Ok (Some (PFloat r))
           end
       end.

Definition read_float64 (text : string) : doc (option pynum) := Ok (PFloat <$> py_float text).

Definition SCALARS : list (string * scalar_type) :=
  [("Float64", mk_scalar_type F64 read_float64 true);
   ("Boolean", mk_scalar_type U8 read_boolean false);
   ("Float32", mk_scalar_type F32 read_float32 true);
   ("Int32", mk_scalar_type I32 (read_integer I32) true);
   ("UInt32", mk_scalar_type U32 (read_integer U32) true);
   ("UInt64", mk_scalar_type U64 (read_integer U64) true);
   ("UInt8", mk_scalar_type U8 (read_integer U8) true);
   ("Int64", mk_scalar_type I64 (read_integer I64) true)]%string.

Definition BINARY : string := "Binary".
Definition FLOAT64 : string := "Float64".
Definition CLOCK : string := "Clock".
Definition TRIGGERED : string := "triggered".
Definition COUNTDOWN : string := "countdown".
Definition HAS_EVENT_MODE : string := "hasEventMode".
Definition FMI3 : string := "3.0".
Definition FMI2 : string := "2.0".
Definition STRUCTURAL : string := "structuralParameter".
Definition BUS_MANIFEST_MEMBER : string := "extra/org.fmi-standard.fmi-ls-bus/fmi-ls-manifest.xml".
Definition LAYERED_STANDARD_VERSION : string := "{http://fmi-standard.org/fmi-ls-manifest}fmi-ls-version".
Definition TERMINALS_MEMBER : string := "terminalsAndIcons/terminalsAndIcons.xml".
Definition NETWORK_TERMINAL : string := "org.fmi-ls-bus.network-terminal".
Definition TRANSCEIVER : string := "org.fmi-ls-bus.transceiver".
Definition TX_DATA : string := "Tx_Data".
Definition TX_CLOCK : string := "Tx_Clock".
Definition RX_DATA : string := "Rx_Data".
Definition RX_CLOCK : string := "Rx_Clock".
Definition TRANSCEIVER_MEMBERS : list string := [RX_DATA; RX_CLOCK; TX_DATA; TX_CLOCK].

(** [_FMI2_TYPES]. *)
Definition FMI2_TYPES : list (string * string) :=
  [("Real", "Float64"); ("Integer", "Int32"); ("Boolean", "Boolean")]%string.

(** ** Variables *)

Record osmp_address := mk_osmp { os_lo : Z; os_hi : Z; os_size : Z }.

(** [Variable]. *)
Record fvariable := mk_fvariable {
  fv_name : string;
  fv_reference : option Z;
  fv_kind : string;
  fv_causality : string;
  fv_max_size : option Z;
  fv_value_count : option Z;
  fv_clocks : list Z;
  fv_interval : option string;
  fv_mime : option string;
  fv_shape : list (option Z);
  fv_osmp : option osmp_address;
  fv_osmp_member : option string;
  fv_osmp_unannotated : option string;
}.

(** [is_array] and [media_type]. *)
Definition is_array (v : fvariable) : bool :=
  negb (bool_decide (fv_shape v = [])) && negb (bool_decide (fv_value_count v = Some 1)).
Definition media_type (v : fvariable) : option string :=
  (λ m, strip (partition ";" m).1) <$> fv_mime v.

(** [Terminal], [BusProfile] and [ModelDescription]; the inputs and outputs of
    the last are computed from its variables. *)
Record terminal := mk_terminal {
  te_name : string;
  te_kind : string;
  te_rule : string;
  te_members : list (string * string);
}.
Record bus_profile := mk_bus_profile { bp_version : option string; bp_simulation : bool }.
Record model_description := mk_description {
  md_identifier : option string;
  md_token : option string;
  md_variables : list (string * fvariable);
  md_capabilities : list (string * string);
  md_terminals : list (string * terminal);
  md_bus : option bus_profile;
  md_version : string;
}.

(** [_by_causality]: the names. *)
Definition by_causality (vs : list (string * fvariable)) (causality : string) : list string :=
  omap (λ kv : string * fvariable, if String.eqb (fv_kind kv.2) FLOAT64 && String.eqb (fv_causality kv.2) causality
              then Some (fv_name kv.2) else None) vs.
Definition md_inputs (d : model_description) : list string := by_causality (md_variables d) "input".
Definition md_outputs (d : model_description) : list string := by_causality (md_variables d) "output".

(** [ModelDescription.clock] and [has_event_mode]. *)
Definition md_clock (d : model_description) (reference : Z) : option fvariable :=
  head (filter (λ v, fv_reference v = Some reference ∧ fv_kind v = CLOCK) (md_variables d).*2).
Definition has_event_mode (d : model_description) : bool :=
  bool_decide (dget (md_capabilities d) HAS_EVENT_MODE = Some "true"%string).

(** ** Documents *)

Inductive element := Element (tag : string) (attrib : list (string * string)) (children : list element).

Definition e_tag (e : element) : string := let 'Element t _ _ := e in t.
Definition e_attrib (e : element) : list (string * string) := let 'Element _ a _ := e in a.
Definition e_children (e : element) : list element := let 'Element _ _ c := e in c.
Definition e_get (e : element) (k : string) : option string := dget (e_attrib e) k.

(** [findall], [find] and [iter]. *)
Definition findall (e : element) (tag : string) : list element := filter (λ c, e_tag c = tag) (e_children e).
Definition find (e : element) (tag : string) : option element := head (findall e tag).
Fixpoint iter (tag : string) (e : element) : list element :=
  let 'Element t _ children := e in
  (if String.eqb t tag then [e] else []) ++ flat_map (iter tag) children.

Definition number (text : string) : doc Z :=
  match py_int text with Some n => Ok n | None => Err (EBadNumber text) end.
Definition opt_number (text : option string) : doc (option Z) :=
  match text with None => Ok None | Some t => n ← number t; Ok (Some n) end.

(** [_shape], [_value_count] and [_clock_references]. *)
Definition shape_of (e : element) : doc (list (option Z)) :=
  mapE (λ d, opt_number (e_get d "start")) (findall e "Dimension").
Definition extents (shape : list (option Z)) : option (list Z) :=
  mapM (λ x : option Z, match x with Some n => if n <? 1 then None else Some n | None => None end) shape.
Definition value_count (shape : list (option Z)) : option Z := foldl Z.mul 1 <$> extents shape.
Definition clock_references (e : element) : doc (list Z) := mapE number (words (default "" (e_get e "clocks")%string)).

(** [_variables]. *)
Definition add_variable (declared : list (string * fvariable)) (e : element) : doc (list (string * fvariable)) :=
  match e_get e "name", e_get e "valueReference" with
  | Some name, Some reference =>
      shape ← shape_of e;
      ref ← number reference;
      max_size ← opt_number (e_get e "maxSize");
      clocks ← clock_references e;
      Ok (dset declared name
            (mk_fvariable name (Some ref) (e_tag e) (default "local"%string (e_get e "causality")) max_size
               (value_count shape) clocks (e_get e "intervalVariability") (e_get e "mimeType") shape None None None))
  | _, _ => Ok declared
  end.
Definition variables_of (root : element) : doc (list (string * fvariable)) :=
  match find root "ModelVariables" with
  | None => Err ENoModelVariables
  | Some e => foldE add_variable [] (e_children e)
  end.

(** [_terminals]: a member with an empty name or variable is left out. *)
Definition members_of (e : element) : list (string * string) :=
  foldl (λ d m, match e_get m "memberName", e_get m "variableName" with
                | Some k, Some v => if String.eqb k "" || String.eqb v "" then d else dset d k v
                | _, _ => d
                end) [] (findall e "TerminalMemberVariable").
Definition terminals_of (root : element) : list (string * terminal) :=
  foldl (λ d e, match e_get e "name" with
                | None => d
                | Some name => dset d name (mk_terminal name (default ""%string (e_get e "terminalKind"))
                                              (default ""%string (e_get e "matchingRule")) (members_of e))
                end) [] (iter "Terminal" root).

(** The documents of an archive: the outer option is whether the member is there,
    and the inner one whether it can be read. *)
Record archive := mk_archive {
  ar_model : option element;
  ar_terminals : option (option element);
  ar_bus : option (option element);
}.

Definition read_terminals (ar : archive) : doc (list (string * terminal)) :=
  match ar_terminals ar with
  | None => Ok []
  | Some None => Err (EUnreadable TERMINALS_MEMBER)
  | Some (Some root) => Ok (terminals_of root)
  end.

(** [_bus_profile]. *)
Definition read_bus (ar : archive) : doc (option bus_profile) :=
  match ar_bus ar with
  | None => Ok None
  | Some None => Err (EUnreadable BUS_MANIFEST_MEMBER)
  | Some (Some root) =>
      Ok (Some (mk_bus_profile (e_get root LAYERED_STANDARD_VERSION)
                  (bool_decide (e_get root "isBusSimulationFMU" = Some "true"%string))))
  end.

(** ** FMI 2.0 and OSMP *)

(** [_fmi2_variables]. *)
Definition add_fmi2_variable (declared : list (string * fvariable)) (e : element) : doc (list (string * fvariable)) :=
  match e_get e "name", e_get e "valueReference", e_children e with
  | Some name, Some reference, ty :: _ =>
      ref ← number reference;
      Ok (dset declared name
            (mk_fvariable name (Some ref) (default (e_tag ty) (dget FMI2_TYPES (e_tag ty)))
               (default "local"%string (e_get e "causality")) None (Some 1) [] None None [] None None None))
  | name, _, _ => Err (EScalarVariable name)
  end.
Definition fmi2_variables (root : element) : doc (list (string * fvariable)) :=
  match find root "ModelVariables" with
  | None => Err ENoModelVariables
  | Some e => foldE add_fmi2_variable [] (iter "ScalarVariable" e)
  end.

Definition OSMP_TOOL : string := "net.pmsf.osmp".
Definition OSMP_NAMESPACE : string := "{http://xsd.pmsf.net/OSISensorModelPackaging}".
Definition OSMP_ROLES : list string := ["base.lo"; "base.hi"; "size"]%string.
Definition OSMP_INTEGER : string := "Int32".

(** [_osmp_annotation]: the first tool of that name decides. *)
Definition osmp_annotation (e : element) : doc (option element) :=
  let tools := mbind (λ a, findall a "Tool") (findall e "Annotations") in
  match filter (λ t, e_get t "name" = Some OSMP_TOOL) tools with
  | [] => Ok None
  | t :: _ =>
      match find t (OSMP_NAMESPACE ++ "osmp-binary-variable") with
      | None => Err (EOsmpAnnotation (default ""%string (e_get e "name")))
      | Some a => Ok (Some a)
      end
  end.

(** [_declares_osmp]. *)
Definition declares_osmp (root : element) : bool :=
  existsb (λ t, bool_decide (e_get t "name" = Some OSMP_TOOL) && bool_decide (is_Some (find t (OSMP_NAMESPACE ++ "osmp"))))
    (mbind (λ a, findall a "Tool") (findall root "VendorAnnotations")).

(** The Integers of an OSMP binary variable, by role, with their media types. *)
Abbreviation osmp_roles := (list (string * (fvariable * option string))).

Definition add_triple (variables : list (string * fvariable)) (triples : list (string * osmp_roles)) (e : element)
    : doc (list (string * osmp_roles)) :=
  annotation ← osmp_annotation e;
  match (annotation : option element) with
  | None => Ok triples
  | Some a =>
      match e_get e "name" ≫= dget variables with
      | None => Err (EKey (default ""%string (e_get e "name")))
      | Some member =>
          match e_get a "name" with
          | None | Some ""%string => Err (EOsmpUnnamed (fv_name member))
          | Some binary =>
              match e_get a "role" with
              | Some role =>
                  raise: EOsmpRole (fv_name member) (Some role) if: negb (bool_decide (role ∈ OSMP_ROLES));;
                  let roles := default [] (dget triples binary) in
                  raise: EOsmpTwice binary role if: dmem roles role;;
                  Ok (dset triples binary (dset roles role (member, e_get a "mime-type")))
              | None => Err (EOsmpRole (fv_name member) None)
              end
          end
      end
  end.

(** [len({...}) != 1]. *)
Definition all_same {A} `{EqDecision A} (l : list A) : bool :=
  match l with [] => false | x :: l => forallb (λ y, bool_decide (y = x)) l end.

(** [_osmp_binary]. *)
Definition osmp_binary (binary : string) (roles : osmp_roles) (variables : list (string * fvariable)) : doc fvariable :=
  let missing := filter (λ r, dmem roles r = false) OSMP_ROLES in
  raise: EOsmpMissing binary missing if: negb (bool_decide (missing = []));;
  raise: EOsmpClash binary if: dmem variables binary;;
  _ ← foldE (λ _ rm, let '(role, (member, _)) := rm in
       raise: EOsmpKind (fv_name member) if: negb (String.eqb (fv_kind member) OSMP_INTEGER);;
       raise: EOsmpName (fv_name member) binary role if: negb (String.eqb (fv_name member) (binary ++ "." ++ role));;
       Ok ()) () roles;
  raise: EOsmpCausality binary if: negb (all_same ((λ rm, fv_causality rm.2.1) <$> roles));;
  raise: EOsmpMime binary if: negb (all_same ((λ rm, rm.2.2) <$> roles));;
  let reference role := default 0 (dget roles role ≫= λ m, fv_reference m.1) in
  match roles with
  | (_, (first, mime)) :: _ =>
      Ok (mk_fvariable binary None BINARY (fv_causality first) None (Some 1) [] None mime []
            (Some (mk_osmp (reference "base.lo"%string) (reference "base.hi"%string) (reference "size"%string))) None None)
  | [] => Err (EOsmpMissing binary OSMP_ROLES)
  end.

Definition set_member (binary : string) (v : fvariable) : fvariable :=
  mk_fvariable (fv_name v) (fv_reference v) (fv_kind v) (fv_causality v) (fv_max_size v) (fv_value_count v) (fv_clocks v)
    (fv_interval v) (fv_mime v) (fv_shape v) (fv_osmp v) (Some binary) (fv_osmp_unannotated v).
Definition set_unannotated (address : string) (v : fvariable) : fvariable :=
  mk_fvariable (fv_name v) (fv_reference v) (fv_kind v) (fv_causality v) (fv_max_size v) (fv_value_count v) (fv_clocks v)
    (fv_interval v) (fv_mime v) (fv_shape v) (fv_osmp v) (fv_osmp_member v) (Some address).

(** [_with_unannotated]. The order of the addresses does not matter: a name is
    part of one address at most. *)
Definition unannotated (variables : list (string * fvariable)) (name : string) : bool :=
  match dget variables name with
  | Some v => String.eqb (fv_kind v) OSMP_INTEGER && bool_decide (fv_osmp_member v = None)
  | None => false
  end.
Definition addresses (variables : list (string * fvariable)) : list string :=
  mbind (λ name, omap (λ role : string, if ends_with ("." ++ role) name && unannotated variables name
                               then Some (strip_suffix ("." ++ role) name) else None)
                   ["base.lo"; "base.hi"]%string) variables.*1.
Definition mark (variables : list (string * fvariable)) (marked : list (string * fvariable)) (address role : string)
    : list (string * fvariable) :=
  let name := (address ++ "." ++ role)%string in
  match dget variables name with
  | Some v => if unannotated variables name then dset marked name (set_unannotated address v) else marked
  | None => marked
  end.
Definition with_unannotated (variables : list (string * fvariable)) : list (string * fvariable) :=
  foldl (λ marked address, foldl (λ marked role, mark variables marked address role) marked OSMP_ROLES)
    variables (addresses variables).

(** [_with_osmp]. *)
Definition with_osmp (root : element) (variables : list (string * fvariable)) : doc (list (string * fvariable)) :=
  let elements := match find root "ModelVariables" with Some e => iter "ScalarVariable" e | None => [] end in
  triples ← foldE (add_triple variables) [] elements;
  raise: EOsmpUndeclared triples.*1 if: negb (bool_decide (triples = [])) && negb (declares_osmp root);;
  declared ← foldE (λ declared br,
       v ← osmp_binary br.1 br.2 variables;
       Ok (foldl (λ d rm, dset d (fv_name rm.2.1) (set_member br.1 rm.2.1)) (dset declared br.1 v) br.2))
     variables triples;
  Ok (with_unannotated declared).

(** [_read_fmi2]. *)
Definition read_fmi2 (root : element) : doc model_description :=
  match find root "CoSimulation" with
  | None => Err ENoCoSimulation
  | Some co =>
      match e_get root "guid" with
      | None => Err ENoGuid
      | Some guid =>
          variables ← fmi2_variables root;
          let outside := filter (λ v, dget SCALARS (fv_kind v) = None) (variables.*2 : list fvariable) in
          raise: EOutside (fv_name <$> outside) if: negb (bool_decide (outside = []));;
          variables ← with_osmp root variables;
          Ok (mk_description (e_get co "modelIdentifier") (Some guid) variables (e_attrib co) [] None FMI2)
      end
  end.

(** [ModelDescription.read]. *)
Definition read_description (ar : archive) : doc model_description :=
  match ar_model ar with
  | None => Err ENoDescription
  | Some root =>
      if bool_decide (e_get root "fmiVersion" = Some FMI2) then read_fmi2 root
      else
        raise: EVersion (e_get root "fmiVersion") if: negb (bool_decide (e_get root "fmiVersion" = Some FMI3));;
        match find root "CoSimulation" with
        | None => Err ENoCoSimulation
        | Some co =>
            variables ← variables_of root;
            terminals ← read_terminals ar;
            bus ← read_bus ar;
            Ok (mk_description (e_get co "modelIdentifier") (e_get root "instantiationToken") variables (e_attrib co)
                  terminals bus FMI3)
        end
  end.

(** [array_problem]: whether the dimensions of a variable cannot be carried. *)
Definition array_problem (v : fvariable) : bool :=
  if negb (is_array v) then false
  else match dget SCALARS (fv_kind v) with
       | Some sc =>
           negb (sc_array sc)
           || bool_decide (None ∈ fv_shape v)
           || match fv_value_count v with
              | None => true
              | Some n => SIZE_MAX / size_of (sc_field sc) <? n
              end
       | None => true
       end.
