(* ===== verification/FmuMapping.v ===== *)
(** * Channels and the variables of an FMU

    Models [fmi/mapping.py] and the binding half of [fmi/single.py]: the
    arguments [--bind] and [--start], the mapping that is derived when there are
    none, the checks of each Channel ([bind_channel], [clocked_payload]), and the
    bindings a participant starts with ([bind_channels]).

    FmuMappingProofs.v proves which Messages of an accepted Channel the codec of
    Schema.v takes, and that any Message the codec gives is written. What the host
    can allocate is a parameter. *)

From Stdlib Require Import ZArith Lia Ascii.
From S2P Require Import Prelude PyFloat Json SchemaTypes Schema Pointer Manifest CsvText Csv FmuRuntime FmuGroup FmuGroupProofs FmuGroupRun FmuSingle FmuDescription.
Open Scope Z_scope.

(** ** The initialization line *)

Inductive direction := DIn | DOut.
#[export] Instance direction_eq_dec : EqDecision direction.
Proof. solve_decision. Defined.

(** The Channels with their direction and schema, and the schemas. *)
Record init_line := mk_init {
  il_channels : list (string * (direction * string));
  il_schemas : list (string * list field);
}.

Abbreviation fields := (list (string * field)).

Definition fields_dict (fs : list field) : fields := foldl (λ d f, dset d (fd_name f) f) [] fs.

(** [channel_fields]. *)
Definition channel_fields (init : init_line) : doc (list (string * fields)) :=
  foldE (λ d c, match dget (il_schemas init) c.2.2 with
                | Some fs => Ok (dset d c.1 (fields_dict fs))
                | None => Err (EKey c.2.2)
                end) [] (il_channels init).

(** [causality_of]. *)
Definition causality_of (d : direction) : string := match d with DIn => "input" | DOut => "output" end.

Definition fields_of (by_channel : list (string * fields)) (channel : string) : fields := default [] (dget by_channel channel).

(** ** Derived and declared mappings *)

(** [_declarations]: the fields of one direction and their Channels. *)
Definition declarations (init : init_line) (by_channel : list (string * fields)) (dir : direction)
    : list (string * string) :=
  foldl (λ declared c, if decide (c.2.1 = dir)
                       then foldl (λ d f, dset d f c.1) declared (fields_of by_channel c.1).*1 else declared)
    [] (il_channels init).

(** [_require_total_match]. *)
Definition require_total_match (declared : list (string * string)) (variables : list string) : doc () :=
  _ ← foldE (λ _ nc, raise_if (negb (bool_decide (nc.1 ∈ variables))) (EUnmatchedField nc.2 nc.1)) () declared;
  foldE (λ _ name, raise_if (negb (dmem declared name)) (EUnmatchedVariable name)) () variables.

Definition variable_in (d : model_description) (name : string) : doc fvariable :=
  match dget (md_variables d) name with Some v => Ok v | None => Err (EKey name) end.

(** [derived_bindings]. *)
Definition derived_bindings (init : init_line) (by_channel : list (string * fields)) (d : model_description)
    : doc (list (string * list (string * fvariable))) :=
  _ ← require_total_match (declarations init by_channel DIn) (md_inputs d);
  _ ← require_total_match (declarations init by_channel DOut) (md_outputs d);
  mapE (λ cf : string * fields, bound ← mapE (λ f, v ← variable_in d f; Ok (f, v)) cf.2.*1; Ok (cf.1, bound)) by_channel.

(** [_parse_binding]. *)
Definition parse_binding (bind : string) (by_channel : list (string * fields)) : doc (string * string * string) :=
  let '(target, variable) := partition "=" bind in
  match variable, rpartition ":" target with
  | Some variable, Some (channel, field) =>
      raise: EBindSyntax bind if: String.eqb channel "" || String.eqb field "" || String.eqb variable "";;
      match dget by_channel channel with
      | None => Err (EBindChannel bind channel)
      | Some fs =>
          raise: EBindField bind field if: negb (dmem fs field);;
          Ok (channel, field, variable)
      end
  | _, _ => Err (EBindSyntax bind)
  end.

(** [bound_fields]. *)
Definition add_bind (by_channel : list (string * fields)) (bound : list (string * list (string * string))) (bind : string)
    : doc (list (string * list (string * string))) :=
  '(channel, field, variable) ← parse_binding bind by_channel;
  let mine := default [] (dget bound channel) in
  raise: EBindTwice bind if: dmem mine field;;
  Ok (dset bound channel (dset mine field variable)).
Definition bound_fields (binds : list string) (by_channel : list (string * fields))
    : doc (list (string * list (string * string))) :=
  foldE (add_bind by_channel) ((λ cf, (cf.1, [])) <$> by_channel) binds.

(** [declared_bindings] and [_declared_variable]. *)
Definition declared_bindings (binds : list string) (by_channel : list (string * fields)) (d : model_description)
    : doc (list (string * list (string * fvariable))) :=
  bound ← bound_fields binds by_channel;
  mapE (λ cb : string * list (string * string),
    vs ← mapE (λ fn : string * string, match dget (md_variables d) fn.2 with
                                       | Some v => Ok (fn.1, v)
                                       | None => Err (EUndeclared fn.1 fn.2)
                                       end) cb.2;
    Ok (cb.1, vs)) bound.

(** ** One variable *)

(** [_osmp_problem] and [unmappable]: whether there is a reason. *)
Definition osmp_problem (v : fvariable) : bool :=
  bool_decide (is_Some (fv_osmp_member v)) || bool_decide (is_Some (fv_osmp_unannotated v)).
Definition unmappable (v : fvariable) : bool :=
  if osmp_problem v then true
  else if String.eqb (fv_kind v) CLOCK then true
  else if String.eqb (fv_kind v) BINARY then negb (bool_decide (fv_value_count v = Some 1))
  else match dget SCALARS (fv_kind v) with
       | None => true
       | Some _ => array_problem v
       end.

Definition require_mappable (v : fvariable) : doc () := raise_if (unmappable v) (EUnmappable (fv_name v)).

Definition CALCULATED : string := "calculatedParameter".

(** [_require_causality]. *)
Definition require_causality (v : fvariable) (causality version : string) : doc () :=
  let readable := String.eqb (fv_causality v) CALCULATED && String.eqb causality "output" && String.eqb version FMI2 in
  raise_if (negb (String.eqb (fv_causality v) causality) && negb readable) (ECausality (fv_name v) causality).

(** [_carrying_field] and [_require_field_type]. *)
Definition carries (v : fvariable) (f : field) : bool :=
  match dget SCALARS (fv_kind v) with
  | Some sc =>
      bool_decide (fd_type f = sc_field sc)
      && match fd_count f with
         | None => negb (is_array v)
         | Some n => is_array v && bool_decide (fv_value_count v = Some (Z.of_nat n))
         end
  | None => false
  end.
Definition require_field_type (v : fvariable) (f : field) : doc () :=
  raise_if (negb (carries v f)) (EFieldType (fd_name f) (fv_name v)).

Definition LENGTH_CEILINGS : list (prim * Z) :=
  [(U8, 255); (U16, 65535); (U32, 4294967295); (U64, 18446744073709551615)].
Definition OSMP_SIZE_CEILING : Z := 2147483647.

Definition length_name (field : string) : string := (field ++ "_length")%string.

(** [binary_field]. *)
Definition binary_of (v : fvariable) (fs : fields) (name causality : string) : doc binary_field :=
  match dget fs name with
  | None => Err (EKey name)
  | Some spec =>
      match fd_count spec with
      | Some n =>
          raise: EBinaryField name if: negb (bool_decide (fd_type spec = U8));;
          match dget fs (length_name name) with
          | None => Err (ELengthMissing name)
          | Some length =>
              match fd_count length, dget LENGTH_CEILINGS (fd_type length) with
              | None, Some ceiling =>
                  raise: ELengthCeiling name (Z.of_nat n) ceiling if: ceiling <? Z.of_nat n;;
                  raise: EMaxSize (fv_name v) (Z.of_nat n) (default 0 (fv_max_size v))
                    if: String.eqb causality "input"
                        && match fv_max_size v with Some m => m <? Z.of_nat n | None => false end;;
                  Ok (mk_binary_field name (length_name name) (Z.of_nat n) "")
              | _, _ => Err (ELengthType name)
              end
          end
      | None => Err (EBinaryField name)
      end
  end.

(** [osmp_field]. *)
Definition osmp_field (v : fvariable) (fs : fields) (name causality : string) : doc binary_field :=
  b ← binary_of v fs name causality;
  raise: EOsmpCeiling name (bf_capacity b) if: OSMP_SIZE_CEILING <? bf_capacity b;;
  Ok b.

(** [event_time_field]. *)
Definition event_time_field (channel name : string) (fs : fields) : doc string :=
  let time := (name ++ "_event_time_ns")%string in
  match dget fs time with
  | None => Err (EEventTimeMissing channel time)
  | Some f =>
      raise: EEventTimeType channel time if: bool_decide (is_Some (fd_count f)) || negb (bool_decide (fd_type f = U64));;
      Ok time
  end.

(** The fields a clocked Channel carries, and no others. *)
Definition clocked_fields (channel name causality : string) (v : fvariable) (fs : fields) : doc binary_field :=
  b ← binary_of v fs name causality;
  time ← event_time_field channel name fs;
  _ ← foldE (λ _ f, raise_if (negb (bool_decide (f ∈ [bf_field b; bf_length b; time]))) (ENotCarried channel f)) () fs.*1;
  Ok (mk_binary_field (bf_field b) (bf_length b) (bf_capacity b) time).

(** [_unsupported_clock]: the Clock, unless there is a reason against it. *)
Definition supported_clock (v : fvariable) (d : model_description) : option fvariable :=
  match fv_clocks v with
  | [r] =>
      clock ← md_clock d r;
      if bool_decide (fv_interval clock = Some TRIGGERED) && String.eqb (fv_causality clock) (fv_causality v) && has_event_mode d
      then Some clock else None
  | _ => None
  end.
Definition unclockable (v : fvariable) (d : model_description) : bool :=
  negb (String.eqb (fv_kind v) BINARY) || unmappable v || bool_decide (supported_clock v d = None).

(** A value reference as [ctypes.c_uint32] holds it. *)
Definition u32 (z : Z) : Z := z mod 2 ^ 32.
Definition reference_of (v : fvariable) : Z := u32 (default 0 (fv_reference v)).

(** ** One Channel *)

Section allocation.
(** Whether the host allocates a buffer of so many bytes. *)
Context (allocates : Z → bool).

(** [(ctypes.c_char * n)()]. *)
Definition allocate (n : Z) : doc () :=
  raise: ENegativeArray n if: n <? 0;;
  raise_if (negb (allocates n)) (ENoMemory n).

(** [clocked_payload] and [ClockedPayload]: the buffer of an input is allocated. *)
Definition clocked_payload (channel : string) (dir : direction) (fs : fields) (bound : list (string * fvariable))
    (d : model_description) : doc (option (clocked * binary_field)) :=
  match filter (λ fv, fv_clocks fv.2 ≠ []) bound with
  | [] => Ok None
  | (name, v) :: _ =>
      raise: EClockedOthers channel name if: (1 <? zlen bound);;
      raise: EClock (fv_name v) if: negb (String.eqb (fv_kind v) BINARY);;
      _ ← require_mappable v;
      _ ← require_causality v (causality_of dir) FMI3;
      match supported_clock v d with
      | None => Err (EClock (fv_name v))
      | Some clock =>
          b ← clocked_fields channel name (causality_of dir) v fs;
          _ ← match dir with DIn => allocate (bf_capacity b) | DOut => Ok () end;
          Ok (Some (mk_clocked (reference_of v) (reference_of clock), b))
      end
  end.

(** What one Channel's fields are bound to; an OSMP variable is passed by address. *)
Inductive bound_group := BGroup (g : group) | BOsmp (bound : list (osmp_address * binary_field)).

(** The dicts and lists [bind_channel] fills. *)
Record binds := mk_binds {
  bd_scalars : list (string * list (string * fvariable));
  bd_binaries : list (fvariable * binary_field);
  bd_addressed : list (osmp_address * binary_field);
  bd_lengths : list (string * string);
}.

Definition bind_field (fs : fields) (bound : list (string * fvariable)) (causality version : string) (st : binds)
    (nf : string * field) : doc binds :=
  match dget bound nf.1 with
  | None => Ok st
  | Some v =>
      _ ← require_mappable v;
      _ ← require_causality v causality version;
      match fv_osmp v with
      | Some address =>
          b ← osmp_field v fs nf.1 causality;
          Ok (mk_binds (bd_scalars st) (bd_binaries st) (bd_addressed st ++ [(address, b)])
                (dset (bd_lengths st) (bf_length b) nf.1))
      | None =>
          if String.eqb (fv_kind v) BINARY then
            b ← binary_of v fs nf.1 causality;
            Ok (mk_binds (bd_scalars st) (bd_binaries st ++ [(v, b)]) (bd_addressed st)
                  (dset (bd_lengths st) (bf_length b) nf.1))
          else
            _ ← require_field_type v nf.2;
            Ok (mk_binds
                  (dset (bd_scalars st) (fv_kind v) (default [] (dget (bd_scalars st) (fv_kind v)) ++ [(nf.1, v)]))
                  (bd_binaries st) (bd_addressed st) (bd_lengths st))
      end
  end.

(** [_require_every_field_carried]. *)
Definition require_every_field_carried (channel : string) (fs : fields) (bound : list (string * fvariable))
    (lengths : list (string * string)) : doc () :=
  foldE (λ _ f,
    raise: EFieldTwice channel f if: dmem bound f && dmem lengths f;;
    raise_if (negb (dmem bound f) && negb (dmem lengths f)) (EFieldUnbound channel f)) () fs.*1.

(** [ScalarGroup.__init__]: how many values a variable spans. *)
Definition span_of (v : fvariable) : option Z := if is_array v then fv_value_count v else None.
Definition scalar_group_of (kind : string) (bound : list (string * fvariable)) : scalar_group :=
  mk_scalar_group kind ((λ fv, reference_of fv.2) <$> bound) ((λ fv, (fv.1, span_of fv.2)) <$> bound).
Definition element_size (kind : string) : Z :=
  match dget SCALARS kind with Some sc => size_of (sc_field sc) | None => 0 end.

(** [_scalar_group]. *)
Definition bind_scalars (channel : string) (kb : string * list (string * fvariable)) : doc bound_group :=
  let g := scalar_group_of kb.1 kb.2 in
  raise: EAllocation channel kb.1 if: negb (allocates (sg_count g * element_size kb.1));;
  Ok (BGroup (GScalar g)).

(** [BinaryGroup.__init__] allocates when it writes, [OsmpGroup.__init__] too. *)
Definition allocate_each (causality : string) (capacities : list Z) : doc () :=
  if String.eqb causality "input" then foldE (λ _ n, allocate n) () capacities else Ok ().

(** [bind_channel]. *)
Definition bind_channel (channel : string) (dir : direction) (fs : fields) (bound : list (string * fvariable))
    (version : string) : doc (list bound_group) :=
  st ← foldE (bind_field fs bound (causality_of dir) version) (mk_binds [] [] [] []) fs;
  _ ← require_every_field_carried channel fs bound (bd_lengths st);
  scalars ← mapE (bind_scalars channel) (bd_scalars st);
  binaries ← (if decide (bd_binaries st = []) then Ok []
              else _ ← allocate_each (causality_of dir) ((λ vb, bf_capacity vb.2) <$> bd_binaries st);
                   Ok [BGroup (GBinary ((λ vb, (reference_of vb.1, vb.2)) <$> bd_binaries st))]);
  addressed ← (if decide (bd_addressed st = []) then Ok []
               else _ ← allocate_each (causality_of dir) ((λ ab, Z.max (bf_capacity ab.2) 1) <$> bd_addressed st);
                    Ok [BOsmp (bd_addressed st)]);
  Ok (scalars ++ binaries ++ addressed).

(** [ChannelMapping]. *)
Record channel_mapping := mk_mapping {
  cm_inputs : list (string * list bound_group);
  cm_outputs : list (string * list bound_group);
  cm_clocked_in : list (string * (clocked * binary_field));
  cm_clocked_out : list (string * (clocked * binary_field));
}.

(** One turn of the loop of [bind_channels]. *)
Definition bind_one (by_channel : list (string * fields)) (bound : list (string * list (string * fvariable)))
    (d : model_description) (m : channel_mapping) (c : string * (direction * string)) : doc channel_mapping :=
  let '(channel, (dir, _)) := c in
  let mine := default [] (dget bound channel) in
  payload ← clocked_payload channel dir (fields_of by_channel channel) mine d;
  match (payload : option (clocked * binary_field)), dir with
  | Some p, DIn => Ok (mk_mapping (cm_inputs m) (cm_outputs m) (dset (cm_clocked_in m) channel p) (cm_clocked_out m))
  | Some p, DOut => Ok (mk_mapping (cm_inputs m) (cm_outputs m) (cm_clocked_in m) (dset (cm_clocked_out m) channel p))
  | None, _ =>
      groups ← bind_channel channel dir (fields_of by_channel channel) mine (md_version d);
      Ok match dir with
         | DIn => mk_mapping (dset (cm_inputs m) channel groups) (cm_outputs m) (cm_clocked_in m) (cm_clocked_out m)
         | DOut => mk_mapping (cm_inputs m) (dset (cm_outputs m) channel groups) (cm_clocked_in m) (cm_clocked_out m)
         end
  end.

(** [bind_channels]. *)
Definition bind_channels (init : init_line) (arguments : list string) (d : model_description) : doc channel_mapping :=
  by_channel ← channel_fields init;
  bound ← (if decide (arguments = []) then derived_bindings init by_channel d
           else declared_bindings arguments by_channel d);
  foldE (bind_one by_channel bound d) (mk_mapping [] [] [] []) (il_channels init).
End allocation.

(** The groups of a binding of an FMI 3.0 FMU. *)
Definition plain_groups (gs : list bound_group) : option binding :=
  mapM (λ g, match g with BGroup g => Some g | BOsmp _ => None end) gs.

(** The participant [_bind_channels] leaves, for FMI 3.0. *)
Definition starting (m : channel_mapping) : option single :=
  inputs ← mapM (λ cg : string * list bound_group, b ← plain_groups cg.2; Some (cg.1, b)) (cm_inputs m);
  outputs ← mapM (λ cg : string * list bound_group, b ← plain_groups cg.2; Some (cg.1, b)) (cm_outputs m);
  Some (mk_single None inputs outputs
          (if decide (cm_clocked_in m = [] ∧ cm_clocked_out m = []) then None
           else Some (mk_events (cm_clocked_out m) (cm_clocked_in m))) None [] 0).

(** ** Start values *)

Inductive start_text := TScalar (n : pynum) | TArray (l : list pynum) | TBinary (bs : bytes).

(** [_scalar_start]. *)
Definition scalar_start (v : fvariable) (text : string) : doc pynum :=
  match dget SCALARS (fv_kind v) with
  | None => Err (EKey (fv_kind v))
  | Some sc =>
      r ← sc_parse sc text;
      match (r : option pynum) with Some n => Ok n | None => Err (EStartValue (fv_name v) text) end
  end.

(** [_binary_start]. *)
Definition binary_start (v : fvariable) (text : string) : doc bytes :=
  raise: EStartArray (fv_name v) if: negb (bool_decide (fv_value_count v = Some 1));;
  match from_hex (chars text) with
  | None => Err (EStartValue (fv_name v) text)
  | Some bs =>
      raise: EMaxSize (fv_name v) (zlen bs) (default 0 (fv_max_size v))
        if: match fv_max_size v with Some m => m <? zlen bs | None => false end;;
      Ok bs
  end.

(** [start_value]. *)
Definition start_value (v : fvariable) (text : string) : doc start_text :=
  raise: EStartOsmp (fv_name v) if: bool_decide (is_Some (fv_osmp v : option osmp_address)) || osmp_problem v;;
  if String.eqb (fv_kind v) BINARY then bs ← binary_start v text; Ok (TBinary bs)
  else
    match dget SCALARS (fv_kind v) with
    | None => Err (EStartKind (fv_name v) (fv_kind v))
    | Some _ =>
        raise: EStartArray (fv_name v) if: array_problem v;;
        if is_array v then
          let elements := split_on " " text in
          raise: EStartCount (fv_name v) (zlen elements) if: negb (bool_decide (fv_value_count v = Some (zlen elements)));;
          l ← mapE (scalar_start v) elements; Ok (TArray l)
        else n ← scalar_start v text; Ok (TScalar n)
    end.

(** What [_write_start_value] writes of it. *)
Definition start_of (v : fvariable) (t : start_text) : start :=
  mk_start (fv_name v) (String.eqb (fv_causality v) STRUCTURAL) (reference_of v)
    match t with
    | TScalar n => SScalars (fv_kind v) [n]
    | TArray l => SScalars (fv_kind v) l
    | TBinary bs => SBinary bs
    end.

(** [start_values]. *)
Definition start_values (starts : list string) (d : model_description) : doc (list (fvariable * start_text)) :=
  mapE (λ start,
    let '(name, text) := partition "=" start in
    match text with
    | Some text =>
        raise: EStartSyntax start if: String.eqb name "";;
        match dget (md_variables d) name with
        | None => Err (EUndeclared start name)
        | Some v =>
            raise: EStartCalculated name if: String.eqb (md_version d) FMI2 && String.eqb (fv_causality v) CALCULATED;;
            t ← start_value v text; Ok (v, t)
        end
    | None => Err (EStartSyntax start)
    end) starts.
