(* ===== verification/FmuMappingProofs.v ===== *)
(** * Accepted mappings and the codec

    A Channel that [bind_channel] of FmuMapping.v accepts is bound field by
    field to what its schema carries. [out_message_packs]: a Message that an
    output binding reads is packed by the codec of Schema.v exactly if no field
    is bound to a [UInt8] array. [in_message_written]: a Message the codec
    unpacks is written by an input binding, up to a length field that states
    more than the payload has, and the FMU's own failures. *)

From Stdlib Require Import ZArith Lia Ascii.
From S2P Require Import Prelude PyFloat Json SchemaTypes Schema Pointer Manifest CsvText Csv FmuRuntime FmuGroup FmuGroupProofs FmuGroupRun FmuSingle FmuDescription FmuMapping.
Import Struct.
Open Scope Z_scope.

(** ** Which values are packed *)

Definition is_Ok {E A} (r : result E A) : Prop := ∃ a, r = Ok a.

Lemma pack_items_app its1 its2 vs1 vs2 :
  length vs1 = length its1 →
  is_Ok (pack_items (its1 ++ its2) (vs1 ++ vs2)) ↔ is_Ok (pack_items its1 vs1) ∧ is_Ok (pack_items its2 vs2).
Proof.
  revert vs1. induction its1 as [|it its1 IH]; intros [|v vs1] Hl; try done; cbn [app pack_items].
  { split; [|by intros [_ ?]]. intros ?. split; [by exists []|done]. }
  destruct (pack_item it v) as [b|e]; cbn; [|split; [by intros []|by intros [[] _]]].
  specialize (IH vs1 ltac:(cbn in Hl; lia)).
  destruct (pack_items (its1 ++ its2) (vs1 ++ vs2)) as [c|e], (pack_items its1 vs1) as [d|e']; cbn.
  - split; [|by eexists]. intros _. split; [by eexists|]. by apply IH; eexists.
  - split; [|by intros [[] _]]. intros _. destruct (proj1 IH) as [[] _]; [by eexists|done].
  - split; [by intros []|]. intros [_ H]. destruct (proj2 IH) as []; [|done]. split; [by eexists|done].
  - split; [by intros []|by intros [[] _]].
Qed.

Lemma spread_from pl v flat :
  spread pl v flat = match spread pl v [] with Ok seg => Ok (flat ++ seg) | Err e => Err e end.
Proof. destruct pl; cbn; [done|..]; destruct (py_len v); try done; by case_decide. Qed.

Lemma spread_length pl v seg : spread pl v [] = Ok seg → length seg = length (plan_fmt pl).
Proof.
  destruct pl as [p|n|p n]; cbn.
  - by intros [= <-].
  - destruct (py_len v); [|done]. case_decide; [|done]. by intros [= <-].
  - rewrite length_replicate. destruct v as [x|bs|l]; cbn; [done|..]; case_decide; try done; intros [= <-]; by rewrite length_fmap.
Qed.

(** A field value that [pack] takes. *)
Definition taken (f : field) (v : value) : Prop :=
  ∃ seg, spread (field_plan f) v [] = Ok seg ∧ is_Ok (pack_items (plan_fmt (field_plan f)) seg).

Lemma spread_all_is_Ok fs vals flat :
  is_Ok (spread_all fs vals flat) →
  ∃ segs, spread_all fs vals flat = Ok (flat ++ concat segs)
  ∧ Forall2 (λ f seg, ∃ v, dget vals (fd_name f) = Some v ∧ spread (field_plan f) v [] = Ok seg) fs segs.
Proof.
  revert flat. induction fs as [|f fs IH]; intros flat; cbn [spread_all].
  { intros _. exists []. rewrite app_nil_r. split; [done|constructor]. }
  destruct (dget vals (fd_name f)) as [v|] eqn:Hv; [|by intros []]. rewrite spread_from.
  destruct (spread (field_plan f) v []) as [seg|e] eqn:Hs; cbn; [|by intros []].
  intros (segs & -> & H2)%IH. exists (seg :: segs). cbn. rewrite app_assoc. split; [done|]. constructor; eauto.
Qed.

Lemma spread_all_segs_Ok fs vals flat segs :
  Forall2 (λ f seg, ∃ v, dget vals (fd_name f) = Some v ∧ spread (field_plan f) v [] = Ok seg) fs segs →
  spread_all fs vals flat = Ok (flat ++ concat segs).
Proof.
  intros H. revert flat. induction H as [|f seg fs segs (v & Hv & Hs) _ IH]; intros flat; cbn [spread_all].
  { by rewrite app_nil_r. }
  rewrite Hv, spread_from, Hs. cbn. by rewrite IH, <- app_assoc.
Qed.

Lemma pack_segs fs segs :
  Forall2 (λ f seg, length seg = length (plan_fmt (field_plan f))) fs segs →
  is_Ok (pack_items (mt_items fs) (concat segs)) ↔ Forall2 (λ f seg, is_Ok (pack_items (plan_fmt (field_plan f)) seg)) fs segs.
Proof.
  unfold mt_items. induction 1 as [|f seg fs segs Hl _ IH]; cbn [fmap list_fmap concat].
  { split; [constructor|]. intros _. by exists []. }
  rewrite pack_items_app, IH by done. split; [intros []; by constructor|]. by inversion 1.
Qed.

(** The body of [pack] succeeds exactly if every field has a value it takes. *)
Lemma pack_fields_taken fs vals :
  is_Ok (pack_fields fs vals) ↔ Forall (λ f, ∃ v, dget vals (fd_name f) = Some v ∧ taken f v) fs.
Proof.
  unfold pack_fields. split.
  - intros (data & (flat & Hs & Hp)%bind_Ok). destruct (spread_all_is_Ok fs vals []) as (segs & Hs' & H2); [by eexists|].
    rewrite Hs in Hs'. injection Hs' as ->. cbn [app] in Hp. unfold Struct.pack in Hp. case_decide as Hl; [|done].
    assert (Forall2 (λ f seg, is_Ok (pack_items (plan_fmt (field_plan f)) seg)) fs segs) as H3.
    { apply pack_segs; [|by eexists]. eapply Forall2_impl; [exact H2|]. intros f seg (v & _ & ?). by eapply spread_length. }
    apply Forall_lookup_2. intros i f Hf. destruct (Forall2_lookup_l _ _ _ _ _ H2 Hf) as (seg & Hi & v & Hv & Hsp).
    destruct (Forall2_lookup_lr _ _ _ _ _ _ H3 Hf Hi) as [b Hb]. exists v. split; [done|]. exists seg. split; [done|]. by exists b.
  - intros H. assert (∃ segs, Forall2 (λ f seg, ∃ v, dget vals (fd_name f) = Some v ∧ spread (field_plan f) v [] = Ok seg) fs segs
      ∧ Forall2 (λ f seg, is_Ok (pack_items (plan_fmt (field_plan f)) seg)) fs segs) as (segs & H2 & H3).
    { induction H as [|f fs (v & Hv & seg & Hs & Hp) _ (segs & IH1 & IH2)]; [exists []; by split; constructor|].
      exists (seg :: segs). split; constructor; eauto. }
    rewrite (spread_all_segs_Ok _ _ _ _ H2). cbn.
    assert (Forall2 (λ f seg, length seg = length (plan_fmt (field_plan f))) fs segs) as Hl.
    { eapply Forall2_impl; [exact H2|]. intros f seg (v & _ & ?). by eapply spread_length. }
    unfold Struct.pack. rewrite decide_True; [by apply pack_segs|].
    unfold mt_items. clear H2 H3. induction Hl as [|f seg fs segs Hl _ IH]; cbn; [done|].
    rewrite !length_app, IH; [by rewrite Hl|]. by apply Forall_cons in H as [_ H].
Qed.

Lemma mt_pack_taken fs vals :
  is_Ok (mt_pack fs vals)
  ↔ "self"%string ∉ vals.*1 ∧ Forall (λ f, ∃ v, dget vals (fd_name f) = Some v ∧ taken f v) fs.
Proof.
  rewrite <- pack_fields_taken. unfold mt_pack. case_bool_decide as H; [|naive_solver].
  split; [by intros [? [=]]|by intros []].
Qed.

(** ** What a read gives *)

(** The numbers a C variable of a type holds. *)
Definition native_num (p : prim) (n : pynum) : Prop :=
  match int_range p, n with
  | Some (lo, hi), PInt z => lo ≤ z ≤ hi
  | None, PFloat b =>
      match p with
      | F32 => ∃ c, 0 ≤ c < 2 ^ 32 ∧ b = widen c
      | _ => 0 ≤ b < 2 ^ 64
      end
  | _, _ => False
  end.

Lemma narrow_widen_some c : 0 ≤ c < 2 ^ 32 → is_Some (narrow (widen c)).
Proof.
  intros Hc. destruct (is_special 23 8 c) eqn:Hs.
  - unfold narrow. assert (is_special 52 11 (widen c) = true) as ->; [|by eexists].
    unfold widen. rewrite Hs. set (m := if f_man 23 c =? 0 then 0 else _).
    assert (0 ≤ m < 2 ^ 52) as Hm.
    { unfold m, f_man. destruct (_ =? 0); [lia|]. assert (0 ≤ c mod 2 ^ 23 < 2 ^ 23) by (apply Z.mod_pos_bound; lia).
      split; [apply Z.lor_nonneg; lia|]. set (a := c mod 2 ^ 23 * 2 ^ 29).
      assert (0 ≤ a < 2 ^ 52) as [] by (unfold a; lia).
      destruct (Z.eq_dec (Z.lor a (2 ^ 51)) 0) as [->|]; [lia|].
      assert (0 ≤ Z.lor a (2 ^ 51)) by (apply Z.lor_nonneg; lia). apply Z.log2_lt_pow2; [lia|]. rewrite Z.log2_lor by lia.
      apply Z.max_lub_lt; [|done]. destruct (Z.eq_dec a 0) as [->|]; [done|]. apply Z.log2_lt_pow2; lia. }
    unfold is_special, f_exp, f_join. destruct (f_sign 23 8 c); apply Z.eqb_eq.
    + symmetry. apply Z.mod_unique with (q := 1); [lia|]. symmetry. apply Z.div_unique with (r := m); lia.
    + rewrite Z.mod_small; [symmetry; apply Z.div_unique with (r := m); lia|]. split; [apply Z.div_pos; lia|].
      apply Z.div_lt_upper_bound; lia.
  - rewrite narrow_widen; [by eexists|done|]. unfold is_nan32, is_nan. by rewrite Hs.
Qed.

Lemma native_packs p n : native_num p n → is_Ok (pack_prim p n).
Proof.
  unfold native_num, pack_prim. destruct (int_range p) as [[lo hi]|] eqn:Hr, n as [z|b]; try done.
  - intros Hz. rewrite (proj2 (in_range_true _ _ _) Hz). by eexists.
  - destruct p; try done.
    + intros (c & Hc & ->). cbn [pack_float]. destruct (narrow_widen_some c Hc) as [d ->]. by eexists.
    + intros _. by eexists.
Qed.

Definition kind_prim (kind : string) : option prim := sc_field <$> dget SCALARS kind.

(** What the buffers of a call hold after it, whatever the FMU writes. *)
Definition typed_fmu (b : behaviour) : Prop :=
  ∀ log c a, b log c = Some a → an_status a = FMI_SUCCESS_STATUS →
    match c with
    | GetValues kind _ count =>
        zlen (an_values a) = count ∧ ∀ p, kind_prim kind = Some p → Forall (native_num p) (an_values a)
    | GetBinary refs => length (an_binary a) = length refs
    | _ => True
    end.

(** The value a field is given: a number, an array, a padded payload, a length. *)
Inductive shape := ShNum (kind : string) | ShArr (kind : string) (n : Z) | ShPayload (cap : Z) | ShLength (cap : Z).

Definition shaped (s : shape) (v : value) : Prop :=
  match s, v with
  | ShNum kind, VNum n => ∀ p, kind_prim kind = Some p → native_num p n
  | ShArr kind n, VList l => length l = Z.to_nat n ∧ ∀ p, kind_prim kind = Some p → Forall (native_num p) l
  | ShPayload cap, VBytes bs => length bs = Z.to_nat cap
  | ShLength cap, VNum (PInt k) => 0 ≤ k ≤ cap
  | _, _ => False
  end.

(** The fields a binding fills. *)
Definition scalar_shape (kind : string) (f : string * option Z) : string * shape :=
  (f.1, match f.2 with None => ShNum kind | Some n => ShArr kind n end).
Definition payload_shapes (b : binary_field) : list (string * shape) :=
  [(bf_field b, ShPayload (bf_capacity b)); (bf_length b, ShLength (bf_capacity b))].
Definition group_shapes (g : group) : list (string * shape) :=
  match g with
  | GScalar g => scalar_shape (sg_kind g) <$> sg_fields g
  | GBinary bound => concat ((λ rb, payload_shapes rb.2) <$> bound)
  end.
Definition shapes (b : binding) : list (string * shape) := concat (group_shapes <$> b).

Definition spans_ok (fs : list (string * option Z)) : Prop := Forall (λ f, 0 ≤ default 1 f.2) fs.
Definition group_ok (g : group) : Prop :=
  match g with
  | GScalar g => spans_ok (sg_fields g)
  | GBinary bound => Forall (λ rb, bf_length rb.2 ≠ bf_field rb.2) bound
  end.

Definition filled (W : list (string * shape)) (vals : values) : Prop :=
  (∀ k s, (k, s) ∈ W → is_Some (dget vals k))
  ∧ ∀ k v, dget vals k = Some v → ∃ s, (k, s) ∈ W ∧ shaped s v.

Lemma filled_set W vals k s v : filled W vals → shaped s v → filled (W ++ [(k, s)]) (dset vals k v).
Proof.
  intros [H1 H2] Hs. split.
  - intros k' s' [Hin|[= -> ->]%list_elem_of_singleton]%elem_of_app.
    + destruct (decide (k = k')) as [->|Hne]; [by rewrite dget_dset_eq; eexists|]. rewrite dget_dset_ne by done. by eapply H1.
    + rewrite dget_dset_eq. by eexists.
  - intros k' v'. destruct (decide (k = k')) as [->|Hne].
    + rewrite dget_dset_eq. intros [= <-]. exists s. split; [set_solver|done].
    + rewrite dget_dset_ne by done. intros (s' & ? & ?)%H2. exists s'. split; [set_solver|done].
Qed.

Lemma foldl_spans (fs : list (string * option Z)) a : foldl (λ n f, n + default 1 f.2) a fs = a + foldl (λ n f, n + default 1 f.2) 0 fs.
Proof.
  revert a. induction fs as [|f fs IH]; intros a; cbn [foldl]; [lia|]. rewrite IH, (IH (0 + _)). lia.
Qed.

Lemma spans_nonneg fs : spans_ok fs → 0 ≤ foldl (λ (n : Z) (f : string * option Z), n + default 1 f.2) 0 fs.
Proof. induction 1 as [|f fs Hf _ IH]; cbn [foldl]; [lia|]. rewrite foldl_spans. lia. Qed.

Lemma deal_filled kind fs vs W into :
  spans_ok fs → zlen vs = foldl (λ n f, n + default 1 f.2) 0 fs →
  (∀ p, kind_prim kind = Some p → Forall (native_num p) vs) →
  filled W into → filled (W ++ (scalar_shape kind <$> fs)) (deal fs vs into).
Proof.
  intros Hs. revert vs W into. induction Hs as [|[name [n|]] fs Hn Hs IH]; intros vs W into Hl Hv Hf; cbn [deal fmap list_fmap].
  { by rewrite app_nil_r. }
  - cbn [foldl default snd from_option id] in *. rewrite foldl_spans in Hl. pose proof (spans_nonneg fs Hs) as Hp. unfold zlen in Hl.
    change ((scalar_shape kind (name, Some n)) :: ?l) with ([(name, ShArr kind n)] ++ l). rewrite app_assoc. apply IH.
    + unfold zlen. rewrite length_drop. lia.
    + intros p Hk. apply Forall_drop. auto.
    + apply filled_set; [done|]. split; [rewrite length_take; lia|]. intros p Hk. apply Forall_take. auto.
  - cbn [foldl default snd from_option id] in *. rewrite foldl_spans in Hl. pose proof (spans_nonneg fs Hs) as Hp. unfold zlen in Hl.
    change ((scalar_shape kind (name, None)) :: ?l) with ([(name, ShNum kind)] ++ l). rewrite app_assoc.
    destruct vs as [|v vs]; [cbn in Hl; lia|]. apply IH.
    + unfold zlen. rewrite length_drop. cbn [length] in *. lia.
    + intros p Hk. specialize (Hv p Hk). by apply Forall_cons in Hv as [_ ?].
    + apply filled_set; [done|]. intros p Hk. specialize (Hv p Hk). by apply Forall_cons in Hv as [? _].
Qed.

Lemma incoming_filled b payload fs W into :
  bf_length b ≠ bf_field b → incoming_payload b payload = Ok fs →
  filled W into → filled (W ++ payload_shapes b) (foldl (λ d kv, dset d kv.1 kv.2) into fs).
Proof.
  unfold incoming_payload. intros Hne H Hf. inv_ok. apply Z.ltb_ge in Hok. unfold zlen in Hok.
  unfold payload_shapes. change [?x; ?y] with ([x] ++ [y]). rewrite app_assoc. cbn [dset]. rewrite decide_False by done.
  cbn [foldl fst snd]. apply filled_set; [apply filled_set; [done|]|]; cbn.
  - rewrite length_app, length_replicate. unfold zlen. lia.
  - unfold zlen. lia.
Qed.

Lemma call_fmu_Ok c co co' a :
  call_fmu c co = (co', Ok a) →
  co_binary co (co_log co) c = Some a ∧ an_status a = FMI_SUCCESS_STATUS ∧ co_binary co' = co_binary co.
Proof.
  unfold call_fmu. destruct (co_binary co (co_log co) c) as [a'|]; [|done].
  destruct (Z.eqb_spec (an_status a') FMI_SUCCESS_STATUS); [|done]. by intros [= <- <-].
Qed.

Lemma payloads_filled bound ps W into vals :
  Forall (λ rb : Z * binary_field, bf_length rb.2 ≠ bf_field rb.2) bound → length ps = length bound →
  foldE (λ into bp, fields ← incoming_payload bp.1 bp.2; Ok (foldl (λ d kv, dset d kv.1 kv.2) into fields)) into
    (zip bound.*2 ps) = Ok vals →
  filled W into → filled (W ++ concat ((λ rb, payload_shapes rb.2) <$> bound)) vals.
Proof.
  intros Hb. revert ps W into. induction Hb as [|[r b] bound Hne _ IH]; intros [|p ps] W into Hl; try done;
    cbn [fmap list_fmap zip zip_with foldE concat snd fst].
  - intros [= <-]. by rewrite app_nil_r.
  - intros (into' & (fs & Hfs & [= <-])%bind_Ok & H)%bind_Ok Hf. rewrite app_assoc. eapply (IH ps); [by injection Hl|exact H|].
    by eapply incoming_filled.
Qed.

Lemma read_group_filled g W into vals co co' :
  typed_fmu (co_binary co) → group_ok g → filled W into → read_group g into co = (co', Ok vals) →
  filled (W ++ group_shapes g) vals ∧ co_binary co' = co_binary co.
Proof.
  intros Ht Hg Hf. destruct g as [g|bound]; cbn [read_group group_shapes].
  - unfold read_scalars, reraise, mbind, fmi_bind.
    destruct (call_fmu _ co) as [co1 [a|e]] eqn:Hc; [|done]. intros [= <- <-].
    apply call_fmu_Ok in Hc as (Ha & Hst & Hco). destruct (Ht _ _ _ Ha Hst) as [Hl Hv]. split; [|done].
    by apply deal_filled.
  - unfold read_binaries, mbind, fmi_bind, lift.
    destruct (call_fmu _ co) as [co1 [a|e]] eqn:Hc; [|done]. intros [= <- Hr].
    apply call_fmu_Ok in Hc as (Ha & Hst & Hco). pose proof (Ht _ _ _ Ha Hst) as Hl. cbn in Hl. split; [|done].
    eapply payloads_filled; [exact Hg| |exact Hr|done]. by rewrite Hl, length_fmap.
Qed.

Lemma read_binding_filled b vals co co' :
  typed_fmu (co_binary co) → Forall group_ok b → read_binding b co = (co', Ok vals) → filled (shapes b) vals.
Proof.
  intros Ht Hb. unfold read_binding, shapes.
  assert (∀ W into, filled W into → read_binding_from b into co = (co', Ok vals) → filled (W ++ concat (group_shapes <$> b)) vals) as H.
  { revert co Ht. induction Hb as [|g b Hg _ IH]; intros co Ht W into Hf; cbn [read_binding_from fmap list_fmap concat].
    { intros [= <- <-]. by rewrite app_nil_r. }
    unfold mbind, fmi_bind. destruct (read_group g into co) as [co1 [into'|e]] eqn:Hr; [|done]. intros H.
    destruct (read_group_filled _ _ _ _ _ _ Ht Hg Hf Hr) as [Hf' Hco]. rewrite app_assoc. eapply IH; [by rewrite Hco|exact Hf'|exact H]. }
  intros Hr. apply (H [] []); [|done]. split; [set_solver|done].
Qed.

(** ** What [bind_channel] accepts *)

Lemma fields_dict_eq fs : NoDup (fd_name <$> fs) → fields_dict fs = (λ f, (fd_name f, f)) <$> fs.
Proof.
  intros Hn. unfold fields_dict.
  assert (∀ l d, NoDup (d.*1 ++ (fd_name <$> l)) → foldl (λ d f, dset d (fd_name f) f) d l = d ++ ((λ f, (fd_name f, f)) <$> l)) as H.
  { induction l as [|f l IH]; intros d Hd; cbn [foldl fmap list_fmap]; [by rewrite app_nil_r|].
    rewrite dset_keys_new.
    2:{ intros Hin. apply NoDup_app in Hd as (_ & Hd & _). apply (Hd _ Hin). left. }
    rewrite IH; [by rewrite <- app_assoc|]. rewrite fmap_app, <- app_assoc. exact Hd. }
  by rewrite (H fs []).
Qed.

Section bind.
Context (D : fields) (bound : list (string * fvariable)) (causality version : string).

Definition is_binary (v : fvariable) : bool := bool_decide (is_Some (fv_osmp v)) || String.eqb (fv_kind v) BINARY.
Definition binary_at (nf : string * field) : binary_field :=
  mk_binary_field nf.1 (length_name nf.1) (Z.of_nat (default 0%nat (fd_count nf.2))) "".

(** The shapes one field gives, and what was checked of it. *)
Definition want (nf : string * field) : list (string * shape) :=
  match dget bound nf.1 with
  | None => []
  | Some v => if is_binary v then payload_shapes (binary_at nf)
              else [scalar_shape (fv_kind v) (nf.1, span_of v)]
  end.
Definition checked (nf : string * field) : Prop :=
  match dget bound nf.1 with
  | None => True
  | Some v =>
      unmappable v = false
      ∧ if is_binary v then ∃ b, binary_of v D nf.1 causality = Ok b else carries v nf.2 = true
  end.

Definition kind_shapes (kb : string * list (string * fvariable)) : list (string * shape) :=
  (λ fv : string * fvariable, scalar_shape kb.1 (fv.1, span_of fv.2)) <$> kb.2.
Definition st_shapes (st : binds) : list (string * shape) :=
  concat (kind_shapes <$> bd_scalars st) ++ concat ((λ vb, payload_shapes vb.2) <$> bd_binaries st)
  ++ concat ((λ ab, payload_shapes ab.2) <$> bd_addressed st).

Lemma binary_of_at v nf b :
  dget D nf.1 = Some nf.2 → binary_of v D nf.1 causality = Ok b → b = binary_at nf.
Proof.
  unfold binary_of, binary_at. intros ->. destruct (fd_count nf.2) as [n|]; [|done]. intros H. inv_ok.
  destruct (dget D (length_name nf.1)) as [l|]; [|done]. destruct (fd_count l); [done|].
  destruct (dget LENGTH_CEILINGS (fd_type l)) as [c|]; [|done]. inv_ok. done.
Qed.

Lemma kind_shapes_append d kind name v x :
  x ∈ concat (kind_shapes <$> dset d kind (default [] (dget d kind) ++ [(name, v)]))
  ↔ x ∈ concat (kind_shapes <$> d) ∨ x = scalar_shape kind (name, span_of v).
Proof.
  induction d as [|[k l] d IH].
  { cbn. set_solver. }
  cbn [dset dget]. destruct (decide (kind = k)) as [->|Hne]; cbn [fmap list_fmap concat].
  - cbn [from_option id default]. unfold kind_shapes at 1. cbn [fst snd]. rewrite fmap_app, !elem_of_app. cbn [fmap list_fmap]. rewrite list_elem_of_singleton. unfold kind_shapes at 2. cbn [fst snd]. tauto.
  - rewrite !elem_of_app, IH. tauto.
Qed.

Lemma bind_field_step st nf st' :
  dget D nf.1 = Some nf.2 → bind_field D bound causality version st nf = Ok st' →
  checked nf
  ∧ (∀ x, x ∈ st_shapes st' ↔ x ∈ st_shapes st ∨ x ∈ want nf)
  ∧ (∀ k, k ∈ (bd_lengths st').*1 ↔ k ∈ (bd_lengths st).*1 ∨ (k, ShLength (bf_capacity (binary_at nf))) ∈ want nf).
Proof.
  intros Hnf. unfold bind_field, checked, want. destruct (dget bound nf.1) as [v|]; [|by intros [= <-]; set_solver].
  intros H. inv_ok. unfold require_mappable in *. apply raise_if_Ok in Hok. unfold is_binary.
  assert (∀ (d : list (string * string)) k k' n, k ∈ (dset d k' n).*1 ↔ k ∈ d.*1 ∨ k = k') as Hset.
  { intros d k k' n. rewrite dset_keys. case_decide; set_solver. }
  destruct (fv_osmp v) as [address|].
  - rewrite bool_decide_true by by eexists. cbn [orb]. unfold osmp_field in H. inv_ok.
    match goal with H : binary_of _ _ _ _ = Ok _ |- _ => pose proof (binary_of_at v nf _ Hnf H) as -> end. split; [split; [done|by eexists]|]. split.
    + intros x. unfold st_shapes. cbn [bd_scalars bd_binaries bd_addressed]. rewrite fmap_app, concat_app, !elem_of_app. cbn [fmap list_fmap concat snd]. rewrite app_nil_r. tauto.
    + intros k. cbn [bd_lengths]. rewrite Hset. cbn. set_solver.
  - rewrite bool_decide_false by by intros []. cbn [orb]. destruct (String.eqb (fv_kind v) BINARY).
    + inv_ok. match goal with H : binary_of _ _ _ _ = Ok _ |- _ => pose proof (binary_of_at v nf _ Hnf H) as -> end. split; [split; [done|by eexists]|]. split.
      * intros x. unfold st_shapes. cbn [bd_scalars bd_binaries bd_addressed]. rewrite fmap_app, concat_app, !elem_of_app. cbn [fmap list_fmap concat snd]. rewrite app_nil_r. tauto.
      * intros k. cbn [bd_lengths]. rewrite Hset. cbn. set_solver.
    + inv_ok. match goal with H : require_field_type _ _ = Ok _ |- _ => apply raise_if_Ok, negb_false_iff in H end. split; [done|]. split.
      * intros x. unfold st_shapes. cbn [bd_scalars bd_binaries bd_addressed].
        rewrite !elem_of_app, kind_shapes_append, list_elem_of_singleton. tauto.
      * intros k. cbn [bd_lengths]. split; [auto|]. intros [?|Hk]; [done|]. apply list_elem_of_singleton in Hk.
        unfold scalar_shape in Hk. cbn in Hk. by destruct (span_of v).
Qed.

Lemma bind_fields_shapes L st st' :
  Forall (λ nf, dget D nf.1 = Some nf.2) L → foldE (bind_field D bound causality version) st L = Ok st' →
  Forall checked L
  ∧ (∀ x, x ∈ st_shapes st' ↔ x ∈ st_shapes st ∨ ∃ nf, nf ∈ L ∧ x ∈ want nf)
  ∧ (∀ k, k ∈ (bd_lengths st').*1 ↔ k ∈ (bd_lengths st).*1 ∨ ∃ nf c, nf ∈ L ∧ (k, ShLength c) ∈ want nf).
Proof.
  intros HL. revert st. induction HL as [|nf L Hnf _ IH]; intros st; cbn [foldE].
  { intros [= <-]. split; [constructor|]. set_solver. }
  intros (st1 & H1 & H2)%bind_Ok. destruct (bind_field_step _ _ _ Hnf H1) as (Hc & Hx & Hk).
  destruct (IH _ H2) as (HC & HX & HK). split; [by constructor|]. split.
  - intros x. rewrite HX, Hx. setoid_rewrite elem_of_cons. naive_solver.
  - intros k. rewrite HK, Hk. setoid_rewrite elem_of_cons.
    split; [naive_solver|]. intros [?|(nf' & c & [->|?] & Hw)]; [naive_solver| |naive_solver]. left. right.
    assert (c = bf_capacity (binary_at nf)) as <-; [|done]. revert Hw. unfold want.
    destruct (dget bound nf.1) as [v|]; [|set_solver]. destruct (is_binary v).
    + unfold payload_shapes. intros [[=]|[= _ ->]%list_elem_of_singleton]%elem_of_cons. done.
    + intros Hw%list_elem_of_singleton. unfold scalar_shape in Hw. cbn in Hw. by destruct (span_of v).
Qed.
End bind.

(** The binding a Channel is given. *)
Record accepted (fs : list field) (bound : list (string * fvariable)) (causality : string) (b : binding) : Prop := {
  ac_ok : Forall group_ok b;
  ac_checked : Forall (checked (fields_dict fs) bound causality) (fields_dict fs);
  ac_shapes : ∀ x, x ∈ shapes b ↔ ∃ nf, nf ∈ fields_dict fs ∧ x ∈ want bound nf;
  ac_plain : ∀ nf v, nf ∈ fields_dict fs → dget bound nf.1 = Some v → fv_osmp v = None;
  ac_every : ∀ f, f ∈ fs → is_Some (dget bound (fd_name f)) ∨ ∃ c, (fd_name f, ShLength c) ∈ shapes b;
}.

Lemma length_name_ne name : length_name name ≠ name.
Proof.
  intros H. apply (f_equal String.length) in H. unfold length_name in H.
  assert (∀ a b : string, String.length (a ++ b) = (String.length a + String.length b)%nat) as Hl.
  { induction a as [|c a IH]; intros b; [done|]. exact (f_equal S (IH b)). }
  rewrite Hl in H. cbn in H. lia.
Qed.

Lemma binaries_named D bound causality version L st :
  Forall (λ nf, dget D nf.1 = Some nf.2) L →
  foldE (bind_field D bound causality version) (mk_binds [] [] [] []) L = Ok st →
  Forall (λ vb, bf_length vb.2 ≠ bf_field vb.2) (bd_binaries st).
Proof.
  intros HL. assert (∀ st0, Forall (λ vb, bf_length vb.2 ≠ bf_field vb.2) (bd_binaries st0) →
    foldE (bind_field D bound causality version) st0 L = Ok st → Forall (λ vb, bf_length vb.2 ≠ bf_field vb.2) (bd_binaries st)) as H; [|by apply H].
  induction HL as [|nf L Hnf _ IH]; intros st0 H0; cbn [foldE]; [by intros [= <-]|].
  intros (st1 & H1 & H2)%bind_Ok. apply (IH st1); [|done]. revert H1. unfold bind_field.
  destruct (dget bound nf.1) as [v|]; [|by intros [= <-]]. intros H. inv_ok. destruct (fv_osmp v); inv_ok; [done|].
  destruct (String.eqb (fv_kind v) BINARY); inv_ok; [|done].
  match goal with H : binary_of _ _ _ _ = Ok _ |- _ => pose proof (binary_of_at D causality v nf _ Hnf H) as -> end.
  apply Forall_app. split; [done|]. apply Forall_singleton. apply length_name_ne.
Qed.

Lemma addressed_none D bound causality version L st0 st :
  foldE (bind_field D bound causality version) st0 L = Ok st → bd_addressed st = [] →
  bd_addressed st0 = [] ∧ Forall (λ nf, ∀ v, dget bound nf.1 = Some v → fv_osmp v = None) L.
Proof.
  revert st0. induction L as [|nf L IH]; intros st0; cbn [foldE]; [by intros [= <-]|].
  intros (st1 & H1 & H2)%bind_Ok Ha. destruct (IH _ H2 Ha) as [Ha1 HL]. revert H1. unfold bind_field.
  destruct (dget bound nf.1) as [v|] eqn:Hv.
  2:{ intros [= <-]. split; [done|]. constructor; [by rewrite Hv|done]. }
  intros H. inv_ok. destruct (fv_osmp v) eqn:Ho; inv_ok.
  { cbn in Ha1. by apply app_eq_nil in Ha1 as [_ ?]. }
  split; [destruct (String.eqb (fv_kind v) BINARY); inv_ok; done|]. constructor; [|done]. rewrite Hv. by intros ? [= <-].
Qed.

Lemma plain_groups_app l k b :
  plain_groups (l ++ k) = Some b → ∃ b1 b2, b = b1 ++ b2 ∧ plain_groups l = Some b1 ∧ plain_groups k = Some b2.
Proof.
  unfold plain_groups. revert b. induction l as [|g l IH]; intros b; cbn; [intros H; by exists [], b|].
  destruct g as [g|o]; cbn; [|done]. intros (b' & H & [= <-])%bind_Some.
  destruct (IH _ H) as (b1 & b2 & -> & H1 & H2). exists (g :: b1), b2. by rewrite H1.
Qed.

Lemma fields_dict_lookup fs :
  NoDup (fd_name <$> fs) →
  Forall (λ nf, dget (fields_dict fs) nf.1 = Some nf.2) (fields_dict fs)
  ∧ ∀ k f, dget (fields_dict fs) k = Some f ↔ f ∈ fs ∧ fd_name f = k.
Proof.
  intros Hn. rewrite fields_dict_eq by done. set (D := (λ f, (fd_name f, f)) <$> fs).
  assert (NoDup D.*1) as HD. { unfold D. by rewrite <- list_fmap_compose. }
  split.
  - apply Forall_forall. intros [k f] Hin. cbn. by apply dget_elem.
  - intros k f. split.
    + intros H%dget_Some. apply list_elem_of_fmap in H as (f' & [= -> ->] & Hf). done.
    + intros [Hf <-]. apply dget_elem; [done|]. apply list_elem_of_fmap. by exists f.
Qed.

Lemma bind_channel_accepted allocates channel dir fs bound version groups b :
  NoDup (fd_name <$> fs) →
  bind_channel allocates channel dir (fields_dict fs) bound version = Ok groups → plain_groups groups = Some b →
  accepted fs bound (causality_of dir) b.
Proof.
  intros Hn. destruct (fields_dict_lookup fs Hn) as [HD Hget]. unfold bind_channel. intros H Hb. inv_ok.
  destruct (bind_fields_shapes _ _ _ _ _ _ _ HD Hok) as (HC & HX & HK). pose proof (binaries_named _ _ _ _ _ _ HD Hok) as Hbin.
  apply plain_groups_app in Hb as (b1 & b' & -> & Hb1 & Hb'). apply plain_groups_app in Hb' as (b2 & b3 & -> & Hb2 & Hb3).
  assert (b1 = (λ kb, GScalar (scalar_group_of kb.1 kb.2)) <$> bd_scalars a) as ->.
  { clear -Hok1 Hb1. apply mapE_Ok in Hok1. revert b1 Hb1. induction Hok1 as [|kb g l gs Hg _ IH]; intros b1; cbn; [by intros [= <-]|].
    unfold bind_scalars in Hg. inv_ok. cbn. intros (b' & H & [= <-])%bind_Some. cbn. f_equal. by apply IH. }
  assert (bd_addressed a = [] ∧ b3 = []) as [Ha ->].
  { destruct (decide (bd_addressed a = [])) as [->|Hne]; inv_ok; [cbn in Hb3; by injection Hb3 as <-|]. done. }
  assert (b2 = if decide (bd_binaries a = []) then [] else [GBinary ((λ vb, (reference_of vb.1, vb.2)) <$> bd_binaries a)]) as ->.
  { destruct (decide (bd_binaries a = [])); inv_ok; cbn in Hb2; by injection Hb2 as <-. }
  set (B := _ ++ _). assert (shapes B = st_shapes a) as HB.
  { unfold B, shapes, st_shapes. rewrite Ha, app_nil_r, fmap_app, concat_app. cbn [fmap list_fmap concat]. rewrite app_nil_r.
    f_equal.
    - rewrite <- list_fmap_compose. f_equal. apply list_fmap_ext. intros _ kb _. cbn. unfold kind_shapes.
      by rewrite <- list_fmap_compose.
    - destruct (decide (bd_binaries a = [])) as [->|]; [done|]. cbn. by rewrite app_nil_r, <- list_fmap_compose. }
  assert (∀ x, x ∈ shapes B ↔ ∃ nf, nf ∈ fields_dict fs ∧ x ∈ want bound nf) as HS.
  { intros x. rewrite HB, HX. cbn. set_solver. }
  destruct (addressed_none _ _ _ _ _ _ _ Hok Ha) as [_ Hplain].
  split; [|done|done|intros nf v Hnf; by apply (proj1 (Forall_forall _ _) Hplain)|].
  - assert (∀ k kind n, (k, ShArr kind n) ∈ shapes B → 0 ≤ n) as Hspan.
    { intros k kind n (nf & Hin & Hw)%HS. pose proof (proj1 (Forall_forall _ _) HC _ Hin) as Hc. unfold checked, want in *.
      destruct (dget bound nf.1) as [v|]; [|set_solver]. destruct (is_binary v); [unfold payload_shapes in Hw; set_solver|].
      apply list_elem_of_singleton in Hw. destruct Hc as [_ Hc]. unfold scalar_shape, span_of, carries in *. cbn in Hw.
      destruct (is_array v); [|done]. destruct (fv_value_count v) as [m|]; [|done]. injection Hw as -> -> <-.
      destruct (dget SCALARS (fv_kind v)); [|done]. destruct (fd_count nf.2); [|by rewrite andb_false_r in Hc].
      apply andb_true_iff in Hc as [_ Hc%bool_decide_eq_true]. injection Hc as ->. lia. }
    unfold B. apply Forall_app. split.
    + apply Forall_fmap, Forall_forall. intros kb Hkb. cbn. unfold spans_ok. apply Forall_fmap, Forall_forall. intros [name v] Hin. cbn.
      destruct (span_of v) as [n|] eqn:Hv; cbn; [|lia]. apply (Hspan name kb.1 n). rewrite HB. unfold st_shapes.
      apply elem_of_app. left. apply elem_of_concat. exists (kind_shapes kb). split; [|by apply list_elem_of_fmap_2].
      unfold kind_shapes. apply list_elem_of_fmap. exists (name, v). unfold scalar_shape. cbn. by rewrite Hv.
    + rewrite app_nil_r. destruct (decide _); constructor; [|done]. cbn. by apply Forall_fmap.
  - intros f Hf. unfold require_every_field_carried in Hok0. destruct a0. pose proof (foldE_each _ _ _ Hok0 (fd_name f)) as He. mcbn.
    destruct (dmem bound (fd_name f)) eqn:Hm; [left; by apply dget_is_Some, dmem_true|]. right.
    assert (fd_name f ∈ (fields_dict fs).*1) as Hin.
    { rewrite fields_dict_eq, <- list_fmap_compose by done. by apply list_elem_of_fmap_2. }
    specialize (He Hin). cbn beta in He. inv_ok. rewrite Hm in He. cbn [negb andb] in He. apply negb_false_iff, dmem_true, HK in He as [He|(nf & c & Hnf & Hw)].
    { cbn in He. set_solver. }
    exists c. apply HS. by exists nf.
Qed.

(** A shape fits a field of the schema. *)
Definition fitting (f : field) (s : shape) : Prop :=
  match s with
  | ShNum kind => fd_count f = None ∧ kind_prim kind = Some (fd_type f)
  | ShArr kind n => fd_count f = Some (Z.to_nat n) ∧ kind_prim kind = Some (fd_type f)
  | ShPayload cap => fd_type f = U8 ∧ fd_count f = Some (Z.to_nat cap)
  | ShLength cap => fd_count f = None ∧ ∃ ceiling, dget LENGTH_CEILINGS (fd_type f) = Some ceiling ∧ cap ≤ ceiling
  end.

Lemma want_fitting fs bound causality nf k s :
  NoDup (fd_name <$> fs) → nf ∈ fields_dict fs → checked (fields_dict fs) bound causality nf → (k, s) ∈ want bound nf →
  ∃ f, f ∈ fs ∧ fd_name f = k ∧ fitting f s.
Proof.
  intros Hn Hnf. destruct (fields_dict_lookup fs Hn) as [HD Hget]. pose proof (proj1 (Forall_forall _ _) HD _ Hnf) as Hd.
  unfold checked, want. destruct (dget bound nf.1) as [v|]; [|set_solver]. intros [_ Hc]. destruct (is_binary v).
  - destruct Hc as [b Hb]. unfold binary_of in Hb. rewrite Hd in Hb. unfold payload_shapes, binary_at.
    destruct (fd_count nf.2) as [n|] eqn:Hcount; [|done]. inv_ok. apply negb_false_iff, bool_decide_eq_true in Hok.
    destruct (dget (fields_dict fs) (length_name nf.1)) as [l|] eqn:Hl; [|done]. destruct (fd_count l) eqn:Hlc; [done|].
    destruct (dget LENGTH_CEILINGS (fd_type l)) as [c|] eqn:Hceil; [|done]. inv_ok. cbn [bf_field bf_length bf_capacity default from_option id].
    intros [[= -> ->]|[= -> ->]%list_elem_of_singleton]%elem_of_cons.
    + exists nf.2. apply Hget in Hd as [? <-]. split_and!; try done. cbn. rewrite Nat2Z.id. done.
    + exists l. apply Hget in Hl as [? <-]. do 3 (split; [done|]). exists c. split; [done|]. match goal with H : (c <? _) = false |- _ => apply Z.ltb_ge in H; lia end.
  - intros Hw%list_elem_of_singleton. exists nf.2. apply Hget in Hd as [Hin Hname]. unfold scalar_shape in Hw. injection Hw as -> ->.
    split; [done|]. split; [done|]. unfold carries in Hc. destruct (dget SCALARS (fv_kind v)) as [sc|] eqn:Hsc; [|done].
    apply andb_true_iff in Hc as [Ht%bool_decide_eq_true Hc].
    assert (kind_prim (fv_kind v) = Some (fd_type nf.2)) as Hk by (unfold kind_prim; by rewrite Hsc, Ht).
    unfold span_of. cbn [fst snd]. destruct (fd_count nf.2) as [n|] eqn:Hcnt.
    + apply andb_true_iff in Hc as [-> Hc%bool_decide_eq_true]. rewrite Hc. split; [by rewrite Hcnt, Nat2Z.id|done].
    + apply negb_true_iff in Hc as ->. by split.
Qed.

Lemma accepted_fitting fs bound causality b k s :
  NoDup (fd_name <$> fs) → accepted fs bound causality b → (k, s) ∈ shapes b → ∃ f, f ∈ fs ∧ fd_name f = k ∧ fitting f s.
Proof.
  intros Hn Hb (nf & Hnf & Hw)%(ac_shapes _ _ _ _ Hb). eapply want_fitting; eauto.
  eapply Forall_forall; [apply (ac_checked _ _ _ _ Hb)|done].
Qed.

Lemma accepted_every fs bound causality b f :
  NoDup (fd_name <$> fs) → accepted fs bound causality b → f ∈ fs → ∃ s, (fd_name f, s) ∈ shapes b.
Proof.
  intros Hn Hb Hf. destruct (ac_every _ _ _ _ Hb f Hf) as [[v Hv]|[c Hc]]; [|by eexists].
  assert ((fd_name f, f) ∈ fields_dict fs) as Hin. { rewrite fields_dict_eq by done. apply list_elem_of_fmap. by exists f. }
  assert (∃ s, (fd_name f, s) ∈ want bound (fd_name f, f)) as [s Hs].
  { unfold want. cbn [fst]. rewrite Hv. destruct (is_binary v); [exists (ShPayload (bf_capacity (binary_at (fd_name f, f)))); left|].
    eexists. by apply list_elem_of_singleton. }
  exists s. apply (ac_shapes _ _ _ _ Hb). by exists (fd_name f, f).
Qed.

Lemma pack_replicate p l :
  Forall (λ n, is_Ok (pack_prim p n)) l → is_Ok (pack_items (replicate (length l) (IPrim p)) (VNum <$> l)).
Proof.
  induction 1 as [|n l [b Hb] _ [c Hc]]; cbn; [by eexists|]. rewrite Hb. cbn. rewrite Hc. by eexists.
Qed.

(** The codec takes what fits, but for a list in a field of bytes. *)
Lemma fitting_taken f s v :
  fitting f s → shaped s v → taken f v ↔ ¬ (fd_type f = U8 ∧ ∃ kind n, s = ShArr kind n).
Proof.
  unfold taken, field_plan. destruct s as [kind|kind n|cap|cap], v as [x|bs|l]; try done; cbn [fitting shaped].
  - intros [-> Hk] Hx. split; [naive_solver|]. intros _. exists [VNum x]. split; [done|]. cbn.
    destruct (native_packs _ _ (Hx _ Hk)) as [b ->]. by eexists.
  - intros [-> Hk] [Hl Hx]. destruct (decide (fd_type f = U8)) as [Hu|Hu].
    + split; [|intros []; split; [done|by exists kind, n]]. intros (seg & Hs & [b Hp]). cbn in Hs.
      rewrite Hl, decide_True in Hs by done. by injection Hs as <-.
    + split; [naive_solver|]. intros _. exists (VNum <$> l). cbn. rewrite Hl, decide_True by done. split; [done|].
      rewrite <- Hl. apply pack_replicate. eapply Forall_impl; [by apply Hx|]. intros m Hm. by apply native_packs.
  - intros [Ht ->] Hl. rewrite decide_True by done. split; [naive_solver|]. intros _. exists [VBytes bs]. cbn.
    rewrite Hl, decide_True by done. split; [done|]. by eexists.
  - destruct x as [k|]; [|done]. intros [-> (c & Hc & Hcap)] Hk. split; [naive_solver|]. intros _. exists [VNum (PInt k)]. split; [done|]. cbn.
    assert (native_num (fd_type f) (PInt k)) as [b ->]%native_packs; [|by eexists].
    unfold native_num. destruct (fd_type f); cbn in Hc; try done; injection Hc as <-;
      match goal with |- context [int_range ?p] => let r := eval vm_compute in (int_range p) in change (int_range p) with r end;
      cbv iota; lia.
Qed.

(** ** Messages the codec gives *)

(** The value [unpack] gives a field. *)
Definition unpacked (f : field) (v : value) : Prop :=
  match field_plan f, v with
  | PScalar p, VNum n => is_Some (int_range p) → ∃ z, n = PInt z
  | PByteArray n, VBytes bs => length bs = n
  | PList _ n, VList l => length l = n
  | _, _ => False
  end.

Lemma field_value_unpacked f d : (field_size f ≤ length d)%nat → unpacked f (field_value f d).
Proof.
  unfold field_size, field_value, unpacked. destruct (field_plan f) as [p|n|p n]; cbn.
  - intros _ [r Hr]. destruct p; try done; cbn; by eexists.
  - intros H. rewrite length_take. cbn in H. lia.
  - intros _. by rewrite length_fmap, length_seq.
Qed.

Lemma mt_unpack_unpacked fs data vals :
  NoDup (fd_name <$> fs) → mt_unpack fs data = Ok vals →
  ∀ f, f ∈ fs → ∃ v, dget vals (fd_name f) = Some v ∧ unpacked f v.
Proof.
  intros Hn H. assert (length data = mt_size fs) as Hl by (apply mt_unpack_size; by eexists).
  rewrite mt_unpack_values in H by done. injection H as <-.
  assert (Forall2 unpacked fs (Schema.field_values fs data)) as H2.
  { clear Hn. revert data Hl. induction fs as [|f fs IH]; intros data Hl; cbn [Schema.field_values]; constructor.
    - apply field_value_unpacked. unfold mt_size, mt_items, size, field_size in *. cbn in Hl. rewrite sum_list_with_app in Hl.
      unfold size. lia.
    - apply IH. unfold mt_size, mt_items, size, field_size in *. cbn in Hl. rewrite sum_list_with_app in Hl. rewrite length_drop.
      unfold size. lia. }
  intros f [i Hi]%list_elem_of_lookup. destruct (Forall2_lookup_l _ _ _ _ _ H2 Hi) as (v & Hv & Hu). exists v. split; [|done].
  apply dget_elem.
  - rewrite fst_zip; [done|]. rewrite length_fmap. apply Forall2_length in H2. lia.
  - apply list_elem_of_lookup. exists i. rewrite lookup_zip_with, list_lookup_fmap, Hi, Hv. done.
Qed.

(** Failures of the FMU, as a binding reports them. *)
Fixpoint from_fmu (e : fmi_failure) : Prop :=
  match e with
  | FStatus _ _ | FNotExported _ => True
  | FChannel _ e => from_fmu e
  | _ => False
  end.

Lemma call_from_fmu c co co' e : call_ c co = (co', Err e) → from_fmu e.
Proof.
  unfold call_, mbind, fmi_bind, call_fmu. destruct (co_binary co (co_log co) c) as [a|]; [|by intros [= _ <-]].
  destruct (_ =? _); [done|]. by intros [= _ <-].
Qed.

(** What a shape needs of the Message that is written. *)
Definition supplied (vals : values) (ks : string * shape) : Prop :=
  ∃ v, dget vals ks.1 = Some v
  ∧ match ks.2, v with
    | ShNum _, VNum _ => True
    | ShArr _ n, VList l => length l = Z.to_nat n
    | ShArr _ n, VBytes bs => length bs = Z.to_nat n
    | ShPayload _, VBytes _ => True
    | ShLength _, VNum (PInt _) => True
    | _, _ => False
    end.

Lemma fitting_supplied vals f s v :
  dget vals (fd_name f) = Some v → unpacked f v → fitting f s → supplied vals (fd_name f, s).
Proof.
  intros Hv Hu Hf. exists v. split; [done|]. unfold unpacked, field_plan, fitting in *. cbn [snd].
  destruct s as [kind|kind n|cap|cap].
  - destruct Hf as [Hc _]. rewrite Hc in Hu. by destruct v.
  - destruct Hf as [Hc _]. rewrite Hc in Hu. by destruct (decide _), v.
  - destruct Hf as [Ht Hc]. rewrite Hc, decide_True in Hu by done. by destruct v.
  - destruct Hf as [Hc (ceil & Hk & _)]. rewrite Hc in Hu. destruct v as [x| |]; [|done..].
    destruct Hu as [z ->]; [|done]. destruct (fd_type f); cbn in Hk; try done; by eexists.
Qed.

Lemma write_scalars_supplied g vals co co' e :
  spans_ok (sg_fields g) → (∀ f, f ∈ sg_fields g → supplied vals (scalar_shape (sg_kind g) f)) →
  write_scalars g vals co = (co', Err e) → from_fmu e.
Proof.
  intros Hs Hv. assert (∃ vs, mapE (FmuSingle.field_values vals) (sg_fields g) = Ok vs ∧ zlen (concat vs) = sg_count g) as (vs & Hm & Hl).
  { unfold sg_count. clear co co' e. induction Hs as [|[name sp] fs Hn Hs IH]; [by exists []|].
    destruct IH as (vs & Hm & Hl); [intros f Hf; apply Hv; by right|].
    destruct (Hv (name, sp)) as (v & Hd & Hk); [left|]. cbn [scalar_shape fst snd] in *. cbn [mapE foldl snd]. rewrite foldl_spans, Hm.
    unfold FmuSingle.field_values. cbn [fst snd]. rewrite Hd.
    destruct sp as [n|], v as [x|bs|l]; try done; cbn [mbind result_bind]; eexists; (split; [reflexivity|]);
      unfold zlen in *; cbn [concat default from_option id] in *; rewrite length_app, ?length_fmap; cbn [length]; lia. }
  unfold write_scalars, mbind, fmi_bind, lift. rewrite Hm. unfold reraise, throw_if. rewrite Hl, Z.eqb_refl. cbn [negb mret fmi_ret].
  destruct (call_ _ co) as [co1 [u|er]] eqn:Hc; [done|]. intros [= _ <-]. cbn. by eapply call_from_fmu.
Qed.

Lemma write_binaries_supplied bound vals co co' e :
  (∀ rb x, rb ∈ bound → x ∈ payload_shapes rb.2 → supplied vals x) →
  write_binaries bound vals co = (co', Err e) → from_fmu e ∨ ∃ n c, e = FLength n c ∧ c < n.
Proof.
  intros Hv. unfold write_binaries, mbind, fmi_bind, lift.
  destruct (mapE _ bound) as [ps|er] eqn:Hm; [intros ?%call_from_fmu; by left|]. intros [= _ <-]. right. clear co co'.
  induction bound as [|[r b] bound IH]; cbn [mapE] in Hm; [done|].
  destruct (Hv (r, b) (bf_length b, ShLength (bf_capacity b))) as (lv & Hl & Hlk); [left|unfold payload_shapes; set_solver|].
  destruct (Hv (r, b) (bf_field b, ShPayload (bf_capacity b))) as (pv & Hp & Hpk); [left|unfold payload_shapes; set_solver|].
  cbn [fst snd] in *. destruct lv as [[z|]| |]; try done. destruct pv as [|bs|]; try done.
  destruct (outgoing_payload b vals) as [p|e'] eqn:Ho; cbn in Hm.
  - destruct (mapE _ bound) as [ps|e'']; [done|]. injection Hm as ->. apply IH; [|done]. intros rb x Hin. apply Hv. by right.
  - injection Hm as ->. unfold outgoing_payload, int_field in Ho. rewrite Hl, Hp in Ho. cbn in Ho.
    destruct (Z.ltb_spec (bf_capacity b) z); [|done]. injection Ho as <-. by eexists _, _.
Qed.

(** ** The theorems *)

(** The variables of a Channel the codec has no array for. *)
Definition byte_array (v : fvariable) : Prop := fv_kind v = "UInt8"%string ∧ is_array v = true.

Lemma want_array bound nf k kind n :
  (k, ShArr kind n) ∈ want bound nf → ∃ v, k = nf.1 ∧ dget bound nf.1 = Some v ∧ fv_kind v = kind ∧ is_array v = true.
Proof.
  unfold want. destruct (dget bound nf.1) as [v|]; [|set_solver]. destruct (is_binary v); [unfold payload_shapes; set_solver|].
  intros Hw%list_elem_of_singleton. unfold scalar_shape, span_of in Hw. cbn in Hw. exists v.
  destruct (is_array v); [|done]. destruct (fv_value_count v); [|done]. by injection Hw as -> -> _.
Qed.

Lemma want_payload bound nf k c :
  (k, ShPayload c) ∈ want bound nf → ∃ v, k = nf.1 ∧ dget bound nf.1 = Some v ∧ is_binary v = true.
Proof.
  unfold want. destruct (dget bound nf.1) as [v|]; [|set_solver]. destruct (is_binary v) eqn:Hb.
  - unfold payload_shapes. intros [[= -> _]|Hx%list_elem_of_singleton]%elem_of_cons; [by exists v|done].
  - intros Hw%list_elem_of_singleton. unfold scalar_shape in Hw. cbn in Hw. by destruct (span_of v).
Qed.

(** An array in a field of bytes is of the type [UInt8]: a Boolean is no array. *)
Lemma u8_array v f : unmappable v = false → carries v f = true → is_array v = true → fd_type f = U8 → fv_kind v = "UInt8"%string.
Proof.
  intros Hu Hc Ha Ht. unfold carries in Hc. unfold unmappable in Hu. destruct (osmp_problem v); [done|].
  destruct (String.eqb (fv_kind v) CLOCK); [done|]. destruct (String.eqb (fv_kind v) BINARY) eqn:Hb.
  { apply String.eqb_eq in Hb. by rewrite Hb in Hc. }
  destruct (dget SCALARS (fv_kind v)) as [sc|] eqn:Hsc; [|done]. apply andb_true_iff in Hc as [Hf%bool_decide_eq_true _].
  unfold array_problem in Hu. rewrite Ha, Hsc in Hu. cbn [negb] in Hu. rewrite Ht in Hf. apply dget_Some in Hsc. unfold SCALARS in Hsc.
  repeat (apply elem_of_cons in Hsc as [Hsc|Hsc]; [injection Hsc as -> ->; try done|]). by apply not_elem_of_nil in Hsc.
Qed.

Lemma accepted_shape fs bound causality b f s :
  NoDup (fd_name <$> fs) → accepted fs bound causality b → f ∈ fs → (fd_name f, s) ∈ shapes b → fitting f s.
Proof.
  intros Hn Ha Hf Hs. destruct (accepted_fitting _ _ _ _ _ _ Hn Ha Hs) as (f' & Hf' & He & Hx).
  destruct (fields_dict_lookup fs Hn) as [_ Hget].
  assert (dget (fields_dict fs) (fd_name f) = Some f') as E by by apply Hget.
  rewrite (proj2 (Hget (fd_name f) f)) in E by done. by injection E as ->.
Qed.

(** The value of a field of bytes is a list exactly if its variable is an array. *)
Lemma accepted_array fs bound causality b f s :
  NoDup (fd_name <$> fs) → accepted fs bound causality b → f ∈ fs → (fd_name f, s) ∈ shapes b →
  (fd_type f = U8 ∧ ∃ kind n, s = ShArr kind n) ↔ ∃ w, dget bound (fd_name f) = Some w ∧ byte_array w.
Proof.
  intros Hn Ha Hf Hs. pose proof (accepted_shape _ _ _ _ _ _ Hn Ha Hf Hs) as Hfit.
  destruct (fields_dict_lookup fs Hn) as [HD Hget].
  assert (∀ w, dget bound (fd_name f) = Some w → fv_osmp w = None ∧ unmappable w = false
    ∧ if is_binary w then True else carries w f = true) as Hw.
  { intros w Hw. assert ((fd_name f, f) ∈ fields_dict fs) as Hnf. { rewrite fields_dict_eq by done. apply list_elem_of_fmap. by exists f. }
    split; [by apply (ac_plain _ _ _ _ Ha (fd_name f, f))|].
    pose proof (proj1 (Forall_forall _ _) (ac_checked _ _ _ _ Ha) _ Hnf) as Hc. unfold checked in Hc. cbn [fst snd] in Hc.
    rewrite Hw in Hc. destruct Hc as [? Hc]. split; [done|]. by destruct (is_binary w). }
  apply (ac_shapes _ _ _ _ Ha) in Hs as (nf & Hnf & Hs). split.
  - intros [Ht (kind & n & ->)]. destruct (want_array _ _ _ _ _ Hs) as (w & Hk & Hb & _ & Har). rewrite <- Hk in Hb.
    exists w. split; [done|]. split; [|done]. destruct (Hw w Hb) as (_ & Hu & Hc). destruct (is_binary w) eqn:Hbin.
    { unfold want in Hs. rewrite <- Hk, Hb, Hbin in Hs. unfold payload_shapes in Hs. set_solver. }
    by eapply u8_array.
  - intros (w & Hb & Hk & Har). destruct (Hw w Hb) as (Ho & Hu & Hc).
    assert (is_binary w = false) as Hbin by (unfold is_binary; by rewrite Ho, Hk). rewrite Hbin in Hc. unfold carries in Hc.
    rewrite Hk in Hc. apply andb_true_iff in Hc as [Ht%bool_decide_eq_true Hc]. split; [done|].
    rewrite Har in Hc. destruct (fd_count f) eqn:Hcount; [|done].
    destruct s as [k'|k' n'|c|c]; cbn in Hfit; [by destruct Hfit as [? _]; simplify_eq|by exists k', n'| |by destruct Hfit as [? _]; simplify_eq].
    destruct (want_payload _ _ _ _ Hs) as (w' & Hk' & Hb' & Hbin'). rewrite <- Hk', Hb in Hb'. injection Hb' as <-. congruence.
Qed.

Section theorems.
Context (allocates : Z → bool) (channel version : string) (fs : list field) (bound : list (string * fvariable)).

(** C12. Every Message an accepted output Channel reads from an FMU has a value for
    every field of the Channel's schema and no other value, and the codec packs
    it into a payload, unless a field is bound to a [UInt8] array or named
    "self": such a Channel is accepted, and every Message of it is refused by
    the codec. *)
Theorem out_message_packs groups b co co' vals :
  NoDup (fd_name <$> fs) → bind_channel allocates channel DOut (fields_dict fs) bound version = Ok groups →
  plain_groups groups = Some b → typed_fmu (co_binary co) → read_binding b co = (co', Ok vals) →
  (∀ f, f ∈ fs → is_Some (dget vals (fd_name f)))
  ∧ (∀ name, name ∈ vals.*1 ↔ name ∈ fd_name <$> fs)
  ∧ ((∃ data, mt_pack fs vals = Ok data)
     ↔ "self"%string ∉ fd_name <$> fs ∧ ∀ f v, f ∈ fs → dget bound (fd_name f) = Some v → ¬ byte_array v).
Proof.
  intros Hn Hb Hp Ht Hr. pose proof (bind_channel_accepted _ _ _ _ _ _ _ _ Hn Hb Hp) as Ha.
  destruct (read_binding_filled b vals co co' Ht (ac_ok _ _ _ _ Ha) Hr) as [F1 F2].
  assert (∀ f, f ∈ fs → is_Some (dget vals (fd_name f))) as Hall.
  { intros f Hf. destruct (accepted_every _ _ _ _ _ Hn Ha Hf) as [s Hs]. by eapply F1. }
  assert (∀ name, name ∈ vals.*1 ↔ name ∈ fd_name <$> fs) as Hkeys.
  { intros name. rewrite <- dget_is_Some. split.
    - intros [v (s & Hs & _)%F2]. destruct (accepted_fitting _ _ _ _ _ _ Hn Ha Hs) as (f & Hf & <- & _).
      by apply list_elem_of_fmap_2.
    - by intros (f & -> & Hf%Hall)%list_elem_of_fmap. }
  split_and!; [done..|]. change (∃ data, mt_pack fs vals = Ok data) with (is_Ok (mt_pack fs vals)). rewrite mt_pack_taken, Forall_forall, Hkeys.
  assert (∀ f v, f ∈ fs → dget vals (fd_name f) = Some v →
    taken f v ↔ ∀ w, dget bound (fd_name f) = Some w → ¬ byte_array w) as Hone.
  { intros f v Hf (s & Hs & Hv)%F2. rewrite (fitting_taken f s v); [|by eapply accepted_shape|done].
    rewrite (accepted_array fs bound _ b f s) by done. naive_solver. }
  apply and_iff_compat_l. split.
  - intros Hpack f w Hf. destruct (Hpack f Hf) as (v & Hv & Htk). by apply (Hone f v Hf Hv).
  - intros Hno f Hf. destruct (Hall f Hf) as [v Hv]. exists v. split; [done|]. apply (Hone f v Hf Hv). intros w. by apply Hno.
Qed.

(** C33. Every Message the codec unpacks with the schema of an accepted input
    Channel can be written into the FMU: no field is missing or of another shape,
    and a failure is the FMU's own, or a length field that states more bytes than
    the payload has. *)
Theorem in_message_written groups b data vals co co' e :
  NoDup (fd_name <$> fs) → bind_channel allocates channel DIn (fields_dict fs) bound version = Ok groups →
  plain_groups groups = Some b → mt_unpack fs data = Ok vals → write_binding b vals co = (co', Err e) →
  from_fmu e ∨ ∃ n c, e = FLength n c ∧ c < n.
Proof.
  intros Hn Hb Hp Hu. pose proof (bind_channel_accepted _ _ _ _ _ _ _ _ Hn Hb Hp) as Ha.
  assert (∀ x, x ∈ shapes b → supplied vals x) as Hs.
  { intros [k s] Hs. destruct (accepted_fitting _ _ _ _ _ _ Hn Ha Hs) as (f & Hf & <- & Hfit).
    destruct (mt_unpack_unpacked _ _ _ Hn Hu f Hf) as (v & Hv & Huv). by eapply fitting_supplied. }
  pose proof (ac_ok _ _ _ _ Ha) as Hok. clear Ha Hb Hp Hu. unfold write_binding. revert co.
  induction Hok as [|g b Hg Hok IH]; intros co; cbn [each]; [done|]. unfold mbind, fmi_bind.
  destruct (write_group vals g co) as [co1 [u|e1]] eqn:Hw.
  { apply IH. intros x Hx. apply Hs. unfold shapes. cbn. apply elem_of_app. by right. }
  intros [= _ <-]. assert (∀ x, x ∈ group_shapes g → supplied vals x) as Hg'.
  { intros x Hx. apply Hs. unfold shapes. cbn. apply elem_of_app. by left. }
  destruct g as [g|rbs]; cbn [write_group group_shapes] in *.
  - left. eapply write_scalars_supplied; [exact Hg| |exact Hw]. intros f Hf. apply Hg'. by apply list_elem_of_fmap_2.
  - eapply write_binaries_supplied; [|exact Hw]. intros rb x Hrb Hx. apply Hg'. apply elem_of_concat. eexists. split; [exact Hx|].
    apply list_elem_of_fmap. by exists rb.
Qed.
End theorems.

(** ** Witnesses *)

Definition demo_variable (name kind causality : string) (reference : Z) (shape : list (option Z)) : fvariable :=
  mk_fvariable name (Some reference) kind causality None (value_count shape) [] None None shape None None None.
Definition demo_schema (flags : prim) : list field :=
  [mk_field "speed" F64 None; mk_field "flags" flags (Some 3%nat); mk_field "frame" U8 (Some 4%nat); mk_field "frame_length" U8 None].
Definition demo_bound (flags causality : string) : list (string * fvariable) :=
  [("speed", demo_variable "v" "Float64" causality 1 []); ("flags", demo_variable "f" flags causality 2 [Some 3]);
   ("frame", demo_variable "b" "Binary" causality 3 [])]%string.
Definition demo_groups (dir : direction) (flags : string) (p : prim) : list bound_group :=
  match bind_channel (λ _, true) "c" dir (fields_dict (demo_schema p)) (demo_bound flags (causality_of dir)) FMI3 with
  | Ok groups => groups
  | Err _ => []
  end.
Definition demo_binding (dir : direction) (flags : string) (p : prim) : binding :=
  default [] (plain_groups (demo_groups dir flags p)).

(** An FMU whose variables are all one, or 0.0, and whose frames have two bytes. *)
Definition demo_values_fmu : behaviour := λ _ c, Some
  match c with
  | GetValues kind _ count =>
      if count <? 0 then mk_answer 3 false [] [] 0 0 0 false false false false None
      else mk_answer 0 false []
             (replicate (Z.to_nat count) (if bool_decide (kind ∈ ["Float64"; "Float32"]%string) then PFloat 0 else PInt 1))
             0 0 0 false false false false None
  | GetBinary refs => mk_answer 0 false ((λ _, [Byte.x01; Byte.x02]) <$> refs) [] 0 0 0 false false false false None
  | _ => an_ok
  end.
Definition demo_values_co : cosim := mk_cosim demo_values_fmu [] false true.
Definition demo_read (flags : string) (p : prim) : values :=
  match read_binding (demo_binding DOut flags p) demo_values_co with (_, Ok vals) => vals | (_, Err _) => [] end.

Lemma demo_native p : native_num p (if decide (p = F64 ∨ p = F32) then PFloat 0 else PInt 1).
Proof.
  destruct p; try (split; vm_compute; discriminate).
  - rewrite decide_True by auto. exists 0. split; [lia|vm_compute; reflexivity].
  - rewrite decide_True by auto. split; vm_compute; congruence.
Qed.

Lemma demo_values_typed : typed_fmu demo_values_fmu.
Proof.
  intros log c a. unfold demo_values_fmu. intros [= <-]. destruct c; try done.
  - destruct (Z.ltb_spec count 0); [done|]. intros _. split; [unfold zlen; cbn; rewrite length_replicate; lia|].
    intros p Hp. cbn [an_values]. apply Forall_replicate. unfold kind_prim in Hp. apply fmap_Some in Hp as (sc & Hsc%dget_Some & ->).
    unfold SCALARS in Hsc. repeat (apply elem_of_cons in Hsc as [Hsc|Hsc]; [injection Hsc as -> ->|]);
      [..|by apply not_elem_of_nil in Hsc]; cbn [sc_field].
    all: match goal with |- native_num ?p (if bool_decide ?P then _ else _) =>
           let r := eval vm_compute in (bool_decide P) in change (bool_decide P) with r end; apply demo_native.
  - intros _. cbn. apply length_fmap.
Qed.

(** An [Int32] array is packed, a [UInt8] array is not. *)
Lemma out_message_packs_witness :
  ((∀ f, f ∈ demo_schema I32 → is_Some (dget (demo_read "Int32" I32) (fd_name f)))
   ∧ (∀ name, name ∈ (demo_read "Int32" I32).*1 ↔ name ∈ fd_name <$> demo_schema I32)
   ∧ ((∃ data, mt_pack (demo_schema I32) (demo_read "Int32" I32) = Ok data)
      ↔ "self"%string ∉ fd_name <$> demo_schema I32 ∧ ∀ f v, f ∈ demo_schema I32 → dget (demo_bound "Int32" "output") (fd_name f) = Some v → ¬ byte_array v))
  ∧ length (demo_read "Int32" I32) = 4%nat
  ∧ mt_pack (demo_schema U8) (demo_read "UInt8" U8) = Err StructError.
Proof.
  split; [|split; vm_compute; reflexivity].
  exact (out_message_packs (λ _, true) "c" FMI3 (demo_schema I32) (demo_bound "Int32" "output") (demo_groups DOut "Int32" I32)
    (demo_binding DOut "Int32" I32) demo_values_co (read_binding (demo_binding DOut "Int32" I32) demo_values_co).1 (demo_read "Int32" I32)
    ltac:(repeat constructor; vm_compute; set_solver) ltac:(vm_compute; reflexivity) ltac:(vm_compute; reflexivity)
    demo_values_typed ltac:(vm_compute; reflexivity)).
Defined.

(** The length field of this payload states five bytes. *)
Definition demo_data : bytes := replicate 15 Byte.x00 ++ [Byte.x05].
Definition demo_unpacked : values := match mt_unpack (demo_schema U8) demo_data with Ok vals => vals | Err _ => [] end.

Lemma in_message_written_witness :
  (write_binding (demo_binding DIn "UInt8" U8) demo_unpacked demo_values_co).2 = Err (FLength 5 4)
  ∧ (from_fmu (FLength 5 4) ∨ ∃ n c, FLength 5 4 = FLength n c ∧ c < n).
Proof.
  split; [vm_compute; reflexivity|].
  exact (in_message_written (λ _, true) "c" FMI3 (demo_schema U8) (demo_bound "UInt8" "input") (demo_groups DIn "UInt8" U8)
    (demo_binding DIn "UInt8" U8) demo_data demo_unpacked demo_values_co
    (write_binding (demo_binding DIn "UInt8" U8) demo_unpacked demo_values_co).1 (FLength 5 4)
    ltac:(repeat constructor; vm_compute; set_solver) ltac:(vm_compute; reflexivity) ltac:(vm_compute; reflexivity)
    ltac:(vm_compute; reflexivity) ltac:(vm_compute; reflexivity)).
Defined.

(** ** Addresses are not numbers *)

Lemma append_length (a b : string) : String.length (a ++ b) = (String.length a + String.length b)%nat.
Proof. induction a as [|c a IH]; [done|]. exact (f_equal S IH). Qed.

Lemma ends_with_app (a b : string) : ends_with b (a ++ b) = true.
Proof.
  induction a as [|c a IH]; cbn [String.append ends_with].
  - change ("" ++ b)%string with b. destruct b as [|c b]; [done|]. cbn [ends_with]. by rewrite String.eqb_refl.
  - change (String c a ++ b)%string with (String c (a ++ b)). cbn [ends_with]. by rewrite IH, orb_true_r.
Qed.

Lemma substring_all (s : string) : String.substring 0 (String.length s) s = s.
Proof. induction s as [|c s IH]; cbn; [done|]. by rewrite IH. Qed.

Lemma strip_suffix_app (a b : string) : strip_suffix b (a ++ b) = a.
Proof.
  unfold strip_suffix. rewrite append_length. replace (String.length a + String.length b - String.length b)%nat with (String.length a) by lia.
  induction a as [|c a IH]; cbn [String.length String.substring]; [by destruct b|]. 
  change (String c a ++ b)%string with (String c (a ++ b)). cbn. by rewrite IH.
Qed.

(** The name of half an OSMP address. *)
Definition address_half (name : string) : Prop := ∃ a half, half ∈ ["base.lo"; "base.hi"]%string ∧ name = (a ++ "." ++ half)%string.

(** A variable of a marked description is the declared one, or that one marked. *)
Definition marked_from (declared marked : list (string * fvariable)) : Prop :=
  ∀ name v, dget marked name = Some v →
    ∃ w, dget declared name = Some w
    ∧ (v = w ∨ unannotated declared name = true ∧ ∃ a, v = set_unannotated a w).

Lemma mark_from declared marked address role :
  marked_from declared marked → marked_from declared (mark declared marked address role).
Proof.
  intros Hm. unfold mark. set (n := (address ++ "." ++ role)%string). destruct (dget declared n) as [w|] eqn:Hw; [|done].
  destruct (unannotated declared n) eqn:Hu; [|done]. intros name v. destruct (decide (n = name)) as [<-|Hne].
  - rewrite dget_dset_eq. intros [= <-]. exists w. split; [done|]. right. split; [done|]. by exists address.
  - rewrite dget_dset_ne by done. apply Hm.
Qed.

(** A name that was marked stays marked. *)
Definition is_marked (d : list (string * fvariable)) (name : string) : Prop :=
  ∃ v, dget d name = Some v ∧ is_Some (fv_osmp_unannotated v).

Lemma mark_keeps declared marked address role name :
  is_marked marked name → is_marked (mark declared marked address role) name.
Proof.
  intros Hm. unfold mark. set (n := (address ++ "." ++ role)%string). destruct (dget declared n) as [w|]; [|done].
  destruct (unannotated declared n); [|done]. unfold is_marked. destruct (decide (n = name)) as [<-|Hne].
  - rewrite dget_dset_eq. eexists. split; [done|]. by eexists.
  - by rewrite dget_dset_ne by done.
Qed.

Lemma foldl_keep {A B} (P : A → Prop) (f : A → B → A) l a : (∀ a b, P a → P (f a b)) → P a → P (foldl f a l).
Proof. intros Hf. revert a. induction l as [|b l IH]; intros a Ha; cbn; auto. Qed.

Lemma foldl_reach {A B} (P : A → Prop) (f : A → B → A) l a b :
  (∀ a b, P a → P (f a b)) → b ∈ l → (∀ a, P (f a b)) → P (foldl f a l).
Proof.
  intros Hf Hin Hb. revert a. induction l as [|c l IH]; intros a; [by apply not_elem_of_nil in Hin|].
  apply elem_of_cons in Hin as [<-|Hin]; cbn; [by apply foldl_keep|auto].
Qed.

Lemma half_marked declared a half :
  half ∈ ["base.lo"; "base.hi"]%string → unannotated declared (a ++ "." ++ half) = true →
  is_marked (with_unannotated declared) (a ++ "." ++ half).
Proof.
  intros Hh Hu. set (name := (a ++ "." ++ half)%string) in *. assert (∃ w, dget declared name = Some w) as [w Hw].
  { unfold unannotated in Hu. destruct (dget declared name) as [w|]; [by exists w|done]. }
  unfold with_unannotated. apply foldl_reach with (b := a).
  - intros d b Hd. apply (foldl_keep (λ d, is_marked d name)); [|done]. intros d' r. apply mark_keeps.
  - unfold addresses. apply list_elem_of_bind. exists name. split; [|apply dget_is_Some; by eexists].
    apply list_elem_of_omap. exists half. split; [done|]. unfold name. rewrite ends_with_app. fold name. rewrite Hu. cbn [andb].
    unfold name. by rewrite strip_suffix_app.
  - intros d. apply foldl_reach with (b := half).
    + intros d' r. apply mark_keeps.
    + unfold OSMP_ROLES. set_solver.
    + intros d'. unfold mark. fold name. rewrite Hw, Hu. eexists. rewrite dget_dset_eq. split; [done|]. by eexists.
Qed.

(** C34. No half of an OSMP address is ever mapped as a number: an Integer that a
    read FMI 2.0 description names like one is refused for every Channel, and as
    a start value, whether an annotation declares it or not. *)
Theorem address_halves_refused root d name v text :
  read_fmi2 root = Ok d → dget (md_variables d) name = Some v → fv_kind v = OSMP_INTEGER → address_half name →
  unmappable v = true ∧ start_value v text = Err (EStartOsmp (fv_name v)).
Proof.
  intros Hr Hv Hk (a & half & Hh & ->). assert (osmp_problem v = true) as Hp.
  { unfold read_fmi2 in Hr. destruct (find root "CoSimulation") as [co|]; [|done]. destruct (e_get root "guid"); [|done]. inv_ok.
    cbn in Hv. unfold with_osmp in Hok1. inv_ok. match type of Hv with dget (with_unannotated ?l) _ = _ => set (declared := l) in * end.
    assert (marked_from declared (with_unannotated declared)) as Hfrom.
    { unfold with_unannotated. apply foldl_keep; [|intros n w Hw; exists w; auto].
      intros m b Hm. apply (foldl_keep (marked_from declared)); [|done]. intros m' r. apply mark_from. }
    destruct (Hfrom _ _ Hv) as (w & Hw & Hvw). assert (fv_kind w = OSMP_INTEGER) as Hkw by (destruct Hvw as [->|[_ [? ->]]]; done).
    destruct (unannotated declared (a ++ "." ++ half)) eqn:Hu.
    - destruct (half_marked declared a half Hh Hu) as (v' & Hv' & Hs). rewrite Hv in Hv'. injection Hv' as <-.
      unfold osmp_problem. rewrite (bool_decide_true (is_Some (fv_osmp_unannotated v))) by done. apply orb_true_r.
    - destruct Hvw as [->|[? _]]; [|done]. unfold unannotated in Hu. rewrite Hw, Hk, String.eqb_refl in Hu. cbn [andb] in Hu.
      apply bool_decide_eq_false in Hu. unfold osmp_problem. rewrite bool_decide_true; [done|]. by apply not_eq_None_Some. }
  split; [unfold unmappable; by rewrite Hp|]. unfold start_value. rewrite Hp, orb_true_r. done.
Qed.

(** The witness: the halves of an address no annotation declares. *)
Definition demo_integer (name reference : string) : element :=
  Element "ScalarVariable" [("name", name); ("valueReference", reference); ("causality", "input")]%string [Element "Integer" [] []].
Definition demo_fmi2 : element :=
  Element "fmiModelDescription" [("fmiVersion", "2.0"); ("guid", "g")]%string
    [Element "CoSimulation" [("modelIdentifier", "m")]%string [];
     Element "ModelVariables" []
       [demo_integer "OSMPIn.base.lo" "1"; demo_integer "OSMPIn.base.hi" "2"; demo_integer "OSMPIn.size" "3"; demo_integer "n.size" "4"]].
Definition demo_description : model_description :=
  match read_fmi2 demo_fmi2 with Ok d => d | Err _ => mk_description None None [] [] [] None FMI2 end.
Definition demo_half : fvariable := default (demo_variable "" "" "" 0 []) (dget (md_variables demo_description) "OSMPIn.base.lo").

Lemma address_halves_refused_witness :
  (unmappable demo_half = true ∧ start_value demo_half "7" = Err (EStartOsmp "OSMPIn.base.lo"))
  ∧ (λ kv, unmappable kv.2) <$> md_variables demo_description = [true; true; true; false].
Proof.
  split; [|vm_compute; reflexivity].
  exact (address_halves_refused demo_fmi2 demo_description "OSMPIn.base.lo" demo_half "7" ltac:(vm_compute; reflexivity)
    ltac:(vm_compute; reflexivity) ltac:(vm_compute; reflexivity)
    (ex_intro _ "OSMPIn"%string (ex_intro _ "base.lo"%string (conj (list_elem_of_here _ _) eq_refl)))).
Defined.
