(* ===== verification/FmuRuntime2.v ===== *)
(** * FMI 2.0 instances

    Models [fmi/runtime2.py], with the groups of [fmi/binding.py] over it and the
    participant of [fmi/single.py] for an FMI 2.0 FMU: the co-simulation calls of
    the profile, the status rules, and the memory an OSMP binary variable is passed
    through by address.

    As in FmuRuntime.v the FMU is a parameter: what it answers to a call, and what
    lies in its own memory, after the calls before. A call is recorded with the
    memory of the importer as it was, so an FMU may look where it was pointed to.
    The addresses of the importer's buffers are parameters too.

    FmuRuntime2Proofs.v proves that the FMU is driven as FMI 2.0 says, whatever it
    answers but that a step is pending, and that in every Step it finds the newest Message of an OSMP variable
    at the address it was given. *)

From Stdlib Require Import ZArith Lia.
From S2P Require Import Prelude PyFloat SchemaTypes Schema FmuRuntime FmuGroup FmuSingle FmuDescription FmuMapping.
Open Scope Z_scope.

(** ** Calls *)

Abbreviation memory := (Z → byte).

Inductive call2 :=
| SetupExperiment
| EnterInitialization2
| ExitInitialization2
| DoStep2 (t dt : Z)
| Set2 (accessor : string) (refs : list Z) (values : list pynum)
| Get2 (accessor : string) (refs : list Z)
| Terminate2
| FreeInstance2.

#[export] Instance call2_eq_dec : EqDecision call2.
Proof. solve_decision. Defined.

Record answer2 := mk_answer2 { a2_status : Z; a2_values : list pynum }.
Record entry2 := mk_entry2 { e2_call : call2; e2_memory : memory; e2_answer : answer2 }.

(** What an FMU answers, and the bytes at an address of its own. *)
Record binary2 := mk_binary2 {
  b2_answer : list entry2 → call2 → memory → option answer2;
  b2_bytes : list entry2 → Z → Z → bytes;
}.

Inductive failure2 :=
| N2NoInstance
| N2NotExported (c : call2)
| N2Status (c : call2) (status : Z)
| N2Start (name : string) (e : failure2)
| N2Size (size : Z)
| N2TooLarge (size capacity : Z)
| N2NullAddress (size : Z)
| N2ValueCount (given expected : Z)
| N2Channel (reading : bool) (e : failure2)
| N2Payload (e : fmi_failure)
| N2Key.
Abbreviation fmi2 := (fmi_of failure2).

Definition lift2 {S A} (r : result fmi_failure A) : fmi2 S A :=
  lift match r with Ok a => Ok a | Err e => Err (N2Payload e) end.

(** ** The instance *)

Definition OK2 : Z := 0.
Definition WARNING2 : Z := 1.
Definition FATAL2 : Z := 4.
Definition PENDING2 : Z := 5.

(** [CoSimulation2], and the memory of its buffers. *)
Record cosim2 := mk_cosim2 {
  c2_binary : binary2;
  c2_log : list entry2;
  c2_failed : bool;
  c2_open : bool;
  c2_memory : memory;
}.

Definition passes (status : Z) : bool := (status =? OK2) || (status =? WARNING2).

Definition log2 (c : call2) (a : answer2) (co : cosim2) : cosim2 :=
  mk_cosim2 (c2_binary co) (c2_log co ++ [mk_entry2 c (c2_memory co) a])
    (c2_failed co || negb (passes (a2_status a) || (a2_status a =? FATAL2)))
    (c2_open co && negb (a2_status a =? FATAL2)) (c2_memory co).

(** [CoSimulation2._call]. *)
Definition invoke2 (c : call2) : fmi2 cosim2 answer2 := λ co,
  match b2_answer (c2_binary co) (c2_log co) c (c2_memory co) with
  | None => (co, Err (N2NotExported c))
  | Some a => (log2 c a co, if passes (a2_status a) then Ok a else Err (N2Status c (a2_status a)))
  end.
Definition invoke2_ (c : call2) : fmi2 cosim2 () := invoke2 c ≫= λ _, mret ().

Definition ACCESSORS : list (string * string) :=
  [("Float64", "Real"); ("Int32", "Integer"); ("Boolean", "Boolean")]%string.

(** [_set_values] and [_get_values]: a Boolean is a C [int] on the other side. *)
Definition set_values2 (kind : string) (refs : list Z) (vs : list pynum) : fmi2 cosim2 () :=
  match dget ACCESSORS kind with
  | None => throw N2Key
  | Some name => invoke2_ (Set2 name refs vs)
  end.
Definition get_values2 (kind : string) (refs : list Z) : fmi2 cosim2 (list pynum) :=
  match dget ACCESSORS kind with
  | None => throw N2Key
  | Some name => a ← invoke2 (Get2 name refs); mret (native kind <$> a2_values a)
  end.

(** [apply_start_values]; the [KeyError] of an unknown kind is no ParticipantFailure. *)
Definition write_start2 (s : start) : fmi2 cosim2 () :=
  match st_data s with
  | SBinary _ => throw N2Key
  | SScalars kind vs =>
      match dget ACCESSORS kind with
      | None => throw N2Key
      | Some name => reraise (N2Start (st_name s)) (invoke2_ (Set2 name [st_reference s] vs))
      end
  end.
Definition apply_start_values2 (starts : list start) : fmi2 cosim2 () := each write_start2 starts.

(** [initialize]. *)
Definition initialize2 : fmi2 cosim2 () :=
  _ ← invoke2_ SetupExperiment;
  _ ← invoke2_ EnterInitialization2;
  invoke2_ ExitInitialization2.

(** [do_step]. *)
Definition do_step2 (t dt : Z) : fmi2 cosim2 bool := _ ← invoke2_ (DoStep2 t dt); mret false.

(** [close]. *)
Definition free2 : fmi2 cosim2 () := λ co,
  if c2_open co then
    match b2_answer (c2_binary co) (c2_log co) FreeInstance2 (c2_memory co) with
    | None => (co, Err (N2NotExported FreeInstance2))
    | Some a =>
        (mk_cosim2 (c2_binary co) (c2_log co ++ [mk_entry2 FreeInstance2 (c2_memory co) a]) (c2_failed co) false (c2_memory co), Ok ())
    end
  else (co, Ok ()).
Definition close2 : fmi2 cosim2 () := λ co,
  if c2_open co then
    let '(co', r) := (if c2_failed co then mret () else invoke2_ Terminate2) co in
    match free2 co' with
    | (co'', Ok _) => (co'', r)
    | (co'', Err e) => (co'', Err e)
    end
  else (co, Ok ()).

(** ** OSMP buffers *)

Definition HALF : Z := 4294967295.
(** [_signed]. *)
Definition signed_half (half : Z) : Z := if Z.testbit half 31 then half - Z.shiftl 1 32 else half.
(** A C [int] keeps 32 bits of what it is given. *)
Definition c_int (n : pynum) : Z :=
  match n with PInt z => signed_half (Z.land z HALF) | PFloat _ => 0 end.

(** [OsmpBuffer]: the buffer of an input lies at [ob_base]. *)
Record osmp_buffer := mk_osmp_buffer {
  ob_refs : list Z;
  ob_capacity : Z;
  ob_base : option Z;
}.
Definition open_buffer (place : osmp_address → Z) (incoming : bool) (a : osmp_address) (capacity : Z) : osmp_buffer :=
  mk_osmp_buffer [u32 (os_lo a); u32 (os_hi a); u32 (os_size a)] capacity (if incoming then Some (place a) else None).

(** [ctypes.memmove]. *)
Definition memmove (base : Z) (payload : bytes) (m : memory) : memory := λ a,
  if (base <=? a) && (a <? base + zlen payload) then default (m a) (payload !! Z.to_nat (a - base)) else m a.
Definition store2 (base : Z) (payload : bytes) (co : cosim2) : cosim2 :=
  mk_cosim2 (c2_binary co) (c2_log co) (c2_failed co) (c2_open co) (memmove base payload (c2_memory co)).

Definition halves (address : Z) : list Z :=
  [signed_half (Z.land address HALF); signed_half (Z.land (Z.shiftr address 32) HALF)].
(** The address two halves stand for. *)
Definition address_of (lo hi : Z) : Z := Z.lor (Z.shiftl (Z.land hi HALF) 32) (Z.land lo HALF).

(** [OsmpBuffer.write]. *)
Definition write_osmp (b : osmp_buffer) (payload : bytes) : fmi2 cosim2 () :=
  match ob_base b with
  | None => throw N2Key
  | Some base =>
      _ ← update (store2 base payload);
      invoke2_ (Set2 "Integer" (ob_refs b) (PInt <$> halves base ++ [c_int (PInt (zlen payload))]))
  end.

(** [ctypes.string_at], in the memory of the FMU. *)
Definition string_at (address size : Z) : fmi2 cosim2 bytes := λ co,
  (co, Ok (b2_bytes (c2_binary co) (c2_log co) address size)).

(** [OsmpBuffer.read]. *)
Definition read_osmp (b : osmp_buffer) : fmi2 cosim2 bytes :=
  a ← invoke2 (Get2 "Integer" (ob_refs b));
  let '(lo, hi, size) := match a2_values a with
                         | [lo; hi; size] => (c_int lo, c_int hi, c_int size)
                         | _ => (0, 0, 0)
                         end in
  let address := address_of lo hi in
  _ ← throw_if (size <? 0) (N2Size size);
  _ ← throw_if (ob_capacity b <? size) (N2TooLarge size (ob_capacity b));
  _ ← throw_if ((0 <? size) && (address =? 0)) (N2NullAddress size);
  if 0 <? size then string_at address size else mret [].

(** ** Channels *)

Inductive group2 := Scalars2 (g : scalar_group) | Osmp2 (bound : list (osmp_buffer * binary_field)).
Abbreviation binding2 := (list group2).

(** The groups [bind_channel] built; FMI 2.0 has no Binary variables. *)
Definition open_group (place : osmp_address → Z) (incoming : bool) (g : bound_group) : option group2 :=
  match g with
  | BGroup (GScalar g) => Some (Scalars2 g)
  | BGroup (GBinary _) => None
  | BOsmp bound => Some (Osmp2 ((λ ab, (open_buffer place incoming ab.1 (bf_capacity ab.2), ab.2)) <$> bound))
  end.

Definition write_osmps (bound : list (osmp_buffer * binary_field)) (fields : values) : fmi2 cosim2 () :=
  each (λ b, payload ← lift2 (outgoing_payload b.2 fields); write_osmp b.1 payload) bound.
Definition write_scalars2 (g : scalar_group) (fields : values) : fmi2 cosim2 () :=
  vs ← lift2 (mapE (field_values fields) (sg_fields g));
  let vs := concat vs in
  reraise (N2Channel false)
    (_ ← throw_if (negb (zlen vs =? sg_count g)) (N2ValueCount (zlen vs) (sg_count g));
     set_values2 (sg_kind g) (sg_refs g) (native (sg_kind g) <$> vs)).
Definition write_group2 (fields : values) (g : group2) : fmi2 cosim2 () :=
  match g with
  | Scalars2 g => write_scalars2 g fields
  | Osmp2 bound => write_osmps bound fields
  end.
Definition write_binding2 (b : binding2) (fields : values) : fmi2 cosim2 () := each (write_group2 fields) b.

Fixpoint read_osmps (bound : list (osmp_buffer * binary_field)) (into : values) : fmi2 cosim2 values :=
  match bound with
  | [] => mret into
  | (b, f) :: bound =>
      payload ← read_osmp b;
      fields ← lift2 (incoming_payload f payload);
      read_osmps bound (foldl (λ d kv, dset d kv.1 kv.2) into fields)
  end.
Definition read_group2 (g : group2) (into : values) : fmi2 cosim2 values :=
  match g with
  | Scalars2 g =>
      vs ← reraise (N2Channel true) (get_values2 (sg_kind g) (sg_refs g));
      mret (deal (sg_fields g) vs into)
  | Osmp2 bound => read_osmps bound into
  end.
Fixpoint read_binding2 (b : binding2) (into : values) : fmi2 cosim2 values :=
  match b with
  | [] => mret into
  | g :: b => into ← read_group2 g into; read_binding2 b into
  end.

(** ** The participant *)

(** [FmuParticipant] of an FMI 2.0 FMU, which has no Clocks. *)
Record single2 := mk_single2 {
  s2_fmu : option cosim2;
  s2_inputs : list (string * binding2);
  s2_outputs : list (string * binding2);
}.
Definition set_fmu2 (co : cosim2) (x : single2) : single2 := mk_single2 (Some co) (s2_inputs x) (s2_outputs x).
Definition on_fmu2 {A} (m : fmi2 cosim2 A) : fmi2 single2 A := λ x,
  match s2_fmu x with
  | Some co => let '(co', r) := m co in (set_fmu2 co' x, r)
  | None => (x, Err N2NoInstance)
  end.

(** [on_init], from the instance [fmi2Instantiate] gave, if it gave one. *)
Definition on_init2 (created : option binary2) (m : memory) (starts : list start) : fmi2 single2 () :=
  match created with
  | None => throw N2NoInstance
  | Some b =>
      _ ← update (set_fmu2 (mk_cosim2 b [] false true m));
      _ ← on_fmu2 (apply_start_values2 starts);
      on_fmu2 initialize2
  end.

Definition write_input2 (m : message) : fmi2 single2 () :=
  inputs ← gets s2_inputs;
  match dget inputs m.1 with
  | Some b => on_fmu2 (write_binding2 b m.2)
  | None => throw N2Key
  end.
Definition read_output2 (o : string * binding2) : fmi2 single2 (list message) :=
  fields ← on_fmu2 (read_binding2 o.2 []); mret [(o.1, fields)].

(** [on_step] and [_step]. *)
Definition on_step2 (t dt : Z) (inputs : list message) : fmi2 single2 (list message) :=
  _ ← each write_input2 inputs;
  _ ← on_fmu2 (do_step2 t dt);
  outputs ← gets s2_outputs;
  gather_each read_output2 outputs.
Fixpoint play2 (steps : list (Z * Z * list message)) : fmi2 single2 (list (list message)) :=
  match steps with
  | [] => mret []
  | (t, dt, inputs) :: steps =>
      out ← on_step2 t dt inputs;
      rest ← play2 steps;
      mret ((out : list message) :: rest)
  end.

(** [close] of the participant. *)
Definition close_single2 : fmi2 single2 () := λ x,
  match s2_fmu x with
  | Some co => let '(co', r) := close2 co in (set_fmu2 co' x, r)
  | None => (x, Ok ())
  end.
