(* ===== verification/FmuRuntime2Proofs.v ===== *)
(** * FMI 2.0 instances: conformance and OSMP

    [fmi2_conforms]: the calls an FMI 2.0 FMU receives are those its state machine
    allows ([follow2]), from its start values to its release and on every failure,
    but for the release of an FMU that answered [fmi2Pending] to its last step
    ([abandoned]).
    [osmp_delivered]: at every [fmi2DoStep] the address and size last written for an
    OSMP input lead to the payload of the newest Message of its Channel. *)

From Stdlib Require Import ZArith Lia.
From S2P Require Import Prelude PyFloat SchemaTypes Schema FmuRuntime FmuGroup FmuSingle FmuDescription FmuMapping FmuRuntime2.
Open Scope Z_scope.

(** ** The state machine of FMI 2.0 for co-simulation *)

Inductive stage2 := Instantiated2 | Experiment2 | Initializing2 | Stepping2 | InProgress2 | Terminated2 | Error2 | Gone2.

#[export] Instance stage2_eq_dec : EqDecision stage2.
Proof. solve_decision. Defined.

(** The state a call that succeeds leads to, if the call is allowed. *)
Definition next2 (s : stage2) (c : call2) : option stage2 :=
  match s, c with
  | Instantiated2, Set2 _ _ _ => Some Instantiated2
  | Instantiated2, SetupExperiment => Some Experiment2
  | Experiment2, EnterInitialization2 => Some Initializing2
  | Initializing2, ExitInitialization2 => Some Stepping2
  | Stepping2, (Set2 _ _ _ | Get2 _ _ | DoStep2 _ _) => Some Stepping2
  | Stepping2, Terminate2 => Some Terminated2
  | (Terminated2 | Error2), FreeInstance2 => Some Gone2
  | _, _ => None
  end.

Definition is_do_step (c : call2) : bool := match c with DoStep2 _ _ => true | _ => false end.

(** [fmi2FreeInstance] has no status; a pending step allows nothing of this profile. *)
Definition follow2 (s : stage2) (e : entry2) : option stage2 :=
  s' ← next2 s (e2_call e);
  Some (if decide (e2_call e = FreeInstance2) then s'
        else if passes (a2_status (e2_answer e)) then s'
        else if a2_status (e2_answer e) =? FATAL2 then Gone2
        else if is_do_step (e2_call e) && (a2_status (e2_answer e) =? PENDING2) then InProgress2
        else Error2).
Definition observe2 (log : list entry2) : option stage2 :=
  foldl (λ s e, s ≫= λ s, follow2 s e) (Some Instantiated2) log.

Definition steps_of2 (log : list entry2) : list (Z * Z) :=
  omap (λ e, match e2_call e with DoStep2 t dt => Some (t, dt) | _ => None end) log.

Lemma observe2_snoc log e : observe2 (log ++ [e]) = (observe2 log ≫= λ s, follow2 s e).
Proof. unfold observe2. by rewrite foldl_snoc. Qed.

(** An FMU that answered [fmi2Pending] is released while its step is in progress,
    where FMI 2.0 has its importer wait for the step or cancel it. *)
Definition abandoned (log : list entry2) : Prop :=
  ∃ before e f, log = before ++ [e; f] ∧ observe2 before = Some Stepping2 ∧
    is_do_step (e2_call e) = true ∧ a2_status (e2_answer e) = PENDING2 ∧ e2_call f = FreeInstance2.

Lemma in_progress log e :
  observe2 (log ++ [e]) = Some InProgress2 →
  observe2 log = Some Stepping2 ∧ is_do_step (e2_call e) = true ∧ a2_status (e2_answer e) = PENDING2.
Proof.
  rewrite observe2_snoc. intros (s & Hs & (s' & Hn & Hf)%bind_Some)%bind_Some. rewrite Hs.
  assert (s' ≠ InProgress2) as Hne by (intros ->; by destruct s, (e2_call e)).
  case_decide; [by injection Hf as ->|]. destruct (passes _); [by injection Hf as ->|]. destruct (_ =? FATAL2); [done|].
  destruct (is_do_step (e2_call e) && _) eqn:Hd; [|done]. apply andb_true_iff in Hd as [Hd Hp%Z.eqb_eq].
  split; [|by split]. by destruct (e2_call e), s.
Qed.

(** An FMU exports every function of FMI 2.0. *)
Definition standard (b : binary2) : Prop := ∀ log c m, is_Some (b2_answer b log c m).

Record inst (L : list (Z * Z)) (s : stage2) (co : cosim2) : Prop := mk_inst {
  in_standard : standard (c2_binary co);
  in_log : observe2 (c2_log co) = Some s;
  in_steps : steps_of2 (c2_log co) = L;
  in_open : c2_open co = bool_decide (s ≠ Gone2);
  in_failed : s ≠ Gone2 → c2_failed co = bool_decide (s = Error2 ∨ s = InProgress2);
}.
Definition closable (s : stage2) : Prop := s = Stepping2 ∨ s = Error2 ∨ s = InProgress2 ∨ s = Gone2.
Definition over (co : cosim2) : Prop := ∃ L s, inst L s co ∧ closable s.

Definition step_of (c : call2) : list (Z * Z) := match c with DoStep2 t dt => [(t, dt)] | _ => [] end.

(** Every call that is allowed moves the FMU on, or leaves it to be released. *)
Lemma invoke2_inst L s s' c :
  next2 s c = Some s' → c ≠ FreeInstance2 → s ≠ Error2 → s' ≠ Error2 → s' ≠ Gone2 →
  triple (inst L s) (invoke2 c) (λ _, inst (L ++ step_of c) s') over.
Proof.
  intros Hn Hc Hs Hs' Hg co [Hexp Hlog HL Ho Hf]. unfold invoke2.
  destruct (Hexp (c2_log co) c (c2_memory co)) as [a Ha]. rewrite Ha.
  assert (steps_of2 (c2_log co ++ [mk_entry2 c (c2_memory co) a]) = L ++ step_of c) as HL'.
  { unfold steps_of2. rewrite omap_app. fold (steps_of2 (c2_log co)). rewrite HL. by destruct c. }
  assert (s ≠ Gone2) as Hsg by (intros ->; by destruct c). assert (s ≠ InProgress2) as Hsi by (intros ->; by destruct c).
  assert (s' ≠ InProgress2) as Hsi' by (intros ->; by destruct s, c). specialize (Hf Hsg).
  rewrite bool_decide_false in Hf by tauto. rewrite bool_decide_true in Ho by done.
  assert (∀ x, follow2 s (mk_entry2 c (c2_memory co) a) = Some x →
    observe2 (c2_log co ++ [mk_entry2 c (c2_memory co) a]) = Some x) as Hob by (intros x Hx; by rewrite observe2_snoc, Hlog).
  unfold follow2 in Hob. cbn [e2_call e2_answer] in Hob. rewrite Hn in Hob. cbn [mbind option_bind] in Hob.
  rewrite decide_False in Hob by done. destruct (passes (a2_status a)) eqn:Hp.
  - split; [done|by apply Hob|done| |]; unfold log2; cbn; rewrite ?Ho, ?Hf, ?Hp.
    + rewrite bool_decide_true by done. unfold passes, OK2, WARNING2, FATAL2 in *. lia.
    + intros _. rewrite bool_decide_false by tauto. done.
  - destruct (Z.eqb_spec (a2_status a) FATAL2) as [Hfa|Hfa].
    + exists (L ++ step_of c), Gone2. split; [|by do 3 right]. split; [done|by apply Hob|done| |done].
      unfold log2. cbn. rewrite Ho, Hfa. done.
    + exists (L ++ step_of c), (if is_do_step c && (a2_status a =? PENDING2) then InProgress2 else Error2).
      split; [|unfold closable; destruct (_ && _); tauto]. split; [done|by apply Hob|done| |].
      * unfold log2. cbn. rewrite Ho, (proj2 (Z.eqb_neq _ _) Hfa). by destruct (_ && _).
      * intros _. unfold log2. cbn. rewrite Hf, Hp, (proj2 (Z.eqb_neq _ _) Hfa). by destruct (_ && _).
Qed.

Lemma invoke2_inst_ L s s' c :
  next2 s c = Some s' → c ≠ FreeInstance2 → s ≠ Error2 → s' ≠ Error2 → s' ≠ Gone2 → step_of c = [] →
  triple (inst L s) (invoke2_ c) (λ _, inst L s') over.
Proof.
  intros Hn Hc Hs He Hg Hst. unfold invoke2_. eapply triple_bind; [by apply invoke2_inst|]. rewrite Hst, app_nil_r.
  intros a. by intros co Hco.
Qed.

Lemma over_stepping L co : inst L Stepping2 co → over co.
Proof. intros H. exists L, Stepping2. split; [done|by left]. Qed.

Lemma reraise2_triple {S A} f (m : fmi2 S A) P Q E : triple P m Q E → triple P (reraise f m) Q E.
Proof. intros Hm s Hs. specialize (Hm s Hs). unfold reraise. by destruct (m s) as [s' [a|e]]. Qed.

(** ** Start values and initialization *)

(** What the mapping of start values gives for an FMI 2.0 FMU. *)
Definition start_ok (s : start) : Prop := ∃ kind vs, st_data s = SScalars kind vs ∧ is_Some (dget ACCESSORS kind).

Lemma starts_inst L starts :
  Forall start_ok starts → triple (inst L Instantiated2) (apply_start_values2 starts) (λ _, inst L Instantiated2) over.
Proof.
  intros Hs. unfold apply_start_values2. induction Hs as [|s starts (kind & vs & Hd & [name Hn]) _ IH]; [by intros co|]. cbn [each].
  eapply triple_bind with (Q := λ _, inst L Instantiated2); [|intros []; exact IH]. unfold write_start2. rewrite Hd, Hn. by apply reraise2_triple, invoke2_inst_.
Qed.
Lemma initialize_inst L : triple (inst L Instantiated2) initialize2 (λ _, inst L Stepping2) over.
Proof.
  unfold initialize2. eapply triple_bind; [by apply (invoke2_inst_ L Instantiated2 Experiment2)|]. intros [].
  eapply triple_bind; [by apply (invoke2_inst_ L Experiment2 Initializing2)|]. intros []. by apply invoke2_inst_.
Qed.

(** ** Steps *)

(** Operations that leave an invariant, or break off with a weaker one. *)
Section preserves.
Context (I E : cosim2 → Prop) (weaker : ∀ co, I co → E co).

Definition preserves {A} (m : fmi2 cosim2 A) : Prop := triple I m (λ _, I) E.

Lemma preserves_lift {A} (r : result failure2 A) : preserves (lift r).
Proof using weaker. apply triple_lift. intros co Hco. destruct r; [done|by apply weaker]. Qed.
Lemma preserves_throw {A} e : preserves (throw e : fmi2 cosim2 A).
Proof using weaker. by apply triple_throw. Qed.
Lemma preserves_throw_if b e : preserves (throw_if b e).
Proof using weaker. apply triple_throw_if; [|done]. intros co Hco _. by apply weaker. Qed.
Lemma preserves_bind {A B} (m : fmi2 cosim2 A) (k : A → fmi2 cosim2 B) : preserves m → (∀ a, preserves (k a)) → preserves (m ≫= k).
Proof. intros Hm Hk. eapply triple_bind; [apply Hm|]. intros a. apply Hk. Qed.
Lemma preserves_ret {A} (a : A) : preserves (mret a).
Proof. by intros co. Qed.
Lemma preserves_each {A} (f : A → fmi2 cosim2 ()) l : (∀ x, preserves (f x)) → preserves (each f l).
Proof. intros Hf. apply (triple_each f l (λ _, I)). intros x _. apply Hf. Qed.

(** Reading is [Get2] calls, and what an FMU holds is not changed by them. *)
Context (get_preserves : ∀ n refs, preserves (invoke2 (Get2 n refs))).

Lemma preserves_read_osmp b : preserves (read_osmp b).
Proof using weaker get_preserves.
  unfold read_osmp. apply preserves_bind; [apply get_preserves|]. intros a. destruct (match a2_values a with [lo; hi; size] => _ | _ => _ end) as [[lo hi] size].
  cbn zeta. do 3 (apply preserves_bind; [apply preserves_throw_if|intros _]).
  destruct (0 <? size); [|apply preserves_ret]. by intros co.
Qed.
Lemma preserves_read_osmps bound into : preserves (read_osmps bound into).
Proof using weaker get_preserves.
  revert into. induction bound as [|[b f] bound IH]; intros into; cbn [read_osmps]; [apply preserves_ret|].
  apply preserves_bind; [apply preserves_read_osmp|]. intros p. apply preserves_bind; [apply preserves_lift|]. intros fs. apply IH.
Qed.
Lemma preserves_read_binding b into : preserves (read_binding2 b into).
Proof using weaker get_preserves.
  revert into. induction b as [|g b IH]; intros into; cbn [read_binding2]; [apply preserves_ret|].
  apply preserves_bind; [|intros; apply IH]. destruct g as [g|bound]; cbn [read_group2]; [|apply preserves_read_osmps].
  apply preserves_bind; [|intros; apply preserves_ret]. apply reraise2_triple. unfold get_values2.
  destruct (dget ACCESSORS _); [|apply preserves_throw]. apply preserves_bind; [apply get_preserves|]. intros a. apply preserves_ret.
Qed.

(** Writing an OSMP variable, and scalars through one [Set2]. *)
Lemma preserves_write_scalars g fields :
  (∀ n vs, preserves (invoke2_ (Set2 n (sg_refs g) vs))) → preserves (write_scalars2 g fields).
Proof using weaker.
  intros Hset. apply preserves_bind; [apply preserves_lift|]. intros vs. apply reraise2_triple, preserves_bind; [apply preserves_throw_if|]. intros _.
  unfold set_values2. destruct (dget ACCESSORS _); [apply Hset|apply preserves_throw].
Qed.
End preserves.

Definition keeps2 {A} (m : fmi2 cosim2 A) : Prop := ∀ L, preserves (inst L Stepping2) over m.

Lemma keeps2_set n refs vs : keeps2 (invoke2_ (Set2 n refs vs)).
Proof. intros L. by apply invoke2_inst_. Qed.
Lemma keeps2_get n refs : keeps2 (invoke2 (Get2 n refs)).
Proof.
  intros L. pose proof (invoke2_inst L Stepping2 Stepping2 (Get2 n refs) eq_refl) as H. cbn in H. rewrite app_nil_r in H. by apply H.
Qed.
Lemma keeps2_write_group fields g : keeps2 (write_group2 fields g).
Proof.
  intros L. pose proof (over_stepping L) as Hw. destruct g as [g|bound]; cbn [write_group2].
  - apply preserves_write_scalars; [done|]. intros. apply keeps2_set.
  - apply preserves_each. intros b. apply preserves_bind; [by apply preserves_lift|]. intros p. unfold write_osmp.
    destruct (ob_base b.1) as [base|]; [|by apply preserves_throw]. apply preserves_bind; [|intros; apply keeps2_set].
    apply triple_update. by intros co [].
Qed.
Lemma keeps2_read_binding b into : keeps2 (read_binding2 b into).
Proof. intros L. apply preserves_read_binding; [apply over_stepping|]. intros. apply keeps2_get. Qed.

(** ** The participant *)

Definition sinst2 (L : list (Z * Z)) (s : stage2) (x : single2) : Prop := ∃ co, s2_fmu x = Some co ∧ inst L s co.
Definition sover (x : single2) : Prop := ∃ co, s2_fmu x = Some co ∧ over co.

Lemma sover_stepping L x : sinst2 L Stepping2 x → sover x.
Proof. intros (co & Hx & Hco). exists co. split; [done|]. by eapply over_stepping. Qed.

Lemma on_fmu2_inst {A} (m : fmi2 cosim2 A) L L' s s' :
  triple (inst L s) m (λ _, inst L' s') over → triple (sinst2 L s) (on_fmu2 m) (λ _, sinst2 L' s') sover.
Proof.
  intros Hm x (co & Hx & Hco). unfold on_fmu2. rewrite Hx. specialize (Hm co Hco).
  destruct (m co) as [co' [a|e]]; exists co'; by split.
Qed.

Lemma write_input2_inst L m : triple (sinst2 L Stepping2) (write_input2 m) (λ _, sinst2 L Stepping2) sover.
Proof.
  unfold write_input2. eapply triple_bind; [apply (triple_gets s2_inputs)|]. intros inputs. apply triple_pull. intros x [Hx _].
  exists (sinst2 L Stepping2). split; [done|]. destruct (dget inputs m.1) as [b|].
  - apply on_fmu2_inst. unfold write_binding2. apply preserves_each. intros g. apply keeps2_write_group.
  - apply triple_throw. intros y Hy. by eapply sover_stepping.
Qed.

Lemma read_output2_inst L o : triple (sinst2 L Stepping2) (read_output2 o) (λ _, sinst2 L Stepping2) sover.
Proof.
  unfold read_output2. eapply triple_bind with (Q := λ _, sinst2 L Stepping2); [apply on_fmu2_inst, keeps2_read_binding|]. by intros a x Hx.
Qed.

Lemma on_step2_inst L t dt inputs :
  triple (sinst2 L Stepping2) (on_step2 t dt inputs) (λ _, sinst2 (L ++ [(t, dt)]) Stepping2) sover.
Proof.
  unfold on_step2. eapply triple_bind with (Q := λ _, sinst2 L Stepping2).
  { apply (triple_each _ inputs (λ _, sinst2 L Stepping2)). intros m _. apply write_input2_inst. }
  intros []. eapply triple_bind with (Q := λ _, sinst2 (L ++ [(t, dt)]) Stepping2).
  { apply on_fmu2_inst. unfold do_step2. eapply triple_bind with (Q := λ _, inst (L ++ [(t, dt)]) Stepping2); [|by intros a co].
    unfold invoke2_. eapply triple_bind; [by apply (invoke2_inst L Stepping2 Stepping2)|]. by intros a co. }
  intros _. eapply triple_bind; [apply (triple_gets s2_outputs)|]. intros outputs.
  eapply triple_conseq; [apply (triple_gather _ outputs (sinst2 (L ++ [(t, dt)]) Stepping2) (λ _, True))|by intros x [? _]|by intros a x [? _]|done].
  intros o. eapply triple_conseq; [apply read_output2_inst|done| |done]. intros ys x Hx. split; [done|]. by apply Forall_forall.
Qed.

Lemma play2_inst L steps :
  triple (sinst2 L Stepping2) (play2 steps) (λ _, sinst2 (L ++ steps.*1) Stepping2) sover.
Proof.
  revert L. induction steps as [|[[t dt] inputs] steps IH]; intros L; cbn [play2]; [intros x Hx; cbn; by rewrite app_nil_r|].
  eapply triple_bind; [apply on_step2_inst|]. intros out. eapply triple_bind; [apply IH|]. intros rest x Hx. cbn. by rewrite <- app_assoc in Hx.
Qed.

Lemma on_init2_inst b m starts x :
  standard b → Forall start_ok starts →
  triple (λ y, y = x) (on_init2 (Some b) m starts) (λ _, sinst2 [] Stepping2) sover.
Proof.
  intros Hb Hs. unfold on_init2. eapply triple_bind with (Q := λ _, sinst2 [] Instantiated2).
  { apply triple_update. intros y ->. eexists. split; [reflexivity|]. by split. }
  intros []. eapply triple_bind; [by apply on_fmu2_inst, starts_inst|]. intros []. apply on_fmu2_inst, initialize_inst.
Qed.

(** ** Closing *)

(** The release of an FMU, which is not a call of its state machine only while a
    step is in progress. *)
Definition releases (log log' : list entry2) : Prop :=
  ∃ e, log' = log ++ [e] ∧ e2_call e = FreeInstance2.

Lemma free2_releases co :
  standard (c2_binary co) → c2_open co = true → ∃ co', free2 co = (co', Ok ()) ∧ releases (c2_log co) (c2_log co').
Proof.
  intros Hb Ho. unfold free2. rewrite Ho. destruct (Hb (c2_log co) FreeInstance2 (c2_memory co)) as [a ->].
  eexists. split; [done|]. by eexists.
Qed.
Lemma releases_steps log log' : releases log log' → steps_of2 log' = steps_of2 log.
Proof. intros ([c m a] & -> & [= ->]). unfold steps_of2. rewrite omap_app. cbn. by rewrite app_nil_r. Qed.
Lemma releases_gone s log log' :
  releases log log' → observe2 log = Some s → s = Terminated2 ∨ s = Error2 → is_Some (observe2 log').
Proof. intros ([c m a] & -> & [= ->]) Hl Hs. rewrite observe2_snoc, Hl. by destruct Hs as [->| ->]; eexists. Qed.
Lemma releases_abandoned log log' : releases log log' → observe2 log = Some InProgress2 → abandoned log'.
Proof.
  intros (f & -> & Hf) Hl. destruct log as [|e log _] using rev_ind; [done|]. apply in_progress in Hl as (Hl & Hd & Hp).
  exists log, e, f. by rewrite <- app_assoc.
Qed.

(** Closing an instance whose last call passed: [fmi2Terminate] and the release. *)
Lemma close2_stepping L co :
  inst L Stepping2 co → let '(co', _) := close2 co in is_Some (observe2 (c2_log co')) ∧ steps_of2 (c2_log co') = L.
Proof.
  intros [Hb Hl HL Ho Hf]. unfold close2. rewrite Ho, Hf, bool_decide_true, bool_decide_false by naive_solver.
  unfold invoke2_, invoke2, mbind, fmi_bind. destruct (Hb (c2_log co) Terminate2 (c2_memory co)) as [a Ha]. rewrite Ha.
  set (co1 := log2 Terminate2 a co). assert (steps_of2 (c2_log co1) = L) as HL1.
  { unfold co1, log2. cbn [c2_log]. unfold steps_of2 in *. rewrite omap_app, HL. cbn. by rewrite app_nil_r. }
  assert (c2_open co1 = negb (a2_status a =? FATAL2)) as Ho1 by (unfold co1, log2; cbn; by rewrite Ho).
  assert (observe2 (c2_log co1) = Some (if passes (a2_status a) then Terminated2 else if a2_status a =? FATAL2 then Gone2 else Error2)) as Hl1.
  { unfold co1, log2. cbn [c2_log]. rewrite observe2_snoc, Hl. done. }
  destruct (a2_status a =? FATAL2) eqn:Hfa.
  - assert (passes (a2_status a) = false) as Hp by (unfold passes, OK2, WARNING2, FATAL2 in *; lia). rewrite Hp in *.
    unfold free2. rewrite Ho1. cbn [negb]. by rewrite Hl1.
  - destruct (free2_releases co1 Hb Ho1) as (co' & Hfr & Hr).
    assert (is_Some (observe2 (c2_log co'))) as Hg by (eapply releases_gone; [done..|]; destruct (passes _); tauto).
    destruct (passes (a2_status a)); cbn [mret fmi_ret]; rewrite Hfr, (releases_steps _ _ Hr); by split.
Qed.

Lemma close2_failed L s co :
  inst L s co → s = Error2 ∨ s = InProgress2 → let '(co', _) := close2 co in releases (c2_log co) (c2_log co').
Proof.
  intros [Hb Hl HL Ho Hf] Hs. assert (s ≠ Gone2) as Hg by naive_solver. rewrite bool_decide_true in Ho by done.
  unfold close2. rewrite Ho, (Hf Hg), bool_decide_true by done. cbn [mret fmi_ret].
  by destruct (free2_releases co Hb Ho) as (co' & -> & Hr).
Qed.

Lemma close2_over co :
  over co → let '(co', _) := close2 co in is_Some (observe2 (c2_log co')) ∨ abandoned (c2_log co').
Proof.
  intros (L & s & Hi & [->|Hs]).
  - apply close2_stepping in Hi. destruct (close2 co). by left; destruct Hi.
  - destruct Hs as [->|[->| ->]].
    + pose proof (close2_failed _ _ _ Hi (or_introl eq_refl)) as Hr. destruct (close2 co). left.
      eapply releases_gone; [done|by destruct Hi|by right].
    + pose proof (close2_failed _ _ _ Hi (or_intror eq_refl)) as Hr. destruct (close2 co). right.
      eapply releases_abandoned; [done|by destruct Hi].
    + destruct Hi as [Hb Hl HL Ho Hf]. unfold close2. rewrite Ho, bool_decide_false by naive_solver. left. by rewrite Hl.
Qed.

Definition log_of2 (x : single2) : list entry2 := match s2_fmu x with Some co => c2_log co | None => [] end.

(** C32. An FMI 2.0 FMU that exports the functions of its interface is driven as its
    state machine says, whatever it answers: from its start values over any Steps
    until it is closed, whichever call fails, it receives only calls its state
    allows, none after a fatal answer and only its release after an error. There is
    one exception, stated as it is: an FMU that answers [fmi2Pending] to
    [fmi2DoStep] is released while that step is in progress ([abandoned]). When the
    Steps succeed there is none, and the FMU was stepped over exactly the intervals
    the kernel declares. *)
Theorem fmi2_conforms b m starts steps x x2 r x3 r' :
  standard b → Forall start_ok starts →
  (on_init2 (Some b) m starts ≫= λ _, play2 steps) x = (x2, r) → close_single2 x2 = (x3, r') →
  match r with
  | Ok _ => is_Some (observe2 (log_of2 x3)) ∧ steps_of2 (log_of2 x3) = steps.*1
  | Err _ => is_Some (observe2 (log_of2 x3)) ∨ abandoned (log_of2 x3)
  end.
Proof.
  intros Hb Hs Hr Hc. assert (triple (λ y, y = x) (on_init2 (Some b) m starts ≫= λ _, play2 steps) (λ _, sinst2 steps.*1 Stepping2) sover) as Ht.
  { eapply triple_bind; [by apply on_init2_inst|]. intros []. apply (play2_inst []). }
  specialize (Ht x eq_refl). rewrite Hr in Ht. unfold close_single2 in Hc. unfold log_of2. destruct r as [outs|e].
  - destruct Ht as (co & Hx & Hco). rewrite Hx in Hc. apply close2_stepping in Hco. destruct (close2 co) as [co' rc].
    by injection Hc as <- _.
  - destruct Ht as (co & Hx & Hco). rewrite Hx in Hc. apply close2_over in Hco. destruct (close2 co) as [co' rc].
    by injection Hc as <- _.
Qed.

(** ** Addresses in two halves *)

Lemma signed_half_land z : 0 ≤ z < 2 ^ 32 → Z.land (signed_half z) HALF = z.
Proof.
  intros Hz. unfold signed_half. change HALF with (Z.ones 32). rewrite !Z.land_ones by lia. change (Z.shiftl 1 32) with (2 ^ 32).
  destruct (Z.testbit z 31); [|by apply Z.mod_small]. symmetry. apply Z.mod_unique with (-1); lia.
Qed.
Lemma half_range z : 0 ≤ Z.land z HALF < 2 ^ 32.
Proof. change HALF with (Z.ones 32). rewrite Z.land_ones by lia. apply Z.mod_pos_bound. lia. Qed.

Lemma address_of_halves a :
  0 ≤ a < 2 ^ 64 →
  address_of (signed_half (Z.land a HALF)) (signed_half (Z.land (Z.shiftr a 32) HALF)) = a.
Proof.
  intros Ha. unfold address_of. rewrite !signed_half_land by apply half_range.
  change HALF with (Z.ones 32). apply Z.bits_inj'. intros n Hn.
  rewrite Z.lor_spec, Z.shiftl_spec, !Z.land_spec by done. destruct (Z.lt_ge_cases n 32).
  - rewrite !(Z.testbit_neg_r _ (n - 32)) by lia. rewrite (Z.ones_spec_low 32 n) by lia. cbn. by rewrite andb_true_r.
  - rewrite Z.shiftr_spec by lia. rewrite (Z.ones_spec_high 32 n) by lia. rewrite andb_false_r, orb_false_r.
    replace (n - 32 + 32) with n by lia. destruct (Z.lt_ge_cases n 64).
    + rewrite Z.ones_spec_low by lia. by rewrite andb_true_r.
    + assert (Z.log2 a < n) as Hlog; [|by rewrite (Z.bits_above_log2 a n) by lia].
      destruct (Z.eq_dec a 0) as [->|]; [cbn; lia|]. apply Z.log2_lt_pow2; [lia|].
      eapply Z.lt_le_trans; [apply Ha|]. apply Z.pow_le_mono_r; lia.
Qed.

Lemma c_int_small n : 0 ≤ n < 2 ^ 31 → c_int (PInt n) = n.
Proof.
  intros Hn. unfold c_int, signed_half. change HALF with (Z.ones 32). rewrite Z.land_ones by lia. rewrite Z.mod_small by lia.
  assert (Z.testbit n 31 = false) as -> by (apply Z.testbit_false; [lia|]; by rewrite Z.div_small by lia). done.
Qed.

(** ** What an FMU is shown *)

(** The address and the size last written to a triple of Integers. *)
Definition shows (refs : list Z) (acc : option (Z * Z)) (e : entry2) : option (Z * Z) :=
  match e2_call e with
  | Set2 name r [PInt lo; PInt hi; PInt size] =>
      if decide (r = refs) then Some (address_of lo hi, size) else acc
  | _ => acc
  end.
Definition shown (refs : list Z) (log : list entry2) : option (Z * Z) := foldl (shows refs) None log.

(** The bytes an FMU finds in the memory of its importer. *)
Definition seen (m : FmuRuntime2.memory) (a : Z) (n : nat) : bytes := (λ i, m (a + Z.of_nat i)) <$> seq 0 n.

(** The FMU is pointed to the payload. *)
Definition current (b : osmp_buffer) (p : bytes) (log : list entry2) (m : FmuRuntime2.memory) : Prop :=
  ∃ address, ob_base b = Some address ∧ shown (ob_refs b) log = Some (address, zlen p) ∧ seen m address (length p) = p.

Lemma seen_same m m' a n : (∀ i, (i < n)%nat → m (a + Z.of_nat i) = m' (a + Z.of_nat i)) → seen m a n = seen m' a n.
Proof. intros H. unfold seen. apply list_fmap_ext. intros k i [-> Hi]%lookup_seq. by apply H. Qed.

Lemma seen_memmove m base p : seen (memmove base p m) base (length p) = p.
Proof.
  apply list_eq. intros i. unfold seen. rewrite list_lookup_fmap. destruct (decide (i < length p)%nat) as [Hi|Hi].
  - rewrite lookup_seq_lt by done. cbn. unfold memmove, zlen.
    rewrite (proj2 (Z.leb_le _ _)), (proj2 (Z.ltb_lt _ _)) by lia. cbn [andb].
    replace (Z.to_nat (base + Z.of_nat i - base)) with i by lia. destruct (lookup_lt_is_Some_2 p i Hi) as [b ->]. done.
  - rewrite lookup_seq_ge by lia. symmetry. apply lookup_ge_None. lia.
Qed.
Lemma memmove_apart m base p a n :
  (a + Z.of_nat n ≤ base ∨ base + zlen p ≤ a) → seen (memmove base p m) a n = seen m a n.
Proof.
  intros Hd. apply seen_same. intros i Hi. unfold memmove. destruct (Z.leb_spec base (a + Z.of_nat i)); [|done].
  destruct (Z.ltb_spec (a + Z.of_nat i) (base + zlen p)); [lia|done].
Qed.

(** The newest Message of a Channel, as the payload of one of its fields. *)
Definition newest (ms : list message) (channel : string) (f : binary_field) : option bytes :=
  m ← last (filter (λ m, m.1 = channel) ms);
  match outgoing_payload f m.2 with Ok p => Some p | Err _ => None end.

Definition osmp_of (cb : string * binding2) : list (string * (osmp_buffer * binary_field)) :=
  cb.2 ≫= λ g, match g with Osmp2 bound => (λ bf, (cb.1, bf)) <$> bound | Scalars2 _ => [] end.

(** The OSMP inputs have buffers of their own, and references of their own. *)
Record placed (inputs : list (string * binding2)) (bound := inputs ≫= osmp_of) : Prop := mk_placed {
  pl_channels : NoDup inputs.*1;
  pl_address : ∀ c b f, (c, (b, f)) ∈ bound →
    ∃ a, ob_base b = Some a ∧ 0 ≤ a < 2 ^ 64 ∧ 0 ≤ bf_capacity f ≤ OSMP_SIZE_CEILING;
  pl_one : ∀ c b f c' b' f', (c, (b, f)) ∈ bound → (c', (b', f')) ∈ bound → ob_refs b = ob_refs b' → (c, (b, f)) = (c', (b', f'));
  pl_apart : ∀ c b f c' b' f' a a', (c, (b, f)) ∈ bound → (c', (b', f')) ∈ bound → ob_refs b ≠ ob_refs b' →
    ob_base b = Some a → ob_base b' = Some a' → a + bf_capacity f ≤ a' ∨ a' + bf_capacity f' ≤ a;
  pl_scalars : ∀ c gs g c' b f, (c, gs) ∈ inputs → Scalars2 g ∈ gs → (c', (b, f)) ∈ bound → sg_refs g ≠ ob_refs b;
}.

Lemma payload_capacity f fields p : outgoing_payload f fields = Ok p → zlen p ≤ Z.max 0 (bf_capacity f).
Proof.
  unfold outgoing_payload. intros (n & _ & H)%bind_Ok. apply bind_Ok in H as ([] & Hn%raise_if_Ok%Z.ltb_ge & H).
  destruct (dget fields (bf_field f)) as [[|bs|]|]; [done| |done..]. injection H as <-. unfold zlen. rewrite length_take. lia.
Qed.

Section delivered.
Context (inputs : list (string * binding2)) (all : list (list message)).
Hypothesis own : placed inputs.
Local Abbreviation bound := (inputs ≫= osmp_of).

Definition wanted (ms : list message) (b : osmp_buffer) (p : bytes) : Prop :=
  ∃ c f, (c, (b, f)) ∈ bound ∧ newest ms c f = Some p.

(** At every [fmi2DoStep] so far the FMU was pointed to what was newest. *)
Definition stepped (log : list entry2) : Prop :=
  ∀ before e after, log = before ++ e :: after → is_do_step (e2_call e) = true →
  ∀ b p, wanted (concat (take (S (length (steps_of2 before))) all)) b p → current b p before (e2_memory e).

(** After [k] Steps the FMU is pointed to the newest payloads, but for the
    variables in [todo]. *)
Record pointed (todo : list (list Z)) (ms : list message) (k : nat) (co : cosim2) : Prop := mk_pointed {
  pt_current : ∀ b p, ob_refs b ∉ todo → wanted ms b p → current b p (c2_log co) (c2_memory co);
  pt_stepped : stepped (c2_log co);
  pt_count : length (steps_of2 (c2_log co)) = k;
}.

Lemma stepped_snoc log e :
  stepped log →
  (is_do_step (e2_call e) = true → ∀ b p, wanted (concat (take (S (length (steps_of2 log))) all)) b p → current b p log (e2_memory e)) →
  stepped (log ++ [e]).
Proof.
  intros Hs He before e' after Heq Hd. destruct after as [|x after _] using rev_ind.
  - apply app_inj_tail in Heq as [-> ->]. by apply He.
  - rewrite app_comm_cons, app_assoc in Heq. apply app_inj_tail in Heq as [-> ->]. by eapply Hs.
Qed.

Lemma shown_snoc refs log e : shown refs (log ++ [e]) = shows refs (shown refs log) e.
Proof. unfold shown. by rewrite foldl_snoc. Qed.

Definition nothing_raised (co : cosim2) : Prop := True.

(** A call that points to nothing and is no Step. *)
Lemma quiet_call todo ms k c :
  is_do_step c = false →
  (∀ ch b f p acc m a, (ch, (b, f)) ∈ bound → newest ms ch f = Some p → shows (ob_refs b) acc (mk_entry2 c m a) = acc) →
  preserves (pointed todo ms k) nothing_raised (invoke2 c).
Proof.
  intros Hd Hq co [Hc Hs Hk]. unfold invoke2. destruct (b2_answer _ _ _ _) as [a|]; [|done].
  destruct (passes (a2_status a)); [|done]. split; cbn [c2_log c2_memory log2].
  - intros b p Hb Hw. destruct (Hc b p Hb Hw) as (ad & Ha & Hsh & Hse). exists ad. split; [done|]. split; [|done].
    destruct Hw as (ch & f & Hin & Hn). by rewrite shown_snoc, (Hq ch b f p) by done.
  - apply stepped_snoc; [done|]. cbn. congruence.
  - unfold steps_of2. rewrite omap_app, length_app. fold (steps_of2 (c2_log co)). destruct c; try done; cbn; lia.
Qed.

Lemma get_quiet todo ms k n refs : preserves (pointed todo ms k) nothing_raised (invoke2 (Get2 n refs)).
Proof. by apply quiet_call. Qed.

Lemma set_quiet todo ms k n refs vs :
  (∀ c b f, (c, (b, f)) ∈ bound → refs ≠ ob_refs b) → preserves (pointed todo ms k) nothing_raised (invoke2_ (Set2 n refs vs)).
Proof.
  intros Hr. apply preserves_bind; [|intros; apply preserves_ret]. apply quiet_call; [done|].
  intros ch b f p acc m a Hin _. unfold shows. cbn. repeat case_match; try done. by destruct (Hr ch b f Hin).
Qed.

(** The buffer of the Message is pointed to, and no other buffer is disturbed. *)
Lemma write_osmp_pointed todo ms k c b f p :
  (c, (b, f)) ∈ bound → newest ms c f = Some p → zlen p ≤ Z.max 0 (bf_capacity f) →
  triple (pointed (ob_refs b :: todo) ms k) (write_osmp b p) (λ _, pointed todo ms k) nothing_raised.
Proof using own.
  intros Hin Hp Hcap. destruct (pl_address _ own _ _ _ Hin) as (base & Hbase & Ha & Hceil).
  unfold write_osmp. rewrite Hbase. intros co [Hc Hs Hk]. unfold update, mbind, fmi_bind. unfold invoke2_, invoke2, mbind, fmi_bind.
  destruct (b2_answer _ _ _ _) as [a|]; [|done]. destruct (passes (a2_status a)); [|done]. cbn [mret fmi_ret].
  split; cbn [c2_log c2_memory log2 store2].
  - intros b' p' Hb' Hw. pose proof Hw as (c' & f' & Hin' & Hn').
    destruct (decide (ob_refs b' = ob_refs b)) as [Hr|Hr].
    + pose proof (pl_one _ own _ _ _ _ _ _ Hin' Hin Hr) as [= -> -> ->]. rewrite Hp in Hn'. injection Hn' as <-.
      exists base. split; [done|]. split; [|apply seen_memmove]. rewrite shown_snoc. unfold shows. cbn [e2_call].
      unfold halves. cbn [fmap list_fmap app]. rewrite decide_True by done. rewrite address_of_halves by lia.
      unfold OSMP_SIZE_CEILING, zlen in *. by rewrite c_int_small by lia.
    + destruct (Hc b' p') as (ad & Had & Hsh & Hse); [by apply not_elem_of_cons|done|]. exists ad. split; [done|]. split.
      * rewrite shown_snoc. unfold shows. cbn [e2_call]. unfold halves. cbn [fmap list_fmap app]. by rewrite decide_False by done.
      * rewrite memmove_apart; [done|]. pose proof (pl_apart _ own _ _ _ _ _ _ _ _ Hin Hin' (not_eq_sym Hr) Hbase Had).
        assert (zlen p' ≤ Z.max 0 (bf_capacity f')) as Hcap'.
        { unfold newest in Hn'. apply bind_Some in Hn' as (m & _ & Hm). destruct (outgoing_payload f' m.2) eqn:Ho; [|done].
          injection Hm as <-. by eapply payload_capacity. }
        destruct (pl_address _ own _ _ _ Hin') as (_ & _ & _ & ?). unfold zlen in *. lia.
  - apply stepped_snoc; [done|]. done.
  - unfold steps_of2. rewrite omap_app, length_app. fold (steps_of2 (c2_log co)). cbn. lia.
Qed.

Definition refs_of (g : group2) : list (list Z) :=
  match g with Osmp2 l => (λ bf, ob_refs bf.1) <$> l | Scalars2 _ => [] end.

Lemma elem_bound c gs b f l : (c, gs) ∈ inputs → Osmp2 l ∈ gs → (b, f) ∈ l → (c, (b, f)) ∈ bound.
Proof.
  intros Hc Hg Hl. apply list_elem_of_bind. exists (c, gs). split; [|done]. unfold osmp_of. apply list_elem_of_bind. exists (Osmp2 l).
  split; [|done]. apply list_elem_of_fmap. by exists (b, f).
Qed.

Lemma write_osmps_pointed c gs l l' todo ms k fields :
  (c, gs) ∈ inputs → Osmp2 l ∈ gs → l' ⊆ l → (∀ f p, outgoing_payload f fields = Ok p → newest ms c f = Some p) →
  triple (pointed (((λ bf, ob_refs bf.1) <$> l') ++ todo) ms k) (write_osmps l' fields) (λ _, pointed todo ms k) nothing_raised.
Proof using own.
  intros Hc Hg Hsub Hnew. unfold write_osmps. induction l' as [|[b f] l' IH]; [by intros co|]. cbn [each fmap list_fmap app].
  eapply triple_bind with (Q := λ _, pointed (((λ bf, ob_refs bf.1) <$> l') ++ todo) ms k); [|intros _; apply IH; set_solver].
  cbn [fst snd]. intros co Hco. unfold lift2, lift, mbind, fmi_bind. destruct (outgoing_payload f fields) as [p|e] eqn:Hp; [|done].
  eapply (write_osmp_pointed _ ms k c b f p); [|by apply Hnew|by eapply payload_capacity|done].
  eapply elem_bound; [done..|]. apply Hsub. left.
Qed.

Lemma write_groups_pointed c gs gs' ms k fields :
  (c, gs) ∈ inputs → gs' ⊆ gs → (∀ f p, outgoing_payload f fields = Ok p → newest ms c f = Some p) →
  triple (pointed (gs' ≫= refs_of) ms k) (each (write_group2 fields) gs') (λ _, pointed [] ms k) nothing_raised.
Proof using own.
  intros Hc Hsub Hnew. induction gs' as [|g gs' IH]; [by intros co|]. cbn [each].
  eapply triple_bind with (Q := λ _, pointed (gs' ≫= refs_of) ms k); [|intros _; apply IH; set_solver].
  assert (g ∈ gs) as Hg by (apply Hsub; left). destruct g as [g|l]; cbn [write_group2].
  - change (Scalars2 g :: gs' ≫= refs_of) with (gs' ≫= refs_of). apply preserves_write_scalars; [done|]. intros n vs. apply set_quiet.
    intros c' b f Hin. by eapply (pl_scalars _ own).
  - change ((Osmp2 l :: gs') ≫= refs_of) with (((λ bf, ob_refs bf.1) <$> l) ++ (gs' ≫= refs_of)).
    by eapply write_osmps_pointed.
Qed.

(** The participant, between Steps or among the Messages of one. *)
Definition spointed (ms : list message) (k : nat) (x : single2) : Prop :=
  ∃ co, s2_fmu x = Some co ∧ s2_inputs x = inputs ∧ pointed [] ms k co.

Lemma on_fmu2_pointed {A} (prog : fmi2 cosim2 A) todo ms ms' k k' x co :
  s2_fmu x = Some co → s2_inputs x = inputs → pointed todo ms k co →
  triple (pointed todo ms k) prog (λ _, pointed [] ms' k') nothing_raised →
  match on_fmu2 prog x with (x', Ok _) => spointed ms' k' x' | (_, Err _) => True end.
Proof.
  intros Hx Hi Hco Hp. specialize (Hp co Hco). unfold on_fmu2. rewrite Hx. destruct (prog co) as [co' [a|e]]; [|done]. by exists co'.
Qed.

Lemma newest_snoc ms m c f :
  newest (ms ++ [m]) c f = if decide (m.1 = c) then match outgoing_payload f m.2 with Ok p => Some p | Err _ => None end else newest ms c f.
Proof.
  unfold newest. rewrite filter_app, filter_cons, filter_nil. destruct (decide (m.1 = c)); [by rewrite last_snoc|by rewrite app_nil_r].
Qed.

Lemma write_input2_pointed ms k m :
  triple (spointed ms k) (write_input2 m) (λ _, spointed (ms ++ [m]) k) (λ _, True).
Proof using own.
  intros x (co & Hx & Hi & Hco). unfold write_input2, gets, mbind, fmi_bind. rewrite Hi.
  destruct (dget inputs m.1) as [gs|] eqn:Hgs; [|done]. apply dget_Some in Hgs as Hin.
  eapply (on_fmu2_pointed _ (gs ≫= refs_of) (ms ++ [m]) (ms ++ [m])); [done|done| |].
  - destruct Hco as [Hc Hs Hk]. split; [|done|done]. intros b p Hb (c & f & Hbound & Hn). apply Hc; [by apply not_elem_of_nil|].
    exists c, f. split; [done|]. rewrite newest_snoc in Hn. case_decide as Hm; [|done]. exfalso. apply Hb.
    apply list_elem_of_bind in Hbound as ([c' gs'] & Hof & Hin'). unfold osmp_of in Hof. cbn [fst snd] in Hof.
    apply list_elem_of_bind in Hof as (g & Hof & Hg). destruct g as [|l]; [by apply elem_of_nil in Hof|].
    apply list_elem_of_fmap in Hof as ([b' f'] & [= -> -> ->] & Hl). apply (dget_elem _ _ _ (pl_channels _ own)) in Hin'.
    rewrite <- Hm, Hgs in Hin'. injection Hin' as <-. apply list_elem_of_bind. exists (Osmp2 l). split; [|done].
    apply list_elem_of_fmap. by exists (b', f').
  - eapply write_groups_pointed; [done|done|]. intros f p Hp. rewrite newest_snoc, decide_True by done. by rewrite Hp.
Qed.

Lemma write_inputs_pointed ms k l :
  triple (spointed ms k) (each write_input2 l) (λ _, spointed (ms ++ l) k) (λ _, True).
Proof using own.
  revert ms. induction l as [|m l IH]; intros ms; cbn [each]; [intros x Hx; by rewrite app_nil_r|].
  replace (ms ++ m :: l) with ((ms ++ [m]) ++ l) by (by rewrite <- app_assoc).
  eapply triple_bind; [apply write_input2_pointed|]. intros []. apply IH.
Qed.

Lemma do_step_pointed k t dt :
  triple (pointed [] (concat (take (S k) all)) k) (do_step2 t dt) (λ _, pointed [] (concat (take (S k) all)) (S k)) nothing_raised.
Proof.
  intros co [Hc Hs Hk]. unfold do_step2, invoke2_, invoke2, mbind, fmi_bind. destruct (b2_answer _ _ _ _) as [a|]; [|done].
  destruct (passes (a2_status a)); [|done]. cbn [mret fmi_ret]. split; cbn [c2_log c2_memory log2].
  - intros b p Hb Hw. destruct (Hc b p Hb Hw) as (ad & Ha & Hsh & Hse). exists ad. split; [done|]. split; [|done]. by rewrite shown_snoc.
  - apply stepped_snoc; [done|]. intros _ b p Hw. rewrite Hk in Hw. apply Hc; [by apply not_elem_of_nil|done].
  - unfold steps_of2. rewrite omap_app, length_app. fold (steps_of2 (c2_log co)). cbn. lia.
Qed.

Lemma read_output2_pointed ms k o :
  triple (spointed ms k) (read_output2 o) (λ _, spointed ms k) (λ _, True).
Proof.
  unfold read_output2. eapply triple_bind with (Q := λ _, spointed ms k); [|by intros fs x Hx].
  intros x (co & Hx & Hi & Hco). pose proof (on_fmu2_pointed (read_binding2 o.2 []) [] ms ms k k x co Hx Hi Hco) as H.
  assert (triple (pointed [] ms k) (read_binding2 o.2 []) (λ _, pointed [] ms k) nothing_raised) as Hr.
  { apply preserves_read_binding; [done|]. intros. apply get_quiet. }
  specialize (H Hr). destruct (on_fmu2 _ x) as [x' [fs|e]]; done.
Qed.

Lemma on_step2_pointed k t dt l :
  all !! k = Some l →
  triple (spointed (concat (take k all)) k) (on_step2 t dt l) (λ _, spointed (concat (take (S k) all)) (S k)) (λ _, True).
Proof using own.
  intros Hl. unfold on_step2. eapply triple_bind; [apply write_inputs_pointed|]. intros [].
  assert (concat (take k all) ++ l = concat (take (S k) all)) as ->.
  { rewrite (take_S_r _ _ _ Hl), concat_app. cbn. by rewrite app_nil_r. }
  eapply triple_bind with (Q := λ _, spointed (concat (take (S k) all)) (S k)).
  { intros x (co & Hx & Hi & Hco). pose proof (on_fmu2_pointed (do_step2 t dt) _ _ _ _ _ x co Hx Hi Hco (do_step_pointed k t dt)) as H.
    by destruct (on_fmu2 _ x) as [x' [a|e]]. }
  intros _. eapply triple_bind; [apply (triple_gets s2_outputs)|]. intros outputs.
  eapply triple_conseq; [apply (triple_gather _ outputs (spointed (concat (take (S k) all)) (S k)) (λ _, True))|by intros x [? _]|by intros a x [? _]|done].
  intros o. eapply triple_conseq; [apply read_output2_pointed|done| |done]. intros ys x Hx. split; [done|]. by apply Forall_forall.
Qed.

Lemma play2_pointed k steps :
  steps.*2 = drop k all → (k ≤ length all)%nat →
  triple (spointed (concat (take k all)) k) (play2 steps) (λ _, spointed (concat all) (length all)) (λ _, True).
Proof using own.
  revert k. induction steps as [|[[t dt] l] steps IH]; intros k Hs Hk; cbn [play2].
  - intros x Hx. cbn in Hs. assert (k = length all) as ->.
    { symmetry in Hs. apply (f_equal length) in Hs. rewrite length_drop in Hs. cbn in Hs. lia. }
    by rewrite take_ge in Hx.
  - cbn in Hs. assert (all !! k = Some l) as Hl.
    { rewrite <- (Nat.add_0_r k), <- lookup_drop, <- Hs. done. }
    eapply triple_bind; [by apply on_step2_pointed|]. intros out. eapply triple_bind with (Q := λ _, spointed (concat all) (length all)); [|by intros rest x Hx].
    apply IH; [|by apply lookup_lt_Some in Hl]. rewrite (drop_S _ _ _ Hl) in Hs. by injection Hs.
Qed.

(** Before the first Message there is nothing to point to. *)
Lemma init_call c : is_do_step c = false → preserves (pointed [] [] 0) nothing_raised (invoke2_ c).
Proof. intros Hd. apply preserves_bind; [by apply quiet_call|]. intros a. apply preserves_ret. Qed.

Lemma on_init2_pointed b m starts x :
  s2_inputs x = inputs → triple (λ y, y = x) (on_init2 (Some b) m starts) (λ _, spointed [] 0) (λ _, True).
Proof.
  intros Hi. unfold on_init2. eapply triple_bind with (Q := λ _, spointed [] 0).
  { apply triple_update. intros y ->. eexists. split; [reflexivity|]. split; [done|]. split; [|by intros [] ? ?|done].
    intros b' p _ (c & f & _ & Hn). done. }
  assert (∀ prog : fmi2 cosim2 (), preserves (pointed [] [] 0) nothing_raised prog → triple (spointed [] 0) (on_fmu2 prog) (λ _, spointed [] 0) (λ _, True)) as Hon.
  { intros prog Hp y (co & Hy & Hiy & Hco). pose proof (on_fmu2_pointed prog [] [] [] 0 0 y co Hy Hiy Hco Hp) as H. by destruct (on_fmu2 prog y) as [y' [a|e]]. }
  intros []. eapply triple_bind; [apply Hon|intros []; apply Hon].
  - apply preserves_each. intros s. unfold write_start2. destruct (st_data s) as [kind vs|]; [|by apply preserves_throw].
    destruct (dget ACCESSORS kind); [by apply reraise2_triple, init_call|by apply preserves_throw].
  - unfold initialize2. do 2 (apply preserves_bind; [by apply init_call|intros _]). by apply init_call.
Qed.
End delivered.

(** C25. In every Step an FMI 2.0 FMU finds the newest Message of each OSMP input:
    when [fmi2DoStep] is called, the address and the size last written for the
    variable lead to the bytes of the payload in the memory of the importer, which
    no other write has disturbed, also in Steps that bring no new Message. *)
Theorem osmp_delivered b m starts steps x x2 outs before e after c buffer f p :
  placed (s2_inputs x) →
  (on_init2 (Some b) m starts ≫= λ _, play2 steps) x = (x2, Ok outs) →
  log_of2 x2 = before ++ e :: after → is_do_step (e2_call e) = true →
  (c, (buffer, f)) ∈ (s2_inputs x ≫= osmp_of) →
  newest (concat (take (S (length (steps_of2 before))) steps.*2)) c f = Some p →
  ∃ address, shown (ob_refs buffer) before = Some (address, zlen p) ∧ seen (e2_memory e) address (length p) = p.
Proof.
  intros Hown Hr Hlog He Hin Hn.
  assert (triple (λ y, y = x) (on_init2 (Some b) m starts ≫= λ _, play2 steps)
    (λ _, spointed (s2_inputs x) steps.*2 (concat steps.*2) (length steps.*2)) (λ _, True)) as Ht.
  { eapply triple_bind; [by apply (on_init2_pointed (s2_inputs x) steps.*2)|]. intros []. eapply (play2_pointed _ steps.*2 Hown 0); [done|lia]. }
  specialize (Ht x eq_refl). rewrite Hr in Ht. destruct Ht as (co & Hx & _ & [_ Hs _]).
  unfold log_of2 in Hlog. rewrite Hx in Hlog. destruct (Hs before e after Hlog He buffer p) as (a & _ & H1 & H2); [by exists c, f|].
  by exists a.
Qed.

(** ** The witness: an FMU with an OSMP input, over two Steps and one Message *)

Definition demo_binary2 : binary2 := mk_binary2 (λ _ _ _, Some (mk_answer2 0 [PInt 0; PInt 0; PInt 0])) (λ _ _ n, replicate (Z.to_nat n) x00).
Definition demo_buffer2 : osmp_buffer := open_buffer (λ _, 140737488355328) true (mk_osmp 1 2 3) 8.
Definition demo_field2 : binary_field := mk_binary_field "sensor" "sensor_length" 8 "".
Definition demo_single2 : single2 :=
  mk_single2 None [("osi"%string, [Osmp2 [(demo_buffer2, demo_field2)]])]
    [("state"%string, [Scalars2 (mk_scalar_group "Float64" [7] [("x"%string, None)])])].
Definition demo_message2 : message := ("osi"%string, [("sensor", VBytes [x0a; x0b; x00; x00; x00; x00; x00; x00]); ("sensor_length", VNum (PInt 2))]%string).
Definition demo_steps2 : list (Z * Z * list message) := [(0, 10, [demo_message2]); (10, 10, [])].
Definition demo_run2 := (on_init2 (Some demo_binary2) (λ _, x00) [] ≫= λ _, play2 demo_steps2) demo_single2.
Definition demo_outs2 : list (list message) := match demo_run2.2 with Ok outs => outs | Err _ => [] end.

Lemma demo_standard2 : standard demo_binary2.
Proof. by intros log c m; eexists. Qed.
Lemma demo_placed2 : placed (s2_inputs demo_single2).
Proof.
  assert (∀ c b f, (c, (b, f)) ∈ (s2_inputs demo_single2 ≫= osmp_of) → (c, (b, f)) = ("osi"%string, (demo_buffer2, demo_field2))) as H.
  { intros c b f Hin. by apply list_elem_of_singleton in Hin. }
  split.
  - repeat constructor. by intros ?%elem_of_nil.
  - intros c b f [= -> -> ->]%H. exists 140737488355328. split; [done|]. vm_compute. split; split; congruence.
  - by intros c b f c' b' f' [= -> -> ->]%H [= -> -> ->]%H.
  - by intros c b f c' b' f' a a' [= -> -> ->]%H [= -> -> ->]%H.
  - intros c gs g c' b f [= -> ->]%list_elem_of_singleton Hg%list_elem_of_singleton. done.
Qed.

(** An FMU that answers [fmi2Pending] to its second step. *)
Definition pending_binary2 : binary2 := mk_binary2
  (λ _ c _, Some (mk_answer2 (if decide (c = DoStep2 10 10) then PENDING2 else OK2) [PInt 0; PInt 0; PInt 0]))
  (λ _ _ n, replicate (Z.to_nat n) x00).
Definition pending_run2 := (on_init2 (Some pending_binary2) (λ _, x00) [] ≫= λ _, play2 demo_steps2) demo_single2.
Lemma pending_standard2 : standard pending_binary2.
Proof. by intros log c m; eexists. Qed.
Lemma pending_run2_failed : pending_run2 = (pending_run2.1, Err (N2Status (DoStep2 10 10) PENDING2)).
Proof. rewrite (surjective_pairing pending_run2) at 1. f_equal. Qed.
Lemma demo_run2_ok : demo_run2 = (demo_run2.1, Ok demo_outs2).
Proof.
  assert (demo_run2.2 = Ok demo_outs2) as H by (vm_compute; reflexivity). rewrite <- H. apply surjective_pairing.
Qed.

Lemma fmi2_conforms_witness :
  (is_Some (observe2 (log_of2 (close_single2 demo_run2.1).1)) ∧ steps_of2 (log_of2 (close_single2 demo_run2.1).1) = [(0, 10); (10, 10)])
  ∧ observe2 (log_of2 (close_single2 pending_run2.1).1) = None ∧ abandoned (log_of2 (close_single2 pending_run2.1).1).
Proof.
  split; [|split].
  - exact (fmi2_conforms demo_binary2 (λ _, x00) [] demo_steps2 demo_single2 demo_run2.1 (Ok demo_outs2) (close_single2 demo_run2.1).1
      (close_single2 demo_run2.1).2 demo_standard2 (Forall_nil_2 _) demo_run2_ok (surjective_pairing _)).
  - vm_compute. reflexivity.
  - pose proof (fmi2_conforms pending_binary2 (λ _, x00) [] demo_steps2 demo_single2 pending_run2.1 (Err (N2Status (DoStep2 10 10) PENDING2))
      (close_single2 pending_run2.1).1 (close_single2 pending_run2.1).2 pending_standard2 (Forall_nil_2 _) pending_run2_failed (surjective_pairing _)) as [[s H]|H]; [|exact H].
    exfalso. vm_compute in H. discriminate H.
Defined.

(** The second Step brings no Message, and the first is still there. *)
Definition demo_log2 : list entry2 := log_of2 demo_run2.1.
Definition demo_entry2 : entry2 := default (mk_entry2 SetupExperiment (λ _, x00) (mk_answer2 0 [])) (demo_log2 !! 6%nat).
Lemma demo_log2_middle : demo_log2 = take 6 demo_log2 ++ demo_entry2 :: drop 7 demo_log2.
Proof.
  symmetry. apply take_drop_middle. unfold demo_entry2. assert (6 < length demo_log2)%nat as H by (vm_compute; lia).
  by destruct (lookup_lt_is_Some_2 demo_log2 6 H) as [e ->].
Qed.

Lemma osmp_delivered_witness :
  e2_call demo_entry2 = DoStep2 10 10
  ∧ ∃ address, shown [1; 2; 3] (take 6 demo_log2) = Some (address, 2) ∧ seen (e2_memory demo_entry2) address 2 = [x0a; x0b].
Proof.
  split; [vm_compute; reflexivity|].
  exact (osmp_delivered demo_binary2 (λ _, x00) [] demo_steps2 demo_single2 demo_run2.1 demo_outs2 (take 6 demo_log2) demo_entry2 (drop 7 demo_log2)
    "osi" demo_buffer2 demo_field2 [x0a; x0b] demo_placed2 demo_run2_ok demo_log2_middle ltac:(vm_compute; reflexivity)
    (list_elem_of_here _ _) ltac:(vm_compute; reflexivity)).
Defined.
