(* ===== verification/FmuCompose.v ===== *)
(** * Composing a group of FMUs

    Models [fmi/composition.py] and the initialization of [fmi/group.py]: the
    arguments [--instance], [--connect], [--bind] and [--start] are resolved
    against the documents of the FMUs into the instances and transceivers that
    FmuGroup.v drives ([compose]).

    FmuComposeProofs.v proves that what is accepted is wired as the group relies
    on, and driven as the contract of FmuGroupProofs.v says. Unpacking an archive is
    a parameter. *)

From Stdlib Require Import ZArith Lia Ascii.
From S2P Require Import Prelude PyFloat Json SchemaTypes Schema Pointer Manifest CsvText Csv FmuRuntime FmuGroup FmuGroupProofs FmuGroupRun FmuSingle FmuDescription FmuMapping.
Open Scope Z_scope.

(** ** Instances *)

(** [instance_paths]. *)
Definition add_instance (paths : list (string * string)) (declaration : string * string) : doc (list (string * string)) :=
  let '(name, path) := declaration in
  raise: EInstanceEmpty name path if: String.eqb name "" || String.eqb path "";;
  raise: EInstanceDot name if: contains "." name;;
  raise: EInstanceTwice name if: dmem paths name;;
  Ok (dset paths name path).
Definition instance_paths (declared : list (string * string)) : doc (list (string * string)) :=
  foldE add_instance [] declared.

(** An [Instance]: its description and what the group drives. *)
Record member := mk_member { mb_description : model_description; mb_instance : instance }.

(** [Instance.__init__]. *)
Definition bus_simulation (d : model_description) : bool :=
  match md_bus d with Some b => bp_simulation b | None => false end.
Definition new_member (name : string) (d : model_description) : member :=
  mk_member d (mk_instance name (bus_simulation d) None [] [] false false None).

(** [Transceivers]: those built, by instance and terminal, in the order they were
    built, and the member each variable is. A transceiver is its position. *)
Record composing := mk_composing {
  cp_members : list (string * member);
  cp_built : list ((string * string) * (transceiver * terminal));
  cp_by_variable : list ((string * string) * (nat * string));
}.

(** The position of a key. *)
Fixpoint dindex {V} (d : list (string * V)) (k : string) : option nat :=
  match d with
  | [] => None
  | (k', _) :: d => if decide (k = k') then Some 0%nat else S <$> dindex d k
  end.
Fixpoint pindex {V} (d : list ((string * string) * V)) (k : string * string) : option nat :=
  match d with
  | [] => None
  | (k', _) :: d => if decide (k = k') then Some 0%nat else S <$> pindex d k
  end.

(** [_instance_of]: the instance that is named, and the rest of the text. *)
Definition instance_of (members : list (string * member)) (text : string) : doc (string * string) :=
  let '(name, rest) := partition "." text in
  match rest with
  | None | Some ""%string => Err (EUnqualified text)
  | Some rest => if dmem members name then Ok (name, rest) else Err (ENoInstance name)
  end.

Definition member_of (members : list (string * member)) (name : string) : doc (nat * member) :=
  match dindex members name, dget members name with
  | Some i, Some mb => Ok (i, mb)
  | _, _ => Err (EKey name)
  end.

(** ** Terminals *)

(** [_member_variable]. *)
Definition member_variable (name : string) (d : model_description) (te : terminal) (role : string) : doc fvariable :=
  match dget (te_members te) role with
  | None => Err (EKey role)
  | Some v => match dget (md_variables d) v with
              | Some v => Ok v
              | None => Err (EMember name (te_name te) role)
              end
  end.

(** [_member_pair]. *)
Definition member_pair (name : string) (d : model_description) (te : terminal) (data clock causality : string)
    : doc (fvariable * fvariable) :=
  v ← member_variable name d te data;
  gate ← member_variable name d te clock;
  let problem := EMember name (te_name te) data in
  raise: problem if: negb (String.eqb (fv_kind v) BINARY);;
  raise: problem if: negb (bool_decide (fv_value_count v = Some 1));;
  raise: problem if: bool_decide (fv_max_size v = None);;
  raise: problem if: negb (String.eqb (fv_causality v) causality);;
  raise: EMember name (te_name te) clock if: negb (String.eqb (fv_kind gate) CLOCK);;
  raise: problem if: negb (bool_decide (Some <$> fv_clocks v = [fv_reference gate]));;
  Ok (v, gate).

(** [_require_transceiver_terminal]. *)
Definition require_transceiver_terminal (name : string) (d : model_description) (te : terminal) (profile : string) : doc () :=
  let problem := ETerminal name (te_name te) in
  raise: problem if: bool_decide (md_bus d = None);;
  raise: problem if: negb (String.eqb (te_kind te) NETWORK_TERMINAL);;
  raise: problem if: negb (String.eqb (te_rule te) TRANSCEIVER);;
  raise: problem if: negb (has_event_mode d);;
  _ ← foldE (λ _ role, raise_if (negb (dmem (te_members te) role)) (EMember name (te_name te) role)) () TRANSCEIVER_MEMBERS;
  foldE (λ _ role, v ← member_variable name d te role;
                   raise_if (negb (bool_decide (media_type v = Some profile))) (EMember name (te_name te) role))
    () [RX_DATA; TX_DATA].

Definition add_triggered (n : nat) (b : clocked) (x : instance) : instance :=
  mk_instance (in_name x) (in_bus x) (in_fmu x) (in_triggered x ++ [(n, b)]) (in_countdown x)
    (in_in_event x) (in_event_pending x) (in_next_event_time x).
Definition add_countdown (n : nat) (b : countdown) (x : instance) : instance :=
  mk_instance (in_name x) (in_bus x) (in_fmu x) (in_triggered x) (in_countdown x ++ [(n, b)])
    (in_in_event x) (in_event_pending x) (in_next_event_time x).

Section composition.
Context (allocates : Z → bool).

(** [build_transceiver] of the instance [i], as the transceiver [n]. *)
Definition build_transceiver (name : string) (i n : nat) (mb : member) (te : terminal) (profile : string)
    : doc (transceiver * member) :=
  let d := mb_description mb in
  _ ← require_transceiver_terminal name d te profile;
  '(receive, receive_clock) ← member_pair name d te RX_DATA RX_CLOCK "input";
  raise: EMember name (te_name te) RX_CLOCK
    if: negb (String.eqb (fv_causality receive_clock) "input" && bool_decide (fv_interval receive_clock = Some TRIGGERED));;
  '(send, send_clock) ← member_pair name d te TX_DATA TX_CLOCK "output";
  let capacity := default 0 (fv_max_size receive) in
  _ ← allocate allocates capacity;
  let built := mk_transceiver i (mk_clocked (reference_of receive) (reference_of receive_clock)) capacity None None None in
  if String.eqb (fv_causality send_clock) "output" && bool_decide (fv_interval send_clock = Some TRIGGERED) then
    Ok (built, mk_member d (add_triggered n (mk_clocked (reference_of send) (reference_of send_clock)) (mb_instance mb)))
  else if String.eqb (fv_causality send_clock) "input" && bool_decide (fv_interval send_clock = Some COUNTDOWN) then
    Ok (built, mk_member d (add_countdown n (mk_countdown (reference_of send) (reference_of send_clock) None None) (mb_instance mb)))
  else Err (EMember name (te_name te) TX_CLOCK).

(** [Transceivers.named]. *)
Definition named (profile text : string) (st : composing) : doc (composing * nat) :=
  '(name, te_key) ← instance_of (cp_members st) text;
  match pindex (cp_built st) (name, te_key) with
  | Some n => Ok (st, n)
  | None =>
      '(i, mb) ← member_of (cp_members st) name;
      match dget (md_terminals (mb_description mb)) te_key with
      | None => Err (ETerminal name te_key)
      | Some te =>
          let n := length (cp_built st) in
          '(tr, mb') ← build_transceiver name i n mb te profile;
          Ok (mk_composing (dset (cp_members st) name mb')
                (dset (cp_built st) (name, te_key) (tr, te))
                (foldl (λ d role, dset d (name, default ""%string (dget (te_members te) role)) (n, role))
                   (cp_by_variable st) [RX_DATA; TX_DATA]), n)
      end
  end.

(** The first terminal one of whose data members is the variable. *)
Fixpoint terminal_carrying (terminals : list (string * terminal)) (variable : string) : option terminal :=
  match terminals with
  | [] => None
  | (_, te) :: terminals =>
      if bool_decide (dget (te_members te) RX_DATA = Some variable) || bool_decide (dget (te_members te) TX_DATA = Some variable)
      then Some te else terminal_carrying terminals variable
  end.

(** [Transceivers.carrying]. *)
Definition carrying (profile text : string) (st : composing) : doc (composing * (nat * string)) :=
  '(name, variable) ← instance_of (cp_members st) text;
  '(_, mb) ← member_of (cp_members st) name;
  raise: EUndeclared name variable if: negb (dmem (md_variables (mb_description mb)) variable);;
  match terminal_carrying (md_terminals (mb_description mb)) variable with
  | None => Err (EUndeclared name variable)
  | Some te =>
      '(st, _) ← named profile (name ++ "." ++ te_name te)%string st;
      match dget (cp_by_variable st) (name, variable) with
      | Some (n, role) => Ok (st, (n, role))
      | None => Err (EKey variable)
      end
  end.

(** [Transceivers.require_every_instance_used]. *)
Definition require_every_instance_used (st : composing) : doc () :=
  foldE (λ _ name, raise_if (negb (bool_decide (name ∈ (cp_built st).*1.*1))) (EUnusedInstance name)) () (cp_members st).*1.

(** ** Connections *)

(** What the transceiver [n] is: itself, its terminal and its instance. *)
Definition end_of (st : composing) (n : nat) : doc (string * transceiver * terminal * model_description) :=
  match cp_built st !! n with
  | Some ((name, _), (tr, te)) =>
      match dget (cp_members st) name with
      | Some mb => Ok (name, tr, te, mb_description mb)
      | None => Err (EKey name)
      end
  | None => Err (EKey "")
  end.

(** [_require_compatible]. *)
Definition bus_of (d : model_description) : doc bus_profile :=
  match md_bus d with Some b => Ok b | None => Err (EKey "bus") end.
Definition stated_version (declaration : string) (b : bus_profile) : doc string :=
  match bp_version b with
  | None | Some ""%string => Err (EBusVersion declaration "")
  | Some v => Ok v
  end.
Definition require_compatible (declaration : string) (lhs rhs : string * transceiver * terminal * model_description) : doc () :=
  let '(lname, _, lte, ld) := lhs in
  let '(rname, _, rte, rd) := rhs in
  lb ← bus_of ld;
  rb ← bus_of rd;
  raise: EBuses declaration if: Bool.eqb (bp_simulation lb) (bp_simulation rb);;
  lv ← stated_version declaration lb;
  rv ← stated_version declaration rb;
  raise: EBusVersion lv rv if: negb (String.eqb lv rv);;
  sent ← member_variable lname ld lte TX_DATA;
  taken ← member_variable rname rd rte RX_DATA;
  raise: EMimeTypes declaration if: negb (bool_decide (fv_mime sent = fv_mime taken));;
  sent ← member_variable rname rd rte TX_DATA;
  taken ← member_variable lname ld lte RX_DATA;
  raise_if (negb (bool_decide (fv_mime sent = fv_mime taken))) (EMimeTypes declaration).

Definition set_peer (p : nat) (tr : transceiver) : transceiver :=
  mk_transceiver (tr_instance tr) (tr_receive tr) (tr_capacity tr) (Some p) (tr_observation tr) (tr_injection tr).
Definition set_observation (o : string * binary_field) (tr : transceiver) : transceiver :=
  mk_transceiver (tr_instance tr) (tr_receive tr) (tr_capacity tr) (tr_peer tr) (Some o) (tr_injection tr).
Definition set_injection (o : string * binary_field) (tr : transceiver) : transceiver :=
  mk_transceiver (tr_instance tr) (tr_receive tr) (tr_capacity tr) (tr_peer tr) (tr_observation tr) (Some o).

Definition on_built (n : nat) (f : transceiver → transceiver) (st : composing) : composing :=
  mk_composing (cp_members st) (alter (λ b, (b.1, (f b.2.1, b.2.2))) n (cp_built st)) (cp_by_variable st).

(** [connect]. *)
Definition connect_one (profile : string) (st : composing) (declaration : string) : doc composing :=
  let '(lhs, rhs) := partition "=" declaration in
  match rhs with
  | None => Err (EConnection declaration)
  | Some rhs =>
      raise: EConnection declaration if: String.eqb lhs "" || String.eqb rhs "";;
      '(st, n) ← named profile lhs st;
      '(st, m) ← named profile rhs st;
      raise: EConnected declaration lhs if: Nat.eqb n m;;
      l ← end_of st n;
      r ← end_of st m;
      let '(_, ltr, _, _) := l in
      let '(_, rtr, _, _) := r in
      raise: EConnected declaration lhs if: bool_decide (is_Some (tr_peer ltr));;
      raise: EConnected declaration rhs if: bool_decide (is_Some (tr_peer rtr));;
      _ ← require_compatible declaration l r;
      Ok (on_built m (set_peer n) (on_built n (set_peer m) st))
  end.
Definition connect (profile : string) (declarations : list string) (st : composing) : doc composing :=
  foldE (connect_one profile) st declarations.

(** ** Channels *)

(** [_bind_group_channel]. *)
Definition bind_group_channel (profile channel : string) (dir : direction) (fs : fields) (bound : list (string * string))
    (st : composing) : doc composing :=
  match bound with
  | [(field, text)] =>
      let role := match dir with DOut => TX_DATA | DIn => RX_DATA end in
      '(st, (n, side)) ← carrying profile text st;
      raise: EGroupChannel channel if: negb (String.eqb side role);;
      '(name, tr, te, d) ← end_of st n;
      v ← member_variable name d te role;
      b ← clocked_fields channel field (causality_of dir) v fs;
      match dir with
      | DOut =>
          raise: EGroupChannel channel if: bool_decide (is_Some (tr_observation tr));;
          Ok (on_built n (set_observation (channel, b)) st)
      | DIn =>
          raise: EGroupChannel channel if: bool_decide (is_Some (tr_injection tr));;
          raise: EGroupChannel channel if: bool_decide (is_Some (tr_peer tr));;
          Ok (on_built n (set_injection (channel, b)) st)
      end
  | _ => Err (EGroupChannel channel)
  end.

(** [bind_group_channels]. *)
Definition bind_group_channels (profile : string) (arguments : list string) (init : init_line) (st : composing) : doc composing :=
  by_channel ← channel_fields init;
  bound ← bound_fields arguments by_channel;
  foldE (λ st cb, match dget (il_channels init) cb.1 with
                  | Some (dir, _) => bind_group_channel profile cb.1 dir (fields_of by_channel cb.1) cb.2 st
                  | None => Err (EKey cb.1)
                  end) st bound.

(** ** Start values and the whole group *)

(** [group_start_values]. *)
Definition add_start (members : list (string * member)) (values : list (string * list start)) (argument : string)
    : doc (list (string * list start)) :=
  let '(target, text) := partition "=" argument in
  match text with
  | None => Err (EStartSyntax argument)
  | Some text =>
      raise: EStartSyntax argument if: String.eqb target "";;
      '(name, variable) ← instance_of members target;
      '(_, mb) ← member_of members name;
      match dget (md_variables (mb_description mb)) variable with
      | None => Err (EUndeclared name variable)
      | Some v =>
          t ← start_value v text;
          Ok (dset values name (default [] (dget values name) ++ [start_of v t]))
      end
  end.
Definition group_start_values (starts : list string) (members : list (string * member)) : doc (list (string * list start)) :=
  foldE (add_start members) ((λ nm, (nm.1, [])) <$> members) starts.

(** The arguments of a group. *)
Record group_arguments := mk_arguments {
  ga_instances : list (string * string);
  ga_connects : list string;
  ga_binds : list string;
  ga_starts : list string;
  ga_profile : string;
}.

(** [_read]. *)
Definition read_members (unpack : string → doc archive) (args : group_arguments) : doc (list (string * member)) :=
  paths ← instance_paths (ga_instances args);
  raise: ENoInstances if: bool_decide (paths = []);;
  raise: ENoProfile if: String.eqb (ga_profile args) "";;
  mapE (λ np : string * string,
    ar ← unpack np.2;
    d ← read_description ar;
    raise: EFmi2 np.1 if: String.eqb (md_version d) FMI2;;
    Ok (np.1, new_member np.1 d)) paths.

(** [on_init], up to the first FMU that is loaded: the instances and transceivers
    of the group, and the start values of each instance. *)
Definition compose (unpack : string → doc archive) (args : group_arguments) (init : init_line)
    : doc (group_participant * list transceiver * list (list start)) :=
  members ← read_members unpack args;
  st ← connect (ga_profile args) (ga_connects args) (mk_composing members [] []);
  st ← bind_group_channels (ga_profile args) (ga_binds args) init st;
  _ ← require_every_instance_used st;
  starts ← group_start_values (ga_starts args) (cp_members st);
  Ok (mk_group_participant (mb_instance <$> (cp_members st).*2) [] 0, (λ b, b.2.1) <$> cp_built st, starts.*2).
End composition.
