(* ===== verification/FmuComposeProofs.v ===== *)
(** * Accepted groups

    What [compose] of FmuCompose.v accepts: its instances and transceivers are
    wired as FmuGroup.v relies on ([compose_wired]), and a group composed of FMUs
    whose documents tell their Clocks apart is driven as the contract of
    FmuGroupProofs.v says ([composed_conforms]). *)

From Stdlib Require Import ZArith Lia Ascii.
From S2P Require Import Prelude PyFloat Json SchemaTypes Schema Pointer Manifest CsvText Csv FmuRuntime FmuGroup FmuGroupProofs FmuGroupRun FmuSingle FmuDescription FmuMapping FmuCompose.
Open Scope Z_scope.

(** ** Dicts and positions *)

Lemma dindex_Some {V} (d : list (string * V)) k i v :
  dindex d k = Some i → dget d k = Some v → d !! i = Some (k, v).
Proof.
  revert i. induction d as [|[k' v'] d IH]; intros i; cbn; [done|]. case_decide as Hk.
  - intros [= <-] [= <-]. by rewrite Hk.
  - intros (j & Hj & ->)%fmap_Some Hv. cbn. by apply IH.
Qed.

Lemma dset_insert {V} (d : list (string * V)) k i v v' :
  dindex d k = Some i → dget d k = Some v → dset d k v' = <[i := (k, v')]> d.
Proof.
  revert i. induction d as [|[k' w] d IH]; intros i; cbn; [done|]. case_decide as Hk.
  - intros [= <-] _. by rewrite Hk.
  - intros (j & Hj & ->)%fmap_Some Hv. cbn. f_equal. by apply IH.
Qed.

Lemma pindex_None {V} (d : list ((string * string) * V)) k : pindex d k = None → k ∉ d.*1.
Proof.
  induction d as [|[k' v] d IH]; cbn; [set_solver|]. case_decide as Hk; [done|]. intros H%fmap_None. rewrite not_elem_of_cons. auto.
Qed.

Lemma pindex_Some {V} (d : list ((string * string) * V)) k n : pindex d k = Some n → ∃ v, d !! n = Some (k, v).
Proof.
  revert n. induction d as [|[k' v] d IH]; intros n; cbn; [done|]. case_decide as Hk.
  - intros [= <-]. exists v. by rewrite Hk.
  - intros (j & Hj & ->)%fmap_Some. cbn. auto.
Qed.

Lemma member_of_Ok members name i mb :
  member_of members name = Ok (i, mb) → dindex members name = Some i ∧ dget members name = Some mb.
Proof. unfold member_of. destruct (dindex members name), (dget members name); try done. by intros [= <- <-]. Qed.

(** ** The structure of what is built *)

Abbreviation described := (list (string * model_description)).

Definition descriptions (members : list (string * member)) : described := (λ nm, (nm.1, mb_description nm.2)) <$> members.
Definition bus_at (ds : described) (i : nat) : option bool := (λ nd, bus_simulation nd.2) <$> ds !! i.

(** The part of a transceiver that does not change after it is built. *)
Record skeleton := mk_skeleton { sk_key : string * string; sk_instance : nat; sk_receive : clocked; sk_terminal : terminal }.
Definition skeleton_of (b : (string * string) * (transceiver * terminal)) : skeleton :=
  mk_skeleton b.1 (tr_instance b.2.1) (tr_receive b.2.1) b.2.2.

(** A Clock variable of one kind, under its name. *)
Definition clock_named (d : model_description) (k interval : string) (reference : Z) : Prop :=
  ∃ v, dget (md_variables d) k = Some v ∧ fv_kind v = CLOCK ∧ fv_interval v = Some interval ∧ reference = reference_of v.

Definition sends (x : instance) : list nat := (in_triggered x).*1 ++ (in_countdown x).*1.

Record structure (ds : described) (members : list (string * member)) (ks : list skeleton) : Prop := {
  st_descriptions : descriptions members = ds;
  st_keys : NoDup (sk_key <$> ks);
  st_fresh : Forall (λ nm, fresh (mb_instance nm.2) ∧ in_bus (mb_instance nm.2) = bus_simulation (mb_description nm.2)) members;
  st_built : ∀ n k, ks !! n = Some k → ∃ d, ds !! sk_instance k = Some ((sk_key k).1, d)
               ∧ dget (md_terminals d) (sk_key k).2 = Some (sk_terminal k)
               ∧ ∃ c, clock_named d c TRIGGERED (kb_clock (sk_receive k));
  st_sends : ∀ i name mb n, members !! i = Some (name, mb) →
               n ∈ sends (mb_instance mb) ↔ ∃ k, ks !! n = Some k ∧ sk_instance k = i;
  st_once : ∀ i name mb, members !! i = Some (name, mb) → NoDup (sends (mb_instance mb));
  st_countdown : ∀ i name mb n b, members !! i = Some (name, mb) → (n, b) ∈ in_countdown (mb_instance mb) →
               ∃ k c, ks !! n = Some k ∧ dget (te_members (sk_terminal k)) TX_CLOCK = Some c
                      ∧ clock_named (mb_description mb) c COUNTDOWN (nb_clock b);
}.

Lemma structure_lookup ds members ks i name mb :
  structure ds members ks → members !! i = Some (name, mb) → ds !! i = Some (name, mb_description mb).
Proof. intros H Hi. rewrite <- (st_descriptions _ _ _ H). unfold descriptions. by rewrite list_lookup_fmap, Hi. Qed.

Lemma member_variable_Ok name d te role v :
  member_variable name d te role = Ok v → ∃ k, dget (te_members te) role = Some k ∧ dget (md_variables d) k = Some v.
Proof.
  unfold member_variable. destruct (dget (te_members te) role) as [k|]; [|done]. destruct (dget (md_variables d) k) as [w|] eqn:Hv; [|done].
  intros [= <-]. by exists k.
Qed.

Lemma member_pair_Ok name d te data clock causality v gate :
  member_pair name d te data clock causality = Ok (v, gate) →
  ∃ k, dget (te_members te) clock = Some k ∧ dget (md_variables d) k = Some gate ∧ fv_kind gate = CLOCK.
Proof.
  unfold member_pair. intros H. inv_ok. apply negb_false_iff, String.eqb_eq in Hok5.
  apply member_variable_Ok in Hok0 as (k & ? & ?). by exists k.
Qed.

(** What [build_transceiver] adds. *)
Lemma build_transceiver_Ok allocates name i n mb te profile tr mb' :
  build_transceiver allocates name i n mb te profile = Ok (tr, mb') →
  tr_instance tr = i ∧ tr_peer tr = None ∧ tr_observation tr = None ∧ tr_injection tr = None
  ∧ (∃ c, clock_named (mb_description mb) c TRIGGERED (kb_clock (tr_receive tr)))
  ∧ mb_description mb' = mb_description mb
  ∧ ((∃ b, mb_instance mb' = add_triggered n b (mb_instance mb))
     ∨ ∃ data c r, mb_instance mb' = add_countdown n (mk_countdown data r None None) (mb_instance mb)
         ∧ dget (te_members te) TX_CLOCK = Some c ∧ clock_named (mb_description mb) c COUNTDOWN r).
Proof.
  unfold build_transceiver. intros H. inv_ok. destruct a0 as [receive rclock]. inv_ok. destruct a1 as [send sclock]. inv_ok.
  apply negb_false_iff, andb_true_iff in Hok1 as [_ Hint%bool_decide_eq_true].
  apply member_pair_Ok in Hok0 as (k & _ & Hk & Hkind). apply member_pair_Ok in Hok2 as (c & Hc & Hv & Hck).
  destruct (String.eqb (fv_causality sclock) "output" && bool_decide (fv_interval sclock = Some TRIGGERED)) eqn:Ht.
  - inv_ok. cbn. split_and!; try done; [by exists k, rclock|]. left. by eexists.
  - destruct (String.eqb (fv_causality sclock) "input" && bool_decide (fv_interval sclock = Some COUNTDOWN)) eqn:Hd; [|done].
    apply andb_true_iff in Hd as [_ Hd%bool_decide_eq_true]. inv_ok. cbn. split_and!; try done; [by exists k, rclock|].
    right. eexists _, c, _. split; [reflexivity|]. split; [done|]. by exists sclock.
Qed.

Lemma sends_triggered n b x : sends (add_triggered n b x) ≡ₚ n :: sends x.
Proof. unfold sends. cbn. rewrite fmap_app. cbn. by rewrite <- !app_assoc, Permutation_middle. Qed.

Lemma sends_countdown n b x : sends (add_countdown n b x) ≡ₚ n :: sends x.
Proof. unfold sends. cbn. rewrite fmap_app. cbn. by rewrite app_assoc, <- Permutation_cons_append. Qed.

Lemma fresh_triggered n b x : fresh x → fresh (add_triggered n b x).
Proof. intros []. by split. Qed.

Lemma fresh_countdown n data r x : fresh x → fresh (add_countdown n (mk_countdown data r None None) x).
Proof. intros []. split; try done. cbn. apply Forall_app. split; [done|]. by apply Forall_singleton. Qed.

(** One more transceiver, the last of the list. *)
Lemma structure_build allocates ds members ks i name mb te key profile tr mb' :
  structure ds members ks → members !! i = Some (name, mb) → dget (md_terminals (mb_description mb)) key = Some te →
  (name, key) ∉ sk_key <$> ks → build_transceiver allocates name i (length ks) mb te profile = Ok (tr, mb') →
  structure ds (<[i := (name, mb')]> members) (ks ++ [mk_skeleton (name, key) i (tr_receive tr) te]).
Proof.
  intros Hs Hi Hte Hkey Hb. pose proof (structure_lookup _ _ _ _ _ _ Hs Hi) as Hd.
  destruct (build_transceiver_Ok _ _ _ _ _ _ _ _ _ Hb) as (_ & _ & _ & _ & Hrec & Hdesc & Hx).
  assert (sends (mb_instance mb') ≡ₚ length ks :: sends (mb_instance mb)) as Hsend.
  { destruct Hx as [(b & ->)|(data & c & r & -> & _)]; [apply sends_triggered|apply sends_countdown]. }
  assert (∀ j nm, <[i := (name, mb')]> members !! j = Some nm → j = i ∧ nm = (name, mb') ∨ j ≠ i ∧ members !! j = Some nm) as Hlook.
  { intros j nm. destruct (decide (j = i)) as [->|Hne]; [|rewrite list_lookup_insert_ne by done; auto].
    rewrite list_lookup_insert_eq by (by eapply lookup_lt_Some). intros [= <-]. by left. }
  assert (∀ n, n ∈ sends (mb_instance mb) → (n < length ks)%nat) as Hold.
  { intros n (k & Hk & _)%(st_sends _ _ _ Hs i name mb n Hi). by eapply lookup_lt_Some. }
  split.
  - rewrite <- (st_descriptions _ _ _ Hs). unfold descriptions. rewrite list_fmap_insert. apply list_insert_id.
    rewrite list_lookup_fmap, Hi. cbn. by rewrite Hdesc.
  - rewrite fmap_app. apply NoDup_app. split; [apply Hs|]. split; [|apply NoDup_singleton]. intros x Hin Hx'.
    apply list_elem_of_singleton in Hx' as ->. done.
  - pose proof (st_fresh _ _ _ Hs) as Hf. apply Forall_insert; [done|]. cbn [snd].
    destruct (Forall_lookup_1 _ _ _ _ Hf Hi) as [Hf1 Hf2]. cbn [snd] in Hf1, Hf2. rewrite Hdesc.
    destruct Hx as [(b & ->)|(data & c & r & -> & _)]; (split; [|done]); [by apply fresh_triggered|by apply fresh_countdown].
  - intros n k [[_ Hk]|[_ <-]]%lookup_snoc_Some; [by apply (st_built _ _ _ Hs) in Hk|]. by exists (mb_description mb).
  - intros j nm mb1 n Hj. destruct (Hlook _ _ Hj) as [[-> [= -> ->]]|[Hne Hj']].
    + rewrite Hsend, elem_of_cons, (st_sends _ _ _ Hs i name mb n Hi). split.
      * intros [->|(k & Hk & Hki)]; [|exists k; split; [by apply lookup_app_l_Some|done]].
        eexists. split; [by apply list_lookup_middle|done].
      * intros (k & [[_ Hk]|[-> <-]]%lookup_snoc_Some & Hki); [right; by exists k|by left].
    + rewrite (st_sends _ _ _ Hs j nm mb1 n Hj'). split.
      * intros (k & Hk & Hki). exists k. split; [by apply lookup_app_l_Some|done].
      * intros (k & [[_ Hk]|[-> <-]]%lookup_snoc_Some & Hki); [by exists k|]. cbn in Hki. done.
  - intros j nm mb1 Hj. destruct (Hlook _ _ Hj) as [[-> [= -> ->]]|[Hne Hj']]; [|by eapply (st_once _ _ _ Hs)].
    rewrite Hsend. apply NoDup_cons. split; [|by eapply (st_once _ _ _ Hs)]. intros Hin%Hold. lia.
  - intros j nm mb1 n b Hj Hin.
    assert ((∃ k c, ks !! n = Some k ∧ dget (te_members (sk_terminal k)) TX_CLOCK = Some c ∧ clock_named (mb_description mb1) c COUNTDOWN (nb_clock b))
      ∨ n = length ks ∧ j = i ∧ mb1 = mb' ∧ ∃ c, dget (te_members te) TX_CLOCK = Some c ∧ clock_named (mb_description mb) c COUNTDOWN (nb_clock b))
      as [(k & c & Hk & ?)|(-> & -> & -> & c & ?)].
    { destruct (Hlook _ _ Hj) as [[-> [= -> ->]]|[Hne Hj']]; [|left; by eapply (st_countdown _ _ _ Hs)].
      destruct Hx as [(b' & Hm)|(data & c & r & Hm & Hc & Hr)]; rewrite Hm in Hin; cbn in Hin.
      - left. rewrite Hdesc. by eapply (st_countdown _ _ _ Hs).
      - apply elem_of_app in Hin as [Hin|[= -> ->]%list_elem_of_singleton]; [left; rewrite Hdesc; by eapply (st_countdown _ _ _ Hs)|].
        right. do 3 (split; [done|]). by exists c. }
    + exists k, c. split; [by apply lookup_app_l_Some|done].
    + eexists _, c. rewrite Hdesc. split; [by apply list_lookup_middle|done].
Qed.

(** ** Links *)

Definition channels_of (tr : transceiver) : list string :=
  option_list (fst <$> tr_observation tr) ++ option_list (fst <$> tr_injection tr).

(** Connections pair a bus simulation with a node that no Channel feeds, and each
    Channel in use is on one transceiver. *)
Record links (ds : described) (used : list string) (trs : list transceiver) : Prop := {
  lk_peer : ∀ n tr p, trs !! n = Some tr → tr_peer tr = Some p →
      tr_injection tr = None
      ∧ ∃ q, trs !! p = Some q ∧ tr_peer q = Some n ∧ bus_at ds (tr_instance tr) ≠ bus_at ds (tr_instance q);
  lk_once : NoDup (concat (channels_of <$> trs));
  lk_used : ∀ c, c ∈ concat (channels_of <$> trs) → c ∈ used;
}.

Lemma links_snoc ds used trs tr :
  links ds used trs → tr_peer tr = None → tr_observation tr = None → tr_injection tr = None → links ds used (trs ++ [tr]).
Proof.
  intros [Hp Ho Hu] H1 H2 H3. assert (concat (channels_of <$> (trs ++ [tr])) = concat (channels_of <$> trs)) as He.
  { rewrite fmap_app, concat_app. cbn. unfold channels_of at 2. rewrite H2, H3. by rewrite app_nil_r. }
  split; [|by rewrite He|by rewrite He]. intros n x p [[_ Hn]|[_ <-]]%lookup_snoc_Some Hx; [|congruence].
  destruct (Hp n x p Hn Hx) as (Hi & q & Hq & ?). split; [done|]. exists q. split; [by apply lookup_app_l_Some|done].
Qed.

Lemma concat_alter {A} (g : A → list string) (f : A → A) l n x (k : list string) :
  l !! n = Some x → g (f x) ≡ₚ k ++ g x → concat (g <$> alter f n l) ≡ₚ k ++ concat (g <$> l).
Proof.
  intros Hn Hg. revert n Hn. induction l as [|y l IH]; intros [|n] Hn; try done; cbn in *.
  - injection Hn as ->. by rewrite Hg, app_assoc.
  - fold (alter f n l). rewrite (IH n Hn), !app_assoc. f_equiv. apply Permutation_app_comm.
Qed.

Lemma links_connect ds trs n m l r :
  links ds [] trs → n ≠ m → trs !! n = Some l → trs !! m = Some r → tr_peer l = None → tr_peer r = None →
  bus_at ds (tr_instance l) ≠ bus_at ds (tr_instance r) →
  links ds [] (alter (set_peer n) m (alter (set_peer m) n trs)).
Proof.
  intros [Hp Ho Hu] Hne Hl Hr Hlp Hrp Hbus.
  assert (trs !! m = Some r ∧ alter (set_peer m) n trs !! m = Some r) as [_ Hr'] by (split; [done|by rewrite list_lookup_alter_ne]).
  assert (concat (channels_of <$> alter (set_peer n) m (alter (set_peer m) n trs)) ≡ₚ concat (channels_of <$> trs)) as He.
  { rewrite (concat_alter channels_of (set_peer n) _ m r []) by done. cbn.
    by rewrite (concat_alter channels_of (set_peer m) _ n l []) by done. }
  assert (∀ j x, trs !! j = Some x → tr_injection x = None) as Hinj.
  { intros j x Hx. destruct (tr_injection x) as [[c b]|] eqn:Hc; [|done]. exfalso. apply (not_elem_of_nil c), Hu, elem_of_concat.
    exists (channels_of x). split; [unfold channels_of; rewrite Hc; set_solver|]. by eapply list_elem_of_fmap_2, list_elem_of_lookup_2. }
  assert (∀ j, alter (set_peer n) m (alter (set_peer m) n trs) !! j
    = if decide (j = m) then Some (set_peer n r) else if decide (j = n) then Some (set_peer m l) else trs !! j) as Hlook.
  { intros j. destruct (decide (j = m)) as [->|Hm]; [by rewrite list_lookup_alter_eq, Hr'|]. rewrite list_lookup_alter_ne by done.
    destruct (decide (j = n)) as [->|Hn]; [by rewrite list_lookup_alter_eq, Hl|]. by rewrite list_lookup_alter_ne by done. }
  split; [|by rewrite He|intros c; rewrite He; apply Hu]. intros j x p. rewrite !Hlook.
  destruct (decide (j = m)) as [->|Hm].
  { intros [= <-] [= <-]. split; [exact (Hinj m r Hr)|]. exists (set_peer m l). rewrite decide_False, decide_True by done. by repeat split. }
  destruct (decide (j = n)) as [->|Hn].
  { intros [= <-] [= <-]. split; [exact (Hinj n l Hl)|]. exists (set_peer n r). rewrite decide_True by done. by repeat split. }
  intros Hx Hxp. destruct (Hp j x p Hx Hxp) as (? & q & Hq & Hqp & ?). split; [done|]. exists q.
  rewrite !decide_False by (intros ->; congruence). done.
Qed.

Lemma links_channel ds used trs n tr c (f : transceiver → transceiver) :
  links ds used trs → c ∉ used → trs !! n = Some tr → channels_of (f tr) ≡ₚ c :: channels_of tr →
  tr_peer (f tr) = tr_peer tr → tr_instance (f tr) = tr_instance tr →
  (tr_peer tr ≠ None → tr_injection (f tr) = tr_injection tr) →
  links ds (c :: used) (alter f n trs).
Proof.
  intros [Hp Ho Hu] Hc Hn Hch Hpe Hin Hinj.
  assert (concat (channels_of <$> alter f n trs) ≡ₚ c :: concat (channels_of <$> trs)) as He by by apply (concat_alter channels_of f trs n tr [c]).
  assert (∀ j, alter f n trs !! j = if decide (j = n) then Some (f tr) else trs !! j) as Hlook.
  { intros j. destruct (decide (j = n)) as [->|Hj]; [by rewrite list_lookup_alter_eq, Hn|by rewrite list_lookup_alter_ne by done]. }
  split.
  - intros j x p. rewrite !Hlook. intros Hx Hxp.
    assert (∃ y, trs !! j = Some y ∧ tr_peer y = Some p ∧ tr_instance y = tr_instance x ∧ (tr_injection y = None → tr_injection x = None)) as (y & Hy & Hyp & Hyi & Hyj).
    { case_decide as Hj; [|by exists x]. subst j. injection Hx as <-. exists tr. split; [done|]. rewrite Hpe in Hxp. split; [done|].
      split; [done|]. rewrite Hinj; [done|]. congruence. }
    destruct (Hp j y p Hy Hyp) as (Hyn & q & Hq & Hqp & Hb). split; [auto|]. rewrite Hyi in Hb. destruct (decide (p = n)) as [Hpn|Hpn]; [|by exists q].
    subst p. rewrite Hn in Hq. injection Hq as ->. exists (f q). by rewrite Hpe, Hin.
  - rewrite He. apply NoDup_cons. split; [|done]. intros Hin'%Hu. done.
  - intros c'. rewrite He, !elem_of_cons. intros [->|?]; [by left|right; by apply Hu].
Qed.

(** ** Composing *)

Definition built (st : composing) : list transceiver := (λ b, b.2.1) <$> cp_built st.
Definition cinv (ds : described) (used : list string) (st : composing) : Prop :=
  structure ds (cp_members st) (skeleton_of <$> cp_built st) ∧ links ds used (built st).

Lemma built_lookup st n tr : built st !! n = Some tr ↔ ∃ key te, cp_built st !! n = Some (key, (tr, te)).
Proof.
  unfold built. rewrite list_lookup_fmap, fmap_Some. split.
  - intros ([key [tr' te]] & Hn & ->). by exists key, te.
  - intros (key & te & Hn). by exists (key, (tr, te)).
Qed.

Lemma built_on_built n f st : built (on_built n f st) = alter f n (built st).
Proof.
  unfold built, on_built. cbn [cp_built]. apply list_eq. intros j. rewrite list_lookup_fmap.
  destruct (decide (n = j)) as [->|Hne].
  - rewrite !list_lookup_alter_eq, list_lookup_fmap. by destruct (cp_built st !! j).
  - by rewrite !list_lookup_alter_ne, list_lookup_fmap by done.
Qed.

Lemma on_built_structure ds st n f :
  (∀ tr, tr_instance (f tr) = tr_instance tr ∧ tr_receive (f tr) = tr_receive tr) →
  structure ds (cp_members st) (skeleton_of <$> cp_built st) →
  structure ds (cp_members (on_built n f st)) (skeleton_of <$> cp_built (on_built n f st)).
Proof.
  intros Hf Hs. unfold on_built. cbn [cp_members cp_built].
  assert (skeleton_of <$> alter (λ b : (string * string) * (transceiver * terminal), (b.1, (f b.2.1, b.2.2))) n (cp_built st)
    = skeleton_of <$> cp_built st) as ->; [|done].
  apply list_eq. intros j. rewrite !list_lookup_fmap. destruct (decide (n = j)) as [->|Hne]; [|by rewrite list_lookup_alter_ne].
  rewrite list_lookup_alter_eq. destruct (cp_built st !! j) as [[key [tr te]]|]; [|done]. cbn. unfold skeleton_of. cbn.
  by destruct (Hf tr) as [-> ->].
Qed.

Lemma instance_of_Ok members text name rest : instance_of members text = Ok (name, rest) → name ∈ members.*1.
Proof.
  unfold instance_of. destruct (partition "." text) as [a [[|c b]|]]; try done.
  destruct (dmem members a) eqn:Hm; [|done]. intros [= <- _]. by apply dmem_true.
Qed.

Lemma named_cinv allocates ds used profile text st st' n :
  cinv ds used st → named allocates profile text st = Ok (st', n) → cinv ds used st'.
Proof.
  intros [Hs Hl]. unfold named. intros ([name key] & Hin & H)%bind_Ok.
  destruct (pindex (cp_built st) (name, key)) as [k|] eqn:Hp; [by injection H as <- <-|].
  apply bind_Ok in H as ([i mb] & [Hi Hmb]%member_of_Ok & H). destruct (dget (md_terminals (mb_description mb)) key) as [te|] eqn:Hte; [|done].
  apply bind_Ok in H as ([tr mb'] & Hb & [= <- <-]). pose proof (dindex_Some _ _ _ _ Hi Hmb) as Hm.
  destruct (build_transceiver_Ok _ _ _ _ _ _ _ _ _ Hb) as (Hti & H1 & H2 & H3 & _). apply pindex_None in Hp.
  unfold cinv, built. cbn [cp_members cp_built]. rewrite (dset_keys_new (cp_built st)) by done. rewrite !fmap_app. split.
  - rewrite (dset_insert _ _ _ _ _ Hi Hmb). cbn [fmap list_fmap]. unfold skeleton_of at 2. cbn [fst snd]. rewrite Hti.
    eapply structure_build; try done.
    + rewrite <- list_fmap_compose. exact Hp.
    + by rewrite length_fmap.
  - by apply links_snoc.
Qed.

Lemma end_of_Ok ds used st n name tr te d :
  NoDup ds.*1 → cinv ds used st → end_of st n = Ok (name, tr, te, d) →
  built st !! n = Some tr ∧ ds !! tr_instance tr = Some (name, d).
Proof.
  intros Hds [Hs _]. unfold end_of. destruct (cp_built st !! n) as [[[name' key] [tr' te']]|] eqn:Hn; [|done].
  destruct (dget (cp_members st) name') as [mb|] eqn:Hmb; [|done]. intros [= <- <- <- <-].
  split; [apply built_lookup; by exists (name', key), te'|].
  destruct (st_built _ _ _ Hs n (mk_skeleton (name', key) (tr_instance tr') (tr_receive tr') te')) as (d & Hd & _).
  { by rewrite list_lookup_fmap, Hn. }
  cbn in Hd. rewrite Hd. do 2 f_equal. apply dget_Some in Hmb.
  assert ((name', mb_description mb) ∈ ds) as Hin.
  { rewrite <- (st_descriptions _ _ _ Hs). apply list_elem_of_fmap. by exists (name', mb). }
  apply (dget_elem ds) in Hin; [|done]. apply list_elem_of_lookup_2, dget_elem in Hd; [|done]. congruence.
Qed.

Lemma connection_compatible declaration lname ltr lte ld rname rtr rte rd u :
  require_compatible declaration (lname, ltr, lte, ld) (rname, rtr, rte, rd) = Ok u → bus_simulation ld ≠ bus_simulation rd.
Proof.
  unfold require_compatible, bus_of, bus_simulation. intros H. inv_ok. destruct (md_bus ld), (md_bus rd); try done. inv_ok.
  by apply eqb_false_iff in Hok1.
Qed.

Lemma connect_one_cinv allocates ds profile st declaration st' :
  NoDup ds.*1 → cinv ds [] st → connect_one allocates profile st declaration = Ok st' → cinv ds [] st'.
Proof.
  intros Hds Hst. unfold connect_one. destruct (partition "=" declaration) as [lhs [rhs|]]; [|done]. intros H. inv_ok.
  destruct a0 as [st1 n]. apply (named_cinv _ _ _ _ _ _ _ _ Hst) in Hok0 as H1. inv_ok.
  destruct a0 as [st2 m]. apply (named_cinv _ _ _ _ _ _ _ _ H1) in Hok1 as H2. inv_ok.
  destruct a1 as [[[lname ltr] lte] ld], a2 as [[[rname rtr] rte] rd]. inv_ok.
  destruct (end_of_Ok _ _ _ _ _ _ _ _ Hds H2 Hok3) as [Hl Hld]. destruct (end_of_Ok _ _ _ _ _ _ _ _ Hds H2 Hok4) as [Hr Hrd].
  apply bool_decide_eq_false in Hok5, Hok6. apply connection_compatible in Hok7 as Hbus. apply Nat.eqb_neq in Hok2.
  destruct H2 as [Hstr Hlinks]. split; [by do 2 (apply on_built_structure; [done|])|]. rewrite !built_on_built.
  apply links_connect with (l := ltr) (r := rtr); try done.
  - by apply eq_None_not_Some.
  - by apply eq_None_not_Some.
  - unfold bus_at. rewrite Hld, Hrd. cbn. congruence.
Qed.

Lemma carrying_cinv allocates ds used profile text st st' x :
  cinv ds used st → carrying allocates profile text st = Ok (st', x) → cinv ds used st'.
Proof.
  intros Hst. unfold carrying. intros ([name v] & _ & ([i mb] & _ & (u & _ & H)%bind_Ok)%bind_Ok)%bind_Ok.
  destruct (terminal_carrying _ v) as [te|]; [|done]. apply bind_Ok in H as ([st1 n] & Hn & H).
  apply (named_cinv _ _ _ _ _ _ _ _ Hst) in Hn. destruct (dget (cp_by_variable st1) (name, v)) as [[k role]|]; [|done].
  by injection H as <- _.
Qed.

Lemma bind_group_channel_cinv allocates ds used profile channel dir fs bound st st' :
  NoDup ds.*1 → channel ∉ used → cinv ds used st →
  bind_group_channel allocates profile channel dir fs bound st = Ok st' → cinv ds (channel :: used) st'.
Proof.
  intros Hds Hc Hst. unfold bind_group_channel. destruct bound as [|[field text] [|]]; try done.
  intros ([st1 [n side]] & Hcar & (u & _ & ([[[name tr] te] d] & He & (v & _ & (b & _ & H)%bind_Ok)%bind_Ok)%bind_Ok)%bind_Ok)%bind_Ok.
  apply (carrying_cinv _ _ _ _ _ _ _ _ Hst) in Hcar as H1. destruct (end_of_Ok _ _ _ _ _ _ _ _ Hds H1 He) as [Hn _].
  destruct H1 as [Hstr Hl]. destruct dir; inv_ok.
  - apply bool_decide_eq_false in Hok, Hok0. split; [by apply on_built_structure|]. rewrite built_on_built.
    eapply links_channel; try done.
    + apply eq_None_not_Some in Hok as Hi. unfold channels_of. rewrite Hi. cbn. rewrite app_nil_r. symmetry. apply Permutation_cons_append.
    + intros []. by apply eq_None_not_Some.
  - apply bool_decide_eq_false in Hok. split; [by apply on_built_structure|]. rewrite built_on_built.
    eapply links_channel; try done. unfold channels_of. cbn. destruct (tr_observation tr); [by destruct Hok; eexists|done].
Qed.

(** ** Reading the arguments *)

Lemma add_instance_keys paths declaration paths' :
  NoDup paths.*1 → add_instance paths declaration = Ok paths' → NoDup paths'.*1.
Proof. intros Hn. unfold add_instance. destruct declaration as [name path]. intros H. inv_ok. by apply dset_NoDup. Qed.

Lemma read_members_Ok unpack args members :
  read_members unpack args = Ok members →
  structure (descriptions members) members [] ∧ NoDup (descriptions members).*1
  ∧ Forall (λ nd, ∃ path ar, unpack path = Ok ar ∧ read_description ar = Ok nd.2) (descriptions members).
Proof.
  unfold read_members. intros H. inv_ok.
  assert (NoDup a.*1) as Hn.
  { unfold instance_paths in Hok. eapply (foldE_inv (λ p, NoDup p.*1) _ []); [|constructor|exact Hok].
    intros p x p1 _. apply add_instance_keys. }
  apply mapE_Ok in H.
  assert (Forall2 (λ np nm, nm.1 = np.1 ∧ ∃ ar, unpack np.2 = Ok ar ∧ ∃ d, read_description ar = Ok d ∧ nm.2 = new_member np.1 d) a members) as H2.
  { eapply Forall2_impl; [exact H|]. intros np nm Hm. cbn beta in Hm. inv_ok. eauto 8. }
  clear H. split; [|split].
  - split; try done; [apply NoDup_nil_2| | | |].
    + apply Forall_lookup_2. intros i nm Hi. destruct (Forall2_lookup_r _ _ _ _ _ H2 Hi) as (np & _ & _ & ar & _ & d & _ & ->).
      split; [|done]. by split.
    + intros i name mb n Hi. destruct (Forall2_lookup_r _ _ _ _ _ H2 Hi) as (np & _ & _ & ar & _ & d & _ & E). cbn in E. subst mb.
      cbn. split; [by intros ?%not_elem_of_nil|]. intros (k & Hk & _). done.
    + intros i name mb Hi. destruct (Forall2_lookup_r _ _ _ _ _ H2 Hi) as (np & _ & _ & ar & _ & d & _ & E). cbn in E. subst mb. constructor.
    + intros i name mb n b Hi. destruct (Forall2_lookup_r _ _ _ _ _ H2 Hi) as (np & _ & _ & ar & _ & d & _ & E). cbn in E. subst mb.
      cbn. by intros ?%not_elem_of_nil.
  - unfold descriptions. rewrite <- list_fmap_compose. assert (members.*1 = a.*1) as E.
    { clear -H2. induction H2 as [|np nm a' ms [E _] _ IH]; [done|]. cbn. by rewrite E, IH. }
    erewrite list_fmap_ext; [rewrite E; exact Hn|]. done.
  - unfold descriptions. apply Forall_fmap, Forall_lookup_2. intros i nm Hi.
    destruct (Forall2_lookup_r _ _ _ _ _ H2 Hi) as (np & _ & _ & ar & Har & d & Hd & E). cbn. rewrite E. cbn. eauto.
Qed.

Lemma bound_fields_keys arguments init by_channel bound :
  channel_fields init = Ok by_channel → bound_fields arguments by_channel = Ok bound → NoDup bound.*1.
Proof.
  intros Hc Hb. assert (NoDup by_channel.*1) as Hn.
  { unfold channel_fields in Hc. eapply (foldE_inv (λ d, NoDup d.*1) _ []); [|constructor|exact Hc].
    intros d x d1 _ Hd. cbn beta. destruct (dget (il_schemas init) x.2.2); [|done]. intros [= <-]. by apply dset_NoDup. }
  unfold bound_fields in Hb. eapply (foldE_inv (λ d, NoDup d.*1)); [| |exact Hb].
  - intros d x d1 _ Hd. unfold add_bind. intros ([[ch f] v] & _ & H)%bind_Ok. inv_ok. by apply dset_NoDup.
  - rewrite <- list_fmap_compose. exact Hn.
Qed.

Lemma bind_channels_cinv allocates ds profile init by_channel bound used st st' :
  NoDup ds.*1 → NoDup (used ++ bound.*1) → cinv ds used st →
  foldE (λ st cb, match dget (il_channels init) cb.1 with
                  | Some (dir, _) => bind_group_channel allocates profile cb.1 dir (fields_of by_channel cb.1) cb.2 st
                  | None => Err (EKey cb.1)
                  end) st bound = Ok st' → ∃ used', cinv ds used' st'.
Proof.
  intros Hds. revert used st. induction bound as [|[ch b] bound IH]; intros used st Hn Hst; cbn [foldE]; [intros [= <-]; by exists used|].
  cbn [fst snd]. intros (st1 & H1 & H2)%bind_Ok. destruct (dget (il_channels init) ch) as [[dir sch]|]; [|done]. cbn in Hn.
  apply bind_group_channel_cinv with (ds := ds) (used := used) in H1; try done.
  - eapply IH; [|exact H1|exact H2]. cbn. by rewrite Permutation_middle.
  - apply NoDup_app in Hn as (_ & Hn & _). intros Hin. apply (Hn _ Hin). left.
Qed.

(** ** The theorems *)

(** A group wired as the schedule relies on: a transceiver is of an instance of
    the group, and every instance has one; the activations an instance sends are
    those of its own transceivers, one each; a connection joins two transceivers
    both ways, one of a bus simulation and one of a node, and neither is fed by a
    Channel; a Channel is on one transceiver. *)
Record wired_group (trs : list transceiver) (g : list instance) : Prop := {
  wg_instance : ∀ n tr, trs !! n = Some tr → (tr_instance tr < length g)%nat;
  wg_used : ∀ i, (i < length g)%nat → ∃ n tr, trs !! n = Some tr ∧ tr_instance tr = i;
  wg_sends : ∀ i x n, g !! i = Some x → n ∈ sends x ↔ ∃ tr, trs !! n = Some tr ∧ tr_instance tr = i;
  wg_once : Forall (λ x, NoDup (sends x)) g;
  wg_peer : ∀ n tr p, trs !! n = Some tr → tr_peer tr = Some p →
      tr_injection tr = None
      ∧ ∃ q, trs !! p = Some q ∧ tr_peer q = Some n ∧ is_bus g (tr_instance tr) ≠ is_bus g (tr_instance q);
  wg_channels : NoDup (concat (channels_of <$> trs));
}.

(** The Clocks of an FMU have value references of their own, and so have its
    terminals Clocks to send with. *)
Definition clocks_apart (d : model_description) : Prop :=
  NoDup ((λ kv, reference_of kv.2) <$> filter (λ kv, fv_kind kv.2 = CLOCK) (md_variables d))
  ∧ NoDup (omap (λ kt, dget (te_members kt.2) TX_CLOCK) (md_terminals d)).

Lemma NoDup_fmap_inj {A B} (f : A → B) l x y : NoDup (f <$> l) → x ∈ l → y ∈ l → f x = f y → x = y.
Proof.
  induction l as [|a l IH]; cbn; [set_solver|]. rewrite NoDup_cons. intros [Ha Hl] [->|Hx]%elem_of_cons [->|Hy]%elem_of_cons E; auto.
  - destruct Ha. rewrite E. by apply list_elem_of_fmap_2.
  - destruct Ha. rewrite <- E. by apply list_elem_of_fmap_2.
Qed.

Lemma NoDup_omap_inj {A B} (f : A → option B) l x y b : NoDup (omap f l) → x ∈ l → y ∈ l → f x = Some b → f y = Some b → x = y.
Proof.
  induction l as [|a l IH]; cbn; [set_solver|].
  intros Hn [->|Hx]%elem_of_cons [->|Hy]%elem_of_cons Ex Ey; [done| | |].
  - rewrite Ex in Hn. apply NoDup_cons in Hn as [Hn _]. destruct Hn. apply list_elem_of_omap. by exists y.
  - rewrite Ey in Hn. apply NoDup_cons in Hn as [Hn _]. destruct Hn. apply list_elem_of_omap. by exists x.
  - apply IH; try done. destruct (f a); [by apply NoDup_cons in Hn as [_ ?]|done].
Qed.

Lemma clocks_apart_named d k k' i i' r :
  clocks_apart d → clock_named d k i r → clock_named d k' i' r → k = k' ∧ i = i'.
Proof.
  intros [Ha _] (v & Hv & Hk & Hi & ->) (v' & Hv' & Hk' & Hi' & Hr). apply dget_Some in Hv, Hv'.
  assert ((k, v) = (k', v')) as E.
  { apply (NoDup_fmap_inj _ _ _ _ Ha); [..|done]; apply list_elem_of_filter; done. }
  injection E as <- <-. split; [done|]. congruence.
Qed.

Lemma NoDup_fmap_via {A B C} (f : A → B) (g : A → C) l :
  NoDup (g <$> l) → (∀ x y, x ∈ l → y ∈ l → f x = f y → g x = g y) → NoDup (f <$> l).
Proof.
  induction l as [|a l IH]; cbn; [constructor|]. rewrite !NoDup_cons. intros [Ha Hl] Hfg. split.
  - intros (y & Hy & Hin)%list_elem_of_fmap. apply Ha. rewrite (Hfg a y); [by apply list_elem_of_fmap_2|left|by right|done].
  - apply IH; [done|]. intros x y ? ?. apply Hfg; by right.
Qed.

(** The transceiver a countdown Clock sends. *)
Lemma countdown_sender ds members ks i name mb n b :
  structure ds members ks → members !! i = Some (name, mb) → (n, b) ∈ in_countdown (mb_instance mb) →
  ∃ k t c, ks !! n = Some k ∧ sk_key k = (name, t) ∧ (t, sk_terminal k) ∈ md_terminals (mb_description mb)
    ∧ dget (te_members (sk_terminal k)) TX_CLOCK = Some c ∧ clock_named (mb_description mb) c COUNTDOWN (nb_clock b).
Proof.
  intros Hs Hi Hin. destruct (st_countdown _ _ _ Hs _ _ _ _ _ Hi Hin) as (k & c & Hk & Hc & Hcl).
  assert (n ∈ sends (mb_instance mb)) as (k' & Hk' & Hki)%(st_sends _ _ _ Hs i name mb n Hi).
  { unfold sends. apply elem_of_app. right. apply list_elem_of_fmap. by exists (n, b). }
  rewrite Hk in Hk'. injection Hk' as <-. destruct (st_built _ _ _ Hs n k Hk) as (d & Hd & Ht & _).
  rewrite Hki, (structure_lookup _ _ _ _ _ _ Hs Hi) in Hd. injection Hd as Hname <-. exists k, (sk_key k).2, c.
  split_and!; try done; [by rewrite Hname; destruct (sk_key k)|by apply dget_Some].
Qed.

Lemma structure_wired ds members ks trs :
  structure ds members ks → Forall2 (λ k tr, sk_instance k = tr_instance tr ∧ sk_receive k = tr_receive tr) ks trs →
  Forall (λ nd, clocks_apart nd.2) ds → wired trs (mb_instance <$> members.*2).
Proof.
  intros Hs Hk Hd. assert (∀ i name mb, members !! i = Some (name, mb) → clocks_apart (mb_description mb)) as Hap.
  { intros i name mb Hi. exact (Forall_lookup_1 _ _ _ _ Hd (structure_lookup _ _ _ _ _ _ Hs Hi)). }
  split.
  - apply Forall_fmap, Forall_fmap, Forall_lookup_2. intros i [name mb] Hi. cbn. specialize (Hap i name mb Hi).
    assert (NoDup (in_countdown (mb_instance mb)).*1) as Hn.
    { pose proof (st_once _ _ _ Hs i name mb Hi) as Hn. unfold sends in Hn. by apply NoDup_app in Hn as (_ & _ & ?). }
    unfold clocks_of. apply (NoDup_fmap_via _ fst); [done|]. intros [n b] [n' b'] Hx Hy Hc. cbn in *.
    destruct (countdown_sender _ _ _ _ _ _ _ _ Hs Hi Hx) as (k & t & c & Hk1 & Hkey & Ht & Hm & Hcl).
    destruct (countdown_sender _ _ _ _ _ _ _ _ Hs Hi Hy) as (k' & t' & c' & Hk1' & Hkey' & Ht' & Hm' & Hcl').
    rewrite <- Hc in Hcl'. destruct (clocks_apart_named _ _ _ _ _ _ Hap Hcl Hcl') as [<- _].
    assert ((t, sk_terminal k) = (t', sk_terminal k')) as [= <- _] by (eapply (NoDup_omap_inj _ _ _ _ _ (proj2 Hap)); done).
    eapply (NoDup_lookup (sk_key <$> ks)); [apply Hs|by rewrite list_lookup_fmap, Hk1|]. rewrite list_lookup_fmap, Hk1'. cbn. by rewrite Hkey, Hkey'.
  - intros n tr x Hn Hx. rewrite !list_lookup_fmap in Hx. destruct (members !! tr_instance tr) as [[name mb]|] eqn:Hi; [|done].
    injection Hx as <-. destruct (Forall2_lookup_r _ _ _ _ _ Hk Hn) as (k & Hkn & Hki & Hkr).
    destruct (st_built _ _ _ Hs n k Hkn) as (d & Hdi & _ & c & Hc). rewrite Hki, (structure_lookup _ _ _ _ _ _ Hs Hi) in Hdi.
    injection Hdi as _ <-. rewrite Hkr in Hc. intros ([n' b'] & Hr & Hin)%list_elem_of_fmap. cbn in Hr.
    destruct (countdown_sender _ _ _ _ _ _ _ _ Hs Hi Hin) as (k' & t' & c' & _ & _ & _ & _ & Hcl').
    rewrite Hr in Hc. by destruct (clocks_apart_named _ _ _ _ _ _ (Hap _ _ _ Hi) Hc Hcl') as [_ [=]].
Qed.

Section theorems.
Context (allocates : Z → bool) (unpack : string → doc archive).

(** What [compose] leaves. *)
Lemma compose_Ok args init p trs starts :
  compose allocates unpack args init = Ok (p, trs, starts) →
  ∃ ds used st, cinv ds used st ∧ NoDup ds.*1 ∧ p = mk_group_participant (mb_instance <$> (cp_members st).*2) [] 0 ∧ trs = built st
    ∧ Forall (λ nd, ∃ path ar, unpack path = Ok ar ∧ read_description ar = Ok nd.2) ds
    ∧ ∀ name, name ∈ (cp_members st).*1 → name ∈ (cp_built st).*1.*1.
Proof.
  unfold compose. intros (members & Hm & (st1 & Hc & (st2 & Hb & (u & Hu & (ss & _ & [= <- <- _])%bind_Ok)%bind_Ok)%bind_Ok)%bind_Ok)%bind_Ok.
  destruct (read_members_Ok _ _ _ Hm) as (Hs & Hn & Hd). set (ds := descriptions members) in *.
  assert (cinv ds [] (mk_composing members [] [])) as H0.
  { split; [done|]. split; cbn; [done|constructor|by intros ? ?%not_elem_of_nil]. }
  assert (cinv ds [] st1) as H1.
  { unfold connect in Hc. eapply (foldE_inv (cinv ds [])); [|exact H0|exact Hc]. intros a x a1 _ Ha. by apply connect_one_cinv. }
  unfold bind_group_channels in Hb. apply bind_Ok in Hb as (by_channel & Hby & (bound & Hbd & Hb)%bind_Ok).
  destruct (bind_channels_cinv allocates ds (ga_profile args) init by_channel bound [] st1 st2 Hn) as (used & H2); try done.
  { by eapply bound_fields_keys. }
  exists ds, used, st2. do 4 (split; [done|]). split; [done|]. intros name Hin. destruct u. unfold require_every_instance_used in Hu.
  pose proof (foldE_each _ _ _ Hu name Hin) as He. cbn beta in He. apply raise_if_Ok, negb_false_iff in He. by apply bool_decide_eq_true in He.
Qed.

(** C26. What the arguments of a group and the documents of its FMUs are resolved
    into, when they are accepted, is wired as the schedule of a group relies on:
    every FMU has a terminal that is connected or carried by a Channel, every
    terminal sends through exactly one Clock of its own FMU, connections pair a bus
    simulation with a node in both directions, no terminal is fed by a Channel and
    a peer, and no Channel is on two terminals. *)
Theorem compose_wired args init p trs starts :
  compose allocates unpack args init = Ok (p, trs, starts) → wired_group trs (gp_instances p).
Proof.
  intros (ds & used & st & [Hs [Hp Ho _]] & Hn & -> & -> & _ & Hused)%compose_Ok. cbn [gp_instances].
  assert (∀ i x, (mb_instance <$> (cp_members st).*2) !! i = Some x → ∃ name mb, cp_members st !! i = Some (name, mb) ∧ x = mb_instance mb) as Hg.
  { intros i x. rewrite !list_lookup_fmap. destruct (cp_members st !! i) as [[name mb]|]; [|done]. intros [= <-]. by exists name, mb. }
  assert (∀ n tr, built st !! n = Some tr → ∃ key te, (skeleton_of <$> cp_built st) !! n = Some (mk_skeleton key (tr_instance tr) (tr_receive tr) te)) as Hsk.
  { intros n tr (key & te & Hb)%built_lookup. exists key, te. by rewrite list_lookup_fmap, Hb. }
  assert (∀ n tr, built st !! n = Some tr → ∃ name mb, cp_members st !! tr_instance tr = Some (name, mb)) as Hin.
  { intros n tr (key & te & Hk)%Hsk. destruct (st_built _ _ _ Hs _ _ Hk) as (d & Hd & _). cbn in Hd.
    rewrite <- (st_descriptions _ _ _ Hs) in Hd. unfold descriptions in Hd. rewrite list_lookup_fmap in Hd.
    destruct (cp_members st !! tr_instance tr) as [[name mb]|]; [by exists name, mb|done]. }
  assert (∀ n tr, built st !! n = Some tr → bus_at ds (tr_instance tr) = Some (is_bus (mb_instance <$> (cp_members st).*2) (tr_instance tr))) as Hbus.
  { intros n tr (name & mb & Hi)%Hin. unfold bus_at, is_bus. rewrite (structure_lookup _ _ _ _ _ _ Hs Hi), !list_lookup_fmap, Hi. cbn. f_equal.
    symmetry. exact (proj2 (Forall_lookup_1 _ _ _ _ (st_fresh _ _ _ Hs) Hi)). }
  split.
  - intros n tr (name & mb & Hi%lookup_lt_Some)%Hin. by rewrite !length_fmap.
  - intros i Hi. rewrite !length_fmap in Hi. apply lookup_lt_is_Some in Hi as [[name mb] Hi].
    assert (name ∈ (cp_built st).*1.*1) as ([name' key] & -> & ([k [tr te]] & [= <-] & [n Hb]%list_elem_of_lookup)%list_elem_of_fmap)%list_elem_of_fmap.
    { apply Hused. apply list_elem_of_fmap. exists (name, mb). split; [done|]. by eapply list_elem_of_lookup_2. }
    exists n, tr. split; [apply built_lookup; by eexists _, _|].
    destruct (st_built _ _ _ Hs n (skeleton_of ((name', key), (tr, te)))) as (d & Hd & _); [by rewrite list_lookup_fmap, Hb|]. cbn in Hd.
    apply (NoDup_lookup ds.*1 _ _ name' Hn); rewrite list_lookup_fmap; [by rewrite Hd|]. by rewrite (structure_lookup _ _ _ _ _ _ Hs Hi).
  - intros i x n (name & mb & Hi & ->)%Hg. rewrite (st_sends _ _ _ Hs i name mb n Hi). split.
    + intros (k & Hk & Hki). rewrite list_lookup_fmap in Hk. destruct (cp_built st !! n) as [[key [tr te]]|] eqn:Hb; [|done].
      injection Hk as <-. exists tr. split; [apply built_lookup; by eexists _, _|done].
    + intros (tr & (key & te & Hk)%Hsk & Hki). eexists. split; [exact Hk|done].
  - apply Forall_lookup_2. intros i x (name & mb & Hi & ->)%Hg. by eapply (st_once _ _ _ Hs).
  - intros n tr q Hb Hq. destruct (Hp n tr q Hb Hq) as (Hi & r & Hr & Hrp & Hne). split; [done|]. exists r. split; [done|]. split; [done|].
    rewrite (Hbus _ _ Hb), (Hbus _ _ Hr) in Hne. congruence.
  - done.
Qed.

Lemma compose_composed args init p trs starts :
  (∀ path ar d, unpack path = Ok ar → read_description ar = Ok d → clocks_apart d) →
  compose allocates unpack args init = Ok (p, trs, starts) → composed trs p.
Proof.
  intros Hdocs (ds & used & st & [Hs _] & _ & -> & -> & Hd & _)%compose_Ok. split; [|split; [|done]]; cbn [gp_instances].
  - apply Forall_fmap, Forall_fmap. eapply Forall_impl; [apply (st_fresh _ _ _ Hs)|]. by intros [name mb] [? _].
  - eapply structure_wired; [exact Hs| |].
    + unfold built. apply Forall2_fmap, Forall_Forall2_diag, Forall_true. by intros [key [tr te]].
    + eapply Forall_impl; [exact Hd|]. intros nd (path & ar & Hu & Hr). by eapply Hdocs.
Qed.

(** C11. A group composed from arguments and documents is driven as FMI 3.0 and the
    FMUs' own requests say, from its command line to its end: if the documents
    tell the Clocks of each FMU apart, and the group is accepted and initializes,
    then the calls each FMU receives over any Steps, whether one fails or not, and
    until it is closed, satisfy the contract. *)
Theorem composed_conforms args init p trs starts fmus p1 steps p2 r p3 r' :
  (∀ path ar d, unpack path = Ok ar → read_description ar = Ok d → clocks_apart d) →
  compose allocates unpack args init = Ok (p, trs, starts) → Forall (λ s, 0 ≤ s.1.2) steps →
  on_init trs (zip fmus starts) p = (p1, Ok ()) → play trs steps p1 = (p2, r) → close_group p2 = (p3, r') →
  Forall (λ x, is_Some (observe (clocks_of x) (log_of x))) (gp_instances p3).
Proof. intros Hd Hc Hs Hi Hp Hcl. eapply run_conforms; eauto. by eapply compose_composed. Qed.
End theorems.

(** ** The witness: a node and a bus, and a Channel that observes the node *)

Definition binary_element (name reference causality clock : string) : element :=
  Element "Binary" [("name", name); ("valueReference", reference); ("causality", causality); ("maxSize", "8");
                    ("clocks", clock); ("mimeType", "application/x-can; v=1")]%string [].
Definition clock_element (name reference causality interval : string) : element :=
  Element "Clock" [("name", name); ("valueReference", reference); ("causality", causality); ("intervalVariability", interval)]%string [].
Definition demo_archive (rx rxc tx txc causality interval bus : string) : archive :=
  mk_archive
    (Some (Element "fmiModelDescription" [("fmiVersion", "3.0"); ("instantiationToken", "t")]%string
      [Element "CoSimulation" [("modelIdentifier", "m"); ("hasEventMode", "true")]%string [];
       Element "ModelVariables" []
         [binary_element "rx" rx "input" rxc; clock_element "rxc" rxc "input" "triggered";
          binary_element "tx" tx "output" txc; clock_element "txc" txc causality interval]]))
    (Some (Some (Element "fmiTerminalsAndIcons" []
      [Element "Terminals" []
        [Element "Terminal" [("name", "port"); ("terminalKind", NETWORK_TERMINAL); ("matchingRule", TRANSCEIVER)]%string
          ((λ kv : string * string, Element "TerminalMemberVariable" [("memberName", kv.1); ("variableName", kv.2)]%string [])
           <$> [(RX_DATA, "rx"); (RX_CLOCK, "rxc"); (TX_DATA, "tx"); (TX_CLOCK, "txc")]%string)]])))
    (Some (Some (Element "fmiLayeredStandardManifest" [(LAYERED_STANDARD_VERSION, "1.0.0"); ("isBusSimulationFMU", bus)]%string []))).
Definition demo_unpack (path : string) : doc archive :=
  if String.eqb path "node.fmu" then Ok (demo_archive "11" "12" "14" "13" "output" "triggered" "false")
  else if String.eqb path "bus.fmu" then Ok (demo_archive "21" "22" "24" "23" "input" "countdown" "true")
  else Err ENoDescription.
Definition demo_arguments : group_arguments :=
  mk_arguments [("node", "node.fmu"); ("bus", "bus.fmu")]%string ["node.port=bus.port"]%string ["tx:data=node.tx"]%string []
    "application/x-can".
Definition demo_init : init_line :=
  mk_init [("tx", (DOut, "frame"))]%string
    [("frame", [mk_field "data" U8 (Some 4%nat); mk_field "data_length" U8 None; mk_field "data_event_time_ns" U64 None])]%string.

Definition demo_composition : group_participant * list transceiver * list (list start) :=
  match compose (λ _, true) demo_unpack demo_arguments demo_init with
  | Ok c => c
  | Err _ => (mk_group_participant [] [] 0, [], [])
  end.
Definition demo_trs : list transceiver := demo_composition.1.2.
Definition demo_run : group_participant := (on_init demo_trs (zip [Some demo_node; Some demo_bus] demo_composition.2) demo_composition.1.1).1.
Definition demo_end : group_participant := (play demo_trs demo_steps demo_run).1.

Lemma compose_wired_witness :
  wired_group demo_trs (gp_instances demo_composition.1.1) ∧ tr_peer <$> demo_trs = [Some 1%nat; Some 0%nat].
Proof.
  split; [|vm_compute; reflexivity].
  exact (compose_wired (λ _, true) demo_unpack demo_arguments demo_init demo_composition.1.1 demo_trs demo_composition.2
    ltac:(vm_compute; reflexivity)).
Defined.

Lemma demo_clocks_apart path ar d : demo_unpack path = Ok ar → read_description ar = Ok d → clocks_apart d.
Proof.
  unfold demo_unpack. destruct (String.eqb path "node.fmu"); [|destruct (String.eqb path "bus.fmu"); [|done]];
    intros [= <-] Hr; vm_compute in Hr; injection Hr as <-; split; apply (bool_decide_unpack _); vm_compute; exact I.
Qed.

Lemma composed_conforms_witness :
  Forall (λ x, is_Some (observe (clocks_of x) (log_of x))) (gp_instances (close_group demo_end).1)
  ∧ (λ x, length (log_of x)) <$> gp_instances (close_group demo_end).1 = [25; 23]%nat.
Proof.
  split; [|vm_compute; reflexivity].
  exact (composed_conforms (λ _, true) demo_unpack demo_arguments demo_init demo_composition.1.1 demo_trs demo_composition.2
    [Some demo_node; Some demo_bus] demo_run demo_steps demo_end (play demo_trs demo_steps demo_run).2
    (close_group demo_end).1 (close_group demo_end).2 demo_clocks_apart ltac:(vm_compute; reflexivity) ltac:(repeat constructor; done)
    ltac:(vm_compute; reflexivity) ltac:(vm_compute; reflexivity) ltac:(vm_compute; reflexivity)).
Defined.
