(* ===== verification/SchemaImport.v ===== *)
(** * Schemas from compiled C types

    Models [schema_import.py]: the walk over the DWARF description of a C type
    ([flatten]), the padding between its members ([with_padding]), the names of
    the fields, and the Schema file and layout check that are written
    ([import_schemas], [schemas], [layout_check]). SchemaImportProofs.v proves
    that the packed layout of the Schema is the layout of the C type.

    Reading ELF and DWARF is pyelftools: an object is the entries it gives
    ([object]), with the attributes of an entry as typed values, and the entry a
    reference leads to is a parameter ([die_at]). C types nest finitely, and the
    fuel counts the entries on a path. Writing the two files and the message texts
    are left out. *)

From Stdlib Require Import ZArith Lia Ascii.
From stdpp Require Import pretty.
From S2P Require Import Prelude PyFloat Json SchemaTypes Schema.
Open Scope Z_scope.

(** ** Debugging information entries *)

(** A number, or a DWARF expression that computes one. *)
Inductive number := Int (z : Z) | Expression.

(** The attributes that are read, each with its value if the entry has it. *)
Record attributes := mk_attributes {
  at_name : option string;
  at_type : option Z;
  at_byte_size : option Z;
  at_encoding : option Z;
  at_const_value : option Z;
  at_count : option number;
  at_upper_bound : option number;
  at_member_location : option number;
  at_bit_size : bool;
  at_gnu_vector : bool;
  at_declaration : bool;
}.
Definition no_attributes : attributes :=
  mk_attributes None None None None None None None None false false false.

Inductive die := Die (tag : string) (attrs : attributes) (children : list die).
Definition tag_of (d : die) : string := let 'Die t _ _ := d in t.
Definition attrs_of (d : die) : attributes := let 'Die _ a _ := d in a.
Definition iter_children (d : die) : list die := let 'Die _ _ cs := d in cs.

(** A [_Rejection], or any other exception: a missing attribute, a reference
    that leads nowhere, an expression where a number is added to. *)
Inductive walk_error :=
| WRejection (member construct : string)
| WKey (attribute : string)
| WReference
| WType
| WOutOfFuel.
Abbreviation walk := (result walk_error).

Definition attribute {A} (name : string) (a : option A) : walk A :=
  match a with Some a => Ok a | None => Err (WKey name) end.

(** ** The type walk *)

Open Scope string_scope.
Definition PAD_PREFIX : string := "_sil_pad_".
Definition BOOLEAN : Z := 2.
Definition FLOAT : Z := 4.
Definition SIGNED : list Z := [5; 6].
Definition UNSIGNED : list Z := [7; 8; 16].
Definition INT_SIZES : list Z := [1; 2; 4; 8].
Definition FLOAT_TYPES : list (Z * string) := [(4, "f32"); (8, "f64")].
Definition QUALIFIERS : list string :=
  ["DW_TAG_typedef"; "DW_TAG_const_type"; "DW_TAG_volatile_type"; "DW_TAG_restrict_type"].
Definition BASE_TYPE : string := "DW_TAG_base_type".
Definition ENUMERATION_TYPE : string := "DW_TAG_enumeration_type".
Definition STRUCTURE_TYPE : string := "DW_TAG_structure_type".
Definition ARRAY_TYPE : string := "DW_TAG_array_type".
Definition PRIMITIVE_TAGS : list string := [BASE_TYPE; ENUMERATION_TYPE].
Definition REJECTED_TAGS : list (string * string) :=
  [("DW_TAG_union_type", "union"); ("DW_TAG_pointer_type", "pointer");
   ("DW_TAG_reference_type", "reference"); ("DW_TAG_rvalue_reference_type", "reference");
   ("DW_TAG_ptr_to_member_type", "pointer to member"); ("DW_TAG_class_type", "C++ class");
   ("DW_TAG_atomic_type", "_Atomic type"); ("DW_TAG_subroutine_type", "function type")].
Close Scope string_scope.

(** [Field]: padding has no member. *)
Record ifield := mk_ifield {
  if_name : string;
  if_type : string;
  if_count : option Z;
  if_offset : Z;
  if_size : Z;
  if_member : option string;
}.

Definition float_type (size : Z) : option string :=
  snd <$> find (λ kv, kv.1 =? size) FLOAT_TYPES.

Definition join (member name : string) : string :=
  (if String.eqb member "" then name else member ++ "." ++ name)%string.

(** [_unravel]: the index of an element, last dimension fastest. *)
Definition unravel (flat : Z) (dims : list Z) : list Z :=
  (foldr (λ dim '(flat, index), (flat / dim, flat mod dim :: index)) (flat, []) dims).2.

Definition prod (dims : list Z) : Z := foldl Z.mul 1 dims.

Definition subscripts (index : list Z) : string :=
  foldr (λ i s, ("[" ++ pretty i ++ "]" ++ s)%string) ""%string index.

Section walk.
Context (die_at : Z → option die).

Definition type_of (d : die) : walk die :=
  r ← attribute "DW_AT_type" (at_type (attrs_of d));
  match die_at r with Some d => Ok d | None => Err WReference end.

Definition byte_size (d : die) : walk Z := attribute "DW_AT_byte_size" (at_byte_size (attrs_of d)).

Definition qualifies (d : die) : bool :=
  bool_decide (tag_of d ∈ QUALIFIERS) && bool_decide (is_Some (at_type (attrs_of d))).
Fixpoint unqualified (fuel : nat) (d : die) : walk die :=
  match fuel with
  | O => Err WOutOfFuel
  | S fuel => if qualifies d then d' ← type_of d; unqualified fuel d' else Ok d
  end.

Definition encoding (d : die) : walk Z := attribute "DW_AT_encoding" (at_encoding (attrs_of d)).

(** [any] over the enumerators. *)
Fixpoint any_negative (children : list die) : walk bool :=
  match children with
  | [] => Ok false
  | e :: children =>
      if String.eqb (tag_of e) "DW_TAG_enumerator" then
        v ← attribute "DW_AT_const_value" (at_const_value (attrs_of e));
        if v <? 0 then Ok true else any_negative children
      else any_negative children
  end.
Definition enum_is_signed (fuel : nat) (d : die) : walk bool :=
  match at_type (attrs_of d) with
  | Some _ =>
      t ← type_of d;
      underlying ← unqualified fuel t;
      e ← encoding underlying;
      Ok (bool_decide (e ∈ SIGNED))
  | None => any_negative (iter_children d)
  end.

Definition int_type (signed : bool) (size : Z) : string :=
  ((if signed then "i" else "u") ++ pretty (size * 8))%string.

(** [_primitive]. *)
Definition primitive (fuel : nat) (d : die) (member : string) : walk string :=
  size ← byte_size d;
  if String.eqb (tag_of d) ENUMERATION_TYPE then
    signed ← enum_is_signed fuel d;
    Ok (int_type signed size)
  else
    e ← encoding d;
    if (e =? BOOLEAN) && (size =? 1) then Ok "u8"%string
    else if bool_decide (e ∈ SIGNED ++ UNSIGNED) && bool_decide (size ∈ INT_SIZES) then
      Ok (int_type (bool_decide (e ∈ SIGNED)) size)
    else match (if e =? FLOAT then float_type size else None) with
         | Some t => Ok t
         | None =>
             let name := default ""%string (at_name (attrs_of d)) in
             Err (WRejection member (if String.eqb name "" then tag_of d else name))
         end.

(** The element count of one [DW_TAG_subrange_type]. *)
Definition subrange_count (d : die) : walk number :=
  match at_count (attrs_of d), at_upper_bound (attrs_of d) with
  | Some n, _ => Ok n
  | None, Some (Int z) => Ok (Int (z + 1))
  | None, Some Expression => Err WType
  | None, None => Ok (Int 0)
  end.
Definition dimension (member : string) (d : die) : walk Z :=
  n ← subrange_count d;
  match n with
  | Int z => if z <=? 0 then Err (WRejection member "flexible array member") else Ok z
  | Expression => Err (WRejection member "flexible array member")
  end.
Definition is_subrange (d : die) : bool := String.eqb (tag_of d) "DW_TAG_subrange_type".
Definition dimensions (d : die) (member : string) : walk (list Z) :=
  mapE (dimension member) (List.filter is_subrange (iter_children d)).

Definition member_offset (d : die) (member : string) : walk Z :=
  if at_bit_size (attrs_of d) then Err (WRejection member "bit-field")
  else match at_member_location (attrs_of d) with
       | None => Ok 0
       | Some (Int z) => Ok z
       | Some Expression => Err (WRejection member "a member offset as a DWARF expression")
       end.

(** ** [_Flattener]: the fields a type adds, in DWARF order *)

Definition leaf (fuel : nat) (d : die) (path : list string) (member : string) (offset : Z) (count : option Z)
    : walk (list ifield) :=
  if bool_decide (path = []) then Err (WRejection member "a type that is not a struct")
  else
    t ← primitive fuel d member;
    size ← byte_size d;
    let n := match count with Some n => if n =? 0 then 1 else n | None => 1 end in
    Ok [mk_ifield (String.concat "_" path) t count offset (size * n) (Some member)].

Section flatten.
Context (value : die → list string → string → Z → walk (list ifield)).

Definition is_member (d : die) : bool := String.eqb (tag_of d) "DW_TAG_member".

(** The name of a member, [None] for an anonymous one. *)
Definition member_name (d : die) : option string :=
  match at_name (attrs_of d) with
  | Some name => if String.eqb name "" then None else Some name
  | None => None
  end.
Definition under (member : string) (child : die) : string :=
  match member_name child with Some name => join member name | None => member end.

Definition struct_member (path : list string) (member : string) (offset : Z) (child : die) : walk (list ifield) :=
  let child_member := under member child in
  let child_path := path ++ option_list (member_name child) in
  relative ← member_offset child (if String.eqb child_member "" then "?" else child_member);
  t ← type_of child;
  value t child_path child_member (offset + relative).
Definition struct_fields (d : die) (path : list string) (member : string) (offset : Z) : walk (list ifield) :=
  fields ← mapE (struct_member path member offset) (List.filter is_member (iter_children d));
  Ok (concat fields).

Definition array_element (element : die) (path : list string) (member : string) (offset stride : Z) (dims : list Z)
    (flat : nat) : walk (list ifield) :=
  let index := unravel (Z.of_nat flat) dims in
  value element (path ++ (pretty <$> index)) (member ++ subscripts index)%string (offset + Z.of_nat flat * stride).
End flatten.

(** The [while] loop of [array]: the dimensions of an array of arrays. *)
Fixpoint array_dims (fuel : nat) (d : die) (member : string) : walk (list Z * die) :=
  match fuel with
  | O => Err WOutOfFuel
  | S fuel =>
      raise: WRejection member "vector type" if: at_gnu_vector (attrs_of d);;
      dims ← dimensions d member;
      t ← type_of d;
      element ← unqualified fuel t;
      if String.eqb (tag_of element) ARRAY_TYPE then
        '(more, element) ← array_dims fuel element member;
        Ok (dims ++ more, element)
      else Ok (dims, element)
  end.

(** [_Flattener.array]; [value] recurs with the same fuel. *)
Definition array_fields (value : die → list string → string → Z → walk (list ifield)) (fuel : nat) (d : die)
    (path : list string) (member : string) (offset : Z) : walk (list ifield) :=
  '(dims, element) ← array_dims fuel d member;
  if bool_decide (tag_of element ∈ PRIMITIVE_TAGS) then
    leaf fuel element path member offset (Some (prod dims))
  else match dget REJECTED_TAGS (tag_of element) with
       | Some construct => Err (WRejection member construct)
       | None =>
           stride ← byte_size element;
           fields ← mapE (array_element value element path member offset stride dims)
                      (seq 0 (Z.to_nat (prod dims)));
           Ok (concat fields)
       end.

(** [_Flattener.value], after the qualifiers are off, and whole. *)
Definition dispatch (value : die → list string → string → Z → walk (list ifield)) (fuel : nat) (d : die)
    (path : list string) (member : string) (offset : Z) : walk (list ifield) :=
  match dget REJECTED_TAGS (tag_of d) with
  | Some construct => Err (WRejection member construct)
  | None =>
      if String.eqb (tag_of d) STRUCTURE_TYPE then struct_fields value d path member offset
      else if String.eqb (tag_of d) ARRAY_TYPE then array_fields value fuel d path member offset
      else if bool_decide (tag_of d ∈ PRIMITIVE_TAGS) then leaf fuel d path member offset None
      else Err (WRejection member (tag_of d))
  end.
Fixpoint flatten (fuel : nat) (d : die) (path : list string) (member : string) (offset : Z) : walk (list ifield) :=
  match fuel with
  | O => Err WOutOfFuel
  | S fuel => d ← unqualified fuel d; dispatch (flatten fuel) fuel d path member offset
  end.
End walk.

(** ** Padding and names *)

Definition pad (offset count : Z) : ifield :=
  mk_ifield (PAD_PREFIX ++ pretty offset)%string "u8" (Some count) offset count None.

(** [sorted] by offset: stable, so an equal offset stays behind. *)
Fixpoint insert_by_offset (f : ifield) (l : list ifield) : list ifield :=
  match l with
  | [] => [f]
  | g :: l => if if_offset f <=? if_offset g then f :: g :: l else g :: insert_by_offset f l
  end.
Definition by_offset (fields : list ifield) : list ifield := foldr insert_by_offset [] fields.

(** [_with_padding], from the cursor on. *)
Fixpoint pad_from (cursor : Z) (fields : list ifield) (size : Z) : list ifield :=
  match fields with
  | [] => if cursor <? size then [pad cursor (size - cursor)] else []
  | f :: fields =>
      (if cursor <? if_offset f then [pad cursor (if_offset f - cursor)] else [])
      ++ f :: pad_from (if_offset f + if_size f) fields size
  end.
Definition with_padding (fields : list ifield) (size : Z) : list ifield := pad_from 0 (by_offset fields) size.

Inductive import_problem :=
| PNoType (c_type : string)
| PSchemaName (c_type schema : string) (d : name_defect)
| PUnsupported (c_type member construct : string)
| PNoFields (c_type : string)
| PFlattenTwice (c_type : string) (members : list string) (name : string)
| PFieldName (c_type : string) (member : option string) (name : string) (d : ident_defect)
| PNotElf
| PBigEndian.

(** The fields of each name, in the order of the first. *)
Definition group_by_name (fields : list ifield) : list (string * list ifield) :=
  foldl (λ d f, dset d (if_name f) (default [] (dget d (if_name f)) ++ [f])) [] fields.
Definition member_or_name (f : ifield) : string :=
  match if_member f with Some m => if String.eqb m "" then if_name f else m | None => if_name f end.
Definition name_problem (c_type : string) (group : string * list ifield) : list import_problem :=
  let '(name, same) := group in
  match same with
  | _ :: _ :: _ => [PFlattenTwice c_type (member_or_name <$> same) name]
  | _ => match ident_problem name with
         | Some d => [PFieldName c_type (head same ≫= if_member) name d]
         | None => []
         end
  end.
Definition name_problems (c_type : string) (fields : list ifield) : list import_problem :=
  group_by_name fields ≫= name_problem c_type.

(** ** Types by name *)

(** An object file: not ELF, big-endian, or what its debug information holds, the
    children of the top entry of each unit. *)
Inductive object := NotElf | BigEndian | LittleEndian (units : option (list (list die))).

Record type_index := mk_type_index { ti_typedefs : list (string * die); ti_structs : list (string * die) }.

Record layout := mk_layout {
  ly_c_type : string;
  ly_schema_name : string;
  ly_size : Z;
  ly_fields : list ifield;
}.

(** [ImportRejected] with its problems, or any other exception of the walk. *)
Inductive import_error := IRejected (problems : list import_problem) | ICrash (e : walk_error).
Abbreviation importing := (result import_error).

Definition crash {A} (m : walk A) : importing A :=
  match m with Ok a => Ok a | Err e => Err (ICrash e) end.

(** [dict.setdefault]. *)
Definition setdefault {V} (d : list (string * V)) (k : string) (v : V) : list (string * V) :=
  if dmem d k then d else dset d k v.

Section import.
Context (die_at : Z → option die) (fuel : nat).

Definition incomplete (d : die) : walk bool :=
  d' ← (if String.eqb (tag_of d) "DW_TAG_typedef" then unqualified die_at fuel d else Ok d);
  Ok (bool_decide (tag_of d' ∈ QUALIFIERS) || at_declaration (attrs_of d')).

Definition index_die (index : type_index) (d : die) : walk type_index :=
  match at_name (attrs_of d) with
  | None => Ok index
  | Some name =>
      i ← incomplete d;
      Ok (if (i : bool) then index
          else if String.eqb (tag_of d) "DW_TAG_typedef" then
            mk_type_index (setdefault (ti_typedefs index) name d) (ti_structs index)
          else if bool_decide (tag_of d ∈ [STRUCTURE_TYPE; "DW_TAG_union_type"%string]) then
            mk_type_index (ti_typedefs index) (setdefault (ti_structs index) name d)
          else index)
  end.
Definition index_of (units : option (list (list die))) : walk type_index :=
  foldE (foldE index_die) (mk_type_index [] []) (default [] units).

(** [_TypeIndex.find]. *)
Definition find_type (index : type_index) (name : string) : option (die * string) :=
  match dget (ti_typedefs index) name with
  | Some d => Some (d, name)
  | None => match dget (ti_structs index) name with
            | Some d => Some (d, ("struct " ++ name)%string)
            | None => None
            end
  end.

(** [_layout]. *)
Definition layout_of (index : type_index) (c_name schema_name : string) : importing layout :=
  match find_type index c_name with
  | None => Err (IRejected [PNoType c_name])
  | Some (d, spelling) =>
      let problems := option_list (PSchemaName c_name schema_name <$> schema_name_problem schema_name) in
      match flatten die_at fuel d [] "" 0 with
      | Err (WRejection member construct) => Err (IRejected (problems ++ [PUnsupported c_name member construct]))
      | Err e => Err (ICrash e)
      | Ok [] => Err (IRejected (problems ++ [PNoFields c_name]))
      | Ok leaves =>
          size ← crash (d' ← unqualified die_at fuel d; byte_size d');
          let fields := with_padding leaves size in
          let problems := problems ++ name_problems c_name fields in
          raise: IRejected problems if: negb (bool_decide (problems = []));;
          Ok (mk_layout spelling schema_name size fields)
      end
  end.

(** [import_layouts]: a rejected type does not stop the others. *)
Definition import_one (index : type_index) (acc : list layout * list import_problem) (request : string * string)
    : importing (list layout * list import_problem) :=
  match layout_of index request.1 request.2 with
  | Ok l => Ok (acc.1 ++ [l], acc.2)
  | Err (IRejected problems) => Ok (acc.1, acc.2 ++ problems)
  | Err (ICrash e) => Err (ICrash e)
  end.
Definition import_layouts (elf : object) (types : list (string * string)) : importing (list layout) :=
  match elf with
  | NotElf => Err (IRejected [PNotElf])
  | BigEndian => Err (IRejected [PBigEndian])
  | LittleEndian units =>
      index ← crash (index_of units);
      '(layouts, problems) ← foldE (import_one index) ([], []) types;
      raise: IRejected problems if: negb (bool_decide (problems = []));;
      Ok layouts
  end.
End import.

(** ** What is written *)

(** [Field.to_schema] and [schemas]. *)
Definition to_schema (f : ifield) : json :=
  JObj ([("name"%string, JStr (if_name f)); ("type"%string, JStr (if_type f))]
        ++ match if_count f with Some n => [("count"%string, JInt n)] | None => [] end).
Definition schema_of (l : layout) : json := JObj [("fields"%string, JArr (to_schema <$> ly_fields l))].
Definition schemas (layouts : list layout) : list (string * json) :=
  foldl (λ d l, dset d (ly_schema_name l) (schema_of l)) [] layouts.

(** [layout_check]: the lines of the C header. *)
Definition quoted (s : string) : string := String "034"%char (s ++ String "034"%char "").
Definition check_line (assertion : string) (value : Z) (what : string) : string :=
  ("SIL_LAYOUT_CHECK(" ++ assertion ++ " == " ++ pretty value ++ ", " ++ quoted what ++ ");")%string.
Definition member_checks (t schema : string) (f : ifield) : list string :=
  match if_member f with
  | None => []
  | Some m =>
      [check_line ("offsetof(" ++ t ++ ", " ++ m ++ ")") (if_offset f) (schema ++ ": offset of " ++ m);
       check_line ("sizeof(((" ++ t ++ " *)0)->" ++ m ++ ")") (if_size f) (schema ++ ": size of " ++ m)]%string
  end.
Definition layout_checks (l : layout) : list string :=
  ([""; "/* " ++ ly_schema_name l ++ " */";
    check_line ("sizeof(" ++ ly_c_type l ++ ")") (ly_size l) (ly_schema_name l ++ ": size of " ++ ly_c_type l)]%string
   ++ (ly_fields l ≫= member_checks (ly_c_type l) (ly_schema_name l))).
Definition layout_check (layouts : list layout) : list string :=
  (["/* Generated by sil-schema-import - do not edit.";
    " * Include the header that declares the imported types first. It";
    " * fails the build when a type no longer has the imported layout. */";
    "#pragma once"; ""; "#include <stddef.h>"; ""; "#ifdef __cplusplus";
    "#define SIL_LAYOUT_CHECK static_assert"; "#else"; "#define SIL_LAYOUT_CHECK _Static_assert"; "#endif"]%string
   ++ (layouts ≫= layout_checks) ++ [""; "#undef SIL_LAYOUT_CHECK"; ""]%string).

(** ** The command *)

Inductive import_failure :=
| FNamedTwice (schemas : list string)
| FSameIdent (schemas : list (list string))
| FImport (e : import_error).

Definition duplicates (names : list string) : list string :=
  merge_sort String.le (filter (λ s, (1 < length (filter (eq s) names))%nat) (remove_dups names)).
(** The names of one C identifier, for each that several names map to. *)
Definition by_ident (names : list string) : list (string * list string) :=
  foldl (λ d s, dset d (c_ident s) (default [] (dget d (c_ident s)) ++ [s])) [] names.
Definition collisions (names : list string) : list (list string) :=
  filter (λ l : list string, (1 < length l)%nat) (by_ident names).*2.

(** [main] without the writing: the content of the two files. *)
Definition import_schemas (die_at : Z → option die) (fuel : nat) (elf : object) (types : list (string * string))
    : result import_failure (list (string * json) * list string) :=
  let requested := types.*2 in
  raise: FNamedTwice (duplicates requested) if: negb (bool_decide (duplicates requested = []));;
  raise: FSameIdent (collisions requested) if: negb (bool_decide (collisions requested = []));;
  match import_layouts die_at fuel elf types with
  | Ok layouts => Ok (schemas layouts, layout_check layouts)
  | Err e => Err (FImport e)
  end.
