(* ===== verification/SchemaImportProofs.v ===== *)
(** * Imported Schemas have the layout of the C type

    [sized] says which DWARF entries describe a complete C type and how many
    bytes it takes, [scalar_at] which scalars such a type holds and where, and
    [designates] which of them a C expression such as [.lanes[1][0].width] is.
    [imported_layout]: the fields of an imported Schema tile the C type, and each
    is at the offset of the members it is named after. [imported_values]: a payload that is the memory of a C object gives
    exactly the values of its scalars. [import_ends]: on every C type the import
    ends, and fails in no other way than with problems, one case apart. *)

From Stdlib Require Import ZArith Lia Ascii.
From stdpp Require Import pretty.
From S2P Require Import Prelude PyFloat Json SchemaTypes Schema SchemaImport.
Import Struct.
Open Scope Z_scope.

(** ** C types, as DWARF describes them *)

Section types.
Context (die_at : Z → option die).
Local Abbreviation type_of := (type_of die_at).

Definition members (d : die) : list die := List.filter is_member (iter_children d).

(** A member at a constant offset: no bit-field, and no expression. *)
Definition located (c : die) : Prop :=
  at_bit_size (attrs_of c) = false ∧ at_member_location (attrs_of c) ≠ Some Expression.
Definition offset_of (c : die) : Z :=
  match at_member_location (attrs_of c) with Some (Int z) => z | _ => 0 end.

(** The entry under the qualifiers. *)
Inductive strips : die → die → Prop :=
| strips_none d : qualifies d = false → strips d d
| strips_one d t d' : qualifies d = true → type_of d = Ok t → strips t d' → strips d d'.

(** A base or enumeration type with the attributes DWARF gives it. *)
Definition scalar_entry (d : die) : Prop :=
  if String.eqb (tag_of d) ENUMERATION_TYPE then
    (∃ s, at_byte_size (attrs_of d) = Some s ∧ s ∈ INT_SIZES)
    ∧ match at_type (attrs_of d) with
      | Some _ => ∃ t u e, type_of d = Ok t ∧ strips t u ∧ at_encoding (attrs_of u) = Some e
      | None => ∀ c, c ∈ iter_children d → tag_of c = "DW_TAG_enumerator"%string → is_Some (at_const_value (attrs_of c))
      end
  else tag_of d = BASE_TYPE ∧ is_Some (at_encoding (attrs_of d)).

(** The bounds of an array are no expressions. *)
Definition bounds_constant (d : die) : Prop :=
  ∀ c, c ∈ iter_children d → at_upper_bound (attrs_of c) ≠ Some Expression.

Inductive sized : die → Z → Prop :=
| sized_qualified d t s : qualifies d = true → type_of d = Ok t → sized t s → sized d s
| sized_scalar d s : scalar_entry d → at_byte_size (attrs_of d) = Some s → 0 < s → sized d s
| sized_rejected d s :
    is_Some (dget REJECTED_TAGS (tag_of d)) → (∀ n, at_byte_size (attrs_of d) = Some n → s = n) → 0 ≤ s → sized d s
| sized_struct d s (ty : nat → die) (size : nat → Z) :
    tag_of d = STRUCTURE_TYPE → at_byte_size (attrs_of d) = Some s → 0 ≤ s →
    (∀ i c, members d !! i = Some c → type_of c = Ok (ty i)) →
    (∀ i c, members d !! i = Some c → sized (ty i) (size i)) →
    (∀ i c, members d !! i = Some c → located c → 0 ≤ offset_of c ∧ offset_of c + size i ≤ s) →
    (∀ i j c c', (i < j)%nat → members d !! i = Some c → members d !! j = Some c' → located c → located c' →
       offset_of c + size i ≤ offset_of c' ∨ offset_of c' + size j ≤ offset_of c) →
    sized d s
| sized_array d e n s :
    tag_of d = ARRAY_TYPE → type_of d = Ok e → sized e n →
    (∀ m dims, dimensions d m = Ok dims → s = prod dims * n) → bounds_constant d →
    (∀ k, at_byte_size (attrs_of d) = Some k → s = k) → 0 ≤ s →
    sized d s.

(** The bytes an element takes, as C's [sizeof] gives them. *)
Inductive extent : die → Z → Prop :=
| extent_qualified d t n : qualifies d = true → type_of d = Ok t → extent t n → extent d n
| extent_bytes d n :
    qualifies d = false → tag_of d ≠ ARRAY_TYPE → at_byte_size (attrs_of d) = Some n → extent d n
| extent_array d e dims n :
    tag_of d = ARRAY_TYPE → dimensions d "" = Ok dims → type_of d = Ok e → extent e n → extent d (prod dims * n).

(** The types of DWARF's encodings in Schemas. *)
Definition signed_prim (size : Z) : option prim :=
  match size with 1 => Some I8 | 2 => Some I16 | 4 => Some I32 | 8 => Some I64 | _ => None end.
Definition unsigned_prim (size : Z) : option prim :=
  match size with 1 => Some U8 | 2 => Some U16 | 4 => Some U32 | 8 => Some U64 | _ => None end.
Definition base_prim (encoding size : Z) : option prim :=
  match encoding with
  | 2 => if size =? 1 then Some U8 else None
  | 4 => match size with 4 => Some F32 | 8 => Some F64 | _ => None end
  | 5 | 6 => signed_prim size
  | 7 | 8 | 16 => unsigned_prim size
  | _ => None
  end.

(** An enumeration is signed if its underlying type is, or without one if an
    enumerator is negative. *)
Definition signed_enum (d : die) : Prop :=
  match at_type (attrs_of d) with
  | Some _ => ∃ t u e, type_of d = Ok t ∧ strips t u ∧ at_encoding (attrs_of u) = Some e ∧ e ∈ SIGNED
  | None => ∃ c v, c ∈ iter_children d ∧ tag_of c = "DW_TAG_enumerator"%string
                   ∧ at_const_value (attrs_of c) = Some v ∧ v < 0
  end.
Inductive holds : die → prim → Prop :=
| holds_base d e s p :
    tag_of d = BASE_TYPE → at_encoding (attrs_of d) = Some e → at_byte_size (attrs_of d) = Some s →
    base_prim e s = Some p → holds d p
| holds_signed d s p :
    tag_of d = ENUMERATION_TYPE → at_byte_size (attrs_of d) = Some s → signed_enum d →
    signed_prim s = Some p → holds d p
| holds_unsigned d s p :
    tag_of d = ENUMERATION_TYPE → at_byte_size (attrs_of d) = Some s → ¬ signed_enum d →
    unsigned_prim s = Some p → holds d p.

(** The type has a scalar [p] at byte [o]. *)
Inductive scalar_at : die → Z → prim → Prop :=
| at_qualified d t o p : qualifies d = true → type_of d = Ok t → scalar_at t o p → scalar_at d o p
| at_scalar d p : holds d p → scalar_at d 0 p
| at_member d c t o p :
    tag_of d = STRUCTURE_TYPE → c ∈ members d → type_of c = Ok t → scalar_at t o p →
    scalar_at d (offset_of c + o) p
| at_element d e dims n i o p :
    tag_of d = ARRAY_TYPE → dimensions d "" = Ok dims → type_of d = Ok e → extent e n →
    0 ≤ i < prod dims → scalar_at e o p → scalar_at d (i * n + o) p.

(** ** Designators *)

(** A member or an array element, as C selects it. *)
Inductive selector := Dot (name : string) | Sub (i : Z).

(** C numbers the elements of an array row by row: the last index varies fastest. *)
Fixpoint row_major (dims index : list Z) : Z :=
  match dims, index with
  | _ :: dims, i :: index => i * prod dims + row_major dims index
  | _, _ => 0
  end.
Definition valid_index (dims index : list Z) : Prop := Forall2 (λ n i, 0 ≤ i < n) dims index.

(** In an object of type [d], the selectors lead to a scalar [p] at byte [o]; the
    members of an anonymous member are selected as the type's own. *)
Inductive designates : die → list selector → Z → prim → Prop :=
| des_qualified d t sel o p : qualifies d = true → type_of d = Ok t → designates t sel o p → designates d sel o p
| des_scalar d p : holds d p → designates d [] 0 p
| des_member d c name t sel o p :
    tag_of d = STRUCTURE_TYPE → c ∈ members d → member_name c = Some name → type_of c = Ok t →
    designates t sel o p → designates d (Dot name :: sel) (offset_of c + o) p
| des_anonymous d c t sel o p :
    tag_of d = STRUCTURE_TYPE → c ∈ members d → member_name c = None → type_of c = Ok t →
    designates t sel o p → designates d sel (offset_of c + o) p
| des_element d e dims n index sel o p :
    tag_of d = ARRAY_TYPE → dimensions d "" = Ok dims → type_of d = Ok e → extent e n →
    valid_index dims index → designates e sel o p →
    designates d ((Sub <$> index) ++ sel) (row_major dims index * n + o) p.

(** A designator as C has it, and the words of it a field is named with. *)
Definition suffix (s : selector) : string :=
  (match s with Dot name => "." ++ name | Sub i => "[" ++ pretty i ++ "]" end)%string.
Definition suffixes (sel : list selector) : string := foldr (λ s text, (suffix s ++ text)%string) ""%string sel.
Definition c_text (sel : list selector) : string :=
  match sel with Dot name :: sel => (name ++ suffixes sel)%string | _ => suffixes sel end.
Definition word (s : selector) : string := match s with Dot name => name | Sub i => pretty i end.

(** In an object that the selectors [pre] lead to, at byte [off], the field is a
    scalar of type [d], or an array of them over [dims]: it has the text and the
    words of a designator, and its elements, one after another from its offset, are
    the scalars the designator leads to. *)
Definition denotes (d : die) (pre : list selector) (off : Z) (f : ifield) : Prop :=
  ∃ sel dims p,
    if_member f = Some (c_text (pre ++ sel)) ∧ if_name f = String.concat "_" (word <$> pre ++ sel)
    ∧ if_type f = prim_name p ∧ Forall (λ n, 0 < n) dims
    ∧ ((if_count f = None ∧ dims = []) ∨ if_count f = Some (prod dims))
    ∧ ∀ index, valid_index dims index →
        designates d (sel ++ (Sub <$> index)) (if_offset f - off + row_major dims index * size_of p) p.
End types.

(** ** Attributes, qualifiers and scalars *)

Lemma attribute_Ok {A} name (a : option A) x : attribute name a = Ok x ↔ a = Some x.
Proof. destruct a; cbn; naive_solver. Qed.

Section scalars.
Context (die_at : Z → option die).
Local Abbreviation type_of := (type_of die_at).
Local Abbreviation unqualified := (unqualified die_at).
Local Abbreviation strips := (strips die_at).

Lemma strips_inv d d' : strips d d' → qualifies d' = false.
Proof. by induction 1. Qed.

Lemma strips_fun d d1 d2 : strips d d1 → strips d d2 → d1 = d2.
Proof.
  intros H. revert d2. induction H as [d Hq|d t d' Hq Ht H IH]; intros d2 H2; inversion H2; subst; try congruence.
  apply IH. congruence.
Qed.

Lemma unqualified_strips m d d' : unqualified m d = Ok d' → strips d d'.
Proof.
  revert d. induction m as [|m IH]; intros d; [done|]. cbn. destruct (qualifies d) eqn:Hq.
  - intros (t & Ht & H)%bind_Ok. eapply strips_one; eauto.
  - intros [= ->]. by apply strips_none.
Qed.

Lemma strips_unqualified d d' : strips d d' → ∃ n, ∀ m, (n ≤ m)%nat → unqualified m d = Ok d'.
Proof.
  induction 1 as [d Hq|d t d' Hq Ht H [n IH]].
  - exists 1%nat. intros [|m] Hm; [lia|]. cbn. by rewrite Hq.
  - exists (S n). intros [|m] Hm; [lia|]. cbn. rewrite Hq, Ht. mcbn. apply IH. lia.
Qed.

Lemma qualifies_scalar d : tag_of d ∈ PRIMITIVE_TAGS → qualifies d = false.
Proof.
  intros H. unfold qualifies. rewrite bool_decide_false; [done|]. intros Hq. unfold PRIMITIVE_TAGS, QUALIFIERS in *.
  repeat (apply elem_of_cons in H as [H|H]; [rewrite H in Hq; revert Hq; vm_compute; set_solver|]). set_solver.
Qed.

Lemma any_negative_spec cs b :
  any_negative cs = Ok b →
  b = true ↔ ∃ (c : die) (v : Z), c ∈ cs ∧ tag_of c = "DW_TAG_enumerator"%string ∧ at_const_value (attrs_of c) = Some v ∧ v < 0.
Proof.
  revert b. induction cs as [|c cs IH]; intros b; cbn.
  { intros [= <-]. split; [done|]. intros (? & ? & ?%elem_of_nil & _). done. }
  destruct (String.eqb_spec (tag_of c) "DW_TAG_enumerator") as [Ht|Ht].
  - intros (v & Hv%attribute_Ok & H)%bind_Ok. destruct (Z.ltb_spec v 0) as [Hn|Hn].
    + injection H as <-. split; [|done]. intros _. exists c, v. split; [left|done].
    + rewrite (IH _ H). split; intros (c' & v' & Hc & Hr).
      * exists c', v'. split; [by right|done].
      * apply elem_of_cons in Hc as [->|Hc]; [|by exists c', v']. destruct Hr as (_ & Hv' & ?). rewrite Hv in Hv'. injection Hv' as <-. lia.
  - intros H. rewrite (IH _ H). split; intros (c' & v' & Hc & Hr).
    + exists c', v'. split; [by right|done].
    + apply elem_of_cons in Hc as [->|Hc]; [by destruct Hr|by exists c', v'].
Qed.

Lemma enum_is_signed_spec m d b : enum_is_signed die_at m d = Ok b → b = true ↔ signed_enum die_at d.
Proof.
  unfold enum_is_signed, signed_enum. destruct (at_type (attrs_of d)); [|apply any_negative_spec].
  intros (t & Ht & (u & Hu%unqualified_strips & (e & He%attribute_Ok & [= <-])%bind_Ok)%bind_Ok)%bind_Ok.
  rewrite bool_decide_eq_true. split; [intros Hs; by exists t, u, e|].
  intros (t' & u' & e' & Ht' & Hu' & He' & Hs). rewrite Ht in Ht'. injection Ht' as <-.
  rewrite (strips_fun _ _ _ Hu Hu') in He. congruence.
Qed.

Lemma int_type_prim (signed : bool) s :
  s ∈ INT_SIZES → ∃ p, (if signed then signed_prim s else unsigned_prim s) = Some p ∧ int_type signed s = prim_name p ∧ size_of p = s.
Proof.
  unfold INT_SIZES. intros H. destruct signed;
    repeat (apply elem_of_cons in H as [->|H]; [eexists; split; [reflexivity|split; reflexivity]|]); set_solver.
Qed.

Lemma base_primitive e s :
  e ∈ SIGNED ++ UNSIGNED → base_prim e s = if bool_decide (e ∈ SIGNED) then signed_prim s else unsigned_prim s.
Proof.
  unfold SIGNED, UNSIGNED. cbn [app]. intros H.
  repeat (apply elem_of_cons in H as [->|H]; [reflexivity|]). set_solver.
Qed.

(** A primitive that the code accepts has the type DWARF says. *)
Lemma primitive_holds m d member t :
  scalar_entry die_at d → primitive die_at m d member = Ok t →
  ∃ p, holds die_at d p ∧ t = prim_name p ∧ at_byte_size (attrs_of d) = Some (size_of p).
Proof.
  intros Hd (s & Hs%attribute_Ok & H)%bind_Ok. unfold scalar_entry in Hd.
  destruct (String.eqb_spec (tag_of d) ENUMERATION_TYPE) as [Ht|Ht].
  - destruct Hd as [(s' & Hs' & Hin) _]. rewrite Hs in Hs'. injection Hs' as <-.
    apply bind_Ok in H as (b & Hb%enum_is_signed_spec & [= <-]).
    destruct (int_type_prim b s Hin) as (p & Hp & -> & <-). exists p. split; [|done].
    destruct b; [eapply holds_signed|eapply holds_unsigned]; eauto; naive_solver.
  - destruct Hd as [Hbase _]. apply bind_Ok in H as (e & He%attribute_Ok & H). cbn beta in H.
    assert (∀ p, base_prim e s = Some p → s = size_of p → t = prim_name p →
      ∃ p, holds die_at d p ∧ t = prim_name p ∧ at_byte_size (attrs_of d) = Some (size_of p)) as Hdone.
    { intros p Hp -> ->. exists p. split; [by eapply holds_base|done]. }
    destruct ((e =? BOOLEAN) && (s =? 1)) eqn:Hbool.
    { apply andb_true_iff in Hbool as [->%Z.eqb_eq ->%Z.eqb_eq]. injection H as <-. by apply (Hdone U8). }
    destruct (bool_decide (e ∈ SIGNED ++ UNSIGNED) && bool_decide (s ∈ INT_SIZES)) eqn:Hint.
    { apply andb_true_iff in Hint as [He'%bool_decide_eq_true Hs'%bool_decide_eq_true].
      destruct (int_type_prim (bool_decide (e ∈ SIGNED)) s Hs') as (p & Hp & Heq & <-). rewrite Heq in H. injection H as <-.
      apply (Hdone p); [|done|done]. by rewrite base_primitive. }
    destruct (e =? FLOAT) eqn:Hf; [|done]. apply Z.eqb_eq in Hf as ->.
    destruct (Z.eqb_spec s 4) as [->|H4]; [injection H as <-; by apply (Hdone F32)|].
    destruct (Z.eqb_spec s 8) as [->|H8]; [injection H as <-; by apply (Hdone F64)|].
    unfold float_type, FLOAT_TYPES in H. cbn [find fst] in H.
    by rewrite (proj2 (Z.eqb_neq 4 s)), (proj2 (Z.eqb_neq 8 s)) in H by lia.
Qed.

Lemma holds_scalar d p : holds die_at d p → tag_of d ∈ PRIMITIVE_TAGS.
Proof. unfold PRIMITIVE_TAGS. destruct 1 as [? ? ? ? H|? ? ? H|? ? ? H]; rewrite H; set_solver. Qed.

Lemma holds_fun d p p' : holds die_at d p → holds die_at d p' → p = p'.
Proof. assert (BASE_TYPE ≠ ENUMERATION_TYPE) by done. destruct 1; inversion 1; subst; try done; congruence. Qed.
End scalars.

(** ** Fields in memory *)

Definition count_of (f : ifield) : Z := default 1 (if_count f).
Definition leaf_ok (f : ifield) : Prop :=
  ∃ p, if_type f = prim_name p ∧ 0 < count_of f ∧ if_size f = size_of p * count_of f.
Definition within (lo n : Z) (f : ifield) : Prop := lo ≤ if_offset f ∧ if_offset f + if_size f ≤ lo + n.
Definition apart (f g : ifield) : Prop :=
  if_offset f + if_size f ≤ if_offset g ∨ if_offset g + if_size g ≤ if_offset f.
(** The field has an element of type [p] at byte [o]. *)
Definition field_at (f : ifield) (o : Z) (p : prim) : Prop :=
  if_type f = prim_name p ∧ ∃ i, 0 ≤ i < count_of f ∧ o = if_offset f + i * size_of p.

Lemma FOP_app {A} (R : A → A → Prop) l1 l2 :
  ForallOrdPairs R (l1 ++ l2) ↔
  ForallOrdPairs R l1 ∧ ForallOrdPairs R l2 ∧ ∀ x y, x ∈ l1 → y ∈ l2 → R x y.
Proof.
  induction l1 as [|x l1 IH]; cbn.
  { split; [intros H; split; [constructor|split; [done|intros ? ? ?%elem_of_nil; done]]|naive_solver]. }
  split.
  - inversion 1 as [|? ? Hx Hl]; subst. apply IH in Hl as (H1 & H2 & H3).
    rewrite List.Forall_app in Hx. destruct Hx as [Hx1 Hx2].
    split; [by constructor|]. split; [done|]. intros a b [->|Ha]%elem_of_cons Hb; [|by apply H3].
    by apply (proj1 (Forall_forall _ _) Hx2).
  - intros (H1 & H2 & H3). inversion H1 as [|? ? Hx Hl]; subst. constructor.
    + apply List.Forall_app. split; [done|]. apply Forall_forall. intros y Hy. apply H3; [left|done].
    + apply IH. split; [done|]. split; [done|]. intros a b Ha Hb. apply H3; [by right|done].
Qed.

(** Fields in disjoint boxes are disjoint. *)
Lemma boxes (parts : list (list ifield)) (lo n : nat → Z) :
  (∀ i fs, parts !! i = Some fs → Forall (within (lo i) (n i)) fs ∧ ForallOrdPairs apart fs) →
  (∀ i j fs fs', (i < j)%nat → parts !! i = Some fs → parts !! j = Some fs' →
     lo i + n i ≤ lo j ∨ lo j + n j ≤ lo i) →
  ForallOrdPairs apart (concat parts).
Proof.
  revert lo n. induction parts as [|fs parts IH]; intros lo n Hin Hd; cbn; [constructor|].
  apply FOP_app. split; [by apply (Hin 0%nat)|]. split.
  - apply (IH (λ i, lo (S i)) (λ i, n (S i))); [intros i; apply (Hin (S i))|].
    intros i j fs1 fs2 Hij. apply (Hd (S i) (S j)). lia.
  - intros f g Hf (fs' & Hg & [j Hj]%list_elem_of_lookup)%elem_of_concat.
    pose proof (proj1 (Forall_forall _ _) (proj1 (Hin 0%nat fs eq_refl)) f Hf) as Hwf. unfold within in Hwf.
    pose proof (proj1 (Forall_forall _ _) (proj1 (Hin (S j) fs' Hj)) g Hg) as Hwg. unfold within in Hwg.
    destruct (Hd 0%nat (S j) fs fs' ltac:(lia) eq_refl Hj); unfold apart; lia.
Qed.

Lemma Forall_parts {A} (P : A → Prop) (parts : list (list A)) :
  (∀ i fs, parts !! i = Some fs → Forall P fs) → Forall P (concat parts).
Proof.
  intros H. apply Forall_forall. intros x (fs & Hx & [i Hi]%list_elem_of_lookup)%elem_of_concat.
  by apply (proj1 (Forall_forall _ _) (H i fs Hi)).
Qed.

Lemma prod_cons d dims : prod (d :: dims) = d * prod dims.
Proof.
  unfold prod. cbn [foldl]. assert (∀ a, foldl Z.mul a dims = a * foldl Z.mul 1 dims) as H.
  { induction dims as [|x dims IH]; intros a; cbn [foldl]; [lia|]. rewrite IH, (IH (1 * x)). ring. }
  rewrite H. f_equal. lia.
Qed.
Lemma prod_app d1 d2 : prod (d1 ++ d2) = prod d1 * prod d2.
Proof. induction d1 as [|x d1 IH]; cbn [app]; [unfold prod at 2; cbn [foldl]; lia|]. rewrite !prod_cons, IH. ring. Qed.
Lemma prod_pos dims : Forall (λ d, 0 < d) dims → 0 < prod dims.
Proof. induction 1; [done|]. rewrite prod_cons. nia. Qed.

Lemma dimension_member m m' c z : dimension m c = Ok z → dimension m' c = Ok z ∧ 0 < z.
Proof.
  unfold dimension. intros (n & -> & H)%bind_Ok. mcbn. destruct n as [x|]; [|done].
  destruct (Z.leb_spec x 0); [done|]. injection H as <-. by split.
Qed.
Lemma dimensions_member m m' d dims :
  dimensions d m = Ok dims → dimensions d m' = Ok dims ∧ Forall (λ z, 0 < z) dims.
Proof.
  unfold dimensions. rewrite !mapE_Ok. induction 1 as [|c z cs zs Hc _ [IH1 IH2]]; [split; constructor|].
  destruct (dimension_member _ m' _ _ Hc). split; by constructor.
Qed.

(** ** Indices and designators *)

Lemma row_major_range dims index : valid_index dims index → 0 ≤ row_major dims index < prod dims.
Proof.
  induction 1 as [|n i dims index Hi _ IH]; [by vm_compute|]. rewrite prod_cons. cbn [row_major]. nia.
Qed.
Lemma row_major_app d1 d2 i1 i2 :
  valid_index d1 i1 → row_major (d1 ++ d2) (i1 ++ i2) = row_major d1 i1 * prod d2 + row_major d2 i2.
Proof.
  induction 1 as [|n i dims index _ _ IH]; cbn [app row_major]; [lia|]. rewrite IH, prod_app. ring.
Qed.

(** [unravel] inverts the numbering. *)
Lemma unravel_row_major dims flat :
  Forall (λ n, 0 < n) dims → 0 ≤ flat < prod dims →
  valid_index dims (unravel flat dims) ∧ row_major dims (unravel flat dims) = flat.
Proof.
  intros Hd Hf. unfold unravel. set (step := λ dim '(flat, index), (flat / dim, flat mod dim :: index)).
  assert (valid_index dims (foldr step (flat, []) dims).2
    ∧ flat = (foldr step (flat, []) dims).1 * prod dims + row_major dims (foldr step (flat, []) dims).2) as [Hv Heq].
  { clear Hf. induction Hd as [|n dims Hn Hd [IH1 IH2]]; cbn [foldr row_major]; [split; [constructor|unfold prod; cbn; lia]|].
    destruct (foldr step (flat, []) dims) as [q index]. cbn [fst snd] in *. split.
    - constructor; [by apply Z.mod_pos_bound|done].
    - unfold step. cbn [fst snd]. rewrite prod_cons, IH2. pose proof (Z.div_mod q n ltac:(lia)) as E. rewrite E at 1. ring. }
  split; [done|]. pose proof (row_major_range _ _ Hv). destruct (foldr step (flat, []) dims) as [q index].
  cbn [fst snd] in *. assert (q = 0) as -> by nia. lia.
Qed.

Lemma str_assoc (a b c : string) : ((a ++ b) ++ c)%string = (a ++ b ++ c)%string.
Proof. induction a as [|x a IH]; [done|exact (f_equal (String x) IH)]. Qed.
Lemma str_nil_r (a : string) : (a ++ "")%string = a.
Proof. induction a as [|x a IH]; [done|exact (f_equal (String x) IH)]. Qed.

Lemma suffixes_cons s sel : suffixes (s :: sel) = (suffix s ++ suffixes sel)%string.
Proof. done. Qed.
Lemma subscripts_cons i index : subscripts (i :: index) = ("[" ++ pretty i ++ "]" ++ subscripts index)%string.
Proof. done. Qed.
Lemma suffixes_app a b : suffixes (a ++ b) = (suffixes a ++ suffixes b)%string.
Proof. induction a as [|s a IH]; [done|]. rewrite <- app_comm_cons, !suffixes_cons, IH. by rewrite str_assoc. Qed.
Lemma suffixes_subs index : suffixes (Sub <$> index) = subscripts index.
Proof. induction index as [|i index IH]; [done|]. rewrite fmap_cons, suffixes_cons, IH, subscripts_cons. cbn [suffix]. by rewrite !str_assoc. Qed.

(** Members of a designator have names. *)
Definition named (sel : list selector) : Prop := Forall (λ s, s ≠ Dot "") sel.

Lemma c_text_empty sel : named sel → c_text sel = ""%string → sel = [].
Proof.
  intros Hn. destruct sel as [|[name|i] sel]; [done| |done]. apply Forall_cons in Hn as [Hn _].
  destruct name as [|c name]; [by destruct Hn|done].
Qed.
Lemma c_text_subs sel index : c_text (sel ++ (Sub <$> index)) = (c_text sel ++ subscripts index)%string.
Proof.
  destruct sel as [|[name|i] sel]; cbn [app c_text].
  - rewrite <- suffixes_subs. by destruct index.
  - by rewrite suffixes_app, suffixes_subs, str_assoc.
  - by rewrite app_comm_cons, suffixes_app, suffixes_subs.
Qed.
Lemma c_text_dot sel name : named sel → c_text (sel ++ [Dot name]) = join (c_text sel) name.
Proof.
  intros Hn. unfold join. destruct (String.eqb_spec (c_text sel) "") as [->%(c_text_empty _ Hn)|Hne]; [apply str_nil_r|].
  destruct sel as [|[x|i] sel]; [by destruct Hne| |]; cbn [app c_text].
  - rewrite suffixes_app, suffixes_cons. cbn [suffix suffixes foldr]. by rewrite str_nil_r, str_assoc.
  - rewrite app_comm_cons, suffixes_app, (suffixes_cons (Dot name)). cbn [suffix]. by rewrite str_nil_r.
Qed.

(** ** Facts of sized types *)

Section geometry.
Context (die_at : Z → option die).
Local Abbreviation type_of := (type_of die_at).
Local Abbreviation strips := (strips die_at).
Local Abbreviation sized := (sized die_at).
Local Abbreviation extent := (extent die_at).
Local Abbreviation scalar_at := (scalar_at die_at).
Local Abbreviation holds := (holds die_at).

(** Each kind of entry is told from the others by its tag. *)
Lemma plain_tag d : tag_of d ∉ QUALIFIERS → qualifies d = false.
Proof. intros H. unfold qualifies. by rewrite bool_decide_false. Qed.
Lemma struct_facts d : tag_of d = STRUCTURE_TYPE →
  qualifies d = false ∧ dget REJECTED_TAGS (tag_of d) = None ∧ tag_of d ≠ ARRAY_TYPE ∧ tag_of d ∉ PRIMITIVE_TAGS.
Proof.
  intros H. split; [apply plain_tag|]; rewrite H; [vm_compute; set_solver|]. do 2 (split; [done|]). vm_compute. set_solver.
Qed.
Lemma array_facts d : tag_of d = ARRAY_TYPE →
  qualifies d = false ∧ dget REJECTED_TAGS (tag_of d) = None ∧ tag_of d ≠ STRUCTURE_TYPE ∧ tag_of d ∉ PRIMITIVE_TAGS.
Proof.
  intros H. split; [apply plain_tag|]; rewrite H; [vm_compute; set_solver|]. do 2 (split; [done|]). vm_compute. set_solver.
Qed.
Lemma scalar_facts d : tag_of d ∈ PRIMITIVE_TAGS →
  qualifies d = false ∧ dget REJECTED_TAGS (tag_of d) = None ∧ tag_of d ≠ STRUCTURE_TYPE ∧ tag_of d ≠ ARRAY_TYPE.
Proof.
  intros H. split; [by apply qualifies_scalar|]. unfold PRIMITIVE_TAGS in H.
  repeat (apply elem_of_cons in H as [->|H]; [done|]). set_solver.
Qed.
Lemma rejected_facts d c : dget REJECTED_TAGS (tag_of d) = Some c →
  qualifies d = false ∧ tag_of d ≠ STRUCTURE_TYPE ∧ tag_of d ≠ ARRAY_TYPE ∧ tag_of d ∉ PRIMITIVE_TAGS.
Proof.
  intros Hr. split_and!; [|intros H; rewrite H in Hr; vm_compute in Hr; done..|].
  - apply plain_tag. unfold QUALIFIERS. intros H.
    repeat (apply elem_of_cons in H as [H|H]; [rewrite H in Hr; vm_compute in Hr; done|]). set_solver.
  - unfold PRIMITIVE_TAGS. intros H.
    repeat (apply elem_of_cons in H as [H|H]; [rewrite H in Hr; vm_compute in Hr; done|]). set_solver.
Qed.
Lemma scalar_entry_tag d : scalar_entry die_at d → tag_of d ∈ PRIMITIVE_TAGS.
Proof.
  unfold scalar_entry, PRIMITIVE_TAGS. destruct (String.eqb_spec (tag_of d) ENUMERATION_TYPE) as [->|_]; [set_solver|].
  intros [-> _]. set_solver.
Qed.

(** Closes a goal in which an entry has two kinds. *)
Ltac clash :=
  exfalso;
  repeat match goal with
  | H : scalar_entry _ _ |- _ => apply scalar_entry_tag in H
  | H : holds _ _ |- _ => apply holds_scalar in H
  | H : is_Some (dget REJECTED_TAGS _) |- _ => destruct H
  end;
  match goal with
  | H : tag_of _ = STRUCTURE_TYPE |- _ => destruct (struct_facts _ H) as (? & ? & ? & ?); solve [congruence|contradiction]
  | H : tag_of _ = ARRAY_TYPE |- _ => destruct (array_facts _ H) as (? & ? & ? & ?); solve [congruence|contradiction]
  | H : tag_of _ ∈ PRIMITIVE_TAGS |- _ => destruct (scalar_facts _ H) as (? & ? & ? & ?); solve [congruence|contradiction]
  | H : dget REJECTED_TAGS _ = Some _ |- _ => destruct (rejected_facts _ _ H) as (? & ? & ? & ?); solve [congruence|contradiction]
  end.

Lemma extent_sized d s n : sized d s → extent d n → n = s.
Proof.
  intros H. revert n. induction H as [d t s Hq Ht _ IH|d s Hd Hs _|d s Hr Hs _|d s ty size Hg Hs _ _ _ _ _ _|d e k s Hg He _ IH Hs _ _ _];
    intros n Hn; inversion Hn; subst; try clash; try congruence.
  - apply IH. congruence.
  - symmetry. by apply Hs.
  - match goal with H : type_of d = Ok ?e', H2 : extent ?e' _ |- _ => rewrite He in H; injection H as <-; rewrite (IH _ H2) end.
    symmetry. by eapply Hs.
Qed.

Lemma sized_qualifies d t s : qualifies d = true → type_of d = Ok t → sized d s → sized t s.
Proof. intros Hq Ht Hs. inversion Hs; subst; try clash. congruence. Qed.
Lemma sized_strips d d' s : sized d s → strips d d' → sized d' s.
Proof.
  intros Hs Hd. revert Hs. induction Hd as [d Hq|d t d' Hq Ht _ IH]; [done|]. intros Hs. by eapply IH, sized_qualifies.
Qed.

Lemma scalar_extent d s o p : sized d s → scalar_at d o p → extent d s.
Proof.
  intros Hs H. revert s Hs. induction H as [d t o p Hq Ht _ IH|d p Hh|d c t o p Hg Hc Ht _ _|d e dims n i o p Hg Hd He Hn Hi _ _]; intros s Hs.
  - eapply extent_qualified; [done..|]. by eapply IH, sized_qualifies.
  - assert (∃ n, at_byte_size (attrs_of d) = Some n) as [n Hn] by (destruct Hh; eauto).
    apply holds_scalar, scalar_facts in Hh as (Hq & _ & _ & Ha). assert (extent d n) as He by (by apply extent_bytes).
    by rewrite <- (extent_sized _ _ _ Hs He).
  - destruct (struct_facts _ Hg) as (Hq & _ & Ha & _). inversion Hs; subst; try clash. by apply extent_bytes.
  - assert (extent d (prod dims * n)) as Hx by (by eapply extent_array). by rewrite <- (extent_sized _ _ _ Hs Hx).
Qed.

Lemma scalar_at_qualified d t o p : qualifies d = true → type_of d = Ok t → scalar_at d o p ↔ scalar_at t o p.
Proof. intros Hq Ht. split; [|by intros; eapply at_qualified]. inversion 1; subst; try clash. congruence. Qed.
Lemma scalar_at_strips d d' o p : strips d d' → scalar_at d o p ↔ scalar_at d' o p.
Proof. induction 1 as [|d t d' Hq Ht _ IH]; [done|]. by rewrite scalar_at_qualified. Qed.

(** ** The fields of a type *)

Local Abbreviation flatten := (flatten die_at).
Local Abbreviation dispatch := (λ m, dispatch die_at (flatten m) m).

(** The fields are in the bytes of the type, apart from each other, and their
    elements are its scalars. *)
Record good (d : die) (off s : Z) (fields : list ifield) : Prop := mk_good {
  gd_leaves : Forall leaf_ok fields;
  gd_members : Forall (λ f, is_Some (if_member f)) fields;
  gd_within : Forall (within off s) fields;
  gd_apart : ForallOrdPairs apart fields;
  gd_scalars : ∀ o p, scalar_at d o p ↔ ∃ f, f ∈ fields ∧ field_at f (off + o) p;
}.

Definition flattens (d : die) (s : Z) : Prop :=
  ∀ d', strips d d' → ∀ m path member off fields, dispatch m d' path member off = Ok fields → good d' off s fields.

Lemma flatten_good d s m path member off fields :
  flattens d s → flatten m d path member off = Ok fields → good d off s fields.
Proof.
  intros Hd. destruct m as [|m]; [done|]. cbn [SchemaImport.flatten].
  intros (d' & Hu%unqualified_strips & H)%bind_Ok. destruct (Hd d' Hu _ _ _ _ _ H) as [? ? ? ? Hs].
  split; [done..|]. intros o p. by rewrite scalar_at_strips.
Qed.

(** A scalar, or an array of them. *)
Lemma leaf_good d s m path member off count fields (n := default 1 count) :
  scalar_entry die_at d → at_byte_size (attrs_of d) = Some s → 0 < n →
  leaf die_at m d path member off count = Ok fields →
  ∃ f, fields = [f] ∧ leaf_ok f ∧ is_Some (if_member f) ∧ if_offset f = off ∧ if_size f = s * n
       ∧ ∀ o p, field_at f (off + o) p ↔ holds d p ∧ ∃ i, 0 ≤ i < n ∧ o = i * s.
Proof.
  intros Hd Hs Hn. unfold leaf. case_bool_decide; [done|].
  intros (t & Ht & (s' & Hs'%attribute_Ok & [= <-])%bind_Ok)%bind_Ok. rewrite Hs in Hs'. injection Hs' as <-.
  destruct (primitive_holds _ _ _ _ _ Hd Ht) as (p & Hp & -> & Hps). rewrite Hs in Hps. injection Hps as ->.
  assert (match count with Some n => if n =? 0 then 1 else n | None => 1 end = n) as Hcount.
  { subst n. destruct count as [z|]; [|done]. cbn [default] in Hn. destruct (Z.eqb_spec z 0); [|done]. unfold default, from_option, id in Hn. lia. }
  rewrite Hcount. eexists. split; [done|]. split; [by exists p|]. split; [by eexists|]. do 2 (split; [done|]).
  intros o p'. unfold field_at, count_of. cbn. fold n. split.
  - intros [Hpp (i & Hi & Ho)]. assert (Some p = Some p') as [= <-].
    { rewrite <- !prim_of_name_name. by rewrite Hpp. }
    split; [done|]. exists i. lia.
  - intros [Hp' (i & Hi & ->)]. rewrite <- (holds_fun _ _ _ _ Hp Hp'). split; [done|]. exists i. lia.
Qed.

Lemma scalar_at_scalar d o p : tag_of d ∈ PRIMITIVE_TAGS → scalar_at d o p ↔ o = 0 ∧ holds d p.
Proof.
  intros Ht. split; [|intros [-> ?]; by apply at_scalar]. by inversion 1; subst; try clash.
Qed.

Lemma scalar_flattens d s : scalar_entry die_at d → at_byte_size (attrs_of d) = Some s → 0 < s → flattens d s.
Proof.
  intros Hd Hs Hpos d' Hst m path member off fields. pose proof (scalar_entry_tag _ Hd) as Ht.
  destruct (scalar_facts _ Ht) as (Hq & Hr & Hg & Ha).
  rewrite <- (strips_fun _ _ _ _ (strips_none _ _ Hq) Hst). clear Hst d'. cbn beta. unfold SchemaImport.dispatch.
  rewrite Hr, (proj2 (String.eqb_neq _ _) Hg), (proj2 (String.eqb_neq _ _) Ha), bool_decide_true by done.
  intros (f & -> & Hf & Hm & Ho & Hsz & Hat)%(leaf_good _ s); [|done|done|done]. cbn in Hsz.
  split; [by apply Forall_singleton..|apply Forall_singleton; unfold within; lia|by repeat constructor|].
  intros o p. rewrite scalar_at_scalar by done. setoid_rewrite list_elem_of_singleton. split.
  - intros [-> Hh]. exists f. split; [done|]. apply Hat. split; [done|]. exists 0. cbn. lia.
  - intros (? & -> & [Hh (i & Hi & ->)]%Hat). cbn in Hi. split; [lia|done].
Qed.

Lemma struct_scalars d o p :
  tag_of d = STRUCTURE_TYPE → scalar_at d o p →
  ∃ c t o', c ∈ members d ∧ type_of c = Ok t ∧ scalar_at t o' p ∧ o = offset_of c + o'.
Proof. intros Hg. inversion 1; subst; try clash. by do 3 eexists. Qed.

Lemma struct_flattens d s (ty : nat → die) (size : nat → Z) :
  tag_of d = STRUCTURE_TYPE →
  (∀ i c, members d !! i = Some c → type_of c = Ok (ty i)) →
  (∀ i c, members d !! i = Some c → flattens (ty i) (size i)) →
  (∀ i c, members d !! i = Some c → located c → 0 ≤ offset_of c ∧ offset_of c + size i ≤ s) →
  (∀ i j c c', (i < j)%nat → members d !! i = Some c → members d !! j = Some c' → located c → located c' →
     offset_of c + size i ≤ offset_of c' ∨ offset_of c' + size j ≤ offset_of c) →
  flattens d s.
Proof.
  intros Hg Hty IH Hin Hap d' Hst m path member off fields. destruct (struct_facts _ Hg) as (Hq & Hr & _).
  rewrite <- (strips_fun _ _ _ _ (strips_none _ _ Hq) Hst). clear Hst d'. cbn beta. unfold SchemaImport.dispatch.
  rewrite Hr, Hg, String.eqb_refl. unfold struct_fields. intros (parts & Hp%mapE_Ok & [= <-])%bind_Ok. fold (members d) in Hp.
  assert (∀ i c fs, members d !! i = Some c → parts !! i = Some fs →
    located c ∧ good (ty i) (off + offset_of c) (size i) fs) as Hpart.
  { intros i c fs Hc Hf. pose proof (Forall2_lookup_lr _ _ _ _ _ _ Hp Hc Hf) as H. unfold struct_member in H.
    apply bind_Ok in H as (r & Hr' & (t & Ht & H)%bind_Ok). rewrite (Hty i c Hc) in Ht. injection Ht as <-.
    assert (located c ∧ r = offset_of c) as [Hl ->].
    { unfold member_offset in Hr'. unfold located, offset_of. destruct (at_bit_size _); [done|].
      destruct (at_member_location _) as [[z|]|]; [|done|]; injection Hr' as <-; done. }
    split; [done|]. eapply flatten_good; [by eapply IH|exact H]. }
  assert (∀ i fs, parts !! i = Some fs → ∃ c, members d !! i = Some c) as Hmem.
  { intros i fs Hi. destruct (Forall2_lookup_r _ _ _ _ _ Hp Hi) as (c & Hc & _). by exists c. }
  split.
  - apply Forall_parts. intros i fs Hi. destruct (Hmem _ _ Hi) as [c Hc]. by apply (Hpart i c fs).
  - apply Forall_parts. intros i fs Hi. destruct (Hmem _ _ Hi) as [c Hc]. by apply (Hpart i c fs).
  - apply Forall_parts. intros i fs Hi. destruct (Hmem _ _ Hi) as [c Hc]. destruct (Hpart i c fs Hc Hi) as [Hl [_ _ Hw _ _]].
    eapply Forall_impl; [exact Hw|]. intros f. pose proof (Hin i c Hc Hl). unfold within. lia.
  - apply (boxes parts (λ i, off + default 0 (offset_of <$> members d !! i)) size).
    + intros i fs Hi. destruct (Hmem _ _ Hi) as [c Hc]. rewrite Hc. by destruct (Hpart i c fs Hc Hi) as [_ [_ _ ? ? _]].
    + intros i j fs fs' Hij Hi Hj. destruct (Hmem _ _ Hi) as [c Hc]. destruct (Hmem _ _ Hj) as [c' Hc']. rewrite Hc, Hc'. cbn.
      destruct (Hap i j c c' Hij Hc Hc'); [by apply (Hpart i c fs)|by apply (Hpart j c' fs')|lia..].
  - intros o p. split.
    + intros (c & t & o' & Hc & Ht & Hs & ->)%(struct_scalars _ _ _ Hg). apply list_elem_of_lookup in Hc as [i Hc].
      destruct (Forall2_lookup_l _ _ _ _ _ Hp Hc) as (fs & Hi & _). destruct (Hpart i c fs Hc Hi) as [_ [_ _ _ _ Hsc]].
      assert (t = ty i) as -> by (rewrite (Hty i c Hc) in Ht; congruence).
      destruct (proj1 (Hsc _ _) Hs) as (f & Hf & Hat). exists f.
      split; [apply elem_of_concat; exists fs; split; [done|by eapply list_elem_of_lookup_2]|]. by rewrite Z.add_assoc.
    + intros (f & (fs & Hf & [i Hi]%list_elem_of_lookup)%elem_of_concat & Hat). destruct (Hmem _ _ Hi) as [c Hc].
      destruct (Hpart i c fs Hc Hi) as [_ [_ _ _ _ Hsc]]. replace o with (offset_of c + (o - offset_of c)) by lia.
      apply at_member with (ty i); [done|by eapply list_elem_of_lookup_2|by eapply Hty|]. apply Hsc. exists f. split; [done|].
      by replace (off + offset_of c + (o - offset_of c)) with (off + o) by lia.
Qed.

(** ** Arrays *)

Record array_of (d : die) (dims : list Z) (el : die) (n : Z) : Prop := mk_array_of {
  ao_plain : qualifies el = false;
  ao_element : tag_of el ≠ ARRAY_TYPE;
  ao_dims : Forall (λ z, 0 < z) dims;
  ao_sized : sized el n;
  ao_flattens : flattens el n;
  ao_scalars : ∀ o p, scalar_at d o p ↔ ∃ i o', 0 ≤ i < prod dims ∧ scalar_at el o' p ∧ o = i * n + o';
}.
Definition unrolls (d : die) (s : Z) : Prop :=
  ∀ d', strips d d' → tag_of d' = ARRAY_TYPE → ∀ m member dims el, array_dims die_at m d' member = Ok (dims, el) →
  ∃ n, array_of d' dims el n ∧ s = prod dims * n.

Lemma array_scalars d e dims n o p :
  tag_of d = ARRAY_TYPE → dimensions d "" = Ok dims → type_of d = Ok e → sized e n →
  scalar_at d o p ↔ ∃ i o', 0 ≤ i < prod dims ∧ scalar_at e o' p ∧ o = i * n + o'.
Proof.
  intros Ha Hd He Hn. split.
  - inversion 1; subst; try clash.
    match goal with H : dimensions d "" = Ok ?x, H1 : type_of d = Ok ?y |- _ => rewrite Hd in H; injection H as <-; rewrite He in H1; injection H1 as <- end.
    match goal with H : extent e _ |- _ => rewrite (extent_sized _ _ _ Hn H) in * end. by do 2 eexists.
  - intros (i & o' & Hi & Ho & ->). eapply at_element; eauto using scalar_extent.
Qed.

(** An array of arrays counts its elements row by row. *)
Lemma nested_scalars (S : Z → Prop) a b n o :
  0 < b → (∃ i o1, 0 ≤ i < a ∧ (∃ j o', 0 ≤ j < b ∧ S o' ∧ o1 = j * n + o') ∧ o = i * (b * n) + o1)
  ↔ ∃ k o', 0 ≤ k < a * b ∧ S o' ∧ o = k * n + o'.
Proof.
  intros Hb. split.
  - intros (i & o1 & Hi & (j & o' & Hj & Ho' & ->) & ->). exists (i * b + j), o'. split; [nia|]. split; [done|]. ring.
  - intros (k & o' & Hk & Ho' & ->). exists (k / b), (k mod b * n + o'). pose proof (Z.mod_pos_bound k b Hb).
    pose proof (Z.div_mod k b). split.
    { split; [apply Z.div_pos; lia|]. apply Z.div_lt_upper_bound; lia. }
    split; [by exists (k mod b), o'|]. rewrite H0 at 1 by lia. ring.
Qed.

Lemma array_unrolls d e n s :
  tag_of d = ARRAY_TYPE → type_of d = Ok e → sized e n → flattens e n → unrolls e n →
  (∀ m dims, dimensions d m = Ok dims → s = prod dims * n) → unrolls d s.
Proof.
  intros Ha He Hn Hf Hu Hs d' Hst _ m member dims el. destruct (array_facts _ Ha) as (Hq & _).
  rewrite <- (strips_fun _ _ _ _ (strips_none _ _ Hq) Hst). clear Hst d'. destruct m as [|m]; [done|]. cbn [array_dims].
  intros (_ & _ & (d1 & Hd1 & H)%bind_Ok)%bind_Ok. rewrite He in H. mcbn. cbn [mbind result_bind] in H.
  apply bind_Ok in H as (el1 & Hel%unqualified_strips & H). pose proof (Hs _ _ Hd1) as Hsize.
  destruct (dimensions_member _ "" _ _ Hd1) as [Hd Hpos].
  assert (∀ o p, scalar_at d o p ↔ ∃ i o', 0 ≤ i < prod d1 ∧ scalar_at el1 o' p ∧ o = i * n + o') as Hsc.
  { intros o p. rewrite (array_scalars d e d1 n) by done. by setoid_rewrite (scalar_at_strips e el1 _ p Hel). }
  destruct (String.eqb_spec (tag_of el1) ARRAY_TYPE) as [Ha1|Ha1].
  - apply bind_Ok in H as ([more el'] & Hm & [= <- <-]). destruct (Hu _ Hel Ha1 _ _ _ _ Hm) as (n' & [A1 A2 A3 A4 A5 A6] & ->).
    pose proof (prod_pos _ A3). exists n'. rewrite prod_app. split; [|by rewrite Hsize, Z.mul_assoc]. split; [done..|by apply Forall_app|done|done|].
    intros o p. rewrite Hsc, prod_app, <- (nested_scalars (λ o, scalar_at el' o p)) by done. by setoid_rewrite A6.
  - injection H as <- <-. exists n. split; [|done]. split; [by eapply strips_inv|done..|by eapply sized_strips| |done].
    intros d' Hd'. apply Hf. rewrite <- (strips_fun _ _ _ _ (strips_none _ _ (strips_inv _ _ _ Hel)) Hd'). done.
Qed.

Lemma sized_nonneg d s : sized d s → 0 ≤ s.
Proof. induction 1; lia. Qed.

Lemma sized_bytes d s n : sized d s → qualifies d = false → at_byte_size (attrs_of d) = Some n → n = s.
Proof. inversion 1; subst; intros; try congruence; symmetry; auto. Qed.

Lemma array_flattens d s : tag_of d = ARRAY_TYPE → unrolls d s → flattens d s.
Proof.
  intros Ha Hu d' Hst m path member off fields. destruct (array_facts _ Ha) as (Hq & Hr & Hg & _).
  rewrite <- (strips_fun _ _ _ _ (strips_none _ _ Hq) Hst). clear Hst d'. cbn beta. unfold SchemaImport.dispatch.
  rewrite Hr, (proj2 (String.eqb_neq _ _) Hg), Ha, String.eqb_refl. unfold array_fields.
  intros ([dims el] & Hd & H)%bind_Ok. destruct (Hu _ (strips_none _ _ Hq) Ha _ _ _ _ Hd) as (n & [A1 A2 A3 A4 A5 A6] & ->).
  pose proof (prod_pos _ A3) as Hpos. pose proof (sized_nonneg _ _ A4) as Hn. case_bool_decide as Ht.
  - assert (scalar_entry die_at el ∧ at_byte_size (attrs_of el) = Some n) as [Hel Hs] by (inversion A4; subst; try clash; done).
    destruct (leaf_good el n _ _ _ _ (Some (prod dims)) _ Hel Hs Hpos H) as (f & -> & Hf & Hm & Ho & Hsz & Hat). cbn in Hsz.
    split; [by apply Forall_singleton..|apply Forall_singleton; unfold within; lia|by repeat constructor|].
    intros o p. rewrite A6. setoid_rewrite list_elem_of_singleton. split.
    + intros (i & o' & Hi & [-> Hh]%scalar_at_scalar & ->); [|done]. exists f. split; [done|]. apply Hat. split; [done|]. exists i. cbn. lia.
    + intros (? & -> & [Hh (i & Hi & ->)]%Hat). exists i, 0. split; [done|]. split; [by apply at_scalar|lia].
  - destruct (dget REJECTED_TAGS (tag_of el)) eqn:Hre; [done|].
    apply bind_Ok in H as (stride & Hst%attribute_Ok & (parts & Hp%mapE_Ok & [= <-])%bind_Ok).
    rewrite (sized_bytes _ _ _ A4 A1 Hst) in *. clear Hst.
    assert (∀ i fs, parts !! i = Some fs → (i < Z.to_nat (prod dims))%nat ∧ good el (off + Z.of_nat i * n) n fs) as Hpart.
    { intros i fs Hi. destruct (Forall2_lookup_r _ _ _ _ _ Hp Hi) as (k & Hk & H). apply lookup_seq in Hk as [-> Hk].
      split; [done|]. eapply flatten_good; [exact A5|exact H]. }
    split.
    + apply Forall_parts. intros i fs Hi. by apply (Hpart i fs).
    + apply Forall_parts. intros i fs Hi. by apply (Hpart i fs).
    + apply Forall_parts. intros i fs Hi. destruct (Hpart i fs Hi) as [Hlt [_ _ Hw _ _]].
      eapply Forall_impl; [exact Hw|]. intros f. unfold within. nia.
    + apply (boxes parts (λ i, off + Z.of_nat i * n) (λ _, n)).
      * intros i fs Hi. by destruct (Hpart i fs Hi) as [_ [_ _ ? ? _]].
      * intros i j fs fs' Hij Hi Hj. nia.
    + intros o p. rewrite A6. split.
      * intros (i & o' & Hi & Ho & ->). destruct (Forall2_lookup_l _ _ _ (Z.to_nat i) (Z.to_nat i) Hp) as (fs & Hf & _).
        { apply lookup_seq. lia. }
        destruct (Hpart _ _ Hf) as [_ [_ _ _ _ Hsc]]. destruct (proj1 (Hsc _ _) Ho) as (f & Hff & Hat). exists f.
        split; [apply elem_of_concat; exists fs; split; [done|by eapply list_elem_of_lookup_2]|].
        by replace (off + (i * n + o')) with (off + Z.of_nat (Z.to_nat i) * n + o') by lia.
      * intros (f & (fs & Hf & [i Hi]%list_elem_of_lookup)%elem_of_concat & Hat). destruct (Hpart i fs Hi) as [Hlt [_ _ _ _ Hsc]].
        exists (Z.of_nat i), (o - Z.of_nat i * n). split; [lia|]. split; [|lia]. apply Hsc. exists f. split; [done|].
        by replace (off + Z.of_nat i * n + (o - Z.of_nat i * n)) with (off + o) by lia.
Qed.

Lemma sized_flattens d s : sized d s → flattens d s ∧ unrolls d s.
Proof.
  induction 1 as [d t s Hq Ht Hs IH|d s Hd Hs Hpos|d s [c Hr] Hs|d s ty size Hg Hs Hpos Hty Hsz IH Hin Hap|d e n s Ha He Hn [IH1 IH2] Hs Hw _ _].
  - split; intros d' Hd'; (inversion Hd'; [subst; congruence|]); apply IH; congruence.
  - split; [by apply scalar_flattens|]. intros d' Hd'. inversion Hd'; subst; [intros; clash|clash].
  - destruct (rejected_facts _ _ Hr) as (Hq & _). split; intros d' Hd'; (inversion Hd'; subst; [|congruence]).
    + intros m path member off fields. cbn beta. unfold SchemaImport.dispatch. by rewrite Hr.
    + intros. clash.
  - split; [eapply struct_flattens; eauto; intros i c Hc; by apply (IH i c Hc)|].
    intros d' Hd'. inversion Hd'; subst; [intros; clash|clash].
  - assert (unrolls d s) as Hu by (by eapply array_unrolls). split; [by apply array_flattens|done].
Qed.

(** ** What the fields are named after *)

Local Abbreviation designates := (designates die_at).
Local Abbreviation denotes := (denotes die_at).

Lemma designates_scalar d sel o p : designates d sel o p → scalar_at d o p.
Proof.
  induction 1; [by eapply at_qualified|by apply at_scalar|by eapply at_member|by eapply at_member|].
  eapply at_element; [done..| |done]. by apply row_major_range.
Qed.
Lemma designates_strips d d' sel o p : strips d d' → designates d' sel o p → designates d sel o p.
Proof. induction 1 as [|d t d' Hq Ht _ IH]; [done|]. intros H. by eapply des_qualified, IH. Qed.
Lemma extent_strips d d' n : strips d d' → extent d' n → extent d n.
Proof. induction 1 as [|d t d' Hq Ht _ IH]; [done|]. intros H. by eapply extent_qualified, IH. Qed.
Lemma denotes_strips d d' pre off f : strips d d' → denotes d' pre off f → denotes d pre off f.
Proof.
  intros Hs (sel & dims & p & H1 & H2 & H3 & H4 & H5 & H6). exists sel, dims, p. do 5 (split; [done|]).
  intros index Hi. by eapply designates_strips, H6.
Qed.

(** An array of arrays is an array over the dimensions of both. *)
Lemma array_dims_designates m d member dims el n :
  tag_of d = ARRAY_TYPE → array_dims die_at m d member = Ok (dims, el) → extent el n →
  extent d (prod dims * n) ∧ ∀ index sel o p, valid_index dims index → designates el sel o p →
    designates d ((Sub <$> index) ++ sel) (row_major dims index * n + o) p.
Proof.
  revert d dims. induction m as [|m IH]; intros d dims Ha; [done|]. cbn [array_dims].
  intros (_ & _ & (d1 & Hd1 & (e & He & (el1 & Hel%unqualified_strips & H)%bind_Ok)%bind_Ok)%bind_Ok)%bind_Ok Hn.
  destruct (dimensions_member _ "" _ _ Hd1) as [Hd _]. destruct (String.eqb_spec (tag_of el1) ARRAY_TYPE) as [Ha1|Ha1].
  - apply bind_Ok in H as ([more el'] & Hm & [= <- <-]). destruct (IH _ _ Ha1 Hm Hn) as [Hx1 Hdes].
    pose proof (extent_strips _ _ _ Hel Hx1) as Hx. rewrite prod_app. split; [rewrite <- Z.mul_assoc; by eapply extent_array|].
    intros index sel o p (i1 & i2 & H1 & H2 & ->)%Forall2_app_inv_l Ho.
    pose proof (des_element _ d e d1 _ i1 _ _ p Ha Hd He Hx H1 (designates_strips _ _ _ _ _ Hel (Hdes i2 sel o p H2 Ho))) as Hfin.
    rewrite fmap_app, <- app_assoc, (row_major_app d1 more) by done.
    by replace ((row_major d1 i1 * prod more + row_major more i2) * n + o) with (row_major d1 i1 * (prod more * n) + (row_major more i2 * n + o)) by ring.
  - injection H as <- <-. pose proof (extent_strips _ _ _ Hel Hn) as Hx. split; [by eapply extent_array|].
    intros index sel o p Hi Ho. eapply des_element; [done..|]. by eapply designates_strips.
Qed.

(** The fields of a scalar, or of an array of scalars. *)
Lemma leaf_denotes d s m pre off count fields dims (n := default 1 count) :
  scalar_entry die_at d → at_byte_size (attrs_of d) = Some s → Forall (λ n, 0 < n) dims →
  (count = None ∧ dims = [] ∨ count = Some (prod dims)) →
  leaf die_at m d (word <$> pre) (c_text pre) off count = Ok fields →
  ∃ f p, fields = [f] ∧ holds d p ∧ size_of p = s ∧ if_offset f = off
    ∧ if_member f = Some (c_text pre) ∧ if_name f = String.concat "_" (word <$> pre) ∧ if_type f = prim_name p ∧ if_count f = count.
Proof.
  intros Hd Hs Hp Hc. unfold leaf. case_bool_decide; [done|].
  intros (t & Ht & (s' & Hs'%attribute_Ok & [= <-])%bind_Ok)%bind_Ok.
  destruct (primitive_holds _ _ _ _ _ Hd Ht) as (p & Hh & -> & Hps). rewrite Hs in Hps. injection Hps as ->.
  by exists (mk_ifield (String.concat "_" (word <$> pre)) (prim_name p) count off (s' * match count with Some n => if n =? 0 then 1 else n | None => 1 end) (Some (c_text pre))), p.
Qed.

(** A walk of a type whose fields are named as C designates them. *)
Definition spelled (value : die → list string → string → Z → walk (list ifield)) : Prop :=
  ∀ d s pre off fields, sized d s → named pre → value d (word <$> pre) (c_text pre) off = Ok fields → Forall (denotes d pre off) fields.

Lemma struct_denotes value d s pre off fields :
  spelled value → sized d s → named pre → tag_of d = STRUCTURE_TYPE →
  struct_fields die_at value d (word <$> pre) (c_text pre) off = Ok fields → Forall (denotes d pre off) fields.
Proof.
  intros Hv Hs Hp Hg. unfold struct_fields. fold (members d). intros (parts & Hparts%mapE_Ok & [= <-])%bind_Ok.
  apply Forall_parts. intros i fs Hi. destruct (Forall2_lookup_r _ _ _ _ _ Hparts Hi) as (c & Hc & H).
  assert (∃ t n, type_of c = Ok t ∧ sized t n) as (t & n & Ht & Hn) by (inversion Hs; subst; try clash; do 2 eexists; eauto).
  unfold struct_member in H. apply bind_Ok in H as (r & Hr & H). rewrite Ht in H. cbn [mbind result_bind] in H.
  assert (r = offset_of c) as ->.
  { unfold member_offset in Hr. unfold offset_of. destruct (at_bit_size _); [done|].
    destruct (at_member_location _) as [[z|]|]; [|done|]; by injection Hr as <-. }
  set (dots := match member_name c with Some name => [Dot name] | None => [] end).
  assert (named (pre ++ dots)) as Hnd.
  { apply Forall_app. split; [done|]. subst dots. unfold member_name. destruct (at_name _) as [name|]; [|constructor].
    destruct (String.eqb_spec name ""); [constructor|]. constructor; [congruence|constructor]. }
  assert (value t (word <$> pre ++ dots) (c_text (pre ++ dots)) (off + offset_of c) = Ok fs) as Hval.
  { rewrite <- H. subst dots. unfold under. destruct (member_name c) as [name|]; [by rewrite fmap_app, c_text_dot|by rewrite !app_nil_r]. }
  eapply Forall_impl; [by eapply Hv|]. intros f (sel & dims & p & H1 & H2 & H3 & H4 & H5 & H6). exists (dots ++ sel), dims, p.
  rewrite <- app_assoc in H1, H2. do 5 (split; [done|]). intros index Hix. specialize (H6 index Hix). apply list_elem_of_lookup_2 in Hc.
  replace (if_offset f - off + row_major dims index * size_of p) with (offset_of c + (if_offset f - (off + offset_of c) + row_major dims index * size_of p)) by lia.
  subst dots. destruct (member_name c) as [name|] eqn:Hm; [by eapply des_member|by eapply des_anonymous].
Qed.

Lemma array_denotes value m d s pre off fields :
  spelled value → sized d s → named pre → tag_of d = ARRAY_TYPE →
  array_fields die_at value m d (word <$> pre) (c_text pre) off = Ok fields → Forall (denotes d pre off) fields.
Proof.
  intros Hv Hs Hp Ha. unfold array_fields. intros ([dims el] & Hd & H)%bind_Ok. destruct (array_facts _ Ha) as (Hq & _).
  destruct (proj2 (sized_flattens _ _ Hs) _ (strips_none _ _ Hq) Ha _ _ _ _ Hd) as (n & [A1 A2 A3 A4 _ _] & _). case_bool_decide as Ht.
  - assert (scalar_entry die_at el ∧ at_byte_size (attrs_of el) = Some n) as [Hel Hsz] by (inversion A4; subst; try clash; done).
    destruct (leaf_denotes el n _ pre off _ fields dims Hel Hsz A3 (or_intror eq_refl) H) as (f & p & -> & Hh & Hsp & Ho & F1 & F2 & F3 & F4).
    apply Forall_singleton. exists [], dims, p. rewrite app_nil_r. do 4 (split; [done|]). split; [by right|]. intros index Hi.
    destruct (array_dims_designates _ _ _ _ _ n Ha Hd (extent_bytes _ _ _ A1 A2 Hsz)) as [_ Hdes].
    specialize (Hdes index [] 0 p Hi (des_scalar _ _ _ Hh)). rewrite app_nil_r in Hdes.
    by replace (if_offset f - off + row_major dims index * size_of p) with (row_major dims index * n + 0) by (rewrite Ho, Hsp; ring).
  - destruct (dget REJECTED_TAGS (tag_of el)); [done|]. apply bind_Ok in H as (n' & Hsz%attribute_Ok & (parts & Hparts%mapE_Ok & [= <-])%bind_Ok).
    destruct (array_dims_designates _ _ _ _ _ n' Ha Hd (extent_bytes _ _ _ A1 A2 Hsz)) as [_ Hdes].
    apply Forall_parts. intros i fs Hi. destruct (Forall2_lookup_r _ _ _ _ _ Hparts Hi) as (k & [-> Hk]%lookup_seq & H).
    pose proof (prod_pos _ A3) as Hpos. destruct (unravel_row_major dims (Z.of_nat i) A3 ltac:(lia)) as [Hval Hrow].
    unfold array_element in H. cbn [Nat.add] in H. set (index := unravel (Z.of_nat i) dims) in *.
    assert (value el (word <$> pre ++ (Sub <$> index)) (c_text (pre ++ (Sub <$> index))) (off + Z.of_nat i * n') = Ok fs) as Hval'.
    { rewrite <- H, fmap_app, c_text_subs. by rewrite <- list_fmap_compose. }
    assert (named (pre ++ (Sub <$> index))) as Hnd by (apply Forall_app; split; [done|]; by apply Forall_fmap, Forall_forall).
    eapply Forall_impl; [by eapply Hv|]. intros f (sel & more & p & H1 & H2 & H3 & H4 & H5 & H6).
    exists ((Sub <$> index) ++ sel), more, p. rewrite <- app_assoc in H1, H2. do 5 (split; [done|]). intros ix Hix.
    pose proof (Hdes index _ _ p Hval (H6 ix Hix)) as Hfin. rewrite app_assoc in Hfin. rewrite Hrow in Hfin.
    by replace (if_offset f - off + row_major more ix * size_of p) with (Z.of_nat i * n' + (if_offset f - (off + Z.of_nat i * n') + row_major more ix * size_of p)) by lia.
Qed.

Lemma flatten_denotes m : spelled (flatten m).
Proof.
  induction m as [|m IH]; intros d s pre off fields Hs Hp; [done|]. cbn [SchemaImport.flatten].
  intros (d' & Hu%unqualified_strips & H)%bind_Ok. pose proof (sized_strips _ _ _ Hs Hu) as Hs'.
  assert (Forall (denotes d' pre off) fields) as Hall; [|eapply Forall_impl; [exact Hall|]; intros f; by apply denotes_strips].
  unfold SchemaImport.dispatch in H. destruct (dget REJECTED_TAGS (tag_of d')); [done|].
  destruct (String.eqb_spec (tag_of d') STRUCTURE_TYPE) as [Hg|Hg]; [by eapply struct_denotes|].
  destruct (String.eqb_spec (tag_of d') ARRAY_TYPE) as [Ha|Ha]; [by eapply array_denotes|]. case_bool_decide as Ht; [|done].
  assert (scalar_entry die_at d' ∧ ∃ n, at_byte_size (attrs_of d') = Some n) as [Hel [n Hsz]].
  { inversion Hs'; subst; try clash; by eauto. }
  destruct (leaf_denotes d' n _ pre off _ fields [] Hel Hsz (Forall_nil_2 _) (or_introl (conj eq_refl eq_refl)) H) as (f & p & -> & Hh & Hsp & Ho & F1 & F2 & F3 & F4).
  apply Forall_singleton. exists [], [], p. rewrite app_nil_r. do 4 (split; [done|]). split; [by left|]. intros index ->%Forall2_nil_inv_l.
  replace (if_offset f - off + row_major [] [] * size_of p) with 0 by (rewrite Ho; cbn; lia). by apply des_scalar.
Qed.
End geometry.

(** ** Padding *)

Definition precedes (f g : ifield) : Prop := if_offset f + if_size f ≤ if_offset g.
Definition nonempty (f : ifield) : Prop := 0 < if_size f.

Lemma leaf_nonempty f : leaf_ok f → nonempty f.
Proof. intros (p & _ & Hc & Hs). unfold nonempty. pose proof (size_of_pos p). nia. Qed.

Lemma insert_permutation f l : insert_by_offset f l ≡ₚ f :: l.
Proof. induction l as [|g l IH]; cbn; [done|]. destruct (_ <=? _); [done|]. rewrite IH. apply Permutation_swap. Qed.
Lemma by_offset_permutation l : by_offset l ≡ₚ l.
Proof. induction l as [|f l IH]; cbn; [done|]. by rewrite insert_permutation, IH. Qed.

Lemma insert_sorted f l :
  nonempty f → Forall nonempty l → Forall (apart f) l → StronglySorted precedes l →
  StronglySorted precedes (insert_by_offset f l).
Proof.
  intros Hf Hn Ha Hs. induction Hs as [|g l Hs IH Hg]; cbn; [repeat constructor|].
  apply Forall_cons in Hn as [Hng Hn]. apply Forall_cons in Ha as [Hag Ha]. unfold nonempty, apart in *.
  destruct (Z.leb_spec (if_offset f) (if_offset g)).
  - constructor; [by constructor|]. constructor; [unfold precedes; lia|]. eapply Forall_impl; [exact Hg|]. intros h. unfold precedes. lia.
  - constructor; [by apply IH|]. rewrite insert_permutation. constructor; [unfold precedes; lia|done].
Qed.

Lemma by_offset_sorted l : Forall nonempty l → ForallOrdPairs apart l → StronglySorted precedes (by_offset l).
Proof.
  intros Hn Ha. induction Ha as [|f l Hf Ha IH]; cbn; [constructor|]. apply Forall_cons in Hn as [Hnf Hn].
  apply insert_sorted; [done|by rewrite by_offset_permutation|by rewrite by_offset_permutation|auto].
Qed.

(** The fields follow each other from one byte to another without a gap. *)
Fixpoint tiles (from : Z) (fields : list ifield) (to : Z) : Prop :=
  match fields with
  | [] => from = to
  | f :: fields => if_offset f = from ∧ tiles (from + if_size f) fields to
  end.

Lemma fields_tile_app a l1 l2 b : tiles a (l1 ++ l2) b ↔ ∃ c, tiles a l1 c ∧ tiles c l2 b.
Proof.
  revert a. induction l1 as [|f l1 IH]; intros a; cbn; [split; [by exists a|by intros (? & -> & ?)]|].
  rewrite IH. naive_solver.
Qed.

Lemma pad_tiles c s fields :
  StronglySorted precedes fields → Forall nonempty fields → Forall (within c (s - c)) fields → c ≤ s →
  tiles c (pad_from c fields s) s.
Proof.
  intros Hs. revert c. induction Hs as [|f fields Hs IH Hf]; intros c Hn Hw Hc; cbn [pad_from].
  - destruct (Z.ltb_spec c s); cbn; lia.
  - apply Forall_cons in Hn as [Hnf Hn]. apply Forall_cons in Hw as [Hwf Hw]. unfold nonempty, within in *.
    apply fields_tile_app. exists (if_offset f). split; [destruct (Z.ltb_spec c (if_offset f)); cbn; lia|].
    cbn [tiles]. split; [done|]. apply IH; [done| |lia].
    apply Forall_forall. intros g Hg. pose proof (proj1 (Forall_forall _ _) Hf g Hg) as Hfg. unfold precedes in Hfg.
    pose proof (proj1 (Forall_forall _ _) Hw g Hg) as Hwg. cbn beta in Hwg. lia.
Qed.

Lemma pad_from_elem c s fields f :
  f ∈ pad_from c fields s → f ∈ fields ∨ ∃ o n, f = pad o n ∧ 0 < n.
Proof.
  revert c. induction fields as [|g fields IH]; intros c; cbn [pad_from].
  - destruct (Z.ltb_spec c s); [|by intros ?%elem_of_nil]. intros ->%list_elem_of_singleton. right. do 2 eexists. split; [done|lia].
  - rewrite elem_of_app, elem_of_cons. intros [H|[->|H]]; [|left; left|].
    + destruct (Z.ltb_spec c (if_offset g)); [|by apply elem_of_nil in H]. apply list_elem_of_singleton in H as ->.
      right. do 2 eexists. split; [done|lia].
    + destruct (IH _ H) as [?|?]; [left; by right|by right].
Qed.
Lemma elem_pad_from c s fields f : f ∈ fields → f ∈ pad_from c fields s.
Proof.
  revert c. induction fields as [|g fields IH]; intros c; [by intros ?%elem_of_nil|]. cbn [pad_from].
  rewrite elem_of_app, !elem_of_cons. intros [->|H]; [by right; left|right; right; by apply IH].
Qed.

Lemma pad_leaf o n : 0 < n → leaf_ok (pad o n).
Proof. intros Hn. exists U8. split; [done|]. unfold count_of, pad. cbn. lia. Qed.

(** What [with_padding] gives for the fields of a type. *)
Lemma padded die_at d s fields (l := with_padding fields s) :
  good die_at d 0 s fields → 0 ≤ s →
  tiles 0 l s ∧ Forall leaf_ok l ∧ (∀ f, f ∈ fields → f ∈ l) ∧ (∀ f, f ∈ l → is_Some (if_member f) → f ∈ fields).
Proof.
  intros [Hl Hm Hw Ha _] Hs. subst l. unfold with_padding. pose proof (by_offset_permutation fields) as Hp.
  assert (Forall nonempty fields) as Hn by (eapply Forall_impl; [exact Hl|apply leaf_nonempty]).
  split; [|split; [|split]].
  - apply pad_tiles; [by apply by_offset_sorted|by rewrite Hp|rewrite Hp; by rewrite Z.sub_0_r|done].
  - apply Forall_forall. intros f [Hf|(o & n & -> & ?)]%pad_from_elem; [|by apply pad_leaf].
    rewrite Hp in Hf. by apply (proj1 (Forall_forall _ _) Hl).
  - intros f Hf. apply elem_pad_from. by rewrite Hp.
  - intros f [Hf|(o & n & -> & _)]%pad_from_elem; [by rewrite Hp in Hf|by intros []].
Qed.

(** ** The Schema that is read back *)

Definition field_of (f : ifield) : field :=
  mk_field (if_name f) (default U8 (prim_of_name (if_type f))) (Z.to_nat <$> if_count f).

Lemma field_of_schema f : leaf_ok f → field_of_json (to_schema f) = Some (field_of f).
Proof.
  intros (p & Ht & Hc & _). unfold count_of in Hc.
  assert (jget (to_schema f) "name" = Some (JStr (if_name f))) as E1 by done.
  assert (jget (to_schema f) "type" = Some (JStr (if_type f))) as E2 by done.
  assert (jget (to_schema f) "count" = JInt <$> if_count f) as E3 by (unfold to_schema; by destruct (if_count f)).
  unfold field_of_json, field_of. rewrite E1, E2, E3, Ht, prim_of_name_name. cbn [mbind option_bind].
  destruct (if_count f) as [n|]; [|done]. cbn [fmap option_fmap option_map default from_option id] in *.
  by rewrite (proj2 (Z.ltb_ge n 0)) by lia.
Qed.
Lemma fields_of_schema l :
  Forall leaf_ok (ly_fields l) → fields_of_json (schema_of l) = Some (field_of <$> ly_fields l).
Proof.
  intros H. unfold fields_of_json, schema_of, jget. cbn. apply mapM_Some_2, Forall2_fmap, Forall_Forall2_diag.
  eapply Forall_impl; [exact H|apply field_of_schema].
Qed.

Lemma field_of_size f : leaf_ok f → field_size (field_of f) = Z.to_nat (if_size f).
Proof.
  intros (p & Ht & Hc & ->). unfold field_size, field_plan, field_of, count_of in *. rewrite Ht, prim_of_name_name. cbn.
  pose proof (size_of_pos p). destruct (if_count f) as [n|]; cbn in *.
  - case_decide as Hp; [subst p; cbn; lia|]. cbn [plan_fmt].
    assert (∀ k, size (replicate k (IPrim p)) = (k * Z.to_nat (size_of p))%nat) as ->; [|lia].
    induction k as [|k IH]; [done|]. unfold size in *. cbn [replicate sum_list_with]. rewrite IH. cbn [item_size]. lia.
  - unfold size. cbn. lia.
Qed.

(** Packed one after another, the fields are where the C type has them. *)
Lemma tiles_lookup a fields b i f :
  tiles a fields b → Forall leaf_ok fields → fields !! i = Some f →
  if_offset f = a + Z.of_nat (sum_list_with field_size (take i (field_of <$> fields))).
Proof.
  intros Ht Hl. revert a i Ht. induction Hl as [|g fields Hg Hl IH]; intros a i Ht; [done|]. destruct Ht as [Ho Ht].
  destruct i as [|i]; cbn.
  - intros [= <-]. lia.
  - intros Hi. rewrite (IH _ _ Ht Hi), field_of_size by done. apply leaf_nonempty in Hg. unfold nonempty in Hg. lia.
Qed.
Lemma tiles_le a fields b : tiles a fields b → Forall leaf_ok fields → a ≤ b.
Proof.
  intros Ht Hl. revert a Ht. induction Hl as [|f fields Hf Hl IH]; intros a Ht; cbn in Ht; [lia|].
  destruct Ht as [_ Ht%IH]. apply leaf_nonempty in Hf. unfold nonempty in Hf. lia.
Qed.
Lemma tiles_end a fields b i f :
  tiles a fields b → Forall leaf_ok fields → fields !! i = Some f → if_offset f + if_size f ≤ b.
Proof.
  intros Ht Hl. revert a i Ht. induction Hl as [|g fields Hg Hl IH]; intros a i Ht Hi; [done|]. destruct Ht as [Ho Ht].
  destruct i as [|i]; [|by eapply IH]. injection Hi as ->. pose proof (tiles_le _ _ _ Ht Hl). lia.
Qed.
Lemma tiles_size a fields b :
  tiles a fields b → Forall leaf_ok fields → b = a + Z.of_nat (mt_size (field_of <$> fields)).
Proof.
  intros Ht Hl. revert a Ht. induction Hl as [|g fields Hg Hl IH]; intros a Ht; [unfold mt_size; cbn in *; lia|].
  destruct Ht as [_ Ht]. rewrite (IH _ Ht). unfold mt_size, mt_items. rewrite !fmap_cons. cbn [concat].
  unfold size. rewrite sum_list_with_app. fold (size (plan_fmt (field_plan (field_of g)))). fold (field_size (field_of g)).
  rewrite field_of_size by done. apply leaf_nonempty in Hg. unfold nonempty in Hg. lia.
Qed.

Lemma field_values_length fs data : length (field_values fs data) = length fs.
Proof. revert data. induction fs as [|f fs IH]; intros data; cbn; auto. Qed.
Lemma field_values_lookup fs data i f :
  fs !! i = Some f → field_values fs data !! i = Some (field_value f (drop (sum_list_with field_size (take i fs)) data)).
Proof.
  revert data i. induction fs as [|g fs IH]; intros data [|i]; cbn; [done..|by intros [= <-]|].
  intros H. rewrite (IH _ _ H), drop_drop. done.
Qed.

Lemma unpack_byte b : unpack_prim U8 [b] = PInt (Z_of_byte b).
Proof. unfold unpack_prim. f_equal. cbn [le_value]. lia. Qed.
Lemma field_value_element fd d i :
  (i < default 1 (fd_count fd))%nat → (field_size fd ≤ length d)%nat →
  elements (field_value fd d) !! i
  = Some (unpack_prim (fd_type fd) (take (Z.to_nat (size_of (fd_type fd))) (drop (i * Z.to_nat (size_of (fd_type fd))) d))).
Proof.
  unfold field_size, field_value, field_plan. destruct (fd_count fd) as [n|]; cbn.
  - case_decide as Hu.
    + rewrite Hu. cbn. intros Hi Hs. rewrite list_lookup_fmap, lookup_take_lt by done.
      destruct (lookup_lt_is_Some_2 d i) as [b Hb]; [lia|]. rewrite Hb. cbn. rewrite Nat.mul_1_r.
      rewrite (drop_S _ _ _ Hb). by rewrite <- unpack_byte.
    + cbn [elements]. intros Hi _. rewrite list_lookup_fmap, lookup_seq_lt by done. done.
  - intros Hi _. destruct i; [done|lia].
Qed.

(** ** Names *)

Lemma group_by_name_spec fields name :
  dget (group_by_name fields) name
  = match filter (λ f, if_name f = name) fields with [] => None | same => Some same end.
Proof.
  unfold group_by_name. induction fields as [|f fields IH] using rev_ind; [done|].
  rewrite foldl_snoc, filter_app. set (d := foldl _ _ fields) in *. cbn [filter]. rewrite filter_cons, filter_nil.
  destruct (decide (if_name f = name)) as [<-|Hn].
  - rewrite dget_dset_eq, IH. by destruct (filter _ fields).
  - rewrite dget_dset_ne by done. by rewrite IH, app_nil_r.
Qed.

Lemma bind_nil {A B} (f : A → list B) l x : l ≫= f = [] → x ∈ l → f x = [].
Proof.
  intros H Hx. destruct (f x) as [|y ys] eqn:Hf; [done|]. exfalso. apply (not_elem_of_nil y). rewrite <- H.
  apply list_elem_of_bind. exists x. split; [rewrite Hf; left|done].
Qed.

Lemma names_distinct fields :
  (∀ f, f ∈ fields → filter (λ g, if_name g = if_name f) fields = [f]) → NoDup (if_name <$> fields).
Proof.
  induction fields as [|f fields IH]; intros H; cbn; [constructor|]. constructor.
  - intros (g & Hn & Hg)%list_elem_of_fmap. pose proof (H f (list_elem_of_here _ _)) as Hf. rewrite filter_cons, decide_True in Hf by done.
    injection Hf as Hf. apply (not_elem_of_nil g). rewrite <- Hf. by apply list_elem_of_filter.
  - apply IH. intros g Hg. pose proof (H g ltac:(by right)) as Hf. rewrite filter_cons in Hf. case_decide; [|done].
    injection Hf as -> Hf. exfalso. apply (not_elem_of_nil g). rewrite <- Hf. by apply list_elem_of_filter.
Qed.

Lemma no_name_problems c_type fields :
  name_problems c_type fields = [] →
  NoDup (if_name <$> fields) ∧ Forall (λ f, ident_problem (if_name f) = None) fields.
Proof.
  intros H. assert (∀ f, f ∈ fields → filter (λ g, if_name g = if_name f) fields = [f] ∧ ident_problem (if_name f) = None) as Hone.
  { intros f Hf. pose proof (group_by_name_spec fields (if_name f)) as Hg.
    assert (f ∈ filter (λ g, if_name g = if_name f) fields) as Hin by (by apply list_elem_of_filter).
    destruct (filter _ fields) as [|g same]; [by apply elem_of_nil in Hin|]. apply dget_Some in Hg.
    unfold name_problems in H. pose proof (bind_nil _ _ _ H Hg) as Hp. cbn in Hp.
    destruct same as [|h same]; [|done]. apply list_elem_of_singleton in Hin as ->. split; [done|]. by destruct (ident_problem _). }
  split; [|apply Forall_forall; intros f Hf; by apply Hone]. apply names_distinct. intros f Hf. by apply Hone.
Qed.

(** ** Accepted layouts *)

Lemma import_layout_Ok die_at fuel index c_name schema l :
  layout_of die_at fuel index c_name schema = Ok l →
  ∃ d spelling leaves size, find_type index c_name = Some (d, spelling) ∧ schema_name_problem schema = None
    ∧ flatten die_at fuel d [] "" 0 = Ok leaves
    ∧ (∃ d', unqualified die_at fuel d = Ok d' ∧ at_byte_size (attrs_of d') = Some size)
    ∧ name_problems c_name (with_padding leaves size) = []
    ∧ l = mk_layout spelling schema size (with_padding leaves size).
Proof.
  unfold layout_of. destruct (find_type index c_name) as [[d spelling]|]; [|done].
  destruct (flatten die_at fuel d [] "" 0) as [[|f leaves]|e] eqn:Hf; [done| |by destruct e]. set (all := f :: leaves) in *.
  intros (size & Hs & H)%bind_Ok. apply bind_Ok in H as ([] & Hp%raise_if_Ok & [= <-]).
  apply negb_false_iff, bool_decide_eq_true, app_eq_nil in Hp as [Hp1 Hp2].
  exists d, spelling, all, size. split; [done|]. split; [by destruct (schema_name_problem schema)|]. split; [done|]. split; [|done].
  unfold crash in Hs. destruct (unqualified die_at fuel d) as [d'|]; [|done]. exists d'. split; [done|].
  cbn [mbind result_bind] in Hs. unfold byte_size in Hs. destruct (at_byte_size (attrs_of d')); [|done]. by injection Hs as ->.
Qed.

Lemma elements_length fd d :
  (field_size fd ≤ length d)%nat → length (elements (field_value fd d)) = default 1%nat (fd_count fd).
Proof.
  unfold field_size, field_value, field_plan. destruct (fd_count fd) as [n|]; [|done]. cbn [default from_option id].
  case_decide; cbn [elements plan_fmt]; intros Hsize; rewrite ?length_fmap, ?length_seq, ?length_take; [|done].
  unfold size in Hsize. cbn in Hsize. lia.
Qed.

(** The scalar of a type at an offset in memory. *)
Definition read_scalar (p : prim) (o : Z) (data : bytes) : pynum :=
  unpack_prim p (take (Z.to_nat (size_of p)) (drop (Z.to_nat o) data)).

Section theorems.
Context (die_at : Z → option die) (fuel : nat) (index : type_index) (c_name schema spelling : string).
Context (d : die) (s : Z) (l : layout).
Hypothesis found : find_type index c_name = Some (d, spelling).
Hypothesis complete : sized die_at d s.
Hypothesis accepted : layout_of die_at fuel index c_name schema = Ok l.

Lemma accepted_facts :
  ly_size l = s ∧ schema_name_problem schema = None ∧ 0 ≤ s
  ∧ NoDup (if_name <$> ly_fields l) ∧ Forall (λ f, ident_problem (if_name f) = None) (ly_fields l)
  ∧ tiles 0 (ly_fields l) s ∧ Forall leaf_ok (ly_fields l)
  ∧ (∀ o p, scalar_at die_at d o p ↔ ∃ f, f ∈ ly_fields l ∧ is_Some (if_member f) ∧ field_at f o p)
  ∧ (∀ f, f ∈ ly_fields l → is_Some (if_member f) → denotes die_at d [] 0 f).
Proof using found complete accepted.
  destruct (import_layout_Ok _ _ _ _ _ _ accepted) as (d' & sp' & leaves & size & Hf & Hn & Hl & (d1 & Hu & Hb) & Hp & ->).
  rewrite found in Hf. injection Hf as <- <-. apply unqualified_strips in Hu.
  assert (size = s) as -> by (eapply sized_bytes; [by eapply sized_strips|by eapply strips_inv|done]).
  destruct (flatten_good _ _ _ _ _ _ _ _ (proj1 (sized_flattens _ _ _ complete)) Hl) as [G1 G2 G3 G4 G5].
  pose proof (sized_nonneg _ _ _ complete) as Hs.
  destruct (padded die_at d s leaves (mk_good _ _ _ _ _ G1 G2 G3 G4 G5) Hs) as (P1 & P2 & P3 & P4).
  destruct (no_name_problems _ _ Hp) as [N1 N2]. cbn [ly_size ly_fields]. do 7 (split; [done|]).
  split; [|intros f Hfl Hm; by apply (proj1 (Forall_forall _ _) (flatten_denotes _ _ _ _ [] _ _ complete (Forall_nil_2 _) Hl)), P4].
  intros o p. rewrite G5. split.
  - intros (f & Hfl & Hat). exists f. split; [by apply P3|]. split; [by apply (proj1 (Forall_forall _ _) G2)|done].
  - intros (f & Hfl & Hm & Hat). exists f. split; [by apply P4|done].
Qed.

Lemma field_read data i f (fs := field_of <$> ly_fields l) :
  length data = Z.to_nat s → ly_fields l !! i = Some f →
  ∃ vals v, mt_unpack fs data = Ok vals ∧ dget vals (if_name f) = Some v
    ∧ length (elements v) = Z.to_nat (count_of f)
    ∧ ∀ k p, 0 ≤ k < count_of f → if_type f = prim_name p →
        elements v !! Z.to_nat k = Some (read_scalar p (if_offset f + k * size_of p) data).
Proof using found complete accepted.
  destruct accepted_facts as (Hs & _ & Hpos & Hn & _ & Ht & Hl & _ & _). intros Hd Hi.
  assert (NoDup (fd_name <$> fs)) as Hnames by (subst fs; by rewrite <- list_fmap_compose).
  pose proof (tiles_size _ _ _ Ht Hl) as Hsize. fold fs in Hsize.
  pose proof (mt_unpack_values fs data Hnames ltac:(lia)) as Hu.
  assert (fs !! i = Some (field_of f)) as Hfi by (subst fs; by rewrite list_lookup_fmap, Hi).
  pose proof (field_values_lookup fs data i _ Hfi) as Hv. pose proof (tiles_lookup _ _ _ _ _ Ht Hl Hi) as Ho. fold fs in Ho.
  set (before := sum_list_with field_size (take i fs)) in *. set (here := drop before data) in *.
  pose proof (proj1 (Forall_lookup _ _) Hl i f Hi) as Hlf. pose proof (field_of_size f Hlf) as Hfs.
  pose proof (tiles_end _ _ _ _ _ Ht Hl Hi) as Hend.
  assert (field_size (field_of f) ≤ length here)%nat as Hlen.
  { subst here. rewrite length_drop, Hfs. destruct Hlf as (p & _ & ? & ?). lia. }
  destruct Hlf as (p0 & Hp0 & Hc & Hsz). exists (zip (fd_name <$> fs) (field_values fs data)), (field_value (field_of f) here).
  assert (default 1%nat (fd_count (field_of f)) = Z.to_nat (count_of f)) as Hcount.
  { unfold count_of, field_of. cbn. by destruct (if_count f). }
  split; [done|]. split; [|split; [by rewrite elements_length, Hcount|]].
  - apply dget_elem.
    + rewrite fst_zip; [done|]. by rewrite length_fmap, field_values_length.
    + apply list_elem_of_lookup. exists i. rewrite lookup_zip_with, list_lookup_fmap, Hfi, Hv. done.
  - intros k p Hk Hp. assert (fd_type (field_of f) = p) as Hty by (unfold field_of; cbn [fd_type]; by rewrite Hp, prim_of_name_name).
    rewrite field_value_element by (rewrite ?Hcount; lia || done). rewrite Hty. unfold read_scalar. subst here. rewrite drop_drop.
    do 4 f_equal. pose proof (size_of_pos p). lia.
Qed.

(** C24. An imported Schema has the layout of the C type: it is a well-formed Schema
    of the size of the type, with names that are C identifiers and distinct; every
    field is in the packed layout at its offset; and at that offset the C type has
    the member the field is named after, with the elements of an array counted as C
    counts them ([denotes]). No scalar that C can designate is left out. *)
Theorem imported_layout :
  ∃ fs, fields_of_json (schema_of l) = Some fs ∧ ly_size l = s ∧ Z.of_nat (mt_size fs) = s
    ∧ schema_name_problem schema = None
    ∧ NoDup (fd_name <$> fs) ∧ Forall (λ f, ident_problem (fd_name f) = None) fs
    ∧ (∀ i f, ly_fields l !! i = Some f → if_offset f = Z.of_nat (sum_list_with field_size (take i fs)))
    ∧ (∀ f, f ∈ ly_fields l → is_Some (if_member f) → denotes die_at d [] 0 f)
    ∧ (∀ sel o p, designates die_at d sel o p → ∃ f, f ∈ ly_fields l ∧ is_Some (if_member f) ∧ field_at f o p).
Proof using found complete accepted.
  destruct accepted_facts as (Hs & Hn & Hpos & Hd & Hi & Ht & Hl & Hsc & Hden). exists (field_of <$> ly_fields l).
  split; [by apply fields_of_schema|]. split; [done|]. split; [pose proof (tiles_size _ _ _ Ht Hl); lia|]. split; [done|].
  split; [by rewrite <- list_fmap_compose|]. split; [by apply Forall_fmap|].
  split; [|split; [done|intros sel o p Ho%designates_scalar; by apply Hsc]].
  intros i f Hf. by rewrite (tiles_lookup _ _ _ _ _ Ht Hl Hf).
Qed.

(** C13. A payload that is the memory of a C object is read as the object: every
    scalar of the type is an element of some field, with the value it has at its
    offset in memory, and every element of a field that is no padding is a scalar
    of the type. *)
Theorem imported_values data :
  length data = Z.to_nat s →
  ∃ fs vals, fields_of_json (schema_of l) = Some fs ∧ mt_unpack fs data = Ok vals
    ∧ (∀ o p, scalar_at die_at d o p → ∃ f v k, f ∈ ly_fields l ∧ is_Some (if_member f)
         ∧ dget vals (if_name f) = Some v ∧ elements v !! k = Some (read_scalar p o data))
    ∧ (∀ f, f ∈ ly_fields l → is_Some (if_member f) → ∃ p v, dget vals (if_name f) = Some v
         ∧ ∀ k x, elements v !! k = Some x →
             scalar_at die_at d (if_offset f + Z.of_nat k * size_of p) p
             ∧ x = read_scalar p (if_offset f + Z.of_nat k * size_of p) data).
Proof using found complete accepted.
  intros Hd. destruct accepted_facts as (_ & _ & _ & Hn & _ & Ht & Hl & Hsc & _).
  assert (∃ vals, mt_unpack (field_of <$> ly_fields l) data = Ok vals) as [vals Hu].
  { eexists. apply mt_unpack_values; [by rewrite <- list_fmap_compose|]. pose proof (tiles_size _ _ _ Ht Hl). lia. }
  assert (∀ f, f ∈ ly_fields l → ∃ v, dget vals (if_name f) = Some v ∧ length (elements v) = Z.to_nat (count_of f)
    ∧ ∀ k p, 0 ≤ k < count_of f → if_type f = prim_name p →
        elements v !! Z.to_nat k = Some (read_scalar p (if_offset f + k * size_of p) data)) as Hread.
  { intros f [i Hi]%list_elem_of_lookup. destruct (field_read data i f Hd Hi) as (vals' & v & Hu' & Hr).
    rewrite Hu in Hu'. injection Hu' as <-. by exists v. }
  exists (field_of <$> ly_fields l), vals. split; [by apply fields_of_schema|]. split; [done|]. split.
  - intros o p (f & Hf & Hm & Hty & k & Hk & ->)%Hsc. destruct (Hread f Hf) as (v & Hv & _ & He).
    exists f, v, (Z.to_nat k). do 3 (split; [done|]). by apply He.
  - intros f Hf Hm. destruct (Hread f Hf) as (v & Hv & Hlen & He). destruct (proj1 (Forall_forall _ _) Hl f Hf) as (p & Hp & Hc & _).
    exists p, v. split; [done|]. intros k x Hx. pose proof (lookup_lt_Some _ _ _ Hx) as Hk.
    specialize (He (Z.of_nat k) p ltac:(lia) Hp). rewrite Nat2Z.id, Hx in He. injection He as ->. split; [|done].
    apply Hsc. exists f. split; [done|]. split; [done|]. split; [done|]. exists (Z.of_nat k). lia.
Qed.
End theorems.

(** ** The walk ends *)

(** A result, or a rejection. *)
Definition final {A} (r : walk A) : Prop :=
  match r with Ok _ | Err (WRejection _ _) => True | _ => False end.
(** With [n] units of fuel or more the result is the same, for every argument. *)
Definition settles {Q A} (n : nat) (f : nat → Q → walk A) : Prop :=
  ∀ q, ∃ r, final r ∧ ∀ m, (n ≤ m)%nat → f m q = r.

Lemma settles_le {Q A} n n' (f : nat → Q → walk A) : (n ≤ n')%nat → settles n f → settles n' f.
Proof. intros Hn H q. destruct (H q) as (r & Hr & Hm). exists r. split; [done|]. intros m ?. apply Hm. lia. Qed.

Lemma settles_const {Q A} n (f : Q → walk A) : (∀ q, final (f q)) → settles n (λ _, f).
Proof. intros H q. by exists (f q). Qed.

Lemma settles_bind {Q A B} n (f : nat → Q → walk A) (g : nat → Q → A → walk B) :
  settles n f → (∀ q a m, (n ≤ m)%nat → f m q = Ok a → ∃ r, final r ∧ ∀ m, (n ≤ m)%nat → g m q a = r) →
  settles n (λ m q, f m q ≫= g m q).
Proof.
  intros Hf Hg q. destruct (Hf q) as (r & Hr & Hm). destruct r as [a|e].
  - destruct (Hg q a n ltac:(done) (Hm n ltac:(done))) as (r' & Hr' & Hm'). exists r'. split; [done|].
    intros m Hle. cbn beta. rewrite Hm by done. mcbn. by apply Hm'.
  - exists (Err e). split; [by destruct e|]. intros m Hle. cbn beta. by rewrite Hm.
Qed.

Lemma mapE_settles {Q A B} (f : nat → Q → A → walk B) (l : list A) n :
  (∀ x, x ∈ l → settles n (λ m q, f m q x)) → settles n (λ m q, mapE (f m q) l).
Proof.
  induction l as [|x l IH]; intros H; cbn [mapE]; [by apply settles_const|].
  apply (settles_bind n (λ m q, f m q x) (λ m q y, mapE (f m q) l ≫= λ ys, Ok (y :: ys))); [apply H; left|].
  intros q y _ _ _. destruct (IH (λ x Hx, H x (list_elem_of_further _ _ _ Hx)) q) as (r & Hr & Hm).
  exists (r ≫= λ ys, Ok (y :: ys)). split; [by destruct r as [|[]]|]. intros m Hle. by rewrite Hm.
Qed.

(** Finitely many walks settle together. *)
Lemma settles_all {Q A B} (f : nat → Q → A → walk B) (l : list A) :
  (∀ x, x ∈ l → ∃ n, settles n (λ m q, f m q x)) → ∃ n, ∀ x, x ∈ l → settles n (λ m q, f m q x).
Proof.
  induction l as [|x l IH]; intros H; [by exists 0%nat; intros ? ?%elem_of_nil|].
  destruct (H x (list_elem_of_here _ _)) as [n1 H1]. destruct IH as [n2 H2]; [intros y Hy; apply H; by right|].
  exists (n1 `max` n2)%nat. intros y [->|Hy]%elem_of_cons; [eapply settles_le; [|exact H1]; lia|eapply settles_le; [|by apply H2]; lia].
Qed.

Section ends.
Context (die_at : Z → option die).
Local Abbreviation type_of := (type_of die_at).
Local Abbreviation strips := (strips die_at).
Local Abbreviation sized := (sized die_at).
Local Abbreviation flatten := (flatten die_at).

(** Path, member and offset. *)
Definition place : Type := (list string * string * Z)%type.
Definition dispatch_at (d : die) (m : nat) (q : place) : walk (list ifield) :=
  dispatch die_at (flatten m) m d q.1.1 q.1.2 q.2.
Definition flatten_at (d : die) (m : nat) (q : place) : walk (list ifield) := flatten m d q.1.1 q.1.2 q.2.

Definition ends (d : die) : Prop := ∃ d' n, strips d d' ∧ settles n (dispatch_at d').

Lemma flatten_ends d : ends d → ∃ n, settles n (flatten_at d).
Proof.
  intros (d' & n & Hd & H). destruct (strips_unqualified _ _ _ Hd) as [k Hk]. exists (S (n `max` k)). intros q.
  destruct (H q) as (r & Hr & Hm). exists r. split; [done|]. intros [|m] Hle; [lia|]. unfold flatten_at. cbn [SchemaImport.flatten].
  rewrite Hk by lia. mcbn. apply Hm. lia.
Qed.

Lemma any_negative_final cs :
  (∀ c, c ∈ cs → tag_of c = "DW_TAG_enumerator"%string → is_Some (at_const_value (attrs_of c))) → ∃ b, any_negative cs = Ok b.
Proof.
  induction cs as [|c cs IH]; intros H; cbn; [by eexists|]. destruct IH as [b IH]; [intros x Hx; apply H; by right|].
  destruct (String.eqb_spec (tag_of c) "DW_TAG_enumerator") as [Ht|_]; [|by exists b].
  destruct (H c (list_elem_of_here _ _) Ht) as [v ->]. cbn. destruct (v <? 0); [by eexists|by exists b].
Qed.

Lemma enum_settles d s :
  scalar_entry die_at d → tag_of d = ENUMERATION_TYPE → at_byte_size (attrs_of d) = Some s →
  ∃ n b, ∀ m, (n ≤ m)%nat → enum_is_signed die_at m d = Ok b.
Proof.
  unfold scalar_entry, enum_is_signed. intros Hd Ht Hs. rewrite Ht, String.eqb_refl in Hd. destruct Hd as [_ Hd].
  destruct (at_type (attrs_of d)).
  - destruct Hd as (t & u & e & Ht' & Hu & He). destruct (strips_unqualified _ _ _ Hu) as [n Hn]. exists n. eexists. intros m Hm.
    rewrite Ht'. mcbn. rewrite Hn by done. mcbn. unfold encoding. rewrite He. done.
  - destruct (any_negative_final _ Hd) as [b Hb]. exists 0%nat, b. done.
Qed.

Lemma leaf_settles d s :
  scalar_entry die_at d → at_byte_size (attrs_of d) = Some s →
  ∃ n, settles n (λ m (q : place * option Z), leaf die_at m d q.1.1.1 q.1.1.2 q.1.2 q.2).
Proof.
  intros Hd Hs. assert (∃ n, settles n (λ m member, primitive die_at m d member)) as [n Hn].
  { destruct (String.eqb_spec (tag_of d) ENUMERATION_TYPE) as [Ht|Ht].
    - destruct (enum_settles d s Hd Ht Hs) as (n & b & Hb). exists n. intros member. eexists. split; [|intros m Hm; unfold primitive, byte_size;
        rewrite Hs, Ht, String.eqb_refl; cbn [attribute]; mcbn; rewrite Hb by done; reflexivity]. done.
    - exists 0%nat. unfold primitive, byte_size, encoding. unfold scalar_entry in Hd. rewrite Hs. rewrite (proj2 (String.eqb_neq _ _) Ht) in *.
      destruct Hd as [_ [e He]]. rewrite He. cbn [attribute]. mcbn. apply settles_const. intros member.
      repeat case_match; done. }
  exists n. unfold leaf. intros [[[path member] off] count]. cbn [fst snd]. case_bool_decide; [by eexists; split; [|done]|].
  destruct (Hn member) as (r & Hr & Hm). exists (r ≫= λ t, size ← byte_size d;
    Ok [mk_ifield (String.concat "_" path) t count off (size * match count with Some n => if n =? 0 then 1 else n | None => 1 end) (Some member)]).
  split; [unfold byte_size; rewrite Hs; by destruct r as [|[]]|]. intros m Hle. by rewrite Hm.
Qed.

Lemma sized_strip d s : sized d s → ∃ d', strips d d'.
Proof.
  induction 1 as [d t s Hq Ht Hs [d' IH]|d s Hd|d s [c Hr]|d s ty size Hg|d e n s Ha].
  - exists d'. by eapply strips_one.
  - exists d. apply strips_none. by apply scalar_entry_tag, scalar_facts in Hd as [? _].
  - exists d. apply strips_none. by apply rejected_facts in Hr as [? _].
  - exists d. apply strips_none. by apply struct_facts in Hg as [? _].
  - exists d. apply strips_none. by apply array_facts in Ha as [? _].
Qed.

Lemma ends_strips d d' : strips d d' → ends d → ends d'.
Proof.
  intros Hd (d1 & n & H1 & Hn). rewrite (strips_fun _ _ _ _ H1 Hd) in Hn. exists d', n. split; [|done].
  apply strips_none. by eapply strips_inv.
Qed.

Lemma struct_ends d (ty : nat → die) :
  tag_of d = STRUCTURE_TYPE → (∀ i c, members d !! i = Some c → type_of c = Ok (ty i)) →
  (∀ i c, members d !! i = Some c → ends (ty i)) → ends d.
Proof.
  intros Hg Hty He. destruct (struct_facts _ Hg) as (Hq & Hr & _).
  destruct (settles_all (λ m (q : place) c, struct_member die_at (flatten m) q.1.1 q.1.2 q.2 c) (members d)) as [n Hn].
  { intros c [i Hc]%list_elem_of_lookup. destruct (flatten_ends _ (He i c Hc)) as [n Hn]. exists n. intros [[path member] off].
    cbn [fst snd]. unfold struct_member. rewrite (Hty i c Hc). cbn zeta. set (cm := if String.eqb _ _ then _ else _).
    destruct (member_offset c cm) as [r|e] eqn:Ho; mcbn; [|exists (Err e); split; [|done]].
    - apply (Hn (path ++ option_list (member_name c), under member c, off + r)).
    - unfold member_offset in Ho. by repeat case_match; simplify_eq. }
  exists d, n. split; [by apply strips_none|]. unfold dispatch_at, dispatch. rewrite Hr, Hg, String.eqb_refl. unfold struct_fields.
  fold (members d). apply (settles_bind n (λ m (q : place), mapE (struct_member die_at (flatten m) q.1.1 q.1.2 q.2) (members d)) (λ _ _ fields, Ok (concat fields))).
  - by apply mapE_settles.
  - intros q a m _ _. by eexists; split; [|done].
Qed.

(** The dimensions of an array, and the type of its elements. *)
Record row_ends (d : die) (n : nat) (el : die) : Prop := mk_row_ends {
  re_settles : settles n (λ m member, array_dims die_at m d member);
  re_element : ∀ m member dims el', array_dims die_at m d member = Ok (dims, el') → el' = el;
  re_ends : ends el;
  re_plain : qualifies el = false ∧ tag_of el ≠ ARRAY_TYPE ∧ ∃ s, sized el s;
}.
Definition rows (d : die) : Prop := ∀ d', strips d d' → tag_of d' = ARRAY_TYPE → ∃ n el, row_ends d' n el.

Lemma dimension_final c member : at_upper_bound (attrs_of c) ≠ Some Expression → final (dimension member c).
Proof. intros H. unfold dimension, subrange_count. by repeat (case_match; mcbn). Qed.
Lemma dimensions_final d member : bounds_constant d → final (dimensions d member).
Proof.
  intros H. unfold dimensions. assert (Forall (λ c, c ∈ iter_children d) (List.filter is_subrange (iter_children d))) as Hf.
  { apply Forall_forall. intros c [Hc _]%list_elem_of_In%filter_In. by apply list_elem_of_In. }
  induction Hf as [|c cs Hc _ IH]; cbn [mapE]; [done|]. pose proof (dimension_final c member (H c Hc)) as Hd.
  destruct (dimension member c) as [z|[]]; try done. mcbn. by destruct (mapE _ cs) as [|[]].
Qed.

Lemma array_rows d e s :
  tag_of d = ARRAY_TYPE → type_of d = Ok e → sized e s → bounds_constant d → ends e → rows e → rows d.
Proof.
  intros Ha He Hs Hw Hen Hro d' Hd' _. destruct (array_facts _ Ha) as (Hq & _).
  rewrite <- (strips_fun _ _ _ _ (strips_none _ _ Hq) Hd'). clear Hd' d'.
  destruct (sized_strip _ _ Hs) as [e1 He1]. destruct (strips_unqualified _ _ _ He1) as [k Hk].
  set (more := λ m member, if String.eqb (tag_of e1) ARRAY_TYPE then array_dims die_at m e1 member else Ok ([], e1)).
  assert (∃ n el, ends el ∧ (qualifies el = false ∧ tag_of el ≠ ARRAY_TYPE ∧ ∃ s, sized el s) ∧ settles n more
    ∧ ∀ m member dims el', more m member = Ok (dims, el') → el' = el) as (n & el & Hel & Hpl & Hn & Hdet).
  { subst more. destruct (String.eqb_spec (tag_of e1) ARRAY_TYPE) as [Ha1|Ha1].
    - destruct (Hro _ He1 Ha1) as (n & el & [R1 R2 R3 R4]). by exists n, el.
    - exists 0%nat, e1. split; [by eapply ends_strips|]. split; [split; [by eapply strips_inv|split; [done|exists s; by eapply sized_strips]]|].
      split; [by apply settles_const|]. by intros ? ? ? ? [= _ <-]. }
  assert (∀ m member, array_dims die_at (S m) d member =
    (raise: WRejection member "vector type" if: at_gnu_vector (attrs_of d);;
     dims ← dimensions d member; element ← unqualified die_at m e;
     '(more, el) ← (if String.eqb (tag_of element) ARRAY_TYPE then array_dims die_at m element member else Ok ([], element));
     Ok (dims ++ more, el))) as Hstep.
  { intros m member. cbn [array_dims]. destruct (raise_if _ _) as [u|]; [|done]. mcbn. destruct (dimensions d member) as [dims|]; [|done].
    rewrite He. mcbn. destruct (unqualified die_at m e) as [element|]; [|done]. mcbn. destruct (String.eqb (tag_of element) ARRAY_TYPE); [done|].
    mcbn. by rewrite app_nil_r. }
  exists (S (n `max` k)), el. split; [| |done|done].
  - intros member. destruct (Hn member) as (r & Hr & Hm).
    exists (raise: WRejection member "vector type" if: at_gnu_vector (attrs_of d);;
            dims ← dimensions d member; '(more, el) ← r; Ok (dims ++ more, el)). split.
    { pose proof (dimensions_final d member Hw) as Hfin. destruct (at_gnu_vector _); [done|]. mcbn.
      destruct (dimensions d member) as [|[]]; try done. mcbn. by destruct r as [[]|[]]. }
    intros [|m] Hle; [lia|]. rewrite Hstep, Hk by lia. mcbn. change (if String.eqb _ _ then _ else _) with (more m member).
    by rewrite Hm by lia.
  - intros [|m] member dims el'; [done|]. rewrite Hstep.
    intros (_ & _ & (d1 & _ & (e2 & He2%unqualified_strips & ([more2 el2] & H & [= _ <-])%bind_Ok)%bind_Ok)%bind_Ok)%bind_Ok.
    rewrite (strips_fun _ _ _ _ He2 He1) in H. by eapply Hdet.
Qed.

Lemma element_cases el s :
  sized el s → qualifies el = false → tag_of el ≠ ARRAY_TYPE →
  (tag_of el ∈ PRIMITIVE_TAGS ∧ scalar_entry die_at el ∧ at_byte_size (attrs_of el) = Some s)
  ∨ is_Some (dget REJECTED_TAGS (tag_of el))
  ∨ (tag_of el ∉ PRIMITIVE_TAGS ∧ dget REJECTED_TAGS (tag_of el) = None ∧ at_byte_size (attrs_of el) = Some s).
Proof.
  intros Hs Hq Ha. inversion Hs as [| |? ? Hr|? ? ty size Hg|]; subst; try congruence.
  - left. split; [by eapply scalar_entry_tag|done].
  - by right; left.
  - right; right. by apply struct_facts in Hg as (_ & ? & _ & ?).
Qed.

Lemma array_ends d : tag_of d = ARRAY_TYPE → rows d → ends d.
Proof.
  intros Ha Hro. destruct (array_facts _ Ha) as (Hq & Hr & Hg & _).
  destruct (Hro _ (strips_none _ _ Hq) Ha) as (n & el & [R1 R2 R3 (Hp & Hna & s & Hs)]).
  destruct (flatten_ends _ R3) as [n2 Hf].
  assert (∃ n3, tag_of el ∈ PRIMITIVE_TAGS → settles n3 (λ m (q : place * option Z), leaf die_at m el q.1.1.1 q.1.1.2 q.1.2 q.2)) as [n3 Hl].
  { destruct (element_cases _ _ Hs Hp Hna) as [(_ & He & Hb)|[[? Hre]|(Hnp & _)]].
    - destruct (leaf_settles _ _ He Hb) as [n3 H3]. by exists n3.
    - exists 0%nat. intros Ht. by destruct (rejected_facts _ _ Hre) as (_ & _ & _ & ?).
    - by exists 0%nat. }
  exists d, (n `max` (n2 `max` n3))%nat. split; [by apply strips_none|]. unfold dispatch_at, dispatch.
  rewrite Hr, (proj2 (String.eqb_neq _ _) Hg), Ha, String.eqb_refl. unfold array_fields.
  apply (settles_bind _ (λ m (q : place), array_dims die_at m d q.1.2)).
  - intros q. destruct (R1 q.1.2) as (r & ? & Hm). exists r. split; [done|]. intros m ?. apply Hm. lia.
  - intros [[path member] off] [dims el'] k Hk Hd. cbn [fst snd] in *. rewrite (R2 _ _ _ _ Hd). case_bool_decide as Ht.
    + destruct (Hl Ht ((path, member, off), Some (prod dims))) as (r & ? & Hm). exists r. split; [done|]. intros m ?. apply Hm. lia.
    + destruct (element_cases _ _ Hs Hp Hna) as [(? & _)|[[c Hre]|(_ & Hre & Hb)]]; [done| |]; rewrite Hre; [by eexists; split; [|done]|].
      unfold byte_size. rewrite Hb. cbn [attribute]. mcbn.
      pose proof (mapE_settles (λ m (q : place) i, array_element (flatten m) el q.1.1 q.1.2 q.2 s dims i) (seq 0 (Z.to_nat (prod dims))) n2) as Hmap.
      destruct (Hmap ltac:(intros i _ [[path' member'] off']; apply (Hf (path' ++ (pretty <$> unravel (Z.of_nat i) dims),
        (member' ++ subscripts (unravel (Z.of_nat i) dims))%string, off' + Z.of_nat i * s))) (path, member, off)) as (r & Hrf & Hm).
      exists (r ≫= λ fields, Ok (concat fields)). split; [by destruct r as [|[]]|]. intros m Hle. cbn [fst snd] in Hm. rewrite Hm by lia. done.
Qed.

Lemma sized_ends d s : sized d s → ends d ∧ rows d.
Proof.
  induction 1 as [d t s Hq Ht Hs IH|d s Hd Hs Hpos|d s [c Hr] Hs|d s ty size Hg Hs Hpos Hty Hsz IH Hin Hap|d e n s Ha He Hn [IH1 IH2] Hs Hw _ _].
  - destruct IH as [(d' & n & Hd' & Hn) IH]. split; [exists d', n; split; [by eapply strips_one|done]|].
    intros d1 Hd1. inversion Hd1; subst; [congruence|]. apply IH. congruence.
  - pose proof (scalar_entry_tag _ _ Hd) as Ht. destruct (scalar_facts _ Ht) as (Hq & Hr & Hg & Ha).
    destruct (leaf_settles _ _ Hd Hs) as [n Hn]. split.
    + exists d, n. split; [by apply strips_none|]. unfold dispatch_at, dispatch.
      rewrite Hr, (proj2 (String.eqb_neq _ _) Hg), (proj2 (String.eqb_neq _ _) Ha), bool_decide_true by done. intros q. apply (Hn (q, None)).
    + intros d1 Hd1. rewrite <- (strips_fun _ _ _ _ (strips_none _ _ Hq) Hd1). done.
  - destruct (rejected_facts _ _ Hr) as (Hq & _ & Ha & _). split.
    + exists d, 0%nat. split; [by apply strips_none|]. unfold dispatch_at, dispatch. rewrite Hr. by apply settles_const.
    + intros d1 Hd1. rewrite <- (strips_fun _ _ _ _ (strips_none _ _ Hq) Hd1). done.
  - split; [eapply struct_ends; eauto; intros i c Hc; by apply (IH i c Hc)|]. destruct (struct_facts _ Hg) as (Hq & _ & Ha & _).
    intros d1 Hd1. rewrite <- (strips_fun _ _ _ _ (strips_none _ _ Hq) Hd1). done.
  - assert (rows d) as Hro by (by eapply array_rows). split; [by apply array_ends|done].
Qed.

(** C38. On every C type, with members that are not supported or without, the import
    ends: enough fuel gives one answer, which is a layout, or a list of problems,
    except that a typedef of an array whose entry has no size, as compilers leave
    it out, can raise a KeyError. *)
Theorem import_ends index c_name schema d spelling s :
  find_type index c_name = Some (d, spelling) → sized d s →
  ∃ n r, (∀ m, (n ≤ m)%nat → layout_of die_at m index c_name schema = r)
    ∧ match r with
      | Ok l => ly_c_type l = spelling
      | Err (IRejected problems) => problems ≠ []
      | Err (ICrash e) => e = WKey "DW_AT_byte_size" ∧ ∃ d', strips d d' ∧ tag_of d' = ARRAY_TYPE
      end.
Proof.
  intros Hfind Hs. destruct (flatten_ends _ (proj1 (sized_ends _ _ Hs))) as [n Hn]. destruct (Hn ([], ""%string, 0)) as (r & Hr & Hm).
  destruct (sized_strip _ _ Hs) as [d' Hd']. destruct (strips_unqualified _ _ _ Hd') as [k Hk].
  exists (n `max` k)%nat. eexists. split.
  { intros m Hle. unfold layout_of. rewrite Hfind. unfold flatten_at in Hm. cbn [fst snd] in Hm. rewrite Hm by lia. rewrite Hk by lia. mcbn. reflexivity. }
  destruct r as [[|f leaves]|[]]; try done; [by destruct (option_list _)| |by destruct (option_list _)].
  unfold byte_size, attribute. destruct (at_byte_size (attrs_of d')) as [size|] eqn:Hb; cbn [crash]; mcbn.
  - case_bool_decide as Hp; mcbn; done.
  - split; [done|]. exists d'. split; [done|]. pose proof (sized_strips _ _ _ _ Hs Hd') as Hs'. pose proof (strips_inv _ _ _ Hd') as Hq.
    destruct (String.eqb_spec (tag_of d') ARRAY_TYPE) as [|Ha]; [done|exfalso].
    destruct (element_cases _ _ Hs' Hq Ha) as [(_ & _ & ?)|[[c Hre]|(_ & _ & ?)]]; [congruence| |congruence].
    pose proof (Hm (S (n `max` k)) ltac:(lia)) as Hf. unfold flatten_at in Hf. cbn [SchemaImport.flatten fst snd] in Hf.
    rewrite Hk in Hf by lia. cbn [mbind result_bind] in Hf. unfold dispatch in Hf. by rewrite Hre in Hf.
Qed.
End ends.

(** ** The witness: a typedef of a struct with an array of structs *)

Open Scope string_scope.
Definition entry (tag name : string) (type size encoding location upper : option Z) : list die → die :=
  Die tag (mk_attributes (Some name) type size encoding None None (Int <$> upper) (Int <$> location) false false false).
Definition demo_member (name : string) (type offset : Z) : die :=
  entry "DW_TAG_member" name (Some type) None None (Some offset) None [].
Definition demo_double : die := entry BASE_TYPE "double" None (Some 8) (Some 4) None None [].
Definition demo_flag : die := entry BASE_TYPE "_Bool" None (Some 1) (Some 2) None None [].
Definition demo_point : die :=
  entry STRUCTURE_TYPE "point" None (Some 16) None None None [demo_member "seen" 2 0; demo_member "x" 1 8].
Definition demo_points : die :=
  entry ARRAY_TYPE "" (Some 3) None None None None [entry "DW_TAG_subrange_type" "" None None None None (Some 1) []].
Definition demo_frame : die :=
  entry STRUCTURE_TYPE "frame" None (Some 40) None None None [demo_member "valid" 2 0; demo_member "points" 4 8].
Definition demo_frame_t : die := entry "DW_TAG_typedef" "frame_t" (Some 5) None None None None [].
Definition demo_points_t : die := entry "DW_TAG_typedef" "points_t" (Some 4) None None None None [].
Close Scope string_scope.
Definition demo_at (z : Z) : option die :=
  match z with
  | 1 => Some demo_double | 2 => Some demo_flag | 3 => Some demo_point | 4 => Some demo_points | 5 => Some demo_frame
  | _ => None
  end.
Definition demo_index : type_index :=
  match index_of demo_at 9 (Some [[demo_double; demo_flag; demo_point; demo_points; demo_frame; demo_frame_t; demo_points_t]]) with
  | Ok index => index
  | Err _ => mk_type_index [] []
  end.
Definition demo_layout : layout :=
  match layout_of demo_at 9 demo_index "frame_t" "acc.Frame" with Ok l => l | Err _ => mk_layout "" "" 0 [] end.

Example demo_fields : (λ f, (if_name f, if_type f, if_count f, if_offset f)) <$> ly_fields demo_layout =
  [("valid", "u8", None, 0); ("_sil_pad_1", "u8", Some 7, 1); ("points_0_seen", "u8", None, 8); ("_sil_pad_9", "u8", Some 7, 9);
   ("points_0_x", "f64", None, 16); ("points_1_seen", "u8", None, 24); ("_sil_pad_25", "u8", Some 7, 25); ("points_1_x", "f64", None, 32)]%string.
Proof. vm_compute. reflexivity. Qed.

Lemma demo_base_sized d s :
  tag_of d = BASE_TYPE → is_Some (at_encoding (attrs_of d)) → at_byte_size (attrs_of d) = Some s → 0 < s → sized demo_at d s.
Proof. intros Ht He Hs Hpos. apply sized_scalar; [|done|done]. unfold scalar_entry. by rewrite Ht. Qed.
Lemma demo_double_sized : sized demo_at demo_double 8.
Proof. by apply demo_base_sized; [|eexists| |]. Qed.
Lemma demo_flag_sized : sized demo_at demo_flag 1.
Proof. by apply demo_base_sized; [|eexists| |]. Qed.
Lemma demo_point_sized : sized demo_at demo_point 16.
Proof.
  apply (sized_struct _ _ _ (λ i, match i with O => demo_flag | _ => demo_double end) (λ i, match i with O => 1 | _ => 8 end)); try done.
  - by intros [|[|i]] c [= <-].
  - intros [|[|i]] c [= <-]; [apply demo_flag_sized|apply demo_double_sized].
  - intros [|[|i]] c [= <-] _; vm_compute; split; congruence.
  - intros [|[|i]] [|[|j]] c c' Hij [= <-] [= <-] _ _; try lia. left. vm_compute. congruence.
Qed.
Lemma demo_points_sized : sized demo_at demo_points 32.
Proof.
  apply (sized_array _ _ demo_point 16); try done; [apply demo_point_sized|..].
  - intros m dims [= <-]. done.
  - intros c Hc. by apply list_elem_of_singleton in Hc as ->.
Qed.
Lemma demo_frame_sized : sized demo_at demo_frame_t 40.
Proof.
  apply (sized_qualified _ _ demo_frame); [done..|].
  apply (sized_struct _ _ _ (λ i, match i with O => demo_flag | _ => demo_points end) (λ i, match i with O => 1 | _ => 32 end)); try done.
  - by intros [|[|i]] c [= <-].
  - intros [|[|i]] c [= <-]; [apply demo_flag_sized|apply demo_points_sized].
  - intros [|[|i]] c [= <-] _; vm_compute; split; congruence.
  - intros [|[|i]] [|[|j]] c c' Hij [= <-] [= <-] _ _; try lia. left. vm_compute. congruence.
Qed.

Definition demo_claim_layout : Prop :=
  ∃ fs, fields_of_json (schema_of demo_layout) = Some fs ∧ ly_size demo_layout = 40 ∧ Z.of_nat (mt_size fs) = 40
    ∧ schema_name_problem "acc.Frame" = None
    ∧ NoDup (fd_name <$> fs) ∧ Forall (λ f, ident_problem (fd_name f) = None) fs
    ∧ (∀ i f, ly_fields demo_layout !! i = Some f → if_offset f = Z.of_nat (sum_list_with field_size (take i fs)))
    ∧ (∀ f, f ∈ ly_fields demo_layout → is_Some (if_member f) → denotes demo_at demo_frame_t [] 0 f)
    ∧ (∀ sel o p, designates demo_at demo_frame_t sel o p → ∃ f, f ∈ ly_fields demo_layout ∧ is_Some (if_member f) ∧ field_at f o p).
Definition demo_x : list selector := [Dot "points"; Sub 1; Dot "x"].
Lemma imported_layout_witness :
  length (ly_fields demo_layout) = 8%nat ∧ c_text demo_x = "points[1].x"%string
  ∧ designates demo_at demo_frame_t demo_x (8 + (row_major [2] [1] * 16 + (8 + 0))) F64 ∧ demo_claim_layout.
Proof.
  split; [vm_compute; reflexivity|]. split; [vm_compute; reflexivity|]. split.
  { apply (des_qualified _ _ demo_frame); [done..|].
    apply (des_member _ _ (demo_member "points" 4 8) _ demo_points); [done|vm_compute; right; left|done..|].
    apply (des_element _ _ demo_point [2] 16 [1] [Dot "x"]); [done..|by apply extent_bytes|repeat constructor; vm_compute; congruence|].
    apply (des_member _ _ (demo_member "x" 1 8) _ demo_double); [done|vm_compute; right; left|done..|]. apply des_scalar. by eapply holds_base. }
  exact (imported_layout demo_at 9 demo_index "frame_t" "acc.Frame" "frame_t" demo_frame_t 40 demo_layout
    ltac:(vm_compute; reflexivity) demo_frame_sized ltac:(vm_compute; reflexivity)).
Defined.

Definition demo_memory : bytes := replicate 32 x01 ++ [x00; x00; x00; x00; x00; x00; xf0; x3f].
Lemma imported_values_witness :
  scalar_at demo_at demo_frame_t (8 + (1 * 16 + (8 + 0))) F64
  ∧ ∃ fs vals, fields_of_json (schema_of demo_layout) = Some fs ∧ mt_unpack fs demo_memory = Ok vals
    ∧ dget vals "points_1_x" = Some (VNum (PFloat 4607182418800017408)).
Proof.
  split.
  { apply (at_qualified _ _ demo_frame); [done..|]. apply (at_member _ _ (demo_member "points" 4 8) demo_points); [done|vm_compute; right; left|done|].
    apply (at_element _ _ demo_point [2] 16); [done..|by apply extent_bytes|vm_compute; split; congruence|].
    apply (at_member _ _ (demo_member "x" 1 8) demo_double); [done|vm_compute; right; left|done|]. apply at_scalar. by eapply holds_base. }
  destruct (imported_values demo_at 9 demo_index "frame_t" "acc.Frame" "frame_t" demo_frame_t 40 demo_layout
    ltac:(vm_compute; reflexivity) demo_frame_sized ltac:(vm_compute; reflexivity) demo_memory ltac:(vm_compute; reflexivity))
    as (fs & vals & Hfs & Hu & _).
  exists fs, vals. split; [exact Hfs|]. split; [exact Hu|]. vm_compute in Hfs. injection Hfs as <-. vm_compute in Hu. injection Hu as <-.
  vm_compute. reflexivity.
Defined.

(** The array of structs itself has no size in its entry. *)
Lemma import_ends_witness :
  layout_of demo_at 9 demo_index "points_t" "P" = Err (ICrash (WKey "DW_AT_byte_size"))
  ∧ ∃ n r, (∀ m, (n ≤ m)%nat → layout_of demo_at m demo_index "points_t" "P" = r)
    ∧ match r with
      | Ok l => ly_c_type l = "points_t"%string
      | Err (IRejected problems) => problems ≠ []
      | Err (ICrash e) => e = WKey "DW_AT_byte_size" ∧ ∃ d', strips demo_at demo_points_t d' ∧ tag_of d' = ARRAY_TYPE
      end.
Proof.
  split; [vm_compute; reflexivity|].
  exact (import_ends demo_at demo_index "points_t" "P" demo_points_t "points_t" 32 ltac:(vm_compute; reflexivity)
    (sized_qualified demo_at demo_points_t demo_points 32 eq_refl eq_refl demo_points_sized)).
Defined.
